(* ===== verification/_CoqProject ===== *)
-Q . S2P
Prelude.v
Constants.v
Encoding.v
CEncoding.v
SimState.v
SimInt.v
SimAtomic.v
SimFloat.v
SimCompressed.v
Simulator.v
AsmBuffer.v
MicroAsm.v
AsmBranch.v
Isa.v
IntSpec.v
BitSpec.v
AsmExec.v
AsmFormats.v
AsmCFormats.v
SimInv.v
RefineOp.v
RefineImm.v
RefineMem.v
RefineC.v
RefineCMem.v
Refinement.v
RefineAtomic.v
RefineFloat.v
AsmSites.v
AsmLabels.v
AsmLink.v
RefineBranch.v
RefineLabel.v
SimMemSpec.v
AsmSeq.v
SimCalls.v
ImmRoundTrip.v
HashMap.v
HashMapSpec.v
HashMapOps.v
ObjectPool.v
PoolTable.v
Assembler.v
MacroSeq.v
MacroImm.v
MacroArith.v
MacroCompare.v
MacroBranch.v
MacroOverflow.v
MacroStack.v
MacroMem.v
InstructionPattern.v
InstructionPatternSpec.v
Hash.v
MacroHash.v
Location.v
LocationSpec.v
ParallelMove.v
ParallelMoveSpec.v
MoveEmit.v
MoveEmitSpec.v
DataStream.v
DataStreamSpec.v
StreamSpec.v
Unicode.v
UnicodeSpec.v
UnicodeText.v
UnicodeString.v
RangeAnalysis.v
RangeSpec.v
RangeJoin.v
RangeTransfer.v
RangeArith.v
RangeSound.v
RangePhi.v
RangeCheck.v
RangeInfer.v
RangeInferSpec.v
RuntimeWitnesses.v
Witnesses.v
