(* ===== verification/Prelude.v ===== *)
(** * The RISC-V back end and parts of the runtime of the Dart virtual machine

    Of the Dart SDK, this library models the layer of the virtual machine that
    knows RISC-V: the assembler that turns calls such as [add(rd, rs1, rs2)],
    [beq(rs1, rs2, label)] or [LoadImmediate(reg, imm)] into bytes, and the
    simulator that executes those bytes on hosts of another architecture.  The
    two sides are written independently of each other in the source and meet
    only in the bytes.  The central theorems put them together: executing what
    a method of the assembler emitted has the effect that the instruction set
    manual gives the instruction, and, for the macro assembler, the effect that
    callers of the macro rely on.  Both widths (XLEN 32 and 64), the build
    modes (ASSERT is checked in DEBUG builds only) and the extension sets are
    parameters.

    Above and beside that layer it models parts of the compiler and of the
    runtime that stand on their own: the range analysis, by which the compiler
    removes bounds and overflow checks, the parallel moves, the
    object pool, hash maps, hash functions, data streams and Unicode.

    ** The parts and how they interact

    - vm/constants_riscv.h: register names, opcode and function fields, the
      five 32-bit and the compressed immediate formats, classes Instr and
      CInstr.  Used by both sides.
      Files Constants (enumerations, [Target]), Encoding, CEncoding.
    - vm/simulator_riscv.{h,cc}: class Simulator.  SimState has the record
      [Sim] (registers, program counter, CSRs, reservation, stack bounds,
      random generator, process memory) and the checked memory accesses;
      SimInt, SimAtomic, SimFloat and SimCompressed have one definition per
      Interpret function; Simulator has system instructions, calls from and to
      the host ([Host]: redirections and what host functions do), setjmp
      buffers, dispatch and the execution loops.
    - vm/compiler/assembler/assembler_base.{h,cc}, assembler_riscv.{h,cc}:
      AsmBuffer (the code buffer, extension sets, the Emit functions per
      format), MicroAsm (every instruction method of MicroAssembler with its
      choice of a compressed form), AsmBranch (Label with its five lists of
      pending branches threaded through the code, EmitBranch, EmitJump, Bind),
      Assembler (class Assembler: constants, comparisons, arithmetic, stack and
      memory macros, on the record [MacroAsm], which holds a micro assembler,
      an object pool and the deferred comparison).
    - vm/hash_map.h: HashMap (open addressing with tombstones over an array of
      pairs), the table behind the object pool.
    - vm/compiler/assembler/object_pool_builder.h, assembler_base.cc:
      ObjectPool (the constants that code loads by index; a pool may have a
      parent) and PoolTable (hashing and equality of entries).  ObjectPool is
      written against the class [IndexTable], a map from entries to indices;
      PoolTable proves that the hash map is one.
    - vm/instructions_riscv.{h,cc}, vm/code_patcher_riscv.cc: InstructionPattern
      (the runtime finds the calls in compiled code by decoding the instructions
      before a return address, and redirects them through the object pool, here
      a [HeapPool], or by writing to the code).  It reads the bytes of the macro
      assembler in the memory that the simulator executes.
    - vm/compiler/backend/range_analysis.{h,cc}: RangeAnalysis (boundaries,
      which are constants, infinities or a definition plus an offset; ranges;
      transfer functions, joins, widening, constraints, the test that removes
      bounds checks) and RangeInfer (what definitions infer: phis, conversions
      between representations, one step of the iteration).  Of the intermediate
      language, [Graph] has what the analysis reads.
    - vm/bitfield.h, vm/compiler/backend/locations.{h,cc}: Location (a register,
      stack slot or constant in one word).
    - vm/compiler/backend/parallel_move_resolver.{h,cc}, il.h: ParallelMove
      (moves that happen at once, put into an order with swaps for cycles, and
      the choice of scratch registers) and, with
      vm/compiler/backend/flow_graph_compiler_riscv.cc, MoveEmit (the code for
      the moves and swaps of a schedule, by the macro assembler).
    - vm/hash.h: Hash, the reference of the assembler's hash macros.
    - vm/datastream.{h,cc}: DataStream (the integer encodings of snapshots, over
      the class [ByteSink] with the growing and the streaming buffer).
    - platform/unicode.{h,cc}, vm/unicode.cc: Unicode (UTF-8 and UTF-16, and
      their use on strings through the iterator over code points).

    A C++ function that changes an object is a function from its state to
    [Res] of the new state.  [Err] has one constructor per way the code can
    end abnormally: a failed assertion, a FATAL, an exit of the simulator, or
    undefined behaviour of C++ ([UndefinedBehavior]), which is an outcome of
    its own and never given a value.  Machine integers are [Z] with the wrap
    written out ([wrapU], [wrapS], and [ux], [sx] for the register width).

    ** What is proved

    - Isa states the instructions' meaning, independently of the code:
      arithmetic on [Z], no words or masks.  IntSpec and BitSpec prove that the
      simulator's helper loops (multiplication by halves, bit counts,
      carry-less products, byte reversal) compute it.
    - AsmFormats, AsmCFormats, AsmExec, ImmRoundTrip: the fields the simulator
      decodes are those that were encoded, for every format.
    - RefineOp to RefineFloat, Refinement: for each instruction
      method, [implements]: it emits one instruction and the execution of those
      bytes is the ISA's transformer, with nothing else changed.
    - AsmSites, AsmLabels, AsmLink, RefineBranch, RefineLabel: branches and
      jumps reach their label in every shape (compressed, plain, inverted over
      a jump, far), for bound labels and for labels bound later; [Bind]
      resolves every pending branch ([linked] is the invariant of the chains).
      A branch needs an offset in [branch_reach]; in [branch_gap] a DEBUG build
      asserts.  The far form of a jump never links ([link_register]).
    - SimInv: [sim_ok], the type invariant, is kept by every instruction; the
      execution loop returns exactly when finitely many steps reach the
      sentinel address; calls keep the preserved registers.  SimCalls: host
      calls, redirections and unwinding.  SimMemSpec: memory accesses, stores,
      NaN boxing, the random generator.
    - HashMapSpec, HashMapOps: the hash map refines a list of
      pairs in order of insertion.  ObjectPool, PoolTable: the index returned
      for a constant resolves to it, equal constants share it, and committing a
      pool to its parent is all or nothing.
    - AsmSeq: the execution of a block of straight-line code is the composition
      of its instructions' effects.  On it, per group of macros: MacroImm
      (constants, in at most eight instructions), MacroArith (arithmetic with
      constants and scaled addition), MacroCompare (SetIf), MacroBranch
      (BranchIf), MacroOverflow (arithmetic that branches on overflow, for the
      operands of [overflow_operands]),
      MacroStack (a pop restores what a push saved), MacroMem (loads and stores
      of words at any offset), MacroHash (the hash macros
      compute the functions of vm/hash.h).
    - InstructionPatternSpec: the decoders return what was emitted, for loads
      near and far and every choice of compressed instructions; static, instance
      and switchable calls are read back and patched; relative calls go where
      they are patched to.  The condition that decoding backwards needs, on the
      halfword before the code, is [parcel_before].
    - RangeSpec to RangeInferSpec: the range analysis over-approximates
      executions.  An execution is a valuation of the definitions ([executes]):
      it satisfies the definitions' equations, the ranges contain its values,
      and symbols have a rank that decreases, so that the walks along them end.
      RangeSpec (bounds of boundaries), RangeJoin (canonical forms, joins and
      intersections), RangeTransfer, RangeArith (each
      transfer function covers the operator on 64-bit integers), RangeSound
      (binary operations, the overflow flag, constraints), RangePhi (joins of
      ranges, widening), RangeCheck (bounds checks that are removed are
      redundant), RangeInferSpec (phis, conversions with the debug check of the
      inferred range, the end of widening).
    - LocationSpec, ParallelMoveSpec: locations read back what they
      were made of; the schedule of a parallel move has its effect; scratch
      registers are free.  MoveEmitSpec composes the resolver, the emitter, the
      macro assembler and the simulator: the code of a parallel move among
      registers and words of the frame performs it ([val] is the value of a
      location in a machine state, [area] the shape of the frame).
    - DataStreamSpec, StreamSpec: what is written is read back, in any sequence
      of encodings and over either buffer, as long as the sizes of the buffer
      stay in [intptr_t] ([items_fit]).
    - UnicodeSpec, UnicodeText, UnicodeString: the decoders agree with the
      standard's encoding, on all byte arrays, and strings survive the round
      trip but for the unpaired surrogates that the encoder replaces.
    - The end of RefineLabel, [SubtractBranchOverflow_aliased] and
      [AddImmediateBranchOverflow_in_place] in MacroOverflow,
      [PcRelativeCall_overshoots] in InstructionPatternSpec,
      [EnsureSpace_overflows] in StreamSpec,
      [DecodeLoadX_ambiguous] in Witnesses, [JoinMin_outside] and [InferPhi_int64_limit] in RuntimeWitnesses: places
      where the code does not do what it means to, as theorems.
    - Witnesses, RuntimeWitnesses: every theorem with hypotheses
      at a concrete input.

    ** Bounds

    Recursion that the code does not bound has fuel, and the theorems show that
    it is enough or speak of every amount.  [ExecuteNoTrace] runs on fuel
    because simulated programs need not end: [ExecuteNoTrace_steps] relates the
    loop to the inductive [steps] in both directions.  [BIND_loop] has the
    length of the buffer plus one, since a chain visits each position at most
    once.  The probes of the hash map have the length of the table, the nesting
    of Insert and Resize is two (a resized table has room), and its theorems
    hold up to 2^27 pairs, below the 32-bit limits of the code.
    [LoadImmediate] has four nested calls, as each removes at least 11 of 64
    bits.  [PerformMove] has the number of moves plus one, as each call marks a
    move pending; frames have up to 2^20 words, which every offset reaches;
    the components of a pair of locations are no pairs; the loops of the streams have the width of the value, those of
    Unicode the length of the array.  The walks of the range analysis have the
    number of definitions ([ex_fuel]: more than any rank), comparisons that walk
    on both sides twice that.  Loops over bits and registers are structural.

    ** Not modelled

    Of the macro assembler: macros whose meaning depends on the running
    virtual machine (allocation, write barriers, Dart frames, safepoints,
    runtime calls, access to Thread), CountLeadingZeroes, floating-point
    constants and atomics.  EnterFrame, LeaveFrame, RangeCheck, MulImmediate and
    the accesses at an offset of other sizes than a word are modelled without
    theorems.  Of the range analysis: what rewrites the flow graph (insertion of
    constraints, generalization of bounds checks, selection of 32-bit
    instructions) and the fixpoint over a whole graph with loops, for which
    [executes] would have to speak of sequences of valuations.  Of the
    parallel moves: the code for a constant, which is a parameter of the
    emitter, and the emitters of other architectures; the theorem about the emitted code is for
    release builds (DEBUG builds check SP in between) and leaves out
    floating-point registers, double slots and pairs, which are modelled.  Of
    the patterns: the access to ICData, patterns that the source leaves
    unimplemented, and the write barrier of a store to a pool.  The simulator's
    debugger and its printing are pure output.  Host functions are the parameter [Host]; the payload of the
    NaN that host floating-point operations produce is the parameter
    [HostNaN]; object hashes are the parameter [ObjectHashing].  Other
    architectures, the compiler above this layer, the heap, the object model,
    isolates, snapshots, the regular-expression engine, the embedder and the
    Dart code are separate subsystems.

    ** This file

    The outcomes of the modelled functions with their monad, fixed-width
    integers and bit fields on [Z], and the tactics on them ([bitblast] and the
    rewriting databases). *)

From stdpp Require Import base numbers list gmap.
From Stdlib Require Import ZArith Lia Bool Btauto.

#[local] Open Scope Z_scope.

(** ** Outcomes: the ways a C++ function of the modelled code can end *)

Inductive error : Set :=
| AssertionFailure                     (* ASSERT(cond), DEBUG builds only *)
| UndefinedBehavior                    (* the C++ standard gives no meaning *)
| HostFault (address : Z)              (* the host has no memory there *)
| IllegalInstr (encoding : Z)          (* FATAL("Illegal instruction: ...") *)
| Ebreak                               (* FATAL("Encountered EBREAK") *)
| OutOfBoundsStackAccess
| BadMemoryAccess
| MisalignedAtomic
| StackMisaligned
| StackUnbalanced
| RegisterNotPreserved (index : Z)
| UnknownCSR (csr : Z)
| IncorrectNearJump
| BranchDistanceExceeds2GB
| BranchOffsetBailout                  (* BailoutWithBranchOffsetError *)
| InvalidMemoryOrder
| UseBranchOverflow                    (* FATAL("Use Add/Subtract/MultiplyBranchOverflow instead.") *)
| InvalidRoundingMode
| Unimplemented
| Unreachable
| OutsideOfRedirection (address : Z)   (* an ECALL that no Redirection holds *)
| OutOfMemory                          (* Exceptions::ThrowOOM *)
| OutOfFuel.                           (* the model's bound, not the code's *)

Inductive Res (A : Type) : Type :=
| Ok (a : A)
| Err (e : error).
Arguments Ok {A} _.
Arguments Err {A} _.

#[export] Instance error_eq_dec : EqDecision error.
Proof. solve_decision. Defined.

Definition rbind {A B} (m : Res A) (k : A -> Res B) : Res B :=
  match m with Ok a => k a | Err e => Err e end.

Definition is_ok {A} (m : Res A) : bool :=
  match m with Ok _ => true | Err _ => false end.

Declare Scope res_scope.
Delimit Scope res_scope with res.
Notation "'let*' x ':=' m 'in' k" := (rbind m (fun x => k))
  (at level 10, x pattern, m at level 100, k at level 200) : res_scope.
Notation "m ;; k" := (rbind m (fun _ => k)) : res_scope.

Lemma rbind_ok_inv {A B} (m : Res A) (k : A -> Res B) b :
  rbind m k = Ok b -> exists a, m = Ok a /\ k a = Ok b.
Proof. destruct m; simpl; intros H; [eauto | discriminate]. Qed.

(** ** Machine integers *)

Definition wrapU (n x : Z) : Z := x mod 2 ^ n.
Definition wrapS (n x : Z) : Z := (x + 2 ^ (n - 1)) mod 2 ^ n - 2 ^ (n - 1).

Abbreviation u8 := (wrapU 8).
Abbreviation u16 := (wrapU 16).
Abbreviation u32 := (wrapU 32).
Abbreviation u64 := (wrapU 64).
Abbreviation s8 := (wrapS 8).
Abbreviation s16 := (wrapS 16).
Abbreviation s32 := (wrapS 32).
Abbreviation s64 := (wrapS 64).

Definition inU (n x : Z) : Prop := 0 <= x < 2 ^ n.
Definition inS (n x : Z) : Prop := - 2 ^ (n - 1) <= x < 2 ^ (n - 1).

(** [field e lo n] is [(e >> lo) & ((1 << n) - 1)]. *)
Definition field (e lo n : Z) : Z := Z.land (Z.shiftr e lo) (Z.ones n).


Lemma pow2_pos n : 0 <= n -> 0 < 2 ^ n.
Proof. intros; apply Z.pow_pos_nonneg; lia. Qed.

Lemma pow2_split n : 0 < n -> 2 ^ n = 2 * 2 ^ (n - 1).
Proof. intros. rewrite <- Z.pow_succ_r by lia. f_equal; lia. Qed.

Lemma wrapU_range n x : 0 <= n -> inU n (wrapU n x).
Proof. intros. apply Z.mod_pos_bound, pow2_pos; lia. Qed.

Lemma wrapU_small n x : inU n x -> wrapU n x = x.
Proof. apply Z.mod_small. Qed.

Lemma wrapU_wrapU n x : wrapU n (wrapU n x) = wrapU n x.
Proof. apply Zmod_mod. Qed.

Lemma wrapU_idem_add_l n a b : wrapU n (wrapU n a + b) = wrapU n (a + b).
Proof. apply Zplus_mod_idemp_l. Qed.

Lemma wrapU_idem_add_r n a b : wrapU n (a + wrapU n b) = wrapU n (a + b).
Proof. apply Zplus_mod_idemp_r. Qed.

Lemma wrapU_idem_sub_l n a b : wrapU n (wrapU n a - b) = wrapU n (a - b).
Proof. apply Zminus_mod_idemp_l. Qed.

Lemma wrapU_idem_sub_r n a b : wrapU n (a - wrapU n b) = wrapU n (a - b).
Proof. apply Zminus_mod_idemp_r. Qed.

Lemma wrapU_idem_mul_l n a b : wrapU n (wrapU n a * b) = wrapU n (a * b).
Proof. apply Zmult_mod_idemp_l. Qed.

Lemma wrapU_idem_mul_r n a b : wrapU n (a * wrapU n b) = wrapU n (a * b).
Proof. apply Zmult_mod_idemp_r. Qed.

Lemma wrapU_add_multiple n a k : 0 <= n -> wrapU n (a + k * 2 ^ n) = wrapU n a.
Proof. intros. apply Z_mod_plus_full. Qed.

Lemma wrapS_range n x : 0 < n -> inS n (wrapS n x).
Proof.
  intros. unfold inS, wrapS.
  pose proof (Z.mod_pos_bound (x + 2 ^ (n - 1)) (2 ^ n) ltac:(apply pow2_pos; lia)).
  pose proof (pow2_split n). lia.
Qed.

Lemma wrapS_small n x : 0 < n -> inS n x -> wrapS n x = x.
Proof.
  unfold inS, wrapS. intros Hn Hx. rewrite (Z.mod_small (x + _)); [lia|].
  pose proof (pow2_split n). lia.
Qed.

Lemma wrapS_wrapU n x : 0 < n -> wrapS n (wrapU n x) = wrapS n x.
Proof. intros. unfold wrapS, wrapU. by rewrite Zplus_mod_idemp_l. Qed.

Lemma wrapU_wrapS n x : 0 < n -> wrapU n (wrapS n x) = wrapU n x.
Proof.
  intros. unfold wrapS, wrapU. rewrite Zminus_mod_idemp_l. f_equal; lia.
Qed.

Lemma wrapS_add_multiple n x k : wrapS n (x + k * 2 ^ n) = wrapS n x.
Proof.
  unfold wrapS. replace (x + k * 2 ^ n + 2 ^ (n - 1)) with (x + 2 ^ (n - 1) + k * 2 ^ n) by lia.
  by rewrite Z_mod_plus_full.
Qed.

Lemma wrapS_wrapS n x : 0 < n -> wrapS n (wrapS n x) = wrapS n x.
Proof. intros. apply wrapS_small, wrapS_range; lia. Qed.

Lemma inS_mono m n x : inS m x -> 0 < m <= n -> inS n x.
Proof.
  unfold inS. intros. assert (2 ^ (m - 1) <= 2 ^ (n - 1)) by (apply Z.pow_le_mono_r; lia). lia.
Qed.

(** The signed reading of an unsigned word, by cases on its top bit. *)
Lemma wrapS_cases n x :
  0 < n -> inU n x ->
  wrapS n x = (if x <? 2 ^ (n - 1) then x else x - 2 ^ n).
Proof.
  unfold inU, wrapS. intros Hn Hx. pose proof (pow2_split n Hn).
  destruct (Z.ltb_spec x (2 ^ (n - 1))).
  - rewrite Z.mod_small; lia.
  - replace (x + 2 ^ (n - 1)) with ((x - 2 ^ (n - 1)) + 1 * 2 ^ n) by lia.
    rewrite Z_mod_plus_full, Z.mod_small; lia.
Qed.

Lemma wrapS_eq_wrapU n x y : 0 < n -> inS n y -> wrapU n x = wrapU n y -> wrapS n x = y.
Proof.
  intros Hn Hy E. rewrite <- wrapS_wrapU, E, wrapS_wrapU by lia. by apply wrapS_small.
Qed.

(** ** Bits *)

Lemma testbit_small n x i : inU n x -> 0 <= n <= i -> Z.testbit x i = false.
Proof.
  intros Hx Hn. rewrite <- (wrapU_small n x Hx). apply Z.mod_pow2_bits_high; lia.
Qed.

Lemma testbit_wrapU n x i :
  0 <= n -> Z.testbit (wrapU n x) i = (i <? n) && Z.testbit x i.
Proof.
  intros. unfold wrapU. rewrite Z.testbit_mod_pow2 by lia. reflexivity.
Qed.

Lemma wrapS_alt n x :
  0 < n ->
  wrapS n x = if Z.testbit x (n - 1) then wrapU n x - 2 ^ n else wrapU n x.
Proof.
  intros Hn. rewrite <- wrapS_wrapU by lia.
  pose proof (wrapU_range n x ltac:(lia)) as R. rewrite wrapS_cases by done.
  replace (Z.testbit x (n - 1)) with (Z.testbit (wrapU n x) (n - 1))
    by (rewrite testbit_wrapU by lia; destruct (Z.ltb_spec (n - 1) n); [done|lia]).
  unfold inU in R. pose proof (pow2_split n Hn).
  destruct (Z.ltb_spec (wrapU n x) (2 ^ (n - 1))).
  - rewrite (testbit_small (n - 1)); [done|split; lia|lia].
  - replace (Z.testbit (wrapU n x) (n - 1)) with true; [done|]. symmetry.
    apply Z.testbit_true; [lia|].
    replace (wrapU n x) with (wrapU n x - 2 ^ (n - 1) + 1 * 2 ^ (n - 1)) by lia.
    rewrite Z.div_add by lia. rewrite Z.div_small by lia. reflexivity.
Qed.

Lemma testbit_sub_pow2 n x i :
  0 <= n -> inU n x -> 0 <= i ->
  Z.testbit (x - 2 ^ n) i = (n <=? i) || Z.testbit x i.
Proof.
  intros Hn Hx Hi.
  replace (x - 2 ^ n) with (Z.lor x (Z.shiftl (-1) n)).
  - rewrite Z.lor_spec, Z.shiftl_spec by lia.
    destruct (Z.leb_spec n i).
    + rewrite Z.bits_m1 by lia. by rewrite orb_true_r.
    + rewrite (Z.testbit_neg_r (-1)) by lia. by rewrite orb_false_r.
  - assert (Z.land x (Z.shiftl (-1) n) = 0) as E.
    { apply Z.bits_inj'; intros j Hj. rewrite Z.land_spec, Z.shiftl_spec, Z.bits_0 by lia.
      destruct (Z.lt_ge_cases j n).
      - by rewrite (Z.testbit_neg_r (-1)), andb_false_r by lia.
      - by rewrite (testbit_small n x) by (try apply Hx; lia). }
    rewrite <- Z.lxor_lor, <- Z.add_nocarry_lxor by done.
    rewrite Z.shiftl_mul_pow2 by lia. lia.
Qed.

Lemma testbit_wrapS n x i :
  0 < n -> 0 <= i -> Z.testbit (wrapS n x) i = Z.testbit x (Z.min i (n - 1)).
Proof.
  intros Hn Hi. rewrite wrapS_alt by lia.
  pose proof (wrapU_range n x ltac:(lia)) as R.
  destruct (Z.testbit x (n - 1)) eqn:E.
  - rewrite testbit_sub_pow2, testbit_wrapU by (done || lia).
    destruct (Z.leb_spec n i); destruct (Z.ltb_spec i n); try lia; simpl.
    + by rewrite Z.min_r by lia.
    + by rewrite Z.min_l by lia.
  - rewrite testbit_wrapU by lia. destruct (Z.ltb_spec i n); simpl.
    + by rewrite Z.min_l by lia.
    + by rewrite Z.min_r by lia.
Qed.

Lemma testbit_inS n x i : 0 < n -> inS n x -> n - 1 <= i -> Z.testbit x i = Z.testbit x (n - 1).
Proof.
  intros Hn Hx Hi. rewrite <- (wrapS_small n x Hn Hx) at 1.
  rewrite testbit_wrapS by lia. f_equal; lia.
Qed.

Lemma testbit_aligned k x i : 0 <= i < k -> x mod 2 ^ k = 0 -> Z.testbit x i = false.
Proof.
  intros Hi Hx. rewrite <- (Z.mod_pow2_bits_low x k i) by lia. by rewrite Hx, Z.bits_0.
Qed.

(** *** A bit-level decision procedure

    [bitblast] compares two integers bit by bit: it pushes [Z.testbit] through
    the operations, splits on every comparison of the bit index with a
    constant, drops bits that are outside a variable's known range, and closes
    the boolean goals that remain. *)

Lemma testbit_shiftl x n i :
  Z.testbit (Z.shiftl x n) i = (0 <=? i) && Z.testbit x (i - n).
Proof.
  destruct (Z.leb_spec 0 i); [apply Z.shiftl_spec; lia | by apply Z.testbit_neg_r].
Qed.

Lemma testbit_shiftr x n i :
  Z.testbit (Z.shiftr x n) i = (0 <=? i) && Z.testbit x (i + n).
Proof.
  destruct (Z.leb_spec 0 i); [apply Z.shiftr_spec; lia | by apply Z.testbit_neg_r].
Qed.

Lemma testbit_ones n i : 0 <= n -> Z.testbit (Z.ones n) i = (0 <=? i) && (i <? n).
Proof.
  intros. destruct (Z.leb_spec 0 i).
  - by apply Z.testbit_ones_nonneg.
  - by apply Z.testbit_neg_r.
Qed.

Lemma testbit_wrapS_full n x i :
  0 < n -> Z.testbit (wrapS n x) i = (0 <=? i) && Z.testbit x (Z.min i (n - 1)).
Proof.
  intros. destruct (Z.leb_spec 0 i); [by apply testbit_wrapS | by apply Z.testbit_neg_r].
Qed.

Lemma testbit_lnot x i : Z.testbit (Z.lnot x) i = (0 <=? i) && negb (Z.testbit x i).
Proof.
  destruct (Z.leb_spec 0 i); [by apply Z.lnot_spec | by apply Z.testbit_neg_r].
Qed.

Create Rewrite HintDb testbits.
#[export] Hint Rewrite Z.lor_spec Z.land_spec Z.lxor_spec Z.bits_0 testbit_shiftl
  testbit_shiftr testbit_lnot : testbits.
#[export] Hint Rewrite testbit_wrapU testbit_wrapS_full testbit_ones using lia : testbits.

(** Bits of a word in range, out of range. *)
Ltac testbit_bounds :=
  repeat match goal with
  | |- context [Z.testbit ?x ?i] =>
      is_var x;
      match goal with
      | H : inU ?n x |- _ => rewrite (testbit_small n x i H) by lia
      | H : x mod 2 ^ ?k = 0 |- _ => rewrite (testbit_aligned k x i) by (exact H || lia)
      | |- _ => rewrite (Z.testbit_neg_r x i) by lia
      end
  end.

Ltac split_index :=
  match goal with
  | |- context [?a <? ?b] => destruct (Z.ltb_spec a b)
  | |- context [?a <=? ?b] => destruct (Z.leb_spec a b)
  end; try (exfalso; lia).

Ltac norm_index i :=
  repeat match goal with
  | |- context [Z.testbit ?x ?j] =>
      first [ constr_eq i j; fail 1
            | progress replace j with i by lia ]
  end.

Ltac bit_finish :=
  try reflexivity;
  first [ f_equal; lia | btauto | idtac ].

Ltac bitblast :=
  apply Z.bits_inj'; intros ?i ?Hi;
  autorewrite with testbits;
  repeat split_index; simpl;
  testbit_bounds; rewrite ?andb_false_r, ?andb_true_r, ?orb_false_r; simpl;
  bit_finish.

(** *** Bit fields of a composed instruction word *)

Lemma field_range e lo n : 0 <= n -> inU n (field e lo n).
Proof. intros. unfold field, inU. rewrite Z.land_ones by lia. by apply wrapU_range. Qed.

Lemma field_lor a b lo n : field (Z.lor a b) lo n = Z.lor (field a lo n) (field b lo n).
Proof. unfold field. bitblast. Qed.

Lemma field_0 lo n : field 0 lo n = 0.
Proof. unfold field. by rewrite Z.shiftr_0_l. Qed.

Lemma field_wrapU m x lo n :
  0 <= lo -> 0 <= n -> lo + n <= m -> field (wrapU m x) lo n = field x lo n.
Proof. intros. unfold field. bitblast. Qed.

Lemma field_shiftl_eq v p n : 0 <= p -> inU n v -> 0 <= n -> field (Z.shiftl v p) p n = v.
Proof. intros. unfold field. bitblast. Qed.

Lemma field_shiftl_above v p lo n :
  0 <= lo -> 0 <= n -> lo + n <= p -> field (Z.shiftl v p) lo n = 0.
Proof. intros. unfold field. bitblast. Qed.

Lemma field_shiftl_below m v p lo n :
  inU m v -> 0 <= p -> 0 <= m -> 0 <= n -> p + m <= lo -> field (Z.shiftl v p) lo n = 0.
Proof. intros Hv ????. unfold field. bitblast. Qed.

Lemma field_below m v lo n :
  inU m v -> 0 <= m <= lo -> 0 <= n -> field v lo n = 0.
Proof. intros. rewrite <- (Z.shiftl_0_r v). eapply field_shiftl_below; [done|lia..]. Qed.

Lemma field_self v n : inU n v -> 0 <= n -> field v 0 n = v.
Proof. intros. rewrite <- (Z.shiftl_0_r v) at 1. by apply field_shiftl_eq. Qed.

(** Masks [0x1f], [0x7f], ... of the source, as [Z.ones k]. *)
Ltac fold_masks :=
  repeat match goal with
  | |- context [Z.land ?x ?m] =>
      lazymatch m with
      | Z.pos _ =>
        let k := eval vm_compute in (Z.log2 m + 1) in
        let m' := eval vm_compute in (Z.ones k) in
        constr_eq m m'; change (Z.land x m) with (Z.land x (Z.ones k))
      end
  end.

(** ... and the shift-and-mask idiom as [field]. *)
Ltac fold_fields :=
  fold_masks;
  repeat match goal with
  | |- context [Z.land (Z.shiftr ?e ?lo) (Z.ones ?n)] =>
      change (Z.land (Z.shiftr e lo) (Z.ones n)) with (field e lo n)
  end.

Ltac inU_tac :=
  match goal with
  | |- inU ?n (field _ _ ?n) => apply field_range; lia
  | H : inU ?n ?x |- inU _ ?x => exact H
  end.

Ltac field_step :=
  match goal with
  | |- context [field (Z.lor ?a ?b) ?lo ?n] => rewrite (field_lor a b lo n)
  | |- context [field 0 ?lo ?n] => rewrite (field_0 lo n)
  | |- context [field (Z.shiftl ?v ?p) ?lo ?n] =>
      first [ rewrite (field_shiftl_above v p lo n) by lia
            | rewrite (field_shiftl_eq v p n) by (try inU_tac; lia)
            | match goal with
              | H : inU ?m v |- _ => rewrite (field_shiftl_below m v p lo n H) by lia
              end
            | match v with
              | field ?e ?l ?m =>
                  rewrite (field_shiftl_below m v p lo n (field_range e l m ltac:(lia))) by lia
              end ]
  | H : inU ?m ?v |- context [field ?v ?lo ?n] =>
      first [ rewrite (field_below m v lo n H) by lia
            | constr_eq m n; constr_eq lo 0; rewrite (field_self v n H) by lia ]
  end.

Ltac simpl_fields :=
  repeat field_step; rewrite ?Z.lor_0_r, ?Z.lor_0_l.

(** Integer terms without variables. *)
Ltac closed_Z t :=
  lazymatch t with
  | Z0 => idtac
  | Zpos _ => idtac
  | Zneg _ => idtac
  | Z.land ?x ?y => closed_Z x; closed_Z y
  | Z.lor ?x ?y => closed_Z x; closed_Z y
  | Z.shiftl ?x ?y => closed_Z x; closed_Z y
  | _ => is_const t
  end.
