(* ===== verification/Constants.v ===== *)
(** * Constants: the target configuration and the enumerations of
    [runtime/vm/constants_riscv.h]

    [Target] fixes what the C preprocessor fixes: [XLEN] (TARGET_ARCH_RISCV32
    or TARGET_ARCH_RISCV64), the width of the host's [intptr_t] and whether
    this is a DEBUG build.  The enumerations are modules of integer constants,
    because the decoders cast arbitrary bit patterns to the enum types. *)

From stdpp Require Import base numbers.
From S2P Require Import Prelude.

#[local] Open Scope Z_scope.

(** ** Build configuration *)

Class Target := {
  XLEN : Z;
  XLEN_cases : XLEN = 32 \/ XLEN = 64;
  kBitsPerWord : Z;
  kBitsPerWord_cases : kBitsPerWord = 32 \/ kBitsPerWord = 64;
  DEBUG : bool
}.

Definition mkRV32 (debug : bool) : Target :=
  {| XLEN := 32; XLEN_cases := or_introl eq_refl;
     kBitsPerWord := 32; kBitsPerWord_cases := or_introl eq_refl; DEBUG := debug |}.

Definition mkRV64 (debug : bool) : Target :=
  {| XLEN := 64; XLEN_cases := or_intror eq_refl;
     kBitsPerWord := 64; kBitsPerWord_cases := or_intror eq_refl; DEBUG := debug |}.

(** [uintx_t] and [intx_t]. *)
Definition ux `{Target} (x : Z) : Z := wrapU XLEN x.
Definition sx `{Target} (x : Z) : Z := wrapS XLEN x.

Definition kMaxUIntX `{Target} : Z := 2 ^ XLEN - 1.
Definition kMinIntX `{Target} : Z := - 2 ^ (XLEN - 1).
Definition kMaxIntX `{Target} : Z := 2 ^ (XLEN - 1) - 1.

(** [ASSERT(cond)]: checked in DEBUG builds, absent from the others. *)
Definition ASSERT `{Target} (cond : bool) : Res unit :=
  if DEBUG && negb cond then Err AssertionFailure else Ok tt.

Lemma ASSERT_true `{Target} b : b = true -> ASSERT b = Ok tt.
Proof. intros ->. unfold ASSERT. by rewrite andb_false_r. Qed.

(** ** The enumerations *)

Module Reg.
Definition ZR : Z := 0.
Definition RA : Z := 1.
Definition SP : Z := 2.
Definition GP : Z := 3.
Definition TP : Z := 4.
Definition T0 : Z := 5.
Definition T1 : Z := 6.
Definition T2 : Z := 7.
Definition FP : Z := 8.
Definition S1 : Z := 9.
Definition A0 : Z := 10.
Definition A1 : Z := 11.
Definition A2 : Z := 12.
Definition A3 : Z := 13.
Definition A4 : Z := 14.
Definition A5 : Z := 15.
Definition A6 : Z := 16.
Definition A7 : Z := 17.
Definition S2 : Z := 18.
Definition S3 : Z := 19.
Definition S4 : Z := 20.
Definition S5 : Z := 21.
Definition S6 : Z := 22.
Definition S7 : Z := 23.
Definition S8 : Z := 24.
Definition S9 : Z := 25.
Definition S10 : Z := 26.
Definition S11 : Z := 27.
Definition T3 : Z := 28.
Definition T4 : Z := 29.
Definition T5 : Z := 30.
Definition T6 : Z := 31.
Definition kNumberOfCpuRegisters : Z := 32.
Definition kNoRegister : Z := (-1).
Definition RA2 : Z := T0.
Definition S0 : Z := FP.
End Reg.

Module FReg.
Definition FT0 : Z := 0.
Definition FT1 : Z := 1.
Definition FT2 : Z := 2.
Definition FT3 : Z := 3.
Definition FT4 : Z := 4.
Definition FT5 : Z := 5.
Definition FT6 : Z := 6.
Definition FT7 : Z := 7.
Definition FS0 : Z := 8.
Definition FS1 : Z := 9.
Definition FA0 : Z := 10.
Definition FA1 : Z := 11.
Definition FA2 : Z := 12.
Definition FA3 : Z := 13.
Definition FA4 : Z := 14.
Definition FA5 : Z := 15.
Definition FA6 : Z := 16.
Definition FA7 : Z := 17.
Definition FS2 : Z := 18.
Definition FS3 : Z := 19.
Definition FS4 : Z := 20.
Definition FS5 : Z := 21.
Definition FS6 : Z := 22.
Definition FS7 : Z := 23.
Definition FS8 : Z := 24.
Definition FS9 : Z := 25.
Definition FS10 : Z := 26.
Definition FS11 : Z := 27.
Definition FT8 : Z := 28.
Definition FT9 : Z := 29.
Definition FT10 : Z := 30.
Definition FT11 : Z := 31.
Definition kNumberOfFpuRegisters : Z := 32.
Definition kNoFpuRegister : Z := (-1).
End FReg.

Module Opcode.
Definition LUI : Z := 55. (* 0b0110111 *)
Definition AUIPC : Z := 23. (* 0b0010111 *)
Definition JAL : Z := 111. (* 0b1101111 *)
Definition JALR : Z := 103. (* 0b1100111 *)
Definition BRANCH : Z := 99. (* 0b1100011 *)
Definition LOAD : Z := 3. (* 0b0000011 *)
Definition STORE : Z := 35. (* 0b0100011 *)
Definition OPIMM : Z := 19. (* 0b0010011 *)
Definition OP : Z := 51. (* 0b0110011 *)
Definition MISCMEM : Z := 15. (* 0b0001111 *)
Definition SYSTEM : Z := 115. (* 0b1110011 *)
Definition OP32 : Z := 59. (* 0b0111011 *)
Definition OPIMM32 : Z := 27. (* 0b0011011 *)
Definition AMO : Z := 47. (* 0b0101111 *)
Definition LOADFP : Z := 7. (* 0b0000111 *)
Definition STOREFP : Z := 39. (* 0b0100111 *)
Definition FMADD : Z := 67. (* 0b1000011 *)
Definition FMSUB : Z := 71. (* 0b1000111 *)
Definition FNMSUB : Z := 75. (* 0b1001011 *)
Definition FNMADD : Z := 79. (* 0b1001111 *)
Definition OPFP : Z := 83. (* 0b1010011 *)
End Opcode.

Module Funct12.
Definition ECALL : Z := 0.
Definition EBREAK : Z := 1.
End Funct12.

Module Funct3.
Definition F3_0 : Z := 0.
Definition F3_1 : Z := 1.
Definition BEQ : Z := 0. (* 0b000 *)
Definition BNE : Z := 1. (* 0b001 *)
Definition BLT : Z := 4. (* 0b100 *)
Definition BGE : Z := 5. (* 0b101 *)
Definition BLTU : Z := 6. (* 0b110 *)
Definition BGEU : Z := 7. (* 0b111 *)
Definition LB : Z := 0. (* 0b000 *)
Definition LH : Z := 1. (* 0b001 *)
Definition LW : Z := 2. (* 0b010 *)
Definition LBU : Z := 4. (* 0b100 *)
Definition LHU : Z := 5. (* 0b101 *)
Definition LWU : Z := 6. (* 0b110 *)
Definition LD : Z := 3. (* 0b011 *)
Definition SB : Z := 0. (* 0b000 *)
Definition SH : Z := 1. (* 0b001 *)
Definition SW : Z := 2. (* 0b010 *)
Definition SD : Z := 3. (* 0b011 *)
Definition ADDI : Z := 0. (* 0b000 *)
Definition SLLI : Z := 1. (* 0b001 *)
Definition SLTI : Z := 2. (* 0b010 *)
Definition SLTIU : Z := 3. (* 0b011 *)
Definition XORI : Z := 4. (* 0b100 *)
Definition SRI : Z := 5. (* 0b101 *)
Definition ORI : Z := 6. (* 0b110 *)
Definition ANDI : Z := 7. (* 0b111 *)
Definition ADD : Z := 0. (* 0b000 *)
Definition SLL : Z := 1. (* 0b001 *)
Definition SLT : Z := 2. (* 0b010 *)
Definition SLTU : Z := 3. (* 0b011 *)
Definition XOR : Z := 4. (* 0b100 *)
Definition SR : Z := 5. (* 0b101 *)
Definition OR : Z := 6. (* 0b110 *)
Definition AND : Z := 7. (* 0b111 *)
Definition FENCE : Z := 0. (* 0b000 *)
Definition FENCEI : Z := 1. (* 0b001 *)
Definition CSRRW : Z := 1. (* 0b001 *)
Definition CSRRS : Z := 2. (* 0b010 *)
Definition CSRRC : Z := 3. (* 0b011 *)
Definition CSRRWI : Z := 5. (* 0b101 *)
Definition CSRRSI : Z := 6. (* 0b110 *)
Definition CSRRCI : Z := 7. (* 0b111 *)
Definition MUL : Z := 0. (* 0b000 *)
Definition MULH : Z := 1. (* 0b001 *)
Definition MULHSU : Z := 2. (* 0b010 *)
Definition MULHU : Z := 3. (* 0b011 *)
Definition DIV : Z := 4. (* 0b100 *)
Definition DIVU : Z := 5. (* 0b101 *)
Definition REM : Z := 6. (* 0b110 *)
Definition REMU : Z := 7. (* 0b111 *)
Definition MULW : Z := 0. (* 0b000 *)
Definition DIVW : Z := 4. (* 0b100 *)
Definition DIVUW : Z := 5. (* 0b101 *)
Definition REMW : Z := 6. (* 0b110 *)
Definition REMUW : Z := 7. (* 0b111 *)
Definition WIDTH32 : Z := 2. (* 0b010 *)
Definition WIDTH64 : Z := 3. (* 0b011 *)
Definition S : Z := 2. (* 0b010 *)
Definition D : Z := 3. (* 0b011 *)
Definition J : Z := 0. (* 0b000 *)
Definition JN : Z := 1. (* 0b001 *)
Definition JX : Z := 2. (* 0b010 *)
Definition FMIN : Z := 0. (* 0b000 *)
Definition FMAX : Z := 1. (* 0b001 *)
Definition FEQ : Z := 2. (* 0b010 *)
Definition FLT : Z := 1. (* 0b001 *)
Definition FLE : Z := 0. (* 0b000 *)
Definition SH1ADD : Z := 2. (* 0b010 *)
Definition SH2ADD : Z := 4. (* 0b100 *)
Definition SH3ADD : Z := 6. (* 0b110 *)
Definition F3_COUNT : Z := 1. (* 0b001 *)
Definition MAX : Z := 6. (* 0b110 *)
Definition MAXU : Z := 7. (* 0b111 *)
Definition MIN : Z := 4. (* 0b100 *)
Definition MINU : Z := 5. (* 0b101 *)
Definition CLMUL : Z := 1. (* 0b001 *)
Definition CLMULH : Z := 3. (* 0b011 *)
Definition CLMULR : Z := 2. (* 0b010 *)
Definition SEXT : Z := 1. (* 0b001 *)
Definition ZEXT : Z := 4. (* 0b100 *)
Definition ROL : Z := 1. (* 0b001 *)
Definition ROR : Z := 5. (* 0b101 *)
Definition BCLR : Z := 1. (* 0b001 *)
Definition BEXT : Z := 5. (* 0b101 *)
Definition F3_BINV : Z := 1. (* 0b001 *)
Definition F3_BSET : Z := 1. (* 0b001 *)
End Funct3.

Module Funct7.
Definition F7_0 : Z := 0.
Definition SRA : Z := 32. (* 0b0100000 *)
Definition SUB : Z := 32. (* 0b0100000 *)
Definition MULDIV : Z := 1. (* 0b0000001 *)
Definition FADDS : Z := 0. (* 0b0000000 *)
Definition FSUBS : Z := 4. (* 0b0000100 *)
Definition FMULS : Z := 8. (* 0b0001000 *)
Definition FDIVS : Z := 12. (* 0b0001100 *)
Definition FSQRTS : Z := 44. (* 0b0101100 *)
Definition FSGNJS : Z := 16. (* 0b0010000 *)
Definition FMINMAXS : Z := 20. (* 0b0010100 *)
Definition FCMPS : Z := 80. (* 0b1010000 *)
Definition FCLASSS : Z := 112. (* 0b1110000 *)
Definition FCVTintS : Z := 96. (* 0b1100000 *)
Definition FCVTSint : Z := 104. (* 0b1101000 *)
Definition FMVXW : Z := 112. (* 0b1110000 *)
Definition FMVWX : Z := 120. (* 0b1111000 *)
Definition FADDD : Z := 1. (* 0b0000001 *)
Definition FSUBD : Z := 5. (* 0b0000101 *)
Definition FMULD : Z := 9. (* 0b0001001 *)
Definition FDIVD : Z := 13. (* 0b0001101 *)
Definition FSQRTD : Z := 45. (* 0b0101101 *)
Definition FSGNJD : Z := 17. (* 0b0010001 *)
Definition FMINMAXD : Z := 21. (* 0b0010101 *)
Definition FCVTS : Z := 32. (* 0b0100000 *)
Definition FCVTD : Z := 33. (* 0b0100001 *)
Definition FCMPD : Z := 81. (* 0b1010001 *)
Definition FCLASSD : Z := 113. (* 0b1110001 *)
Definition FCVTintD : Z := 97. (* 0b1100001 *)
Definition FCVTDint : Z := 105. (* 0b1101001 *)
Definition FMVXD : Z := 113. (* 0b1110001 *)
Definition FMVDX : Z := 121. (* 0b1111001 *)
Definition ADDUW : Z := 4. (* 0b0000100 *)
Definition SHADD : Z := 16. (* 0b0010000 *)
Definition SLLIUW : Z := 4. (* 0b0000100 *)
Definition COUNT : Z := 48. (* 0b0110000 *)
Definition MINMAXCLMUL : Z := 5. (* 0b0000101 *)
Definition ROTATE : Z := 48. (* 0b0110000 *)
Definition BCLRBEXT : Z := 36. (* 0b0100100 *)
Definition BINV : Z := 52. (* 0b0110100 *)
Definition BSET : Z := 20. (* 0b0010100 *)
End Funct7.

Module Funct5.
Definition LR : Z := 2. (* 0b00010 *)
Definition SC : Z := 3. (* 0b00011 *)
Definition AMOSWAP : Z := 1. (* 0b00001 *)
Definition AMOADD : Z := 0. (* 0b00000 *)
Definition AMOXOR : Z := 4. (* 0b00100 *)
Definition AMOAND : Z := 12. (* 0b01100 *)
Definition AMOOR : Z := 8. (* 0b01000 *)
Definition AMOMIN : Z := 16. (* 0b10000 *)
Definition AMOMAX : Z := 20. (* 0b10100 *)
Definition AMOMINU : Z := 24. (* 0b11000 *)
Definition AMOMAXU : Z := 28. (* 0b11100 *)
End Funct5.

Module Funct2.
Definition F2_S : Z := 0. (* 0b00 *)
Definition F2_D : Z := 1. (* 0b01 *)
End Funct2.

Module RoundingMode.
Definition RNE : Z := 0. (* 0b000 *)
Definition RTZ : Z := 1. (* 0b001 *)
Definition RDN : Z := 2. (* 0b010 *)
Definition RUP : Z := 3. (* 0b011 *)
Definition RMM : Z := 4. (* 0b100 *)
Definition DYN : Z := 7. (* 0b111 *)
End RoundingMode.

Module FcvtRs2.
Definition W : Z := 0. (* 0b00000 *)
Definition WU : Z := 1. (* 0b00001 *)
Definition L : Z := 2. (* 0b00010 *)
Definition LU : Z := 3. (* 0b00011 *)
End FcvtRs2.

Module FClass.
Definition kFClassNegInfinity : Z := 1.
Definition kFClassNegNormal : Z := 2.
Definition kFClassNegSubnormal : Z := 4.
Definition kFClassNegZero : Z := 8.
Definition kFClassPosZero : Z := 16.
Definition kFClassPosSubnormal : Z := 32.
Definition kFClassPosNormal : Z := 64.
Definition kFClassPosInfinity : Z := 128.
Definition kFClassSignallingNan : Z := 256.
Definition kFClassQuietNan : Z := 512.
End FClass.

Module HartEffects.
Definition kWrite : Z := 1.
Definition kRead : Z := 2.
Definition kOutput : Z := 4.
Definition kInput : Z := 8.
Definition kMemory : Z := Z.lor kWrite kRead.
Definition kIO : Z := Z.lor kOutput kInput.
Definition kAll : Z := Z.lor kMemory kIO.
End HartEffects.

Module COpcode.
Definition C_OP_MASK : Z := 57347. (* 0b1110000000000011 *)
Definition C_ADDI4SPN : Z := 0. (* 0b0000000000000000 *)
Definition C_FLD : Z := 8192. (* 0b0010000000000000 *)
Definition C_LW : Z := 16384. (* 0b0100000000000000 *)
Definition C_FLW : Z := 24576. (* 0b0110000000000000 *)
Definition C_LD : Z := 24576. (* 0b0110000000000000 *)
Definition C_FSD : Z := 40960. (* 0b1010000000000000 *)
Definition C_SW : Z := 49152. (* 0b1100000000000000 *)
Definition C_FSW : Z := 57344. (* 0b1110000000000000 *)
Definition C_SD : Z := 57344. (* 0b1110000000000000 *)
Definition C_ADDI : Z := 1. (* 0b0000000000000001 *)
Definition C_JAL : Z := 8193. (* 0b0010000000000001 *)
Definition C_ADDIW : Z := 8193. (* 0b0010000000000001 *)
Definition C_LI : Z := 16385. (* 0b0100000000000001 *)
Definition C_ADDI16SP : Z := 24577. (* 0b0110000000000001 *)
Definition C_LUI : Z := 24577. (* 0b0110000000000001 *)
Definition C_MISCALU : Z := 32769. (* 0b1000000000000001 *)
Definition C_MISCALU_MASK : Z := 60419. (* 0b1110110000000011 *)
Definition C_SRLI : Z := 32769. (* 0b1000000000000001 *)
Definition C_SRAI : Z := 33793. (* 0b1000010000000001 *)
Definition C_ANDI : Z := 34817. (* 0b1000100000000001 *)
Definition C_RR : Z := 35841. (* 0b1000110000000001 *)
Definition C_RR_MASK : Z := 64611. (* 0b1111110001100011 *)
Definition C_SUB : Z := 35841. (* 0b1000110000000001 *)
Definition C_XOR : Z := 35873. (* 0b1000110000100001 *)
Definition C_OR : Z := 35905. (* 0b1000110001000001 *)
Definition C_AND : Z := 35937. (* 0b1000110001100001 *)
Definition C_SUBW : Z := 39937. (* 0b1001110000000001 *)
Definition C_ADDW : Z := 39969. (* 0b1001110000100001 *)
Definition C_J : Z := 40961. (* 0b1010000000000001 *)
Definition C_BEQZ : Z := 49153. (* 0b1100000000000001 *)
Definition C_BNEZ : Z := 57345. (* 0b1110000000000001 *)
Definition C_SLLI : Z := 2. (* 0b0000000000000010 *)
Definition C_FLDSP : Z := 8194. (* 0b0010000000000010 *)
Definition C_LWSP : Z := 16386. (* 0b0100000000000010 *)
Definition C_FLWSP : Z := 24578. (* 0b0110000000000010 *)
Definition C_LDSP : Z := 24578. (* 0b0110000000000010 *)
Definition C_JR : Z := 32770. (* 0b1000000000000010 *)
Definition C_MV : Z := 32770. (* 0b1000000000000010 *)
Definition C_JALR : Z := 36866. (* 0b1001000000000010 *)
Definition C_ADD : Z := 36866. (* 0b1001000000000010 *)
Definition C_FSDSP : Z := 40962. (* 0b1010000000000010 *)
Definition C_SWSP : Z := 49154. (* 0b1100000000000010 *)
Definition C_FSWSP : Z := 57346. (* 0b1110000000000010 *)
Definition C_SDSP : Z := 57346. (* 0b1110000000000010 *)
Definition C_NOP : Z := 1. (* 0b0000000000000001 *)
Definition C_EBREAK : Z := 36866. (* 0b1001000000000010 *)
End COpcode.

(** Register aliases. *)
Definition TMP : Z := Reg.A3.
Definition TMP2 : Z := Reg.A4.
Definition FAR_TMP : Z := Reg.S8.
Definition PP : Z := Reg.A5.
Definition CODE_REG : Z := Reg.A2.
Definition THR : Z := Reg.S1.
Definition DISPATCH_TABLE_REG : Z := Reg.S9.
Definition ARGS_DESC_REG : Z := Reg.S4.
Definition WRITE_BARRIER_STATE : Z := Reg.S11.
Definition NULL_REG : Z := Reg.S10.
Definition FTMP : Z := FReg.FT11.
