(* ===== verification/Encoding.v ===== *)
(** * Encoding: 32-bit instruction words of [runtime/vm/constants_riscv.h]

    Field and immediate encoders and decoders of the R, I, S, B, U and J
    formats, the accessors of class [Instr], and the integer predicates of
    [runtime/platform/utils.h] they rely on.  An encoder returns [Res]: its
    [ASSERT] fails in a DEBUG build and is skipped in a release build. *)

From stdpp Require Import base numbers.
From S2P Require Import Prelude Constants.

#[local] Open Scope Z_scope.
#[local] Open Scope res_scope.

Section Encoding.
Context `{Target}.

(** ** Predicates of platform/utils.h, at T = intptr_t *)

Definition IsPowerOfTwo (x : Z) : bool := (Z.land x (x - 1) =? 0) && negb (x =? 0).

Definition IsAligned (x alignment : Z) : bool := Z.land x (alignment - 1) =? 0.

Definition RoundDown (x alignment : Z) : Z := Z.land x (- alignment).

Definition IsInt (N value : Z) : bool :=
  if kBitsPerWord <=? N then true
  else let limit := Z.shiftl 1 (N - 1) in (- limit <=? value) && (value <? limit).

Definition IsUint (N value : Z) : bool :=
  if value <? 0 then false
  else if kBitsPerWord - 1 <=? N then true
  else let limit := Z.shiftl 1 N - 1 in value <=? limit.

(** ** Sign extension *)

Definition SignExtend (N value : Z) : Z :=
  Z.shiftr (s32 (u32 (Z.shiftl (u32 value) (32 - N)))) (32 - N).

(** The four overloads of [sign_extend], by argument type. *)
Definition sign_extend_i32 (x : Z) : Z := sx x.
Definition sign_extend_i64 (x : Z) : Z := sx x.
Definition sign_extend_u32 (x : Z) : Z := sx (s32 x).
Definition sign_extend_u64 (x : Z) : Z := sx (s64 x).

(** ** Fields: DEFINE_REG_ENCODING and DEFINE_FUNCT_ENCODING *)

Definition IsReg (r : Z) : bool := u32 r <? 32.
Definition EncodeReg (r shift : Z) : Res Z :=
  ASSERT (IsReg r) ;; Ok (u32 (Z.shiftl (u32 r) shift)).
Definition DecodeReg (encoding shift : Z) : Z := Z.land (Z.shiftr encoding shift) 31.

Definition EncodeRd (r : Z) : Res Z := EncodeReg r 7.
Definition EncodeRs1 (r : Z) : Res Z := EncodeReg r 15.
Definition EncodeRs2 (r : Z) : Res Z := EncodeReg r 20.
Definition EncodeFRd (r : Z) : Res Z := EncodeReg r 7.
Definition EncodeFRs1 (r : Z) : Res Z := EncodeReg r 15.
Definition EncodeFRs2 (r : Z) : Res Z := EncodeReg r 20.
Definition EncodeFRs3 (r : Z) : Res Z := EncodeReg r 27.
Definition DecodeRd (encoding : Z) : Z := DecodeReg encoding 7.
Definition DecodeRs1 (encoding : Z) : Z := DecodeReg encoding 15.
Definition DecodeRs2 (encoding : Z) : Z := DecodeReg encoding 20.
Definition DecodeFRd (encoding : Z) : Z := DecodeReg encoding 7.
Definition DecodeFRs1 (encoding : Z) : Z := DecodeReg encoding 15.
Definition DecodeFRs2 (encoding : Z) : Z := DecodeReg encoding 20.
Definition DecodeFRs3 (encoding : Z) : Z := DecodeReg encoding 27.

Definition IsFunct (f mask : Z) : bool := Z.land f mask =? f.
Definition EncodeFunct (f shift mask : Z) : Res Z :=
  ASSERT (IsFunct f mask) ;; Ok (u32 (Z.shiftl f shift)).
Definition DecodeFunct (encoding shift mask : Z) : Z := Z.land (Z.shiftr encoding shift) mask.

Definition EncodeOpcode (f : Z) : Res Z := EncodeFunct f 0 0x7F.
Definition EncodeFunct2 (f : Z) : Res Z := EncodeFunct f 25 0x3.
Definition EncodeFunct3 (f : Z) : Res Z := EncodeFunct f 12 0x7.
Definition EncodeFunct7 (f : Z) : Res Z := EncodeFunct f 25 0x7F.
Definition EncodeRoundingMode (f : Z) : Res Z := EncodeFunct f 12 0x7.
Definition DecodeOpcode (encoding : Z) : Z := DecodeFunct encoding 0 0x7F.
Definition DecodeFunct2 (encoding : Z) : Z := DecodeFunct encoding 25 0x3.
Definition DecodeFunct3 (encoding : Z) : Z := DecodeFunct encoding 12 0x7.
Definition DecodeFunct5 (encoding : Z) : Z := DecodeFunct encoding 27 0x1F.
Definition DecodeFunct7 (encoding : Z) : Z := DecodeFunct encoding 25 0x7F.
Definition DecodeFunct12 (encoding : Z) : Z := DecodeFunct encoding 20 0xFFF.
Definition DecodeRoundingMode (encoding : Z) : Z := DecodeFunct encoding 12 0x7.

(** The mask of Shamt depends on XLEN. *)
Definition ShamtMask : Z := if XLEN =? 32 then 0x1F else 0x3F.
Definition EncodeShamt (f : Z) : Res Z := EncodeFunct (u32 f) 20 ShamtMask.
Definition DecodeShamt (encoding : Z) : Z := DecodeFunct encoding 20 ShamtMask.

(** ** Splitting an immediate for lui/addi and auipc/jalr pairs *)

Definition ImmLo (imm : Z) : Z :=
  Z.shiftr (sx (ux (Z.shiftl (ux imm) (XLEN - 12)))) (XLEN - 12).
Definition ImmHi (imm : Z) : Z :=
  Z.shiftr (sx (ux (Z.shiftl (ux (ux imm - ux (ImmLo imm))) (XLEN - 32)))) (XLEN - 32).

(** ** Immediates *)

Definition IsBTypeImm (imm : Z) : bool := IsInt 12 imm && IsAligned imm 2.
Definition BTypeImm_word (imm : Z) : Z :=
  let encoded := 0 in
  let encoded := Z.lor encoded (u32 (Z.shiftl (Z.land (Z.shiftr imm 12) 0x1) 31)) in
  let encoded := Z.lor encoded (u32 (Z.shiftl (Z.land (Z.shiftr imm 5) 0x3f) 25)) in
  let encoded := Z.lor encoded (u32 (Z.shiftl (Z.land (Z.shiftr imm 1) 0xf) 8)) in
  let encoded := Z.lor encoded (u32 (Z.shiftl (Z.land (Z.shiftr imm 11) 0x1) 7)) in
  encoded.
Definition EncodeBTypeImm (imm : Z) : Res Z :=
  ASSERT (IsBTypeImm imm) ;; Ok (BTypeImm_word imm).
Definition DecodeBTypeImm (encoding : Z) : Z :=
  let imm := 0 in
  let imm := Z.lor imm (Z.shiftl (Z.land (Z.shiftr encoding 31) 0x1) 12) in
  let imm := Z.lor imm (Z.shiftl (Z.land (Z.shiftr encoding 25) 0x3f) 5) in
  let imm := Z.lor imm (Z.shiftl (Z.land (Z.shiftr encoding 8) 0xf) 1) in
  let imm := Z.lor imm (Z.shiftl (Z.land (Z.shiftr encoding 7) 0x1) 11) in
  SignExtend 12 imm.

Definition IsJTypeImm (imm : Z) : bool := IsInt 20 imm && IsAligned imm 2.
Definition JTypeImm_word (imm : Z) : Z :=
  let encoded := 0 in
  let encoded := Z.lor encoded (u32 (Z.shiftl (Z.land (Z.shiftr imm 20) 0x1) 31)) in
  let encoded := Z.lor encoded (u32 (Z.shiftl (Z.land (Z.shiftr imm 1) 0x3ff) 21)) in
  let encoded := Z.lor encoded (u32 (Z.shiftl (Z.land (Z.shiftr imm 11) 0x1) 20)) in
  let encoded := Z.lor encoded (u32 (Z.shiftl (Z.land (Z.shiftr imm 12) 0xff) 12)) in
  encoded.
Definition EncodeJTypeImm (imm : Z) : Res Z :=
  ASSERT (IsJTypeImm imm) ;; Ok (JTypeImm_word imm).
Definition DecodeJTypeImm (encoding : Z) : Z :=
  let imm := 0 in
  let imm := Z.lor imm (Z.shiftl (Z.land (Z.shiftr encoding 31) 0x1) 20) in
  let imm := Z.lor imm (Z.shiftl (Z.land (Z.shiftr encoding 21) 0x3ff) 1) in
  let imm := Z.lor imm (Z.shiftl (Z.land (Z.shiftr encoding 20) 0x1) 11) in
  let imm := Z.lor imm (Z.shiftl (Z.land (Z.shiftr encoding 12) 0xff) 12) in
  SignExtend 20 imm.

Definition IsSTypeImm (imm : Z) : bool := IsInt 12 imm.
Definition STypeImm_word (imm : Z) : Z :=
  let encoded := 0 in
  let encoded := Z.lor encoded (u32 (Z.shiftl (Z.land (Z.shiftr imm 5) 0x7f) 25)) in
  let encoded := Z.lor encoded (u32 (Z.shiftl (Z.land (Z.shiftr imm 0) 0x1f) 7)) in
  encoded.
Definition EncodeSTypeImm (imm : Z) : Res Z :=
  ASSERT (IsSTypeImm imm) ;; Ok (STypeImm_word imm).
Definition DecodeSTypeImm (encoding : Z) : Z :=
  let imm := 0 in
  let imm := Z.lor imm (Z.shiftl (Z.land (Z.shiftr encoding 25) 0x7f) 5) in
  let imm := Z.lor imm (Z.shiftl (Z.land (Z.shiftr encoding 7) 0x1f) 0) in
  SignExtend 12 imm.
Definition IsITypeImm (imm : Z) : bool := IsInt 12 imm.
Definition ITypeImm_word (imm : Z) : Z := u32 (Z.shiftl (u32 imm) 20).
Definition EncodeITypeImm (imm : Z) : Res Z :=
  ASSERT (IsITypeImm imm) ;; Ok (ITypeImm_word imm).
Definition DecodeITypeImm (encoding : Z) : Z := SignExtend 12 (Z.shiftr encoding 20).

Definition IsUTypeImm (imm : Z) : bool := IsInt 32 imm && IsAligned imm 4096.
Definition UTypeImm_word (imm : Z) : Z := u32 imm.
Definition EncodeUTypeImm (imm : Z) : Res Z :=
  ASSERT (IsUTypeImm imm) ;; Ok (UTypeImm_word imm).
Definition DecodeUTypeImm (encoding : Z) : Z :=
  SignExtend 32 (Z.land encoding (u32 (Z.lnot (Z.shiftl 1 12 - 1)))).

Definition IsCInstruction (parcel : Z) : bool := negb (Z.land parcel 3 =? 3).

End Encoding.

(** ** Class Instr *)

(** The C++ memory orders. *)
Inductive memory_order : Set :=
| memory_order_relaxed
| memory_order_consume
| memory_order_acquire
| memory_order_release
| memory_order_acq_rel
| memory_order_seq_cst.

Definition kReleaseShift : Z := 25.
Definition kAcquireShift : Z := 26.

Module Instr.
Definition opcode (encoding_ : Z) : Z := DecodeOpcode encoding_.
Definition rd (encoding_ : Z) : Z := DecodeRd encoding_.
Definition rs1 (encoding_ : Z) : Z := DecodeRs1 encoding_.
Definition rs2 (encoding_ : Z) : Z := DecodeRs2 encoding_.
Definition frd (encoding_ : Z) : Z := DecodeFRd encoding_.
Definition frs1 (encoding_ : Z) : Z := DecodeFRs1 encoding_.
Definition frs2 (encoding_ : Z) : Z := DecodeFRs2 encoding_.
Definition frs3 (encoding_ : Z) : Z := DecodeFRs3 encoding_.
Definition funct2 (encoding_ : Z) : Z := DecodeFunct2 encoding_.
Definition funct3 (encoding_ : Z) : Z := DecodeFunct3 encoding_.
Definition funct5 (encoding_ : Z) : Z := DecodeFunct5 encoding_.
Definition funct7 (encoding_ : Z) : Z := DecodeFunct7 encoding_.
Definition funct12 (encoding_ : Z) : Z := DecodeFunct12 encoding_.
Definition shamt `{Target} (encoding_ : Z) : Z := DecodeShamt encoding_.
Definition rounding (encoding_ : Z) : Z := DecodeRoundingMode encoding_.
Definition order (encoding_ : Z) : memory_order :=
  let acquire := negb (Z.land (Z.shiftr encoding_ kAcquireShift) 1 =? 0) in
  let release := negb (Z.land (Z.shiftr encoding_ kReleaseShift) 1 =? 0) in
  if acquire && release then memory_order_acq_rel
  else if acquire then memory_order_acquire
  else if release then memory_order_release
  else memory_order_relaxed.
Definition itype_imm (encoding_ : Z) : Z := DecodeITypeImm encoding_.
Definition stype_imm (encoding_ : Z) : Z := DecodeSTypeImm encoding_.
Definition btype_imm (encoding_ : Z) : Z := DecodeBTypeImm encoding_.
Definition utype_imm (encoding_ : Z) : Z := DecodeUTypeImm encoding_.
Definition jtype_imm (encoding_ : Z) : Z := DecodeJTypeImm encoding_.
Definition csr (encoding_ : Z) : Z := Z.shiftr encoding_ 20.
Definition zimm (encoding_ : Z) : Z := rs1 encoding_.
Definition length : Z := 4.
End Instr.

(** ** Lemmas *)

Section EncodingLemmas.
Context `{Target}.

Lemma IsInt_spec N v : 0 < N < 32 -> IsInt N v = true <-> inS N v.
Proof.
  intros HN. unfold IsInt, inS. rewrite Z.shiftl_1_l.
  destruct (Z.leb_spec kBitsPerWord N); [destruct kBitsPerWord_cases; lia|].
  rewrite andb_true_iff, Z.leb_le, Z.ltb_lt. done.
Qed.

Lemma IsInt32_spec v : inS kBitsPerWord v -> IsInt 32 v = true <-> inS 32 v.
Proof.
  intros Hv. unfold IsInt, inS. rewrite Z.shiftl_1_l.
  destruct (Z.leb_spec kBitsPerWord 32).
  - unfold inS in Hv. destruct kBitsPerWord_cases as [E|E]; rewrite E in *; [done|lia].
  - rewrite andb_true_iff, Z.leb_le, Z.ltb_lt. done.
Qed.

Lemma IsUint_spec N v : 0 < N < 31 -> IsUint N v = true <-> inU N v.
Proof.
  intros HN. unfold IsUint, inU. rewrite Z.shiftl_1_l.
  destruct (Z.ltb_spec v 0); [split; [done|lia]|].
  destruct (Z.leb_spec (kBitsPerWord - 1) N); [destruct kBitsPerWord_cases; lia|].
  rewrite Z.leb_le. lia.
Qed.

Lemma IsAligned_spec x k : 0 <= k -> IsAligned x (2 ^ k) = true <-> x mod 2 ^ k = 0.
Proof.
  intros. unfold IsAligned. replace (2 ^ k - 1) with (Z.ones k) by (rewrite Z.ones_equiv; lia).
  rewrite Z.land_ones by lia. apply Z.eqb_eq.
Qed.

Lemma SignExtend_wrapS N v : 0 < N <= 32 -> SignExtend N v = wrapS N v.
Proof.
  intros. unfold SignExtend. apply Z.bits_inj'; intros i Hi.
  autorewrite with testbits. repeat split_index; simpl; f_equal; lia.
Qed.

Lemma IsReg_spec r : inU 5 r -> IsReg r = true.
Proof.
  unfold IsReg, inU. intros. rewrite wrapU_small by (unfold inU; lia). apply Z.ltb_lt; lia.
Qed.

Lemma IsFunct_spec f k : 0 <= k -> IsFunct f (Z.ones k) = true <-> inU k f.
Proof.
  intros. unfold IsFunct. rewrite Z.eqb_eq, Z.land_ones by lia. split.
  - intros <-. by apply wrapU_range.
  - apply wrapU_small.
Qed.

Lemma u32_shiftl v p n : inU n v -> 0 <= n -> 0 <= p -> p + n <= 32 -> u32 (Z.shiftl v p) = Z.shiftl v p.
Proof.
  intros Hv ???. apply wrapU_small. unfold inU in *. rewrite Z.shiftl_mul_pow2 by lia.
  assert (2 ^ (p + n) <= 2 ^ 32) by (apply Z.pow_le_mono_r; lia).
  rewrite Z.pow_add_r in * by lia. nia.
Qed.

Lemma EncodeReg_ok r p : inU 5 r -> 0 <= p <= 27 -> EncodeReg r p = Ok (Z.shiftl r p).
Proof.
  intros Hr Hp. unfold EncodeReg, ASSERT. rewrite IsReg_spec by done.
  rewrite andb_false_r. simpl.
  rewrite (wrapU_small 32 r) by (unfold inU in *; lia).
  rewrite (u32_shiftl r p 5) by (done || lia). done.
Qed.

Lemma EncodeFunct_ok f p k :
  inU k f -> 0 <= k -> 0 <= p -> p + k <= 32 -> EncodeFunct f p (Z.ones k) = Ok (Z.shiftl f p).
Proof.
  intros Hf ???. unfold EncodeFunct, ASSERT. rewrite (proj2 (IsFunct_spec f k ltac:(lia)) Hf).
  rewrite andb_false_r. simpl. by rewrite (u32_shiftl f p k) by (done || lia).
Qed.

(** What the immediate predicates say. *)
Lemma IsBTypeImm_spec imm : IsBTypeImm imm = true <-> inS 12 imm /\ imm mod 2 ^ 1 = 0.
Proof.
  unfold IsBTypeImm. rewrite andb_true_iff, IsInt_spec, (IsAligned_spec imm 1) by lia. done.
Qed.

Lemma IsJTypeImm_spec imm : IsJTypeImm imm = true <-> inS 20 imm /\ imm mod 2 ^ 1 = 0.
Proof.
  unfold IsJTypeImm. rewrite andb_true_iff, IsInt_spec, (IsAligned_spec imm 1) by lia. done.
Qed.

Lemma IsITypeImm_spec imm : IsITypeImm imm = true <-> inS 12 imm.
Proof. unfold IsITypeImm. by apply IsInt_spec. Qed.

Lemma IsSTypeImm_spec imm : IsSTypeImm imm = true <-> inS 12 imm.
Proof. unfold IsSTypeImm. by apply IsInt_spec. Qed.

Lemma IsUTypeImm_spec imm :
  inS kBitsPerWord imm -> IsUTypeImm imm = true <-> inS 32 imm /\ imm mod 2 ^ 12 = 0.
Proof.
  intros. unfold IsUTypeImm.
  rewrite andb_true_iff, IsInt32_spec, (IsAligned_spec imm 12) by (done || lia). done.
Qed.

End EncodingLemmas.

(** The immediate of a word whose immediate bits are those of [imm]. *)
Ltac solve_imm_fields :=
  fold_fields;
  repeat match goal with E : field _ _ _ = _ |- _ => rewrite E; clear E end;
  rewrite ?SignExtend_wrapS by lia;
  first [ apply wrapS_eq_wrapU; [lia | done |] | idtac ];
  unfold field; bitblast.

Section ImmediateFields.
Context `{Target}.

Lemma DecodeBTypeImm_fields e imm :
  inS 12 imm -> imm mod 2 ^ 1 = 0 ->
  field e 31 1 = field imm 12 1 -> field e 25 6 = field imm 5 6 ->
  field e 8 4 = field imm 1 4 -> field e 7 1 = field imm 11 1 ->
  DecodeBTypeImm e = imm.
Proof. intros. unfold DecodeBTypeImm. solve_imm_fields. Qed.

Lemma DecodeJTypeImm_fields e imm :
  inS 20 imm -> imm mod 2 ^ 1 = 0 ->
  field e 31 1 = field imm 20 1 -> field e 21 10 = field imm 1 10 ->
  field e 20 1 = field imm 11 1 -> field e 12 8 = field imm 12 8 ->
  DecodeJTypeImm e = imm.
Proof. intros. unfold DecodeJTypeImm. solve_imm_fields. Qed.

Lemma DecodeSTypeImm_fields e imm :
  inS 12 imm -> field e 25 7 = field imm 5 7 -> field e 7 5 = field imm 0 5 ->
  DecodeSTypeImm e = imm.
Proof. intros. unfold DecodeSTypeImm. solve_imm_fields. Qed.

Lemma DecodeITypeImm_fields e imm :
  inS 12 imm -> field e 20 12 = field imm 0 12 -> DecodeITypeImm e = imm.
Proof.
  intros Hi E. unfold DecodeITypeImm. rewrite SignExtend_wrapS by lia.
  apply wrapS_eq_wrapU; [lia|done|].
  unfold field in E. rewrite Z.shiftr_0_r in E.
  unfold wrapU. by rewrite <- !Z.land_ones by lia.
Qed.

Lemma DecodeUTypeImm_fields e imm :
  inU 32 e -> inS 32 imm -> imm mod 2 ^ 12 = 0 -> field e 12 20 = field imm 12 20 ->
  DecodeUTypeImm e = imm.
Proof.
  intros He Hi Ha E. unfold DecodeUTypeImm. rewrite SignExtend_wrapS by lia.
  apply wrapS_eq_wrapU; [lia|done|]. change (Z.shiftl 1 12 - 1) with (Z.ones 12).
  transitivity (Z.shiftl (field e 12 20) 12).
  - unfold field. bitblast.
  - rewrite E. unfold field. bitblast.
Qed.

End ImmediateFields.
