(* ===== verification/CEncoding.v ===== *)
(** * CEncoding: 16-bit instruction words of [runtime/vm/constants_riscv.h]

    The register fields, the twelve immediate formats and the accessors of
    class [CInstr] of the compressed extension. *)

From stdpp Require Import base numbers.
From S2P Require Import Prelude Constants Encoding.

#[local] Open Scope Z_scope.
#[local] Open Scope res_scope.

Section CEncoding.
Context `{Target}.

(** ** Register fields: DEFINE_REG_ENCODING, DEFINE_REG_PRIME_ENCODING *)

Definition EncodeCRd (r : Z) : Res Z := EncodeReg r 7.
Definition EncodeCRs1 (r : Z) : Res Z := EncodeReg r 7.
Definition EncodeCRs2 (r : Z) : Res Z := EncodeReg r 2.
Definition EncodeCFRd (r : Z) : Res Z := EncodeReg r 7.
Definition EncodeCFRs1 (r : Z) : Res Z := EncodeReg r 7.
Definition EncodeCFRs2 (r : Z) : Res Z := EncodeReg r 2.
Definition DecodeCRd (encoding : Z) : Z := DecodeReg encoding 7.
Definition DecodeCRs1 (encoding : Z) : Z := DecodeReg encoding 7.
Definition DecodeCRs2 (encoding : Z) : Z := DecodeReg encoding 2.
Definition DecodeCFRd (encoding : Z) : Z := DecodeReg encoding 7.
Definition DecodeCFRs1 (encoding : Z) : Z := DecodeReg encoding 7.
Definition DecodeCFRs2 (encoding : Z) : Z := DecodeReg encoding 2.

Definition IsRegPrime (r : Z) : bool := (8 <=? r) && (r <? 16).
Definition EncodeRegPrime (r shift : Z) : Res Z :=
  ASSERT (IsRegPrime r) ;; Ok (u32 (Z.shiftl (Z.land (u32 r) 7) shift)).
Definition DecodeRegPrime (encoding shift : Z) : Z :=
  Z.land (Z.shiftr encoding shift) 7 + 8.

Definition IsCRdp (r : Z) : bool := IsRegPrime r.
Definition IsCRs1p (r : Z) : bool := IsRegPrime r.
Definition IsCRs2p (r : Z) : bool := IsRegPrime r.
Definition IsCFRdp (r : Z) : bool := IsRegPrime r.
Definition IsCFRs2p (r : Z) : bool := IsRegPrime r.
Definition EncodeCRdp (r : Z) : Res Z := EncodeRegPrime r 2.
Definition EncodeCRs1p (r : Z) : Res Z := EncodeRegPrime r 7.
Definition EncodeCRs2p (r : Z) : Res Z := EncodeRegPrime r 2.
Definition EncodeCFRdp (r : Z) : Res Z := EncodeRegPrime r 2.
Definition EncodeCFRs1p (r : Z) : Res Z := EncodeRegPrime r 7.
Definition EncodeCFRs2p (r : Z) : Res Z := EncodeRegPrime r 2.
Definition DecodeCRdp (encoding : Z) : Z := DecodeRegPrime encoding 2.
Definition DecodeCRs1p (encoding : Z) : Z := DecodeRegPrime encoding 7.
Definition DecodeCRs2p (encoding : Z) : Z := DecodeRegPrime encoding 2.
Definition DecodeCFRdp (encoding : Z) : Z := DecodeRegPrime encoding 2.
Definition DecodeCFRs1p (encoding : Z) : Z := DecodeRegPrime encoding 7.
Definition DecodeCFRs2p (encoding : Z) : Z := DecodeRegPrime encoding 2.

(** ** Immediates *)

Definition IsCSPLoad4Imm (imm : Z) : bool := IsUint 8 imm && IsAligned imm 4.
Definition CSPLoad4Imm_word (imm : Z) : Z :=
  let encoded := 0 in
  let encoded := Z.lor encoded (u32 (Z.shiftl (Z.land (Z.shiftr imm 5) 0x1) 12)) in
  let encoded := Z.lor encoded (u32 (Z.shiftl (Z.land (Z.shiftr imm 2) 0x7) 4)) in
  let encoded := Z.lor encoded (u32 (Z.shiftl (Z.land (Z.shiftr imm 6) 0x3) 2)) in
  encoded.
Definition EncodeCSPLoad4Imm (imm : Z) : Res Z :=
  ASSERT (IsCSPLoad4Imm imm) ;; Ok (CSPLoad4Imm_word imm).
Definition DecodeCSPLoad4Imm (encoding : Z) : Z :=
  let imm := 0 in
  let imm := Z.lor imm (Z.shiftl (Z.land (Z.shiftr encoding 12) 0x1) 5) in
  let imm := Z.lor imm (Z.shiftl (Z.land (Z.shiftr encoding 4) 0x7) 2) in
  let imm := Z.lor imm (Z.shiftl (Z.land (Z.shiftr encoding 2) 0x3) 6) in
  imm.

Definition IsCSPLoad8Imm (imm : Z) : bool := IsUint 9 imm && IsAligned imm 8.
Definition CSPLoad8Imm_word (imm : Z) : Z :=
  let encoded := 0 in
  let encoded := Z.lor encoded (u32 (Z.shiftl (Z.land (Z.shiftr imm 5) 0x1) 12)) in
  let encoded := Z.lor encoded (u32 (Z.shiftl (Z.land (Z.shiftr imm 3) 0x3) 5)) in
  let encoded := Z.lor encoded (u32 (Z.shiftl (Z.land (Z.shiftr imm 6) 0x7) 2)) in
  encoded.
Definition EncodeCSPLoad8Imm (imm : Z) : Res Z :=
  ASSERT (IsCSPLoad8Imm imm) ;; Ok (CSPLoad8Imm_word imm).
Definition DecodeCSPLoad8Imm (encoding : Z) : Z :=
  let imm := 0 in
  let imm := Z.lor imm (Z.shiftl (Z.land (Z.shiftr encoding 12) 0x1) 5) in
  let imm := Z.lor imm (Z.shiftl (Z.land (Z.shiftr encoding 5) 0x3) 3) in
  let imm := Z.lor imm (Z.shiftl (Z.land (Z.shiftr encoding 2) 0x7) 6) in
  imm.

Definition IsCSPStore4Imm (imm : Z) : bool := IsUint 8 imm && IsAligned imm 4.
Definition CSPStore4Imm_word (imm : Z) : Z :=
  let encoded := 0 in
  let encoded := Z.lor encoded (u32 (Z.shiftl (Z.land (Z.shiftr imm 2) 0xF) 9)) in
  let encoded := Z.lor encoded (u32 (Z.shiftl (Z.land (Z.shiftr imm 6) 0x3) 7)) in
  encoded.
Definition EncodeCSPStore4Imm (imm : Z) : Res Z :=
  ASSERT (IsCSPStore4Imm imm) ;; Ok (CSPStore4Imm_word imm).
Definition DecodeCSPStore4Imm (encoding : Z) : Z :=
  let imm := 0 in
  let imm := Z.lor imm (Z.shiftl (Z.land (Z.shiftr encoding 9) 0xF) 2) in
  let imm := Z.lor imm (Z.shiftl (Z.land (Z.shiftr encoding 7) 0x3) 6) in
  imm.

Definition IsCSPStore8Imm (imm : Z) : bool := IsUint 9 imm && IsAligned imm 8.
Definition CSPStore8Imm_word (imm : Z) : Z :=
  let encoded := 0 in
  let encoded := Z.lor encoded (u32 (Z.shiftl (Z.land (Z.shiftr imm 3) 0x7) 10)) in
  let encoded := Z.lor encoded (u32 (Z.shiftl (Z.land (Z.shiftr imm 6) 0x7) 7)) in
  encoded.
Definition EncodeCSPStore8Imm (imm : Z) : Res Z :=
  ASSERT (IsCSPStore8Imm imm) ;; Ok (CSPStore8Imm_word imm).
Definition DecodeCSPStore8Imm (encoding : Z) : Z :=
  let imm := 0 in
  let imm := Z.lor imm (Z.shiftl (Z.land (Z.shiftr encoding 10) 0x7) 3) in
  let imm := Z.lor imm (Z.shiftl (Z.land (Z.shiftr encoding 7) 0x7) 6) in
  imm.

Definition IsCMem4Imm (imm : Z) : bool := IsUint 7 imm && IsAligned imm 4.
Definition CMem4Imm_word (imm : Z) : Z :=
  let encoded := 0 in
  let encoded := Z.lor encoded (u32 (Z.shiftl (Z.land (Z.shiftr imm 3) 0x7) 10)) in
  let encoded := Z.lor encoded (u32 (Z.shiftl (Z.land (Z.shiftr imm 2) 0x1) 6)) in
  let encoded := Z.lor encoded (u32 (Z.shiftl (Z.land (Z.shiftr imm 6) 0x1) 5)) in
  encoded.
Definition EncodeCMem4Imm (imm : Z) : Res Z :=
  ASSERT (IsCMem4Imm imm) ;; Ok (CMem4Imm_word imm).
Definition DecodeCMem4Imm (encoding : Z) : Z :=
  let imm := 0 in
  let imm := Z.lor imm (Z.shiftl (Z.land (Z.shiftr encoding 10) 0x7) 3) in
  let imm := Z.lor imm (Z.shiftl (Z.land (Z.shiftr encoding 6) 0x1) 2) in
  let imm := Z.lor imm (Z.shiftl (Z.land (Z.shiftr encoding 5) 0x1) 6) in
  imm.

Definition IsCMem8Imm (imm : Z) : bool := IsUint 8 imm && IsAligned imm 8.
Definition CMem8Imm_word (imm : Z) : Z :=
  let encoded := 0 in
  let encoded := Z.lor encoded (u32 (Z.shiftl (Z.land (Z.shiftr imm 3) 0x7) 10)) in
  let encoded := Z.lor encoded (u32 (Z.shiftl (Z.land (Z.shiftr imm 6) 0x3) 5)) in
  encoded.
Definition EncodeCMem8Imm (imm : Z) : Res Z :=
  ASSERT (IsCMem8Imm imm) ;; Ok (CMem8Imm_word imm).
Definition DecodeCMem8Imm (encoding : Z) : Z :=
  let imm := 0 in
  let imm := Z.lor imm (Z.shiftl (Z.land (Z.shiftr encoding 10) 0x7) 3) in
  let imm := Z.lor imm (Z.shiftl (Z.land (Z.shiftr encoding 5) 0x3) 6) in
  imm.

Definition IsCJImm (imm : Z) : bool := IsInt 11 imm && IsAligned imm 2.
Definition CJImm_word (imm : Z) : Z :=
  let encoded := 0 in
  let encoded := Z.lor encoded (u32 (Z.shiftl (Z.land (Z.shiftr imm 11) 0x1) 12)) in
  let encoded := Z.lor encoded (u32 (Z.shiftl (Z.land (Z.shiftr imm 4) 0x1) 11)) in
  let encoded := Z.lor encoded (u32 (Z.shiftl (Z.land (Z.shiftr imm 8) 0x3) 9)) in
  let encoded := Z.lor encoded (u32 (Z.shiftl (Z.land (Z.shiftr imm 10) 0x1) 8)) in
  let encoded := Z.lor encoded (u32 (Z.shiftl (Z.land (Z.shiftr imm 6) 0x1) 7)) in
  let encoded := Z.lor encoded (u32 (Z.shiftl (Z.land (Z.shiftr imm 7) 0x1) 6)) in
  let encoded := Z.lor encoded (u32 (Z.shiftl (Z.land (Z.shiftr imm 1) 0x7) 3)) in
  let encoded := Z.lor encoded (u32 (Z.shiftl (Z.land (Z.shiftr imm 5) 0x1) 2)) in
  encoded.
Definition EncodeCJImm (imm : Z) : Res Z :=
  ASSERT (IsCJImm imm) ;; Ok (CJImm_word imm).
Definition DecodeCJImm (encoding : Z) : Z :=
  let imm := 0 in
  let imm := Z.lor imm (Z.shiftl (Z.land (Z.shiftr encoding 12) 0x1) 11) in
  let imm := Z.lor imm (Z.shiftl (Z.land (Z.shiftr encoding 11) 0x1) 4) in
  let imm := Z.lor imm (Z.shiftl (Z.land (Z.shiftr encoding 9) 0x3) 8) in
  let imm := Z.lor imm (Z.shiftl (Z.land (Z.shiftr encoding 8) 0x1) 10) in
  let imm := Z.lor imm (Z.shiftl (Z.land (Z.shiftr encoding 7) 0x1) 6) in
  let imm := Z.lor imm (Z.shiftl (Z.land (Z.shiftr encoding 6) 0x1) 7) in
  let imm := Z.lor imm (Z.shiftl (Z.land (Z.shiftr encoding 3) 0x7) 1) in
  let imm := Z.lor imm (Z.shiftl (Z.land (Z.shiftr encoding 2) 0x1) 5) in
  SignExtend 11 imm.

Definition IsCBImm (imm : Z) : bool := IsInt 8 imm && IsAligned imm 2.
Definition CBImm_word (imm : Z) : Z :=
  let encoded := 0 in
  let encoded := Z.lor encoded (u32 (Z.shiftl (Z.land (Z.shiftr imm 8) 0x1) 12)) in
  let encoded := Z.lor encoded (u32 (Z.shiftl (Z.land (Z.shiftr imm 3) 0x3) 10)) in
  let encoded := Z.lor encoded (u32 (Z.shiftl (Z.land (Z.shiftr imm 6) 0x3) 5)) in
  let encoded := Z.lor encoded (u32 (Z.shiftl (Z.land (Z.shiftr imm 1) 0x3) 3)) in
  let encoded := Z.lor encoded (u32 (Z.shiftl (Z.land (Z.shiftr imm 5) 0x1) 2)) in
  encoded.
Definition EncodeCBImm (imm : Z) : Res Z :=
  ASSERT (IsCBImm imm) ;; Ok (CBImm_word imm).
Definition DecodeCBImm (encoding : Z) : Z :=
  let imm := 0 in
  let imm := Z.lor imm (Z.shiftl (Z.land (Z.shiftr encoding 12) 0x1) 8) in
  let imm := Z.lor imm (Z.shiftl (Z.land (Z.shiftr encoding 10) 0x3) 3) in
  let imm := Z.lor imm (Z.shiftl (Z.land (Z.shiftr encoding 5) 0x3) 6) in
  let imm := Z.lor imm (Z.shiftl (Z.land (Z.shiftr encoding 3) 0x3) 1) in
  let imm := Z.lor imm (Z.shiftl (Z.land (Z.shiftr encoding 2) 0x1) 5) in
  SignExtend 8 imm.

Definition IsCIImm (imm : Z) : bool := IsInt 6 imm && IsAligned imm 1.
Definition CIImm_word (imm : Z) : Z :=
  let encoded := 0 in
  let encoded := Z.lor encoded (u32 (Z.shiftl (Z.land (Z.shiftr imm 5) 0x1) 12)) in
  let encoded := Z.lor encoded (u32 (Z.shiftl (Z.land (Z.shiftr imm 0) 0x1F) 2)) in
  encoded.
Definition EncodeCIImm (imm : Z) : Res Z :=
  ASSERT (IsCIImm imm) ;; Ok (CIImm_word imm).
Definition DecodeCIImm (encoding : Z) : Z :=
  let imm := 0 in
  let imm := Z.lor imm (Z.shiftl (Z.land (Z.shiftr encoding 12) 0x1) 5) in
  let imm := Z.lor imm (Z.shiftl (Z.land (Z.shiftr encoding 2) 0x1F) 0) in
  SignExtend 6 imm.

Definition IsCUImm (imm : Z) : bool := IsInt 17 imm && IsAligned imm 4096.
Definition CUImm_word (imm : Z) : Z :=
  let encoded := 0 in
  let encoded := Z.lor encoded (u32 (Z.shiftl (Z.land (Z.shiftr imm 17) 0x1) 12)) in
  let encoded := Z.lor encoded (u32 (Z.shiftl (Z.land (Z.shiftr imm 12) 0x1F) 2)) in
  encoded.
Definition EncodeCUImm (imm : Z) : Res Z :=
  ASSERT (IsCUImm imm) ;; Ok (CUImm_word imm).
Definition DecodeCUImm (encoding : Z) : Z :=
  let imm := 0 in
  let imm := Z.lor imm (Z.shiftl (Z.land (Z.shiftr encoding 12) 0x1) 17) in
  let imm := Z.lor imm (Z.shiftl (Z.land (Z.shiftr encoding 2) 0x1F) 12) in
  SignExtend 17 imm.

Definition IsCI16Imm (imm : Z) : bool := IsInt 10 imm && IsAligned imm 16.
Definition CI16Imm_word (imm : Z) : Z :=
  let encoded := 0 in
  let encoded := Z.lor encoded (u32 (Z.shiftl (Z.land (Z.shiftr imm 9) 0x1) 12)) in
  let encoded := Z.lor encoded (u32 (Z.shiftl (Z.land (Z.shiftr imm 4) 0x1) 6)) in
  let encoded := Z.lor encoded (u32 (Z.shiftl (Z.land (Z.shiftr imm 6) 0x1) 5)) in
  let encoded := Z.lor encoded (u32 (Z.shiftl (Z.land (Z.shiftr imm 7) 0x3) 3)) in
  let encoded := Z.lor encoded (u32 (Z.shiftl (Z.land (Z.shiftr imm 5) 0x1) 2)) in
  encoded.
Definition EncodeCI16Imm (imm : Z) : Res Z :=
  ASSERT (IsCI16Imm imm) ;; Ok (CI16Imm_word imm).
Definition DecodeCI16Imm (encoding : Z) : Z :=
  let imm := 0 in
  let imm := Z.lor imm (Z.shiftl (Z.land (Z.shiftr encoding 12) 0x1) 9) in
  let imm := Z.lor imm (Z.shiftl (Z.land (Z.shiftr encoding 6) 0x1) 4) in
  let imm := Z.lor imm (Z.shiftl (Z.land (Z.shiftr encoding 5) 0x1) 6) in
  let imm := Z.lor imm (Z.shiftl (Z.land (Z.shiftr encoding 3) 0x3) 7) in
  let imm := Z.lor imm (Z.shiftl (Z.land (Z.shiftr encoding 2) 0x1) 5) in
  SignExtend 10 imm.

Definition IsCI4SPNImm (imm : Z) : bool := IsUint 9 imm && IsAligned imm 4.
Definition CI4SPNImm_word (imm : Z) : Z :=
  let encoded := 0 in
  let encoded := Z.lor encoded (u32 (Z.shiftl (Z.land (Z.shiftr imm 4) 0x3) 11)) in
  let encoded := Z.lor encoded (u32 (Z.shiftl (Z.land (Z.shiftr imm 6) 0xF) 7)) in
  let encoded := Z.lor encoded (u32 (Z.shiftl (Z.land (Z.shiftr imm 2) 0x1) 6)) in
  let encoded := Z.lor encoded (u32 (Z.shiftl (Z.land (Z.shiftr imm 3) 0x1) 5)) in
  encoded.
Definition EncodeCI4SPNImm (imm : Z) : Res Z :=
  ASSERT (IsCI4SPNImm imm) ;; Ok (CI4SPNImm_word imm).
Definition DecodeCI4SPNImm (encoding : Z) : Z :=
  let imm := 0 in
  let imm := Z.lor imm (Z.shiftl (Z.land (Z.shiftr encoding 11) 0x3) 4) in
  let imm := Z.lor imm (Z.shiftl (Z.land (Z.shiftr encoding 7) 0xF) 6) in
  let imm := Z.lor imm (Z.shiftl (Z.land (Z.shiftr encoding 6) 0x1) 2) in
  let imm := Z.lor imm (Z.shiftl (Z.land (Z.shiftr encoding 5) 0x1) 3) in
  imm.

End CEncoding.

(** ** Class CInstr *)

Module CInstr.
Definition opcode (encoding_ : Z) : Z := Z.land encoding_ COpcode.C_OP_MASK.
Definition rd (encoding_ : Z) : Z := DecodeCRd encoding_.
Definition rs1 (encoding_ : Z) : Z := DecodeCRd encoding_.
Definition rs2 (encoding_ : Z) : Z := DecodeCRs2 encoding_.
Definition rdp (encoding_ : Z) : Z := DecodeCRdp encoding_.
Definition rs1p (encoding_ : Z) : Z := DecodeCRs1p encoding_.
Definition rs2p (encoding_ : Z) : Z := DecodeCRs2p encoding_.
Definition frd (encoding_ : Z) : Z := DecodeCFRd encoding_.
Definition frs1 (encoding_ : Z) : Z := DecodeCFRd encoding_.
Definition frs2 (encoding_ : Z) : Z := DecodeCFRs2 encoding_.
Definition frdp (encoding_ : Z) : Z := DecodeCFRdp encoding_.
Definition frs1p (encoding_ : Z) : Z := DecodeCFRs1p encoding_.
Definition frs2p (encoding_ : Z) : Z := DecodeCFRs2p encoding_.
Definition spload4_imm (encoding_ : Z) : Z := DecodeCSPLoad4Imm encoding_.
Definition spload8_imm (encoding_ : Z) : Z := DecodeCSPLoad8Imm encoding_.
Definition spstore4_imm (encoding_ : Z) : Z := DecodeCSPStore4Imm encoding_.
Definition spstore8_imm (encoding_ : Z) : Z := DecodeCSPStore8Imm encoding_.
Definition mem4_imm (encoding_ : Z) : Z := DecodeCMem4Imm encoding_.
Definition mem8_imm (encoding_ : Z) : Z := DecodeCMem8Imm encoding_.
Definition j_imm (encoding_ : Z) : Z := DecodeCJImm encoding_.
Definition b_imm (encoding_ : Z) : Z := DecodeCBImm encoding_.
Definition i_imm (encoding_ : Z) : Z := DecodeCIImm encoding_.
Definition u_imm (encoding_ : Z) : Z := DecodeCUImm encoding_.
Definition i16_imm (encoding_ : Z) : Z := DecodeCI16Imm encoding_.
Definition i4spn_imm (encoding_ : Z) : Z := DecodeCI4SPNImm encoding_.
Definition length : Z := 2.
End CInstr.

(** ** Lemmas *)

Section CEncodingLemmas.
Context `{Target}.

Lemma EncodeRegPrime_ok r p :
  IsRegPrime r = true -> 0 <= p <= 12 -> EncodeRegPrime r p = Ok (Z.shiftl (r - 8) p).
Proof.
  intros Hr Hp. unfold EncodeRegPrime, ASSERT. rewrite Hr, andb_false_r. simpl.
  unfold IsRegPrime in Hr. rewrite andb_true_iff, Z.leb_le, Z.ltb_lt in Hr.
  rewrite (wrapU_small 32 r) by (unfold inU; lia).
  change 7 with (Z.ones 3). rewrite Z.land_ones by lia.
  replace (r mod 2 ^ 3) with (r - 8)
    by (change (2 ^ 3) with 8; rewrite <- (Z_mod_plus_full r (-1)), Z.mod_small; lia).
  rewrite (u32_shiftl (r - 8) p 3); unfold inU; lia || done.
Qed.

Lemma IsRegPrime_spec r : IsRegPrime r = true <-> inU 3 (r - 8).
Proof. unfold IsRegPrime, inU. rewrite andb_true_iff, Z.leb_le, Z.ltb_lt. lia. Qed.

(** The predicates of the unsigned scaled formats. *)
Lemma IsUint_aligned n k imm :
  0 < n < 31 -> 0 <= k ->
  IsUint n imm && IsAligned imm (2 ^ k) = true <-> inU n imm /\ imm mod 2 ^ k = 0.
Proof. intros. by rewrite andb_true_iff, IsUint_spec, IsAligned_spec by lia. Qed.

Lemma IsInt_aligned n k imm :
  0 < n < 32 -> 0 <= k ->
  IsInt n imm && IsAligned imm (2 ^ k) = true <-> inS n imm /\ imm mod 2 ^ k = 0.
Proof. intros. by rewrite andb_true_iff, IsInt_spec, IsAligned_spec by lia. Qed.

End CEncodingLemmas.
