(* ===== verification/SimState.v ===== *)
(** * SimState: the state of [Simulator] (runtime/vm/simulator_riscv.{h,cc})

    The architectural registers, the LR/SC reservation, the stack bounds, the
    random generator of the debug build, the chain of setjmp buffers and the
    memory of the host process, which the simulated program shares.  Memory is
    a finite map from addresses to bytes; an access outside it is a
    [HostFault].  Hosts are little-endian, and the simulator's [uword] is as
    wide as [uintx_t]. *)

From stdpp Require Import base numbers list gmap.
From S2P Require Import Prelude Constants Encoding.

#[local] Open Scope Z_scope.
#[local] Open Scope res_scope.

(** ** Host memory *)

Abbreviation memory := (gmap Z Z).

(** [memcpy] of [n] bytes out of memory, read as a little-endian integer. *)
Fixpoint load_bytes (m : memory) (addr : Z) (n : nat) : Res Z :=
  match n with
  | O => Ok 0
  | S n => match m !! addr with
           | None => Err (HostFault addr)
           | Some b => let* rest := load_bytes m (addr + 1) n in Ok (b + 256 * rest)
           end
  end.

(** [memcpy] of the [n] low bytes of [v] into memory. *)
Fixpoint store_bytes (m : memory) (addr : Z) (n : nat) (v : Z) : Res memory :=
  match n with
  | O => Ok m
  | S n => match m !! addr with
           | None => Err (HostFault addr)
           | Some _ => store_bytes (<[addr := v mod 256]> m) (addr + 1) n (v / 256)
           end
  end.

(** The C++ types the simulator reads and writes; [float] and [double] are
    handled as bit patterns. *)
Inductive ctype : Set :=
| int8_t | uint8_t | int16_t | uint16_t | int32_t | uint32_t | int64_t | uint64_t
| float_t | double_t.

Definition sizeof (ty : ctype) : Z :=
  match ty with
  | int8_t | uint8_t => 1
  | int16_t | uint16_t => 2
  | int32_t | uint32_t | float_t => 4
  | int64_t | uint64_t | double_t => 8
  end.

(** Conversion of an integer to the type. *)
Definition cast (ty : ctype) (v : Z) : Z :=
  match ty with
  | int8_t => s8 v | uint8_t => u8 v | int16_t => s16 v | uint16_t => u16 v
  | int32_t => s32 v | uint32_t => u32 v | int64_t => s64 v | uint64_t => u64 v
  | float_t => u32 v | double_t => u64 v
  end.

Definition LoadUnaligned (ty : ctype) (m : memory) (addr : Z) : Res Z :=
  let* raw := load_bytes m addr (Z.to_nat (sizeof ty)) in Ok (cast ty raw).

Definition StoreUnaligned (ty : ctype) (m : memory) (addr v : Z) : Res memory :=
  store_bytes m addr (Z.to_nat (sizeof ty)) v.

(** ** The state *)

Record Sim : Type := mkSim {
  pc_ : Z;
  xregs_ : list Z;
  instret_ : Z;
  reserved_address_ : Z;
  reserved_value_ : Z;
  fregs_ : list Z;
  fcsr_ : Z;
  stack_limit_ : Z;
  overflow_stack_limit_ : Z;
  stack_base_ : Z;
  random_ : Z;
  setjmp_sps_ : list Z;
  mem_ : memory
}.

Definition set_pc (s : Sim) (v : Z) : Sim :=
  mkSim v (xregs_ s) (instret_ s) (reserved_address_ s) (reserved_value_ s) (fregs_ s)
    (fcsr_ s) (stack_limit_ s) (overflow_stack_limit_ s) (stack_base_ s) (random_ s)
    (setjmp_sps_ s) (mem_ s).
Definition set_xregs (s : Sim) (v : list Z) : Sim :=
  mkSim (pc_ s) v (instret_ s) (reserved_address_ s) (reserved_value_ s) (fregs_ s)
    (fcsr_ s) (stack_limit_ s) (overflow_stack_limit_ s) (stack_base_ s) (random_ s)
    (setjmp_sps_ s) (mem_ s).
Definition set_instret (s : Sim) (v : Z) : Sim :=
  mkSim (pc_ s) (xregs_ s) v (reserved_address_ s) (reserved_value_ s) (fregs_ s)
    (fcsr_ s) (stack_limit_ s) (overflow_stack_limit_ s) (stack_base_ s) (random_ s)
    (setjmp_sps_ s) (mem_ s).
Definition set_reserved (s : Sim) (addr v : Z) : Sim :=
  mkSim (pc_ s) (xregs_ s) (instret_ s) addr v (fregs_ s)
    (fcsr_ s) (stack_limit_ s) (overflow_stack_limit_ s) (stack_base_ s) (random_ s)
    (setjmp_sps_ s) (mem_ s).
Definition set_fregs_list (s : Sim) (v : list Z) : Sim :=
  mkSim (pc_ s) (xregs_ s) (instret_ s) (reserved_address_ s) (reserved_value_ s) v
    (fcsr_ s) (stack_limit_ s) (overflow_stack_limit_ s) (stack_base_ s) (random_ s)
    (setjmp_sps_ s) (mem_ s).
Definition set_random (s : Sim) (v : Z) : Sim :=
  mkSim (pc_ s) (xregs_ s) (instret_ s) (reserved_address_ s) (reserved_value_ s) (fregs_ s)
    (fcsr_ s) (stack_limit_ s) (overflow_stack_limit_ s) (stack_base_ s) v
    (setjmp_sps_ s) (mem_ s).
Definition set_setjmp_sps (s : Sim) (v : list Z) : Sim :=
  mkSim (pc_ s) (xregs_ s) (instret_ s) (reserved_address_ s) (reserved_value_ s) (fregs_ s)
    (fcsr_ s) (stack_limit_ s) (overflow_stack_limit_ s) (stack_base_ s) (random_ s)
    v (mem_ s).
Definition set_mem (s : Sim) (v : memory) : Sim :=
  mkSim (pc_ s) (xregs_ s) (instret_ s) (reserved_address_ s) (reserved_value_ s) (fregs_ s)
    (fcsr_ s) (stack_limit_ s) (overflow_stack_limit_ s) (stack_base_ s) (random_ s)
    (setjmp_sps_ s) v.

(** ** Registers *)

Definition get_xreg (s : Sim) (rs : Z) : Z := xregs_ s !!! Z.to_nat rs.

(** [set_xreg(rd, uintx_t value)]: the argument is converted to [uintx_t]. *)
Definition set_xreg `{Target} (s : Sim) (rd value : Z) : Sim :=
  if rd =? Reg.ZR then s else set_xregs s (<[Z.to_nat rd := ux value]> (xregs_ s)).

Definition get_fregd (s : Sim) (rs : Z) : Z := fregs_ s !!! Z.to_nat rs.
Definition set_fregd (s : Sim) (rd value : Z) : Sim :=
  set_fregs_list s (<[Z.to_nat rd := value]> (fregs_ s)).

Definition kNaNBox : Z := 0xFFFFFFFF00000000.

Definition get_fregs (s : Sim) (rs : Z) : Z :=
  let bits64 := fregs_ s !!! Z.to_nat rs in
  if negb (Z.land bits64 kNaNBox =? kNaNBox) then 0x7fc00000
  else u32 bits64.
Definition set_fregs (s : Sim) (rd value : Z) : Sim :=
  let bits64 := Z.lor value kNaNBox in
  set_fregs_list s (<[Z.to_nat rd := bits64]> (fregs_ s)).

(** [pc_ += delta], in [uintx_t]. *)
Definition add_pc `{Target} (s : Sim) (delta : Z) : Sim := set_pc s (ux (pc_ s + delta)).

Definition kBadLR `{Target} : Z := ux (-1).
Definition kEndSimulatingPC `{Target} : Z := ux (-2).

(** ** Memory accesses of the simulated program *)

Definition kPageSize : Z := 16 * 1024.

(** The DEBUG-only checks shared by [MemoryRead] and [MemoryWrite]. *)
Definition CheckAccess `{Target} (s : Sim) (ty : ctype) (addr base : Z) : Res unit :=
  if DEBUG then
    if (base =? Reg.SP) || (base =? Reg.FP) then
      if (stack_base_ s <? ux (addr + sizeof ty)) || (addr <? get_xreg s Reg.SP)
      then Err OutOfBoundsStackAccess else Ok tt
    else
      if (addr <? kPageSize) || (ux (Z.lnot kPageSize) <=? ux (addr + sizeof ty))
      then Err BadMemoryAccess else Ok tt
  else Ok tt.

Definition MemoryRead `{Target} (ty : ctype) (addr base : Z) (s : Sim) : Res Z :=
  CheckAccess s ty addr base ;; LoadUnaligned ty (mem_ s) addr.

Definition MemoryWrite `{Target} (ty : ctype) (addr value base : Z) (s : Sim) : Res Sim :=
  CheckAccess s ty addr base ;;
  let* m := StoreUnaligned ty (mem_ s) addr (cast ty value) in Ok (set_mem s m).

(** ** Control and status registers *)

Module ControlStatusRegister.
Definition fflags : Z := 0x001.
Definition frm : Z := 0x002.
Definition fcsr : Z := 0x003.
Definition cycle : Z := 0xC00.
Definition time : Z := 0xC01.
Definition instret : Z := 0xC02.
Definition cycleh : Z := 0xC80.
Definition timeh : Z := 0xC81.
Definition instreth : Z := 0xC82.
End ControlStatusRegister.

Definition CSRRead `{Target} (csr : Z) (s : Sim) : Res Z :=
  if csr =? ControlStatusRegister.fcsr then Ok (sx (fcsr_ s))
  else if csr =? ControlStatusRegister.cycle then Ok (sx (instret_ s / 2))
  else if csr =? ControlStatusRegister.time then Ok 0
  else if csr =? ControlStatusRegister.instret then Ok (sx (instret_ s))
  else if (XLEN =? 32) && (csr =? ControlStatusRegister.cycleh) then
    Ok (sx (Z.shiftr (instret_ s / 2) 32))
  else if (XLEN =? 32) && (csr =? ControlStatusRegister.timeh) then Ok 0
  else if (XLEN =? 32) && (csr =? ControlStatusRegister.instreth) then
    Ok (sx (Z.shiftr (instret_ s) 32))
  else Err (UnknownCSR csr).

Definition CSRWrite (csr value : Z) (s : Sim) : Res Sim := Err Unimplemented.
Definition CSRSet (csr mask : Z) (s : Sim) : Res Sim := Err Unimplemented.
Definition CSRClear (csr mask : Z) (s : Sim) : Res Sim := Err Unimplemented.

(** ** Random (runtime/vm/random.cc): multiply with carry, base 2^32 *)

Module Random.
Definition NextState (state : Z) : Z :=
  let state_lo := Z.land state 0xffffffff in
  let state_hi := Z.land (Z.shiftr state 32) 0xffffffff in
  u64 (u64 (0xffffda61 * state_lo) + state_hi).
(** (value, new state) *)
Definition NextUInt32 (state : Z) : Z * Z :=
  let state' := NextState state in (Z.land state' 0xffffffff, state').
(** The two draws are taken left to right. *)
Definition NextUInt64 (state : Z) : Z * Z :=
  let '(hi, st1) := NextUInt32 state in
  let '(lo, st2) := NextUInt32 st1 in
  (Z.lor (u64 (Z.shiftl hi 32)) lo, st2).
Definition Initialize `{Target} (seed : Z) : Res Z :=
  ASSERT (negb (seed =? 0)) ;; Ok (NextState (NextState (NextState (NextState seed)))).
End Random.

(** ** Failures *)

Definition IllegalInstruction {A} (encoding : Z) : Res A := Err (IllegalInstr encoding).
