(* ===== verification/SimInt.v ===== *)
(** * SimInt: the integer instructions of the simulator
    (runtime/vm/simulator_riscv.cc)

    One definition per static helper and per [Interpret*] handler.  A handler
    maps the instruction word and the state to the next state; [switch]
    becomes a chain of comparisons ending in the [default] case.  Operations
    whose C++ has no defined result for some operands (a shift by the width
    or more, an overflowing signed product) return [UndefinedBehavior]
    there. *)

From stdpp Require Import base numbers list gmap.
From S2P Require Import Prelude Constants Encoding SimState.

#[local] Open Scope Z_scope.
#[local] Open Scope res_scope.

(** ** C++ operators that can be undefined *)

(** Shifts of a [uint32_t] and of an [int32_t]. *)
Definition shl_u32 (a b : Z) : Res Z :=
  if b <? 32 then Ok (u32 (Z.shiftl a b)) else Err UndefinedBehavior.
Definition shr_32 (a b : Z) : Res Z :=
  if b <? 32 then Ok (Z.shiftr a b) else Err UndefinedBehavior.

(** Signed arithmetic at width [n]. *)
Definition sadd (n a b : Z) : Res Z :=
  if (- 2 ^ (n - 1) <=? a + b) && (a + b <? 2 ^ (n - 1)) then Ok (a + b)
  else Err UndefinedBehavior.
Definition smul (n a b : Z) : Res Z :=
  if (- 2 ^ (n - 1) <=? a * b) && (a * b <? 2 ^ (n - 1)) then Ok (a * b)
  else Err UndefinedBehavior.

Section SimInt.
Context `{Target}.

(** ** Bit counting and manipulation *)

(** A loop that returns at the first index with a property is [List.find] over
    the indices in loop order. *)
Definition bits_up (n : Z) : list Z := seqZ 0 n.
Definition bits_down (n : Z) : list Z := rev (seqZ 0 n).

Definition bit_set (a bit : Z) : bool := negb (Z.land a (Z.shiftl 1 bit) =? 0).

Definition clz (a : Z) : Z :=
  match List.find (bit_set a) (bits_down XLEN) with
  | Some bit => XLEN - bit - 1
  | None => XLEN
  end.
Definition ctz (a : Z) : Z :=
  match List.find (bit_set a) (bits_up XLEN) with Some bit => bit | None => XLEN end.
Definition cpop (a : Z) : Z :=
  foldl (fun count bit => if bit_set a bit then ux (count + 1) else count) 0 (bits_up XLEN).
Definition clzw (a : Z) : Z :=
  match List.find (bit_set a) (bits_down 32) with
  | Some bit => 32 - bit - 1
  | None => 32
  end.
Definition ctzw (a : Z) : Z :=
  match List.find (bit_set a) (bits_up 32) with Some bit => bit | None => 32 end.
Definition cpopw (a : Z) : Z :=
  foldl (fun count bit => if bit_set a bit then ux (count + 1) else count) 0 (bits_up 32).

Definition max (a b : Z) : Z := if b <? a then a else b.
Definition maxu (a b : Z) : Z := if b <? a then a else b.
Definition min (a b : Z) : Z := if a <? b then a else b.
Definition minu (a b : Z) : Z := if a <? b then a else b.

Definition clmul (a b : Z) : Z :=
  foldl (fun result bit =>
           if negb (Z.land (Z.shiftr b bit) 1 =? 0)
           then Z.lxor result (ux (Z.shiftl a bit)) else result) 0 (bits_up XLEN).
Definition clmulh (a b : Z) : Z :=
  foldl (fun result bit =>
           if negb (Z.land (Z.shiftr b bit) 1 =? 0)
           then Z.lxor result (Z.shiftr a (XLEN - bit)) else result) 0 (seqZ 1 (XLEN - 1)).
Definition clmulr (a b : Z) : Z :=
  foldl (fun result bit =>
           if negb (Z.land (Z.shiftr b bit) 1 =? 0)
           then Z.lxor result (Z.shiftr a (XLEN - bit - 1)) else result) 0 (bits_up XLEN).

Definition sextb (a : Z) : Z :=
  ux (Z.shiftr (sx (ux (Z.shiftl a (XLEN - 8)))) (XLEN - 8)).
Definition sexth (a : Z) : Z :=
  ux (Z.shiftr (sx (ux (Z.shiftl a (XLEN - 16)))) (XLEN - 16)).
Definition zexth (a : Z) : Z := Z.shiftr (ux (Z.shiftl a (XLEN - 16))) (XLEN - 16).

Definition ror (a b : Z) : Z :=
  let r := Z.land b (XLEN - 1) in
  let l := Z.land (ux (XLEN - r)) (XLEN - 1) in
  Z.lor (ux (Z.shiftl a l)) (Z.shiftr a r).
Definition rol (a b : Z) : Z :=
  let l := Z.land b (XLEN - 1) in
  let r := Z.land (ux (XLEN - l)) (XLEN - 1) in
  Z.lor (ux (Z.shiftl a l)) (Z.shiftr a r).
Definition rorw (a b : Z) : Res Z :=
  let r := u32 (Z.land b (XLEN - 1)) in
  let l := Z.land (u32 (XLEN - r)) (XLEN - 1) in
  let x := u32 a in
  let* hi := shl_u32 x l in
  let* lo := shr_32 x r in
  Ok (ux (sign_extend_u32 (Z.lor hi lo))).
Definition rolw (a b : Z) : Res Z :=
  let l := u32 (Z.land b (XLEN - 1)) in
  let r := Z.land (u32 (XLEN - l)) (XLEN - 1) in
  let x := u32 a in
  let* hi := shl_u32 x l in
  let* lo := shr_32 x r in
  Ok (ux (sign_extend_u32 (Z.lor hi lo))).

(** [for (int shift = 0; shift < XLEN; shift += 8)] *)
Definition byte_shifts : list Z := (fun k => 8 * k) <$> seqZ 0 (XLEN / 8).

Definition orcb (a : Z) : Z :=
  foldl (fun result shift =>
           if negb (Z.land (Z.shiftr a shift) 0xFF =? 0)
           then Z.lor result (ux (Z.shiftl 0xFF shift)) else result) 0 byte_shifts.
Definition rev8 (a : Z) : Z :=
  foldl (fun result shift =>
           Z.lor (ux (Z.shiftl result 8)) (Z.land (Z.shiftr a shift) 0xFF)) 0 byte_shifts.

Definition bclr (a b : Z) : Z := Z.land a (ux (Z.lnot (Z.shiftl 1 (Z.land b (XLEN - 1))))).
Definition bext (a b : Z) : Z := Z.land (Z.shiftr a (Z.land b (XLEN - 1))) 1.
Definition binv (a b : Z) : Z := Z.lxor a (Z.shiftl 1 (Z.land b (XLEN - 1))).
Definition bset (a b : Z) : Z := Z.lor a (Z.shiftl 1 (Z.land b (XLEN - 1))).

(** ** Multiplication and division

    [intx_t] parameters are signed integers, [uintx_t] parameters unsigned. *)

Definition mul (a b : Z) : Z := sx (ux (ux a * ux b)).

Definition mulh (a b : Z) : Res Z :=
  let kLoMask := Z.shiftl 1 (XLEN / 2) - 1 in
  let kHiShift := XLEN / 2 in
  let a_lo := Z.land (ux a) kLoMask in
  let a_hi := Z.shiftr a kHiShift in
  let b_lo := Z.land (ux b) kLoMask in
  let b_hi := Z.shiftr b kHiShift in
  let x := ux (a_lo * b_lo) in
  let y := sx (ux (ux a_hi * b_lo)) in
  let z := sx (ux (a_lo * ux b_hi)) in
  let* w := smul XLEN a_hi b_hi in
  let r0 := sx (ux (Z.shiftr x kHiShift + ux y)) in
  let r1 := sx (ux (Z.land (ux r0) kLoMask + ux z)) in
  let* t := sadd XLEN w (Z.shiftr r0 kHiShift) in
  sadd XLEN t (Z.shiftr r1 kHiShift).

Definition mulhu (a b : Z) : Z :=
  let kLoMask := Z.shiftl 1 (XLEN / 2) - 1 in
  let kHiShift := XLEN / 2 in
  let a_lo := Z.land a kLoMask in
  let a_hi := Z.shiftr a kHiShift in
  let b_lo := Z.land b kLoMask in
  let b_hi := Z.shiftr b kHiShift in
  let x := ux (a_lo * b_lo) in
  let y := ux (a_hi * b_lo) in
  let z := ux (a_lo * b_hi) in
  let w := ux (a_hi * b_hi) in
  let r0 := ux (Z.shiftr x kHiShift + y) in
  let r1 := ux (Z.land r0 kLoMask + z) in
  ux (ux (w + Z.shiftr r0 kHiShift) + Z.shiftr r1 kHiShift).

Definition mulhsu (a b : Z) : Res Z :=
  let kLoMask := Z.shiftl 1 (XLEN / 2) - 1 in
  let kHiShift := XLEN / 2 in
  let a_lo := Z.land (ux a) kLoMask in
  let a_hi := Z.shiftr a kHiShift in
  let b_lo := Z.land b kLoMask in
  let b_hi := Z.shiftr b kHiShift in
  let x := ux (a_lo * b_lo) in
  let y := sx (ux (ux a_hi * b_lo)) in
  let z := ux (a_lo * b_hi) in
  let w := sx (ux (ux a_hi * b_hi)) in
  let r0 := sx (ux (Z.shiftr x kHiShift + ux y)) in
  let r1 := ux (Z.land (ux r0) kLoMask + z) in
  let* t := sadd XLEN w (Z.shiftr r0 kHiShift) in
  Ok (ux (ux t + Z.shiftr r1 kHiShift)).

Definition div (a b : Z) : Z :=
  if b =? 0 then -1
  else if (b =? -1) && (a =? kMinIntX) then kMinIntX
  else Z.quot a b.
Definition divu (a b : Z) : Z := if b =? 0 then kMaxUIntX else a / b.
Definition rem (a b : Z) : Z :=
  if b =? 0 then a
  else if (b =? -1) && (a =? kMinIntX) then 0
  else Z.rem a b.
Definition remu (a b : Z) : Z := if b =? 0 then a else a mod b.

Definition kMinInt32 : Z := - 2 ^ 31.
Definition kMaxInt32 : Z := 2 ^ 31 - 1.
Definition kMaxUint32 : Z := 2 ^ 32 - 1.

Definition mulw (a b : Z) : Res Z := smul 32 a b.
Definition divw (a b : Z) : Z :=
  if b =? 0 then -1
  else if (b =? -1) && (a =? kMinInt32) then kMinInt32
  else Z.quot a b.
Definition divuw (a b : Z) : Z := if b =? 0 then kMaxUint32 else a / b.
Definition remw (a b : Z) : Z :=
  if b =? 0 then a
  else if (b =? -1) && (a =? kMinInt32) then 0
  else Z.rem a b.
Definition remuw (a b : Z) : Z := if b =? 0 then a else a mod b.

(** ** Handlers *)

Definition InterpretLUI (instr : Z) (s : Sim) : Res Sim :=
  let s := set_xreg s (Instr.rd instr) (sign_extend_i32 (Instr.utype_imm instr)) in
  Ok (add_pc s Instr.length).

Definition InterpretAUIPC (instr : Z) (s : Sim) : Res Sim :=
  let s := set_xreg s (Instr.rd instr) (pc_ s + sign_extend_i32 (Instr.utype_imm instr)) in
  Ok (add_pc s Instr.length).

Definition InterpretJAL (instr : Z) (s : Sim) : Res Sim :=
  let s := set_xreg s (Instr.rd instr) (pc_ s + Instr.length) in
  Ok (add_pc s (sign_extend_i32 (Instr.jtype_imm instr))).

Definition InterpretJALR (instr : Z) (s : Sim) : Res Sim :=
  let base := get_xreg s (Instr.rs1 instr) in
  let offset := ux (Instr.itype_imm instr) in
  let s := set_xreg s (Instr.rd instr) (pc_ s + Instr.length) in
  Ok (set_pc s (ux (base + offset))).

Definition InterpretBRANCH (instr : Z) (s : Sim) : Res Sim :=
  let a := get_xreg s (Instr.rs1 instr) in
  let b := get_xreg s (Instr.rs2 instr) in
  let goto (taken : bool) :=
    Ok (add_pc s (if taken then Instr.btype_imm instr else Instr.length)) in
  let f3 := Instr.funct3 instr in
  if f3 =? Funct3.BEQ then goto (a =? b)
  else if f3 =? Funct3.BNE then goto (negb (a =? b))
  else if f3 =? Funct3.BLT then goto (sx a <? sx b)
  else if f3 =? Funct3.BGE then goto (sx b <=? sx a)
  else if f3 =? Funct3.BLTU then goto (a <? b)
  else if f3 =? Funct3.BGEU then goto (b <=? a)
  else IllegalInstruction instr.

Definition InterpretLOAD (instr : Z) (s : Sim) : Res Sim :=
  let addr := ux (get_xreg s (Instr.rs1 instr) + Instr.itype_imm instr) in
  let f3 := Instr.funct3 instr in
  let load (ty : ctype) :=
    let* v := MemoryRead ty addr (Instr.rs1 instr) s in
    Ok (set_xreg s (Instr.rd instr) v) in
  let* s :=
    (if f3 =? Funct3.LB then load int8_t
     else if f3 =? Funct3.LH then load int16_t
     else if f3 =? Funct3.LW then load int32_t
     else if f3 =? Funct3.LBU then load uint8_t
     else if f3 =? Funct3.LHU then load uint16_t
     else if (64 <=? XLEN) && (f3 =? Funct3.LWU) then load uint32_t
     else if (64 <=? XLEN) && (f3 =? Funct3.LD) then load int64_t
     else IllegalInstruction instr) in
  Ok (add_pc s Instr.length).

Definition InterpretLOADFP (instr : Z) (s : Sim) : Res Sim :=
  let addr := ux (get_xreg s (Instr.rs1 instr) + Instr.itype_imm instr) in
  let f3 := Instr.funct3 instr in
  let* s :=
    (if f3 =? Funct3.S then
       let* v := MemoryRead float_t addr (Instr.rs1 instr) s in
       Ok (set_fregs s (Instr.frd instr) v)
     else if f3 =? Funct3.D then
       let* v := MemoryRead double_t addr (Instr.rs1 instr) s in
       Ok (set_fregd s (Instr.frd instr) v)
     else IllegalInstruction instr) in
  Ok (add_pc s Instr.length).

Definition InterpretSTORE (instr : Z) (s : Sim) : Res Sim :=
  let addr := ux (get_xreg s (Instr.rs1 instr) + Instr.stype_imm instr) in
  let f3 := Instr.funct3 instr in
  let store (ty : ctype) :=
    MemoryWrite ty addr (get_xreg s (Instr.rs2 instr)) (Instr.rs1 instr) s in
  let* s :=
    (if f3 =? Funct3.SB then store uint8_t
     else if f3 =? Funct3.SH then store uint16_t
     else if f3 =? Funct3.SW then store uint32_t
     else if (64 <=? XLEN) && (f3 =? Funct3.SD) then store uint64_t
     else IllegalInstruction instr) in
  Ok (add_pc s Instr.length).

Definition InterpretSTOREFP (instr : Z) (s : Sim) : Res Sim :=
  let addr := ux (get_xreg s (Instr.rs1 instr) + Instr.stype_imm instr) in
  let f3 := Instr.funct3 instr in
  let* s :=
    (if f3 =? Funct3.S then
       MemoryWrite float_t addr (get_fregs s (Instr.frs2 instr)) (Instr.rs1 instr) s
     else if f3 =? Funct3.D then
       MemoryWrite double_t addr (get_fregd s (Instr.frs2 instr)) (Instr.rs1 instr) s
     else IllegalInstruction instr) in
  Ok (add_pc s Instr.length).

Definition InterpretOPIMM (instr : Z) (s : Sim) : Res Sim :=
  let a := get_xreg s (Instr.rs1 instr) in
  let imm := Instr.itype_imm instr in
  let shamt := Instr.shamt instr in
  let f3 := Instr.funct3 instr in
  let f7 := Instr.funct7 instr in
  let set v := Ok (set_xreg s (Instr.rd instr) v) in
  let* s :=
    (if f3 =? Funct3.ADDI then set (a + imm)
     else if f3 =? Funct3.SLTI then set (if sx a <? imm then 1 else 0)
     else if f3 =? Funct3.SLTIU then set (if a <? ux imm then 1 else 0)
     else if f3 =? Funct3.XORI then set (Z.lxor a (ux imm))
     else if f3 =? Funct3.ORI then set (Z.lor a (ux imm))
     else if f3 =? Funct3.ANDI then set (Z.land a (ux imm))
     else if f3 =? Funct3.SLLI then
       if f7 =? Funct7.COUNT then
         if shamt =? 0 then set (clz a)
         else if shamt =? 1 then set (ctz a)
         else if shamt =? 2 then set (cpop a)
         else if shamt =? 4 then set (sextb a)
         else if shamt =? 5 then set (sexth a)
         else IllegalInstruction instr
       else if Z.land f7 126 =? Funct7.BCLRBEXT then set (bclr a shamt)
       else if Z.land f7 126 =? Funct7.BINV then set (binv a shamt)
       else if Z.land f7 126 =? Funct7.BSET then set (bset a shamt)
       else set (Z.shiftl a shamt)
     else if f3 =? Funct3.SRI then
       if Z.land f7 126 =? Funct7.SRA then set (Z.shiftr (sx a) shamt)
       else if Z.land f7 126 =? Funct7.ROTATE then set (ror a shamt)
       else if f7 =? 20 (* 0b0010100 *) then set (orcb a)
       else if f7 =? (if XLEN =? 32 then 52 (* 0b0110100 *) else 53 (* 0b0110101 *))
            then set (rev8 a)
       else if Z.land f7 126 =? Funct7.BCLRBEXT then set (bext a shamt)
       else set (Z.shiftr a shamt)
     else IllegalInstruction instr) in
  Ok (add_pc s Instr.length).

Definition InterpretOPIMM32 (instr : Z) (s : Sim) : Res Sim :=
  let rs1 := get_xreg s (Instr.rs1 instr) in
  let shamt := Instr.shamt instr in
  let f3 := Instr.funct3 instr in
  let f7 := Instr.funct7 instr in
  let set v := Ok (set_xreg s (Instr.rd instr) v) in
  let* s :=
    (if f3 =? Funct3.ADDI then
       let a := u32 rs1 in
       let b := u32 (Instr.itype_imm instr) in
       set (sign_extend_u32 (u32 (a + b)))
     else if f3 =? Funct3.SLLI then
       if f7 =? Funct7.SLLIUW then set (Z.shiftl (u32 rs1) shamt)
       else if f7 =? Funct7.COUNT then
         if shamt =? 0 then set (clzw (u32 rs1))
         else if shamt =? 1 then set (ctzw (u32 rs1))
         else if shamt =? 2 then set (cpopw (u32 rs1))
         else IllegalInstruction instr
       else
         let* v := shl_u32 (u32 rs1) shamt in set (sign_extend_u32 v)
     else if f3 =? Funct3.SRI then
       if f7 =? Funct7.SRA then
         let* v := shr_32 (s32 rs1) shamt in set (sign_extend_i32 v)
       else if f7 =? Funct7.ROTATE then
         let* v := rorw rs1 shamt in set v
       else
         let* v := shr_32 (u32 rs1) shamt in set (sign_extend_u32 v)
     else IllegalInstruction instr) in
  Ok (add_pc s Instr.length).

Definition InterpretOP_0 (instr : Z) (s : Sim) : Res Sim :=
  let a := get_xreg s (Instr.rs1 instr) in
  let b := get_xreg s (Instr.rs2 instr) in
  let f3 := Instr.funct3 instr in
  let set v := Ok (set_xreg s (Instr.rd instr) v) in
  let* s :=
    (if f3 =? Funct3.ADD then set (a + b)
     else if f3 =? Funct3.SLL then set (Z.shiftl a (Z.land b (XLEN - 1)))
     else if f3 =? Funct3.SLT then set (if sx a <? sx b then 1 else 0)
     else if f3 =? Funct3.SLTU then set (if a <? b then 1 else 0)
     else if f3 =? Funct3.XOR then set (Z.lxor a b)
     else if f3 =? Funct3.SR then set (Z.shiftr a (Z.land b (XLEN - 1)))
     else if f3 =? Funct3.OR then set (Z.lor a b)
     else if f3 =? Funct3.AND then set (Z.land a b)
     else IllegalInstruction instr) in
  Ok (add_pc s Instr.length).

Definition InterpretOP_MULDIV (instr : Z) (s : Sim) : Res Sim :=
  let a := get_xreg s (Instr.rs1 instr) in
  let b := get_xreg s (Instr.rs2 instr) in
  let f3 := Instr.funct3 instr in
  let set v := Ok (set_xreg s (Instr.rd instr) v) in
  let* s :=
    (if f3 =? Funct3.MUL then set (mul (sx a) (sx b))
     else if f3 =? Funct3.MULH then let* v := mulh (sx a) (sx b) in set v
     else if f3 =? Funct3.MULHSU then let* v := mulhsu (sx a) b in set v
     else if f3 =? Funct3.MULHU then set (mulhu a b)
     else if f3 =? Funct3.DIV then set (div (sx a) (sx b))
     else if f3 =? Funct3.DIVU then set (divu a b)
     else if f3 =? Funct3.REM then set (rem (sx a) (sx b))
     else if f3 =? Funct3.REMU then set (remu a b)
     else IllegalInstruction instr) in
  Ok (add_pc s Instr.length).

Definition InterpretOP_SUB (instr : Z) (s : Sim) : Res Sim :=
  let a := get_xreg s (Instr.rs1 instr) in
  let b := get_xreg s (Instr.rs2 instr) in
  let f3 := Instr.funct3 instr in
  let set v := Ok (set_xreg s (Instr.rd instr) v) in
  let* s :=
    (if f3 =? Funct3.ADD then set (a - b)
     else if f3 =? Funct3.SR then set (Z.shiftr (sx a) (Z.land b (XLEN - 1)))
     else if f3 =? Funct3.AND then set (Z.land a (ux (Z.lnot b)))
     else if f3 =? Funct3.OR then set (Z.lor a (ux (Z.lnot b)))
     else if f3 =? Funct3.XOR then set (Z.lxor a (ux (Z.lnot b)))
     else IllegalInstruction instr) in
  Ok (add_pc s Instr.length).

Definition InterpretOP_SHADD (instr : Z) (s : Sim) : Res Sim :=
  let a := get_xreg s (Instr.rs1 instr) in
  let b := get_xreg s (Instr.rs2 instr) in
  let f3 := Instr.funct3 instr in
  let set v := Ok (set_xreg s (Instr.rd instr) v) in
  let* s :=
    (if f3 =? Funct3.SH1ADD then set (ux (Z.shiftl a 1) + b)
     else if f3 =? Funct3.SH2ADD then set (ux (Z.shiftl a 2) + b)
     else if f3 =? Funct3.SH3ADD then set (ux (Z.shiftl a 3) + b)
     else IllegalInstruction instr) in
  Ok (add_pc s Instr.length).

Definition InterpretOP_MINMAXCLMUL (instr : Z) (s : Sim) : Res Sim :=
  let a := get_xreg s (Instr.rs1 instr) in
  let b := get_xreg s (Instr.rs2 instr) in
  let f3 := Instr.funct3 instr in
  let set v := Ok (set_xreg s (Instr.rd instr) v) in
  let* s :=
    (if f3 =? Funct3.MAX then set (max (sx a) (sx b))
     else if f3 =? Funct3.MAXU then set (maxu a b)
     else if f3 =? Funct3.MIN then set (min (sx a) (sx b))
     else if f3 =? Funct3.MINU then set (minu a b)
     else if f3 =? Funct3.CLMUL then set (clmul a b)
     else if f3 =? Funct3.CLMULH then set (clmulh a b)
     else if f3 =? Funct3.CLMULR then set (clmulr a b)
     else IllegalInstruction instr) in
  Ok (add_pc s Instr.length).

Definition InterpretOP_ROTATE (instr : Z) (s : Sim) : Res Sim :=
  let a := get_xreg s (Instr.rs1 instr) in
  let b := get_xreg s (Instr.rs2 instr) in
  let f3 := Instr.funct3 instr in
  let set v := Ok (set_xreg s (Instr.rd instr) v) in
  let* s :=
    (if f3 =? Funct3.ROR then set (ror a b)
     else if f3 =? Funct3.ROL then set (rol a b)
     else IllegalInstruction instr) in
  Ok (add_pc s Instr.length).

Definition InterpretOP_BCLRBEXT (instr : Z) (s : Sim) : Res Sim :=
  let a := get_xreg s (Instr.rs1 instr) in
  let b := get_xreg s (Instr.rs2 instr) in
  let f3 := Instr.funct3 instr in
  let set v := Ok (set_xreg s (Instr.rd instr) v) in
  let* s :=
    (if f3 =? Funct3.BCLR then set (bclr a b)
     else if f3 =? Funct3.BEXT then set (bext a b)
     else IllegalInstruction instr) in
  Ok (add_pc s Instr.length).

Definition InterpretOP (instr : Z) (s : Sim) : Res Sim :=
  let a := get_xreg s (Instr.rs1 instr) in
  let b := get_xreg s (Instr.rs2 instr) in
  let f7 := Instr.funct7 instr in
  if f7 =? 0 then InterpretOP_0 instr s
  else if f7 =? Funct7.SUB then InterpretOP_SUB instr s
  else if f7 =? Funct7.MULDIV then InterpretOP_MULDIV instr s
  else if f7 =? Funct7.SHADD then InterpretOP_SHADD instr s
  else if f7 =? Funct7.MINMAXCLMUL then InterpretOP_MINMAXCLMUL instr s
  else if f7 =? Funct7.ROTATE then InterpretOP_ROTATE instr s
  else if f7 =? Funct7.BCLRBEXT then InterpretOP_BCLRBEXT instr s
  else if f7 =? Funct7.BINV then
    Ok (add_pc (set_xreg s (Instr.rd instr) (binv a b)) Instr.length)
  else if f7 =? Funct7.BSET then
    Ok (add_pc (set_xreg s (Instr.rd instr) (bset a b)) Instr.length)
  else if (XLEN =? 32) && (f7 =? 4 (* 0b0000100 *)) then
    Ok (add_pc (set_xreg s (Instr.rd instr) (zexth a)) Instr.length)
  else IllegalInstruction instr.

Definition InterpretOP32_0 (instr : Z) (s : Sim) : Res Sim :=
  let rs1 := get_xreg s (Instr.rs1 instr) in
  let rs2 := get_xreg s (Instr.rs2 instr) in
  let f3 := Instr.funct3 instr in
  let set v := Ok (set_xreg s (Instr.rd instr) v) in
  let* s :=
    (if (64 <=? XLEN) && (f3 =? Funct3.ADD) then
       set (sign_extend_u32 (u32 (u32 rs1 + u32 rs2)))
     else if (64 <=? XLEN) && (f3 =? Funct3.SLL) then
       let* v := shl_u32 (u32 rs1) (u32 (Z.land rs2 (32 - 1))) in set (sign_extend_u32 v)
     else if (64 <=? XLEN) && (f3 =? Funct3.SR) then
       let* v := shr_32 (u32 rs1) (u32 (Z.land rs2 (32 - 1))) in set (sign_extend_u32 v)
     else IllegalInstruction instr) in
  Ok (add_pc s Instr.length).

Definition InterpretOP32_SUB (instr : Z) (s : Sim) : Res Sim :=
  let rs1 := get_xreg s (Instr.rs1 instr) in
  let rs2 := get_xreg s (Instr.rs2 instr) in
  let f3 := Instr.funct3 instr in
  let set v := Ok (set_xreg s (Instr.rd instr) v) in
  let* s :=
    (if (64 <=? XLEN) && (f3 =? Funct3.ADD) then
       set (sign_extend_u32 (u32 (u32 rs1 - u32 rs2)))
     else if (64 <=? XLEN) && (f3 =? Funct3.SR) then
       let* v := shr_32 (s32 rs1) (u32 (Z.land rs2 (32 - 1))) in set (sign_extend_i32 v)
     else IllegalInstruction instr) in
  Ok (add_pc s Instr.length).

Definition InterpretOP32_MULDIV (instr : Z) (s : Sim) : Res Sim :=
  let rs1 := get_xreg s (Instr.rs1 instr) in
  let rs2 := get_xreg s (Instr.rs2 instr) in
  let f3 := Instr.funct3 instr in
  let set v := Ok (set_xreg s (Instr.rd instr) v) in
  let* s :=
    (if (64 <=? XLEN) && (f3 =? Funct3.MULW) then
       let* v := mulw (s32 rs1) (s32 rs2) in set (sign_extend_i32 v)
     else if (64 <=? XLEN) && (f3 =? Funct3.DIVW) then
       set (sign_extend_i32 (divw (s32 rs1) (s32 rs2)))
     else if (64 <=? XLEN) && (f3 =? Funct3.DIVUW) then
       set (sign_extend_u32 (divuw (u32 rs1) (u32 rs2)))
     else if (64 <=? XLEN) && (f3 =? Funct3.REMW) then
       set (sign_extend_i32 (remw (s32 rs1) (s32 rs2)))
     else if (64 <=? XLEN) && (f3 =? Funct3.REMUW) then
       set (sign_extend_u32 (remuw (u32 rs1) (u32 rs2)))
     else IllegalInstruction instr) in
  Ok (add_pc s Instr.length).

Definition InterpretOP32_SHADD (instr : Z) (s : Sim) : Res Sim :=
  let a := u32 (get_xreg s (Instr.rs1 instr)) in
  let b := get_xreg s (Instr.rs2 instr) in
  let f3 := Instr.funct3 instr in
  let set v := Ok (set_xreg s (Instr.rd instr) v) in
  let* s :=
    (if f3 =? Funct3.SH1ADD then set (ux (Z.shiftl a 1) + b)
     else if f3 =? Funct3.SH2ADD then set (ux (Z.shiftl a 2) + b)
     else if f3 =? Funct3.SH3ADD then set (ux (Z.shiftl a 3) + b)
     else IllegalInstruction instr) in
  Ok (add_pc s Instr.length).

Definition InterpretOP32_ADDUW (instr : Z) (s : Sim) : Res Sim :=
  let rs1 := get_xreg s (Instr.rs1 instr) in
  let b := get_xreg s (Instr.rs2 instr) in
  let f3 := Instr.funct3 instr in
  let set v := Ok (set_xreg s (Instr.rd instr) v) in
  let* s :=
    (if (64 <=? XLEN) && (f3 =? Funct3.F3_0) then set (u32 rs1 + b)
     else if (64 <=? XLEN) && (f3 =? Funct3.ZEXT) then set (zexth rs1)
     else IllegalInstruction instr) in
  Ok (add_pc s Instr.length).

Definition InterpretOP32_ROTATE (instr : Z) (s : Sim) : Res Sim :=
  let a := get_xreg s (Instr.rs1 instr) in
  let b := get_xreg s (Instr.rs2 instr) in
  let f3 := Instr.funct3 instr in
  let* s :=
    (if f3 =? Funct3.ROR then
       let* v := rorw a b in Ok (set_xreg s (Instr.rd instr) v)
     else if f3 =? Funct3.ROL then
       let* v := rolw a b in Ok (set_xreg s (Instr.rd instr) v)
     else IllegalInstruction instr) in
  Ok (add_pc s Instr.length).

Definition InterpretOP32 (instr : Z) (s : Sim) : Res Sim :=
  let f7 := Instr.funct7 instr in
  if (64 <=? XLEN) && (f7 =? 0) then InterpretOP32_0 instr s
  else if (64 <=? XLEN) && (f7 =? Funct7.SUB) then InterpretOP32_SUB instr s
  else if (64 <=? XLEN) && (f7 =? Funct7.MULDIV) then InterpretOP32_MULDIV instr s
  else if (64 <=? XLEN) && (f7 =? Funct7.SHADD) then InterpretOP32_SHADD instr s
  else if (64 <=? XLEN) && (f7 =? Funct7.ADDUW) then InterpretOP32_ADDUW instr s
  else if (64 <=? XLEN) && (f7 =? Funct7.ROTATE) then InterpretOP32_ROTATE instr s
  else IllegalInstruction instr.

Definition InterpretMISCMEM (instr : Z) (s : Sim) : Res Sim :=
  let f3 := Instr.funct3 instr in
  let* s :=
    (if f3 =? Funct3.FENCE then Ok s
     else if f3 =? Funct3.FENCEI then Ok s
     else IllegalInstruction instr) in
  Ok (add_pc s Instr.length).

End SimInt.
