(* ===== verification/SimAtomic.v ===== *)
(** * SimAtomic: the A extension of the simulator
    (runtime/vm/simulator_riscv.cc)

    The simulated program is one thread of the host, so a [std::atomic]
    operation is a read or a read-modify-write of memory, and the
    compare-exchange loops of AMOMIN/AMOMAX end at their first successful
    exchange with the value they read. *)

From stdpp Require Import base numbers list gmap.
From S2P Require Import Prelude Constants Encoding SimState.

#[local] Open Scope Z_scope.
#[local] Open Scope res_scope.

Section SimAtomic.
Context `{Target}.

(** [sign_extend] at the template's type. *)
Definition sign_extend_as (ty : ctype) (v : Z) : Z :=
  match ty with
  | int32_t => sign_extend_i32 v
  | uint32_t => sign_extend_u32 v
  | uint64_t => sign_extend_u64 v
  | _ => sign_extend_i64 v
  end.

(** [(addr & (sizeof(type) - 1)) != 0] is fatal. *)
Definition CheckAtomicAlignment (ty : ctype) (addr : Z) : Res unit :=
  if negb (Z.land addr (sizeof ty - 1) =? 0) then Err MisalignedAtomic else Ok tt.

Definition atomic_load (ty : ctype) (addr : Z) (s : Sim) : Res Z :=
  LoadUnaligned ty (mem_ s) addr.
Definition atomic_store (ty : ctype) (addr v : Z) (s : Sim) : Res Sim :=
  let* m := StoreUnaligned ty (mem_ s) addr (cast ty v) in Ok (set_mem s m).

(** [std::atomic::load] has no defined behaviour for a releasing order. *)
Definition load_order_ok (order : memory_order) : bool :=
  match order with
  | memory_order_release | memory_order_acq_rel => false
  | _ => true
  end.

Definition InterpretLR (ty : ctype) (instr : Z) (s : Sim) : Res Sim :=
  let addr := get_xreg s (Instr.rs1 instr) in
  CheckAtomicAlignment ty addr ;;
  if negb (load_order_ok (Instr.order instr)) then Err UndefinedBehavior else
  let* v := atomic_load ty addr s in
  let s := set_reserved s addr (ux v) in
  Ok (set_xreg s (Instr.rd instr) (reserved_value_ s)).

Definition InterpretSC (ty : ctype) (instr : Z) (s : Sim) : Res Sim :=
  let addr := get_xreg s (Instr.rs1 instr) in
  CheckAtomicAlignment ty addr ;;
  if negb (addr =? reserved_address_ s) then Ok (set_xreg s (Instr.rd instr) 1) else
  let expected := cast ty (reserved_value_ s) in
  let desired := cast ty (get_xreg s (Instr.rs2 instr)) in
  let* v := atomic_load ty addr s in
  if v =? expected then
    let* s := atomic_store ty addr desired s in Ok (set_xreg s (Instr.rd instr) 0)
  else Ok (set_xreg s (Instr.rd instr) 1).

(** The common shape of the AMO templates: [f old arg] is what is stored. *)
Definition InterpretAMOwith (f : Z -> Z -> Z) (ty : ctype) (instr : Z) (s : Sim) : Res Sim :=
  let addr := get_xreg s (Instr.rs1 instr) in
  CheckAtomicAlignment ty addr ;;
  let arg := cast ty (get_xreg s (Instr.rs2 instr)) in
  let* result := atomic_load ty addr s in
  let* s := atomic_store ty addr (f result arg) s in
  Ok (set_xreg s (Instr.rd instr) (sign_extend_as ty result)).

Definition InterpretAMOSWAP : ctype -> Z -> Sim -> Res Sim :=
  InterpretAMOwith (fun result desired => desired).
Definition InterpretAMOADD : ctype -> Z -> Sim -> Res Sim :=
  InterpretAMOwith (fun result arg => result + arg).
Definition InterpretAMOXOR : ctype -> Z -> Sim -> Res Sim :=
  InterpretAMOwith (fun result arg => Z.lxor result arg).
Definition InterpretAMOAND : ctype -> Z -> Sim -> Res Sim :=
  InterpretAMOwith (fun result arg => Z.land result arg).
Definition InterpretAMOOR : ctype -> Z -> Sim -> Res Sim :=
  InterpretAMOwith (fun result arg => Z.lor result arg).
Definition InterpretAMOMIN : ctype -> Z -> Sim -> Res Sim :=
  InterpretAMOwith (fun expected compare => if expected <? compare then expected else compare).
Definition InterpretAMOMAX : ctype -> Z -> Sim -> Res Sim :=
  InterpretAMOwith (fun expected compare => if compare <? expected then expected else compare).

Definition InterpretAMO32 (instr : Z) (s : Sim) : Res Sim :=
  let f5 := Instr.funct5 instr in
  let* s :=
    (if f5 =? Funct5.LR then InterpretLR int32_t instr s
     else if f5 =? Funct5.SC then InterpretSC int32_t instr s
     else if f5 =? Funct5.AMOSWAP then InterpretAMOSWAP int32_t instr s
     else if f5 =? Funct5.AMOADD then InterpretAMOADD int32_t instr s
     else if f5 =? Funct5.AMOXOR then InterpretAMOXOR int32_t instr s
     else if f5 =? Funct5.AMOAND then InterpretAMOAND int32_t instr s
     else if f5 =? Funct5.AMOOR then InterpretAMOOR int32_t instr s
     else if f5 =? Funct5.AMOMIN then InterpretAMOMIN int32_t instr s
     else if f5 =? Funct5.AMOMAX then InterpretAMOMAX int32_t instr s
     else if f5 =? Funct5.AMOMINU then InterpretAMOMIN uint32_t instr s
     else if f5 =? Funct5.AMOMAXU then InterpretAMOMAX uint32_t instr s
     else IllegalInstruction instr) in
  Ok (add_pc s Instr.length).

Definition InterpretAMO64 (instr : Z) (s : Sim) : Res Sim :=
  let f5 := Instr.funct5 instr in
  let* s :=
    (if negb (64 <=? XLEN) then IllegalInstruction instr
     else if f5 =? Funct5.LR then InterpretLR int64_t instr s
     else if f5 =? Funct5.SC then InterpretSC int64_t instr s
     else if f5 =? Funct5.AMOSWAP then InterpretAMOSWAP int64_t instr s
     else if f5 =? Funct5.AMOADD then InterpretAMOADD int64_t instr s
     else if f5 =? Funct5.AMOXOR then InterpretAMOXOR int64_t instr s
     else if f5 =? Funct5.AMOAND then InterpretAMOAND int64_t instr s
     else if f5 =? Funct5.AMOOR then InterpretAMOOR int64_t instr s
     else if f5 =? Funct5.AMOMIN then InterpretAMOMIN int64_t instr s
     else if f5 =? Funct5.AMOMAX then InterpretAMOMAX int64_t instr s
     else if f5 =? Funct5.AMOMINU then InterpretAMOMIN uint64_t instr s
     else if f5 =? Funct5.AMOMAXU then InterpretAMOMAX uint64_t instr s
     else IllegalInstruction instr) in
  Ok (add_pc s Instr.length).

Definition InterpretAMO (instr : Z) (s : Sim) : Res Sim :=
  let f3 := Instr.funct3 instr in
  if f3 =? Funct3.WIDTH32 then InterpretAMO32 instr s
  else if f3 =? Funct3.WIDTH64 then InterpretAMO64 instr s
  else IllegalInstruction instr.

End SimAtomic.
