(* ===== verification/SimFloat.v ===== *)
(** * SimFloat: the F and D extensions of the simulator
    (runtime/vm/simulator_riscv.cc)

    A [float] or [double] is its IEEE-754 bit pattern.  The host's arithmetic
    is the round-to-nearest-even arithmetic of the Standard Library's
    [SpecFloat], reached by decoding the operands' bits and encoding the
    result's; products and sums are rounded separately, as C++ writes them.
    Which NaN an operation returns is not fixed by C++: it is the parameter
    [host_nan]. *)

From stdpp Require Import base numbers list gmap.
From Stdlib Require Import SpecFloat.
From S2P Require Import Prelude Constants Encoding SimState.

#[local] Open Scope Z_scope.
#[local] Open Scope res_scope.

(** ** Formats *)

Record fmt : Set := mkFmt { mbits : Z; ebits : Z }.
Definition F32 : fmt := mkFmt 23 8.
Definition F64 : fmt := mkFmt 52 11.

Definition prec (f : fmt) : Z := mbits f + 1.
Definition emax (f : fmt) : Z := 2 ^ (ebits f - 1).
Definition emin (f : fmt) : Z := 3 - emax f - prec f.
Definition fbits (f : fmt) : Z := mbits f + ebits f + 1.

Definition sign_of (f : fmt) (b : Z) : bool := Z.testbit b (fbits f - 1).
Definition exp_field (f : fmt) (b : Z) : Z := (b / 2 ^ mbits f) mod 2 ^ ebits f.
Definition man_field (f : fmt) (b : Z) : Z := b mod 2 ^ mbits f.

Definition of_bits (f : fmt) (b : Z) : spec_float :=
  let s := sign_of f b in
  let ex := exp_field f b in
  let mx := man_field f b in
  if ex =? 0 then
    match mx with Z.pos m => S754_finite s m (emin f) | _ => S754_zero s end
  else if ex =? 2 ^ ebits f - 1 then
    if mx =? 0 then S754_infinity s else S754_nan
  else match mx + 2 ^ mbits f with
       | Z.pos m => S754_finite s m (ex + emin f - 1)
       | _ => S754_nan
       end.

Definition with_sign (f : fmt) (s : bool) (magnitude : Z) : Z :=
  if s then 2 ^ (fbits f - 1) + magnitude else magnitude.

(** 0.5 *)
Definition half (f : fmt) : Z := (emax f - 2) * 2 ^ mbits f.

Definition quiet_NaN (f : fmt) : Z := (2 ^ ebits f - 1) * 2 ^ mbits f + 2 ^ (mbits f - 1).

Definition to_bits (f : fmt) (nan : Z) (x : spec_float) : Z :=
  match x with
  | S754_zero s => with_sign f s 0
  | S754_infinity s => with_sign f s ((2 ^ ebits f - 1) * 2 ^ mbits f)
  | S754_nan => nan
  | S754_finite s m e =>
      if Z.pos m <? 2 ^ mbits f then with_sign f s (Z.pos m)
      else with_sign f s ((e - emin f + 1) * 2 ^ mbits f + (Z.pos m - 2 ^ mbits f))
  end.

(** The NaN the host returns for an invalid operation or a NaN operand. *)
Class HostNaN := { host_nan : fmt -> list Z -> Z }.

Section HostArithmetic.
Context `{HostNaN}.

Definition lift2 (op : spec_float -> spec_float -> spec_float) (f : fmt) (a b : Z) : Z :=
  to_bits f (host_nan f [a; b]) (op (of_bits f a) (of_bits f b)).

Definition fadd (f : fmt) : Z -> Z -> Z := lift2 (SFadd (prec f) (emax f)) f.
Definition fsub (f : fmt) : Z -> Z -> Z := lift2 (SFsub (prec f) (emax f)) f.
Definition fmul (f : fmt) : Z -> Z -> Z := lift2 (SFmul (prec f) (emax f)) f.
Definition fdiv (f : fmt) : Z -> Z -> Z := lift2 (SFdiv (prec f) (emax f)) f.
Definition fsqrt (f : fmt) (a : Z) : Z :=
  to_bits f (host_nan f [a]) (SFsqrt (prec f) (emax f) (of_bits f a)).
(** Unary minus flips the sign bit. *)
Definition fneg (f : fmt) (a : Z) : Z := Z.lxor a (2 ^ (fbits f - 1)).
Definition fabs (f : fmt) (a : Z) : Z := Z.land a (2 ^ (fbits f - 1) - 1).

Definition isnan (f : fmt) (a : Z) : bool :=
  (exp_field f a =? 2 ^ ebits f - 1) && negb (man_field f a =? 0).
Definition signbit (f : fmt) (a : Z) : bool := sign_of f a.
Definition feq (f : fmt) (a b : Z) : bool := SFeqb (of_bits f a) (of_bits f b).
Definition flt (f : fmt) (a b : Z) : bool := SFltb (of_bits f a) (of_bits f b).
Definition fle (f : fmt) (a b : Z) : bool := SFleb (of_bits f a) (of_bits f b).

(** Conversion of an integer, and between the formats. *)
Definition of_Z (f : fmt) (z : Z) : Z :=
  to_bits f 0 (binary_normalize (prec f) (emax f) z 0 false).
Definition convert (from to : fmt) (a : Z) : Z :=
  to_bits to (host_nan to [a])
    (match of_bits from a with
     | S754_finite s m e => binary_normalize (prec to) (emax to) (cond_Zopp s (Z.pos m)) e s
     | x => x
     end).

(** [trunc], [floor], [ceil] and [round] (ties away from zero). *)
Inductive integral_mode : Set := Trunc | Floor | Ceil | RoundAway.

Definition integral_magnitude (mode : integral_mode) (s : bool) (m d : Z) : Z :=
  let q := m / d in
  let r := m mod d in
  match mode with
  | Trunc => q
  | Floor => if s && negb (r =? 0) then q + 1 else q
  | Ceil => if negb s && negb (r =? 0) then q + 1 else q
  | RoundAway => if d <=? 2 * r then q + 1 else q
  end.

Definition to_integral (mode : integral_mode) (f : fmt) (a : Z) : Z :=
  match of_bits f a with
  | S754_finite s m e =>
      if 0 <=? e then a
      else let q := integral_magnitude mode s (Z.pos m) (2 ^ (- e)) in
           to_bits f 0 (binary_normalize (prec f) (emax f) (cond_Zopp s q) 0 s)
  | S754_nan => host_nan f [a]
  | _ => a
  end.

(** [fmod(x, y)] for finite operands. *)
Definition fmod (f : fmt) (a b : Z) : Z :=
  match of_bits f a, of_bits f b with
  | S754_finite s m e, S754_finite _ n e' =>
      let k := Z.min e e' in
      let r := (Z.pos m * 2 ^ (e - k)) mod (Z.pos n * 2 ^ (e' - k)) in
      to_bits f 0 (binary_normalize (prec f) (emax f) (cond_Zopp s r) k s)
  | S754_zero s, S754_finite _ _ _ => a
  | S754_finite _ _ _, S754_infinity _ => a
  | S754_zero _, S754_infinity _ => a
  | _, _ => host_nan f [a; b]
  end.

(** [static_cast] of a floating value to an integer type with range
    [lo, hi]: truncation, undefined when the value does not fit. *)
Definition to_int (lo hi : Z) (f : fmt) (a : Z) : Res Z :=
  let in_range z := if (lo <=? z) && (z <=? hi) then Ok z else Err UndefinedBehavior in
  match of_bits f a with
  | S754_zero _ => in_range 0
  | S754_finite s m e =>
      in_range (cond_Zopp s (if 0 <=? e then Z.pos m * 2 ^ e else Z.pos m / 2 ^ (- e)))
  | _ => Err UndefinedBehavior
  end.

(** [std::fmin] and [std::fmax] on operands that are neither NaN nor equal. *)
Definition libm_fmin (f : fmt) (x y : Z) : Z := if flt f x y then x else y.
Definition libm_fmax (f : fmt) (x y : Z) : Z := if flt f x y then y else x.

(** ** The simulator's helpers *)

Definition rv_fmin_at (f : fmt) (x y : Z) : Z :=
  if isnan f x && isnan f y then quiet_NaN f
  else if isnan f x then y
  else if isnan f y then x
  else if feq f x y then if signbit f x then x else y
  else libm_fmin f x y.
Definition rv_fmax_at (f : fmt) (x y : Z) : Z :=
  if isnan f x && isnan f y then quiet_NaN f
  else if isnan f x then y
  else if isnan f y then x
  else if feq f x y then if signbit f x then y else x
  else libm_fmax f x y.
Definition rv_fmin : Z -> Z -> Z := rv_fmin_at F64.
Definition rv_fmax : Z -> Z -> Z := rv_fmax_at F64.
Definition rv_fminf : Z -> Z -> Z := rv_fmin_at F32.
Definition rv_fmaxf : Z -> Z -> Z := rv_fmax_at F32.

Definition is_quietf (x : Z) : bool := negb (Z.land x (Z.shiftl 1 22) =? 0).
Definition is_quiet (x : Z) : bool := negb (Z.land x (Z.shiftl 1 51) =? 0).

Definition fclass_at (f : fmt) (quiet : Z -> bool) (x : Z) : Z :=
  if (exp_field f x =? 2 ^ ebits f - 1) then
    if man_field f x =? 0 then (* FP_INFINITE *)
      if signbit f x then FClass.kFClassNegInfinity else FClass.kFClassPosInfinity
    else (* FP_NAN *)
      if quiet x then FClass.kFClassQuietNan else FClass.kFClassSignallingNan
  else if exp_field f x =? 0 then
    if man_field f x =? 0 then (* FP_ZERO *)
      if signbit f x then FClass.kFClassNegZero else FClass.kFClassPosZero
    else (* FP_SUBNORMAL *)
      if signbit f x then FClass.kFClassNegSubnormal else FClass.kFClassPosSubnormal
  else (* FP_NORMAL *)
    if signbit f x then FClass.kFClassNegNormal else FClass.kFClassPosNormal.
Definition fclassf : Z -> Z := fclass_at F32 is_quietf.
Definition fclassd : Z -> Z := fclass_at F64 is_quiet.

Definition roundeven_at (f : fmt) (x : Z) : Z :=
  let rounded := to_integral RoundAway f x in
  if feq f (fabs f (fsub f x rounded)) (half f) then
    if negb (feq f (fmod f rounded (of_Z f 2)) (of_Z f 0)) then
      if flt f (of_Z f 0) rounded then fsub f rounded (of_Z f 1)
      else fadd f rounded (of_Z f 1)
    else rounded
  else rounded.
Definition roundevenf : Z -> Z := roundeven_at F32.
Definition roundeven : Z -> Z := roundeven_at F64.

Definition Round_at (f : fmt) (x rounding : Z) : Res Z :=
  if rounding =? RoundingMode.RNE then Ok (roundeven_at f x)
  else if rounding =? RoundingMode.RTZ then Ok (to_integral Trunc f x)
  else if rounding =? RoundingMode.RDN then Ok (to_integral Floor f x)
  else if rounding =? RoundingMode.RUP then Ok (to_integral Ceil f x)
  else if rounding =? RoundingMode.RMM then Ok (to_integral RoundAway f x)
  else if rounding =? RoundingMode.DYN then Err Unimplemented
  else Err InvalidRoundingMode.
Definition Roundf : Z -> Z -> Res Z := Round_at F32.
Definition Roundd : Z -> Z -> Res Z := Round_at F64.

(** The saturating conversions; [lo] and [hi] are the integer type's limits. *)
Definition fcvt_at (f : fmt) (lo hi : Z) (x rounding : Z) : Res Z :=
  if flt f x (of_Z f lo) then Ok lo
  else if flt f x (of_Z f hi) then
    let* r := Round_at f x rounding in to_int lo hi f r
  else Ok hi.
Definition fcvtws : Z -> Z -> Res Z := fcvt_at F32 (- 2 ^ 31) (2 ^ 31 - 1).
Definition fcvtwus : Z -> Z -> Res Z := fcvt_at F32 0 (2 ^ 32 - 1).
Definition fcvtls : Z -> Z -> Res Z := fcvt_at F32 (- 2 ^ 63) (2 ^ 63 - 1).
Definition fcvtlus : Z -> Z -> Res Z := fcvt_at F32 0 (2 ^ 64 - 1).
Definition fcvtwd : Z -> Z -> Res Z := fcvt_at F64 (- 2 ^ 31) (2 ^ 31 - 1).
Definition fcvtwud : Z -> Z -> Res Z := fcvt_at F64 0 (2 ^ 32 - 1).
Definition fcvtld : Z -> Z -> Res Z := fcvt_at F64 (- 2 ^ 63) (2 ^ 63 - 1).
Definition fcvtlud : Z -> Z -> Res Z := fcvt_at F64 0 (2 ^ 64 - 1).

End HostArithmetic.

(** ** Handlers *)

Section SimFloat.
Context `{Target} `{HostNaN}.

(** The fused-multiply handlers: [combine] gives the C++ expression. *)
Definition InterpretFMA (combine : fmt -> Z -> Z -> Z -> Z) (instr : Z) (s : Sim) : Res Sim :=
  let f2 := Instr.funct2 instr in
  let* s :=
    (if f2 =? Funct2.F2_S then
       let rs1 := get_fregs s (Instr.frs1 instr) in
       let rs2 := get_fregs s (Instr.frs2 instr) in
       let rs3 := get_fregs s (Instr.frs3 instr) in
       Ok (set_fregs s (Instr.frd instr) (combine F32 rs1 rs2 rs3))
     else if f2 =? Funct2.F2_D then
       let rs1 := get_fregd s (Instr.frs1 instr) in
       let rs2 := get_fregd s (Instr.frs2 instr) in
       let rs3 := get_fregd s (Instr.frs3 instr) in
       Ok (set_fregd s (Instr.frd instr) (combine F64 rs1 rs2 rs3))
     else IllegalInstruction instr) in
  Ok (add_pc s Instr.length).

Definition InterpretFMADD : Z -> Sim -> Res Sim :=
  InterpretFMA (fun f rs1 rs2 rs3 => fadd f (fmul f rs1 rs2) rs3).
Definition InterpretFMSUB : Z -> Sim -> Res Sim :=
  InterpretFMA (fun f rs1 rs2 rs3 => fsub f (fmul f rs1 rs2) rs3).
Definition InterpretFNMSUB : Z -> Sim -> Res Sim :=
  InterpretFMA (fun f rs1 rs2 rs3 => fadd f (fneg f (fmul f rs1 rs2)) rs3).
Definition InterpretFNMADD : Z -> Sim -> Res Sim :=
  InterpretFMA (fun f rs1 rs2 rs3 => fsub f (fneg f (fmul f rs1 rs2)) rs3).

(** The sign-injection result, for a word of [n] bits. *)
Definition sign_inject (n f3 rs1 rs2 instr : Z) : Res Z :=
  let kSignMask := Z.shiftl 1 (n - 1) in
  let not_mask := wrapU n (Z.lnot kSignMask) in
  if f3 =? Funct3.J then Ok (Z.lor (Z.land rs1 not_mask) (Z.land rs2 kSignMask))
  else if f3 =? Funct3.JN then
    Ok (Z.lor (Z.land rs1 not_mask) (Z.land (wrapU n (Z.lnot rs2)) kSignMask))
  else if f3 =? Funct3.JX then
    Ok (Z.lor (Z.land rs1 not_mask) (Z.land (Z.lxor rs1 rs2) kSignMask))
  else IllegalInstruction instr.

Definition bool_to_Z (b : bool) : Z := if b then 1 else 0.

Definition compare_result (f : fmt) (f3 rs1 rs2 instr : Z) : Res Z :=
  if f3 =? Funct3.FEQ then Ok (bool_to_Z (feq f rs1 rs2))
  else if f3 =? Funct3.FLT then Ok (bool_to_Z (flt f rs1 rs2))
  else if f3 =? Funct3.FLE then Ok (bool_to_Z (fle f rs1 rs2))
  else IllegalInstruction instr.

(** The cases of [InterpretOPFP] on single-precision [funct7] values; [None]
    when the [switch] has no such case. *)
Definition InterpretOPFP_S (instr : Z) (s : Sim) : option (Res Sim) :=
  let f7 := Instr.funct7 instr in
  let f3 := Instr.funct3 instr in
  let rd := Instr.rd instr in
  let frd := Instr.frd instr in
  let x := get_xreg s (Instr.rs1 instr) in
  let rs1 := get_fregs s (Instr.frs1 instr) in
  let rs2 := get_fregs s (Instr.frs2 instr) in
  let rm := Instr.rounding instr in
  let which := Instr.rs2 instr in
  if f7 =? Funct7.FADDS then Some (Ok (set_fregs s frd (fadd F32 rs1 rs2)))
  else if f7 =? Funct7.FSUBS then Some (Ok (set_fregs s frd (fsub F32 rs1 rs2)))
  else if f7 =? Funct7.FMULS then Some (Ok (set_fregs s frd (fmul F32 rs1 rs2)))
  else if f7 =? Funct7.FDIVS then Some (Ok (set_fregs s frd (fdiv F32 rs1 rs2)))
  else if f7 =? Funct7.FSQRTS then Some (Ok (set_fregs s frd (fsqrt F32 rs1)))
  else if f7 =? Funct7.FSGNJS then
    Some (let* result := sign_inject 32 f3 rs1 rs2 instr in Ok (set_fregs s frd result))
  else if f7 =? Funct7.FMINMAXS then
    Some (if f3 =? Funct3.FMIN then Ok (set_fregs s frd (rv_fminf rs1 rs2))
          else if f3 =? Funct3.FMAX then Ok (set_fregs s frd (rv_fmaxf rs1 rs2))
          else IllegalInstruction instr)
  else if f7 =? Funct7.FCMPS then
    Some (let* v := compare_result F32 f3 rs1 rs2 instr in Ok (set_xreg s rd v))
  else if f7 =? Funct7.FCLASSS then
    Some (if f3 =? 1 then Ok (set_xreg s rd (fclassf rs1))
          else if f3 =? 0 then Ok (set_xreg s rd (sign_extend_i32 (s32 rs1)))
          else IllegalInstruction instr)
  else if f7 =? Funct7.FCVTintS then
    Some (if which =? FcvtRs2.W then
            let* v := fcvtws rs1 rm in Ok (set_xreg s rd (sign_extend_i32 v))
          else if which =? FcvtRs2.WU then
            let* v := fcvtwus rs1 rm in Ok (set_xreg s rd (sign_extend_u32 v))
          else if (64 <=? XLEN) && (which =? FcvtRs2.L) then
            let* v := fcvtls rs1 rm in Ok (set_xreg s rd (sign_extend_i64 v))
          else if (64 <=? XLEN) && (which =? FcvtRs2.LU) then
            let* v := fcvtlus rs1 rm in Ok (set_xreg s rd (sign_extend_u64 v))
          else IllegalInstruction instr)
  else if f7 =? Funct7.FCVTSint then
    Some (if which =? FcvtRs2.W then Ok (set_fregs s frd (of_Z F32 (s32 x)))
          else if which =? FcvtRs2.WU then Ok (set_fregs s frd (of_Z F32 (u32 x)))
          else if (64 <=? XLEN) && (which =? FcvtRs2.L) then
            Ok (set_fregs s frd (of_Z F32 (s64 x)))
          else if (64 <=? XLEN) && (which =? FcvtRs2.LU) then
            Ok (set_fregs s frd (of_Z F32 (u64 x)))
          else IllegalInstruction instr)
  else if f7 =? Funct7.FMVWX then Some (Ok (set_fregs s frd (u32 x)))
  else None.

(** The remaining cases, on double-precision [funct7] values. *)
Definition InterpretOPFP_D (instr : Z) (s : Sim) : option (Res Sim) :=
  let f7 := Instr.funct7 instr in
  let f3 := Instr.funct3 instr in
  let rd := Instr.rd instr in
  let frd := Instr.frd instr in
  let x := get_xreg s (Instr.rs1 instr) in
  let rs1 := get_fregd s (Instr.frs1 instr) in
  let rs2 := get_fregd s (Instr.frs2 instr) in
  let rm := Instr.rounding instr in
  let which := Instr.rs2 instr in
  if f7 =? Funct7.FADDD then Some (Ok (set_fregd s frd (fadd F64 rs1 rs2)))
  else if f7 =? Funct7.FSUBD then Some (Ok (set_fregd s frd (fsub F64 rs1 rs2)))
  else if f7 =? Funct7.FMULD then Some (Ok (set_fregd s frd (fmul F64 rs1 rs2)))
  else if f7 =? Funct7.FDIVD then Some (Ok (set_fregd s frd (fdiv F64 rs1 rs2)))
  else if f7 =? Funct7.FSQRTD then Some (Ok (set_fregd s frd (fsqrt F64 rs1)))
  else if f7 =? Funct7.FSGNJD then
    Some (let* result := sign_inject 64 f3 rs1 rs2 instr in Ok (set_fregd s frd result))
  else if f7 =? Funct7.FMINMAXD then
    Some (if f3 =? Funct3.FMIN then Ok (set_fregd s frd (rv_fmin rs1 rs2))
          else if f3 =? Funct3.FMAX then Ok (set_fregd s frd (rv_fmax rs1 rs2))
          else IllegalInstruction instr)
  else if f7 =? Funct7.FCVTS then
    Some (if which =? 1 then Ok (set_fregs s frd (convert F64 F32 rs1))
          else IllegalInstruction instr)
  else if f7 =? Funct7.FCVTD then
    Some (if which =? 0 then
            Ok (set_fregd s frd (convert F32 F64 (get_fregs s (Instr.frs1 instr))))
          else IllegalInstruction instr)
  else if f7 =? Funct7.FCMPD then
    Some (let* v := compare_result F64 f3 rs1 rs2 instr in Ok (set_xreg s rd v))
  else if f7 =? Funct7.FCLASSD then
    Some (if f3 =? 1 then Ok (set_xreg s rd (fclassd rs1))
          else if (64 <=? XLEN) && (f3 =? 0) then Ok (set_xreg s rd (s64 rs1))
          else IllegalInstruction instr)
  else if f7 =? Funct7.FCVTintD then
    Some (if which =? FcvtRs2.W then
            let* v := fcvtwd rs1 rm in Ok (set_xreg s rd (sign_extend_i32 v))
          else if which =? FcvtRs2.WU then
            let* v := fcvtwud rs1 rm in Ok (set_xreg s rd (sign_extend_u32 v))
          else if (64 <=? XLEN) && (which =? FcvtRs2.L) then
            let* v := fcvtld rs1 rm in Ok (set_xreg s rd (sign_extend_i64 v))
          else if (64 <=? XLEN) && (which =? FcvtRs2.LU) then
            let* v := fcvtlud rs1 rm in Ok (set_xreg s rd (sign_extend_u64 v))
          else IllegalInstruction instr)
  else if f7 =? Funct7.FCVTDint then
    Some (if which =? FcvtRs2.W then Ok (set_fregd s frd (of_Z F64 (s32 x)))
          else if which =? FcvtRs2.WU then Ok (set_fregd s frd (of_Z F64 (u32 x)))
          else if (64 <=? XLEN) && (which =? FcvtRs2.L) then
            Ok (set_fregd s frd (of_Z F64 (s64 x)))
          else if (64 <=? XLEN) && (which =? FcvtRs2.LU) then
            Ok (set_fregd s frd (of_Z F64 (u64 x)))
          else IllegalInstruction instr)
  else if (64 <=? XLEN) && (f7 =? Funct7.FMVDX) then Some (Ok (set_fregd s frd x))
  else None.

Definition InterpretOPFP (instr : Z) (s : Sim) : Res Sim :=
  let* s :=
    (match InterpretOPFP_S instr s with
     | Some r => r
     | None => match InterpretOPFP_D instr s with
               | Some r => r
               | None => IllegalInstruction instr
               end
     end) in
  Ok (add_pc s Instr.length).

End SimFloat.
