(* ===== verification/SimCompressed.v ===== *)
(** * SimCompressed: [Simulator::Interpret(CInstr)]
    (runtime/vm/simulator_riscv.cc)

    The one [switch] of the source is split into its memory cases, its
    control-flow cases, the MISCALU group and the rest; [InterpretC] tries
    them in the order of the source.  A case that ends in [return] yields the
    new state with [pc_] already set ([Jumped]); a case that ends in [break]
    ([Falls]) is followed by [pc_ += instr.length()]. *)

From stdpp Require Import base numbers list gmap.
From S2P Require Import Prelude Constants Encoding CEncoding SimState.

#[local] Open Scope Z_scope.
#[local] Open Scope res_scope.

Inductive after : Type :=
| Falls (s : Sim)
| Jumped (s : Sim).

Section SimCompressed.
Context `{Target}.

(** Loads and stores. *)
Definition InterpretC_memory (instr : Z) (s : Sim) : option (Res after) :=
  let op := CInstr.opcode instr in
  let sp := get_xreg s Reg.SP in
  let rs1p := CInstr.rs1p instr in
  let base := get_xreg s rs1p in
  let load ty addr b (set : Z -> Sim) := Some (let* v := MemoryRead ty addr b s in Ok (Falls (set v))) in
  let store ty addr v b := Some (let* s := MemoryWrite ty addr v b s in Ok (Falls s)) in
  if op =? COpcode.C_LWSP then
    load int32_t (ux (sp + CInstr.spload4_imm instr)) Reg.SP (set_xreg s (CInstr.rd instr))
  else if (XLEN =? 32) && (op =? COpcode.C_FLWSP) then
    load float_t (ux (sp + CInstr.spload4_imm instr)) Reg.SP (set_fregs s (CInstr.frd instr))
  else if negb (XLEN =? 32) && (op =? COpcode.C_LDSP) then
    load int64_t (ux (sp + CInstr.spload8_imm instr)) Reg.SP (set_xreg s (CInstr.rd instr))
  else if op =? COpcode.C_FLDSP then
    load double_t (ux (sp + CInstr.spload8_imm instr)) Reg.SP (set_fregd s (CInstr.frd instr))
  else if op =? COpcode.C_SWSP then
    store uint32_t (ux (sp + CInstr.spstore4_imm instr)) (get_xreg s (CInstr.rs2 instr)) Reg.SP
  else if (XLEN =? 32) && (op =? COpcode.C_FSWSP) then
    store float_t (ux (sp + CInstr.spstore4_imm instr)) (get_fregs s (CInstr.frs2 instr)) Reg.SP
  else if negb (XLEN =? 32) && (op =? COpcode.C_SDSP) then
    store uint64_t (ux (sp + CInstr.spstore8_imm instr)) (get_xreg s (CInstr.rs2 instr)) Reg.SP
  else if op =? COpcode.C_FSDSP then
    store double_t (ux (sp + CInstr.spstore8_imm instr)) (get_fregd s (CInstr.frs2 instr)) Reg.SP
  else if op =? COpcode.C_LW then
    load int32_t (ux (base + CInstr.mem4_imm instr)) rs1p (set_xreg s (CInstr.rdp instr))
  else if (XLEN =? 32) && (op =? COpcode.C_FLW) then
    load float_t (ux (base + CInstr.mem4_imm instr)) rs1p (set_fregs s (CInstr.frdp instr))
  else if negb (XLEN =? 32) && (op =? COpcode.C_LD) then
    load int64_t (ux (base + CInstr.mem8_imm instr)) rs1p (set_xreg s (CInstr.rdp instr))
  else if op =? COpcode.C_FLD then
    load double_t (ux (base + CInstr.mem8_imm instr)) rs1p (set_fregd s (CInstr.frdp instr))
  else if op =? COpcode.C_SW then
    store uint32_t (ux (base + CInstr.mem4_imm instr)) (get_xreg s (CInstr.rs2p instr)) rs1p
  else if (XLEN =? 32) && (op =? COpcode.C_FSW) then
    store float_t (ux (base + CInstr.mem4_imm instr)) (get_fregs s (CInstr.frs2p instr)) rs1p
  else if negb (XLEN =? 32) && (op =? COpcode.C_SD) then
    store uint64_t (ux (base + CInstr.mem8_imm instr)) (get_xreg s (CInstr.rs2p instr)) rs1p
  else if op =? COpcode.C_FSD then
    store double_t (ux (base + CInstr.mem8_imm instr)) (get_fregd s (CInstr.frs2p instr)) rs1p
  else None.

(** Jumps, branches, and the C_JR group (jr, jalr, ebreak, mv, add). *)
Definition InterpretC_control (instr : Z) (s : Sim) : option (Res after) :=
  let op := CInstr.opcode instr in
  let rd := CInstr.rd instr in
  let rs1 := CInstr.rs1 instr in
  let rs2 := CInstr.rs2 instr in
  if op =? COpcode.C_J then
    Some (Ok (Jumped (add_pc s (sign_extend_i32 (s32 (CInstr.j_imm instr))))))
  else if (XLEN =? 32) && (op =? COpcode.C_JAL) then
    let s := set_xreg s Reg.RA (pc_ s + CInstr.length) in
    Some (Ok (Jumped (add_pc s (sign_extend_i32 (s32 (CInstr.j_imm instr))))))
  else if op =? COpcode.C_JR then
    Some
      (if negb (Z.land instr (Z.lxor COpcode.C_JALR COpcode.C_JR) =? 0) then
         if (rs1 =? Reg.ZR) && (rs2 =? Reg.ZR) then Err Ebreak
         else if rs2 =? Reg.ZR then
           let target := get_xreg s rs1 in
           let s := set_xreg s Reg.RA (pc_ s + CInstr.length) in
           Ok (Jumped (set_pc s target))
         else Ok (Falls (set_xreg s rd (get_xreg s rs1 + get_xreg s rs2)))
       else
         if negb (rd =? Reg.ZR) && negb (rs2 =? Reg.ZR) then
           Ok (Falls (set_xreg s rd (get_xreg s rs2)))
         else if negb (rs2 =? Reg.ZR) then IllegalInstruction instr
         else Ok (Jumped (set_pc s (get_xreg s rs1))))
  else if op =? COpcode.C_BEQZ then
    Some (Ok (if get_xreg s (CInstr.rs1p instr) =? 0
              then Jumped (add_pc s (CInstr.b_imm instr)) else Falls s))
  else if op =? COpcode.C_BNEZ then
    Some (Ok (if negb (get_xreg s (CInstr.rs1p instr) =? 0)
              then Jumped (add_pc s (CInstr.b_imm instr)) else Falls s))
  else None.

(** The C_MISCALU group: srli, srai, andi and the register-register operations,
    all on rs1'. *)
Definition InterpretC_miscalu (instr : Z) (s : Sim) : Res Sim :=
  let rs1p := CInstr.rs1p instr in
  let a := get_xreg s rs1p in
  let b := get_xreg s (CInstr.rs2p instr) in
  let imm := CInstr.i_imm instr in
  let set v := Ok (set_xreg s rs1p v) in
  let misc := Z.land instr COpcode.C_MISCALU_MASK in
  if misc =? COpcode.C_SRLI then
    if imm =? 0 then IllegalInstruction instr else set (Z.shiftr a (Z.land imm (XLEN - 1)))
  else if misc =? COpcode.C_SRAI then
    if imm =? 0 then IllegalInstruction instr
    else set (Z.shiftr (sx a) (Z.land imm (XLEN - 1)))
  else if misc =? COpcode.C_ANDI then set (Z.land a (ux imm))
  else if misc =? COpcode.C_RR then
    let rr := Z.land instr COpcode.C_RR_MASK in
    if rr =? COpcode.C_AND then set (Z.land a b)
    else if rr =? COpcode.C_OR then set (Z.lor a b)
    else if rr =? COpcode.C_XOR then set (Z.lxor a b)
    else if rr =? COpcode.C_SUB then set (a - b)
    else if rr =? COpcode.C_ADDW then set (sign_extend_u32 (u32 (u32 a + u32 b)))
    else if rr =? COpcode.C_SUBW then set (sign_extend_u32 (u32 (u32 a - u32 b)))
    else IllegalInstruction instr
  else IllegalInstruction instr.

(** Immediates, shifts and MISCALU. *)
Definition InterpretC_alu (instr : Z) (s : Sim) : Res Sim :=
  let op := CInstr.opcode instr in
  let rd := CInstr.rd instr in
  let rs1 := get_xreg s (CInstr.rs1 instr) in
  let set v := Ok (set_xreg s rd v) in
  if op =? COpcode.C_LI then
    if rd =? Reg.ZR then IllegalInstruction instr
    else set (sign_extend_i64 (CInstr.i_imm instr))
  else if op =? COpcode.C_LUI then
    if rd =? Reg.SP then
      if CInstr.i16_imm instr =? 0 then IllegalInstruction instr
      else set (rs1 + sign_extend_i64 (CInstr.i16_imm instr))
    else if (rd =? Reg.ZR) || (CInstr.u_imm instr =? 0) then IllegalInstruction instr
    else set (sign_extend_i64 (CInstr.u_imm instr))
  else if op =? COpcode.C_ADDI then set (rs1 + CInstr.i_imm instr)
  else if (64 <=? XLEN) && (op =? COpcode.C_ADDIW) then
    set (sign_extend_u32 (u32 (u32 rs1 + u32 (CInstr.i_imm instr))))
  else if op =? COpcode.C_ADDI4SPN then
    if CInstr.i4spn_imm instr =? 0 then IllegalInstruction instr
    else Ok (set_xreg s (CInstr.rdp instr) (get_xreg s Reg.SP + CInstr.i4spn_imm instr))
  else if op =? COpcode.C_SLLI then
    if CInstr.i_imm instr =? 0 then IllegalInstruction instr
    else set (Z.shiftl rs1 (Z.land (CInstr.i_imm instr) (XLEN - 1)))
  else if op =? COpcode.C_MISCALU then InterpretC_miscalu instr s
  else IllegalInstruction instr.

Definition InterpretC (instr : Z) (s : Sim) : Res Sim :=
  let finish (r : Res after) : Res Sim :=
    let* a := r in
    match a with
    | Falls s => Ok (add_pc s CInstr.length)
    | Jumped s => Ok s
    end in
  match InterpretC_memory instr s with
  | Some r => finish r
  | None =>
    match InterpretC_control instr s with
    | Some r => finish r
    | None => finish (let* s := InterpretC_alu instr s in Ok (Falls s))
    end
  end.

End SimCompressed.
