(* ===== verification/Simulator.v ===== *)
(** * Simulator: SYSTEM, calls to host code, dispatch and the execution loop
    (runtime/vm/simulator_riscv.{h,cc})

    [Host] is what the simulator asks of the process around it: the list of
    [Redirection]s and the host functions an ECALL ends up calling.  A host
    function may change the simulator (it may throw to a Dart frame or run
    Dart code), so it maps states to states.  Printing is not modelled. *)

From stdpp Require Import base numbers list gmap.
From S2P Require Import Prelude Constants Encoding CEncoding.
From S2P Require Import SimState SimInt SimAtomic SimFloat SimCompressed.

#[local] Open Scope Z_scope.
#[local] Open Scope res_scope.

(** ** ABI register sets (runtime/vm/constants_riscv.h) *)

(** [R(a) | R(b) | ...] *)
Definition RegList (l : list Z) : Z := foldr (fun r acc => Z.lor (Z.shiftl 1 r) acc) 0 l.

Definition kAbiArgumentCpuRegs : Z :=
  RegList [Reg.A0; Reg.A1; Reg.A2; Reg.A3; Reg.A4; Reg.A5; Reg.A6; Reg.A7].
Definition kAbiVolatileCpuRegs : Z :=
  Z.lor kAbiArgumentCpuRegs
    (RegList [Reg.T0; Reg.T1; Reg.T2; Reg.T3; Reg.T4; Reg.T5; Reg.T6; Reg.RA]).
Definition kAbiPreservedCpuRegs : Z :=
  RegList [Reg.S1; Reg.S2; Reg.S3; Reg.S4; Reg.S5; Reg.S6; Reg.S7; Reg.S8; Reg.S9;
           Reg.S10; Reg.S11].
Definition kAbiArgumentFpuRegs : Z :=
  RegList [FReg.FA0; FReg.FA1; FReg.FA2; FReg.FA3; FReg.FA4; FReg.FA5; FReg.FA6; FReg.FA7].
Definition kAbiVolatileFpuRegs : Z :=
  Z.lor kAbiArgumentFpuRegs
    (RegList [FReg.FT0; FReg.FT1; FReg.FT2; FReg.FT3; FReg.FT4; FReg.FT5; FReg.FT6;
              FReg.FT7; FReg.FT8; FReg.FT9; FReg.FT10; FReg.FT11]).

Definition kNumberOfCpuRegisters : Z := 32.
Definition kNumberOfFpuRegisters : Z := 32.

Definition reg_in (regs i : Z) : bool := negb (Z.land regs (Z.shiftl 1 i) =? 0).

(** ** Redirections *)

Inductive CallKind : Set :=
| kRuntimeCall | kLeafRuntimeCall | kLeafFloatRuntimeCall | kNativeCallWrapper.

(** The list is prepend-only; [address_of_ecall_instruction] is where the
    record's [ecall_instruction_] field, holding
    [kSimulatorRedirectInstruction], was allocated. *)
Record Redirection : Type := mkRedirection {
  address_of_ecall_instruction : Z;
  external_function_ : Z;
  call_kind_ : CallKind;
  argument_count_ : Z
}.

Definition kSimulatorRedirectInstruction : Z :=
  Z.lor (Z.shiftl Funct12.ECALL 20) Opcode.SYSTEM.

(** [Redirection::Get]: [fresh] is the address the allocator gives the new
    record's ECALL. *)
Definition Redirection_Get (list_ : list Redirection) (fresh external : Z) (kind : CallKind)
    (argc : Z) : Redirection * list Redirection :=
  match List.find (fun r => external_function_ r =? external) list_ with
  | Some current => (current, list_)
  | None => let r := mkRedirection fresh external kind argc in (r, r :: list_)
  end.

Definition RedirectExternalReference (list_ : list Redirection) (fresh function : Z)
    (kind : CallKind) (argc : Z) : Z * list Redirection :=
  let '(r, list_) := Redirection_Get list_ fresh function kind argc in
  (address_of_ecall_instruction r, list_).

Definition FunctionForRedirect (list_ : list Redirection) (redirect : Z) : Z :=
  match List.find (fun r => address_of_ecall_instruction r =? redirect) list_ with
  | Some current => external_function_ current
  | None => 0
  end.

(** [FromECallInstruction] subtracts a field offset from the address: the
    result is a [Redirection] only when the address is one's ECALL. *)
Definition FromECallInstruction (list_ : list Redirection) (ecall : Z) : Res Redirection :=
  match List.find (fun r => address_of_ecall_instruction r =? ecall) list_ with
  | Some r => Ok r
  | None => Err (OutsideOfRedirection ecall)
  end.

(** ** The host *)

(** How a host function ends: it returns, or it throws to a Dart frame
    ([JumpToFrame]) and [longjmp]s to the buffer of this ECALL. *)
Inductive host_exit : Type :=
| Returned (result : Z) (s : Sim)
| Longjmp (s : Sim).

Class Host := {
  redirections : list Redirection;
  host_call : Z -> list Z -> Sim -> Res host_exit;
  trace_sim_after : Z                  (* FLAG_trace_sim_after *)
}.

Section Simulator.
Context `{Target} `{HostNaN} `{Host}.

(** ** Construction and the calling convention checks *)

(** [xregs_[i] = random_.NextUInt64()] for the [i] in [regs]. *)
Definition randomize_xregs (regs : Z) (s : Sim) : Sim :=
  foldl (fun s i =>
           if reg_in regs i then
             let '(v, st) := Random.NextUInt64 (random_ s) in
             set_random (set_xregs s (<[Z.to_nat i := ux v]> (xregs_ s))) st
           else s) s (seqZ 0 kNumberOfCpuRegisters).
Definition nanbox_fregs (regs : Z) (s : Sim) : Sim :=
  foldl (fun s i => if reg_in regs i
                    then set_fregs_list s (<[Z.to_nat i := kNaNBox]> (fregs_ s))
                    else s) s (seqZ 0 kNumberOfFpuRegisters).

(** [Simulator::Simulator]: the stack was allocated at [stack], [seed] is the
    state of a fresh [Random], [m] the memory of the process. *)
Definition new_Simulator (stack kStackSizeBufferMax specified seed : Z) (m : memory) : Sim :=
  let overflow := ux (stack + kStackSizeBufferMax) in
  let base := ux (overflow + specified) in
  let s := mkSim 0 (replicate 32 0) 0 0 0 (replicate 32 0) 0 stack overflow base seed [] m in
  let s := randomize_xregs (Z.shiftl (Z.ones 31) 1) s in
  let s := nanbox_fregs (Z.ones 32) s in
  let s := set_xreg s Reg.SP base in
  let s := set_xreg s Reg.RA kBadLR in
  set_pc s kBadLR.

Record PreservedRegisters : Type := mkPreserved { p_xregs : list Z; p_fregs : list Z }.

(** In a release build the record is left uninitialised and never read. *)
Definition SavePreservedRegisters (s : Sim) : PreservedRegisters :=
  if DEBUG then mkPreserved (xregs_ s) (fregs_ s) else mkPreserved [] [].

Definition PrepareCall (s : Sim) : PreservedRegisters * Sim :=
  if DEBUG then
    (mkPreserved (xregs_ s) (fregs_ s),
     nanbox_fregs kAbiVolatileFpuRegs (randomize_xregs kAbiVolatileCpuRegs s))
  else (mkPreserved [] [], s).

Definition ClobberVolatileRegisters (s : Sim) : Sim :=
  if DEBUG then
    nanbox_fregs kAbiVolatileFpuRegs
      (randomize_xregs kAbiVolatileCpuRegs (set_reserved s 0 0))
  else s.

Definition kPreservedAtCall : Z :=
  Z.lor kAbiPreservedCpuRegs (RegList [Reg.TP; Reg.GP; Reg.SP; Reg.FP]).

Definition CheckPreservedRegisters (preserved : PreservedRegisters) (s : Sim) : Res unit :=
  if DEBUG then
    if negb (p_xregs preserved !!! Z.to_nat Reg.SP =? get_xreg s Reg.SP)
    then Err StackUnbalanced else
    match List.find (fun i => reg_in kPreservedAtCall i &&
                              negb (p_xregs preserved !!! Z.to_nat i =? get_xreg s i))
            (seqZ 0 kNumberOfCpuRegisters) with
    | Some i => Err (RegisterNotPreserved i)
    | None =>
      match List.find (fun i => negb (reg_in kAbiVolatileFpuRegs i) &&
                                negb (p_fregs preserved !!! Z.to_nat i =? get_fregd s i))
              (seqZ 0 kNumberOfFpuRegisters) with
      | Some i => Err (RegisterNotPreserved i)
      | None => Ok tt
      end
    end
  else Ok tt.

(** ** SYSTEM *)

Definition InterpretEBREAK (instr : Z) (s : Sim) : Res Sim := Err Ebreak.

(** The call an ECALL makes, between the [setjmp] and the return: the
    arguments are the registers the call kind names. *)
Definition HostCall (r : Redirection) (s : Sim) : Res host_exit :=
  let external := external_function_ r in
  let args_ok := ASSERT ((0 <=? argument_count_ r) && (argument_count_ r <=? 8)) in
  match call_kind_ r with
  | kRuntimeCall => host_call external [get_xreg s Reg.A0] s
  | kLeafRuntimeCall =>
      args_ok ;;
      host_call external
        (sx <$> [get_xreg s Reg.A0; get_xreg s Reg.A1; get_xreg s Reg.A2; get_xreg s Reg.A3;
                 get_xreg s Reg.A4; get_xreg s Reg.A5; get_xreg s Reg.A6; get_xreg s Reg.A7]) s
  | kLeafFloatRuntimeCall =>
      args_ok ;;
      host_call external
        [get_fregd s FReg.FA0; get_fregd s FReg.FA1; get_fregd s FReg.FA2;
         get_fregd s FReg.FA3; get_fregd s FReg.FA4; get_fregd s FReg.FA5;
         get_fregd s FReg.FA6; get_fregd s FReg.FA7] s
  | kNativeCallWrapper =>
      host_call external [get_xreg s Reg.A0; get_xreg s Reg.A1] s
  end.

(** What the call leaves in the result registers. *)
Definition HostResult (kind : CallKind) (result : Z) (s : Sim) : Sim :=
  let s := ClobberVolatileRegisters s in
  match kind with
  | kRuntimeCall | kNativeCallWrapper => s
  | kLeafRuntimeCall => set_xreg s Reg.A0 result
  | kLeafFloatRuntimeCall => set_fregd s FReg.FA0 result
  end.

(** [SimulatorSetjmpBuffer]: the constructor pushes the stack pointer, the
    destructor pops it. *)
Definition push_setjmp_buffer (s : Sim) : Sim :=
  set_setjmp_sps s (get_xreg s Reg.SP :: setjmp_sps_ s).
Definition pop_setjmp_buffer (s : Sim) : Sim := set_setjmp_sps s (tail (setjmp_sps_ s)).

(** With a register operand it is the fake instruction that prints an object.
    It also sets [FLAG_trace_sim_after] to 1, which changes only what later
    instructions print: the flag, [trace_sim_after], is constant here. *)
Definition InterpretECALL (instr : Z) (s : Sim) : Res Sim :=
  if negb (Instr.rs1 instr =? Reg.ZR) then Ok (add_pc s Instr.length) else
  if negb (IsAligned (get_xreg s Reg.SP) 16) then Err StackMisaligned else
  let s := push_setjmp_buffer s in
  let saved_ra := get_xreg s Reg.RA in
  let* redirection := FromECallInstruction redirections (pc_ s) in
  let* e := HostCall redirection s in
  match e with
  | Returned result s =>
      let s := HostResult (call_kind_ redirection) result s in
      Ok (pop_setjmp_buffer (set_pc s saved_ra))
  | Longjmp s => Ok (pop_setjmp_buffer s)
  end.

Definition InterpretSYSTEM (instr : Z) (s : Sim) : Res Sim :=
  let f3 := Instr.funct3 instr in
  let csr := Instr.csr instr in
  let rd := Instr.rd instr in
  let rs1 := Instr.rs1 instr in
  let zimm := Instr.zimm instr in
  let finish (r : Res Sim) := let* s := r in Ok (add_pc s Instr.length) in
  let write value :=
    finish (if rd =? Reg.ZR then CSRWrite csr value s
            else let* result := CSRRead csr s in
                 let* s := CSRWrite csr value s in Ok (set_xreg s rd result)) in
  let modify (nop : bool) (op : Sim -> Res Sim) :=
    finish (let* result := CSRRead csr s in
            let* s := (if nop then Ok s else op s) in Ok (set_xreg s rd result)) in
  if f3 =? 0 then
    if Instr.funct12 instr =? Funct12.ECALL then InterpretECALL instr s
    else if Instr.funct12 instr =? Funct12.EBREAK then InterpretEBREAK instr s
    else IllegalInstruction instr
  else if f3 =? Funct3.CSRRW then write (sx (get_xreg s rs1))
  else if f3 =? Funct3.CSRRS then modify (rs1 =? Reg.ZR) (CSRSet csr (sx (get_xreg s rs1)))
  else if f3 =? Funct3.CSRRC then modify (rs1 =? Reg.ZR) (CSRClear csr (sx (get_xreg s rs1)))
  else if f3 =? Funct3.CSRRWI then write zimm
  else if f3 =? Funct3.CSRRSI then modify (zimm =? 0) (CSRSet csr zimm)
  else if f3 =? Funct3.CSRRCI then modify (zimm =? 0) (CSRClear csr zimm)
  else IllegalInstruction instr.

(** ** Dispatch *)

Definition Interpret (instr : Z) (s : Sim) : Res Sim :=
  let op := Instr.opcode instr in
  if op =? Opcode.LUI then InterpretLUI instr s
  else if op =? Opcode.AUIPC then InterpretAUIPC instr s
  else if op =? Opcode.JAL then InterpretJAL instr s
  else if op =? Opcode.JALR then InterpretJALR instr s
  else if op =? Opcode.BRANCH then InterpretBRANCH instr s
  else if op =? Opcode.LOAD then InterpretLOAD instr s
  else if op =? Opcode.STORE then InterpretSTORE instr s
  else if op =? Opcode.OPIMM then InterpretOPIMM instr s
  else if op =? Opcode.OPIMM32 then InterpretOPIMM32 instr s
  else if op =? Opcode.OP then InterpretOP instr s
  else if op =? Opcode.OP32 then InterpretOP32 instr s
  else if op =? Opcode.MISCMEM then InterpretMISCMEM instr s
  else if op =? Opcode.SYSTEM then InterpretSYSTEM instr s
  else if op =? Opcode.AMO then InterpretAMO instr s
  else if op =? Opcode.LOADFP then InterpretLOADFP instr s
  else if op =? Opcode.STOREFP then InterpretSTOREFP instr s
  else if op =? Opcode.FMADD then InterpretFMADD instr s
  else if op =? Opcode.FMSUB then InterpretFMSUB instr s
  else if op =? Opcode.FNMADD then InterpretFNMADD instr s
  else if op =? Opcode.FNMSUB then InterpretFNMSUB instr s
  else if op =? Opcode.OPFP then InterpretOPFP instr s
  else IllegalInstruction instr.

(** ** Execution *)

(** Dereferencing a [uint16_t*] needs an aligned pointer; the 32-bit fetch is
    a [LoadUnaligned]. *)
Definition FetchParcel (s : Sim) : Res Z :=
  if negb (Z.land (pc_ s) 1 =? 0) then Err UndefinedBehavior
  else LoadUnaligned uint16_t (mem_ s) (pc_ s).

Definition retire (s : Sim) : Sim := set_instret s (u64 (instret_ s + 1)).

(** One iteration of the loop of [ExecuteNoTrace]. *)
Definition ExecuteOne (s : Sim) : Res Sim :=
  let* parcel := FetchParcel s in
  let* s :=
    (if IsCInstruction parcel then InterpretC parcel s
     else let* instr := LoadUnaligned uint32_t (mem_ s) (pc_ s) in Interpret instr s) in
  Ok (retire s).

(** [fuel] bounds the iterations. *)
Fixpoint ExecuteNoTrace (fuel : nat) (s : Sim) : Res Sim :=
  if pc_ s =? kEndSimulatingPC then Ok s else
  match fuel with
  | O => Err OutOfFuel
  | S fuel => let* s := ExecuteOne s in ExecuteNoTrace fuel s
  end.

(** The tracing loop: [IsTracingExecution] decides before each instruction
    whether [Disassembler::Disassemble] prints it.  The first component is the
    list of program counters printed. *)
Definition IsTracingExecution (s : Sim) : bool := trace_sim_after <? instret_ s.

Fixpoint ExecuteTrace (fuel : nat) (s : Sim) : Res (list Z * Sim) :=
  if pc_ s =? kEndSimulatingPC then Ok ([], s) else
  match fuel with
  | O => Err OutOfFuel
  | S fuel =>
      let printed := if IsTracingExecution s then [pc_ s] else [] in
      let* s := ExecuteOne s in
      let* r := ExecuteTrace fuel s in
      Ok (printed ++ r.1, r.2)
  end.

Definition kULLONG_MAX : Z := 2 ^ 64 - 1.

Definition Execute (fuel : nat) (s : Sim) : Res Sim :=
  if trace_sim_after =? kULLONG_MAX then ExecuteNoTrace fuel s
  else let* r := ExecuteTrace fuel s in Ok r.2.

Definition RunCall (fuel : nat) (entry : Z) (preserved : PreservedRegisters) (s : Sim) : Res Sim :=
  let s := set_pc s (ux entry) in
  let s := set_xreg s Reg.RA kEndSimulatingPC in
  let* s := Execute fuel s in
  CheckPreservedRegisters preserved s ;; Ok s.

(** ** Entries from C++ *)

Definition CallX (fuel : nat) (function arg0 arg1 arg2 arg3 : Z) (s : Sim) : Res (Z * Sim) :=
  let '(preserved, s) := PrepareCall s in
  let s := set_xreg s Reg.A0 arg0 in
  let s := set_xreg s Reg.A1 arg1 in
  let s := set_xreg s Reg.A2 arg2 in
  let s := set_xreg s Reg.A3 arg3 in
  let* s := RunCall fuel function preserved s in
  Ok (sx (get_xreg s Reg.A0), s).

Definition CallI_double (fuel : nat) (function arg0 arg1 : Z) (s : Sim) : Res (Z * Sim) :=
  let '(preserved, s) := PrepareCall s in
  let s := set_fregd s FReg.FA0 arg0 in
  let s := set_fregd s FReg.FA1 arg1 in
  let* s := RunCall fuel function preserved s in
  Ok (sx (get_xreg s Reg.A0), s).
Definition CallI_float (fuel : nat) (function arg0 arg1 : Z) (s : Sim) : Res (Z * Sim) :=
  let '(preserved, s) := PrepareCall s in
  let s := set_fregs s FReg.FA0 arg0 in
  let s := set_fregs s FReg.FA1 arg1 in
  let* s := RunCall fuel function preserved s in
  Ok (sx (get_xreg s Reg.A0), s).

Definition CallD_int (fuel : nat) (function arg0 arg1 : Z) (s : Sim) : Res (Z * Sim) :=
  let '(preserved, s) := PrepareCall s in
  let s := set_xreg s Reg.A0 arg0 in
  let s := set_xreg s Reg.A1 arg1 in
  let* s := RunCall fuel function preserved s in
  Ok (get_fregd s FReg.FA0, s).
Definition CallD_double (fuel : nat) (function arg0 arg1 arg2 : Z) (s : Sim) : Res (Z * Sim) :=
  let '(preserved, s) := PrepareCall s in
  let s := set_fregd s FReg.FA0 arg0 in
  let s := set_fregd s FReg.FA1 arg1 in
  let s := set_fregd s FReg.FA2 arg2 in
  let* s := RunCall fuel function preserved s in
  Ok (get_fregd s FReg.FA0, s).
Definition CallD_int_double (fuel : nat) (function arg0 arg1 : Z) (s : Sim) : Res (Z * Sim) :=
  let '(preserved, s) := PrepareCall s in
  let s := set_xreg s Reg.A0 arg0 in
  let s := set_fregd s FReg.FA0 arg1 in
  let* s := RunCall fuel function preserved s in
  Ok (get_fregd s FReg.FA0, s).
Definition CallD_float (fuel : nat) (function arg0 : Z) (s : Sim) : Res (Z * Sim) :=
  let '(preserved, s) := PrepareCall s in
  let s := set_fregs s FReg.FA0 arg0 in
  let* s := RunCall fuel function preserved s in
  Ok (get_fregd s FReg.FA0, s).

(** This overload saves the registers but does not clobber the volatile ones. *)
Definition CallF_int (fuel : nat) (function arg0 arg1 : Z) (s : Sim) : Res (Z * Sim) :=
  let preserved := SavePreservedRegisters s in
  let s := set_xreg s Reg.A0 arg0 in
  let s := set_xreg s Reg.A1 arg1 in
  let* s := RunCall fuel function preserved s in
  Ok (get_fregs s FReg.FA0, s).
Definition CallF_float (fuel : nat) (function arg0 arg1 arg2 : Z) (s : Sim) : Res (Z * Sim) :=
  let '(preserved, s) := PrepareCall s in
  let s := set_fregs s FReg.FA0 arg0 in
  let s := set_fregs s FReg.FA1 arg1 in
  let s := set_fregs s FReg.FA2 arg2 in
  let* s := RunCall fuel function preserved s in
  Ok (get_fregs s FReg.FA0, s).
Definition CallF_int_float (fuel : nat) (function arg0 arg1 : Z) (s : Sim) : Res (Z * Sim) :=
  let '(preserved, s) := PrepareCall s in
  let s := set_xreg s Reg.A0 arg0 in
  let s := set_fregs s FReg.FA0 arg1 in
  let* s := RunCall fuel function preserved s in
  Ok (get_fregs s FReg.FA0, s).
Definition CallF_double (fuel : nat) (function arg0 : Z) (s : Sim) : Res (Z * Sim) :=
  let '(preserved, s) := PrepareCall s in
  let s := set_fregd s FReg.FA0 arg0 in
  let* s := RunCall fuel function preserved s in
  Ok (get_fregs s FReg.FA0, s).

(** [OS::ActivationFrameAlignment] (runtime/vm/os_linux.cc). *)
Definition ActivationFrameAlignment : Z := 16.

(** The parameters reach [set_fregd] and the result leaves [get_fregd] by
    conversion between [intx_t] and [double]. *)
Definition Call (fuel : nat) (entry p0 p1 p2 p3 : Z) (fp_return fp_args : bool) (s : Sim)
    : Res (Z * Sim) :=
  let sp_before_call := sx (get_xreg s Reg.SP) in
  let s :=
    (if fp_args then
       let s := set_fregd s FReg.FA0 (of_Z F64 p0) in
       let s := set_fregd s FReg.FA1 (of_Z F64 p1) in
       let s := set_fregd s FReg.FA2 (of_Z F64 p2) in
       set_fregd s FReg.FA3 (of_Z F64 p3)
     else
       let s := set_xreg s Reg.A0 p0 in
       let s := set_xreg s Reg.A1 p1 in
       let s := set_xreg s Reg.A2 p2 in
       set_xreg s Reg.A3 p3) in
  let s := set_xreg s Reg.SP (RoundDown sp_before_call ActivationFrameAlignment) in
  let s := set_pc s (ux entry) in
  let s := set_xreg s Reg.RA kEndSimulatingPC in
  let preserved := SavePreservedRegisters s in
  let* s := Execute fuel s in
  CheckPreservedRegisters preserved s ;;
  let s := set_xreg s Reg.SP sp_before_call in
  let* return_value :=
    (if fp_return then to_int (- 2 ^ 63) (2 ^ 63 - 1) F64 (get_fregd s FReg.FA0)
     else Ok (s64 (get_xreg s Reg.A0))) in
  Ok (return_value, s).

(** ** Throwing to a Dart frame *)

(** The walk over the setjmp buffers, innermost first. *)
Fixpoint find_setjmp_buffer (bufs : list Z) (sp : Z) : list Z :=
  match bufs with
  | _ :: ((link :: _) as rest) => if link <=? sp then find_setjmp_buffer rest sp else bufs
  | _ => bufs
  end.

(** What [JumpToFrame] reads and writes of [Thread] and the heap layout. *)
Record ThreadView : Type := mkThreadView {
  thread_address : Z;
  vm_tag : Z;
  top_exit_frame_info : Z;
  global_object_pool : Z;
  write_barrier_mask : Z;
  dispatch_table_array : Z;
  kDartTagId : Z;
  object_pool_offset : Z;
  object_null : Z;
  kGenerationalBarrierMask : Z
}.

Definition kPcMarkerSlotFromFp : Z := -3.
Definition kHeapObjectTag : Z := 1.
Definition uintx_t : ctype := if XLEN =? 32 then uint32_t else uint64_t.

(** Not on Fuchsia or Android, where GP is set too.  An empty buffer list is a
    null dereference. *)
Definition JumpToFrame (FLAG_precompiled_mode : bool) (pc sp fp : Z) (thread : ThreadView)
    (s : Sim) : Res (ThreadView * Sim) :=
  if decide (setjmp_sps_ s = []) then Err UndefinedBehavior else
  let bufs := find_setjmp_buffer (setjmp_sps_ s) sp in
  let s := set_pc s (ux pc) in
  let s := set_xreg s Reg.SP sp in
  let s := set_xreg s Reg.FP fp in
  let s := set_xreg s THR (thread_address thread) in
  let thread := mkThreadView (thread_address thread) (kDartTagId thread) 0
                  (global_object_pool thread) (write_barrier_mask thread)
                  (dispatch_table_array thread) (kDartTagId thread)
                  (object_pool_offset thread) (object_null thread)
                  (kGenerationalBarrierMask thread) in
  let* code := LoadUnaligned uintx_t (mem_ s) (ux (fp + kPcMarkerSlotFromFp * (XLEN / 8))) in
  let* pp :=
    (if FLAG_precompiled_mode then Ok (global_object_pool thread)
     else LoadUnaligned uintx_t (mem_ s) (ux (code + object_pool_offset thread - kHeapObjectTag))) in
  let s := set_xreg s CODE_REG code in
  let s := set_xreg s PP (pp - kHeapObjectTag) in
  let s := set_xreg s Reg.S11
             (Z.lxor (write_barrier_mask thread)
                (Z.shiftl (kGenerationalBarrierMask thread) 1 - 1)) in
  let s := set_xreg s Reg.S10 (object_null thread) in
  let s := if FLAG_precompiled_mode
           then set_xreg s Reg.S9 (dispatch_table_array thread) else s in
  Ok (thread, set_setjmp_sps s bufs).

End Simulator.
