(* ===== verification/AsmBuffer.v ===== *)
(** * AsmBuffer: the assembler's state, buffer and instruction formats
    (runtime/vm/compiler/assembler/assembler_base.h, assembler_riscv.{h,cc})

    The assembler is its code buffer, a list of bytes, with the extensions it
    may use and the far-branch level.  An emitting method maps the state to the
    next one or fails.  The buffer grows on demand: running out of host memory
    is not modelled. *)

From stdpp Require Import base numbers list gmap.
From S2P Require Import Prelude Constants Encoding.

#[local] Open Scope Z_scope.
#[local] Open Scope res_scope.

(** ** Extensions (runtime/vm/constants_riscv.h) *)

Definition RV_I : Z := 0.
Definition RV_M : Z := 1.
Definition RV_A : Z := 2.
Definition RV_F : Z := 3.
Definition RV_D : Z := 4.
Definition RV_C : Z := 5.
Definition RV_Zba : Z := 6.
Definition RV_Zbb : Z := 7.
Definition RV_Zbc : Z := 8.
Definition RV_Zbs : Z := 9.

(** An [ExtensionSet] is a bit mask. *)
Definition ExtensionSet (l : list Z) : Z := foldr (fun e acc => Z.lor (Z.shiftl 1 e) acc) 0 l.
Definition RV_G : Z := ExtensionSet [RV_I; RV_M; RV_A; RV_F; RV_D].
Definition RV_GC : Z := Z.lor RV_G (ExtensionSet [RV_C]).
Definition RV_B : Z := ExtensionSet [RV_Zba; RV_Zbb; RV_Zbc; RV_Zbs].
Definition RV_GCB : Z := Z.lor RV_GC RV_B.

(** ** State *)

Record Asm : Type := mkAsm {
  buffer_ : list Z;
  extensions_ : Z;
  far_branch_level_ : Z
}.

Record Address : Type := mkAddress { base : Z; offset : Z }.

Definition Includes (set extension : Z) : bool := Z.testbit set extension.
Definition Supports (a : Asm) (extension : Z) : bool := Includes (extensions_ a) extension.

Definition Size (a : Asm) : Z := Z.of_nat (length (buffer_ a)).
Definition Position (a : Asm) : Z := Size a.

(** The [n] bytes of [v], low byte first, and back. *)
Fixpoint le_split (n : nat) (v : Z) : list Z :=
  match n with
  | O => []
  | S n => v mod 256 :: le_split n (v / 256)
  end.
Fixpoint le_combine (bs : list Z) : Z :=
  match bs with
  | [] => 0
  | b :: bs => b + 256 * le_combine bs
  end.

Definition set_buffer (a : Asm) (b : list Z) : Asm :=
  mkAsm b (extensions_ a) (far_branch_level_ a).

Definition Emit (n : nat) (v : Z) (a : Asm) : Res Asm :=
  Ok (set_buffer a (buffer_ a ++ le_split n v)).

Definition Emit16 (instruction : Z) : Asm -> Res Asm := Emit 2 (u16 instruction).
Definition Emit32 (instruction : Z) : Asm -> Res Asm := Emit 4 (u32 instruction).
Definition Emit64 (instruction : Z) : Asm -> Res Asm := Emit 8 (u64 instruction).

Section Buffer.
Context `{Target}.

Definition MicroAssembler_new (extensions far_branch_level : Z) : Res Asm :=
  ASSERT (0 <=? far_branch_level) ;;
  ASSERT (far_branch_level <=? 2) ;;
  Ok (mkAsm [] extensions far_branch_level).

Definition in_buffer (n : nat) (position : Z) (a : Asm) : bool :=
  (0 <=? position) && (position <=? Size a - Z.of_nat n).

(** [Load] and [Store] assert their bounds; past them they leave the
    allocation. *)
Definition Load (n : nat) (position : Z) (a : Asm) : Res Z :=
  ASSERT (in_buffer n position a) ;;
  if in_buffer n position a
  then Ok (le_combine (take n (drop (Z.to_nat position) (buffer_ a))))
  else Err UndefinedBehavior.
Definition Store (n : nat) (position v : Z) (a : Asm) : Res Asm :=
  ASSERT (in_buffer n position a) ;;
  if in_buffer n position a
  then Ok (set_buffer a (list_inserts (Z.to_nat position) (le_split n v) (buffer_ a)))
  else Err UndefinedBehavior.

Definition Read16 : Z -> Asm -> Res Z := Load 2.
Definition Write16 (position instruction : Z) : Asm -> Res Asm := Store 2 position (u16 instruction).
Definition Read32 : Z -> Asm -> Res Z := Load 4.
Definition Write32 (position instruction : Z) : Asm -> Res Asm := Store 4 position (u32 instruction).

(** ** The 32-bit formats

    [e |= Encode...] accumulates the encoded fields in the order of the
    source. *)

Fixpoint or_fields (e : Z) (fields : list (Res Z)) : Res Z :=
  match fields with
  | [] => Ok e
  | f :: fields => let* v := f in or_fields (Z.lor e v) fields
  end.

Definition EmitFields (fields : list (Res Z)) (a : Asm) : Res Asm :=
  let* e := or_fields 0 fields in Emit32 e a.

Definition EmitRType (funct7 rs2 rs1 funct3 rd opcode : Z) : Asm -> Res Asm :=
  EmitFields [EncodeFunct7 funct7; EncodeRs2 rs2; EncodeRs1 rs1; EncodeFunct3 funct3;
              EncodeRd rd; EncodeOpcode opcode].

Definition EmitRType_atomic (funct5 : Z) (order : memory_order) (rs2 rs1 funct3 rd opcode : Z)
    (a : Asm) : Res Asm :=
  let funct7 := Z.shiftl funct5 2 in
  let* funct7 :=
    match order with
    | memory_order_acq_rel => Ok (Z.lor funct7 3)
    | memory_order_acquire => Ok (Z.lor funct7 2)
    | memory_order_release => Ok (Z.lor funct7 1)
    | memory_order_relaxed => Ok (Z.lor funct7 0)
    | _ => Err InvalidMemoryOrder
    end in
  EmitRType funct7 rs2 rs1 funct3 rd opcode a.

(** The overloads on the register classes of rs2, rs1 and rd, with a [Funct3]
    or a [RoundingMode]. *)
Definition EmitRType_fff (funct7 rs2 rs1 funct3 rd opcode : Z) : Asm -> Res Asm :=
  EmitFields [EncodeFunct7 funct7; EncodeFRs2 rs2; EncodeFRs1 rs1; EncodeFunct3 funct3;
              EncodeFRd rd; EncodeOpcode opcode].
Definition EmitRType_fff_round (funct7 rs2 rs1 round rd opcode : Z) : Asm -> Res Asm :=
  EmitFields [EncodeFunct7 funct7; EncodeFRs2 rs2; EncodeFRs1 rs1; EncodeRoundingMode round;
              EncodeFRd rd; EncodeOpcode opcode].
Definition EmitRType_fxf_round (funct7 rs2 rs1 round rd opcode : Z) : Asm -> Res Asm :=
  EmitFields [EncodeFunct7 funct7; EncodeFRs2 rs2; EncodeRs1 rs1; EncodeRoundingMode round;
              EncodeFRd rd; EncodeOpcode opcode].
Definition EmitRType_fxf (funct7 rs2 rs1 funct3 rd opcode : Z) : Asm -> Res Asm :=
  EmitFields [EncodeFunct7 funct7; EncodeFRs2 rs2; EncodeRs1 rs1; EncodeFunct3 funct3;
              EncodeFRd rd; EncodeOpcode opcode].
Definition EmitRType_ffx (funct7 rs2 rs1 funct3 rd opcode : Z) : Asm -> Res Asm :=
  EmitFields [EncodeFunct7 funct7; EncodeFRs2 rs2; EncodeFRs1 rs1; EncodeFunct3 funct3;
              EncodeRd rd; EncodeOpcode opcode].
Definition EmitRType_ffx_round (funct7 rs2 rs1 round rd opcode : Z) : Asm -> Res Asm :=
  EmitFields [EncodeFunct7 funct7; EncodeFRs2 rs2; EncodeFRs1 rs1; EncodeRoundingMode round;
              EncodeRd rd; EncodeOpcode opcode].
Definition EmitRType_shamt (funct7 shamt rs1 funct3 rd opcode : Z) : Asm -> Res Asm :=
  EmitFields [EncodeFunct7 funct7; EncodeShamt shamt; EncodeRs1 rs1; EncodeFunct3 funct3;
              EncodeRd rd; EncodeOpcode opcode].

Definition EmitR4Type (rs3 funct2 rs2 rs1 round rd opcode : Z) : Asm -> Res Asm :=
  EmitFields [EncodeFRs3 rs3; EncodeFunct2 funct2; EncodeFRs2 rs2; EncodeFRs1 rs1;
              EncodeRoundingMode round; EncodeFRd rd; EncodeOpcode opcode].

Definition EmitIType (imm rs1 funct3 rd opcode : Z) : Asm -> Res Asm :=
  EmitFields [EncodeITypeImm imm; EncodeRs1 rs1; EncodeFunct3 funct3; EncodeRd rd;
              EncodeOpcode opcode].
Definition EmitIType_f (imm rs1 funct3 rd opcode : Z) : Asm -> Res Asm :=
  EmitFields [EncodeITypeImm imm; EncodeRs1 rs1; EncodeFunct3 funct3; EncodeFRd rd;
              EncodeOpcode opcode].

Definition EmitSType (imm rs2 rs1 funct3 opcode : Z) : Asm -> Res Asm :=
  EmitFields [EncodeSTypeImm imm; EncodeRs2 rs2; EncodeRs1 rs1; EncodeFunct3 funct3;
              EncodeOpcode opcode].
Definition EmitSType_f (imm rs2 rs1 funct3 opcode : Z) : Asm -> Res Asm :=
  EmitFields [EncodeSTypeImm imm; EncodeFRs2 rs2; EncodeRs1 rs1; EncodeFunct3 funct3;
              EncodeOpcode opcode].

Definition EmitBType (imm rs2 rs1 funct3 opcode : Z) : Asm -> Res Asm :=
  EmitFields [EncodeBTypeImm imm; EncodeRs2 rs2; EncodeRs1 rs1; EncodeFunct3 funct3;
              EncodeOpcode opcode].

Definition EmitUType (imm rd opcode : Z) : Asm -> Res Asm :=
  EmitFields [EncodeUTypeImm imm; EncodeRd rd; EncodeOpcode opcode].

Definition EmitJType (imm rd opcode : Z) : Asm -> Res Asm :=
  EmitFields [EncodeJTypeImm imm; EncodeRd rd; EncodeOpcode opcode].

End Buffer.
