(* ===== verification/MicroAsm.v ===== *)
(** * MicroAsm: the instructions of [MicroAssembler]
    (runtime/vm/compiler/assembler/assembler_riscv.{h,cc})

    One definition per method that emits an instruction without a label, in
    the order of the source, the compressed forms first because the others
    select them.  Methods the source compiles only for one register width are
    defined for both and documented by the simulator rejecting their
    encodings on the other. *)

From stdpp Require Import base numbers list gmap.
From S2P Require Import Prelude Constants Encoding CEncoding AsmBuffer.

#[local] Open Scope Z_scope.
#[local] Open Scope res_scope.

Module MicroAssembler.
Section Instructions.
Context `{Target}.

(** ** Compressed instructions *)

Definition c_lwsp (rd : Z) (addr : Address) (a : Asm) : Res Asm :=
  ASSERT (negb (rd =? Reg.ZR)) ;;
  ASSERT (base addr =? Reg.SP) ;;
  ASSERT (Supports a RV_C) ;;
  let* e1 := EncodeCRd rd in
  let* e2 := EncodeCSPLoad4Imm (offset addr) in
  Emit16 (Z.lor (Z.lor COpcode.C_LWSP e1) e2) a.

Definition c_flwsp (rd : Z) (addr : Address) (a : Asm) : Res Asm :=
  ASSERT (base addr =? Reg.SP) ;;
  ASSERT (Supports a RV_C) ;;
  ASSERT (Supports a RV_F) ;;
  let* e1 := EncodeCFRd rd in
  let* e2 := EncodeCSPLoad4Imm (offset addr) in
  Emit16 (Z.lor (Z.lor COpcode.C_FLWSP e1) e2) a.

Definition c_ldsp (rd : Z) (addr : Address) (a : Asm) : Res Asm :=
  ASSERT (negb (rd =? Reg.ZR)) ;;
  ASSERT (base addr =? Reg.SP) ;;
  ASSERT (Supports a RV_C) ;;
  let* e1 := EncodeCRd rd in
  let* e2 := EncodeCSPLoad8Imm (offset addr) in
  Emit16 (Z.lor (Z.lor COpcode.C_LDSP e1) e2) a.

Definition c_fldsp (rd : Z) (addr : Address) (a : Asm) : Res Asm :=
  ASSERT (base addr =? Reg.SP) ;;
  ASSERT (Supports a RV_C) ;;
  ASSERT (Supports a RV_D) ;;
  let* e1 := EncodeCFRd rd in
  let* e2 := EncodeCSPLoad8Imm (offset addr) in
  Emit16 (Z.lor (Z.lor COpcode.C_FLDSP e1) e2) a.

Definition c_swsp (rs2 : Z) (addr : Address) (a : Asm) : Res Asm :=
  ASSERT (base addr =? Reg.SP) ;;
  ASSERT (Supports a RV_C) ;;
  let* e1 := EncodeCRs2 rs2 in
  let* e2 := EncodeCSPStore4Imm (offset addr) in
  Emit16 (Z.lor (Z.lor COpcode.C_SWSP e1) e2) a.

Definition c_fswsp (rs2 : Z) (addr : Address) (a : Asm) : Res Asm :=
  ASSERT (base addr =? Reg.SP) ;;
  ASSERT (Supports a RV_C) ;;
  ASSERT (Supports a RV_F) ;;
  let* e1 := EncodeCFRs2 rs2 in
  let* e2 := EncodeCSPStore4Imm (offset addr) in
  Emit16 (Z.lor (Z.lor COpcode.C_FSWSP e1) e2) a.

Definition c_sdsp (rs2 : Z) (addr : Address) (a : Asm) : Res Asm :=
  ASSERT (base addr =? Reg.SP) ;;
  ASSERT (Supports a RV_C) ;;
  let* e1 := EncodeCRs2 rs2 in
  let* e2 := EncodeCSPStore8Imm (offset addr) in
  Emit16 (Z.lor (Z.lor COpcode.C_SDSP e1) e2) a.

Definition c_fsdsp (rs2 : Z) (addr : Address) (a : Asm) : Res Asm :=
  ASSERT (base addr =? Reg.SP) ;;
  ASSERT (Supports a RV_C) ;;
  ASSERT (Supports a RV_D) ;;
  let* e1 := EncodeCFRs2 rs2 in
  let* e2 := EncodeCSPStore8Imm (offset addr) in
  Emit16 (Z.lor (Z.lor COpcode.C_FSDSP e1) e2) a.

Definition c_lw (rd : Z) (addr : Address) (a : Asm) : Res Asm :=
  ASSERT (Supports a RV_C) ;;
  let* e1 := EncodeCRdp rd in
  let* e2 := EncodeCRs1p (base addr) in
  let* e3 := EncodeCMem4Imm (offset addr) in
  Emit16 (Z.lor (Z.lor (Z.lor COpcode.C_LW e1) e2) e3) a.

Definition c_ld (rd : Z) (addr : Address) (a : Asm) : Res Asm :=
  ASSERT (Supports a RV_C) ;;
  let* e1 := EncodeCRdp rd in
  let* e2 := EncodeCRs1p (base addr) in
  let* e3 := EncodeCMem8Imm (offset addr) in
  Emit16 (Z.lor (Z.lor (Z.lor COpcode.C_LD e1) e2) e3) a.

Definition c_flw (rd : Z) (addr : Address) (a : Asm) : Res Asm :=
  ASSERT (Supports a RV_C) ;;
  ASSERT (Supports a RV_F) ;;
  let* e1 := EncodeCFRdp rd in
  let* e2 := EncodeCRs1p (base addr) in
  let* e3 := EncodeCMem4Imm (offset addr) in
  Emit16 (Z.lor (Z.lor (Z.lor COpcode.C_FLW e1) e2) e3) a.

Definition c_fld (rd : Z) (addr : Address) (a : Asm) : Res Asm :=
  ASSERT (Supports a RV_C) ;;
  ASSERT (Supports a RV_D) ;;
  let* e1 := EncodeCFRdp rd in
  let* e2 := EncodeCRs1p (base addr) in
  let* e3 := EncodeCMem8Imm (offset addr) in
  Emit16 (Z.lor (Z.lor (Z.lor COpcode.C_FLD e1) e2) e3) a.

Definition c_sw (rs2 : Z) (addr : Address) (a : Asm) : Res Asm :=
  ASSERT (Supports a RV_C) ;;
  let* e1 := EncodeCRs1p (base addr) in
  let* e2 := EncodeCRs2p rs2 in
  let* e3 := EncodeCMem4Imm (offset addr) in
  Emit16 (Z.lor (Z.lor (Z.lor COpcode.C_SW e1) e2) e3) a.

Definition c_sd (rs2 : Z) (addr : Address) (a : Asm) : Res Asm :=
  ASSERT (Supports a RV_C) ;;
  let* e1 := EncodeCRs1p (base addr) in
  let* e2 := EncodeCRs2p rs2 in
  let* e3 := EncodeCMem8Imm (offset addr) in
  Emit16 (Z.lor (Z.lor (Z.lor COpcode.C_SD e1) e2) e3) a.

Definition c_fsw (rs2 : Z) (addr : Address) (a : Asm) : Res Asm :=
  ASSERT (Supports a RV_C) ;;
  ASSERT (Supports a RV_F) ;;
  let* e1 := EncodeCRs1p (base addr) in
  let* e2 := EncodeCFRs2p rs2 in
  let* e3 := EncodeCMem4Imm (offset addr) in
  Emit16 (Z.lor (Z.lor (Z.lor COpcode.C_FSW e1) e2) e3) a.

Definition c_fsd (rs2 : Z) (addr : Address) (a : Asm) : Res Asm :=
  ASSERT (Supports a RV_C) ;;
  ASSERT (Supports a RV_D) ;;
  let* e1 := EncodeCRs1p (base addr) in
  let* e2 := EncodeCFRs2p rs2 in
  let* e3 := EncodeCMem8Imm (offset addr) in
  Emit16 (Z.lor (Z.lor (Z.lor COpcode.C_FSD e1) e2) e3) a.

Definition c_jr (rs1 : Z) (a : Asm) : Res Asm :=
  ASSERT (Supports a RV_C) ;;
  ASSERT (negb (rs1 =? Reg.ZR)) ;;
  let* e1 := EncodeCRs1 rs1 in
  let* e2 := EncodeCRs2 Reg.ZR in
  Emit16 (Z.lor (Z.lor COpcode.C_JR e1) e2) a.

Definition c_jalr (rs1 : Z) (a : Asm) : Res Asm :=
  ASSERT (Supports a RV_C) ;;
  let* e1 := EncodeCRs1 rs1 in
  let* e2 := EncodeCRs2 Reg.ZR in
  Emit16 (Z.lor (Z.lor COpcode.C_JALR e1) e2) a.

Definition c_li (rd imm : Z) (a : Asm) : Res Asm :=
  ASSERT (Supports a RV_C) ;;
  ASSERT (negb (rd =? Reg.ZR)) ;;
  let* e1 := EncodeCRd rd in
  let* e2 := EncodeCIImm imm in
  Emit16 (Z.lor (Z.lor COpcode.C_LI e1) e2) a.

Definition c_lui (rd imm : Z) (a : Asm) : Res Asm :=
  ASSERT (Supports a RV_C) ;;
  ASSERT (negb (rd =? Reg.ZR)) ;;
  ASSERT (negb (rd =? Reg.SP)) ;;
  let* e1 := EncodeCRd rd in
  let* e2 := EncodeCUImm imm in
  Emit16 (Z.lor (Z.lor COpcode.C_LUI e1) e2) a.

Definition c_addi (rd rs1 imm : Z) (a : Asm) : Res Asm :=
  ASSERT (Supports a RV_C) ;;
  ASSERT (negb (imm =? 0)) ;;
  ASSERT (rd =? rs1) ;;
  let* e1 := EncodeCRd rd in
  let* e2 := EncodeCIImm imm in
  Emit16 (Z.lor (Z.lor COpcode.C_ADDI e1) e2) a.

Definition c_addiw (rd rs1 imm : Z) (a : Asm) : Res Asm :=
  ASSERT (Supports a RV_C) ;;
  ASSERT (rd =? rs1) ;;
  let* e1 := EncodeCRd rd in
  let* e2 := EncodeCIImm imm in
  Emit16 (Z.lor (Z.lor COpcode.C_ADDIW e1) e2) a.

Definition c_addi16sp (rd rs1 imm : Z) (a : Asm) : Res Asm :=
  ASSERT (Supports a RV_C) ;;
  ASSERT (rd =? rs1) ;;
  let* e1 := EncodeCRd rd in
  let* e2 := EncodeCI16Imm imm in
  Emit16 (Z.lor (Z.lor COpcode.C_ADDI16SP e1) e2) a.

Definition c_addi4spn (rdp rs1 imm : Z) (a : Asm) : Res Asm :=
  ASSERT (Supports a RV_C) ;;
  ASSERT (rs1 =? Reg.SP) ;;
  ASSERT (negb (imm =? 0)) ;;
  let* e1 := EncodeCRdp rdp in
  let* e2 := EncodeCI4SPNImm imm in
  Emit16 (Z.lor (Z.lor COpcode.C_ADDI4SPN e1) e2) a.

Definition c_slli (rd rs1 imm : Z) (a : Asm) : Res Asm :=
  ASSERT (Supports a RV_C) ;;
  ASSERT (rd =? rs1) ;;
  ASSERT (negb (imm =? 0)) ;;
  let* e1 := EncodeCRd rd in
  let* e2 := EncodeCIImm imm in
  Emit16 (Z.lor (Z.lor COpcode.C_SLLI e1) e2) a.

Definition c_srli (rd rs1 imm : Z) (a : Asm) : Res Asm :=
  ASSERT (Supports a RV_C) ;;
  ASSERT (rd =? rs1) ;;
  ASSERT (negb (imm =? 0)) ;;
  let* e1 := EncodeCRs1p rd in
  let* e2 := EncodeCIImm imm in
  Emit16 (Z.lor (Z.lor COpcode.C_SRLI e1) e2) a.

Definition c_srai (rd rs1 imm : Z) (a : Asm) : Res Asm :=
  ASSERT (Supports a RV_C) ;;
  ASSERT (rd =? rs1) ;;
  ASSERT (negb (imm =? 0)) ;;
  let* e1 := EncodeCRs1p rd in
  let* e2 := EncodeCIImm imm in
  Emit16 (Z.lor (Z.lor COpcode.C_SRAI e1) e2) a.

Definition c_andi (rd rs1 imm : Z) (a : Asm) : Res Asm :=
  ASSERT (Supports a RV_C) ;;
  ASSERT (rd =? rs1) ;;
  let* e1 := EncodeCRs1p rd in
  let* e2 := EncodeCIImm imm in
  Emit16 (Z.lor (Z.lor COpcode.C_ANDI e1) e2) a.

Definition c_mv (rd rs2 : Z) (a : Asm) : Res Asm :=
  ASSERT (Supports a RV_C) ;;
  ASSERT (negb (rd =? Reg.ZR)) ;;
  ASSERT (negb (rs2 =? Reg.ZR)) ;;
  let* e1 := EncodeCRd rd in
  let* e2 := EncodeCRs2 rs2 in
  Emit16 (Z.lor (Z.lor COpcode.C_MV e1) e2) a.

Definition c_add (rd rs1 rs2 : Z) (a : Asm) : Res Asm :=
  ASSERT (Supports a RV_C) ;;
  ASSERT (negb (rd =? Reg.ZR)) ;;
  ASSERT (rd =? rs1) ;;
  ASSERT (negb (rs2 =? Reg.ZR)) ;;
  let* e1 := EncodeCRd rd in
  let* e2 := EncodeCRs2 rs2 in
  Emit16 (Z.lor (Z.lor COpcode.C_ADD e1) e2) a.

Definition c_and (rd rs1 rs2 : Z) (a : Asm) : Res Asm :=
  ASSERT (Supports a RV_C) ;;
  ASSERT (rd =? rs1) ;;
  let* e1 := EncodeCRs1p rs1 in
  let* e2 := EncodeCRs2p rs2 in
  Emit16 (Z.lor (Z.lor COpcode.C_AND e1) e2) a.

Definition c_or (rd rs1 rs2 : Z) (a : Asm) : Res Asm :=
  ASSERT (Supports a RV_C) ;;
  let* e1 := EncodeCRs1p rs1 in
  let* e2 := EncodeCRs2p rs2 in
  Emit16 (Z.lor (Z.lor COpcode.C_OR e1) e2) a.

Definition c_xor (rd rs1 rs2 : Z) (a : Asm) : Res Asm :=
  ASSERT (Supports a RV_C) ;;
  let* e1 := EncodeCRs1p rs1 in
  let* e2 := EncodeCRs2p rs2 in
  Emit16 (Z.lor (Z.lor COpcode.C_XOR e1) e2) a.

Definition c_sub (rd rs1 rs2 : Z) (a : Asm) : Res Asm :=
  ASSERT (Supports a RV_C) ;;
  let* e1 := EncodeCRs1p rs1 in
  let* e2 := EncodeCRs2p rs2 in
  Emit16 (Z.lor (Z.lor COpcode.C_SUB e1) e2) a.

Definition c_addw (rd rs1 rs2 : Z) (a : Asm) : Res Asm :=
  ASSERT (Supports a RV_C) ;;
  let* e1 := EncodeCRs1p rs1 in
  let* e2 := EncodeCRs2p rs2 in
  Emit16 (Z.lor (Z.lor COpcode.C_ADDW e1) e2) a.

Definition c_subw (rd rs1 rs2 : Z) (a : Asm) : Res Asm :=
  ASSERT (Supports a RV_C) ;;
  let* e1 := EncodeCRs1p rs1 in
  let* e2 := EncodeCRs2p rs2 in
  Emit16 (Z.lor (Z.lor COpcode.C_SUBW e1) e2) a.

Definition c_nop (a : Asm) : Res Asm :=
  ASSERT (Supports a RV_C) ;;
  Emit16 COpcode.C_NOP a.

Definition c_ebreak (a : Asm) : Res Asm :=
  ASSERT (Supports a RV_C) ;;
  Emit16 COpcode.C_EBREAK a.

(** ** 32-bit instructions and the choice of a compressed form *)

Definition lui (rd imm : Z) (a : Asm) : Res Asm :=
  ASSERT (Supports a RV_I) ;;
  if Supports a RV_C && negb (rd =? Reg.ZR) && negb (rd =? Reg.SP) && IsCUImm imm
  then c_lui rd imm a else
  EmitUType imm rd Opcode.LUI a.

Definition lui_fixed (rd imm : Z) (a : Asm) : Res Asm :=
  ASSERT (Supports a RV_I) ;;
  EmitUType imm rd Opcode.LUI a.

Definition auipc (rd imm : Z) (a : Asm) : Res Asm :=
  ASSERT (Supports a RV_I) ;;
  EmitUType imm rd Opcode.AUIPC a.

Definition jalr (rd rs1 offset : Z) (a : Asm) : Res Asm :=
  ASSERT (Supports a RV_I) ;;
  if Supports a RV_C && negb (rs1 =? Reg.ZR) && (offset =? 0) && (rd =? Reg.ZR)
  then c_jr rs1 a else
  if Supports a RV_C && negb (rs1 =? Reg.ZR) && (offset =? 0) && (rd =? Reg.RA)
  then c_jalr rs1 a else
  EmitIType offset rs1 Funct3.F3_0 rd Opcode.JALR a.

Definition jalr_fixed (rd rs1 offset : Z) (a : Asm) : Res Asm :=
  ASSERT (Supports a RV_I) ;;
  EmitIType offset rs1 Funct3.F3_0 rd Opcode.JALR a.

Definition lb (rd : Z) (addr : Address) (a : Asm) : Res Asm :=
  ASSERT (Supports a RV_I) ;;
  EmitIType (offset addr) (base addr) Funct3.LB rd Opcode.LOAD a.

Definition lh (rd : Z) (addr : Address) (a : Asm) : Res Asm :=
  ASSERT (Supports a RV_I) ;;
  EmitIType (offset addr) (base addr) Funct3.LH rd Opcode.LOAD a.

Definition lw (rd : Z) (addr : Address) (a : Asm) : Res Asm :=
  ASSERT (Supports a RV_I) ;;
  if Supports a RV_C && negb (rd =? Reg.ZR) && (base addr =? Reg.SP) && IsCSPLoad4Imm (offset addr)
  then c_lwsp rd addr a else
  if Supports a RV_C && IsCRdp rd && IsCRs1p (base addr) && IsCMem4Imm (offset addr)
  then c_lw rd addr a else
  EmitIType (offset addr) (base addr) Funct3.LW rd Opcode.LOAD a.

Definition lbu (rd : Z) (addr : Address) (a : Asm) : Res Asm :=
  ASSERT (Supports a RV_I) ;;
  EmitIType (offset addr) (base addr) Funct3.LBU rd Opcode.LOAD a.

Definition lhu (rd : Z) (addr : Address) (a : Asm) : Res Asm :=
  ASSERT (Supports a RV_I) ;;
  EmitIType (offset addr) (base addr) Funct3.LHU rd Opcode.LOAD a.

Definition sb (rs2 : Z) (addr : Address) (a : Asm) : Res Asm :=
  ASSERT (Supports a RV_I) ;;
  EmitSType (offset addr) rs2 (base addr) Funct3.SB Opcode.STORE a.

Definition sh (rs2 : Z) (addr : Address) (a : Asm) : Res Asm :=
  ASSERT (Supports a RV_I) ;;
  EmitSType (offset addr) rs2 (base addr) Funct3.SH Opcode.STORE a.

Definition sw (rs2 : Z) (addr : Address) (a : Asm) : Res Asm :=
  ASSERT (Supports a RV_I) ;;
  if Supports a RV_C && (base addr =? Reg.SP) && IsCSPStore4Imm (offset addr)
  then c_swsp rs2 addr a else
  if Supports a RV_C && IsCRs2p rs2 && IsCRs1p (base addr) && IsCMem4Imm (offset addr)
  then c_sw rs2 addr a else
  EmitSType (offset addr) rs2 (base addr) Funct3.SW Opcode.STORE a.

Definition addi (rd rs1 imm : Z) (a : Asm) : Res Asm :=
  ASSERT (Supports a RV_I) ;;
  if Supports a RV_C && negb (rd =? Reg.ZR) && (rs1 =? Reg.ZR) && IsCIImm imm
  then c_li rd imm a else
  if Supports a RV_C && (rd =? rs1) && IsCIImm imm && negb (imm =? 0)
  then c_addi rd rs1 imm a else
  if Supports a RV_C && (rd =? Reg.SP) && (rs1 =? Reg.SP) && IsCI16Imm imm && negb (imm =? 0)
  then c_addi16sp rd rs1 imm a else
  if Supports a RV_C && IsCRdp rd && (rs1 =? Reg.SP) && IsCI4SPNImm imm && negb (imm =? 0)
  then c_addi4spn rd rs1 imm a else
  if Supports a RV_C && (imm =? 0) && (rd =? Reg.ZR) && (rs1 =? Reg.ZR)
  then c_nop a else
  if Supports a RV_C && (imm =? 0) && negb (rd =? Reg.ZR) && negb (rs1 =? Reg.ZR)
  then c_mv rd rs1 a else
  EmitIType imm rs1 Funct3.ADDI rd Opcode.OPIMM a.

Definition slti (rd rs1 imm : Z) (a : Asm) : Res Asm :=
  ASSERT (Supports a RV_I) ;;
  EmitIType imm rs1 Funct3.SLTI rd Opcode.OPIMM a.

Definition sltiu (rd rs1 imm : Z) (a : Asm) : Res Asm :=
  ASSERT (Supports a RV_I) ;;
  EmitIType imm rs1 Funct3.SLTIU rd Opcode.OPIMM a.

Definition xori (rd rs1 imm : Z) (a : Asm) : Res Asm :=
  ASSERT (Supports a RV_I) ;;
  EmitIType imm rs1 Funct3.XORI rd Opcode.OPIMM a.

Definition ori (rd rs1 imm : Z) (a : Asm) : Res Asm :=
  ASSERT (Supports a RV_I) ;;
  EmitIType imm rs1 Funct3.ORI rd Opcode.OPIMM a.

Definition andi (rd rs1 imm : Z) (a : Asm) : Res Asm :=
  ASSERT (Supports a RV_I) ;;
  if Supports a RV_C && (rd =? rs1) && IsCRs1p rs1 && IsCIImm imm
  then c_andi rd rs1 imm a else
  EmitIType imm rs1 Funct3.ANDI rd Opcode.OPIMM a.

Definition slli (rd rs1 shamt : Z) (a : Asm) : Res Asm :=
  ASSERT ((0 <? shamt) && (shamt <? XLEN)) ;;
  ASSERT (Supports a RV_I) ;;
  if Supports a RV_C && (rd =? rs1) && negb (shamt =? 0) && IsCIImm shamt
  then c_slli rd rs1 shamt a else
  EmitRType_shamt Funct7.F7_0 shamt rs1 Funct3.SLLI rd Opcode.OPIMM a.

Definition srli (rd rs1 shamt : Z) (a : Asm) : Res Asm :=
  ASSERT ((0 <? shamt) && (shamt <? XLEN)) ;;
  ASSERT (Supports a RV_I) ;;
  if Supports a RV_C && (rd =? rs1) && IsCRs1p rs1 && negb (shamt =? 0) && IsCIImm shamt
  then c_srli rd rs1 shamt a else
  EmitRType_shamt Funct7.F7_0 shamt rs1 Funct3.SRI rd Opcode.OPIMM a.

Definition srai (rd rs1 shamt : Z) (a : Asm) : Res Asm :=
  ASSERT ((0 <? shamt) && (shamt <? XLEN)) ;;
  ASSERT (Supports a RV_I) ;;
  if Supports a RV_C && (rd =? rs1) && IsCRs1p rs1 && negb (shamt =? 0) && IsCIImm shamt
  then c_srai rd rs1 shamt a else
  EmitRType_shamt Funct7.SRA shamt rs1 Funct3.SRI rd Opcode.OPIMM a.

Definition add (rd rs1 rs2 : Z) (a : Asm) : Res Asm :=
  ASSERT (Supports a RV_I) ;;
  if Supports a RV_C && (rd =? rs1)
  then c_add rd rs1 rs2 a else
  if Supports a RV_C && (rd =? rs2)
  then c_add rd rs2 rs1 a else
  EmitRType Funct7.F7_0 rs2 rs1 Funct3.ADD rd Opcode.OP a.

Definition sub (rd rs1 rs2 : Z) (a : Asm) : Res Asm :=
  ASSERT (Supports a RV_I) ;;
  if Supports a RV_C && (rd =? rs1) && IsCRs1p rs1 && IsCRs2p rs2
  then c_sub rd rs1 rs2 a else
  EmitRType Funct7.SUB rs2 rs1 Funct3.ADD rd Opcode.OP a.

Definition sll (rd rs1 rs2 : Z) (a : Asm) : Res Asm :=
  ASSERT (Supports a RV_I) ;;
  EmitRType Funct7.F7_0 rs2 rs1 Funct3.SLL rd Opcode.OP a.

Definition slt (rd rs1 rs2 : Z) (a : Asm) : Res Asm :=
  ASSERT (Supports a RV_I) ;;
  EmitRType Funct7.F7_0 rs2 rs1 Funct3.SLT rd Opcode.OP a.

Definition sltu (rd rs1 rs2 : Z) (a : Asm) : Res Asm :=
  ASSERT (Supports a RV_I) ;;
  EmitRType Funct7.F7_0 rs2 rs1 Funct3.SLTU rd Opcode.OP a.

Definition xor_ (rd rs1 rs2 : Z) (a : Asm) : Res Asm :=
  ASSERT (Supports a RV_I) ;;
  if Supports a RV_C && (rd =? rs1) && IsCRs1p rs1 && IsCRs2p rs2
  then c_xor rd rs1 rs2 a else
  if Supports a RV_C && (rd =? rs2) && IsCRs1p rs1 && IsCRs2p rs2
  then c_xor rd rs2 rs1 a else
  EmitRType Funct7.F7_0 rs2 rs1 Funct3.XOR rd Opcode.OP a.

Definition srl (rd rs1 rs2 : Z) (a : Asm) : Res Asm :=
  ASSERT (Supports a RV_I) ;;
  EmitRType Funct7.F7_0 rs2 rs1 Funct3.SR rd Opcode.OP a.

Definition sra (rd rs1 rs2 : Z) (a : Asm) : Res Asm :=
  ASSERT (Supports a RV_I) ;;
  EmitRType Funct7.SRA rs2 rs1 Funct3.SR rd Opcode.OP a.

Definition or_ (rd rs1 rs2 : Z) (a : Asm) : Res Asm :=
  ASSERT (Supports a RV_I) ;;
  if Supports a RV_C && (rd =? rs1) && IsCRs1p rs1 && IsCRs2p rs2
  then c_or rd rs1 rs2 a else
  if Supports a RV_C && (rd =? rs2) && IsCRs1p rs1 && IsCRs2p rs2
  then c_or rd rs2 rs1 a else
  EmitRType Funct7.F7_0 rs2 rs1 Funct3.OR rd Opcode.OP a.

Definition and_ (rd rs1 rs2 : Z) (a : Asm) : Res Asm :=
  ASSERT (Supports a RV_I) ;;
  if Supports a RV_C && (rd =? rs1) && IsCRs1p rs1 && IsCRs2p rs2
  then c_and rd rs1 rs2 a else
  if Supports a RV_C && (rd =? rs2) && IsCRs1p rs1 && IsCRs2p rs2
  then c_and rd rs2 rs1 a else
  EmitRType Funct7.F7_0 rs2 rs1 Funct3.AND rd Opcode.OP a.

Definition fence (predecessor successor : Z) (a : Asm) : Res Asm :=
  ASSERT (Z.land predecessor HartEffects.kAll =? predecessor) ;;
  ASSERT (Z.land successor HartEffects.kAll =? successor) ;;
  ASSERT (Supports a RV_I) ;;
  EmitIType (Z.lor (Z.shiftl predecessor 4) successor) Reg.ZR Funct3.FENCE Reg.ZR Opcode.MISCMEM a.

Definition fencei (a : Asm) : Res Asm :=
  ASSERT (Supports a RV_I) ;;
  EmitIType 0 Reg.ZR Funct3.FENCEI Reg.ZR Opcode.MISCMEM a.

Definition ecall (a : Asm) : Res Asm :=
  ASSERT (Supports a RV_I) ;;
  EmitIType Funct12.ECALL Reg.ZR Funct3.F3_0 Reg.ZR Opcode.SYSTEM a.

Definition ebreak (a : Asm) : Res Asm :=
  ASSERT (Supports a RV_I) ;;
  if Supports a RV_C
  then c_ebreak a else
  EmitIType Funct12.EBREAK Reg.ZR Funct3.F3_0 Reg.ZR Opcode.SYSTEM a.

Definition SimulatorPrintObject (rs1 : Z) (a : Asm) : Res Asm :=
  ASSERT (Supports a RV_I) ;;
  EmitIType Funct12.ECALL rs1 Funct3.F3_0 Reg.ZR Opcode.SYSTEM a.

Definition csrrw (rd csr rs1 : Z) (a : Asm) : Res Asm :=
  ASSERT (Supports a RV_I) ;;
  EmitIType csr rs1 Funct3.CSRRW rd Opcode.SYSTEM a.

Definition csrrs (rd csr rs1 : Z) (a : Asm) : Res Asm :=
  ASSERT (Supports a RV_I) ;;
  EmitIType csr rs1 Funct3.CSRRS rd Opcode.SYSTEM a.

Definition csrrc (rd csr rs1 : Z) (a : Asm) : Res Asm :=
  ASSERT (Supports a RV_I) ;;
  EmitIType csr rs1 Funct3.CSRRC rd Opcode.SYSTEM a.

Definition csrrwi (rd csr imm : Z) (a : Asm) : Res Asm :=
  ASSERT (Supports a RV_I) ;;
  EmitIType csr imm Funct3.CSRRWI rd Opcode.SYSTEM a.

Definition csrrsi (rd csr imm : Z) (a : Asm) : Res Asm :=
  ASSERT (Supports a RV_I) ;;
  EmitIType csr imm Funct3.CSRRSI rd Opcode.SYSTEM a.

Definition csrrci (rd csr imm : Z) (a : Asm) : Res Asm :=
  ASSERT (Supports a RV_I) ;;
  EmitIType csr imm Funct3.CSRRCI rd Opcode.SYSTEM a.

Definition lwu (rd : Z) (addr : Address) (a : Asm) : Res Asm :=
  ASSERT (Supports a RV_I) ;;
  EmitIType (offset addr) (base addr) Funct3.LWU rd Opcode.LOAD a.

Definition ld (rd : Z) (addr : Address) (a : Asm) : Res Asm :=
  ASSERT (Supports a RV_I) ;;
  if Supports a RV_C && negb (rd =? Reg.ZR) && (base addr =? Reg.SP) && IsCSPLoad8Imm (offset addr)
  then c_ldsp rd addr a else
  if Supports a RV_C && IsCRdp rd && IsCRs1p (base addr) && IsCMem8Imm (offset addr)
  then c_ld rd addr a else
  EmitIType (offset addr) (base addr) Funct3.LD rd Opcode.LOAD a.

Definition sd (rs2 : Z) (addr : Address) (a : Asm) : Res Asm :=
  ASSERT (Supports a RV_I) ;;
  if Supports a RV_C && (base addr =? Reg.SP) && IsCSPStore8Imm (offset addr)
  then c_sdsp rs2 addr a else
  if Supports a RV_C && IsCRs2p rs2 && IsCRs1p (base addr) && IsCMem8Imm (offset addr)
  then c_sd rs2 addr a else
  EmitSType (offset addr) rs2 (base addr) Funct3.SD Opcode.STORE a.

Definition addiw (rd rs1 imm : Z) (a : Asm) : Res Asm :=
  ASSERT (Supports a RV_I) ;;
  if Supports a RV_C && negb (rd =? Reg.ZR) && (rs1 =? Reg.ZR) && IsCIImm imm
  then c_li rd imm a else
  if Supports a RV_C && (rd =? rs1) && negb (rd =? Reg.ZR) && IsCIImm imm
  then c_addiw rd rs1 imm a else
  EmitIType imm rs1 Funct3.ADDI rd Opcode.OPIMM32 a.

Definition slliw (rd rs1 shamt : Z) (a : Asm) : Res Asm :=
  ASSERT ((0 <? shamt) && (shamt <? 32)) ;;
  ASSERT (Supports a RV_I) ;;
  EmitRType_shamt Funct7.F7_0 shamt rs1 Funct3.SLLI rd Opcode.OPIMM32 a.

Definition srliw (rd rs1 shamt : Z) (a : Asm) : Res Asm :=
  ASSERT ((0 <? shamt) && (shamt <? 32)) ;;
  ASSERT (Supports a RV_I) ;;
  EmitRType_shamt Funct7.F7_0 shamt rs1 Funct3.SRI rd Opcode.OPIMM32 a.

Definition sraiw (rd rs1 shamt : Z) (a : Asm) : Res Asm :=
  ASSERT ((0 <? shamt) && (shamt <? XLEN)) ;;
  ASSERT (Supports a RV_I) ;;
  EmitRType_shamt Funct7.SRA shamt rs1 Funct3.SRI rd Opcode.OPIMM32 a.

Definition addw (rd rs1 rs2 : Z) (a : Asm) : Res Asm :=
  ASSERT (Supports a RV_I) ;;
  if Supports a RV_C && (rd =? rs1) && IsCRs1p rs1 && IsCRs2p rs2
  then c_addw rd rs1 rs2 a else
  if Supports a RV_C && (rd =? rs2) && IsCRs1p rs1 && IsCRs2p rs2
  then c_addw rd rs2 rs1 a else
  EmitRType Funct7.F7_0 rs2 rs1 Funct3.ADD rd Opcode.OP32 a.

Definition subw (rd rs1 rs2 : Z) (a : Asm) : Res Asm :=
  ASSERT (Supports a RV_I) ;;
  if Supports a RV_C && (rd =? rs1) && IsCRs1p rs1 && IsCRs2p rs2
  then c_subw rd rs1 rs2 a else
  EmitRType Funct7.SUB rs2 rs1 Funct3.ADD rd Opcode.OP32 a.

Definition sllw (rd rs1 rs2 : Z) (a : Asm) : Res Asm :=
  ASSERT (Supports a RV_I) ;;
  EmitRType Funct7.F7_0 rs2 rs1 Funct3.SLL rd Opcode.OP32 a.

Definition srlw (rd rs1 rs2 : Z) (a : Asm) : Res Asm :=
  ASSERT (Supports a RV_I) ;;
  EmitRType Funct7.F7_0 rs2 rs1 Funct3.SR rd Opcode.OP32 a.

Definition sraw (rd rs1 rs2 : Z) (a : Asm) : Res Asm :=
  ASSERT (Supports a RV_I) ;;
  EmitRType Funct7.SRA rs2 rs1 Funct3.SR rd Opcode.OP32 a.

Definition mul (rd rs1 rs2 : Z) (a : Asm) : Res Asm :=
  ASSERT (Supports a RV_M) ;;
  EmitRType Funct7.MULDIV rs2 rs1 Funct3.MUL rd Opcode.OP a.

Definition mulh (rd rs1 rs2 : Z) (a : Asm) : Res Asm :=
  ASSERT (Supports a RV_M) ;;
  EmitRType Funct7.MULDIV rs2 rs1 Funct3.MULH rd Opcode.OP a.

Definition mulhsu (rd rs1 rs2 : Z) (a : Asm) : Res Asm :=
  ASSERT (Supports a RV_M) ;;
  EmitRType Funct7.MULDIV rs2 rs1 Funct3.MULHSU rd Opcode.OP a.

Definition mulhu (rd rs1 rs2 : Z) (a : Asm) : Res Asm :=
  ASSERT (Supports a RV_M) ;;
  EmitRType Funct7.MULDIV rs2 rs1 Funct3.MULHU rd Opcode.OP a.

Definition div (rd rs1 rs2 : Z) (a : Asm) : Res Asm :=
  ASSERT (Supports a RV_M) ;;
  EmitRType Funct7.MULDIV rs2 rs1 Funct3.DIV rd Opcode.OP a.

Definition divu (rd rs1 rs2 : Z) (a : Asm) : Res Asm :=
  ASSERT (Supports a RV_M) ;;
  EmitRType Funct7.MULDIV rs2 rs1 Funct3.DIVU rd Opcode.OP a.

Definition rem (rd rs1 rs2 : Z) (a : Asm) : Res Asm :=
  ASSERT (Supports a RV_M) ;;
  EmitRType Funct7.MULDIV rs2 rs1 Funct3.REM rd Opcode.OP a.

Definition remu (rd rs1 rs2 : Z) (a : Asm) : Res Asm :=
  ASSERT (Supports a RV_M) ;;
  EmitRType Funct7.MULDIV rs2 rs1 Funct3.REMU rd Opcode.OP a.

Definition mulw (rd rs1 rs2 : Z) (a : Asm) : Res Asm :=
  ASSERT (Supports a RV_M) ;;
  EmitRType Funct7.MULDIV rs2 rs1 Funct3.MULW rd Opcode.OP32 a.

Definition divw (rd rs1 rs2 : Z) (a : Asm) : Res Asm :=
  ASSERT (Supports a RV_M) ;;
  EmitRType Funct7.MULDIV rs2 rs1 Funct3.DIVW rd Opcode.OP32 a.

Definition divuw (rd rs1 rs2 : Z) (a : Asm) : Res Asm :=
  ASSERT (Supports a RV_M) ;;
  EmitRType Funct7.MULDIV rs2 rs1 Funct3.DIVUW rd Opcode.OP32 a.

Definition remw (rd rs1 rs2 : Z) (a : Asm) : Res Asm :=
  ASSERT (Supports a RV_M) ;;
  EmitRType Funct7.MULDIV rs2 rs1 Funct3.REMW rd Opcode.OP32 a.

Definition remuw (rd rs1 rs2 : Z) (a : Asm) : Res Asm :=
  ASSERT (Supports a RV_M) ;;
  EmitRType Funct7.MULDIV rs2 rs1 Funct3.REMUW rd Opcode.OP32 a.

Definition lrw (rd : Z) (addr : Address) (order : memory_order) (a : Asm) : Res Asm :=
  ASSERT (offset addr =? 0) ;;
  ASSERT (Supports a RV_A) ;;
  EmitRType_atomic Funct5.LR order Reg.ZR (base addr) Funct3.WIDTH32 rd Opcode.AMO a.

Definition scw (rd rs2 : Z) (addr : Address) (order : memory_order) (a : Asm) : Res Asm :=
  ASSERT (offset addr =? 0) ;;
  ASSERT (Supports a RV_A) ;;
  EmitRType_atomic Funct5.SC order rs2 (base addr) Funct3.WIDTH32 rd Opcode.AMO a.

Definition amoswapw (rd rs2 : Z) (addr : Address) (order : memory_order) (a : Asm) : Res Asm :=
  ASSERT (offset addr =? 0) ;;
  ASSERT (Supports a RV_A) ;;
  EmitRType_atomic Funct5.AMOSWAP order rs2 (base addr) Funct3.WIDTH32 rd Opcode.AMO a.

Definition amoaddw (rd rs2 : Z) (addr : Address) (order : memory_order) (a : Asm) : Res Asm :=
  ASSERT (offset addr =? 0) ;;
  ASSERT (Supports a RV_A) ;;
  EmitRType_atomic Funct5.AMOADD order rs2 (base addr) Funct3.WIDTH32 rd Opcode.AMO a.

Definition amoxorw (rd rs2 : Z) (addr : Address) (order : memory_order) (a : Asm) : Res Asm :=
  ASSERT (offset addr =? 0) ;;
  ASSERT (Supports a RV_A) ;;
  EmitRType_atomic Funct5.AMOXOR order rs2 (base addr) Funct3.WIDTH32 rd Opcode.AMO a.

Definition amoandw (rd rs2 : Z) (addr : Address) (order : memory_order) (a : Asm) : Res Asm :=
  ASSERT (offset addr =? 0) ;;
  ASSERT (Supports a RV_A) ;;
  EmitRType_atomic Funct5.AMOAND order rs2 (base addr) Funct3.WIDTH32 rd Opcode.AMO a.

Definition amoorw (rd rs2 : Z) (addr : Address) (order : memory_order) (a : Asm) : Res Asm :=
  ASSERT (offset addr =? 0) ;;
  ASSERT (Supports a RV_A) ;;
  EmitRType_atomic Funct5.AMOOR order rs2 (base addr) Funct3.WIDTH32 rd Opcode.AMO a.

Definition amominw (rd rs2 : Z) (addr : Address) (order : memory_order) (a : Asm) : Res Asm :=
  ASSERT (offset addr =? 0) ;;
  ASSERT (Supports a RV_A) ;;
  EmitRType_atomic Funct5.AMOMIN order rs2 (base addr) Funct3.WIDTH32 rd Opcode.AMO a.

Definition amomaxw (rd rs2 : Z) (addr : Address) (order : memory_order) (a : Asm) : Res Asm :=
  ASSERT (offset addr =? 0) ;;
  ASSERT (Supports a RV_A) ;;
  EmitRType_atomic Funct5.AMOMAX order rs2 (base addr) Funct3.WIDTH32 rd Opcode.AMO a.

Definition amominuw (rd rs2 : Z) (addr : Address) (order : memory_order) (a : Asm) : Res Asm :=
  ASSERT (offset addr =? 0) ;;
  ASSERT (Supports a RV_A) ;;
  EmitRType_atomic Funct5.AMOMINU order rs2 (base addr) Funct3.WIDTH32 rd Opcode.AMO a.

Definition amomaxuw (rd rs2 : Z) (addr : Address) (order : memory_order) (a : Asm) : Res Asm :=
  ASSERT (offset addr =? 0) ;;
  ASSERT (Supports a RV_A) ;;
  EmitRType_atomic Funct5.AMOMAXU order rs2 (base addr) Funct3.WIDTH32 rd Opcode.AMO a.

Definition lrd (rd : Z) (addr : Address) (order : memory_order) (a : Asm) : Res Asm :=
  ASSERT (offset addr =? 0) ;;
  ASSERT (Supports a RV_A) ;;
  EmitRType_atomic Funct5.LR order Reg.ZR (base addr) Funct3.WIDTH64 rd Opcode.AMO a.

Definition scd (rd rs2 : Z) (addr : Address) (order : memory_order) (a : Asm) : Res Asm :=
  ASSERT (offset addr =? 0) ;;
  ASSERT (Supports a RV_A) ;;
  EmitRType_atomic Funct5.SC order rs2 (base addr) Funct3.WIDTH64 rd Opcode.AMO a.

Definition amoswapd (rd rs2 : Z) (addr : Address) (order : memory_order) (a : Asm) : Res Asm :=
  ASSERT (offset addr =? 0) ;;
  ASSERT (Supports a RV_A) ;;
  EmitRType_atomic Funct5.AMOSWAP order rs2 (base addr) Funct3.WIDTH64 rd Opcode.AMO a.

Definition amoaddd (rd rs2 : Z) (addr : Address) (order : memory_order) (a : Asm) : Res Asm :=
  ASSERT (offset addr =? 0) ;;
  ASSERT (Supports a RV_A) ;;
  EmitRType_atomic Funct5.AMOADD order rs2 (base addr) Funct3.WIDTH64 rd Opcode.AMO a.

Definition amoxord (rd rs2 : Z) (addr : Address) (order : memory_order) (a : Asm) : Res Asm :=
  ASSERT (offset addr =? 0) ;;
  ASSERT (Supports a RV_A) ;;
  EmitRType_atomic Funct5.AMOXOR order rs2 (base addr) Funct3.WIDTH64 rd Opcode.AMO a.

Definition amoandd (rd rs2 : Z) (addr : Address) (order : memory_order) (a : Asm) : Res Asm :=
  ASSERT (offset addr =? 0) ;;
  ASSERT (Supports a RV_A) ;;
  EmitRType_atomic Funct5.AMOAND order rs2 (base addr) Funct3.WIDTH64 rd Opcode.AMO a.

Definition amoord (rd rs2 : Z) (addr : Address) (order : memory_order) (a : Asm) : Res Asm :=
  ASSERT (offset addr =? 0) ;;
  ASSERT (Supports a RV_A) ;;
  EmitRType_atomic Funct5.AMOOR order rs2 (base addr) Funct3.WIDTH64 rd Opcode.AMO a.

Definition amomind (rd rs2 : Z) (addr : Address) (order : memory_order) (a : Asm) : Res Asm :=
  ASSERT (offset addr =? 0) ;;
  ASSERT (Supports a RV_A) ;;
  EmitRType_atomic Funct5.AMOMIN order rs2 (base addr) Funct3.WIDTH64 rd Opcode.AMO a.

Definition amomaxd (rd rs2 : Z) (addr : Address) (order : memory_order) (a : Asm) : Res Asm :=
  ASSERT (offset addr =? 0) ;;
  ASSERT (Supports a RV_A) ;;
  EmitRType_atomic Funct5.AMOMAX order rs2 (base addr) Funct3.WIDTH64 rd Opcode.AMO a.

Definition amominud (rd rs2 : Z) (addr : Address) (order : memory_order) (a : Asm) : Res Asm :=
  ASSERT (offset addr =? 0) ;;
  ASSERT (Supports a RV_A) ;;
  EmitRType_atomic Funct5.AMOMINU order rs2 (base addr) Funct3.WIDTH64 rd Opcode.AMO a.

Definition amomaxud (rd rs2 : Z) (addr : Address) (order : memory_order) (a : Asm) : Res Asm :=
  ASSERT (offset addr =? 0) ;;
  ASSERT (Supports a RV_A) ;;
  EmitRType_atomic Funct5.AMOMAXU order rs2 (base addr) Funct3.WIDTH64 rd Opcode.AMO a.

Definition flw (rd : Z) (addr : Address) (a : Asm) : Res Asm :=
  ASSERT (Supports a RV_F) ;;
  if (XLEN =? 32) && Supports a RV_C && (base addr =? Reg.SP) && IsCSPLoad4Imm (offset addr)
  then c_flwsp rd addr a else
  if (XLEN =? 32) && Supports a RV_C && IsCFRdp rd && IsCRs1p (base addr) && IsCMem4Imm (offset addr)
  then c_flw rd addr a else
  EmitIType_f (offset addr) (base addr) Funct3.S rd Opcode.LOADFP a.

Definition fsw (rs2 : Z) (addr : Address) (a : Asm) : Res Asm :=
  ASSERT (Supports a RV_F) ;;
  if (XLEN =? 32) && Supports a RV_C && (base addr =? Reg.SP) && IsCSPStore4Imm (offset addr)
  then c_fswsp rs2 addr a else
  if (XLEN =? 32) && Supports a RV_C && IsCFRs2p rs2 && IsCRs1p (base addr) && IsCMem4Imm (offset addr)
  then c_fsw rs2 addr a else
  EmitSType_f (offset addr) rs2 (base addr) Funct3.S Opcode.STOREFP a.

Definition fmadds (rd rs1 rs2 rs3 rounding : Z) (a : Asm) : Res Asm :=
  ASSERT (Supports a RV_F) ;;
  EmitR4Type rs3 Funct2.F2_S rs2 rs1 rounding rd Opcode.FMADD a.

Definition fmsubs (rd rs1 rs2 rs3 rounding : Z) (a : Asm) : Res Asm :=
  ASSERT (Supports a RV_F) ;;
  EmitR4Type rs3 Funct2.F2_S rs2 rs1 rounding rd Opcode.FMSUB a.

Definition fnmsubs (rd rs1 rs2 rs3 rounding : Z) (a : Asm) : Res Asm :=
  ASSERT (Supports a RV_F) ;;
  EmitR4Type rs3 Funct2.F2_S rs2 rs1 rounding rd Opcode.FNMSUB a.

Definition fnmadds (rd rs1 rs2 rs3 rounding : Z) (a : Asm) : Res Asm :=
  ASSERT (Supports a RV_F) ;;
  EmitR4Type rs3 Funct2.F2_S rs2 rs1 rounding rd Opcode.FNMADD a.

Definition fadds (rd rs1 rs2 rounding : Z) (a : Asm) : Res Asm :=
  ASSERT (Supports a RV_F) ;;
  EmitRType_fff_round Funct7.FADDS rs2 rs1 rounding rd Opcode.OPFP a.

Definition fsubs (rd rs1 rs2 rounding : Z) (a : Asm) : Res Asm :=
  ASSERT (Supports a RV_F) ;;
  EmitRType_fff_round Funct7.FSUBS rs2 rs1 rounding rd Opcode.OPFP a.

Definition fmuls (rd rs1 rs2 rounding : Z) (a : Asm) : Res Asm :=
  ASSERT (Supports a RV_F) ;;
  EmitRType_fff_round Funct7.FMULS rs2 rs1 rounding rd Opcode.OPFP a.

Definition fdivs (rd rs1 rs2 rounding : Z) (a : Asm) : Res Asm :=
  ASSERT (Supports a RV_F) ;;
  EmitRType_fff_round Funct7.FDIVS rs2 rs1 rounding rd Opcode.OPFP a.

Definition fsqrts (rd rs1 rounding : Z) (a : Asm) : Res Asm :=
  ASSERT (Supports a RV_F) ;;
  EmitRType_fff_round Funct7.FSQRTS 0 rs1 rounding rd Opcode.OPFP a.

Definition fsgnjs (rd rs1 rs2 : Z) (a : Asm) : Res Asm :=
  ASSERT (Supports a RV_F) ;;
  EmitRType_fff Funct7.FSGNJS rs2 rs1 Funct3.J rd Opcode.OPFP a.

Definition fsgnjns (rd rs1 rs2 : Z) (a : Asm) : Res Asm :=
  ASSERT (Supports a RV_F) ;;
  EmitRType_fff Funct7.FSGNJS rs2 rs1 Funct3.JN rd Opcode.OPFP a.

Definition fsgnjxs (rd rs1 rs2 : Z) (a : Asm) : Res Asm :=
  ASSERT (Supports a RV_F) ;;
  EmitRType_fff Funct7.FSGNJS rs2 rs1 Funct3.JX rd Opcode.OPFP a.

Definition fmins (rd rs1 rs2 : Z) (a : Asm) : Res Asm :=
  ASSERT (Supports a RV_F) ;;
  EmitRType_fff Funct7.FMINMAXS rs2 rs1 Funct3.FMIN rd Opcode.OPFP a.

Definition fmaxs (rd rs1 rs2 : Z) (a : Asm) : Res Asm :=
  ASSERT (Supports a RV_F) ;;
  EmitRType_fff Funct7.FMINMAXS rs2 rs1 Funct3.FMAX rd Opcode.OPFP a.

Definition feqs (rd rs1 rs2 : Z) (a : Asm) : Res Asm :=
  ASSERT (Supports a RV_F) ;;
  EmitRType_ffx Funct7.FCMPS rs2 rs1 Funct3.FEQ rd Opcode.OPFP a.

Definition flts (rd rs1 rs2 : Z) (a : Asm) : Res Asm :=
  ASSERT (Supports a RV_F) ;;
  EmitRType_ffx Funct7.FCMPS rs2 rs1 Funct3.FLT rd Opcode.OPFP a.

Definition fles (rd rs1 rs2 : Z) (a : Asm) : Res Asm :=
  ASSERT (Supports a RV_F) ;;
  EmitRType_ffx Funct7.FCMPS rs2 rs1 Funct3.FLE rd Opcode.OPFP a.

Definition fclasss (rd rs1 : Z) (a : Asm) : Res Asm :=
  ASSERT (Supports a RV_F) ;;
  EmitRType_ffx Funct7.FCLASSS 0 rs1 Funct3.F3_1 rd Opcode.OPFP a.

Definition fcvtws (rd rs1 rounding : Z) (a : Asm) : Res Asm :=
  ASSERT (Supports a RV_F) ;;
  EmitRType_ffx_round Funct7.FCVTintS FcvtRs2.W rs1 rounding rd Opcode.OPFP a.

Definition fcvtwus (rd rs1 rounding : Z) (a : Asm) : Res Asm :=
  ASSERT (Supports a RV_F) ;;
  EmitRType_ffx_round Funct7.FCVTintS FcvtRs2.WU rs1 rounding rd Opcode.OPFP a.

Definition fcvtsw (rd rs1 rounding : Z) (a : Asm) : Res Asm :=
  ASSERT (Supports a RV_F) ;;
  EmitRType_fxf_round Funct7.FCVTSint FcvtRs2.W rs1 rounding rd Opcode.OPFP a.

Definition fcvtswu (rd rs1 rounding : Z) (a : Asm) : Res Asm :=
  ASSERT (Supports a RV_F) ;;
  EmitRType_fxf_round Funct7.FCVTSint FcvtRs2.WU rs1 rounding rd Opcode.OPFP a.

Definition fmvxw (rd rs1 : Z) (a : Asm) : Res Asm :=
  ASSERT (Supports a RV_F) ;;
  EmitRType_ffx Funct7.FMVXW 0 rs1 Funct3.F3_0 rd Opcode.OPFP a.

Definition fmvwx (rd rs1 : Z) (a : Asm) : Res Asm :=
  ASSERT (Supports a RV_F) ;;
  EmitRType_fxf Funct7.FMVWX 0 rs1 Funct3.F3_0 rd Opcode.OPFP a.

Definition fcvtls (rd rs1 rounding : Z) (a : Asm) : Res Asm :=
  ASSERT (Supports a RV_F) ;;
  EmitRType_ffx_round Funct7.FCVTintS FcvtRs2.L rs1 rounding rd Opcode.OPFP a.

Definition fcvtlus (rd rs1 rounding : Z) (a : Asm) : Res Asm :=
  ASSERT (Supports a RV_F) ;;
  EmitRType_ffx_round Funct7.FCVTintS FcvtRs2.LU rs1 rounding rd Opcode.OPFP a.

Definition fcvtsl (rd rs1 rounding : Z) (a : Asm) : Res Asm :=
  ASSERT (Supports a RV_F) ;;
  EmitRType_fxf_round Funct7.FCVTSint FcvtRs2.L rs1 rounding rd Opcode.OPFP a.

Definition fcvtslu (rd rs1 rounding : Z) (a : Asm) : Res Asm :=
  ASSERT (Supports a RV_F) ;;
  EmitRType_fxf_round Funct7.FCVTSint FcvtRs2.LU rs1 rounding rd Opcode.OPFP a.

Definition fld (rd : Z) (addr : Address) (a : Asm) : Res Asm :=
  ASSERT (Supports a RV_D) ;;
  if Supports a RV_C && (base addr =? Reg.SP) && IsCSPLoad8Imm (offset addr)
  then c_fldsp rd addr a else
  if Supports a RV_C && IsCFRdp rd && IsCRs1p (base addr) && IsCMem8Imm (offset addr)
  then c_fld rd addr a else
  EmitIType_f (offset addr) (base addr) Funct3.D rd Opcode.LOADFP a.

Definition fsd (rs2 : Z) (addr : Address) (a : Asm) : Res Asm :=
  ASSERT (Supports a RV_D) ;;
  if Supports a RV_C && (base addr =? Reg.SP) && IsCSPStore8Imm (offset addr)
  then c_fsdsp rs2 addr a else
  if Supports a RV_C && IsCFRs2p rs2 && IsCRs1p (base addr) && IsCMem8Imm (offset addr)
  then c_fsd rs2 addr a else
  EmitSType_f (offset addr) rs2 (base addr) Funct3.D Opcode.STOREFP a.

Definition fmaddd (rd rs1 rs2 rs3 rounding : Z) (a : Asm) : Res Asm :=
  ASSERT (Supports a RV_D) ;;
  EmitR4Type rs3 Funct2.F2_D rs2 rs1 rounding rd Opcode.FMADD a.

Definition fmsubd (rd rs1 rs2 rs3 rounding : Z) (a : Asm) : Res Asm :=
  ASSERT (Supports a RV_D) ;;
  EmitR4Type rs3 Funct2.F2_D rs2 rs1 rounding rd Opcode.FMSUB a.

Definition fnmsubd (rd rs1 rs2 rs3 rounding : Z) (a : Asm) : Res Asm :=
  ASSERT (Supports a RV_D) ;;
  EmitR4Type rs3 Funct2.F2_D rs2 rs1 rounding rd Opcode.FNMSUB a.

Definition fnmaddd (rd rs1 rs2 rs3 rounding : Z) (a : Asm) : Res Asm :=
  ASSERT (Supports a RV_D) ;;
  EmitR4Type rs3 Funct2.F2_D rs2 rs1 rounding rd Opcode.FNMADD a.

Definition faddd (rd rs1 rs2 rounding : Z) (a : Asm) : Res Asm :=
  ASSERT (Supports a RV_D) ;;
  EmitRType_fff_round Funct7.FADDD rs2 rs1 rounding rd Opcode.OPFP a.

Definition fsubd (rd rs1 rs2 rounding : Z) (a : Asm) : Res Asm :=
  ASSERT (Supports a RV_D) ;;
  EmitRType_fff_round Funct7.FSUBD rs2 rs1 rounding rd Opcode.OPFP a.

Definition fmuld (rd rs1 rs2 rounding : Z) (a : Asm) : Res Asm :=
  ASSERT (Supports a RV_D) ;;
  EmitRType_fff_round Funct7.FMULD rs2 rs1 rounding rd Opcode.OPFP a.

Definition fdivd (rd rs1 rs2 rounding : Z) (a : Asm) : Res Asm :=
  ASSERT (Supports a RV_D) ;;
  EmitRType_fff_round Funct7.FDIVD rs2 rs1 rounding rd Opcode.OPFP a.

Definition fsqrtd (rd rs1 rounding : Z) (a : Asm) : Res Asm :=
  ASSERT (Supports a RV_D) ;;
  EmitRType_fff_round Funct7.FSQRTD 0 rs1 rounding rd Opcode.OPFP a.

Definition fsgnjd (rd rs1 rs2 : Z) (a : Asm) : Res Asm :=
  ASSERT (Supports a RV_D) ;;
  EmitRType_fff Funct7.FSGNJD rs2 rs1 Funct3.J rd Opcode.OPFP a.

Definition fsgnjnd (rd rs1 rs2 : Z) (a : Asm) : Res Asm :=
  ASSERT (Supports a RV_D) ;;
  EmitRType_fff Funct7.FSGNJD rs2 rs1 Funct3.JN rd Opcode.OPFP a.

Definition fsgnjxd (rd rs1 rs2 : Z) (a : Asm) : Res Asm :=
  ASSERT (Supports a RV_D) ;;
  EmitRType_fff Funct7.FSGNJD rs2 rs1 Funct3.JX rd Opcode.OPFP a.

Definition fmind (rd rs1 rs2 : Z) (a : Asm) : Res Asm :=
  ASSERT (Supports a RV_D) ;;
  EmitRType_fff Funct7.FMINMAXD rs2 rs1 Funct3.FMIN rd Opcode.OPFP a.

Definition fmaxd (rd rs1 rs2 : Z) (a : Asm) : Res Asm :=
  ASSERT (Supports a RV_D) ;;
  EmitRType_fff Funct7.FMINMAXD rs2 rs1 Funct3.FMAX rd Opcode.OPFP a.

Definition fcvtsd (rd rs1 rounding : Z) (a : Asm) : Res Asm :=
  ASSERT (Supports a RV_D) ;;
  EmitRType_fff_round Funct7.FCVTS 1 rs1 rounding rd Opcode.OPFP a.

Definition fcvtds (rd rs1 rounding : Z) (a : Asm) : Res Asm :=
  ASSERT (Supports a RV_D) ;;
  EmitRType_fff_round Funct7.FCVTD 0 rs1 rounding rd Opcode.OPFP a.

Definition feqd (rd rs1 rs2 : Z) (a : Asm) : Res Asm :=
  ASSERT (Supports a RV_D) ;;
  EmitRType_ffx Funct7.FCMPD rs2 rs1 Funct3.FEQ rd Opcode.OPFP a.

Definition fltd (rd rs1 rs2 : Z) (a : Asm) : Res Asm :=
  ASSERT (Supports a RV_D) ;;
  EmitRType_ffx Funct7.FCMPD rs2 rs1 Funct3.FLT rd Opcode.OPFP a.

Definition fled (rd rs1 rs2 : Z) (a : Asm) : Res Asm :=
  ASSERT (Supports a RV_D) ;;
  EmitRType_ffx Funct7.FCMPD rs2 rs1 Funct3.FLE rd Opcode.OPFP a.

Definition fclassd (rd rs1 : Z) (a : Asm) : Res Asm :=
  ASSERT (Supports a RV_D) ;;
  EmitRType_ffx Funct7.FCLASSD 0 rs1 Funct3.F3_1 rd Opcode.OPFP a.

Definition fcvtwd (rd rs1 rounding : Z) (a : Asm) : Res Asm :=
  ASSERT (Supports a RV_D) ;;
  EmitRType_ffx_round Funct7.FCVTintD FcvtRs2.W rs1 rounding rd Opcode.OPFP a.

Definition fcvtwud (rd rs1 rounding : Z) (a : Asm) : Res Asm :=
  ASSERT (Supports a RV_D) ;;
  EmitRType_ffx_round Funct7.FCVTintD FcvtRs2.WU rs1 rounding rd Opcode.OPFP a.

Definition fcvtdw (rd rs1 rounding : Z) (a : Asm) : Res Asm :=
  ASSERT (Supports a RV_D) ;;
  EmitRType_fxf_round Funct7.FCVTDint FcvtRs2.W rs1 rounding rd Opcode.OPFP a.

Definition fcvtdwu (rd rs1 rounding : Z) (a : Asm) : Res Asm :=
  ASSERT (Supports a RV_D) ;;
  EmitRType_fxf_round Funct7.FCVTDint FcvtRs2.WU rs1 rounding rd Opcode.OPFP a.

Definition fcvtld (rd rs1 rounding : Z) (a : Asm) : Res Asm :=
  ASSERT (Supports a RV_D) ;;
  EmitRType_ffx_round Funct7.FCVTintD FcvtRs2.L rs1 rounding rd Opcode.OPFP a.

Definition fcvtlud (rd rs1 rounding : Z) (a : Asm) : Res Asm :=
  ASSERT (Supports a RV_D) ;;
  EmitRType_ffx_round Funct7.FCVTintD FcvtRs2.LU rs1 rounding rd Opcode.OPFP a.

Definition fmvxd (rd rs1 : Z) (a : Asm) : Res Asm :=
  ASSERT (Supports a RV_D) ;;
  EmitRType_ffx Funct7.FMVXD 0 rs1 Funct3.F3_0 rd Opcode.OPFP a.

Definition fcvtdl (rd rs1 rounding : Z) (a : Asm) : Res Asm :=
  ASSERT (Supports a RV_D) ;;
  EmitRType_fxf_round Funct7.FCVTDint FcvtRs2.L rs1 rounding rd Opcode.OPFP a.

Definition fcvtdlu (rd rs1 rounding : Z) (a : Asm) : Res Asm :=
  ASSERT (Supports a RV_D) ;;
  EmitRType_fxf_round Funct7.FCVTDint FcvtRs2.LU rs1 rounding rd Opcode.OPFP a.

Definition fmvdx (rd rs1 : Z) (a : Asm) : Res Asm :=
  ASSERT (Supports a RV_D) ;;
  EmitRType_fxf Funct7.FMVDX 0 rs1 Funct3.F3_0 rd Opcode.OPFP a.

Definition adduw (rd rs1 rs2 : Z) (a : Asm) : Res Asm :=
  ASSERT (Supports a RV_Zba) ;;
  EmitRType Funct7.ADDUW rs2 rs1 Funct3.F3_0 rd Opcode.OP32 a.

Definition sh1add (rd rs1 rs2 : Z) (a : Asm) : Res Asm :=
  ASSERT (Supports a RV_Zba) ;;
  EmitRType Funct7.SHADD rs2 rs1 Funct3.SH1ADD rd Opcode.OP a.

Definition sh1adduw (rd rs1 rs2 : Z) (a : Asm) : Res Asm :=
  ASSERT (Supports a RV_Zba) ;;
  EmitRType Funct7.SHADD rs2 rs1 Funct3.SH1ADD rd Opcode.OP32 a.

Definition sh2add (rd rs1 rs2 : Z) (a : Asm) : Res Asm :=
  ASSERT (Supports a RV_Zba) ;;
  EmitRType Funct7.SHADD rs2 rs1 Funct3.SH2ADD rd Opcode.OP a.

Definition sh2adduw (rd rs1 rs2 : Z) (a : Asm) : Res Asm :=
  ASSERT (Supports a RV_Zba) ;;
  EmitRType Funct7.SHADD rs2 rs1 Funct3.SH2ADD rd Opcode.OP32 a.

Definition sh3add (rd rs1 rs2 : Z) (a : Asm) : Res Asm :=
  ASSERT (Supports a RV_Zba) ;;
  EmitRType Funct7.SHADD rs2 rs1 Funct3.SH3ADD rd Opcode.OP a.

Definition sh3adduw (rd rs1 rs2 : Z) (a : Asm) : Res Asm :=
  ASSERT (Supports a RV_Zba) ;;
  EmitRType Funct7.SHADD rs2 rs1 Funct3.SH3ADD rd Opcode.OP32 a.

Definition slliuw (rd rs1 shamt : Z) (a : Asm) : Res Asm :=
  ASSERT ((0 <? shamt) && (shamt <? 32)) ;;
  ASSERT (Supports a RV_Zba) ;;
  EmitRType_shamt Funct7.SLLIUW shamt rs1 Funct3.SLLI rd Opcode.OPIMM32 a.

Definition andn (rd rs1 rs2 : Z) (a : Asm) : Res Asm :=
  ASSERT (Supports a RV_Zbb) ;;
  EmitRType Funct7.SUB rs2 rs1 Funct3.AND rd Opcode.OP a.

Definition orn (rd rs1 rs2 : Z) (a : Asm) : Res Asm :=
  ASSERT (Supports a RV_Zbb) ;;
  EmitRType Funct7.SUB rs2 rs1 Funct3.OR rd Opcode.OP a.

Definition xnor (rd rs1 rs2 : Z) (a : Asm) : Res Asm :=
  ASSERT (Supports a RV_Zbb) ;;
  EmitRType Funct7.SUB rs2 rs1 Funct3.XOR rd Opcode.OP a.

Definition clz (rd rs1 : Z) (a : Asm) : Res Asm :=
  ASSERT (Supports a RV_Zbb) ;;
  EmitRType_shamt Funct7.COUNT 0 rs1 Funct3.F3_COUNT rd Opcode.OPIMM a.

Definition clzw (rd rs1 : Z) (a : Asm) : Res Asm :=
  ASSERT (Supports a RV_Zbb) ;;
  EmitRType_shamt Funct7.COUNT 0 rs1 Funct3.F3_COUNT rd Opcode.OPIMM32 a.

Definition ctz (rd rs1 : Z) (a : Asm) : Res Asm :=
  ASSERT (Supports a RV_Zbb) ;;
  EmitRType_shamt Funct7.COUNT 1 rs1 Funct3.F3_COUNT rd Opcode.OPIMM a.

Definition ctzw (rd rs1 : Z) (a : Asm) : Res Asm :=
  ASSERT (Supports a RV_Zbb) ;;
  EmitRType_shamt Funct7.COUNT 1 rs1 Funct3.F3_COUNT rd Opcode.OPIMM32 a.

Definition cpop (rd rs1 : Z) (a : Asm) : Res Asm :=
  ASSERT (Supports a RV_Zbb) ;;
  EmitRType_shamt Funct7.COUNT 2 rs1 Funct3.F3_COUNT rd Opcode.OPIMM a.

Definition cpopw (rd rs1 : Z) (a : Asm) : Res Asm :=
  ASSERT (Supports a RV_Zbb) ;;
  EmitRType_shamt Funct7.COUNT 2 rs1 Funct3.F3_COUNT rd Opcode.OPIMM32 a.

Definition max (rd rs1 rs2 : Z) (a : Asm) : Res Asm :=
  ASSERT (Supports a RV_Zbb) ;;
  EmitRType Funct7.MINMAXCLMUL rs2 rs1 Funct3.MAX rd Opcode.OP a.

Definition maxu (rd rs1 rs2 : Z) (a : Asm) : Res Asm :=
  ASSERT (Supports a RV_Zbb) ;;
  EmitRType Funct7.MINMAXCLMUL rs2 rs1 Funct3.MAXU rd Opcode.OP a.

Definition min (rd rs1 rs2 : Z) (a : Asm) : Res Asm :=
  ASSERT (Supports a RV_Zbb) ;;
  EmitRType Funct7.MINMAXCLMUL rs2 rs1 Funct3.MIN rd Opcode.OP a.

Definition minu (rd rs1 rs2 : Z) (a : Asm) : Res Asm :=
  ASSERT (Supports a RV_Zbb) ;;
  EmitRType Funct7.MINMAXCLMUL rs2 rs1 Funct3.MINU rd Opcode.OP a.

Definition sextb (rd rs1 : Z) (a : Asm) : Res Asm :=
  ASSERT (Supports a RV_Zbb) ;;
  EmitRType_shamt 48 4 rs1 Funct3.SEXT rd Opcode.OPIMM a.

Definition sexth (rd rs1 : Z) (a : Asm) : Res Asm :=
  ASSERT (Supports a RV_Zbb) ;;
  EmitRType_shamt 48 5 rs1 Funct3.SEXT rd Opcode.OPIMM a.

Definition zexth (rd rs1 : Z) (a : Asm) : Res Asm :=
  ASSERT (Supports a RV_Zbb) ;;
  if (XLEN =? 32)
  then EmitRType_shamt 4 0 rs1 Funct3.ZEXT rd Opcode.OP a else
  if (XLEN =? 64)
  then EmitRType_shamt 4 0 rs1 Funct3.ZEXT rd Opcode.OP32 a else
  Err Unimplemented.

Definition rol (rd rs1 rs2 : Z) (a : Asm) : Res Asm :=
  ASSERT (Supports a RV_Zbb) ;;
  EmitRType Funct7.ROTATE rs2 rs1 Funct3.ROL rd Opcode.OP a.

Definition rolw (rd rs1 rs2 : Z) (a : Asm) : Res Asm :=
  ASSERT (Supports a RV_Zbb) ;;
  EmitRType Funct7.ROTATE rs2 rs1 Funct3.ROL rd Opcode.OP32 a.

Definition ror (rd rs1 rs2 : Z) (a : Asm) : Res Asm :=
  ASSERT (Supports a RV_Zbb) ;;
  EmitRType Funct7.ROTATE rs2 rs1 Funct3.ROR rd Opcode.OP a.

Definition rori (rd rs1 shamt : Z) (a : Asm) : Res Asm :=
  ASSERT (Supports a RV_Zbb) ;;
  EmitRType_shamt Funct7.ROTATE shamt rs1 Funct3.ROR rd Opcode.OPIMM a.

Definition roriw (rd rs1 shamt : Z) (a : Asm) : Res Asm :=
  ASSERT (Supports a RV_Zbb) ;;
  EmitRType_shamt Funct7.ROTATE shamt rs1 Funct3.ROR rd Opcode.OPIMM32 a.

Definition rorw (rd rs1 rs2 : Z) (a : Asm) : Res Asm :=
  ASSERT (Supports a RV_Zbb) ;;
  EmitRType Funct7.ROTATE rs2 rs1 Funct3.ROR rd Opcode.OP32 a.

Definition orcb (rd rs1 : Z) (a : Asm) : Res Asm :=
  ASSERT (Supports a RV_Zbb) ;;
  EmitRType_shamt 20 7 rs1 5 rd Opcode.OPIMM a.

Definition rev8 (rd rs1 : Z) (a : Asm) : Res Asm :=
  ASSERT (Supports a RV_Zbb) ;;
  if (XLEN =? 32)
  then EmitRType_shamt 52 24 rs1 5 rd Opcode.OPIMM a else
  if (XLEN =? 64)
  then EmitRType_shamt 53 24 rs1 5 rd Opcode.OPIMM a else
  Err Unimplemented.

Definition clmul (rd rs1 rs2 : Z) (a : Asm) : Res Asm :=
  ASSERT (Supports a RV_Zbc) ;;
  EmitRType Funct7.MINMAXCLMUL rs2 rs1 Funct3.CLMUL rd Opcode.OP a.

Definition clmulh (rd rs1 rs2 : Z) (a : Asm) : Res Asm :=
  ASSERT (Supports a RV_Zbc) ;;
  EmitRType Funct7.MINMAXCLMUL rs2 rs1 Funct3.CLMULH rd Opcode.OP a.

Definition clmulr (rd rs1 rs2 : Z) (a : Asm) : Res Asm :=
  ASSERT (Supports a RV_Zbc) ;;
  EmitRType Funct7.MINMAXCLMUL rs2 rs1 Funct3.CLMULR rd Opcode.OP a.

Definition bclr (rd rs1 rs2 : Z) (a : Asm) : Res Asm :=
  ASSERT (Supports a RV_Zbs) ;;
  EmitRType Funct7.BCLRBEXT rs2 rs1 Funct3.BCLR rd Opcode.OP a.

Definition bclri (rd rs1 shamt : Z) (a : Asm) : Res Asm :=
  ASSERT (Supports a RV_Zbs) ;;
  EmitRType_shamt Funct7.BCLRBEXT shamt rs1 Funct3.BCLR rd Opcode.OPIMM a.

Definition bext (rd rs1 rs2 : Z) (a : Asm) : Res Asm :=
  ASSERT (Supports a RV_Zbs) ;;
  EmitRType Funct7.BCLRBEXT rs2 rs1 Funct3.BEXT rd Opcode.OP a.

Definition bexti (rd rs1 shamt : Z) (a : Asm) : Res Asm :=
  ASSERT (Supports a RV_Zbs) ;;
  EmitRType_shamt Funct7.BCLRBEXT shamt rs1 Funct3.BEXT rd Opcode.OPIMM a.

Definition binv (rd rs1 rs2 : Z) (a : Asm) : Res Asm :=
  ASSERT (Supports a RV_Zbs) ;;
  EmitRType Funct7.BINV rs2 rs1 Funct3.F3_BINV rd Opcode.OP a.

Definition binvi (rd rs1 shamt : Z) (a : Asm) : Res Asm :=
  ASSERT (Supports a RV_Zbs) ;;
  EmitRType_shamt Funct7.BINV shamt rs1 Funct3.F3_BINV rd Opcode.OPIMM a.

Definition bset (rd rs1 rs2 : Z) (a : Asm) : Res Asm :=
  ASSERT (Supports a RV_Zbs) ;;
  EmitRType Funct7.BSET rs2 rs1 Funct3.F3_BSET rd Opcode.OP a.

Definition bseti (rd rs1 shamt : Z) (a : Asm) : Res Asm :=
  ASSERT (Supports a RV_Zbs) ;;
  EmitRType_shamt Funct7.BSET shamt rs1 Funct3.F3_BSET rd Opcode.OPIMM a.

Definition trap (a : Asm) : Res Asm :=
  ASSERT (Supports a RV_I) ;;
  if Supports a RV_C then Emit16 0 a else Emit32 0 a.

(** ** Pseudo-instructions (assembler_riscv.h) *)

Definition jalr_link (rs1 offset : Z) : Asm -> Res Asm := jalr Reg.RA rs1 offset.
Definition jr (rs1 offset : Z) : Asm -> Res Asm := jalr Reg.ZR rs1 offset.
Definition ret : Asm -> Res Asm := jalr Reg.ZR Reg.RA 0.
Definition subi (rd rs1 imm : Z) : Asm -> Res Asm := addi rd rs1 (- imm).
Definition fence_all : Asm -> Res Asm := fence HartEffects.kAll HartEffects.kAll.
Definition csrr (rd csr : Z) : Asm -> Res Asm := csrrs rd csr Reg.ZR.
Definition csrw (csr rs : Z) : Asm -> Res Asm := csrrw Reg.ZR csr rs.
Definition csrs (csr rs : Z) : Asm -> Res Asm := csrrs Reg.ZR csr rs.
Definition csrc (csr rs : Z) : Asm -> Res Asm := csrrc Reg.ZR csr rs.
Definition csrwi (csr imm : Z) : Asm -> Res Asm := csrrwi Reg.ZR csr imm.
Definition csrsi (csr imm : Z) : Asm -> Res Asm := csrrsi Reg.ZR csr imm.
Definition csrci (csr imm : Z) : Asm -> Res Asm := csrrci Reg.ZR csr imm.
Definition nop : Asm -> Res Asm := addi Reg.ZR Reg.ZR 0.
Definition li (rd imm : Z) : Asm -> Res Asm := addi rd Reg.ZR imm.
Definition mv (rd rs : Z) : Asm -> Res Asm := addi rd rs 0.
Definition not_ (rd rs : Z) : Asm -> Res Asm := xori rd rs (-1).
Definition neg (rd rs : Z) : Asm -> Res Asm := sub rd Reg.ZR rs.
Definition snez (rd rs : Z) : Asm -> Res Asm := sltu rd Reg.ZR rs.
Definition seqz (rd rs : Z) : Asm -> Res Asm := sltiu rd rs 1.
Definition sltz (rd rs : Z) : Asm -> Res Asm := slt rd rs Reg.ZR.
Definition sgtz (rd rs : Z) : Asm -> Res Asm := slt rd Reg.ZR rs.
Definition subiw (rd rs1 imm : Z) : Asm -> Res Asm := addiw rd rs1 (- imm).
Definition negw (rd rs : Z) : Asm -> Res Asm := subw rd Reg.ZR rs.
Definition sextw (rd rs : Z) : Asm -> Res Asm := addiw rd rs 0.
(** [lx] and [sx]: the loads and stores of a full register. *)
Definition lx (rd : Z) (addr : Address) (a : Asm) : Res Asm :=
  if XLEN =? 32 then lw rd addr a else ld rd addr a.
Definition sx_ (rs2 : Z) (addr : Address) (a : Asm) : Res Asm :=
  if XLEN =? 32 then sw rs2 addr a else sd rs2 addr a.
Definition fgts (rd rs1 rs2 : Z) : Asm -> Res Asm := flts rd rs2 rs1.
Definition fges (rd rs1 rs2 : Z) : Asm -> Res Asm := fles rd rs2 rs1.
Definition fmvs (rd rs : Z) : Asm -> Res Asm := fsgnjs rd rs rs.
Definition fabss (rd rs : Z) : Asm -> Res Asm := fsgnjxs rd rs rs.
Definition fnegs (rd rs : Z) : Asm -> Res Asm := fsgnjns rd rs rs.
Definition fgtd (rd rs1 rs2 : Z) : Asm -> Res Asm := fltd rd rs2 rs1.
Definition fged (rd rs1 rs2 : Z) : Asm -> Res Asm := fled rd rs2 rs1.
Definition fmvd (rd rs : Z) : Asm -> Res Asm := fsgnjd rd rs rs.
Definition fabsd (rd rs : Z) : Asm -> Res Asm := fsgnjxd rd rs rs.
Definition fnegd (rd rs : Z) : Asm -> Res Asm := fsgnjnd rd rs rs.

End Instructions.
End MicroAssembler.
