(* ===== verification/AsmBranch.v ===== *)
(** * AsmBranch: labels, branches and jumps of the assembler
    (runtime/vm/compiler/assembler/assembler_base.h, assembler_riscv.{h,cc})

    A label is bound to a position or heads lists of unresolved forward
    branches threaded through the emitted code: the offset field of each
    pending branch holds the distance back to the previous one, 0 at the end.
    The methods here take the label and return it with the assembler. *)

From stdpp Require Import base numbers list gmap.
From S2P Require Import Prelude Constants Encoding CEncoding AsmBuffer MicroAsm.

#[local] Open Scope Z_scope.
#[local] Open Scope res_scope.

Record Label : Type := mkLabel {
  position_ : Z;
  unresolved_cb_ : Z;
  unresolved_cj_ : Z;
  unresolved_b_ : Z;
  unresolved_j_ : Z;
  unresolved_far_ : Z
}.

Definition new_Label : Label := mkLabel (-1) (-1) (-1) (-1) (-1) (-1).

Definition IsBound (l : Label) : bool := negb (position_ l =? -1).
Definition IsLinked (l : Label) : bool :=
  negb (unresolved_cb_ l =? -1) || negb (unresolved_cj_ l =? -1) ||
  negb (unresolved_b_ l =? -1) || negb (unresolved_j_ l =? -1) ||
  negb (unresolved_far_ l =? -1).
Definition IsUnused (l : Label) : bool := negb (IsBound l) && negb (IsLinked l).

(** The five lists of a label. *)
Inductive branch_class : Set := cb | cj | b | j | far.

Definition unresolved (c : branch_class) (l : Label) : Z :=
  match c with
  | cb => unresolved_cb_ l | cj => unresolved_cj_ l | b => unresolved_b_ l
  | j => unresolved_j_ l | far => unresolved_far_ l
  end.
Definition set_unresolved (c : branch_class) (v : Z) (l : Label) : Label :=
  let '(mkLabel p vcb vcj vb vj vfar) := l in
  match c with
  | cb => mkLabel p v vcj vb vj vfar
  | cj => mkLabel p vcb v vb vj vfar
  | b => mkLabel p vcb vcj v vj vfar
  | j => mkLabel p vcb vcj vb v vfar
  | far => mkLabel p vcb vcj vb vj v
  end.

Inductive JumpDistance : Set := kFarJump | kNearJump.

#[export] Instance branch_class_eq_dec : EqDecision branch_class.
Proof. solve_decision. Defined.
#[export] Instance JumpDistance_eq_dec : EqDecision JumpDistance.
Proof. solve_decision. Defined.

Section AsmBranch.
Context `{Target}.

Definition LabelPosition (l : Label) : Res Z := ASSERT (IsBound l) ;; Ok (position_ l).

Definition BindTo (position : Z) (l : Label) : Res Label :=
  ASSERT (negb (IsBound l)) ;;
  ASSERT (negb (IsLinked l)) ;;
  let '(mkLabel _ vcb vcj vb vj vfar) := l in
  let l := mkLabel (s32 position) vcb vcj vb vj vfar in
  ASSERT (IsBound l) ;; Ok l.

(** [link_cb], [link_cj], [link_b], [link_j] and [link_far]: the offset to
    encode, and the label with the new head. *)
Definition link (c : branch_class) (position : Z) (l : Label) : Res (Z * Label) :=
  let position := s32 position in
  ASSERT (unresolved c l <? position) ;;
  let* offset :=
    (if unresolved c l =? -1 then Ok 0
     else let offset := position - unresolved c l in ASSERT (0 <? offset) ;; Ok offset) in
  Ok (offset, set_unresolved c position l).

(** ** Branch emission *)

Definition InvertFunct3 (func : Z) : Res Z :=
  if func =? Funct3.BEQ then Ok Funct3.BNE
  else if func =? Funct3.BNE then Ok Funct3.BEQ
  else if func =? Funct3.BGE then Ok Funct3.BLT
  else if func =? Funct3.BGEU then Ok Funct3.BLTU
  else if func =? Funct3.BLT then Ok Funct3.BGE
  else if func =? Funct3.BLTU then Ok Funct3.BGEU
  else Err Unreachable.

(** The auipc/jalr pair through FAR_TMP. *)
Definition EmitFarJump (offset : Z) (a : Asm) : Res Asm :=
  let lo := ImmLo offset in
  let hi := ImmHi offset in
  if negb (IsUTypeImm hi) then Err BranchDistanceExceeds2GB else
  let* a := EmitUType hi FAR_TMP Opcode.AUIPC a in
  EmitIType lo FAR_TMP Funct3.F3_0 Reg.ZR Opcode.JALR a.

(** A branch over a longer jump: the inverted branch skips [length] bytes. *)
Definition EmitBranchOver (length rs1 rs2 func : Z) (jump : Asm -> Res (Label * Asm)) (a : Asm)
    : Res (Label * Asm) :=
  let start := Position a in
  let* inverted := InvertFunct3 func in
  let* a := EmitBType length rs2 rs1 inverted Opcode.BRANCH a in
  let* la := jump a in
  ASSERT (Position la.2 - start =? length) ;;
  Ok la.

Definition EmitBranch (rs1 rs2 : Z) (label : Label) (func : Z) (distance : JumpDistance)
    (a : Asm) : Res (Label * Asm) :=
  if IsBound label then
    let* target := LabelPosition label in
    let offset := target - Position a in
    if IsBTypeImm offset then
      let* a := EmitBType offset rs2 rs1 func Opcode.BRANCH a in Ok (label, a)
    else if IsJTypeImm (offset + 4) then
      EmitBranchOver 8 rs1 rs2 func
        (fun a => let* a := EmitJType (target - Position a) Reg.ZR Opcode.JAL a in
                  Ok (label, a)) a
    else
      EmitBranchOver 12 rs1 rs2 func
        (fun a => let* a := EmitFarJump (target - Position a) a in Ok (label, a)) a
  else
    if decide (distance = kNearJump) then
      let* ol := link b (Position a) label in
      if negb (IsBTypeImm ol.1) then Err IncorrectNearJump else
      let* a := EmitBType ol.1 rs2 rs1 func Opcode.BRANCH a in Ok (ol.2, a)
    else if far_branch_level_ a =? 0 then
      let* ol := link b (Position a) label in
      if negb (IsBTypeImm ol.1) then Err BranchOffsetBailout else
      let* a := EmitBType ol.1 rs2 rs1 func Opcode.BRANCH a in Ok (ol.2, a)
    else if far_branch_level_ a =? 1 then
      EmitBranchOver 8 rs1 rs2 func
        (fun a => let* ol := link j (Position a) label in
                  let* a := EmitJType ol.1 Reg.ZR Opcode.JAL a in Ok (ol.2, a)) a
    else
      EmitBranchOver 12 rs1 rs2 func
        (fun a => let* ol := link far (Position a) label in
                  let* a := EmitFarJump ol.1 a in Ok (ol.2, a)) a.

Definition EmitJump (rd : Z) (label : Label) (op : Z) (distance : JumpDistance) (a : Asm)
    : Res (Label * Asm) :=
  if IsBound label then
    let* target := LabelPosition label in
    let offset := target - Position a in
    if IsJTypeImm offset then
      let* a := EmitJType offset rd Opcode.JAL a in Ok (label, a)
    else
      let* a := EmitFarJump offset a in Ok (label, a)
  else
    if decide (distance = kNearJump) then
      let* ol := link j (Position a) label in
      if negb (IsJTypeImm ol.1) then Err IncorrectNearJump else
      let* a := EmitJType ol.1 rd Opcode.JAL a in Ok (ol.2, a)
    else if far_branch_level_ a <? 2 then
      let* ol := link j (Position a) label in
      if negb (IsJTypeImm ol.1) then Err BranchOffsetBailout else
      let* a := EmitJType ol.1 rd Opcode.JAL a in Ok (ol.2, a)
    else
      let* ol := link far (Position a) label in
      let* a := EmitFarJump ol.1 a in Ok (ol.2, a).

(** The offset of a compressed branch, and the label after it. *)
Definition CBranchOffset (c : branch_class) (label : Label) (a : Asm) : Res (Z * Label) :=
  if IsBound label then
    let* target := LabelPosition label in Ok (target - Position a, label)
  else link c (Position a) label.

Definition EmitCBranch (rs1p : Z) (label : Label) (op : Z) (a : Asm) : Res (Label * Asm) :=
  let* ol := CBranchOffset cb label a in
  if negb (IsCBImm ol.1) then Err IncorrectNearJump else
  let* e1 := EncodeCRs1p rs1p in
  let* e2 := EncodeCBImm ol.1 in
  let* a := Emit16 (Z.lor (Z.lor op e1) e2) a in Ok (ol.2, a).

Definition EmitCJump (label : Label) (op : Z) (a : Asm) : Res (Label * Asm) :=
  let* ol := CBranchOffset cj label a in
  if negb (IsCJImm ol.1) then Err IncorrectNearJump else
  let* e1 := EncodeCJImm ol.1 in
  let* a := Emit16 (Z.lor op e1) a in Ok (ol.2, a).

(** ** The branch instructions *)

Definition c_j (label : Label) (a : Asm) : Res (Label * Asm) :=
  ASSERT (Supports a RV_C) ;; EmitCJump label COpcode.C_J a.
Definition c_jal (label : Label) (a : Asm) : Res (Label * Asm) :=
  ASSERT (Supports a RV_C) ;; EmitCJump label COpcode.C_JAL a.
Definition c_beqz (rs1p : Z) (label : Label) (a : Asm) : Res (Label * Asm) :=
  ASSERT (Supports a RV_C) ;; EmitCBranch rs1p label COpcode.C_BEQZ a.
Definition c_bnez (rs1p : Z) (label : Label) (a : Asm) : Res (Label * Asm) :=
  ASSERT (Supports a RV_C) ;; EmitCBranch rs1p label COpcode.C_BNEZ a.

(** Whether a compressed form may be chosen: the distance is known to be
    short. *)
Definition near (IsImm : Z -> bool) (label : Label) (distance : JumpDistance) (a : Asm) : bool :=
  bool_decide (distance = kNearJump) ||
  (IsBound label && IsImm (position_ label - Position a)).

Definition jal (rd : Z) (label : Label) (distance : JumpDistance) (a : Asm) : Res (Label * Asm) :=
  ASSERT (Supports a RV_I) ;;
  if Supports a RV_C && near IsCJImm label distance a && (rd =? Reg.ZR) then c_j label a else
  if (XLEN =? 32) && Supports a RV_C && near IsCJImm label distance a && (rd =? Reg.RA)
  then c_jal label a else
  EmitJump rd label Opcode.JAL distance a.

Definition beq (rs1 rs2 : Z) (label : Label) (distance : JumpDistance) (a : Asm) : Res (Label * Asm) :=
  ASSERT (Supports a RV_I) ;;
  if Supports a RV_C && near IsCBImm label distance a && (rs1 =? Reg.ZR) && IsCRs1p rs2
  then c_beqz rs2 label a else
  if Supports a RV_C && near IsCBImm label distance a && (rs2 =? Reg.ZR) && IsCRs1p rs1
  then c_beqz rs1 label a else
  EmitBranch rs1 rs2 label Funct3.BEQ distance a.

Definition bne (rs1 rs2 : Z) (label : Label) (distance : JumpDistance) (a : Asm) : Res (Label * Asm) :=
  ASSERT (Supports a RV_I) ;;
  if Supports a RV_C && near IsCBImm label distance a && (rs1 =? Reg.ZR) && IsCRs1p rs2
  then c_bnez rs2 label a else
  if Supports a RV_C && near IsCBImm label distance a && (rs2 =? Reg.ZR) && IsCRs1p rs1
  then c_bnez rs1 label a else
  EmitBranch rs1 rs2 label Funct3.BNE distance a.

Definition blt (rs1 rs2 : Z) (label : Label) (distance : JumpDistance) (a : Asm) : Res (Label * Asm) :=
  ASSERT (Supports a RV_I) ;; EmitBranch rs1 rs2 label Funct3.BLT distance a.
Definition bge (rs1 rs2 : Z) (label : Label) (distance : JumpDistance) (a : Asm) : Res (Label * Asm) :=
  ASSERT (Supports a RV_I) ;; EmitBranch rs1 rs2 label Funct3.BGE distance a.
Definition bltu (rs1 rs2 : Z) (label : Label) (distance : JumpDistance) (a : Asm) : Res (Label * Asm) :=
  ASSERT (Supports a RV_I) ;; EmitBranch rs1 rs2 label Funct3.BLTU distance a.
Definition bgeu (rs1 rs2 : Z) (label : Label) (distance : JumpDistance) (a : Asm) : Res (Label * Asm) :=
  EmitBranch rs1 rs2 label Funct3.BGEU distance a.

(** The pseudo-instructions on labels (assembler_riscv.h). *)
Definition jal_link (label : Label) (d : JumpDistance) : Asm -> Res (Label * Asm) :=
  jal Reg.RA label d.
Definition j_ (label : Label) (d : JumpDistance) : Asm -> Res (Label * Asm) := jal Reg.ZR label d.
Definition bgt (rs1 rs2 : Z) (l : Label) (d : JumpDistance) : Asm -> Res (Label * Asm) :=
  blt rs2 rs1 l d.
Definition ble (rs1 rs2 : Z) (l : Label) (d : JumpDistance) : Asm -> Res (Label * Asm) :=
  bge rs2 rs1 l d.
Definition bgtu (rs1 rs2 : Z) (l : Label) (d : JumpDistance) : Asm -> Res (Label * Asm) :=
  bltu rs2 rs1 l d.
Definition bleu (rs1 rs2 : Z) (l : Label) (d : JumpDistance) : Asm -> Res (Label * Asm) :=
  bgeu rs2 rs1 l d.
Definition beqz (rs : Z) (l : Label) (d : JumpDistance) : Asm -> Res (Label * Asm) :=
  beq rs Reg.ZR l d.
Definition bnez (rs : Z) (l : Label) (d : JumpDistance) : Asm -> Res (Label * Asm) :=
  bne rs Reg.ZR l d.
Definition blez (rs : Z) (l : Label) (d : JumpDistance) : Asm -> Res (Label * Asm) :=
  bge Reg.ZR rs l d.
Definition bgez (rs : Z) (l : Label) (d : JumpDistance) : Asm -> Res (Label * Asm) :=
  bge rs Reg.ZR l d.
Definition bltz (rs : Z) (l : Label) (d : JumpDistance) : Asm -> Res (Label * Asm) :=
  blt rs Reg.ZR l d.
Definition bgtz (rs : Z) (l : Label) (d : JumpDistance) : Asm -> Res (Label * Asm) :=
  blt Reg.ZR rs l d.

(** ** Binding a label *)

(** Each returns the old offset and the patched buffer. *)
Definition UpdateCBOffset (branch_position new_offset : Z) (a : Asm) : Res (Z * Asm) :=
  let* instr := Read16 branch_position a in
  ASSERT ((CInstr.opcode instr =? COpcode.C_BEQZ) || (CInstr.opcode instr =? COpcode.C_BNEZ)) ;;
  let old_offset := CInstr.b_imm instr in
  if negb (IsCBImm new_offset) then Err IncorrectNearJump else
  let* e1 := EncodeCRs1p (CInstr.rs1p instr) in
  let* e2 := EncodeCBImm new_offset in
  let* a := Write16 branch_position (Z.lor (Z.lor (CInstr.opcode instr) e1) e2) a in
  Ok (old_offset, a).

Definition UpdateCJOffset (branch_position new_offset : Z) (a : Asm) : Res (Z * Asm) :=
  let* instr := Read16 branch_position a in
  ASSERT ((CInstr.opcode instr =? COpcode.C_J) || (CInstr.opcode instr =? COpcode.C_JAL)) ;;
  let old_offset := CInstr.j_imm instr in
  if negb (IsCJImm new_offset) then Err IncorrectNearJump else
  let* e1 := EncodeCJImm new_offset in
  let* a := Write16 branch_position (Z.lor (CInstr.opcode instr) e1) a in
  Ok (old_offset, a).

Definition UpdateBOffset (branch_position new_offset : Z) (a : Asm) : Res (Z * Asm) :=
  let* instr := Read32 branch_position a in
  ASSERT (Instr.opcode instr =? Opcode.BRANCH) ;;
  let old_offset := Instr.btype_imm instr in
  if negb (IsBTypeImm new_offset) then Err BranchOffsetBailout else
  let* e1 := EncodeRs2 (Instr.rs2 instr) in
  let* e2 := EncodeRs1 (Instr.rs1 instr) in
  let* e3 := EncodeFunct3 (Instr.funct3 instr) in
  let* e4 := EncodeOpcode (Instr.opcode instr) in
  let* e5 := EncodeBTypeImm new_offset in
  let* a := Write32 branch_position (Z.lor (Z.lor (Z.lor (Z.lor e1 e2) e3) e4) e5) a in
  Ok (old_offset, a).

Definition UpdateJOffset (branch_position new_offset : Z) (a : Asm) : Res (Z * Asm) :=
  let* instr := Read32 branch_position a in
  ASSERT (Instr.opcode instr =? Opcode.JAL) ;;
  let old_offset := Instr.jtype_imm instr in
  if negb (IsJTypeImm new_offset) then Err BranchOffsetBailout else
  let* e1 := EncodeRd (Instr.rd instr) in
  let* e2 := EncodeOpcode (Instr.opcode instr) in
  let* e3 := EncodeJTypeImm new_offset in
  let* a := Write32 branch_position (Z.lor (Z.lor e1 e2) e3) a in
  Ok (old_offset, a).

Definition UpdateFarOffset (branch_position new_offset : Z) (a : Asm) : Res (Z * Asm) :=
  let* auipc_instr := Read32 branch_position a in
  ASSERT (Instr.opcode auipc_instr =? Opcode.AUIPC) ;;
  ASSERT (Instr.rd auipc_instr =? FAR_TMP) ;;
  let* jr_instr := Read32 (branch_position + 4) a in
  ASSERT (Instr.opcode jr_instr =? Opcode.JALR) ;;
  ASSERT (Instr.rd jr_instr =? Reg.ZR) ;;
  ASSERT (Instr.funct3 jr_instr =? Funct3.F3_0) ;;
  ASSERT (Instr.rs1 jr_instr =? FAR_TMP) ;;
  let old_offset := Instr.utype_imm auipc_instr + Instr.itype_imm jr_instr in
  let lo := ImmLo new_offset in
  let hi := ImmHi new_offset in
  if negb (IsUTypeImm hi) then Err BranchDistanceExceeds2GB else
  let* e1 := EncodeUTypeImm hi in
  let* e2 := EncodeRd FAR_TMP in
  let* e3 := EncodeOpcode Opcode.AUIPC in
  let* a := Write32 branch_position (Z.lor (Z.lor e1 e2) e3) a in
  let* e1 := EncodeITypeImm lo in
  let* e2 := EncodeRs1 FAR_TMP in
  let* e3 := EncodeFunct3 Funct3.F3_0 in
  let* e4 := EncodeRd Reg.ZR in
  let* e5 := EncodeOpcode Opcode.JALR in
  let* a := Write32 (branch_position + 4) (Z.lor (Z.lor (Z.lor (Z.lor e1 e2) e3) e4) e5) a in
  Ok (old_offset, a).

Definition UpdateOffset (c : branch_class) : Z -> Z -> Asm -> Res (Z * Asm) :=
  match c with
  | cb => UpdateCBOffset | cj => UpdateCJOffset | b => UpdateBOffset
  | j => UpdateJOffset | far => UpdateFarOffset
  end.

(** The loop of the BIND macro.  Every offset of a list is positive, so a
    list has at most one branch per byte of the buffer. *)
Fixpoint BIND_loop (fuel : nat) (c : branch_class) (target branch_position : Z) (a : Asm)
    : Res Asm :=
  if 0 <=? branch_position then
    match fuel with
    | O => Err OutOfFuel
    | S fuel =>
      ASSERT (IsAligned branch_position (if Supports a RV_C then 2 else 4)) ;;
      let new_offset := target - branch_position in
      ASSERT (IsAligned new_offset (if Supports a RV_C then 2 else 4)) ;;
      let* oa := UpdateOffset c branch_position new_offset a in
      if oa.1 =? 0 then Ok oa.2
      else BIND_loop fuel c target (branch_position - oa.1) oa.2
    end
  else Ok a.

Definition BIND (c : branch_class) (target : Z) (la : Label * Asm) : Res (Label * Asm) :=
  let '(l, a) := la in
  let* a := BIND_loop (S (length (buffer_ a))) c target (unresolved c l) a in
  Ok (set_unresolved c (-1) l, a).

Definition Bind (label : Label) (a : Asm) : Res (Label * Asm) :=
  ASSERT (negb (IsBound label)) ;;
  let target_position := Position a in
  let* la := BIND cb target_position (label, a) in
  let* la := BIND cj target_position la in
  let* la := BIND b target_position la in
  let* la := BIND j target_position la in
  let* la := BIND far target_position la in
  let* l := BindTo target_position la.1 in
  Ok (l, la.2).

End AsmBranch.
