(* ===== verification/Isa.v ===== *)
(** * Isa: what the instructions mean

    The abstract machine the assembler's callers program against: one
    constructor per operation and its meaning as integer arithmetic on the
    registers, in the terms of the RISC-V unprivileged specification rather
    than of the simulator's C++ (products and quotients are those of Z, bit
    counts are logarithms, byte shuffles are list operations).  Values are
    written to registers modulo 2^XLEN. *)

From stdpp Require Import base numbers list gmap.
From S2P Require Import Prelude Constants AsmBuffer SimState.

#[local] Open Scope Z_scope.
#[local] Open Scope res_scope.

(** ** Register-register operations *)

Inductive rop : Set :=
| ADD | SUB | SLL | SLT | SLTU | XOR | SRL | SRA | OR | AND
| MUL | MULH | MULHSU | MULHU | DIV | DIVU | REM | REMU
| SH1ADD | SH2ADD | SH3ADD | ANDN | ORN | XNOR | MAX | MAXU | MIN | MINU
| ROL | ROR | CLMUL | CLMULH | CLMULR | BCLR | BEXT | BINV | BSET.

(** RV64 operations on the low words. *)
Inductive wop : Set :=
| ADDW | SUBW | SLLW | SRLW | SRAW | DIVW | DIVUW | REMW | REMUW
| ADDUW | SH1ADDUW | SH2ADDUW | SH3ADDUW.

Inductive uop : Set := CLZ | CTZ | CPOP | SEXTB | SEXTH | ZEXTH | ORCB | REV8.
Inductive uwop : Set := CLZW | CTZW | CPOPW.

Inductive iop : Set := ADDI | SLTI | SLTIU | XORI | ORI | ANDI.
Inductive sop : Set := SLLI | SRLI | SRAI | RORI | BCLRI | BEXTI | BINVI | BSETI.
Inductive swop : Set := SLLIW | SRLIW | SRAIW | SLLIUW.

#[export] Instance rop_eq_dec : EqDecision rop.
Proof. solve_decision. Defined.
#[export] Instance wop_eq_dec : EqDecision wop.
Proof. solve_decision. Defined.
#[export] Instance sop_eq_dec : EqDecision sop.
Proof. solve_decision. Defined.

(** The carry-less product of [x] and the [n]-bit [y]: the exclusive or of the
    shifts of [x] that the bits of [y] select. *)
Definition carryless_product (n x y : Z) : Z :=
  foldr Z.lxor 0 ((fun j => if Z.testbit y j then x * 2 ^ j else 0) <$> seqZ 0 n).

Definition count_ones (n x : Z) : Z :=
  foldr Z.add 0 ((fun i => Z.b2z (Z.testbit x i)) <$> seqZ 0 n).
Definition leading_zeros (n x : Z) : Z := if x =? 0 then n else n - 1 - Z.log2 x.
(** [x & -x] is the lowest set bit. *)
Definition trailing_zeros (n x : Z) : Z := if x =? 0 then n else Z.log2 (Z.land x (- x)).

Definition rotate_left (n x k : Z) : Z := x * 2 ^ k + x / 2 ^ (n - k).
Definition rotate_right (n x k : Z) : Z := x / 2 ^ k + x * 2 ^ (n - k).

Section Isa.
Context `{Target}.

Definition rop_sem (op : rop) (x y : Z) : Z :=
  let k := y mod XLEN in
  match op with
  | ADD => x + y
  | SUB => x - y
  | SLL => x * 2 ^ k
  | SLT => Z.b2z (sx x <? sx y)
  | SLTU => Z.b2z (x <? y)
  | XOR => Z.lxor x y
  | SRL => x / 2 ^ k
  | SRA => sx x / 2 ^ k
  | OR => Z.lor x y
  | AND => Z.land x y
  | MUL => x * y
  | MULH => sx x * sx y / 2 ^ XLEN
  | MULHSU => sx x * y / 2 ^ XLEN
  | MULHU => x * y / 2 ^ XLEN
  | DIV => if y =? 0 then -1 else Z.quot (sx x) (sx y)
  | DIVU => if y =? 0 then 2 ^ XLEN - 1 else x / y
  | REM => if y =? 0 then x else Z.rem (sx x) (sx y)
  | REMU => if y =? 0 then x else x mod y
  | SH1ADD => 2 * x + y
  | SH2ADD => 4 * x + y
  | SH3ADD => 8 * x + y
  | ANDN => Z.ldiff x y
  | ORN => Z.lor x (Z.lnot y)
  | XNOR => Z.lnot (Z.lxor x y)
  | MAX => Z.max (sx x) (sx y)
  | MAXU => Z.max x y
  | MIN => Z.min (sx x) (sx y)
  | MINU => Z.min x y
  | ROL => rotate_left XLEN x k
  | ROR => rotate_right XLEN x k
  | CLMUL => carryless_product XLEN x y
  | CLMULH => carryless_product XLEN x y / 2 ^ XLEN
  | CLMULR => carryless_product XLEN x y / 2 ^ (XLEN - 1)
  | BCLR => Z.clearbit x k
  | BEXT => Z.b2z (Z.testbit x k)
  | BINV => Z.lxor x (2 ^ k)
  | BSET => Z.setbit x k
  end.

Definition wop_sem (op : wop) (x y : Z) : Z :=
  let k := y mod 32 in
  match op with
  | ADDW => s32 (x + y)
  | SUBW => s32 (x - y)
  | SLLW => s32 (x * 2 ^ k)
  | SRLW => s32 (u32 x / 2 ^ k)
  | SRAW => s32 x / 2 ^ k
  | DIVW => if u32 y =? 0 then -1 else s32 (Z.quot (s32 x) (s32 y))
  | DIVUW => if u32 y =? 0 then -1 else s32 (u32 x / u32 y)
  | REMW => if u32 y =? 0 then s32 x else Z.rem (s32 x) (s32 y)
  | REMUW => if u32 y =? 0 then s32 x else s32 (u32 x mod u32 y)
  | ADDUW => u32 x + y
  | SH1ADDUW => 2 * u32 x + y
  | SH2ADDUW => 4 * u32 x + y
  | SH3ADDUW => 8 * u32 x + y
  end.

Definition uop_sem (op : uop) (x : Z) : Z :=
  match op with
  | CLZ => leading_zeros XLEN x
  | CTZ => trailing_zeros XLEN x
  | CPOP => count_ones XLEN x
  | SEXTB => s8 x
  | SEXTH => s16 x
  | ZEXTH => u16 x
  | ORCB => le_combine ((fun b => if b =? 0 then 0 else 255) <$> le_split (Z.to_nat (XLEN / 8)) x)
  | REV8 => le_combine (reverse (le_split (Z.to_nat (XLEN / 8)) x))
  end.

Definition uwop_sem (op : uwop) (x : Z) : Z :=
  match op with
  | CLZW => leading_zeros 32 (u32 x)
  | CTZW => trailing_zeros 32 (u32 x)
  | CPOPW => count_ones 32 (u32 x)
  end.

(** The immediate is a signed integer. *)
Definition iop_sem (op : iop) (x imm : Z) : Z :=
  match op with
  | ADDI => x + imm
  | SLTI => Z.b2z (sx x <? imm)
  | SLTIU => Z.b2z (x <? ux imm)
  | XORI => Z.lxor x imm
  | ORI => Z.lor x imm
  | ANDI => Z.land x imm
  end.

Definition sop_sem (op : sop) (x shamt : Z) : Z :=
  match op with
  | SLLI => x * 2 ^ shamt
  | SRLI => x / 2 ^ shamt
  | SRAI => sx x / 2 ^ shamt
  | RORI => rotate_right XLEN x shamt
  | BCLRI => Z.clearbit x shamt
  | BEXTI => Z.b2z (Z.testbit x shamt)
  | BINVI => Z.lxor x (2 ^ shamt)
  | BSETI => Z.setbit x shamt
  end.

Definition swop_sem (op : swop) (x shamt : Z) : Z :=
  match op with
  | SLLIW => s32 (x * 2 ^ shamt)
  | SRLIW => s32 (u32 x / 2 ^ shamt)
  | SRAIW => s32 x / 2 ^ shamt
  | SLLIUW => u32 x * 2 ^ shamt
  end.

(** ** Instructions as state transformers

    [len] is the length of the encoding that was chosen. *)

Definition advance (len : Z) (s : Sim) : Sim :=
  set_instret (add_pc s len) (u64 (instret_ s + 1)).

Definition write (rd v len : Z) (s : Sim) : Sim := advance len (set_xreg s rd v).

Definition exec_rop (op : rop) (rd rs1 rs2 len : Z) (s : Sim) : Res Sim :=
  Ok (write rd (rop_sem op (get_xreg s rs1) (get_xreg s rs2)) len s).
Definition exec_wop (op : wop) (rd rs1 rs2 len : Z) (s : Sim) : Res Sim :=
  Ok (write rd (wop_sem op (get_xreg s rs1) (get_xreg s rs2)) len s).
Definition exec_uop (op : uop) (rd rs1 len : Z) (s : Sim) : Res Sim :=
  Ok (write rd (uop_sem op (get_xreg s rs1)) len s).
Definition exec_uwop (op : uwop) (rd rs1 len : Z) (s : Sim) : Res Sim :=
  Ok (write rd (uwop_sem op (get_xreg s rs1)) len s).
Definition exec_iop (op : iop) (rd rs1 imm len : Z) (s : Sim) : Res Sim :=
  Ok (write rd (iop_sem op (get_xreg s rs1) imm) len s).
Definition exec_sop (op : sop) (rd rs1 shamt len : Z) (s : Sim) : Res Sim :=
  Ok (write rd (sop_sem op (get_xreg s rs1) shamt) len s).
Definition exec_swop (op : swop) (rd rs1 shamt len : Z) (s : Sim) : Res Sim :=
  Ok (write rd (swop_sem op (get_xreg s rs1) shamt) len s).

Definition exec_lui (rd imm len : Z) (s : Sim) : Res Sim := Ok (write rd imm len s).
Definition exec_auipc (rd imm len : Z) (s : Sim) : Res Sim := Ok (write rd (pc_ s + imm) len s).

(** Jumps write the address of the next instruction to [rd]. *)
Definition jump_to (target rd len : Z) (s : Sim) : Sim :=
  set_instret (set_pc (set_xreg s rd (pc_ s + len)) (ux target)) (u64 (instret_ s + 1)).
Definition exec_jalr (rd rs1 imm len : Z) (s : Sim) : Res Sim :=
  Ok (jump_to (get_xreg s rs1 + imm) rd len s).
Definition exec_jal (rd imm len : Z) (s : Sim) : Res Sim := Ok (jump_to (pc_ s + imm) rd len s).

Inductive bop : Set := BEQ | BNE | BLT | BGE | BLTU | BGEU.
Definition bop_sem (op : bop) (x y : Z) : bool :=
  match op with
  | BEQ => x =? y
  | BNE => negb (x =? y)
  | BLT => sx x <? sx y
  | BGE => sx y <=? sx x
  | BLTU => x <? y
  | BGEU => y <=? x
  end.
Definition exec_branch (op : bop) (rs1 rs2 imm len : Z) (s : Sim) : Res Sim :=
  Ok (advance (if bop_sem op (get_xreg s rs1) (get_xreg s rs2) then imm else len) s).

(** Loads and stores. *)
Inductive lop : Set := LB | LH | LW | LBU | LHU | LWU | LD.
Definition lop_type (op : lop) : ctype :=
  match op with
  | LB => int8_t | LH => int16_t | LW => int32_t | LBU => uint8_t | LHU => uint16_t
  | LWU => uint32_t | LD => int64_t
  end.
Inductive stop : Set := SB | SH | SW | SD.
Definition stop_type (op : stop) : ctype :=
  match op with SB => uint8_t | SH => uint16_t | SW => uint32_t | SD => uint64_t end.

Definition effective (s : Sim) (addr : Address) : Z := ux (get_xreg s (base addr) + offset addr).

Definition exec_load (op : lop) (rd : Z) (addr : Address) (len : Z) (s : Sim) : Res Sim :=
  let* v := MemoryRead (lop_type op) (effective s addr) (base addr) s in
  Ok (write rd v len s).
Definition exec_store (op : stop) (rs2 : Z) (addr : Address) (len : Z) (s : Sim) : Res Sim :=
  let* s' := MemoryWrite (stop_type op) (effective s addr) (get_xreg s rs2) (base addr) s in
  Ok (advance len s').

Definition exec_flw (rd : Z) (addr : Address) (len : Z) (s : Sim) : Res Sim :=
  let* v := MemoryRead float_t (effective s addr) (base addr) s in
  Ok (advance len (set_fregs s rd v)).
Definition exec_fld (rd : Z) (addr : Address) (len : Z) (s : Sim) : Res Sim :=
  let* v := MemoryRead double_t (effective s addr) (base addr) s in
  Ok (advance len (set_fregd s rd v)).
Definition exec_fsw (rs2 : Z) (addr : Address) (len : Z) (s : Sim) : Res Sim :=
  let* s' := MemoryWrite float_t (effective s addr) (get_fregs s rs2) (base addr) s in
  Ok (advance len s').
Definition exec_fsd (rs2 : Z) (addr : Address) (len : Z) (s : Sim) : Res Sim :=
  let* s' := MemoryWrite double_t (effective s addr) (get_fregd s rs2) (base addr) s in
  Ok (advance len s').

End Isa.
