(* ===== verification/IntSpec.v ===== *)
(** * IntSpec: the simulator's integer helpers compute the ISA's results

    Each helper of SimInt, as written in C++ with its half-word products,
    loops and masks, agrees modulo 2^XLEN with the meaning Isa gives the
    operation, and the multiplications never reach undefined behaviour. *)

From stdpp Require Import base numbers list gmap.
From Stdlib Require Import Lia.
From S2P Require Import Prelude Constants Encoding AsmBuffer SimState SimInt Isa.

#[local] Open Scope Z_scope.
#[local] Open Scope res_scope.

(** ** Multiplication *)

(** The schoolbook recombination of half-word products, for any half-word
    base [H] and signed or unsigned high halves. *)
Lemma high_product H a_hi a_lo b_hi b_lo :
  0 < H ->
  let r0 := a_lo * b_lo / H + a_hi * b_lo in
  let r1 := r0 mod H + a_lo * b_hi in
  (a_hi * H + a_lo) * (b_hi * H + b_lo) / (H * H) = a_hi * b_hi + r0 / H + r1 / H.
Proof.
  intros HH r0 r1.
  pose proof (Z.div_mod (a_lo * b_lo) H ltac:(lia)) as E1.
  pose proof (Z.div_mod r0 H ltac:(lia)) as E2.
  pose proof (Z.div_mod r1 H ltac:(lia)) as E3.
  pose proof (Z.mod_pos_bound (a_lo * b_lo) H HH).
  pose proof (Z.mod_pos_bound r1 H HH).
  symmetry.
  apply (Z.div_unique_pos _ _ _ (r1 mod H * H + a_lo * b_lo mod H)); [nia|].
  subst r1 r0. lia.
Qed.

Section IntSpec.
Context `{Target}.

Definition half_base : Z := 2 ^ (XLEN / 2).

Lemma half_base_spec : 2 ^ XLEN = half_base * half_base /\ 65536 <= half_base.
Proof. unfold half_base. destruct XLEN_cases as [E|E]; rewrite E; vm_compute; intuition congruence. Qed.

Lemma half_base_double : 2 ^ (XLEN - 1) * 2 = half_base * half_base.
Proof. unfold half_base. by destruct XLEN_cases as [E|E]; rewrite E. Qed.

Lemma XLEN_pos : 32 <= XLEN.
Proof. destruct XLEN_cases; lia. Qed.

Lemma half_width_pos : 0 <= XLEN / 2.
Proof. pose proof XLEN_pos. apply Z.div_pos; lia. Qed.

Lemma land_half v : Z.land v (Z.shiftl 1 (XLEN / 2) - 1) = v mod half_base.
Proof.
  unfold half_base. rewrite Z.shiftl_1_l, <- Z.land_ones by apply half_width_pos.
  f_equal. rewrite Z.ones_equiv. lia.
Qed.

Lemma shiftr_half v : Z.shiftr v (XLEN / 2) = v / half_base.
Proof. apply Z.shiftr_div_pow2, half_width_pos. Qed.

Lemma ux_mod_half v : ux v mod half_base = v mod half_base.
Proof.
  unfold ux, wrapU. rewrite (proj1 half_base_spec).
  apply Z.mod_mod_divide. by exists half_base.
Qed.

Lemma sx_ux v : sx (ux v) = sx v.
Proof. apply wrapS_wrapU. pose proof XLEN_pos. lia. Qed.
Lemma ux_sx v : ux (sx v) = ux v.
Proof. apply wrapU_wrapS. pose proof XLEN_pos. lia. Qed.
Lemma ux_ux v : ux (ux v) = ux v.
Proof. apply wrapU_wrapU. Qed.
Lemma ux_small v : inU XLEN v -> ux v = v.
Proof. apply wrapU_small. Qed.
Lemma sx_small v : inS XLEN v -> sx v = v.
Proof. apply wrapS_small. pose proof XLEN_pos. lia. Qed.
Lemma ux_range v : inU XLEN (ux v).
Proof. apply wrapU_range. pose proof XLEN_pos. lia. Qed.
Lemma sx_range v : inS XLEN (sx v).
Proof. apply wrapS_range. pose proof XLEN_pos. lia. Qed.

(** Signed and unsigned bounds in terms of the half base. *)
Lemma inS_half v : inS XLEN v <-> - (half_base * half_base) <= 2 * v < half_base * half_base.
Proof. unfold inS. pose proof half_base_double. lia. Qed.
Lemma inU_half v : inU XLEN v <-> 0 <= v < half_base * half_base.
Proof. unfold inU. by rewrite (proj1 half_base_spec). Qed.

Lemma ux_add_l a b : ux (ux a + b) = ux (a + b).
Proof. apply wrapU_idem_add_l. Qed.
Lemma ux_add_r a b : ux (a + ux b) = ux (a + b).
Proof. apply wrapU_idem_add_r. Qed.
Lemma ux_mul_l a b : ux (ux a * b) = ux (a * b).
Proof. apply wrapU_idem_mul_l. Qed.
Lemma ux_mul_r a b : ux (a * ux b) = ux (a * b).
Proof. apply wrapU_idem_mul_r. Qed.

Lemma sadd_ok a b : inS XLEN (a + b) -> sadd XLEN a b = Ok (a + b).
Proof. unfold inS, sadd. intros. rewrite (proj2 (Z.leb_le _ _)), (proj2 (Z.ltb_lt _ _)); [done|lia..]. Qed.
Lemma smul_ok a b : inS XLEN (a * b) -> smul XLEN a b = Ok (a * b).
Proof. unfold inS, smul. intros. rewrite (proj2 (Z.leb_le _ _)), (proj2 (Z.ltb_lt _ _)); [done|lia..]. Qed.

(** The halves of a word and what bounds them. *)
Lemma halves v : v = v / half_base * half_base + v mod half_base /\ 0 <= v mod half_base < half_base.
Proof.
  pose proof half_base_spec. pose proof (Z.div_mod v half_base ltac:(lia)).
  pose proof (Z.mod_pos_bound v half_base ltac:(lia)). lia.
Qed.
Lemma high_half_unsigned v : inU XLEN v -> 0 <= v / half_base < half_base.
Proof.
  rewrite inU_half. pose proof half_base_spec. pose proof (halves v). nia.
Qed.
Lemma high_half_signed v : inS XLEN v -> - half_base <= 2 * (v / half_base) < half_base.
Proof.
  rewrite inS_half. pose proof half_base_spec.
  assert (half_base mod 2 = 0) as E
    by (unfold half_base; by destruct XLEN_cases as [E'|E']; rewrite E').
  pose proof (Z.div_mod half_base 2 ltac:(lia)). intros.
  assert (- (half_base / 2) <= v / half_base) by (apply Z.div_le_lower_bound; nia).
  assert (v / half_base < half_base / 2) by (apply Z.div_lt_upper_bound; nia).
  lia.
Qed.

(** The product of two words, with the halves the helpers form. *)
Lemma high_product_half a b :
  let a_hi := a / half_base in let a_lo := a mod half_base in
  let b_hi := b / half_base in let b_lo := b mod half_base in
  let r0 := a_lo * b_lo / half_base + a_hi * b_lo in
  let r1 := r0 mod half_base + a_lo * b_hi in
  a * b / 2 ^ XLEN = a_hi * b_hi + r0 / half_base + r1 / half_base.
Proof.
  intros. rewrite (proj1 half_base_spec).
  rewrite (proj1 (halves a)) at 1. rewrite (proj1 (halves b)) at 1.
  apply high_product. pose proof half_base_spec. lia.
Qed.

(** The carry out of a product of low halves. *)
Lemma low_carry_bound p q :
  0 <= p < half_base -> 0 <= q < half_base -> 0 <= p * q / half_base <= half_base - 2.
Proof.
  intros. pose proof half_base_spec. split; [apply Z.div_pos; nia|].
  apply Z.lt_succ_r. replace (Z.succ (half_base - 2)) with (half_base - 1) by lia.
  apply Z.div_lt_upper_bound; nia.
Qed.

Lemma div_half_bound v lo hi :
  lo * half_base <= v < hi * half_base -> lo <= v / half_base < hi.
Proof.
  intros. pose proof half_base_spec. split.
  - apply Z.div_le_lower_bound; lia.
  - apply Z.div_lt_upper_bound; lia.
Qed.

Lemma mulhu_exact a b : inU XLEN a -> inU XLEN b -> mulhu a b = a * b / 2 ^ XLEN.
Proof.
  intros Ha Hb. unfold mulhu. rewrite !land_half, !shiftr_half.
  rewrite high_product_half. pose proof half_base_spec as [_ HH].
  pose proof (high_half_unsigned a Ha). pose proof (high_half_unsigned b Hb).
  pose proof (proj2 (halves a)). pose proof (proj2 (halves b)).
  set (ah := a / half_base) in *. set (al := a mod half_base) in *.
  set (bh := b / half_base) in *. set (bl := b mod half_base) in *.
  pose proof (low_carry_bound al bl ltac:(done) ltac:(done)) as Hc.
  rewrite (ux_small (al * bl)), (ux_small (ah * bl)), (ux_small (al * bh)),
    (ux_small (ah * bh)) by (rewrite inU_half; nia).
  set (c := al * bl / half_base) in *.
  rewrite (ux_small (c + ah * bl)) by (rewrite inU_half; nia).
  set (r0 := c + ah * bl).
  pose proof (Z.mod_pos_bound r0 half_base ltac:(lia)).
  rewrite (ux_small (r0 mod half_base + al * bh)) by (rewrite inU_half; nia).
  set (r1 := r0 mod half_base + al * bh).
  assert (0 <= r0 / half_base < half_base) by (apply div_half_bound; subst r0; nia).
  assert (0 <= r1 / half_base < half_base) by (apply div_half_bound; subst r1; nia).
  rewrite (ux_small (ah * bh + _)) by (rewrite inU_half; nia).
  assert (E : ah * bh + r0 / half_base + r1 / half_base = a * b / 2 ^ XLEN)
    by (symmetry; apply high_product_half).
  apply ux_small. rewrite E. rewrite inU_half in Ha, Hb |- *.
  rewrite (proj1 half_base_spec). split; [apply Z.div_pos; nia|].
  apply Z.div_lt_upper_bound; nia.
Qed.

Lemma mulh_exact a b :
  inS XLEN a -> inS XLEN b -> mulh a b = Ok (a * b / 2 ^ XLEN).
Proof.
  intros Ha Hb. unfold mulh. rewrite !land_half, !shiftr_half, !ux_mod_half, !sx_ux.
  pose proof half_base_spec as [_ HH].
  pose proof (high_half_signed a Ha). pose proof (high_half_signed b Hb).
  pose proof (proj2 (halves a)). pose proof (proj2 (halves b)).
  pose proof (high_product_half a b) as E. cbv zeta in E.
  set (ah := a / half_base) in *. set (al := a mod half_base) in *.
  set (bh := b / half_base) in *. set (bl := b mod half_base) in *.
  pose proof (low_carry_bound al bl ltac:(done) ltac:(done)) as Hc.
  rewrite (ux_small (al * bl)) by (rewrite inU_half; nia).
  set (c := al * bl / half_base) in *.
  rewrite <- (sx_ux (ux ah * bl)), <- (sx_ux (al * ux bh)), ux_mul_l, ux_mul_r, !sx_ux.
  rewrite (sx_small (ah * bl)), (sx_small (al * bh)) by (rewrite inS_half; nia).
  rewrite smul_ok by (rewrite inS_half; nia). cbn [rbind].
  rewrite <- (sx_ux (c + _)), ux_add_r, sx_ux.
  rewrite (sx_small (c + ah * bl)) by (rewrite inS_half; nia).
  set (r0 := c + ah * bl) in *.
  pose proof (Z.mod_pos_bound r0 half_base ltac:(lia)).
  rewrite <- (sx_ux (r0 mod half_base + _)), ux_add_r, sx_ux.
  rewrite (sx_small (r0 mod half_base + al * bh)) by (rewrite inS_half; nia).
  set (r1 := r0 mod half_base + al * bh) in *.
  assert (- half_base <= r0 / half_base < half_base) by (apply div_half_bound; subst r0; nia).
  assert (- half_base <= r1 / half_base < half_base) by (apply div_half_bound; subst r1; nia).
  rewrite sadd_ok by (rewrite inS_half; nia). cbn [rbind].
  rewrite sadd_ok by (rewrite inS_half; nia). by rewrite E.
Qed.

Lemma mulhsu_exact a b :
  inS XLEN a -> inU XLEN b -> mulhsu a b = Ok (ux (a * b / 2 ^ XLEN)).
Proof.
  intros Ha Hb. unfold mulhsu. rewrite !land_half, !shiftr_half, !ux_mod_half, !sx_ux.
  pose proof half_base_spec as [_ HH].
  pose proof (high_half_signed a Ha). pose proof (high_half_unsigned b Hb).
  pose proof (proj2 (halves a)). pose proof (proj2 (halves b)).
  pose proof (high_product_half a b) as E. cbv zeta in E.
  set (ah := a / half_base) in *. set (al := a mod half_base) in *.
  set (bh := b / half_base) in *. set (bl := b mod half_base) in *.
  pose proof (low_carry_bound al bl ltac:(done) ltac:(done)) as Hc.
  rewrite (ux_small (al * bl)), (ux_small (al * bh)) by (rewrite inU_half; nia).
  set (c := al * bl / half_base) in *.
  rewrite <- (sx_ux (ux ah * bl)), <- (sx_ux (ux ah * bh)), !ux_mul_l, !sx_ux.
  rewrite (sx_small (ah * bl)), (sx_small (ah * bh)) by (rewrite inS_half; nia).
  rewrite <- (sx_ux (c + _)), ux_add_r, sx_ux.
  rewrite (sx_small (c + ah * bl)) by (rewrite inS_half; nia).
  set (r0 := c + ah * bl) in *.
  pose proof (Z.mod_pos_bound r0 half_base ltac:(lia)).
  rewrite (ux_small (r0 mod half_base + al * bh)) by (rewrite inU_half; nia).
  set (r1 := r0 mod half_base + al * bh) in *.
  assert (- half_base <= 2 * (r0 / half_base) <= half_base).
  { pose proof (Z.div_mod r0 half_base ltac:(lia)). subst r0. nia. }
  rewrite sadd_ok by (rewrite inS_half; nia). cbn [rbind].
  rewrite ux_add_l. by rewrite E.
Qed.

End IntSpec.
