(* ===== verification/BitSpec.v ===== *)
(** * BitSpec: the bit-counting, shifting and byte-shuffling helpers

    The loops over bit positions of clz, ctz, cpop, clmul, orcb and rev8, the
    masked shifts and rotates and the single-bit operations compute the
    results Isa names. *)

From stdpp Require Import base numbers list gmap.
From Stdlib Require Import Lia.
From S2P Require Import Prelude Constants Encoding AsmBuffer SimState SimInt Isa IntSpec.

#[local] Open Scope Z_scope.
#[local] Open Scope res_scope.

(** ** Loops that stop at the first hit *)

Lemma find_app_some {A} (f : A -> bool) l1 l2 :
  List.find f (l1 ++ l2) =
  match List.find f l1 with Some x => Some x | None => List.find f l2 end.
Proof. induction l1 as [|x l1 IH]; simpl; [done|]. by destruct (f x). Qed.

Lemma find_up (f : Z -> bool) (n : nat) k :
  List.find f (seqZ 0 (Z.of_nat n)) = Some k ->
  f k = true /\ 0 <= k < Z.of_nat n /\ forall i, 0 <= i < k -> f i = false.
Proof.
  induction n as [|n IH]; [done|].
  rewrite seqZ_S, Z.add_0_l, find_app_some. destruct (List.find _ _) eqn:E; intros Hk.
  - simplify_eq. destruct (IH eq_refl) as (?&?&?). split_and!; [done|lia..|auto with lia].
  - simpl in Hk. destruct (f (Z.of_nat n)) eqn:F; simplify_eq.
    split_and!; [done|lia..|]. intros i Hi.
    apply (List.find_none _ _ E), list_elem_of_In, elem_of_seqZ. lia.
Qed.

Lemma find_down (f : Z -> bool) (n : nat) k :
  List.find f (rev (seqZ 0 (Z.of_nat n))) = Some k ->
  f k = true /\ 0 <= k < Z.of_nat n /\ forall i, k < i < Z.of_nat n -> f i = false.
Proof.
  induction n as [|n IH]; [done|].
  rewrite seqZ_S, Z.add_0_l, rev_app_distr. simpl. destruct (f (Z.of_nat n)) eqn:E; intros Hk.
  - simplify_eq. split_and!; [done|lia..|auto with lia].
  - destruct (IH Hk) as (?&?&Hi). split_and!; [done|lia..|].
    intros i ?. destruct (decide (i = Z.of_nat n)) as [->|]; [done|]. apply Hi; lia.
Qed.

Lemma bit_set_testbit a i : 0 <= i -> bit_set a i = Z.testbit a i.
Proof.
  intros Hi. unfold bit_set. rewrite Z.shiftl_1_l.
  destruct (Z.testbit a i) eqn:E.
  - apply negb_true_iff, Z.eqb_neq. intros E0.
    assert (Z.testbit (Z.land a (2 ^ i)) i = true) as F
      by (by rewrite Z.land_spec, E, Z.pow2_bits_true).
    by rewrite E0, Z.bits_0 in F.
  - apply negb_false_iff, Z.eqb_eq, Z.bits_inj'. intros m Hm.
    rewrite Z.land_spec, Z.pow2_bits_eqb, Z.bits_0 by lia.
    destruct (Z.eqb_spec i m) as [->|]; [by rewrite E | by rewrite andb_false_r].
Qed.

Lemma no_bits_zero n a : 0 <= n -> inU n a -> (forall i, 0 <= i < n -> Z.testbit a i = false) -> a = 0.
Proof.
  intros Hn Ha Hbits. apply Z.bits_inj'; intros i Hi. rewrite Z.bits_0.
  destruct (Z.ltb_spec i n); [apply Hbits; lia | apply (testbit_small n); [done|lia]].
Qed.

Lemma find_bit_none a l :
  List.find (bit_set a) l = None -> (forall i, i ∈ l -> 0 <= i) ->
  forall i, i ∈ l -> Z.testbit a i = false.
Proof.
  intros E Hl i Hi. rewrite <- bit_set_testbit by auto.
  by apply (List.find_none _ _ E), list_elem_of_In.
Qed.

Lemma find_bit_none_zero a l n :
  0 <= n -> inU n a -> (forall i, i ∈ l <-> 0 <= i < n) -> List.find (bit_set a) l = None -> a = 0.
Proof.
  intros Hn Ha Hl E. apply (no_bits_zero n); [done..|]. intros i Hi.
  apply (find_bit_none a l E); [intros k Hk; apply Hl in Hk; lia | by apply Hl].
Qed.

(** ** Counting zeros and ones *)

Lemma log2_lowest_bit a k :
  0 <= k -> Z.testbit a k = true -> (forall i, 0 <= i < k -> Z.testbit a i = false) ->
  Z.log2 (Z.land a (- a)) = k.
Proof.
  intros Hk Hb Hlow.
  assert (a mod 2 ^ k = 0) as Hm.
  { apply Z.bits_inj'; intros i Hi. rewrite Z.bits_0.
    destruct (Z.ltb_spec i k).
    - rewrite Z.mod_pow2_bits_low by lia. apply Hlow; lia.
    - apply Z.mod_pow2_bits_high; lia. }
  set (q := a / 2 ^ k / 2).
  assert (a = (2 * q + 1) * 2 ^ k) as Ea.
  { pose proof (Z.div_mod a (2 ^ k) ltac:(pose proof (pow2_pos k Hk); lia)).
    pose proof (Z.div_mod (a / 2 ^ k) 2 ltac:(lia)).
    rewrite <- Z.bit0_mod, <- Z.shiftr_div_pow2, Z.shiftr_spec, Z.add_0_l, Hb in H0 by lia.
    rewrite Z.shiftr_div_pow2 in H0 by lia. simpl in H0. subst q. nia. }
  replace (Z.land a (- a)) with (2 ^ k); [by apply Z.log2_pow2|].
  replace (- a) with ((2 * Z.lnot q + 1) * 2 ^ k) by (unfold Z.lnot; lia).
  rewrite Ea, <- !Z.shiftl_mul_pow2, <- Z.shiftl_land by lia.
  replace (Z.land (2 * q + 1) (2 * Z.lnot q + 1)) with 1; [by rewrite Z.shiftl_1_l|].
  apply Z.bits_inj'; intros i Hi. rewrite Z.land_spec.
  destruct (Z.eqb_spec i 0) as [->|].
  - by rewrite !Z.testbit_odd_0.
  - replace i with (Z.succ (i - 1)) by lia.
    rewrite !Z.testbit_odd_succ, Z.lnot_spec by lia.
    change 1 with (2 * 0 + 1). rewrite Z.testbit_odd_succ, Z.bits_0 by lia.
    by destruct (Z.testbit q _).
Qed.

Lemma find_down_leading_zeros (n : nat) a :
  inU (Z.of_nat n) a ->
  match List.find (bit_set a) (rev (seqZ 0 (Z.of_nat n))) with
  | Some bit => Z.of_nat n - bit - 1 | None => Z.of_nat n end = leading_zeros (Z.of_nat n) a.
Proof.
  intros Ha. unfold leading_zeros. destruct (List.find _ _) as [k|] eqn:E.
  - apply find_down in E as (Hk & ? & Hi). rewrite bit_set_testbit in Hk by lia.
    assert (Z.log2 a = k) as ->.
    { apply Z.log2_bits_unique; [done|]. intros m Hm.
      destruct (Z.ltb_spec m (Z.of_nat n)).
      - rewrite <- bit_set_testbit by lia. apply Hi; lia.
      - apply (testbit_small (Z.of_nat n)); [done|lia]. }
    destruct (Z.eqb_spec a 0) as [->|]; [by rewrite Z.bits_0 in Hk | lia].
  - apply (find_bit_none_zero _ _ (Z.of_nat n)) in E as ->; [done|lia|done|].
    intros i. rewrite list_elem_of_In, <- in_rev, <- list_elem_of_In, elem_of_seqZ. lia.
Qed.

Lemma find_up_trailing_zeros (n : nat) a :
  inU (Z.of_nat n) a ->
  match List.find (bit_set a) (seqZ 0 (Z.of_nat n)) with
  | Some bit => bit | None => Z.of_nat n end = trailing_zeros (Z.of_nat n) a.
Proof.
  intros Ha. unfold trailing_zeros. destruct (List.find _ _) as [k|] eqn:E.
  - apply find_up in E as (Hk & ? & Hi). rewrite bit_set_testbit in Hk by lia.
    rewrite (log2_lowest_bit a k); [|lia|done|].
    + destruct (Z.eqb_spec a 0) as [->|]; [by rewrite Z.bits_0 in Hk | done].
    + intros i ?. rewrite <- bit_set_testbit by lia. apply Hi; lia.
  - apply (find_bit_none_zero _ _ (Z.of_nat n)) in E as ->; [done|lia|done|].
    intros i. rewrite elem_of_seqZ. lia.
Qed.

Lemma count_loop `{Target} a l c :
  Forall (fun i => 0 <= i) l -> 0 <= c -> c + Z.of_nat (length l) < 2 ^ XLEN ->
  foldl (fun count bit => if bit_set a bit then ux (count + 1) else count) c l =
  c + foldr Z.add 0 ((fun i => Z.b2z (Z.testbit a i)) <$> l).
Proof.
  intros Hl. revert c. induction Hl as [|i l Hi Hl IH]; intros c Hc Hb; csimpl; [lia|].
  csimpl in *. rewrite bit_set_testbit by done. destruct (Z.testbit a i); csimpl.
  - rewrite ux_small by (unfold inU; lia). rewrite IH by lia. lia.
  - rewrite IH by lia. lia.
Qed.

Lemma count_ones_loop `{Target} n a :
  0 <= n <= 64 ->
  foldl (fun count bit => if bit_set a bit then ux (count + 1) else count) 0 (seqZ 0 n) =
  count_ones n a.
Proof.
  intros Hn. rewrite count_loop; [done|apply Forall_seqZ; lia|lia|].
  rewrite length_seqZ. pose proof half_base_spec. nia.
Qed.

Section BitSpec.
Context `{Target}.

Lemma XLEN_nat : exists n : nat, XLEN = Z.of_nat n.
Proof. exists (Z.to_nat XLEN). pose proof XLEN_pos. lia. Qed.

Lemma clz_exact a : inU XLEN a -> clz a = leading_zeros XLEN a.
Proof. unfold clz, bits_down. destruct XLEN_nat as [n ->]. apply find_down_leading_zeros. Qed.
Lemma ctz_exact a : inU XLEN a -> ctz a = trailing_zeros XLEN a.
Proof. unfold ctz, bits_up. destruct XLEN_nat as [n ->]. apply find_up_trailing_zeros. Qed.
Lemma cpop_exact a : cpop a = count_ones XLEN a.
Proof. apply count_ones_loop. destruct XLEN_cases; lia. Qed.
Lemma clzw_exact a : inU 32 a -> clzw a = leading_zeros 32 a.
Proof. apply (find_down_leading_zeros 32). Qed.
Lemma ctzw_exact a : inU 32 a -> ctzw a = trailing_zeros 32 a.
Proof. apply (find_up_trailing_zeros 32). Qed.
Lemma cpopw_exact a : cpopw a = count_ones 32 a.
Proof. apply count_ones_loop. lia. Qed.

(** ** Shifts and rotates *)

Lemma land_XLEN_mask b : Z.land b (XLEN - 1) = b mod XLEN.
Proof.
  destruct XLEN_cases as [E|E]; rewrite E.
  - exact (Z.land_ones b 5 ltac:(lia)).
  - exact (Z.land_ones b 6 ltac:(lia)).
Qed.

Lemma mod_XLEN_range b : 0 <= b mod XLEN < XLEN.
Proof. apply Z.mod_pos_bound. pose proof XLEN_pos. lia. Qed.

Lemma lor_high_low y z l : 0 <= l -> inU l z -> Z.lor (y * 2 ^ l) z = y * 2 ^ l + z.
Proof.
  intros Hl Hz. symmetry. apply Z.add_nocarry_lor. rewrite <- Z.shiftl_mul_pow2 by lia.
  apply Z.bits_inj'; intros i Hi. rewrite Z.land_spec, Z.shiftl_spec, Z.bits_0 by lia.
  destruct (Z.ltb_spec i l).
  - by rewrite Z.testbit_neg_r by lia.
  - by rewrite (testbit_small l z), andb_false_r by (done || lia).
Qed.

(** The rotation of a word as the two masked shifts: [l] left, [r] right. *)
Lemma rotate_shifts a l r :
  inU XLEN a -> 0 <= l -> 0 <= r -> l + r = XLEN ->
  Z.lor (ux (Z.shiftl a l)) (Z.shiftr a r) = ux (a * 2 ^ l + a / 2 ^ r).
Proof.
  intros Ha Hl Hr E. rewrite Z.shiftl_mul_pow2, Z.shiftr_div_pow2 by lia.
  assert (0 <= a / 2 ^ r < 2 ^ l) as Hz.
  { unfold inU in Ha. rewrite <- E, Z.pow_add_r in Ha by lia.
    pose proof (pow2_pos l Hl). pose proof (pow2_pos r Hr). split; [apply Z.div_pos; lia|].
    apply Z.div_lt_upper_bound; nia. }
  assert (ux (a * 2 ^ l) = a mod 2 ^ r * 2 ^ l) as ->.
  { unfold ux, wrapU. rewrite <- E, Z.pow_add_r, (Z.mul_comm (2 ^ l)) by lia.
    rewrite Z.mul_mod_distr_r by (pose proof (pow2_pos r Hr); pose proof (pow2_pos l Hl); lia).
    done. }
  rewrite lor_high_low by done. symmetry. unfold ux, wrapU.
  rewrite <- (Zplus_mod_idemp_l (a * 2 ^ l)).
  replace (a * 2 ^ l mod 2 ^ XLEN) with (a mod 2 ^ r * 2 ^ l).
  2: { rewrite <- E, Z.pow_add_r, (Z.mul_comm (2 ^ l)) by lia.
       by rewrite Z.mul_mod_distr_r by (pose proof (pow2_pos r Hr); pose proof (pow2_pos l Hl); lia). }
  apply Z.mod_small. rewrite <- E, Z.pow_add_r by lia.
  pose proof (Z.mod_pos_bound a (2 ^ r) (pow2_pos r Hr)). nia.
Qed.

Lemma complement_mask k :
  0 <= k < XLEN -> Z.land (ux (XLEN - k)) (XLEN - 1) = if k =? 0 then 0 else XLEN - k.
Proof.
  intros Hk. rewrite land_XLEN_mask, ux_small.
  - destruct (Z.eqb_spec k 0) as [->|]; [by rewrite Z.sub_0_r, Z.mod_same by lia|].
    apply Z.mod_small; lia.
  - rewrite inU_half. pose proof half_base_spec. destruct XLEN_cases as [E|E]; nia.
Qed.

Lemma rotate_zero a : inU XLEN a -> Z.lor (ux (Z.shiftl a 0)) (Z.shiftr a 0) = a.
Proof. intros. by rewrite Z.shiftl_0_r, Z.shiftr_0_r, ux_small, Z.lor_diag. Qed.

Lemma ror_exact a b : inU XLEN a -> ror a b = ux (rotate_right XLEN a (b mod XLEN)).
Proof.
  intros Ha. unfold ror. rewrite !land_XLEN_mask. pose proof (mod_XLEN_range b) as Hk.
  set (k := b mod XLEN) in *. rewrite <- land_XLEN_mask, complement_mask by done.
  unfold rotate_right. destruct (Z.eqb_spec k 0) as [->|].
  - rewrite rotate_zero by done. change (2 ^ 0) with 1. rewrite Z.div_1_r, Z.sub_0_r.
    unfold ux. rewrite wrapU_add_multiple by lia. by rewrite wrapU_small.
  - rewrite rotate_shifts by (done || lia). f_equal. lia.
Qed.

Lemma rol_exact a b : inU XLEN a -> rol a b = ux (rotate_left XLEN a (b mod XLEN)).
Proof.
  intros Ha. unfold rol. rewrite !land_XLEN_mask. pose proof (mod_XLEN_range b) as Hk.
  set (k := b mod XLEN) in *. rewrite <- land_XLEN_mask, complement_mask by done.
  unfold rotate_left. destruct (Z.eqb_spec k 0) as [->|].
  - rewrite rotate_zero by done. change (2 ^ 0) with 1. rewrite Z.mul_1_r, Z.sub_0_r.
    rewrite (Z.div_small a) by done. by rewrite Z.add_0_r, ux_small.
  - rewrite rotate_shifts by (done || lia). done.
Qed.

(** ** Carry-less multiplication *)

Lemma low_bit_test b j : 0 <= j -> negb (Z.land (Z.shiftr b j) 1 =? 0) = Z.testbit b j.
Proof.
  intros Hj. change 1 with (Z.ones 1). rewrite Z.land_ones, Z.shiftr_div_pow2 by lia.
  change (2 ^ 1) with 2. rewrite <- Z.testbit_spec' by lia. by destruct (Z.testbit b j).
Qed.

Lemma ux_lxor a b : ux (Z.lxor a b) = Z.lxor (ux a) (ux b).
Proof. unfold ux. pose proof XLEN_pos. bitblast. Qed.

(** A loop that adds in a selected term at every step. *)
Lemma xor_loop (sel : Z -> bool) (term : Z -> Z) l acc :
  foldl (fun r j => if sel j then Z.lxor r (term j) else r) acc l =
  Z.lxor acc (foldr Z.lxor 0 ((fun j => if sel j then term j else 0) <$> l)).
Proof.
  revert acc. induction l as [|j l IH]; intros acc; csimpl; [by rewrite Z.lxor_0_r|].
  rewrite IH. destruct (sel j).
  - by rewrite Z.lxor_assoc.
  - by rewrite Z.lxor_0_l.
Qed.

Lemma foldr_lxor_map (f : Z -> Z) l :
  f 0 = 0 -> (forall a b, f (Z.lxor a b) = Z.lxor (f a) (f b)) ->
  f (foldr Z.lxor 0 l) = foldr Z.lxor 0 (f <$> l).
Proof. intros H0 Hx. induction l as [|a l IH]; csimpl; [done|]. by rewrite Hx, IH. Qed.

Lemma foldr_lxor_ext (f g : Z -> Z) l :
  Forall (fun j => f j = g j) l ->
  foldr Z.lxor 0 (f <$> l) = foldr Z.lxor 0 (g <$> l).
Proof. induction 1 as [|j l E _ IH]; csimpl; [done|]. by rewrite E, IH. Qed.

(** Both high parts of the product, [w] bits up. *)
Lemma carryless_high a b w :
  0 <= w -> carryless_product XLEN a b / 2 ^ w =
  foldr Z.lxor 0 ((fun j => if Z.testbit b j then a * 2 ^ j / 2 ^ w else 0) <$> seqZ 0 XLEN).
Proof.
  intros Hw. unfold carryless_product. rewrite <- Z.shiftr_div_pow2 by lia.
  rewrite (foldr_lxor_map (fun v => Z.shiftr v w));
    [|apply Z.shiftr_0_l | intros; apply Z.shiftr_lxor].
  rewrite <- list_fmap_compose. apply foldr_lxor_ext, Forall_seqZ. intros j Hj. simpl.
  destruct (Z.testbit b j); [by rewrite Z.shiftr_div_pow2 by lia | apply Z.shiftr_0_l].
Qed.

Lemma shift_up_down a j w : 0 <= j <= w -> a * 2 ^ j / 2 ^ w = Z.shiftr a (w - j).
Proof.
  intros. rewrite Z.shiftr_div_pow2 by lia. replace w with (w - j + j) at 1 by lia.
  rewrite Z.pow_add_r by lia. apply Z.div_mul_cancel_r; pose proof (pow2_pos j);
    pose proof (pow2_pos (w - j)); lia.
Qed.

Lemma clmul_exact a b : clmul a b = ux (carryless_product XLEN a b).
Proof.
  unfold clmul, bits_up, carryless_product. rewrite xor_loop, Z.lxor_0_l.
  rewrite (foldr_lxor_map ux) by (done || apply ux_lxor).
  rewrite <- list_fmap_compose. apply foldr_lxor_ext, Forall_seqZ. intros j Hj. simpl.
  rewrite low_bit_test by lia. destruct (Z.testbit b j); [|done].
  by rewrite Z.shiftl_mul_pow2 by lia.
Qed.

Lemma clmulh_exact a b : inU XLEN a -> clmulh a b = carryless_product XLEN a b / 2 ^ XLEN.
Proof.
  intros Ha. unfold clmulh. rewrite xor_loop, Z.lxor_0_l. pose proof XLEN_pos.
  rewrite carryless_high, (seqZ_cons 0) by lia. csimpl.
  replace (if Z.testbit b 0 then a * 1 / 2 ^ XLEN else 0) with 0.
  2: { rewrite Z.mul_1_r, (Z.div_small a) by done. by destruct (Z.testbit b 0). }
  rewrite Z.lxor_0_l. apply foldr_lxor_ext, Forall_seqZ. intros j Hj.
  rewrite low_bit_test by lia. destruct (Z.testbit b j); [|done].
  by rewrite shift_up_down by lia.
Qed.

Lemma clmulr_exact a b : clmulr a b = carryless_product XLEN a b / 2 ^ (XLEN - 1).
Proof.
  unfold clmulr, bits_up. rewrite xor_loop, Z.lxor_0_l. pose proof XLEN_pos.
  rewrite carryless_high by lia. apply foldr_lxor_ext, Forall_seqZ. intros j Hj.
  rewrite low_bit_test by lia. destruct (Z.testbit b j); [|done].
  rewrite shift_up_down by lia. f_equal. lia.
Qed.

(** ** Sign extension and single bits *)

Lemma sextb_exact a : sextb a = ux (s8 a).
Proof. unfold sextb, ux, sx. destruct XLEN_cases as [E|E]; rewrite E; bitblast. Qed.
Lemma sexth_exact a : sexth a = ux (s16 a).
Proof. unfold sexth, ux, sx. destruct XLEN_cases as [E|E]; rewrite E; bitblast. Qed.
Lemma zexth_exact a : zexth a = u16 a.
Proof. unfold zexth, ux. destruct XLEN_cases as [E|E]; rewrite E; bitblast. Qed.

Lemma testbit_pow2 k i : 0 <= k -> Z.testbit (2 ^ k) i = (k =? i).
Proof. apply Z.pow2_bits_eqb. Qed.

Lemma bclr_exact a k : inU XLEN a -> 0 <= k < XLEN -> bclr a k = Z.clearbit a k.
Proof.
  intros Ha Hk. unfold bclr. rewrite land_XLEN_mask, Z.mod_small, Z.shiftl_1_l by lia.
  apply Z.bits_inj'; intros i Hi. rewrite Z.land_spec, Z.clearbit_eqb by lia.
  unfold ux. rewrite testbit_wrapU, Z.lnot_spec, Z.pow2_bits_eqb by lia.
  destruct (Z.ltb_spec i XLEN); simpl; [done|].
  by rewrite (testbit_small XLEN a) by (done || lia).
Qed.

Lemma bext_exact a k : 0 <= k < XLEN -> bext a k = Z.b2z (Z.testbit a k).
Proof.
  intros Hk. unfold bext. rewrite land_XLEN_mask, Z.mod_small by lia.
  change 1 with (Z.ones 1). rewrite Z.land_ones, Z.shiftr_div_pow2 by lia.
  symmetry. apply Z.testbit_spec'. lia.
Qed.

(** ** Bytes *)

Lemma le_split_bytes n x :
  le_split n x = (fun k => x / 2 ^ (8 * k) mod 256) <$> seqZ 0 (Z.of_nat n).
Proof.
  revert x. induction n as [|n IH]; intros x; [done|].
  rewrite seqZ_cons by lia. csimpl. f_equal; [by rewrite Z.div_1_r|].
  rewrite IH. replace (Z.pred (Z.of_nat (S n))) with (Z.of_nat n) by lia.
  change (Z.succ 0) with (1 + 0). rewrite <- fmap_add_seqZ, <- list_fmap_compose.
  apply list_fmap_ext. intros i k Hk. simpl. apply lookup_seqZ in Hk as [-> ?].
  change 256 with (2 ^ 8). rewrite Z.div_div by (pose proof (pow2_pos (8 * (0 + Z.of_nat i))); lia).
  rewrite <- Z.pow_add_r by lia. do 3 f_equal. lia.
Qed.

Lemma le_combine_app l1 l2 :
  le_combine (l1 ++ l2) = le_combine l1 + 256 ^ Z.of_nat (length l1) * le_combine l2.
Proof.
  induction l1 as [|b l1 IH]; [simpl; lia|].
  rewrite <- app_comm_cons. cbn [le_combine length]. rewrite IH, Nat2Z.inj_succ, Z.pow_succ_r by lia.
  ring.
Qed.

Lemma land_byte x : Z.land x 0xFF = x mod 256.
Proof. exact (Z.land_ones x 8 ltac:(lia)). Qed.

(** Accumulating bytes from the top. *)
Lemma rev8_loop x l acc acc' :
  Forall (fun sh => 0 <= sh) l -> ux acc = ux acc' ->
  ux (foldl (fun r sh => Z.lor (ux (Z.shiftl r 8)) (Z.land (Z.shiftr x sh) 0xFF)) acc l) =
  ux (le_combine (reverse ((fun sh => x / 2 ^ sh mod 256) <$> l)) +
      256 ^ Z.of_nat (length l) * acc').
Proof.
  intros Hl. revert acc acc'. induction Hl as [|sh l Hsh Hl IH]; intros acc acc' E.
  { csimpl. rewrite E. f_equal. lia. }
  cbn [foldl]. rewrite (IH _ (acc' * 256 + x / 2 ^ sh mod 256)).
  - csimpl. rewrite reverse_cons, le_combine_app. cbn [le_combine].
    rewrite length_reverse, length_fmap, Nat2Z.inj_succ, Z.pow_succ_r by lia. f_equal. ring.
  - rewrite land_byte, Z.shiftr_div_pow2 by lia.
    pose proof (Z.mod_pos_bound (x / 2 ^ sh) 256 ltac:(lia)).
    assert (ux (Z.shiftl acc 8) = acc mod 2 ^ (XLEN - 8) * 2 ^ 8) as ->.
    { rewrite Z.shiftl_mul_pow2 by lia. unfold ux, wrapU. pose proof XLEN_pos.
      replace XLEN with (XLEN - 8 + 8) at 1 by lia. rewrite Z.pow_add_r by lia.
      apply Z.mul_mod_distr_r; pose proof (pow2_pos (XLEN - 8)); lia. }
    rewrite lor_high_low by (unfold inU; lia). change (2 ^ 8) with 256.
    rewrite <- (ux_add_l (_ * 256)), <- (ux_add_l (acc' * 256)). do 2 f_equal.
    transitivity (ux (acc * 256)).
    + unfold ux, wrapU. pose proof XLEN_pos. replace XLEN with (XLEN - 8 + 8) by lia.
      replace (XLEN - 8 + 8 - 8) with (XLEN - 8) by lia.
      rewrite Z.pow_add_r by lia. change (2 ^ 8) with 256.
      rewrite !Z.mul_mod_distr_r by (pose proof (pow2_pos (XLEN - 8)); lia).
      by rewrite Zmod_mod.
    + rewrite <- ux_mul_l, E, ux_mul_l. done.
Qed.

Lemma byte_shifts_nonneg : Forall (fun sh => 0 <= sh) byte_shifts.
Proof. apply Forall_fmap, Forall_seqZ. simpl. lia. Qed.

Lemma XLEN_bytes : exists n : nat, XLEN / 8 = Z.of_nat n /\ XLEN = 8 * Z.of_nat n.
Proof. destruct XLEN_cases as [E|E]; rewrite E; [by exists 4%nat | by exists 8%nat]. Qed.

Lemma rev8_exact a : ux (rev8 a) = ux (uop_sem REV8 a).
Proof.
  unfold rev8, uop_sem. rewrite (rev8_loop a byte_shifts 0 0) by (done || apply byte_shifts_nonneg).
  rewrite Z.mul_0_r, Z.add_0_r. do 3 f_equal. unfold byte_shifts.
  destruct XLEN_bytes as (n & E & _). rewrite E, Nat2Z.id, le_split_bytes.
  by rewrite <- list_fmap_compose.
Qed.

Lemma le_combine_bound l :
  Forall (fun b => 0 <= b < 256) l -> 0 <= le_combine l < 256 ^ Z.of_nat (length l).
Proof.
  induction 1 as [|b l Hb Hl IH]; cbn [le_combine length]; [lia|].
  rewrite Nat2Z.inj_succ, Z.pow_succ_r by lia. lia.
Qed.

(** The partial result after [n] bytes is a number of [n] bytes. *)
Lemma orcb_loop x (n : nat) :
  8 * Z.of_nat n <= XLEN ->
  foldl (fun r sh => if negb (Z.land (Z.shiftr x sh) 0xFF =? 0)
                     then Z.lor r (ux (Z.shiftl 0xFF sh)) else r) 0
    ((fun k => 8 * k) <$> seqZ 0 (Z.of_nat n)) =
  le_combine ((fun b => if b =? 0 then 0 else 255) <$> le_split n x).
Proof.
  rewrite le_split_bytes, <- list_fmap_compose. induction n as [|n IH]; intros Hn; [done|].
  rewrite seqZ_S, !fmap_app, foldl_app, IH, le_combine_app by lia. csimpl.
  rewrite land_byte, Z.shiftr_div_pow2 by lia.
  set (l := _ <$> seqZ 0 (Z.of_nat n)).
  assert (0 <= le_combine l < 256 ^ Z.of_nat (length l)) as Hl.
  { apply le_combine_bound, Forall_fmap, Forall_seqZ. intros k Hk. simpl.
    destruct (_ =? 0); lia. }
  assert (length l = n) as El by (unfold l; by rewrite length_fmap, length_seqZ, Nat2Z.id).
  rewrite El in *. change 256 with (2 ^ 8) in Hl. rewrite <- Z.pow_mul_r in Hl by lia.
  change (256 ^ Z.of_nat n) with ((2 ^ 8) ^ Z.of_nat n). rewrite <- Z.pow_mul_r by lia.
  rewrite Z.add_0_l. destruct (_ =? 0); simpl negb; cbn iota; [lia|].
  rewrite ux_small.
  - rewrite Z.shiftl_mul_pow2, Z.lor_comm, lor_high_low by (done || lia). lia.
  - unfold inU. rewrite Z.shiftl_mul_pow2 by lia.
    assert (2 ^ (8 + 8 * Z.of_nat n) <= 2 ^ XLEN) by (apply Z.pow_le_mono_r; lia).
    rewrite Z.pow_add_r in * by lia. pose proof (pow2_pos (8 * Z.of_nat n)). lia.
Qed.

Lemma orcb_exact a : orcb a = uop_sem ORCB a.
Proof.
  unfold orcb, uop_sem, byte_shifts. destruct XLEN_bytes as (n & E & E').
  rewrite E, Nat2Z.id. apply orcb_loop. lia.
Qed.

(** ** Division *)

Lemma sx_eq_0 b : inU XLEN b -> (sx b =? 0) = (b =? 0).
Proof.
  intros Hb. unfold sx. pose proof XLEN_pos. rewrite wrapS_cases by (done || lia).
  unfold inU in Hb. destruct (Z.ltb_spec b (2 ^ (XLEN - 1))); [done|].
  pose proof (pow2_pos (XLEN - 1)).
  destruct (Z.eqb_spec (b - 2 ^ XLEN) 0), (Z.eqb_spec b 0); lia.
Qed.

Lemma ux_min_int : ux kMinIntX = ux (- kMinIntX).
Proof.
  unfold ux, kMinIntX. pose proof XLEN_pos. rewrite <- (wrapU_add_multiple XLEN _ 1) by lia.
  f_equal. rewrite (pow2_split XLEN) by lia. lia.
Qed.

Lemma div_exact a b : inU XLEN b -> ux (div (sx a) (sx b)) = ux (rop_sem DIV a b).
Proof.
  intros Hb. unfold div, rop_sem. rewrite sx_eq_0 by done. destruct (b =? 0); [done|].
  destruct (Z.eqb_spec (sx b) (-1)) as [->|]; [|done].
  destruct (Z.eqb_spec (sx a) kMinIntX) as [->|]; [|done]. simpl.
  change (-1) with (- (1)). rewrite Z.quot_opp_r, Z.quot_1_r by lia. apply ux_min_int.
Qed.

Lemma rem_exact a b : inU XLEN b -> ux (rem (sx a) (sx b)) = ux (rop_sem REM a b).
Proof.
  intros Hb. unfold rem, rop_sem. rewrite sx_eq_0 by done.
  destruct (b =? 0); [apply ux_sx|].
  destruct (Z.eqb_spec (sx b) (-1)) as [->|]; [|done].
  destruct (Z.eqb_spec (sx a) kMinIntX) as [->|]; [|done]. simpl.
  change (-1) with (- (1)). by rewrite Z.rem_opp_r, Z.rem_1_r by lia.
Qed.

End BitSpec.
