(* ===== verification/AsmExec.v ===== *)
(** * AsmExec: from emitted bytes to executed instructions

    What links the assembler to the simulator: the bytes a method appends, the
    memory that holds them at [pc_], and the iteration of [ExecuteNoTrace]
    that fetches, decodes and interprets them.  The format lemmas give the word
    every [Emit*Type] method emits and the fields the simulator decodes from
    it. *)

From stdpp Require Import base numbers list gmap.
From Stdlib Require Import Lia.
From S2P Require Import Prelude Constants Encoding CEncoding AsmBuffer SimState.
From S2P Require Import SimInt SimAtomic SimFloat SimCompressed Simulator Isa IntSpec BitSpec.

#[local] Open Scope Z_scope.
#[local] Open Scope res_scope.

(** ** Well-formed simulator states *)

Record sim_ok `{Target} (s : Sim) : Prop := {
  ok_pc : inU XLEN (pc_ s);
  ok_xregs_length : length (xregs_ s) = 32%nat;
  ok_xregs : Forall (inU XLEN) (xregs_ s);
  ok_zero : xregs_ s !!! 0%nat = 0;
  ok_fregs_length : length (fregs_ s) = 32%nat;
  ok_instret : inU 64 (instret_ s);
  ok_mem : map_Forall (fun _ b => inU 8 b) (mem_ s)
}.

(** ** Memory holding code *)

Definition code_at (m : memory) (addr : Z) (bytes : list Z) : Prop :=
  forall i b, bytes !! i = Some b -> m !! (addr + Z.of_nat i) = Some b.

(** Running the one instruction at [pc_], when memory holds [bytes] there. *)
Definition runs_as `{Target} `{HostNaN} `{Host} (bytes : list Z) (f : Z -> Sim -> Res Sim) : Prop :=
  forall s, sim_ok s -> pc_ s mod 2 = 0 -> code_at (mem_ s) (pc_ s) bytes ->
  ExecuteOne s = f (Z.of_nat (length bytes)) s.

(** From [a], the outcome [r] appended one instruction, of two or four bytes,
    that runs as [f], and changed nothing else. *)
Definition produces `{Target} `{HostNaN} `{Host} (r : Res Asm) (a : Asm)
    (f : Z -> Sim -> Res Sim) : Prop :=
  exists bytes, r = Ok (set_buffer a (buffer_ a ++ bytes)) /\
                (length bytes = 2%nat \/ length bytes = 4%nat) /\ runs_as bytes f.

Definition implements `{Target} `{HostNaN} `{Host} (m : Asm -> Res Asm) (a : Asm)
    (f : Z -> Sim -> Res Sim) : Prop := produces (m a) a f.

Lemma le_split_length n v : length (le_split n v) = n.
Proof. revert v. induction n; intros; simpl; auto. Qed.

Lemma le_combine_split n v : le_combine (le_split n v) = v mod 2 ^ (8 * Z.of_nat n).
Proof.
  revert v. induction n as [|n IH]; intros v; [by rewrite Z.mod_1_r|].
  cbn [le_split le_combine]. rewrite IH.
  replace (8 * Z.of_nat (S n)) with (8 + 8 * Z.of_nat n) by lia.
  rewrite Z.pow_add_r by lia. change (2 ^ 8) with 256.
  rewrite Z.rem_mul_r by (pose proof (pow2_pos (8 * Z.of_nat n)); lia). done.
Qed.

Lemma code_at_cons m addr b bs :
  code_at m addr (b :: bs) <-> m !! addr = Some b /\ code_at m (addr + 1) bs.
Proof.
  split.
  - intros Hc. split; [by rewrite <- (Hc 0%nat b eq_refl); f_equal; lia|].
    intros i c Hi. rewrite <- (Hc (S i) c Hi). f_equal. lia.
  - intros [H0 Hc] [|i] c Hi; simpl in Hi; simplify_eq; [by rewrite Z.add_0_r|].
    rewrite <- (Hc i c Hi). f_equal. lia.
Qed.

Lemma code_at_app m addr l1 l2 :
  code_at m addr (l1 ++ l2) <->
  code_at m addr l1 /\ code_at m (addr + Z.of_nat (length l1)) l2.
Proof.
  revert addr. induction l1 as [|b l1 IH]; intros addr; simpl.
  - rewrite Z.add_0_r. split; [intros ?; split; [by intros i c Hi|done] | by intros [_ ?]].
  - rewrite !code_at_cons, IH. replace (addr + Z.of_nat (S (length l1)))
      with (addr + 1 + Z.of_nat (length l1)) by lia. tauto.
Qed.

Lemma load_bytes_code m addr bs :
  code_at m addr bs -> load_bytes m addr (length bs) = Ok (le_combine bs).
Proof.
  revert addr. induction bs as [|b bs IH]; intros addr Hc; [done|].
  apply code_at_cons in Hc as [Hb Hc]. cbn [load_bytes length le_combine].
  rewrite Hb, (IH _ Hc). done.
Qed.

(** A load of [n] bytes where memory holds the bytes of [v]. *)
Lemma load_bytes_split m addr n v :
  code_at m addr (le_split n v) -> load_bytes m addr n = Ok (v mod 2 ^ (8 * Z.of_nat n)).
Proof.
  intros Hc. apply load_bytes_code in Hc. by rewrite le_split_length, le_combine_split in Hc.
Qed.

Lemma land_one x : Z.land x 1 = x mod 2.
Proof. exact (Z.land_ones x 1 ltac:(lia)). Qed.

Section Fetch.
Context `{Target} `{HostNaN} `{Host}.

(** The last two bits of the first parcel separate the two lengths. *)
Lemma fetch_32 s w :
  pc_ s mod 2 = 0 -> inU 32 w -> field w 0 2 = 3 -> code_at (mem_ s) (pc_ s) (le_split 4 w) ->
  ExecuteOne s = let* s := Interpret w s in Ok (retire s).
Proof.
  intros Hpc Hw Hf Hc. unfold ExecuteOne, FetchParcel.
  rewrite land_one, Hpc. simpl negb. cbn iota.
  pose proof Hc as Hc2. change (le_split 4 w) with (le_split 2 w ++ le_split 2 (w / 256 / 256)) in Hc2.
  apply code_at_app in Hc2 as [Hc2 _].
  unfold LoadUnaligned. change (Z.to_nat (sizeof uint16_t)) with 2%nat.
  change (Z.to_nat (sizeof uint32_t)) with 4%nat.
  rewrite (load_bytes_split _ _ _ _ Hc2), (load_bytes_split _ _ _ _ Hc). cbn [rbind cast].
  change (w mod 2 ^ (8 * Z.of_nat 2)) with (u16 w). change (w mod 2 ^ (8 * Z.of_nat 4)) with (u32 w).
  rewrite !wrapU_wrapU, (wrapU_small 32 w) by done.
  assert (IsCInstruction (u16 w) = false) as ->; [|done].
  unfold IsCInstruction. fold_masks. unfold field in Hf. rewrite Z.shiftr_0_r in Hf.
  replace (Z.land (u16 w) (Z.ones 2)) with (Z.land w (Z.ones 2)) by bitblast.
  by rewrite Hf.
Qed.

Lemma fetch_16 s w :
  pc_ s mod 2 = 0 -> inU 16 w -> IsCInstruction w = true -> code_at (mem_ s) (pc_ s) (le_split 2 w) ->
  ExecuteOne s = let* s := InterpretC w s in Ok (retire s).
Proof.
  intros Hpc Hw Hf Hc. unfold ExecuteOne, FetchParcel.
  rewrite land_one, Hpc. simpl negb. cbn iota.
  unfold LoadUnaligned. change (Z.to_nat (sizeof uint16_t)) with 2%nat. rewrite (load_bytes_split _ _ _ _ Hc). cbn [rbind cast].
  change (w mod 2 ^ (8 * Z.of_nat 2)) with (u16 w).
  by rewrite wrapU_wrapU, (wrapU_small 16 w), Hf by done.
Qed.

(** ** One method, one instruction *)

Lemma implements_32 m a w f :
  m a = Emit32 w a -> inU 32 w -> field w 0 2 = 3 ->
  (forall s, sim_ok s -> (let* s := Interpret w s in Ok (retire s)) = f 4 s) ->
  implements m a f.
Proof.
  intros Hm Hw Hf Hs. exists (le_split 4 w). split_and!.
  - rewrite Hm. unfold Emit32, Emit. by rewrite (wrapU_small 32 w).
  - right. apply le_split_length.
  - intros s Hok Hpc Hc. rewrite (fetch_32 s w), le_split_length by done. by apply Hs.
Qed.

Lemma implements_16 m a w f :
  m a = Emit16 w a -> inU 16 w -> IsCInstruction w = true ->
  (forall s, sim_ok s -> (let* s := InterpretC w s in Ok (retire s)) = f 2 s) ->
  implements m a f.
Proof.
  intros Hm Hw Hf Hs. exists (le_split 2 w). split_and!.
  - rewrite Hm. unfold Emit16, Emit. by rewrite (wrapU_small 16 w).
  - left. apply le_split_length.
  - intros s Hok Hpc Hc. rewrite (fetch_16 s w), le_split_length by done. by apply Hs.
Qed.

End Fetch.
