(* ===== verification/AsmFormats.v ===== *)
(** * AsmFormats: the word every format emits and the fields decoded from it

    For arguments in range, each [Emit*Type] method emits one 32-bit word, in
    release and DEBUG builds alike, and the accessors of [Instr] recover the
    arguments from that word. *)

From stdpp Require Import base numbers list gmap.
From Stdlib Require Import Lia.
From S2P Require Import Prelude Constants Encoding CEncoding AsmBuffer SimState.

#[local] Open Scope Z_scope.
#[local] Open Scope res_scope.

Definition rtype_word (f7 rs2 rs1 f3 rd op : Z) : Z :=
  Z.lor (Z.lor (Z.lor (Z.lor (Z.lor (Z.lor 0 (Z.shiftl f7 25)) (Z.shiftl rs2 20))
    (Z.shiftl rs1 15)) (Z.shiftl f3 12)) (Z.shiftl rd 7)) (Z.shiftl op 0).
Definition r4type_word (rs3 f2 rs2 rs1 f3 rd op : Z) : Z :=
  Z.lor (Z.lor (Z.lor (Z.lor (Z.lor (Z.lor (Z.lor 0 (Z.shiftl rs3 27)) (Z.shiftl f2 25))
    (Z.shiftl rs2 20)) (Z.shiftl rs1 15)) (Z.shiftl f3 12)) (Z.shiftl rd 7)) (Z.shiftl op 0).
Definition itype_word (imm rs1 f3 rd op : Z) : Z :=
  Z.lor (Z.lor (Z.lor (Z.lor (Z.lor 0 (Z.shiftl (field imm 0 12) 20))
    (Z.shiftl rs1 15)) (Z.shiftl f3 12)) (Z.shiftl rd 7)) (Z.shiftl op 0).
Definition stype_imm_word (imm : Z) : Z :=
  Z.lor (Z.lor 0 (Z.shiftl (field imm 5 7) 25)) (Z.shiftl (field imm 0 5) 7).
Definition btype_imm_word (imm : Z) : Z :=
  Z.lor (Z.lor (Z.lor (Z.lor 0 (Z.shiftl (field imm 12 1) 31)) (Z.shiftl (field imm 5 6) 25))
    (Z.shiftl (field imm 1 4) 8)) (Z.shiftl (field imm 11 1) 7).
Definition jtype_imm_word (imm : Z) : Z :=
  Z.lor (Z.lor (Z.lor (Z.lor 0 (Z.shiftl (field imm 20 1) 31)) (Z.shiftl (field imm 1 10) 21))
    (Z.shiftl (field imm 11 1) 20)) (Z.shiftl (field imm 12 8) 12).
(** The S and B formats share their other fields. *)
Definition stype_word (imm_word rs2 rs1 f3 op : Z) : Z :=
  Z.lor (Z.lor (Z.lor (Z.lor (Z.lor 0 imm_word) (Z.shiftl rs2 20)) (Z.shiftl rs1 15))
    (Z.shiftl f3 12)) (Z.shiftl op 0).
Definition utype_word (imm_word rd op : Z) : Z :=
  Z.lor (Z.lor (Z.lor 0 imm_word) (Z.shiftl rd 7)) (Z.shiftl op 0).

(** ** Ranges of composed words *)

Lemma inU_lor n a b : 0 <= n -> inU n a -> inU n b -> inU n (Z.lor a b).
Proof.
  intros Hn Ha Hb. rewrite <- (wrapU_small n a), <- (wrapU_small n b) by done.
  replace (Z.lor (wrapU n a) (wrapU n b)) with (wrapU n (Z.lor a b)) by bitblast.
  by apply wrapU_range.
Qed.

Lemma inU_shiftl n m v p : inU m v -> 0 <= m -> 0 <= p -> p + m <= n -> inU n (Z.shiftl v p).
Proof.
  intros Hv ???. unfold inU in *. rewrite Z.shiftl_mul_pow2 by lia.
  assert (2 ^ (p + m) <= 2 ^ n) by (apply Z.pow_le_mono_r; lia).
  rewrite Z.pow_add_r in * by lia. pose proof (pow2_pos p ltac:(lia)). nia.
Qed.

Lemma inU_0 n : 0 <= n -> inU n 0.
Proof. intros. pose proof (pow2_pos n). unfold inU. lia. Qed.

Lemma inU_mono m n v : inU m v -> 0 <= m <= n -> inU n v.
Proof. unfold inU. intros. assert (2 ^ m <= 2 ^ n) by (apply Z.pow_le_mono_r; lia). lia. Qed.

Ltac word_range :=
  repeat (apply inU_lor; [lia| |]);
  try match goal with
  | |- inU _ 0 => apply inU_0; lia
  | |- inU _ (Z.shiftl (field _ _ ?k) _) =>
      apply (inU_shiftl _ k); [apply field_range; lia|lia..]
  | H : inU ?k ?v |- inU _ (Z.shiftl ?v _) => apply (inU_shiftl _ k); [exact H|lia..]
  end; try done.

Section Formats.
Context `{Target}.

(** ** Emission *)

Lemma EncodeFunct7_ok f : inU 7 f -> EncodeFunct7 f = Ok (Z.shiftl f 25).
Proof. intros. by apply (EncodeFunct_ok f 25 7). Qed.
Lemma EncodeFunct3_ok f : inU 3 f -> EncodeFunct3 f = Ok (Z.shiftl f 12).
Proof. intros. by apply (EncodeFunct_ok f 12 3). Qed.
Lemma EncodeFunct2_ok f : inU 2 f -> EncodeFunct2 f = Ok (Z.shiftl f 25).
Proof. intros. by apply (EncodeFunct_ok f 25 2). Qed.
Lemma EncodeRoundingMode_ok f : inU 3 f -> EncodeRoundingMode f = Ok (Z.shiftl f 12).
Proof. intros. by apply (EncodeFunct_ok f 12 3). Qed.
Lemma EncodeOpcode_ok f : inU 7 f -> EncodeOpcode f = Ok (Z.shiftl f 0).
Proof. intros. by apply (EncodeFunct_ok f 0 7). Qed.
Lemma EncodeRd_ok r : inU 5 r -> EncodeRd r = Ok (Z.shiftl r 7).
Proof. intros. by apply EncodeReg_ok. Qed.
Lemma EncodeRs1_ok r : inU 5 r -> EncodeRs1 r = Ok (Z.shiftl r 15).
Proof. intros. by apply EncodeReg_ok. Qed.
Lemma EncodeRs2_ok r : inU 5 r -> EncodeRs2 r = Ok (Z.shiftl r 20).
Proof. intros. by apply EncodeReg_ok. Qed.
Lemma EncodeFRs3_ok r : inU 5 r -> EncodeFRs3 r = Ok (Z.shiftl r 27).
Proof. intros. by apply EncodeReg_ok. Qed.

Lemma u32_field imm lo n p : 0 <= n -> 0 <= p -> p + n <= 32 ->
  u32 (Z.shiftl (field imm lo n) p) = Z.shiftl (field imm lo n) p.
Proof. intros. apply (u32_shiftl _ _ n); [by apply field_range|lia..]. Qed.

Lemma EncodeITypeImm_ok imm :
  IsITypeImm imm = true -> EncodeITypeImm imm = Ok (Z.shiftl (field imm 0 12) 20).
Proof.
  intros. unfold EncodeITypeImm. rewrite ASSERT_true by done. cbn [rbind].
  f_equal. unfold ITypeImm_word, field. bitblast.
Qed.
Lemma EncodeSTypeImm_ok imm :
  IsSTypeImm imm = true -> EncodeSTypeImm imm = Ok (stype_imm_word imm).
Proof.
  intros. unfold EncodeSTypeImm. rewrite ASSERT_true by done. cbn [rbind].
  unfold STypeImm_word, stype_imm_word. fold_fields. by rewrite !u32_field by lia.
Qed.
Lemma EncodeBTypeImm_ok imm :
  IsBTypeImm imm = true -> EncodeBTypeImm imm = Ok (btype_imm_word imm).
Proof.
  intros. unfold EncodeBTypeImm. rewrite ASSERT_true by done. cbn [rbind].
  unfold BTypeImm_word, btype_imm_word. fold_fields. by rewrite !u32_field by lia.
Qed.
Lemma EncodeJTypeImm_ok imm :
  IsJTypeImm imm = true -> EncodeJTypeImm imm = Ok (jtype_imm_word imm).
Proof.
  intros. unfold EncodeJTypeImm. rewrite ASSERT_true by done. cbn [rbind].
  unfold JTypeImm_word, jtype_imm_word. fold_fields. by rewrite !u32_field by lia.
Qed.
Lemma EncodeUTypeImm_ok imm :
  inS kBitsPerWord imm -> IsUTypeImm imm = true ->
  EncodeUTypeImm imm = Ok (Z.shiftl (field imm 12 20) 12).
Proof.
  intros Hw Hi. unfold EncodeUTypeImm. rewrite ASSERT_true by done. cbn [rbind].
  apply IsUTypeImm_spec in Hi as [Hi Ha]; [|done]. f_equal. unfold UTypeImm_word, field. bitblast.
Qed.

Lemma EncodeShamt_ok sh : 0 <= sh < XLEN -> EncodeShamt sh = Ok (Z.shiftl sh 20).
Proof.
  intros Hs. unfold EncodeShamt, ShamtMask.
  rewrite (wrapU_small 32 sh) by (unfold inU; destruct XLEN_cases; lia).
  destruct XLEN_cases as [E|E]; rewrite E in *; simpl.
  - apply (EncodeFunct_ok sh 20 5); unfold inU; lia.
  - apply (EncodeFunct_ok sh 20 6); unfold inU; lia.
Qed.

(** Every format emits its word.  The overloads on floating-point registers
    and rounding modes are the same words. *)
Lemma EmitRType_word f7 rs2 rs1 f3 rd op a :
  inU 7 f7 -> inU 5 rs2 -> inU 5 rs1 -> inU 3 f3 -> inU 5 rd -> inU 7 op ->
  EmitRType f7 rs2 rs1 f3 rd op a = Emit32 (rtype_word f7 rs2 rs1 f3 rd op) a.
Proof.
  intros. unfold EmitRType, EmitFields, or_fields.
  by rewrite EncodeFunct7_ok, EncodeRs2_ok, EncodeRs1_ok, EncodeFunct3_ok, EncodeRd_ok,
    EncodeOpcode_ok.
Qed.

Lemma EmitRType_shamt_word f7 sh rs1 f3 rd op a :
  inU 7 f7 -> 0 <= sh < XLEN -> inU 5 rs1 -> inU 3 f3 -> inU 5 rd -> inU 7 op ->
  EmitRType_shamt f7 sh rs1 f3 rd op a = Emit32 (rtype_word f7 sh rs1 f3 rd op) a.
Proof.
  intros. unfold EmitRType_shamt, EmitFields, or_fields.
  by rewrite EncodeFunct7_ok, EncodeShamt_ok, EncodeRs1_ok, EncodeFunct3_ok, EncodeRd_ok,
    EncodeOpcode_ok.
Qed.

Lemma EmitR4Type_word rs3 f2 rs2 rs1 rm rd op a :
  inU 5 rs3 -> inU 2 f2 -> inU 5 rs2 -> inU 5 rs1 -> inU 3 rm -> inU 5 rd -> inU 7 op ->
  EmitR4Type rs3 f2 rs2 rs1 rm rd op a = Emit32 (r4type_word rs3 f2 rs2 rs1 rm rd op) a.
Proof.
  intros. unfold EmitR4Type, EmitFields, or_fields.
  change EncodeFRs2 with EncodeRs2. change EncodeFRs1 with EncodeRs1. change EncodeFRd with EncodeRd.
  by rewrite EncodeFRs3_ok, EncodeFunct2_ok, EncodeRs2_ok, EncodeRs1_ok, EncodeRoundingMode_ok,
    EncodeRd_ok, EncodeOpcode_ok.
Qed.

Lemma EmitIType_word imm rs1 f3 rd op a :
  IsITypeImm imm = true -> inU 5 rs1 -> inU 3 f3 -> inU 5 rd -> inU 7 op ->
  EmitIType imm rs1 f3 rd op a = Emit32 (itype_word imm rs1 f3 rd op) a.
Proof.
  intros. unfold EmitIType, EmitFields, or_fields.
  by rewrite EncodeITypeImm_ok, EncodeRs1_ok, EncodeFunct3_ok, EncodeRd_ok, EncodeOpcode_ok.
Qed.

Lemma EmitSType_word imm rs2 rs1 f3 op a :
  IsSTypeImm imm = true -> inU 5 rs2 -> inU 5 rs1 -> inU 3 f3 -> inU 7 op ->
  EmitSType imm rs2 rs1 f3 op a = Emit32 (stype_word (stype_imm_word imm) rs2 rs1 f3 op) a.
Proof.
  intros. unfold EmitSType, EmitFields, or_fields.
  by rewrite EncodeSTypeImm_ok, EncodeRs2_ok, EncodeRs1_ok, EncodeFunct3_ok, EncodeOpcode_ok.
Qed.

Lemma EmitBType_word imm rs2 rs1 f3 op a :
  IsBTypeImm imm = true -> inU 5 rs2 -> inU 5 rs1 -> inU 3 f3 -> inU 7 op ->
  EmitBType imm rs2 rs1 f3 op a = Emit32 (stype_word (btype_imm_word imm) rs2 rs1 f3 op) a.
Proof.
  intros. unfold EmitBType, EmitFields, or_fields.
  by rewrite EncodeBTypeImm_ok, EncodeRs2_ok, EncodeRs1_ok, EncodeFunct3_ok, EncodeOpcode_ok.
Qed.

Lemma EmitUType_word imm rd op a :
  inS kBitsPerWord imm -> IsUTypeImm imm = true -> inU 5 rd -> inU 7 op ->
  EmitUType imm rd op a = Emit32 (utype_word (Z.shiftl (field imm 12 20) 12) rd op) a.
Proof.
  intros. unfold EmitUType, EmitFields, or_fields.
  by rewrite EncodeUTypeImm_ok, EncodeRd_ok, EncodeOpcode_ok.
Qed.

Lemma EmitJType_word imm rd op a :
  IsJTypeImm imm = true -> inU 5 rd -> inU 7 op ->
  EmitJType imm rd op a = Emit32 (utype_word (jtype_imm_word imm) rd op) a.
Proof.
  intros. unfold EmitJType, EmitFields, or_fields.
  by rewrite EncodeJTypeImm_ok, EncodeRd_ok, EncodeOpcode_ok.
Qed.

End Formats.

(** ** Decoding *)

(** What the simulator's dispatch reads of a word, whatever its format. *)
Ltac decode_fields :=
  unfold Instr.opcode, Instr.rd, Instr.rs1, Instr.rs2, Instr.funct3, Instr.funct7, Instr.frs3,
    Instr.funct2, Instr.funct12, DecodeOpcode, DecodeRd, DecodeRs1, DecodeRs2, DecodeFunct3,
    DecodeFunct7, DecodeFRs3, DecodeFunct2, DecodeFunct12, DecodeReg, DecodeFunct;
  fold_fields; simpl_fields; try done.

(** The low bit of an even field is clear. *)
Lemma even_field_below v : v mod 2 ^ 1 = 0 -> field (Z.shiftl v 25) 20 6 = 0.
Proof.
  intros Hv. unfold field. apply Z.bits_inj'; intros i Hi. autorewrite with testbits.
  destruct (Z.ltb_spec i 6); [|by rewrite !andb_false_r].
  destruct (decide (i = 5)) as [->|].
  - by rewrite (testbit_aligned 1 v) by (done || lia).
  - by rewrite (Z.testbit_neg_r v), !andb_false_r by lia.
Qed.

Section Decode.
Context `{Target}.

Lemma rtype_fields f7 rs2 rs1 f3 rd op (w := rtype_word f7 rs2 rs1 f3 rd op) :
  inU 7 f7 -> inU 5 rs2 -> inU 5 rs1 -> inU 3 f3 -> inU 5 rd -> inU 7 op ->
  inU 32 w /\ Instr.opcode w = op /\ Instr.rd w = rd /\ Instr.funct3 w = f3 /\
  Instr.rs1 w = rs1 /\ Instr.rs2 w = rs2 /\ Instr.funct7 w = f7.
Proof. intros. unfold w, rtype_word. split_and!; [word_range | decode_fields..]. Qed.

Lemma r4type_fields rs3 f2 rs2 rs1 f3 rd op (w := r4type_word rs3 f2 rs2 rs1 f3 rd op) :
  inU 5 rs3 -> inU 2 f2 -> inU 5 rs2 -> inU 5 rs1 -> inU 3 f3 -> inU 5 rd -> inU 7 op ->
  inU 32 w /\ Instr.opcode w = op /\ Instr.rd w = rd /\ Instr.funct3 w = f3 /\
  Instr.rs1 w = rs1 /\ Instr.rs2 w = rs2 /\ Instr.funct2 w = f2 /\ Instr.frs3 w = rs3.
Proof. intros. unfold w, r4type_word. split_and!; [word_range | decode_fields..]. Qed.

(** A shift amount of six bits reaches into the funct7 field, whose low bit
    the RV64 shifts leave clear. *)
Lemma shamt_fields f7 sh rs1 f3 rd op (w := rtype_word f7 sh rs1 f3 rd op) :
  inU 7 f7 -> 0 <= sh < XLEN -> (XLEN = 64 -> f7 mod 2 ^ 1 = 0) ->
  inU 5 rs1 -> inU 3 f3 -> inU 5 rd -> inU 7 op ->
  inU 32 w /\ Instr.opcode w = op /\ Instr.rd w = rd /\ Instr.funct3 w = f3 /\
  Instr.rs1 w = rs1 /\ Instr.funct7 w = Z.lor f7 (Z.shiftr sh 5) /\ Instr.shamt w = sh.
Proof.
  intros ? Hs Hev ????.
  assert (inU 6 sh) by (unfold inU; destruct XLEN_cases; lia).
  unfold w, rtype_word. split_and!; [word_range | decode_fields..].
  - f_equal. unfold field. bitblast.
  - unfold Instr.shamt, DecodeShamt, ShamtMask, DecodeFunct.
    destruct XLEN_cases as [E|E]; rewrite E in *; simpl Z.eqb; cbn iota; fold_fields.
    + assert (inU 5 sh) by done. by simpl_fields.
    + simpl_fields. rewrite even_field_below by auto. apply Z.lor_0_l.
Qed.

Lemma itype_fields imm rs1 f3 rd op (w := itype_word imm rs1 f3 rd op) :
  IsITypeImm imm = true -> inU 5 rs1 -> inU 3 f3 -> inU 5 rd -> inU 7 op ->
  inU 32 w /\ Instr.opcode w = op /\ Instr.rd w = rd /\ Instr.funct3 w = f3 /\
  Instr.rs1 w = rs1 /\ Instr.itype_imm w = imm /\ Instr.funct12 w = field imm 0 12.
Proof.
  intros Hi. intros. unfold w, itype_word. split_and!; [word_range | decode_fields..].
  apply IsITypeImm_spec in Hi. apply DecodeITypeImm_fields; [done|]. by simpl_fields.
Qed.

Lemma stype_fields imm rs2 rs1 f3 op (w := stype_word (stype_imm_word imm) rs2 rs1 f3 op) :
  IsSTypeImm imm = true -> inU 5 rs2 -> inU 5 rs1 -> inU 3 f3 -> inU 7 op ->
  inU 32 w /\ Instr.opcode w = op /\ Instr.funct3 w = f3 /\ Instr.rs1 w = rs1 /\
  Instr.rs2 w = rs2 /\ Instr.stype_imm w = imm.
Proof.
  intros Hi. intros. unfold w, stype_word, stype_imm_word.
  split_and!; [word_range | decode_fields..].
  apply IsSTypeImm_spec in Hi. apply DecodeSTypeImm_fields; [done|by simpl_fields..].
Qed.

Lemma btype_fields imm rs2 rs1 f3 op (w := stype_word (btype_imm_word imm) rs2 rs1 f3 op) :
  IsBTypeImm imm = true -> inU 5 rs2 -> inU 5 rs1 -> inU 3 f3 -> inU 7 op ->
  inU 32 w /\ Instr.opcode w = op /\ Instr.funct3 w = f3 /\ Instr.rs1 w = rs1 /\
  Instr.rs2 w = rs2 /\ Instr.btype_imm w = imm.
Proof.
  intros Hi. intros. unfold w, stype_word, btype_imm_word.
  split_and!; [word_range | decode_fields..].
  apply IsBTypeImm_spec in Hi as [??]. apply DecodeBTypeImm_fields; [done|done|by simpl_fields..].
Qed.

Lemma utype_fields imm rd op (w := utype_word (Z.shiftl (field imm 12 20) 12) rd op) :
  inS kBitsPerWord imm -> IsUTypeImm imm = true -> inU 5 rd -> inU 7 op ->
  inU 32 w /\ Instr.opcode w = op /\ Instr.rd w = rd /\ Instr.utype_imm w = imm.
Proof.
  intros Hw Hi. intros. unfold w, utype_word.
  assert (inU 32 w) by (unfold w, utype_word; word_range).
  split_and!; [done | decode_fields..].
  apply IsUTypeImm_spec in Hi as [??]; [|done].
  apply DecodeUTypeImm_fields; [done..|by simpl_fields].
Qed.

Lemma jtype_fields imm rd op (w := utype_word (jtype_imm_word imm) rd op) :
  IsJTypeImm imm = true -> inU 5 rd -> inU 7 op ->
  inU 32 w /\ Instr.opcode w = op /\ Instr.rd w = rd /\ Instr.jtype_imm w = imm.
Proof.
  intros Hi. intros. unfold w, utype_word, jtype_imm_word.
  split_and!; [word_range | decode_fields..].
  apply IsJTypeImm_spec in Hi as [??]. apply DecodeJTypeImm_fields; [done|done|by simpl_fields..].
Qed.

(** The opcodes of 32-bit instructions end in 11. *)
Lemma opcode_low_bits w op : Instr.opcode w = op -> op mod 4 = 3 -> field w 0 2 = 3.
Proof.
  unfold Instr.opcode, DecodeOpcode, DecodeFunct. intros E <-. rewrite <- E.
  change 4 with (2 ^ 2). rewrite <- Z.land_ones by lia. unfold field.
  change 127 with (Z.ones 7). rewrite !Z.shiftr_0_r. bitblast.
Qed.

End Decode.
