(* ===== verification/AsmCFormats.v ===== *)
(** * AsmCFormats: the fields of the compressed instruction formats

    For every compressed immediate format: when the predicate accepts an
    immediate, what the encoder lays out and that the decoder recovers the
    immediate from any word with those bits.  The register and opcode fields
    of 16-bit words follow. *)

From stdpp Require Import base numbers list gmap.
From Stdlib Require Import Lia.
From S2P Require Import Prelude Constants Encoding CEncoding AsmBuffer AsmFormats.

#[local] Open Scope Z_scope.
#[local] Open Scope res_scope.

Definition CSPLoad4Imm_fields (imm : Z) : Z :=
  Z.lor (Z.lor (Z.lor 0 (Z.shiftl (field imm 5 1) 12)) (Z.shiftl (field imm 2 3) 4)) (Z.shiftl
    (field imm 6 2) 2).
Definition CSPLoad8Imm_fields (imm : Z) : Z :=
  Z.lor (Z.lor (Z.lor 0 (Z.shiftl (field imm 5 1) 12)) (Z.shiftl (field imm 3 2) 5)) (Z.shiftl
    (field imm 6 3) 2).
Definition CSPStore4Imm_fields (imm : Z) : Z :=
  Z.lor (Z.lor 0 (Z.shiftl (field imm 2 4) 9)) (Z.shiftl (field imm 6 2) 7).
Definition CSPStore8Imm_fields (imm : Z) : Z :=
  Z.lor (Z.lor 0 (Z.shiftl (field imm 3 3) 10)) (Z.shiftl (field imm 6 3) 7).
Definition CMem4Imm_fields (imm : Z) : Z :=
  Z.lor (Z.lor (Z.lor 0 (Z.shiftl (field imm 3 3) 10)) (Z.shiftl (field imm 2 1) 6)) (Z.shiftl
    (field imm 6 1) 5).
Definition CMem8Imm_fields (imm : Z) : Z :=
  Z.lor (Z.lor 0 (Z.shiftl (field imm 3 3) 10)) (Z.shiftl (field imm 6 2) 5).
Definition CJImm_fields (imm : Z) : Z :=
  Z.lor (Z.lor (Z.lor (Z.lor (Z.lor (Z.lor (Z.lor (Z.lor 0 (Z.shiftl (field imm 11 1) 12))
    (Z.shiftl (field imm 4 1) 11)) (Z.shiftl (field imm 8 2) 9)) (Z.shiftl (field imm 10 1) 8))
    (Z.shiftl (field imm 6 1) 7)) (Z.shiftl (field imm 7 1) 6)) (Z.shiftl (field imm 1 3) 3))
    (Z.shiftl (field imm 5 1) 2).
Definition CBImm_fields (imm : Z) : Z :=
  Z.lor (Z.lor (Z.lor (Z.lor (Z.lor 0 (Z.shiftl (field imm 8 1) 12)) (Z.shiftl (field imm 3 2)
    10)) (Z.shiftl (field imm 6 2) 5)) (Z.shiftl (field imm 1 2) 3)) (Z.shiftl (field imm 5 1) 2).
Definition CIImm_fields (imm : Z) : Z :=
  Z.lor (Z.lor 0 (Z.shiftl (field imm 5 1) 12)) (Z.shiftl (field imm 0 5) 2).
Definition CUImm_fields (imm : Z) : Z :=
  Z.lor (Z.lor 0 (Z.shiftl (field imm 17 1) 12)) (Z.shiftl (field imm 12 5) 2).
Definition CI16Imm_fields (imm : Z) : Z :=
  Z.lor (Z.lor (Z.lor (Z.lor (Z.lor 0 (Z.shiftl (field imm 9 1) 12)) (Z.shiftl (field imm 4 1) 6))
    (Z.shiftl (field imm 6 1) 5)) (Z.shiftl (field imm 7 2) 3)) (Z.shiftl (field imm 5 1) 2).
Definition CI4SPNImm_fields (imm : Z) : Z :=
  Z.lor (Z.lor (Z.lor (Z.lor 0 (Z.shiftl (field imm 4 2) 11)) (Z.shiftl (field imm 6 4) 7))
    (Z.shiftl (field imm 2 1) 6)) (Z.shiftl (field imm 3 1) 5).

Ltac solve_encode :=
  rewrite ASSERT_true by done; cbn [rbind]; fold_fields; by rewrite !u32_field by lia.

(** The unsigned formats decode without sign extension. *)
Ltac solve_uimm_fields :=
  fold_fields;
  repeat match goal with E : field _ _ _ = _ |- _ => rewrite E; clear E end;
  unfold field; bitblast.

Section AsmCFormats.
Context `{Target}.

Lemma IsCSPLoad4Imm_spec imm : IsCSPLoad4Imm imm = true <-> inU 8 imm /\ imm mod 2 ^ 2 = 0.
Proof. apply (IsUint_aligned 8 2); lia. Qed.
Lemma EncodeCSPLoad4Imm_ok imm : IsCSPLoad4Imm imm = true -> EncodeCSPLoad4Imm imm = Ok
  (CSPLoad4Imm_fields imm).
Proof. intros. unfold EncodeCSPLoad4Imm, CSPLoad4Imm_word, CSPLoad4Imm_fields. solve_encode. Qed.
Lemma DecodeCSPLoad4Imm_fields e imm :
  IsCSPLoad4Imm imm = true ->
  field e 12 1 = field imm 5 1 -> field e 4 3 = field imm 2 3 -> field e 2 2 = field imm 6 2 ->
  DecodeCSPLoad4Imm e = imm.
Proof.
  intros Hi. apply IsCSPLoad4Imm_spec in Hi as [Hr Ha]. intros. unfold DecodeCSPLoad4Imm.
  solve_uimm_fields.
Qed.

Lemma IsCSPLoad8Imm_spec imm : IsCSPLoad8Imm imm = true <-> inU 9 imm /\ imm mod 2 ^ 3 = 0.
Proof. apply (IsUint_aligned 9 3); lia. Qed.
Lemma EncodeCSPLoad8Imm_ok imm : IsCSPLoad8Imm imm = true -> EncodeCSPLoad8Imm imm = Ok
  (CSPLoad8Imm_fields imm).
Proof. intros. unfold EncodeCSPLoad8Imm, CSPLoad8Imm_word, CSPLoad8Imm_fields. solve_encode. Qed.
Lemma DecodeCSPLoad8Imm_fields e imm :
  IsCSPLoad8Imm imm = true ->
  field e 12 1 = field imm 5 1 -> field e 5 2 = field imm 3 2 -> field e 2 3 = field imm 6 3 ->
  DecodeCSPLoad8Imm e = imm.
Proof.
  intros Hi. apply IsCSPLoad8Imm_spec in Hi as [Hr Ha]. intros. unfold DecodeCSPLoad8Imm.
  solve_uimm_fields.
Qed.

Lemma IsCSPStore4Imm_spec imm : IsCSPStore4Imm imm = true <-> inU 8 imm /\ imm mod 2 ^ 2 = 0.
Proof. apply (IsUint_aligned 8 2); lia. Qed.
Lemma EncodeCSPStore4Imm_ok imm : IsCSPStore4Imm imm = true -> EncodeCSPStore4Imm imm = Ok
  (CSPStore4Imm_fields imm).
Proof. intros. unfold EncodeCSPStore4Imm, CSPStore4Imm_word, CSPStore4Imm_fields. solve_encode. Qed.
Lemma DecodeCSPStore4Imm_fields e imm :
  IsCSPStore4Imm imm = true ->
  field e 9 4 = field imm 2 4 -> field e 7 2 = field imm 6 2 ->
  DecodeCSPStore4Imm e = imm.
Proof.
  intros Hi. apply IsCSPStore4Imm_spec in Hi as [Hr Ha]. intros. unfold DecodeCSPStore4Imm.
  solve_uimm_fields.
Qed.

Lemma IsCSPStore8Imm_spec imm : IsCSPStore8Imm imm = true <-> inU 9 imm /\ imm mod 2 ^ 3 = 0.
Proof. apply (IsUint_aligned 9 3); lia. Qed.
Lemma EncodeCSPStore8Imm_ok imm : IsCSPStore8Imm imm = true -> EncodeCSPStore8Imm imm = Ok
  (CSPStore8Imm_fields imm).
Proof. intros. unfold EncodeCSPStore8Imm, CSPStore8Imm_word, CSPStore8Imm_fields. solve_encode. Qed.
Lemma DecodeCSPStore8Imm_fields e imm :
  IsCSPStore8Imm imm = true ->
  field e 10 3 = field imm 3 3 -> field e 7 3 = field imm 6 3 ->
  DecodeCSPStore8Imm e = imm.
Proof.
  intros Hi. apply IsCSPStore8Imm_spec in Hi as [Hr Ha]. intros. unfold DecodeCSPStore8Imm.
  solve_uimm_fields.
Qed.

Lemma IsCMem4Imm_spec imm : IsCMem4Imm imm = true <-> inU 7 imm /\ imm mod 2 ^ 2 = 0.
Proof. apply (IsUint_aligned 7 2); lia. Qed.
Lemma EncodeCMem4Imm_ok imm : IsCMem4Imm imm = true -> EncodeCMem4Imm imm = Ok (CMem4Imm_fields
  imm).
Proof. intros. unfold EncodeCMem4Imm, CMem4Imm_word, CMem4Imm_fields. solve_encode. Qed.
Lemma DecodeCMem4Imm_fields e imm :
  IsCMem4Imm imm = true ->
  field e 10 3 = field imm 3 3 -> field e 6 1 = field imm 2 1 -> field e 5 1 = field imm 6 1 ->
  DecodeCMem4Imm e = imm.
Proof.
  intros Hi. apply IsCMem4Imm_spec in Hi as [Hr Ha]. intros. unfold DecodeCMem4Imm.
  solve_uimm_fields.
Qed.

Lemma IsCMem8Imm_spec imm : IsCMem8Imm imm = true <-> inU 8 imm /\ imm mod 2 ^ 3 = 0.
Proof. apply (IsUint_aligned 8 3); lia. Qed.
Lemma EncodeCMem8Imm_ok imm : IsCMem8Imm imm = true -> EncodeCMem8Imm imm = Ok (CMem8Imm_fields
  imm).
Proof. intros. unfold EncodeCMem8Imm, CMem8Imm_word, CMem8Imm_fields. solve_encode. Qed.
Lemma DecodeCMem8Imm_fields e imm :
  IsCMem8Imm imm = true ->
  field e 10 3 = field imm 3 3 -> field e 5 2 = field imm 6 2 ->
  DecodeCMem8Imm e = imm.
Proof.
  intros Hi. apply IsCMem8Imm_spec in Hi as [Hr Ha]. intros. unfold DecodeCMem8Imm.
  solve_uimm_fields.
Qed.

Lemma IsCJImm_spec imm : IsCJImm imm = true <-> inS 11 imm /\ imm mod 2 ^ 1 = 0.
Proof. apply (IsInt_aligned 11 1); lia. Qed.
Lemma EncodeCJImm_ok imm : IsCJImm imm = true -> EncodeCJImm imm = Ok (CJImm_fields imm).
Proof. intros. unfold EncodeCJImm, CJImm_word, CJImm_fields. solve_encode. Qed.
Lemma DecodeCJImm_fields e imm :
  IsCJImm imm = true ->
  field e 12 1 = field imm 11 1 -> field e 11 1 = field imm 4 1 -> field e 9 2 = field imm 8 2 ->
    field e 8 1 = field imm 10 1 -> field e 7 1 = field imm 6 1 -> field e 6 1 = field imm 7 1 ->
    field e 3 3 = field imm 1 3 -> field e 2 1 = field imm 5 1 ->
  DecodeCJImm e = imm.
Proof.
  intros Hi. apply IsCJImm_spec in Hi as [Hr Ha]. intros. unfold DecodeCJImm.
  solve_imm_fields.
Qed.

Lemma IsCBImm_spec imm : IsCBImm imm = true <-> inS 8 imm /\ imm mod 2 ^ 1 = 0.
Proof. apply (IsInt_aligned 8 1); lia. Qed.
Lemma EncodeCBImm_ok imm : IsCBImm imm = true -> EncodeCBImm imm = Ok (CBImm_fields imm).
Proof. intros. unfold EncodeCBImm, CBImm_word, CBImm_fields. solve_encode. Qed.
Lemma DecodeCBImm_fields e imm :
  IsCBImm imm = true ->
  field e 12 1 = field imm 8 1 -> field e 10 2 = field imm 3 2 -> field e 5 2 = field imm 6 2 ->
    field e 3 2 = field imm 1 2 -> field e 2 1 = field imm 5 1 ->
  DecodeCBImm e = imm.
Proof.
  intros Hi. apply IsCBImm_spec in Hi as [Hr Ha]. intros. unfold DecodeCBImm.
  solve_imm_fields.
Qed.

Lemma IsCIImm_spec imm : IsCIImm imm = true <-> inS 6 imm /\ imm mod 2 ^ 0 = 0.
Proof. apply (IsInt_aligned 6 0); lia. Qed.
Lemma EncodeCIImm_ok imm : IsCIImm imm = true -> EncodeCIImm imm = Ok (CIImm_fields imm).
Proof. intros. unfold EncodeCIImm, CIImm_word, CIImm_fields. solve_encode. Qed.
Lemma DecodeCIImm_fields e imm :
  IsCIImm imm = true ->
  field e 12 1 = field imm 5 1 -> field e 2 5 = field imm 0 5 ->
  DecodeCIImm e = imm.
Proof.
  intros Hi. apply IsCIImm_spec in Hi as [Hr Ha]. intros. unfold DecodeCIImm.
  solve_imm_fields.
Qed.

Lemma IsCUImm_spec imm : IsCUImm imm = true <-> inS 17 imm /\ imm mod 2 ^ 12 = 0.
Proof. apply (IsInt_aligned 17 12); lia. Qed.
Lemma EncodeCUImm_ok imm : IsCUImm imm = true -> EncodeCUImm imm = Ok (CUImm_fields imm).
Proof. intros. unfold EncodeCUImm, CUImm_word, CUImm_fields. solve_encode. Qed.
Lemma DecodeCUImm_fields e imm :
  IsCUImm imm = true ->
  field e 12 1 = field imm 17 1 -> field e 2 5 = field imm 12 5 ->
  DecodeCUImm e = imm.
Proof.
  intros Hi. apply IsCUImm_spec in Hi as [Hr Ha]. intros. unfold DecodeCUImm.
  solve_imm_fields.
Qed.

Lemma IsCI16Imm_spec imm : IsCI16Imm imm = true <-> inS 10 imm /\ imm mod 2 ^ 4 = 0.
Proof. apply (IsInt_aligned 10 4); lia. Qed.
Lemma EncodeCI16Imm_ok imm : IsCI16Imm imm = true -> EncodeCI16Imm imm = Ok (CI16Imm_fields imm).
Proof. intros. unfold EncodeCI16Imm, CI16Imm_word, CI16Imm_fields. solve_encode. Qed.
Lemma DecodeCI16Imm_fields e imm :
  IsCI16Imm imm = true ->
  field e 12 1 = field imm 9 1 -> field e 6 1 = field imm 4 1 -> field e 5 1 = field imm 6 1 ->
    field e 3 2 = field imm 7 2 -> field e 2 1 = field imm 5 1 ->
  DecodeCI16Imm e = imm.
Proof.
  intros Hi. apply IsCI16Imm_spec in Hi as [Hr Ha]. intros. unfold DecodeCI16Imm.
  solve_imm_fields.
Qed.

Lemma IsCI4SPNImm_spec imm : IsCI4SPNImm imm = true <-> inU 9 imm /\ imm mod 2 ^ 2 = 0.
Proof. apply (IsUint_aligned 9 2); lia. Qed.
Lemma EncodeCI4SPNImm_ok imm : IsCI4SPNImm imm = true -> EncodeCI4SPNImm imm = Ok
  (CI4SPNImm_fields imm).
Proof. intros. unfold EncodeCI4SPNImm, CI4SPNImm_word, CI4SPNImm_fields. solve_encode. Qed.
Lemma DecodeCI4SPNImm_fields e imm :
  IsCI4SPNImm imm = true ->
  field e 11 2 = field imm 4 2 -> field e 7 4 = field imm 6 4 -> field e 6 1 = field imm 2 1 ->
    field e 5 1 = field imm 3 1 ->
  DecodeCI4SPNImm e = imm.
Proof.
  intros Hi. apply IsCI4SPNImm_spec in Hi as [Hr Ha]. intros. unfold DecodeCI4SPNImm.
  solve_uimm_fields.
Qed.


(** ** Registers and opcodes *)

Lemma EncodeCRd_ok r : inU 5 r -> EncodeCRd r = Ok (Z.shiftl r 7).
Proof. intros. by apply EncodeReg_ok. Qed.
Lemma EncodeCRs2_ok r : inU 5 r -> EncodeCRs2 r = Ok (Z.shiftl r 2).
Proof. intros. by apply EncodeReg_ok. Qed.
Lemma EncodeCRdp_ok r : IsRegPrime r = true -> EncodeCRdp r = Ok (Z.shiftl (r - 8) 2).
Proof. intros. by apply EncodeRegPrime_ok. Qed.
Lemma EncodeCRs1p_ok r : IsRegPrime r = true -> EncodeCRs1p r = Ok (Z.shiftl (r - 8) 7).
Proof. intros. by apply EncodeRegPrime_ok. Qed.

End AsmCFormats.

(** The masks of the [switch]es, as bit fields. *)
Lemma copcode_fields w :
  CInstr.opcode w = Z.lor (Z.shiftl (field w 13 3) 13) (field w 0 2).
Proof.
  unfold CInstr.opcode. change COpcode.C_OP_MASK with (Z.lor (Z.shiftl (Z.ones 3) 13) (Z.ones 2)).
  unfold field. bitblast.
Qed.
Lemma miscalu_fields w :
  Z.land w COpcode.C_MISCALU_MASK =
  Z.lor (Z.lor (Z.shiftl (field w 13 3) 13) (Z.shiftl (field w 10 2) 10)) (field w 0 2).
Proof.
  change COpcode.C_MISCALU_MASK
    with (Z.lor (Z.lor (Z.shiftl (Z.ones 3) 13) (Z.shiftl (Z.ones 2) 10)) (Z.ones 2)).
  unfold field. bitblast.
Qed.
Lemma rr_fields w :
  Z.land w COpcode.C_RR_MASK =
  Z.lor (Z.lor (Z.shiftl (field w 10 6) 10) (Z.shiftl (field w 5 2) 5)) (field w 0 2).
Proof.
  change COpcode.C_RR_MASK
    with (Z.lor (Z.lor (Z.shiftl (Z.ones 6) 10) (Z.shiftl (Z.ones 2) 5)) (Z.ones 2)).
  unfold field. bitblast.
Qed.
Lemma jalr_bit_field w :
  Z.land w (Z.lxor COpcode.C_JALR COpcode.C_JR) = Z.shiftl (field w 12 1) 12.
Proof.
  change (Z.lxor COpcode.C_JALR COpcode.C_JR) with (Z.shiftl (Z.ones 1) 12).
  unfold field. bitblast.
Qed.
Lemma IsCInstruction_field w : IsCInstruction w = negb (field w 0 2 =? 3).
Proof. unfold IsCInstruction, field. by rewrite Z.shiftr_0_r. Qed.

(** Fields of a constant. *)
Ltac closed_fields :=
  repeat match goal with
  | |- context [field ?c ?lo ?n] =>
      closed_Z c; let r := eval vm_compute in (field c lo n) in change (field c lo n) with r
  end.
