(* ===== verification/SimInv.v ===== *)
(** * SimInv: the simulator's type invariant

    Every state the simulator reaches from a well-formed one is well-formed:
    32 registers of XLEN bits with x0 equal to 0, [pc_] of XLEN bits, memory
    of bytes.  Host functions are held to the same promise by [HostOk]. *)

From stdpp Require Import base numbers list gmap.
From Stdlib Require Import Lia.
From S2P Require Import Prelude Constants Encoding CEncoding AsmBuffer SimState.
From S2P Require Import SimInt SimAtomic SimFloat SimCompressed Simulator Isa IntSpec BitSpec.
From S2P Require Import AsmExec AsmFormats.

#[local] Open Scope Z_scope.
#[local] Open Scope res_scope.

(** What the simulator asks of the host functions it calls. *)
Class HostOk `{Target} `{Host} : Prop := {
  host_returned_ok : forall f args s r s',
    sim_ok s -> host_call f args s = Ok (Returned r s') -> sim_ok s';
  host_longjmp_ok : forall f args s s',
    sim_ok s -> host_call f args s = Ok (Longjmp s') -> sim_ok s'
}.

(** [injection] would normalise the values: these do not. *)
Lemma Ok_inj {A} (x y : A) : Ok x = Ok y -> x = y.
Proof. by intros [= ->]. Qed.
Lemma Some_inj {A} (x y : A) : Some x = Some y -> x = y.
Proof. by intros [= ->]. Qed.

(** Take a successful run of a handler apart. *)
Ltac inv_res :=
  repeat match goal with
  | E : rbind _ _ = Ok _ |- _ => apply rbind_ok_inv in E as (? & ? & E)
  | E : Ok _ = Ok _ |- _ => apply Ok_inj in E; try subst
  | E : Err _ = Ok _ |- _ => discriminate E
  | E : IllegalInstruction _ = Ok _ |- _ => unfold IllegalInstruction in E; discriminate E
  | E : (if ?b then _ else _) = Ok _ |- _ => destruct b
  end.

Section SimInv.
Context `{Target}.

Lemma decode_reg_range e p : inU 5 (DecodeReg e p).
Proof.
  unfold DecodeReg. change 31 with (Z.ones 5). change (inU 5 (field e p 5)).
  apply field_range. lia.
Qed.
Lemma decode_reg_prime_range e p : inU 5 (DecodeRegPrime e p).
Proof.
  unfold DecodeRegPrime. change 7 with (Z.ones 3).
  pose proof (field_range e p 3 ltac:(lia)) as R. unfold field, inU in *. lia.
Qed.

Lemma zero_in_XLEN : inU XLEN 0.
Proof. split; [lia|]. apply pow2_pos. pose proof XLEN_pos. lia. Qed.

Lemma ok_set_pc s v : sim_ok s -> inU XLEN v -> sim_ok (set_pc s v).
Proof. intros [] ?. by constructor. Qed.
Lemma ok_add_pc s d : sim_ok s -> sim_ok (add_pc s d).
Proof. intros. apply ok_set_pc; [done|apply ux_range]. Qed.
Lemma ok_retire s : sim_ok s -> sim_ok (retire s).
Proof. intros []. constructor; try done. by apply wrapU_range. Qed.
Lemma ok_set_reserved s x v : sim_ok s -> sim_ok (set_reserved s x v).
Proof. intros []. by constructor. Qed.
Lemma ok_set_random s v : sim_ok s -> sim_ok (set_random s v).
Proof. intros []. by constructor. Qed.
Lemma ok_set_setjmp_sps s v : sim_ok s -> sim_ok (set_setjmp_sps s v).
Proof. intros []. by constructor. Qed.

Lemma ok_insert_xreg s r v :
  sim_ok s -> (0 < r)%nat -> inU XLEN v -> sim_ok (set_xregs s (<[r := v]> (xregs_ s))).
Proof.
  intros [] Hr Hv. constructor; try done; cbn [xregs_ set_xregs].
  - by rewrite length_insert.
  - by apply Forall_insert.
  - by rewrite list_lookup_total_insert_ne by lia.
Qed.

Lemma ok_set_xreg s rd v : sim_ok s -> inU 5 rd -> sim_ok (set_xreg s rd v).
Proof.
  intros Hok Hd. unfold set_xreg. destruct (Z.eqb_spec rd Reg.ZR) as [|Hne]; [done|].
  apply ok_insert_xreg; [done| |apply ux_range].
  unfold inU in Hd. change Reg.ZR with 0 in Hne. lia.
Qed.

Lemma ok_insert_freg s r v : sim_ok s -> sim_ok (set_fregs_list s (<[r := v]> (fregs_ s))).
Proof. intros []. constructor; try done. cbn. by rewrite length_insert. Qed.
Lemma ok_set_fregd s rd v : sim_ok s -> sim_ok (set_fregd s rd v).
Proof. apply ok_insert_freg. Qed.
Lemma ok_set_fregs s rd v : sim_ok s -> sim_ok (set_fregs s rd v).
Proof. apply ok_insert_freg. Qed.

Lemma store_bytes_ok m addr n v m' :
  map_Forall (fun _ b => inU 8 b) m -> store_bytes m addr n v = Ok m' ->
  map_Forall (fun _ b => inU 8 b) m'.
Proof.
  revert m addr v. induction n as [|n IH]; intros m addr v Hm E; simpl in E; [by simplify_eq|].
  destruct (m !! addr); [|done]. eapply IH; [|done].
  apply map_Forall_insert_2; [|done]. unfold inU. apply Z.mod_pos_bound. lia.
Qed.

Lemma ok_set_mem s ty addr v m :
  sim_ok s -> StoreUnaligned ty (mem_ s) addr v = Ok m -> sim_ok (set_mem s m).
Proof. intros [] E. constructor; try done. by eapply store_bytes_ok. Qed.

Lemma ok_MemoryWrite s ty addr v b s' :
  sim_ok s -> MemoryWrite ty addr v b s = Ok s' -> sim_ok s'.
Proof. unfold MemoryWrite. intros Hok E. inv_res. by eapply ok_set_mem. Qed.
Lemma ok_atomic_store s ty addr v s' :
  sim_ok s -> atomic_store ty addr v s = Ok s' -> sim_ok s'.
Proof. unfold atomic_store. intros Hok E. inv_res. by eapply ok_set_mem. Qed.

Lemma get_xreg_ok s r : sim_ok s -> inU 5 r -> inU XLEN (get_xreg s r).
Proof.
  intros Hok Hr. unfold get_xreg. apply (Forall_lookup_total_1 _ _ _ (ok_xregs s Hok)).
  rewrite (ok_xregs_length s Hok). unfold inU in Hr. lia.
Qed.

End SimInv.

Create HintDb sim_ok discriminated.
#[export] Hint Constants Opaque : sim_ok.
#[export] Hint Resolve ok_add_pc ok_retire ok_set_xreg ok_set_fregd ok_set_fregs ok_set_reserved
  ok_set_random ok_set_setjmp_sps ux_range get_xreg_ok : sim_ok.
#[export] Hint Extern 1 (sim_ok (set_pc _ _)) => apply ok_set_pc : sim_ok.
#[export] Hint Extern 1 (sim_ok (set_mem _ _)) =>
  eapply ok_set_mem; [|eassumption] : sim_ok.
#[export] Hint Extern 1 (sim_ok _) =>
  match goal with
  | E : MemoryWrite _ _ _ _ _ = Ok ?s |- sim_ok ?s => eapply ok_MemoryWrite; [|exact E]
  | E : atomic_store _ _ _ _ = Ok ?s |- sim_ok ?s => eapply ok_atomic_store; [|exact E]
  end : sim_ok.
#[export] Hint Extern 1 (inU 5 _) =>
  first [ apply decode_reg_range | apply decode_reg_prime_range
        | split; vm_compute; congruence ] : sim_ok.

(** ** Handlers *)

(** A handler that keeps states well-formed. *)
Definition preserves `{Target} (f : Sim -> Res Sim) : Prop :=
  forall s s', sim_ok s -> f s = Ok s' -> sim_ok s'.

Ltac handler_ok := intros s s' Hok E; inv_res; auto 10 with sim_ok.

Section Handlers.
Context `{Target} `{HostNaN}.

Lemma InterpretLUI_ok w : preserves (InterpretLUI w).
Proof. unfold InterpretLUI. handler_ok. Qed.
Lemma InterpretAUIPC_ok w : preserves (InterpretAUIPC w).
Proof. unfold InterpretAUIPC. handler_ok. Qed.
Lemma InterpretJAL_ok w : preserves (InterpretJAL w).
Proof. unfold InterpretJAL. handler_ok. Qed.
Lemma InterpretJALR_ok w : preserves (InterpretJALR w).
Proof. unfold InterpretJALR. handler_ok. Qed.
Lemma InterpretBRANCH_ok w : preserves (InterpretBRANCH w).
Proof. unfold InterpretBRANCH. handler_ok. Qed.
Lemma InterpretLOAD_ok w : preserves (InterpretLOAD w).
Proof. unfold InterpretLOAD. handler_ok. Qed.
Lemma InterpretLOADFP_ok w : preserves (InterpretLOADFP w).
Proof. unfold InterpretLOADFP. handler_ok. Qed.
Lemma InterpretSTORE_ok w : preserves (InterpretSTORE w).
Proof. unfold InterpretSTORE. handler_ok. Qed.
Lemma InterpretSTOREFP_ok w : preserves (InterpretSTOREFP w).
Proof. unfold InterpretSTOREFP. handler_ok. Qed.
Lemma InterpretOPIMM_ok w : preserves (InterpretOPIMM w).
Proof. unfold InterpretOPIMM. handler_ok. Qed.
Lemma InterpretOPIMM32_ok w : preserves (InterpretOPIMM32 w).
Proof. unfold InterpretOPIMM32. handler_ok. Qed.

Lemma InterpretOP_ok w : preserves (InterpretOP w).
Proof.
  unfold InterpretOP, InterpretOP_0, InterpretOP_SUB, InterpretOP_MULDIV, InterpretOP_SHADD,
    InterpretOP_MINMAXCLMUL, InterpretOP_ROTATE, InterpretOP_BCLRBEXT.
  handler_ok.
Qed.
Lemma InterpretOP32_ok w : preserves (InterpretOP32 w).
Proof.
  unfold InterpretOP32, InterpretOP32_0, InterpretOP32_SUB, InterpretOP32_MULDIV,
    InterpretOP32_SHADD, InterpretOP32_ADDUW, InterpretOP32_ROTATE.
  handler_ok.
Qed.
Lemma InterpretMISCMEM_ok w : preserves (InterpretMISCMEM w).
Proof. unfold InterpretMISCMEM. handler_ok. Qed.

Lemma InterpretLR_ok ty w : preserves (InterpretLR ty w).
Proof. unfold InterpretLR. handler_ok. Qed.
Lemma InterpretSC_ok ty w : preserves (InterpretSC ty w).
Proof. unfold InterpretSC. handler_ok. Qed.
Lemma InterpretAMOwith_ok f ty w : preserves (InterpretAMOwith f ty w).
Proof. unfold InterpretAMOwith. handler_ok. Qed.
Lemma InterpretAMO_ok w : preserves (InterpretAMO w).
Proof.
  unfold InterpretAMO, InterpretAMO32, InterpretAMO64. intros s s' Hok E. inv_res;
  apply ok_add_pc; try (by eapply InterpretLR_ok); try (by eapply InterpretSC_ok);
    by eapply InterpretAMOwith_ok.
Qed.

Lemma InterpretFMA_ok f w : preserves (InterpretFMA f w).
Proof. unfold InterpretFMA. handler_ok. Qed.

Ltac inv_cases :=
  repeat match goal with
  | E : Some _ = Some _ |- _ => apply Some_inj in E; try subst
  | E : None = Some _ |- _ => discriminate E
  | E : (if ?b then _ else _) = Some _ |- _ => destruct b
  end; inv_res.

Lemma InterpretOPFP_S_ok w s r s' :
  sim_ok s -> InterpretOPFP_S w s = Some r -> r = Ok s' -> sim_ok s'.
Proof. unfold InterpretOPFP_S. intros Hok E E'. inv_cases; auto 10 with sim_ok. Qed.
Lemma InterpretOPFP_D_ok w s r s' :
  sim_ok s -> InterpretOPFP_D w s = Some r -> r = Ok s' -> sim_ok s'.
Proof. unfold InterpretOPFP_D. intros Hok E E'. inv_cases; auto 10 with sim_ok. Qed.
Lemma InterpretOPFP_ok w : preserves (InterpretOPFP w).
Proof.
  unfold InterpretOPFP. intros s s' Hok E. apply rbind_ok_inv in E as (t & Et & E). inv_res.
  apply ok_add_pc. destruct (InterpretOPFP_S w s) eqn:E1; [by eapply InterpretOPFP_S_ok|].
  destruct (InterpretOPFP_D w s) eqn:E2; [by eapply InterpretOPFP_D_ok|done].
Qed.

(** *** Compressed *)

Definition after_state (a : after) : Sim := match a with Falls s | Jumped s => s end.

Lemma InterpretC_memory_ok w s r a :
  sim_ok s -> InterpretC_memory w s = Some r -> r = Ok a -> sim_ok (after_state a).
Proof. unfold InterpretC_memory. intros Hok E E'. inv_cases; cbn [after_state]; auto 10 with sim_ok. Qed.
Lemma InterpretC_control_ok w s r a :
  sim_ok s -> InterpretC_control w s = Some r -> r = Ok a -> sim_ok (after_state a).
Proof.
  unfold InterpretC_control. intros Hok E E'. inv_cases; cbn [after_state]; auto 10 with sim_ok.
  all: try (case_match; cbn [after_state]; auto 10 with sim_ok).
Qed.
Lemma InterpretC_alu_ok w : preserves (InterpretC_alu w).
Proof. unfold InterpretC_alu, InterpretC_miscalu. handler_ok. Qed.
Lemma InterpretC_ok w : preserves (InterpretC w).
Proof.
  unfold InterpretC. intros s s' Hok E.
  assert (forall r : Res after, (forall a, r = Ok a -> sim_ok (after_state a)) ->
    (let* a := r in match a with Falls s => Ok (add_pc s CInstr.length) | Jumped s => Ok s end)
      = Ok s' -> sim_ok s') as Hfin.
  { intros r Hr Er. apply rbind_ok_inv in Er as (a & Ea & Er). apply Hr in Ea.
    destruct a; cbn [after_state] in Ea; inv_res; auto with sim_ok. }
  destruct (InterpretC_memory w s) eqn:E1;
    [|destruct (InterpretC_control w s) eqn:E2]; (eapply Hfin; [|exact E]); intros a Ea.
  - by eapply InterpretC_memory_ok.
  - by eapply InterpretC_control_ok.
  - inv_res. cbn [after_state]. by eapply InterpretC_alu_ok.
Qed.
End Handlers.

#[export] Hint Resolve InterpretLUI_ok InterpretAUIPC_ok InterpretJAL_ok InterpretJALR_ok
  InterpretBRANCH_ok InterpretLOAD_ok InterpretLOADFP_ok InterpretSTORE_ok InterpretSTOREFP_ok
  InterpretOPIMM_ok InterpretOPIMM32_ok InterpretOP_ok InterpretOP32_ok InterpretMISCMEM_ok
  InterpretAMO_ok InterpretFMA_ok InterpretOPFP_ok : sim_ok.

(** ** Calls to host code, and the loop *)

Section Execution.
Context `{Target} `{HostNaN} `{Host} `{!HostOk}.

Lemma ok_randomize_xregs regs s :
  sim_ok s -> reg_in regs 0 = false -> sim_ok (randomize_xregs regs s).
Proof.
  intros Hok Hz. unfold randomize_xregs.
  assert (forall l s, (forall i, In i l -> 0 <= i) -> sim_ok s -> sim_ok (foldl (fun s i =>
    if reg_in regs i then
      let '(v, st) := Random.NextUInt64 (random_ s) in
      set_random (set_xregs s (<[Z.to_nat i := ux v]> (xregs_ s))) st
    else s) s l)) as Hl.
  { induction l as [|i l IH]; intros t Hi Ht; [done|]. simpl. apply IH.
    { intros j Hj. apply Hi. by right. }
    destruct (reg_in regs i) eqn:Er; [|done].
    destruct (Random.NextUInt64 (random_ t)).
    apply ok_set_random, ok_insert_xreg; [done| |apply ux_range].
    specialize (Hi i (or_introl eq_refl)). destruct (decide (i = 0)) as [->|]; [congruence|lia]. }
  apply Hl; [|done]. intros i Hi%list_elem_of_In%elem_of_seqZ. lia.
Qed.

Lemma ok_nanbox_fregs regs s : sim_ok s -> sim_ok (nanbox_fregs regs s).
Proof.
  unfold nanbox_fregs. generalize (seqZ 0 kNumberOfFpuRegisters).
  intros l. revert s. induction l as [|i l IH]; intros s Hok; [done|]. simpl. apply IH.
  case_match; [by apply ok_insert_freg|done].
Qed.

Lemma ok_ClobberVolatileRegisters s : sim_ok s -> sim_ok (ClobberVolatileRegisters s).
Proof.
  intros. unfold ClobberVolatileRegisters. destruct DEBUG; [|done].
  apply ok_nanbox_fregs, ok_randomize_xregs; [by apply ok_set_reserved|by vm_compute].
Qed.
Lemma ok_PrepareCall s : sim_ok s -> sim_ok (snd (PrepareCall s)).
Proof.
  intros. unfold PrepareCall. destruct DEBUG; [|done]. simpl.
  apply ok_nanbox_fregs, ok_randomize_xregs; [done|by vm_compute].
Qed.

Lemma ok_HostResult kind r s : sim_ok s -> sim_ok (HostResult kind r s).
Proof.
  intros Hok%ok_ClobberVolatileRegisters. unfold HostResult.
  destruct kind; auto with sim_ok.
Qed.

Lemma HostCall_ok r s e :
  sim_ok s -> HostCall r s = Ok e ->
  match e with Returned _ t | Longjmp t => sim_ok t end.
Proof.
  unfold HostCall. intros Hok E.
  destruct (call_kind_ r); inv_res; destruct e;
    solve [by eapply host_returned_ok | by eapply host_longjmp_ok].
Qed.

Lemma InterpretECALL_ok w : preserves (InterpretECALL w).
Proof.
  unfold InterpretECALL. intros s s' Hok E.
  destruct (negb (_ =? _)); [inv_res; auto with sim_ok|]. destruct (negb _); [done|].
  apply rbind_ok_inv in E as (r & _ & E). apply rbind_ok_inv in E as (e & Ee & E).
  apply HostCall_ok in Ee; [|unfold push_setjmp_buffer; auto with sim_ok].
  unfold pop_setjmp_buffer. destruct e; inv_res; apply ok_set_setjmp_sps; [|done].
  apply ok_set_pc; [by apply ok_HostResult|]. apply get_xreg_ok; [|auto with sim_ok].
  unfold push_setjmp_buffer. auto with sim_ok.
Qed.

Lemma InterpretSYSTEM_ok w : preserves (InterpretSYSTEM w).
Proof.
  unfold InterpretSYSTEM, CSRWrite, CSRSet, CSRClear, InterpretEBREAK. intros s s' Hok E.
  inv_res; auto with sim_ok. by eapply InterpretECALL_ok.
Qed.

Lemma preserves_if (b : bool) f g : preserves f -> preserves g ->
  preserves (fun s => if b then f s else g s).
Proof. by destruct b. Qed.

Lemma Interpret_ok w : preserves (Interpret w).
Proof.
  unfold Interpret. repeat (apply preserves_if; [auto using InterpretSYSTEM_ok with sim_ok|]).
  1-4: apply InterpretFMA_ok.
  by intros s s' ?.
Qed.

Lemma ExecuteOne_ok s s' : sim_ok s -> ExecuteOne s = Ok s' -> sim_ok s'.
Proof.
  unfold ExecuteOne. intros Hok E. inv_res; apply ok_retire;
    [by eapply InterpretC_ok | by eapply Interpret_ok].
Qed.

(** C25.  One iteration of [ExecuteNoTrace] takes a well-formed state to a
    well-formed state: register width, x0 = 0, bytes in memory. *)
Theorem ExecuteOne_preserves s s' : sim_ok s -> ExecuteOne s = Ok s' -> sim_ok s'.
Proof. apply ExecuteOne_ok. Qed.

(** ** Runs of the loop *)

(** [steps s n t]: [n] iterations lead from [s] to [t], none of them starting
    at [kEndSimulatingPC]. *)
Inductive steps : Sim -> nat -> Sim -> Prop :=
| steps_0 s : steps s 0 s
| steps_S s t n u :
    pc_ s <> kEndSimulatingPC -> ExecuteOne s = Ok t -> steps t n u -> steps s (S n) u.

Lemma steps_ok s n t : sim_ok s -> steps s n t -> sim_ok t.
Proof. intros Hok Hs. induction Hs; eauto using ExecuteOne_ok. Qed.

Lemma steps_app s n t m u : steps s n t -> steps t m u -> steps s (n + m) u.
Proof. induction 1; [done|]. simpl. eauto using steps. Qed.

Lemma steps_det s n t u : steps s n t -> steps s n u -> t = u.
Proof.
  intros Ht. revert u. induction Ht as [s|s t n w Hpc E Ht IH]; intros u Hu.
  - by inversion Hu.
  - inversion Hu as [|? t' ? ? _ E' Hu']; subst. rewrite E in E'. simplify_eq. by apply IH.
Qed.

Lemma ExecuteNoTrace_steps fuel s t :
  ExecuteNoTrace fuel s = Ok t <->
  exists n, (n <= fuel)%nat /\ steps s n t /\ pc_ t = kEndSimulatingPC.
Proof.
  revert s. induction fuel as [|fuel IH]; intros s; simpl; case_match eqn:Epc.
  - apply Z.eqb_eq in Epc. split.
    + intros [= <-]. exists 0%nat. eauto using steps.
    + intros (n & Hn & Hs & Ht). inversion Hs; subst; [done|lia].
  - apply Z.eqb_neq in Epc. split; [done|].
    intros (n & Hn & Hs & Ht). inversion Hs; subst; [congruence|lia].
  - apply Z.eqb_eq in Epc. split.
    + intros [= <-]. exists 0%nat. split; [lia|]. eauto using steps.
    + intros (n & Hn & Hs & Ht). inversion Hs; subst; [done|congruence].
  - apply Z.eqb_neq in Epc. split.
    + intros (u & Eu & E)%rbind_ok_inv. apply IH in E as (n & Hn & Hs & Ht).
      exists (S n). split; [lia|]. eauto using steps.
    + intros (n & Hn & Hs & Ht). inversion Hs as [|? u m ? _ Eu Hm]; subst; [congruence|].
      rewrite Eu. apply IH. exists m. split; [lia|done].
Qed.

(** A DEBUG run of [CheckPreservedRegisters] that passes: every register the
    ABI preserves holds what it held when the record was made. *)
Definition preserved_at_call (p : PreservedRegisters) (s : Sim) : Prop :=
  (forall i, 0 <= i < kNumberOfCpuRegisters -> reg_in kPreservedAtCall i = true ->
             get_xreg s i = p_xregs p !!! Z.to_nat i) /\
  (forall i, 0 <= i < kNumberOfFpuRegisters -> reg_in kAbiVolatileFpuRegs i = false ->
             get_fregd s i = p_fregs p !!! Z.to_nat i).

Lemma find_none_all (P : Z -> bool) n i :
  List.find P (seqZ 0 n) = None -> 0 <= i < n -> P i = false.
Proof.
  intros Hf Hi. apply (List.find_none P (seqZ 0 n)); [done|].
  apply list_elem_of_In, elem_of_seqZ. lia.
Qed.

Lemma CheckPreservedRegisters_spec p s :
  DEBUG = true -> CheckPreservedRegisters p s = Ok tt -> preserved_at_call p s.
Proof.
  unfold CheckPreservedRegisters, preserved_at_call. intros -> E.
  destruct (negb _); [done|].
  destruct (List.find _ (seqZ 0 kNumberOfCpuRegisters)) eqn:Ex; [done|].
  destruct (List.find _ (seqZ 0 kNumberOfFpuRegisters)) eqn:Ef; [done|].
  split; intros i Hi Hr.
  - pose proof (find_none_all _ _ i Ex Hi) as N. cbv beta in N. rewrite Hr in N. simpl in N.
    apply negb_false_iff, Z.eqb_eq in N. done.
  - pose proof (find_none_all _ _ i Ef Hi) as N. cbv beta in N. rewrite Hr in N. simpl in N.
    apply negb_false_iff, Z.eqb_eq in N. done.
Qed.

(** What a call from C++ guarantees: the state stays well-formed, simulation
    ended at the sentinel address, and in DEBUG the callee kept the registers
    of [p]. *)
Definition call_post (p : PreservedRegisters) (s : Sim) : Prop :=
  sim_ok s /\ pc_ s = kEndSimulatingPC /\ (DEBUG = true -> preserved_at_call p s).

(** Tracing prints the instructions and changes nothing else. *)
Lemma ExecuteTrace_NoTrace fuel : forall s,
  rbind (ExecuteTrace fuel s) (fun r => Ok r.2) = ExecuteNoTrace fuel s.
Proof.
  induction fuel as [|fuel IH]; intros s; simpl; destruct (_ =? _); try done.
  destruct (ExecuteOne s) as [t|e]; [|done]. cbn [rbind]. rewrite <- IH.
  by destruct (ExecuteTrace fuel t).
Qed.

Lemma Execute_NoTrace fuel s : Execute fuel s = ExecuteNoTrace fuel s.
Proof. unfold Execute. destruct (_ =? _); [done|]. apply ExecuteTrace_NoTrace. Qed.

Lemma RunCall_post fuel entry p s s' :
  sim_ok s -> RunCall fuel entry p s = Ok s' -> call_post p s'.
Proof.
  unfold RunCall. rewrite Execute_NoTrace. intros Hok E.
  apply rbind_ok_inv in E as (t & Et & E). apply rbind_ok_inv in E as ([] & Ec & E). inv_res.
  apply ExecuteNoTrace_steps in Et as (n & _ & Hs & Hpc).
  split_and!; [|done|by intros; apply CheckPreservedRegisters_spec].
  eapply steps_ok; [|exact Hs]. auto 10 with sim_ok.
Qed.

Lemma PrepareCall_saves s : DEBUG = true -> fst (PrepareCall s) = mkPreserved (xregs_ s) (fregs_ s).
Proof. unfold PrepareCall. by intros ->. Qed.

(** The volatile registers apart, a call changes no register. *)
Definition same_preserved (s s' : Sim) : Prop :=
  preserved_at_call (mkPreserved (xregs_ s) (fregs_ s)) s'.

Ltac call_ok s Hok E :=
  pose proof (ok_PrepareCall s Hok) as Hp; pose proof (PrepareCall_saves s) as Hs;
  destruct (PrepareCall s) as [p t]; simpl in Hp, Hs;
  apply rbind_ok_inv in E as (u & Eu & E); inv_res;
  apply RunCall_post in Eu as (? & ? & Hd); [|auto 10 with sim_ok];
  simplify_eq; split_and!; [done..|]; unfold same_preserved; intros; rewrite <- Hs by done; auto.

(** C36.  A call of simulated code from C++ that returns has ended at
    [kEndSimulatingPC], leaves a well-formed simulator, returns A0, and, in a
    DEBUG build, has preserved SP, FP, GP, TP, S1-S11 and FS0-FS11. *)
Theorem CallX_post fuel function a0 a1 a2 a3 s v s' :
  sim_ok s -> CallX fuel function a0 a1 a2 a3 s = Ok (v, s') ->
  sim_ok s' /\ pc_ s' = kEndSimulatingPC /\ v = sx (get_xreg s' Reg.A0) /\
  (DEBUG = true -> same_preserved s s').
Proof. unfold CallX. intros Hok E. call_ok s Hok E. Qed.

Lemma ok_new_Simulator stack buf size seed m :
  map_Forall (fun _ b => inU 8 b) m -> sim_ok (new_Simulator stack buf size seed m).
Proof.
  intros Hm. unfold new_Simulator. apply ok_set_pc; [|apply ux_range].
  do 2 (apply ok_set_xreg; [|split; vm_compute; congruence]).
  apply ok_nanbox_fregs, ok_randomize_xregs; [|by vm_compute].
  constructor; try done; cbn.
  - apply zero_in_XLEN.
  - repeat constructor; apply zero_in_XLEN.
Qed.

End Execution.
