(* ===== verification/RefineOp.v ===== *)
(** * RefineOp: register-register and register-immediate instructions

    Assembling an integer computation and running the result in the simulator
    gives the state the ISA prescribes.  This file is about the 32-bit
    encodings; RefineC adds the compressed ones. *)

From stdpp Require Import base numbers list gmap.
From Stdlib Require Import Lia.
From S2P Require Import Prelude Constants Encoding CEncoding AsmBuffer MicroAsm SimState.
From S2P Require Import SimInt SimAtomic SimFloat SimCompressed Simulator Isa IntSpec BitSpec.
From S2P Require Import AsmExec AsmFormats.

#[local] Open Scope Z_scope.
#[local] Open Scope res_scope.

(** ** Automation *)

(** Decide the comparisons between constants that a [switch] leaves. *)
Ltac closed_bools :=
  repeat match goal with
  | |- context [?a =? ?b] =>
      closed_Z a; closed_Z b;
      let r := eval vm_compute in (a =? b) in
      first [constr_eq r true | constr_eq r false]; change (a =? b) with r
  end; cbn [andb orb negb]; cbn iota.

Section Steps.
Context `{Target}.

Lemma set_xreg_cong s rd v v' : ux v = ux v' -> set_xreg s rd v = set_xreg s rd v'.
Proof. intros E. unfold set_xreg. by rewrite E. Qed.

Lemma get_xreg_range s r : sim_ok s -> inU 5 r -> inU XLEN (get_xreg s r).
Proof.
  intros Hok Hr. unfold get_xreg. apply (Forall_lookup_total_1 _ _ _ (ok_xregs s Hok)).
  rewrite (ok_xregs_length s Hok). unfold inU in Hr. lia.
Qed.

Lemma get_xreg_zero s : sim_ok s -> get_xreg s Reg.ZR = 0.
Proof. intros Hok. apply (ok_zero s Hok). Qed.

(** A handler that writes [v] and falls through. *)
Lemma write_step s rd v v' len :
  ux v = ux v' ->
  Ok (retire (add_pc (set_xreg s rd v) len)) = Ok (write rd v' len s).
Proof. intros E. unfold write. by rewrite (set_xreg_cong s rd v v' E). Qed.

End Steps.

Ltac xreg_ranges :=
  match goal with
  | Hok : sim_ok ?s |- _ =>
      repeat match goal with
      | Hr : inU 5 ?r |- _ =>
          lazymatch goal with
          | _ : inU XLEN (get_xreg s r) |- _ => fail
          | _ => pose proof (get_xreg_range s r Hok Hr)
          end
      end
  end.

(** ** Register-register *)

Definition rop_asm `{Target} (op : rop) : Z -> Z -> Z -> Asm -> Res Asm :=
  match op with
  | ADD => MicroAssembler.add | SUB => MicroAssembler.sub | SLL => MicroAssembler.sll
  | SLT => MicroAssembler.slt | SLTU => MicroAssembler.sltu | XOR => MicroAssembler.xor_
  | SRL => MicroAssembler.srl | SRA => MicroAssembler.sra | OR => MicroAssembler.or_
  | AND => MicroAssembler.and_ | MUL => MicroAssembler.mul | MULH => MicroAssembler.mulh
  | MULHSU => MicroAssembler.mulhsu | MULHU => MicroAssembler.mulhu
  | DIV => MicroAssembler.div | DIVU => MicroAssembler.divu | REM => MicroAssembler.rem
  | REMU => MicroAssembler.remu | SH1ADD => MicroAssembler.sh1add
  | SH2ADD => MicroAssembler.sh2add | SH3ADD => MicroAssembler.sh3add
  | ANDN => MicroAssembler.andn | ORN => MicroAssembler.orn | XNOR => MicroAssembler.xnor
  | MAX => MicroAssembler.max | MAXU => MicroAssembler.maxu | MIN => MicroAssembler.min
  | MINU => MicroAssembler.minu | ROL => MicroAssembler.rol | ROR => MicroAssembler.ror
  | CLMUL => MicroAssembler.clmul | CLMULH => MicroAssembler.clmulh
  | CLMULR => MicroAssembler.clmulr | BCLR => MicroAssembler.bclr | BEXT => MicroAssembler.bext
  | BINV => MicroAssembler.binv | BSET => MicroAssembler.bset
  end.

Definition rop_ext (op : rop) : Z :=
  match op with
  | ADD | SUB | SLL | SLT | SLTU | XOR | SRL | SRA | OR | AND => RV_I
  | MUL | MULH | MULHSU | MULHU | DIV | DIVU | REM | REMU => RV_M
  | SH1ADD | SH2ADD | SH3ADD => RV_Zba
  | ANDN | ORN | XNOR | MAX | MAXU | MIN | MINU | ROL | ROR => RV_Zbb
  | CLMUL | CLMULH | CLMULR => RV_Zbc
  | BCLR | BEXT | BINV | BSET => RV_Zbs
  end.

(** The funct7 and funct3 of the 32-bit encoding. *)
Definition rop_code (op : rop) : Z * Z :=
  match op with
  | ADD => (Funct7.F7_0, Funct3.ADD) | SUB => (Funct7.SUB, Funct3.ADD)
  | SLL => (Funct7.F7_0, Funct3.SLL) | SLT => (Funct7.F7_0, Funct3.SLT)
  | SLTU => (Funct7.F7_0, Funct3.SLTU) | XOR => (Funct7.F7_0, Funct3.XOR)
  | SRL => (Funct7.F7_0, Funct3.SR) | SRA => (Funct7.SRA, Funct3.SR)
  | OR => (Funct7.F7_0, Funct3.OR) | AND => (Funct7.F7_0, Funct3.AND)
  | MUL => (Funct7.MULDIV, Funct3.MUL) | MULH => (Funct7.MULDIV, Funct3.MULH)
  | MULHSU => (Funct7.MULDIV, Funct3.MULHSU) | MULHU => (Funct7.MULDIV, Funct3.MULHU)
  | DIV => (Funct7.MULDIV, Funct3.DIV) | DIVU => (Funct7.MULDIV, Funct3.DIVU)
  | REM => (Funct7.MULDIV, Funct3.REM) | REMU => (Funct7.MULDIV, Funct3.REMU)
  | SH1ADD => (Funct7.SHADD, Funct3.SH1ADD) | SH2ADD => (Funct7.SHADD, Funct3.SH2ADD)
  | SH3ADD => (Funct7.SHADD, Funct3.SH3ADD) | ANDN => (Funct7.SUB, Funct3.AND)
  | ORN => (Funct7.SUB, Funct3.OR) | XNOR => (Funct7.SUB, Funct3.XOR)
  | MAX => (Funct7.MINMAXCLMUL, Funct3.MAX) | MAXU => (Funct7.MINMAXCLMUL, Funct3.MAXU)
  | MIN => (Funct7.MINMAXCLMUL, Funct3.MIN) | MINU => (Funct7.MINMAXCLMUL, Funct3.MINU)
  | ROL => (Funct7.ROTATE, Funct3.ROL) | ROR => (Funct7.ROTATE, Funct3.ROR)
  | CLMUL => (Funct7.MINMAXCLMUL, Funct3.CLMUL) | CLMULH => (Funct7.MINMAXCLMUL, Funct3.CLMULH)
  | CLMULR => (Funct7.MINMAXCLMUL, Funct3.CLMULR) | BCLR => (Funct7.BCLRBEXT, Funct3.BCLR)
  | BEXT => (Funct7.BCLRBEXT, Funct3.BEXT) | BINV => (Funct7.BINV, Funct3.F3_BINV)
  | BSET => (Funct7.BSET, Funct3.F3_BSET)
  end.

Section RefineOp.
Context `{Target} `{HostNaN} `{Host}.

(** The value computed by the simulator, operation by operation. *)
Lemma ux_shiftl x y : ux (Z.shiftl x (Z.land y (XLEN - 1))) = ux (x * 2 ^ (y mod XLEN)).
Proof. rewrite land_XLEN_mask, Z.shiftl_mul_pow2; [done|apply mod_XLEN_range]. Qed.
Lemma shiftr_mod x y : Z.shiftr x (Z.land y (XLEN - 1)) = x / 2 ^ (y mod XLEN).
Proof. rewrite land_XLEN_mask, Z.shiftr_div_pow2; [done|apply mod_XLEN_range]. Qed.
Lemma ux_shift_add x y k : 0 <= k -> ux (ux (Z.shiftl x k) + y) = ux (2 ^ k * x + y).
Proof. intros. rewrite ux_add_l, Z.shiftl_mul_pow2 by done. f_equal. lia. Qed.
Lemma ux_land a b : ux (Z.land a b) = Z.land (ux a) (ux b).
Proof. unfold ux. pose proof XLEN_pos. bitblast. Qed.
Lemma ux_lor a b : ux (Z.lor a b) = Z.lor (ux a) (ux b).
Proof. unfold ux. pose proof XLEN_pos. bitblast. Qed.

Lemma ux_mul_signed x y : ux (mul (sx x) (sx y)) = ux (x * y).
Proof.
  unfold mul. rewrite ux_sx, ux_ux, !ux_sx. unfold ux.
  by rewrite wrapU_idem_mul_l, wrapU_idem_mul_r.
Qed.

Lemma b2z_if (b : bool) : (if b then 1 else 0) = Z.b2z b.
Proof. by destruct b. Qed.
Lemma max_if a b : (if b <? a then a else b) = Z.max a b.
Proof. destruct (Z.ltb_spec b a); lia. Qed.
Lemma min_if a b : (if a <? b then a else b) = Z.min a b.
Proof. destruct (Z.ltb_spec a b); lia. Qed.

Lemma sim_ANDN x y : inU XLEN x -> Z.land x (ux (Z.lnot y)) = Z.ldiff x y.
Proof.
  intros Hx. pose proof XLEN_pos. apply Z.bits_inj'; intros i Hi. unfold ux.
  rewrite Z.land_spec, Z.ldiff_spec, testbit_wrapU, Z.lnot_spec by lia.
  destruct (Z.ltb_spec i XLEN); [done|].
  by rewrite (testbit_small XLEN x) by (done || lia).
Qed.
Lemma sim_ORN x y : ux (Z.lor x (ux (Z.lnot y))) = ux (Z.lor x (Z.lnot y)).
Proof. by rewrite !ux_lor, ux_ux. Qed.
Lemma sim_XNOR x y : ux (Z.lxor x (ux (Z.lnot y))) = ux (Z.lnot (Z.lxor x y)).
Proof. by rewrite Z.lnot_lxor_r, !ux_lxor, ux_ux. Qed.
Lemma bclr_mod x y : inU XLEN x -> bclr x y = Z.clearbit x (y mod XLEN).
Proof.
  intros. rewrite <- (bclr_exact x (y mod XLEN)) by (done || apply mod_XLEN_range).
  unfold bclr. by rewrite !land_XLEN_mask, Z.mod_mod by (pose proof XLEN_pos; lia).
Qed.
Lemma bext_mod x y : bext x y = Z.b2z (Z.testbit x (y mod XLEN)).
Proof.
  rewrite <- (bext_exact x (y mod XLEN)) by apply mod_XLEN_range.
  unfold bext. by rewrite !land_XLEN_mask, Z.mod_mod by (pose proof XLEN_pos; lia).
Qed.
Lemma binv_mod x y : binv x y = Z.lxor x (2 ^ (y mod XLEN)).
Proof. unfold binv. by rewrite land_XLEN_mask, Z.shiftl_1_l. Qed.
Lemma bset_mod x y : bset x y = Z.setbit x (y mod XLEN).
Proof. unfold bset. by rewrite land_XLEN_mask, Z.shiftl_1_l, Z.setbit_spec'. Qed.

(** The value the OP handlers compute, as one function of the operation. *)
Definition rop_sim (op : rop) (a b : Z) : Res Z :=
  match op with
  | ADD => Ok (a + b) | SUB => Ok (a - b)
  | SLL => Ok (Z.shiftl a (Z.land b (XLEN - 1)))
  | SLT => Ok (if sx a <? sx b then 1 else 0) | SLTU => Ok (if a <? b then 1 else 0)
  | XOR => Ok (Z.lxor a b) | SRL => Ok (Z.shiftr a (Z.land b (XLEN - 1)))
  | SRA => Ok (Z.shiftr (sx a) (Z.land b (XLEN - 1)))
  | OR => Ok (Z.lor a b) | AND => Ok (Z.land a b)
  | MUL => Ok (mul (sx a) (sx b)) | MULH => mulh (sx a) (sx b)
  | MULHSU => mulhsu (sx a) b | MULHU => Ok (mulhu a b)
  | DIV => Ok (div (sx a) (sx b)) | DIVU => Ok (divu a b)
  | REM => Ok (rem (sx a) (sx b)) | REMU => Ok (remu a b)
  | SH1ADD => Ok (ux (Z.shiftl a 1) + b) | SH2ADD => Ok (ux (Z.shiftl a 2) + b)
  | SH3ADD => Ok (ux (Z.shiftl a 3) + b)
  | ANDN => Ok (Z.land a (ux (Z.lnot b))) | ORN => Ok (Z.lor a (ux (Z.lnot b)))
  | XNOR => Ok (Z.lxor a (ux (Z.lnot b)))
  | MAX => Ok (max (sx a) (sx b)) | MAXU => Ok (maxu a b)
  | MIN => Ok (min (sx a) (sx b)) | MINU => Ok (minu a b)
  | ROL => Ok (rol a b) | ROR => Ok (ror a b)
  | CLMUL => Ok (clmul a b) | CLMULH => Ok (clmulh a b) | CLMULR => Ok (clmulr a b)
  | BCLR => Ok (bclr a b) | BEXT => Ok (bext a b) | BINV => Ok (binv a b) | BSET => Ok (bset a b)
  end.

Lemma rop_sim_sem op a b :
  inU XLEN a -> inU XLEN b -> exists v, rop_sim op a b = Ok v /\ ux v = ux (rop_sem op a b).
Proof.
  intros Ha Hb.
  destruct op; unfold rop_sim, rop_sem;
    rewrite ?mulh_exact, ?mulhsu_exact by (apply sx_range || done);
    eexists; (split; [reflexivity|]);
    rewrite ?ux_shiftl, ?shiftr_mod, ?b2z_if, ?ux_mul_signed, ?mulhu_exact, ?ux_ux,
      ?ux_shift_add, ?sim_ANDN, ?sim_ORN, ?sim_XNOR, ?rol_exact, ?ror_exact, ?clmul_exact,
      ?clmulh_exact, ?clmulr_exact, ?bclr_mod, ?bext_mod, ?binv_mod, ?bset_mod by (done || lia);
    unfold max, maxu, min, minu; rewrite ?max_if, ?min_if, ?ux_ux;
    auto using div_exact, rem_exact.
Qed.

Lemma rop_word_runs op rd rs1 rs2 s :
  inU 5 rd -> inU 5 rs1 -> inU 5 rs2 -> sim_ok s ->
  let w := rtype_word (rop_code op).1 rs2 rs1 (rop_code op).2 rd Opcode.OP in
  (let* s := Interpret w s in Ok (retire s)) = exec_rop op rd rs1 rs2 4 s.
Proof.
  intros Hd H1' H2' Hok w.
  assert (inU 7 (rop_code op).1) as Hf7 by (by destruct op).
  assert (inU 3 (rop_code op).2) as Hf3 by (by destruct op).
  destruct (rtype_fields (rop_code op).1 rs2 rs1 (rop_code op).2 rd Opcode.OP)
    as (_ & Eop & Erd & Ef3 & Er1 & Er2 & Ef7); [done..|].
  fold w in Eop, Erd, Ef3, Er1, Er2, Ef7. clearbody w.
  unfold Interpret. rewrite Eop. closed_bools. unfold InterpretOP. rewrite Ef7.
  xreg_ranges. unfold exec_rop.
  destruct (rop_sim_sem op (get_xreg s rs1) (get_xreg s rs2)) as (v & Ev & Hv); [done..|].
  rewrite <- (write_step s rd v _ 4 Hv).
  destruct op; cbn [rop_code fst snd] in *; closed_bools;
    unfold InterpretOP_0, InterpretOP_SUB, InterpretOP_MULDIV, InterpretOP_SHADD,
      InterpretOP_MINMAXCLMUL, InterpretOP_ROTATE, InterpretOP_BCLRBEXT;
    rewrite ?Ef3, ?Er1, ?Er2, ?Erd; closed_bools; cbn [rop_sim] in Ev; simplify_eq;
    rewrite ?Ev; reflexivity.
Qed.

(** ** RV64 word operations *)

Definition wop_asm (op : wop) : Z -> Z -> Z -> Asm -> Res Asm :=
  match op with
  | ADDW => MicroAssembler.addw | SUBW => MicroAssembler.subw | SLLW => MicroAssembler.sllw
  | SRLW => MicroAssembler.srlw | SRAW => MicroAssembler.sraw | DIVW => MicroAssembler.divw
  | DIVUW => MicroAssembler.divuw | REMW => MicroAssembler.remw | REMUW => MicroAssembler.remuw
  | ADDUW => MicroAssembler.adduw | SH1ADDUW => MicroAssembler.sh1adduw
  | SH2ADDUW => MicroAssembler.sh2adduw | SH3ADDUW => MicroAssembler.sh3adduw
  end.
Definition wop_ext (op : wop) : Z :=
  match op with
  | ADDW | SUBW | SLLW | SRLW | SRAW => RV_I
  | DIVW | DIVUW | REMW | REMUW => RV_M
  | ADDUW | SH1ADDUW | SH2ADDUW | SH3ADDUW => RV_Zba
  end.
Definition wop_code (op : wop) : Z * Z :=
  match op with
  | ADDW => (Funct7.F7_0, Funct3.ADD) | SUBW => (Funct7.SUB, Funct3.ADD)
  | SLLW => (Funct7.F7_0, Funct3.SLL) | SRLW => (Funct7.F7_0, Funct3.SR)
  | SRAW => (Funct7.SRA, Funct3.SR) | DIVW => (Funct7.MULDIV, Funct3.DIVW)
  | DIVUW => (Funct7.MULDIV, Funct3.DIVUW) | REMW => (Funct7.MULDIV, Funct3.REMW)
  | REMUW => (Funct7.MULDIV, Funct3.REMUW) | ADDUW => (Funct7.ADDUW, Funct3.F3_0)
  | SH1ADDUW => (Funct7.SHADD, Funct3.SH1ADD) | SH2ADDUW => (Funct7.SHADD, Funct3.SH2ADD)
  | SH3ADDUW => (Funct7.SHADD, Funct3.SH3ADD)
  end.

Definition wop_sim (op : wop) (a b : Z) : Res Z :=
  let k := u32 (Z.land b (32 - 1)) in
  match op with
  | ADDW => Ok (sign_extend_u32 (u32 (u32 a + u32 b)))
  | SUBW => Ok (sign_extend_u32 (u32 (u32 a - u32 b)))
  | SLLW => let* v := shl_u32 (u32 a) k in Ok (sign_extend_u32 v)
  | SRLW => let* v := shr_32 (u32 a) k in Ok (sign_extend_u32 v)
  | SRAW => let* v := shr_32 (s32 a) k in Ok (sign_extend_i32 v)
  | DIVW => Ok (sign_extend_i32 (divw (s32 a) (s32 b)))
  | DIVUW => Ok (sign_extend_u32 (divuw (u32 a) (u32 b)))
  | REMW => Ok (sign_extend_i32 (remw (s32 a) (s32 b)))
  | REMUW => Ok (sign_extend_u32 (remuw (u32 a) (u32 b)))
  | ADDUW => Ok (u32 a + b)
  | SH1ADDUW => Ok (ux (Z.shiftl (u32 a) 1) + b)
  | SH2ADDUW => Ok (ux (Z.shiftl (u32 a) 2) + b)
  | SH3ADDUW => Ok (ux (Z.shiftl (u32 a) 3) + b)
  end.

Lemma sign_extend_u32_wrap v : ux (sign_extend_u32 v) = ux (s32 v).
Proof. unfold sign_extend_u32. apply ux_sx. Qed.

Lemma land_31 b : u32 (Z.land b (32 - 1)) = b mod 32.
Proof.
  change (32 - 1) with (Z.ones 5). rewrite Z.land_ones by lia. change (2 ^ 5) with 32.
  apply wrapU_small. unfold inU. pose proof (Z.mod_pos_bound b 32). lia.
Qed.
Lemma shl_u32_ok a k : 0 <= k < 32 -> shl_u32 a k = Ok (u32 (a * 2 ^ k)).
Proof.
  intros. unfold shl_u32. rewrite (proj2 (Z.ltb_lt k 32)), Z.shiftl_mul_pow2 by lia. done.
Qed.
Lemma shr_32_ok a k : 0 <= k < 32 -> shr_32 a k = Ok (a / 2 ^ k).
Proof.
  intros. unfold shr_32. rewrite (proj2 (Z.ltb_lt k 32)), Z.shiftr_div_pow2 by lia. done.
Qed.

Lemma s32_u32_eq x y : u32 x = u32 y -> s32 x = s32 y.
Proof. intros E. rewrite <- (wrapS_wrapU 32 x), <- (wrapS_wrapU 32 y) by lia. by rewrite E. Qed.

Lemma s32_eq_0 b : (s32 b =? 0) = (u32 b =? 0).
Proof.
  rewrite <- (wrapS_wrapU 32) by lia. rewrite wrapS_cases by (lia || by apply wrapU_range).
  pose proof (wrapU_range 32 b ltac:(lia)) as R. unfold inU in R.
  destruct (Z.ltb_spec (u32 b) (2 ^ (32 - 1))); [done|].
  destruct (Z.eqb_spec (u32 b - 2 ^ 32) 0), (Z.eqb_spec (u32 b) 0); lia.
Qed.

(** The quotient of the two smallest words wraps to the dividend. *)
Lemma divw_exact a b :
  s32 (divw (s32 a) (s32 b)) = if u32 b =? 0 then -1 else s32 (Z.quot (s32 a) (s32 b)).
Proof.
  unfold divw. rewrite s32_eq_0. destruct (u32 b =? 0); [done|].
  destruct (Z.eqb_spec (s32 b) (-1)) as [->|]; [|done].
  destruct (Z.eqb_spec (s32 a) kMinInt32) as [->|]; done.
Qed.
Lemma remw_exact a b :
  remw (s32 a) (s32 b) = if u32 b =? 0 then s32 a else Z.rem (s32 a) (s32 b).
Proof.
  unfold remw. rewrite s32_eq_0. destruct (u32 b =? 0); [done|].
  destruct (Z.eqb_spec (s32 b) (-1)) as [->|]; [|done].
  destruct (Z.eqb_spec (s32 a) kMinInt32) as [->|]; done.
Qed.
Lemma divw_range a b : inS 32 (divw (s32 a) (s32 b)).
Proof.
  pose proof (wrapS_range 32 a ltac:(lia)) as Ra. pose proof (wrapS_range 32 b ltac:(lia)) as Rb.
  unfold inS in *. unfold divw, kMinInt32. change (32 - 1) with 31 in *.
  destruct (Z.eqb_spec (s32 b) 0); [lia|].
  destruct (Z.eqb_spec (s32 b) (-1)) as [->|]; simpl.
  - destruct (Z.eqb_spec (s32 a) (- 2 ^ 31)); [lia|].
    change (-1) with (- (1)). rewrite Z.quot_opp_r, Z.quot_1_r by lia. lia.
  - pose proof (Z.quot_rem' (s32 a) (s32 b)).
    pose proof (Z.quot_abs (s32 a) (s32 b) ltac:(done)) as Q.
    pose proof (Z.quot_le_upper_bound (Z.abs (s32 a)) (Z.abs (s32 b)) (2 ^ 31) ltac:(lia)
                  ltac:(lia)).
    destruct (Z.eqb_spec (s32 b) 1) as [->|]; [rewrite Z.quot_1_r; lia|].
    pose proof (Z.quot_lt_upper_bound (Z.abs (s32 a)) (Z.abs (s32 b)) (2 ^ 31)
                  ltac:(lia) ltac:(lia) ltac:(lia)).
    lia.
Qed.

Lemma divuw_exact a b :
  s32 (divuw (u32 a) (u32 b)) = if u32 b =? 0 then -1 else s32 (u32 a / u32 b).
Proof. unfold divuw. by destruct (u32 b =? 0). Qed.
Lemma remuw_exact a b :
  s32 (remuw (u32 a) (u32 b)) = if u32 b =? 0 then s32 a else s32 (u32 a mod u32 b).
Proof. unfold remuw. destruct (u32 b =? 0); [by apply wrapS_wrapU|done]. Qed.

Lemma wop_sim_sem op a b :
  exists v, wop_sim op a b = Ok v /\ ux v = ux (wop_sem op a b).
Proof.
  pose proof (Z.mod_pos_bound b 32 ltac:(lia)) as Hk.
  destruct op; unfold wop_sim, wop_sem; cbv zeta;
    rewrite ?land_31, ?shl_u32_ok, ?shr_32_ok by done; cbn [rbind];
    eexists; (split; [reflexivity|]);
    rewrite ?sign_extend_u32_wrap, ?wrapS_wrapU, ?divuw_exact, ?remuw_exact by lia;
    unfold sign_extend_i32; rewrite ?ux_sx, ?remw_exact, ?ux_shift_add by lia; try done;
    f_equal; rewrite ?wrapS_wrapU by lia; try done.
  - apply s32_u32_eq. by rewrite wrapU_idem_add_l, wrapU_idem_add_r.
  - apply s32_u32_eq. by rewrite wrapU_idem_sub_l, wrapU_idem_sub_r.
  - apply s32_u32_eq. by rewrite wrapU_idem_mul_l.
  - rewrite <- divw_exact. symmetry. apply wrapS_small, divw_range. lia.
Qed.

Lemma wop_word_runs op rd rs1 rs2 s :
  XLEN = 64 -> inU 5 rd -> inU 5 rs1 -> inU 5 rs2 -> sim_ok s ->
  let w := rtype_word (wop_code op).1 rs2 rs1 (wop_code op).2 rd Opcode.OP32 in
  (let* s := Interpret w s in Ok (retire s)) = exec_wop op rd rs1 rs2 4 s.
Proof.
  intros HX Hd H1' H2' Hok w.
  assert (inU 7 (wop_code op).1) as Hf7 by (by destruct op).
  assert (inU 3 (wop_code op).2) as Hf3 by (by destruct op).
  destruct (rtype_fields (wop_code op).1 rs2 rs1 (wop_code op).2 rd Opcode.OP32)
    as (_ & Eop & Erd & Ef3 & Er1 & Er2 & Ef7); [done..|].
  fold w in Eop, Erd, Ef3, Er1, Er2, Ef7. clearbody w.
  assert ((64 <=? XLEN) = true) as H64 by (by rewrite HX).
  unfold Interpret. rewrite Eop. closed_bools. unfold InterpretOP32. rewrite Ef7, H64.
  unfold exec_wop.
  destruct (wop_sim_sem op (get_xreg s rs1) (get_xreg s rs2)) as (v & Ev & Hv).
  rewrite <- (write_step s rd v _ 4 Hv).
  destruct op; cbn [wop_code fst snd] in *; closed_bools;
    unfold InterpretOP32_0, InterpretOP32_SUB, InterpretOP32_MULDIV, InterpretOP32_SHADD,
      InterpretOP32_ADDUW;
    rewrite ?Ef3, ?Er1, ?Er2, ?Erd, ?H64; closed_bools; unfold wop_sim in Ev; cbv zeta in Ev;
    apply rbind_ok_inv in Ev as (r & Er & Ev) || idtac; simplify_eq; rewrite ?Er; reflexivity.
Qed.

End RefineOp.
