(* ===== verification/RefineImm.v ===== *)
(** * RefineImm: immediate, shift and bit-counting instructions

    The 32-bit encodings of the OP-IMM and OP-IMM-32 groups run as the ISA
    prescribes. *)

From stdpp Require Import base numbers list gmap.
From Stdlib Require Import Lia.
From S2P Require Import Prelude Constants Encoding CEncoding AsmBuffer MicroAsm SimState.
From S2P Require Import SimInt SimAtomic SimFloat SimCompressed Simulator Isa IntSpec BitSpec.
From S2P Require Import AsmExec AsmFormats RefineOp.

#[local] Open Scope Z_scope.
#[local] Open Scope res_scope.

Definition iop_asm `{Target} (op : iop) : Z -> Z -> Z -> Asm -> Res Asm :=
  match op with
  | ADDI => MicroAssembler.addi | SLTI => MicroAssembler.slti | SLTIU => MicroAssembler.sltiu
  | XORI => MicroAssembler.xori | ORI => MicroAssembler.ori | ANDI => MicroAssembler.andi
  end.
Definition iop_code (op : iop) : Z :=
  match op with
  | ADDI => Funct3.ADDI | SLTI => Funct3.SLTI | SLTIU => Funct3.SLTIU
  | XORI => Funct3.XORI | ORI => Funct3.ORI | ANDI => Funct3.ANDI
  end.

Definition sop_asm `{Target} (op : sop) : Z -> Z -> Z -> Asm -> Res Asm :=
  match op with
  | SLLI => MicroAssembler.slli | SRLI => MicroAssembler.srli | SRAI => MicroAssembler.srai
  | RORI => MicroAssembler.rori | BCLRI => MicroAssembler.bclri | BEXTI => MicroAssembler.bexti
  | BINVI => MicroAssembler.binvi | BSETI => MicroAssembler.bseti
  end.
Definition sop_ext (op : sop) : Z :=
  match op with
  | SLLI | SRLI | SRAI => RV_I
  | RORI => RV_Zbb
  | BCLRI | BEXTI | BINVI | BSETI => RV_Zbs
  end.
Definition sop_code (op : sop) : Z * Z :=
  match op with
  | SLLI => (Funct7.F7_0, Funct3.SLLI) | SRLI => (Funct7.F7_0, Funct3.SRI)
  | SRAI => (Funct7.SRA, Funct3.SRI) | RORI => (Funct7.ROTATE, Funct3.ROR)
  | BCLRI => (Funct7.BCLRBEXT, Funct3.BCLR) | BEXTI => (Funct7.BCLRBEXT, Funct3.BEXT)
  | BINVI => (Funct7.BINV, Funct3.F3_BINV) | BSETI => (Funct7.BSET, Funct3.F3_BSET)
  end.

Definition swop_asm `{Target} (op : swop) : Z -> Z -> Z -> Asm -> Res Asm :=
  match op with
  | SLLIW => MicroAssembler.slliw | SRLIW => MicroAssembler.srliw
  | SRAIW => MicroAssembler.sraiw | SLLIUW => MicroAssembler.slliuw
  end.
Definition swop_ext (op : swop) : Z := match op with SLLIUW => RV_Zba | _ => RV_I end.
Definition swop_code (op : swop) : Z * Z :=
  match op with
  | SLLIW => (Funct7.F7_0, Funct3.SLLI) | SRLIW => (Funct7.F7_0, Funct3.SRI)
  | SRAIW => (Funct7.SRA, Funct3.SRI) | SLLIUW => (Funct7.SLLIUW, Funct3.SLLI)
  end.

Definition uop_asm `{Target} (op : uop) : Z -> Z -> Asm -> Res Asm :=
  match op with
  | CLZ => MicroAssembler.clz | CTZ => MicroAssembler.ctz | CPOP => MicroAssembler.cpop
  | SEXTB => MicroAssembler.sextb | SEXTH => MicroAssembler.sexth | ZEXTH => MicroAssembler.zexth
  | ORCB => MicroAssembler.orcb | REV8 => MicroAssembler.rev8
  end.
(** funct7, the constant in the rs2 field, funct3 and the opcode. *)
Definition uop_code `{Target} (op : uop) : Z * Z * Z * Z :=
  match op with
  | CLZ => (Funct7.COUNT, 0, Funct3.F3_COUNT, Opcode.OPIMM)
  | CTZ => (Funct7.COUNT, 1, Funct3.F3_COUNT, Opcode.OPIMM)
  | CPOP => (Funct7.COUNT, 2, Funct3.F3_COUNT, Opcode.OPIMM)
  | SEXTB => (48, 4, Funct3.SEXT, Opcode.OPIMM)
  | SEXTH => (48, 5, Funct3.SEXT, Opcode.OPIMM)
  | ZEXTH => (4, 0, Funct3.ZEXT, if XLEN =? 32 then Opcode.OP else Opcode.OP32)
  | ORCB => (20, 7, 5, Opcode.OPIMM)
  | REV8 => (if XLEN =? 32 then 52 else 53, 24, 5, Opcode.OPIMM)
  end.

Definition uwop_asm `{Target} (op : uwop) : Z -> Z -> Asm -> Res Asm :=
  match op with
  | CLZW => MicroAssembler.clzw | CTZW => MicroAssembler.ctzw | CPOPW => MicroAssembler.cpopw
  end.
Definition uwop_code (op : uwop) : Z := match op with CLZW => 0 | CTZW => 1 | CPOPW => 2 end.

Section RefineImm.
Context `{Target} `{HostNaN} `{Host}.

(** ** Immediates *)

Lemma iop_word_runs op rd rs1 imm s :
  inU 5 rd -> inU 5 rs1 -> IsITypeImm imm = true -> sim_ok s ->
  let w := itype_word imm rs1 (iop_code op) rd Opcode.OPIMM in
  (let* s := Interpret w s in Ok (retire s)) = exec_iop op rd rs1 imm 4 s.
Proof.
  intros Hd H1' Hi Hok w.
  assert (inU 3 (iop_code op)) as Hf3 by (by destruct op).
  destruct (itype_fields imm rs1 (iop_code op) rd Opcode.OPIMM)
    as (_ & Eop & Erd & Ef3 & Er1 & Ei & _); [done..|].
  fold w in Eop, Erd, Ef3, Er1, Ei. clearbody w.
  unfold Interpret. rewrite Eop. closed_bools. unfold InterpretOPIMM, exec_iop.
  rewrite Ef3, Erd, Er1, Ei.
  destruct op; cbn [iop_code]; closed_bools; cbn [rbind]; apply write_step; cbn [iop_sem];
    rewrite ?b2z_if, ?ux_lor, ?ux_land, ?ux_lxor, ?ux_ux; done.
Qed.

(** ** Shifts *)

Lemma sop_word_runs op rd rs1 sh s :
  inU 5 rd -> inU 5 rs1 -> 0 <= sh < XLEN -> sim_ok s ->
  let w := rtype_word (sop_code op).1 sh rs1 (sop_code op).2 rd Opcode.OPIMM in
  (let* s := Interpret w s in Ok (retire s)) = exec_sop op rd rs1 sh 4 s.
Proof.
  intros Hd H1' Hs Hok w.
  assert (inU 7 (sop_code op).1) as Hf7 by (by destruct op).
  assert (inU 3 (sop_code op).2) as Hf3 by (by destruct op).
  destruct (shamt_fields (sop_code op).1 sh rs1 (sop_code op).2 rd Opcode.OPIMM)
    as (_ & Eop & Erd & Ef3 & Er1 & Ef7 & Es); [done|done|by destruct op|done..|].
  fold w in Eop, Erd, Ef3, Er1, Ef7, Es. clearbody w.
  unfold Interpret. rewrite Eop. closed_bools. unfold InterpretOPIMM, exec_sop.
  rewrite Ef3, Erd, Er1, Ef7, Es. xreg_ranges.
  assert (sh mod XLEN = sh) as Em by (by apply Z.mod_small).
  assert (Z.shiftr sh 5 = 0 \/ Z.shiftr sh 5 = 1) as E5.
  { rewrite Z.shiftr_div_pow2 by lia. change (2 ^ 5) with 32.
    assert (0 <= sh / 32 < 2); [|lia].
    split; [apply Z.div_pos; lia | apply Z.div_lt_upper_bound; destruct XLEN_cases; lia]. }
  destruct op; cbn [sop_code fst snd] in *; closed_bools;
    (destruct E5 as [E5|E5]; rewrite E5; try destruct (XLEN =? 32);
     closed_bools; cbn [rbind]; apply write_step; unfold sop_sem;
     rewrite ?Z.shiftl_mul_pow2, ?Z.shiftr_div_pow2, ?ror_exact, ?bclr_mod, ?bext_mod,
       ?binv_mod, ?bset_mod, ?Em, ?ux_ux by (done || lia); done).
Qed.

Lemma swop_word_runs op rd rs1 sh s :
  XLEN = 64 -> inU 5 rd -> inU 5 rs1 -> 0 <= sh < 32 -> sim_ok s ->
  let w := rtype_word (swop_code op).1 sh rs1 (swop_code op).2 rd Opcode.OPIMM32 in
  (let* s := Interpret w s in Ok (retire s)) = exec_swop op rd rs1 sh 4 s.
Proof.
  intros HX Hd H1' Hs Hok w.
  assert (inU 7 (swop_code op).1) as Hf7 by (by destruct op).
  assert (inU 3 (swop_code op).2) as Hf3 by (by destruct op).
  destruct (shamt_fields (swop_code op).1 sh rs1 (swop_code op).2 rd Opcode.OPIMM32)
    as (_ & Eop & Erd & Ef3 & Er1 & Ef7 & Es); [done|lia|by destruct op|done..|].
  fold w in Eop, Erd, Ef3, Er1, Ef7, Es. clearbody w.
  rewrite Z.shiftr_div_pow2, (Z.div_small sh) in Ef7 by lia.
  unfold Interpret. rewrite Eop. closed_bools. unfold InterpretOPIMM32, exec_swop.
  rewrite Ef3, Erd, Er1, Ef7, Es.
  destruct op; cbn [swop_code fst snd] in *; closed_bools;
    rewrite ?shl_u32_ok, ?shr_32_ok by lia; cbn [rbind]; apply write_step; unfold swop_sem;
    rewrite ?sign_extend_u32_wrap, ?wrapS_wrapU, ?Z.shiftl_mul_pow2 by lia;
    unfold sign_extend_i32; rewrite ?ux_sx; try done.
  f_equal. apply s32_u32_eq. by rewrite wrapU_idem_mul_l.
Qed.

Lemma addiw_word_runs rd rs1 imm s :
  inU 5 rd -> inU 5 rs1 -> IsITypeImm imm = true -> sim_ok s ->
  let w := itype_word imm rs1 Funct3.ADDI rd Opcode.OPIMM32 in
  (let* s := Interpret w s in Ok (retire s)) =
  Ok (write rd (s32 (get_xreg s rs1 + imm)) 4 s).
Proof.
  intros Hd H1' Hi Hok w.
  destruct (itype_fields imm rs1 Funct3.ADDI rd Opcode.OPIMM32)
    as (_ & Eop & Erd & Ef3 & Er1 & Ei & _); [done..|].
  fold w in Eop, Erd, Ef3, Er1, Ei. clearbody w.
  unfold Interpret. rewrite Eop. closed_bools. unfold InterpretOPIMM32.
  rewrite Ef3, Erd, Er1, Ei. closed_bools. cbn [rbind]. apply write_step.
  rewrite sign_extend_u32_wrap. f_equal. apply s32_u32_eq.
  by rewrite wrapU_wrapU, wrapU_idem_add_l, wrapU_idem_add_r.
Qed.

(** ** Unary operations *)

Lemma uop_word_runs op rd rs1 s :
  inU 5 rd -> inU 5 rs1 -> sim_ok s ->
  let '(f7, sh, f3, opc) := uop_code op in
  let w := rtype_word f7 sh rs1 f3 rd opc in
  (let* s := Interpret w s in Ok (retire s)) = exec_uop op rd rs1 4 s.
Proof.
  intros Hd H1' Hok. destruct (uop_code op) as [[[f7 sh] f3] opc] eqn:Ec. intros w.
  assert (inU 7 f7 /\ inU 5 sh /\ inU 3 f3 /\ inU 7 opc) as (?&?&?&?)
    by (unfold uop_code in Ec; destruct op, (XLEN =? 32); simplify_eq; done).
  destruct (rtype_fields f7 sh rs1 f3 rd opc) as (_ & Eop & Erd & Ef3 & Er1 & _ & Ef7); [done..|].
  assert (op <> REV8 -> Instr.shamt w = sh) as Es.
  { intros Hop. apply shamt_fields; try done.
    - unfold inU in *. pose proof XLEN_pos. lia.
    - intros EX. unfold uop_code in Ec. rewrite EX in Ec. by destruct op; simplify_eq. }
  fold w in Eop, Erd, Ef3, Er1, Ef7. clearbody w.
  unfold Interpret. rewrite Eop. xreg_ranges. unfold exec_uop.
  assert (exists is32, (XLEN =? 32) = is32 /\ (64 <=? XLEN) = negb is32) as (is32 & E32 & E64)
    by (destruct XLEN_cases as [EX|EX]; rewrite EX; by eexists).
  unfold uop_code in Ec. rewrite E32 in Ec.
  destruct op; injection Ec as <- <- <- <-; try destruct is32; closed_bools;
    unfold InterpretOPIMM, InterpretOP, InterpretOP32;
    rewrite ?Ef3, ?Ef7, ?E32, ?E64, ?Es, ?Erd, ?Er1 by done; closed_bools;
    unfold InterpretOP32_ADDUW; rewrite ?Ef3, ?E64, ?Erd, ?Er1; closed_bools; cbn [rbind];
    apply write_step; cbn [uop_sem];
    rewrite ?clz_exact, ?ctz_exact, ?cpop_exact, ?sextb_exact, ?sexth_exact, ?zexth_exact,
      ?orcb_exact, ?ux_ux by done; auto using rev8_exact.
Qed.

Lemma uwop_word_runs op rd rs1 s :
  XLEN = 64 -> inU 5 rd -> inU 5 rs1 -> sim_ok s ->
  let w := rtype_word Funct7.COUNT (uwop_code op) rs1 Funct3.F3_COUNT rd Opcode.OPIMM32 in
  (let* s := Interpret w s in Ok (retire s)) = exec_uwop op rd rs1 4 s.
Proof.
  intros HX Hd H1' Hok w.
  assert (0 <= uwop_code op < 32) as Hs by (by destruct op).
  destruct (shamt_fields Funct7.COUNT (uwop_code op) rs1 Funct3.F3_COUNT rd Opcode.OPIMM32)
    as (_ & Eop & Erd & Ef3 & Er1 & Ef7 & Es); [done|lia|done..|].
  fold w in Eop, Erd, Ef3, Er1, Ef7, Es. clearbody w.
  rewrite Z.shiftr_div_pow2, (Z.div_small (uwop_code op)) in Ef7 by lia.
  unfold Interpret. rewrite Eop. closed_bools. unfold InterpretOPIMM32, exec_uwop.
  rewrite Ef3, Erd, Er1, Ef7, Es.
  pose proof (wrapU_range 32 (get_xreg s rs1) ltac:(lia)).
  destruct op; cbn [uwop_code]; closed_bools; cbn [rbind]; apply write_step; cbn [uwop_sem];
    by rewrite ?clzw_exact, ?ctzw_exact, ?cpopw_exact by done.
Qed.

End RefineImm.
