(* ===== verification/RefineMem.v ===== *)
(** * RefineMem: upper immediates, jumps, branches, loads and stores

    The 32-bit encodings run as the ISA prescribes. *)

From stdpp Require Import base numbers list gmap.
From Stdlib Require Import Lia.
From S2P Require Import Prelude Constants Encoding CEncoding AsmBuffer MicroAsm SimState.
From S2P Require Import SimInt SimAtomic SimFloat SimCompressed Simulator Isa IntSpec BitSpec.
From S2P Require Import AsmExec AsmFormats RefineOp.

#[local] Open Scope Z_scope.
#[local] Open Scope res_scope.

Definition lop_asm `{Target} (op : lop) : Z -> Address -> Asm -> Res Asm :=
  match op with
  | LB => MicroAssembler.lb | LH => MicroAssembler.lh | LW => MicroAssembler.lw
  | LBU => MicroAssembler.lbu | LHU => MicroAssembler.lhu | LWU => MicroAssembler.lwu
  | LD => MicroAssembler.ld
  end.
Definition lop_code (op : lop) : Z :=
  match op with
  | LB => Funct3.LB | LH => Funct3.LH | LW => Funct3.LW | LBU => Funct3.LBU
  | LHU => Funct3.LHU | LWU => Funct3.LWU | LD => Funct3.LD
  end.
(** LWU, LD and SD exist on RV64 only. *)
Definition lop_width `{Target} (op : lop) : Prop :=
  match op with LWU | LD => XLEN = 64 | _ => True end.

Definition stop_asm `{Target} (op : stop) : Z -> Address -> Asm -> Res Asm :=
  match op with
  | SB => MicroAssembler.sb | SH => MicroAssembler.sh | SW => MicroAssembler.sw
  | SD => MicroAssembler.sd
  end.
Definition stop_code (op : stop) : Z :=
  match op with SB => Funct3.SB | SH => Funct3.SH | SW => Funct3.SW | SD => Funct3.SD end.
Definition stop_width `{Target} (op : stop) : Prop :=
  match op with SD => XLEN = 64 | _ => True end.

Definition bop_code (op : bop) : Z :=
  match op with
  | BEQ => Funct3.BEQ | BNE => Funct3.BNE | BLT => Funct3.BLT | BGE => Funct3.BGE
  | BLTU => Funct3.BLTU | BGEU => Funct3.BGEU
  end.

Definition wf_address `{Target} (addr : Address) : Prop :=
  inU 5 (base addr) /\ IsITypeImm (offset addr) = true.

Section RefineMem.
Context `{Target} `{HostNaN} `{Host}.

Lemma rbind_rbind {A B C} (m : Res A) (f : A -> Res B) (g : B -> Res C) :
  rbind (rbind m f) g = rbind m (fun a => rbind (f a) g).
Proof. by destruct m. Qed.

Lemma rbind_ext {A B} (m : Res A) (f g : A -> Res B) :
  (forall a, f a = g a) -> rbind m f = rbind m g.
Proof. intros E. destruct m; simpl; [apply E | done]. Qed.

Lemma XLEN_64 : XLEN = 64 -> (64 <=? XLEN) = true.
Proof. by intros ->. Qed.

Lemma load_word_runs op rd addr s :
  lop_width op -> inU 5 rd -> wf_address addr -> sim_ok s ->
  let w := itype_word (offset addr) (base addr) (lop_code op) rd Opcode.LOAD in
  (let* s := Interpret w s in Ok (retire s)) = exec_load op rd addr 4 s.
Proof.
  intros Hwd Hd [Hb Hi] Hok w.
  assert (inU 3 (lop_code op)) as Hf3 by (by destruct op).
  destruct (itype_fields (offset addr) (base addr) (lop_code op) rd Opcode.LOAD)
    as (_ & Eop & Erd & Ef3 & Er1 & Ei & _); [done..|].
  fold w in Eop, Erd, Ef3, Er1, Ei. clearbody w.
  unfold Interpret. rewrite Eop. closed_bools. unfold InterpretLOAD, exec_load, effective.
  rewrite Ef3, Erd, Er1, Ei.
  destruct op; cbn [lop_code lop_type] in *; rewrite ?(XLEN_64 Hwd); closed_bools;
    rewrite ?rbind_rbind; by apply rbind_ext.
Qed.

Lemma store_word_runs op rs2 addr s :
  stop_width op -> inU 5 rs2 -> wf_address addr -> sim_ok s ->
  let w := stype_word (stype_imm_word (offset addr)) rs2 (base addr) (stop_code op) Opcode.STORE in
  (let* s := Interpret w s in Ok (retire s)) = exec_store op rs2 addr 4 s.
Proof.
  intros Hwd H2' [Hb Hi] Hok w.
  assert (inU 3 (stop_code op)) as Hf3 by (by destruct op).
  destruct (stype_fields (offset addr) rs2 (base addr) (stop_code op) Opcode.STORE)
    as (_ & Eop & Ef3 & Er1 & Er2 & Ei); [done..|].
  fold w in Eop, Ef3, Er1, Er2, Ei. clearbody w.
  unfold Interpret. rewrite Eop. closed_bools. unfold InterpretSTORE, exec_store, effective.
  rewrite Ef3, Er1, Er2, Ei.
  destruct op; cbn [stop_code stop_type] in *; rewrite ?(XLEN_64 Hwd); closed_bools;
    rewrite ?rbind_rbind; by apply rbind_ext.
Qed.

Lemma fload_word_runs (double : bool) rd addr s :
  inU 5 rd -> wf_address addr -> sim_ok s ->
  let w := itype_word (offset addr) (base addr) (if double then Funct3.D else Funct3.S) rd
             Opcode.LOADFP in
  (let* s := Interpret w s in Ok (retire s)) =
  (if double then exec_fld else exec_flw) rd addr 4 s.
Proof.
  intros Hd [Hb Hi] Hok w.
  destruct (itype_fields (offset addr) (base addr) (if double then Funct3.D else Funct3.S) rd
              Opcode.LOADFP)
    as (_ & Eop & Erd & Ef3 & Er1 & Ei & _); [done|done|by destruct double|done..|].
  fold w in Eop, Erd, Ef3, Er1, Ei. clearbody w.
  unfold Interpret. rewrite Eop. closed_bools.
  unfold InterpretLOADFP, exec_fld, exec_flw, effective. change Instr.frd with Instr.rd.
  rewrite Ef3, Erd, Er1, Ei.
  destruct double; closed_bools; rewrite ?rbind_rbind; by apply rbind_ext.
Qed.

Lemma fstore_word_runs (double : bool) rs2 addr s :
  inU 5 rs2 -> wf_address addr -> sim_ok s ->
  let w := stype_word (stype_imm_word (offset addr)) rs2 (base addr)
             (if double then Funct3.D else Funct3.S) Opcode.STOREFP in
  (let* s := Interpret w s in Ok (retire s)) =
  (if double then exec_fsd else exec_fsw) rs2 addr 4 s.
Proof.
  intros H2' [Hb Hi] Hok w.
  destruct (stype_fields (offset addr) rs2 (base addr) (if double then Funct3.D else Funct3.S)
              Opcode.STOREFP)
    as (_ & Eop & Ef3 & Er1 & Er2 & Ei); [done|done|done|by destruct double|done|].
  fold w in Eop, Ef3, Er1, Er2, Ei. clearbody w.
  unfold Interpret. rewrite Eop. closed_bools.
  unfold InterpretSTOREFP, exec_fsd, exec_fsw, effective. change Instr.frs2 with Instr.rs2.
  rewrite Ef3, Er1, Er2, Ei.
  destruct double; closed_bools; rewrite ?rbind_rbind; by apply rbind_ext.
Qed.

(** ** Upper immediates and control flow *)

Lemma lui_word_runs rd imm s :
  inS kBitsPerWord imm -> IsUTypeImm imm = true -> inU 5 rd -> sim_ok s ->
  let w := utype_word (Z.shiftl (field imm 12 20) 12) rd Opcode.LUI in
  (let* s := Interpret w s in Ok (retire s)) = exec_lui rd imm 4 s.
Proof.
  intros Hw Hi Hd Hok w.
  destruct (utype_fields imm rd Opcode.LUI) as (_ & Eop & Erd & Ei); [done..|].
  fold w in Eop, Erd, Ei. clearbody w.
  unfold Interpret. rewrite Eop. closed_bools. unfold InterpretLUI, sign_extend_i32.
  rewrite Erd, Ei. cbn [rbind]. apply write_step, ux_sx.
Qed.

Lemma auipc_word_runs rd imm s :
  inS kBitsPerWord imm -> IsUTypeImm imm = true -> inU 5 rd -> sim_ok s ->
  let w := utype_word (Z.shiftl (field imm 12 20) 12) rd Opcode.AUIPC in
  (let* s := Interpret w s in Ok (retire s)) = exec_auipc rd imm 4 s.
Proof.
  intros Hw Hi Hd Hok w.
  destruct (utype_fields imm rd Opcode.AUIPC) as (_ & Eop & Erd & Ei); [done..|].
  fold w in Eop, Erd, Ei. clearbody w.
  unfold Interpret. rewrite Eop. closed_bools. unfold InterpretAUIPC, sign_extend_i32.
  rewrite Erd, Ei. cbn [rbind]. apply write_step.
  by rewrite <- ux_add_r, ux_sx, ux_add_r.
Qed.

Lemma set_xreg_pc s rd v : pc_ (set_xreg s rd v) = pc_ s.
Proof. unfold set_xreg. by destruct (rd =? Reg.ZR). Qed.
Lemma set_xreg_instret s rd v : instret_ (set_xreg s rd v) = instret_ s.
Proof. unfold set_xreg. by destruct (rd =? Reg.ZR). Qed.

Lemma jump_step s rd target target' len :
  ux target = ux target' ->
  Ok (retire (set_pc (set_xreg s rd (pc_ s + len)) (ux target))) = Ok (jump_to target' rd len s).
Proof.
  intros E. unfold jump_to, retire. rewrite E. do 2 f_equal.
  change (instret_ (set_pc ?x ?y)) with (instret_ x). by rewrite set_xreg_instret.
Qed.

Lemma jalr_word_runs rd rs1 imm s :
  IsITypeImm imm = true -> inU 5 rd -> inU 5 rs1 -> sim_ok s ->
  let w := itype_word imm rs1 Funct3.F3_0 rd Opcode.JALR in
  (let* s := Interpret w s in Ok (retire s)) = exec_jalr rd rs1 imm 4 s.
Proof.
  intros Hi Hd H1' Hok w.
  destruct (itype_fields imm rs1 Funct3.F3_0 rd Opcode.JALR)
    as (_ & Eop & Erd & _ & Er1 & Ei & _); [done..|].
  fold w in Eop, Erd, Er1, Ei. clearbody w.
  unfold Interpret. rewrite Eop. closed_bools. unfold InterpretJALR.
  rewrite Erd, Er1, Ei. cbn [rbind]. apply jump_step, ux_add_r.
Qed.

Lemma jal_word_runs rd imm s :
  IsJTypeImm imm = true -> inU 5 rd -> sim_ok s ->
  let w := utype_word (jtype_imm_word imm) rd Opcode.JAL in
  (let* s := Interpret w s in Ok (retire s)) = exec_jal rd imm 4 s.
Proof.
  intros Hi Hd Hok w.
  destruct (jtype_fields imm rd Opcode.JAL) as (_ & Eop & Erd & Ei); [done..|].
  fold w in Eop, Erd, Ei. clearbody w.
  unfold Interpret. rewrite Eop. closed_bools. unfold InterpretJAL, sign_extend_i32.
  rewrite Erd, Ei. cbn [rbind]. unfold add_pc. rewrite set_xreg_pc.
  apply jump_step. by rewrite <- ux_add_r, ux_sx, ux_add_r.
Qed.

Lemma branch_word_runs op rs1 rs2 imm s :
  IsBTypeImm imm = true -> inU 5 rs1 -> inU 5 rs2 -> sim_ok s ->
  let w := stype_word (btype_imm_word imm) rs2 rs1 (bop_code op) Opcode.BRANCH in
  (let* s := Interpret w s in Ok (retire s)) = exec_branch op rs1 rs2 imm 4 s.
Proof.
  intros Hi H1' H2' Hok w.
  assert (inU 3 (bop_code op)) as Hf3 by (by destruct op).
  destruct (btype_fields imm rs2 rs1 (bop_code op) Opcode.BRANCH)
    as (_ & Eop & Ef3 & Er1 & Er2 & Ei); [done..|].
  fold w in Eop, Ef3, Er1, Er2, Ei. clearbody w.
  unfold Interpret. rewrite Eop. closed_bools. unfold InterpretBRANCH.
  rewrite Ef3, Er1, Er2, Ei. by destruct op; cbn [bop_code]; closed_bools.
Qed.

End RefineMem.
