(* ===== verification/RefineC.v ===== *)
(** * RefineC: the compressed instructions

    Every compressed instruction the assembler selects runs as the 32-bit
    instruction it stands for, with its own length. *)

From stdpp Require Import base numbers list gmap.
From Stdlib Require Import Lia.
From S2P Require Import Prelude Constants Encoding CEncoding AsmBuffer MicroAsm SimState.
From S2P Require Import SimInt SimAtomic SimFloat SimCompressed Simulator Isa IntSpec BitSpec.
From S2P Require Import AsmExec AsmFormats AsmCFormats RefineOp RefineImm RefineMem.

#[local] Open Scope Z_scope.
#[local] Open Scope res_scope.

(** ** Automation *)

(** The assertions and encoders of a [c_*] method, for arguments in range. *)
Ltac c_emit :=
  repeat (rewrite ASSERT_true
            by first [done | apply Z.eqb_refl | by apply negb_true_iff, Z.eqb_neq | by apply Z.eqb_eq];
          cbn [rbind]);
  rewrite ?EncodeCRd_ok, ?EncodeCRs2_ok, ?EncodeCRdp_ok, ?EncodeCRs1p_ok,
    ?EncodeCSPLoad4Imm_ok, ?EncodeCSPLoad8Imm_ok, ?EncodeCSPStore4Imm_ok, ?EncodeCSPStore8Imm_ok,
    ?EncodeCMem4Imm_ok, ?EncodeCMem8Imm_ok, ?EncodeCIImm_ok, ?EncodeCUImm_ok, ?EncodeCI16Imm_ok,
    ?EncodeCI4SPNImm_ok by done;
  cbn [rbind]; reflexivity.

Ltac c_unfold_fields :=
  unfold CSPLoad4Imm_fields, CSPLoad8Imm_fields, CSPStore4Imm_fields, CSPStore8Imm_fields,
    CMem4Imm_fields, CMem8Imm_fields, CIImm_fields, CUImm_fields, CI16Imm_fields,
    CI4SPNImm_fields, CJImm_fields, CBImm_fields.

Ltac c_range :=
  c_unfold_fields; repeat (apply inU_lor; [lia| |]);
  first [ apply inU_0; lia
        | match goal with
          | |- inU _ (Z.shiftl (field _ _ ?k) _) =>
              apply (inU_shiftl _ k); [apply field_range; lia|lia..]
          | H : inU ?k ?v |- inU _ (Z.shiftl ?v _) => apply (inU_shiftl _ k); [exact H|lia..]
          end
        | by vm_compute ].

(** A field of a composed 16-bit word. *)
Ltac c_decode :=
  rewrite ?copcode_fields, ?miscalu_fields, ?rr_fields, ?jalr_bit_field, ?IsCInstruction_field;
  unfold CInstr.rd, CInstr.rs1, CInstr.rs2, CInstr.rdp, CInstr.rs1p, CInstr.rs2p, CInstr.frd,
    CInstr.frs2, CInstr.frdp, CInstr.frs2p, DecodeCRd, DecodeCRs2, DecodeCRdp, DecodeCRs1p,
    DecodeCRs2p, DecodeCFRd, DecodeCFRs2, DecodeCFRdp, DecodeCFRs2p, DecodeRegPrime, DecodeReg;
  c_unfold_fields; fold_fields; repeat (simpl_fields; closed_fields); try reflexivity; try lia.

(** The immediate of a word built by one of the C formats. *)
Ltac c_imm lem := apply lem; [done | c_decode..].

(** The [switch] on the opcode of a word. *)
Ltac c_dispatch Eop :=
  unfold InterpretC, InterpretC_memory, InterpretC_control, InterpretC_alu;
  rewrite Eop; closed_bools; rewrite ?andb_false_r, ?andb_true_r; cbn iota.

Section RefineC.
Context `{Target} `{HostNaN} `{Host}.

(** ** Register-register *)

Lemma neqb a b : a <> b -> (a =? b) = false.
Proof. apply Z.eqb_neq. Qed.

Lemma c_add_runs rd rs2 a :
  Supports a RV_C = true -> inU 5 rd -> inU 5 rs2 -> rd <> Reg.ZR -> rs2 <> Reg.ZR ->
  implements (MicroAssembler.c_add rd rd rs2) a (exec_rop ADD rd rd rs2).
Proof.
  intros HC Hd H2 Hd0 H20.
  eapply implements_16; [unfold MicroAssembler.c_add; c_emit | c_range | c_decode |].
  intros s Hok. set (w := Z.lor _ _).
  assert (CInstr.opcode w = COpcode.C_JR) as Eop by (unfold w; c_decode).
  assert (CInstr.rd w = rd) as Erd by (unfold w; c_decode).
  assert (CInstr.rs2 w = rs2) as Er2 by (unfold w; c_decode).
  assert (Z.land w (Z.lxor COpcode.C_JALR COpcode.C_JR) = 4096) as Ebit by (unfold w; c_decode).
  clearbody w. change CInstr.rs1 with CInstr.rd in *.
  c_dispatch Eop. change CInstr.rs1 with CInstr.rd. 
  rewrite Ebit, Erd, Er2, (neqb rd), (neqb rs2) by done. closed_bools. reflexivity.
Qed.

Lemma c_mv_runs rd rs2 a :
  Supports a RV_C = true -> inU 5 rd -> inU 5 rs2 -> rd <> Reg.ZR -> rs2 <> Reg.ZR ->
  implements (MicroAssembler.c_mv rd rs2) a (exec_iop ADDI rd rs2 0).
Proof.
  intros HC Hd H2 Hd0 H20.
  eapply implements_16; [unfold MicroAssembler.c_mv; c_emit | c_range | c_decode |].
  intros s Hok. set (w := Z.lor _ _).
  assert (CInstr.opcode w = COpcode.C_JR) as Eop by (unfold w; c_decode).
  assert (CInstr.rd w = rd) as Erd by (unfold w; c_decode).
  assert (CInstr.rs2 w = rs2) as Er2 by (unfold w; c_decode).
  assert (Z.land w (Z.lxor COpcode.C_JALR COpcode.C_JR) = 0) as Ebit by (unfold w; c_decode).
  clearbody w. c_dispatch Eop. rewrite Ebit, Erd, Er2, (neqb rd), (neqb rs2) by done.
  closed_bools. cbn [rbind]. apply write_step. cbn [iop_sem]. by rewrite Z.add_0_r.
Qed.

(** The RR group of MISCALU. *)
Lemma c_rr_step w rd rs2 s code :
  CInstr.opcode w = COpcode.C_MISCALU -> Z.land w COpcode.C_MISCALU_MASK = COpcode.C_RR ->
  Z.land w COpcode.C_RR_MASK = code -> CInstr.rs1p w = rd -> CInstr.rs2p w = rs2 ->
  InterpretC w s =
  let a := get_xreg s rd in
  let b := get_xreg s rs2 in
  let set v := Ok (add_pc (set_xreg s rd v) CInstr.length) in
  if code =? COpcode.C_AND then set (Z.land a b)
  else if code =? COpcode.C_OR then set (Z.lor a b)
  else if code =? COpcode.C_XOR then set (Z.lxor a b)
  else if code =? COpcode.C_SUB then set (a - b)
  else if code =? COpcode.C_ADDW then set (sign_extend_u32 (u32 (u32 a + u32 b)))
  else if code =? COpcode.C_SUBW then set (sign_extend_u32 (u32 (u32 a - u32 b)))
  else IllegalInstruction w.
Proof.
  intros Eop Em Er E1 E2. c_dispatch Eop. unfold InterpretC_miscalu. rewrite Em, Er, E1, E2.
  closed_bools. by repeat match goal with |- context [code =? ?c] => destruct (code =? c) end.
Qed.

Lemma c_rr_regs rd rs2 :
  IsRegPrime rd = true -> IsRegPrime rs2 = true ->
  inU 3 (rd - 8) /\ inU 3 (rs2 - 8) /\ rd - 8 + 8 = rd /\ rs2 - 8 + 8 = rs2.
Proof. rewrite !IsRegPrime_spec. intros. split_and!; done || lia. Qed.

(** The six register-register operations that have a compressed form. *)
Definition c_rop_asm (op : rop) : option (Z -> Z -> Z -> Asm -> Res Asm) :=
  match op with
  | AND => Some MicroAssembler.c_and | OR => Some MicroAssembler.c_or
  | XOR => Some MicroAssembler.c_xor | SUB => Some MicroAssembler.c_sub
  | _ => None
  end.

Lemma c_rop_runs op m rd rs2 a :
  c_rop_asm op = Some m -> Supports a RV_C = true -> IsRegPrime rd = true ->
  IsRegPrime rs2 = true -> implements (m rd rd rs2) a (exec_rop op rd rd rs2).
Proof.
  intros Hm HC Hd H2. destruct (c_rr_regs rd rs2) as (Rd & R2 & Ed & E2); [done..|].
  destruct op; try discriminate Hm; injection Hm as <-;
  (eapply implements_16;
   [unfold MicroAssembler.c_and, MicroAssembler.c_or, MicroAssembler.c_xor, MicroAssembler.c_sub;
    change EncodeCRs2p with EncodeCRdp; c_emit | c_range | c_decode |]);
  intros s Hok; (erewrite c_rr_step; [|c_decode..]); rewrite Ed, E2; closed_bools; reflexivity.
Qed.

Lemma c_addw_runs rd rs2 a :
  Supports a RV_C = true -> IsRegPrime rd = true -> IsRegPrime rs2 = true ->
  implements (MicroAssembler.c_addw rd rd rs2) a (exec_wop ADDW rd rd rs2) /\
  implements (MicroAssembler.c_subw rd rd rs2) a (exec_wop SUBW rd rd rs2).
Proof.
  intros HC Hd H2. destruct (c_rr_regs rd rs2) as (Rd & R2 & Ed & E2); [done..|].
  split;
  (eapply implements_16;
   [unfold MicroAssembler.c_addw, MicroAssembler.c_subw;
    change EncodeCRs2p with EncodeCRdp; c_emit | c_range | c_decode |]);
  intros s Hok; (erewrite c_rr_step; [|c_decode..]); rewrite Ed, E2; closed_bools; cbv zeta; cbn [rbind];
  apply write_step; cbn [wop_sem]; rewrite sign_extend_u32_wrap; f_equal; apply s32_u32_eq;
  rewrite wrapU_wrapU.
  - by rewrite wrapU_idem_add_l, wrapU_idem_add_r.
  - by rewrite wrapU_idem_sub_l, wrapU_idem_sub_r.
Qed.

(** ** Immediates *)

Lemma c_li_runs rd imm a :
  Supports a RV_C = true -> inU 5 rd -> rd <> Reg.ZR -> IsCIImm imm = true ->
  implements (MicroAssembler.c_li rd imm) a (exec_iop ADDI rd Reg.ZR imm).
Proof.
  intros HC Hd Hd0 Hi.
  eapply implements_16; [unfold MicroAssembler.c_li; c_emit | c_range | c_decode |].
  intros s Hok. set (w := Z.lor _ _).
  assert (CInstr.opcode w = COpcode.C_LI) as Eop by (unfold w; c_decode).
  assert (CInstr.rd w = rd) as Erd by (unfold w; c_decode).
  assert (CInstr.i_imm w = imm) as Ei by (unfold w, CInstr.i_imm; c_imm DecodeCIImm_fields).
  clearbody w. c_dispatch Eop. rewrite Erd, Ei, (neqb rd) by done. cbn [rbind].
  apply write_step. cbn [iop_sem]. rewrite get_xreg_zero by done. apply ux_sx.
Qed.

Lemma c_lui_runs rd imm a :
  Supports a RV_C = true -> inU 5 rd -> rd <> Reg.ZR -> rd <> Reg.SP -> IsCUImm imm = true ->
  imm <> 0 -> implements (MicroAssembler.c_lui rd imm) a (exec_lui rd imm).
Proof.
  intros HC Hd Hd0 Hd2 Hi Hi0.
  eapply implements_16; [unfold MicroAssembler.c_lui; c_emit | c_range | c_decode |].
  intros s Hok. set (w := Z.lor _ _).
  assert (CInstr.opcode w = COpcode.C_LUI) as Eop by (unfold w; c_decode).
  assert (CInstr.rd w = rd) as Erd by (unfold w; c_decode).
  assert (CInstr.u_imm w = imm) as Ei by (unfold w, CInstr.u_imm; c_imm DecodeCUImm_fields).
  clearbody w. c_dispatch Eop. rewrite Erd, Ei, !(neqb rd), (neqb imm) by done. cbn [orb rbind].
  apply write_step, ux_sx.
Qed.

Lemma c_addi_runs rd imm a :
  Supports a RV_C = true -> inU 5 rd -> IsCIImm imm = true -> imm <> 0 ->
  implements (MicroAssembler.c_addi rd rd imm) a (exec_iop ADDI rd rd imm).
Proof.
  intros HC Hd Hi Hi0.
  eapply implements_16; [unfold MicroAssembler.c_addi; c_emit | c_range | c_decode |].
  intros s Hok. set (w := Z.lor _ _).
  assert (CInstr.opcode w = COpcode.C_ADDI) as Eop by (unfold w; c_decode).
  assert (CInstr.rd w = rd) as Erd by (unfold w; c_decode).
  assert (CInstr.i_imm w = imm) as Ei by (unfold w, CInstr.i_imm; c_imm DecodeCIImm_fields).
  clearbody w. c_dispatch Eop. change CInstr.rs1 with CInstr.rd. rewrite Erd, Ei. reflexivity.
Qed.

Lemma c_nop_runs a :
  Supports a RV_C = true -> implements MicroAssembler.c_nop a (exec_iop ADDI Reg.ZR Reg.ZR 0).
Proof.
  intros HC.
  eapply implements_16; [unfold MicroAssembler.c_nop; c_emit | by vm_compute | done |].
  intros s Hok.
  assert (CInstr.opcode COpcode.C_NOP = COpcode.C_ADDI) as Eop by done.
  c_dispatch Eop. reflexivity.
Qed.

Lemma c_addiw_runs rd imm a :
  XLEN = 64 -> Supports a RV_C = true -> inU 5 rd -> IsCIImm imm = true ->
  implements (MicroAssembler.c_addiw rd rd imm) a
    (fun len s => Ok (write rd (s32 (get_xreg s rd + imm)) len s)).
Proof.
  intros HX HC Hd Hi.
  eapply implements_16; [unfold MicroAssembler.c_addiw; c_emit | c_range | c_decode |].
  intros s Hok. set (w := Z.lor _ _).
  assert (CInstr.opcode w = COpcode.C_ADDIW) as Eop by (unfold w; c_decode).
  assert (CInstr.rd w = rd) as Erd by (unfold w; c_decode).
  assert (CInstr.i_imm w = imm) as Ei by (unfold w, CInstr.i_imm; c_imm DecodeCIImm_fields).
  assert ((XLEN =? 32) = false) as E32 by (by rewrite HX).
  clearbody w. c_dispatch Eop. rewrite E32, (XLEN_64 HX). cbn [andb]. cbn iota.
  change CInstr.rs1 with CInstr.rd. rewrite Erd, Ei. cbn [rbind]. apply write_step.
  rewrite sign_extend_u32_wrap. f_equal. apply s32_u32_eq.
  by rewrite wrapU_wrapU, wrapU_idem_add_l, wrapU_idem_add_r.
Qed.

Lemma c_addi16sp_runs imm a :
  Supports a RV_C = true -> IsCI16Imm imm = true -> imm <> 0 ->
  implements (MicroAssembler.c_addi16sp Reg.SP Reg.SP imm) a (exec_iop ADDI Reg.SP Reg.SP imm).
Proof.
  intros HC Hi Hi0. assert (inU 5 Reg.SP) by done.
  eapply implements_16; [unfold MicroAssembler.c_addi16sp; c_emit | c_range | c_decode |].
  intros s Hok. set (w := Z.lor _ _).
  assert (CInstr.opcode w = COpcode.C_LUI) as Eop by (unfold w; c_decode).
  assert (CInstr.rd w = Reg.SP) as Erd by (unfold w; c_decode).
  assert (CInstr.i16_imm w = imm) as Ei by (unfold w, CInstr.i16_imm; c_imm DecodeCI16Imm_fields).
  clearbody w. c_dispatch Eop. change CInstr.rs1 with CInstr.rd. rewrite Erd, Ei, (neqb imm) by done.
  closed_bools. cbn [rbind]. apply write_step. cbn [iop_sem].
  unfold sign_extend_i64. by rewrite <- ux_add_r, ux_sx, ux_add_r.
Qed.

Lemma c_addi4spn_runs rd imm a :
  Supports a RV_C = true -> IsRegPrime rd = true -> IsCI4SPNImm imm = true -> imm <> 0 ->
  implements (MicroAssembler.c_addi4spn rd Reg.SP imm) a (exec_iop ADDI rd Reg.SP imm).
Proof.
  intros HC Hd Hi Hi0. pose proof (proj1 (IsRegPrime_spec rd) Hd).
  eapply implements_16; [unfold MicroAssembler.c_addi4spn; c_emit | c_range | c_decode |].
  intros s Hok. set (w := Z.lor _ _).
  assert (CInstr.opcode w = COpcode.C_ADDI4SPN) as Eop by (unfold w; c_decode).
  assert (CInstr.rdp w = rd) as Erd by (unfold w; c_decode).
  assert (CInstr.i4spn_imm w = imm) as Ei
    by (unfold w, CInstr.i4spn_imm; c_imm DecodeCI4SPNImm_fields).
  clearbody w. c_dispatch Eop. rewrite Erd, Ei, (neqb imm) by done. reflexivity.
Qed.

(** ** Shifts and masks *)

Lemma CIImm_shamt sh : IsCIImm sh = true -> 0 < sh -> 0 <= sh < 32.
Proof. rewrite IsCIImm_spec. unfold inS. simpl. lia. Qed.

Lemma c_slli_runs rd sh a :
  Supports a RV_C = true -> inU 5 rd -> IsCIImm sh = true -> 0 < sh ->
  implements (MicroAssembler.c_slli rd rd sh) a (exec_sop SLLI rd rd sh).
Proof.
  intros HC Hd Hi Hs. assert (sh <> 0) by lia. pose proof (CIImm_shamt sh Hi Hs). pose proof XLEN_pos.
  eapply implements_16; [unfold MicroAssembler.c_slli; c_emit | c_range | c_decode |].
  intros s Hok. set (w := Z.lor _ _).
  assert (CInstr.opcode w = COpcode.C_SLLI) as Eop by (unfold w; c_decode).
  assert (CInstr.rd w = rd) as Erd by (unfold w; c_decode).
  assert (CInstr.i_imm w = sh) as Ei by (unfold w, CInstr.i_imm; c_imm DecodeCIImm_fields).
  clearbody w. c_dispatch Eop. change CInstr.rs1 with CInstr.rd. rewrite Erd, Ei, (neqb sh) by done.
  cbn [rbind]. apply write_step. cbn [sop_sem].
  by rewrite ux_shiftl, (Z.mod_small sh) by lia.
Qed.

Lemma c_misc_shift_runs rd sh a :
  Supports a RV_C = true -> IsRegPrime rd = true -> IsCIImm sh = true -> 0 < sh ->
  implements (MicroAssembler.c_srli rd rd sh) a (exec_sop SRLI rd rd sh) /\
  implements (MicroAssembler.c_srai rd rd sh) a (exec_sop SRAI rd rd sh).
Proof.
  intros HC Hd Hi Hs. assert (sh <> 0) by lia. pose proof (CIImm_shamt sh Hi Hs). pose proof XLEN_pos.
  pose proof (proj1 (IsRegPrime_spec rd) Hd).
  split; (eapply implements_16;
    [unfold MicroAssembler.c_srli, MicroAssembler.c_srai; c_emit | c_range | c_decode |]);
  intros s Hok; set (w := Z.lor _ _);
  assert (CInstr.opcode w = COpcode.C_MISCALU) as Eop by (unfold w; c_decode);
  assert (CInstr.rs1p w = rd) as Erd by (unfold w; c_decode);
  assert (CInstr.i_imm w = sh) as Ei by (unfold w, CInstr.i_imm; c_imm DecodeCIImm_fields);
  [assert (Z.land w COpcode.C_MISCALU_MASK = COpcode.C_SRLI) as Em by (unfold w; c_decode)
  |assert (Z.land w COpcode.C_MISCALU_MASK = COpcode.C_SRAI) as Em by (unfold w; c_decode)];
  clearbody w; c_dispatch Eop; unfold InterpretC_miscalu; rewrite Em, Erd, Ei, (neqb sh) by done;
  closed_bools; cbn [rbind]; apply write_step; cbn [sop_sem];
  by rewrite shiftr_mod, (Z.mod_small sh) by lia.
Qed.

Lemma c_andi_runs rd imm a :
  Supports a RV_C = true -> IsRegPrime rd = true -> IsCIImm imm = true ->
  implements (MicroAssembler.c_andi rd rd imm) a (exec_iop ANDI rd rd imm).
Proof.
  intros HC Hd Hi. pose proof (proj1 (IsRegPrime_spec rd) Hd).
  eapply implements_16; [unfold MicroAssembler.c_andi; c_emit | c_range | c_decode |].
  intros s Hok. set (w := Z.lor _ _).
  assert (CInstr.opcode w = COpcode.C_MISCALU) as Eop by (unfold w; c_decode).
  assert (CInstr.rs1p w = rd) as Erd by (unfold w; c_decode).
  assert (CInstr.i_imm w = imm) as Ei by (unfold w, CInstr.i_imm; c_imm DecodeCIImm_fields).
  assert (Z.land w COpcode.C_MISCALU_MASK = COpcode.C_ANDI) as Em by (unfold w; c_decode).
  clearbody w. c_dispatch Eop. unfold InterpretC_miscalu. rewrite Em, Erd, Ei.
  closed_bools. cbn [rbind]. apply write_step. cbn [iop_sem]. by rewrite !ux_land, ux_ux.
Qed.

(** ** Jumps *)

Lemma c_jr_runs rs1 a :
  Supports a RV_C = true -> inU 5 rs1 -> rs1 <> Reg.ZR ->
  implements (MicroAssembler.c_jr rs1) a (exec_jalr Reg.ZR rs1 0).
Proof.
  intros HC H1' Hz. assert (inU 5 Reg.ZR) by done.
  eapply implements_16; [unfold MicroAssembler.c_jr; change EncodeCRs1 with EncodeCRd; c_emit
                        | c_range | c_decode |].
  intros s Hok. set (w := Z.lor _ _).
  assert (CInstr.opcode w = COpcode.C_JR) as Eop by (unfold w; c_decode).
  assert (CInstr.rd w = rs1) as Erd by (unfold w; c_decode).
  assert (CInstr.rs2 w = 0) as Er2 by (unfold w; c_decode).
  assert (Z.land w (Z.lxor COpcode.C_JALR COpcode.C_JR) = 0) as Ebit by (unfold w; c_decode).
  clearbody w. c_dispatch Eop. change CInstr.rs1 with CInstr.rd. rewrite Ebit, Erd, Er2.
  closed_bools. rewrite andb_false_r. cbn iota. cbn [rbind]. unfold exec_jalr, jump_to.
  rewrite Z.add_0_r, (ux_small (get_xreg s rs1)) by (by apply get_xreg_range). reflexivity.
Qed.

Lemma c_jalr_runs rs1 a :
  Supports a RV_C = true -> inU 5 rs1 -> rs1 <> Reg.ZR ->
  implements (MicroAssembler.c_jalr rs1) a (exec_jalr Reg.RA rs1 0).
Proof.
  intros HC H1' Hz. assert (inU 5 Reg.ZR) by done.
  eapply implements_16; [unfold MicroAssembler.c_jalr; change EncodeCRs1 with EncodeCRd; c_emit
                        | c_range | c_decode |].
  intros s Hok. set (w := Z.lor _ _).
  assert (CInstr.opcode w = COpcode.C_JR) as Eop by (unfold w; c_decode).
  assert (CInstr.rd w = rs1) as Erd by (unfold w; c_decode).
  assert (CInstr.rs2 w = 0) as Er2 by (unfold w; c_decode).
  assert (Z.land w (Z.lxor COpcode.C_JALR COpcode.C_JR) = 4096) as Ebit by (unfold w; c_decode).
  clearbody w. c_dispatch Eop. change CInstr.rs1 with CInstr.rd.
  rewrite Ebit, Erd, Er2, (neqb rs1) by done.
  closed_bools. cbn [rbind]. unfold exec_jalr, jump_to.
  rewrite Z.add_0_r, (ux_small (get_xreg s rs1)) by (by apply get_xreg_range).
  unfold retire, set_xreg. by destruct (Reg.RA =? Reg.ZR).
Qed.

End RefineC.
