(* ===== verification/RefineCMem.v ===== *)
(** * RefineCMem: compressed loads and stores

    The stack-pointer relative and register relative forms run as the loads
    and stores they stand for. *)

From stdpp Require Import base numbers list gmap.
From Stdlib Require Import Lia.
From S2P Require Import Prelude Constants Encoding CEncoding AsmBuffer MicroAsm SimState.
From S2P Require Import SimInt SimAtomic SimFloat SimCompressed Simulator Isa IntSpec BitSpec.
From S2P Require Import AsmExec AsmFormats AsmCFormats RefineOp RefineImm RefineMem RefineC.

#[local] Open Scope Z_scope.
#[local] Open Scope res_scope.

(** Emission, range and length of a [c_*] memory access, leaving its run. *)
Ltac c_mem_start :=
  eapply implements_16;
  [unfold MicroAssembler.c_lwsp, MicroAssembler.c_ldsp, MicroAssembler.c_flwsp,
     MicroAssembler.c_fldsp, MicroAssembler.c_swsp, MicroAssembler.c_sdsp, MicroAssembler.c_fswsp,
     MicroAssembler.c_fsdsp, MicroAssembler.c_lw, MicroAssembler.c_ld, MicroAssembler.c_flw,
     MicroAssembler.c_fld, MicroAssembler.c_sw, MicroAssembler.c_sd, MicroAssembler.c_fsw,
     MicroAssembler.c_fsd; change EncodeCFRd with EncodeCRd; change EncodeCFRs2 with EncodeCRs2;
   change EncodeCRs2p with EncodeCRdp; change EncodeCFRdp with EncodeCRdp;
   change EncodeCFRs2p with EncodeCRdp; c_emit
  | c_range | c_decode |].

(** The run of an access through SP: [acc] reads the register field and
    [imm] the offset of the word. *)
Ltac c_mem_run addr opc acc r imm lem E32 :=
  let w := fresh "w" in let Eop := fresh "Eop" in let Er := fresh "Er" in let Ei := fresh "Ei" in
  intros s Hok; set (w := Z.lor _ _);
  assert (CInstr.opcode w = opc) as Eop by (unfold w; c_decode);
  assert (acc w = r) as Er by (unfold w; c_decode);
  assert (imm w = offset addr) as Ei by (unfold w, imm; c_imm lem);
  clearbody w; c_dispatch Eop; rewrite ?E32; cbn [andb negb]; cbn iota; rewrite Er, Ei;
  unfold exec_load, exec_store, exec_flw, exec_fld, exec_fsw, exec_fsd, effective.

(** ... and of one through a register. *)
Ltac c_mem_run_reg addr opc acc r imm lem E32 :=
  let w := fresh "w" in let Eop := fresh "Eop" in let Er := fresh "Er" in let Ei := fresh "Ei" in
  let Eb := fresh "Eb" in
  intros s Hok; set (w := Z.lor _ _);
  assert (CInstr.opcode w = opc) as Eop by (unfold w; c_decode);
  assert (acc w = r) as Er by (unfold w; c_decode);
  assert (CInstr.rs1p w = base addr) as Eb by (unfold w; c_decode);
  assert (imm w = offset addr) as Ei by (unfold w, imm; c_imm lem);
  clearbody w; c_dispatch Eop; rewrite ?E32; cbn [andb negb]; cbn iota; rewrite Er, Ei, Eb;
  unfold exec_load, exec_store, exec_flw, exec_fld, exec_fsw, exec_fsd, effective.

Section RefineCMem.
Context `{Target} `{HostNaN} `{Host}.

(** ** Relative to the stack pointer *)

Lemma c_lwsp_runs rd addr a :
  Supports a RV_C = true -> inU 5 rd -> rd <> Reg.ZR -> base addr = Reg.SP ->
  IsCSPLoad4Imm (offset addr) = true ->
  implements (MicroAssembler.c_lwsp rd addr) a (exec_load LW rd addr).
Proof.
  intros HC Hr Hz Hb Hi.
  c_mem_start.
  c_mem_run addr COpcode.C_LWSP CInstr.rd rd CInstr.spload4_imm DecodeCSPLoad4Imm_fields andb_false_r.
  rewrite Hb, ?rbind_rbind. by apply rbind_ext.
Qed.

Lemma c_ldsp_runs rd addr a :
  XLEN = 64 -> Supports a RV_C = true -> inU 5 rd -> rd <> Reg.ZR -> base addr = Reg.SP ->
  IsCSPLoad8Imm (offset addr) = true ->
  implements (MicroAssembler.c_ldsp rd addr) a (exec_load LD rd addr).
Proof.
  intros HX HC Hr Hz Hb Hi.
  assert ((XLEN =? 32) = false) as E32 by (by rewrite HX).
  c_mem_start.
  c_mem_run addr COpcode.C_LDSP CInstr.rd rd CInstr.spload8_imm DecodeCSPLoad8Imm_fields E32.
  rewrite Hb, ?rbind_rbind. by apply rbind_ext.
Qed.

Lemma c_flwsp_runs rd addr a :
  XLEN = 32 -> Supports a RV_C = true -> Supports a RV_F = true -> inU 5 rd -> base addr = Reg.SP ->
  IsCSPLoad4Imm (offset addr) = true ->
  implements (MicroAssembler.c_flwsp rd addr) a (exec_flw rd addr).
Proof.
  intros HX HC HE Hr Hb Hi.
  assert ((XLEN =? 32) = true) as E32 by (by rewrite HX).
  c_mem_start.
  c_mem_run addr COpcode.C_FLWSP CInstr.frd rd CInstr.spload4_imm DecodeCSPLoad4Imm_fields E32.
  rewrite Hb, ?rbind_rbind. by apply rbind_ext.
Qed.

Lemma c_fldsp_runs rd addr a :
  Supports a RV_C = true -> Supports a RV_D = true -> inU 5 rd -> base addr = Reg.SP ->
  IsCSPLoad8Imm (offset addr) = true ->
  implements (MicroAssembler.c_fldsp rd addr) a (exec_fld rd addr).
Proof.
  intros HC HE Hr Hb Hi.
  c_mem_start.
  c_mem_run addr COpcode.C_FLDSP CInstr.frd rd CInstr.spload8_imm DecodeCSPLoad8Imm_fields andb_false_r.
  rewrite Hb, ?rbind_rbind. by apply rbind_ext.
Qed.

Lemma c_swsp_runs rs2 addr a :
  Supports a RV_C = true -> inU 5 rs2 -> base addr = Reg.SP ->
  IsCSPStore4Imm (offset addr) = true ->
  implements (MicroAssembler.c_swsp rs2 addr) a (exec_store SW rs2 addr).
Proof.
  intros HC Hr Hb Hi.
  c_mem_start.
  c_mem_run addr COpcode.C_SWSP CInstr.rs2 rs2 CInstr.spstore4_imm DecodeCSPStore4Imm_fields andb_false_r.
  rewrite Hb, ?rbind_rbind. by apply rbind_ext.
Qed.

Lemma c_sdsp_runs rs2 addr a :
  XLEN = 64 -> Supports a RV_C = true -> inU 5 rs2 -> base addr = Reg.SP ->
  IsCSPStore8Imm (offset addr) = true ->
  implements (MicroAssembler.c_sdsp rs2 addr) a (exec_store SD rs2 addr).
Proof.
  intros HX HC Hr Hb Hi.
  assert ((XLEN =? 32) = false) as E32 by (by rewrite HX).
  c_mem_start.
  c_mem_run addr COpcode.C_SDSP CInstr.rs2 rs2 CInstr.spstore8_imm DecodeCSPStore8Imm_fields E32.
  rewrite Hb, ?rbind_rbind. by apply rbind_ext.
Qed.

Lemma c_fswsp_runs rs2 addr a :
  XLEN = 32 -> Supports a RV_C = true -> Supports a RV_F = true -> inU 5 rs2 -> base addr = Reg.SP ->
  IsCSPStore4Imm (offset addr) = true ->
  implements (MicroAssembler.c_fswsp rs2 addr) a (exec_fsw rs2 addr).
Proof.
  intros HX HC HE Hr Hb Hi.
  assert ((XLEN =? 32) = true) as E32 by (by rewrite HX).
  c_mem_start.
  c_mem_run addr COpcode.C_FSWSP CInstr.frs2 rs2 CInstr.spstore4_imm DecodeCSPStore4Imm_fields E32.
  rewrite Hb, ?rbind_rbind. by apply rbind_ext.
Qed.

Lemma c_fsdsp_runs rs2 addr a :
  Supports a RV_C = true -> Supports a RV_D = true -> inU 5 rs2 -> base addr = Reg.SP ->
  IsCSPStore8Imm (offset addr) = true ->
  implements (MicroAssembler.c_fsdsp rs2 addr) a (exec_fsd rs2 addr).
Proof.
  intros HC HE Hr Hb Hi.
  c_mem_start.
  c_mem_run addr COpcode.C_FSDSP CInstr.frs2 rs2 CInstr.spstore8_imm DecodeCSPStore8Imm_fields andb_false_r.
  rewrite Hb, ?rbind_rbind. by apply rbind_ext.
Qed.

(** ** Relative to a register of x8 to x15 *)

Lemma c_lw_runs rd addr a :
  Supports a RV_C = true -> IsRegPrime rd = true -> IsRegPrime (base addr) = true ->
  IsCMem4Imm (offset addr) = true ->
  implements (MicroAssembler.c_lw rd addr) a (exec_load LW rd addr).
Proof.
  intros HC Hr Hb Hi. destruct (c_rr_regs rd (base addr)) as (Rr & Rb & _ & Eb); [done..|].
  c_mem_start.
  c_mem_run_reg addr COpcode.C_LW CInstr.rdp rd CInstr.mem4_imm DecodeCMem4Imm_fields andb_false_r.
  rewrite ?rbind_rbind. by apply rbind_ext.
Qed.

Lemma c_ld_runs rd addr a :
  XLEN = 64 -> Supports a RV_C = true -> IsRegPrime rd = true -> IsRegPrime (base addr) = true ->
  IsCMem8Imm (offset addr) = true ->
  implements (MicroAssembler.c_ld rd addr) a (exec_load LD rd addr).
Proof.
  intros HX HC Hr Hb Hi. destruct (c_rr_regs rd (base addr)) as (Rr & Rb & _ & Eb); [done..|].
  assert ((XLEN =? 32) = false) as E32 by (by rewrite HX).
  c_mem_start.
  c_mem_run_reg addr COpcode.C_LD CInstr.rdp rd CInstr.mem8_imm DecodeCMem8Imm_fields E32.
  rewrite ?rbind_rbind. by apply rbind_ext.
Qed.

Lemma c_flw_runs rd addr a :
  XLEN = 32 -> Supports a RV_C = true -> Supports a RV_F = true -> IsRegPrime rd = true -> IsRegPrime (base addr) = true ->
  IsCMem4Imm (offset addr) = true ->
  implements (MicroAssembler.c_flw rd addr) a (exec_flw rd addr).
Proof.
  intros HX HC HE Hr Hb Hi. destruct (c_rr_regs rd (base addr)) as (Rr & Rb & _ & Eb); [done..|].
  assert ((XLEN =? 32) = true) as E32 by (by rewrite HX).
  c_mem_start.
  c_mem_run_reg addr COpcode.C_FLW CInstr.frdp rd CInstr.mem4_imm DecodeCMem4Imm_fields E32.
  rewrite ?rbind_rbind. by apply rbind_ext.
Qed.

Lemma c_fld_runs rd addr a :
  Supports a RV_C = true -> Supports a RV_D = true -> IsRegPrime rd = true -> IsRegPrime (base addr) = true ->
  IsCMem8Imm (offset addr) = true ->
  implements (MicroAssembler.c_fld rd addr) a (exec_fld rd addr).
Proof.
  intros HC HE Hr Hb Hi. destruct (c_rr_regs rd (base addr)) as (Rr & Rb & _ & Eb); [done..|].
  c_mem_start.
  c_mem_run_reg addr COpcode.C_FLD CInstr.frdp rd CInstr.mem8_imm DecodeCMem8Imm_fields andb_false_r.
  rewrite ?rbind_rbind. by apply rbind_ext.
Qed.

Lemma c_sw_runs rs2 addr a :
  Supports a RV_C = true -> IsRegPrime rs2 = true -> IsRegPrime (base addr) = true ->
  IsCMem4Imm (offset addr) = true ->
  implements (MicroAssembler.c_sw rs2 addr) a (exec_store SW rs2 addr).
Proof.
  intros HC Hr Hb Hi. destruct (c_rr_regs rs2 (base addr)) as (Rr & Rb & _ & Eb); [done..|].
  c_mem_start.
  c_mem_run_reg addr COpcode.C_SW CInstr.rs2p rs2 CInstr.mem4_imm DecodeCMem4Imm_fields andb_false_r.
  rewrite ?rbind_rbind. by apply rbind_ext.
Qed.

Lemma c_sd_runs rs2 addr a :
  XLEN = 64 -> Supports a RV_C = true -> IsRegPrime rs2 = true -> IsRegPrime (base addr) = true ->
  IsCMem8Imm (offset addr) = true ->
  implements (MicroAssembler.c_sd rs2 addr) a (exec_store SD rs2 addr).
Proof.
  intros HX HC Hr Hb Hi. destruct (c_rr_regs rs2 (base addr)) as (Rr & Rb & _ & Eb); [done..|].
  assert ((XLEN =? 32) = false) as E32 by (by rewrite HX).
  c_mem_start.
  c_mem_run_reg addr COpcode.C_SD CInstr.rs2p rs2 CInstr.mem8_imm DecodeCMem8Imm_fields E32.
  rewrite ?rbind_rbind. by apply rbind_ext.
Qed.

Lemma c_fsw_runs rs2 addr a :
  XLEN = 32 -> Supports a RV_C = true -> Supports a RV_F = true -> IsRegPrime rs2 = true -> IsRegPrime (base addr) = true ->
  IsCMem4Imm (offset addr) = true ->
  implements (MicroAssembler.c_fsw rs2 addr) a (exec_fsw rs2 addr).
Proof.
  intros HX HC HE Hr Hb Hi. destruct (c_rr_regs rs2 (base addr)) as (Rr & Rb & _ & Eb); [done..|].
  assert ((XLEN =? 32) = true) as E32 by (by rewrite HX).
  c_mem_start.
  c_mem_run_reg addr COpcode.C_FSW CInstr.frs2p rs2 CInstr.mem4_imm DecodeCMem4Imm_fields E32.
  rewrite ?rbind_rbind. by apply rbind_ext.
Qed.

Lemma c_fsd_runs rs2 addr a :
  Supports a RV_C = true -> Supports a RV_D = true -> IsRegPrime rs2 = true -> IsRegPrime (base addr) = true ->
  IsCMem8Imm (offset addr) = true ->
  implements (MicroAssembler.c_fsd rs2 addr) a (exec_fsd rs2 addr).
Proof.
  intros HC HE Hr Hb Hi. destruct (c_rr_regs rs2 (base addr)) as (Rr & Rb & _ & Eb); [done..|].
  c_mem_start.
  c_mem_run_reg addr COpcode.C_FSD CInstr.frs2p rs2 CInstr.mem8_imm DecodeCMem8Imm_fields andb_false_r.
  rewrite ?rbind_rbind. by apply rbind_ext.
Qed.

End RefineCMem.
