(* ===== verification/Refinement.v ===== *)
(** * Refinement: assembling and running is the ISA

    The theorems here compose the assembler with the simulator.  For every
    integer computation, load, store and indirect jump: under the extensions
    the assembler was given and for operands in range, the method appends one
    instruction of two or four bytes, in release and DEBUG builds, and a
    simulator whose memory holds those bytes at [pc_] moves to the state Isa
    prescribes.  The choice between compressed and 32-bit encodings is
    invisible except for the length. *)

From stdpp Require Import base numbers list gmap.
From Stdlib Require Import Lia.
From S2P Require Import Prelude Constants Encoding CEncoding AsmBuffer MicroAsm SimState.
From S2P Require Import SimInt SimAtomic SimFloat SimCompressed Simulator Isa IntSpec BitSpec.
From S2P Require Import AsmExec AsmFormats AsmCFormats RefineOp RefineImm RefineMem RefineC.
From S2P Require Import RefineCMem.

#[local] Open Scope Z_scope.
#[local] Open Scope res_scope.

(** A method that takes its 32-bit path: drop the assertion and the untaken
    compressed cases. *)
Ltac asm_path := cbv beta; rewrite ?ASSERT_true by done; cbn [rbind].

(** Follow the first condition of a method that selects between encodings. *)
Ltac asm_if HC :=
  asm_path;
  match goal with |- produces (if ?b then _ else _) _ _ => destruct b eqn:HC end.

(** Take the conditions of a selected case apart. *)
Ltac split_conds :=
  repeat match goal with
  | E : _ && _ = true |- _ => apply andb_true_iff in E as [? ?]
  | E : (_ =? _) = true |- _ => apply Z.eqb_eq in E
  | E : negb (_ =? _) = true |- _ => apply negb_true_iff, Z.eqb_neq in E
  end; subst.

Section Refinement.
Context `{Target} `{HostNaN} `{Host}.

(** ** Plumbing *)

Lemma implements_ext m a f g :
  (forall len s, sim_ok s -> f len s = g len s) -> implements m a f -> implements m a g.
Proof.
  intros E (bs & He & Hl & Hr). exists bs. split_and!; [done..|].
  intros s Hok Hpc Hc. rewrite Hr by done. by apply E.
Qed.

(** The 32-bit words of each group. *)
Lemma implements_rtype f7 rs2 rs1 f3 rd op a f :
  inU 7 f7 -> inU 5 rs2 -> inU 5 rs1 -> inU 3 f3 -> inU 5 rd -> inU 7 op -> op mod 4 = 3 ->
  (forall s, sim_ok s -> (let* s := Interpret (rtype_word f7 rs2 rs1 f3 rd op) s in
                          Ok (retire s)) = f 4 s) ->
  implements (EmitRType f7 rs2 rs1 f3 rd op) a f.
Proof.
  intros. destruct (rtype_fields f7 rs2 rs1 f3 rd op) as (? & Eop & _); [done..|].
  eapply implements_32; [by apply EmitRType_word | done | by eapply opcode_low_bits | done].
Qed.

Lemma implements_shamt f7 sh rs1 f3 rd op a f :
  inU 7 f7 -> 0 <= sh < XLEN -> (XLEN = 64 -> f7 mod 2 ^ 1 = 0) \/ inU 5 sh -> inU 5 rs1 -> inU 3 f3 ->
  inU 5 rd -> inU 7 op -> op mod 4 = 3 ->
  (forall s, sim_ok s -> (let* s := Interpret (rtype_word f7 sh rs1 f3 rd op) s in
                          Ok (retire s)) = f 4 s) ->
  implements (EmitRType_shamt f7 sh rs1 f3 rd op) a f.
Proof.
  intros ?? Hcase ??????.
  assert (inU 32 (rtype_word f7 sh rs1 f3 rd op) /\
          Instr.opcode (rtype_word f7 sh rs1 f3 rd op) = op) as [? Eop].
  { destruct Hcase as [Hev|?].
    - destruct (shamt_fields f7 sh rs1 f3 rd op) as (? & ? & _); done.
    - destruct (rtype_fields f7 sh rs1 f3 rd op) as (? & ? & _); done. }
  eapply implements_32; [by apply EmitRType_shamt_word | done | by eapply opcode_low_bits | done].
Qed.

Lemma implements_itype imm rs1 f3 rd op a f :
  IsITypeImm imm = true -> inU 5 rs1 -> inU 3 f3 -> inU 5 rd -> inU 7 op -> op mod 4 = 3 ->
  (forall s, sim_ok s -> (let* s := Interpret (itype_word imm rs1 f3 rd op) s in
                          Ok (retire s)) = f 4 s) ->
  implements (EmitIType imm rs1 f3 rd op) a f.
Proof.
  intros. destruct (itype_fields imm rs1 f3 rd op) as (? & Eop & _); [done..|].
  eapply implements_32; [by apply EmitIType_word | done | by eapply opcode_low_bits | done].
Qed.

Lemma implements_stype imm rs2 rs1 f3 op a f :
  IsSTypeImm imm = true -> inU 5 rs2 -> inU 5 rs1 -> inU 3 f3 -> inU 7 op -> op mod 4 = 3 ->
  (forall s, sim_ok s -> (let* s := Interpret (stype_word (stype_imm_word imm) rs2 rs1 f3 op) s in
                          Ok (retire s)) = f 4 s) ->
  implements (EmitSType imm rs2 rs1 f3 op) a f.
Proof.
  intros. destruct (stype_fields imm rs2 rs1 f3 op) as (? & Eop & _); [done..|].
  eapply implements_32; [by apply EmitSType_word | done | by eapply opcode_low_bits | done].
Qed.

Lemma implements_utype imm rd op a f :
  inS kBitsPerWord imm -> IsUTypeImm imm = true -> inU 5 rd -> inU 7 op -> op mod 4 = 3 ->
  (forall s, sim_ok s ->
     (let* s := Interpret (utype_word (Z.shiftl (field imm 12 20) 12) rd op) s in Ok (retire s)) = f 4 s) ->
  implements (EmitUType imm rd op) a f.
Proof.
  intros. destruct (utype_fields imm rd op) as (? & Eop & _); [done..|].
  eapply implements_32; [by apply EmitUType_word | done | by eapply opcode_low_bits | done].
Qed.

(** ** Register-register *)

Lemma rop_32 op rd rs1 rs2 a :
  inU 5 rd -> inU 5 rs1 -> inU 5 rs2 ->
  implements (EmitRType (rop_code op).1 rs2 rs1 (rop_code op).2 rd Opcode.OP) a
    (exec_rop op rd rs1 rs2).
Proof.
  intros. apply implements_rtype; try done; try (by destruct op).
  intros s Hok. by apply rop_word_runs.
Qed.

Ltac rop_32_tac :=
  match goal with |- produces _ _ (exec_rop ?op _ _ _) => apply (rop_32 op) end.

Lemma exec_rop_comm op rd rs1 rs2 len s :
  op = ADD \/ op = AND \/ op = OR \/ op = XOR ->
  exec_rop op rd rs1 rs2 len s = exec_rop op rd rs2 rs1 len s.
Proof.
  intros [->|[->|[->| ->]]]; unfold exec_rop; cbn [rop_sem].
  - by rewrite Z.add_comm.
  - by rewrite Z.land_comm.
  - by rewrite Z.lor_comm.
  - by rewrite Z.lxor_comm.
Qed.

(** [add] always compresses when the destination is an operand, so then
    neither operand may be the zero register. *)
Definition add_operands (a : Asm) (rd rs1 rs2 : Z) : Prop :=
  Supports a RV_C = true -> rd = rs1 \/ rd = rs2 -> rs1 <> Reg.ZR /\ rs2 <> Reg.ZR.

Lemma add_refines rd rs1 rs2 a :
  inU 5 rd -> inU 5 rs1 -> inU 5 rs2 -> Supports a RV_I = true -> add_operands a rd rs1 rs2 ->
  implements (MicroAssembler.add rd rs1 rs2) a (exec_rop ADD rd rs1 rs2).
Proof.
  intros Hd H1' H2' HI Hz.
  unfold implements, MicroAssembler.add. asm_if HC.
  { split_conds. destruct Hz; [done|by left|]. by apply c_add_runs. }
  asm_if HC'.
  { split_conds. destruct Hz; [done|by right|].
    eapply implements_ext; [intros; apply exec_rop_comm; by left|]. by apply c_add_runs. }
  by apply (rop_32 ADD).
Qed.

Lemma sub_refines rd rs1 rs2 a :
  inU 5 rd -> inU 5 rs1 -> inU 5 rs2 -> Supports a RV_I = true ->
  implements (MicroAssembler.sub rd rs1 rs2) a (exec_rop SUB rd rs1 rs2).
Proof.
  intros Hd H1' H2' HI. unfold implements, MicroAssembler.sub. asm_if HC.
  - split_conds. by apply (c_rop_runs SUB).
  - by apply (rop_32 SUB).
Qed.

(** The commutative bitwise operations compress with either operand. *)
Lemma bitwise_refines op rd rs1 rs2 a :
  op = AND \/ op = OR \/ op = XOR ->
  inU 5 rd -> inU 5 rs1 -> inU 5 rs2 -> Supports a RV_I = true ->
  implements (rop_asm op rd rs1 rs2) a (exec_rop op rd rs1 rs2).
Proof.
  intros Hop Hd H1' H2' HI. unfold implements.
  destruct Hop as [->|[->| ->]]; cbn [rop_asm];
  unfold MicroAssembler.and_, MicroAssembler.or_, MicroAssembler.xor_; asm_if HC;
  [split_conds; by eapply c_rop_runs| | split_conds; by eapply c_rop_runs |
  | split_conds; by eapply c_rop_runs |]; asm_if HC';
  try (by rop_32_tac); split_conds;
  (eapply implements_ext; [intros; apply exec_rop_comm; tauto|]); by eapply c_rop_runs.
Qed.

Lemma rop_implements op rd rs1 rs2 a :
  inU 5 rd -> inU 5 rs1 -> inU 5 rs2 -> Supports a (rop_ext op) = true ->
  (op = ADD -> add_operands a rd rs1 rs2) ->
  implements (rop_asm op rd rs1 rs2) a (exec_rop op rd rs1 rs2).
Proof.
  intros Hd H1' H2' HE Hz.
  destruct op; try (by apply bitwise_refines; auto); try (by apply sub_refines);
    try (by apply add_refines; auto);
    unfold implements; cbn [rop_asm];
    unfold MicroAssembler.sll, MicroAssembler.slt, MicroAssembler.sltu, MicroAssembler.srl,
      MicroAssembler.sra, MicroAssembler.mul, MicroAssembler.mulh, MicroAssembler.mulhsu,
      MicroAssembler.mulhu, MicroAssembler.div, MicroAssembler.divu, MicroAssembler.rem,
      MicroAssembler.remu, MicroAssembler.sh1add, MicroAssembler.sh2add, MicroAssembler.sh3add,
      MicroAssembler.andn, MicroAssembler.orn, MicroAssembler.xnor, MicroAssembler.max,
      MicroAssembler.maxu, MicroAssembler.min, MicroAssembler.minu, MicroAssembler.rol,
      MicroAssembler.ror, MicroAssembler.clmul, MicroAssembler.clmulh, MicroAssembler.clmulr,
      MicroAssembler.bclr, MicroAssembler.bext, MicroAssembler.binv, MicroAssembler.bset;
    asm_path; by rop_32_tac.
Qed.

(** C1.  Register-register arithmetic.  For each of the 37 operations of RV32I/RV64I,
    M, Zba, Zbb, Zbc and Zbs on two registers: when the assembler supports the
    operation's extension, the method emits one instruction (compressed where
    it can be), and running it writes the ISA's result to rd, advances [pc_]
    by the instruction's length and changes nothing else.  For ADD, no operand
    of a compressed form may be the zero register. *)
Theorem rop_refines op rd rs1 rs2 a :
  inU 5 rd -> inU 5 rs1 -> inU 5 rs2 -> Supports a (rop_ext op) = true ->
  (op = ADD -> add_operands a rd rs1 rs2) ->
  implements (rop_asm op rd rs1 rs2) a (exec_rop op rd rs1 rs2).
Proof. apply rop_implements. Qed.

(** ** RV64 word operations *)

Lemma wop_32 op rd rs1 rs2 a :
  XLEN = 64 -> inU 5 rd -> inU 5 rs1 -> inU 5 rs2 ->
  implements (EmitRType (wop_code op).1 rs2 rs1 (wop_code op).2 rd Opcode.OP32) a
    (exec_wop op rd rs1 rs2).
Proof.
  intros. apply implements_rtype; try done; try (by destruct op).
  intros s Hok. by apply wop_word_runs.
Qed.

Lemma exec_addw_comm rd rs1 rs2 len s :
  exec_wop ADDW rd rs1 rs2 len s = exec_wop ADDW rd rs2 rs1 len s.
Proof. unfold exec_wop. cbn [wop_sem]. by rewrite Z.add_comm. Qed.

Lemma wop_implements op rd rs1 rs2 a :
  XLEN = 64 -> inU 5 rd -> inU 5 rs1 -> inU 5 rs2 -> Supports a (wop_ext op) = true ->
  implements (wop_asm op rd rs1 rs2) a (exec_wop op rd rs1 rs2).
Proof.
  intros HX Hd H1' H2' HE. unfold implements.
  destruct op; cbn [wop_asm];
    unfold MicroAssembler.addw, MicroAssembler.subw, MicroAssembler.sllw, MicroAssembler.srlw,
      MicroAssembler.sraw, MicroAssembler.divw, MicroAssembler.divuw, MicroAssembler.remw,
      MicroAssembler.remuw, MicroAssembler.adduw, MicroAssembler.sh1adduw,
      MicroAssembler.sh2adduw, MicroAssembler.sh3adduw; asm_path;
    try (match goal with |- produces _ _ (exec_wop ?o _ _ _) => by apply (wop_32 o) end);
    asm_if HC.
  - split_conds. by apply (c_addw_runs rs1 rs2).
  - asm_if HC'; [|by apply (wop_32 ADDW)].
    split_conds. eapply implements_ext; [intros; apply exec_addw_comm|].
    by apply (c_addw_runs rs2 rs1).
  - split_conds. by apply (c_addw_runs rs1 rs2).
  - by apply (wop_32 SUBW).
Qed.

(** ** Immediates *)

Lemma iop_32 op rd rs1 imm a :
  inU 5 rd -> inU 5 rs1 -> IsITypeImm imm = true ->
  implements (EmitIType imm rs1 (iop_code op) rd Opcode.OPIMM) a (exec_iop op rd rs1 imm).
Proof.
  intros. apply implements_itype; try done; try (by destruct op).
  intros s Hok. by apply iop_word_runs.
Qed.

Lemma addi_refines rd rs1 imm a :
  inU 5 rd -> inU 5 rs1 -> IsITypeImm imm = true -> Supports a RV_I = true ->
  implements (MicroAssembler.addi rd rs1 imm) a (exec_iop ADDI rd rs1 imm).
Proof.
  intros Hd H1' Hi HI. unfold implements, MicroAssembler.addi.
  asm_if HC1; [split_conds; by apply c_li_runs|].
  asm_if HC2; [split_conds; by apply c_addi_runs|].
  asm_if HC3; [split_conds; by apply c_addi16sp_runs|].
  asm_if HC4; [split_conds; by apply c_addi4spn_runs|].
  asm_if HC5; [split_conds; by apply c_nop_runs|].
  asm_if HC6; [split_conds; by apply c_mv_runs|].
  by apply (iop_32 ADDI).
Qed.

Lemma iop_implements op rd rs1 imm a :
  inU 5 rd -> inU 5 rs1 -> IsITypeImm imm = true -> Supports a RV_I = true ->
  implements (iop_asm op rd rs1 imm) a (exec_iop op rd rs1 imm).
Proof.
  intros Hd H1' Hi HI.
  destruct op; [by apply addi_refines|..]; unfold implements; cbn [iop_asm];
    unfold MicroAssembler.slti, MicroAssembler.sltiu, MicroAssembler.xori, MicroAssembler.ori,
      MicroAssembler.andi; asm_path;
    try (match goal with |- produces _ _ (exec_iop ?o _ _ _) => by apply (iop_32 o) end).
  asm_if HC; [split_conds; by apply c_andi_runs | by apply (iop_32 ANDI)].
Qed.

(** C2.  Register-immediate arithmetic.  [addi], with its six compressed forms
    (c.li, c.addi, c.addi16sp, c.addi4spn, c.nop, c.mv), [andi], [slti],
    [sltiu], [xori] and [ori] with a 12-bit immediate write the ISA's
    result. *)
Theorem iop_refines op rd rs1 imm a :
  inU 5 rd -> inU 5 rs1 -> IsITypeImm imm = true -> Supports a RV_I = true ->
  implements (iop_asm op rd rs1 imm) a (exec_iop op rd rs1 imm).
Proof. apply iop_implements. Qed.

(** ** Shifts *)

Lemma sop_32 op rd rs1 sh a :
  inU 5 rd -> inU 5 rs1 -> 0 <= sh < XLEN ->
  implements (EmitRType_shamt (sop_code op).1 sh rs1 (sop_code op).2 rd Opcode.OPIMM) a
    (exec_sop op rd rs1 sh).
Proof.
  intros. apply implements_shamt; try done; try (by destruct op); [left; by destruct op|].
  intros s Hok. by apply sop_word_runs.
Qed.

Lemma sop_implements op rd rs1 sh a :
  inU 5 rd -> inU 5 rs1 -> 0 <= sh < XLEN -> (sop_ext op = RV_I -> 0 < sh) ->
  Supports a (sop_ext op) = true ->
  implements (sop_asm op rd rs1 sh) a (exec_sop op rd rs1 sh).
Proof.
  intros Hd H1' Hs Hp HE. unfold implements.
  assert (sop_ext op = RV_I -> ((0 <? sh) && (sh <? XLEN)) = true) as HA.
  { intros Ho. apply andb_true_iff. rewrite !Z.ltb_lt. by specialize (Hp Ho); lia. }
  destruct op; cbn [sop_asm sop_ext] in *;
    unfold MicroAssembler.slli, MicroAssembler.srli, MicroAssembler.srai, MicroAssembler.rori,
      MicroAssembler.bclri, MicroAssembler.bexti, MicroAssembler.binvi, MicroAssembler.bseti;
    rewrite ?(ASSERT_true (_ && _)) by auto; asm_path;
    try (match goal with |- produces _ _ (exec_sop ?o _ _ _) => by apply (sop_32 o) end);
    (asm_if HC; [split_conds; specialize (Hp eq_refl)
                | match goal with |- produces _ _ (exec_sop ?o _ _ _) => by apply (sop_32 o) end]).
  - by apply c_slli_runs.
  - by apply (c_misc_shift_runs rs1 sh).
  - by apply (c_misc_shift_runs rs1 sh).
Qed.

Lemma swop_implements op rd rs1 sh a :
  XLEN = 64 -> inU 5 rd -> inU 5 rs1 -> 0 < sh < 32 -> Supports a (swop_ext op) = true ->
  implements (swop_asm op rd rs1 sh) a (exec_swop op rd rs1 sh).
Proof.
  intros HX Hd H1' Hs HE.
  assert (implements (EmitRType_shamt (swop_code op).1 sh rs1 (swop_code op).2 rd Opcode.OPIMM32) a
            (exec_swop op rd rs1 sh)) as H32.
  { apply implements_shamt; try done; try (by destruct op); [lia|left; by destruct op|].
    intros s Hok. by apply swop_word_runs; [..|lia|]. }
  assert (((0 <? sh) && (sh <? 32)) = true) as HA by (apply andb_true_iff; rewrite !Z.ltb_lt; lia).
  assert (((0 <? sh) && (sh <? XLEN)) = true) as HA' by (apply andb_true_iff; rewrite !Z.ltb_lt; lia).
  unfold implements. destruct op; cbn [swop_asm swop_ext] in *;
    unfold MicroAssembler.slliw, MicroAssembler.srliw, MicroAssembler.sraiw, MicroAssembler.slliuw;
    asm_path; exact H32.
Qed.

Lemma addiw_implements rd rs1 imm a :
  XLEN = 64 -> inU 5 rd -> inU 5 rs1 -> IsITypeImm imm = true -> Supports a RV_I = true ->
  implements (MicroAssembler.addiw rd rs1 imm) a
    (fun len s => Ok (write rd (s32 (get_xreg s rs1 + imm)) len s)).
Proof.
  intros HX Hd H1' Hi HI. unfold implements, MicroAssembler.addiw.
  asm_if HC1.
  { split_conds. eapply implements_ext; [|by apply c_li_runs]. intros len s Hok.
    unfold exec_iop. cbn [iop_sem]. rewrite get_xreg_zero by done.
    apply IsITypeImm_spec in Hi. rewrite Z.add_0_l, (wrapS_small 32 imm); [done|lia|].
    by apply (inS_mono 12). }
  asm_if HC2; [split_conds; by apply c_addiw_runs|].
  apply implements_itype; try done. intros s Hok. by apply addiw_word_runs.
Qed.

(** ** Unary operations *)

Lemma uop_implements op rd rs1 a :
  inU 5 rd -> inU 5 rs1 -> Supports a RV_Zbb = true ->
  implements (uop_asm op rd rs1) a (exec_uop op rd rs1).
Proof.
  intros Hd H1' HE. unfold implements.
  pose proof (fun s Hok => uop_word_runs op rd rs1 s Hd H1' Hok) as Hr. cbv beta in Hr.
  assert (exists is32, (XLEN =? 32) = is32 /\ (XLEN =? 64) = negb is32) as (is32 & E32 & E64)
    by (exists (XLEN =? 32); split; [done|]; clear; by destruct XLEN_cases as [EX|EX]; rewrite EX).
  pose proof XLEN_pos.
  destruct op; cbn [uop_asm] in *;
    unfold MicroAssembler.clz, MicroAssembler.ctz, MicroAssembler.cpop, MicroAssembler.sextb,
      MicroAssembler.sexth, MicroAssembler.zexth, MicroAssembler.orcb, MicroAssembler.rev8;
    asm_path; unfold uop_code in Hr; rewrite ?E32, ?E64 in *; try destruct is32;
    cbn [negb] in *; cbn iota in *; apply implements_shamt; try done; try lia; by right.
Qed.

Lemma uwop_implements op rd rs1 a :
  XLEN = 64 -> inU 5 rd -> inU 5 rs1 -> Supports a RV_Zbb = true ->
  implements (uwop_asm op rd rs1) a (exec_uwop op rd rs1).
Proof.
  intros HX Hd H1' HE. unfold implements.
  pose proof (fun s Hok => uwop_word_runs op rd rs1 s HX Hd H1' Hok) as Hr. cbv beta in Hr.
  destruct op; cbn [uwop_asm uwop_code] in *;
    unfold MicroAssembler.clzw, MicroAssembler.ctzw, MicroAssembler.cpopw; asm_path;
    apply implements_shamt; try done; try lia; by right.
Qed.

(** RV64 words.  The *W instructions and the word divisions, the
    unsigned-word address generation instructions, word shifts by a constant
    below 32, the addition of an immediate in its compressed and 32-bit forms,
    and the word forms of the bit counts, assembled and run, write the
    sign-extended 32-bit (or zero-extended address) result of the ISA. *)
Theorem word_refines rd rs1 rs2 imm sh a :
  XLEN = 64 -> inU 5 rd -> inU 5 rs1 -> inU 5 rs2 -> IsITypeImm imm = true -> 0 < sh < 32 ->
  (forall op, Supports a (wop_ext op) = true ->
     implements (wop_asm op rd rs1 rs2) a (exec_wop op rd rs1 rs2)) /\
  (forall op, Supports a (swop_ext op) = true ->
     implements (swop_asm op rd rs1 sh) a (exec_swop op rd rs1 sh)) /\
  (Supports a RV_I = true ->
     implements (MicroAssembler.addiw rd rs1 imm) a
       (fun len s => Ok (write rd (s32 (get_xreg s rs1 + imm)) len s))) /\
  (forall op, Supports a RV_Zbb = true ->
     implements (uwop_asm op rd rs1) a (exec_uwop op rd rs1)).
Proof.
  intros. split_and!; intros;
    [by apply wop_implements|by apply swop_implements|by apply addiw_implements|by apply uwop_implements].
Qed.

(** C33.  Shifts, rotates and single-bit operations by a constant, bit counts,
    extensions and byte operations.  For a shift amount below XLEN (positive
    for the three shifts, which assert it), on RV64 also amounts of six bits
    that reach into the funct7 field, the method's instruction computes the
    ISA's result, and so do the unary operations of Zbb, whose loops over bit
    positions and bytes the simulator writes out. *)
Theorem bit_refines rd rs1 sh a :
  inU 5 rd -> inU 5 rs1 -> 0 <= sh < XLEN ->
  (forall op, (sop_ext op = RV_I -> 0 < sh) -> Supports a (sop_ext op) = true ->
     implements (sop_asm op rd rs1 sh) a (exec_sop op rd rs1 sh)) /\
  (forall op, Supports a RV_Zbb = true -> implements (uop_asm op rd rs1) a (exec_uop op rd rs1)).
Proof. intros. split; intros; [by apply sop_implements|by apply uop_implements]. Qed.

End Refinement.

(** ** Memory accesses, upper immediates and indirect jumps *)


Section RefinementMem.
Context `{Target} `{HostNaN} `{Host}.

Lemma load_32 op rd addr a :
  lop_width op -> inU 5 rd -> wf_address addr ->
  implements (EmitIType (offset addr) (base addr) (lop_code op) rd Opcode.LOAD) a
    (exec_load op rd addr).
Proof.
  intros ?? [??]. apply implements_itype; try done; try (by destruct op).
  intros s Hok. by apply load_word_runs.
Qed.

Lemma store_32 op rs2 addr a :
  stop_width op -> inU 5 rs2 -> wf_address addr ->
  implements (EmitSType (offset addr) rs2 (base addr) (stop_code op) Opcode.STORE) a
    (exec_store op rs2 addr).
Proof.
  intros ?? [??]. apply implements_stype; try done; try (by destruct op).
  intros s Hok. by apply store_word_runs.
Qed.

Lemma load_implements op rd addr a :
  lop_width op -> inU 5 rd -> wf_address addr -> Supports a RV_I = true ->
  implements (lop_asm op rd addr) a (exec_load op rd addr).
Proof.
  intros Hw Hd Ha HI. unfold implements.
  destruct op; cbn [lop_asm lop_width] in *;
    unfold MicroAssembler.lb, MicroAssembler.lh, MicroAssembler.lw, MicroAssembler.lbu,
      MicroAssembler.lhu, MicroAssembler.lwu, MicroAssembler.ld; asm_path;
    try (match goal with |- produces _ _ (exec_load ?o _ _) => by apply (load_32 o) end).
  - asm_if HC1; [split_conds; by apply c_lwsp_runs|].
    asm_if HC2; [split_conds; by apply c_lw_runs|]. by apply (load_32 LW).
  - asm_if HC1; [split_conds; by apply c_ldsp_runs|].
    asm_if HC2; [split_conds; by apply c_ld_runs|]. by apply (load_32 LD).
Qed.

(** C3.  Integer loads.  Every load, with its compressed stack-pointer and
    register forms, reads the bytes at base + offset with the width and sign
    of the instruction and passes on exactly the failures of the memory
    access. *)
Theorem load_refines op rd addr a :
  lop_width op -> inU 5 rd -> wf_address addr -> Supports a RV_I = true ->
  implements (lop_asm op rd addr) a (exec_load op rd addr).
Proof. apply load_implements. Qed.

Lemma store_implements op rs2 addr a :
  stop_width op -> inU 5 rs2 -> wf_address addr -> Supports a RV_I = true ->
  implements (stop_asm op rs2 addr) a (exec_store op rs2 addr).
Proof.
  intros Hw Hd Ha HI. unfold implements.
  destruct op; cbn [stop_asm stop_width] in *;
    unfold MicroAssembler.sb, MicroAssembler.sh, MicroAssembler.sw, MicroAssembler.sd; asm_path;
    try (match goal with |- produces _ _ (exec_store ?o _ _) => by apply (store_32 o) end).
  - asm_if HC1; [split_conds; by apply c_swsp_runs|].
    asm_if HC2; [split_conds; by apply c_sw_runs|]. by apply (store_32 SW).
  - asm_if HC1; [split_conds; by apply c_sdsp_runs|].
    asm_if HC2; [split_conds; by apply c_sd_runs|]. by apply (store_32 SD).
Qed.

Lemma float_memory_implements r addr a :
  inU 5 r -> wf_address addr -> Supports a RV_F = true -> Supports a RV_D = true ->
  implements (MicroAssembler.flw r addr) a (exec_flw r addr) /\
  implements (MicroAssembler.fld r addr) a (exec_fld r addr) /\
  implements (MicroAssembler.fsw r addr) a (exec_fsw r addr) /\
  implements (MicroAssembler.fsd r addr) a (exec_fsd r addr).
Proof.
  intros Hr Ha HF HD. pose proof Ha as [Hb Ho]. unfold implements.
  unfold MicroAssembler.flw, MicroAssembler.fld, MicroAssembler.fsw, MicroAssembler.fsd.
  split_and!.
  - asm_if HC1; [split_conds; by apply c_flwsp_runs|].
    asm_if HC2; [split_conds; by apply c_flw_runs|].
    apply implements_itype; try done. intros s Hok. by apply (fload_word_runs false).
  - asm_if HC1; [split_conds; by apply c_fldsp_runs|].
    asm_if HC2; [split_conds; by apply c_fld_runs|].
    apply implements_itype; try done. intros s Hok. by apply (fload_word_runs true).
  - asm_if HC1; [split_conds; by apply c_fswsp_runs|].
    asm_if HC2; [split_conds; by apply c_fsw_runs|].
    apply implements_stype; try done. intros s Hok. by apply (fstore_word_runs false).
  - asm_if HC1; [split_conds; by apply c_fsdsp_runs|].
    asm_if HC2; [split_conds; by apply c_fsd_runs|].
    apply implements_stype; try done. intros s Hok. by apply (fstore_word_runs true).
Qed.

(** Floating-point loads and stores, whose single-precision compressed
    forms exist on RV32 only. *)
Theorem float_memory_refines r addr a :
  inU 5 r -> wf_address addr -> Supports a RV_F = true -> Supports a RV_D = true ->
  implements (MicroAssembler.flw r addr) a (exec_flw r addr) /\
  implements (MicroAssembler.fld r addr) a (exec_fld r addr) /\
  implements (MicroAssembler.fsw r addr) a (exec_fsw r addr) /\
  implements (MicroAssembler.fsd r addr) a (exec_fsd r addr).
Proof. apply float_memory_implements. Qed.

Lemma upper_implements rd imm a :
  inU 5 rd -> inS kBitsPerWord imm -> IsUTypeImm imm = true -> Supports a RV_I = true ->
  (Supports a RV_C = true -> imm <> 0) ->
  implements (MicroAssembler.lui rd imm) a (exec_lui rd imm) /\
  implements (MicroAssembler.auipc rd imm) a (exec_auipc rd imm).
Proof.
  intros Hd Hw Hi HI Hz. unfold implements, MicroAssembler.lui, MicroAssembler.auipc. split.
  - asm_if HC; [split_conds; apply c_lui_runs; auto|].
    apply implements_utype; try done. intros s Hok. by apply lui_word_runs.
  - asm_path. apply implements_utype; try done. intros s Hok. by apply auipc_word_runs.
Qed.

Lemma jalr_implements rd rs1 imm a :
  inU 5 rd -> inU 5 rs1 -> IsITypeImm imm = true -> Supports a RV_I = true ->
  implements (MicroAssembler.jalr rd rs1 imm) a (exec_jalr rd rs1 imm).
Proof.
  intros Hd H1' Hi HI. unfold implements, MicroAssembler.jalr.
  asm_if HC1; [split_conds; by apply c_jr_runs|].
  asm_if HC2; [split_conds; by apply c_jalr_runs|].
  apply implements_itype; try done. intros s Hok. by apply jalr_word_runs.
Qed.

(** Upper immediates and indirect jumps.  [lui] and [auipc] add a multiple
    of 4096 that fits 32 signed bits to 0 and to the program counter; for [lui]
    with compressed instructions it must not be 0.  [jalr], and c.jr and c.jalr
    where they apply, jump to rs1 + offset and leave the address of the next
    instruction in rd. *)
Theorem upper_jalr_refines rd rs1 imm offset a :
  inU 5 rd -> inU 5 rs1 -> inS kBitsPerWord imm -> IsUTypeImm imm = true -> IsITypeImm offset = true ->
  Supports a RV_I = true -> (Supports a RV_C = true -> imm <> 0) ->
  implements (MicroAssembler.lui rd imm) a (exec_lui rd imm) /\
  implements (MicroAssembler.auipc rd imm) a (exec_auipc rd imm) /\
  implements (MicroAssembler.jalr rd rs1 offset) a (exec_jalr rd rs1 offset).
Proof.
  intros Hd H1' Hw Hi Ho HI Hz. destruct (upper_implements rd imm a) as [Hl Ha]; [done..|].
  split_and!; [done..|]. by apply jalr_implements.
Qed.

End RefinementMem.
