(* ===== verification/RefineAtomic.v ===== *)
(** * RefineAtomic: the A extension, assembled and run

    The specification of the atomic memory operations on unsigned memory
    words, and that the assembler's methods run as it. *)

From stdpp Require Import base numbers list gmap.
From Stdlib Require Import Lia.
From S2P Require Import Prelude Constants Encoding CEncoding AsmBuffer MicroAsm SimState.
From S2P Require Import SimInt SimAtomic SimFloat SimCompressed Simulator Isa IntSpec BitSpec.
From S2P Require Import AsmExec AsmFormats RefineOp RefineMem Refinement SimInv.

#[local] Open Scope Z_scope.
#[local] Open Scope res_scope.

(** ** Specification *)

Inductive aop : Set :=
| AMOSWAP | AMOADD | AMOXOR | AMOAND | AMOOR | AMOMIN | AMOMAX | AMOMINU | AMOMAXU.

(** The width of the access: .w or .d. *)
Inductive awidth : Set := W32 | W64.
Definition abits (w : awidth) : Z := match w with W32 => 32 | W64 => 64 end.
Definition abytes (w : awidth) : nat := match w with W32 => 4 | W64 => 8 end.

(** The word an operation leaves in memory, from the word there and the
    register, both unsigned. *)
Definition aop_sem (op : aop) (w : awidth) (old arg : Z) : Z :=
  match op with
  | AMOSWAP => arg
  | AMOADD => wrapU (abits w) (old + arg)
  | AMOXOR => Z.lxor old arg
  | AMOAND => Z.land old arg
  | AMOOR => Z.lor old arg
  | AMOMIN => if wrapS (abits w) old <? wrapS (abits w) arg then old else arg
  | AMOMAX => if wrapS (abits w) arg <? wrapS (abits w) old then old else arg
  | AMOMINU => Z.min old arg
  | AMOMAXU => Z.max old arg
  end.

Section RefineAtomic.
Context `{Target} `{HostNaN} `{Host}.

(** Naturally aligned, or fatal. *)
Definition atomic_at (w : awidth) (addr : Z) : Res unit :=
  if addr mod Z.of_nat (abytes w) =? 0 then Ok tt else Err MisalignedAtomic.

Definition exec_amo (op : aop) (w : awidth) (rd rs2 rs1 len : Z) (s : Sim) : Res Sim :=
  let addr := get_xreg s rs1 in
  atomic_at w addr ;;
  let* old := load_bytes (mem_ s) addr (abytes w) in
  let* m := store_bytes (mem_ s) addr (abytes w)
              (aop_sem op w old (wrapU (abits w) (get_xreg s rs2))) in
  Ok (write rd (wrapS (abits w) old) len (set_mem s m)).

Definition exec_lr (w : awidth) (rd rs1 len : Z) (s : Sim) : Res Sim :=
  let addr := get_xreg s rs1 in
  atomic_at w addr ;;
  let* old := load_bytes (mem_ s) addr (abytes w) in
  let v := ux (wrapS (abits w) old) in
  Ok (write rd v len (set_reserved s addr v)).

(** The reservation is the address and the value read there. *)
Definition exec_sc (w : awidth) (rd rs2 rs1 len : Z) (s : Sim) : Res Sim :=
  let addr := get_xreg s rs1 in
  atomic_at w addr ;;
  if negb (addr =? reserved_address_ s) then Ok (write rd 1 len s) else
  let* old := load_bytes (mem_ s) addr (abytes w) in
  if wrapU (abits w) old =? wrapU (abits w) (reserved_value_ s) then
    let* m := store_bytes (mem_ s) addr (abytes w) (wrapU (abits w) (get_xreg s rs2)) in
    Ok (write rd 0 len (set_mem s m))
  else Ok (write rd 1 len s).

(** ** Memory words *)

Lemma store_bytes_mod m addr n v v' :
  v mod 2 ^ (8 * Z.of_nat n) = v' mod 2 ^ (8 * Z.of_nat n) ->
  store_bytes m addr n v = store_bytes m addr n v'.
Proof.
  revert m addr v v'. induction n as [|n IH]; intros m addr v v' E; [done|].
  replace (8 * Z.of_nat (S n)) with (8 + 8 * Z.of_nat n) in E by lia.
  rewrite Z.pow_add_r in E by lia. change (2 ^ 8) with 256 in E.
  pose proof (pow2_pos (8 * Z.of_nat n)). rewrite !Z.rem_mul_r in E by lia.
  pose proof (Z.mod_pos_bound v 256). pose proof (Z.mod_pos_bound v' 256).
  assert (v mod 256 = v' mod 256 /\
          (v / 256) mod 2 ^ (8 * Z.of_nat n) = (v' / 256) mod 2 ^ (8 * Z.of_nat n)) as [E1 E2].
  { split; [apply (f_equal (fun z => z mod 256)) in E|apply (f_equal (fun z => z / 256)) in E].
    - rewrite !(Z.mul_comm 256), !Z_mod_plus_full, !Z.mod_mod in E by lia. done.
    - rewrite !(Z.mul_comm 256), !Z.div_add, !(Z.div_small (_ mod 256)) in E by lia. lia. }
  simpl. rewrite E1. destruct (m !! addr); [|done]. by apply IH.
Qed.

Lemma load_bytes_range m addr n v :
  map_Forall (fun _ b => inU 8 b) m -> load_bytes m addr n = Ok v -> inU (8 * Z.of_nat n) v.
Proof.
  intros Hm. revert addr v. induction n as [|n IH]; intros addr v E; cbn [load_bytes] in E.
  { simplify_eq. by unfold inU. }
  destruct (m !! addr) as [x|] eqn:Ex; [|done].
  apply rbind_ok_inv in E as (r & Er & E). simplify_eq.
  apply Hm in Ex. apply IH in Er. unfold inU in *.
  replace (8 * Z.of_nat (S n)) with (8 + 8 * Z.of_nat n) by lia. rewrite Z.pow_add_r by lia. lia.
Qed.

(** The signed and unsigned C++ types of a width. *)
Definition atype (w : awidth) (unsigned : bool) : ctype :=
  match w, unsigned with
  | W32, false => int32_t | W32, true => uint32_t
  | W64, false => int64_t | W64, true => uint64_t
  end.

Lemma atype_size w u : Z.to_nat (sizeof (atype w u)) = abytes w.
Proof. by destruct w, u. Qed.
Lemma abits_bytes w : 8 * Z.of_nat (abytes w) = abits w.
Proof. by destruct w. Qed.
Lemma atype_cast_wrapU w u v : wrapU (abits w) (cast (atype w u) v) = wrapU (abits w) v.
Proof. destruct w, u; simpl; by rewrite ?wrapU_wrapS, ?wrapU_wrapU by lia. Qed.
Lemma atype_cast_wrapS w u v : wrapS (abits w) (cast (atype w u) v) = wrapS (abits w) v.
Proof. destruct w, u; simpl; by rewrite ?wrapS_wrapS, ?wrapS_wrapU by lia. Qed.

Lemma CheckAtomicAlignment_at w u addr :
  CheckAtomicAlignment (atype w u) addr = atomic_at w addr.
Proof.
  unfold CheckAtomicAlignment, atomic_at.
  destruct w.
  - replace (sizeof (atype W32 u) - 1) with (Z.ones 2) by (by destruct u).
    rewrite Z.land_ones by lia. change (2 ^ 2) with (Z.of_nat (abytes W32)). by destruct (_ =? 0).
  - replace (sizeof (atype W64 u) - 1) with (Z.ones 3) by (by destruct u).
    rewrite Z.land_ones by lia. change (2 ^ 3) with (Z.of_nat (abytes W64)). by destruct (_ =? 0).
Qed.

(** ** The simulator's templates *)

Definition aop_unsigned (op : aop) : bool :=
  match op with AMOMINU | AMOMAXU => true | _ => false end.

(** What the template of an operation computes from the converted values. *)
Definition aop_fun (op : aop) (old arg : Z) : Z :=
  match op with
  | AMOSWAP => arg
  | AMOADD => old + arg
  | AMOXOR => Z.lxor old arg
  | AMOAND => Z.land old arg
  | AMOOR => Z.lor old arg
  | AMOMIN | AMOMINU => if old <? arg then old else arg
  | AMOMAX | AMOMAXU => if arg <? old then old else arg
  end.

Lemma aop_fun_sem op w old v (ty := atype w (aop_unsigned op)) :
  inU (abits w) old ->
  wrapU (abits w) (aop_fun op (cast ty old) (cast ty v)) =
  aop_sem op w old (wrapU (abits w) v).
Proof.
  intros Ho. assert (0 < abits w) by (by destruct w).
  pose proof (wrapU_range (abits w) v ltac:(lia)) as Hv.
  pose proof (wrapU_small _ _ Ho) as Eo.
  assert (forall x, wrapU (abits w) (cast ty x) = wrapU (abits w) x) as Ec
    by (intros; apply atype_cast_wrapU).
  destruct op; cbn [aop_fun aop_sem aop_unsigned] in *.
  - by rewrite Ec.
  - rewrite <- wrapU_idem_add_l, <- wrapU_idem_add_r, !Ec, Eo. done.
  - rewrite <- (Ec v). transitivity (Z.lxor (wrapU (abits w) (cast ty old)) (wrapU (abits w) (cast ty v))).
    + bitblast.
    + by rewrite Ec, Eo.
  - rewrite <- (Ec v). transitivity (Z.land (wrapU (abits w) (cast ty old)) (wrapU (abits w) (cast ty v))).
    + bitblast.
    + by rewrite Ec, Eo.
  - rewrite <- (Ec v). transitivity (Z.lor (wrapU (abits w) (cast ty old)) (wrapU (abits w) (cast ty v))).
    + bitblast.
    + by rewrite Ec, Eo.
  - replace (cast ty old) with (wrapS (abits w) old) by (by destruct w).
    replace (cast ty v) with (wrapS (abits w) v) by (by destruct w).
    rewrite wrapS_wrapU by lia.
    destruct (_ <? _); rewrite wrapU_wrapS by lia; done.
  - replace (cast ty old) with (wrapS (abits w) old) by (by destruct w).
    replace (cast ty v) with (wrapS (abits w) v) by (by destruct w).
    rewrite wrapS_wrapU by lia.
    destruct (_ <? _); rewrite wrapU_wrapS by lia; done.
  - replace (cast ty old) with (wrapU (abits w) old) by (by destruct w).
    replace (cast ty v) with (wrapU (abits w) v) by (by destruct w).
    rewrite Eo, min_if. apply wrapU_small. unfold inU in *. lia.
  - replace (cast ty old) with (wrapU (abits w) old) by (by destruct w).
    replace (cast ty v) with (wrapU (abits w) v) by (by destruct w).
    rewrite Eo, max_if. apply wrapU_small. unfold inU in *. lia.
Qed.

Lemma sign_extend_as_wrap w u old :
  ux (sign_extend_as (atype w u) (cast (atype w u) old)) = ux (wrapS (abits w) old).
Proof.
  destruct w, u; cbn [atype sign_extend_as cast abits];
    unfold sign_extend_i32, sign_extend_u32, sign_extend_i64, sign_extend_u64;
    by rewrite ux_sx, ?wrapS_wrapU by lia.
Qed.

Lemma InterpretAMOwith_exec op w instr s :
  sim_ok s ->
  (let* s := InterpretAMOwith (aop_fun op) (atype w (aop_unsigned op)) instr s in
   Ok (retire (add_pc s 4))) =
  exec_amo op w (Instr.rd instr) (Instr.rs2 instr) (Instr.rs1 instr) 4 s.
Proof.
  intros Hok. unfold InterpretAMOwith, exec_amo, atomic_load, LoadUnaligned, atomic_store, StoreUnaligned.
  rewrite CheckAtomicAlignment_at, atype_size, !rbind_rbind. apply rbind_ext. intros [].
  rewrite ?rbind_rbind. destruct (load_bytes _ _ _) as [old|] eqn:E; [|done]. cbn [rbind].
  pose proof (load_bytes_range _ _ _ _ (ok_mem s Hok) E) as Ho. rewrite abits_bytes in Ho.
  rewrite ?rbind_rbind.
  rewrite (store_bytes_mod _ _ _ _ (aop_sem op w old (wrapU (abits w) (get_xreg s (Instr.rs2 instr))))).
  - apply rbind_ext. intros m. cbn [rbind]. f_equal.
    unfold write. rewrite (set_xreg_cong _ _ _ _ (sign_extend_as_wrap w (aop_unsigned op) old)). done.
  - rewrite abits_bytes. change (?x mod 2 ^ abits w) with (wrapU (abits w) x).
    rewrite atype_cast_wrapU, aop_fun_sem by done.
    rewrite <- (aop_fun_sem op w old) by done. by rewrite wrapU_wrapU.
Qed.

Lemma InterpretLR_exec w instr s :
  sim_ok s -> load_order_ok (Instr.order instr) = true ->
  (let* s := InterpretLR (atype w false) instr s in Ok (retire (add_pc s 4))) =
  exec_lr w (Instr.rd instr) (Instr.rs1 instr) 4 s.
Proof.
  intros Hok Hord. unfold InterpretLR, exec_lr, atomic_load, LoadUnaligned.
  rewrite CheckAtomicAlignment_at, atype_size, Hord, ?rbind_rbind. apply rbind_ext. intros [].
  cbn [negb]. rewrite ?rbind_rbind. apply rbind_ext. intros old. cbn [rbind].
  replace (cast (atype w false) old) with (wrapS (abits w) old) by (by destruct w). done.
Qed.

Lemma InterpretSC_exec w instr s :
  sim_ok s ->
  (let* s := InterpretSC (atype w false) instr s in Ok (retire (add_pc s 4))) =
  exec_sc w (Instr.rd instr) (Instr.rs2 instr) (Instr.rs1 instr) 4 s.
Proof.
  intros Hok. unfold InterpretSC, exec_sc, atomic_load, LoadUnaligned, atomic_store, StoreUnaligned.
  rewrite CheckAtomicAlignment_at, atype_size, ?rbind_rbind. apply rbind_ext. intros [].
  destruct (negb _); [done|]. rewrite ?rbind_rbind. apply rbind_ext. intros old. cbn [rbind].
  replace (cast (atype w false) old =? cast (atype w false) (reserved_value_ s))
    with (wrapU (abits w) old =? wrapU (abits w) (reserved_value_ s)).
  - destruct (_ =? _); [|done]. rewrite ?rbind_rbind.
    rewrite (store_bytes_mod _ _ _ _ (wrapU (abits w) (get_xreg s (Instr.rs2 instr))));
      [by apply rbind_ext|].
    rewrite abits_bytes. change (?x mod 2 ^ abits w) with (wrapU (abits w) x).
    by rewrite !atype_cast_wrapU, wrapU_wrapU.
  - assert (0 < abits w) by (by destruct w).
    replace (cast (atype w false)) with (wrapS (abits w)) by (by destruct w).
    apply eq_true_iff_eq. rewrite !Z.eqb_eq. split; intros E.
    + by rewrite <- (wrapS_wrapU (abits w) old), E, wrapS_wrapU by lia.
    + by rewrite <- (wrapU_wrapS (abits w) old), E, wrapU_wrapS by lia.
Qed.

(** ** The instruction words *)

Definition aop_code (op : aop) : Z :=
  match op with
  | AMOSWAP => Funct5.AMOSWAP | AMOADD => Funct5.AMOADD | AMOXOR => Funct5.AMOXOR
  | AMOAND => Funct5.AMOAND | AMOOR => Funct5.AMOOR | AMOMIN => Funct5.AMOMIN
  | AMOMAX => Funct5.AMOMAX | AMOMINU => Funct5.AMOMINU | AMOMAXU => Funct5.AMOMAXU
  end.
Definition awidth_code (w : awidth) : Z :=
  match w with W32 => Funct3.WIDTH32 | W64 => Funct3.WIDTH64 end.

(** The acquire and release bits; the assembler rejects the other orders. *)
Definition order_bits (o : memory_order) : option Z :=
  match o with
  | memory_order_acq_rel => Some 3 | memory_order_acquire => Some 2
  | memory_order_release => Some 1 | memory_order_relaxed => Some 0
  | _ => None
  end.

Lemma order_bits_range o n : order_bits o = Some n -> inU 2 n.
Proof. destruct o; intros [= <-]; done. Qed.

Definition amo_word (f5 obits rs2 rs1 : Z) (w : awidth) (rd : Z) : Z :=
  rtype_word (Z.lor (Z.shiftl f5 2) obits) rs2 rs1 (awidth_code w) rd Opcode.AMO.

Lemma amo_fields f5 o obits rs2 rs1 w rd (e := amo_word f5 obits rs2 rs1 w rd) :
  inU 5 f5 -> order_bits o = Some obits -> inU 5 rs2 -> inU 5 rs1 -> inU 5 rd ->
  inU 32 e /\ Instr.opcode e = Opcode.AMO /\ Instr.rd e = rd /\ Instr.funct3 e = awidth_code w /\
  Instr.rs1 e = rs1 /\ Instr.rs2 e = rs2 /\ Instr.funct5 e = f5 /\ Instr.order e = o.
Proof.
  intros H5 Hb Hs2 Hs1 Hd.
  pose proof (order_bits_range _ _ Hb) as Ho.
  assert (inU 3 (awidth_code w)) as H3 by (by destruct w).
  destruct (rtype_fields (Z.lor (Z.shiftl f5 2) obits) rs2 rs1 (awidth_code w) rd Opcode.AMO)
    as (? & ? & ? & ? & ? & ? & E7); try done.
  { apply inU_lor; [lia|apply (inU_shiftl 7 5); [done|lia..]|by apply (inU_mono 2)]. }
  unfold e, amo_word. clear e.
  set (e := rtype_word _ _ _ _ _ _) in *. clearbody e. unfold Instr.funct7, DecodeFunct7, DecodeFunct in E7.
  change 127 with (Z.ones 7) in E7. change (Z.land _ _) with (field e 25 7) in E7.
  assert (field e 27 5 = field (field e 25 7) 2 5) as E5 by (unfold field; bitblast).
  assert (field e 26 1 = field (field e 25 7) 1 1) as Ea by (unfold field; bitblast).
  assert (field e 25 1 = field (field e 25 7) 0 1) as Er by (unfold field; bitblast).
  rewrite E7 in E5, Ea, Er. split_and!; try done.
  - unfold Instr.funct5, DecodeFunct5, DecodeFunct. fold_fields. rewrite E5. by simpl_fields.
  - unfold Instr.order, kAcquireShift, kReleaseShift. fold_fields. rewrite Ea, Er.
    rewrite !field_lor, (field_shiftl_above f5 2 1 1), (field_shiftl_above f5 2 0 1) by lia.
    by destruct o; simpl in Hb; simplify_eq.
Qed.

Lemma implements_amo f5 o obits rs2 rs1 w rd a f :
  inU 5 f5 -> order_bits o = Some obits -> inU 5 rs2 -> inU 5 rs1 -> inU 5 rd ->
  (forall s, sim_ok s -> (let* s := Interpret (amo_word f5 obits rs2 rs1 w rd) s in
                          Ok (retire s)) = f 4 s) ->
  implements (EmitRType_atomic f5 o rs2 rs1 (awidth_code w) rd Opcode.AMO) a f.
Proof.
  intros H5 Hb Hs2 Hs1 Hd Hs.
  destruct (amo_fields f5 o obits rs2 rs1 w rd) as (R & Eop & _); [done..|].
  pose proof (order_bits_range _ _ Hb) as Ho.
  eapply implements_32; [|exact R|by eapply opcode_low_bits|exact Hs].
  unfold EmitRType_atomic.
  replace (match o with memory_order_acq_rel => _ | _ => _ end)
    with (Ok (Z.lor (Z.shiftl f5 2) obits)) by (by destruct o; simpl in *; simplify_eq).
  cbn [rbind]. apply EmitRType_word; try done; [|by destruct w].
  apply inU_lor; [lia|apply (inU_shiftl 7 5); [done|lia..]|by apply (inU_mono 2)].
Qed.

(** The .d forms exist on RV64 only. *)
Definition awidth_ok (w : awidth) : Prop := match w with W32 => True | W64 => XLEN = 64 end.

Ltac amo_dispatch f5 o obits rs2 rs1 w rd :=
  let e := fresh "e" in
  destruct (amo_fields f5 o obits rs2 rs1 w rd)
    as (_ & Eop & Erd & Ef3 & Er1 & Er2 & Ef5 & Eo); [done..|];
  set (e := amo_word f5 obits rs2 rs1 w rd) in *; clearbody e;
  unfold Interpret; rewrite Eop; closed_bools; unfold InterpretAMO; rewrite Ef3.

Lemma amo_runs op o obits rs2 rs1 w rd s :
  awidth_ok w -> order_bits o = Some obits -> inU 5 rs2 -> inU 5 rs1 -> inU 5 rd -> sim_ok s ->
  (let* s := Interpret (amo_word (aop_code op) obits rs2 rs1 w rd) s in Ok (retire s)) =
  exec_amo op w rd rs2 rs1 4 s.
Proof.
  intros Hw Ho Hs2 Hs1 Hd Hok. assert (inU 5 (aop_code op)) by (by destruct op).
  amo_dispatch (aop_code op) o obits rs2 rs1 w rd. rewrite <- Erd, <- Er1, <- Er2.
  rewrite <- InterpretAMOwith_exec by done.
  destruct w; cbn [awidth_code]; closed_bools; unfold InterpretAMO32, InterpretAMO64; rewrite Ef5;
    rewrite ?(XLEN_64 Hw); cbn [negb];
    destruct op; cbn [aop_code]; closed_bools; rewrite ?rbind_rbind; reflexivity.
Qed.

Lemma lr_runs o obits rs1 w rd s :
  awidth_ok w -> order_bits o = Some obits -> load_order_ok o = true ->
  inU 5 rs1 -> inU 5 rd -> sim_ok s ->
  (let* s := Interpret (amo_word Funct5.LR obits Reg.ZR rs1 w rd) s in Ok (retire s)) =
  exec_lr w rd rs1 4 s.
Proof.
  intros Hw Ho Hord Hs1 Hd Hok. assert (inU 5 Funct5.LR) by done. assert (inU 5 Reg.ZR) by done.
  amo_dispatch Funct5.LR o obits Reg.ZR rs1 w rd. rewrite <- Erd, <- Er1.
  rewrite <- InterpretLR_exec by (done || by rewrite Eo).
  destruct w; cbn [awidth_code]; closed_bools; unfold InterpretAMO32, InterpretAMO64; rewrite Ef5;
    rewrite ?(XLEN_64 Hw); cbn [negb]; closed_bools; rewrite ?rbind_rbind; reflexivity.
Qed.

Lemma sc_runs o obits rs2 rs1 w rd s :
  awidth_ok w -> order_bits o = Some obits -> inU 5 rs2 -> inU 5 rs1 -> inU 5 rd -> sim_ok s ->
  (let* s := Interpret (amo_word Funct5.SC obits rs2 rs1 w rd) s in Ok (retire s)) =
  exec_sc w rd rs2 rs1 4 s.
Proof.
  intros Hw Ho Hs2 Hs1 Hd Hok. assert (inU 5 Funct5.SC) by done.
  amo_dispatch Funct5.SC o obits rs2 rs1 w rd. rewrite <- Erd, <- Er1, <- Er2.
  rewrite <- InterpretSC_exec by done.
  destruct w; cbn [awidth_code]; closed_bools; unfold InterpretAMO32, InterpretAMO64; rewrite Ef5;
    rewrite ?(XLEN_64 Hw); cbn [negb]; closed_bools; rewrite ?rbind_rbind; reflexivity.
Qed.

(** ** The assembler's methods *)

Definition amo_asm (op : aop) (w : awidth) : Z -> Z -> Address -> memory_order -> Asm -> Res Asm :=
  match w, op with
  | W32, AMOSWAP => MicroAssembler.amoswapw | W64, AMOSWAP => MicroAssembler.amoswapd
  | W32, AMOADD => MicroAssembler.amoaddw | W64, AMOADD => MicroAssembler.amoaddd
  | W32, AMOXOR => MicroAssembler.amoxorw | W64, AMOXOR => MicroAssembler.amoxord
  | W32, AMOAND => MicroAssembler.amoandw | W64, AMOAND => MicroAssembler.amoandd
  | W32, AMOOR => MicroAssembler.amoorw | W64, AMOOR => MicroAssembler.amoord
  | W32, AMOMIN => MicroAssembler.amominw | W64, AMOMIN => MicroAssembler.amomind
  | W32, AMOMAX => MicroAssembler.amomaxw | W64, AMOMAX => MicroAssembler.amomaxd
  | W32, AMOMINU => MicroAssembler.amominuw | W64, AMOMINU => MicroAssembler.amominud
  | W32, AMOMAXU => MicroAssembler.amomaxuw | W64, AMOMAXU => MicroAssembler.amomaxud
  end.
Definition lr_asm (w : awidth) : Z -> Address -> memory_order -> Asm -> Res Asm :=
  match w with W32 => MicroAssembler.lrw | W64 => MicroAssembler.lrd end.
Definition sc_asm (w : awidth) : Z -> Z -> Address -> memory_order -> Asm -> Res Asm :=
  match w with W32 => MicroAssembler.scw | W64 => MicroAssembler.scd end.

(** C34.  Atomic read-modify-write.  Each of the nine AMO operations, at both
    widths, fails on a misaligned address, otherwise stores the operation of
    the memory word and rs2 and returns the old word sign-extended. *)
Theorem amo_refines op w rd rs2 rs1 order obits a :
  awidth_ok w -> inU 5 rd -> inU 5 rs2 -> inU 5 rs1 -> Supports a RV_A = true ->
  order_bits order = Some obits ->
  implements (amo_asm op w rd rs2 (mkAddress rs1 0) order) a (exec_amo op w rd rs2 rs1).
Proof.
  intros Hw Hd Hs2 Hs1 HA Ho. unfold implements.
  pose proof (implements_amo (aop_code op) order obits rs2 rs1 w rd a (exec_amo op w rd rs2 rs1)) as L.
  destruct w, op; cbn [amo_asm]; cbv delta [MicroAssembler.amoswapw MicroAssembler.amoswapd
    MicroAssembler.amoaddw MicroAssembler.amoaddd MicroAssembler.amoxorw MicroAssembler.amoxord
    MicroAssembler.amoandw MicroAssembler.amoandd MicroAssembler.amoorw MicroAssembler.amoord
    MicroAssembler.amominw MicroAssembler.amomind MicroAssembler.amomaxw MicroAssembler.amomaxd
    MicroAssembler.amominuw MicroAssembler.amominud MicroAssembler.amomaxuw
    MicroAssembler.amomaxud]; asm_path; (apply L; [done..|]; intros s Hok; by eapply amo_runs).
Qed.

(** Load-reserved and store-conditional.  LR records the address and the
    value it read; SC stores and returns 0 exactly when the address is the
    recorded one and memory still holds the recorded value, and otherwise
    returns 1 and stores nothing. *)
Theorem lr_sc_refines w rd rs2 rs1 order obits a :
  awidth_ok w -> inU 5 rd -> inU 5 rs2 -> inU 5 rs1 -> Supports a RV_A = true ->
  order_bits order = Some obits ->
  (load_order_ok order = true ->
   implements (lr_asm w rd (mkAddress rs1 0) order) a (exec_lr w rd rs1)) /\
  implements (sc_asm w rd rs2 (mkAddress rs1 0) order) a (exec_sc w rd rs2 rs1).
Proof.
  intros Hw Hd Hs2 Hs1 HA Ho. unfold implements. split; [intros Hord|].
  - pose proof (implements_amo Funct5.LR order obits Reg.ZR rs1 w rd a (exec_lr w rd rs1)) as L.
    destruct w; cbn [lr_asm]; unfold MicroAssembler.lrw, MicroAssembler.lrd; asm_path;
      (apply L; [done..|]; intros s Hok; by eapply lr_runs).
  - pose proof (implements_amo Funct5.SC order obits rs2 rs1 w rd a (exec_sc w rd rs2 rs1)) as L.
    destruct w; cbn [sc_asm]; unfold MicroAssembler.scw, MicroAssembler.scd; asm_path;
      (apply L; [done..|]; intros s Hok; by eapply sc_runs).
Qed.

End RefineAtomic.
