(* ===== verification/RefineFloat.v ===== *)
(** * RefineFloat: the F and D extensions, assembled and run

    Every floating-point method, at both precisions, appends one instruction
    that the simulator decodes to the operation, format, operands and rounding
    mode the method names.  The operations themselves are the host's, as
    SimFloat models them; the sign injections and moves are specified here on
    the bits. *)

From stdpp Require Import base numbers list gmap.
From Stdlib Require Import Lia.
From S2P Require Import Prelude Constants Encoding CEncoding AsmBuffer MicroAsm SimState.
From S2P Require Import SimInt SimAtomic SimFloat SimCompressed Simulator Isa IntSpec BitSpec.
From S2P Require Import AsmExec AsmFormats RefineOp RefineMem Refinement.

#[local] Open Scope Z_scope.
#[local] Open Scope res_scope.

(** ** Specification *)

(** Single or double precision. *)
Inductive fprec : Set := SP | DP.
Definition fmt_of (p : fprec) : fmt := match p with SP => F32 | DP => F64 end.
Definition get_f (p : fprec) (s : Sim) (r : Z) : Z :=
  match p with SP => get_fregs s r | DP => get_fregd s r end.
Definition set_f (p : fprec) (s : Sim) (r v : Z) : Sim :=
  match p with SP => set_fregs s r v | DP => set_fregd s r v end.

Inductive fop : Set := FADD | FSUB | FMUL | FDIV.
Inductive fsel : Set := FSGNJ | FSGNJN | FSGNJX | FMIN | FMAX.
Inductive fcmp : Set := FEQ | FLT | FLE.
Inductive fma : Set := FMADD | FMSUB | FNMSUB | FNMADD.
(** The integer types of the conversions. *)
Inductive fint : Set := IW | IWU | IL | ILU.

Section FloatSpec.
Context `{Target} `{HostNaN}.

Definition fop_sem (p : fprec) (op : fop) : Z -> Z -> Z :=
  match op with
  | FADD => fadd (fmt_of p) | FSUB => fsub (fmt_of p) | FMUL => fmul (fmt_of p)
  | FDIV => fdiv (fmt_of p)
  end.

(** The magnitude of [x] with a sign. *)
Definition signed_as (p : fprec) (sign : bool) (x : Z) : Z :=
  with_sign (fmt_of p) sign (fabs (fmt_of p) x).

Definition fsel_sem (p : fprec) (op : fsel) (x y : Z) : Z :=
  let f := fmt_of p in
  match op with
  | FSGNJ => signed_as p (sign_of f y) x
  | FSGNJN => signed_as p (negb (sign_of f y)) x
  | FSGNJX => signed_as p (xorb (sign_of f x) (sign_of f y)) x
  | FMIN => rv_fmin_at f x y
  | FMAX => rv_fmax_at f x y
  end.

Definition fcmp_sem (p : fprec) (op : fcmp) (x y : Z) : bool :=
  match op with
  | FEQ => feq (fmt_of p) x y | FLT => flt (fmt_of p) x y | FLE => fle (fmt_of p) x y
  end.

(** [rs1 * rs2 + rs3] and its sign variations, rounded twice. *)
Definition fma_sem (p : fprec) (op : fma) (x y z : Z) : Z :=
  let f := fmt_of p in
  match op with
  | FMADD => fadd f (fmul f x y) z
  | FMSUB => fsub f (fmul f x y) z
  | FNMSUB => fadd f (fneg f (fmul f x y)) z
  | FNMADD => fsub f (fneg f (fmul f x y)) z
  end.

Definition fint_lo (t : fint) : Z :=
  match t with IW => - 2 ^ 31 | IL => - 2 ^ 63 | _ => 0 end.
Definition fint_hi (t : fint) : Z :=
  match t with IW => 2 ^ 31 - 1 | IWU => 2 ^ 32 - 1 | IL => 2 ^ 63 - 1 | ILU => 2 ^ 64 - 1 end.
(** The unsigned 32-bit results are sign-extended, too. *)
Definition fint_extend (t : fint) (v : Z) : Z :=
  match t with IW | IL | ILU => v | IWU => s32 v end.
Definition fint_read (t : fint) (x : Z) : Z :=
  match t with IW => s32 x | IWU => u32 x | IL => s64 x | ILU => u64 x end.
Definition fint_width (t : fint) : Prop :=
  match t with IW | IWU => True | IL | ILU => XLEN = 64 end.

Definition exec_fop (p : fprec) (op : fop) (rd rs1 rs2 len : Z) (s : Sim) : Res Sim :=
  Ok (advance len (set_f p s rd (fop_sem p op (get_f p s rs1) (get_f p s rs2)))).
Definition exec_fsel (p : fprec) (op : fsel) (rd rs1 rs2 len : Z) (s : Sim) : Res Sim :=
  Ok (advance len (set_f p s rd (fsel_sem p op (get_f p s rs1) (get_f p s rs2)))).
Definition exec_fsqrt (p : fprec) (rd rs1 len : Z) (s : Sim) : Res Sim :=
  Ok (advance len (set_f p s rd (fsqrt (fmt_of p) (get_f p s rs1)))).
Definition exec_fma (p : fprec) (op : fma) (rd rs1 rs2 rs3 len : Z) (s : Sim) : Res Sim :=
  Ok (advance len (set_f p s rd
    (fma_sem p op (get_f p s rs1) (get_f p s rs2) (get_f p s rs3)))).
Definition exec_fcmp (p : fprec) (op : fcmp) (rd rs1 rs2 len : Z) (s : Sim) : Res Sim :=
  Ok (write rd (Z.b2z (fcmp_sem p op (get_f p s rs1) (get_f p s rs2))) len s).
Definition exec_fclass (p : fprec) (rd rs1 len : Z) (s : Sim) : Res Sim :=
  Ok (write rd (match p with SP => SimFloat.fclassf | DP => SimFloat.fclassd end (get_f p s rs1)) len s).
(** To an integer: saturating, NaN to the largest, in a rounding mode. *)
Definition exec_f2i (p : fprec) (t : fint) (rd rs1 rm len : Z) (s : Sim) : Res Sim :=
  let* v := fcvt_at (fmt_of p) (fint_lo t) (fint_hi t) (get_f p s rs1) rm in
  Ok (write rd (fint_extend t v) len s).
Definition exec_i2f (p : fprec) (t : fint) (rd rs1 len : Z) (s : Sim) : Res Sim :=
  Ok (advance len (set_f p s rd (of_Z (fmt_of p) (fint_read t (get_xreg s rs1))))).
(** Between the precisions. *)
Definition exec_f2f (to : fprec) (rd rs1 len : Z) (s : Sim) : Res Sim :=
  let from := match to with SP => DP | DP => SP end in
  Ok (advance len (set_f to s rd (convert (fmt_of from) (fmt_of to) (get_f from s rs1)))).
(** Moves of the bits. *)
Definition exec_fmvx (p : fprec) (rd rs1 len : Z) (s : Sim) : Res Sim :=
  Ok (write rd (wrapS (fbits (fmt_of p)) (get_f p s rs1)) len s).
Definition exec_fmvf (p : fprec) (rd rs1 len : Z) (s : Sim) : Res Sim :=
  Ok (advance len (set_f p s rd (wrapU (fbits (fmt_of p)) (get_xreg s rs1)))).

End FloatSpec.

(** ** The assembler's methods *)

Section FloatAsm.
Context `{Target}.

Definition fop_asm (p : fprec) (op : fop) : Z -> Z -> Z -> Z -> Asm -> Res Asm :=
  match p, op with
  | SP, FADD => MicroAssembler.fadds | DP, FADD => MicroAssembler.faddd
  | SP, FSUB => MicroAssembler.fsubs | DP, FSUB => MicroAssembler.fsubd
  | SP, FMUL => MicroAssembler.fmuls | DP, FMUL => MicroAssembler.fmuld
  | SP, FDIV => MicroAssembler.fdivs | DP, FDIV => MicroAssembler.fdivd
  end.
Definition fsel_asm (p : fprec) (op : fsel) : Z -> Z -> Z -> Asm -> Res Asm :=
  match p, op with
  | SP, FSGNJ => MicroAssembler.fsgnjs | DP, FSGNJ => MicroAssembler.fsgnjd
  | SP, FSGNJN => MicroAssembler.fsgnjns | DP, FSGNJN => MicroAssembler.fsgnjnd
  | SP, FSGNJX => MicroAssembler.fsgnjxs | DP, FSGNJX => MicroAssembler.fsgnjxd
  | SP, FMIN => MicroAssembler.fmins | DP, FMIN => MicroAssembler.fmind
  | SP, FMAX => MicroAssembler.fmaxs | DP, FMAX => MicroAssembler.fmaxd
  end.
Definition fsqrt_asm (p : fprec) : Z -> Z -> Z -> Asm -> Res Asm :=
  match p with SP => MicroAssembler.fsqrts | DP => MicroAssembler.fsqrtd end.
Definition fma_asm (p : fprec) (op : fma) : Z -> Z -> Z -> Z -> Z -> Asm -> Res Asm :=
  match p, op with
  | SP, FMADD => MicroAssembler.fmadds | DP, FMADD => MicroAssembler.fmaddd
  | SP, FMSUB => MicroAssembler.fmsubs | DP, FMSUB => MicroAssembler.fmsubd
  | SP, FNMSUB => MicroAssembler.fnmsubs | DP, FNMSUB => MicroAssembler.fnmsubd
  | SP, FNMADD => MicroAssembler.fnmadds | DP, FNMADD => MicroAssembler.fnmaddd
  end.
Definition fcmp_asm (p : fprec) (op : fcmp) : Z -> Z -> Z -> Asm -> Res Asm :=
  match p, op with
  | SP, FEQ => MicroAssembler.feqs | DP, FEQ => MicroAssembler.feqd
  | SP, FLT => MicroAssembler.flts | DP, FLT => MicroAssembler.fltd
  | SP, FLE => MicroAssembler.fles | DP, FLE => MicroAssembler.fled
  end.
Definition fclass_asm (p : fprec) : Z -> Z -> Asm -> Res Asm :=
  match p with SP => MicroAssembler.fclasss | DP => MicroAssembler.fclassd end.
Definition f2i_asm (p : fprec) (t : fint) : Z -> Z -> Z -> Asm -> Res Asm :=
  match p, t with
  | SP, IW => MicroAssembler.fcvtws | DP, IW => MicroAssembler.fcvtwd
  | SP, IWU => MicroAssembler.fcvtwus | DP, IWU => MicroAssembler.fcvtwud
  | SP, IL => MicroAssembler.fcvtls | DP, IL => MicroAssembler.fcvtld
  | SP, ILU => MicroAssembler.fcvtlus | DP, ILU => MicroAssembler.fcvtlud
  end.
Definition i2f_asm (p : fprec) (t : fint) : Z -> Z -> Z -> Asm -> Res Asm :=
  match p, t with
  | SP, IW => MicroAssembler.fcvtsw | DP, IW => MicroAssembler.fcvtdw
  | SP, IWU => MicroAssembler.fcvtswu | DP, IWU => MicroAssembler.fcvtdwu
  | SP, IL => MicroAssembler.fcvtsl | DP, IL => MicroAssembler.fcvtdl
  | SP, ILU => MicroAssembler.fcvtslu | DP, ILU => MicroAssembler.fcvtdlu
  end.
Definition f2f_asm (to : fprec) : Z -> Z -> Z -> Asm -> Res Asm :=
  match to with SP => MicroAssembler.fcvtsd | DP => MicroAssembler.fcvtds end.
Definition fmvx_asm (p : fprec) : Z -> Z -> Asm -> Res Asm :=
  match p with SP => MicroAssembler.fmvxw | DP => MicroAssembler.fmvxd end.
Definition fmvf_asm (p : fprec) : Z -> Z -> Asm -> Res Asm :=
  match p with SP => MicroAssembler.fmvwx | DP => MicroAssembler.fmvdx end.

(** The extension a precision needs. *)
Definition fext (p : fprec) : Z := match p with SP => RV_F | DP => RV_D end.

End FloatAsm.

(** ** Decoding *)

(** The handler on a word with the given fields. *)
Definition opfp_runs `{Target} `{HostNaN} (f7 rs2 rs1 f3 rd : Z) (f : Z -> Sim -> Res Sim) : Prop :=
  forall w s, Instr.rd w = rd -> Instr.funct3 w = f3 -> Instr.rs1 w = rs1 -> Instr.rs2 w = rs2 ->
  Instr.funct7 w = f7 -> sim_ok s ->
  (let* s := InterpretOPFP w s in Ok (retire s)) = f 4 s.

(** Follow the [switch] on funct7 to its case. *)
Ltac opfp_case :=
  intros w s Erd Ef3 Er1 Er2 Ef7 Hok;
  unfold InterpretOPFP, InterpretOPFP_S, InterpretOPFP_D;
  change Instr.frd with Instr.rd; change Instr.frs1 with Instr.rs1;
  change Instr.frs2 with Instr.rs2; change Instr.rounding with Instr.funct3;
  rewrite Ef7, Erd, Ef3, Er1, Er2; clear Ef7 Erd Ef3 Er1 Er2;
  cbv beta zeta; closed_bools; cbn [rbind].

Section RefineFloat.
Context `{Target} `{HostNaN} `{Host}.

Lemma implements_opfp f7 rs2 rs1 f3 rd a f :
  inU 7 f7 -> inU 5 rs2 -> inU 5 rs1 -> inU 3 f3 -> inU 5 rd ->
  opfp_runs f7 rs2 rs1 f3 rd f ->
  implements (EmitRType f7 rs2 rs1 f3 rd Opcode.OPFP) a f.
Proof.
  intros ????? Hr. apply implements_rtype; try done. intros s Hok.
  destruct (rtype_fields f7 rs2 rs1 f3 rd Opcode.OPFP) as (_ & Eop & ? & ? & ? & ? & ?); [done..|].
  set (w := rtype_word _ _ _ _ _ _) in *. clearbody w.
  unfold Interpret. rewrite Eop. closed_bools. by apply Hr.
Qed.

(** *** Sign injection *)

Lemma land_sign_bit k y :
  0 <= k -> Z.land y (Z.shiftl 1 k) = if Z.testbit y k then 2 ^ k else 0.
Proof.
  intros Hk. rewrite Z.shiftl_1_l. apply Z.bits_inj'. intros i Hi. rewrite Z.land_spec.
  destruct (decide (i = k)) as [->|Hne].
  - rewrite Z.pow2_bits_true by lia. rewrite andb_true_r.
    destruct (Z.testbit y k); [by rewrite Z.pow2_bits_true by lia|by rewrite Z.bits_0].
  - rewrite Z.pow2_bits_false, andb_false_r by lia.
    destruct (Z.testbit y k); [by rewrite Z.pow2_bits_false by lia|by rewrite Z.bits_0].
Qed.

Lemma not_sign_mask n : 0 < n -> wrapU n (Z.lnot (Z.shiftl 1 (n - 1))) = Z.ones (n - 1).
Proof.
  intros Hn. rewrite Z.shiftl_1_l. apply Z.bits_inj'. intros i Hi.
  rewrite testbit_wrapU, Z.lnot_spec, testbit_ones by lia.
  destruct (decide (i = n - 1)) as [->|Hne].
  - rewrite Z.pow2_bits_true by lia. rewrite andb_false_r.
    destruct (Z.ltb_spec (n - 1) (n - 1)); [lia|]. by rewrite andb_false_r.
  - rewrite Z.pow2_bits_false by lia.
    destruct (Z.ltb_spec i n), (Z.ltb_spec i (n - 1)), (Z.leb_spec 0 i); try lia; done.
Qed.

Lemma lor_sign k x :
  0 <= k -> Z.lor (Z.land x (Z.ones k)) (2 ^ k) = 2 ^ k + Z.land x (Z.ones k).
Proof.
  intros Hk. rewrite <- Z.lxor_lor, <- Z.add_nocarry_lxor; [lia|..];
    apply Z.bits_inj'; intros i Hi; rewrite !Z.land_spec, testbit_ones, Z.bits_0 by lia;
    (destruct (decide (i = k)) as [->|];
     [destruct (Z.ltb_spec k k); [lia|]; by rewrite !andb_false_r
     |by rewrite Z.pow2_bits_false, andb_false_r by lia]).
Qed.

Lemma inject_sign p x y (n := fbits (fmt_of p)) :
  Z.lor (Z.land x (wrapU n (Z.lnot (Z.shiftl 1 (n - 1))))) (Z.land y (Z.shiftl 1 (n - 1))) =
  signed_as p (Z.testbit y (n - 1)) x.
Proof.
  assert (0 < n) by (by destruct p). rewrite not_sign_mask, land_sign_bit by lia.
  unfold signed_as, with_sign, fabs. fold n.
  replace (2 ^ (n - 1) - 1) with (Z.ones (n - 1)) by (rewrite Z.ones_equiv; lia).
  destruct (Z.testbit y (n - 1)); [by apply lor_sign; lia|by rewrite Z.lor_0_r].
Qed.

(** ** Arithmetic *)

Definition fop_code (p : fprec) (op : fop) : Z :=
  match p, op with
  | SP, FADD => Funct7.FADDS | DP, FADD => Funct7.FADDD
  | SP, FSUB => Funct7.FSUBS | DP, FSUB => Funct7.FSUBD
  | SP, FMUL => Funct7.FMULS | DP, FMUL => Funct7.FMULD
  | SP, FDIV => Funct7.FDIVS | DP, FDIV => Funct7.FDIVD
  end.

Lemma fop_runs p op rs2 rs1 rm rd :
  opfp_runs (fop_code p op) rs2 rs1 rm rd (exec_fop p op rd rs1 rs2).
Proof. destruct p, op; cbn [fop_code]; opfp_case; reflexivity. Qed.

Definition fsel_code (p : fprec) (op : fsel) : Z * Z :=
  match p, op with
  | SP, FSGNJ => (Funct7.FSGNJS, Funct3.J) | DP, FSGNJ => (Funct7.FSGNJD, Funct3.J)
  | SP, FSGNJN => (Funct7.FSGNJS, Funct3.JN) | DP, FSGNJN => (Funct7.FSGNJD, Funct3.JN)
  | SP, FSGNJX => (Funct7.FSGNJS, Funct3.JX) | DP, FSGNJX => (Funct7.FSGNJD, Funct3.JX)
  | SP, FMIN => (Funct7.FMINMAXS, Funct3.FMIN) | DP, FMIN => (Funct7.FMINMAXD, Funct3.FMIN)
  | SP, FMAX => (Funct7.FMINMAXS, Funct3.FMAX) | DP, FMAX => (Funct7.FMINMAXD, Funct3.FMAX)
  end.

Lemma sign_inject_exec p f3 x y w (n := fbits (fmt_of p)) :
  sign_inject n f3 x y w =
  if f3 =? Funct3.J then Ok (fsel_sem p FSGNJ x y)
  else if f3 =? Funct3.JN then Ok (fsel_sem p FSGNJN x y)
  else if f3 =? Funct3.JX then Ok (fsel_sem p FSGNJX x y)
  else IllegalInstruction w.
Proof.
  assert (0 < n) by (by destruct p). unfold sign_inject, n. rewrite !inject_sign. fold n.
  cbn [fsel_sem]. unfold sign_of. fold n.
  rewrite testbit_wrapU, Z.lnot_spec, Z.lxor_spec by lia.
  destruct (Z.ltb_spec (n - 1) n); [|lia]. done.
Qed.

Lemma fsel_runs p op rs2 rs1 rd :
  opfp_runs (fsel_code p op).1 rs2 rs1 (fsel_code p op).2 rd (exec_fsel p op rd rs1 rs2).
Proof.
  destruct p, op; cbn [fsel_code fst snd]; opfp_case; try reflexivity;
    first [rewrite (sign_inject_exec SP) | rewrite (sign_inject_exec DP)];
    closed_bools; reflexivity.
Qed.

Lemma fsqrt_runs p rs1 rm rd :
  opfp_runs (match p with SP => Funct7.FSQRTS | DP => Funct7.FSQRTD end) 0 rs1 rm rd
    (exec_fsqrt p rd rs1).
Proof. destruct p; opfp_case; reflexivity. Qed.

(** The methods are the R format on the registers they name. *)
Ltac fp_method :=
  asm_path;
  change EmitRType_fff_round with EmitRType; change EmitRType_fff with EmitRType;
  change EmitRType_fxf_round with EmitRType; change EmitRType_fxf with EmitRType;
  change EmitRType_ffx_round with EmitRType; change EmitRType_ffx with EmitRType.

Lemma float_arith_implements p a rd rs1 rs2 rm :
  inU 5 rd -> inU 5 rs1 -> inU 5 rs2 -> inU 3 rm -> Supports a (fext p) = true ->
  (forall op, implements (fop_asm p op rd rs1 rs2 rm) a (exec_fop p op rd rs1 rs2)) /\
  (forall op, implements (fsel_asm p op rd rs1 rs2) a (exec_fsel p op rd rs1 rs2)) /\
  implements (fsqrt_asm p rd rs1 rm) a (exec_fsqrt p rd rs1).
Proof.
  intros Hd Hs1 Hs2 Hm HF. unfold implements. split_and!.
  - intros op. pose proof (implements_opfp (fop_code p op) rs2 rs1 rm rd a
      (exec_fop p op rd rs1 rs2)) as L.
    destruct p, op; cbn [fop_asm fext] in *; cbv delta [MicroAssembler.fadds MicroAssembler.faddd
      MicroAssembler.fsubs MicroAssembler.fsubd MicroAssembler.fmuls MicroAssembler.fmuld
      MicroAssembler.fdivs MicroAssembler.fdivd]; fp_method; (apply L; [done..|apply fop_runs]).
  - intros op. pose proof (implements_opfp (fsel_code p op).1 rs2 rs1 (fsel_code p op).2 rd a
      (exec_fsel p op rd rs1 rs2)) as L.
    destruct p, op; cbn [fsel_asm fext] in *; cbv delta [MicroAssembler.fsgnjs MicroAssembler.fsgnjd
      MicroAssembler.fsgnjns MicroAssembler.fsgnjnd MicroAssembler.fsgnjxs MicroAssembler.fsgnjxd
      MicroAssembler.fmins MicroAssembler.fmind MicroAssembler.fmaxs MicroAssembler.fmaxd];
      fp_method; (apply L; [done..|apply fsel_runs]).
  - destruct p; cbn [fsqrt_asm fext] in *; cbv delta [MicroAssembler.fsqrts MicroAssembler.fsqrtd];
      fp_method; (apply implements_opfp; [done..|]);
      [apply (fsqrt_runs SP) | apply (fsqrt_runs DP)].
Qed.

(** ** Comparisons and classification *)

Definition fcmp_code (op : fcmp) : Z :=
  match op with FEQ => Funct3.FEQ | FLT => Funct3.FLT | FLE => Funct3.FLE end.

Lemma bool_to_Z_b2z b : bool_to_Z b = Z.b2z b.
Proof. by destruct b. Qed.

Lemma fcmp_runs p op rs2 rs1 rd :
  opfp_runs (match p with SP => Funct7.FCMPS | DP => Funct7.FCMPD end) rs2 rs1 (fcmp_code op) rd
    (exec_fcmp p op rd rs1 rs2).
Proof.
  destruct p, op; cbn [fcmp_code]; opfp_case; unfold compare_result; closed_bools; cbn [rbind];
    rewrite bool_to_Z_b2z; by apply write_step.
Qed.

Lemma fclass_runs p rs1 rd :
  opfp_runs (match p with SP => Funct7.FCLASSS | DP => Funct7.FCLASSD end) 0 rs1 Funct3.F3_1 rd
    (exec_fclass p rd rs1).
Proof. destruct p; opfp_case; by apply write_step. Qed.

Lemma float_compare_implements p a rd rs1 rs2 :
  inU 5 rd -> inU 5 rs1 -> inU 5 rs2 -> Supports a (fext p) = true ->
  (forall op, implements (fcmp_asm p op rd rs1 rs2) a (exec_fcmp p op rd rs1 rs2)) /\
  implements (fclass_asm p rd rs1) a (exec_fclass p rd rs1).
Proof.
  intros Hd Hs1 Hs2 HF. unfold implements. split.
  - intros op. pose proof (fcmp_runs p op rs2 rs1 rd) as R.
    destruct p, op; cbn [fcmp_asm fext fcmp_code] in *; cbv delta [MicroAssembler.feqs
      MicroAssembler.feqd MicroAssembler.flts MicroAssembler.fltd MicroAssembler.fles
      MicroAssembler.fled]; fp_method; (apply implements_opfp; [done..|exact R]).
  - pose proof (fclass_runs p rs1 rd) as R.
    destruct p; cbn [fclass_asm fext] in *; cbv delta [MicroAssembler.fclasss
      MicroAssembler.fclassd]; fp_method; (apply implements_opfp; [done..|exact R]).
Qed.

(** ** Conversions and moves *)

Definition fint_code (t : fint) : Z :=
  match t with IW => FcvtRs2.W | IWU => FcvtRs2.WU | IL => FcvtRs2.L | ILU => FcvtRs2.LU end.

Lemma f2i_runs p t rs1 rm rd :
  fint_width t ->
  opfp_runs (match p with SP => Funct7.FCVTintS | DP => Funct7.FCVTintD end) (fint_code t) rs1 rm rd
    (exec_f2i p t rd rs1 rm).
Proof.
  intros Hw. destruct p, t; cbn [fint_code fint_width] in *; opfp_case;
    rewrite ?(XLEN_64 Hw); closed_bools; unfold exec_f2i; rewrite ?rbind_rbind;
    (apply rbind_ext; intros v; cbn [rbind fint_extend]; apply write_step);
    unfold sign_extend_i32, sign_extend_u32, sign_extend_i64, sign_extend_u64;
    rewrite ux_sx; try done; unfold ux; rewrite Hw; by apply wrapU_wrapS.
Qed.

Lemma i2f_runs p t rs1 rm rd :
  fint_width t ->
  opfp_runs (match p with SP => Funct7.FCVTSint | DP => Funct7.FCVTDint end) (fint_code t) rs1 rm rd
    (exec_i2f p t rd rs1).
Proof.
  intros Hw. destruct p, t; cbn [fint_code fint_width] in *; opfp_case;
    rewrite ?(XLEN_64 Hw); closed_bools; reflexivity.
Qed.

Lemma f2f_runs to rs1 rm rd :
  opfp_runs (match to with SP => Funct7.FCVTS | DP => Funct7.FCVTD end)
    (match to with SP => 1 | DP => 0 end) rs1 rm rd (exec_f2f to rd rs1).
Proof. destruct to; opfp_case; reflexivity. Qed.

(** fmv.x.d and fmv.d.x exist on RV64 only. *)
Definition fmv_width (p : fprec) : Prop := match p with SP => True | DP => XLEN = 64 end.

Lemma fmvx_runs p rs1 rd :
  fmv_width p ->
  opfp_runs (match p with SP => Funct7.FMVXW | DP => Funct7.FMVXD end) 0 rs1 Funct3.F3_0 rd
    (exec_fmvx p rd rs1).
Proof.
  intros Hw. destruct p; cbn [fmv_width] in *; opfp_case; rewrite ?(XLEN_64 Hw); closed_bools;
    apply write_step; [apply ux_sx|done].
Qed.

Lemma fmvf_runs p rs1 rd :
  fmv_width p -> inU 5 rs1 ->
  opfp_runs (match p with SP => Funct7.FMVWX | DP => Funct7.FMVDX end) 0 rs1 Funct3.F3_0 rd
    (exec_fmvf p rd rs1).
Proof.
  intros Hw Hs1. destruct p; cbn [fmv_width] in *; opfp_case; rewrite ?(XLEN_64 Hw); closed_bools;
    [reflexivity|].
  unfold exec_fmvf. cbn [fmt_of set_f]. change (fbits F64) with 64.
  pose proof (get_xreg_range s rs1 Hok Hs1) as R. rewrite Hw in R. by rewrite wrapU_small.
Qed.

(** Conversions and moves.  Conversions to integers saturate, in the
    rounding mode encoded, and fail only in a mode the simulator does not
    implement; conversions from integers and between the precisions round to
    nearest; fmv moves the bits. *)
Theorem float_convert_refines p t a rd rs1 rm :
  inU 5 rd -> inU 5 rs1 -> inU 3 rm -> Supports a RV_F = true -> Supports a RV_D = true ->
  (fint_width t ->
   implements (f2i_asm p t rd rs1 rm) a (exec_f2i p t rd rs1 rm) /\
   implements (i2f_asm p t rd rs1 rm) a (exec_i2f p t rd rs1)) /\
  implements (f2f_asm p rd rs1 rm) a (exec_f2f p rd rs1) /\
  (fmv_width p ->
   implements (fmvx_asm p rd rs1) a (exec_fmvx p rd rs1) /\
   implements (fmvf_asm p rd rs1) a (exec_fmvf p rd rs1)).
Proof.
  intros Hd Hs1 Hm HF HD. unfold implements. split_and!; [intros Hw; split| |intros Hw; split].
  - pose proof (f2i_runs p t rs1 rm rd Hw) as R.
    destruct p, t; cbn [f2i_asm fint_code] in *; cbv delta [MicroAssembler.fcvtws
      MicroAssembler.fcvtwd MicroAssembler.fcvtwus MicroAssembler.fcvtwud MicroAssembler.fcvtls
      MicroAssembler.fcvtld MicroAssembler.fcvtlus MicroAssembler.fcvtlud]; fp_method;
      (apply implements_opfp; [done..|exact R]).
  - pose proof (i2f_runs p t rs1 rm rd Hw) as R.
    destruct p, t; cbn [i2f_asm fint_code] in *; cbv delta [MicroAssembler.fcvtsw
      MicroAssembler.fcvtdw MicroAssembler.fcvtswu MicroAssembler.fcvtdwu MicroAssembler.fcvtsl
      MicroAssembler.fcvtdl MicroAssembler.fcvtslu MicroAssembler.fcvtdlu]; fp_method;
      (apply implements_opfp; [done..|exact R]).
  - pose proof (f2f_runs p rs1 rm rd) as R.
    destruct p; cbn [f2f_asm] in *; cbv delta [MicroAssembler.fcvtsd MicroAssembler.fcvtds];
      fp_method; (apply implements_opfp; [done..|exact R]).
  - pose proof (fmvx_runs p rs1 rd Hw) as R.
    destruct p; cbn [fmvx_asm] in *; cbv delta [MicroAssembler.fmvxw MicroAssembler.fmvxd];
      fp_method; (apply implements_opfp; [done..|exact R]).
  - pose proof (fmvf_runs p rs1 rd Hw Hs1) as R.
    destruct p; cbn [fmvf_asm] in *; cbv delta [MicroAssembler.fmvwx MicroAssembler.fmvdx];
      fp_method; (apply implements_opfp; [done..|exact R]).
Qed.

(** ** Multiply-add *)

Definition fma_code (op : fma) : Z :=
  match op with
  | FMADD => Opcode.FMADD | FMSUB => Opcode.FMSUB | FNMSUB => Opcode.FNMSUB
  | FNMADD => Opcode.FNMADD
  end.

Lemma implements_fma p op rd rs1 rs2 rs3 rm a :
  inU 5 rd -> inU 5 rs1 -> inU 5 rs2 -> inU 5 rs3 -> inU 3 rm ->
  implements (EmitR4Type rs3 (match p with SP => Funct2.F2_S | DP => Funct2.F2_D end) rs2 rs1 rm rd
    (fma_code op)) a (exec_fma p op rd rs1 rs2 rs3).
Proof.
  intros Hd Hs1 Hs2 Hs3 Hm. set (f2 := match p with SP => _ | DP => _ end).
  assert (inU 2 f2) as H2f by (by destruct p). assert (inU 7 (fma_code op)) as H7 by (by destruct op).
  destruct (r4type_fields rs3 f2 rs2 rs1 rm rd (fma_code op))
    as (R & Eop & Erd & Ef3 & Er1 & Er2 & Ef2 & Er3); [done..|].
  eapply implements_32; [by apply EmitR4Type_word|exact R| |].
  { eapply opcode_low_bits; [exact Eop|by destruct op]. }
  intros s Hok. set (w := r4type_word _ _ _ _ _ _ _) in *. clearbody w.
  unfold Interpret. rewrite Eop.
  destruct op; cbn [fma_code]; closed_bools;
    unfold InterpretFMADD, InterpretFMSUB, InterpretFNMSUB, InterpretFNMADD, InterpretFMA;
    change Instr.frd with Instr.rd; change Instr.frs1 with Instr.rs1;
    change Instr.frs2 with Instr.rs2; rewrite Ef2, Erd, Er1, Er2, Er3;
    destruct p; unfold f2; closed_bools; unfold exec_fma, fma_sem; cbn [fmt_of get_f set_f rbind];
    cbv beta zeta; unfold retire, advance; reflexivity.
Qed.

Lemma fma_implements p op rd rs1 rs2 rs3 rm a :
  inU 5 rd -> inU 5 rs1 -> inU 5 rs2 -> inU 5 rs3 -> inU 3 rm -> Supports a (fext p) = true ->
  implements (fma_asm p op rd rs1 rs2 rs3 rm) a (exec_fma p op rd rs1 rs2 rs3).
Proof.
  intros Hd Hs1 Hs2 Hs3 Hm HF. unfold implements.
  pose proof (implements_fma p op rd rs1 rs2 rs3 rm a Hd Hs1 Hs2 Hs3 Hm) as L.
  destruct p, op; cbn [fma_asm fext fma_code] in *; cbv delta [MicroAssembler.fmadds
    MicroAssembler.fmaddd MicroAssembler.fmsubs MicroAssembler.fmsubd MicroAssembler.fnmsubs
    MicroAssembler.fnmsubd MicroAssembler.fnmadds MicroAssembler.fnmaddd]; asm_path; exact L.
Qed.

(** C35.  Floating-point arithmetic.  At both precisions, fadd, fsub, fmul, fdiv
    and fsqrt run as the host's operation on the operands, whatever the rounding
    mode encoded; fsgnj, fsgnjn and fsgnjx replace the sign bit and keep the
    magnitude; fmin and fmax are the simulator's; feq, flt and fle leave 0 or 1,
    and fclass the class mask, in an integer register; the four multiply-add
    instructions give the product, rounded, plus or minus the addend, with the
    sign of the instruction. *)
Theorem float_refines p a rd rs1 rs2 rs3 rm :
  inU 5 rd -> inU 5 rs1 -> inU 5 rs2 -> inU 5 rs3 -> inU 3 rm -> Supports a (fext p) = true ->
  (forall op, implements (fop_asm p op rd rs1 rs2 rm) a (exec_fop p op rd rs1 rs2)) /\
  (forall op, implements (fsel_asm p op rd rs1 rs2) a (exec_fsel p op rd rs1 rs2)) /\
  implements (fsqrt_asm p rd rs1 rm) a (exec_fsqrt p rd rs1) /\
  (forall op, implements (fcmp_asm p op rd rs1 rs2) a (exec_fcmp p op rd rs1 rs2)) /\
  implements (fclass_asm p rd rs1) a (exec_fclass p rd rs1) /\
  (forall op, implements (fma_asm p op rd rs1 rs2 rs3 rm) a (exec_fma p op rd rs1 rs2 rs3)).
Proof.
  intros Hd H1' H2' H3' Hm HF. destruct (float_arith_implements p a rd rs1 rs2 rm) as (Ho & Hs & Hq); [done..|].
  destruct (float_compare_implements p a rd rs1 rs2) as [Hc Hk]; [done..|].
  split_and!; try done. intros op. by apply fma_implements.
Qed.

End RefineFloat.
