(* ===== verification/AsmSites.v ===== *)
(** * AsmSites: the branch instructions a label patches

    A site is a branch or jump whose offset the assembler writes twice: when
    it emits it (the distance to the previous site of the label) and when
    [Bind] resolves it.  Its bytes as a function of the offset are what
    emission appends, what [UpdateOffset] reads back and what it writes. *)

From stdpp Require Import base numbers list gmap.
From Stdlib Require Import Lia Btauto.
From S2P Require Import Prelude Constants Encoding CEncoding AsmBuffer MicroAsm AsmBranch SimState.
From S2P Require Import SimInt SimAtomic SimFloat SimCompressed Simulator Isa IntSpec BitSpec.
From S2P Require Import AsmExec AsmFormats AsmCFormats RefineOp RefineMem RefineC.

#[local] Open Scope Z_scope.
#[local] Open Scope res_scope.

(** ** Splitting an offset into its auipc and jalr parts *)

Section ImmSplit.
Context `{Target}.

(** Shifting left and arithmetically back keeps the low [n] bits, signed. *)
Lemma shl_sar n x :
  0 < n <= XLEN -> Z.shiftr (sx (ux (Z.shiftl (ux x) (XLEN - n)))) (XLEN - n) = wrapS n x.
Proof.
  intros Hn. unfold sx, ux. apply Z.bits_inj'. intros i Hi.
  rewrite Z.shiftr_spec, testbit_wrapS, testbit_wrapU, Z.shiftl_spec, testbit_wrapU,
    testbit_wrapS by lia.
  destruct (Z.ltb_spec (Z.min (i + (XLEN - n)) (XLEN - 1)) XLEN); [|lia].
  destruct (Z.ltb_spec (Z.min (i + (XLEN - n)) (XLEN - 1) - (XLEN - n)) XLEN); [|lia].
  simpl. f_equal. lia.
Qed.

Lemma ImmLo_wrap imm : ImmLo imm = wrapS 12 imm.
Proof. unfold ImmLo. apply shl_sar. destruct XLEN_cases; lia. Qed.

Lemma ImmHi_wrap imm : ImmHi imm = wrapS 32 (imm - wrapS 12 imm).
Proof.
  unfold ImmHi. rewrite ImmLo_wrap. unfold ux. rewrite wrapU_idem_sub_l, wrapU_idem_sub_r.
  apply shl_sar. destruct XLEN_cases; lia.
Qed.

Lemma wrapS_sub n x : 0 < n -> exists k, wrapS n x = x - k * 2 ^ n.
Proof.
  intros. unfold wrapS. exists ((x + 2 ^ (n - 1)) / 2 ^ n).
  pose proof (Z.div_mod (x + 2 ^ (n - 1)) (2 ^ n)) as D.
  pose proof (pow2_pos n). lia.
Qed.

(** The upper part always fits: the range check before an auipc cannot fail. *)
Lemma ImmHi_fits imm : IsUTypeImm (ImmHi imm) = true /\ inS kBitsPerWord (ImmHi imm).
Proof.
  assert (inS kBitsPerWord (ImmHi imm)) as Hw.
  { rewrite ImmHi_wrap. apply (inS_mono 32); [apply wrapS_range; lia|].
    destruct kBitsPerWord_cases as [-> | ->]; lia. }
  split; [|done]. apply IsUTypeImm_spec; [done|]. rewrite ImmHi_wrap.
  split; [apply wrapS_range; lia|].
  destruct (wrapS_sub 32 (imm - wrapS 12 imm)) as [k ->]; [lia|].
  destruct (wrapS_sub 12 imm) as [k' ->]; [lia|].
  replace (imm - (imm - k' * 2 ^ 12) - k * 2 ^ 32) with ((k' - k * 2 ^ 20) * 2 ^ 12) by lia.
  by apply Z.mod_mul.
Qed.

Lemma ImmLo_fits imm : IsITypeImm (ImmLo imm) = true.
Proof. apply IsITypeImm_spec. rewrite ImmLo_wrap. by apply wrapS_range. Qed.

(** The two parts add up below the last 2 KB of the 32-bit range. *)
Definition far_fits (offset : Z) : bool := (- 2 ^ 31 <=? offset) && (offset <? 2 ^ 31 - 2 ^ 11).

Lemma ImmSplit offset : far_fits offset = true -> ImmHi offset + ImmLo offset = offset.
Proof.
  unfold far_fits. intros [??]%andb_true_iff. rewrite ImmHi_wrap, ImmLo_wrap.
  pose proof (wrapS_range 12 offset ltac:(lia)) as R.
  destruct (wrapS_sub 12 offset) as [k E]; [lia|].
  rewrite (wrapS_small 32); unfold inS in *; lia.
Qed.

End ImmSplit.

(** ** Sites *)

Inductive site : Set :=
| SiteCB (nez : bool) (rs1 : Z)
| SiteCJ (call : bool)
| SiteB (op : bop) (rs1 rs2 : Z)
| SiteJ (rd : Z)
| SiteFar.

Definition site_class (st : site) : branch_class :=
  match st with
  | SiteCB _ _ => cb | SiteCJ _ => cj | SiteB _ _ _ => b | SiteJ _ => j | SiteFar => far
  end.

Definition class_len (c : branch_class) : nat :=
  match c with cb | cj => 2 | b | j => 4 | far => 8 end.

Definition cb_opcode (nez : bool) : Z := if nez then COpcode.C_BNEZ else COpcode.C_BEQZ.
Definition cj_opcode (call : bool) : Z := if call then COpcode.C_JAL else COpcode.C_J.

Section Sites.
Context `{Target}.

(** The registers are encodable; c.jal exists on RV32 only. *)
Definition site_wf (st : site) : Prop :=
  match st with
  | SiteCB _ rs1 => IsRegPrime rs1 = true
  | SiteCJ call => call = true -> XLEN = 32
  | SiteB _ rs1 rs2 => inU 5 rs1 /\ inU 5 rs2
  | SiteJ rd => inU 5 rd
  | SiteFar => True
  end.

Definition class_fits (c : branch_class) : Z -> bool :=
  match c with
  | cb => IsCBImm | cj => IsCJImm | b => IsBTypeImm | j => IsJTypeImm | far => far_fits
  end.

Definition cb_word (nez : bool) (rs1 offset : Z) : Z :=
  Z.lor (Z.lor (cb_opcode nez) (Z.shiftl (rs1 - 8) 7)) (CBImm_fields offset).
Definition cj_word (call : bool) (offset : Z) : Z :=
  Z.lor (cj_opcode call) (CJImm_fields offset).
Definition b_word (op : bop) (rs1 rs2 offset : Z) : Z :=
  stype_word (btype_imm_word offset) rs2 rs1 (bop_code op) Opcode.BRANCH.
Definition j_word (rd offset : Z) : Z := utype_word (jtype_imm_word offset) rd Opcode.JAL.
Definition auipc_word (offset : Z) : Z :=
  utype_word (Z.shiftl (field (ImmHi offset) 12 20) 12) FAR_TMP Opcode.AUIPC.
Definition jr_word (offset : Z) : Z :=
  itype_word (ImmLo offset) FAR_TMP Funct3.F3_0 Reg.ZR Opcode.JALR.

(** The bytes of a site at an offset. *)
Definition site_bytes (st : site) (offset : Z) : list Z :=
  match st with
  | SiteCB nez rs1 => le_split 2 (cb_word nez rs1 offset)
  | SiteCJ call => le_split 2 (cj_word call offset)
  | SiteB op rs1 rs2 => le_split 4 (b_word op rs1 rs2 offset)
  | SiteJ rd => le_split 4 (j_word rd offset)
  | SiteFar => le_split 4 (auipc_word offset) ++ le_split 4 (jr_word offset)
  end.

Lemma site_bytes_length st offset : length (site_bytes st offset) = class_len (site_class st).
Proof. by destruct st. Qed.

(** *** Decoding a site *)

Lemma cb_fields nez rs1 offset (w := cb_word nez rs1 offset) :
  IsRegPrime rs1 = true -> IsCBImm offset = true ->
  inU 16 w /\ CInstr.opcode w = cb_opcode nez /\ CInstr.rs1p w = rs1 /\ CInstr.b_imm w = offset /\
  IsCInstruction w = true.
Proof.
  intros Hr Hi. pose proof (proj1 (IsRegPrime_spec rs1) Hr). unfold w, cb_word.
  destruct nez; cbn [cb_opcode]; (split_and!;
    [c_range | c_decode | c_decode | unfold CInstr.b_imm; c_imm DecodeCBImm_fields | c_decode]).
Qed.

Lemma cj_fields call offset (w := cj_word call offset) :
  IsCJImm offset = true ->
  inU 16 w /\ CInstr.opcode w = cj_opcode call /\ CInstr.j_imm w = offset /\
  IsCInstruction w = true.
Proof.
  intros Hi. unfold w, cj_word.
  destruct call; cbn [cj_opcode]; (split_and!;
    [c_range | c_decode | unfold CInstr.j_imm; c_imm DecodeCJImm_fields | c_decode]).
Qed.

Lemma bop_code_range op : inU 3 (bop_code op).
Proof. by destruct op. Qed.

(** *** A site in a buffer *)

Definition holds (buf : list Z) (p : Z) (bs : list Z) : Prop :=
  0 <= p /\ take (length bs) (drop (Z.to_nat p) buf) = bs.

Lemma holds_app buf p l1 l2 :
  holds buf p (l1 ++ l2) -> holds buf p l1 /\ holds buf (p + Z.of_nat (length l1)) l2.
Proof.
  intros [Hp E]. rewrite length_app in E.
  assert (take (length l1) (drop (Z.to_nat p) buf) = l1) as E1.
  { rewrite <- (take_app_length l1 l2) at 2. rewrite <- E, take_take. f_equal. lia. }
  split; [done|]. split; [lia|].
  rewrite <- (drop_app_length l1 l2) at 2. rewrite <- E.
  rewrite skipn_firstn_comm, drop_drop. f_equal; [lia|f_equal; lia].
Qed.

Lemma holds_in_buffer a p bs :
  bs <> [] -> holds (buffer_ a) p bs -> in_buffer (length bs) p a = true.
Proof.
  intros Hne [Hp E]. unfold in_buffer, Size. apply andb_true_iff.
  split; [lia|]. apply Z.leb_le.
  apply (f_equal length) in E. rewrite length_take, length_drop in E.
  destruct bs; [done|]. simpl length in *. lia.
Qed.

Lemma Load_holds n w p a :
  inU (8 * Z.of_nat n) w -> (0 < n)%nat -> holds (buffer_ a) p (le_split n w) ->
  Load n p a = Ok w.
Proof.
  intros Hw Hn Hh. pose proof (holds_in_buffer a p (le_split n w)) as Hb.
  destruct Hh as [Hp E] eqn:Ed. clear Ed. rewrite le_split_length in *.
  unfold Load. rewrite Hb; [|by destruct n; [lia|]|by split; rewrite ?le_split_length].
  rewrite ASSERT_true by done. cbn [rbind]. rewrite E, le_combine_split.
  f_equal. by apply wrapU_small.
Qed.

Lemma Store_holds n p bs v a :
  length bs = n -> (0 < n)%nat -> holds (buffer_ a) p bs ->
  Store n p v a = Ok (set_buffer a (list_inserts (Z.to_nat p) (le_split n v) (buffer_ a))).
Proof.
  intros <- Hn Hh. unfold Store.
  by rewrite holds_in_buffer, ASSERT_true by (by destruct bs; [simpl in *; lia|]).
Qed.

(** *** Patching a site *)

Ltac lor_ac :=
  apply Z.bits_inj'; intros ? _; rewrite ?Z.lor_spec, ?Z.bits_0; btauto.

(** [Write16]/[Write32] of a word in range over an instruction. *)
Lemma Write_holds n p bs w a :
  length bs = n -> (0 < n)%nat -> inU (8 * Z.of_nat n) w -> holds (buffer_ a) p bs ->
  Store n p (wrapU (8 * Z.of_nat n) w) a =
  Ok (set_buffer a (list_inserts (Z.to_nat p) (le_split n w) (buffer_ a))).
Proof. intros. rewrite wrapU_small by done. by eapply Store_holds. Qed.

Lemma UpdateCBOffset_site nez rs1 p old new a :
  IsRegPrime rs1 = true -> IsCBImm old = true -> IsCBImm new = true ->
  holds (buffer_ a) p (site_bytes (SiteCB nez rs1) old) ->
  UpdateCBOffset p new a = Ok (old, set_buffer a
    (list_inserts (Z.to_nat p) (site_bytes (SiteCB nez rs1) new) (buffer_ a))).
Proof.
  intros Hr Ho Hn Hh. cbn [site_bytes] in *.
  destruct (cb_fields nez rs1 old Hr Ho) as (Rw & Eop & Er & Ei & _).
  destruct (cb_fields nez rs1 new Hr Hn) as (Rn & _).
  unfold UpdateCBOffset, Read16. rewrite (Load_holds 2 (cb_word nez rs1 old)) by (done || lia).
  cbn [rbind]. rewrite Eop, Er, Ei, Hn. rewrite ASSERT_true by (by destruct nez). cbn [rbind negb].
  rewrite EncodeCRs1p_ok, EncodeCBImm_ok by done. cbn [rbind]. unfold Write16.
  by rewrite (Write_holds 2 p (le_split 2 (cb_word nez rs1 old))) by (done || lia).
Qed.

Lemma UpdateCJOffset_site call p old new a :
  IsCJImm old = true -> IsCJImm new = true ->
  holds (buffer_ a) p (site_bytes (SiteCJ call) old) ->
  UpdateCJOffset p new a = Ok (old, set_buffer a
    (list_inserts (Z.to_nat p) (site_bytes (SiteCJ call) new) (buffer_ a))).
Proof.
  intros Ho Hn Hh. cbn [site_bytes] in *.
  destruct (cj_fields call old Ho) as (Rw & Eop & Ei & _).
  destruct (cj_fields call new Hn) as (Rn & _).
  unfold UpdateCJOffset, Read16. rewrite (Load_holds 2 (cj_word call old)) by (done || lia).
  cbn [rbind]. rewrite Eop, Ei, Hn. rewrite ASSERT_true by (by destruct call). cbn [rbind negb].
  rewrite EncodeCJImm_ok by done. cbn [rbind]. unfold Write16.
  by rewrite (Write_holds 2 p (le_split 2 (cj_word call old))) by (done || lia).
Qed.

Lemma UpdateBOffset_site op rs1 rs2 p old new a :
  inU 5 rs1 -> inU 5 rs2 -> IsBTypeImm old = true -> IsBTypeImm new = true ->
  holds (buffer_ a) p (site_bytes (SiteB op rs1 rs2) old) ->
  UpdateBOffset p new a = Ok (old, set_buffer a
    (list_inserts (Z.to_nat p) (site_bytes (SiteB op rs1 rs2) new) (buffer_ a))).
Proof.
  intros H1 H2 Ho Hn Hh. cbn [site_bytes] in *. pose proof (bop_code_range op) as Hf.
  destruct (btype_fields old rs2 rs1 (bop_code op) Opcode.BRANCH)
    as (Rw & Eop & Ef & E1 & E2 & Ei); [done..|].
  destruct (btype_fields new rs2 rs1 (bop_code op) Opcode.BRANCH) as (Rn & _); [done..|].
  unfold UpdateBOffset, Read32. rewrite (Load_holds 4 (b_word op rs1 rs2 old)) by (done || lia).
  cbn [rbind]. unfold b_word. rewrite Eop, Ef, E1, E2, Ei, Hn, ASSERT_true by done.
  cbn [rbind negb].
  rewrite EncodeRs2_ok, EncodeRs1_ok, EncodeFunct3_ok, EncodeOpcode_ok, EncodeBTypeImm_ok by done.
  cbn [rbind].
  replace (Z.lor _ (btype_imm_word new)) with (b_word op rs1 rs2 new)
    by (unfold b_word, stype_word; lor_ac).
  unfold Write32.
  by rewrite (Write_holds 4 p (le_split 4 (b_word op rs1 rs2 old))) by (done || lia).
Qed.

Lemma UpdateJOffset_site rd p old new a :
  inU 5 rd -> IsJTypeImm old = true -> IsJTypeImm new = true ->
  holds (buffer_ a) p (site_bytes (SiteJ rd) old) ->
  UpdateJOffset p new a = Ok (old, set_buffer a
    (list_inserts (Z.to_nat p) (site_bytes (SiteJ rd) new) (buffer_ a))).
Proof.
  intros Hd Ho Hn Hh. cbn [site_bytes] in *.
  destruct (jtype_fields old rd Opcode.JAL) as (Rw & Eop & Ed & Ei); [done..|].
  destruct (jtype_fields new rd Opcode.JAL) as (Rn & _); [done..|].
  unfold UpdateJOffset, Read32. rewrite (Load_holds 4 (j_word rd old)) by (done || lia).
  cbn [rbind]. unfold j_word. rewrite Eop, Ed, Ei, Hn, ASSERT_true by done. cbn [rbind negb].
  rewrite EncodeRd_ok, EncodeOpcode_ok, EncodeJTypeImm_ok by done. cbn [rbind].
  replace (Z.lor _ (jtype_imm_word new)) with (j_word rd new)
    by (unfold j_word, utype_word; lor_ac).
  unfold Write32. by rewrite (Write_holds 4 p (le_split 4 (j_word rd old))) by (done || lia).
Qed.

Lemma in_buffer_spec n p a :
  in_buffer n p a = true <-> 0 <= p /\ p + Z.of_nat n <= Z.of_nat (length (buffer_ a)).
Proof. unfold in_buffer, Size. rewrite andb_true_iff, !Z.leb_le. lia. Qed.

Lemma Store_in_buffer n p v a :
  in_buffer n p a = true ->
  Store n p v a = Ok (set_buffer a (list_inserts (Z.to_nat p) (le_split n v) (buffer_ a))).
Proof. intros Hb. unfold Store. by rewrite Hb, ASSERT_true. Qed.

Lemma far_words offset :
  inU 32 (auipc_word offset) /\ Instr.opcode (auipc_word offset) = Opcode.AUIPC /\
  Instr.rd (auipc_word offset) = FAR_TMP /\ Instr.utype_imm (auipc_word offset) = ImmHi offset /\
  inU 32 (jr_word offset) /\ Instr.opcode (jr_word offset) = Opcode.JALR /\
  Instr.rd (jr_word offset) = Reg.ZR /\ Instr.funct3 (jr_word offset) = Funct3.F3_0 /\
  Instr.rs1 (jr_word offset) = FAR_TMP /\ Instr.itype_imm (jr_word offset) = ImmLo offset.
Proof.
  destruct (ImmHi_fits offset) as [Hu Hw].
  destruct (utype_fields (ImmHi offset) FAR_TMP Opcode.AUIPC) as (? & ? & ? & ?); [done..|].
  destruct (itype_fields (ImmLo offset) FAR_TMP Funct3.F3_0 Reg.ZR Opcode.JALR)
    as (? & ? & ? & ? & ? & ? & _); [apply ImmLo_fits|done..|].
  split_and!; done.
Qed.

Lemma UpdateFarOffset_site p old new a :
  far_fits old = true -> holds (buffer_ a) p (site_bytes SiteFar old) ->
  UpdateFarOffset p new a = Ok (old, set_buffer a
    (list_inserts (Z.to_nat p) (site_bytes SiteFar new) (buffer_ a))).
Proof.
  intros Ho Hh. pose proof Hh as Hb. apply holds_in_buffer in Hb; [|done].
  rewrite site_bytes_length in Hb. cbn [site_class class_len] in Hb.
  apply in_buffer_spec in Hb as [Hp Hb].
  cbn [site_bytes] in *. apply holds_app in Hh as [Hh1 Hh2]. rewrite le_split_length in Hh2.
  destruct (far_words old) as (R1 & E1 & E2 & E3 & R2 & E4 & E5 & E6 & E7 & E8).
  destruct (far_words new) as (R1' & _ & _ & _ & R2' & _).
  unfold UpdateFarOffset, Read32. rewrite (Load_holds 4 (auipc_word old)) by (done || lia).
  cbn [rbind]. rewrite E1, E2, !ASSERT_true by done. cbn [rbind].
  rewrite (Load_holds 4 (jr_word old)) by (done || lia).
  cbn [rbind]. rewrite E4, E5, E6, E7, !ASSERT_true by done. cbn [rbind].
  destruct (ImmHi_fits new) as [Hu Hw]. rewrite Hu. cbn [negb].
  rewrite EncodeUTypeImm_ok, EncodeRd_ok, EncodeOpcode_ok by done. cbn [rbind].
  rewrite EncodeITypeImm_ok, EncodeRs1_ok, EncodeFunct3_ok, EncodeRd_ok, EncodeOpcode_ok
    by (done || apply ImmLo_fits). cbn [rbind].
  change (Z.lor (Z.lor (Z.shiftl (field (ImmHi new) 12 20) 12) (Z.shiftl FAR_TMP 7))
    (Z.shiftl Opcode.AUIPC 0)) with (auipc_word new).
  replace (Z.lor _ (Z.shiftl Opcode.JALR 0)) with (jr_word new)
    by (unfold jr_word, itype_word; lor_ac).
  unfold Write32. rewrite (wrapU_small 32 (auipc_word new)), (wrapU_small 32 (jr_word new)) by done.
  rewrite Store_in_buffer by (apply in_buffer_spec; lia). cbn [rbind].
  rewrite Store_in_buffer
    by (apply in_buffer_spec; cbn [buffer_ set_buffer]; rewrite length_inserts; lia).
  cbn [rbind]. rewrite E3, E8, (ImmSplit old) by done. rewrite list_inserts_app_l, le_split_length.
  unfold set_buffer; cbn [buffer_ extensions_ far_branch_level_]. do 4 f_equal. lia.
Qed.

(** Reading a site back and writing it at its new offset. *)
Lemma UpdateOffset_site st p old new a :
  site_wf st -> class_fits (site_class st) old = true -> class_fits (site_class st) new = true ->
  holds (buffer_ a) p (site_bytes st old) ->
  UpdateOffset (site_class st) p new a =
  Ok (old, set_buffer a (list_inserts (Z.to_nat p) (site_bytes st new) (buffer_ a))).
Proof.
  destruct st; cbn [site_class UpdateOffset site_wf class_fits]; intros Hwf Ho Hn Hh.
  - by apply UpdateCBOffset_site.
  - by apply UpdateCJOffset_site.
  - destruct Hwf. by apply UpdateBOffset_site.
  - by apply UpdateJOffset_site.
  - by apply UpdateFarOffset_site.
Qed.

End Sites.
