(* ===== verification/AsmLabels.v ===== *)
(** * AsmLabels: pending branches and [Bind]

    What the lists of a [Label] mean: the head of each list is the newest
    pending site of its class, and the offset field of a site leads to the
    next one.  Emission extends the lists; [Bind] walks them and turns every
    pending site into a branch to the bound position, touching nothing
    else. *)

From stdpp Require Import base numbers list gmap.
From Stdlib Require Import Lia.
From S2P Require Import Prelude Constants Encoding CEncoding AsmBuffer MicroAsm AsmBranch SimState.
From S2P Require Import SimInt SimAtomic SimFloat SimCompressed Simulator Isa IntSpec BitSpec.
From S2P Require Import AsmExec AsmFormats AsmCFormats RefineOp RefineMem AsmSites.

#[local] Open Scope Z_scope.
#[local] Open Scope res_scope.

(** ** Windows of the buffer *)

(** The windows [[p, p + n)] and [[q, q + m)] do not overlap. *)
Definition apart (p : Z) (n : nat) (q : Z) (m : nat) : Prop :=
  p + Z.of_nat n <= q \/ q + Z.of_nat m <= p.

Lemma holds_lookup buf p bs :
  holds buf p bs <->
  0 <= p /\ forall i x, bs !! i = Some x -> buf !! (Z.to_nat p + i)%nat = Some x.
Proof.
  unfold holds. split; intros [Hp E]; (split; [done|]).
  - intros i x Hi. rewrite <- E in Hi. apply lookup_take_Some in Hi as [Hi _].
    by rewrite lookup_drop in Hi.
  - apply list_eq. intros i. destruct (bs !! i) eqn:Ei.
    + apply lookup_take_Some. split; [by rewrite lookup_drop; apply E|by eapply lookup_lt_Some].
    + apply lookup_take_None. right. by apply lookup_ge_None.
Qed.

Lemma holds_inserts_apart buf p bs q bs' :
  holds buf q bs' -> 0 <= p -> apart p (length bs) q (length bs') ->
  holds (list_inserts (Z.to_nat p) bs buf) q bs'.
Proof.
  rewrite !holds_lookup. intros [Hq E] Hp Ha. split; [done|]. intros i x Hi.
  pose proof (lookup_lt_Some _ _ _ Hi). destruct Ha.
  - rewrite list_lookup_inserts_ge by lia. by apply E.
  - rewrite list_lookup_inserts_lt by lia. by apply E.
Qed.

Lemma holds_inserts buf p bs :
  0 <= p -> p + Z.of_nat (length bs) <= Z.of_nat (length buf) ->
  holds (list_inserts (Z.to_nat p) bs buf) p bs.
Proof.
  intros Hp Hl. apply holds_lookup. split; [done|]. intros i x Hi.
  pose proof (lookup_lt_Some _ _ _ Hi).
  rewrite list_lookup_inserts by lia. rewrite <- Hi. f_equal. lia.
Qed.

Lemma holds_app_l buf tl p bs : holds buf p bs -> holds (buf ++ tl) p bs.
Proof.
  rewrite !holds_lookup. intros [Hp E]. split; [done|]. intros i x Hi.
  apply lookup_app_l_Some. by apply E.
Qed.

Lemma holds_end buf bs : holds (buf ++ bs) (Z.of_nat (length buf)) bs.
Proof.
  apply holds_lookup. split; [lia|]. intros i x Hi. rewrite Nat2Z.id.
  by rewrite lookup_app_r, Nat.add_comm, Nat.add_sub by lia.
Qed.

Lemma holds_bound buf p bs :
  bs <> [] -> holds buf p bs -> p + Z.of_nat (length bs) <= Z.of_nat (length buf).
Proof.
  intros Hne Hh. pose proof (holds_in_buffer (mkAsm buf 0 0) p bs Hne Hh) as Hb.
  apply in_buffer_spec in Hb as [_ Hb]. exact Hb.
Qed.

(** ** Chains *)

Abbreviation sites := (list (Z * site)).

Definition head_of (l : sites) : Z := match l with [] => -1 | (p, _) :: _ => p end.
(** The offset a site holds while it is pending. *)
Definition link_offset (p : Z) (rest : sites) : Z :=
  match rest with [] => 0 | (q, _) :: _ => p - q end.

Section Chains.
Context `{Target}.

Definition site_len (st : site) : nat := class_len (site_class st).

(** [chained c buf l]: the pending sites [l] of class [c], newest first. *)
Fixpoint chained (c : branch_class) (buf : list Z) (l : sites) : Prop :=
  match l with
  | [] => True
  | (p, st) :: rest =>
      site_class st = c /\ site_wf st /\ class_fits c (link_offset p rest) = true /\
      holds buf p (site_bytes st (link_offset p rest)) /\
      (rest <> [] -> head_of rest + Z.of_nat (class_len c) <= p) /\
      chained c buf rest
  end.

(** Every site of [l] branches to [target]. *)
Definition resolved (target : Z) (buf : list Z) (l : sites) : Prop :=
  Forall (fun ps => holds buf ps.1 (site_bytes ps.2 (target - ps.1))) l.

(** [[q, q + n)] is outside every site of [l]. *)
Definition outside (l : sites) (q : Z) (n : nat) : Prop :=
  Forall (fun ps => apart ps.1 (site_len ps.2) q n) l.

(** What [Bind] writes. *)
Definition patch (target : Z) (l : sites) (buf : list Z) : list Z :=
  foldl (fun buf ps => list_inserts (Z.to_nat ps.1) (site_bytes ps.2 (target - ps.1)) buf) buf l.

Lemma length_patch target l buf : length (patch target l buf) = length buf.
Proof.
  revert buf. induction l as [|[p st] l IH]; intros buf; [done|]. simpl.
  by rewrite IH, length_inserts.
Qed.

Lemma chained_positive c buf l : chained c buf l -> Forall (fun ps => 0 <= ps.1) l.
Proof.
  induction l as [|[p st] l IH]; [done|]. intros (_ & _ & _ & [Hp _] & _ & Hc). eauto.
Qed.

(** Older sites lie below newer ones. *)
Lemma chained_below c buf p st l :
  chained c buf ((p, st) :: l) ->
  Forall (fun ps => ps.1 + Z.of_nat (site_len ps.2) <= p) l.
Proof.
  revert p st. induction l as [|[q st'] l IH]; intros p st Hc; [done|].
  destruct Hc as (_ & _ & _ & _ & Hq & Hc). specialize (Hq ltac:(done)). simpl in Hq.
  pose proof (IH _ _ Hc) as Hl. destruct Hc as (Hcl & _). constructor.
  - simpl. unfold site_len. by rewrite Hcl.
  - eapply Forall_impl; [exact Hl|]. intros [r st''] Hr. simpl in *. lia.
Qed.

(** Everything outside of the sites of [l] is as before. *)
Definition keeps (l : sites) (buf buf' : list Z) : Prop :=
  forall q bs, outside l q (length bs) -> holds buf q bs -> holds buf' q bs.

Definition all_apart (l l' : sites) : Prop :=
  Forall (fun ps => outside l ps.1 (site_len ps.2)) l'.

Lemma chained_keeps c L buf buf' l :
  keeps L buf buf' -> all_apart L l -> chained c buf l -> chained c buf' l.
Proof.
  intros Hk. induction l as [|[p st] l IH]; intros Ha Hc; [done|].
  inversion_clear Ha as [|? ? Hp Hl]. destruct Hc as (? & ? & ? & Hh & ? & Hc).
  simpl. split_and!; auto. apply Hk; [by rewrite site_bytes_length|done].
Qed.

Lemma resolved_keeps target L buf buf' l :
  keeps L buf buf' -> all_apart L l -> resolved target buf l -> resolved target buf' l.
Proof.
  intros Hk Ha Hr. eapply Forall_impl; [exact (proj2 (Forall_and _ _) (conj Ha Hr))|].
  intros [p st] [Hp Hh]. simpl in *. apply Hk; [by rewrite site_bytes_length|done].
Qed.

Lemma keeps_inserts p st target l buf :
  0 <= p -> keeps ((p, st) :: l) buf (list_inserts (Z.to_nat p) (site_bytes st target) buf).
Proof.
  intros Hp q bs Ho Hh. inversion_clear Ho as [|? ? Ha _]. simpl in Ha.
  apply holds_inserts_apart; [done|done|]. by rewrite site_bytes_length.
Qed.

Lemma patch_keeps target l buf : Forall (fun ps => 0 <= ps.1) l -> keeps l buf (patch target l buf).
Proof.
  revert buf. induction l as [|[p st] l IH]; intros buf Hp q bs Ho Hh; [done|].
  inversion_clear Hp as [|? ? Hp0 Hp']. simpl. apply IH; [done|by inversion Ho|].
  by apply (keeps_inserts p st (target - p) l buf Hp0 q bs).
Qed.

(** Older sites are outside the window of a newer one. *)
Lemma chained_apart c buf p st l :
  chained c buf ((p, st) :: l) -> all_apart [(p, st)] l /\ outside l p (site_len st).
Proof.
  intros Hc. pose proof (chained_below _ _ _ _ _ Hc) as Hb. split.
  - eapply Forall_impl; [exact Hb|]. intros [q st'] Hq. constructor; [|done]. right. exact Hq.
  - eapply Forall_impl; [exact Hb|]. intros [q st'] Hq. left. exact Hq.
Qed.

Lemma site_bytes_nonempty st o : site_bytes st o <> [].
Proof. by destruct st. Qed.

Lemma patch_resolved c target l buf :
  chained c buf l -> resolved target (patch target l buf) l.
Proof.
  revert buf. induction l as [|[p st] l IH]; intros buf Hc; [by constructor|].
  pose proof (chained_apart _ _ _ _ _ Hc) as [Ha Ho]. pose proof (chained_positive _ _ _ Hc) as Hpos.
  inversion_clear Hpos as [|? ? Hp Hpos']. simpl in Hp.
  destruct Hc as (? & ? & ? & Hh & ? & Hc). pose proof (holds_bound _ _ _ (site_bytes_nonempty _ _) Hh) as Hb.
  rewrite site_bytes_length in Hb. set (buf1 := list_inserts (Z.to_nat p) (site_bytes st (target - p)) buf).
  constructor.
  - simpl. apply patch_keeps; [done|by rewrite site_bytes_length|].
    apply holds_inserts; [done|by rewrite site_bytes_length].
  - apply IH. eapply chained_keeps; [|exact Ha|exact Hc]. by apply keeps_inserts.
Qed.

Lemma chained_length c buf l :
  chained c buf l -> l <> [] -> Z.of_nat (length l) <= head_of l + 1.
Proof.
  induction l as [|[p st] l IH]; intros Hc Hne; [done|]. simpl.
  destruct Hc as (_ & _ & _ & [Hp _] & Hq & Hc). destruct l as [|x l]; [simpl; lia|].
  specialize (IH Hc ltac:(done)). specialize (Hq ltac:(done)).
  destruct c; cbn [class_len] in Hq; lia.
Qed.

(** ** The loop of BIND *)

(** The positions of a buffer are multiples of the instruction parcel. *)
Definition parcel (a : Asm) : Z := if Supports a RV_C then 2 else 4.
Definition aligned_sites (a : Asm) (l : sites) : Prop :=
  Forall (fun ps => IsAligned ps.1 (parcel a) = true) l.

Lemma IsAligned_sub a x y :
  IsAligned x (parcel a) = true -> IsAligned y (parcel a) = true ->
  IsAligned (x - y) (parcel a) = true.
Proof.
  assert (exists k, 0 <= k /\ parcel a = 2 ^ k) as (k & Hk & ->).
  { unfold parcel. destruct (Supports a RV_C); [by exists 1|by exists 2]. }
  rewrite !IsAligned_spec by done. intros Hx Hy. by rewrite Zminus_mod, Hx, Hy.
Qed.

Lemma BIND_loop_patch c target l fuel a :
  chained c (buffer_ a) l -> l <> [] -> (length l <= fuel)%nat ->
  Forall (fun ps => class_fits c (target - ps.1) = true) l ->
  aligned_sites a l -> IsAligned target (parcel a) = true ->
  BIND_loop fuel c target (head_of l) a = Ok (set_buffer a (patch target l (buffer_ a))).
Proof.
  revert fuel a. induction l as [|[p st] l IH]; intros fuel a Hc Hne Hf Hfit Hal Ht; [done|].
  pose proof (chained_apart _ _ _ _ _ Hc) as [Ha Ho].
  destruct Hc as (Hcl & Hwf & Hlo & Hh & Hq & Hc). pose proof Hh as [Hp _].
  inversion_clear Hfit as [|? ? Hn Hfit']. inversion_clear Hal as [|? ? Hap Hal'].
  destruct fuel as [|fuel]; [simpl in Hf; lia|]. simpl head_of in *. cbn [BIND_loop].
  destruct (Z.leb_spec 0 p); [|lia]. simpl in Hap, Hn.
  change (if Supports a RV_C then 2 else 4) with (parcel a).
  rewrite !ASSERT_true by (done || by apply IsAligned_sub). cbn [rbind].
  subst c. rewrite (UpdateOffset_site st p (link_offset p l)) by done. cbn [rbind fst snd].
  destruct l as [|[q st'] l]; [done|]. simpl link_offset.
  specialize (Hq ltac:(done)). simpl in Hq.
  destruct (Z.eqb_spec (p - q) 0); [destruct (site_class st); simpl in Hq; lia|].
  replace (p - (p - q)) with (head_of ((q, st') :: l)) by (simpl; lia).
  rewrite IH; [done| |done|simpl in *; lia|done|done|done].
  eapply chained_keeps; [|exact Ha|exact Hc]. by apply keeps_inserts.
Qed.

Lemma BIND_patch c target l a L :
  chained c (buffer_ a) L -> unresolved c l = head_of L ->
  Forall (fun ps => class_fits c (target - ps.1) = true) L ->
  aligned_sites a L -> IsAligned target (parcel a) = true ->
  BIND c target (l, a) =
  Ok (set_unresolved c (-1) l, set_buffer a (patch target L (buffer_ a))).
Proof.
  intros Hc Hu Hfit Hal Ht. unfold BIND. rewrite Hu. destruct L as [|[p st] L].
  - by destruct a.
  - rewrite BIND_loop_patch; try done.
    pose proof (chained_length _ _ _ Hc ltac:(done)) as Hl. destruct Hc as (_ & _ & _ & Hh & _).
    apply holds_bound in Hh; [|apply site_bytes_nonempty]. simpl head_of in Hl.
    rewrite site_bytes_length in Hh. lia.
Qed.

(** ** A label with its pending branches *)

Record linked (l : Label) (a : Asm) (ss : branch_class -> sites) : Prop := {
  linked_unbound : position_ l = -1;
  linked_heads : forall c, unresolved c l = head_of (ss c);
  linked_chains : forall c, chained c (buffer_ a) (ss c);
  linked_apart : forall c c', c <> c' -> all_apart (ss c) (ss c');
  linked_aligned : forall c, aligned_sites a (ss c)
}.

Lemma unresolved_set_same c v l : unresolved c (set_unresolved c v l) = v.
Proof. by destruct c, l. Qed.
Lemma unresolved_set_other c c' v l :
  c <> c' -> unresolved c (set_unresolved c' v l) = unresolved c l.
Proof. by destruct c, c', l. Qed.
Lemma position_set_unresolved c v l : position_ (set_unresolved c v l) = position_ l.
Proof. by destruct c, l. Qed.

(** [Bind] is BIND on each class in turn. *)
Definition bind_classes (target : Z) (cs : list branch_class) (la : Label * Asm)
    : Res (Label * Asm) :=
  foldr (fun c k la => let* la := BIND c target la in k la) (fun la => Ok la) cs la.

Lemma bind_classes_resolves target ss cs l a :
  NoDup cs ->
  (forall c, c ∈ cs -> unresolved c l = head_of (ss c)) ->
  (forall c, c ∈ cs -> chained c (buffer_ a) (ss c)) ->
  (forall c c', c <> c' -> all_apart (ss c) (ss c')) ->
  (forall c, aligned_sites a (ss c)) -> IsAligned target (parcel a) = true ->
  (forall c, Forall (fun ps => class_fits c (target - ps.1) = true) (ss c)) ->
  exists l' buf',
    bind_classes target cs (l, a) = Ok (l', set_buffer a buf') /\
    length buf' = length (buffer_ a) /\ position_ l' = position_ l /\
    (forall c, unresolved c l' = if decide (c ∈ cs) then -1 else unresolved c l) /\
    (forall c, c ∈ cs -> resolved target buf' (ss c)) /\
    (forall q bs, (forall c, c ∈ cs -> outside (ss c) q (length bs)) ->
       holds (buffer_ a) q bs -> holds buf' q bs).
Proof.
  intros Hnd Hu Hc Hap Hal Ht Hfit. revert l a Hu Hc Hal Ht.
  induction Hnd as [|c cs Hnin Hnd IH]; intros l a Hu Hc Hal Ht.
  { exists l, (buffer_ a). split_and!; try done; [by destruct a|].
    intros c Hin. by apply elem_of_nil in Hin. }
  assert (c ∈ c :: cs) as Hin by constructor.
  pose proof (patch_keeps target (ss c) (buffer_ a) (chained_positive _ _ _ (Hc c Hin))) as Hk.
  pose proof (patch_resolved c target (ss c) (buffer_ a) (Hc c Hin)) as Hr.
  pose proof (length_patch target (ss c) (buffer_ a)) as Hlen.
  cbn [bind_classes foldr]. rewrite (BIND_patch c target l a (ss c)) by auto. cbn [rbind].
  set (buf1 := patch target (ss c) (buffer_ a)) in *.
  assert (forall c', c' ∈ cs -> c <> c') as Hne by (intros c' Hc' ->; done).
  destruct (IH (set_unresolved c (-1) l) (set_buffer a buf1))
    as (l' & buf' & E & Hl & Hp & Hu' & Hr' & Hk').
  - intros c' Hc'. rewrite unresolved_set_other by (by apply not_eq_sym, Hne).
    apply Hu. by constructor.
  - intros c' Hc'. eapply chained_keeps; [exact Hk|by apply Hap, Hne|].
    apply Hc. by constructor.
  - done.
  - done.
  - exists l', buf'. split_and!.
    + exact E.
    + by rewrite Hl.
    + by rewrite Hp, position_set_unresolved.
    + intros c'. rewrite Hu'. destruct (decide (c' = c)) as [->|Hcc].
      * rewrite (decide_True (P := c ∈ c :: cs)) by done.
        rewrite decide_False, unresolved_set_same by done. done.
      * rewrite unresolved_set_other by done.
        destruct (decide (c' ∈ cs)); destruct (decide (c' ∈ c :: cs)) as [Hi|Hi]; try done.
        -- destruct Hi. by constructor.
        -- apply elem_of_cons in Hi as [|]; done.
    + intros c' [->|Hc']%elem_of_cons; [|by apply Hr'].
      apply Forall_forall. intros ps Hps. apply Hk'.
      * intros c' Hc'. rewrite site_bytes_length.
        pose proof (Hap c' c (not_eq_sym (Hne c' Hc'))) as Ha. unfold all_apart in Ha.
        rewrite Forall_forall in Ha. by apply Ha.
      * unfold resolved in Hr. rewrite Forall_forall in Hr. by apply Hr.
    + intros q bs Ho Hh. apply Hk'; [|apply Hk; [by apply Ho|done]].
      intros c' Hc'. apply Ho. by constructor.
Qed.

Lemma Bind_classes label a :
  Bind label a =
  (ASSERT (negb (IsBound label)) ;;
   let* la := bind_classes (Position a) [cb; cj; b; j; far] (label, a) in
   let* l := BindTo (Position a) la.1 in Ok (l, la.2)).
Proof.
  unfold Bind, bind_classes. cbn [foldr].
  repeat (rewrite ?rbind_rbind; apply rbind_ext; intros ?). done.
Qed.

Lemma all_classes c : c ∈ [cb; cj; b; j; far].
Proof. destruct c; repeat constructor. Qed.

(** Binding a label: it is bound to the current position with no branch left
    pending, every branch that was pending now leads there, and no other byte
    of the buffer has changed. *)
Definition bound_to (l : Label) (a : Asm) (ss : branch_class -> sites) (l' : Label) (a' : Asm) : Prop :=
  position_ l' = Position a /\ IsLinked l' = false /\
  extensions_ a' = extensions_ a /\ far_branch_level_ a' = far_branch_level_ a /\
  length (buffer_ a') = length (buffer_ a) /\
  (forall c, resolved (Position a) (buffer_ a') (ss c)) /\
  (forall q bs, (forall c, outside (ss c) q (length bs)) ->
     holds (buffer_ a) q bs -> holds (buffer_ a') q bs).

Lemma Bind_linked l a ss :
  linked l a ss -> IsAligned (Position a) (parcel a) = true -> Position a < 2 ^ 31 ->
  (forall c, Forall (fun ps => class_fits c (Position a - ps.1) = true) (ss c)) ->
  exists l' a', Bind l a = Ok (l', a') /\ bound_to l a ss l' a'.
Proof.
  intros Hl Ht Hsz Hfit. rewrite Bind_classes.
  unfold IsBound. rewrite (linked_unbound _ _ _ Hl), ASSERT_true by done. cbn [rbind].
  destruct (bind_classes_resolves (Position a) ss [cb; cj; b; j; far] l a)
    as (l' & buf' & E & Hlen & Hp & Hu & Hr & Hk);
    [by apply (bool_decide_unpack _)|by intros; apply Hl|by intros; apply Hl|apply Hl|apply Hl
    |done|done|].
  rewrite E. cbn [rbind fst snd].
  assert (forall c, unresolved c l' = -1) as Hu'.
  { intros c. rewrite Hu. by rewrite decide_True by apply all_classes. }
  assert (0 <= Position a) by (unfold Position, Size; lia).
  destruct l' as [p ucb ucj ub uj uf]. pose proof (Hu' cb). pose proof (Hu' cj).
  pose proof (Hu' b). pose proof (Hu' j). pose proof (Hu' far). simpl in *. subst.
  rewrite (linked_unbound _ _ _ Hl). unfold BindTo, IsBound. cbn [position_].
  rewrite (wrapS_small 32 (Position a)) by (unfold inS; lia).
  rewrite !ASSERT_true by (try done; apply negb_true_iff, Z.eqb_neq; lia). cbn [rbind].
  eexists _, _. split; [done|]. unfold bound_to. cbn [position_ buffer_ set_buffer extensions_ far_branch_level_].
  split_and!; try done; auto using all_classes.
Qed.

(** ** Emitting a branch to an unbound label *)

Lemma linked_new a : linked new_Label a (fun _ => []).
Proof. by split; try (intros []); constructor. Qed.

Lemma chained_app c buf tl l : chained c buf l -> chained c (buf ++ tl) l.
Proof.
  induction l as [|[p st] l IH]; [done|]. intros (? & ? & ? & ? & ? & ?). simpl.
  split_and!; auto. by apply holds_app_l.
Qed.

(** Code emitted after them leaves the pending branches alone. *)
Lemma linked_app l a ss tl : linked l a ss -> linked l (set_buffer a (buffer_ a ++ tl)) ss.
Proof. intros []. split; try done. intros c. by apply chained_app. Qed.

Definition add_site (ss : branch_class -> sites) (p : Z) (st : site) : branch_class -> sites :=
  fun c => if decide (c = site_class st) then (p, st) :: ss c else ss c.

Lemma chained_inside c buf l :
  chained c buf l ->
  Forall (fun ps => ps.1 + Z.of_nat (site_len ps.2) <= Z.of_nat (length buf)) l.
Proof.
  induction l as [|[p st] l IH]; [done|]. intros (_ & _ & _ & Hh & _ & Hc).
  constructor; [|by apply IH]. apply holds_bound in Hh; [|apply site_bytes_nonempty].
  by rewrite site_bytes_length in Hh.
Qed.

Lemma class_len_pos c : (0 < class_len c)%nat.
Proof. destruct c; simpl; lia. Qed.

Lemma head_below c buf l :
  chained c buf l -> head_of l + Z.of_nat (class_len c) <= Z.of_nat (length buf) \/ l = [].
Proof.
  destruct l as [|[p st] l]; [by right|]. intros Hc. left. pose proof (chained_inside _ _ _ Hc) as Hi.
  inversion_clear Hi as [|? ? Hp _]. destruct Hc as (<- & _). exact Hp.
Qed.

Lemma link_spec l a ss c :
  linked l a ss -> Position a < 2 ^ 31 ->
  link c (Position a) l =
  Ok (link_offset (Position a) (ss c), set_unresolved c (Position a) l).
Proof.
  intros Hl Hp. unfold link. rewrite (linked_heads _ _ _ Hl). unfold Position, Size in *.
  rewrite (wrapS_small 32) by (unfold inS; lia).
  pose proof (class_len_pos c). pose proof (linked_chains _ _ _ Hl c) as Hc.
  pose proof (chained_positive _ _ _ Hc) as Hpos.
  destruct (head_below c (buffer_ a) (ss c) Hc) as [Hb|E].
  - rewrite ASSERT_true by (apply Z.ltb_lt; lia). cbn [rbind].
    destruct (ss c) as [|[q st] rest]; [done|]. inversion_clear Hpos as [|? ? Hq _]. simpl in *.
    destruct (Z.eqb_spec q (-1)); [lia|]. by rewrite ASSERT_true by (apply Z.ltb_lt; lia).
  - rewrite E. simpl. by rewrite ASSERT_true by (apply Z.ltb_lt; lia).
Qed.

Lemma outside_end c buf l n : chained c buf l -> outside l (Z.of_nat (length buf)) n.
Proof.
  intros Hc. eapply Forall_impl; [exact (chained_inside _ _ _ Hc)|]. intros ps Hp. left. exact Hp.
Qed.

Lemma linked_add l a ss st :
  linked l a ss -> site_wf st -> IsAligned (Position a) (parcel a) = true ->
  class_fits (site_class st) (link_offset (Position a) (ss (site_class st))) = true ->
  linked (set_unresolved (site_class st) (Position a) l)
    (set_buffer a (buffer_ a ++
       site_bytes st (link_offset (Position a) (ss (site_class st)))))
    (add_site ss (Position a) st).
Proof.
  intros Hl Hwf Hal Hf. pose proof (linked_app l a ss
    (site_bytes st (link_offset (Position a) (ss (site_class st)))) Hl) as Hl'.
  split; unfold add_site.
  - rewrite position_set_unresolved. apply Hl.
  - intros c. destruct (decide (c = site_class st)) as [->|Hne].
    + apply unresolved_set_same.
    + rewrite unresolved_set_other by done. apply Hl.
  - intros c. destruct (decide (c = site_class st)) as [->|Hne]; [|apply Hl'].
    simpl. split_and!; try done; [apply holds_end| |apply Hl'].
    intros Hne. pose proof (linked_chains _ _ _ Hl (site_class st)) as Hc.
    by destruct (head_below _ _ _ Hc).
  - intros c c' Hcc. pose proof (linked_apart _ _ _ Hl c c' Hcc) as Ha.
    destruct (decide (c = site_class st)) as [->|Hne], (decide (c' = site_class st)) as [->|Hne'];
      try done.
    + eapply Forall_impl; [exact (proj2 (Forall_and _ _)
        (conj Ha (chained_inside _ _ _ (linked_chains _ _ _ Hl c'))))|].
      intros ps [Ho Hi]. constructor; [right; exact Hi|exact Ho].
    + constructor; [|exact Ha]. apply (outside_end c), Hl.
  - intros c. pose proof (linked_aligned _ _ _ Hl c) as Ha.
    destruct (decide (c = site_class st)); [by constructor|done].
Qed.

End Chains.
