(* ===== verification/AsmLink.v ===== *)
(** * AsmLink: branches and jumps to unbound labels

    [EmitBranch], [EmitJump], [EmitCBranch] and [EmitCJump] on a label that is
    not bound yet append one pending site, after the inverted branch that a
    far-branch level asks for, and put it at the head of the label's list. *)

From stdpp Require Import base numbers list gmap.
From Stdlib Require Import Lia.
From S2P Require Import Prelude Constants Encoding CEncoding AsmBuffer MicroAsm AsmBranch SimState.
From S2P Require Import SimInt SimAtomic SimFloat SimCompressed Simulator Isa IntSpec BitSpec.
From S2P Require Import AsmExec AsmFormats AsmCFormats RefineOp RefineMem AsmSites AsmLabels.

#[local] Open Scope Z_scope.
#[local] Open Scope res_scope.

Definition invert_bop (op : bop) : bop :=
  match op with
  | BEQ => BNE | BNE => BEQ | BLT => BGE | BGE => BLT | BLTU => BGEU | BGEU => BLTU
  end.

Section AsmLink.
Context `{Target}.

Lemma InvertFunct3_bop op : InvertFunct3 (bop_code op) = Ok (bop_code (invert_bop op)).
Proof. by destruct op. Qed.

Lemma invert_bop_sem op x y : bop_sem (invert_bop op) x y = negb (bop_sem op x y).
Proof.
  destruct op; simpl; rewrite ?negb_involutive; try done;
    rewrite ?Z.ltb_antisym, ?Z.leb_antisym, ?negb_involutive; done.
Qed.

(** ** What the emitters append *)

Lemma Emit32_bytes w a :
  inU 32 w -> Emit32 w a = Ok (set_buffer a (buffer_ a ++ le_split 4 w)).
Proof. intros. unfold Emit32, Emit. by rewrite (wrapU_small 32 w). Qed.

Lemma EmitBType_site op rs1 rs2 offset a :
  inU 5 rs1 -> inU 5 rs2 -> IsBTypeImm offset = true ->
  EmitBType offset rs2 rs1 (bop_code op) Opcode.BRANCH a =
  Ok (set_buffer a (buffer_ a ++ site_bytes (SiteB op rs1 rs2) offset)).
Proof.
  intros. pose proof (bop_code_range op).
  rewrite EmitBType_word by done. apply Emit32_bytes.
  by destruct (btype_fields offset rs2 rs1 (bop_code op) Opcode.BRANCH) as [? _].
Qed.

Lemma EmitJType_site rd offset a :
  inU 5 rd -> IsJTypeImm offset = true ->
  EmitJType offset rd Opcode.JAL a =
  Ok (set_buffer a (buffer_ a ++ site_bytes (SiteJ rd) offset)).
Proof.
  intros. rewrite EmitJType_word by done. apply Emit32_bytes.
  by destruct (jtype_fields offset rd Opcode.JAL) as [? _].
Qed.

Lemma EmitFarJump_site offset a :
  EmitFarJump offset a = Ok (set_buffer a (buffer_ a ++ site_bytes SiteFar offset)).
Proof.
  unfold EmitFarJump. destruct (ImmHi_fits offset) as [Hu Hw]. rewrite Hu. cbn [negb].
  destruct (far_words offset) as (R1 & _ & _ & _ & R2 & _).
  rewrite EmitUType_word by done. rewrite Emit32_bytes by done. cbn [rbind].
  rewrite EmitIType_word by (done || apply ImmLo_fits). rewrite Emit32_bytes by done.
  unfold set_buffer. cbn [buffer_ extensions_ far_branch_level_]. by rewrite <- app_assoc.
Qed.

Lemma Position_app a bs :
  Position (set_buffer a (buffer_ a ++ bs)) = Position a + Z.of_nat (length bs).
Proof. unfold Position, Size. cbn [buffer_ set_buffer]. rewrite length_app. lia. Qed.

(** The inverted branch in front of a longer jump. *)
Lemma EmitBranchOver_site len rs1 rs2 op jump bs l a
    (pre := site_bytes (SiteB (invert_bop op) rs1 rs2) len)
    (a1 := set_buffer a (buffer_ a ++ pre)) :
  inU 5 rs1 -> inU 5 rs2 -> IsBTypeImm len = true ->
  jump a1 = Ok (l, set_buffer a1 (buffer_ a1 ++ bs)) -> 4 + Z.of_nat (length bs) = len ->
  EmitBranchOver len rs1 rs2 (bop_code op) jump a =
  Ok (l, set_buffer a (buffer_ a ++ pre ++ bs)).
Proof.
  intros H1 H2 Hi Hj Hlen. unfold EmitBranchOver. rewrite InvertFunct3_bop. cbn [rbind].
  rewrite EmitBType_site by done. cbn [rbind]. fold pre. fold a1. rewrite Hj. cbn [rbind fst snd].
  rewrite Position_app. unfold a1 at 1. rewrite Position_app.
  rewrite ASSERT_true
    by (apply Z.eqb_eq; unfold pre; rewrite site_bytes_length; cbn [site_class class_len]; lia).
  cbn [rbind]. unfold a1, set_buffer. cbn [buffer_ extensions_ far_branch_level_].
  by rewrite <- app_assoc.
Qed.

(** ** Pending branches *)

(** The code for a forward branch: the bytes before the site, and the site. *)
Definition pending_branch (level : Z) (distance : JumpDistance) (op : bop) (rs1 rs2 : Z)
    : list Z * site :=
  if decide (distance = kNearJump) then ([], SiteB op rs1 rs2)
  else if level =? 0 then ([], SiteB op rs1 rs2)
  else if level =? 1 then (site_bytes (SiteB (invert_bop op) rs1 rs2) 8, SiteJ Reg.ZR)
  else (site_bytes (SiteB (invert_bop op) rs1 rs2) 12, SiteFar).

(** [emit] appended [pre] and the site [st], linked at its position. *)
Definition links (emit : Asm -> Res (Label * Asm)) (l : Label) (a : Asm)
    (ss : branch_class -> sites) (pre : list Z) (st : site) : Prop :=
  let p := Position a + Z.of_nat (length pre) in
  let a' := set_buffer a (buffer_ a ++ pre ++
              site_bytes st (link_offset p (ss (site_class st)))) in
  exists l', emit a = Ok (l', a') /\ linked l' a' (add_site ss p st).

Lemma links_ext emit emit' l a ss pre st :
  emit a = emit' a -> links emit' l a ss pre st -> links emit l a ss pre st.
Proof. intros E. unfold links. by rewrite E. Qed.

Lemma IsAligned_add4 a x :
  IsAligned x (parcel a) = true -> IsAligned (x + 4) (parcel a) = true.
Proof.
  intros Hx. replace (x + 4) with (x - (-4)) by lia. apply IsAligned_sub; [done|].
  unfold parcel. by destruct (Supports a RV_C).
Qed.

Lemma links_direct emit l a ss st :
  linked l a ss -> site_wf st -> IsAligned (Position a) (parcel a) = true ->
  class_fits (site_class st) (link_offset (Position a) (ss (site_class st))) = true ->
  emit a = Ok (set_unresolved (site_class st) (Position a) l,
    set_buffer a (buffer_ a ++ site_bytes st (link_offset (Position a) (ss (site_class st))))) ->
  links emit l a ss [] st.
Proof.
  intros Hl Hwf Ha Hf E. unfold links. simpl. rewrite Z.add_0_r. eexists. split; [exact E|].
  by apply linked_add.
Qed.

Lemma links_after pre emit l a ss st :
  linked l a ss -> site_wf st -> IsAligned (Position a) (parcel a) = true ->
  length pre = 4%nat ->
  let p := Position a + 4 in
  class_fits (site_class st) (link_offset p (ss (site_class st))) = true ->
  emit a = Ok (set_unresolved (site_class st) p l,
    set_buffer a (buffer_ a ++ pre ++ site_bytes st (link_offset p (ss (site_class st))))) ->
  links emit l a ss pre st.
Proof.
  intros Hl Hwf Ha Hlen p Hf E. unfold links. rewrite Hlen. fold p. eexists. split; [exact E|].
  pose proof (linked_add l (set_buffer a (buffer_ a ++ pre)) ss st) as L.
  rewrite Position_app, Hlen in L. fold p in L.
  unfold set_buffer in *. cbn [buffer_ extensions_ far_branch_level_] in *.
  rewrite <- app_assoc in L. apply L; [by apply linked_app|done| |done].
  by apply (IsAligned_add4 a).
Qed.

(** The link at the head of a list, in an assembler that grew by [pre]. *)
Lemma link_after pre l a ss c (p := Position a + Z.of_nat (length pre)) :
  linked l a ss -> p < 2 ^ 31 ->
  link c (Position (set_buffer a (buffer_ a ++ pre))) l =
  Ok (link_offset p (ss c), set_unresolved c p l).
Proof.
  intros Hl Hp. rewrite (link_spec l (set_buffer a (buffer_ a ++ pre)) ss c).
  - by rewrite Position_app.
  - by apply linked_app.
  - by rewrite Position_app.
Qed.

Lemma linked_IsBound l a ss : linked l a ss -> IsBound l = false.
Proof. intros Hl. unfold IsBound. by rewrite (linked_unbound _ _ _ Hl). Qed.

(** The jump behind the inverted branch. *)
Lemma pending_over len rs1 rs2 op st jump l a ss
    (pre := site_bytes (SiteB (invert_bop op) rs1 rs2) len) (p := Position a + 4)
    (c := site_class st) :
  linked l a ss -> inU 5 rs1 -> inU 5 rs2 -> site_wf st -> IsBTypeImm len = true ->
  4 + Z.of_nat (class_len c) = len -> IsAligned (Position a) (parcel a) = true ->
  class_fits c (link_offset p (ss c)) = true ->
  (forall a1, Position a1 = p -> link c (Position a1) l =
       Ok (link_offset p (ss c), set_unresolved c p l) ->
     jump a1 = Ok (set_unresolved c p l,
                   set_buffer a1 (buffer_ a1 ++ site_bytes st (link_offset p (ss c))))) ->
  p < 2 ^ 31 ->
  links (EmitBranchOver len rs1 rs2 (bop_code op) jump) l a ss pre st.
Proof.
  intros Hl H1 H2 Hwf Hi Hlen Ha Hf Hj Hp. apply links_after; try done.
  apply EmitBranchOver_site; [done..| |by rewrite site_bytes_length].
  pose proof (link_after pre l a ss c Hl Hp) as Hlink. change (Z.of_nat (length pre)) with 4 in Hlink.
  apply Hj; [by rewrite Position_app|exact Hlink].
Qed.

Lemma EmitBranch_pending l a ss rs1 rs2 op distance pre st :
  linked l a ss -> inU 5 rs1 -> inU 5 rs2 ->
  IsAligned (Position a) (parcel a) = true -> Position a + 4 < 2 ^ 31 ->
  pending_branch (far_branch_level_ a) distance op rs1 rs2 = (pre, st) ->
  class_fits (site_class st)
    (link_offset (Position a + Z.of_nat (length pre)) (ss (site_class st))) = true ->
  links (EmitBranch rs1 rs2 l (bop_code op) distance) l a ss pre st.
Proof.
  intros Hl H1 H2 Ha Hp E Hf. unfold pending_branch in E.
  pose proof (linked_IsBound _ _ _ Hl) as Hb.
  destruct (decide (distance = kNearJump)) as [Hd|Hd];
    [|destruct (far_branch_level_ a =? 0) eqn:E0; [|destruct (far_branch_level_ a =? 1) eqn:E1]];
    simplify_eq; cbn [site_class class_fits length Z.of_nat] in Hf.
  1, 2: rewrite Z.add_0_r in Hf; apply links_direct; try done;
    unfold EmitBranch; rewrite Hb, (link_spec l a ss) by (done || lia); cbn [rbind fst snd].
  - by rewrite decide_True, Hf, EmitBType_site.
  - by rewrite decide_False, E0, Hf, EmitBType_site.
  - eapply links_ext; [unfold EmitBranch; rewrite Hb, decide_False, E0, E1 by done; reflexivity|].
    apply pending_over; try done; [by apply IsBTypeImm_spec|]. intros a1 _ Hlink.
    cbn [site_class] in *. rewrite Hlink. cbn [rbind fst snd].
    by rewrite EmitJType_site.
  - eapply links_ext; [unfold EmitBranch; rewrite Hb, decide_False, E0, E1 by done; reflexivity|].
    apply pending_over; try done; [by apply IsBTypeImm_spec|]. intros a1 _ Hlink.
    cbn [site_class] in *. rewrite Hlink. cbn [rbind fst snd].
    by rewrite EmitFarJump_site.
Qed.

(** An unconditional jump to an unbound label, likewise. *)
Definition pending_jump (level : Z) (distance : JumpDistance) (rd : Z) : site :=
  if decide (distance = kNearJump) then SiteJ rd
  else if level <? 2 then SiteJ rd else SiteFar.

Lemma EmitJump_pending l a ss rd distance st :
  linked l a ss -> inU 5 rd ->
  IsAligned (Position a) (parcel a) = true -> Position a < 2 ^ 31 ->
  pending_jump (far_branch_level_ a) distance rd = st ->
  class_fits (site_class st) (link_offset (Position a) (ss (site_class st))) = true ->
  links (EmitJump rd l Opcode.JAL distance) l a ss [] st.
Proof.
  intros Hl Hd Ha Hp <- Hf. unfold pending_jump in *. pose proof (linked_IsBound _ _ _ Hl) as Hb.
  apply links_direct; try done; [by repeat case_match|]. unfold EmitJump. rewrite Hb.
  destruct (decide (distance = kNearJump)); [|destruct (far_branch_level_ a <? 2)];
    rewrite (link_spec l a ss) by done; cbn [rbind fst snd site_class class_fits] in *.
  1, 2: by rewrite Hf, EmitJType_site.
  by rewrite EmitFarJump_site.
Qed.

Lemma Emit16_bytes w a :
  inU 16 w -> Emit16 w a = Ok (set_buffer a (buffer_ a ++ le_split 2 w)).
Proof. intros. unfold Emit16, Emit. by rewrite (wrapU_small 16 w). Qed.

Lemma EmitCBranch_pending l a ss nez rs1 (st := SiteCB nez rs1) :
  linked l a ss -> IsRegPrime rs1 = true ->
  IsAligned (Position a) (parcel a) = true -> Position a < 2 ^ 31 ->
  IsCBImm (link_offset (Position a) (ss cb)) = true ->
  links (EmitCBranch rs1 l (cb_opcode nez)) l a ss [] st.
Proof.
  intros Hl Hr Ha Hp Hf. apply links_direct; try done. unfold EmitCBranch, CBranchOffset.
  rewrite (linked_IsBound _ _ _ Hl), (link_spec l a ss) by done. cbn [rbind fst snd].
  rewrite Hf, EncodeCRs1p_ok, EncodeCBImm_ok by done. cbn [rbind negb].
  change (Z.lor _ _) with (cb_word nez rs1 (link_offset (Position a) (ss cb))).
  rewrite Emit16_bytes by (by destruct (cb_fields nez rs1 _ Hr Hf) as [? _]). done.
Qed.

Lemma EmitCJump_pending l a ss call (st := SiteCJ call) :
  linked l a ss -> (call = true -> XLEN = 32) ->
  IsAligned (Position a) (parcel a) = true -> Position a < 2 ^ 31 ->
  IsCJImm (link_offset (Position a) (ss cj)) = true ->
  links (EmitCJump l (cj_opcode call)) l a ss [] st.
Proof.
  intros Hl Hr Ha Hp Hf. apply links_direct; try done. unfold EmitCJump, CBranchOffset.
  rewrite (linked_IsBound _ _ _ Hl), (link_spec l a ss) by done. cbn [rbind fst snd].
  rewrite Hf, EncodeCJImm_ok by done. cbn [rbind negb].
  change (Z.lor _ _) with (cj_word call (link_offset (Position a) (ss cj))).
  rewrite Emit16_bytes by (by destruct (cj_fields call _ Hf) as [? _]). done.
Qed.

End AsmLink.
