(* ===== verification/RefineBranch.v ===== *)
(** * RefineBranch: branches and jumps run to their labels

    The one, two or three instructions a branch method emits, executed by the
    simulator's loop: control reaches the label exactly when the condition
    holds, the next instruction otherwise, and nothing but FAR_TMP (and the
    link register of a jump) changes. *)

From stdpp Require Import base numbers list gmap.
From Stdlib Require Import Lia.
From S2P Require Import Prelude Constants Encoding CEncoding AsmBuffer MicroAsm AsmBranch SimState.
From S2P Require Import SimInt SimAtomic SimFloat SimCompressed Simulator Isa IntSpec BitSpec.
From S2P Require Import AsmExec AsmFormats AsmCFormats RefineOp RefineMem RefineC SimInv.
From S2P Require Import AsmSites AsmLabels AsmLink.

#[local] Open Scope Z_scope.
#[local] Open Scope res_scope.

Section RefineBranch.
Context `{Target} `{HostNaN} `{Host}.

(** ** Single sites *)

Lemma word32_step w f s :
  inU 32 w -> field w 0 2 = 3 ->
  (let* s := Interpret w s in Ok (retire s)) = f ->
  pc_ s mod 2 = 0 -> code_at (mem_ s) (pc_ s) (le_split 4 w) -> ExecuteOne s = f.
Proof. intros. subst. by apply fetch_32. Qed.

Lemma site_b_step op rs1 rs2 offset s :
  IsBTypeImm offset = true -> inU 5 rs1 -> inU 5 rs2 -> sim_ok s -> pc_ s mod 2 = 0 ->
  code_at (mem_ s) (pc_ s) (site_bytes (SiteB op rs1 rs2) offset) ->
  ExecuteOne s = exec_branch op rs1 rs2 offset 4 s.
Proof.
  intros Hi Hs1 Hs2 Hok Hpc Hc. pose proof (bop_code_range op).
  destruct (btype_fields offset rs2 rs1 (bop_code op) Opcode.BRANCH) as (R & Eop & _); [done..|].
  eapply word32_step; [exact R|by eapply opcode_low_bits| |done|exact Hc].
  by apply branch_word_runs.
Qed.

Lemma site_j_step rd offset s :
  IsJTypeImm offset = true -> inU 5 rd -> sim_ok s -> pc_ s mod 2 = 0 ->
  code_at (mem_ s) (pc_ s) (site_bytes (SiteJ rd) offset) ->
  ExecuteOne s = exec_jal rd offset 4 s.
Proof.
  intros Hi Hd Hok Hpc Hc.
  destruct (jtype_fields offset rd Opcode.JAL) as (R & Eop & _); [done..|].
  eapply word32_step; [exact R|by eapply opcode_low_bits| |done|exact Hc].
  by apply jal_word_runs.
Qed.

Lemma site_cb_step nez rs1 offset s :
  IsCBImm offset = true -> IsRegPrime rs1 = true -> sim_ok s -> pc_ s mod 2 = 0 ->
  code_at (mem_ s) (pc_ s) (site_bytes (SiteCB nez rs1) offset) ->
  ExecuteOne s = exec_branch (if nez then BNE else BEQ) rs1 Reg.ZR offset 2 s.
Proof.
  intros Hi Hr Hok Hpc Hc.
  destruct (cb_fields nez rs1 offset Hr Hi) as (R & Eop & Er & Ei & Hin).
  cbn [site_bytes] in Hc. rewrite (fetch_16 s _ Hpc R Hin Hc). unfold exec_branch.
  rewrite get_xreg_zero by done.
  set (w := cb_word nez rs1 offset) in *. clearbody w.
  destruct nez; cbn [cb_opcode] in Eop; c_dispatch Eop; rewrite Er, Ei; cbn [rbind bop_sem];
    by destruct (get_xreg s rs1 =? 0).
Qed.

Lemma site_cj_step call offset s :
  IsCJImm offset = true -> (call = true -> XLEN = 32) -> sim_ok s -> pc_ s mod 2 = 0 ->
  code_at (mem_ s) (pc_ s) (site_bytes (SiteCJ call) offset) ->
  ExecuteOne s = exec_jal (if call then Reg.RA else Reg.ZR) offset 2 s.
Proof.
  intros Hi Hr Hok Hpc Hc.
  destruct (cj_fields call offset Hi) as (R & Eop & Ei & Hin).
  cbn [site_bytes] in Hc. rewrite (fetch_16 s _ Hpc R Hin Hc). unfold exec_jal.
  assert (inS 32 offset) as Ho.
  { apply IsCJImm_spec in Hi as [Hi _]. by eapply inS_mono. }
  set (w := cj_word call offset) in *. clearbody w.
  destruct call; cbn [cj_opcode] in Eop.
  - specialize (Hr eq_refl). c_dispatch Eop. rewrite Hr. closed_bools. cbn [rbind].
    unfold sign_extend_i32. rewrite Ei. unfold add_pc. rewrite set_xreg_pc.
    rewrite (wrapS_small 32 offset) by done. apply jump_step. by rewrite <- ux_add_r, ux_sx, ux_add_r.
  - c_dispatch Eop. cbn [rbind]. unfold sign_extend_i32. rewrite Ei. unfold add_pc.
    rewrite (wrapS_small 32 offset) by done.
    apply (jump_step s Reg.ZR). by rewrite <- ux_add_r, ux_sx, ux_add_r.
Qed.

(** ** Sequences *)

Lemma ux_end : ux (-2) = 2 ^ XLEN - 2.
Proof.
  pose proof XLEN_pos. unfold ux. rewrite <- (wrapU_add_multiple XLEN (-2) 1) by lia.
  rewrite wrapU_small; [lia|]. unfold inU. destruct XLEN_cases as [-> | ->]; lia.
Qed.

(** Nothing but [pc_], the instruction count and FAR_TMP differs. *)
Definition only_far (s t : Sim) : Prop :=
  (exists xs p n, t = set_instret (set_pc (set_xregs s xs) p) n) /\
  (forall r, inU 5 r -> r <> FAR_TMP -> get_xreg t r = get_xreg s r).

Lemma only_far_advance s t d : only_far s t -> only_far s (advance d t).
Proof.
  intros [(xs & p & n & ->) Hr]. split; [by eexists _, _, _|exact Hr].
Qed.
Lemma only_far_jump s t target len : only_far s t -> only_far s (jump_to target Reg.ZR len t).
Proof. intros [(xs & p & n & ->) Hr]. split; [by eexists _, _, _|exact Hr]. Qed.
Lemma only_far_refl s : only_far s s.
Proof. split; [|done]. exists (xregs_ s), (pc_ s), (instret_ s). by destruct s. Qed.
Lemma only_far_write s v len : only_far s (write FAR_TMP v len s).
Proof.
  split; [by eexists _, _, _|]. intros r Hr Hne. unfold write, get_xreg. simpl.
  apply list_lookup_total_insert_ne. unfold inU in Hr. change FAR_TMP with 24 in *. lia.
Qed.

Lemma ok_advance s d : sim_ok s -> sim_ok (advance d s).
Proof. intros. change (advance d s) with (retire (add_pc s d)). by apply ok_retire, ok_add_pc. Qed.

Lemma far_tmp_range : inU 5 FAR_TMP.
Proof. done. Qed.

(** The auipc/jalr pair. *)
Lemma site_far_steps offset s :
  far_fits offset = true -> sim_ok s -> pc_ s mod 2 = 0 -> pc_ s + 8 <= 2 ^ XLEN - 2 ->
  code_at (mem_ s) (pc_ s) (site_bytes SiteFar offset) ->
  exists t, steps s 2 t /\ pc_ t = ux (pc_ s + offset) /\ only_far s t.
Proof.
  intros Hf Hok Hpc Hend Hc. cbn [site_bytes] in Hc. apply code_at_app in Hc as [Hc1 Hc2].
  rewrite le_split_length in Hc2. change (Z.of_nat 4) with 4 in Hc2.
  destruct (far_words offset) as (R1 & Eop1 & _ & _ & R2 & Eop2 & _).
  destruct (ImmHi_fits offset) as [Hu Hw]. pose proof (ok_pc s Hok) as Hpc0. unfold inU in Hpc0.
  set (s1 := write FAR_TMP (pc_ s + ImmHi offset) 4 s).
  assert (ExecuteOne s = Ok s1) as E1.
  { eapply word32_step; [exact R1|by eapply opcode_low_bits| |done|exact Hc1].
    exact (auipc_word_runs FAR_TMP (ImmHi offset) s Hw Hu far_tmp_range Hok). }
  assert (pc_ s1 = pc_ s + 4) as Ep by (unfold s1; simpl; apply ux_small; unfold inU; lia).
  assert (get_xreg s1 FAR_TMP = ux (pc_ s + ImmHi offset)) as Ex.
  { unfold s1, get_xreg. simpl. apply list_lookup_total_insert_eq.
    rewrite (ok_xregs_length s Hok). change FAR_TMP with 24. lia. }
  assert (sim_ok s1) as Hok1 by (unfold s1, write; by apply ok_advance, ok_set_xreg).
  assert (ExecuteOne s1 = exec_jalr Reg.ZR FAR_TMP (ImmLo offset) 4 s1) as E2.
  { eapply word32_step; [exact R2|by eapply opcode_low_bits| |by rewrite Ep, Zplus_mod, Hpc|].
    - exact (jalr_word_runs Reg.ZR FAR_TMP (ImmLo offset) s1 (ImmLo_fits offset)
               (inU_0 5 ltac:(lia)) far_tmp_range Hok1).
    - by rewrite Ep. }
  eexists. split; [|split].
  - eapply steps_S; [|exact E1|eapply steps_S; [|exact E2|apply steps_0]];
      [|rewrite Ep]; unfold kEndSimulatingPC; rewrite ux_end; lia.
  - unfold jump_to. simpl. rewrite Ex. unfold ux. rewrite wrapU_idem_add_l.
    f_equal. rewrite <- (ImmSplit offset Hf) at 3. lia.
  - apply only_far_jump, only_far_write.
Qed.

(** ** Conditional branches *)

(** The three shapes of a branch whose target is [offset] bytes away. *)
Inductive branch_code (op : bop) (rs1 rs2 offset : Z) : list Z -> Prop :=
| branch_near :
    IsBTypeImm offset = true ->
    branch_code op rs1 rs2 offset (site_bytes (SiteB op rs1 rs2) offset)
| branch_over_jump :
    IsJTypeImm (offset - 4) = true ->
    branch_code op rs1 rs2 offset
      (site_bytes (SiteB (invert_bop op) rs1 rs2) 8 ++ site_bytes (SiteJ Reg.ZR) (offset - 4))
| branch_over_far :
    far_fits (offset - 4) = true ->
    branch_code op rs1 rs2 offset
      (site_bytes (SiteB (invert_bop op) rs1 rs2) 12 ++ site_bytes SiteFar (offset - 4)).

(** Code [bytes] at [pc_] branches [offset] bytes away when the condition
    holds and falls through otherwise. *)
Definition branches (op : bop) (rs1 rs2 offset : Z) (bytes : list Z) : Prop :=
  forall s, sim_ok s -> pc_ s mod 2 = 0 ->
  pc_ s + Z.of_nat (length bytes) <= 2 ^ XLEN - 2 -> code_at (mem_ s) (pc_ s) bytes ->
  exists n t, steps s n t /\ (0 < n <= 3)%nat /\ only_far s t /\
    pc_ t = (if bop_sem op (get_xreg s rs1) (get_xreg s rs2) then ux (pc_ s + offset)
             else ux (pc_ s + Z.of_nat (length bytes))).

Lemma one_step s t : pc_ s < 2 ^ XLEN - 2 -> ExecuteOne s = Ok t -> steps s 1 t.
Proof.
  intros Hpc E. eapply steps_S; [|exact E|apply steps_0].
  unfold kEndSimulatingPC. rewrite ux_end. lia.
Qed.

(** The inverted branch falls into [jump] when the condition holds. *)
Lemma branch_over op rs1 rs2 offset len jump :
  inU 5 rs1 -> inU 5 rs2 -> IsBTypeImm len = true -> len = 4 + Z.of_nat (length jump) ->
  (forall s, sim_ok s -> pc_ s mod 2 = 0 -> pc_ s + Z.of_nat (length jump) <= 2 ^ XLEN - 2 ->
     code_at (mem_ s) (pc_ s) jump ->
     exists n t, steps s n t /\ (0 < n <= 2)%nat /\ pc_ t = ux (pc_ s + (offset - 4)) /\
       only_far s t) ->
  branches op rs1 rs2 offset (site_bytes (SiteB (invert_bop op) rs1 rs2) len ++ jump).
Proof.
  intros Hs1 Hs2 Hi Hlen Hj s Hok Hpc Hend Hc.
  apply code_at_app in Hc as [Hc1 Hc2]. rewrite length_app, site_bytes_length in *.
  cbn [site_class class_len] in *. pose proof (ok_pc s Hok) as Hp. unfold inU in Hp.
  pose proof (site_b_step (invert_bop op) rs1 rs2 len s Hi Hs1 Hs2 Hok Hpc Hc1) as E.
  unfold exec_branch in E. rewrite invert_bop_sem in E.
  destruct (bop_sem op (get_xreg s rs1) (get_xreg s rs2)); cbn [negb] in E.
  - assert (pc_ (advance 4 s) = pc_ s + 4) as Ep by (apply ux_small; unfold inU; lia).
    destruct (Hj (advance 4 s)) as (n & t & Hs & Hn & Ht & Ho);
      [by apply ok_advance|by rewrite Ep, Zplus_mod, Hpc|rewrite Ep; lia|by rewrite Ep|].
    exists (S n), t. split_and!; try lia.
    + exact (steps_app s 1 _ n t (one_step s _ ltac:(lia) E) Hs).
    + destruct Ho as [(xs & p & k & ->) Hr]. split; [by eexists _, _, _|exact Hr].
    + rewrite Ht, Ep. f_equal. lia.
  - exists 1%nat, (advance len s). split_and!; try lia.
    + apply one_step; [lia|exact E].
    + apply only_far_advance, only_far_refl.
    + unfold advance. simpl. f_equal. lia.
Qed.

Lemma site_j_branches offset s :
  IsJTypeImm offset = true -> sim_ok s -> pc_ s mod 2 = 0 -> pc_ s + 4 <= 2 ^ XLEN - 2 ->
  code_at (mem_ s) (pc_ s) (site_bytes (SiteJ Reg.ZR) offset) ->
  steps s 1 (jump_to (pc_ s + offset) Reg.ZR 4 s).
Proof.
  intros Hi Hok Hpc Hend Hc. apply one_step; [lia|]. by apply site_j_step.
Qed.

Lemma branch_code_branches op rs1 rs2 offset bytes :
  inU 5 rs1 -> inU 5 rs2 -> branch_code op rs1 rs2 offset bytes ->
  branches op rs1 rs2 offset bytes.
Proof.
  intros Hs1 Hs2 [Hi|Hi|Hi].
  - intros s Hok Hpc Hend Hc. rewrite site_bytes_length in *. cbn [site_class class_len] in *.
    exists 1%nat.
    exists (advance (if bop_sem op (get_xreg s rs1) (get_xreg s rs2) then offset else 4) s).
    split_and!; try lia.
    + apply one_step; [lia|]. by apply site_b_step.
    + apply only_far_advance, only_far_refl.
    + unfold advance. simpl. by destruct (bop_sem _ _ _).
  - apply branch_over; [done|done|by apply IsBTypeImm_spec|done|].
    intros s Hok Hpc Hend Hc. rewrite site_bytes_length in *. exists 1%nat. eexists.
    split; [by apply site_j_branches|]. split_and!; [lia|lia|done|].
    apply only_far_jump, only_far_refl.
  - apply branch_over; [done|done|by apply IsBTypeImm_spec|done|].
    intros s Hok Hpc Hend Hc. rewrite site_bytes_length in *. exists 2%nat.
    destruct (site_far_steps (offset - 4) s) as (t & ? & ? & ?); [done..|].
    exists t. split_and!; try done; lia.
Qed.

(** A bound label within reach of the shape [EmitBranch] picks; the offsets
    excluded are those the jump cannot hold although its check passes. *)
Definition branch_reach (offset : Z) : Prop :=
  IsBTypeImm offset = true \/
  (IsJTypeImm (offset + 4) = true /\ IsJTypeImm (offset - 4) = true) \/
  (IsJTypeImm (offset + 4) = false /\ far_fits (offset - 4) = true).

Lemma EmitBranch_bound rs1 rs2 l op distance a (offset := position_ l - Position a) :
  inU 5 rs1 -> inU 5 rs2 -> IsBound l = true -> branch_reach offset ->
  exists bytes,
    EmitBranch rs1 rs2 l (bop_code op) distance a =
      Ok (l, set_buffer a (buffer_ a ++ bytes)) /\
    branches op rs1 rs2 offset bytes.
Proof.
  intros Hs1 Hs2 Hb Hr.
  assert (exists bytes, EmitBranch rs1 rs2 l (bop_code op) distance a =
            Ok (l, set_buffer a (buffer_ a ++ bytes)) /\ branch_code op rs1 rs2 offset bytes)
    as (bytes & E & Hc); [|exists bytes; split; [exact E|by apply branch_code_branches]].
  unfold EmitBranch, LabelPosition. rewrite Hb, ASSERT_true by done. cbn [rbind]. fold offset.
  destruct (IsBTypeImm offset) eqn:Ei.
  - rewrite EmitBType_site by done. eexists. split; [reflexivity|by apply branch_near].
  - destruct Hr as [|[[Hj Hj']|[Hj Hj']]]; [congruence| |]; rewrite Hj.
    + eexists. split; [|by apply branch_over_jump]. apply EmitBranchOver_site; try done.
      * by apply IsBTypeImm_spec.
      * rewrite Position_app, site_bytes_length. cbn [site_class class_len].
        replace (position_ l - _) with (offset - 4) by (unfold offset; lia).
        by rewrite EmitJType_site.
    + eexists. split; [|by apply branch_over_far]. apply EmitBranchOver_site; try done.
      * by apply IsBTypeImm_spec.
      * rewrite Position_app, site_bytes_length. cbn [site_class class_len].
        replace (position_ l - _) with (offset - 4) by (unfold offset; lia).
        by rewrite EmitFarJump_site.
Qed.

End RefineBranch.
