(* ===== verification/RefineLabel.v ===== *)
(** * RefineLabel: labels, from emission to execution

    A branch to a label that is bound later: [EmitBranch] emits it pending,
    more code follows, [Bind] patches it, and the simulator's loop, run over
    the patched code, goes where the branch says.  At the end, the inputs on
    which the composition of assembler and simulator is not the instruction
    asked for; the refinement theorems exclude exactly these. *)

From stdpp Require Import base numbers list gmap.
From Stdlib Require Import Lia.
From S2P Require Import Prelude Constants Encoding CEncoding AsmBuffer MicroAsm AsmBranch SimState.
From S2P Require Import SimInt SimAtomic SimFloat SimCompressed Simulator Isa IntSpec BitSpec.
From S2P Require Import AsmExec AsmFormats AsmCFormats RefineOp RefineMem RefineC SimInv.
From S2P Require Import AsmSites AsmLabels AsmLink RefineBranch Refinement.

#[local] Open Scope Z_scope.
#[local] Open Scope res_scope.

Section RefineLabel.
Context `{Target} `{HostNaN} `{Host}.

(** C8.  [Bind] resolves every pending branch.  When a label heads well-formed
    lists of pending branches (compressed, near and far), all in range of the
    current position, [Bind] succeeds: the label is bound here, each of those
    branches now encodes the distance to this position, and every other byte
    is unchanged. *)
Theorem Bind_resolves l a ss :
  linked l a ss -> IsAligned (Position a) (parcel a) = true -> Position a < 2 ^ 31 ->
  (forall c, Forall (fun ps => class_fits c (Position a - ps.1) = true) (ss c)) ->
  exists l' a', Bind l a = Ok (l', a') /\ bound_to l a ss l' a'.
Proof. apply Bind_linked. Qed.


Lemma holds_join buf p l1 l2 :
  holds buf p l1 -> holds buf (p + Z.of_nat (length l1)) l2 -> holds buf p (l1 ++ l2).
Proof.
  rewrite !holds_lookup. intros [Hp H1'] [_ H2']. split; [done|]. intros i x Hi.
  apply lookup_app_Some in Hi as [Hi|[Hl Hi]]; [by apply H1'|].
  rewrite <- (H2' _ _ Hi). f_equal. lia.
Qed.

(** The bytes between the older sites and the new one belong to no site. *)
Lemma outside_between l a ss st q n p c :
  linked l a ss -> q = Position a -> p = q + Z.of_nat n ->
  outside (add_site ss p st c) q n.
Proof.
  intros Hl -> ->. pose proof (outside_end c (buffer_ a) (ss c) n (linked_chains _ _ _ Hl c)) as Ho.
  unfold add_site. destruct (decide (c = site_class st)); [|exact Ho].
  constructor; [|exact Ho]. right. simpl. lia.
Qed.

(** ** The branch methods, on bound labels *)

Definition bop_asm (op : bop) : Z -> Z -> Label -> JumpDistance -> Asm -> Res (Label * Asm) :=
  match op with
  | BEQ => beq | BNE => bne | BLT => blt | BGE => bge | BLTU => bltu | BGEU => bgeu
  end.

Lemma site_cb_branches (nez : bool) rs1 offset :
  IsRegPrime rs1 = true -> IsCBImm offset = true ->
  branches (if nez then BNE else BEQ) rs1 Reg.ZR offset (site_bytes (SiteCB nez rs1) offset).
Proof.
  intros Hr Hi s Hok Hpc Hend Hc. rewrite site_bytes_length in *. cbn [site_class class_len] in *.
  set (op := if nez then BNE else BEQ). exists 1%nat.
  exists (advance (if bop_sem op (get_xreg s rs1) (get_xreg s Reg.ZR) then offset else 2) s).
  split_and!; try lia.
  - apply one_step; [lia|]. by apply site_cb_step.
  - apply only_far_advance, only_far_refl.
  - unfold advance. simpl. by destruct (bop_sem _ _ _).
Qed.

(** BEQ and BNE do not mind the order of their operands. *)
Lemma branches_swap (nez : bool) rs1 rs2 offset bytes (op := if nez then BNE else BEQ) :
  branches op rs1 rs2 offset bytes -> branches op rs2 rs1 offset bytes.
Proof.
  intros Hb s Hok Hpc Hend Hc. destruct (Hb s Hok Hpc Hend Hc) as (n & t & ? & ? & ? & Ht).
  exists n, t. do 3 (split; [done|]). rewrite Ht. unfold op.
  destruct nez; simpl; by rewrite Z.eqb_sym.
Qed.

(** [emit] appended code that branches to the bound label. *)
Definition branch_emitted (r : Res (Label * Asm)) (l : Label) (a : Asm) (op : bop) (rs1 rs2 : Z) : Prop :=
  exists bytes, r = Ok (l, set_buffer a (buffer_ a ++ bytes)) /\
                branches op rs1 rs2 (position_ l - Position a) bytes.

Lemma EmitCBranch_bound (nez : bool) rs1 l a :
  IsRegPrime rs1 = true -> IsBound l = true -> IsCBImm (position_ l - Position a) = true ->
  branch_emitted (EmitCBranch rs1 l (cb_opcode nez) a) l a (if nez then BNE else BEQ) rs1 Reg.ZR.
Proof.
  intros Hr Hb Hi. eexists. split; [|by apply site_cb_branches].
  unfold EmitCBranch, CBranchOffset, LabelPosition. rewrite Hb, ASSERT_true by done.
  cbn [rbind fst snd]. rewrite Hi, EncodeCRs1p_ok, EncodeCBImm_ok by done. cbn [rbind negb].
  change (Z.lor _ _) with (cb_word nez rs1 (position_ l - Position a)).
  by rewrite Emit16_bytes by (by destruct (cb_fields nez rs1 _ Hr Hi) as [? _]).
Qed.

Lemma near_fits IsImm l distance a :
  near IsImm l distance a = true ->
  distance = kFarJump \/ IsImm (position_ l - Position a) = true ->
  IsImm (position_ l - Position a) = true.
Proof.
  unfold near. intros [Hd|[_ ?]%andb_true_iff]%orb_true_iff [->|?]; try done.
Qed.

(** The choice [beq] and [bne] make. *)
Lemma zero_branch_bound (nez : bool) rs1 rs2 l distance a (op := if nez then BNE else BEQ)
    (offset := position_ l - Position a) :
  IsBound l = true -> distance = kFarJump \/ IsCBImm offset = true ->
  branch_emitted (EmitBranch rs1 rs2 l (bop_code op) distance a) l a op rs1 rs2 ->
  branch_emitted
    (if Supports a RV_C && near IsCBImm l distance a && (rs1 =? Reg.ZR) && IsCRs1p rs2
     then ASSERT (Supports a RV_C) ;; EmitCBranch rs2 l (cb_opcode nez) a else
     if Supports a RV_C && near IsCBImm l distance a && (rs2 =? Reg.ZR) && IsCRs1p rs1
     then ASSERT (Supports a RV_C) ;; EmitCBranch rs1 l (cb_opcode nez) a else
     EmitBranch rs1 rs2 l (bop_code op) distance a) l a op rs1 rs2.
Proof.
  intros Hb Hd Hlong. destruct (Supports a RV_C); [|exact Hlong]. simpl.
  destruct (near IsCBImm l distance a) eqn:Hn; [|exact Hlong]. simpl.
  apply near_fits in Hn; [|done]. rewrite !ASSERT_true by done. cbn [rbind].
  destruct (Z.eqb_spec rs1 Reg.ZR) as [->|]; [destruct (IsCRs1p rs2) eqn:Hp|]; simpl.
  - destruct (EmitCBranch_bound nez rs2 l a) as (bytes & E & Hbr); [done..|].
    exists bytes. split; [exact E|]. by apply (branches_swap nez).
  - destruct (Z.eqb_spec rs2 Reg.ZR) as [->|]; exact Hlong.
  - destruct (Z.eqb_spec rs2 Reg.ZR) as [->|]; [destruct (IsCRs1p rs1) eqn:Hp|];
      [by apply EmitCBranch_bound|exact Hlong..].
Qed.

Lemma branch_bound op rs1 rs2 l distance a (offset := position_ l - Position a) :
  inU 5 rs1 -> inU 5 rs2 -> IsBound l = true -> Supports a RV_I = true ->
  branch_reach offset -> distance = kFarJump \/ IsCBImm offset = true ->
  branch_emitted (bop_asm op rs1 rs2 l distance a) l a op rs1 rs2.
Proof.
  intros Hs1 Hs2 Hb HI Hr Hd.
  pose proof (EmitBranch_bound rs1 rs2 l op distance a Hs1 Hs2 Hb Hr) as Hlong.
  destruct op; cbn [bop_asm]; unfold beq, bne, blt, bge, bltu, bgeu;
    try exact Hlong; rewrite ASSERT_true by done; cbn [rbind]; try exact Hlong.
  - by apply (zero_branch_bound false).
  - by apply (zero_branch_bound true).
Qed.

(** The offsets for which the test before the jump behind the inverted branch
    passes, although the offset that is then encoded is out of its range. *)
Definition branch_gap (offset : Z) : Prop :=
  IsBTypeImm offset = false /\ IsJTypeImm (offset + 4) = true /\ IsJTypeImm (offset - 4) = false.

Lemma EmitBranch_gap rs1 rs2 l op distance a (offset := position_ l - Position a) :
  inU 5 rs1 -> inU 5 rs2 -> IsBound l = true -> branch_gap offset -> DEBUG = true ->
  EmitBranch rs1 rs2 l (bop_code op) distance a = Err AssertionFailure.
Proof.
  intros Hs1 Hs2 Hb (E1 & E2 & E3) Hd.
  unfold EmitBranch, LabelPosition. rewrite Hb, ASSERT_true by done. cbn [rbind]. fold offset.
  rewrite E1, E2. unfold EmitBranchOver. rewrite InvertFunct3_bop. cbn [rbind].
  rewrite EmitBType_site by (done || by apply IsBTypeImm_spec). cbn [rbind].
  rewrite Position_app, site_bytes_length. cbn [site_class class_len].
  replace (position_ l - _) with (offset - 4) by (unfold offset; lia).
  unfold EmitJType, EmitFields, or_fields, EncodeJTypeImm, ASSERT. by rewrite Hd, E3.
Qed.

Lemma CBImm_BTypeImm offset : IsCBImm offset = true -> IsBTypeImm offset = true.
Proof. rewrite IsCBImm_spec, IsBTypeImm_spec. unfold inS. lia. Qed.

(** Outside the reach of the compressed branch the methods come to [EmitBranch]. *)
Lemma bop_asm_long op rs1 rs2 l a :
  IsBound l = true -> Supports a RV_I = true -> IsCBImm (position_ l - Position a) = false ->
  bop_asm op rs1 rs2 l kFarJump a = EmitBranch rs1 rs2 l (bop_code op) kFarJump a.
Proof.
  intros Hb HI Hc. assert (near IsCBImm l kFarJump a = false) as Hn by (unfold near; by rewrite Hb, Hc).
  destruct op; cbn [bop_asm]; unfold beq, bne, blt, bge, bltu, bgeu; rewrite ?ASSERT_true by done; cbn [rbind];
    rewrite ?Hn, ?andb_false_r; done.
Qed.

(** C4.  A conditional branch to a bound label.  Each of beq, bne, blt, bge,
    bltu and bgeu picks, by distance and operands, a compressed branch, a
    branch, an inverted branch over a jump or one over an auipc/jalr pair;
    executed, it reaches the label exactly when the condition holds and the
    next instruction otherwise, in at most three steps, changing no register
    but FAR_TMP.  This holds for the offsets in branch_reach: those of a branch,
    those for which both offset + 4 (which EmitBranch tests) and offset - 4
    (which it encodes) are of a jump, and those where offset + 4 is not and the
    auipc/jalr pair reaches.  It leaves out distances beyond the pair, for which
    the code has no working check, and branch_gap, where offset + 4 passes the
    test and offset - 4 does not fit: there the second part shows that a DEBUG
    build ends in the assertion of EncodeJTypeImm.  A near jump must be in
    reach of the compressed branch. *)
Theorem branch_refines op rs1 rs2 l distance a (offset := position_ l - Position a) :
  inU 5 rs1 -> inU 5 rs2 -> IsBound l = true -> Supports a RV_I = true ->
  distance = kFarJump \/ IsCBImm offset = true ->
  (branch_reach offset -> branch_emitted (bop_asm op rs1 rs2 l distance a) l a op rs1 rs2) /\
  (branch_gap offset -> DEBUG = true -> bop_asm op rs1 rs2 l distance a = Err AssertionFailure).
Proof.
  intros Hs1 Hs2 Hb HI Hd. split; [intros; by apply branch_bound|]. intros Hgap HD. pose proof Hgap as [E _].
  assert (IsCBImm offset = false) as Hc by (apply not_true_is_false; intros ?%CBImm_BTypeImm; congruence).
  destruct Hd as [->|]; [|congruence]. rewrite bop_asm_long by done. by apply EmitBranch_gap.
Qed.

(** ** Jumps *)

(** Code that goes [offset] bytes away and leaves the address after it in
    [rd]. *)
Definition jumps (rd offset : Z) (bytes : list Z) : Prop :=
  forall s, sim_ok s -> pc_ s mod 2 = 0 ->
  pc_ s + Z.of_nat (length bytes) <= 2 ^ XLEN - 2 -> code_at (mem_ s) (pc_ s) bytes ->
  exists n t, steps s n t /\ (0 < n <= 2)%nat /\ pc_ t = ux (pc_ s + offset) /\
    mem_ t = mem_ s /\ fregs_ t = fregs_ s /\
    (rd <> Reg.ZR -> get_xreg t rd = pc_ s + Z.of_nat (length bytes)) /\
    (forall r, inU 5 r -> r <> FAR_TMP -> r <> rd -> get_xreg t r = get_xreg s r).

Lemma get_set_xreg_same s rd v :
  sim_ok s -> inU 5 rd -> rd <> Reg.ZR -> get_xreg (set_xreg s rd v) rd = ux v.
Proof.
  intros Hok Hd Hz. unfold get_xreg, set_xreg. rewrite (neqb rd) by done. cbn [xregs_ set_xregs].
  apply list_lookup_total_insert_eq. rewrite (ok_xregs_length s Hok). unfold inU in Hd. lia.
Qed.
Lemma get_set_xreg_other s rd r v :
  inU 5 rd -> inU 5 r -> r <> rd -> get_xreg (set_xreg s rd v) r = get_xreg s r.
Proof.
  intros Hd Hr Hne. unfold get_xreg, set_xreg. destruct (rd =? Reg.ZR); [done|].
  apply list_lookup_total_insert_ne. unfold inU in *. lia.
Qed.

Lemma jump_to_jumps rd offset bytes :
  inU 5 rd ->
  (forall s, sim_ok s -> pc_ s mod 2 = 0 -> code_at (mem_ s) (pc_ s) bytes ->
     ExecuteOne s = exec_jal rd offset (Z.of_nat (length bytes)) s) ->
  (0 < length bytes)%nat -> jumps rd offset bytes.
Proof.
  intros Hd He Hl s Hok Hpc Hend Hc. pose proof (ok_pc s Hok) as Hp. unfold inU in Hp.
  exists 1%nat, (jump_to (pc_ s + offset) rd (Z.of_nat (length bytes)) s).
  unfold jump_to, set_instret, set_pc. split_and!; try lia.
  - apply one_step; [lia|]. by apply He.
  - done.
  - unfold set_xreg. by destruct (rd =? _).
  - unfold set_xreg. by destruct (rd =? _).
  - intros Hz. change (get_xreg (set_xreg s rd (pc_ s + Z.of_nat (length bytes))) rd =
      pc_ s + Z.of_nat (length bytes)).
    rewrite get_set_xreg_same by done. apply ux_small. unfold inU. lia.
  - intros r Hr _ Hne. exact (get_set_xreg_other s rd r _ Hd Hr Hne).
Qed.

Lemma site_far_jumps offset : far_fits offset = true -> jumps Reg.ZR offset (site_bytes SiteFar offset).
Proof.
  intros Hf s Hok Hpc Hend Hc. rewrite site_bytes_length in Hend. cbn [site_class class_len] in Hend.
  destruct (site_far_steps offset s) as (t & Hs & Ht & (xs & p & n & ->) & Hr); [done..|].
  exists 2%nat. eexists. split; [exact Hs|]. split; [lia|]. split; [exact Ht|].
  split_and!; try done. intros r ? ? _. by apply Hr.
Qed.

Lemma IsRegPrime_reg r : IsRegPrime r = true -> inU 5 r.
Proof. unfold IsRegPrime, inU. lia. Qed.

Lemma EmitCJump_bound (call : bool) l a (rd := if call then Reg.RA else Reg.ZR) :
  (call = true -> XLEN = 32) -> IsBound l = true -> IsCJImm (position_ l - Position a) = true ->
  exists bytes, EmitCJump l (cj_opcode call) a = Ok (l, set_buffer a (buffer_ a ++ bytes)) /\
    jumps rd (position_ l - Position a) bytes.
Proof.
  intros Hc Hb Hi. exists (site_bytes (SiteCJ call) (position_ l - Position a)). split.
  - unfold EmitCJump, CBranchOffset, LabelPosition. rewrite Hb, ASSERT_true by done.
    cbn [rbind fst snd]. rewrite Hi, EncodeCJImm_ok by done. cbn [rbind negb].
    change (Z.lor _ _) with (cj_word call (position_ l - Position a)).
    by rewrite Emit16_bytes by (by destruct (cj_fields call _ Hi) as [? _]).
  - apply jump_to_jumps; [by destruct call| |by rewrite site_bytes_length; simpl; lia].
    intros s Hok Hpc Hcode. rewrite site_bytes_length. by apply site_cj_step.
Qed.

(** C5.  [jal] to a bound label.  c.j, c.jal, jal or, beyond the reach of jal,
    an auipc/jalr pair (which can only discard the link): executed, control is
    at the label and [rd] holds the address after the jump. *)
Theorem jal_refines rd l distance a (offset := position_ l - Position a) :
  inU 5 rd -> IsBound l = true -> Supports a RV_I = true ->
  IsJTypeImm offset = true \/ rd = Reg.ZR /\ far_fits offset = true ->
  distance = kFarJump \/ IsCJImm offset = true ->
  exists bytes, jal rd l distance a = Ok (l, set_buffer a (buffer_ a ++ bytes)) /\
    jumps rd offset bytes.
Proof.
  intros Hd Hb HI Hr Hn. unfold jal. rewrite ASSERT_true by done. cbn [rbind].
  destruct (Supports a RV_C && near IsCJImm l distance a && (rd =? Reg.ZR)) eqn:E1.
  { rewrite !andb_true_iff in E1. destruct E1 as [[HC Hnear] ->%Z.eqb_eq].
    apply near_fits in Hnear; [|done]. unfold c_j. rewrite ASSERT_true by done. cbn [rbind].
    by apply (EmitCJump_bound false). }
  destruct ((XLEN =? 32) && Supports a RV_C && near IsCJImm l distance a && (rd =? Reg.RA)) eqn:E2.
  { rewrite !andb_true_iff in E2. destruct E2 as [[[HX%Z.eqb_eq HC] Hnear] ->%Z.eqb_eq].
    apply near_fits in Hnear; [|done]. unfold c_jal. rewrite ASSERT_true by done. cbn [rbind].
    by apply (EmitCJump_bound true). }
  unfold EmitJump, LabelPosition. rewrite Hb, ASSERT_true by done. cbn [rbind]. fold offset.
  destruct (IsJTypeImm offset) eqn:Ei.
  - rewrite EmitJType_site by done. eexists. split; [reflexivity|].
    apply jump_to_jumps; [done| |by rewrite site_bytes_length; simpl; lia].
    intros s Hok Hpc Hc. rewrite site_bytes_length. by apply site_j_step.
  - destruct Hr as [|[-> Hf]]; [done|]. rewrite EmitFarJump_site. eexists.
    split; [reflexivity|]. by apply site_far_jumps.
Qed.

(** ** Labels bound later *)

(** A site emitted pending, more code, and [Bind]: the code at the place of the
    site now leads to the bound position. *)
Lemma links_bind emit l a ss pre st tl
    (p := Position a + Z.of_nat (length pre))
    (bytes := site_bytes st (link_offset p (ss (site_class st))))
    (a2 := set_buffer a ((buffer_ a ++ pre ++ bytes) ++ tl)) :
  linked l a ss -> links emit l a ss pre st ->
  IsAligned (Position a2) (parcel a) = true -> Position a2 < 2 ^ 31 ->
  (forall c, Forall (fun ps => class_fits c (Position a2 - ps.1) = true) (add_site ss p st c)) ->
  exists l1 l2 a3,
    emit a = Ok (l1, set_buffer a (buffer_ a ++ pre ++ bytes)) /\
    Bind l1 a2 = Ok (l2, a3) /\ position_ l2 = Position a2 /\
    holds (buffer_ a3) (Position a)
      (pre ++ site_bytes st (Position a2 - Position a - Z.of_nat (length pre))).
Proof.
  intros Hl (l1 & E1 & Hl1) Ha2 Hsz Hfit.
  fold p in E1, Hl1. fold bytes in E1, Hl1. apply (linked_app _ _ _ tl) in Hl1. fold a2 in Hl1.
  destruct (Bind_linked l1 a2 (add_site ss p st)) as (l2 & a3 & E3 & Hb); [done..|].
  destruct Hb as (Hp2 & _ & _ & _ & _ & Hres & Hkeep).
  exists l1, l2, a3. split_and!; [exact E1|exact E3|exact Hp2|]. apply holds_join.
  - apply Hkeep; [intros c; by eapply outside_between|].
    unfold a2. cbn [buffer_ set_buffer]. rewrite <- !app_assoc.
    pose proof (holds_end (buffer_ a) (pre ++ bytes ++ tl)) as Hh.
    by apply holds_app in Hh as [Hh _].
  - specialize (Hres (site_class st)). unfold resolved, add_site in Hres.
    rewrite decide_True in Hres by done. inversion_clear Hres as [|? ? Hh _]. simpl in Hh.
    fold p. replace (Position a2 - Position a - _) with (Position a2 - p) by (unfold p; lia).
    exact Hh.
Qed.

Lemma site_fits ss p st target :
  (forall c, Forall (fun ps => class_fits c (target - ps.1) = true) (add_site ss p st c)) ->
  class_fits (site_class st) (target - p) = true.
Proof.
  intros Hfit. specialize (Hfit (site_class st)). unfold add_site in Hfit.
  rewrite decide_True in Hfit by done. by inversion_clear Hfit.
Qed.


Lemma near_unbound IsImm l distance a :
  IsBound l = false -> near IsImm l distance a = bool_decide (distance = kNearJump).
Proof. intros Hb. unfold near. rewrite Hb. simpl. apply orb_false_r. Qed.






(** What [jal] emits for an unbound label. *)
Definition pending_jal (a : Asm) (distance : JumpDistance) (rd : Z) : site :=
  let near_c := Supports a RV_C && bool_decide (distance = kNearJump) in
  if near_c && (rd =? Reg.ZR) then SiteCJ false
  else if (XLEN =? 32) && near_c && (rd =? Reg.RA) then SiteCJ true
  else pending_jump (far_branch_level_ a) distance rd.

Lemma jal_links l a ss rd distance (st := pending_jal a distance rd) :
  linked l a ss -> inU 5 rd -> Supports a RV_I = true ->
  IsAligned (Position a) (parcel a) = true -> Position a < 2 ^ 31 ->
  class_fits (site_class st) (link_offset (Position a) (ss (site_class st))) = true ->
  links (jal rd l distance) l a ss [] st.
Proof.
  intros Hl Hd HI Ha Hp Hf. pose proof (linked_IsBound _ _ _ Hl) as Hb.
  unfold links, jal. rewrite ASSERT_true by done. cbn [rbind].
  unfold st, pending_jal in *. clear st.
  rewrite !near_unbound by done. rewrite <- !andb_assoc in *.
  destruct (Supports a RV_C) eqn:HC; simpl in *.
  2: { rewrite !andb_false_r in *. by apply EmitJump_pending. }
  destruct (bool_decide (distance = kNearJump)); simpl in *.
  2: { rewrite !andb_false_r in *. by apply EmitJump_pending. }
  unfold c_j, c_jal. rewrite !ASSERT_true by done. cbn [rbind].
  destruct (Z.eqb_spec rd Reg.ZR); simpl in *; [by apply (EmitCJump_pending l a ss false)|].
  destruct (Z.eqb_spec XLEN 32); simpl in *; [|by apply EmitJump_pending].
  destruct (Z.eqb_spec rd Reg.RA); simpl in *; [|by apply EmitJump_pending].
  by apply (EmitCJump_pending l a ss true).
Qed.

(** The register a jump leaves the return address in: the auipc/jalr pair has
    none, whatever register [jal] was given. *)
Definition link_register (st : site) (rd : Z) : Z := match st with SiteFar => Reg.ZR | _ => rd end.

(** A resolved site of [jal] jumps. *)
Lemma pending_jal_jumps a distance rd offset (st := pending_jal a distance rd) :
  inU 5 rd -> class_fits (site_class st) offset = true ->
  jumps (link_register st rd) offset (site_bytes st offset).
Proof.
  intros Hd Hf. unfold st, pending_jal, pending_jump in *. clear st.
  assert (forall call : bool, (call = true -> XLEN = 32) -> IsCJImm offset = true ->
    rd = (if call then Reg.RA else Reg.ZR) -> jumps rd offset (site_bytes (SiteCJ call) offset)) as Hcj.
  { intros call Hc Hi ->. apply jump_to_jumps; [by destruct call| |by rewrite site_bytes_length; simpl; lia].
    intros s Hok Hpc Hcode. rewrite site_bytes_length. by apply site_cj_step. }
  assert (IsJTypeImm offset = true -> jumps rd offset (site_bytes (SiteJ rd) offset)) as Hj.
  { intros Hi. apply jump_to_jumps; [done| |by rewrite site_bytes_length; simpl; lia].
    intros s Hok Hpc Hcode. rewrite site_bytes_length. by apply site_j_step. }
  destruct (_ && (rd =? Reg.ZR)) eqn:E1.
  { apply andb_true_iff in E1 as [_ ->%Z.eqb_eq]. by apply Hcj. }
  destruct (_ && (rd =? Reg.RA)) eqn:E2.
  { rewrite !andb_true_iff in E2. destruct E2 as [[HX%Z.eqb_eq _] ->%Z.eqb_eq]. by apply Hcj. }
  destruct (decide (distance = kNearJump)); [by apply Hj|].
  destruct (far_branch_level_ a <? 2); [by apply Hj|].
  by apply site_far_jumps.
Qed.

(** C7.  A jump to a label bound later: after [Bind], the code [jal] emitted
    goes to the bound position, changing only FAR_TMP and the link register, and
    leaves the return address in [rd], except at the far branch level: the
    auipc/jalr pair that jal emits there (the shape SiteFar) discards the link
    whatever [rd] is, so the code jumps as with the link register ZR, and an [rd]
    other than FAR_TMP keeps its old value.  The jump and the links through the
    label must be in range of the shapes that were emitted, and the code below
    2 GB. *)
Theorem forward_jump_runs l a ss rd distance tl
    (st := pending_jal a distance rd)
    (bytes := site_bytes st (link_offset (Position a) (ss (site_class st))))
    (a2 := set_buffer a ((buffer_ a ++ bytes) ++ tl)) :
  linked l a ss -> inU 5 rd -> Supports a RV_I = true ->
  IsAligned (Position a) (parcel a) = true -> IsAligned (Position a2) (parcel a) = true ->
  Position a2 < 2 ^ 31 ->
  class_fits (site_class st) (link_offset (Position a) (ss (site_class st))) = true ->
  (forall c, Forall (fun ps => class_fits c (Position a2 - ps.1) = true)
               (add_site ss (Position a) st c)) ->
  exists l1 l2 a3 code,
    jal rd l distance a = Ok (l1, set_buffer a (buffer_ a ++ bytes)) /\
    Bind l1 a2 = Ok (l2, a3) /\ position_ l2 = Position a2 /\
    holds (buffer_ a3) (Position a) code /\ jumps (link_register st rd) (Position a2 - Position a) code.
Proof.
  intros Hl Hd HI Ha Ha2 Hsz Hf Hfit.
  assert (Position a <= Position a2) as Hle.
  { unfold Position, Size, a2. cbn [buffer_ set_buffer]. rewrite !length_app. lia. }
  pose proof (links_bind (jal rd l distance) l a ss [] st tl) as L.
  cbn [length app] in L. rewrite !Z.add_0_r, !Z.sub_0_r in L. fold bytes a2 in L.
  destruct L as (l1 & l2 & a3 & E1 & E2 & Hp & Hh); [done| |done|done|done|].
  { apply jal_links; try done. lia. }
  exists l1, l2, a3, (site_bytes st (Position a2 - Position a)).
  split_and!; [exact E1|exact E2|exact Hp|exact Hh|].
  apply pending_jal_jumps; [done|]. by apply site_fits in Hfit.
Qed.

End RefineLabel.

(** ** Where the code departs from the ISA *)

Section Deviations.
Context `{Target} `{HostNaN} `{Host}.

(** Rotating words on RV64.  [rorw] and [rolw] reduce the amount modulo
    XLEN instead of 32, so every amount that is not a multiple of 64 shifts a
    32-bit value by 32 or more, which C++ leaves undefined. *)
Theorem rotate_word_undefined a b :
  XLEN = 64 -> b mod 64 <> 0 ->
  SimInt.rorw a b = Err UndefinedBehavior /\ SimInt.rolw a b = Err UndefinedBehavior.
Proof.
  intros HX Hb. unfold SimInt.rorw, SimInt.rolw, shl_u32, shr_32. rewrite HX.
  change (64 - 1) with (Z.ones 6). rewrite !Z.land_ones by lia. change (2 ^ 6) with 64.
  pose proof (Z.mod_pos_bound b 64 ltac:(lia)).
  rewrite (wrapU_small 32 (b mod 64)) by (unfold inU; lia).
  rewrite (wrapU_small 32 (64 - _)) by (unfold inU; lia).
  rewrite (Z.mod_small (64 - b mod 64) 64) by lia.
  destruct (Z.ltb_spec (b mod 64) 32), (Z.ltb_spec (64 - b mod 64) 32); try lia;
    cbn [rbind]; done.
Qed.

(** Loading 0 with [lui].  With compressed instructions enabled,
    [lui(rd, 0)] selects c.lui with a zero immediate, an encoding the ISA
    reserves: the simulator stops at it as an illegal instruction. *)
Theorem lui_zero_illegal rd a :
  inU 5 rd -> rd <> Reg.ZR -> rd <> Reg.SP -> Supports a RV_I = true -> Supports a RV_C = true ->
  exists w, implements (MicroAssembler.lui rd 0) a (fun _ _ => Err (IllegalInstr w)).
Proof.
  intros Hd Hz Hsp HI HC. assert (IsCUImm 0 = true) as Hi by (by apply IsCUImm_spec).
  exists (Z.lor (Z.lor COpcode.C_LUI (Z.shiftl rd 7)) (CUImm_fields 0)).
  unfold implements, MicroAssembler.lui. asm_path.
  rewrite HC, Hi, (neqb rd Reg.ZR), (neqb rd Reg.SP) by done. cbn [negb andb].
  eapply implements_16; [unfold MicroAssembler.c_lui; c_emit | c_range | c_decode |].
  intros s Hok. set (w := Z.lor _ _).
  assert (CInstr.opcode w = COpcode.C_LUI) as Eop by (unfold w; c_decode).
  assert (CInstr.rd w = rd) as Erd by (unfold w; c_decode).
  assert (CInstr.u_imm w = 0) as Ei by (unfold w, CInstr.u_imm; c_imm DecodeCUImm_fields).
  clearbody w. c_dispatch Eop. rewrite Erd, Ei, (neqb rd Reg.ZR), (neqb rd Reg.SP) by done.
  reflexivity.
Qed.

(** A window of branch distances.  [EmitBranch] tests whether the label
    less 4 bytes is in reach of the jump it puts behind the inverted branch,
    but that jump starts 4 bytes later: just below the reach of a jump, a DEBUG
    build fails its assertion although the far form would do. *)
Theorem EmitBranch_window rs1 rs2 l op distance a (offset := position_ l - Position a) :
  inU 5 rs1 -> inU 5 rs2 -> IsBound l = true -> DEBUG = true ->
  offset mod 2 = 0 -> - 2 ^ 19 - 4 <= offset < - 2 ^ 19 + 4 ->
  EmitBranch rs1 rs2 l (bop_code op) distance a = Err AssertionFailure /\
  far_fits (offset - 4) = true.
Proof.
  intros Hs1 Hs2 Hb Hd He Hw. split; [|unfold far_fits; apply andb_true_iff; lia].
  assert (forall z, z mod 4 = 0 -> (offset + z) mod 2 ^ 1 = 0) as Hal.
  { intros z Hz. change (2 ^ 1) with 2. rewrite Zplus_mod, He.
    replace z with (2 * (2 * (z / 4))) by (pose proof (Z.div_mod z 4); lia).
    by rewrite Z.mul_comm, Z_mod_mult. }
  apply EmitBranch_gap; try done. fold offset. split_and!.
  - apply not_true_is_false. rewrite IsBTypeImm_spec. unfold inS. lia.
  - apply IsJTypeImm_spec. split; [unfold inS; lia|by apply Hal].
  - apply not_true_is_false. rewrite IsJTypeImm_spec. unfold inS. lia.
Qed.

(** Far jumps.  The auipc/jalr pair that replaces a jal out of reach
    always discards the link, whatever register the caller asked for; and
    since the upper part is sign-extended from 32 bits before it is checked,
    the check for 2 GB never fails: a distance and the one 4 GB below it give
    the same code. *)
Theorem far_jump_unchecked rd l op distance a (offset := position_ l - Position a) :
  IsBound l = true -> IsJTypeImm offset = false ->
  EmitJump rd l op distance a = EmitJump Reg.ZR l op distance a /\
  (forall d, EmitFarJump d a <> Err BranchDistanceExceeds2GB /\
             EmitFarJump d a = EmitFarJump (d - 2 ^ 32) a).
Proof.
  intros Hb Hj. split.
  - unfold EmitJump, LabelPosition. rewrite Hb, ASSERT_true by done. cbn [rbind]. fold offset.
    by rewrite Hj.
  - intros d. rewrite !EmitFarJump_site. split; [done|].
    assert (ImmLo (d - 2 ^ 32) = ImmLo d) as El.
    { rewrite !ImmLo_wrap. rewrite <- (wrapS_add_multiple 12 d (- 2 ^ 20)). f_equal. }
    assert (ImmHi (d - 2 ^ 32) = ImmHi d) as Eh.
    { rewrite !ImmHi_wrap, <- !ImmLo_wrap, El.
      rewrite <- (wrapS_add_multiple 32 (d - ImmLo d) (-1)). f_equal. lia. }
    cbn [site_bytes]. unfold auipc_word, jr_word. by rewrite El, Eh.
Qed.

(** Adding the zero register.  With compressed instructions enabled and
    assertions compiled out, [add(rd, rd, ZR)] emits the encoding of c.jalr:
    executed, it calls the address in [rd]. *)
Theorem add_zero_jumps rd a :
  inU 5 rd -> rd <> Reg.ZR -> Supports a RV_C = true -> DEBUG = false ->
  implements (MicroAssembler.add rd rd Reg.ZR) a (exec_jalr Reg.RA rd 0).
Proof.
  intros Hd Hz HC HD. assert (inU 5 Reg.ZR) by done.
  assert (forall c, ASSERT c = Ok tt) as HA by (intros c; unfold ASSERT; by rewrite HD).
  unfold implements. replace (MicroAssembler.add rd rd Reg.ZR a) with (MicroAssembler.c_jalr rd a).
  - by apply c_jalr_runs.
  - unfold MicroAssembler.add, MicroAssembler.c_jalr, MicroAssembler.c_add.
    rewrite HC, Z.eqb_refl, !HA. cbn [rbind andb]. by change EncodeCRs1 with EncodeCRd.
Qed.

(** [mulw] multiplies in [int], so it is defined exactly when the product fits
    32 bits. *)
Lemma mulw_defined a b :
  SimInt.mulw a b = if decide (inS 32 (a * b)) then Ok (a * b) else Err UndefinedBehavior.
Proof.
  unfold SimInt.mulw, smul, inS.
  destruct (decide _) as [[E1 E2]|E].
  - by rewrite (proj2 (Z.leb_le _ _) E1), (proj2 (Z.ltb_lt _ _) E2).
  - destruct (Z.leb_spec (- 2 ^ (32 - 1)) (a * b)), (Z.ltb_spec (a * b) (2 ^ (32 - 1))); try done.
    destruct E. lia.
Qed.

End Deviations.
