(* ===== verification/SimMemSpec.v ===== *)
(** * SimMemSpec: memory, floating-point registers and the random generator

    Reading back what was written, through memory and through the NaN-boxed
    registers, what a store leaves alone, and the exact arithmetic of
    [Random]. *)

From stdpp Require Import base numbers list gmap.
From Stdlib Require Import Lia.
From S2P Require Import Prelude Constants Encoding CEncoding AsmBuffer MicroAsm SimState.
From S2P Require Import SimInt SimAtomic SimFloat SimCompressed Simulator Isa IntSpec BitSpec.
From S2P Require Import AsmExec AsmFormats RefineOp RefineMem Refinement SimInv RefineAtomic.

#[local] Open Scope Z_scope.
#[local] Open Scope res_scope.

(** ** Bytes *)

Lemma store_bytes_other m addr n v m' x :
  store_bytes m addr n v = Ok m' -> x < addr \/ addr + Z.of_nat n <= x -> m' !! x = m !! x.
Proof.
  revert m addr v. induction n as [|n IH]; intros m addr v E Hx; cbn [store_bytes] in E;
    [by simplify_eq|].
  destruct (m !! addr) eqn:Ea; [|done]. rewrite (IH _ _ _ E) by lia.
  apply lookup_insert_ne. lia.
Qed.

Lemma store_bytes_at m addr n v m' :
  store_bytes m addr n v = Ok m' -> code_at m' addr (le_split n v).
Proof.
  revert m addr v. induction n as [|n IH]; intros m addr v E; cbn [store_bytes le_split] in *;
    [by intros i x Hi|].
  destruct (m !! addr) eqn:Ea; [|done]. apply code_at_cons. split.
  - rewrite (store_bytes_other _ _ _ _ _ addr E) by lia. by rewrite lookup_insert_eq.
  - by eapply IH.
Qed.

Lemma store_bytes_dom m addr n v m' :
  store_bytes m addr n v = Ok m' -> dom m' = dom m.
Proof.
  revert m addr v. induction n as [|n IH]; intros m addr v E; cbn [store_bytes] in E;
    [by simplify_eq|].
  destruct (m !! addr) eqn:Ea; [|done]. rewrite (IH _ _ _ E), dom_insert_L.
  apply elem_of_dom_2 in Ea. by apply subseteq_union_1_L, singleton_subseteq_l.
Qed.

Lemma load_bytes_frame m m' addr n :
  (forall x, addr <= x < addr + Z.of_nat n -> m' !! x = m !! x) ->
  load_bytes m' addr n = load_bytes m addr n.
Proof.
  revert addr. induction n as [|n IH]; intros addr Hx; cbn [load_bytes]; [done|].
  rewrite Hx by lia. destruct (m !! addr); [|done]. by rewrite IH by (intros; apply Hx; lia).
Qed.

Definition ctype_bits (ty : ctype) : Z := 8 * sizeof ty.

Lemma cast_mod ty v : cast ty (v mod 2 ^ ctype_bits ty) = cast ty v.
Proof.
  change (v mod 2 ^ ctype_bits ty) with (wrapU (ctype_bits ty) v).
  by destruct ty; cbn [cast];
    first [ exact (wrapU_wrapU 8 v) | exact (wrapU_wrapU 16 v) | exact (wrapU_wrapU 32 v)
          | exact (wrapU_wrapU 64 v) | exact (wrapS_wrapU 8 v eq_refl) | exact (wrapS_wrapU 16 v eq_refl)
          | exact (wrapS_wrapU 32 v eq_refl) | exact (wrapS_wrapU 64 v eq_refl) ].
Qed.
Lemma cast_cast ty v : cast ty (cast ty v) = cast ty v.
Proof. destruct ty; cbn [cast]; by rewrite ?wrapU_wrapU, ?wrapS_wrapS by lia. Qed.
Lemma sizeof_nat ty : Z.of_nat (Z.to_nat (sizeof ty)) = sizeof ty.
Proof. by destruct ty. Qed.

Section SimMemSpec.
Context `{Target} `{HostNaN} `{Host}.

Lemma MemoryWrite_spec ty addr v base s s' :
  MemoryWrite ty addr v base s = Ok s' ->
  LoadUnaligned ty (mem_ s') addr = Ok (cast ty v) /\
  s' = set_mem s (mem_ s') /\ dom (mem_ s') = dom (mem_ s) /\
  (forall x, x < addr \/ addr + sizeof ty <= x -> mem_ s' !! x = mem_ s !! x).
Proof.
  unfold MemoryWrite. intros E. apply rbind_ok_inv in E as (_ & _ & E).
  apply rbind_ok_inv in E as (m & Em & E). simplify_eq. unfold StoreUnaligned in Em.
  cbn [mem_ set_mem]. split_and!; [|done|by eapply store_bytes_dom|].
  - unfold LoadUnaligned. rewrite (load_bytes_split _ _ _ (cast ty v)) by (by eapply store_bytes_at).
    cbn [rbind]. rewrite sizeof_nat.
    change (8 * sizeof ty) with (ctype_bits ty). by rewrite cast_mod, cast_cast.
  - intros x Hx. eapply store_bytes_other; [exact Em|]. by rewrite sizeof_nat.
Qed.

Lemma le_split_wrap n v : le_split n (wrapU (8 * Z.of_nat n) v) = le_split n v.
Proof.
  revert v. induction n as [|n IH]; intros v; [done|]. cbn [le_split].
  replace (8 * Z.of_nat (S n)) with (8 + 8 * Z.of_nat n) by lia. unfold wrapU in *.
  rewrite Z.pow_add_r, (Z.rem_mul_r v) by (pose proof (pow2_pos (8 * Z.of_nat n)); lia).
  change (2 ^ 8) with 256. rewrite (Z.mul_comm 256), Z_mod_plus_full, Z.mod_mod by lia. f_equal.
  rewrite Z.div_add, (Z.div_small (v mod 256)) by (try apply Z.mod_pos_bound; lia). apply IH.
Qed.

Lemma exec_store_spec op rs2 addr len s t :
  exec_store op rs2 addr len s = Ok t ->
  code_at (mem_ t) (effective s addr) (le_split (Z.to_nat (sizeof (stop_type op))) (get_xreg s rs2)) /\
  (forall x, x < effective s addr \/ effective s addr + sizeof (stop_type op) <= x -> mem_ t !! x = mem_ s !! x) /\
  dom (mem_ t) = dom (mem_ s) /\ xregs_ t = xregs_ s /\ fregs_ t = fregs_ s /\ pc_ t = ux (pc_ s + len).
Proof.
  unfold exec_store. intros (s1 & E & [= <-])%rbind_ok_inv.
  destruct (MemoryWrite_spec _ _ _ _ _ _ E) as (_ & Es & Hdom & Ho). split_and!; [|done|done|by rewrite Es..].
  unfold MemoryWrite in E. apply rbind_ok_inv in E as (_ & _ & E). apply rbind_ok_inv in E as (m & Em & [= <-]).
  apply store_bytes_at in Em. rewrite <- (le_split_wrap _ (get_xreg s rs2)). by destruct op.
Qed.

(** C26.  Integer stores.  Every store (sb, sh, sw, sd), in the long form or in
    the compressed stack-pointer or register form the assembler picks, is emitted
    as one instruction, which the simulator executes as exec_store and with
    exactly its failures; and when that succeeds, the 1, 2, 4 or 8 low bytes of
    the register are at the address base + offset, little-endian, no other byte
    and no register has changed, the same addresses are mapped and the program
    counter is after the instruction.  Addresses have an offset in range of the
    instruction. *)
Theorem store_refines op rs2 addr a :
  stop_width op -> inU 5 rs2 -> wf_address addr -> Supports a RV_I = true ->
  implements (stop_asm op rs2 addr) a (exec_store op rs2 addr) /\
  forall len s t, exec_store op rs2 addr len s = Ok t ->
    code_at (mem_ t) (effective s addr) (le_split (Z.to_nat (sizeof (stop_type op))) (get_xreg s rs2)) /\
    (forall x, x < effective s addr \/ effective s addr + sizeof (stop_type op) <= x -> mem_ t !! x = mem_ s !! x) /\
    dom (mem_ t) = dom (mem_ s) /\ xregs_ t = xregs_ s /\ fregs_ t = fregs_ s /\ pc_ t = ux (pc_ s + len).
Proof. intros. split; [by apply store_implements|intros; by eapply exec_store_spec]. Qed.

(** Memory round trip.  A store that succeeds is read back converted to
    its type; no byte outside of it, no register and no other part of the
    state changes, and the same addresses stay mapped. *)
Theorem MemoryWrite_read ty addr v base s s' :
  MemoryWrite ty addr v base s = Ok s' ->
  LoadUnaligned ty (mem_ s') addr = Ok (cast ty v) /\
  s' = set_mem s (mem_ s') /\ dom (mem_ s') = dom (mem_ s) /\
  (forall x, x < addr \/ addr + sizeof ty <= x -> mem_ s' !! x = mem_ s !! x).
Proof. apply MemoryWrite_spec. Qed.

(** ** NaN boxing *)

Lemma land_nanbox v : inU 64 v -> Z.land v kNaNBox = kNaNBox <-> v / 2 ^ 32 = 2 ^ 32 - 1.
Proof.
  intros Hv. change kNaNBox with (Z.shiftl (Z.ones 32) 32).
  assert (v / 2 ^ 32 = Z.shiftr v 32) as E by (by rewrite Z.shiftr_div_pow2).
  assert (Z.land v (Z.shiftl (Z.ones 32) 32) = Z.shiftl (Z.shiftr v 32) 32) as E2.
  { bitblast. }
  rewrite E2, E. change (2 ^ 32 - 1) with (Z.ones 32). split; [|by intros ->].
  intros Es. apply (f_equal (fun z => Z.shiftr z 32)) in Es.
  by rewrite !Z.shiftr_shiftl_l, !Z.shiftl_0_r in Es by lia.
Qed.

(** NaN boxing.  A single written to a register is read back; a single
    read from a register whose upper half is not all ones is the canonical
    NaN, and a double is read back as it was written. *)
Theorem nan_boxing s r v :
  sim_ok s -> inU 5 r ->
  (inU 32 v -> get_fregs (set_fregs s r v) r = v) /\
  (inU 64 v -> get_fregd (set_fregd s r v) r = v /\
     get_fregs (set_fregd s r v) r =
       if v / 2 ^ 32 =? 2 ^ 32 - 1 then v mod 2 ^ 32 else quiet_NaN F32).
Proof.
  intros Hok Hr.
  assert (forall x, <[Z.to_nat r := x]> (fregs_ s) !!! Z.to_nat r = x) as Hl.
  { intros x. apply list_lookup_total_insert_eq. rewrite (ok_fregs_length s Hok).
    unfold inU in Hr. lia. }
  split; [intros Hv|intros Hv; split; [apply Hl|]].
  - unfold get_fregs, set_fregs. cbn [fregs_ set_fregs_list]. rewrite Hl.
    change kNaNBox with (Z.shiftl (Z.ones 32) 32).
    replace (Z.land _ _) with (Z.shiftl (Z.ones 32) 32) by bitblast.
    rewrite Z.eqb_refl. cbn [negb]. bitblast.
  - unfold get_fregs, set_fregd. cbn [fregs_ set_fregs_list]. rewrite Hl.
    pose proof (land_nanbox v Hv) as Hb.
    destruct (Z.eqb_spec (Z.land v kNaNBox) kNaNBox) as [E|E];
      destruct (Z.eqb_spec (v / 2 ^ 32) (2 ^ 32 - 1)); try tauto; done.
Qed.

End SimMemSpec.

(** ** Random *)

(** The generator is the multiply-with-carry recurrence, computed exactly:
    neither the product nor the sum overflows 64 bits. *)
Theorem Random_NextState_exact state :
  inU 64 state ->
  Random.NextState state = 0xffffda61 * (state mod 2 ^ 32) + state / 2 ^ 32 /\
  inU 64 (Random.NextState state).
Proof.
  intros Hs. unfold Random.NextState.
  change 0xffffffff with (Z.ones 32). rewrite !Z.land_ones, Z.shiftr_div_pow2 by lia.
  unfold inU in *. pose proof (Z.mod_pos_bound state (2 ^ 32) ltac:(lia)).
  assert (0 <= state / 2 ^ 32 < 2 ^ 32)
    by (split; [apply Z.div_pos; lia|apply Z.div_lt_upper_bound; lia]).
  rewrite (Z.mod_small (state / 2 ^ 32)) by lia.
  rewrite (wrapU_small 64 (_ * _)) by (unfold inU; nia).
  rewrite wrapU_small by (unfold inU; nia). nia.
Qed.

