(* ===== verification/AsmSeq.v ===== *)
(** * AsmSeq: straight-line sequences of instructions

    What a macro emits is a list of instructions; what they do, one after the
    other, is a list of effects on the simulator.  [block] relates the bytes
    to the effects, [run_effects] is their composition, and [block_runs] says
    that the simulator's loop executes the bytes as the effects, provided no
    store overwrites the code. *)

From stdpp Require Import base numbers list gmap.
From Stdlib Require Import Lia.
From S2P Require Import Prelude Constants Encoding CEncoding AsmBuffer MicroAsm AsmBranch SimState.
From S2P Require Import SimInt SimAtomic SimFloat SimCompressed Simulator Isa IntSpec BitSpec.
From S2P Require Import AsmExec AsmFormats RefineOp RefineImm RefineMem Refinement.
From S2P Require Import SimInv RefineBranch RefineLabel SimMemSpec.

#[local] Open Scope Z_scope.
#[local] Open Scope res_scope.

(** ** Effects *)

(** An instruction's effect apart from [pc_] and [instret_]. *)
Inductive effect : Type :=
| EWrite (rd : Z) (v : (Z -> Z) -> Z)        (* of the registers' values *)
| ELoad (op : lop) (rd : Z) (addr : Address)
| EStore (op : stop) (rs2 : Z) (addr : Address)
| EFload (ty : ctype) (rd : Z) (addr : Address)
| EFstore (ty : ctype) (rs2 : Z) (addr : Address).

Section AsmSeq.
Context `{Target} `{HostNaN} `{Host}.

Definition effect_sem (e : effect) (s : Sim) : Res Sim :=
  match e with
  | EWrite rd v => Ok (set_xreg s rd (v (get_xreg s)))
  | ELoad op rd addr =>
      let* v := MemoryRead (lop_type op) (effective s addr) (base addr) s in Ok (set_xreg s rd v)
  | EStore op rs2 addr =>
      MemoryWrite (stop_type op) (effective s addr) (get_xreg s rs2) (base addr) s
  | EFload ty rd addr =>
      let* v := MemoryRead ty (effective s addr) (base addr) s in
      Ok (match ty with float_t => set_fregs s rd v | _ => set_fregd s rd v end)
  | EFstore ty rs2 addr =>
      MemoryWrite ty (effective s addr)
        (match ty with float_t => get_fregs s rs2 | _ => get_fregd s rs2 end) (base addr) s
  end.

Fixpoint run_effects (l : list effect) (s : Sim) : Res Sim :=
  match l with
  | [] => Ok s
  | e :: l => let* t := effect_sem e s in run_effects l t
  end.

(** The bytes an effect writes. *)
Definition effect_stores (e : effect) (s : Sim) : option (Z * Z) :=
  match e with
  | EStore op _ addr => Some (effective s addr, sizeof (stop_type op))
  | EFstore ty _ addr => Some (effective s addr, sizeof ty)
  | _ => None
  end.

(** No store of the sequence hits the [n] bytes at [lo]. *)
Definition spares1 (e : effect) (s : Sim) (lo n : Z) : Prop :=
  match effect_stores e s with
  | Some (addr, size) => addr + size <= lo \/ lo + n <= addr
  | None => True
  end.
Fixpoint spares (l : list effect) (s : Sim) (lo n : Z) : Prop :=
  match l with
  | [] => True
  | e :: l => spares1 e s lo n /\ forall t, effect_sem e s = Ok t -> spares l t lo n
  end.

(** ** Code *)

Definition as_instruction (e : effect) (len : Z) (s : Sim) : Res Sim :=
  let* t := effect_sem e s in Ok (advance len t).

Definition effect_wf (e : effect) : Prop :=
  match e with EWrite rd _ | ELoad _ rd _ => inU 5 rd | _ => True end.

(** [bytes] is the code of the effects [l], one instruction each. *)
Inductive block : list Z -> list effect -> Prop :=
| block_nil : block [] []
| block_cons bytes e rest l :
    effect_wf e -> (length bytes = 2%nat \/ length bytes = 4%nat) ->
    runs_as bytes (as_instruction e) -> block rest l -> block (bytes ++ rest) (e :: l).

Lemma block_app b1 l1 b2 l2 : block b1 l1 -> block b2 l2 -> block (b1 ++ b2) (l1 ++ l2).
Proof.
  induction 1; intros; [done|]. rewrite <- app_assoc. constructor; auto.
Qed.

(** The state after the whole sequence: [t] with the program counter moved by
    [d] and [n] more instructions retired. *)
Definition moved (d : Z) (n : nat) (t : Sim) : Sim :=
  set_instret (add_pc t d) (u64 (instret_ t + Z.of_nat n)).

(** Memory holds [bytes] at [pc_], clear of the sentinel address. *)
Record runnable (bytes : list Z) (s : Sim) : Prop := {
  run_ok : sim_ok s;
  run_even : pc_ s mod 2 = 0;
  run_end : pc_ s + Z.of_nat (length bytes) <= 2 ^ XLEN - 2;
  run_code : code_at (mem_ s) (pc_ s) bytes
}.

(** The loop stops with [e] after finitely many iterations. *)
Definition fails (s : Sim) (e : error) : Prop :=
  exists n t, steps s n t /\ pc_ t <> kEndSimulatingPC /\ ExecuteOne t = Err e.

(** The loop executes [bytes] as [f]. *)
Definition executes (bytes : list Z) (n : nat) (f : Sim -> Res Sim) (s : Sim) : Prop :=
  match f s with
  | Ok t => steps s n (moved (Z.of_nat (length bytes)) n t)
  | Err e => fails s e
  end.

(** ** Effects leave [pc_], [instret_] and the code alone *)

Lemma MemoryWrite_moved ty addr v b d n s :
  MemoryWrite ty addr v b (moved d n s) =
  let* t := MemoryWrite ty addr v b s in Ok (moved d n t).
Proof.
  unfold MemoryWrite. change (CheckAccess (moved d n s) ty addr b) with (CheckAccess s ty addr b).
  destruct (CheckAccess s ty addr b); [|done]. cbn [rbind].
  change (mem_ (moved d n s)) with (mem_ s). by destruct (StoreUnaligned _ _ _ _).
Qed.

Lemma set_xreg_moved s rd v d n : set_xreg (moved d n s) rd v = moved d n (set_xreg s rd v).
Proof. unfold set_xreg. by destruct (rd =? Reg.ZR). Qed.

Lemma MemoryRead_moved ty addr b d n s :
  MemoryRead ty addr b (moved d n s) = MemoryRead ty addr b s.
Proof. done. Qed.

Lemma effect_moved e d n s :
  effect_sem e (moved d n s) = let* t := effect_sem e s in Ok (moved d n t).
Proof.
  destruct e as [rd v|op rd addr|op rs2 addr|ty rd addr|ty rs2 addr]; cbn [effect_sem rbind].
  - by rewrite set_xreg_moved.
  - change (effective (moved d n s) addr) with (effective s addr). rewrite MemoryRead_moved.
    destruct (MemoryRead _ _ _ s); [|done]. cbn [rbind]. by rewrite set_xreg_moved.
  - change (effective (moved d n s) addr) with (effective s addr).
    change (get_xreg (moved d n s)) with (get_xreg s). apply MemoryWrite_moved.
  - change (effective (moved d n s) addr) with (effective s addr). rewrite MemoryRead_moved.
    destruct (MemoryRead _ _ _ s); [|done]. cbn [rbind]. by destruct ty.
  - change (effective (moved d n s) addr) with (effective s addr).
    change (get_fregs (moved d n s)) with (get_fregs s).
    change (get_fregd (moved d n s)) with (get_fregd s). apply MemoryWrite_moved.
Qed.

Lemma run_effects_moved l d n s :
  run_effects l (moved d n s) = let* t := run_effects l s in Ok (moved d n t).
Proof.
  revert s. induction l as [|e l IH]; intros s; [done|]. cbn [run_effects].
  rewrite effect_moved. destruct (effect_sem e s) as [t|]; cbn [rbind]; [apply IH|done].
Qed.

Lemma run_effects_app l1 l2 s :
  run_effects (l1 ++ l2) s = let* t := run_effects l1 s in run_effects l2 t.
Proof.
  revert s. induction l1 as [|e l IH]; intros s; [done|]. cbn [run_effects app].
  destruct (effect_sem e s); cbn [rbind]; [apply IH|done].
Qed.

Lemma MemoryWrite_same ty addr v b s t :
  MemoryWrite ty addr v b s = Ok t -> t = set_mem s (mem_ t).
Proof. intros E. by apply MemoryWrite_spec in E as (_ & E & _). Qed.

Lemma effect_pc e s t : effect_sem e s = Ok t -> pc_ t = pc_ s /\ instret_ t = instret_ s.
Proof.
  destruct e as [rd v|op rd addr|op rs2 addr|ty rd addr|ty rs2 addr]; cbn [effect_sem]; intros E.
  - simplify_eq. unfold set_xreg. by destruct (rd =? _).
  - apply rbind_ok_inv in E as (? & _ & E). simplify_eq. unfold set_xreg. by destruct (rd =? _).
  - apply MemoryWrite_same in E. by rewrite E.
  - apply rbind_ok_inv in E as (? & _ & E). simplify_eq. by destruct ty.
  - apply MemoryWrite_same in E. by rewrite E.
Qed.

Lemma effect_ok e s t : effect_wf e -> sim_ok s -> effect_sem e s = Ok t -> sim_ok t.
Proof.
  destruct e as [rd v|op rd addr|op rs2 addr|ty rd addr|ty rs2 addr]; cbn [effect_sem effect_wf];
    intros Hd Hok E.
  - simplify_eq. by apply ok_set_xreg.
  - apply rbind_ok_inv in E as (? & _ & E). simplify_eq. by apply ok_set_xreg.
  - by eapply ok_MemoryWrite.
  - apply rbind_ok_inv in E as (? & _ & E). simplify_eq. destruct ty; auto with sim_ok.
  - by eapply ok_MemoryWrite.
Qed.

Lemma effect_code e s t lo bytes :
  spares1 e s lo (Z.of_nat (length bytes)) -> effect_sem e s = Ok t ->
  code_at (mem_ s) lo bytes -> code_at (mem_ t) lo bytes.
Proof.
  assert (forall ty addr v b,
    MemoryWrite ty addr v b s = Ok t ->
    addr + sizeof ty <= lo \/ lo + Z.of_nat (length bytes) <= addr ->
    code_at (mem_ s) lo bytes -> code_at (mem_ t) lo bytes) as Hw.
  { intros ty addr v b E Ha Hc i x Hi. apply MemoryWrite_spec in E as (_ & _ & _ & Ho).
    rewrite Ho; [by apply Hc|]. apply lookup_lt_Some in Hi. lia. }
  destruct e as [rd v|op rd addr|op rs2 addr|ty rd addr|ty rs2 addr];
    cbn [effect_sem]; unfold spares1; cbn [effect_stores]; intros Hs E Hc.
  - simplify_eq. unfold set_xreg. by destruct (rd =? _).
  - apply rbind_ok_inv in E as (? & _ & E). simplify_eq. unfold set_xreg. by destruct (rd =? _).
  - by eapply Hw.
  - apply rbind_ok_inv in E as (? & _ & E). simplify_eq. by destruct ty.
  - by eapply Hw.
Qed.

(** The rest of the code only needs to be spared by the rest. *)
Lemma spares_weaken l : forall s lo n lo' n',
  lo <= lo' -> lo' + n' <= lo + n -> spares l s lo n -> spares l s lo' n'.
Proof.
  induction l as [|e l IH]; intros s lo n lo' n' Hlo Hn Hs; [done|]. destruct Hs as [Hs Hr].
  split; [|intros t Et; eapply IH; eauto].
  revert Hs. unfold spares1. destruct (effect_stores e s) as [[addr size]|]; [lia|done].
Qed.

Lemma spares_moved l d n s lo k : spares l s lo k -> spares l (moved d n s) lo k.
Proof.
  revert s. induction l as [|e l IH]; intros s Hs; [done|]. destruct Hs as [Hs Hr]. split.
  - revert Hs. unfold spares1. by destruct e.
  - intros t Et. rewrite effect_moved in Et. destruct (effect_sem e s) as [u|] eqn:Eu; [|done].
    cbn [rbind] in Et. simplify_eq. by apply IH, Hr.
Qed.

Lemma moved_moved d1 n1 d2 n2 t : moved d2 n2 (moved d1 n1 t) = moved (d1 + d2) (n1 + n2) t.
Proof.
  unfold moved, add_pc. destruct t. unfold set_instret, set_pc. simpl. f_equal.
  - rewrite ux_add_l. f_equal. lia.
  - rewrite wrapU_idem_add_l. f_equal. lia.
Qed.

Lemma moved_0 t : sim_ok t -> moved 0 0 t = t.
Proof.
  intros Hok. unfold moved, add_pc. destruct Hok. destruct t. unfold set_instret, set_pc. simpl in *.
  rewrite !Z.add_0_r. f_equal; [by apply ux_small|by apply wrapU_small].
Qed.

Lemma not_end s : pc_ s < 2 ^ XLEN - 2 -> pc_ s <> kEndSimulatingPC.
Proof. unfold kEndSimulatingPC. rewrite ux_end. lia. Qed.

Lemma ok_moved d n s : sim_ok s -> sim_ok (moved d n s).
Proof.
  intros Hok. unfold moved. pose proof (ok_add_pc s d Hok) as [? ? ? ? ? ? ?].
  constructor; try done. apply wrapU_range. lia.
Qed.

Lemma fails_step s t e : pc_ s <> kEndSimulatingPC -> ExecuteOne s = Ok t -> fails t e -> fails s e.
Proof.
  intros Hpc E (n & u & Hs & Hu & Eu). exists (S n), u. split; [|done]. by eapply steps_S.
Qed.

(** The loop runs the code of a block as its effects. *)
Lemma block_runs bytes l : block bytes l -> forall s,
  runnable bytes s -> spares l s (pc_ s) (Z.of_nat (length bytes)) ->
  executes bytes (length l) (run_effects l) s.
Proof.
  induction 1 as [|bytes e rest l He Hlen Hrun Hb IH]; intros s [Hok Hev Hend Hc] Hsp.
  { unfold executes. cbn [run_effects length]. rewrite moved_0 by done. constructor. }
  rewrite length_app in *. apply code_at_app in Hc as [Hc1 Hc2]. destruct Hsp as [Hsp1 Hsp].
  pose proof (ok_pc s Hok) as Hpc. unfold inU in Hpc.
  assert (pc_ s <> kEndSimulatingPC) as Hne by (apply not_end; lia).
  pose proof (Hrun s Hok Hev Hc1) as E. unfold as_instruction in E.
  unfold executes. cbn [run_effects length].
  destruct (effect_sem e s) as [t|err] eqn:Et; cbn [rbind] in E |- *.
  2: { exists 0%nat, s. split; [constructor|done]. }
  pose proof (effect_pc e s t Et) as [Ep Ei]. pose proof (effect_ok e s t He Hok Et) as Hokt.
  set (d := Z.of_nat (length bytes)) in *.
  change (advance d t) with (moved d 1 t) in E.
  assert (pc_ (moved d 1 t) = pc_ s + d) as Ep1.
  { change (ux (pc_ t + d) = pc_ s + d). rewrite Ep. apply ux_small. unfold inU. lia. }
  assert (executes rest (length l) (run_effects l) (moved d 1 t)) as IH'.
  { apply IH; [constructor|].
    - by apply ok_moved.
    - rewrite Ep1, Zplus_mod, Hev. unfold d. by destruct Hlen as [-> | ->].
    - rewrite Ep1. lia.
    - rewrite Ep1. change (mem_ (moved d 1 t)) with (mem_ t). eapply effect_code; [|exact Et|exact Hc2].
      revert Hsp1. unfold spares1. destruct (effect_stores e s) as [[x y]|]; [lia|done].
    - rewrite Ep1. apply spares_moved. eapply spares_weaken; [| |by apply Hsp]; lia. }
  unfold executes in IH'. rewrite run_effects_moved in IH'.
  destruct (run_effects l t) as [u|err]; cbn [rbind] in IH'.
  - eapply steps_S; [done|exact E|]. rewrite moved_moved in IH'.
    by rewrite length_app, Nat2Z.inj_add.
  - by eapply fails_step.
Qed.

(** ** Emitting sequences *)

Definition emits (r : Res Asm) (a : Asm) (l : list effect) : Prop :=
  exists bytes, r = Ok (set_buffer a (buffer_ a ++ bytes)) /\ block bytes l.

Lemma emits_nil a : emits (Ok a) a [].
Proof. exists []. split; [|constructor]. rewrite app_nil_r. by destruct a. Qed.

Lemma emits_one m a e :
  effect_wf e -> implements m a (as_instruction e) -> emits (m a) a [e].
Proof.
  intros He (bytes & E & Hl & Hr). exists bytes. split; [done|].
  rewrite <- (app_nil_r bytes). constructor; try done. constructor.
Qed.

Lemma set_buffer_set_buffer a b c : set_buffer (set_buffer a b) c = set_buffer a c.
Proof. done. Qed.

Lemma emits_seq r (k : Asm -> Res Asm) a l1 l2 :
  emits r a l1 -> (forall b, emits (k (set_buffer a b)) (set_buffer a b) l2) ->
  emits (let* a := r in k a) a (l1 ++ l2).
Proof.
  intros (b1 & -> & Hb1) Hk. cbn [rbind]. destruct (Hk (buffer_ a ++ b1)) as (b2 & -> & Hb2).
  exists (b1 ++ b2). split; [|by apply block_app]. cbn [buffer_ set_buffer].
  by rewrite app_assoc.
Qed.

End AsmSeq.
