(* ===== verification/SimCalls.v ===== *)
(** * SimCalls: redirections, host calls and unwinding

    The table of redirections, what an ECALL guarantees to the code around it,
    the walk over the setjmp buffers and [JumpToFrame]. *)

From stdpp Require Import base numbers list gmap.
From Stdlib Require Import Lia.
From S2P Require Import Prelude Constants Encoding CEncoding AsmBuffer MicroAsm SimState.
From S2P Require Import SimInt SimAtomic SimFloat SimCompressed Simulator Isa IntSpec BitSpec.
From S2P Require Import AsmExec AsmFormats RefineOp RefineMem SimInv.

#[local] Open Scope Z_scope.
#[local] Open Scope res_scope.

(** ** The table of redirections *)

(** No two records share a function or an ECALL. *)
Definition redirections_ok (l : list Redirection) : Prop :=
  NoDup (external_function_ <$> l) /\ NoDup (address_of_ecall_instruction <$> l).

Lemma find_unique {A} (f : A -> Z) (l : list A) (x : A) :
  NoDup (f <$> l) -> x ∈ l -> List.find (fun y => f y =? f x) l = Some x.
Proof.
  induction l as [|y l IH]; intros Hnd Hin; [by apply elem_of_nil in Hin|]. cbn [fmap list_fmap] in Hnd.
  apply NoDup_cons in Hnd as [Hy Hnd]. simpl. destruct (Z.eqb_spec (f y) (f x)) as [E|E].
  - apply elem_of_cons in Hin as [->|Hin]; [done|]. destruct Hy. rewrite E.
    by apply list_elem_of_fmap_2.
  - apply elem_of_cons in Hin as [->|Hin]; [done|]. by apply IH.
Qed.

Lemma find_absent {A} (f : A -> Z) (l : list A) z :
  List.find (fun y => f y =? z) l = None -> z ∉ (f <$> l).
Proof.
  intros E Hin. apply list_elem_of_fmap in Hin as (x & -> & Hx).
  pose proof (List.find_none _ _ E x (proj1 (list_elem_of_In _ _) Hx)) as N.
  cbv beta in N. by rewrite Z.eqb_refl in N.
Qed.

Lemma find_present {A} (f : A -> Z) (l : list A) z x :
  List.find (fun y => f y =? z) l = Some x -> x ∈ l /\ f x = z.
Proof.
  intros E. apply List.find_some in E as [Hin E%Z.eqb_eq]. split; [|done].
  by apply list_elem_of_In.
Qed.

(** The table of redirections.  [Redirection::Get] returns the record of
    the function, adding one at a fresh address when there is none; the table
    stays free of duplicates and keeps every record, the record's ECALL
    address leads back to the record and to the function, and asking again
    returns the same record and table. *)
Theorem Redirection_Get_spec l fresh external kind argc r l' :
  redirections_ok l -> fresh ∉ (address_of_ecall_instruction <$> l) ->
  Redirection_Get l fresh external kind argc = (r, l') ->
  redirections_ok l' /\ l `suffix_of` l' /\ external_function_ r = external /\
  FromECallInstruction l' (address_of_ecall_instruction r) = Ok r /\
  FunctionForRedirect l' (address_of_ecall_instruction r) = external /\
  (forall fresh' kind' argc', Redirection_Get l' fresh' external kind' argc' = (r, l')).
Proof.
  intros [Hx Ha] Hf E. unfold Redirection_Get in E.
  assert (redirections_ok l' /\ l `suffix_of` l' /\ external_function_ r = external /\ r ∈ l')
    as (Hok & Hs & Hr & Hin).
  { destruct (List.find _ l) as [cur|] eqn:Ef; simplify_eq.
    - apply find_present in Ef as [Hin Hr]. by split_and!.
    - split_and!; try done.
      + split; cbn [fmap list_fmap]; apply NoDup_cons; split; try done.
        by apply find_absent.
      + by exists [mkRedirection fresh external kind argc].
      + constructor. }
  split_and!; try done; destruct Hok as [Hx' Ha'].
  - unfold FromECallInstruction. by rewrite (find_unique address_of_ecall_instruction).
  - unfold FunctionForRedirect. by rewrite (find_unique address_of_ecall_instruction).
  - intros. unfold Redirection_Get. rewrite <- Hr. by rewrite (find_unique external_function_).
Qed.

(** ** The walk over the setjmp buffers *)

(** [JumpToFrame]'s walk.  From a non-empty list of buffers, innermost
    first, the walk drops buffers as long as the next one was set up at or
    below the target stack pointer: what remains is a non-empty suffix, every
    buffer it moved to is at or below the target, and the one after it is
    above. *)
Theorem find_setjmp_buffer_spec bufs sp :
  bufs <> [] ->
  exists dropped cur rest,
    bufs = dropped ++ cur :: rest /\ find_setjmp_buffer bufs sp = cur :: rest /\
    (dropped <> [] -> cur <= sp) /\ Forall (fun link => link <= sp) (tail dropped) /\
    (forall link rest', rest = link :: rest' -> sp < link).
Proof.
  induction bufs as [|x bufs IH]; intros Hne; [done|]. destruct bufs as [|y bufs].
  { exists [], x, []. by split_and!. }
  cbn [find_setjmp_buffer]. destruct (Z.leb_spec y sp).
  - destruct (IH ltac:(done)) as (dropped & cur & rest & E & Ew & Hc & Hd & Hr).
    exists (x :: dropped), cur, rest. split_and!; [by rewrite E|exact Ew| | |exact Hr].
    + intros _. destruct dropped; [|by apply Hc]. simpl in E. by injection E as -> _.
    + destruct dropped as [|d dropped]; [done|]. simpl in *. simplify_eq. by constructor.
  - exists [], x, (y :: bufs). split_and!; try done. intros link rest' [= -> ->]. done.
Qed.

(** ** Host calls *)

Section SimCalls.
Context `{Target} `{HostNaN} `{Host}.

(** The parts of the state that clobbering registers leaves alone. *)
Definition same_rest (s t : Sim) : Prop :=
  pc_ t = pc_ s /\ mem_ t = mem_ s /\ setjmp_sps_ t = setjmp_sps_ s /\
  stack_base_ t = stack_base_ s /\ stack_limit_ t = stack_limit_ s.

Lemma randomize_xregs_spec regs s :
  same_rest s (randomize_xregs regs s) /\ fregs_ (randomize_xregs regs s) = fregs_ s /\
  (forall r, 0 <= r -> reg_in regs r = false ->
     get_xreg (randomize_xregs regs s) r = get_xreg s r).
Proof.
  unfold randomize_xregs.
  assert (forall l s, (forall i, In i l -> 0 <= i) ->
    let t := foldl (fun s i => if reg_in regs i then
      let '(v, st) := Random.NextUInt64 (random_ s) in
      set_random (set_xregs s (<[Z.to_nat i := ux v]> (xregs_ s))) st else s) s l in
    same_rest s t /\ fregs_ t = fregs_ s /\
    (forall r, 0 <= r -> reg_in regs r = false -> get_xreg t r = get_xreg s r)) as Hl.
  { induction l as [|i l IH]; intros t Hi; [done|]. cbn [foldl].
    destruct (reg_in regs i) eqn:Er; [|apply IH; intros; apply Hi; by right].
    destruct (Random.NextUInt64 (random_ t)) as [v st].
    destruct (IH (set_random (set_xregs t (<[Z.to_nat i := ux v]> (xregs_ t))) st))
      as (Hs & Hf & Hx); [intros; apply Hi; by right|].
    split; [exact Hs|]. split; [exact Hf|]. intros r Hr Hn. rewrite Hx by done.
    unfold get_xreg. cbn. apply list_lookup_total_insert_ne.
    specialize (Hi i (or_introl eq_refl)). intros E. apply Z2Nat.inj in E; [|done|done].
    congruence. }
  apply Hl. intros i Hi%list_elem_of_In%elem_of_seqZ. lia.
Qed.

Lemma nanbox_fregs_spec regs s :
  same_rest s (nanbox_fregs regs s) /\ xregs_ (nanbox_fregs regs s) = xregs_ s.
Proof.
  unfold nanbox_fregs. generalize (seqZ 0 kNumberOfFpuRegisters). intros l. revert s.
  induction l as [|i l IH]; intros s; [done|]. cbn [foldl].
  destruct (reg_in regs i); [|apply IH].
  by destruct (IH (set_fregs_list s (<[Z.to_nat i := kNaNBox]> (fregs_ s)))) as [? ?].
Qed.

Lemma clobber_spec regs fregs s (t := nanbox_fregs fregs (randomize_xregs regs s)) :
  same_rest s t /\
  (forall r, 0 <= r -> reg_in regs r = false -> get_xreg t r = get_xreg s r).
Proof.
  destruct (randomize_xregs_spec regs s) as (Hs & _ & Hx).
  destruct (nanbox_fregs_spec fregs (randomize_xregs regs s)) as [Hs' Hx'].
  fold t in Hs', Hx'. clearbody t. split.
  - unfold same_rest in *. intuition congruence.
  - intros r Hr Hn. rewrite <- (Hx r Hr Hn). unfold get_xreg. by rewrite Hx'.
Qed.

#[local] Opaque randomize_xregs nanbox_fregs.

Lemma ClobberVolatileRegisters_spec s :
  same_rest s (ClobberVolatileRegisters s) /\
  (forall r, 0 <= r -> reg_in kAbiVolatileCpuRegs r = false ->
     get_xreg (ClobberVolatileRegisters s) r = get_xreg s r).
Proof.
  unfold ClobberVolatileRegisters. destruct DEBUG; [|done].
  exact (clobber_spec kAbiVolatileCpuRegs kAbiVolatileFpuRegs (set_reserved s 0 0)).
Qed.

Lemma HostResult_spec kind v s :
  same_rest s (HostResult kind v s) /\
  (forall r, 0 <= r < 32 -> reg_in kAbiVolatileCpuRegs r = false ->
     get_xreg (HostResult kind v s) r = get_xreg s r).
Proof.
  destruct (ClobberVolatileRegisters_spec s) as [Hs Hx]. unfold HostResult.
  destruct kind; (split; [exact Hs|]); intros r Hr Hn; try (apply Hx; [lia|done]).
  rewrite <- (Hx r) by (done || lia). unfold get_xreg, set_xreg.
  change (Reg.A0 =? Reg.ZR) with false. cbn [xregs_ set_xregs].
  apply list_lookup_total_insert_ne. intros E.
  assert (r = Reg.A0) as -> by (change Reg.A0 with 10 in *; lia). by vm_compute in Hn.
Qed.

(** An ECALL that returns.  When the ECALL at [pc_] belongs to a
    redirection, the stack is aligned and the host function returns with the
    buffers as it found them, execution resumes at the return address the
    caller left in RA, the caller's buffers are back, memory is as the host
    left it, no register the ABI preserves differs from what the host left,
    and a leaf call's integer result is in A0. *)
Theorem ECALL_returns w s r e v t :
  Instr.rs1 w = Reg.ZR -> IsAligned (get_xreg s Reg.SP) 16 = true ->
  FromECallInstruction redirections (pc_ s) = Ok r ->
  HostCall r (push_setjmp_buffer s) = Ok e -> e = Returned v t ->
  sim_ok t -> setjmp_sps_ t = setjmp_sps_ (push_setjmp_buffer s) ->
  exists s', InterpretECALL w s = Ok s' /\
    pc_ s' = get_xreg s Reg.RA /\ setjmp_sps_ s' = setjmp_sps_ s /\ mem_ s' = mem_ t /\
    (forall i, 0 <= i < 32 -> reg_in kAbiVolatileCpuRegs i = false ->
       get_xreg s' i = get_xreg t i) /\
    (call_kind_ r = kLeafRuntimeCall -> get_xreg s' Reg.A0 = ux v).
Proof.
  intros Hz Hsp Hr Hc -> Hok Hb. unfold InterpretECALL. rewrite Hz, Hsp.
  change (Reg.ZR =? Reg.ZR) with true. cbn [negb].
  change (pc_ (push_setjmp_buffer s)) with (pc_ s). rewrite Hr. cbn [rbind]. rewrite Hc. cbn [rbind].
  eexists. split; [reflexivity|].
  destruct (HostResult_spec (call_kind_ r) v t) as [(Hpc & Hm & Hj & _) Hx].
  unfold pop_setjmp_buffer. cbn [pc_ set_pc setjmp_sps_ set_setjmp_sps mem_].
  split_and!; [done|by rewrite Hj, Hb|done| |].
  - intros i Hi Hn. by apply Hx.
  - intros Hk. rewrite Hk. unfold HostResult.
    pose proof (ok_ClobberVolatileRegisters t Hok) as Hok'.
    unfold get_xreg, set_xreg. change (Reg.A0 =? Reg.ZR) with false. cbn.
    apply list_lookup_total_insert_eq. rewrite (ok_xregs_length _ Hok'). change Reg.A0 with 10. lia.
Qed.

(** [Call] from C++ puts the stack pointer back: the code runs with SP
    rounded down to the ABI's alignment, and when the call returns, SP is what
    it was before it, simulation ended at the sentinel, and an integer result
    is A0. *)
Theorem Call_restores_sp `{!HostOk} fuel entry p0 p1 p2 p3 fp_args s v s' :
  sim_ok s -> Call fuel entry p0 p1 p2 p3 false fp_args s = Ok (v, s') ->
  sim_ok s' /\ get_xreg s' Reg.SP = get_xreg s Reg.SP /\ pc_ s' = kEndSimulatingPC /\
  v = s64 (get_xreg s' Reg.A0).
Proof.
  intros Hok E. unfold Call in E. rewrite Execute_NoTrace in E.
  set (s1 := if fp_args then _ else _) in E.
  assert (sim_ok s1) as Hok1 by (unfold s1; destruct fp_args; auto 10 with sim_ok).
  apply rbind_ok_inv in E as (t & Et & E). apply rbind_ok_inv in E as ([] & _ & E).
  apply ExecuteNoTrace_steps in Et as (n & _ & Hs & Hpc).
  assert (sim_ok t) as Hokt by (eapply steps_ok; [|exact Hs]; auto 10 with sim_ok).
  cbn [rbind] in E. simplify_eq.
  assert (inU 5 Reg.SP) as Hsp by done.
  split_and!; [auto with sim_ok| | |done].
  - unfold get_xreg at 1, set_xreg. change (Reg.SP =? Reg.ZR) with false. cbn [xregs_ set_xregs].
    rewrite list_lookup_total_insert_eq by (rewrite (ok_xregs_length t Hokt); change Reg.SP with 2; lia).
    rewrite ux_sx. apply ux_small. by apply get_xreg_ok.
  - unfold set_xreg. by destruct (Reg.SP =? Reg.ZR).
Qed.

End SimCalls.
