(* ===== verification/ImmRoundTrip.v ===== *)
(** * ImmRoundTrip: immediates survive encoding and decoding

    The five 32-bit and twelve 16-bit immediate formats of
    runtime/vm/constants_riscv.h as one table. *)

From stdpp Require Import base numbers list gmap.
From Stdlib Require Import Lia.
From S2P Require Import Prelude Constants Encoding CEncoding AsmBuffer MicroAsm SimState.
From S2P Require Import SimInt SimAtomic SimFloat SimCompressed Simulator Isa IntSpec BitSpec.
From S2P Require Import AsmExec AsmFormats AsmCFormats RefineC.

#[local] Open Scope Z_scope.
#[local] Open Scope res_scope.

Inductive immfmt : Set :=
| ImmI | ImmS | ImmB | ImmJ | ImmU
| ImmCSPLoad4 | ImmCSPLoad8 | ImmCSPStore4 | ImmCSPStore8 | ImmCMem4 | ImmCMem8
| ImmCJ | ImmCB | ImmCI | ImmCU | ImmCI16 | ImmCI4SPN.

Section ImmRoundTrip.
Context `{Target}.

Definition imm_valid (f : immfmt) : Z -> bool :=
  match f with
  | ImmI => IsITypeImm | ImmS => IsSTypeImm | ImmB => IsBTypeImm | ImmJ => IsJTypeImm
  | ImmU => IsUTypeImm | ImmCSPLoad4 => IsCSPLoad4Imm | ImmCSPLoad8 => IsCSPLoad8Imm
  | ImmCSPStore4 => IsCSPStore4Imm | ImmCSPStore8 => IsCSPStore8Imm | ImmCMem4 => IsCMem4Imm
  | ImmCMem8 => IsCMem8Imm | ImmCJ => IsCJImm | ImmCB => IsCBImm | ImmCI => IsCIImm
  | ImmCU => IsCUImm | ImmCI16 => IsCI16Imm | ImmCI4SPN => IsCI4SPNImm
  end.
Definition imm_encode (f : immfmt) : Z -> Res Z :=
  match f with
  | ImmI => EncodeITypeImm | ImmS => EncodeSTypeImm | ImmB => EncodeBTypeImm
  | ImmJ => EncodeJTypeImm | ImmU => EncodeUTypeImm | ImmCSPLoad4 => EncodeCSPLoad4Imm
  | ImmCSPLoad8 => EncodeCSPLoad8Imm | ImmCSPStore4 => EncodeCSPStore4Imm
  | ImmCSPStore8 => EncodeCSPStore8Imm | ImmCMem4 => EncodeCMem4Imm | ImmCMem8 => EncodeCMem8Imm
  | ImmCJ => EncodeCJImm | ImmCB => EncodeCBImm | ImmCI => EncodeCIImm | ImmCU => EncodeCUImm
  | ImmCI16 => EncodeCI16Imm | ImmCI4SPN => EncodeCI4SPNImm
  end.
Definition imm_decode (f : immfmt) : Z -> Z :=
  match f with
  | ImmI => DecodeITypeImm | ImmS => DecodeSTypeImm | ImmB => DecodeBTypeImm
  | ImmJ => DecodeJTypeImm | ImmU => DecodeUTypeImm | ImmCSPLoad4 => DecodeCSPLoad4Imm
  | ImmCSPLoad8 => DecodeCSPLoad8Imm | ImmCSPStore4 => DecodeCSPStore4Imm
  | ImmCSPStore8 => DecodeCSPStore8Imm | ImmCMem4 => DecodeCMem4Imm | ImmCMem8 => DecodeCMem8Imm
  | ImmCJ => DecodeCJImm | ImmCB => DecodeCBImm | ImmCI => DecodeCIImm | ImmCU => DecodeCUImm
  | ImmCI16 => DecodeCI16Imm | ImmCI4SPN => DecodeCI4SPNImm
  end.
(** The bits a format may set. *)
Definition imm_width (f : immfmt) : Z :=
  match f with ImmI | ImmS | ImmB | ImmJ | ImmU => 32 | _ => 16 end.

Definition round_trips (f : immfmt) (imm : Z) : Prop :=
  exists w, imm_encode f imm = Ok w /\ inU (imm_width f) w /\ imm_decode f w = imm.

Lemma round_trip_32 f imm :
  imm_width f = 32 -> imm_valid f imm = true -> inS kBitsPerWord imm -> round_trips f imm.
Proof.
  intros Hf Hv Hw. unfold round_trips.
  destruct f; try discriminate Hf; cbn [imm_valid imm_encode imm_decode imm_width] in *; clear Hf.
  - eexists. split_and!; [by apply EncodeITypeImm_ok|word_range|].
    apply DecodeITypeImm_fields; [by apply IsITypeImm_spec|by simpl_fields].
  - eexists. split_and!; [by apply EncodeSTypeImm_ok|unfold stype_imm_word; word_range|].
    apply DecodeSTypeImm_fields; [by apply IsSTypeImm_spec|unfold stype_imm_word; by simpl_fields..].
  - pose proof (proj1 (IsBTypeImm_spec imm) Hv) as [??].
    eexists. split_and!; [by apply EncodeBTypeImm_ok|unfold btype_imm_word; word_range|].
    apply DecodeBTypeImm_fields; [done|done|unfold btype_imm_word; by simpl_fields..].
  - pose proof (proj1 (IsJTypeImm_spec imm) Hv) as [??].
    eexists. split_and!; [by apply EncodeJTypeImm_ok|unfold jtype_imm_word; word_range|].
    apply DecodeJTypeImm_fields; [done|done|unfold jtype_imm_word; by simpl_fields..].
  - pose proof (proj1 (IsUTypeImm_spec imm Hw) Hv) as [??].
    eexists. assert (inU 32 (Z.shiftl (field imm 12 20) 12)) by word_range.
    split_and!; [by apply EncodeUTypeImm_ok|done|].
    apply DecodeUTypeImm_fields; [done..|by simpl_fields].
Qed.

Ltac c_round_trip ok fields :=
  eexists; split_and!; [by apply ok | c_range | c_imm fields].

Lemma round_trip_16 f imm :
  imm_width f = 16 -> imm_valid f imm = true -> round_trips f imm.
Proof.
  intros Hf Hv. unfold round_trips.
  destruct f; try discriminate Hf; cbn [imm_valid imm_encode imm_decode imm_width] in *; clear Hf.
  - c_round_trip EncodeCSPLoad4Imm_ok DecodeCSPLoad4Imm_fields.
  - c_round_trip EncodeCSPLoad8Imm_ok DecodeCSPLoad8Imm_fields.
  - c_round_trip EncodeCSPStore4Imm_ok DecodeCSPStore4Imm_fields.
  - c_round_trip EncodeCSPStore8Imm_ok DecodeCSPStore8Imm_fields.
  - c_round_trip EncodeCMem4Imm_ok DecodeCMem4Imm_fields.
  - c_round_trip EncodeCMem8Imm_ok DecodeCMem8Imm_fields.
  - c_round_trip EncodeCJImm_ok DecodeCJImm_fields.
  - c_round_trip EncodeCBImm_ok DecodeCBImm_fields.
  - c_round_trip EncodeCIImm_ok DecodeCIImm_fields.
  - c_round_trip EncodeCUImm_ok DecodeCUImm_fields.
  - c_round_trip EncodeCI16Imm_ok DecodeCI16Imm_fields.
  - c_round_trip EncodeCI4SPNImm_ok DecodeCI4SPNImm_fields.
Qed.

(** Immediate round trip.  In each of the seventeen immediate formats, an
    immediate its predicate accepts is encoded within the instruction's width
    and decoded back to itself; a DEBUG build rejects every other one. *)
Theorem immediate_round_trip f imm :
  inS kBitsPerWord imm ->
  (imm_valid f imm = true -> round_trips f imm) /\
  (imm_valid f imm = false -> DEBUG = true -> imm_encode f imm = Err AssertionFailure).
Proof.
  intros Hw. split.
  - intros Hv. destruct (decide (imm_width f = 32)); [by apply round_trip_32|].
    apply round_trip_16; [by destruct f|done].
  - intros Hv Hd. assert (forall c : bool, c = false -> ASSERT c = Err AssertionFailure) as HA.
    { intros c ->. unfold ASSERT. by rewrite Hd. }
    destruct f; cbn [imm_encode imm_valid] in *;
      unfold EncodeITypeImm, EncodeSTypeImm, EncodeBTypeImm, EncodeJTypeImm, EncodeUTypeImm,
        EncodeCSPLoad4Imm, EncodeCSPLoad8Imm, EncodeCSPStore4Imm, EncodeCSPStore8Imm,
        EncodeCMem4Imm, EncodeCMem8Imm, EncodeCJImm, EncodeCBImm, EncodeCIImm, EncodeCUImm,
        EncodeCI16Imm, EncodeCI4SPNImm;
      by rewrite (HA _ Hv).
Qed.

End ImmRoundTrip.
