(* ===== verification/HashMap.v ===== *)
(** * HashMap: BaseDirectChainedHashMap (runtime/vm/hash_map.h)

    A hash table with open addressing and linear probing.  [hash_table_] holds
    indices into [pairs_], which is filled in the order of insertion; a slot
    is otherwise empty or a tombstone.  A removed pair becomes the default
    pair, recognised by its value; [Resize] drops those and inserts the others
    again.  Reading or writing past the end of an array is undefined. *)

From stdpp Require Import base numbers list.
From Stdlib Require Import Lia.
From S2P Require Import Prelude Constants.

#[local] Open Scope Z_scope.
#[local] Open Scope res_scope.

(** ** Traits *)

(** The template parameter [KeyValueTrait]; [no_pair] is [Pair()]. *)
Class KeyValueTrait (Key Value Pair : Type) := {
  KeyOf : Pair -> Key;
  ValueOf : Pair -> Value;
  Hash : Key -> Z;
  IsKeyEqual : Pair -> Key -> bool;
  no_pair : Pair;
  Value_eq_dec :: EqDecision Value
}.

(** What the map relies on: equal keys have equal hashes. *)
Class KeyValueLaws `(KeyValueTrait Key Value Pair) : Prop := {
  IsKeyEqual_hash kv k : IsKeyEqual kv k = true -> Hash (KeyOf kv) = Hash k
}.

(** [FLAG_hash_map_probes_limit]; its default is [kMaxInt32]. *)
Class MapFlags := { hash_map_probes_limit : Z }.

(** [RELEASE_ASSERT(cond)]: checked in every build. *)
Definition RELEASE_ASSERT (cond : bool) : Res unit :=
  if cond then Ok tt else Err AssertionFailure.

(** [Utils::RoundUpToPowerOfTwo] on [uintptr_t]. *)
Definition RoundUpToPowerOfTwo `{Target} (x : Z) : Z :=
  let smear n x := Z.lor x (Z.shiftr x n) in
  let x := wrapU kBitsPerWord (x - 1) in
  let x := smear 16 (smear 8 (smear 4 (smear 2 (smear 1 x)))) in
  let x := if kBitsPerWord =? 64 then smear 32 x else x in
  wrapU kBitsPerWord (x + 1).

Definition kEmpty : Z := 2 ^ 32 - 1.
Definition kDeleted : Z := 2 ^ 32 - 2.
Definition kInitialSize : Z := 16.

(** The element at an index of an array. *)
Definition array_get {A} (l : list A) (i : Z) : Res A :=
  match (if 0 <=? i then l !! Z.to_nat i else None) with
  | Some x => Ok x
  | None => Err UndefinedBehavior
  end.

Definition array_set {A} (l : list A) (i : Z) (x : A) : Res (list A) :=
  if (0 <=? i) && (i <? Z.of_nat (length l)) then Ok (<[Z.to_nat i := x]> l)
  else Err UndefinedBehavior.

Section HashMap.
Context `{Target} `{!MapFlags} `{trait : KeyValueTrait Key Value Pair}.

(** ** The data *)

Record Map : Type := mkMap {
  hash_table_ : list Z;
  pairs_ : list Pair;
  hash_table_size_ : Z;
  pairs_size_ : Z;
  next_pair_index_ : Z;
  deleted_count_ : Z
}.

Definition set_hash_table (m : Map) t :=
  mkMap t (pairs_ m) (hash_table_size_ m) (pairs_size_ m) (next_pair_index_ m) (deleted_count_ m).
Definition set_pairs (m : Map) p :=
  mkMap (hash_table_ m) p (hash_table_size_ m) (pairs_size_ m) (next_pair_index_ m) (deleted_count_ m).

Definition kNoValue : Value := ValueOf no_pair.

Definition Size (m : Map) : Z := u32 (next_pair_index_ m - deleted_count_ m).
Definition IsEmpty (m : Map) : bool := Size m =? 0.

(** ** Lookup *)

(** The loop of [Lookup] at [hash_index], after [probes] probes. *)
Fixpoint Lookup_loop (fuel : nat) (m : Map) (key : Key) (mask start hash_index probes : Z)
    : Res (option Z) :=
  match fuel with
  | O => Err OutOfFuel
  | S fuel =>
      let* pair_index := array_get (hash_table_ m) hash_index in
      if pair_index =? kEmpty then Ok None else
      let next probes :=
        let hash_index := Z.land (u32 (hash_index + 1)) mask in
        ASSERT (negb (hash_index =? start)) ;;
        Lookup_loop fuel m key mask start hash_index probes in
      if pair_index =? kDeleted then next probes else
      ASSERT (pair_index <? pairs_size_ m) ;;
      RELEASE_ASSERT (probes + 1 <? hash_map_probes_limit) ;;
      let* kv := array_get (pairs_ m) pair_index in
      if IsKeyEqual kv key then Ok (Some pair_index) else next (probes + 1)
  end.

(** The bound on the iterations of a probing loop. *)
Definition probe_fuel (m : Map) : nat := length (hash_table_ m).

(** [Lookup]: the index of the pair it points to. *)
Definition Lookup (key : Key) (m : Map) : Res (option Z) :=
  let hash := Hash key in
  let mask := u32 (hash_table_size_ m - 1) in
  let hash_index := Z.land hash mask in
  Lookup_loop (probe_fuel m) m key mask hash_index hash_index 0.

Definition LookupValue (key : Key) (m : Map) : Res Value :=
  let* found := Lookup key m in
  match found with
  | None => Ok kNoValue
  | Some i => let* kv := array_get (pairs_ m) i in Ok (ValueOf kv)
  end.

Definition HasKey (key : Key) (m : Map) : Res bool :=
  let* found := Lookup key m in Ok (bool_decide (found <> None)).

(** ** Insertion *)

(** The loop of [Insert]: the slot the pair goes to. *)
Fixpoint Insert_loop (fuel : nat) (m : Map) (mask start hash_index probes : Z) : Res Z :=
  match fuel with
  | O => Err OutOfFuel
  | S fuel =>
      let* pair_index := array_get (hash_table_ m) hash_index in
      if (pair_index =? kEmpty) || (pair_index =? kDeleted) then Ok hash_index else
      RELEASE_ASSERT (probes + 1 <? hash_map_probes_limit) ;;
      ASSERT (pair_index <? pairs_size_ m) ;;
      let hash_index := Z.land (u32 (hash_index + 1)) mask in
      ASSERT (negb (hash_index =? start)) ;;
      Insert_loop fuel m mask start hash_index (probes + 1)
  end.

(** [Insert] up to the growth of the table. *)
Definition InsertPair (kv : Pair) (m : Map) : Res Map :=
  ASSERT (next_pair_index_ m <? pairs_size_ m) ;;
  let hash := Hash (KeyOf kv) in
  let mask := u32 (hash_table_size_ m - 1) in
  let hash_index := Z.land hash mask in
  let* slot := Insert_loop (probe_fuel m) m mask hash_index hash_index 0 in
  let* table := array_set (hash_table_ m) slot (next_pair_index_ m) in
  let* pairs := array_set (pairs_ m) (next_pair_index_ m) kv in
  Ok (mkMap table pairs (hash_table_size_ m) (pairs_size_ m)
        (u32 (next_pair_index_ m + 1)) (deleted_count_ m)).

(** The loop of [Resize] over the old pairs: it counts the pairs it keeps and
    those it drops. *)
Fixpoint reinsert (insert : Pair -> Map -> Res Map) (old : list Pair) (used deleted : Z) (m : Map)
    : Res (Z * Z * Map) :=
  match old with
  | [] => Ok (used, deleted, m)
  | kv :: old =>
      if decide (ValueOf kv = kNoValue) then reinsert insert old used (u32 (deleted + 1)) m
      else let* m := insert kv m in reinsert insert old (u32 (used + 1)) deleted m
  end.

(** [Resize], with the [Insert] it calls. *)
Definition Resize_with (insert : Pair -> Map -> Res Map) (new_size : Z) (m : Map) : Res Map :=
  ASSERT (Size m <=? new_size) ;;
  if decide (inS kBitsPerWord (new_size * 4)) then
  let table_size := u32 (RoundUpToPowerOfTwo (Z.quot (new_size * 4) 3 + 1)) in
  let fresh := mkMap (replicate (Z.to_nat table_size) kEmpty)
                 (replicate (Z.to_nat (u32 new_size)) no_pair) table_size (u32 new_size) 0 0 in
  let old := take (Z.to_nat (next_pair_index_ m)) (pairs_ m) in
  let* r := reinsert insert old 0 0 fresh in
  let '(used, deleted, m') := r in
  ASSERT (deleted =? deleted_count_ m) ;;
  ASSERT (used =? Size m) ;;
  ASSERT (used =? next_pair_index_ m') ;;
  Ok m'
  else Err UndefinedBehavior.

(** [Insert] and [Resize] call each other; [depth] bounds the nesting. *)
Fixpoint Insert_depth (depth : nat) (kv : Pair) (m : Map) : Res Map :=
  match depth with
  | O => Err OutOfFuel
  | S depth =>
      let* m := InsertPair kv m in
      if next_pair_index_ m =? pairs_size_ m
      then Resize_with (Insert_depth depth) (Z.shiftl (Size m) 1) m
      else Ok m
  end.

Definition Insert : Pair -> Map -> Res Map := Insert_depth 2.
Definition Resize : Z -> Map -> Res Map := Resize_with (Insert_depth 1).

(** The constructor. *)
Definition new_Map (initial_size : Z) : Res Map := Resize initial_size (mkMap [] [] 0 0 0 0).

Definition Update (kv : Pair) (m : Map) : Res Map :=
  ASSERT (bool_decide (ValueOf kv <> kNoValue)) ;;
  let* old := Lookup (KeyOf kv) m in
  match old with
  | Some i => let* p := array_set (pairs_ m) i kv in Ok (set_pairs m p)
  | None => Insert kv m
  end.

(** ** Removal *)

(** The loop of [Remove]: the slot and the pair it holds. *)
Fixpoint Remove_loop (fuel : nat) (m : Map) (key : Key) (mask start hash_index probes : Z)
    : Res (option (Z * Z)) :=
  match fuel with
  | O => Err OutOfFuel
  | S fuel =>
      let* pair_index := array_get (hash_table_ m) hash_index in
      if pair_index =? kEmpty then Ok None else
      let next probes :=
        let hash_index := Z.land (u32 (hash_index + 1)) mask in
        ASSERT (negb (hash_index =? start)) ;;
        Remove_loop fuel m key mask start hash_index probes in
      if pair_index =? kDeleted then next probes else
      ASSERT (pair_index <? pairs_size_ m) ;;
      RELEASE_ASSERT (probes + 1 <? hash_map_probes_limit) ;;
      let* kv := array_get (pairs_ m) pair_index in
      if IsKeyEqual kv key then Ok (Some (hash_index, pair_index)) else next (probes + 1)
  end.

Definition Remove (key : Key) (m : Map) : Res (bool * Map) :=
  let hash := Hash key in
  let mask := u32 (hash_table_size_ m - 1) in
  let hash_index := Z.land hash mask in
  let* r := Remove_loop (probe_fuel m) m key mask hash_index hash_index 0 in
  match r with
  | None => Ok (false, m)
  | Some (slot, i) =>
      let* table := array_set (hash_table_ m) slot kDeleted in
      let* pairs := array_set (pairs_ m) i no_pair in
      Ok (true, mkMap table pairs (hash_table_size_ m) (pairs_size_ m) (next_pair_index_ m)
                  (u32 (deleted_count_ m + 1)))
  end.

Definition Clear (m : Map) : Map :=
  mkMap (replicate (length (hash_table_ m)) kEmpty)
    (replicate (Z.to_nat (next_pair_index_ m)) no_pair ++ drop (Z.to_nat (next_pair_index_ m)) (pairs_ m))
    (hash_table_size_ m) (pairs_size_ m) 0 0.

(** [Iterator::Next] from [pair_index_]: the pair and the new [pair_index_]. *)
Fixpoint Next_loop (fuel : nat) (m : Map) (pair_index : Z) : Res (option Pair * Z) :=
  match fuel with
  | O => Err OutOfFuel
  | S fuel =>
      if negb (pair_index <? next_pair_index_ m) then Ok (None, pair_index) else
      let* kv := array_get (pairs_ m) pair_index in
      if decide (ValueOf kv = kNoValue) then Next_loop fuel m (u32 (pair_index + 1))
      else Ok (Some kv, u32 (pair_index + 1))
  end.
Definition Next (m : Map) (pair_index : Z) : Res (option Pair * Z) :=
  Next_loop (S (length (pairs_ m))) m pair_index.

End HashMap.
Arguments Map : clear implicits.
