(* ===== verification/HashMapSpec.v ===== *)
(** * HashMapSpec: the hash map as a list of pairs

    [elements] is the abstract value of a map: its live pairs in the order of
    their insertion.  [map_wf] says that every live pair can be reached from
    the home slot of its key without crossing an empty slot, and that the
    table always keeps an empty slot, so that the probing loops end. *)

From stdpp Require Import base numbers list.
From Stdlib Require Import Lia.
From S2P Require Import Prelude Constants HashMap.

#[local] Open Scope Z_scope.
#[local] Open Scope res_scope.

(** ** Rounding up *)

(** The [t] bits of [x] up to bit [L] are set, and none above. *)
Definition top_bits (L t x : Z) : Prop :=
  0 <= x /\ forall i, 0 <= i ->
    (L - t < i <= L -> Z.testbit x i = true) /\ (L < i -> Z.testbit x i = false).

Lemma smear_top L t x : 0 < t -> top_bits L t x -> top_bits L (2 * t) (Z.lor x (Z.shiftr x t)).
Proof.
  intros Ht [Hx Hb]. split; [apply Z.lor_nonneg; split; [done|by apply Z.shiftr_nonneg]|].
  intros i Hi. rewrite Z.lor_spec, Z.shiftr_spec by done. split; intros HL.
  - destruct (Z.lt_ge_cases (L - t) i) as [Hc|Hc].
    + by rewrite (proj1 (Hb i Hi)) by lia.
    + rewrite (proj1 (Hb (i + t) ltac:(lia))) by lia. apply orb_true_r.
  - by rewrite (proj2 (Hb i Hi)), (proj2 (Hb (i + t) ltac:(lia))) by lia.
Qed.

Lemma top_bits_all L t x : 0 <= L < t -> top_bits L t x -> x = 2 ^ (L + 1) - 1.
Proof.
  intros HL [Hx Hb]. replace (2 ^ (L + 1) - 1) with (Z.ones (L + 1)) by (rewrite Z.ones_equiv; lia). apply Z.bits_inj'. intros i Hi.
  rewrite testbit_ones by lia. destruct (Z.ltb_spec i (L + 1)).
  - rewrite (proj1 (Hb i Hi)) by lia. symmetry. apply andb_true_iff. lia.
  - rewrite (proj2 (Hb i Hi)) by lia. by rewrite andb_false_r.
Qed.

Lemma RoundUpToPowerOfTwo_spec `{Target} x :
  1 <= x <= 2 ^ 30 ->
  exists k, 0 <= k <= 30 /\ RoundUpToPowerOfTwo x = 2 ^ k /\ x <= 2 ^ k.
Proof.
  intros Hx. unfold RoundUpToPowerOfTwo.
  assert (32 <= kBitsPerWord) as Hw by (destruct kBitsPerWord_cases; lia).
  assert (2 ^ 32 <= 2 ^ kBitsPerWord) as Hp by (apply Z.pow_le_mono_r; lia).
  rewrite (wrapU_small _ (x - 1)) by (unfold inU; lia).
  destruct (decide (x = 1)) as [->|Hne].
  { exists 0. split; [lia|]. split; [|lia].
    replace (if kBitsPerWord =? 64 then _ else _) with 0 by by destruct (kBitsPerWord =? 64).
    apply wrapU_small. unfold inU. lia. }
  set (y := x - 1). set (L := Z.log2 y).
  assert (2 ^ L <= y < 2 ^ (L + 1)) as HL by (apply Z.log2_spec; lia).
  assert (0 <= L) by apply Z.log2_nonneg.
  assert (L < 30) by (apply Z.log2_lt_pow2; lia).
  assert (top_bits L 1 y) as T1.
  { split; [lia|]. intros i Hi. split; intros Hc.
    - replace i with L by lia. apply Z.bit_log2. lia.
    - apply Z.bits_above_log2; lia. }
  do 5 (apply smear_top in T1; [|lia]). cbn [Z.mul Pos.mul] in T1.
  assert (2 ^ (L + 1) <= 2 ^ 30) by (apply Z.pow_le_mono_r; lia).
  exists (L + 1). split; [lia|].
  assert (forall z, z = 2 ^ (L + 1) - 1 -> wrapU kBitsPerWord (z + 1) = 2 ^ (L + 1)) as Hz.
  { intros z ->. rewrite wrapU_small by (unfold inU; lia). lia. }
  split; [|lia]. apply Hz. destruct (kBitsPerWord =? 64).
  - apply smear_top in T1; [|lia]. eapply top_bits_all; [|exact T1]. lia.
  - eapply top_bits_all; [|exact T1]. lia.
Qed.

(** ** Arrays *)

Lemma array_get_ok {A} (l : list A) i x :
  0 <= i -> l !! Z.to_nat i = Some x -> array_get l i = Ok x.
Proof. intros Hi E. unfold array_get. by rewrite (proj2 (Z.leb_le 0 i) Hi), E. Qed.

Lemma array_set_ok {A} (l : list A) i x :
  0 <= i < Z.of_nat (length l) -> array_set l i x = Ok (<[Z.to_nat i := x]> l).
Proof.
  intros Hi. unfold array_set.
  by rewrite (proj2 (Z.leb_le 0 i)), (proj2 (Z.ltb_lt i _)) by lia.
Qed.

Lemma filter_insert {A} (P : A -> Prop) `{!forall x, Decision (P x)} (l : list A) i x y :
  l !! i = Some y ->
  exists l1 l2, l = l1 ++ y :: l2 /\ <[i := x]> l = l1 ++ x :: l2 /\ length l1 = i /\
    filter P l = filter P l1 ++ filter P [y] ++ filter P l2 /\
    filter P (<[i := x]> l) = filter P l1 ++ filter P [x] ++ filter P l2.
Proof.
  intros E. assert (i < length l)%nat as Hi by by eapply lookup_lt_Some.
  exists (take i l), (drop (S i) l).
  assert (l = take i l ++ y :: drop (S i) l) as El by by rewrite take_drop_middle.
  assert (<[i := x]> l = take i l ++ x :: drop (S i) l) as Ei.
  { by rewrite insert_take_drop. }
  split_and!; [done|done|rewrite length_take; lia| |].
  - rewrite El at 1. rewrite filter_app. f_equal. apply (filter_app _ [y]).
  - rewrite Ei, filter_app. f_equal. apply (filter_app _ [x]).
Qed.

Lemma filter_all {A} (P : A -> Prop) `{!forall x, Decision (P x)} (l : list A) :
  Forall P l -> filter P l = l.
Proof. induction 1; [done|]. rewrite filter_cons_True by done. by f_equal. Qed.

Lemma filter_none {A} (P : A -> Prop) `{!forall x, Decision (P x)} (l : list A) :
  Forall (fun x => ~ P x) l -> filter P l = [].
Proof. induction 1; [done|]. by rewrite filter_cons_False. Qed.

(** ** The abstract map *)

Section HashMapSpec.
Context `{Target} `{!MapFlags} `{trait : KeyValueTrait Key Value Pair} `{!KeyValueLaws trait}.
Hypothesis Hlimit : hash_map_probes_limit = 2 ^ 31 - 1.

#[local] Notation Map := (Map Pair).

Definition is_live (kv : Pair) : Prop := ValueOf kv <> kNoValue.
#[export] Instance is_live_dec kv : Decision (is_live kv) := _.

Definition elements (m : Map) : list Pair :=
  filter is_live (take (Z.to_nat (next_pair_index_ m)) (pairs_ m)).

(** Index [p] holds the live pair [kv]. *)
Definition live (m : Map) (p : Z) (kv : Pair) : Prop :=
  0 <= p < next_pair_index_ m /\ pairs_ m !! Z.to_nat p = Some kv /\ is_live kv.

(** The slot at distance [d] from [h], cyclically. *)
Definition pos (m : Map) (h : Z) (d : nat) : Z := (h + Z.of_nat d) mod hash_table_size_ m.
Definition slot (m : Map) (i : Z) : option Z := hash_table_ m !! Z.to_nat i.
Definition home (m : Map) (key : Key) : Z := Hash key mod hash_table_size_ m.

(** [p] is found by probing from [h]. *)
Definition reaches (m : Map) (h p : Z) : Prop :=
  exists d, Z.of_nat d < hash_table_size_ m /\ slot m (pos m h d) = Some p /\
    forall d', (d' < d)%nat -> slot m (pos m h d') <> Some kEmpty.

Definition special (v : Z) : Prop := v = kEmpty \/ v = kDeleted.

Record map_wf (m : Map) : Prop := {
  wf_size : exists k, 0 <= k <= 30 /\ hash_table_size_ m = 2 ^ k;
  wf_table : Z.of_nat (length (hash_table_ m)) = hash_table_size_ m;
  wf_pairs : Z.of_nat (length (pairs_ m)) = pairs_size_ m;
  wf_next : 0 <= next_pair_index_ m <= pairs_size_ m;
  wf_load : pairs_size_ m < hash_table_size_ m;
  wf_used : Z.of_nat (length (filter (fun v => v <> kEmpty) (hash_table_ m))) <= next_pair_index_ m;
  wf_slot : forall i v, hash_table_ m !! i = Some v -> special v \/ exists kv, live m v kv;
  wf_reach : forall p kv, live m p kv -> reaches m (home m (KeyOf kv)) p;
  wf_inj : forall i j v, hash_table_ m !! i = Some v -> hash_table_ m !! j = Some v ->
    ~ special v -> i = j;
  wf_deleted : deleted_count_ m = next_pair_index_ m - Z.of_nat (length (elements m))
}.

(** Between operations there is room for a pair. *)
Definition map_ok (m : Map) : Prop := map_wf m /\ next_pair_index_ m < pairs_size_ m.

(** ** Probing *)

Section Probe.
Context (m : Map) (Hwf : map_wf m).

Lemma size_bounds : 1 <= hash_table_size_ m <= 2 ^ 30.
Proof.
  destruct (wf_size m Hwf) as (k & Hk & ->).
  assert (2 ^ 0 <= 2 ^ k <= 2 ^ 30) by (split; apply Z.pow_le_mono_r; lia). lia.
Qed.

Lemma pos_range h d : 0 <= pos m h d < hash_table_size_ m.
Proof. pose proof size_bounds. apply Z.mod_pos_bound. lia. Qed.

Lemma slot_some i : 0 <= i < hash_table_size_ m -> exists v, slot m i = Some v.
Proof.
  intros Hi. apply lookup_lt_is_Some. pose proof (wf_table m Hwf). lia.
Qed.

Lemma pos_inj h d d' :
  Z.of_nat d < hash_table_size_ m -> Z.of_nat d' < hash_table_size_ m ->
  pos m h d = pos m h d' -> d = d'.
Proof.
  intros Hd Hd' E. unfold pos in E. apply Z.cong_iff_ex in E as [q E].
  assert (q = 0) as -> by nia. lia.
Qed.

Lemma pos_onto h i : 0 <= i < hash_table_size_ m ->
  exists d, Z.of_nat d < hash_table_size_ m /\ pos m h d = i.
Proof.
  intros Hi. exists (Z.to_nat ((i - h) mod hash_table_size_ m)). pose proof size_bounds.
  pose proof (Z.mod_pos_bound (i - h) (hash_table_size_ m) ltac:(lia)).
  rewrite Z2Nat.id by lia. split; [lia|]. unfold pos. rewrite Z2Nat.id by lia.
  rewrite Zplus_mod_idemp_r. replace (h + (i - h)) with i by lia. by apply Z.mod_small.
Qed.

Lemma mask_mod x : Z.land x (u32 (hash_table_size_ m - 1)) = x mod hash_table_size_ m.
Proof.
  pose proof size_bounds. rewrite wrapU_small by (unfold inU; lia).
  destruct (wf_size m Hwf) as (k & Hk & ->).
  replace (2 ^ k - 1) with (Z.ones k) by (rewrite Z.ones_equiv; lia). apply Z.land_ones. lia.
Qed.

(** One step of a probing loop. *)
Lemma pos_step h d :
  Z.land (u32 (pos m h d + 1)) (u32 (hash_table_size_ m - 1)) = pos m h (S d).
Proof.
  pose proof (pos_range h d). pose proof size_bounds. rewrite mask_mod.
  rewrite wrapU_small by (unfold inU; lia). unfold pos. rewrite Zplus_mod_idemp_l. f_equal. lia.
Qed.

Lemma pos_0 h : 0 <= h < hash_table_size_ m -> pos m h 0 = h.
Proof. intros. unfold pos. rewrite Z.add_0_r. by apply Z.mod_small. Qed.

Lemma pos_not_start h d :
  0 <= h < hash_table_size_ m -> Z.of_nat (S d) < hash_table_size_ m ->
  ASSERT (negb (pos m h (S d) =? h)) = Ok tt.
Proof.
  intros Hh Hd. apply ASSERT_true, negb_true_iff, Z.eqb_neq. intros E.
  rewrite <- (pos_0 h Hh) in E at 2. apply pos_inj in E; lia.
Qed.

(** Some slot is empty. *)
Lemma empty_slot h : exists d, Z.of_nat d < hash_table_size_ m /\ slot m (pos m h d) = Some kEmpty.
Proof.
  assert (exists i, hash_table_ m !! i = Some kEmpty) as [i Ei].
  { apply list_elem_of_lookup. destruct (decide (kEmpty ∈ hash_table_ m)) as [?|Hn]; [done|].
    exfalso. pose proof (wf_used m Hwf). pose proof (wf_load m Hwf). pose proof (wf_next m Hwf).
    pose proof (wf_table m Hwf). rewrite filter_all in *; [lia|].
    apply Forall_forall. intros v Hv ->. done. }
  pose proof (lookup_lt_Some _ _ _ Ei). pose proof (wf_table m Hwf).
  destruct (pos_onto h (Z.of_nat i)) as (d & Hd & Ed); [lia|].
  exists d. split; [done|]. rewrite Ed. unfold slot. by rewrite Nat2Z.id.
Qed.

(** The first slot where a loop stops. *)
Lemma first_stop h (stop : Z -> bool) :
  stop kEmpty = true ->
  exists d v, Z.of_nat d < hash_table_size_ m /\ slot m (pos m h d) = Some v /\ stop v = true /\
    forall d', (d' < d)%nat -> exists v', slot m (pos m h d') = Some v' /\ stop v' = false.
Proof.
  intros Hs. destruct (empty_slot h) as (d & Hd & Ed).
  assert (forall e, (e <= d)%nat ->
    (forall d', (d' < d - e)%nat -> exists v', slot m (pos m h d') = Some v' /\ stop v' = false) ->
    exists d v, Z.of_nat d < hash_table_size_ m /\ slot m (pos m h d) = Some v /\ stop v = true /\
      forall d', (d' < d)%nat -> exists v', slot m (pos m h d') = Some v' /\ stop v' = false) as Hind.
  { induction e as [|e IH]; intros He Hb.
    - exists d, kEmpty. rewrite Nat.sub_0_r in Hb. by split_and!.
    - destruct (slot_some (pos m h (d - S e)) (pos_range h _)) as [v Ev].
      destruct (stop v) eqn:Es.
      + exists (d - S e)%nat, v. split_and!; [lia|done..].
      + apply IH; [lia|]. intros d' Hd'. destruct (decide (d' = d - S e)%nat) as [->|]; [by exists v|].
        apply Hb. lia. }
  apply (Hind d); [done|]. intros d' Hd'. lia.
Qed.

Lemma slot_get i v : 0 <= i -> slot m i = Some v -> array_get (hash_table_ m) i = Ok v.
Proof. by apply array_get_ok. Qed.

Lemma next_small : next_pair_index_ m < 2 ^ 30.
Proof. pose proof size_bounds. pose proof (wf_next m Hwf). pose proof (wf_load m Hwf). lia. Qed.

Lemma live_not_special p kv : live m p kv -> ~ special p.
Proof. intros [Hp _] [-> | ->]; pose proof next_small; unfold kEmpty, kDeleted in *; lia. Qed.

(** Where the loops of [Lookup] and [Remove] stop. *)
Definition lookup_stop (key : Key) (v : Z) : bool :=
  (v =? kEmpty) ||
  (negb (v =? kDeleted) &&
   match pairs_ m !! Z.to_nat v with Some kv => IsKeyEqual kv key | None => false end).

Definition insert_stop (v : Z) : bool := (v =? kEmpty) || (v =? kDeleted).

Lemma slot_live i v : slot m i = Some v -> v <> kEmpty -> v <> kDeleted -> exists kv, live m v kv.
Proof. intros Es H1 H2. destruct (wf_slot m Hwf _ _ Es) as [[?|?]|?]; done. Qed.

Lemma checked_index v kv : live m v kv -> ASSERT (v <? pairs_size_ m) = Ok tt.
Proof. intros [Hv _]. pose proof (wf_next m Hwf). apply ASSERT_true, Z.ltb_lt. lia. Qed.

Lemma probes_ok probes : probes < 2 ^ 30 -> RELEASE_ASSERT (probes + 1 <? hash_map_probes_limit) = Ok tt.
Proof. intros Hp. unfold RELEASE_ASSERT. rewrite Hlimit. by rewrite (proj2 (Z.ltb_lt _ _)) by lia. Qed.

Lemma Remove_loop_ok key h : 0 <= h < hash_table_size_ m -> forall k fuel e probes v,
  (k < fuel)%nat -> 0 <= probes <= Z.of_nat e -> Z.of_nat (e + k) < hash_table_size_ m ->
  (forall d, (e <= d < e + k)%nat ->
     exists v', slot m (pos m h d) = Some v' /\ lookup_stop key v' = false) ->
  slot m (pos m h (e + k)) = Some v -> lookup_stop key v = true ->
  Remove_loop fuel m key (u32 (hash_table_size_ m - 1)) h (pos m h e) probes =
  Ok (if v =? kEmpty then None else Some (pos m h (e + k), v)).
Proof.
  intros Hh. pose proof size_bounds as Hb.
  induction k as [|k IH]; intros [|fuel] e probes v Hf Hp Hk Hc Es Hs; try lia; cbn [Remove_loop].
  - rewrite Nat.add_0_r in *. rewrite (slot_get _ v) by (done || apply pos_range). cbn [rbind].
    unfold lookup_stop in Hs. destruct (v =? kEmpty) eqn:E1; [done|]. cbn in Hs.
    destruct (v =? kDeleted) eqn:E2; [done|]. cbn in Hs.
    apply Z.eqb_neq in E1, E2. destruct (slot_live _ _ Es E1 E2) as [kv Hl].
    rewrite (checked_index v kv Hl), probes_ok by lia. cbn [rbind]. destruct Hl as (Hv & Ep & _).
    rewrite Ep in Hs. rewrite (array_get_ok _ _ kv) by (done || lia). cbn [rbind]. by rewrite Hs.
  - destruct (Hc e ltac:(lia)) as (v' & Es' & Hs').
    rewrite (slot_get _ v') by (done || apply pos_range). cbn [rbind].
    rewrite pos_step, pos_not_start by (done || lia). cbn [rbind].
    replace (e + S k)%nat with (S e + k)%nat in * by lia.
    assert (forall probes, 0 <= probes <= Z.of_nat (S e) ->
      Remove_loop fuel m key (u32 (hash_table_size_ m - 1)) h (pos m h (S e)) probes =
      Ok (if v =? kEmpty then None else Some (pos m h (S e + k), v))) as IH'.
    { intros. apply IH; try done; try lia. intros d Hd. apply Hc. lia. }
    unfold lookup_stop in Hs'. destruct (v' =? kEmpty) eqn:E1; [done|]. cbn in Hs'.
    destruct (v' =? kDeleted) eqn:E2; [apply IH'; lia|]. cbn in Hs'.
    apply Z.eqb_neq in E1, E2. destruct (slot_live _ _ Es' E1 E2) as [kv Hl].
    rewrite (checked_index v' kv Hl), probes_ok by lia. cbn [rbind]. destruct Hl as (Hv & Ep & _).
    rewrite Ep in Hs'. rewrite (array_get_ok _ _ kv) by (done || lia). cbn [rbind].
    rewrite Hs'. apply IH'. lia.
Qed.

Lemma Insert_loop_ok h : 0 <= h < hash_table_size_ m -> forall k fuel e probes v,
  (k < fuel)%nat -> 0 <= probes <= Z.of_nat e -> Z.of_nat (e + k) < hash_table_size_ m ->
  (forall d, (e <= d < e + k)%nat -> exists v', slot m (pos m h d) = Some v' /\ insert_stop v' = false) ->
  slot m (pos m h (e + k)) = Some v -> insert_stop v = true ->
  Insert_loop fuel m (u32 (hash_table_size_ m - 1)) h (pos m h e) probes = Ok (pos m h (e + k)).
Proof.
  intros Hh. pose proof size_bounds as Hb.
  induction k as [|k IH]; intros [|fuel] e probes v Hf Hp Hk Hc Es Hs; try lia; cbn [Insert_loop].
  - rewrite Nat.add_0_r in *. rewrite (slot_get _ v) by (done || apply pos_range). cbn [rbind].
    unfold insert_stop in Hs. by rewrite Hs.
  - destruct (Hc e ltac:(lia)) as (v' & Es' & Hs').
    rewrite (slot_get _ v') by (done || apply pos_range). cbn [rbind].
    unfold insert_stop in Hs'. rewrite Hs'. apply orb_false_iff in Hs' as [E1 E2].
    apply Z.eqb_neq in E1, E2. destruct (slot_live _ _ Es' E1 E2) as [kv Hl].
    rewrite (checked_index v' kv Hl), probes_ok by lia. cbn [rbind].
    rewrite pos_step, pos_not_start by (done || lia). cbn [rbind].
    replace (e + S k)%nat with (S e + k)%nat in * by lia.
    apply (IH _ _ _ v); try done; try lia. intros d Hd. apply Hc. lia.
Qed.

Lemma home_range key : 0 <= home m key < hash_table_size_ m.
Proof. apply Z.mod_pos_bound. pose proof size_bounds. lia. Qed.

Lemma probe_fuel_eq : Z.of_nat (probe_fuel m) = hash_table_size_ m.
Proof. apply (wf_table m Hwf). Qed.

End Probe.

Lemma Lookup_loop_Remove m key mask h fuel : forall i probes,
  Lookup_loop fuel m key mask h i probes =
  let* r := Remove_loop fuel m key mask h i probes in Ok (snd <$> r).
Proof.
  induction fuel as [|fuel IH]; intros i probes; [done|]. cbn [Lookup_loop Remove_loop].
  destruct (array_get _ _) as [v|]; [|done]. cbn [rbind]. destruct (v =? kEmpty); [done|].
  destruct (v =? kDeleted).
  { destruct (ASSERT _); [|done]. cbn [rbind]. apply IH. }
  destruct (ASSERT (v <? _)); [|done]. cbn [rbind]. destruct (RELEASE_ASSERT _); [|done]. cbn [rbind].
  destruct (array_get _ _) as [kv|]; [|done]. cbn [rbind]. destruct (IsKeyEqual kv key); [done|].
  destruct (ASSERT _); [|done]. cbn [rbind]. apply IH.
Qed.

(** ** What a search finds *)

(** The outcome of probing for [key]: the slot and the pair it holds, or that
    no live pair has the key. *)
Lemma Remove_loop_spec m key :
  map_wf m ->
  exists r, Remove_loop (probe_fuel m) m key (u32 (hash_table_size_ m - 1)) (home m key) (home m key) 0
    = Ok r /\
    match r with
    | None => forall p kv, live m p kv -> IsKeyEqual kv key = false
    | Some (i, p) => 0 <= i < hash_table_size_ m /\ slot m i = Some p /\
        exists kv, live m p kv /\ IsKeyEqual kv key = true
    end.
Proof.
  intros Hwf. destruct (first_stop m Hwf (home m key) (lookup_stop m key) eq_refl)
    as (d & v & Hd & Es & Hs & Hc).
  pose proof (home_range m Hwf key) as Hh. pose proof (probe_fuel_eq m Hwf).
  exists (if v =? kEmpty then None else Some (pos m (home m key) d, v)). split.
  - rewrite <- (pos_0 m (home m key) Hh) at 2.
    apply (Remove_loop_ok m Hwf key _ Hh d); try done; try lia. intros d' Hd'. apply Hc. lia.
  - destruct (Z.eqb_spec v kEmpty) as [->|Hne].
    + intros p kv Hl. destruct (IsKeyEqual kv key) eqn:Ek; [|done]. exfalso.
      destruct (wf_reach m Hwf p kv Hl) as (e & He & Ee & Hpath).
      assert (home m (KeyOf kv) = home m key) as Ehome.
      { unfold home. by rewrite (IsKeyEqual_hash kv key Ek). }
      rewrite Ehome in *.
      assert (e < d)%nat as Hlt.
      { destruct (lt_eq_lt_dec e d) as [[?| ->]|Hgt]; [done| |].
        - rewrite Es in Ee. simplify_eq. exfalso. apply (live_not_special m Hwf kEmpty kv Hl). by left.
        - exfalso. by apply (Hpath d Hgt). }
      destruct (Hc e Hlt) as (v' & Ev' & Hs'). rewrite Ee in Ev'. simplify_eq.
      pose proof (live_not_special m Hwf v' kv Hl) as Hns. destruct Hl as (_ & Ep & _).
      unfold lookup_stop in Hs'. rewrite Ep, Ek in Hs'.
      destruct (Z.eqb_spec v' kEmpty); [by apply Hns; left|].
      destruct (Z.eqb_spec v' kDeleted); [by apply Hns; right|]. done.
    + unfold lookup_stop in Hs. apply Z.eqb_neq in Hne as Hne'. rewrite Hne' in Hs. cbn in Hs.
      destruct (Z.eqb_spec v kDeleted) as [|Hnd]; [done|]. cbn in Hs.
      destruct (slot_live m Hwf _ _ Es Hne Hnd) as [kv Hl].
      split; [apply pos_range, Hwf|]. split; [done|]. exists kv. split; [done|].
      destruct Hl as (_ & Ep & _). by rewrite Ep in Hs.
Qed.

Lemma elem_elements m kv : map_wf m -> kv ∈ elements m <-> exists p, live m p kv.
Proof.
  intros Hwf. unfold elements. rewrite list_elem_of_filter, elem_of_take. split.
  - intros (Hl & i & Ei & Hi). exists (Z.of_nat i). split; [lia|]. by rewrite Nat2Z.id.
  - intros (p & Hp & Ep & Hl). split; [done|]. exists (Z.to_nat p). split; [done|lia].
Qed.

Lemma Lookup_found key m :
  map_wf m ->
  exists r, Lookup key m = Ok r /\
    match r with
    | None => forall kv, kv ∈ elements m -> IsKeyEqual kv key = false
    | Some p => exists kv, live m p kv /\ IsKeyEqual kv key = true
    end.
Proof.
  intros Hwf. unfold Lookup. rewrite mask_mod by done. fold (home m key).
  rewrite Lookup_loop_Remove. destruct (Remove_loop_spec m key Hwf) as (r & -> & Hr).
  eexists; split; [done|]. destruct r as [[i p]|]; cbn.
  - destruct Hr as (_ & _ & Hr). done.
  - intros kv Hkv. apply elem_elements in Hkv as [p Hl]; [|done]. by eapply Hr.
Qed.

(** ** Changing one slot *)

(** A map with one slot and one pair replaced, the rest as before. *)
Lemma filter_insert_le {A} (P : A -> Prop) `{!forall x, Decision (P x)} (l : list A) i x :
  (length (filter P (<[i := x]> l)) <= S (length (filter P l)))%nat.
Proof.
  destruct (l !! i) as [y|] eqn:E.
  - destruct (filter_insert P l i x y E) as (l1 & l2 & _ & _ & _ & -> & ->).
    rewrite !length_app. rewrite (filter_cons P x []). destruct (decide (P x)); simpl; lia.
  - rewrite list_insert_ge by by apply lookup_ge_None. lia.
Qed.

Lemma lookup_insert_slot (t : list Z) i j v :
  0 <= i < Z.of_nat (length t) -> 0 <= j ->
  <[Z.to_nat i := v]> t !! Z.to_nat j = if i =? j then Some v else t !! Z.to_nat j.
Proof.
  intros Hi Hj. destruct (Z.eqb_spec i j) as [->|Hne].
  - rewrite list_lookup_insert_eq by lia. done.
  - apply list_lookup_insert_ne. lia.
Qed.

(** A slot that is not empty stays on the path of every pair. *)
Lemma reaches_mono m m' h p :
  map_wf m -> hash_table_size_ m' = hash_table_size_ m -> reaches m h p ->
  (forall i, 0 <= i -> slot m i = Some p -> slot m' i = Some p) ->
  (forall i, 0 <= i -> slot m i <> Some kEmpty -> slot m' i <> Some kEmpty) -> reaches m' h p.
Proof.
  intros Hwf En (d & Hd & Ed & Hpath) Hp He. exists d. rewrite En.
  assert (forall d, pos m' h d = pos m h d) as Epos by (intros; unfold pos; by rewrite En).
  split; [done|]. rewrite Epos. split; [apply Hp; [apply pos_range, Hwf|done]|].
  intros d' Hd'. rewrite Epos. apply He; [apply pos_range, Hwf|by apply Hpath].
Qed.

Section AddPair.
Context (m : Map) (Hok : map_ok m) (kv : Pair) (Hkv : is_live kv).
Context (d : nat) (v : Z) (Hd : Z.of_nat d < hash_table_size_ m).
Let Hwf : map_wf m := proj1 Hok.
Let h : Z := home m (KeyOf kv).
Let j : Z := pos m h d.
Let nx : Z := next_pair_index_ m.
Context (Hslot : slot m j = Some v) (Hspecial : special v).
Context (Hpath : forall d', (d' < d)%nat -> exists v', slot m (pos m h d') = Some v' /\ ~ special v').

Definition with_pair : Map :=
  mkMap (<[Z.to_nat j := nx]> (hash_table_ m)) (<[Z.to_nat nx := kv]> (pairs_ m))
    (hash_table_size_ m) (pairs_size_ m) (nx + 1) (deleted_count_ m).

Lemma with_pair_slot i : 0 <= i -> slot with_pair i = if j =? i then Some nx else slot m i.
Proof.
  intros Hi. apply lookup_insert_slot; [|done]. rewrite (wf_table m Hwf). apply pos_range, Hwf.
Qed.

Lemma with_pair_live p x : live with_pair p x <-> (p = nx /\ x = kv) \/ live m p x.
Proof.
  pose proof (wf_next m Hwf). pose proof (wf_pairs m Hwf). pose proof (proj2 Hok) as Hroom.
  unfold live. cbn. destruct (decide (p = nx)) as [->|Hne].
  - rewrite list_lookup_insert_eq by (unfold nx; lia). split.
    + intros (_ & E & _). simplify_eq. by left.
    + intros [[_ ->]|[? _]]; [|unfold nx in *; lia]. split; [unfold nx; lia|]. done.
  - split.
    + intros (Hp & E & Hl). right. rewrite list_lookup_insert_ne in E by (unfold nx in *; lia).
      split; [unfold nx in *; lia|done].
    + intros [[? _]|(Hp & E & Hl)]; [done|]. split; [unfold nx; lia|].
      rewrite list_lookup_insert_ne by (unfold nx; lia). done.
Qed.

Lemma with_pair_elements : elements with_pair = elements m ++ [kv].
Proof.
  pose proof (wf_next m Hwf). pose proof (wf_pairs m Hwf). pose proof (proj2 Hok) as Hroom.
  unfold elements. cbn. replace (Z.to_nat (nx + 1)) with (S (Z.to_nat nx)) by (unfold nx; lia).
  rewrite (take_S_r _ _ kv) by (apply list_lookup_insert_eq; unfold nx; lia).
  rewrite take_insert_ge by lia. rewrite filter_app. f_equal.
  by rewrite filter_cons_True.
Qed.

Lemma nx_fresh i : hash_table_ m !! i <> Some nx.
Proof.
  intros Ei. destruct (wf_slot m Hwf _ _ Ei) as [Hsp|[x [Hp _]]]; [|unfold nx in *; lia].
  pose proof (next_small m Hwf). destruct Hsp as [E|E]; unfold nx, kEmpty, kDeleted in *; lia.
Qed.

Lemma nx_not_special : ~ special nx.
Proof. intros [E|E]; pose proof (next_small m Hwf); unfold nx, kEmpty, kDeleted in *; lia. Qed.

Lemma with_pair_wf : map_wf with_pair.
Proof.
  pose proof (wf_next m Hwf) as Hn. pose proof (wf_pairs m Hwf). pose proof (proj2 Hok) as Hroom.
  pose proof (pos_range m Hwf h d) as Hj. fold j in Hj.
  constructor; cbn.
  - apply (wf_size m Hwf).
  - rewrite length_insert. apply (wf_table m Hwf).
  - by rewrite length_insert.
  - unfold nx. lia.
  - apply (wf_load m Hwf).
  - pose proof (wf_used m Hwf).
    pose proof (filter_insert_le (fun v => v <> kEmpty) (hash_table_ m) (Z.to_nat j) nx). unfold nx in *. lia.
  - intros i w Ei. rewrite <- (Nat2Z.id i) in Ei. pose proof (with_pair_slot (Z.of_nat i) ltac:(lia)) as Es.
    unfold slot in Es. cbn in Es. rewrite Es in Ei. destruct (j =? Z.of_nat i).
    + simplify_eq. right. exists kv. apply with_pair_live. by left.
    + destruct (wf_slot m Hwf _ _ Ei) as [?|[x Hx]]; [by left|]. right. exists x.
      apply with_pair_live. by right.
  - intros p x Hp. apply with_pair_live in Hp as [[-> ->]|Hp].
    + exists d. change (home with_pair (KeyOf kv)) with h. split; [done|].
      change (pos with_pair h) with (pos m h). fold j. split.
      * rewrite with_pair_slot by lia. by rewrite Z.eqb_refl.
      * intros d' Hd'. rewrite with_pair_slot by apply pos_range, Hwf.
        destruct (Hpath d' Hd') as (v' & Ev' & Hns). rewrite Ev'.
        destruct (Z.eqb_spec j (pos m h d')) as [E|_]; [apply (pos_inj m h d d') in E; lia|].
        intros E. simplify_eq. apply Hns. by left.
    + eapply reaches_mono; [exact Hwf|done|exact (wf_reach m Hwf p x Hp)| |].
      * intros i Hi Ei. rewrite with_pair_slot by done. destruct (Z.eqb_spec j i) as [<-|]; [|done].
        rewrite Hslot in Ei. simplify_eq. by destruct (live_not_special m Hwf p x Hp).
      * intros i Hi Ei. rewrite with_pair_slot by done. destruct (j =? i); [|done].
        intros [= E]. apply nx_not_special. by left.
  - intros a b w Ea Eb Hw. rewrite list_lookup_insert_Some in Ea, Eb.
    destruct Ea as [(<- & Ew & _)|(Hna & Ea)], Eb as [(<- & Ew' & _)|(Hnb & Eb)].
    + done.
    + rewrite <- Ew in Eb. by apply nx_fresh in Eb.
    + rewrite <- Ew' in Ea. by apply nx_fresh in Ea.
    + by eapply (wf_inj m Hwf).
  - rewrite with_pair_elements, length_app. cbn. rewrite (wf_deleted m Hwf). unfold nx. lia.
Qed.
End AddPair.

(** [InsertPair] with room: the pair becomes the last element. *)
Lemma InsertPair_ok kv m :
  map_ok m -> is_live kv ->
  exists m', InsertPair kv m = Ok m' /\ map_wf m' /\ elements m' = elements m ++ [kv] /\
    next_pair_index_ m' = next_pair_index_ m + 1 /\ pairs_size_ m' = pairs_size_ m /\
    deleted_count_ m' = deleted_count_ m.
Proof.
  intros Hok Hkv. pose proof Hok as [Hwf Hroom]. pose proof (wf_next m Hwf) as Hnext.
  pose proof (wf_pairs m Hwf) as Hpairs.
  unfold InsertPair. rewrite ASSERT_true by by apply Z.ltb_lt. cbn [rbind]. cbv zeta.
  rewrite mask_mod by done. change (Hash (KeyOf kv) mod hash_table_size_ m) with (home m (KeyOf kv)).
  set (h := home m (KeyOf kv)).
  pose proof (home_range m Hwf (KeyOf kv) : 0 <= h < _) as Hh. pose proof (probe_fuel_eq m Hwf).
  destruct (first_stop m Hwf h insert_stop eq_refl) as (d & v & Hd & Es & Hs & Hc).
  assert (Insert_loop (probe_fuel m) m (u32 (hash_table_size_ m - 1)) h h 0 = Ok (pos m h d)) as ->.
  { rewrite <- (pos_0 m h Hh) at 2.
    apply (Insert_loop_ok m Hwf h Hh d _ 0 0 v); try done; try lia. intros d' ?; apply Hc; lia. }
  cbn [rbind]. pose proof (pos_range m Hwf h d). pose proof (wf_table m Hwf).
  rewrite !array_set_ok by lia. cbn [rbind].
  rewrite (wrapU_small 32) by (pose proof (next_small m Hwf); unfold inU; lia).
  exists (with_pair m kv d). split; [done|]. split.
  - apply (with_pair_wf m Hok kv Hkv d v); [done..| |].
    + unfold insert_stop in Hs. apply orb_true_iff in Hs as [E%Z.eqb_eq|E%Z.eqb_eq]; [by left|by right].
    + intros d' Hd'. destruct (Hc d' Hd') as (v' & Ev' & Hs'). exists v'. split; [done|].
      unfold insert_stop in Hs'. apply orb_false_iff in Hs' as [E1%Z.eqb_neq E2%Z.eqb_neq].
      by intros [?|?].
  - split; [|done]. by apply with_pair_elements.
Qed.

End HashMapSpec.
