(* ===== verification/HashMapOps.v ===== *)
(** * HashMapOps: the operations of the hash map on its elements

    Each operation is total on a well-formed map and acts on [elements] as on
    a list: [Insert] appends, [Remove] takes one pair out, [Update] replaces a
    pair or appends, [Resize] changes nothing. *)

From stdpp Require Import base numbers list.
From Stdlib Require Import Lia.
From S2P Require Import Prelude Constants HashMap HashMapSpec.

#[local] Open Scope Z_scope.
#[local] Open Scope res_scope.

Section HashMapOps.
Context `{Target} `{!MapFlags} `{trait : KeyValueTrait Key Value Pair} `{!KeyValueLaws trait}.
Hypothesis Hlimit : hash_map_probes_limit = 2 ^ 31 - 1.

#[local] Notation Map := (Map Pair).
#[local] Notation count_live l := (Z.of_nat (length (filter is_live l))).

(** ** Fresh tables *)

Definition fresh (table_size pairs_size : Z) : Map :=
  mkMap (replicate (Z.to_nat table_size) kEmpty) (replicate (Z.to_nat pairs_size) no_pair)
    table_size pairs_size 0 0.

Lemma fresh_wf k n : 0 <= k <= 30 -> 0 <= n < 2 ^ k -> map_wf (fresh (2 ^ k) n).
Proof.
  intros Hk Hn. assert (0 < 2 ^ k) by (apply pow2_pos; lia). constructor; cbn.
  - by exists k.
  - rewrite length_replicate. lia.
  - rewrite length_replicate. lia.
  - lia.
  - lia.
  - rewrite filter_none; [done|]. apply Forall_replicate. by intros Hne.
  - intros i v E. apply lookup_replicate in E as [-> _]. by do 2 left.
  - intros p kv [Hp _]. cbn in Hp. lia.
  - intros i j v E _ Hs. apply lookup_replicate in E as [-> _]. by destruct Hs; left.
  - done.
Qed.

(** ** Resize *)

Lemma Ok_counts {A} (a b c d : Z) (x : A) : a = c -> b = d -> Ok (a, b, x) = Ok (c, d, x).
Proof. by intros -> ->. Qed.

Lemma reinsert_ok old : forall used deleted m,
  map_wf m -> next_pair_index_ m + count_live old < pairs_size_ m ->
  0 <= used -> 0 <= deleted -> used + deleted + Z.of_nat (length old) < 2 ^ 32 ->
  exists m', reinsert (Insert_depth 1) old used deleted m =
      Ok (used + count_live old, deleted + (Z.of_nat (length old) - count_live old), m') /\
    map_ok m' /\ elements m' = elements m ++ filter is_live old /\
    next_pair_index_ m' = next_pair_index_ m + count_live old /\
    pairs_size_ m' = pairs_size_ m /\ deleted_count_ m' = deleted_count_ m.
Proof.
  induction old as [|kv old IH]; intros used deleted m Hwf Hroom Hu Hd Hb; cbn [reinsert].
  - exists m. cbn in *. rewrite !Z.add_0_r, app_nil_r in *. by split_and!.
  - cbn [length] in Hb. destruct (decide (ValueOf kv = kNoValue)) as [Hv|Hv].
    + rewrite filter_cons_False in * by by intros ?.
      rewrite (wrapU_small 32) by (unfold inU; lia).
      destruct (IH used (deleted + 1) m) as (m' & -> & Hr); [done|lia..|].
      exists m'. split; [|done]. apply Ok_counts; cbn [length]; lia.
    + rewrite filter_cons_True in * by done. cbn [length] in *.
      destruct (InsertPair_ok Hlimit kv m) as (m1 & E1 & Hwf1 & El & En & Ep & Ed); [split; [done|lia]|done|].
      assert (Insert_depth 1 kv m = Ok m1) as ->.
      { cbn [Insert_depth]. rewrite E1. cbn [rbind]. by rewrite (proj2 (Z.eqb_neq _ _)) by lia. }
      cbn [rbind].
      rewrite (wrapU_small 32) by (unfold inU; lia).
      destruct (IH (used + 1) deleted m1) as (m' & -> & Hok' & El' & En' & Ep' & Ed'); [done|lia..|].
      exists m'. split; [apply Ok_counts; lia|]. split_and!; [done| |lia|lia|lia].
      rewrite El', El, <- app_assoc. done.
Qed.

Lemma Size_elements m : map_wf m -> Size m = Z.of_nat (length (elements m)).
Proof.
  intros Hwf. unfold Size. rewrite (wf_deleted m Hwf).
  replace (_ - (_ - _)) with (Z.of_nat (length (elements m))) by lia. apply wrapU_small.
  pose proof (next_small m Hwf). pose proof (wf_next m Hwf).
  assert (length (elements m) <= Z.to_nat (next_pair_index_ m))%nat.
  { unfold elements. etrans; [apply length_filter|]. rewrite length_take. lia. }
  unfold inU. lia.
Qed.

(** The size of the new table. *)
Lemma table_size_ok n : 0 <= n <= 2 ^ 28 ->
  exists k, 0 <= k <= 30 /\ u32 (RoundUpToPowerOfTwo (Z.quot (n * 4) 3 + 1)) = 2 ^ k /\ n < 2 ^ k.
Proof.
  intros Hn. rewrite Z.quot_div_nonneg by lia.
  assert (n <= n * 4 / 3 <= n * 2) by (split; [apply Z.div_le_lower_bound|apply Z.div_le_upper_bound]; lia).
  destruct (RoundUpToPowerOfTwo_spec (n * 4 / 3 + 1)) as (k & Hk & E & Hle); [lia|].
  exists k. split; [lia|]. rewrite E. split; [|lia]. apply wrapU_small. split; [apply Z.pow_nonneg; lia|].
  apply Z.pow_lt_mono_r; lia.
Qed.

Lemma Resize_ok m n :
  (map_wf m \/ m = mkMap [] [] 0 0 0 0) -> Z.of_nat (length (elements m)) < n <= 2 ^ 28 ->
  exists m', Resize n m = Ok m' /\ map_ok m' /\ elements m' = elements m /\ pairs_size_ m' = n.
Proof.
  intros Hm Hn. unfold Resize, Resize_with.
  assert (Size m = Z.of_nat (length (elements m)) /\
    deleted_count_ m = next_pair_index_ m - Z.of_nat (length (elements m)) /\
    Z.of_nat (length (take (Z.to_nat (next_pair_index_ m)) (pairs_ m))) = next_pair_index_ m /\
    0 <= next_pair_index_ m < 2 ^ 30) as (Es & Edel & Etake & Hnext).
  { destruct Hm as [Hwf| ->]; [|done]. pose proof (wf_next m Hwf). pose proof (wf_pairs m Hwf).
    split_and!; [by apply Size_elements|apply (wf_deleted m Hwf)|rewrite length_take; lia|lia|by apply next_small]. }
  rewrite Es. rewrite ASSERT_true by (apply Z.leb_le; lia). cbn [rbind].
  assert (inS kBitsPerWord (n * 4)) as Hi.
  { apply (inS_mono 32); [unfold inS; lia|destruct kBitsPerWord_cases; lia]. }
  rewrite decide_True by done.
  destruct (table_size_ok n) as (k & Hk & -> & Hlt); [lia|].
  rewrite (wrapU_small 32 n) by (unfold inU; lia). cbv zeta. fold (fresh (2 ^ k) n).
  assert (Z.of_nat (length (elements m)) < 2 ^ 32) by lia.
  destruct (reinsert_ok (take (Z.to_nat (next_pair_index_ m)) (pairs_ m)) 0 0 (fresh (2 ^ k) n))
    as (m' & -> & Hok' & El' & En' & Ep' & Ed'); [apply fresh_wf; lia|cbn; fold (elements m); lia|lia..|].
  cbn [rbind]. fold (elements m) in *. rewrite Etake, Edel.
  rewrite !ASSERT_true by (apply Z.eqb_eq; cbn in *; lia). cbn [rbind]. by exists m'.
Qed.

(** ** Insert *)

Lemma Insert_ok kv m :
  map_ok m -> is_live kv -> pairs_size_ m <= 2 ^ 27 ->
  exists m', Insert kv m = Ok m' /\ map_ok m' /\ elements m' = elements m ++ [kv] /\
    pairs_size_ m' <= Z.max (pairs_size_ m) (2 * Z.of_nat (length (elements m'))).
Proof.
  intros Hok Hkv Hsize. destruct (InsertPair_ok Hlimit kv m Hok Hkv) as (m1 & E1 & Hwf1 & El & En & Ep & Ed).
  unfold Insert. cbn [Insert_depth]. rewrite E1. cbn [rbind]. fold (Insert_depth 1).
  destruct (Z.eqb_spec (next_pair_index_ m1) (pairs_size_ m1)) as [Eq|Hne].
  - pose proof (Size_elements m1 Hwf1) as Es. rewrite Z.shiftl_mul_pow2, Es by lia.
    assert (Z.of_nat (length (elements m1)) <= next_pair_index_ m1) as Hle.
    { pose proof (wf_next m1 Hwf1). unfold elements.
      pose proof (length_filter is_live (take (Z.to_nat (next_pair_index_ m1)) (pairs_ m1))).
      rewrite length_take in *. lia. }
    assert (1 <= Z.of_nat (length (elements m1))) by (rewrite El, length_app; cbn; lia).
    destruct (Resize_ok m1 (Z.of_nat (length (elements m1)) * 2 ^ 1)) as (m' & E' & Hok' & El' & Ep');
      [by left|lia|]. exists m'. split; [exact E'|]. split; [done|]. rewrite El'. split; [done|]. lia.
  - exists m1. split; [done|]. split; [split; [done|]|split; [done|lia]].
    pose proof (wf_next m1 Hwf1). lia.
Qed.

(** ** Replacing a pair in place *)

(** The elements when the pair at a live index changes. *)
Lemma elements_insert (m : Map) p x old :
  map_wf m -> live m p old ->
  exists l1 l2, elements m = l1 ++ old :: l2 /\
    filter is_live (take (Z.to_nat (next_pair_index_ m)) (<[Z.to_nat p := x]> (pairs_ m))) =
    l1 ++ filter is_live [x] ++ l2.
Proof.
  intros Hwf (Hp & Ep & Hl). unfold elements. rewrite take_insert_lt by lia.
  assert (take (Z.to_nat (next_pair_index_ m)) (pairs_ m) !! Z.to_nat p = Some old) as Et.
  { rewrite lookup_take_lt by lia. done. }
  destruct (filter_insert is_live _ _ x _ Et) as (l1 & l2 & _ & _ & _ & E1 & E2).
  exists (filter is_live l1), (filter is_live l2). rewrite E1, E2. split; [|done].
  by rewrite filter_cons_True.
Qed.

Lemma live_insert (m m' : Map) p x q kv :
  map_wf m -> pairs_ m' = <[Z.to_nat p := x]> (pairs_ m) ->
  next_pair_index_ m' = next_pair_index_ m -> 0 <= p < next_pair_index_ m ->
  live m' q kv <-> (q = p /\ kv = x /\ is_live x) \/ (q <> p /\ live m q kv).
Proof.
  intros Hwf Epairs Enext Hp. pose proof (wf_next m Hwf). pose proof (wf_pairs m Hwf).
  unfold live. rewrite Epairs, Enext. destruct (decide (q = p)) as [->|Hne].
  - rewrite list_lookup_insert_eq by lia. naive_solver.
  - split.
    + intros (Hq & E & Hl). right. rewrite list_lookup_insert_ne in E by lia. done.
    + intros [[? _]|(_ & Hq & E & Hl)]; [done|]. by rewrite list_lookup_insert_ne by lia.
Qed.

Section RemovePair.
Context (m : Map) (Hwf : map_wf m) (i p : Z) (old : Pair).
Context (Hi : 0 <= i < hash_table_size_ m) (Hslot : slot m i = Some p) (Hlive : live m p old).

Definition without_pair : Map :=
  mkMap (<[Z.to_nat i := kDeleted]> (hash_table_ m)) (<[Z.to_nat p := no_pair]> (pairs_ m))
    (hash_table_size_ m) (pairs_size_ m) (next_pair_index_ m) (deleted_count_ m + 1).

Lemma without_pair_slot j : 0 <= j -> slot without_pair j = if i =? j then Some kDeleted else slot m j.
Proof. intros Hj. apply lookup_insert_slot; [|done]. by rewrite (wf_table m Hwf). Qed.

Lemma without_pair_live q kv : live without_pair q kv <-> q <> p /\ live m q kv.
Proof.
  destruct Hlive as [Hp _]. rewrite (live_insert m without_pair p no_pair) by done.
  split; [|by right]. intros [(_ & _ & Hl)|?]; [|done]. by destruct Hl.
Qed.

Lemma without_pair_elements :
  exists l1 l2, elements m = l1 ++ old :: l2 /\ elements without_pair = l1 ++ l2.
Proof.
  destruct (elements_insert m p no_pair old Hwf Hlive) as (l1 & l2 & E1 & E2).
  exists l1, l2. split; [done|]. unfold elements at 1. cbn [pairs_ next_pair_index_ without_pair].
  rewrite E2, filter_cons_False; [done|]. by intros Hl.
Qed.

Lemma without_pair_wf : map_wf without_pair.
Proof.
  pose proof (live_not_special m Hwf p old Hlive) as Hns.
  constructor; cbn.
  - apply (wf_size m Hwf).
  - rewrite length_insert. apply (wf_table m Hwf).
  - rewrite length_insert. apply (wf_pairs m Hwf).
  - apply (wf_next m Hwf).
  - apply (wf_load m Hwf).
  - pose proof (wf_used m Hwf) as Hu.
    destruct (filter_insert (fun v => v <> kEmpty) (hash_table_ m) (Z.to_nat i) kDeleted p Hslot)
      as (l1 & l2 & _ & _ & _ & E1 & E2).
    rewrite E1 in Hu. rewrite E2. rewrite !length_app in *.
    rewrite filter_cons_True in Hu by (intros ->; by apply Hns; left).
    rewrite filter_cons_True by done. cbn in *. lia.
  - intros j v Ej. rewrite list_lookup_insert_Some in Ej.
    destruct Ej as [(_ & <- & _)|(Hne & Ej)]; [by left; right|].
    destruct (wf_slot m Hwf _ _ Ej) as [?|[kv Hl]]; [by left|]. right. exists kv.
    apply without_pair_live. split; [|done]. intros ->. apply Hne.
    by apply (wf_inj m Hwf _ _ p).
  - intros q kv Hl. apply without_pair_live in Hl as [Hne Hl].
    eapply reaches_mono; [exact Hwf|done|exact (wf_reach m Hwf q kv Hl)| |].
    + intros j Hj Ej. rewrite without_pair_slot by done. destruct (Z.eqb_spec i j) as [<-|]; [|done].
      rewrite Hslot in Ej. by simplify_eq.
    + intros j Hj Ej. rewrite without_pair_slot by done. by destruct (i =? j).
  - intros a b v Ea Eb Hv. rewrite list_lookup_insert_Some in Ea, Eb.
    destruct Ea as [(_ & <- & _)|(_ & Ea)]; [by destruct Hv; right|].
    destruct Eb as [(_ & <- & _)|(_ & Eb)]; [by destruct Hv; right|].
    by eapply (wf_inj m Hwf).
  - destruct without_pair_elements as (l1 & l2 & E1 & E2). rewrite E2, (wf_deleted m Hwf), E1.
    rewrite !length_app. cbn. lia.
Qed.
End RemovePair.

Section ReplacePair.
Context (m : Map) (Hwf : map_wf m) (p : Z) (old kv : Pair).
Context (Hlive : live m p old) (Hkv : is_live kv) (Hhash : Hash (KeyOf old) = Hash (KeyOf kv)).

Lemma replace_pair_wf : map_wf (set_pairs m (<[Z.to_nat p := kv]> (pairs_ m))).
Proof.
  set (m' := set_pairs m _). pose proof Hlive as [Hp _].
  assert (forall q x, live m' q x <-> (q = p /\ x = kv /\ is_live kv) \/ (q <> p /\ live m q x)) as Hl.
  { intros q x. by apply live_insert. }
  constructor; try apply Hwf.
  - cbn. rewrite length_insert. apply (wf_pairs m Hwf).
  - intros i v Ei. destruct (wf_slot m Hwf _ _ Ei) as [?|[x Hx]]; [by left|]. right.
    destruct (decide (v = p)) as [->|Hne]; [exists kv|exists x]; apply Hl; [by left|by right].
  - intros q x Hx. apply Hl in Hx as [(-> & -> & _)|(_ & Hx)]; [|exact (wf_reach m Hwf q x Hx)].
    pose proof (wf_reach m Hwf p old Hlive) as Hr. unfold home in Hr. by rewrite Hhash in Hr.
  - destruct (elements_insert m p kv old Hwf Hlive) as (l1 & l2 & E1 & E2).
    unfold elements. cbn [pairs_ next_pair_index_ deleted_count_ m' set_pairs].
    rewrite E2, (wf_deleted m Hwf), E1, filter_cons_True by done. rewrite !length_app. cbn. lia.
Qed.
End ReplacePair.

(** ** The operations *)

Definition absent (key : Key) (l : list Pair) : Prop := forall kv, kv ∈ l -> IsKeyEqual kv key = false.

Lemma Remove_ok key m :
  map_ok m ->
  exists b m', Remove key m = Ok (b, m') /\ map_ok m' /\ pairs_size_ m' = pairs_size_ m /\
    if b : bool then exists l1 kv l2, elements m = l1 ++ kv :: l2 /\ elements m' = l1 ++ l2 /\
                IsKeyEqual kv key = true
    else m' = m /\ absent key (elements m).
Proof.
  intros [Hwf Hroom]. unfold Remove. cbv zeta. rewrite mask_mod by done.
  change (Hash key mod hash_table_size_ m) with (home m key).
  destruct (Remove_loop_spec Hlimit m key Hwf) as (r & -> & Hr). cbn [rbind].
  destruct r as [[i p]|].
  - destruct Hr as (Hi & Es & kv & Hl & Ek). pose proof Hl as [Hp _].
    pose proof (wf_next m Hwf). pose proof (wf_pairs m Hwf). pose proof (wf_table m Hwf).
    rewrite !array_set_ok by lia. cbn [rbind].
    assert (inU 32 (deleted_count_ m + 1)) as Hdel.
    { pose proof (next_small m Hwf). rewrite (wf_deleted m Hwf).
      assert (kv ∈ elements m) as Hin by (apply elem_elements; eauto).
      assert (1 <= length (elements m))%nat by (destruct (elements m); [by apply not_elem_of_nil in Hin|cbn; lia]).
      assert (length (elements m) <= Z.to_nat (next_pair_index_ m))%nat.
      { unfold elements. etrans; [apply length_filter|]. rewrite length_take. lia. }
      unfold inU. lia. }
    rewrite (wrapU_small 32) by done. exists true, (without_pair m i p).
    split; [done|]. split; [split; [by eapply without_pair_wf|done]|]. split; [done|].
    destruct (without_pair_elements m Hwf i p kv Hl) as (l1 & l2 & E1 & E2).
    by exists l1, kv, l2.
  - exists false, m. split_and!; [done..|]. intros kv Hkv.
    apply elem_elements in Hkv as [p Hl]; [|done]. by eapply Hr.
Qed.

Lemma Update_ok kv m :
  map_ok m -> is_live kv -> pairs_size_ m <= 2 ^ 27 ->
  exists m', Update kv m = Ok m' /\ map_ok m' /\
    pairs_size_ m' <= Z.max (pairs_size_ m) (2 * Z.of_nat (length (elements m'))) /\
    ((absent (KeyOf kv) (elements m) /\ elements m' = elements m ++ [kv]) \/
     exists l1 old l2, elements m = l1 ++ old :: l2 /\ IsKeyEqual old (KeyOf kv) = true /\
       elements m' = l1 ++ kv :: l2).
Proof.
  intros [Hwf Hroom] Hkv Hsize. unfold Update. rewrite ASSERT_true by by apply bool_decide_eq_true_2.
  cbn [rbind]. destruct (Lookup_found Hlimit (KeyOf kv) m Hwf) as (r & -> & Hr). cbn [rbind].
  destruct r as [p|].
  - destruct Hr as (old & Hl & Ek). pose proof Hl as [Hp _].
    pose proof (wf_next m Hwf). pose proof (wf_pairs m Hwf). rewrite array_set_ok by lia. cbn [rbind].
    eexists; split; [done|]. split; [split; [|done]|split; [cbn; lia|]].
    + apply (replace_pair_wf m Hwf p old kv Hl Hkv). by apply IsKeyEqual_hash.
    + right. destruct (elements_insert m p kv old Hwf Hl) as (l1 & l2 & E1 & E2).
      exists l1, old, l2. split; [done|]. split; [done|].
      unfold elements. cbn [pairs_ next_pair_index_ set_pairs]. rewrite E2.
      by rewrite filter_cons_True.
  - destruct (Insert_ok kv m) as (m' & E & Hok' & El & Hs); [done..|].
    exists m'. split_and!; [done..|]. left. by split.
Qed.

Lemma Clear_ok m : map_ok m -> map_ok (Clear m) /\ elements (Clear m) = [].
Proof.
  intros [Hwf Hroom]. split; [|done]. split; [|cbn; pose proof (wf_next m Hwf); lia].
  constructor; cbn.
  - apply (wf_size m Hwf).
  - rewrite length_replicate. apply (wf_table m Hwf).
  - rewrite length_app, length_replicate, length_drop. pose proof (wf_next m Hwf).
    pose proof (wf_pairs m Hwf). lia.
  - pose proof (wf_next m Hwf). lia.
  - apply (wf_load m Hwf).
  - rewrite filter_none; [done|]. apply Forall_replicate. by intros Hne.
  - intros i v E. apply lookup_replicate in E as [-> _]. by do 2 left.
  - intros p kv [Hp _]. cbn in Hp. lia.
  - intros i j v E _ Hs. apply lookup_replicate in E as [-> _]. by destruct Hs; left.
  - done.
Qed.

Lemma new_Map_ok n :
  0 < n <= 2 ^ 28 ->
  exists m, new_Map n = Ok m /\ map_ok m /\ elements m = [] /\ pairs_size_ m = n.
Proof. intros Hn. apply (Resize_ok (mkMap [] [] 0 0 0 0)); [by right|exact Hn]. Qed.

End HashMapOps.

(** ** The hash map implements an insertion-ordered list

    The abstract map is a list of pairs.  [abs_step] says what an operation
    does to it; [Map_refines] that any bounded sequence of operations on a new
    map succeeds and acts on [elements] as the abstract steps do.  [Lookup_spec]
    and [Next_spec] read the abstract value back. *)


Inductive map_op (Key Pair : Type) : Type :=
| OpInsert (kv : Pair)
| OpUpdate (kv : Pair)
| OpRemove (key : Key)
| OpClear.
Arguments OpInsert {Key Pair} _.
Arguments OpUpdate {Key Pair} _.
Arguments OpRemove {Key Pair} _.
Arguments OpClear {Key Pair}.

Section HashMapRefine.
Context `{Target} `{!MapFlags} `{trait : KeyValueTrait Key Value Pair} `{!KeyValueLaws trait}.

#[local] Notation Map := (Map Pair).
#[local] Notation map_op := (map_op Key Pair).

Definition run_op (op : map_op) (m : Map) : Res Map :=
  match op with
  | OpInsert kv => Insert kv m
  | OpUpdate kv => Update kv m
  | OpRemove key => let* r := Remove key m in Ok (snd r)
  | OpClear => Ok (Clear m)
  end.

Fixpoint run_ops (ops : list map_op) (m : Map) : Res Map :=
  match ops with
  | [] => Ok m
  | op :: ops => let* m := run_op op m in run_ops ops m
  end.

Inductive abs_step : map_op -> list Pair -> list Pair -> Prop :=
| abs_insert kv l : abs_step (OpInsert kv) l (l ++ [kv])
| abs_update_new kv l : absent (KeyOf kv) l -> abs_step (OpUpdate kv) l (l ++ [kv])
| abs_update_old kv l1 old l2 :
    IsKeyEqual old (KeyOf kv) = true -> abs_step (OpUpdate kv) (l1 ++ old :: l2) (l1 ++ kv :: l2)
| abs_remove_none key l : absent key l -> abs_step (OpRemove key) l l
| abs_remove_some key l1 kv l2 :
    IsKeyEqual kv key = true -> abs_step (OpRemove key) (l1 ++ kv :: l2) (l1 ++ l2)
| abs_clear l : abs_step OpClear l [].

Inductive abs_steps : list map_op -> list Pair -> list Pair -> Prop :=
| abs_nil l : abs_steps [] l l
| abs_cons op ops l1 l2 l3 :
    abs_step op l1 l2 -> abs_steps ops l2 l3 -> abs_steps (op :: ops) l1 l3.

(** A pair that is stored has a value. *)
Definition storable (op : map_op) : Prop :=
  match op with OpInsert kv | OpUpdate kv => is_live kv | _ => True end.

Lemma abs_step_length op l l' : abs_step op l l' -> (length l' <= S (length l))%nat.
Proof. destruct 1; rewrite ?length_app; cbn; lia. Qed.

Hypothesis Hlimit : hash_map_probes_limit = 2 ^ 31 - 1.

Lemma run_op_refines op m :
  map_ok m -> storable op -> pairs_size_ m <= 2 ^ 27 ->
  exists m', run_op op m = Ok m' /\ map_ok m' /\ abs_step op (elements m) (elements m') /\
    pairs_size_ m' <= Z.max (pairs_size_ m) (2 * Z.of_nat (length (elements m'))).
Proof.
  intros Hok Hop Hsize. destruct op as [kv|kv|key|]; cbn [run_op storable] in *.
  - destruct (Insert_ok Hlimit kv m) as (m' & E & Hok' & El & Hs); [done..|].
    exists m'. split_and!; [done..| |done]. rewrite El. constructor.
  - destruct (Update_ok Hlimit kv m) as (m' & E & Hok' & Hs & El); [done..|].
    exists m'. split_and!; [done..| |done].
    destruct El as [[Ha ->]|(l1 & old & l2 & -> & Ek & ->)]; by constructor.
  - destruct (Remove_ok Hlimit key m Hok) as (b & m' & -> & Hok' & Hs & El). cbn [rbind snd].
    exists m'. split_and!; [done..| |lia].
    destruct b; [destruct El as (l1 & kv & l2 & -> & -> & Ek)|destruct El as [-> Ha]]; by constructor.
  - destruct (Clear_ok m Hok) as [Hok' El]. exists (Clear m). split_and!; [done..| |cbn; lia].
    rewrite El. constructor.
Qed.

Lemma run_ops_refines ops : forall m,
  map_ok m -> Forall storable ops ->
  Z.max (pairs_size_ m) (2 * Z.of_nat (length (elements m) + length ops)) <= 2 ^ 27 ->
  exists m', run_ops ops m = Ok m' /\ map_ok m' /\ abs_steps ops (elements m) (elements m').
Proof.
  induction ops as [|op ops IH]; intros m Hok Hops Hsize; cbn [run_ops].
  - exists m. split_and!; [done..|constructor].
  - inversion_clear Hops as [|?? Hop Hops']. cbn [length] in Hsize.
    destruct (run_op_refines op m) as (m1 & -> & Hok1 & Ha & Hs); [done..|lia|].
    cbn [rbind]. pose proof (abs_step_length _ _ _ Ha).
    destruct (IH m1) as (m' & -> & Hok' & Has); [done..|lia|].
    exists m'. split_and!; [done..|]. by econstructor.
Qed.

(** C37. A new hash map refines the empty list: every sequence of up to
    2^26 insertions, updates, removals and clears of storable pairs succeeds,
    with no assertion, probe limit or array bound violated, through every
    resize, and changes the live pairs as the abstract operations change the
    list. *)
Theorem Map_refines ops n :
  0 < n <= 2 ^ 27 -> Forall storable ops -> Z.of_nat (length ops) <= 2 ^ 26 ->
  exists m0 m, new_Map n = Ok m0 /\ run_ops ops m0 = Ok m /\ map_ok m /\
    abs_steps ops [] (elements m) /\ Size m = Z.of_nat (length (elements m)).
Proof.
  intros Hn Hops Hlen. destruct (new_Map_ok Hlimit n) as (m0 & E0 & Hok0 & El0 & Ep0); [lia|].
  destruct (run_ops_refines ops m0) as (m & E & Hok & Ha); [done..|rewrite El0; cbn [length]; lia|].
  exists m0, m. rewrite El0 in Ha. split_and!; [done..|]. by apply Size_elements, Hok.
Qed.

(** [Lookup] ends on every well-formed map, whatever the chains of
    collisions and tombstones: it returns the index of a live pair with the
    key, and [LookupValue] its value, or reports the key absent, and then no
    live pair has it. *)
Theorem Lookup_spec key m :
  map_ok m ->
  exists r, Lookup key m = Ok r /\
    match r with
    | Some p => exists kv, pairs_ m !! Z.to_nat p = Some kv /\ kv ∈ elements m /\
        IsKeyEqual kv key = true /\ LookupValue key m = Ok (ValueOf kv)
    | None => absent key (elements m) /\ LookupValue key m = Ok kNoValue
    end.
Proof.
  intros [Hwf _]. destruct (Lookup_found Hlimit key m Hwf) as (r & E & Hr). exists r. split; [done|].
  unfold LookupValue. rewrite E. cbn [rbind]. destruct r as [p|]; [|done].
  destruct Hr as (kv & Hl & Ek). pose proof Hl as (Hp & Ep & _). exists kv. split_and!; [done| |done|].
  - apply elem_elements; eauto.
  - rewrite (array_get_ok _ _ kv) by (done || lia). done.
Qed.

(** ** The iterator *)

(** The live pairs from index [i] on. *)
Definition elements_from (m : Map) (i : Z) : list Pair :=
  filter is_live (drop (Z.to_nat i) (take (Z.to_nat (next_pair_index_ m)) (pairs_ m))).

Lemma elements_from_step m i kv :
  map_wf m -> 0 <= i < next_pair_index_ m -> pairs_ m !! Z.to_nat i = Some kv ->
  elements_from m i = filter is_live [kv] ++ elements_from m (i + 1).
Proof.
  intros Hwf Hi E. unfold elements_from.
  rewrite (drop_S _ kv) by (rewrite lookup_take_lt by lia; done).
  replace (Z.to_nat (i + 1)) with (S (Z.to_nat i)) by lia. apply (filter_app _ [kv]).
Qed.

Lemma Next_loop_ok m fuel : map_wf m -> forall i,
  0 <= i <= next_pair_index_ m -> next_pair_index_ m - i < Z.of_nat fuel ->
  exists r j, Next_loop fuel m i = Ok (r, j) /\ 0 <= j <= next_pair_index_ m /\
    elements_from m i = match r with Some kv => kv :: elements_from m j | None => [] end.
Proof.
  intros Hwf. pose proof (next_small m Hwf). pose proof (wf_next m Hwf). pose proof (wf_pairs m Hwf).
  induction fuel as [|fuel IH]; intros i Hi Hf; [lia|]. cbn [Next_loop].
  destruct (Z.ltb_spec i (next_pair_index_ m)) as [Hlt|Hge]; cbn [negb].
  2: { exists None, i. split; [done|]. split; [lia|]. unfold elements_from.
       rewrite drop_ge; [done|]. rewrite length_take. lia. }
  destruct (lookup_lt_is_Some_2 (pairs_ m) (Z.to_nat i)) as [kv Ekv]; [lia|].
  rewrite (array_get_ok _ _ kv) by (done || lia). cbn [rbind].
  rewrite (wrapU_small 32) by (unfold inU; lia). rewrite (elements_from_step m i kv) by (done || lia).
  destruct (decide (ValueOf kv = kNoValue)) as [Hv|Hv].
  - destruct (IH (i + 1)) as (r & j & -> & Hj & E); [lia..|]. exists r, j. split; [done|]. split; [lia|].
    rewrite filter_cons_False; [exact E|]. by intros Hl.
  - exists (Some kv), (i + 1). split; [done|]. split; [lia|]. by rewrite filter_cons_True.
Qed.

(** The iterator visits the live pairs in the order of insertion: from an
    index it returns the first of the pairs that remain and an index from which
    the others remain, or nothing when none do. *)
Theorem Next_spec m i :
  map_ok m -> 0 <= i <= next_pair_index_ m ->
  elements_from m 0 = elements m /\
  exists r j, Next m i = Ok (r, j) /\ 0 <= j <= next_pair_index_ m /\
    elements_from m i = match r with Some kv => kv :: elements_from m j | None => [] end.
Proof.
  intros [Hwf Hroom] Hi. split; [done|]. apply Next_loop_ok; [done..|].
  pose proof (wf_pairs m Hwf). lia.
Qed.

End HashMapRefine.
