(* ===== verification/ObjectPool.v ===== *)
(** * ObjectPool: the pool of constants compiled code loads from
    (runtime/vm/compiler/assembler/object_pool_builder.h, assembler_base.cc)

    [Builder] is the state of an [ObjectPoolBuilder].  Its hash table is used
    through [IndexTable], which says what the pool needs of it; PoolTable.v
    shows that the hash map of HashMap.v provides it.  A [const Object*] is an
    identity: [IsSameObject] is equality, and the handle [NewZoneHandle] makes
    refers to the same object. *)

From stdpp Require Import base numbers list gmap.
From Stdlib Require Import Lia.
From S2P Require Import Prelude Constants.

#[local] Open Scope Z_scope.
#[local] Open Scope res_scope.

(** ** Entries *)

Inductive SnapshotBehavior : Set :=
| kSnapshotable | kNotSnapshotable | kResetToBootstrapNative
| kResetToSwitchableCallMissEntryPoint | kSetToZero.

Inductive Patchability : Set := kPatchable | kNotPatchable.

(** The union and the [EntryType] that says which member is live;
    [kImmediate64] exists on 32-bit targets only. *)
Inductive payload : Set :=
| kImmediate (imm : Z)
| kTaggedObject (obj equivalence : Z)
| kNativeFunction (address : Z)
| kImmediate64 (imm64 : Z)
| kImmediate128 (i0 i1 i2 i3 : Z).

Record Entry : Set := mkEntry {
  payload_ : payload;
  patchable : Patchability;
  snapshot_behavior : SnapshotBehavior
}.

#[export] Instance SnapshotBehavior_eq_dec : EqDecision SnapshotBehavior.
Proof. solve_decision. Defined.
#[export] Instance Patchability_eq_dec : EqDecision Patchability.
Proof. solve_decision. Defined.
#[export] Instance payload_eq_dec : EqDecision payload.
Proof. solve_decision. Defined.
#[export] Instance Entry_eq_dec : EqDecision Entry.
Proof. solve_decision. Defined.

(** The two lanes of a word, as [AddObject] joins them. *)
Lemma join_lanes lo hi :
  inS 32 lo -> inS 32 hi ->
  Z.lor (u64 lo) (u64 (Z.shiftl (u64 hi) 32)) =
  if lo <? 0 then u32 lo + 2 ^ 32 * Z.ones 32 else u32 lo + 2 ^ 32 * u32 hi.
Proof.
  intros Hlo Hhi.
  assert (forall a b, inU 32 a -> a + 2 ^ 32 * b = Z.lor a (Z.shiftl b 32)) as Hadd.
  { intros a b Ha. assert (Z.land a (Z.shiftl b 32) = 0) as E. { bitblast. destruct (Z.lt_ge_cases i 32); testbit_bounds; [apply andb_false_r|done]. }
    rewrite <- Z.lxor_lor, <- Z.add_nocarry_lxor by done. rewrite Z.shiftl_mul_pow2 by lia. lia. }
  rewrite !Hadd by (apply wrapU_range; lia).
  assert (forall i, 32 <= i -> Z.testbit lo i = (lo <? 0)) as Hs.
  { intros i Hi. rewrite (testbit_inS 32 lo i) by (done || lia). 
    rewrite <- (wrapS_small 32 lo ltac:(lia) Hlo) at 2. rewrite wrapS_alt by lia.
    pose proof (wrapU_range 32 lo ltac:(lia)). unfold inU in *.
    destruct (Z.testbit _ _); symmetry; [apply Z.ltb_lt|apply Z.ltb_ge]; lia. }
  destruct (lo <? 0).
  - bitblast; try rewrite Hs by lia; simpl; bit_finish.
  - bitblast; try rewrite Hs by lia; simpl; bit_finish.
Qed.

(** ** The index table *)

Definition kNoIndex : Z := -1.

(** The operations of [DirectChainedHashMap<ObjIndexPair>] that the pool uses. *)
Class IndexTableOps (T : Type) := {
  table_new : Res T;
  table_lookup : Entry -> T -> Res Z;       (* [LookupValue] *)
  table_insert : Entry * Z -> T -> Res T;
  table_clear : T -> T
}.

(** What they promise: the table is a list of pairs [table_pairs]; an insertion
    succeeds while the table is below [2 ^ 27] pairs. *)
Class IndexTable (T : Type) {ops : IndexTableOps T} := {
  table_ok : T -> Prop;
  table_size : T -> Z;
  table_pairs : T -> list (Entry * Z);
  table_new_ok :
    exists t, table_new = Ok t /\ table_ok t /\ table_pairs t = [] /\ table_size t = 16;
  table_clear_ok t : table_ok t -> table_ok (table_clear t) /\ table_pairs (table_clear t) = [];
  table_lookup_ok e t :
    table_ok t -> exists r, table_lookup e t = Ok r /\
      ((r = kNoIndex /\ e ∉ (table_pairs t).*1) \/ (r <> kNoIndex /\ (e, r) ∈ table_pairs t));
  table_insert_ok e idx t :
    table_ok t -> idx <> kNoIndex -> table_size t <= 2 ^ 27 ->
    exists t', table_insert (e, idx) t = Ok t' /\ table_ok t' /\
      table_pairs t' = table_pairs t ++ [(e, idx)] /\
      table_size t' <= Z.max (table_size t) (2 * Z.of_nat (length (table_pairs t')))
}.

Record Builder (T : Type) : Type := mkBuilder {
  base_index_ : Z;
  used_from_parent_ : list Z;
  object_pool_ : list Entry;
  object_pool_index_table_ : T
}.
Arguments mkBuilder {T} _ _ _ _.
Arguments base_index_ {T} _.
Arguments used_from_parent_ {T} _.
Arguments object_pool_ {T} _.
Arguments object_pool_index_table_ {T} _.

Section ObjectPool.
Context `{Target} {T : Type} `{ops : !IndexTableOps T}.

#[local] Notation Builder := (Builder T).

Definition CurrentLength (b : Builder) : Z :=
  Z.of_nat (length (object_pool_ b)) + Z.of_nat (length (used_from_parent_ b)).

(** [ObjectPoolBuilder(parent)]. *)
Definition new_Builder (parent : option Builder) : Res Builder :=
  let* t := table_new in
  Ok (mkBuilder (match parent with Some p => CurrentLength p | None => 0 end) [] [] t).

Definition Reset (b : Builder) : Builder :=
  mkBuilder (base_index_ b) (used_from_parent_ b) [] (table_clear (object_pool_index_table_ b)).

Definition InsertIndex (entry : Entry) (idx : Z) (b : Builder) : Res Builder :=
  let* t := table_insert (entry, idx) (object_pool_index_table_ b) in
  Ok (mkBuilder (base_index_ b) (used_from_parent_ b) (object_pool_ b) t).

(** [AddObject] of an entry that takes one slot. *)
Definition AddSlot (entry : Entry) (b : Builder) : Res (Z * Builder) :=
  let idx := base_index_ b + Z.of_nat (length (object_pool_ b)) in
  let b := mkBuilder (base_index_ b) (used_from_parent_ b) (object_pool_ b ++ [entry])
             (object_pool_index_table_ b) in
  let* b := if decide (patchable entry = kNotPatchable) then InsertIndex entry idx b else Ok b in
  Ok (idx, b).

Definition AddImmediate (imm : Z) (b : Builder) : Res (Z * Builder) :=
  AddSlot (mkEntry (kImmediate imm) kNotPatchable kSnapshotable) b.

(** Conversion to [uword]. *)
Definition uword (v : Z) : Z := wrapU kBitsPerWord v.

(** The words that [AddObject] splits a wide immediate into, first one first.
    [Low32Bits], [High32Bits] and [int_storage] are [int32_t]. *)
Definition split_words (p : payload) : option (list Z) :=
  match p with
  | kImmediate64 imm =>
      if XLEN =? 32 then Some [uword (s32 imm); uword (s32 (Z.shiftr (s64 imm) 32))] else None
  | kImmediate128 i0 i1 i2 i3 =>
      if XLEN =? 32 then Some [uword i0; uword i1; uword i2; uword i3]
      else Some [Z.lor (uword i0) (uword (Z.shiftl (uword i1) 32));
                 Z.lor (uword i2) (uword (Z.shiftl (uword i3) 32))]
  | _ => None
  end.

Fixpoint AddImmediates (words : list Z) (b : Builder) : Res Builder :=
  match words with
  | [] => Ok b
  | w :: words => let* r := AddImmediate w b in AddImmediates words (snd r)
  end.

Definition AddObject (entry : Entry) (b : Builder) : Res (Z * Builder) :=
  match split_words (payload_ entry) with
  | Some words =>
      ASSERT (bool_decide (patchable entry = kNotPatchable)) ;;
      let idx := base_index_ b + Z.of_nat (length (object_pool_ b)) in
      let* b := AddImmediates words b in
      let* b := InsertIndex entry idx b in
      Ok (idx, b)
  | None => AddSlot entry b
  end.

(** [parent_->object_pool_index_table_.LookupValue(entry)], if there is a parent. *)
Definition LookupParent (parent : option Builder) (entry : Entry) : Res Z :=
  match parent with
  | Some p => table_lookup entry (object_pool_index_table_ p)
  | None => Ok kNoIndex
  end.

Definition FindObject (parent : option Builder) (entry : Entry) (b : Builder)
    : Res (Z * Builder) :=
  if decide (patchable entry = kNotPatchable) then
    let* idx := LookupParent parent entry in
    if negb (idx =? kNoIndex) then
      Ok (idx, mkBuilder (base_index_ b) (used_from_parent_ b ++ [idx]) (object_pool_ b)
                 (object_pool_index_table_ b))
    else
      let* idx := table_lookup entry (object_pool_index_table_ b) in
      if negb (idx =? kNoIndex) then Ok (idx, b) else AddObject entry b
  else AddObject entry b.

Definition AddImmediate64 (imm : Z) (b : Builder) : Res (Z * Builder) :=
  if XLEN =? 32 then AddObject (mkEntry (kImmediate64 imm) kNotPatchable kSnapshotable) b
  else AddImmediate (uword imm) b.

Definition AddImmediate128 (i0 i1 i2 i3 : Z) (b : Builder) : Res (Z * Builder) :=
  AddObject (mkEntry (kImmediate128 i0 i1 i2 i3) kNotPatchable kSnapshotable) b.

(** [EntryAt(i)], with the chain of parents; reading past the end of a
    [GrowableArray] is undefined. *)
Fixpoint EntryAt (parents : list Builder) (b : Builder) (i : Z) : Res Entry :=
  if i <? Z.of_nat (length (used_from_parent_ b)) then
    match parents, used_from_parent_ b !! Z.to_nat i with
    | p :: parents, Some j => if 0 <=? i then EntryAt parents p j else Err UndefinedBehavior
    | _, _ => Err UndefinedBehavior
    end
  else
    match object_pool_ b !! Z.to_nat (i - Z.of_nat (length (used_from_parent_ b))) with
    | Some e => Ok e
    | None => Err UndefinedBehavior
    end.

Definition FindImmediate (parent : option Builder) (imm : Z) : Builder -> Res (Z * Builder) :=
  FindObject parent (mkEntry (kImmediate (uword imm)) kNotPatchable kSnapshotable).

Definition FindImmediate64 (parent : option Builder) (imm : Z) : Builder -> Res (Z * Builder) :=
  if XLEN =? 32 then FindObject parent (mkEntry (kImmediate64 imm) kNotPatchable kSnapshotable)
  else FindImmediate parent imm.

Definition FindImmediate128 (parent : option Builder) (i0 i1 i2 i3 : Z)
    : Builder -> Res (Z * Builder) :=
  FindObject parent (mkEntry (kImmediate128 i0 i1 i2 i3) kNotPatchable kSnapshotable).

Definition FindNativeFunction (parent : option Builder) (address : Z) (p : Patchability)
    : Builder -> Res (Z * Builder) :=
  FindObject parent (mkEntry (kNativeFunction address) p kSnapshotable).

(** [TryCommitToParent]: whether it succeeded, and the parent. *)
Fixpoint commit_entries (entries : list Entry) (i : Z) (parent : Builder) : Res Builder :=
  match entries with
  | [] => Ok parent
  | e :: entries =>
      let* r := AddObject e parent in
      ASSERT (fst r =? i) ;; commit_entries entries (i + 1) (snd r)
  end.

Definition TryCommitToParent (b parent : Builder) : Res (bool * Builder) :=
  if negb (CurrentLength parent =? base_index_ b) then Ok (false, parent) else
  let* parent := commit_entries (object_pool_ b) (base_index_ b) parent in
  Ok (true, parent).

(** ** What an index stands for *)

(** The slots an entry takes: a wide immediate the words that [AddImmediates]
    splits it into, which for a negative 128-bit lane are not its own words. *)
Definition slots (e : Entry) : list Entry :=
  match split_words (payload_ e) with
  | Some words => (fun w => mkEntry (kImmediate w) kNotPatchable kSnapshotable) <$> words
  | None => [e]
  end.

(** The pool holds the entry's slots from index [idx] on. *)
Definition resolves (b : Builder) (idx : Z) (e : Entry) : Prop :=
  exists pre post, object_pool_ b = pre ++ slots e ++ post /\
    idx = base_index_ b + Z.of_nat (length pre).

Definition extends (b b' : Builder) : Prop :=
  base_index_ b' = base_index_ b /\ object_pool_ b `prefix_of` object_pool_ b'.

#[export] Instance extends_preorder : PreOrder extends.
Proof.
  split; [by split|]. intros x y z [E1 P1] [E2 P2]. split; [congruence|by etrans].
Qed.

Lemma resolves_extends b b' idx e : extends b b' -> resolves b idx e -> resolves b' idx e.
Proof.
  intros [Eb [tl Et]] (pre & post & Ep & ->). exists pre, (post ++ tl).
  rewrite Et, Ep, Eb. split; [|done]. by rewrite <- !app_assoc.
Qed.

(** On a 64-bit target the two words of a 128-bit immediate hold its
    lanes exactly when lanes 0 and 2 are not negative; a negative lane is
    sign-extended over the lane above it. *)
Theorem immediate128_lanes i0 i1 i2 i3 :
  XLEN = 64 -> kBitsPerWord = 64 -> inS 32 i0 -> inS 32 i1 -> inS 32 i2 -> inS 32 i3 ->
  split_words (kImmediate128 i0 i1 i2 i3) =
    Some [(if i0 <? 0 then u32 i0 + 2 ^ 32 * Z.ones 32 else u32 i0 + 2 ^ 32 * u32 i1);
          (if i2 <? 0 then u32 i2 + 2 ^ 32 * Z.ones 32 else u32 i2 + 2 ^ 32 * u32 i3)].
Proof.
  intros Hx Hk H0 H1 H2 H3. unfold split_words. rewrite Hx. cbn [Z.eqb Pos.eqb]. unfold uword.
  rewrite Hk. by rewrite !join_lanes.
Qed.

Section Correct.
Context `{tbl : !IndexTable T}.

#[local] Notation indices b := (table_pairs (object_pool_index_table_ b)).
#[local] Notation size b := (table_size (object_pool_index_table_ b)).

(** The table can take [n] more pairs. *)
Definition room (b : Builder) (n : nat) : Prop :=
  Z.max (size b) (2 * Z.of_nat (length (indices b) + n)) <= 2 ^ 27.

Lemma room_le b n n' : (n' <= n)%nat -> room b n -> room b n'.
Proof. unfold room. lia. Qed.

(** The table is right about the pool, whose entries take one slot each. *)
Definition indices_ok (b : Builder) (l : list (Entry * Z)) : Prop :=
  Forall (fun kv => resolves b (snd kv) (fst kv) /\ patchable (fst kv) = kNotPatchable) l.
Record pool_ok (b : Builder) : Prop := {
  pool_table : table_ok (object_pool_index_table_ b);
  pool_base : 0 <= base_index_ b;
  pool_indices : indices_ok b (indices b);
  pool_narrow : Forall (fun e => split_words (payload_ e) = None) (object_pool_ b)
}.

Lemma pool_ok_new parent :
  exists b, new_Builder parent = Ok b /\ pool_ok b /\ object_pool_ b = [] /\
    used_from_parent_ b = [] /\ size b = 16 /\
    base_index_ b = match parent with Some p => CurrentLength p | None => 0 end.
Proof.
  unfold new_Builder. destruct table_new_ok as (t & -> & Ht & Ep & Es). cbn [rbind].
  eexists. split; [done|]. split; [|done]. split; cbn; [done| |by rewrite Ep; constructor|constructor].
  destruct parent; [unfold CurrentLength; lia|done].
Qed.

Lemma lookup_resolves b e idx :
  pool_ok b -> (e, idx) ∈ indices b -> resolves b idx e.
Proof. intros Hok Hin. by apply (proj1 (Forall_forall _ _) (pool_indices b Hok)) in Hin as [? _]. Qed.

Lemma indices_ok_extends b b' l : extends b b' -> indices_ok b l -> indices_ok b' l.
Proof.
  intros Hx Hl. eapply Forall_impl; [exact Hl|]. intros kv [Hr Hp]. split; [|done].
  by eapply resolves_extends.
Qed.

Lemma resolves_index b idx e : 0 <= base_index_ b -> resolves b idx e -> idx <> kNoIndex.
Proof. intros Hb (pre & post & _ & ->). unfold kNoIndex. lia. Qed.

Lemma InsertIndex_ok n b e idx :
  pool_ok b -> room b (S n) -> resolves b idx e -> patchable e = kNotPatchable ->
  exists b', InsertIndex e idx b = Ok b' /\ pool_ok b' /\ room b' n /\ extends b b' /\
    object_pool_ b' = object_pool_ b /\ used_from_parent_ b' = used_from_parent_ b /\
    indices b' = indices b ++ [(e, idx)].
Proof.
  intros [Ht Hb Hi Hn] Hs Hr Hp. unfold InsertIndex, room in *.
  destruct (table_insert_ok e idx (object_pool_index_table_ b)) as (t' & -> & Ht' & Ep & Es');
    [done|by eapply resolves_index|lia|]. cbn [rbind].
  set (b' := mkBuilder _ _ _ t'). exists b'. assert (extends b b') as Hx by by split.
  split_and!; [done| | |done..].
  - split; [done|done| |done].
    cbn [object_pool_index_table_ b']. rewrite Ep. apply Forall_app. split; [by eapply indices_ok_extends|].
    repeat constructor; [|done]. by eapply resolves_extends.
  - cbn [object_pool_index_table_ b']. rewrite Ep, length_app in *. cbn [length] in *. lia.
Qed.

(** What adding an entry promises: the invariant, old indices, and the new one. *)
Definition added (e : Entry) (b : Builder) (idx : Z) (b' : Builder) : Prop :=
  pool_ok b' /\ extends b b' /\ resolves b' idx e /\ used_from_parent_ b' = used_from_parent_ b.

Lemma AddSlot_ok n e b :
  split_words (payload_ e) = None -> pool_ok b -> room b (S n) ->
  let idx := base_index_ b + Z.of_nat (length (object_pool_ b)) in
  exists b', AddSlot e b = Ok (idx, b') /\ added e b idx b' /\ room b' n /\
    object_pool_ b' = object_pool_ b ++ [e] /\
    indices b' = indices b ++ (if decide (patchable e = kNotPatchable) then [(e, idx)] else []).
Proof.
  intros Hw [Ht Hb Hi Hn] Hs idx. unfold AddSlot. fold idx.
  set (b1 := mkBuilder _ _ _ _).
  assert (extends b b1) as Hx by (split; [done|by exists [e]]).
  assert (pool_ok b1) as Hok1.
  { split; [done..|by eapply indices_ok_extends|]. apply Forall_app. by repeat constructor. }
  assert (resolves b1 idx e) as Hr.
  { exists (object_pool_ b), []. unfold slots. rewrite Hw. by rewrite app_nil_r. }
  destruct (decide (patchable e = kNotPatchable)) as [Hp|Hp].
  - destruct (InsertIndex_ok n b1 e idx) as (b' & -> & Hok' & Hs' & Hx' & Ep & Eu & Ei); [done..|].
    cbn [rbind]. exists b'. split_and!; [done| |done..].
    split_and!; [done|exact (transitivity Hx Hx')|by eapply resolves_extends|done].
  - cbn [rbind]. exists b1. rewrite app_nil_r. split_and!; [done| | |done..].
    + by split_and!.
    + apply (room_le b1 (S n)); [lia|done].
Qed.

#[local] Notation immediate w := (mkEntry (kImmediate w) kNotPatchable kSnapshotable).

Lemma AddImmediates_ok words : forall n b,
  pool_ok b -> room b (length words + n) ->
  exists b' l, AddImmediates words b = Ok b' /\ pool_ok b' /\ room b' n /\ extends b b' /\
    used_from_parent_ b' = used_from_parent_ b /\
    object_pool_ b' = object_pool_ b ++ ((fun w => immediate w) <$> words) /\
    indices b' = indices b ++ l /\ Forall (fun kv => split_words (payload_ (fst kv)) = None) l.
Proof.
  induction words as [|w words IH]; intros n b Hok Hs; cbn [AddImmediates].
  - exists b, []. rewrite !app_nil_r. split_and!; [done..|constructor].
  - destruct (AddSlot_ok (length words + n) (immediate w) b eq_refl Hok Hs)
      as (b1 & E1 & (Hok1 & Hx1 & _ & Eu1) & Hs1 & Ep1 & Ei1).
    unfold AddImmediate. rewrite E1. cbn [rbind snd].
    destruct (IH n b1 Hok1 Hs1) as (b' & l & -> & Hok' & Hs' & Hx' & Eu' & Ep' & Ei' & Hl).
    rewrite decide_True in Ei1 by done.
    exists b', ((immediate w, base_index_ b + Z.of_nat (length (object_pool_ b))) :: l).
    split_and!; [done..|exact (transitivity Hx1 Hx')|congruence| | |by constructor].
    + rewrite Ep', Ep1. by rewrite <- app_assoc.
    + rewrite Ei', Ei1. by rewrite <- app_assoc.
Qed.

(** Entries that callers make: only one-slot entries are patchable. *)
Definition entry_ok (e : Entry) : Prop :=
  split_words (payload_ e) <> None -> patchable e = kNotPatchable.

Lemma split_words_length p words : split_words p = Some words -> (length words <= 4)%nat.
Proof. destruct p; cbn; try done; destruct (XLEN =? 32); intros; simplify_eq; cbn; lia. Qed.

(** A non-patchable entry that was missing has exactly one index afterwards. *)
Lemma AddObject_ok e b :
  pool_ok b -> room b 5 -> entry_ok e ->
  exists idx b', AddObject e b = Ok (idx, b') /\ added e b idx b' /\
    (patchable e = kNotPatchable -> e ∉ (indices b).*1 ->
     forall v, (e, v) ∈ indices b' <-> v = idx).
Proof.
  unfold AddObject, entry_ok. intros Hok Hs Hp.
  destruct (split_words (payload_ e)) as [words|] eqn:Hw.
  - rewrite ASSERT_true by by apply bool_decide_eq_true_2, Hp. cbn [rbind]. cbv zeta.
    set (idx := base_index_ b + _). pose proof (split_words_length _ _ Hw).
    destruct (AddImmediates_ok words 1 b Hok) as (b1 & l & -> & Hok1 & Hs1 & Hx1 & Eu1 & Ep1 & Ei1 & Hl);
      [eapply room_le; [|exact Hs]; lia|]. cbn [rbind].
    assert (resolves b1 idx e) as Hr.
    { exists (object_pool_ b), []. unfold slots. rewrite Hw, app_nil_r, Ep1. split; [done|].
      destruct Hx1 as [-> _]. done. }
    destruct (InsertIndex_ok 0 b1 e idx) as (b' & -> & Hok' & _ & Hx' & _ & Eu' & Ei'); [done..|by apply Hp|].
    cbn [rbind]. exists idx, b'. split; [done|]. split.
    + split_and!; [done|exact (transitivity Hx1 Hx')|by eapply resolves_extends|congruence].
    + intros _ Hni v. rewrite Ei', Ei1, !elem_of_app, list_elem_of_singleton. split.
      * intros [[Hv|Hv]|Hv]; [|exfalso|by simplify_eq].
        -- by apply (list_elem_of_fmap_2 fst) in Hv.
        -- apply (proj1 (Forall_forall _ _) Hl) in Hv. cbn in Hv. by rewrite Hw in Hv.
      * intros ->. by right.
  - destruct (AddSlot_ok 4 e b Hw Hok Hs) as (b' & E & Ha & _ & _ & Ei).
    eexists _, b'. split; [exact E|]. split; [exact Ha|].
    intros Hnp Hni v. rewrite Ei, decide_True, elem_of_app, list_elem_of_singleton by done. split.
    + intros [Hv|Hv]; [by apply (list_elem_of_fmap_2 fst) in Hv|by simplify_eq].
    + intros ->. by right.
Qed.

(** The indices of an entry that is in the table once. *)
Lemma lookup_unique b e idx :
  pool_ok b -> (forall v, (e, v) ∈ indices b <-> v = idx) ->
  table_lookup e (object_pool_index_table_ b) = Ok idx /\ idx <> kNoIndex.
Proof.
  intros Hok Hu. destruct (table_lookup_ok e (object_pool_index_table_ b) (pool_table b Hok))
    as (r & -> & [[-> Hn]|[Hne Hin]]).
  - destruct Hn. change e with (fst (e, idx)). by apply list_elem_of_fmap_2, Hu.
  - apply Hu in Hin as ->. done.
Qed.

(** C38. [FindObject] always returns, for an entry a caller can make, while
    the table has room: the index it returns stands for the entry, in this pool or
    in the parent's; indices handed out before keep their meaning; and asking
    for a non-patchable entry again gives the same index and leaves the pool's
    contents alone.  For a wide immediate the slots are the words that AddObject
    splits it into, as the code does it (for 128-bit immediates with a negative
    lane these are not the lanes). *)
Theorem FindObject_spec parent e b :
  pool_ok b -> room b 5 -> (forall p, parent = Some p -> pool_ok p) -> entry_ok e ->
  exists idx b', FindObject parent e b = Ok (idx, b') /\
    pool_ok b' /\ extends b b' /\
    (resolves b' idx e \/ exists p, parent = Some p /\ resolves p idx e) /\
    (patchable e = kNotPatchable ->
     exists b'', FindObject parent e b' = Ok (idx, b'') /\ object_pool_ b'' = object_pool_ b').
Proof.
  intros Hok Hs Hpar He. unfold FindObject.
  destruct (decide (patchable e = kNotPatchable)) as [Hp|Hp].
  2: { destruct (AddObject_ok e b Hok Hs He) as (idx & b' & E & (H1 & H2 & H3 & _) & _).
       exists idx, b'. split_and!; auto. done. }
  assert (exists r, LookupParent parent e = Ok r /\
    (r = kNoIndex \/ r <> kNoIndex /\ exists p, parent = Some p /\ resolves p r e)) as (r & -> & Hr).
  { destruct parent as [p|]; [|by eexists; split; [|left]]. pose proof (Hpar p eq_refl) as Hokp. cbn.
    destruct (table_lookup_ok e _ (pool_table p Hokp)) as (r & -> & [[-> _]|[Hne Hin]]);
      eexists; (split; [done|]); [by left|]. right. split; [done|]. exists p. split; [done|].
    by apply lookup_resolves. }
  cbn [rbind]. destruct Hr as [->|[Hne Hr]].
  2: { rewrite (proj2 (Z.eqb_neq _ _) Hne). cbn [negb]. eexists r, _. split; [done|].
    set (b1 := mkBuilder _ _ _ _). assert (extends b b1) as Hx by by split.
    split_and!; [|exact Hx|by right|by eexists].
    destruct Hok. split; [done..|by eapply indices_ok_extends|done]. }
  rewrite Z.eqb_refl. cbn [negb].
  destruct (table_lookup_ok e _ (pool_table b Hok)) as (r & E & [[-> Hni]|[Hne Hin]]); rewrite E; cbn [rbind].
  - rewrite Z.eqb_refl. cbn [negb].
    destruct (AddObject_ok e b Hok Hs He) as (idx & b' & -> & (H1 & H2 & H3 & _) & Hu).
    exists idx, b'. split_and!; auto. intros _. exists b'.
    destruct (lookup_unique b' e idx H1 (Hu Hp Hni)) as [-> Hne]. cbn [rbind].
    by rewrite (proj2 (Z.eqb_neq _ _) Hne).
  - rewrite (proj2 (Z.eqb_neq _ _) Hne). cbn [negb]. exists r, b.
    split_and!; [done..|left; by apply lookup_resolves|]. intros _. exists b. rewrite E. cbn [rbind].
    by rewrite (proj2 (Z.eqb_neq _ _) Hne).
Qed.

(** ** Committing to the parent *)

Definition top_level (p : Builder) : Prop := base_index_ p = 0 /\ used_from_parent_ p = [].

Lemma commit_entries_ok entries : forall p,
  pool_ok p -> room p (length entries) -> top_level p ->
  Forall (fun e => split_words (payload_ e) = None) entries ->
  exists p', commit_entries entries (CurrentLength p) p = Ok p' /\
    pool_ok p' /\ top_level p' /\ object_pool_ p' = object_pool_ p ++ entries.
Proof.
  induction entries as [|e entries IH]; intros p Hok Hs Ht Hn.
  - exists p. by rewrite app_nil_r.
  - inversion_clear Hn as [|?? Hw Hn']. cbn [commit_entries]. unfold AddObject. rewrite Hw.
    destruct (AddSlot_ok (length entries) e p Hw Hok Hs) as (p1 & -> & (Hok1 & Hx1 & _ & Eu) & Hs1 & Ep1 & _).
    cbn [rbind fst snd]. destruct Ht as [Eb Et], Hx1 as [Eb1 _].
    assert (top_level p1) as Ht1 by (split; congruence).
    assert (CurrentLength p1 = CurrentLength p + 1) as El.
    { unfold CurrentLength. rewrite Ep1, Eu, length_app. cbn [length]. lia. }
    rewrite ASSERT_true by (apply Z.eqb_eq; unfold CurrentLength; rewrite Eb, Et; cbn [length]; lia).
    cbn [rbind]. rewrite <- El.
    destruct (IH _ Hok1 Hs1 Ht1 Hn') as (p' & E & Hok' & Ht' & Ep). exists p'.
    split_and!; [done..|]. rewrite Ep, Ep1. by rewrite <- app_assoc.
Qed.

(** C39. [TryCommitToParent], from a pool whose parent is the global one:
    when the parent has grown since the pool was made it returns false and
    leaves the parent alone; otherwise it returns true, no assertion fails,
    and every index compiled against either pool stands for the same entry in
    the parent. *)
Theorem TryCommitToParent_spec b p :
  pool_ok b -> pool_ok p -> top_level p -> room p (length (object_pool_ b)) ->
  exists p', TryCommitToParent b p = Ok (bool_decide (CurrentLength p = base_index_ b), p') /\
    pool_ok p' /\ (forall idx e, resolves p idx e -> resolves p' idx e) /\
    (CurrentLength p <> base_index_ b -> p' = p) /\
    (CurrentLength p = base_index_ b -> forall idx e, resolves b idx e -> resolves p' idx e).
Proof.
  intros Hb Hp Ht Hs. unfold TryCommitToParent.
  destruct (Z.eqb_spec (CurrentLength p) (base_index_ b)) as [El|El]; cbn [negb].
  2: { exists p. rewrite bool_decide_eq_false_2 by done. by split_and!. }
  destruct (commit_entries_ok (object_pool_ b) p Hp Hs Ht (pool_narrow b Hb))
    as (p' & E & Hok' & Ht' & Ep). rewrite El in E.
  exists p'. rewrite E, bool_decide_eq_true_2 by done.
  split_and!; [done..| |done|].
  - intros idx e. apply resolves_extends. destruct Ht as [E1 _], Ht' as [E2 _].
    split; [congruence|]. by exists (object_pool_ b).
  - intros _ idx e (pre & post & E1 & ->). exists (object_pool_ p ++ pre), post. split.
    + rewrite Ep, E1. by rewrite <- app_assoc.
    + rewrite length_app, <- El. unfold CurrentLength. destruct Ht as [_ ->], Ht' as [-> _].
      simpl. lia.
Qed.

End Correct.
End ObjectPool.
