(* ===== verification/PoolTable.v ===== *)
(** * PoolTable: the hash map as the object pool's index table
    (class ObjIndexPair of object_pool_builder.h, assembler_base.cc)

    [ObjIndexPair] is the trait the pool's [DirectChainedHashMap] is
    instantiated with.  [hash_IndexTable] discharges the interface
    [IndexTable] with the theorems about the hash map, so that the object
    pool's theorems hold of the pool over the real table. *)

From stdpp Require Import base numbers list.
From Stdlib Require Import Lia.
From S2P Require Import Prelude Constants HashMap HashMapSpec HashMapOps ObjectPool.

#[local] Open Scope Z_scope.
#[local] Open Scope res_scope.

(** [ObjectHash], which the object model defines. *)
Class ObjectHashing := { ObjectHash : Z -> Z }.

Module ObjIndexPair.
Definition Hash `{Target} `{ObjectHashing} (key : Entry) : Z :=
  match payload_ key with
  | kImmediate128 i0 i1 i2 i3 => uword (Z.lxor (Z.lxor (Z.lxor i0 i1) i2) i3)
  | kImmediate64 imm => uword imm
  | kImmediate imm | kNativeFunction imm => imm
  | kTaggedObject obj _ => ObjectHash obj
  end.

Definition IsKeyEqual (kv : Entry * Z) (key : Entry) : bool :=
  let e := fst kv in
  bool_decide (patchable e = patchable key) &&
  bool_decide (snapshot_behavior e = snapshot_behavior key) &&
  match payload_ e, payload_ key with
  | kTaggedObject o v, kTaggedObject o' v' => (o =? o') && (v =? v')
  | kImmediate128 i0 i1 i2 i3, kImmediate128 j0 j1 j2 j3 =>
      (i0 =? j0) && (i1 =? j1) && (i2 =? j2) && (i3 =? j3)
  | kImmediate64 i, kImmediate64 j => i =? j
  | kImmediate i, kImmediate j => i =? j
  | kNativeFunction i, kNativeFunction j => i =? j
  | _, _ => false
  end.

(** [ObjIndexPair()]. *)
Definition no_pair : Entry * Z := (mkEntry (kTaggedObject 0 0) kPatchable kSnapshotable, kNoIndex).

Lemma IsKeyEqual_spec kv key : IsKeyEqual kv key = true <-> fst kv = key.
Proof.
  unfold IsKeyEqual. destruct kv as [[p pa sb] v], key as [p' pa' sb']. cbn.
  rewrite !andb_true_iff, !bool_decide_eq_true. split.
  - intros [[-> ->] Hp]. f_equal.
    destruct p, p'; try done; rewrite ?andb_true_iff, ?Z.eqb_eq in Hp; naive_solver.
  - intros ?; simplify_eq. split; [done|]. destruct p'; by rewrite ?Z.eqb_refl.
Qed.
End ObjIndexPair.

Section PoolTable.
Context `{Target} `{!ObjectHashing} `{!MapFlags}.

#[export] Instance ObjIndexPair_trait : KeyValueTrait Entry Z (Entry * Z) := {|
  KeyOf := fst;
  ValueOf := snd;
  HashMap.Hash := ObjIndexPair.Hash;
  HashMap.IsKeyEqual := ObjIndexPair.IsKeyEqual;
  HashMap.no_pair := ObjIndexPair.no_pair;
  Value_eq_dec := _
|}.

#[export] Instance ObjIndexPair_laws : KeyValueLaws ObjIndexPair_trait.
Proof. split. intros kv k E. by apply ObjIndexPair.IsKeyEqual_spec in E as <-. Qed.

#[export] Instance hash_IndexTableOps : IndexTableOps (Map (Entry * Z)) := {|
  table_new := new_Map kInitialSize;
  table_lookup := LookupValue;
  table_insert := Insert;
  table_clear := Clear
|}.

Hypothesis Hlimit : hash_map_probes_limit = 2 ^ 31 - 1.

Lemma hash_new :
  exists t, table_new = Ok t /\ map_ok t /\ elements t = [] /\ pairs_size_ t = 16.
Proof. by apply (new_Map_ok Hlimit kInitialSize). Qed.

Lemma hash_lookup e t :
  map_ok t -> exists r, table_lookup e t = Ok r /\
    ((r = kNoIndex /\ e ∉ (elements t).*1) \/ (r <> kNoIndex /\ (e, r) ∈ elements t)).
Proof.
  intros [Hwf _]. cbn [table_lookup hash_IndexTableOps]. unfold LookupValue.
  destruct (Lookup_found Hlimit e t Hwf) as (r & -> & Hr). cbn [rbind].
  destruct r as [p|].
  - destruct Hr as ([k v] & Hl & Ek). pose proof Hl as (Hp & Ep & Hv).
    rewrite (array_get_ok _ _ (k, v)) by (done || lia). cbn [rbind]. exists v. split; [done|]. right.
    apply ObjIndexPair.IsKeyEqual_spec in Ek. cbn in Ek. subst k. split; [exact Hv|].
    apply elem_elements; eauto.
  - exists kNoIndex. split; [done|]. left. split; [done|].
    intros Hin. apply list_elem_of_fmap in Hin as (kv & -> & Hin). apply Hr in Hin.
    assert (ObjIndexPair.IsKeyEqual kv (fst kv) = true) as E by by apply ObjIndexPair.IsKeyEqual_spec.
    cbn in Hin. congruence.
Qed.

Lemma hash_insert e idx t :
  map_ok t -> idx <> kNoIndex -> pairs_size_ t <= 2 ^ 27 ->
  exists t', table_insert (e, idx) t = Ok t' /\ map_ok t' /\
    elements t' = elements t ++ [(e, idx)] /\
    pairs_size_ t' <= Z.max (pairs_size_ t) (2 * Z.of_nat (length (elements t'))).
Proof. intros Hok Hidx Hs. by apply (Insert_ok Hlimit (e, idx) t). Qed.

Definition hash_IndexTable : IndexTable (Map (Entry * Z)) := {|
  table_ok := map_ok;
  table_size := pairs_size_;
  table_pairs := elements;
  table_new_ok := hash_new;
  table_clear_ok := Clear_ok;
  table_lookup_ok := hash_lookup;
  table_insert_ok := hash_insert
|}.

End PoolTable.
