(* ===== verification/Assembler.v ===== *)
(** * Assembler: the macro assembler
    (class Assembler, runtime/vm/compiler/assembler/assembler_riscv.{h,cc})

    [MacroAsm] adds to the state of the micro assembler the object pool, the
    permission to use it and the deferred comparison.  A method that emits
    straight-line code is a [code]; a method with a label also returns the
    label.  Methods that call the runtime, allocate or read [Thread] are not
    modelled. *)

From stdpp Require Import base numbers list gmap.
From S2P Require Import Prelude Constants Encoding AsmBuffer MicroAsm AsmBranch Simulator.
From S2P Require Import ObjectPool.

#[local] Open Scope Z_scope.
#[local] Open Scope res_scope.

(** ** Enumerations and utilities *)

Inductive OperandSize : Set :=
| kByte | kUnsignedByte | kTwoBytes | kUnsignedTwoBytes | kFourBytes | kUnsignedFourBytes
| kEightBytes | kSWord | kDWord | kWordPair | kRegList | kQWord.

#[export] Instance OperandSize_eq_dec : EqDecision OperandSize.
Proof. solve_decision. Defined.

(** [kNoCondition] and [kInvalidCondition] are not conditions a caller passes. *)
Inductive Condition : Set :=
| EQ | NE | CS | CC | MI | PL | VS | VC | HI | LS | GE | LT | GT | LE | AL | NV.

#[export] Instance Condition_eq_dec : EqDecision Condition.
Proof. solve_decision. Defined.

Inductive DeferredCompareType : Set := kNone | kCompareReg | kCompareImm | kTestReg | kTestImm.

#[export] Instance DeferredCompareType_eq_dec : EqDecision DeferredCompareType.
Proof. solve_decision. Defined.

Inductive RangeCheckCondition : Set := kIfNotInRange | kIfInRange.

Definition kSmiTagMask : Z := 1.
Definition kSmiTagSize : Z := 1.
Definition kSmiTagShift : Z := 1.
Definition kBitsPerInt8 : Z := 8.
Definition kBitsPerInt16 : Z := 16.
Definition kBitsPerInt32 : Z := 32.
Definition kFpuRegisterSize : Z := 8.

(** [Utils::ShiftForPowerOfTwo], whose loop ends within the width of its argument. *)
Fixpoint shift_loop (fuel : nat) (x num_shifts : Z) : Z :=
  match fuel with
  | O => num_shifts
  | S fuel => if 1 <? x then shift_loop fuel (Z.shiftr x 1) (num_shifts + 1) else num_shifts
  end.
Definition ShiftForPowerOfTwo (x : Z) : Z := shift_loop 64 x 0.

(** [Utils::CountTrailingZeros64]: [__builtin_ctzll] of a value that is not 0. *)
Definition CountTrailingZeros64 (x : Z) : Z :=
  let x := u64 x in if x =? 0 then 64 else Z.log2 (Z.land x (- x)).

(** [Utils::NBitMask<uword>]. *)
Definition NBitMask `{Target} (n : Z) : Z :=
  if n =? kBitsPerWord then 2 ^ kBitsPerWord - 1 else Z.shiftl 1 n - 1.

(** ** State *)

Record MacroAsm (T : Type) : Type := mkMacro {
  asm_ : Asm;
  object_pool_builder_ : Builder T;
  pool_parent_ : option (Builder T);      (* the [parent_] of the pool *)
  constant_pool_allowed_ : bool;
  deferred_compare_ : DeferredCompareType;
  deferred_left_ : Z;
  deferred_reg_ : Z;
  deferred_imm_ : Z
}.
Arguments mkMacro {T} _ _ _ _ _ _ _ _.
Arguments asm_ {T} _.
Arguments object_pool_builder_ {T} _.
Arguments pool_parent_ {T} _.
Arguments constant_pool_allowed_ {T} _.
Arguments deferred_compare_ {T} _.
Arguments deferred_left_ {T} _.
Arguments deferred_reg_ {T} _.
Arguments deferred_imm_ {T} _.

Definition set_asm {T} (m : MacroAsm T) (a : Asm) : MacroAsm T :=
  mkMacro a (object_pool_builder_ m) (pool_parent_ m) (constant_pool_allowed_ m) (deferred_compare_ m)
    (deferred_left_ m) (deferred_reg_ m) (deferred_imm_ m).
Definition set_pool {T} (m : MacroAsm T) (b : Builder T) : MacroAsm T :=
  mkMacro (asm_ m) b (pool_parent_ m) (constant_pool_allowed_ m) (deferred_compare_ m)
    (deferred_left_ m) (deferred_reg_ m) (deferred_imm_ m).
Definition set_deferred {T} (m : MacroAsm T) (c : DeferredCompareType) (left reg imm : Z) : MacroAsm T :=
  mkMacro (asm_ m) (object_pool_builder_ m) (pool_parent_ m) (constant_pool_allowed_ m) c left reg imm.

(** Code, and code with a label. *)
Abbreviation code T := (MacroAsm T -> Res (MacroAsm T)).
Abbreviation branching T := (MacroAsm T -> Res (Label * MacroAsm T)).

Definition emit {T} (f : Asm -> Res Asm) : code T :=
  fun m => let* a := f (asm_ m) in Ok (set_asm m a).
Definition emit_branch {T} (f : Asm -> Res (Label * Asm)) : branching T :=
  fun m => let* r := f (asm_ m) in Ok (fst r, set_asm m (snd r)).

(** One after the other. *)
Definition andthen {A B} (f : A -> Res A) (g : A -> Res B) : A -> Res B :=
  fun x => let* y := f x in g y.
Declare Scope code_scope.
Delimit Scope code_scope with code.
Infix ">>" := andthen (at level 60, right associativity) : code_scope.
#[local] Open Scope code_scope.

Definition skip {A} : A -> Res A := fun x => Ok x.
Definition check `{Target} {A} (cond : bool) : A -> Res A := fun x => ASSERT cond ;; Ok x.
Definition unreachable {A} : A -> Res A := fun _ => Err Unreachable.
Definition unimplemented {A} : A -> Res A := fun _ => Err Unimplemented.

Section Assembler.
Context `{Target} {T : Type} `{ops : !IndexTableOps T}.

#[local] Notation code := (code T).
#[local] Notation branching := (branching T).
Import MicroAssembler.

Definition kWordSize : Z := XLEN / 8.
Definition kWordBytes : OperandSize := if XLEN =? 64 then kEightBytes else kFourBytes.

(** [Assembler(object_pool_builder, far_branch_level)];
    [FLAG_use_compressed_instructions] chooses the extensions. *)
Definition new_Assembler (pool : Builder T) (parent : option (Builder T)) (far_branch_level : Z) (use_compressed : bool) : MacroAsm T :=
  mkMacro (mkAsm [] (if use_compressed then RV_GC else RV_G) far_branch_level) pool parent false kNone
    Reg.kNoRegister Reg.kNoRegister 0.

Definition set_constant_pool_allowed (b : bool) (m : MacroAsm T) : MacroAsm T :=
  mkMacro (asm_ m) (object_pool_builder_ m) (pool_parent_ m) b (deferred_compare_ m)
    (deferred_left_ m) (deferred_reg_ m) (deferred_imm_ m).

(** Registers differ. *)
Definition differ (r r' : Z) : bool := negb (r =? r').

(** ** The stack *)

Definition PushRegister (r : Z) : code :=
  check (differ r Reg.SP) >>
  emit (subi Reg.SP Reg.SP kWordSize) >>
  emit (sx_ r (mkAddress Reg.SP 0)).

Definition PopRegister (r : Z) : code :=
  check (differ r Reg.SP) >>
  emit (lx r (mkAddress Reg.SP 0)) >>
  emit (addi Reg.SP Reg.SP kWordSize).

Definition PushRegisterPair (r0 r1 : Z) : code :=
  check (differ r0 Reg.SP) >> check (differ r1 Reg.SP) >>
  emit (subi Reg.SP Reg.SP (2 * kWordSize)) >>
  emit (sx_ r1 (mkAddress Reg.SP kWordSize)) >>
  emit (sx_ r0 (mkAddress Reg.SP 0)).

Definition PopRegisterPair (r0 r1 : Z) : code :=
  check (differ r0 Reg.SP) >> check (differ r1 Reg.SP) >>
  emit (lx r1 (mkAddress Reg.SP kWordSize)) >>
  emit (lx r0 (mkAddress Reg.SP 0)) >>
  emit (addi Reg.SP Reg.SP (2 * kWordSize)).

(** The registers of a set, in the order of their numbers. *)
Definition registers_in (regs : Z) : list Z := List.filter (fun i => reg_in regs i) (seqZ 0 32).

(** The loops over a register set: one access per register, the offset stepping
    by [step] before ([pre]) or after the access.  They return the offset. *)
Fixpoint save_down (access : Z -> Address -> Asm -> Res Asm) (step : Z) (l : list Z) (offset : Z)
    (m : MacroAsm T) : Res (Z * MacroAsm T) :=
  match l with
  | [] => Ok (offset, m)
  | r :: l =>
      let offset := offset - step in
      let* m := emit (access r (mkAddress Reg.SP offset)) m in save_down access step l offset m
  end.
Fixpoint access_up (access : Z -> Address -> Asm -> Res Asm) (step : Z) (l : list Z) (offset : Z)
    (m : MacroAsm T) : Res (Z * MacroAsm T) :=
  match l with
  | [] => Ok (offset, m)
  | r :: l =>
      let* m := emit (access r (mkAddress Reg.SP offset)) m in
      access_up access step l (offset + step) m
  end.

(** A [RegisterSet] is its two register lists. *)
Definition register_set_size (cpu fpu : Z) : Z :=
  Z.of_nat (length (registers_in cpu)) * kWordSize +
  Z.of_nat (length (registers_in fpu)) * kFpuRegisterSize.

Definition PushRegisters (cpu fpu : Z) (m : MacroAsm T) : Res (MacroAsm T) :=
  let size := register_set_size cpu fpu in
  if size =? 0 then Ok m else
  let* m := emit (subi Reg.SP Reg.SP size) m in
  let* r := save_down fsd kFpuRegisterSize (reverse (registers_in fpu)) size m in
  let* r := save_down sx_ kWordSize (reverse (registers_in cpu)) (fst r) (snd r) in
  ASSERT (fst r =? 0) ;; Ok (snd r).

Definition PopRegisters (cpu fpu : Z) (m : MacroAsm T) : Res (MacroAsm T) :=
  let size := register_set_size cpu fpu in
  if size =? 0 then Ok m else
  let* r := access_up lx kWordSize (registers_in cpu) 0 m in
  let* r := access_up fld kFpuRegisterSize (registers_in fpu) (fst r) (snd r) in
  ASSERT (fst r =? size) ;;
  emit (addi Reg.SP Reg.SP size) (snd r).

Fixpoint push_in_order (l : list Z) (offset : Z) (m : MacroAsm T) : Res (MacroAsm T) :=
  match l with
  | [] => Ok m
  | r :: l =>
      ASSERT (differ r Reg.SP) ;;
      let offset := offset - kWordSize in
      let* m := emit (sx_ r (mkAddress Reg.SP offset)) m in push_in_order l offset m
  end.
Definition PushRegistersInOrder (regs : list Z) : code :=
  let offset := Z.of_nat (length regs) * kWordSize in
  emit (subi Reg.SP Reg.SP offset) >> push_in_order regs offset.

Definition kAbiPreservedFpuRegs : Z :=
  RegList [FReg.FS0; FReg.FS1; FReg.FS2; FReg.FS3; FReg.FS4; FReg.FS5; FReg.FS6; FReg.FS7;
           FReg.FS8; FReg.FS9; FReg.FS10; FReg.FS11].

Definition PushNativeCalleeSavedRegisters (m : MacroAsm T) : Res (MacroAsm T) :=
  let size := register_set_size kAbiPreservedCpuRegs kAbiPreservedFpuRegs in
  let* m := emit (subi Reg.SP Reg.SP size) m in
  let* r := access_up fsd 8 (registers_in kAbiPreservedFpuRegs) 0 m in
  let* r := access_up sx_ kWordSize (registers_in kAbiPreservedCpuRegs) (fst r) (snd r) in
  ASSERT (fst r =? size) ;; Ok (snd r).

Definition PopNativeCalleeSavedRegisters (m : MacroAsm T) : Res (MacroAsm T) :=
  let size := register_set_size kAbiPreservedCpuRegs kAbiPreservedFpuRegs in
  let* r := access_up fld 8 (registers_in kAbiPreservedFpuRegs) 0 m in
  let* r := access_up lx kWordSize (registers_in kAbiPreservedCpuRegs) (fst r) (snd r) in
  ASSERT (fst r =? size) ;;
  emit (addi Reg.SP Reg.SP size) (snd r).

Definition EnterFrame (frame_size : Z) : code :=
  emit (subi Reg.SP Reg.SP (frame_size + 2 * kWordSize)) >>
  emit (sx_ Reg.RA (mkAddress Reg.SP (frame_size + 1 * kWordSize))) >>
  emit (sx_ Reg.FP (mkAddress Reg.SP (frame_size + 0 * kWordSize))) >>
  emit (addi Reg.FP Reg.SP (frame_size + 2 * kWordSize)).

Definition LeaveFrame : code :=
  emit (subi Reg.SP Reg.FP (2 * kWordSize)) >>
  emit (lx Reg.FP (mkAddress Reg.SP (0 * kWordSize))) >>
  emit (lx Reg.RA (mkAddress Reg.SP (1 * kWordSize))) >>
  emit (addi Reg.SP Reg.SP (2 * kWordSize)).

(** ** Moves, extensions and tags *)

Definition ExtendValue (rd rn : Z) (sz : OperandSize) : code :=
  let move := if rd =? rn then skip else emit (mv rd rn) in
  if XLEN =? 64 then
    match sz with
    | kEightBytes => move
    | kFourBytes => emit (sextw rd rn)
    | _ => unimplemented
    end
  else
    match sz with
    | kUnsignedFourBytes | kFourBytes => move
    | _ => unimplemented
    end.

Definition MoveRegister (dst src : Z) : code := ExtendValue dst src kWordBytes.

Definition SmiTag (dst src : Z) : code := emit (slli dst src kSmiTagSize).
Definition SmiUntag (dst src : Z) : code := emit (srai dst src kSmiTagSize).

Definition ExtendAndSmiTagValue (rd rn : Z) (sz : OperandSize) : code :=
  let widen shr bits :=
    emit (slli rd rn (XLEN - bits)) >> emit (shr rd rd (XLEN - bits - kSmiTagShift)) in
  if decide (sz = kWordBytes) then SmiTag rd rn else
  match sz with
  | kUnsignedFourBytes => if XLEN =? 64 then widen srli kBitsPerInt32 else unimplemented
  | kFourBytes => if XLEN =? 64 then widen srai kBitsPerInt32 else unimplemented
  | kUnsignedTwoBytes => widen srli kBitsPerInt16
  | kTwoBytes => widen srai kBitsPerInt16
  | kUnsignedByte => widen srli kBitsPerInt8
  | kByte => widen srai kBitsPerInt8
  | _ => unimplemented
  end.

Definition ArithmeticShiftRightImmediate (reg shift : Z) : code := emit (srai reg reg shift).

(** ** Constants *)

(** [target::ObjectPool::element_offset], from runtime_offsets_extracted.h. *)
Definition ObjectPool_elements_start_offset : Z := if XLEN =? 64 then 0x10 else 0x8.
Definition ObjectPool_element_size : Z := if XLEN =? 64 then 0x8 else 0x4.
Definition element_offset (index : Z) : Z :=
  ObjectPool_elements_start_offset + ObjectPool_element_size * index.

Definition LoadWordFromPoolIndex (dst index pp : Z) : code := fun m =>
  ASSERT (differ pp PP || constant_pool_allowed_ m) ;;
  ASSERT (differ dst pp) ;;
  let offset := u32 (element_offset index) in
  let lo := ImmLo offset in
  let hi := ImmHi offset in
  if hi =? 0 then emit (lx dst (mkAddress pp lo)) m
  else (emit (lui dst hi) >> emit (add dst dst pp) >> emit (lx dst (mkAddress dst lo))) m.

Definition StoreWordToPoolIndex (src index pp : Z) : code := fun m =>
  ASSERT (differ pp PP || constant_pool_allowed_ m) ;;
  ASSERT (differ src pp) ;;
  let offset := u32 (element_offset index) in
  let lo := ImmLo offset in
  let hi := ImmHi offset in
  if hi =? 0 then emit (sx_ src (mkAddress pp lo)) m
  else (emit (lui TMP hi) >> emit (add TMP TMP pp) >> emit (sx_ src (mkAddress TMP lo))) m.

(** [object_pool_builder().FindImmediate(imm)]. *)
Definition FindImmediateInPool (imm : Z) (m : MacroAsm T) : Res (Z * MacroAsm T) :=
  let* r := FindImmediate (pool_parent_ m) imm (object_pool_builder_ m) in
  Ok (fst r, set_pool m (snd r)).

(** The last part of [LoadImmediate]: a value of 32 bits. *)
Definition LoadImmediate32 (reg imm : Z) : code :=
  let lo := ImmLo imm in
  let hi := ImmHi imm in
  if hi =? 0 then emit (addi reg Reg.ZR lo)
  else emit (lui reg hi) >>
       (if lo =? 0 then skip
        else if XLEN =? 32 then emit (addi reg reg lo) else emit (addiw reg reg lo)).

(** [LoadImmediate]; each recursive call shortens the value by at least 11 bits. *)
Fixpoint LoadImmediate_loop (fuel : nat) (reg imm : Z) : code := fun m =>
  match fuel with
  | O => Err OutOfFuel
  | S fuel =>
      if (32 <? XLEN) && negb (IsInt 32 imm) then
        let shift := CountTrailingZeros64 imm in
        if IsITypeImm (Z.shiftr imm shift) then
          (emit (li reg (Z.shiftr imm shift)) >> emit (slli reg reg shift)) m
        else if (12 <=? shift) && IsUTypeImm (Z.shiftr imm (shift - 12)) then
          (emit (lui reg (Z.shiftr imm (shift - 12))) >> emit (slli reg reg (shift - 12))) m
        else if constant_pool_allowed_ m then
          let* r := FindImmediateInPool imm m in
          LoadWordFromPoolIndex reg (fst r) PP (snd r)
        else
          let lo := ImmLo imm in
          if decide (inS XLEN (imm - lo)) then
            let hi := imm - lo in
            let shift := CountTrailingZeros64 hi in
            (check (negb (shift =? 0)) >>
             LoadImmediate_loop fuel reg (Z.shiftr hi shift) >>
             emit (slli reg reg shift) >>
             (if lo =? 0 then skip else emit (addi reg reg lo))) m
          else Err UndefinedBehavior
      else LoadImmediate32 reg imm m
  end.
Definition LoadImmediate (reg imm : Z) : code := LoadImmediate_loop 4 reg imm.

(** ** Arithmetic with constants *)

Definition AddShifted (dest base index shift : Z) : code := fun m =>
  let zba := Supports (asm_ m) RV_Zba in
  (if shift =? 0 then emit (add dest index base)
   else if zba && (shift =? 1) then emit (sh1add dest index base)
   else if zba && (shift =? 2) then emit (sh2add dest index base)
   else if zba && (shift =? 3) then emit (sh3add dest index base)
   else if shift <? 0 then
     if differ base dest then emit (srai dest index (- shift)) >> emit (add dest dest base)
     else emit (srai TMP2 index (- shift)) >> emit (add dest TMP2 base)
   else
     if differ base dest then emit (slli dest index shift) >> emit (add dest dest base)
     else emit (slli TMP2 index shift) >> emit (add dest TMP2 base)) m.

Definition AddImmediate (rd rs1 imm : Z) : code :=
  if (imm =? 0) && (rd =? rs1) then skip
  else if IsITypeImm imm then emit (addi rd rs1 imm)
  else check (differ rs1 TMP2) >> LoadImmediate TMP2 imm >> emit (add rd rs1 TMP2).

Definition Drop (stack_elements : Z) : code :=
  check (0 <=? stack_elements) >>
  (if 0 <? stack_elements then AddImmediate Reg.SP Reg.SP (stack_elements * kWordSize) else skip).

(** [IsPowerOfTwo] of an [intx_t] computes [imm - 1], which overflows for the
    least value. *)
Definition MulImmediate (rd rs1 imm : Z) (sz : OperandSize) : code :=
  let sized w d : code :=
    if XLEN =? 64 then
      check (bool_decide (sz = kFourBytes) || bool_decide (sz = kEightBytes)) >>
      (if decide (sz = kFourBytes) then emit w else emit d)
    else check (bool_decide (sz = kFourBytes)) >> emit d in
  if imm =? kMinIntX then (fun _ => Err UndefinedBehavior)
  else if IsPowerOfTwo imm then
    let shift := ShiftForPowerOfTwo imm in
    sized (slliw rd rs1 shift) (slli rd rs1 shift)
  else LoadImmediate TMP imm >> sized (mulw rd rs1 TMP) (mul rd rs1 TMP).

Definition AndImmediate (rd rs1 imm : Z) : code := fun m =>
  let uimm := ux imm in
  (if imm =? -1 then MoveRegister rd rs1
   else if IsITypeImm imm then emit (andi rd rs1 imm)
   else if Supports (asm_ m) RV_Zbs && IsPowerOfTwo (ux (Z.lnot uimm)) then
     emit (bclri rd rs1 (ShiftForPowerOfTwo (ux (Z.lnot uimm))))
   else if IsPowerOfTwo (ux (uimm + 1)) then
     let shift := ShiftForPowerOfTwo (ux (uimm + 1)) in
     if Supports (asm_ m) RV_Zbb && (shift =? 16) then emit (zexth rd rs1)
     else emit (slli rd rs1 (XLEN - shift)) >> emit (srli rd rd (XLEN - shift))
   else check (differ rs1 TMP2) >> LoadImmediate TMP2 imm >> emit (and_ rd rs1 TMP2)) m.

Definition OrImmediate (rd rs1 imm : Z) : code := fun m =>
  let uimm := ux imm in
  (if imm =? 0 then MoveRegister rd rs1
   else if IsITypeImm imm then emit (ori rd rs1 imm)
   else if Supports (asm_ m) RV_Zbs && IsPowerOfTwo uimm then
     emit (bseti rd rs1 (ShiftForPowerOfTwo uimm))
   else check (differ rs1 TMP2) >> LoadImmediate TMP2 imm >> emit (or_ rd rs1 TMP2)) m.

Definition XorImmediate (rd rs1 imm : Z) : code := fun m =>
  let uimm := ux imm in
  (if imm =? 0 then MoveRegister rd rs1
   else if IsITypeImm imm then emit (xori rd rs1 imm)
   else if Supports (asm_ m) RV_Zbs && IsPowerOfTwo uimm then
     emit (binvi rd rs1 (ShiftForPowerOfTwo uimm))
   else check (differ rs1 TMP2) >> LoadImmediate TMP2 imm >> emit (xor_ rd rs1 TMP2)) m.

(** ** Memory *)

(** [offset] is an [int32_t]. *)
Definition PrepareLargeOffset (base offset : Z) (m : MacroAsm T) : Res (Address * MacroAsm T) :=
  ASSERT (differ base TMP2) ;;
  if IsITypeImm offset then Ok (mkAddress base offset, m) else
  let lo := ImmLo offset in
  let hi := ImmHi offset in
  ASSERT (negb (hi =? 0)) ;;
  let* m := (emit (lui TMP2 hi) >> emit (add TMP2 TMP2 base)) m in
  Ok (mkAddress TMP2 lo, m).

(** An access to [address], which may be out of an instruction's reach. *)
Definition at_offset (address : Address) (access : Address -> Asm -> Res Asm) : code := fun m =>
  let* r := PrepareLargeOffset (base address) (offset address) m in
  emit (access (fst r)) (snd r).

Definition load_method (sz : OperandSize) : option (Z -> Address -> Asm -> Res Asm) :=
  match sz with
  | kEightBytes => if XLEN =? 64 then Some ld else None
  | kUnsignedFourBytes => Some (if XLEN =? 64 then lwu else lw)
  | kFourBytes => Some lw
  | kUnsignedTwoBytes => Some lhu
  | kTwoBytes => Some lh
  | kUnsignedByte => Some lbu
  | kByte => Some lb
  | _ => None
  end.
Definition LoadFromOffset (dest : Z) (address : Address) (sz : OperandSize) : code :=
  at_offset address (fun addr => match load_method sz with Some f => f dest addr | None => unreachable end).

Definition store_method (sz : OperandSize) : option (Z -> Address -> Asm -> Res Asm) :=
  match sz with
  | kEightBytes => if XLEN =? 64 then Some sd else None
  | kUnsignedFourBytes | kFourBytes => Some sw
  | kUnsignedTwoBytes | kTwoBytes => Some sh
  | kUnsignedByte | kByte => Some sb
  | _ => None
  end.
Definition StoreToOffset (src : Z) (address : Address) (sz : OperandSize) : code :=
  at_offset address (fun addr => match store_method sz with Some f => f src addr | None => unreachable end).

Definition LoadSFromOffset (dest base offset : Z) : code := at_offset (mkAddress base offset) (flw dest).
Definition LoadDFromOffset (dest base offset : Z) : code := at_offset (mkAddress base offset) (fld dest).
Definition StoreSToOffset (src base offset : Z) : code := at_offset (mkAddress base offset) (fsw src).
Definition StoreDToOffset (src base offset : Z) : code := at_offset (mkAddress base offset) (fsd src).

Definition LoadFromStack (dst depth : Z) : code :=
  LoadFromOffset dst (mkAddress Reg.SP (kWordSize * depth)) kWordBytes.
Definition StoreToStack (src depth : Z) : code :=
  StoreToOffset src (mkAddress Reg.SP (kWordSize * depth)) kWordBytes.

Definition LoadIndexedPayload (dest base payload_offset index scale : Z) (sz : OperandSize) : code :=
  AddShifted TMP base index scale >>
  LoadFromOffset dest (mkAddress TMP (payload_offset - kHeapObjectTag)) sz.

(** ** Object headers *)

Definition kClassIdTagPos : Z := 12.
Definition kSizeTagPos : Z := 8.
Definition kSizeTagSize : Z := 4.
Definition kObjectAlignmentLog2 : Z := if XLEN =? 64 then 4 else 3.

Definition ExtractClassIdFromTags (result tags : Z) : code :=
  if XLEN =? 64 then emit (srliw result tags kClassIdTagPos) else emit (srli result tags kClassIdTagPos).

Definition ExtractInstanceSizeFromTags (result tags : Z) : code :=
  emit (srli result tags kSizeTagPos) >>
  emit (andi result result (Z.shiftl 1 kSizeTagSize - 1)) >>
  emit (slli result result kObjectAlignmentLog2).

(** ** Hashing *)

Definition CombineHashes (hash other : Z) : code :=
  if XLEN =? 64 then
    emit (addw hash hash other) >>
    emit (slliw other hash 10) >> emit (addw hash hash other) >>
    emit (srliw other hash 6) >> emit (xor_ hash hash other)
  else
    emit (add hash hash other) >>
    emit (slli other hash 10) >> emit (add hash hash other) >>
    emit (srli other hash 6) >> emit (xor_ hash hash other).

Definition FinalizeHashForSize (bit_size hash scratch : Z) : code :=
  check (0 <? bit_size) >> check (bit_size <=? kBitsPerInt32) >> check (differ scratch Reg.kNoRegister) >>
  (if XLEN =? 64 then
     emit (slliw scratch hash 3) >> emit (addw hash hash scratch) >>
     emit (srliw scratch hash 11) >> emit (xor_ hash hash scratch) >>
     emit (slliw scratch hash 15) >> emit (addw hash hash scratch)
   else
     emit (slli scratch hash 3) >> emit (add hash hash scratch) >>
     emit (srli scratch hash 11) >> emit (xor_ hash hash scratch) >>
     emit (slli scratch hash 15) >> emit (add hash hash scratch)) >>
  (if bit_size <? kBitsPerInt32 then AndImmediate hash hash (sx (NBitMask bit_size)) else skip) >>
  emit (seqz scratch hash) >> emit (add hash hash scratch).

(** ** Comparisons *)

Definition InvertCondition (c : Condition) : Res Condition :=
  ASSERT (negb (bool_decide (c = AL))) ;;
  Ok match c with
     | EQ => NE | NE => EQ | CS => CC | CC => CS | MI => PL | PL => MI | VS => VC | VC => VS
     | HI => LS | LS => HI | GE => LT | LT => GE | GT => LE | LE => GT | AL => NV | NV => AL
     end.

(** A comparison only records its operands. *)
Definition defer (c : DeferredCompareType) (f : MacroAsm T -> MacroAsm T) : code := fun m =>
  ASSERT (bool_decide (deferred_compare_ m = kNone)) ;; Ok (f m).

Definition CompareRegisters (rn rm : Z) : code :=
  defer kCompareReg (fun m => set_deferred m kCompareReg rn rm (deferred_imm_ m)).
Definition TestRegisters (rn rm : Z) : code :=
  defer kTestReg (fun m => set_deferred m kTestReg rn rm (deferred_imm_ m)).
Definition TestImmediate (rn imm : Z) : code :=
  defer kTestImm (fun m => set_deferred m kTestImm rn (deferred_reg_ m) imm).
Definition CompareImmediate (rn imm : Z) : code :=
  defer kCompareImm (fun m => set_deferred m kCompareImm rn (deferred_reg_ m) imm).

Definition consume (m : MacroAsm T) : MacroAsm T :=
  set_deferred m kNone (deferred_left_ m) (deferred_reg_ m) (deferred_imm_ m).

(** The branch of [BranchIf] on two registers. *)
Definition compare_branch (condition : Condition) (left right : Z) (label : Label)
    (distance : JumpDistance) : Asm -> Res (Label * Asm) :=
  match condition with
  | EQ => beq left right label distance
  | NE => bne left right label distance
  | LT => blt left right label distance
  | LE => ble left right label distance
  | GE => bge left right label distance
  | GT => bgt left right label distance
  | CC => bltu left right label distance
  | LS => bleu left right label distance
  | CS => bgeu left right label distance
  | HI => bgtu left right label distance
  | VS | VC => fun _ => Err UseBranchOverflow
  | _ => fun _ => Err Unreachable
  end.

Definition test_branch (condition : Condition) (label : Label) (distance : JumpDistance)
    : Asm -> Res (Label * Asm) :=
  match condition with
  | EQ => beqz TMP2 label distance
  | NE => bnez TMP2 label distance
  | _ => fun _ => Err Unreachable
  end.

Definition BranchIf (condition : Condition) (label : Label) (distance : JumpDistance) : branching :=
  fun m =>
  ASSERT (negb (bool_decide (deferred_compare_ m = kNone))) ;;
  let left := deferred_left_ m in
  let* r :=
    match deferred_compare_ m with
    | kCompareImm =>
        if deferred_imm_ m =? 0
        then emit_branch (compare_branch condition left Reg.ZR label distance) m
        else (LoadImmediate TMP2 (deferred_imm_ m) >>
              emit_branch (compare_branch condition left TMP2 label distance)) m
    | kCompareReg => emit_branch (compare_branch condition left (deferred_reg_ m) label distance) m
    | kTestImm =>
        (AndImmediate TMP2 left (deferred_imm_ m) >> emit_branch (test_branch condition label distance)) m
    | kTestReg =>
        (emit (and_ TMP2 left (deferred_reg_ m)) >> emit_branch (test_branch condition label distance)) m
    | kNone => Err Unreachable
    end in
  Ok (fst r, consume (snd r)).

(** [SetIf] on two registers. *)
Definition set_compare_reg (condition : Condition) (rd left right : Z) : code :=
  match condition with
  | EQ => if right =? Reg.ZR then emit (seqz rd left)
          else emit (xor_ rd left right) >> emit (seqz rd rd)
  | NE => if right =? Reg.ZR then emit (snez rd left)
          else emit (xor_ rd left right) >> emit (snez rd rd)
  | LT => emit (slt rd left right)
  | LE => emit (slt rd right left) >> emit (xori rd rd 1)
  | GE => emit (slt rd left right) >> emit (xori rd rd 1)
  | GT => emit (slt rd right left)
  | CC => emit (sltu rd left right)
  | LS => emit (sltu rd right left) >> emit (xori rd rd 1)
  | CS => emit (sltu rd left right) >> emit (xori rd rd 1)
  | HI => emit (sltu rd right left)
  | _ => unreachable
  end.

(** ... and on a register and a small immediate. *)
Definition set_compare_imm (condition : Condition) (rd left right : Z) : code :=
  match condition with
  | EQ => emit (subi rd left right) >> emit (seqz rd rd)
  | NE => emit (subi rd left right) >> emit (snez rd rd)
  | LT => emit (slti rd left right)
  | LE => emit (slti rd left (right + 1))
  | GE => emit (slti rd left right) >> emit (xori rd rd 1)
  | GT => emit (slti rd left (right + 1)) >> emit (xori rd rd 1)
  | CC => emit (sltiu rd left right)
  | LS => emit (sltiu rd left (right + 1))
  | CS => emit (sltiu rd left right) >> emit (xori rd rd 1)
  | HI => emit (sltiu rd left (right + 1)) >> emit (xori rd rd 1)
  | _ => unreachable
  end.

(** From the result of an "and" in [rd]. *)
Definition set_test (condition : Condition) (rd : Z) : code :=
  match condition with
  | EQ => emit (seqz rd rd)
  | NE => emit (snez rd rd)
  | _ => unreachable
  end.
(** From a single bit in [rd]. *)
Definition set_bit (condition : Condition) (rd : Z) (extract : Asm -> Res Asm) : code :=
  match condition with
  | EQ => emit extract >> emit (xori rd rd 1)
  | NE => emit extract
  | _ => unreachable
  end.

(** The two recursive calls of [SetIf] turn an immediate comparison into one of
    registers, and set [deferred_reg_]. *)
Definition as_compare_reg (reg : Z) (m : MacroAsm T) : MacroAsm T :=
  set_deferred m kCompareReg (deferred_left_ m) reg (deferred_imm_ m).

Definition SetIf (condition : Condition) (rd : Z) : code := fun m =>
  ASSERT (negb (bool_decide (deferred_compare_ m = kNone))) ;;
  let left := deferred_left_ m in
  let imm := deferred_imm_ m in
  let compare reg : code := fun m =>
    let* m := set_compare_reg condition rd left reg (as_compare_reg reg m) in Ok (consume m) in
  match deferred_compare_ m with
  | kCompareImm =>
      if imm =? 0 then compare Reg.ZR m
      else if negb (IsITypeImm imm) || negb (IsITypeImm (imm + 1)) then
        (LoadImmediate TMP2 imm >> compare TMP2) m
      else let* m := set_compare_imm condition rd left imm m in Ok (consume m)
  | kCompareReg => compare (deferred_reg_ m) m
  | kTestImm =>
      let* m :=
        (if imm =? 1 then set_bit condition rd (andi rd left 1)
         else if Supports (asm_ m) RV_Zbs && IsPowerOfTwo (ux imm) then
           set_bit condition rd (bexti rd left (ShiftForPowerOfTwo (ux imm)))
         else AndImmediate rd left imm >> set_test condition rd) m in
      Ok (consume m)
  | kTestReg =>
      let* m := (emit (and_ rd left (deferred_reg_ m)) >> set_test condition rd) m in Ok (consume m)
  | kNone => Err Unreachable
  end.

Definition BranchIfZero (rn : Z) (label : Label) (distance : JumpDistance) : branching :=
  emit_branch (beqz rn label distance).

Definition BranchIfBit (rn bit_number : Z) (condition : Condition) (label : Label)
    (distance : JumpDistance) : branching :=
  check (differ rn TMP2) >>
  emit (andi TMP2 rn (Z.shiftl 1 bit_number)) >>
  emit_branch (test_branch condition label distance).

Definition BranchIfNotSmi (reg : Z) (label : Label) (distance : JumpDistance) : branching :=
  check (differ reg TMP2) >>
  emit (andi TMP2 reg kSmiTagMask) >> emit_branch (bnez TMP2 label distance).
Definition BranchIfSmi (reg : Z) (label : Label) (distance : JumpDistance) : branching :=
  check (differ reg TMP2) >>
  emit (andi TMP2 reg kSmiTagMask) >> emit_branch (beqz TMP2 label distance).

Definition RangeCheck (value temp low high : Z) (condition : RangeCheckCondition) (target : Label)
    : branching :=
  let cc := match condition with kIfInRange => LS | kIfNotInRange => HI end in
  let to_check := if differ temp Reg.kNoRegister then temp else value in
  if decide (inS kBitsPerWord (- low) /\ inS kBitsPerWord (high - low)) then
    AddImmediate to_check value (- low) >>
    CompareImmediate to_check (high - low) >>
    BranchIf cc target kFarJump
  else (fun _ => Err UndefinedBehavior).

(** ** Arithmetic that branches on overflow *)

(** Without a branch the label stays as it is. *)
Definition no_branch (label : Label) : branching := fun m => Ok (label, m).

Definition AddImmediateBranchOverflow (rd rs1 imm : Z) (overflow : Label) : branching :=
  let branch reg :=
    if 0 <? imm then emit_branch (blt rd reg overflow kFarJump)
    else if imm <? 0 then emit_branch (bgt rd reg overflow kFarJump)
    else no_branch overflow in
  check (differ rd TMP2) >>
  (if rd =? rs1 then emit (mv TMP2 rs1) >> AddImmediate rd rs1 imm >> branch TMP2
   else AddImmediate rd rs1 imm >> branch rs1).

Definition SubtractImmediateBranchOverflow (rd rs1 imm : Z) (overflow : Label) : branching :=
  if imm =? kMinIntX then (fun _ => Err UndefinedBehavior)
  else AddImmediateBranchOverflow rd rs1 (- imm) overflow.

(** The scratch registers are not operands. *)
Definition check_operands (l : list Z) : code :=
  foldr (fun r k => check (differ r TMP) >> check (differ r TMP2) >> k) skip l.

Definition multiply_and_branch (rd rs1 rs2 : Z) (overflow : Label) : branching :=
  emit (mulh TMP rs1 rs2) >>
  emit (mul rd rs1 rs2) >>
  emit (srai TMP2 rd (XLEN - 1)) >>
  emit_branch (bne TMP TMP2 overflow kFarJump).

Definition MultiplyImmediateBranchOverflow (rd rs1 imm : Z) (overflow : Label) : branching :=
  check_operands [rd; rs1] >>
  LoadImmediate TMP2 imm >> multiply_and_branch rd rs1 TMP2 overflow.

Definition MultiplyBranchOverflow (rd rs1 rs2 : Z) (overflow : Label) : branching :=
  check_operands [rd; rs1; rs2] >> multiply_and_branch rd rs1 rs2 overflow.

Definition AddBranchOverflow (rd rs1 rs2 : Z) (overflow : Label) : branching :=
  check_operands [rd; rs1; rs2] >>
  (if (rd =? rs1) && (rd =? rs2) then
     check (rs1 =? rs2) >>
     emit (mv TMP rs1) >> emit (add rd rs1 rs2) >> emit (xor_ TMP TMP rd) >>
     emit_branch (bltz TMP overflow kFarJump)
   else if rs1 =? rs2 then
     check (differ rd rs1) >> check (differ rd rs2) >>
     emit (add rd rs1 rs2) >> emit (xor_ TMP rd rs1) >>
     emit_branch (bltz TMP overflow kFarJump)
   else if rd =? rs1 then
     check (differ rs1 rs2) >>
     emit (slti TMP rs1 0) >> emit (add rd rs1 rs2) >> emit (slt TMP2 rd rs2) >>
     emit_branch (bne TMP TMP2 overflow kFarJump)
   else if rd =? rs2 then
     check (differ rs1 rs2) >>
     emit (slti TMP rs2 0) >> emit (add rd rs1 rs2) >> emit (slt TMP2 rd rs1) >>
     emit_branch (bne TMP TMP2 overflow kFarJump)
   else
     emit (add rd rs1 rs2) >> emit (slti TMP rs2 0) >> emit (slt TMP2 rd rs1) >>
     emit_branch (bne TMP TMP2 overflow kFarJump)).

Definition SubtractBranchOverflow (rd rs1 rs2 : Z) (overflow : Label) : branching :=
  check_operands [rd; rs1; rs2] >>
  (if (rd =? rs1) && (rd =? rs2) then
     check (rs1 =? rs2) >>
     emit (mv TMP rs1) >> emit (sub rd rs1 rs2) >> emit (xor_ TMP TMP rd) >>
     emit_branch (bltz TMP overflow kFarJump)
   else if rs1 =? rs2 then
     check (differ rd rs1) >> check (differ rd rs2) >>
     emit (sub rd rs1 rs2) >> emit (xor_ TMP rd rs1) >>
     emit_branch (bltz TMP overflow kFarJump)
   else if rd =? rs1 then
     check (differ rs1 rs2) >>
     emit (slti TMP rs1 0) >> emit (sub rd rs1 rs2) >> emit (slt TMP2 rd rs2) >>
     emit_branch (bne TMP TMP2 overflow kFarJump)
   else if rd =? rs2 then
     check (differ rs1 rs2) >>
     emit (slti TMP rs2 0) >> emit (sub rd rs1 rs2) >> emit (slt TMP2 rd rs1) >>
     emit_branch (bne TMP TMP2 overflow kFarJump)
   else
     emit (sub rd rs1 rs2) >> emit (slti TMP rs2 0) >> emit (slt TMP2 rs1 rd) >>
     emit_branch (bne TMP TMP2 overflow kFarJump)).

End Assembler.
