(* ===== verification/MacroSeq.v ===== *)
(** * MacroSeq: what straight-line code of the macro assembler does

    [memits] is [emits] for the macro assembler.  Code that only writes
    registers is summarised by [writes], the register file it leaves;
    [computes] states the result of a macro as its callers use it: one
    register receives a value, the scratch registers may change, and nothing
    else does. *)

From stdpp Require Import base numbers list gmap.
From Stdlib Require Import Lia.
From S2P Require Import Prelude Constants Encoding CEncoding AsmBuffer MicroAsm AsmBranch SimState.
From S2P Require Import SimInt SimAtomic SimFloat SimCompressed Simulator Isa IntSpec BitSpec.
From S2P Require Import AsmExec AsmFormats RefineOp RefineImm RefineMem Refinement.
From S2P Require Import SimInv RefineBranch RefineLabel SimMemSpec AsmSeq ObjectPool Assembler.

#[local] Open Scope Z_scope.
#[local] Open Scope res_scope.
#[local] Open Scope code_scope.

Section MacroSeq.
Context `{Target} `{HostNaN} `{Host} {T : Type} `{ops : !IndexTableOps T}.

#[local] Notation MacroAsm := (MacroAsm T).
#[local] Notation code := (code T).

(** ** Emission *)

Definition append (m : MacroAsm) (bytes : list Z) : MacroAsm :=
  set_asm m (set_buffer (asm_ m) (buffer_ (asm_ m) ++ bytes)).

(** The same assembler at another position. *)
Definition at_buffer (m : MacroAsm) (b : list Z) : MacroAsm := set_asm m (set_buffer (asm_ m) b).

Definition memits (c : code) (m : MacroAsm) (l : list effect) : Prop :=
  exists bytes, c m = Ok (append m bytes) /\ block bytes l.

Lemma append_nil m : append m [] = m.
Proof. unfold append. rewrite app_nil_r. destruct m as [[] ? ? ? ? ? ?]. done. Qed.

Lemma memits_skip m : memits skip m [].
Proof. exists []. rewrite append_nil. split; [done|constructor]. Qed.

Lemma memits_check b m : b = true -> memits (check b) m [].
Proof.
  intros Hb. exists []. rewrite append_nil. unfold check. rewrite ASSERT_true by done.
  split; [done|constructor].
Qed.

Lemma memits_emit f e m :
  effect_wf e -> implements f (asm_ m) (as_instruction e) -> memits (emit f) m [e].
Proof.
  intros He Hi. destruct (emits_one f (asm_ m) e He Hi) as (bytes & E & Hb).
  exists bytes. split; [|done]. unfold emit. rewrite E. done.
Qed.

Lemma memits_then (c1 c2 : code) m l1 l2 :
  memits c1 m l1 -> (forall b, memits c2 (at_buffer m b) l2) -> memits (c1 >> c2) m (l1 ++ l2).
Proof.
  intros (b1 & E1 & Hb1) H2. destruct (H2 (buffer_ (asm_ m) ++ b1)) as (b2 & E2 & Hb2).
  exists (b1 ++ b2). split; [|by apply block_app]. unfold andthen. rewrite E1. cbn [rbind].
  change (append m b1) with (at_buffer m (buffer_ (asm_ m) ++ b1)). rewrite E2.
  unfold append, at_buffer. cbn. by rewrite app_assoc.
Qed.

(** [check] and [skip] leave no trace in the list of effects. *)
Lemma memits_check_then b (c : code) m l : b = true -> memits c m l -> memits (check b >> c) m l.
Proof.
  intros Hb Hc. unfold memits, andthen, check. rewrite ASSERT_true by done. cbn [rbind]. exact Hc.
Qed.

(** ** Instructions *)

Section Instructions.
Context (m : MacroAsm) (HI : Supports (asm_ m) RV_I = true).

Lemma m_rop op rd rs1 rs2 :
  inU 5 rd -> inU 5 rs1 -> inU 5 rs2 -> Supports (asm_ m) (rop_ext op) = true ->
  (op = ADD -> add_operands (asm_ m) rd rs1 rs2) ->
  memits (emit (rop_asm op rd rs1 rs2)) m [EWrite rd (fun R => rop_sem op (R rs1) (R rs2))].
Proof. intros. apply memits_emit; [done|]. by apply rop_implements. Qed.

Lemma m_iop op rd rs1 imm :
  inU 5 rd -> inU 5 rs1 -> IsITypeImm imm = true ->
  memits (emit (iop_asm op rd rs1 imm)) m [EWrite rd (fun R => iop_sem op (R rs1) imm)].
Proof. intros. apply memits_emit; [done|]. by apply iop_implements. Qed.

Lemma m_sop op rd rs1 sh :
  inU 5 rd -> inU 5 rs1 -> 0 <= sh < XLEN -> (sop_ext op = RV_I -> 0 < sh) ->
  Supports (asm_ m) (sop_ext op) = true ->
  memits (emit (sop_asm op rd rs1 sh)) m [EWrite rd (fun R => sop_sem op (R rs1) sh)].
Proof. intros. apply memits_emit; [done|]. by apply sop_implements. Qed.

Lemma m_wop op rd rs1 rs2 :
  XLEN = 64 -> inU 5 rd -> inU 5 rs1 -> inU 5 rs2 -> Supports (asm_ m) (wop_ext op) = true ->
  memits (emit (wop_asm op rd rs1 rs2)) m [EWrite rd (fun R => wop_sem op (R rs1) (R rs2))].
Proof. intros. apply memits_emit; [done|]. by apply wop_implements. Qed.

Lemma m_swop op rd rs1 sh :
  XLEN = 64 -> inU 5 rd -> inU 5 rs1 -> 0 < sh < 32 -> Supports (asm_ m) (swop_ext op) = true ->
  memits (emit (swop_asm op rd rs1 sh)) m [EWrite rd (fun R => swop_sem op (R rs1) sh)].
Proof. intros. apply memits_emit; [done|]. by apply swop_implements. Qed.

Lemma m_addiw rd rs1 imm :
  XLEN = 64 -> inU 5 rd -> inU 5 rs1 -> IsITypeImm imm = true ->
  memits (emit (MicroAssembler.addiw rd rs1 imm)) m [EWrite rd (fun R => s32 (R rs1 + imm))].
Proof. intros. apply memits_emit; [done|]. by apply addiw_implements. Qed.

Lemma m_uop op rd rs1 :
  inU 5 rd -> inU 5 rs1 -> Supports (asm_ m) RV_Zbb = true ->
  memits (emit (uop_asm op rd rs1)) m [EWrite rd (fun R => uop_sem op (R rs1))].
Proof. intros. apply memits_emit; [done|]. by apply uop_implements. Qed.

Lemma m_lui rd imm :
  inU 5 rd -> inS kBitsPerWord imm -> IsUTypeImm imm = true -> imm <> 0 ->
  memits (emit (MicroAssembler.lui rd imm)) m [EWrite rd (fun _ => imm)].
Proof. intros. apply memits_emit; [done|]. by apply upper_implements. Qed.

Lemma m_load op rd addr :
  lop_width op -> inU 5 rd -> wf_address addr ->
  memits (emit (lop_asm op rd addr)) m [ELoad op rd addr].
Proof.
  intros. apply memits_emit; [done|].
  eapply implements_ext; [|by apply load_implements]. intros len s _. unfold exec_load, as_instruction.
  cbn [effect_sem]. by destruct (MemoryRead _ _ _ _).
Qed.

Lemma m_store op rs2 addr :
  stop_width op -> inU 5 rs2 -> wf_address addr ->
  memits (emit (stop_asm op rs2 addr)) m [EStore op rs2 addr].
Proof. intros. apply memits_emit; [done|]. by apply store_implements. Qed.

End Instructions.

(** ** Code that only writes registers *)

Definition after (l : list effect) (s : Sim) : Sim :=
  foldl (fun s e => match e with EWrite rd v => set_xreg s rd (v (get_xreg s)) | _ => s end) s l.

Definition is_write (e : effect) : Prop := match e with EWrite rd _ => inU 5 rd | _ => False end.

Lemma after_app l1 l2 s : after (l1 ++ l2) s = after l2 (after l1 s).
Proof. apply foldl_app. Qed.

Lemma run_writes l : Forall is_write l -> forall s, run_effects l s = Ok (after l s).
Proof.
  induction 1 as [|e l He Hl IH]; intros s; [done|]. destruct e; try done. cbn. apply IH.
Qed.

Lemma spares_writes l lo n : Forall is_write l -> forall s, spares l s lo n.
Proof.
  induction 1 as [|e l He Hl IH]; intros s; [done|]. by destruct e.
Qed.

Lemma after_ok l : Forall is_write l -> forall s, sim_ok s -> sim_ok (after l s).
Proof.
  induction 1 as [|e l He Hl IH]; intros s Hok; [done|]. destruct e; try done. cbn.
  by apply IH, ok_set_xreg.
Qed.

Lemma set_xreg_regs s rd v : set_xreg s rd v = set_xregs s (xregs_ (set_xreg s rd v)).
Proof. unfold set_xreg. destruct (rd =? Reg.ZR); by destruct s. Qed.

Lemma after_regs l s : Forall is_write l -> after l s = set_xregs s (xregs_ (after l s)).
Proof.
  intros Hl. revert s. induction Hl as [|e l He Hl IH]; intros s; [by destruct s|].
  destruct e as [rd v| | | |]; try done.
  change (after (EWrite rd v :: l) s) with (after l (set_xreg s rd (v (get_xreg s)))).
  rewrite IH. by rewrite (set_xreg_regs s rd) at 1.
Qed.

(** The value of a register after a write. *)
Lemma get_set_xreg s rd v r :
  sim_ok s -> inU 5 rd -> inU 5 r ->
  get_xreg (set_xreg s rd v) r = if (r =? rd) && negb (rd =? Reg.ZR) then ux v else get_xreg s r.
Proof.
  intros Hok Hd Hr. destruct (Z.eqb_spec rd Reg.ZR) as [->|Hz]; [by rewrite andb_false_r|].
  destruct (Z.eqb_spec r rd) as [->|Hne]; cbn.
  - by apply get_set_xreg_same.
  - by apply get_set_xreg_other.
Qed.

(** ** Computing into a register *)

(** Running the [n] instructions of [bytes] leaves [v], a function of the
    registers before, in [rd]; the registers of [scratch] may change, and apart
    from them only [pc_] and [instret_]. *)
Definition bytes_compute (bytes : list Z) (n : nat) (rd : Z) (v : (Z -> Z) -> Z) (scratch : list Z) : Prop :=
  forall s, runnable bytes s -> exists t,
    steps s n t /\ pc_ t = pc_ s + Z.of_nat (length bytes) /\
    t = moved (Z.of_nat (length bytes)) n (set_xregs s (xregs_ t)) /\
    get_xreg t rd = ux (v (get_xreg s)) /\
    (forall r, inU 5 r -> r <> rd -> r ∉ scratch -> get_xreg t r = get_xreg s r).

(** [c] emits such code, of at most [k] instructions. *)
Definition computes (c : code) (m : MacroAsm) (rd : Z) (v : (Z -> Z) -> Z) (scratch : list Z) (k : nat) : Prop :=
  exists bytes n, c m = Ok (append m bytes) /\ (n <= k)%nat /\ bytes_compute bytes n rd v scratch.

Lemma block_computes bytes l rd v scratch :
  block bytes l -> Forall is_write l ->
  (forall s, sim_ok s -> get_xreg (after l s) rd = ux (v (get_xreg s)) /\
     forall r, inU 5 r -> r <> rd -> r ∉ scratch -> get_xreg (after l s) r = get_xreg s r) ->
  bytes_compute bytes (length l) rd v scratch.
Proof.
  intros Hb Hl Hv s Hrun.
  pose proof (block_runs bytes l Hb s Hrun (spares_writes l _ _ Hl s)) as Hx. unfold executes in Hx.
  rewrite run_writes in Hx by done. destruct Hrun as [Hok Hev Hend Hc]. destruct (Hv s Hok) as [H1' H2'].
  eexists; split; [exact Hx|]. pose proof (ok_pc s Hok) as Hpc. unfold inU in Hpc.
  rewrite (after_regs l s Hl). split; [|split; [done|split; [|done]]].
  - cbn. apply ux_small. unfold inU. lia.
  - rewrite (after_regs l s Hl) in H1'. exact H1'.
Qed.

(** A sequence of writes and what it computes. *)
Definition mwrites (c : code) (m : MacroAsm) (l : list effect) : Prop :=
  memits c m l /\ Forall is_write l.

Lemma mwrites_then (c1 c2 : code) m l1 l2 :
  mwrites c1 m l1 -> (forall b, mwrites c2 (at_buffer m b) l2) -> mwrites (c1 >> c2) m (l1 ++ l2).
Proof.
  intros [H1' Hl1] H2'. split; [|apply Forall_app; split; [done|by apply (H2' [])]].
  apply memits_then; [done|]. intros b. apply H2'.
Qed.

Lemma at_buffer_same (m : MacroAsm) : at_buffer m (buffer_ (asm_ m)) = m.
Proof. by destruct m as [[] ? ? ? ? ? ? ?]. Qed.

(** Code that emits the same writes at every position. *)
Definition writes (c : code) (m : MacroAsm) (l : list effect) : Prop :=
  forall b, mwrites c (at_buffer m b) l.

Lemma writes_then (c1 c2 : code) m l1 l2 :
  writes c1 m l1 -> writes c2 m l2 -> writes (c1 >> c2) m (l1 ++ l2).
Proof. intros H1' H2' b. apply mwrites_then; [done|]. intros b'. apply H2'. Qed.

Lemma writes_emit f m rd v :
  inU 5 rd -> (forall b, memits (emit f) (at_buffer m b) [EWrite rd v]) ->
  writes (emit f) m [EWrite rd v].
Proof. intros Hd Hf b. split; [apply Hf|by apply Forall_singleton]. Qed.

Lemma writes_skip m : writes skip m [].
Proof. intros b. split; [apply memits_skip|done]. Qed.

Lemma writes_eq (c c' : code) m l :
  (forall b, c (at_buffer m b) = c' (at_buffer m b)) -> writes c' m l -> writes c m l.
Proof.
  intros E Hw b. destruct (Hw b) as [(bytes & Eb & Hb) Hf].
  split; [|done]. exists bytes. by rewrite E.
Qed.

Lemma writes_check cond (c : code) m l : cond = true -> writes c m l -> writes (check cond >> c) m l.
Proof.
  intros Hb. apply writes_eq. intros b'. unfold andthen, check. by rewrite ASSERT_true.
Qed.

Lemma IsITypeImm_small v : -2048 <= v < 2048 -> IsITypeImm v = true.
Proof. intros Hv. apply IsITypeImm_spec. unfold inS. lia. Qed.

Section WritesInstructions.
Context (m : MacroAsm) (HI : Supports (asm_ m) RV_I = true).

Lemma writes_rop op rd rs1 rs2 :
  inU 5 rd -> inU 5 rs1 -> inU 5 rs2 -> Supports (asm_ m) (rop_ext op) = true ->
  (op = ADD -> add_operands (asm_ m) rd rs1 rs2) ->
  writes (emit (rop_asm op rd rs1 rs2)) m [EWrite rd (fun R => rop_sem op (R rs1) (R rs2))].
Proof. intros. apply writes_emit; [done|]. intros b. by apply (m_rop (at_buffer m b)). Qed.

Lemma writes_iop op rd rs1 imm :
  inU 5 rd -> inU 5 rs1 -> IsITypeImm imm = true ->
  writes (emit (iop_asm op rd rs1 imm)) m [EWrite rd (fun R => iop_sem op (R rs1) imm)].
Proof. intros. apply writes_emit; [done|]. intros b. by apply (m_iop (at_buffer m b) HI). Qed.

Lemma writes_sop op rd rs1 sh :
  inU 5 rd -> inU 5 rs1 -> 0 <= sh < XLEN -> (sop_ext op = RV_I -> 0 < sh) ->
  Supports (asm_ m) (sop_ext op) = true ->
  writes (emit (sop_asm op rd rs1 sh)) m [EWrite rd (fun R => sop_sem op (R rs1) sh)].
Proof. intros. apply writes_emit; [done|]. intros b. by apply (m_sop (at_buffer m b)). Qed.

Lemma writes_uop op rd rs1 :
  inU 5 rd -> inU 5 rs1 -> Supports (asm_ m) RV_Zbb = true ->
  writes (emit (uop_asm op rd rs1)) m [EWrite rd (fun R => uop_sem op (R rs1))].
Proof. intros. apply writes_emit; [done|]. intros b. by apply (m_uop (at_buffer m b)). Qed.

Lemma writes_wop op rd rs1 rs2 :
  XLEN = 64 -> inU 5 rd -> inU 5 rs1 -> inU 5 rs2 -> Supports (asm_ m) (wop_ext op) = true ->
  writes (emit (wop_asm op rd rs1 rs2)) m [EWrite rd (fun R => wop_sem op (R rs1) (R rs2))].
Proof. intros. apply writes_emit; [done|]. intros b. by apply (m_wop (at_buffer m b)). Qed.

Lemma writes_swop op rd rs1 sh :
  XLEN = 64 -> inU 5 rd -> inU 5 rs1 -> 0 < sh < 32 -> Supports (asm_ m) (swop_ext op) = true ->
  writes (emit (swop_asm op rd rs1 sh)) m [EWrite rd (fun R => swop_sem op (R rs1) sh)].
Proof. intros. apply writes_emit; [done|]. intros b. by apply (m_swop (at_buffer m b)). Qed.

End WritesInstructions.

(** The register a write changes. *)
Definition dest (e : effect) : Z := match e with EWrite rd _ => rd | _ => 0 end.

Lemma after_other l r s :
  Forall is_write l -> inU 5 r -> r ∉ map dest l -> get_xreg (after l s) r = get_xreg s r.
Proof.
  intros Hl Hr. revert s. induction Hl as [|e l He Hl IH]; intros s Hn; [done|].
  destruct e as [rd v| | | |]; try done.
  change (get_xreg (after l (set_xreg s rd (v (get_xreg s)))) r = get_xreg s r).
  cbn in Hn. apply not_elem_of_cons in Hn as [Hne Hn].
  rewrite IH by done. by apply get_set_xreg_other.
Qed.

Lemma writes_ok c m l : writes c m l -> Forall is_write l.
Proof. intros Hw. by destruct (Hw []). Qed.

(** What code that only writes registers yields: the composable form of
    [computes]. *)
Definition yields (c : code) (m : MacroAsm) (rd : Z) (v : (Z -> Z) -> Z) (scratch : list Z) (k : nat) : Prop :=
  exists l, writes c m l /\ (length l <= k)%nat /\ map dest l ⊆ rd :: scratch /\
    forall s, sim_ok s -> get_xreg (after l s) rd = ux (v (get_xreg s)).

Lemma yields_computes c m rd v scratch k : yields c m rd v scratch k -> computes c m rd v scratch k.
Proof.
  intros (l & Hw & Hk & Hd & Hv). destruct (Hw (buffer_ (asm_ m))) as [(bytes & E & Hb) Hl].
  rewrite at_buffer_same in E. exists bytes, (length l). split; [done|]. split; [done|].
  apply block_computes; [done..|]. intros s Hok. split; [by apply Hv|].
  intros r Hr Hne Hns. apply after_other; [done..|]. intros Hin%Hd.
  apply elem_of_cons in Hin. naive_solver.
Qed.

Lemma yields_eq (c c' : code) m rd v scratch k :
  (forall b, c (at_buffer m b) = c' (at_buffer m b)) -> yields c' m rd v scratch k -> yields c m rd v scratch k.
Proof. intros E (l & Hw & Hl). exists l. split; [by apply (writes_eq _ c')|done]. Qed.

Lemma yields_value (c : code) m rd v w scratch k :
  (forall s, sim_ok s -> ux (v (get_xreg s)) = ux (w (get_xreg s))) ->
  yields c m rd v scratch k -> yields c m rd w scratch k.
Proof.
  intros Hvw (l & Hw & Hk & Hd & Hv). exists l. split_and!; try done. intros s Hok.
  rewrite Hv by done. by apply Hvw.
Qed.

Lemma yields_more (c : code) m rd v scratch k k' :
  (k <= k')%nat -> yields c m rd v scratch k -> yields c m rd v scratch k'.
Proof. intros Hk (l & Hw & Hk' & Hd). exists l. split; [done|]. split; [lia|done]. Qed.

Lemma yields_scratch (c : code) m rd v scratch scratch' k :
  scratch ⊆ rd :: scratch' -> yields c m rd v scratch k -> yields c m rd v scratch' k.
Proof. intros Hs (l & Hw & Hk & Hd & Hv). exists l. split_and!; [done..|set_solver|done]. Qed.

Lemma yields_check b c m rd v scratch k :
  b = true -> yields c m rd v scratch k -> yields (check b >> c) m rd v scratch k.
Proof. intros Hb (l & Hw & Hl). exists l. split; [by apply writes_check|done]. Qed.

(** One instruction. *)
Lemma yields_one f m rd v w scratch k :
  inU 5 rd -> rd <> Reg.ZR -> writes (emit f) m [EWrite rd v] ->
  (forall s, sim_ok s -> ux (v (get_xreg s)) = ux (w (get_xreg s))) ->
  yields (emit f) m rd w scratch (S k).
Proof.
  intros Hd Hdz Hf Hvw. exists [EWrite rd v]. split_and!; [done..|cbn; lia|set_solver|].
  intros s Hok. cbn. rewrite get_set_xreg_same by done. by apply Hvw.
Qed.

(** No instruction. *)
Lemma yields_skip m rd v scratch k :
  inU 5 rd -> (forall s, sim_ok s -> v (get_xreg s) = get_xreg s rd) -> yields skip m rd v scratch k.
Proof.
  intros Hd Hv. exists []. split_and!; [apply writes_skip|cbn; lia|set_solver|].
  intros s Hok. cbn. rewrite Hv by done. symmetry. by apply ux_small, get_xreg_ok.
Qed.

(** Two instructions. *)
Lemma yields_two f1 f2 m r1 rd v1 v2 w scratch k :
  writes (emit f1) m [EWrite r1 v1] -> writes (emit f2) m [EWrite rd v2] ->
  [r1] ⊆ rd :: scratch ->
  (forall s, sim_ok s -> get_xreg (set_xreg (set_xreg s r1 (v1 (get_xreg s))) rd
       (v2 (get_xreg (set_xreg s r1 (v1 (get_xreg s)))))) rd = ux (w (get_xreg s))) ->
  yields (emit f1 >> emit f2) m rd w scratch (S (S k)).
Proof.
  intros H1' H2' Hr Hv. exists ([EWrite r1 v1] ++ [EWrite rd v2]).
  split_and!; [by apply writes_then|cbn; lia|set_solver|exact Hv].
Qed.

(** A sequence: the second part uses the result of the first and registers it
    leaves alone. *)
Lemma yields_then (c c' : code) m rd rd' v g w scratch scratch' k k' :
  yields c m rd v scratch k -> yields c' m rd' g scratch' k' -> rd :: scratch ⊆ rd' :: scratch' ->
  (forall s t, sim_ok s -> sim_ok t -> get_xreg t rd = ux (v (get_xreg s)) ->
     (forall r, inU 5 r -> r ∉ rd :: scratch -> get_xreg t r = get_xreg s r) ->
     ux (g (get_xreg t)) = ux (w (get_xreg s))) ->
  yields (c >> c') m rd' w scratch' (k + k').
Proof.
  intros (l & Hw & Hk & Hd & Hv) (l' & Hw' & Hk' & Hd' & Hv') Hs Hg. exists (l ++ l'). split_and!.
  - by apply writes_then.
  - rewrite length_app. lia.
  - rewrite map_app. set_solver.
  - intros s Hok. rewrite after_app. pose proof (after_ok l (writes_ok _ _ _ Hw) s Hok) as Hok'.
    rewrite Hv' by done. apply Hg; [done|done|by apply Hv|].
    intros r Hr Hn. apply after_other; [by eapply writes_ok|done|set_solver].
Qed.

(** One more instruction. *)
Lemma yields_then_emit (c : code) f m rd rd' v (g : (Z -> Z) -> Z) w scratch scratch' k :
  yields c m rd v scratch k -> writes (emit f) m [EWrite rd' g] ->
  inU 5 rd' -> rd' <> Reg.ZR -> rd :: scratch ⊆ rd' :: scratch' ->
  (forall s t, sim_ok s -> sim_ok t -> get_xreg t rd = ux (v (get_xreg s)) ->
     (forall r, inU 5 r -> r ∉ rd :: scratch -> get_xreg t r = get_xreg s r) ->
     ux (g (get_xreg t)) = ux (w (get_xreg s))) ->
  yields (c >> emit f) m rd' w scratch' (S k).
Proof.
  intros Hc Hf Hrd Hrz Hs Hg. replace (S k) with (k + 1)%nat by lia.
  eapply yields_then; [done|by eapply yields_one|done..].
Qed.

Lemma Supports_at (m : MacroAsm) b e : Supports (asm_ (at_buffer m b)) e = Supports (asm_ m) e.
Proof. done. Qed.

End MacroSeq.

(** The registers after a sequence of writes; side conditions on register
    numbers are left to the hypotheses. *)
Ltac regs_after_step :=
  first
    [ rewrite get_set_xreg_same by (repeat apply ok_set_xreg; done)
    | rewrite get_set_xreg_other by (repeat apply ok_set_xreg; (done || congruence))
    | rewrite get_xreg_zero by (repeat apply ok_set_xreg; done) ].
Ltac regs_after := cbn [after foldl app dest map]; repeat regs_after_step.
