(* ===== verification/MacroImm.v ===== *)
(** * MacroImm: loading constants

    [LoadImmediate] without the constant pool loads every value of a register
    but the 2048 largest of RV64, whose computation overflows, in at most eight
    instructions. *)

From stdpp Require Import base numbers list gmap.
From Stdlib Require Import Lia Znumtheory.
From S2P Require Import Prelude Constants Encoding CEncoding AsmBuffer MicroAsm AsmBranch SimState.
From S2P Require Import SimInt SimAtomic SimFloat SimCompressed Simulator Isa IntSpec BitSpec.
From S2P Require Import AsmExec AsmFormats RefineOp RefineImm RefineMem Refinement.
From S2P Require Import SimInv AsmSites RefineBranch RefineLabel SimMemSpec AsmSeq ObjectPool Assembler MacroSeq.

#[local] Open Scope Z_scope.
#[local] Open Scope res_scope.
#[local] Open Scope code_scope.

Lemma wrapU_wrapU_le n k x : 0 <= k <= n -> wrapU k (wrapU n x) = wrapU k x.
Proof.
  intros. unfold wrapU. symmetry. apply Znumtheory.Zmod_div_mod; try (apply pow2_pos; lia).
  exists (2 ^ (n - k)). rewrite <- Z.pow_add_r by lia. f_equal. lia.
Qed.

(** ** Trailing zeros *)

Lemma pow2_divide_low x k : 0 <= k -> (2 ^ k | x) <-> (forall i, 0 <= i < k -> Z.testbit x i = false).
Proof.
  intros Hk. split.
  - intros [q ->] i Hi. rewrite <- Z.shiftl_mul_pow2 by lia. rewrite Z.shiftl_spec by lia.
    apply Z.testbit_neg_r. lia.
  - intros Hb. apply Z.mod_divide; [pose proof (pow2_pos k Hk); lia|].
    apply Z.bits_inj'. intros i Hi. rewrite Z.bits_0. destruct (Z.lt_ge_cases i k).
    + rewrite Z.mod_pow2_bits_low by lia. apply Hb. lia.
    + apply Z.mod_pow2_bits_high. lia.
Qed.

(** The lowest bit that is set. *)
Lemma lowest_bit (n : nat) a : inU (Z.of_nat n) a -> a <> 0 ->
  exists k, 0 <= k < Z.of_nat n /\ Z.testbit a k = true /\ forall i, 0 <= i < k -> Z.testbit a i = false.
Proof.
  intros Ha Hne. destruct (List.find (bit_set a) (seqZ 0 (Z.of_nat n))) as [k|] eqn:E.
  - apply find_up in E as (Hk & ? & Hi). rewrite bit_set_testbit in Hk by lia. exists k.
    split_and!; [lia..|done|]. intros i ?. rewrite <- bit_set_testbit by lia. apply Hi; lia.
  - exfalso. apply Hne. apply (find_bit_none_zero _ _ (Z.of_nat n)) in E; [done|lia|done|].
    intros i. rewrite elem_of_seqZ. lia.
Qed.

(** [CountTrailingZeros64] is the largest power of two that divides. *)
Lemma CountTrailingZeros64_spec x :
  inS 64 x -> x <> 0 ->
  0 <= CountTrailingZeros64 x < 64 /\ (2 ^ CountTrailingZeros64 x | x) /\
  (forall k, 0 <= k -> (2 ^ k | x) -> k <= CountTrailingZeros64 x).
Proof.
  intros Hx Hne. unfold CountTrailingZeros64.
  assert (u64 x <> 0) as Hu.
  { intros E. apply Hne. rewrite <- (wrapS_small 64 x) by (done || lia).
    rewrite <- wrapS_wrapU by lia. by rewrite E. }
  rewrite (proj2 (Z.eqb_neq _ _) Hu).
  destruct (lowest_bit 64 (u64 x)) as (k & Hk & Hb & Hlow); [apply wrapU_range; lia|done|].
  rewrite (log2_lowest_bit (u64 x) k) by (done || lia).
  assert (forall i, 0 <= i < 64 -> Z.testbit (u64 x) i = Z.testbit x i) as Hbits.
  { intros i Hi. rewrite testbit_wrapU by lia. by rewrite (proj2 (Z.ltb_lt _ _)) by lia. }
  split; [lia|]. split.
  - apply pow2_divide_low; [lia|]. intros i Hi. rewrite <- Hbits by lia. apply Hlow. lia.
  - intros j Hj Hd. destruct (Z.le_gt_cases j k); [done|]. exfalso.
    rewrite Hbits in Hb by lia. rewrite (proj1 (pow2_divide_low x j Hj) Hd) in Hb by lia. done.
Qed.

Lemma shiftr_exact x k : 0 <= k -> (2 ^ k | x) -> Z.shiftr x k * 2 ^ k = x.
Proof.
  intros Hk Hd. rewrite Z.shiftr_div_pow2 by lia. pose proof (pow2_pos k Hk).
  apply Z.mod_divide in Hd; [|lia]. pose proof (Z.div_mod x (2 ^ k)). lia.
Qed.

(** Dividing an [n]-bit number by [2 ^ k] leaves [n - k] bits. *)
Lemma shiftr_inS n k x : 0 <= k < n -> inS n x -> inS (n - k) (Z.shiftr x k).
Proof.
  unfold inS. intros Hk Hx. rewrite Z.shiftr_div_pow2 by lia.
  replace (n - 1) with (n - k - 1 + k) in Hx by lia. rewrite Z.pow_add_r in Hx by lia.
  pose proof (pow2_pos k ltac:(lia)).
  split; [apply Z.div_le_lower_bound; lia|apply Z.div_lt_upper_bound; lia].
Qed.

Section MacroImm.
Context `{Target} `{HostNaN} `{Host} {T : Type} `{ops : !IndexTableOps T}.
Hypothesis Hword : XLEN <= kBitsPerWord.

#[local] Notation MacroAsm := (MacroAsm T).
#[local] Notation code := (code T).

(** ** Code that loads a constant *)

(** The code writes only [reg] and leaves [v] there; the same effects wherever
    it is emitted, of at most [k] instructions. *)
Definition loads (c : code) (m : MacroAsm) (reg v : Z) (k : nat) : Prop :=
  exists l, writes c m l /\ (length l <= k)%nat /\
    Forall (fun e => exists f, e = EWrite reg f) l /\
    forall s, sim_ok s -> get_xreg (after l s) reg = ux v.

Lemma after_others l reg r s :
  inU 5 reg -> inU 5 r -> r <> reg -> Forall (fun e => exists f, e = EWrite reg f) l ->
  get_xreg (after l s) r = get_xreg s r.
Proof.
  intros Hreg Hr Hne Hl. revert s. induction Hl as [|e l [f ->] Hl IH]; intros s; [done|].
  change (get_xreg (after l (set_xreg s reg (f (get_xreg s)))) r = get_xreg s r).
  rewrite IH. by apply get_set_xreg_other.
Qed.

Lemma load_dests l reg : Forall (fun e => exists f, e = EWrite reg f) l -> map dest l ⊆ [reg].
Proof.
  intros Hl x (e & -> & He)%list_elem_of_fmap. rewrite Forall_forall in Hl.
  destruct (Hl e He) as [f ->]. by left.
Qed.

Lemma loads_yields c m reg v k scratch :
  loads c m reg v k -> yields c m reg (fun _ => v) scratch k.
Proof.
  intros (l & Hw & Hk & Hl & Hv). exists l. split_and!; try done.
  intros x Hx%(load_dests l reg Hl). apply list_elem_of_singleton in Hx as ->. by left.
Qed.

(** One more instruction that changes the value in [reg]. *)
Lemma loads_step c f m reg v w k (g : Z -> Z) :
  inU 5 reg -> reg <> Reg.ZR -> loads c m reg v k ->
  (forall b, memits (emit f) (at_buffer m b) [EWrite reg (fun R => g (R reg))]) ->
  ux (g (ux v)) = ux w -> loads (c >> emit f) m reg w (S k).
Proof.
  intros Hreg Hz (l & Hm & Hk & Hl & Hv) Hf Hg. exists (l ++ [EWrite reg (fun R => g (R reg))]). split_and!.
  - intros b. apply mwrites_then; [done|]. intros b'. split; [exact (Hf b')|by apply Forall_singleton].
  - rewrite length_app. cbn. lia.
  - apply Forall_app. split; [done|]. repeat constructor. eauto.
  - intros s Hok. rewrite after_app. cbn. rewrite get_set_xreg_same.
    + by rewrite Hv.
    + apply after_ok; [|done]. by apply (Hm []).
    + done.
    + done.
Qed.

Lemma loads_first f m reg v (g : (Z -> Z) -> Z) :
  inU 5 reg -> reg <> Reg.ZR ->
  (forall b, memits (emit f) (at_buffer m b) [EWrite reg g]) ->
  (forall s, sim_ok s -> ux (g (get_xreg s)) = ux v) -> loads (emit f) m reg v 1.
Proof.
  intros Hreg Hz Hf Hg. exists [EWrite reg g]. split_and!.
  - intros b. split; [apply Hf|by apply Forall_singleton].
  - done.
  - apply Forall_singleton. eauto.
  - intros s Hok. cbn. rewrite get_set_xreg_same by done. by apply Hg.
Qed.

(** ** LoadImmediate *)

Section LoadImmediate.
Context (m : MacroAsm) (HI : Supports (asm_ m) RV_I = true).
Context (reg : Z) (Hreg : inU 5 reg) (Hz : reg <> Reg.ZR).

Lemma loads_li v : IsITypeImm v = true -> loads (emit (MicroAssembler.addi reg Reg.ZR v)) m reg v 1.
Proof.
  intros Hv. eapply loads_first; [done..|intros b; by apply (m_iop (at_buffer m b) HI ADDI)|].
  intros s Hok. cbn. by rewrite get_xreg_zero.
Qed.

Lemma loads_lui v :
  inS kBitsPerWord v -> IsUTypeImm v = true -> v <> 0 -> loads (emit (MicroAssembler.lui reg v)) m reg v 1.
Proof. intros. eapply loads_first; [done..|intros b; by apply (m_lui (at_buffer m b) HI)|]. done. Qed.

Lemma loads_slli c v sh k :
  0 < sh < XLEN -> loads c m reg v k ->
  loads (c >> emit (MicroAssembler.slli reg reg sh)) m reg (v * 2 ^ sh) (S k).
Proof.
  intros Hs Hc. eapply (loads_step _ _ _ _ _ _ _ (fun x => x * 2 ^ sh)); [done..| |].
  - intros b. apply (m_sop (at_buffer m b) SLLI); [done|done|lia|lia|done].
  - apply ux_mul_l.
Qed.

Lemma loads_addi c v imm k :
  IsITypeImm imm = true -> loads c m reg v k ->
  loads (c >> emit (MicroAssembler.addi reg reg imm)) m reg (v + imm) (S k).
Proof.
  intros Hs Hc. eapply (loads_step _ _ _ _ _ _ _ (fun x => x + imm)); [done..| |].
  - intros b. by apply (m_iop (at_buffer m b) HI ADDI).
  - apply ux_add_l.
Qed.

Lemma loads_more c v k k' : (k <= k')%nat -> loads c m reg v k -> loads c m reg v k'.
Proof. intros Hk (l & Hm & Hk' & Hl). exists l. split; [done|]. split; [lia|done]. Qed.

Lemma loads_skip c v k : loads c m reg v k -> loads (c >> skip) m reg v k.
Proof.
  intros (l & Hm & Hl). exists l. split; [|done].
  rewrite <- (app_nil_r l). apply writes_then; [done|apply writes_skip].
Qed.

Lemma loads_32 imm : inS 32 imm -> loads (LoadImmediate32 reg imm) m reg imm 2.
Proof.
  intros Hi. unfold LoadImmediate32. pose proof (ImmLo_fits imm) as Hlo.
  destruct (ImmHi_fits imm) as [Hu Hw]. pose proof (ImmHi_wrap imm) as Ehi. pose proof (ImmLo_wrap imm) as Elo.
  rewrite <- Elo in Ehi. pose proof (proj1 (IsITypeImm_spec _) Hlo) as Hlo'.
  assert (u32 (ImmHi imm + ImmLo imm) = u32 imm) as Esum.
  { rewrite Ehi. rewrite <- wrapU_idem_add_l, wrapU_wrapS, wrapU_idem_add_l by lia. f_equal. lia. }
  assert (s32 (ImmHi imm + ImmLo imm) = imm) as Esum'.
  { rewrite <- wrapS_wrapU, Esum, wrapS_wrapU by lia. by apply wrapS_small. }
  destruct (Z.eqb_spec (ImmHi imm) 0) as [Eh|Hne].
  - rewrite Eh, Z.add_0_l, (wrapS_small 32) in Esum' by (try apply (inS_mono 12); done || lia).
    rewrite Esum'. apply (loads_more _ _ 1); [lia|]. apply loads_li. by rewrite <- Esum'.
  - pose proof (loads_lui _ Hw Hu Hne) as Hl. destruct (Z.eqb_spec (ImmLo imm) 0) as [El|Hl0].
    { apply loads_skip, (loads_more _ _ 1); [lia|]. rewrite El, Z.add_0_r in Esum'. rewrite (wrapS_small 32) in Esum'; [|lia|].
      - by rewrite Esum' in Hl |- *.
      - rewrite Ehi. apply wrapS_range. lia. }
    destruct (Z.eqb_spec XLEN 32) as [E32|E64].
    + pose proof (loads_addi _ _ _ _ Hlo Hl) as Hl'. destruct Hl' as (l & Hm & Hk & Hf & Hv).
      exists l. split_and!; [done..|]. intros s Hok. rewrite Hv by done. unfold ux. by rewrite E32.
    + assert (XLEN = 64) as EX by (destruct XLEN_cases; lia).
      eapply (loads_step _ _ _ _ _ _ _ (fun x => s32 (x + ImmLo imm))); [done..| |].
      * intros b. by apply (m_addiw (at_buffer m b) HI).
      * f_equal. rewrite <- wrapS_wrapU by lia. rewrite <- wrapU_idem_add_l.
        replace (u32 (ux (ImmHi imm))) with (u32 (ImmHi imm)); [rewrite wrapU_idem_add_l, wrapS_wrapU by lia; done|].
        unfold ux. rewrite EX. symmetry. apply wrapU_wrapU_le. lia.
Qed.

Lemma loads_eq (c c' : code) v k :
  (forall b, c (at_buffer m b) = c' (at_buffer m b)) -> loads c' m reg v k -> loads c m reg v k.
Proof. intros E (l & Hm & Hl). exists l. split; [by apply (writes_eq _ c')|done]. Qed.

Lemma loads_value c v w k : v = w -> loads c m reg v k -> loads c m reg w k.
Proof. by intros ->. Qed.

Lemma loads_check b c v k : b = true -> loads c m reg v k -> loads (check b >> c) m reg v k.
Proof. intros Hb (l & Hm & Hl). exists l. split; [by apply writes_check|done]. Qed.

Lemma shiftr_inS_same n k x : 0 < n -> 0 <= k -> inS n x -> inS n (Z.shiftr x k).
Proof.
  unfold inS. intros Hn Hk Hx. rewrite Z.shiftr_div_pow2 by lia. pose proof (pow2_pos k Hk).
  pose proof (pow2_pos (n - 1) ltac:(lia)).
  split; [apply Z.div_le_lower_bound; nia|apply Z.div_lt_upper_bound; nia].
Qed.

(** The value that is left after the low 12 bits and the zeros above them. *)
Lemma upper_part imm n (lo := wrapS 12 imm) (hi := imm - lo) (sh := CountTrailingZeros64 hi) :
  32 < n <= 64 -> inS n imm -> ~ inS 32 imm -> imm < 2 ^ 63 - 2048 ->
  inS 64 hi /\ 12 <= sh < 64 /\ Z.shiftr hi sh * 2 ^ sh = hi /\ inS (n - 11) (Z.shiftr hi sh).
Proof.
  intros Hn Hi Hni Hmax. assert (inS 12 lo) as Hlo by (apply wrapS_range; lia).
  assert (2 ^ 12 | hi) as Hdiv.
  { exists ((imm + 2 ^ 11) / 2 ^ 12). unfold hi, lo, wrapS. change (12 - 1) with 11.
    pose proof (Z.div_mod (imm + 2 ^ 11) (2 ^ 12)). lia. }
  assert (inS 64 hi) as Hhi.
  { assert (inS 64 imm) as Hi' by (apply (inS_mono n); [done|lia]). unfold inS in *.
    destruct Hdiv as [q Eq]. unfold hi in *. lia. }
  assert (hi <> 0) as Hne.
  { intros E. apply Hni. replace imm with lo by (unfold hi in E; lia). by apply (inS_mono 12); [|lia]. }
  destruct (CountTrailingZeros64_spec hi Hhi Hne) as (Hsh & Hd & Hmx). fold sh in Hsh, Hd, Hmx.
  specialize (Hmx 12 ltac:(lia) Hdiv). split_and!; try lia; [by destruct Hhi..| |].
  - by apply shiftr_exact; [lia|].
  - replace sh with (12 + (sh - 12)) by lia. rewrite <- Z.shiftr_shiftr by lia.
    apply shiftr_inS_same; [lia..|]. replace (n - 11) with (n + 1 - 12) by lia.
    apply shiftr_inS; [lia|]. unfold inS in *. replace (n + 1 - 1) with (1 + (n - 1)) by lia.
    rewrite Z.pow_add_r by lia. assert (2 ^ 32 <= 2 ^ (n - 1)) by (apply Z.pow_le_mono_r; lia).
    unfold hi. lia.
Qed.

(** The branch of [LoadImmediate] for a value of more than 32 bits. *)
Lemma loop_unfold fuel imm m' :
  XLEN = 64 -> IsInt 32 imm = false ->
  LoadImmediate_loop (S fuel) reg imm m' =
  let shift := CountTrailingZeros64 imm in
  if IsITypeImm (Z.shiftr imm shift) then
    (emit (MicroAssembler.li reg (Z.shiftr imm shift)) >> emit (MicroAssembler.slli reg reg shift)) m'
  else if (12 <=? shift) && IsUTypeImm (Z.shiftr imm (shift - 12)) then
    (emit (MicroAssembler.lui reg (Z.shiftr imm (shift - 12))) >>
     emit (MicroAssembler.slli reg reg (shift - 12))) m'
  else if constant_pool_allowed_ m' then
    let* r := FindImmediateInPool imm m' in LoadWordFromPoolIndex reg (fst r) PP (snd r)
  else
    let lo := ImmLo imm in
    if decide (inS XLEN (imm - lo)) then
      let hi := imm - lo in
      let shift := CountTrailingZeros64 hi in
      (check (negb (shift =? 0)) >> LoadImmediate_loop fuel reg (Z.shiftr hi shift) >>
       emit (MicroAssembler.slli reg reg shift) >>
       (if lo =? 0 then skip else emit (MicroAssembler.addi reg reg lo))) m'
    else Err UndefinedBehavior.
Proof. intros EX EI. cbn [LoadImmediate_loop]. rewrite EX, EI. done. Qed.

Lemma loads_loop fuel : forall imm n,
  constant_pool_allowed_ m = false -> (0 < fuel)%nat -> 0 < n <= 64 -> n <= 11 * Z.of_nat fuel + 21 ->
  inS n imm -> inS XLEN imm -> imm < 2 ^ 63 - 2048 ->
  loads (LoadImmediate_loop fuel reg imm) m reg imm (2 * fuel).
Proof.
  induction fuel as [|fuel IH]; intros imm n Hpool Hf Hn Hnf Hi HX Hmax; [lia|].
  destruct (decide (inS 32 imm)) as [H32|H32].
  { apply (loads_eq _ (LoadImmediate32 reg imm)); [|apply (loads_more _ _ 2); [lia|]; by apply loads_32]. intros b. cbn [LoadImmediate_loop].
    destruct (Z.ltb_spec 32 XLEN) as [Hlt|]; [|done]. cbn [andb].
    rewrite (proj2 (IsInt32_spec imm ltac:(apply (inS_mono XLEN); [done|pose proof XLEN_pos; lia]))) by done.
    done. }
  assert (XLEN = 64) as EX by (destruct XLEN_cases as [E|E]; [by rewrite E in HX|done]).
  assert (kBitsPerWord = 64) as EW by (destruct kBitsPerWord_cases; lia).
  assert (IsInt 32 imm = false) as EI.
  { apply not_true_iff_false. rewrite IsInt32_spec; [done|]. by rewrite EW, <- EX. }
  rewrite EX in HX. assert (imm <> 0) as Hne by (intros ->; by apply H32).
  assert (32 < n) as Hn32.
  { destruct (Z.le_gt_cases n 32); [|done]. exfalso. apply H32. by apply (inS_mono n); [|lia]. }
  destruct (CountTrailingZeros64_spec imm HX Hne) as (Hsh & Hd & _).
  pose proof (shiftr_exact imm _ (proj1 Hsh) Hd) as Eexact.
  set (sh := CountTrailingZeros64 imm) in *.
  destruct (IsITypeImm (Z.shiftr imm sh)) eqn:E1.
  { apply (loads_eq _ (emit (MicroAssembler.li reg (Z.shiftr imm sh)) >> emit (MicroAssembler.slli reg reg sh))).
    { intros b. rewrite loop_unfold by done. cbv zeta. fold sh. by rewrite E1. }
    rewrite <- Eexact at 2. apply (loads_more _ _ 2); [lia|]. apply loads_slli; [|by apply loads_li]. split; [|lia].
    destruct (Z.eq_dec sh 0) as [E0|]; [|lia]. rewrite E0, Z.shiftr_0_r in E1.
    apply IsITypeImm_spec in E1. exfalso. apply H32. by apply (inS_mono 12); [|lia]. }
  destruct ((12 <=? sh) && IsUTypeImm (Z.shiftr imm (sh - 12))) eqn:E2.
  { apply (loads_eq _ (emit (MicroAssembler.lui reg (Z.shiftr imm (sh - 12))) >>
                       emit (MicroAssembler.slli reg reg (sh - 12)))).
    { intros b. rewrite loop_unfold by done. cbv zeta. fold sh. by rewrite E1, E2. }
    apply andb_true_iff in E2 as [H12%Z.leb_le HU].
    assert (inS kBitsPerWord (Z.shiftr imm (sh - 12))) as Hw.
    { rewrite EW. by apply shiftr_inS_same; [lia..|]. }
    assert (Z.shiftr imm (sh - 12) * 2 ^ (sh - 12) = imm) as Ee.
    { apply shiftr_exact; [lia|]. etrans; [|exact Hd]. exists (2 ^ 12).
      rewrite <- Z.pow_add_r by lia. f_equal. lia. }
    rewrite <- Ee at 2. apply (loads_more _ _ 2); [lia|]. apply loads_slli.
    - split; [|lia]. destruct (Z.eq_dec sh 12) as [E0|]; [|lia].
      rewrite E0, Z.sub_diag, Z.shiftr_0_r in HU. apply IsUTypeImm_spec in HU; [|by rewrite EW].
      exfalso. apply H32, HU.
    - apply loads_lui; [done..|]. intros E0. rewrite E0 in Ee. lia. }
  destruct (upper_part imm n) as (Hhi & Hsh' & Ehi & Hrest); [lia|done..|].
  rewrite <- ImmLo_wrap in *. set (lo := ImmLo imm) in *. set (hi := imm - lo) in *.
  set (sh' := CountTrailingZeros64 hi) in *.
  apply (loads_eq _ (check (negb (sh' =? 0)) >> LoadImmediate_loop fuel reg (Z.shiftr hi sh') >>
                     emit (MicroAssembler.slli reg reg sh') >>
                     (if lo =? 0 then skip else emit (MicroAssembler.addi reg reg lo)))).
  { intros b. rewrite loop_unfold by done. cbv zeta. fold sh. rewrite E1, E2. cbn [at_buffer set_asm constant_pool_allowed_].
    rewrite Hpool. fold lo. rewrite decide_True by by rewrite EX. done. }
  apply loads_check; [apply negb_true_iff, Z.eqb_neq; lia|].
  assert (loads (LoadImmediate_loop fuel reg (Z.shiftr hi sh')) m reg (Z.shiftr hi sh') (2 * fuel)) as Hrec.
  { apply (IH _ (n - 11)); try done; try lia.
    - rewrite EX. apply (inS_mono (n - 11)); [done|lia].
    - assert (inS 53 (Z.shiftr hi sh')) as H53 by (apply (inS_mono (n - 11)); [done|lia]).
      unfold inS in H53. lia. }
  apply (loads_slli _ _ sh' _) in Hrec; [|lia]. rewrite Ehi in Hrec.
  apply (loads_value _ (hi + lo)); [unfold hi; lia|].
  apply (loads_eq _ ((LoadImmediate_loop fuel reg (Z.shiftr hi sh') >> emit (MicroAssembler.slli reg reg sh')) >>
                     (if lo =? 0 then skip else emit (MicroAssembler.addi reg reg lo)))).
  { intros b. unfold andthen. by destruct (LoadImmediate_loop _ _ _ _). }
  destruct (Z.eqb_spec lo 0) as [Hlo|Hlo].
  - replace (hi + lo) with hi by lia. apply loads_skip. by apply (loads_more _ _ (S (2 * fuel))); [lia|].
  - apply (loads_more _ _ (S (S (2 * fuel)))); [lia|]. apply loads_addi; [apply ImmLo_fits|done].
Qed.

(** The fuel of [LoadImmediate] is enough for 64 bits. *)
Lemma LoadImmediate_loads imm :
  constant_pool_allowed_ m = false -> inS XLEN imm -> imm < 2 ^ 63 - 2048 ->
  loads (LoadImmediate reg imm) m reg imm 8.
Proof.
  intros Hpool Hi Hmax. apply (loads_loop 4 imm 64); try done; try lia.
  apply (inS_mono XLEN); [done|]. destruct XLEN_cases; lia.
Qed.

End LoadImmediate.

(** C27. [LoadImmediate] without the constant pool loads any value of a
    register, but for the 2048 largest on RV64, into any register other than
    the zero register: it returns, having emitted at most eight instructions
    that leave the value in the register and change no other. *)
Theorem LoadImmediate_spec m reg imm :
  Supports (asm_ m) RV_I = true -> constant_pool_allowed_ m = false ->
  inU 5 reg -> reg <> Reg.ZR -> inS XLEN imm -> imm < 2 ^ 63 - 2048 ->
  computes (LoadImmediate reg imm) m reg (fun _ => imm) [] 8.
Proof. intros. by apply yields_computes, loads_yields, LoadImmediate_loads. Qed.

End MacroImm.
