(* ===== verification/MacroArith.v ===== *)
(** * MacroArith: arithmetic with constants

    What [AddImmediate], [AndImmediate], [OrImmediate], [XorImmediate] and
    [AddShifted] compute, whichever instructions they choose. *)

From stdpp Require Import base numbers list gmap.
From Stdlib Require Import Lia.
From S2P Require Import Prelude Constants Encoding CEncoding AsmBuffer MicroAsm AsmBranch SimState.
From S2P Require Import SimInt SimAtomic SimFloat SimCompressed Simulator Isa IntSpec BitSpec.
From S2P Require Import AsmExec AsmFormats RefineOp RefineImm RefineMem Refinement.
From S2P Require Import SimInv AsmSites RefineBranch RefineLabel SimMemSpec AsmSeq ObjectPool Assembler.
From S2P Require Import MacroSeq MacroImm.

#[local] Open Scope Z_scope.
#[local] Open Scope res_scope.
#[local] Open Scope code_scope.

(** ** Powers of two *)

Lemma IsPowerOfTwo_spec x : 0 <= x -> IsPowerOfTwo x = true -> exists k, 0 <= k /\ x = 2 ^ k.
Proof.
  unfold IsPowerOfTwo. intros Hx [E%Z.eqb_eq Hne]%andb_true_iff. apply negb_true_iff, Z.eqb_neq in Hne.
  exists (Z.log2 x). split; [apply Z.log2_nonneg|].
  pose proof (Z.log2_spec x ltac:(lia)) as [Hlo Hhi].
  destruct (Z.eq_dec x (2 ^ Z.log2 x)) as [|Hn]; [done|]. exfalso.
  assert (Z.log2 (x - 1) = Z.log2 x) as El by (apply Z.log2_unique; [apply Z.log2_nonneg|lia]).
  assert (Z.testbit (Z.land x (x - 1)) (Z.log2 x) = true) as Hb.
  { rewrite Z.land_spec, Z.bit_log2 by lia. rewrite <- El. rewrite Z.bit_log2; [done|].
    pose proof (pow2_pos (Z.log2 x) (Z.log2_nonneg x)). lia. }
  by rewrite E, Z.bits_0 in Hb.
Qed.

Lemma shift_loop_pow2 fuel : forall k n, 0 <= k <= Z.of_nat fuel -> shift_loop fuel (2 ^ k) n = n + k.
Proof.
  induction fuel as [|fuel IH]; intros k n Hk; cbn [shift_loop]; [replace k with 0 by lia; lia|].
  destruct (Z.eq_dec k 0) as [->|Hne].
  - change (2 ^ 0) with 1. cbn. lia.
  - rewrite (proj2 (Z.ltb_lt 1 (2 ^ k))) by (apply Z.pow_gt_1; lia).
    rewrite Z.shiftr_div_pow2 by lia. rewrite <- Z.pow_sub_r by lia. rewrite IH by lia. lia.
Qed.

Lemma ShiftForPowerOfTwo_pow2 k : 0 <= k <= 64 -> ShiftForPowerOfTwo (2 ^ k) = k.
Proof. intros. unfold ShiftForPowerOfTwo. rewrite shift_loop_pow2; lia. Qed.

Section MacroArith.
Context `{Target} `{HostNaN} `{Host} {T : Type} `{ops : !IndexTableOps T}.

#[local] Notation MacroAsm := (MacroAsm T).
#[local] Notation code := (code T).
Implicit Types m : MacroAsm.

(** A power of two among the unsigned values of a register. *)
Lemma power_of_two_word x :
  inU XLEN x -> IsPowerOfTwo x = true ->
  0 <= ShiftForPowerOfTwo x < XLEN /\ x = 2 ^ ShiftForPowerOfTwo x.
Proof.
  intros [Hx Hlt] Hp. destruct (IsPowerOfTwo_spec x Hx Hp) as (k & Hk & ->).
  apply Z.pow_lt_mono_r_iff in Hlt; [|lia|destruct XLEN_cases; lia].
  rewrite ShiftForPowerOfTwo_pow2 by (destruct XLEN_cases; lia). lia.
Qed.

(** ** Immediate operations *)

Inductive immop : Set := AddImm | AndImm | OrImm | XorImm.

Definition immop_asm (op : immop) : Z -> Z -> Z -> code :=
  match op with
  | AddImm => AddImmediate
  | AndImm => AndImmediate
  | OrImm => OrImmediate
  | XorImm => XorImmediate
  end.
Definition immop_sem (op : immop) (x imm : Z) : Z :=
  match op with
  | AddImm => x + imm
  | AndImm => Z.land x imm
  | OrImm => Z.lor x imm
  | XorImm => Z.lxor x imm
  end.
Definition immop_rop (op : immop) : rop :=
  match op with AddImm => ADD | AndImm => AND | OrImm => OR | XorImm => XOR end.
Definition immop_iop (op : immop) : iop :=
  match op with AddImm => ADDI | AndImm => ANDI | OrImm => ORI | XorImm => XORI end.

Hypothesis Hword : XLEN <= kBitsPerWord.

Section ImmediateOp.
Context (m : MacroAsm) (HI : Supports (asm_ m) RV_I = true) (Hpool : constant_pool_allowed_ m = false).
Context (rd rs1 : Z) (Hd : inU 5 rd) (Hdz : rd <> Reg.ZR) (Hs : inU 5 rs1).

(** A constant in [TMP2], then an operation with it. *)
Lemma yields_via_scratch op imm v :
  rs1 <> Reg.ZR -> rs1 <> TMP2 -> Supports (asm_ m) (rop_ext op) = true ->
  inS XLEN imm -> imm < 2 ^ 63 - 2048 ->
  (forall x, ux (rop_sem op x (ux imm)) = ux (v x)) ->
  yields (check (differ rs1 TMP2) >> LoadImmediate TMP2 imm >> emit (rop_asm op rd rs1 TMP2)) m rd
    (fun R => v (R rs1)) [TMP2] 9.
Proof.
  intros Hsz Hne HE Hi Hmax Hv. apply yields_check; [by apply negb_true_iff, Z.eqb_neq|].
  eapply yields_then_emit; [eapply (loads_yields _ _ _ _ _ []); by apply LoadImmediate_loads|by apply writes_rop|done..|set_solver|].
  intros s t Hs' Ht E Ho. cbv beta. rewrite E, (Ho rs1) by set_solver. apply Hv.
Qed.

Lemma yields_move : yields (MoveRegister rd rs1) m rd (fun R => R rs1) [TMP2] 9.
Proof.
  assert (MoveRegister (T := T) rd rs1 = if rd =? rs1 then skip else emit (MicroAssembler.mv rd rs1)) as ->.
  { unfold MoveRegister, ExtendValue, kWordBytes. by destruct XLEN_cases as [-> | ->]. }
  destruct (Z.eqb_spec rd rs1) as [<-|Hne].
  - by apply yields_skip.
  - eapply yields_one; [done..|apply (writes_iop m HI ADDI rd rs1 0); [done..|by apply IsITypeImm_small]|].
    intros s Hok. cbn. by rewrite Z.add_0_r.
Qed.

(** The mask of the low bits, and one that clears a bit. *)
Lemma mask_low imm :
  inS XLEN imm -> IsITypeImm imm = false -> IsPowerOfTwo (ux (ux imm + 1)) = true ->
  let sh := ShiftForPowerOfTwo (ux (ux imm + 1)) in 0 < sh < XLEN /\ ux imm = 2 ^ sh - 1.
Proof.
  intros Hi Hni Hp. destruct (power_of_two_word _ (ux_range _) Hp) as [Hsh E]. cbv zeta.
  set (sh := ShiftForPowerOfTwo _) in *. pose proof (ux_range imm) as [Hu0 Hu1].
  destruct (Z.eq_dec (ux imm + 1) (2 ^ XLEN)) as [Ew|Hnw].
  { rewrite Ew in E. unfold ux, wrapU in E. rewrite Z.mod_same in E; pose proof (pow2_pos sh); lia. }
  rewrite ux_small in E by (unfold inU; lia). split; [|lia]. split; [|lia].
  destruct (Z.eq_dec sh 0) as [E0|]; [|lia]. rewrite E0 in E. change (2 ^ 0) with 1 in E.
  assert (imm = 0) as ->; [|by rewrite IsITypeImm_small in Hni].
  rewrite <- (sx_small imm Hi), <- sx_ux. replace (ux imm) with 0 by lia.
  apply sx_small. unfold inS. destruct XLEN_cases as [-> | ->]; lia.
Qed.

Lemma mask_clear imm k x : ux (Z.lnot (ux imm)) = 2 ^ k -> ux (Z.clearbit x k) = ux (Z.land x imm).
Proof.
  intros E. assert (ux imm = ux (Z.lnot (2 ^ k))) as Ei.
  { rewrite <- E. unfold Z.lnot, ux, wrapU in *.
    rewrite <- !Z.sub_1_r. rewrite <- Zminus_mod_idemp_l.
    replace (- ((- (imm mod 2 ^ XLEN) - 1) mod 2 ^ XLEN)) with (0 - (- (imm mod 2 ^ XLEN) - 1) mod 2 ^ XLEN) by lia.
    rewrite Zminus_mod_idemp_r, Zminus_mod_idemp_l.
    replace (0 - (- (imm mod 2 ^ XLEN) - 1) - 1) with (imm mod 2 ^ XLEN) by lia.
    by rewrite Zmod_mod. }
  rewrite ux_land, Ei, <- ux_land. by rewrite Z.clearbit_spec', Z.ldiff_land.
Qed.

Context (Hsz : rs1 <> Reg.ZR) (Hne : rs1 <> TMP2).
Context (imm : Z) (Hi : inS XLEN imm) (Hmax : imm < 2 ^ 63 - 2048).

Lemma immop_value op x : ux (rop_sem (immop_rop op) x (ux imm)) = ux (immop_sem op x imm).
Proof.
  destruct op; cbn; [apply ux_add_r|by rewrite !ux_land, ux_ux|by rewrite !ux_lor, ux_ux|
    by rewrite !ux_lxor, ux_ux].
Qed.

(** The two forms that all four operations have. *)
Lemma ImmediateOp_long op :
  yields (check (differ rs1 TMP2) >> LoadImmediate TMP2 imm >>
            emit (rop_asm (immop_rop op) rd rs1 TMP2)) m rd (fun R => immop_sem op (R rs1) imm) [TMP2] 9.
Proof.
  apply (yields_via_scratch _ _ (fun x => immop_sem op x imm)); try done; [by destruct op|].
  apply immop_value.
Qed.

Lemma ImmediateOp_short op :
  IsITypeImm imm = true ->
  yields (emit (iop_asm (immop_iop op) rd rs1 imm)) m rd (fun R => immop_sem op (R rs1) imm) [TMP2] 9.
Proof.
  intros Hit. eapply yields_one; [done..|by apply (writes_iop m HI (immop_iop op) rd rs1 imm)|].
  intros s Hok. by destruct op.
Qed.

Lemma AddImmediate_yields : yields (AddImmediate rd rs1 imm) m rd (fun R => R rs1 + imm) [TMP2] 9.
Proof.
  unfold AddImmediate. destruct ((imm =? 0) && (rd =? rs1)) eqn:E0.
  { apply andb_true_iff in E0 as [E0%Z.eqb_eq E1%Z.eqb_eq].
    apply yields_skip; [done|]. intros s Hok. by rewrite E0, E1, Z.add_0_r. }
  destruct (IsITypeImm imm) eqn:Eit; [by apply (ImmediateOp_short AddImm)|apply (ImmediateOp_long AddImm)].
Qed.

Lemma land_mask sh x : 0 <= sh <= XLEN -> ux imm = 2 ^ sh - 1 -> ux (Z.land x imm) = x mod 2 ^ sh.
Proof.
  intros Hsh Eu. rewrite ux_land, Eu, Z.sub_1_r, <- Z.ones_equiv, Z.land_ones by lia.
  apply wrapU_wrapU_le. lia.
Qed.

(** The mask of the low [sh] bits by two shifts. *)
Lemma shifts_mask sh :
  0 < sh < XLEN -> ux imm = 2 ^ sh - 1 ->
  yields (emit (MicroAssembler.slli rd rs1 (XLEN - sh)) >> emit (MicroAssembler.srli rd rd (XLEN - sh)))
    m rd (fun R => Z.land (R rs1) imm) [TMP2] 9.
Proof.
  intros Hsh Eu. eapply yields_two;
    [apply (writes_sop m SLLI); (done || lia)|apply (writes_sop m SRLI); (done || lia)|set_solver|].
  intros s Hok. regs_after. cbn. rewrite (land_mask sh) by (done || lia). unfold ux, wrapU.
  replace (2 ^ XLEN) with (2 ^ sh * 2 ^ (XLEN - sh)) by (rewrite <- Z.pow_add_r by lia; f_equal; lia).
  pose proof (pow2_pos sh ltac:(lia)). assert (0 < 2 ^ (XLEN - sh)) by (apply pow2_pos; lia).
  rewrite Z.mul_mod_distr_r, Z.div_mul by lia. apply Z.mod_small.
  pose proof (Z.mod_pos_bound (get_xreg s rs1) (2 ^ sh)). nia.
Qed.

Lemma AndImmediate_yields : yields (AndImmediate rd rs1 imm) m rd (fun R => Z.land (R rs1) imm) [TMP2] 9.
Proof.
  unfold AndImmediate. cbv zeta. destruct (Z.eqb_spec imm (-1)) as [E1|Hn1].
  { eapply yields_value; [|apply yields_move]. intros s Hok. by rewrite E1, Z.land_m1_r. }
  destruct (IsITypeImm imm) eqn:Eit; [by apply (ImmediateOp_short AndImm)|].
  destruct (Supports (asm_ m) RV_Zbs && IsPowerOfTwo (ux (Z.lnot (ux imm)))) eqn:Eb.
  { eapply yields_eq; [intros b; cbv beta; rewrite !Supports_at, Eb; reflexivity|].
    apply andb_true_iff in Eb as [HS Hp]. destruct (power_of_two_word _ (ux_range _) Hp) as [Hk Ek].
    eapply yields_one; [done..|by apply (writes_sop m BCLRI rd rs1)|]. intros s Hok. cbn. by apply mask_clear. }
  eapply yields_eq; [intros b; cbv beta; rewrite !Supports_at, Eb; reflexivity|]. clear Eb.
  destruct (IsPowerOfTwo (ux (ux imm + 1))) eqn:Ep; [|apply (ImmediateOp_long AndImm)].
  destruct (mask_low imm Hi Eit Ep) as [Hsh Eu]. cbv zeta in Hsh, Eu.
  set (sh := ShiftForPowerOfTwo _) in *.
  destruct (Supports (asm_ m) RV_Zbb && (sh =? 16)) eqn:Ez; [|by apply shifts_mask].
  apply andb_true_iff in Ez as [HS E16%Z.eqb_eq].
  eapply yields_one; [done..|by apply (writes_uop m ZEXTH rd rs1)|]. intros s Hok. cbn.
  rewrite (land_mask sh), E16 by (done || lia). apply ux_small.
  apply (inU_mono 16); [apply wrapU_range; lia|destruct XLEN_cases; lia].
Qed.

(** Setting or inverting a single bit. *)
Lemma OrImmediate_yields : yields (OrImmediate rd rs1 imm) m rd (fun R => Z.lor (R rs1) imm) [TMP2] 9.
Proof.
  unfold OrImmediate. cbv zeta. destruct (Z.eqb_spec imm 0) as [E1|Hn1].
  { eapply yields_value; [|apply yields_move]. intros s Hok. by rewrite E1, Z.lor_0_r. }
  destruct (IsITypeImm imm) eqn:Eit; [by apply (ImmediateOp_short OrImm)|].
  destruct (Supports (asm_ m) RV_Zbs && IsPowerOfTwo (ux imm)) eqn:Eb;
    (eapply yields_eq; [intros b; cbv beta; rewrite !Supports_at, Eb; reflexivity|]); [|apply (ImmediateOp_long OrImm)].
  apply andb_true_iff in Eb as [HS Hp]. destruct (power_of_two_word _ (ux_range _) Hp) as [Hk Ek].
  eapply yields_one; [done..|by apply (writes_sop m BSETI rd rs1)|]. intros s Hok. cbn [sop_sem].
  by rewrite Z.setbit_spec', <- Ek, !ux_lor, ux_ux.
Qed.

Lemma XorImmediate_yields : yields (XorImmediate rd rs1 imm) m rd (fun R => Z.lxor (R rs1) imm) [TMP2] 9.
Proof.
  unfold XorImmediate. cbv zeta. destruct (Z.eqb_spec imm 0) as [E1|Hn1].
  { eapply yields_value; [|apply yields_move]. intros s Hok. by rewrite E1, Z.lxor_0_r. }
  destruct (IsITypeImm imm) eqn:Eit; [by apply (ImmediateOp_short XorImm)|].
  destruct (Supports (asm_ m) RV_Zbs && IsPowerOfTwo (ux imm)) eqn:Eb;
    (eapply yields_eq; [intros b; cbv beta; rewrite !Supports_at, Eb; reflexivity|]); [|apply (ImmediateOp_long XorImm)].
  apply andb_true_iff in Eb as [HS Hp]. destruct (power_of_two_word _ (ux_range _) Hp) as [Hk Ek].
  eapply yields_one; [done..|by apply (writes_sop m BINVI rd rs1)|]. intros s Hok. cbn [sop_sem].
  by rewrite <- Ek, !ux_lxor, ux_ux.
Qed.

End ImmediateOp.

(** [AddImmediate], [AndImmediate], [OrImmediate] and [XorImmediate]: with
    or without Zbb and Zbs, and whether the constant fits an instruction, is a
    mask or a single bit, or has to be loaded first, the code leaves the sum,
    conjunction, disjunction or exclusive or with the constant in the
    destination in at most nine instructions, and changes nothing but it and
    [TMP2]. *)
Theorem ImmediateOp_spec op m rd rs1 imm :
  Supports (asm_ m) RV_I = true -> constant_pool_allowed_ m = false ->
  inU 5 rd -> rd <> Reg.ZR -> inU 5 rs1 -> rs1 <> Reg.ZR -> rs1 <> TMP2 ->
  inS XLEN imm -> imm < 2 ^ 63 - 2048 ->
  computes (immop_asm op rd rs1 imm) m rd (fun R => immop_sem op (R rs1) imm) [TMP2] 9.
Proof.
  intros. apply yields_computes. destruct op; [by apply AddImmediate_yields|by apply AndImmediate_yields|
    by apply OrImmediate_yields|by apply XorImmediate_yields].
Qed.

(** ** Scaled addition *)

Definition scaled (shift x : Z) : Z := if shift <? 0 then sx x / 2 ^ (- shift) else x * 2 ^ shift.

Section AddShifted.
Context (m : MacroAsm) (HI : Supports (asm_ m) RV_I = true).
Context (rd base index : Z) (Hd : inU 5 rd) (Hdz : rd <> Reg.ZR) (Hb : inU 5 base) (Hbz : base <> Reg.ZR).
Context (Hb2 : base <> TMP2) (Hx : inU 5 index) (Hxz : index <> Reg.ZR).

(** A shift into a register other than the base, then the addition. *)
Lemma shift_then_add op tmp sh shift :
  inU 5 tmp -> tmp <> Reg.ZR -> tmp <> base -> (tmp = rd \/ tmp = TMP2) ->
  sop_ext op = RV_I -> 0 < sh < XLEN -> (forall x, sop_sem op x sh = scaled shift x) ->
  yields (emit (sop_asm op tmp index sh) >> emit (MicroAssembler.add rd tmp base)) m rd
    (fun R => R base + scaled shift (R index)) [TMP2] 2.
Proof.
  intros Ht Htz Htb Hrt HE Hsh Hv. eapply yields_two.
  - apply (writes_sop m op tmp index sh); (done || lia || by rewrite HE).
  - by apply (writes_rop m ADD rd tmp base).
  - destruct Hrt as [-> | ->]; set_solver.
  - intros s Hok. pose proof (ok_set_xreg s tmp (sop_sem op (get_xreg s index) sh) Hok Ht).
    regs_after. cbn [rop_sem]. rewrite ux_add_l, Hv. f_equal. lia.
Qed.

Lemma AddShifted_yields shift :
  - XLEN < shift < XLEN ->
  yields (AddShifted rd base index shift) m rd (fun R => R base + scaled shift (R index)) [TMP2] 2.
Proof.
  intros Hsh. eapply yields_eq; [intros b; unfold AddShifted; cbv beta zeta; rewrite Supports_at; reflexivity|].
  assert (forall op, Supports (asm_ m) (rop_ext op) = true -> op <> ADD -> 0 <= shift ->
    (forall x y, rop_sem op x y = 2 ^ shift * x + y) ->
    yields (emit (rop_asm op rd index base)) m rd (fun R => R base + scaled shift (R index)) [TMP2] 2) as Hzba.
  { intros op HE Hop Hs Hv. eapply yields_one; [done..|by apply (writes_rop m op rd index base)|].
    intros s Hok. cbv beta. rewrite Hv. unfold scaled. rewrite (proj2 (Z.ltb_ge shift 0)) by done. f_equal. lia. }
  destruct (Z.eqb_spec shift 0) as [->|Hn0].
  { eapply yields_one; [done..|by apply (writes_rop m ADD rd index base)|].
    intros s Hok. cbn. f_equal. lia. }
  destruct (Supports (asm_ m) RV_Zba) eqn:HS; cbn [andb];
  [destruct (Z.eqb_spec shift 1) as [->|]; [by apply (Hzba SH1ADD)|];
   destruct (Z.eqb_spec shift 2) as [->|]; [by apply (Hzba SH2ADD)|];
   destruct (Z.eqb_spec shift 3) as [->|]; [by apply (Hzba SH3ADD)|]|];
  clear Hzba; unfold differ;
  (destruct (Z.ltb_spec shift 0) as [Hneg|Hpos]; destruct (Z.eqb_spec base rd) as [Eb|Hne]; cbn [negb];
   [apply (shift_then_add SRAI TMP2)|apply (shift_then_add SRAI rd)
   |apply (shift_then_add SLLI TMP2)|apply (shift_then_add SLLI rd)]; auto; try done; try lia;
   intros x; unfold scaled; cbn [sop_sem];
   first [by rewrite (proj2 (Z.ltb_lt shift 0)) by done|by rewrite (proj2 (Z.ltb_ge shift 0)) by done]).
Qed.

End AddShifted.

End MacroArith.
