(* ===== verification/MacroCompare.v ===== *)
(** * MacroCompare: deferred comparisons as values

    RISC-V has no condition flags: a comparison is recorded and consumed by
    [SetIf] or [BranchIf].  Here: what [SetIf] leaves in its register. *)

From stdpp Require Import base numbers list gmap.
From Stdlib Require Import Lia.
From S2P Require Import Prelude Constants Encoding CEncoding AsmBuffer MicroAsm AsmBranch SimState.
From S2P Require Import SimInt SimAtomic SimFloat SimCompressed Simulator Isa IntSpec BitSpec.
From S2P Require Import AsmExec AsmFormats RefineOp RefineImm RefineMem Refinement.
From S2P Require Import SimInv AsmSites RefineBranch RefineLabel SimMemSpec AsmSeq ObjectPool Assembler.
From S2P Require Import MacroSeq MacroImm MacroArith.

#[local] Open Scope Z_scope.
#[local] Open Scope res_scope.
#[local] Open Scope code_scope.

(** ** Conditions *)

(** The comparisons a caller makes. *)
Inductive comparison : Type :=
| CompareR (rn rm : Z)
| CompareI (rn imm : Z)
| TestR (rn rm : Z)
| TestI (rn imm : Z).

Definition relational (c : Condition) : bool :=
  match c with EQ | NE | LT | LE | GE | GT | CC | LS | CS | HI => true | _ => false end.
Definition equality (c : Condition) : bool := match c with EQ | NE => true | _ => false end.

Section MacroCompare.
Context `{Target} `{HostNaN} `{Host} {T : Type} `{ops : !IndexTableOps T}.

#[local] Notation MacroAsm := (MacroAsm T).
#[local] Notation code := (code T).
Implicit Types m : MacroAsm.

Definition condition_sem (c : Condition) (x y : Z) : bool :=
  match c with
  | EQ => x =? y | NE => negb (x =? y)
  | LT => sx x <? sx y | LE => sx x <=? sx y | GE => sx y <=? sx x | GT => sx y <? sx x
  | CC => x <? y | LS => x <=? y | CS => y <=? x | HI => y <? x
  | _ => false
  end.

Definition compare_code (cmp : comparison) : code :=
  match cmp with
  | CompareR rn rm => CompareRegisters rn rm
  | CompareI rn imm => CompareImmediate rn imm
  | TestR rn rm => TestRegisters rn rm
  | TestI rn imm => TestImmediate rn imm
  end.

Definition comparison_sem (cmp : comparison) (c : Condition) (R : Z -> Z) : bool :=
  match cmp with
  | CompareR rn rm => condition_sem c (R rn) (R rm)
  | CompareI rn imm => condition_sem c (R rn) (ux imm)
  | TestR rn rm => condition_sem c (Z.land (R rn) (R rm)) 0
  | TestI rn imm => condition_sem c (Z.land (R rn) (ux imm)) 0
  end.

(** The operands and conditions a comparison may have. *)
Definition constant_ok (imm : Z) : Prop := inS XLEN imm /\ imm < 2 ^ 63 - 2048.
Definition comparable (cmp : comparison) (c : Condition) : Prop :=
  match cmp with
  | CompareR rn rm => inU 5 rn /\ inU 5 rm /\ relational c = true
  | CompareI rn imm => inU 5 rn /\ rn <> TMP2 /\ constant_ok imm /\ relational c = true
  | TestR rn rm => inU 5 rn /\ inU 5 rm /\ equality c = true
  | TestI rn imm => inU 5 rn /\ rn <> Reg.ZR /\ rn <> TMP2 /\ constant_ok imm /\ equality c = true
  end.

(** For two immediates there are conditions that [SetIf] gets wrong. *)
Definition settable (cmp : comparison) (c : Condition) : Prop :=
  comparable cmp c /\
  match cmp with
  | CompareI _ imm => ~ (imm = -1 /\ (c = LS \/ c = HI)) /\ ~ (imm = -2048 /\ (c = EQ \/ c = NE))
  | _ => True
  end.

(** ** Truth values *)

Lemma ux_b2z (b : bool) : ux (Z.b2z b) = Z.b2z b.
Proof. apply ux_small. unfold inU. destruct XLEN_cases as [-> | ->], b; cbn; lia. Qed.

Lemma flip_bit (b : bool) : Z.lxor (Z.b2z b) 1 = Z.b2z (negb b).
Proof. by destruct b. Qed.

Lemma ux_1 : ux 1 = 1.
Proof. apply (ux_b2z true). Qed.

Lemma ltb_1 x : 0 <= x -> (x <? 1) = (x =? 0).
Proof. intros. destruct (Z.ltb_spec x 1), (Z.eqb_spec x 0); lia || done. Qed.

Lemma ltb_0 x : 0 <= x -> (0 <? x) = negb (x =? 0).
Proof. intros. destruct (Z.ltb_spec 0 x), (Z.eqb_spec x 0); lia || done. Qed.

Section Flags.
Context (m : MacroAsm) (HS : Supports (asm_ m) RV_I = true).
Context (rd : Z) (Hd : inU 5 rd) (Hdz : rd <> Reg.ZR) (scratch : list Z).

Lemma yields_not c p k :
  yields c m rd (fun R => Z.b2z (p R)) scratch k ->
  yields (c >> emit (MicroAssembler.xori rd rd 1)) m rd (fun R => Z.b2z (negb (p R))) scratch (S k).
Proof.
  intros Hc. eapply yields_then_emit;
    [exact Hc|apply (writes_iop m HS XORI rd rd 1); [done..|by apply IsITypeImm_small]|done..|].
  intros s t _ _ E _. cbn [iop_sem]. by rewrite E, ux_b2z, flip_bit.
Qed.

Lemma yields_seqz c v k :
  yields c m rd v scratch k ->
  yields (c >> emit (MicroAssembler.seqz rd rd)) m rd (fun R => Z.b2z (ux (v R) =? 0)) scratch (S k).
Proof.
  intros Hc. eapply yields_then_emit;
    [exact Hc|apply (writes_iop m HS SLTIU rd rd 1); [done..|by apply IsITypeImm_small]|done..|].
  intros s t _ _ E _. cbn [iop_sem]. by rewrite E, ux_1, ltb_1 by apply ux_range.
Qed.

Lemma yields_snez c v k :
  yields c m rd v scratch k ->
  yields (c >> emit (MicroAssembler.snez rd rd)) m rd (fun R => Z.b2z (negb (ux (v R) =? 0))) scratch (S k).
Proof.
  intros Hc. eapply yields_then_emit; [exact Hc|by apply (writes_rop m SLTU rd Reg.ZR rd)|done..|].
  intros s t _ Ht E _. cbn [rop_sem]. rewrite E, get_xreg_zero by done. by rewrite ltb_0 by apply ux_range.
Qed.

(** ** SetIf on each kind of comparison *)

Lemma xor_zero x y : inU XLEN x -> inU XLEN y -> (ux (Z.lxor x y) =? 0) = (x =? y).
Proof.
  intros Hx Hy. rewrite ux_lxor, !ux_small by done.
  destruct (Z.eqb_spec x y) as [->|Hne]; [by rewrite Z.lxor_nilpotent|].
  apply Z.eqb_neq. by rewrite Z.lxor_eq_0_iff.
Qed.

Lemma yields_bool c (p q : (Z -> Z) -> bool) k :
  (forall s, sim_ok s -> p (get_xreg s) = q (get_xreg s)) ->
  yields c m rd (fun R => Z.b2z (p R)) scratch k -> yields c m rd (fun R => Z.b2z (q R)) scratch k.
Proof. intros Hpq. apply yields_value. intros s Hok. by rewrite Hpq. Qed.

Lemma set_compare_reg_yields cond left right k :
  inU 5 left -> inU 5 right -> relational cond = true ->
  yields (set_compare_reg cond rd left right) m rd
    (fun R => Z.b2z (condition_sem cond (R left) (R right))) scratch (S (S k)).
Proof.
  intros Hl Hr Hc.
  assert (forall op x y j, op = SLT \/ op = SLTU -> inU 5 x -> inU 5 y ->
    yields (emit (rop_asm op rd x y)) m rd
      (fun R => Z.b2z (match op with SLT => sx (R x) <? sx (R y) | _ => R x <? R y end)) scratch (S j)) as Hlt.
  { intros op x y j Hop Hx Hy. destruct Hop as [-> | ->];
      (eapply yields_one; [done..| |]); [by apply (writes_rop m SLT rd x y)|done|by apply (writes_rop m SLTU rd x y)|done]. }
  assert (forall j, yields (emit (MicroAssembler.xor_ rd left right)) m rd
    (fun R => Z.lxor (R left) (R right)) scratch (S j)) as Hxor.
  { intros j. eapply yields_one; [done..|by apply (writes_rop m XOR rd left right)|done]. }
  destruct cond; try done; cbn [set_compare_reg condition_sem].
  - destruct (Z.eqb_spec right Reg.ZR) as [->|Hz].
    + eapply yields_one; [done..|apply (writes_iop m HS SLTIU rd left 1); [done..|by apply IsITypeImm_small]|].
      intros s Hok. cbn [iop_sem]. by rewrite get_xreg_zero, ux_1, ltb_1 by (done || by apply get_xreg_ok).
    + eapply yields_bool; [|apply yields_seqz, Hxor]. intros s Hok. by apply xor_zero; apply get_xreg_ok.
  - destruct (Z.eqb_spec right Reg.ZR) as [->|Hz].
    + eapply yields_one; [done..|by apply (writes_rop m SLTU rd Reg.ZR left)|].
      intros s Hok. cbn [rop_sem]. by rewrite get_xreg_zero, ltb_0 by (done || by apply get_xreg_ok).
    + eapply yields_bool; [|apply yields_snez, Hxor]. intros s Hok. cbv beta. f_equal. by apply xor_zero; apply get_xreg_ok.
  - eapply yields_bool; [|apply yields_not, (Hlt SLTU left right); auto].
    intros s Hok. cbv beta iota. by rewrite <- Z.leb_antisym.
  - apply (Hlt SLTU left right); auto.
  - apply (Hlt SLTU right left); auto.
  - eapply yields_bool; [|apply yields_not, (Hlt SLTU right left); auto].
    intros s Hok. cbv beta iota. by rewrite <- Z.leb_antisym.
  - eapply yields_bool; [|apply yields_not, (Hlt SLT left right); auto].
    intros s Hok. cbv beta iota. by rewrite <- Z.leb_antisym.
  - apply (Hlt SLT left right); auto.
  - apply (Hlt SLT right left); auto.
  - eapply yields_bool; [|apply yields_not, (Hlt SLT right left); auto].
    intros s Hok. cbv beta iota. by rewrite <- Z.leb_antisym.
Qed.

Lemma sub_zero x imm : inU XLEN x -> (ux (x + - imm) =? 0) = (x =? ux imm).
Proof.
  intros Hx. rewrite Z.add_opp_r. unfold ux, wrapU. rewrite <- (Z.mod_small x (2 ^ XLEN)) at 2 by done.
  assert (0 < 2 ^ XLEN) by (apply pow2_pos; pose proof XLEN_pos; lia).
  destruct (Z.eqb_spec (x mod 2 ^ XLEN) (imm mod 2 ^ XLEN)) as [E|Hne].
  - apply Z.eqb_eq. by rewrite Zminus_mod, E, Z.sub_diag, Z.mod_0_l by lia.
  - apply Z.eqb_neq. intros E. apply Hne. apply Z.mod_divide in E as [q E]; [|lia].
    replace x with (imm + q * 2 ^ XLEN) by lia. apply Z.mod_add. lia.
Qed.

(** [x < imm + 1] is [x <= imm], unsigned, unless [imm] is -1. *)
Lemma ltu_succ x imm : inS 12 imm -> imm <> -1 -> (x <? ux (imm + 1)) = (x <=? ux imm).
Proof.
  intros Hi Hn. assert (ux (imm + 1) = ux imm + 1) as ->.
  { unfold inS in Hi. unfold ux, wrapU. assert (2 ^ 32 <= 2 ^ XLEN) as Hp by (apply Z.pow_le_mono_r; [lia|apply XLEN_pos]).
    destruct (Z.lt_ge_cases imm 0) as [Hneg|Hpos].
    - rewrite <- (Z.mod_add imm 1), <- (Z.mod_add (imm + 1) 1) by lia. rewrite !Z.mod_small; lia.
    - rewrite !Z.mod_small; lia. }
  destruct (Z.ltb_spec x (ux imm + 1)), (Z.leb_spec x (ux imm)); lia || done.
Qed.

Lemma lt_succ x y : (x <? y + 1) = (x <=? y).
Proof. destruct (Z.ltb_spec x (y + 1)), (Z.leb_spec x y); lia || done. Qed.

Lemma set_compare_imm_yields cond left imm k :
  inU 5 left -> IsITypeImm imm = true -> IsITypeImm (imm + 1) = true -> relational cond = true ->
  ~ (imm = -1 /\ (cond = LS \/ cond = HI)) -> ~ (imm = -2048 /\ (cond = EQ \/ cond = NE)) ->
  yields (set_compare_imm cond rd left imm) m rd
    (fun R => Z.b2z (condition_sem cond (R left) (ux imm))) scratch (S (S k)).
Proof.
  intros Hl Hi Hi1 Hc Hn1 Hn2048. pose proof (proj1 (IsITypeImm_spec _) Hi) as Hi'.
  assert (sx (ux imm) = imm) as Esx.
  { rewrite sx_ux. apply sx_small, (inS_mono 12); [done|pose proof XLEN_pos; lia]. }
  assert (forall op i j, op = SLTI \/ op = SLTIU -> IsITypeImm i = true ->
    yields (emit (iop_asm op rd left i)) m rd
      (fun R => Z.b2z (match op with SLTI => sx (R left) <? i | _ => R left <? ux i end)) scratch (S j)) as Hlt.
  { intros op i j Hop Hii. destruct Hop as [-> | ->];
      (eapply yields_one; [done..| |]); [by apply (writes_iop m HS SLTI)|done|by apply (writes_iop m HS SLTIU)|done]. }
  assert (imm <> -2048 -> forall j, yields (emit (MicroAssembler.subi rd left imm)) m rd
    (fun R => R left + - imm) scratch (S j)) as Hsub.
  { intros Hne j. eapply yields_one; [done..|apply (writes_iop m HS ADDI rd left (- imm)); [done..|]|done].
    apply IsITypeImm_small. unfold inS in Hi'. lia. }
  destruct cond; try done; cbn [set_compare_imm condition_sem]; rewrite ?Esx.
  - eapply yields_bool; [|apply yields_seqz, Hsub; naive_solver].
    intros s Hok. by apply sub_zero, get_xreg_ok.
  - eapply yields_bool; [|apply yields_snez, Hsub; naive_solver].
    intros s Hok. cbv beta. f_equal. by apply sub_zero, get_xreg_ok.
  - eapply yields_bool; [|apply yields_not, (Hlt SLTIU imm); auto].
    intros s Hok. cbv beta iota. by rewrite <- Z.leb_antisym.
  - apply (Hlt SLTIU imm); auto.
  - eapply yields_bool; [|apply yields_not, (Hlt SLTIU (imm + 1)); auto].
    intros s Hok. cbv beta iota. rewrite ltu_succ by naive_solver. by rewrite Z.ltb_antisym.
  - eapply yields_bool; [|apply (Hlt SLTIU (imm + 1)); auto].
    intros s Hok. cbv beta iota. by rewrite ltu_succ by naive_solver.
  - eapply yields_bool; [|apply yields_not, (Hlt SLTI imm); auto].
    intros s Hok. cbv beta iota. by rewrite <- Z.leb_antisym.
  - apply (Hlt SLTI imm); auto.
  - eapply yields_bool; [|apply yields_not, (Hlt SLTI (imm + 1)); auto].
    intros s Hok. cbv beta iota. by rewrite lt_succ, Z.ltb_antisym.
  - eapply yields_bool; [|apply (Hlt SLTI (imm + 1)); auto].
    intros s Hok. cbv beta iota. by rewrite lt_succ.
Qed.

(** A test of the result of an "and". *)
Lemma set_test_yields cond c v k :
  equality cond = true -> yields c m rd v scratch k ->
  yields (c >> set_test cond rd) m rd (fun R => Z.b2z (condition_sem cond (ux (v R)) 0)) scratch (S k).
Proof. intros Hc Hv. destruct cond; try done; [by apply yields_seqz|by apply yields_snez]. Qed.

Lemma set_bit_yields cond extract (x : (Z -> Z) -> Z) k :
  equality cond = true ->
  (forall j, yields (emit extract) m rd (fun R => Z.b2z (negb (x R =? 0))) scratch (S j)) ->
  yields (set_bit cond rd extract) m rd (fun R => Z.b2z (condition_sem cond (x R) 0)) scratch (S (S k)).
Proof.
  intros Hc Hx. destruct cond; try done; cbn [set_bit condition_sem].
  eapply yields_bool; [|apply yields_not, Hx]. intros s Hok. cbv beta. by rewrite negb_involutive.
Qed.

Lemma land_pow2 x k : 0 <= k -> negb (Z.land x (2 ^ k) =? 0) = Z.testbit x k.
Proof.
  intros Hk. destruct (Z.testbit x k) eqn:E.
  - apply negb_true_iff, Z.eqb_neq. intros E0. assert (Z.testbit (Z.land x (2 ^ k)) k = false) as E1.
    { by rewrite E0, Z.bits_0. }
    by rewrite Z.land_spec, E, Z.pow2_bits_true in E1.
  - apply negb_false_iff, Z.eqb_eq. apply Z.bits_inj'. intros i Hi.
    rewrite Z.land_spec, Z.bits_0, Z.pow2_bits_eqb by done.
    destruct (Z.eqb_spec k i) as [<-|]; [by rewrite E|by rewrite andb_false_r].
Qed.

Hypothesis Hword : XLEN <= kBitsPerWord.
Hypothesis Hpool : constant_pool_allowed_ m = false.

(** The code of [SetIf] on an immediate test. *)
Definition set_test_imm (cond : Condition) (left imm : Z) : code := fun m =>
  (if imm =? 1 then set_bit cond rd (MicroAssembler.andi rd left 1)
   else if Supports (asm_ m) RV_Zbs && IsPowerOfTwo (ux imm) then
     set_bit cond rd (MicroAssembler.bexti rd left (ShiftForPowerOfTwo (ux imm)))
   else AndImmediate rd left imm >> set_test cond rd) m.

Lemma set_test_imm_yields cond left imm :
  scratch = [TMP2] -> inU 5 left -> left <> Reg.ZR -> left <> TMP2 -> constant_ok imm -> equality cond = true ->
  yields (set_test_imm cond left imm) m rd
    (fun R => Z.b2z (condition_sem cond (Z.land (R left) (ux imm)) 0)) scratch 10.
Proof.
  intros Escr Hl Hlz Hl2 [Hi Hmax] Hc. unfold set_test_imm.
  destruct (Z.eqb_spec imm 1) as [->|Hn1].
  { apply set_bit_yields; [done|]. intros j.
    eapply yields_one; [done..|apply (writes_iop m HS ANDI rd left 1); [done..|by apply IsITypeImm_small]|].
    intros s Hok. cbn [iop_sem]. rewrite ux_1. f_equal.
    change 1 with (2 ^ 0). rewrite land_pow2 by done. change (2 ^ 0) with 1.
    rewrite (Z.land_ones _ 1 ltac:(lia)), Z.bit0_odd. by rewrite Zmod_odd; destruct (Z.odd _). }
  destruct (Supports (asm_ m) RV_Zbs && IsPowerOfTwo (ux imm)) eqn:Eb;
    (eapply yields_eq; [intros b; cbv beta; rewrite !Supports_at, Eb; reflexivity|]).
  - apply andb_true_iff in Eb as [HZ Hp]. destruct (power_of_two_word _ (ux_range _) Hp) as [Hk Ek].
    apply set_bit_yields; [done|]. intros j. eapply yields_one; [done..|by apply (writes_sop m BEXTI rd left)|].
    intros s Hok. cbn [sop_sem]. rewrite Ek at 2. by rewrite land_pow2 by lia.
  - eapply yields_value; [|apply set_test_yields; [done|rewrite Escr; by apply AndImmediate_yields]].
    intros s Hok. cbv beta. by rewrite ux_land, (ux_small (get_xreg s left)) by by apply get_xreg_ok.
Qed.

End Flags.

(** ** SetIf *)

(** Recording a comparison. *)
Lemma defer_then {A} m (k : MacroAsm -> Res A) c f :
  deferred_compare_ m = kNone -> (let* x := defer c f m in k x) = k (f m).
Proof. intros E. unfold defer. by rewrite E, ASSERT_true. Qed.

(** [m] after a comparison has been consumed: the record of it remains. *)
Definition consumed (m m' : MacroAsm) : Prop :=
  exists left reg imm, m' = set_deferred m kNone left reg imm.

(** The rest of [SetIf]: code, then the comparison is dropped. *)
Lemma then_consume (body : code) m rd v scratch k left reg imm c :
  yields body (set_deferred m c left reg imm) rd v scratch k ->
  exists bytes n m', (let* m := body (set_deferred m c left reg imm) in Ok (consume m)) = Ok m' /\
    consumed (append m bytes) m' /\ (n <= k)%nat /\ bytes_compute bytes n rd v scratch.
Proof.
  intros (bytes & n & E & Hn & Hb)%yields_computes. exists bytes, n. rewrite E. cbn [rbind].
  eexists. split; [done|]. split; [|done]. by eexists _, _, _.
Qed.

(** A constant in [TMP2], then [SetIf] of two registers. *)
Lemma load_then_consume (body : code) m rd (v w : (Z -> Z) -> Z) k left reg reg' imm c c' x :
  loads (LoadImmediate TMP2 x) (set_deferred m c left reg imm) TMP2 x 8 ->
  yields body (set_deferred m c' left reg' imm) rd v [TMP2] k ->
  (forall s t, sim_ok s -> sim_ok t -> get_xreg t TMP2 = ux x ->
     (forall r, inU 5 r -> r <> TMP2 -> get_xreg t r = get_xreg s r) ->
     ux (v (get_xreg t)) = ux (w (get_xreg s))) ->
  exists bytes n m',
    (let* m := LoadImmediate TMP2 x (set_deferred m c left reg imm) in
     let* m := body (set_deferred m c' (deferred_left_ m) reg' (deferred_imm_ m)) in Ok (consume m)) = Ok m' /\
    consumed (append m bytes) m' /\ (n <= 8 + k)%nat /\ bytes_compute bytes n rd w [TMP2].
Proof.
  intros (l1 & Hw1 & Hk1 & Hl1 & Hv1) (l2 & Hw2 & Hk2 & Hd2 & Hv2) Hv.
  destruct (Hw1 (buffer_ (asm_ m))) as [(b1 & E1 & Hb1) Hf1].
  change (at_buffer (set_deferred m c left reg imm) (buffer_ (asm_ m)))
    with (set_deferred (at_buffer m (buffer_ (asm_ m))) c left reg imm) in E1.
  rewrite at_buffer_same in E1. rewrite E1. cbn [rbind].
  destruct (Hw2 (buffer_ (asm_ m) ++ b1)) as [(b2 & E2 & Hb2) Hf2].
  change (set_deferred (append (set_deferred m c left reg imm) b1) c' _ reg' _)
    with (at_buffer (set_deferred m c' left reg' imm) (buffer_ (asm_ m) ++ b1)).
  rewrite E2. cbn [rbind]. exists (b1 ++ b2), (length (l1 ++ l2)). eexists. split; [done|]. split_and!.
  - exists left, reg', imm. unfold append, at_buffer, consume. cbn. by rewrite app_assoc.
  - rewrite length_app. lia.
  - apply block_computes; [by apply block_app|by apply Forall_app|]. intros s Hok. rewrite after_app.
    pose proof (after_ok l1 Hf1 s Hok) as Hok1. rewrite Hv2 by done. split.
    + apply Hv; [done|done|by apply Hv1|]. intros r Hr Hne. by apply (after_others l1 TMP2).
    + intros r Hr Hne Hns. rewrite after_other; [|done|done|set_solver].
      apply (after_others l1 TMP2); [done..| |done]. set_solver.
Qed.

Hypothesis Hword : XLEN <= kBitsPerWord.

(** C28. [SetIf] after a comparison: for every kind of comparison and every
    condition it is given, [CompareRegisters], [CompareImmediate],
    [TestRegisters] or [TestImmediate] followed by [SetIf] emits code that
    leaves 1 or 0 in the register as the condition holds or not, and consumes
    the comparison.  Excluded are the two pairs of immediate and condition
    that the code gets wrong. *)
Theorem SetIf_spec cmp cond rd m :
  Supports (asm_ m) RV_I = true -> constant_pool_allowed_ m = false -> deferred_compare_ m = kNone ->
  inU 5 rd -> rd <> Reg.ZR -> settable cmp cond ->
  exists bytes n m', (compare_code cmp >> SetIf cond rd) m = Ok m' /\
    consumed (append m bytes) m' /\ (n <= 10)%nat /\
    bytes_compute bytes n rd (fun R => Z.b2z (comparison_sem cmp cond R)) [TMP2].
Proof.
  intros HS Hpool Hnone Hd Hdz Hset. unfold andthen.
  destruct cmp as [rn rm|rn imm|rn rm|rn imm]; cbn [compare_code];
    unfold CompareRegisters, CompareImmediate, TestRegisters, TestImmediate; rewrite defer_then by done;
    unfold SetIf; cbn [set_deferred deferred_compare_ deferred_left_ deferred_reg_ deferred_imm_];
    rewrite ASSERT_true by done; cbn [rbind].
  - destruct Hset as [(? & ? & ?) _].
    apply (then_consume (set_compare_reg cond rd rn rm) m rd _ _ _ rn rm (deferred_imm_ m) kCompareReg).
    by apply set_compare_reg_yields.
  - destruct Hset as [(Hn & Hn2 & [Hi Hmax] & Hrel) [Hx1 Hx2]].
    destruct (Z.eqb_spec imm 0) as [->|Hn0].
    { apply (then_consume (set_compare_reg cond rd rn Reg.ZR) m rd _ _ _ rn Reg.ZR 0 kCompareReg).
      eapply yields_bool; [|by apply set_compare_reg_yields]. intros s Hok. cbv beta. cbn [comparison_sem].
      rewrite get_xreg_zero by done. by rewrite ux_small by (split; [lia|apply pow2_pos; pose proof XLEN_pos; lia]). }
    destruct (negb (IsITypeImm imm) || negb (IsITypeImm (imm + 1))) eqn:Eit.
    + eapply (load_then_consume (set_compare_reg cond rd rn TMP2) m rd _ _ 2 rn (deferred_reg_ m) TMP2 imm
                kCompareImm kCompareReg); [by apply LoadImmediate_loads|by apply set_compare_reg_yields|].
      intros s t Hs Ht E Ho. cbv beta. cbn [comparison_sem]. by rewrite E, Ho by done.
    + apply orb_false_iff in Eit as [Ei%negb_false_iff Ei1%negb_false_iff].
      apply (then_consume (set_compare_imm cond rd rn imm) m rd _ _ _ rn (deferred_reg_ m) imm kCompareImm).
      by apply set_compare_imm_yields.
  - destruct Hset as [(? & ? & ?) _].
    apply (then_consume (emit (MicroAssembler.and_ rd rn rm) >> set_test cond rd) m rd _ _ _
             rn rm (deferred_imm_ m) kTestReg).
    eapply yields_value; [|apply set_test_yields; [done..|]].
    2: { eapply yields_one; [done..| |]; [by apply (writes_rop _ AND rd rn rm)|done]. }
    intros s Hok. cbv beta. cbn [rop_sem comparison_sem]. by rewrite ux_land, (ux_small (get_xreg s rn)), (ux_small (get_xreg s rm)) by by apply get_xreg_ok.
  - destruct Hset as [(? & ? & ? & ? & ?) _].
    apply (then_consume (set_test_imm rd cond rn imm) m rd _ _ _ rn (deferred_reg_ m) imm kTestImm).
    by apply set_test_imm_yields.
Qed.

End MacroCompare.
