(* ===== verification/MacroBranch.v ===== *)
(** * MacroBranch: macros that end in a branch

    A prefix that writes registers, then a conditional branch to a bound
    label: [BranchIf] after a comparison and the arithmetic that branches on
    overflow. *)

From stdpp Require Import base numbers list gmap.
From Stdlib Require Import Lia.
From S2P Require Import Prelude Constants Encoding CEncoding AsmBuffer MicroAsm AsmBranch SimState.
From S2P Require Import SimInt SimAtomic SimFloat SimCompressed Simulator Isa IntSpec BitSpec.
From S2P Require Import AsmExec AsmFormats RefineOp RefineImm RefineMem Refinement.
From S2P Require Import SimInv AsmSites RefineBranch RefineLabel SimMemSpec AsmSeq ObjectPool Assembler.
From S2P Require Import MacroSeq MacroImm MacroArith MacroCompare.

#[local] Open Scope Z_scope.
#[local] Open Scope res_scope.
#[local] Open Scope code_scope.

Section MacroBranch.
Context `{Target} `{HostNaN} `{Host} {T : Type} `{ops : !IndexTableOps T}.

#[local] Notation MacroAsm := (MacroAsm T).
#[local] Notation code := (code T).
Implicit Types m : MacroAsm.

(** ** Labels in reach *)

(** A bound label at most 256 KB away, well within the reach of a jump. *)
Definition label_near (l : Label) (a : Asm) : Prop :=
  IsBound l = true /\ (position_ l - Position a) mod 2 = 0 /\
  - 2 ^ 18 <= position_ l - Position a <= 2 ^ 18.

Lemma near_reach offset :
  offset mod 2 = 0 -> - 2 ^ 18 - 64 <= offset <= 2 ^ 18 + 64 -> branch_reach offset.
Proof.
  intros He Ho. right; left.
  assert (forall d, d mod 2 = 0 -> -4 <= d <= 4 -> IsJTypeImm (offset + d) = true) as Hj.
  { intros d Hd Hr. apply IsJTypeImm_spec. split; [unfold inS; lia|].
    change (2 ^ 1) with 2. by rewrite Zplus_mod, He, Hd. }
  split; [by apply Hj|]. by apply (Hj (-4)).
Qed.

Lemma block_length bytes l :
  block bytes l -> Z.of_nat (length bytes) mod 2 = 0 /\ (length bytes <= 4 * length l)%nat.
Proof.
  induction 1 as [|bytes e rest l He Hlen Hrun Hb [IH1 IH2]]; [done|]. rewrite length_app. split.
  - rewrite Nat2Z.inj_add, Zplus_mod, IH1. by destruct Hlen as [-> | ->].
  - cbn [length]. lia.
Qed.

(** ** Code that branches *)

(** [bytes] goes to [offset] when [cond] holds of the registers and falls
    through otherwise; the registers of [vals] have received their values, and
    apart from them only [scratch] and FAR_TMP may have changed. *)
Definition bytes_branch (bytes : list Z) (offset : Z) (cond : (Z -> Z) -> bool)
    (vals : list (Z * ((Z -> Z) -> Z))) (scratch : list Z) : Prop :=
  forall s, runnable bytes s -> exists n t,
    steps s n t /\ mem_ t = mem_ s /\ fregs_ t = fregs_ s /\
    pc_ t = ux (pc_ s + (if cond (get_xreg s) then offset else Z.of_nat (length bytes))) /\
    Forall (fun rv => get_xreg t rv.1 = ux (rv.2 (get_xreg s))) vals /\
    (forall r, inU 5 r -> r ∉ FAR_TMP :: scratch ++ map fst vals -> get_xreg t r = get_xreg s r).

Lemma bytes_branch_app b1 b2 l op rs1 rs2 offset cond vals scratch :
  block b1 l -> Forall is_write l -> branches op rs1 rs2 (offset - Z.of_nat (length b1)) b2 ->
  map dest l ⊆ scratch ++ map fst vals ->
  Forall (fun rv => inU 5 rv.1 /\ rv.1 <> FAR_TMP) vals ->
  (forall s, sim_ok s -> bop_sem op (get_xreg (after l s) rs1) (get_xreg (after l s) rs2) = cond (get_xreg s) /\
     Forall (fun rv => get_xreg (after l s) rv.1 = ux (rv.2 (get_xreg s))) vals) ->
  bytes_branch (b1 ++ b2) offset cond vals scratch.
Proof.
  intros Hb Hl Hbr Hd Hvals Hv s [Hok Hev Hend Hc]. rewrite length_app in Hend.
  apply code_at_app in Hc as [Hc1 Hc2]. destruct (block_length b1 l Hb) as [Hlen _].
  pose proof (ok_pc s Hok) as Hpc. unfold inU in Hpc.
  assert (runnable b1 s) as Hrun1 by (constructor; (done || lia)).
  pose proof (block_runs b1 l Hb s Hrun1 (spares_writes l _ _ Hl s)) as Hx. unfold executes in Hx.
  rewrite run_writes in Hx by done. rewrite (after_regs l s Hl) in Hx.
  set (t1 := moved _ _ _) in Hx.
  assert (pc_ t1 = pc_ s + Z.of_nat (length b1)) as Ept by (cbn; apply ux_small; unfold inU; lia).
  assert (forall r, get_xreg t1 r = get_xreg (after l s) r) as Et1 by (intros r; by rewrite (after_regs l s Hl)).
  destruct (Hbr t1) as (n & t & Hs2 & Hn & [(xs & p & k & ->) Hfar] & Hpct).
  - unfold t1. rewrite <- (after_regs l s Hl). by apply ok_moved, after_ok.
  - rewrite Ept, Zplus_mod, Hev, Hlen. done.
  - rewrite Ept. lia.
  - rewrite Ept. exact Hc2.
  - destruct (Hv s Hok) as [Hcond Hvs]. rewrite !Et1, Hcond in Hpct.
    exists (length l + n)%nat. eexists. split; [exact (steps_app _ _ _ _ _ Hx Hs2)|]. split_and!; [done..| | |].
    + rewrite Hpct, Ept, length_app. destruct (cond _); f_equal; lia.
    + rewrite Forall_forall in *. intros rv Hin. destruct (Hvals rv Hin) as [??].
      rewrite Hfar, Et1 by done. by apply Hvs.
    + intros r Hr Hn'. rewrite Hfar, Et1 by set_solver. apply after_other; [done..|set_solver].
Qed.

(** The code of a macro: it writes registers and branches to a near label. *)
Lemma prefix_branch (c : code) m l op rs1 rs2 lbl cond vals scratch :
  writes c m l -> (length l <= 12)%nat -> Supports (asm_ m) RV_I = true -> label_near lbl (asm_ m) ->
  inU 5 rs1 -> inU 5 rs2 -> map dest l ⊆ scratch ++ map fst vals ->
  Forall (fun rv => inU 5 rv.1 /\ rv.1 <> FAR_TMP) vals ->
  (forall s, sim_ok s -> bop_sem op (get_xreg (after l s) rs1) (get_xreg (after l s) rs2) = cond (get_xreg s) /\
     Forall (fun rv => get_xreg (after l s) rv.1 = ux (rv.2 (get_xreg s))) vals) ->
  exists bytes, (c >> emit_branch (bop_asm op rs1 rs2 lbl kFarJump)) m = Ok (lbl, append m bytes) /\
    bytes_branch bytes (position_ lbl - Position (asm_ m)) cond vals scratch.
Proof.
  intros Hw Hk HI (Hb & He & Ho) H1' H2' Hd Hvals Hv.
  destruct (Hw (buffer_ (asm_ m))) as [(b1 & E & Hb1) Hl]. rewrite at_buffer_same in E.
  destruct (block_length b1 l Hb1) as [Hlen Hmax].
  assert (Position (asm_ (append m b1)) = Position (asm_ m) + Z.of_nat (length b1)) as Epos.
  { unfold Position, Size. cbn. rewrite length_app. lia. }
  destruct (branch_bound op rs1 rs2 lbl kFarJump (asm_ (append m b1))) as (b2 & E2 & Hb2); [done..| |by left|].
  { apply near_reach; rewrite Epos; [|lia].
    rewrite Z.sub_add_distr, Zminus_mod, He, Hlen. done. }
  exists (b1 ++ b2). split.
  - unfold andthen. rewrite E. cbn [rbind]. unfold emit_branch. rewrite E2. cbn [rbind fst snd].
    unfold append. cbn. by rewrite app_assoc.
  - eapply bytes_branch_app; [done..| |done|done|done].
    by rewrite Epos, Z.sub_add_distr in Hb2.
Qed.

(** Code that never branches. *)
Lemma bytes_no_branch bytes l offset cond vals scratch :
  block bytes l -> Forall is_write l -> map dest l ⊆ scratch ++ map fst vals ->
  (forall s, sim_ok s -> cond (get_xreg s) = false /\
     Forall (fun rv => get_xreg (after l s) rv.1 = ux (rv.2 (get_xreg s))) vals) ->
  bytes_branch bytes offset cond vals scratch.
Proof.
  intros Hb Hl Hd Hv s Hrun.
  pose proof (block_runs bytes l Hb s Hrun (spares_writes l _ _ Hl s)) as Hx. unfold executes in Hx.
  rewrite run_writes, (after_regs l s Hl) in Hx by done. destruct Hrun as [Hok Hev Hend Hc].
  destruct (Hv s Hok) as [Hc0 Hvs]. eexists _, _. split; [exact Hx|]. rewrite Hc0. split_and!; [done..| |].
  - rewrite (after_regs l s Hl) in Hvs. exact Hvs.
  - intros r Hr Hn. change (get_xreg (set_xregs s (xregs_ (after l s))) r = get_xreg s r).
    rewrite <- (after_regs l s Hl). apply after_other; [done..|set_solver].
Qed.

(** ** BranchIf *)

(** The branch instruction of a condition. *)
Definition condition_bop (c : Condition) (left right : Z) : bop * Z * Z :=
  match c with
  | EQ => (BEQ, left, right)
  | NE => (BNE, left, right)
  | LT => (BLT, left, right)
  | LE => (BGE, right, left)
  | GE => (BGE, left, right)
  | GT => (BLT, right, left)
  | CC => (BLTU, left, right)
  | LS => (BGEU, right, left)
  | CS => (BGEU, left, right)
  | _ => (BLTU, right, left)
  end.

Lemma compare_branch_bop c left right lbl d op x y :
  relational c = true -> condition_bop c left right = (op, x, y) ->
  compare_branch c left right lbl d = bop_asm op x y lbl d /\
  (forall R, bop_sem op (R x) (R y) = condition_sem c (R left) (R right)) /\
  (inU 5 left -> inU 5 right -> inU 5 x /\ inU 5 y).
Proof.
  destruct c; intros Hc E; try done; cbn in E; injection E as <- <- <-; split_and!; done.
Qed.

Lemma branch_consume (body : branching T) m lbl left reg imm c offset cond :
  (exists bytes, body (set_deferred m c left reg imm) = Ok (lbl, append (set_deferred m c left reg imm) bytes) /\
     bytes_branch bytes offset cond [] [TMP2]) ->
  exists bytes m',
    (let* r := body (set_deferred m c left reg imm) in Ok (fst r, consume (snd r))) = Ok (lbl, m') /\
    consumed (append m bytes) m' /\ bytes_branch bytes offset cond [] [TMP2].
Proof.
  intros (bytes & E & Hb). exists bytes. rewrite E. cbn [rbind fst snd]. eexists. split; [done|].
  split; [|done]. by eexists _, _, _.
Qed.

(** A prefix that leaves the second operand in [TMP2], or nothing. *)
Lemma compare_prefix c m l cond left right lbl p :
  writes c m l -> (length l <= 12)%nat -> Supports (asm_ m) RV_I = true -> label_near lbl (asm_ m) ->
  map dest l ⊆ [TMP2] -> inU 5 left -> inU 5 right -> relational cond = true ->
  (forall s, sim_ok s -> condition_sem cond (get_xreg (after l s) left) (get_xreg (after l s) right) = p (get_xreg s)) ->
  exists bytes, (c >> emit_branch (compare_branch cond left right lbl kFarJump)) m = Ok (lbl, append m bytes) /\
    bytes_branch bytes (position_ lbl - Position (asm_ m)) p [] [TMP2].
Proof.
  intros Hw Hk HI Hl Hd Hle Hr Hc Hp.
  destruct (condition_bop cond left right) as [[op x] y] eqn:E.
  destruct (compare_branch_bop cond left right lbl kFarJump op x y Hc E) as (-> & Hsem & Hxy).
  destruct (Hxy Hle Hr). eapply prefix_branch; try done. intros s Hok. split; [|done].
  rewrite (Hsem (get_xreg (after l s))). by apply Hp.
Qed.

(** ... or the result of a test. *)
Lemma test_prefix c m v cond lbl p :
  yields c m TMP2 v [TMP2] 12 -> Supports (asm_ m) RV_I = true -> label_near lbl (asm_ m) -> equality cond = true ->
  (forall s, sim_ok s -> condition_sem cond (ux (v (get_xreg s))) 0 = p (get_xreg s)) ->
  exists bytes, (c >> emit_branch (test_branch cond lbl kFarJump)) m = Ok (lbl, append m bytes) /\
    bytes_branch bytes (position_ lbl - Position (asm_ m)) p [] [TMP2].
Proof.
  intros (l & Hw & Hk & Hd & Hv) HS Hl Hc Hp.
  assert (test_branch cond lbl kFarJump = compare_branch cond TMP2 Reg.ZR lbl kFarJump) as -> by by destruct cond.
  apply (compare_prefix c m l); try done; [set_solver|by destruct cond|]. intros s Hok.
  rewrite get_xreg_zero by (apply after_ok; [by eapply writes_ok|done]). rewrite Hv by done. by apply Hp.
Qed.

Lemma ux_0 : ux 0 = 0.
Proof. apply (ux_b2z false). Qed.

Hypothesis Hword : XLEN <= kBitsPerWord.

(** C29. [BranchIf] after a comparison: for every kind of comparison and every
    condition it admits, the code of the comparison and of [BranchIf] to a
    near bound label goes to the label exactly when the condition holds and
    falls through otherwise, changes at most [TMP2] and FAR_TMP, and consumes
    the comparison. *)
Theorem BranchIf_spec cmp cond lbl m :
  Supports (asm_ m) RV_I = true -> constant_pool_allowed_ m = false -> deferred_compare_ m = kNone ->
  label_near lbl (asm_ m) -> comparable cmp cond ->
  exists bytes m', (compare_code cmp >> BranchIf cond lbl kFarJump) m = Ok (lbl, m') /\
    consumed (append m bytes) m' /\
    bytes_branch bytes (position_ lbl - Position (asm_ m)) (comparison_sem cmp cond) [] [TMP2].
Proof.
  intros HS Hpool Hnone Hlbl Hcmp. unfold andthen.
  destruct cmp as [rn rm|rn imm|rn rm|rn imm]; cbn [compare_code];
    unfold CompareRegisters, CompareImmediate, TestRegisters, TestImmediate; rewrite defer_then by done;
    unfold BranchIf; cbn [set_deferred deferred_compare_ deferred_left_ deferred_reg_ deferred_imm_];
    rewrite ASSERT_true by done; cbn [rbind].
  - destruct Hcmp as (Hn & Hm & Hrel). set (m1 := set_deferred m kCompareReg rn rm (deferred_imm_ m)).
    apply (branch_consume (emit_branch (compare_branch cond rn rm lbl kFarJump)) m lbl rn rm (deferred_imm_ m) kCompareReg).
    apply (compare_prefix skip m1 [] cond rn rm lbl); try done; [apply writes_skip|cbn; lia|set_solver].
  - destruct Hcmp as (Hn & Hn2 & [Hi Hmax] & Hrel). set (m1 := set_deferred m kCompareImm rn (deferred_reg_ m) imm).
    destruct (Z.eqb_spec imm 0) as [E0|Hn0].
    + apply (branch_consume (emit_branch (compare_branch cond rn Reg.ZR lbl kFarJump)) m lbl rn (deferred_reg_ m) imm kCompareImm).
      apply (compare_prefix skip m1 [] cond rn Reg.ZR lbl); try done; [apply writes_skip|cbn; lia|set_solver|]. intros s Hok.
      cbn [after foldl comparison_sem]. by rewrite get_xreg_zero, E0, ux_0 by done.
    + apply (branch_consume (LoadImmediate TMP2 imm >> emit_branch (compare_branch cond rn TMP2 lbl kFarJump))
               m lbl rn (deferred_reg_ m) imm kCompareImm).
      destruct (LoadImmediate_loads Hword m1 HS TMP2 ltac:(done) ltac:(done) imm Hpool Hi Hmax) as (l & Hw & Hk & Hl & Hv).
      apply (compare_prefix _ m1 l cond rn TMP2 lbl); try done; [lia|by apply load_dests|]. intros s Hok.
      by rewrite Hv, (after_others l TMP2) by done.
  - destruct Hcmp as (Hn & Hm & Heq). set (m1 := set_deferred m kTestReg rn rm (deferred_imm_ m)).
    apply (branch_consume (emit (MicroAssembler.and_ TMP2 rn rm) >> emit_branch (test_branch cond lbl kFarJump))
             m lbl rn rm (deferred_imm_ m) kTestReg).
    apply (test_prefix _ m1 (fun R => Z.land (R rn) (R rm))); try done.
    2: { intros s Hok. cbv beta. cbn [comparison_sem].
         by rewrite ux_land, (ux_small (get_xreg s rn)), (ux_small (get_xreg s rm)) by by apply get_xreg_ok. }
    eapply (yields_one _ m1 TMP2 _ _ [TMP2] 11); [done..|by apply (writes_rop m1 AND TMP2 rn rm)|done].
  - destruct Hcmp as (Hn & Hnz & Hn2 & [Hi Hmax] & Heq). set (m1 := set_deferred m kTestImm rn (deferred_reg_ m) imm).
    apply (branch_consume (AndImmediate TMP2 rn imm >> emit_branch (test_branch cond lbl kFarJump))
             m lbl rn (deferred_reg_ m) imm kTestImm).
    apply (test_prefix _ m1 (fun R => Z.land (R rn) imm)); try done.
    + apply (yields_more _ _ _ _ _ 9); [lia|].
      by apply (AndImmediate_yields Hword m1).
    + intros s Hok. cbv beta. cbn [comparison_sem].
      by rewrite ux_land, (ux_small (get_xreg s rn)) by by apply get_xreg_ok.
Qed.

End MacroBranch.
