(* ===== verification/MacroOverflow.v ===== *)
(** * MacroOverflow: arithmetic that branches on overflow

    [AddBranchOverflow], [SubtractBranchOverflow], [MultiplyBranchOverflow] and
    the forms with an immediate: the destination receives the wrapped result
    and the branch is taken exactly when it is not the exact one. *)

From stdpp Require Import base numbers list gmap.
From Stdlib Require Import Lia.
From S2P Require Import Prelude Constants Encoding CEncoding AsmBuffer MicroAsm AsmBranch SimState.
From S2P Require Import SimInt SimAtomic SimFloat SimCompressed Simulator Isa IntSpec BitSpec.
From S2P Require Import AsmExec AsmFormats RefineOp RefineImm RefineMem Refinement.
From S2P Require Import SimInv AsmSites RefineBranch RefineLabel SimMemSpec AsmSeq ObjectPool Assembler.
From S2P Require Import MacroSeq MacroImm MacroArith MacroCompare MacroBranch.

#[local] Open Scope Z_scope.
#[local] Open Scope res_scope.
#[local] Open Scope code_scope.

Lemma andthen_assoc {A B} (f g : A -> Res A) (h : A -> Res B) x : (f >> g >> h) x = ((f >> g) >> h) x.
Proof. unfold andthen. by destruct (f x). Qed.

Section Overflow.
Context `{Target}.

(** ** Signed results *)

(** The value does not fit a register. *)
Definition overflows (z : Z) : bool := negb (sx z =? z).

Lemma sx_cases z :
  - 2 ^ XLEN <= z < 2 ^ XLEN ->
  z < - 2 ^ (XLEN - 1) /\ sx z = z + 2 ^ XLEN \/
  - 2 ^ (XLEN - 1) <= z < 2 ^ (XLEN - 1) /\ sx z = z \/
  2 ^ (XLEN - 1) <= z /\ sx z = z - 2 ^ XLEN.
Proof.
  intros Hz. assert (2 ^ XLEN = 2 * 2 ^ (XLEN - 1)) as E.
  { rewrite <- Z.pow_succ_r by (pose proof XLEN_pos; lia). f_equal. lia. }
  unfold sx, wrapS. rewrite E in *. set (h := 2 ^ (XLEN - 1)) in *.
  destruct (Z.lt_ge_cases z (- h)) as [|]; [left|destruct (Z.lt_ge_cases z h); right; [left|right]].
  - split; [done|]. rewrite <- (Z.mod_add _ 1) by lia. rewrite Z.mod_small; lia.
  - split; [done|]. rewrite Z.mod_small; lia.
  - split; [done|]. rewrite <- (Z.mod_add _ (-1)) by lia. rewrite Z.mod_small; lia.
Qed.

(** The sign is the top bit. *)
Lemma sx_negative v : (sx v <? 0) = Z.testbit v (XLEN - 1).
Proof.
  pose proof XLEN_pos as HX. assert (Z.testbit v (XLEN - 1) = Z.testbit (sx v) (XLEN - 1)) as ->.
  { unfold sx. rewrite testbit_wrapS by lia. f_equal. lia. }
  pose proof (sx_range v) as [Hlo Hhi]. assert (0 < 2 ^ (XLEN - 1)) by (apply pow2_pos; lia).
  rewrite Z.testbit_odd, Z.shiftr_div_pow2 by lia.
  destruct (Z.ltb_spec (sx v) 0).
  - by replace (sx v / 2 ^ (XLEN - 1)) with (-1) by (apply (Z.div_unique _ _ _ (sx v + 2 ^ (XLEN - 1))); lia).
  - by rewrite Z.div_small by lia.
Qed.

(** ** Addition and subtraction *)

Lemma ux_sx_add x y : ux (sx x + sx y) = ux (x + y).
Proof. by rewrite <- ux_add_l, <- ux_add_r, !ux_sx, ux_add_l, ux_add_r. Qed.
Lemma sx_add x y : sx (x + y) = sx (sx x + sx y).
Proof. by rewrite <- sx_ux, <- ux_sx_add, sx_ux. Qed.
Lemma ux_sx_sub x y : ux (sx x - sx y) = ux (x - y).
Proof.
  pose proof (ux_sx x) as Ex. pose proof (ux_sx y) as Ey. unfold ux, wrapU in *.
  by rewrite Zminus_mod, Ex, Ey, <- Zminus_mod.
Qed.
Lemma sx_sub x y : sx (x - y) = sx (sx x - sx y).
Proof. by rewrite <- sx_ux, <- ux_sx_sub, sx_ux. Qed.
Lemma ux_sx_mul x y : ux (sx x * sx y) = ux (x * y).
Proof. by rewrite <- ux_mul_l, <- ux_mul_r, !ux_sx, ux_mul_l, ux_mul_r. Qed.

(** The sign of an exclusive or. *)
Lemma sx_xor x y : (sx (Z.lxor x y) <? 0) = xorb (sx x <? 0) (sx y <? 0).
Proof. by rewrite !sx_negative, Z.lxor_spec. Qed.

Lemma sx_0 : sx 0 = 0.
Proof. apply sx_small. unfold inS. destruct XLEN_cases as [-> | ->]; lia. Qed.

Section AddSub.
Context (a b : Z) (Ha : inS XLEN a) (Hb : inS XLEN b).

Lemma double_XLEN : 2 ^ XLEN = 2 * 2 ^ (XLEN - 1).
Proof. rewrite <- Z.pow_succ_r by (pose proof XLEN_pos; lia). f_equal. lia. Qed.

Ltac overflow_cases z :=
  unfold overflows; pose proof double_XLEN; unfold inS in *;
  let Hz := fresh in
  assert (- 2 ^ XLEN <= z < 2 ^ XLEN) as Hz by lia;
  destruct (sx_cases z Hz) as [[? ->]|[[? ->]|[? ->]]]; clear Hz;
  repeat match goal with |- context [?x <? ?y] => destruct (Z.ltb_spec x y) end;
  cbn [Z.b2z xorb];
  repeat match goal with |- context [?x =? ?y] => destruct (Z.eqb_spec x y) end; (lia || done).

(** The signed sum is below an operand exactly when the other is negative,
    unless it overflows. *)
Lemma add_overflow : negb (Z.b2z (b <? 0) =? Z.b2z (sx (a + b) <? a)) = overflows (a + b).
Proof. overflow_cases (a + b). Qed.

Lemma sub_overflow : negb (Z.b2z (b <? 0) =? Z.b2z (a <? sx (a - b))) = overflows (a - b).
Proof. overflow_cases (a - b). Qed.

(** Doubling overflows exactly when it changes the sign. *)
Lemma double_overflow : xorb (a <? 0) (sx (a + a) <? 0) = overflows (a + a).
Proof. clear Hb b. overflow_cases (a + a). Qed.

(** Adding a positive constant overflows exactly when the result is smaller. *)
Lemma add_positive_overflow : 0 < b -> (sx (a + b) <? a) = overflows (a + b).
Proof. intros. overflow_cases (a + b). Qed.
Lemma add_negative_overflow : b < 0 -> (a <? sx (a + b)) = overflows (a + b).
Proof. intros. overflow_cases (a + b). Qed.

Lemma ux_inj x y : inS XLEN x -> inS XLEN y -> (ux x =? ux y) = (x =? y).
Proof.
  intros Hx Hy. destruct (Z.eqb_spec x y) as [->|Hne]; [by apply Z.eqb_refl|]. apply Z.eqb_neq. intros E.
  apply Hne. by rewrite <- (sx_small x), <- (sx_small y), <- (sx_ux x), <- (sx_ux y), E by done.
Qed.

(** A product fits when its high half is the sign of its low half. *)
Lemma mul_overflow :
  negb (ux (a * b / 2 ^ XLEN) =? ux (sx (a * b) / 2 ^ (XLEN - 1))) = overflows (a * b).
Proof.
  pose proof double_XLEN as E2. assert (1 < 2 ^ (XLEN - 1)) as Hh by (apply Z.pow_gt_1; pose proof XLEN_pos; lia).
  set (h := 2 ^ (XLEN - 1)) in *. set (p := a * b) in *.
  assert (- (h * h) <= p <= h * h) as Hp by (unfold inS, p in *; fold h in Ha, Hb; nia).
  assert (0 < 2 ^ XLEN) as HW by lia. assert (2 ^ XLEN <> 0) as HW0 by lia.
  pose proof (Z.div_mod p _ HW0) as Ep. pose proof (Z.mod_pos_bound p _ HW) as Hlo. clear HW HW0.
  set (hi := p / 2 ^ XLEN) in *. rewrite E2 in Ep, Hlo.
  assert (- h <= hi < h) as Hhi by nia.
  assert (sx p = sx (p mod 2 ^ XLEN)) as Es by (symmetry; apply (sx_ux p)).
  rewrite E2 in Es. set (lo := p mod (2 * h)) in *.
  unfold overflows. rewrite Es.
  pose proof (sx_cases lo) as Hc. rewrite E2 in Hc. fold h in Hc.
  destruct (Hc ltac:(lia)) as [[? _]|[[Hs ->]|[Hs ->]]]; [lia|..]; clear Hc.
  - rewrite (Z.div_small lo h) by lia. rewrite ux_inj by (unfold inS; fold h; lia).
    destruct (Z.eqb_spec hi 0), (Z.eqb_spec lo p); try done; nia.
  - replace ((lo - 2 * h) / h) with (-1) by (apply (Z.div_unique _ _ _ (lo - h)); lia).
    rewrite ux_inj by (unfold inS; fold h; lia).
    destruct (Z.eqb_spec hi (-1)), (Z.eqb_spec (lo - 2 * h) p); try done; nia.
Qed.

End AddSub.

End Overflow.

(** ** The macros *)

(** An operation on [rs1] and its second operand. *)
Inductive overflow_op : Type :=
| AddOv (rs2 : Z) | SubOv (rs2 : Z) | MulOv (rs2 : Z) | AddImmOv (imm : Z) | MulImmOv (imm : Z).

Section MacroOverflow.
Context `{Target} `{HostNaN} `{Host} {T : Type} `{ops : !IndexTableOps T}.

#[local] Notation MacroAsm := (MacroAsm T).
#[local] Notation code := (code T).
Implicit Types m : MacroAsm.

Definition overflow_asm (op : overflow_op) (rd rs1 : Z) (lbl : Label) : branching T :=
  match op with
  | AddOv rs2 => AddBranchOverflow rd rs1 rs2 lbl
  | SubOv rs2 => SubtractBranchOverflow rd rs1 rs2 lbl
  | MulOv rs2 => MultiplyBranchOverflow rd rs1 rs2 lbl
  | AddImmOv imm => AddImmediateBranchOverflow rd rs1 imm lbl
  | MulImmOv imm => MultiplyImmediateBranchOverflow rd rs1 imm lbl
  end.

(** The exact result. *)
Definition overflow_sem (op : overflow_op) (rs1 : Z) (R : Z -> Z) : Z :=
  match op with
  | AddOv rs2 => sx (R rs1) + sx (R rs2)
  | SubOv rs2 => sx (R rs1) - sx (R rs2)
  | MulOv rs2 => sx (R rs1) * sx (R rs2)
  | AddImmOv imm => sx (R rs1) + imm
  | MulImmOv imm => sx (R rs1) * imm
  end.

(** An operand is a register other than the zero and the scratch registers. *)
Definition operand (r : Z) : Prop := inU 5 r /\ r <> Reg.ZR /\ r <> TMP /\ r <> TMP2.

(** The operands each macro handles: the subtraction needs three different
    registers, and the addition of a long constant two; the code accepts the
    others and is wrong for them. *)
Definition overflow_operands (op : overflow_op) (rd rs1 : Z) : Prop :=
  match op with
  | AddOv rs2 | MulOv rs2 => operand rs2
  | SubOv rs2 => operand rs2 /\ rd <> rs1 /\ rd <> rs2 /\ rs1 <> rs2
  | AddImmOv imm => constant_ok imm /\ (rd <> rs1 \/ IsITypeImm imm = true)
  | MulImmOv imm => constant_ok imm
  end.

Lemma check_operands_ok (k : branching T) l m :
  Forall operand l -> (check_operands l >> k) m = k m.
Proof.
  intros Hl. unfold andthen. assert (check_operands l m = Ok m) as ->; [|done].
  induction Hl as [|r l (_ & _ & H1' & H2') Hl IH]; [done|]. cbn [check_operands foldr].
  unfold andthen, check at 1 2, differ. rewrite (proj2 (Z.eqb_neq r TMP)), (proj2 (Z.eqb_neq r TMP2)) by done.
  rewrite !ASSERT_true by done. exact IH.
Qed.

Lemma check_then (b : bool) (k : branching T) m : b = true -> (check b >> k) m = k m.
Proof. intros Hb. unfold andthen, check. by rewrite ASSERT_true. Qed.

Section Macros.
Context (m : MacroAsm) (HS : Supports (asm_ m) RV_I = true).
Context (lbl : Label) (Hlbl : label_near lbl (asm_ m)).
Context (rd rs1 : Z) (Hd : operand rd) (Hfar : rd <> FAR_TMP) (Hs1 : operand rs1).

(** What a macro does: [z] is the exact result. *)
Definition branches_on_overflow (k : branching T) (z : (Z -> Z) -> Z) : Prop :=
  exists bytes, k m = Ok (lbl, append m bytes) /\
    bytes_branch bytes (position_ lbl - Position (asm_ m)) (fun R => overflows (z R)) [(rd, z)] [TMP; TMP2].

Lemma overflow_prefix (c : code) l op x y z :
  writes c m l -> (length l <= 12)%nat -> inU 5 x -> inU 5 y -> map dest l ⊆ [TMP; TMP2; rd] ->
  (forall s, sim_ok s ->
     bop_sem op (get_xreg (after l s) x) (get_xreg (after l s) y) = overflows (z (get_xreg s)) /\
     get_xreg (after l s) rd = ux (z (get_xreg s))) ->
  branches_on_overflow (c >> emit_branch (bop_asm op x y lbl kFarJump)) z.
Proof.
  intros Hw Hk Hx Hy Hdst Hv. eapply prefix_branch; [exact Hw|done..|by apply Forall_singleton; destruct Hd|].
  intros s Hok. destruct (Hv s Hok). split; [done|]. by apply Forall_singleton.
Qed.

Lemma imm0 : IsITypeImm 0 = true.
Proof. by apply IsITypeImm_small. Qed.

(** Two flags in [TMP] and [TMP2] that differ exactly on overflow. *)
Ltac flags_differ :=
  cbn [bop_sem rop_sem iop_sem overflow_sem]; rewrite ?ux_b2z, ?sx_ux, ?Z.add_0_r.

(** A sequence of one-register writes. *)
Ltac write_one :=
  lazymatch goal with
  | |- writes (emit (MicroAssembler.mv _ _)) _ _ => by apply (writes_iop _ HS ADDI)
  | |- writes (emit (MicroAssembler.slti _ _ _)) _ _ => by apply (writes_iop _ HS SLTI)
  | |- writes (emit (MicroAssembler.add _ _ _)) _ _ => by apply (writes_rop _ ADD)
  | |- writes (emit (MicroAssembler.sub _ _ _)) _ _ => by apply (writes_rop _ SUB)
  | |- writes (emit (MicroAssembler.slt _ _ _)) _ _ => by apply (writes_rop _ SLT)
  | |- writes (emit (MicroAssembler.xor_ _ _ _)) _ _ => by apply (writes_rop _ XOR)
  end.
Ltac write_all := repeat (apply writes_then; [|write_one]); write_one.

Lemma AddOv_branches rs2 :
  operand rs2 -> branches_on_overflow (AddBranchOverflow rd rs1 rs2 lbl) (overflow_sem (AddOv rs2) rs1).
Proof.
  intros Hs2. destruct Hd as (Hd5 & Hdz & Hdt & Hdt2), Hs1 as (H15 & H1z & H1t & H1t2).
  pose proof Hs2 as (H25 & H2z & H2t & H2t2). pose proof imm0 as Hi0.
  unfold branches_on_overflow, AddBranchOverflow.
  rewrite check_operands_ok by by rewrite !Forall_cons.
  destruct (Z.eqb_spec rd rs1) as [E1|N1]; cbn [andb].
  - rewrite <- E1. destruct (Z.eqb_spec rd rs2) as [<-|N2].
    + rewrite check_then by done. rewrite !andthen_assoc.
      eapply (overflow_prefix _ _ BLT TMP Reg.ZR); [write_all|cbn; lia|done..|set_solver|].
      intros s Hok. regs_after. flags_differ. split; [|by rewrite ux_sx_add].
      rewrite sx_0, sx_xor, !sx_ux, sx_add. apply double_overflow; apply sx_range.
    + rewrite check_then by (unfold differ; by rewrite (proj2 (Z.eqb_neq rd rs2))).
      rewrite !andthen_assoc.
      eapply (overflow_prefix _ _ BNE TMP TMP2); [write_all|cbn; lia|done..|set_solver|].
      intros s Hok. regs_after. flags_differ. split; [|by rewrite ux_sx_add].
      rewrite sx_add. rewrite (Z.add_comm (sx (get_xreg s rd))). apply add_overflow; apply sx_range.
  - destruct (Z.eqb_spec rs1 rs2) as [<-|N12].
    + unfold differ. rewrite !check_then by by rewrite (proj2 (Z.eqb_neq rd rs1)). rewrite !andthen_assoc.
      eapply (overflow_prefix _ _ BLT TMP Reg.ZR); [write_all|cbn; lia|done..|set_solver|].
      intros s Hok. regs_after. flags_differ. split; [|by rewrite ux_sx_add].
      rewrite sx_0, Z.lxor_comm, sx_xor, !sx_ux, sx_add. apply double_overflow; apply sx_range.
    + destruct (Z.eqb_spec rd rs2) as [<-|N2].
      * rewrite check_then by (unfold differ; by rewrite (proj2 (Z.eqb_neq rs1 rd))). rewrite !andthen_assoc.
        eapply (overflow_prefix _ _ BNE TMP TMP2); [write_all|cbn; lia|done..|set_solver|].
        intros s Hok. regs_after. flags_differ. split; [|by rewrite ux_sx_add].
        rewrite sx_add. apply add_overflow; apply sx_range.
      * rewrite !andthen_assoc.
        eapply (overflow_prefix _ _ BNE TMP TMP2); [write_all|cbn; lia|done..|set_solver|].
        intros s Hok. regs_after. flags_differ. split; [|by rewrite ux_sx_add].
        rewrite sx_add. apply add_overflow; apply sx_range.
Qed.

(** The general case of the subtraction, which is the only right one. *)
Lemma SubOv_branches rs2 :
  operand rs2 -> rd <> rs1 -> rd <> rs2 -> rs1 <> rs2 ->
  branches_on_overflow (SubtractBranchOverflow rd rs1 rs2 lbl) (overflow_sem (SubOv rs2) rs1).
Proof.
  intros Hs2 N1 N2 N12. destruct Hd as (Hd5 & Hdz & Hdt & Hdt2), Hs1 as (H15 & H1z & H1t & H1t2).
  pose proof Hs2 as (H25 & H2z & H2t & H2t2). pose proof imm0 as Hi0.
  unfold branches_on_overflow, SubtractBranchOverflow.
  rewrite check_operands_ok by by rewrite !Forall_cons.
  rewrite !(proj2 (Z.eqb_neq _ _)) by done. cbn [andb]. rewrite !andthen_assoc.
  eapply (overflow_prefix _ _ BNE TMP TMP2); [write_all|cbn; lia|done..|set_solver|].
  intros s Hok. regs_after. flags_differ. split; [|by rewrite ux_sx_sub].
  rewrite sx_sub. apply sub_overflow; apply sx_range.
Qed.

(** The subtraction when the destination is the first operand: the branch
    compares the result with the second operand, as the addition does. *)
Lemma SubOv_aliased rs2 :
  operand rs2 -> rd = rs1 -> rd <> rs2 ->
  exists bytes, SubtractBranchOverflow rd rs1 rs2 lbl m = Ok (lbl, append m bytes) /\
    bytes_branch bytes (position_ lbl - Position (asm_ m))
      (fun R => negb (Z.b2z (sx (R rd) <? 0) =? Z.b2z (sx (sx (R rd) - sx (R rs2)) <? sx (R rs2))))
      [(rd, fun R => R rd - R rs2)] [TMP; TMP2].
Proof.
  intros Hs2 E1 N2. destruct Hd as (Hd5 & Hdz & Hdt & Hdt2), Hs1 as (H15 & H1z & H1t & H1t2).
  pose proof Hs2 as (H25 & H2z & H2t & H2t2). pose proof imm0 as Hi0.
  unfold SubtractBranchOverflow. rewrite check_operands_ok by by rewrite !Forall_cons.
  rewrite <- E1, Z.eqb_refl, !(proj2 (Z.eqb_neq rd rs2)) by done. cbn [andb].
  rewrite check_then by (unfold differ; by rewrite (proj2 (Z.eqb_neq rd rs2))). rewrite !andthen_assoc.
  eapply (prefix_branch _ _ _ BNE TMP TMP2);
    [write_all|cbn; lia|done..|set_solver|by apply Forall_singleton|].
  intros s Hok. split; [regs_after; flags_differ; by rewrite sx_sub|].
  apply Forall_singleton. cbn [fst snd]. by regs_after.
Qed.

(** The multiplication by a register [y] that a prefix may have loaded. *)
Lemma multiply_branches c0 l0 y w :
  Supports (asm_ m) RV_M = true ->
  writes c0 m l0 -> (length l0 <= 8)%nat -> map dest l0 ⊆ [TMP2] -> inU 5 y -> y <> TMP ->
  (forall s, sim_ok s -> get_xreg (after l0 s) y = ux (w (get_xreg s)) /\ inS XLEN (w (get_xreg s))) ->
  branches_on_overflow (c0 >> multiply_and_branch rd rs1 y lbl) (fun R => sx (R rs1) * w R).
Proof.
  intros HM Hw Hk Hdst Hy Hyt Hv.
  destruct Hd as (Hd5 & Hdz & Hdt & Hdt2), Hs1 as (H15 & H1z & H1t & H1t2). pose proof XLEN_pos.
  unfold branches_on_overflow, multiply_and_branch. rewrite !andthen_assoc.
  eapply (overflow_prefix _ _ BNE TMP TMP2).
  - apply writes_then; [apply writes_then; [apply writes_then; [exact Hw|by apply (writes_rop m MULH TMP rs1 y)]
      |by apply (writes_rop m MUL rd rs1 y)]|apply (writes_sop m SRAI TMP2 rd (XLEN - 1)); (done || lia)].
  - rewrite !length_app. cbn. lia.
  - done.
  - done.
  - rewrite !map_app. clear -Hdst. set_solver.
  - intros s Hok. rewrite !after_app. pose proof (after_ok l0 (writes_ok _ _ _ Hw) s Hok) as Hok'.
    destruct (Hv s Hok) as [Ey Hin].
    assert (get_xreg (after l0 s) rs1 = get_xreg s rs1) as E1.
    { apply after_other; [by eapply writes_ok|done|set_solver]. }
    revert Ey E1 Hok'. generalize (after l0 s) as t0. intros t0 Ey E1 Hok'. regs_after.
    cbn [bop_sem rop_sem sop_sem]. rewrite E1, Ey, !sx_ux.
    rewrite (sx_small (w (get_xreg s))) by done. rewrite <- (ux_sx_mul _ (ux (w (get_xreg s)))), sx_ux.
    rewrite (sx_small (w (get_xreg s))) by done. split; [|done].
    rewrite <- mul_overflow by (apply sx_range || done).
    f_equal. f_equal. f_equal. f_equal.
    rewrite <- (sx_ux (get_xreg s rs1 * _)), <- ux_sx_mul, !sx_ux. by rewrite (sx_small (w (get_xreg s))).
Qed.

Lemma MulOv_branches rs2 :
  Supports (asm_ m) RV_M = true -> operand rs2 ->
  branches_on_overflow (MultiplyBranchOverflow rd rs1 rs2 lbl) (overflow_sem (MulOv rs2) rs1).
Proof.
  intros HM Hs2. unfold branches_on_overflow, MultiplyBranchOverflow.
  rewrite check_operands_ok by by rewrite !Forall_cons. destruct Hs2 as (H25 & H2z & H2t & H2t2).
  apply (multiply_branches skip [] rs2 (fun R => sx (R rs2))); try done; [apply writes_skip|cbn; lia|set_solver|].
  intros s Hok. split; [|apply sx_range]. cbn. rewrite ux_sx. symmetry. by apply ux_small, get_xreg_ok.
Qed.

Hypothesis Hword : XLEN <= kBitsPerWord.
Hypothesis Hpool : constant_pool_allowed_ m = false.

Lemma MulImmOv_branches imm :
  Supports (asm_ m) RV_M = true -> constant_ok imm ->
  branches_on_overflow (MultiplyImmediateBranchOverflow rd rs1 imm lbl) (overflow_sem (MulImmOv imm) rs1).
Proof.
  intros HM [Hi Hmax]. unfold branches_on_overflow, MultiplyImmediateBranchOverflow.
  rewrite check_operands_ok by by rewrite !Forall_cons.
  destruct (LoadImmediate_loads Hword m HS TMP2 ltac:(done) ltac:(done) imm Hpool Hi Hmax) as (l & Hw & Hk & Hl & Hv).
  apply (multiply_branches _ l TMP2 (fun _ => imm)); try done; [by apply load_dests|].
  intros s Hok. split; [by apply Hv|done].
Qed.

(** The branch after the addition of a constant, or none for 0. *)
Lemma AddImm_tail c l reg imm :
  writes c m l -> (length l <= 12)%nat -> inU 5 reg -> map dest l ⊆ [TMP; TMP2; rd] -> inS XLEN imm ->
  (forall s, sim_ok s -> get_xreg (after l s) rd = ux (get_xreg s rs1 + imm)) ->
  (forall s, sim_ok s -> imm <> 0 -> get_xreg (after l s) reg = get_xreg s rs1) ->
  branches_on_overflow
    (c >> (if 0 <? imm then emit_branch (blt rd reg lbl kFarJump)
           else if imm <? 0 then emit_branch (bgt rd reg lbl kFarJump) else no_branch lbl))
    (overflow_sem (AddImmOv imm) rs1).
Proof.
  intros Hw Hk Hr Hdst Hi Hv Hreg. destruct Hd as (Hd5 & _).
  assert (forall s, ux (get_xreg s rs1 + imm) = ux (sx (get_xreg s rs1) + imm)) as Eux.
  { intros s. by rewrite <- (ux_add_l (sx _)), ux_sx, ux_add_l. }
  assert (forall s, sx (ux (get_xreg s rs1 + imm)) = sx (sx (get_xreg s rs1) + imm)) as Esx.
  { intros s. by rewrite Eux, sx_ux. }
  destruct (Z.ltb_spec 0 imm) as [Hpos|Hnp]; [|destruct (Z.ltb_spec imm 0) as [Hneg|Hz]].
  - eapply (overflow_prefix c l BLT rd reg); [done..|]. intros s Hok.
    rewrite Hv, Hreg by (done || lia). cbn [bop_sem overflow_sem]. rewrite Esx. split; [|done].
    apply add_positive_overflow; [apply sx_range|done..].
  - eapply (overflow_prefix c l BLT reg rd); [done..|]. intros s Hok.
    rewrite Hv, Hreg by (done || lia). cbn [bop_sem overflow_sem]. rewrite Esx. split; [|done].
    apply add_negative_overflow; [apply sx_range|done..].
  - assert (imm = 0) as -> by lia. destruct (Hw (buffer_ (asm_ m))) as [(bytes & E & Hb) Hl].
    rewrite at_buffer_same in E. exists bytes. split; [unfold andthen; by rewrite E|].
    eapply bytes_no_branch; [done..|]. intros s Hok. split.
    + cbn. rewrite Z.add_0_r. unfold overflows. by rewrite (sx_small (sx _)), Z.eqb_refl by apply sx_range.
    + apply Forall_singleton. cbn. by rewrite Hv, <- Eux.
Qed.

Lemma AddImmOv_branches imm :
  constant_ok imm -> (rd <> rs1 \/ IsITypeImm imm = true) ->
  branches_on_overflow (AddImmediateBranchOverflow rd rs1 imm lbl) (overflow_sem (AddImmOv imm) rs1).
Proof.
  intros [Hi Hmax] Halias. destruct Hd as (Hd5 & Hdz & Hdt & Hdt2), Hs1 as (H15 & H1z & H1t & H1t2).
  unfold branches_on_overflow, AddImmediateBranchOverflow.
  rewrite check_then by (unfold differ; by rewrite (proj2 (Z.eqb_neq rd TMP2))).
  destruct (Z.eqb_spec rd rs1) as [E1|N1].
  - destruct Halias as [|Hit]; [done|]. rewrite andthen_assoc.
    pose proof (writes_iop m HS ADDI TMP2 rs1 0 ltac:(done) H15 imm0) as Hmv.
    unfold AddImmediate. rewrite (proj2 (Z.eqb_eq rd rs1) E1), Hit, andb_true_r.
    destruct (Z.eqb_spec imm 0) as [E0|N0].
    + eapply (AddImm_tail _ _ TMP2 imm); [apply writes_then; [exact Hmv|apply writes_skip]|cbn; lia|done|set_solver|done|..].
      * intros s Hok. regs_after. rewrite E1, E0, Z.add_0_r. symmetry. by apply ux_small, get_xreg_ok.
      * done.
    + eapply (AddImm_tail _ _ TMP2 imm);
        [apply writes_then; [exact Hmv|by apply (writes_iop m HS ADDI rd rs1 imm)]|cbn; lia|done|set_solver|done|..].
      * intros s Hok. regs_after. done.
      * intros s Hok _. regs_after. cbn. rewrite Z.add_0_r. by apply ux_small, get_xreg_ok.
  - destruct (AddImmediate_yields Hword m HS Hpool rd rs1 Hd5 Hdz H15 H1z H1t2 imm Hi Hmax) as (l & Hw & Hk & Hdst & Hv).
    apply (AddImm_tail _ l); try done; [lia|clear -Hdst; set_solver|]. intros s Hok _.
    apply after_other; [by eapply writes_ok|done|set_solver].
Qed.

(** Adding a long constant in place: [AddImmediate] loads it into TMP2, over the
    copy of the operand, and the sum is compared with the constant. *)
Lemma AddImmOv_in_place imm :
  rd = rs1 -> constant_ok imm -> IsITypeImm imm = false ->
  exists bytes, AddImmediateBranchOverflow rd rs1 imm lbl m = Ok (lbl, append m bytes) /\
    bytes_branch bytes (position_ lbl - Position (asm_ m))
      (fun R => if 0 <? imm then sx (R rs1 + imm) <? imm else imm <? sx (R rs1 + imm))
      [(rd, overflow_sem (AddImmOv imm) rs1)] [TMP; TMP2].
Proof.
  intros E1 [Hi Hmax] Hit. destruct Hd as (Hd5 & Hdz & Hdt & Hdt2), Hs1 as (H15 & H1z & H1t & H1t2).
  assert (imm <> 0) as Hne by (intros ->; by rewrite imm0 in Hit).
  assert (differ rs1 TMP2 = true) as Hdf by (unfold differ; by rewrite (proj2 (Z.eqb_neq rs1 TMP2))).
  unfold AddImmediateBranchOverflow, AddImmediate. rewrite check_then by (by rewrite E1).
  rewrite (proj2 (Z.eqb_eq rd rs1) E1), Hit, (proj2 (Z.eqb_neq imm 0)) by done. cbn [andb]. rewrite andthen_assoc.
  destruct (LoadImmediate_loads Hword m HS TMP2 ltac:(done) ltac:(done) imm Hpool Hi Hmax) as (l & Hw & Hk & Hl & Hv).
  assert (writes (emit (MicroAssembler.add rd rs1 TMP2)) m [EWrite rd (fun R => rop_sem ADD (R rs1) (R TMP2))]) as Hadd
    by by apply (writes_rop m ADD).
  pose proof (writes_then _ _ m _ _ (writes_iop m HS ADDI TMP2 rs1 0 ltac:(done) H15 imm0)
    (writes_check _ _ m _ Hdf (writes_then _ _ m _ _ Hw Hadd))) as Hall.
  match type of Hall with writes _ _ ?l' => set (all := l') in * end.
  assert (forall s, sim_ok s -> get_xreg (after all s) rd = ux (get_xreg s rs1 + imm) /\ get_xreg (after all s) TMP2 = ux imm) as Hregs.
  { intros s Hok. unfold all. rewrite !after_app. set (s1 := after [_] s).
    assert (sim_ok s1) as Hok1 by (apply after_ok; [repeat constructor; done|done]).
    assert (get_xreg s1 rs1 = get_xreg s rs1) as Er by (unfold s1; by regs_after).
    pose proof (Hv s1 Hok1) as Ev. pose proof (after_others l TMP2 rs1 s1 ltac:(done) H15 H1t2 Hl) as Eo.
    pose proof (after_ok l (writes_ok _ _ _ Hw) s1 Hok1) as Hok2. revert Ev Eo Hok2. generalize (after l s1) as s2. intros.
    regs_after. cbn [rop_sem]. by rewrite Ev, Eo, Er, ux_add_r. }
  assert (length all <= 12)%nat as Hlen by (unfold all; rewrite !length_app; cbn; lia).
  assert (map dest all ⊆ [TMP; TMP2; rd]) as Hdst.
  { unfold all. rewrite !map_app. apply load_dests in Hl. cbn. clear -Hl. set_solver. }
  assert (forall s, sim_ok s -> Forall (fun rv => get_xreg (after all s) rv.1 = ux (rv.2 (get_xreg s))) [(rd, overflow_sem (AddImmOv imm) rs1)]) as Hval.
  { intros s Hok. apply Forall_singleton. cbn [fst snd overflow_sem]. destruct (Hregs s Hok) as [-> _].
    by rewrite <- (ux_add_l (sx _)), ux_sx, ux_add_l. }
  destruct (Z.ltb_spec 0 imm).
  - eapply (prefix_branch _ _ all BLT rd TMP2); [exact Hall|done..|by apply Forall_singleton|].
    intros s Hok. split; [|by apply Hval]. destruct (Hregs s Hok) as [-> ->]. cbn. by rewrite !sx_ux, (sx_small imm).
  - rewrite (proj2 (Z.ltb_lt imm 0)) by lia. eapply (prefix_branch _ _ all BLT TMP2 rd); [exact Hall|done..|by apply Forall_singleton|].
    intros s Hok. split; [|by apply Hval]. destruct (Hregs s Hok) as [-> ->]. cbn. by rewrite !sx_ux, (sx_small imm).
Qed.

End Macros.

(** C40. [SubtractBranchOverflow] with the destination as first operand goes
    wrong: for 5 - 3 it is defined, emits code, and that code branches to the
    overflow label although the difference fits. *)
Theorem SubtractBranchOverflow_aliased rd rs2 lbl m :
  Supports (asm_ m) RV_I = true -> label_near lbl (asm_ m) -> operand rd -> rd <> FAR_TMP -> operand rs2 -> rd <> rs2 ->
  exists bytes, SubtractBranchOverflow rd rd rs2 lbl m = Ok (lbl, append m bytes) /\
    forall s, runnable bytes s -> get_xreg s rd = 5 -> get_xreg s rs2 = 3 ->
      overflows (overflow_sem (SubOv rs2) rd (get_xreg s)) = false /\
      exists n t, steps s n t /\ pc_ t = ux (pc_ s + (position_ lbl - Position (asm_ m))).
Proof.
  intros HS Hl Hd Hf H2' Hne.
  destruct (SubOv_aliased m HS lbl Hl rd rd Hd Hf Hd rs2 H2' eq_refl Hne) as (bytes & E & Hb).
  exists bytes. split; [done|]. intros s Hrun E5 E3.
  assert (forall v, -100 <= v <= 100 -> sx v = v) as Hsm.
  { intros v Hv. apply sx_small. unfold inS. destruct XLEN_cases as [-> | ->]; lia. }
  split; [cbn; rewrite E5, E3; unfold overflows; by rewrite (Hsm 5), (Hsm 3), (Hsm (5 - 3)) by lia|].
  destruct (Hb s Hrun) as (n & t & Hs & _ & _ & Hpc & _). exists n, t. split; [done|].
  rewrite Hpc, E5, E3. by rewrite (Hsm 5), (Hsm 3), (Hsm (5 - 3)) by lia.
Qed.

Hypothesis Hword : XLEN <= kBitsPerWord.

(** [AddImmediateBranchOverflow] of a constant too long for an instruction, with
    the destination as operand, goes wrong: for -5 + 10000 it emits code that
    branches to the overflow label although the sum fits. *)
Theorem AddImmediateBranchOverflow_in_place rd lbl m :
  Supports (asm_ m) RV_I = true -> constant_pool_allowed_ m = false -> label_near lbl (asm_ m) -> operand rd -> rd <> FAR_TMP ->
  exists bytes, AddImmediateBranchOverflow rd rd 10000 lbl m = Ok (lbl, append m bytes) /\
    forall s, runnable bytes s -> sx (get_xreg s rd) = -5 ->
      overflows (overflow_sem (AddImmOv 10000) rd (get_xreg s)) = false /\
      exists n t, steps s n t /\ pc_ t = ux (pc_ s + (position_ lbl - Position (asm_ m))).
Proof.
  intros HS Hpool Hl Hd Hf.
  assert (inS XLEN 10000 /\ inS XLEN 9995) as [Hi Hi5] by (unfold inS; destruct XLEN_cases as [-> | ->]; lia).
  destruct (AddImmOv_in_place m HS lbl Hl rd rd Hd Hf Hd Hword Hpool 10000) as (bytes & E & Hb);
    [done|done|apply not_true_is_false; rewrite IsITypeImm_spec; unfold inS; lia|].
  exists bytes. split; [done|]. intros s Hrun E5. split.
  { cbn. rewrite E5. unfold overflows. by rewrite (sx_small (-5 + 10000)). }
  destruct (Hb s Hrun) as (n & t & Hs & _ & _ & Hpc & _). exists n, t. split; [done|].
  rewrite Hpc. rewrite sx_add, E5, (sx_small 10000), (sx_small (-5 + 10000)) by done. done.
Qed.

(** C30. Arithmetic that branches on overflow: addition, subtraction and
    multiplication of registers, addition of and multiplication by a constant.
    The destination receives the result modulo the register width, and the
    code goes to the (near, bound) label exactly when the exact signed result
    does not fit a register.  overflow_operands leaves out the cases the code
    gets wrong: a subtraction in which two of the three registers are the same,
    and the addition of a constant that does not fit an addi when the destination
    is the operand (AddImmediateBranchOverflow_in_place: -5 + 10000 in place
    branches to the overflow label).
    Operands are not the zero or the scratch registers, and constants are loaded
    without the pool (those below 2^63 - 2048). *)
Theorem overflow_spec op rd rs1 lbl m :
  Supports (asm_ m) RV_I = true -> Supports (asm_ m) RV_M = true -> constant_pool_allowed_ m = false ->
  label_near lbl (asm_ m) -> operand rd -> rd <> FAR_TMP -> operand rs1 -> overflow_operands op rd rs1 ->
  exists bytes, overflow_asm op rd rs1 lbl m = Ok (lbl, append m bytes) /\
    bytes_branch bytes (position_ lbl - Position (asm_ m)) (fun R => overflows (overflow_sem op rs1 R))
      [(rd, overflow_sem op rs1)] [TMP; TMP2].
Proof.
  intros HS HM Hpool Hl Hd Hf H1' Ho. destruct op; cbn [overflow_operands overflow_asm] in *.
  - by apply AddOv_branches.
  - destruct Ho as (? & ? & ? & ?). by apply SubOv_branches.
  - by apply MulOv_branches.
  - destruct Ho as (? & ?). by apply AddImmOv_branches.
  - by apply MulImmOv_branches.
Qed.

End MacroOverflow.
