(* ===== verification/MacroStack.v ===== *)
(** * MacroStack: saving and restoring registers on the stack

    A saved register is a slot at an offset from SP.  [run_saves] and
    [run_loads] say what the stores and loads of a list of slots do; the
    macros emit them in opposite orders around an adjustment of SP. *)

From stdpp Require Import base numbers list gmap.
From Stdlib Require Import Lia.
From S2P Require Import Prelude Constants Encoding CEncoding AsmBuffer MicroAsm AsmBranch SimState.
From S2P Require Import SimInt SimAtomic SimFloat SimCompressed Simulator Isa IntSpec BitSpec.
From S2P Require Import AsmExec AsmFormats RefineOp RefineImm RefineMem Refinement.
From S2P Require Import SimInv AsmSites RefineBranch RefineLabel SimMemSpec AsmSeq ObjectPool Assembler.
From S2P Require Import MacroSeq.

#[local] Open Scope Z_scope.
#[local] Open Scope res_scope.
#[local] Open Scope code_scope.

(** ** Slots *)

Inductive saved : Set := SlotX (r : Z) | SlotF (r : Z).

#[export] Instance saved_eq_dec : EqDecision saved.
Proof. solve_decision. Defined.

(** All the addresses from [lo], [n] of them, are memory. *)
Definition mapped (m : memory) (lo n : Z) : Prop := forall x, lo <= x < lo + n -> is_Some (m !! x).

Lemma store_bytes_total n : forall m addr v,
  mapped m addr (Z.of_nat n) -> exists m', store_bytes m addr n v = Ok m'.
Proof.
  induction n as [|n IH]; intros m addr v Hm; cbn [store_bytes]; [by eexists|].
  destruct (Hm addr ltac:(lia)) as [b ->]. apply IH. intros x Hx.
  rewrite lookup_insert_ne by lia. apply Hm. lia.
Qed.

Section Slots.
Context `{Target}.

Definition wload : lop := if XLEN =? 32 then LW else LD.
Definition wstore : stop := if XLEN =? 32 then SW else SD.

Definition slot_size (k : saved) : Z := match k with SlotX _ => kWordSize | SlotF _ => kFpuRegisterSize end.
Definition slot_ok (k : saved) : Prop := match k with SlotX r | SlotF r => inU 5 r end.

Definition save_effect (sl : saved * Z) : effect :=
  match sl.1 with
  | SlotX r => EStore wstore r (mkAddress Reg.SP sl.2)
  | SlotF r => EFstore double_t r (mkAddress Reg.SP sl.2)
  end.
Definition load_effect (sl : saved * Z) : effect :=
  match sl.1 with
  | SlotX r => ELoad wload r (mkAddress Reg.SP sl.2)
  | SlotF r => EFload double_t r (mkAddress Reg.SP sl.2)
  end.

Definition slot_value (s : Sim) (k : saved) : Z :=
  match k with SlotX r => get_xreg s r | SlotF r => get_fregd s r end.

(** Memory holds the value [v] of a register at [addr]. *)
Definition slot_holds (m : memory) (addr : Z) (k : saved) (v : Z) : Prop :=
  match k with
  | SlotX _ => exists x, LoadUnaligned (lop_type wload) m addr = Ok x /\ ux x = v
  | SlotF _ => LoadUnaligned double_t m addr = Ok v
  end.

(** The stack from SP up, [n] bytes of it, below the stack base. *)
Definition stack_area (s : Sim) (n : Z) : Prop :=
  mapped (mem_ s) (get_xreg s Reg.SP) n /\
  get_xreg s Reg.SP + n <= stack_base_ s /\ stack_base_ s < 2 ^ XLEN.

Lemma word_sizes :
  sizeof (lop_type wload) = kWordSize /\ sizeof (stop_type wstore) = kWordSize /\ 0 < kWordSize <= 8.
Proof. unfold wload, wstore, kWordSize. by destruct XLEN_cases as [-> | ->]. Qed.

Lemma slot_size_pos k : 0 < slot_size k <= 8.
Proof. destruct k; cbn; [apply word_sizes|done]. Qed.

Lemma slot_address s n k off :
  sim_ok s -> stack_area s n -> 0 <= off -> off + slot_size k <= n ->
  effective s (mkAddress Reg.SP off) = get_xreg s Reg.SP + off.
Proof.
  intros Hok (_ & Hb & Hx) Ho Hn. unfold effective. cbn [base offset]. apply ux_small.
  destruct (get_xreg_ok s Reg.SP Hok ltac:(done)). pose proof (slot_size_pos k). unfold inU. lia.
Qed.

Lemma slot_access s n k off ty :
  sim_ok s -> stack_area s n -> 0 <= off -> off + slot_size k <= n -> sizeof ty = slot_size k ->
  CheckAccess s ty (get_xreg s Reg.SP + off) Reg.SP = Ok tt.
Proof.
  intros Hok (_ & Hb & Hx) Ho Hn Hty. unfold CheckAccess. destruct DEBUG; [|done].
  destruct (get_xreg_ok s Reg.SP Hok ltac:(done)). pose proof (slot_size_pos k).
  rewrite ux_small by (unfold inU; lia). cbn [Z.eqb orb].
  rewrite (proj2 (Z.ltb_ge (stack_base_ s) _)), (proj2 (Z.ltb_ge _ (get_xreg s Reg.SP))) by lia. done.
Qed.

(** ** One slot *)

Lemma ux_word x : ux (cast (lop_type wload) x) = ux x /\ ux (cast (stop_type wstore) x) = ux x.
Proof.
  unfold wload, wstore, ux. destruct XLEN_cases as [-> | ->]; cbn [Z.eqb lop_type stop_type cast].
  - split; [apply (wrapU_wrapS 32)|apply (wrapU_wrapU 32)]; lia.
  - split; [apply (wrapU_wrapS 64)|apply (wrapU_wrapU 64)]; lia.
Qed.

(** A word read back after it was stored. *)
Lemma word_holds m addr v :
  inU XLEN v -> LoadUnaligned (stop_type wstore) m addr = Ok (cast (stop_type wstore) v) ->
  exists x, LoadUnaligned (lop_type wload) m addr = Ok x /\ ux x = v.
Proof.
  intros Hv. unfold LoadUnaligned. destruct word_sizes as (-> & -> & _).
  destruct (load_bytes m addr (Z.to_nat kWordSize)) as [raw|]; [|done]. cbn [rbind]. intros E.
  apply Ok_inj in E. eexists. split; [done|].
  rewrite (proj1 (ux_word raw)), <- (proj2 (ux_word raw)), E, (proj2 (ux_word v)). by apply ux_small.
Qed.

(** Fields of a slot's address and access, as the store and the load use them. *)
Definition stored_ok (s : Sim) (k : saved) : Prop := slot_ok k /\ (forall r, k = SlotF r -> inU 64 (get_fregd s r)).

Lemma save_slot s n k off (SP := get_xreg s Reg.SP) :
  sim_ok s -> stack_area s n -> stored_ok s k -> 0 <= off -> off + slot_size k <= n ->
  exists m', effect_sem (save_effect (k, off)) s = Ok (set_mem s m') /\ dom m' = dom (mem_ s) /\
    (forall x, x < SP + off \/ SP + off + slot_size k <= x -> m' !! x = mem_ s !! x) /\
    slot_holds m' (SP + off) k (slot_value s k).
Proof.
  intros Hok Ha [Hk Hf] Ho Hn.
  assert (exists ty v, effect_sem (save_effect (k, off)) s =
    MemoryWrite ty (effective s (mkAddress Reg.SP off)) v Reg.SP s /\ sizeof ty = slot_size k /\
    (forall m, LoadUnaligned ty m (SP + off) = Ok (cast ty v) -> slot_holds m (SP + off) k (slot_value s k)))
    as (ty & v & E & Hty & Hh).
  { destruct k as [r|r]; cbn [save_effect fst snd effect_sem base]; eexists _, _; (split; [done|]); split.
    - apply word_sizes.
    - intros m. cbn [slot_holds slot_value]. apply word_holds. by apply get_xreg_ok.
    - done.
    - intros m. cbn [slot_holds slot_value cast]. by rewrite wrapU_small by (by eapply Hf). }
  rewrite E, (slot_address s n k off) by done. fold SP.
  destruct (store_bytes_total (Z.to_nat (sizeof ty)) (mem_ s) (SP + off) (cast ty v)) as [m' Em].
  { rewrite sizeof_nat, Hty. intros x Hx. apply (proj1 Ha). fold SP. pose proof (slot_size_pos k). lia. }
  exists m'.
  assert (MemoryWrite ty (SP + off) v Reg.SP s = Ok (set_mem s m')) as Ew.
  { unfold MemoryWrite, SP. rewrite (slot_access s n k off) by done. cbn [rbind].
    unfold StoreUnaligned. fold SP. by rewrite Em. }
  split; [exact Ew|]. apply MemoryWrite_spec in Ew as (H1' & _ & H2' & H3'). cbn [mem_ set_mem] in *.
  rewrite Hty in H3'. split_and!; [done|done|by apply Hh].
Qed.

Lemma slot_holds_frame m m' addr k v :
  (forall x, addr <= x < addr + slot_size k -> m' !! x = m !! x) -> slot_holds m addr k v -> slot_holds m' addr k v.
Proof.
  assert (forall ty, sizeof ty = slot_size k -> (forall x, addr <= x < addr + slot_size k -> m' !! x = m !! x) ->
    LoadUnaligned ty m' addr = LoadUnaligned ty m addr) as Hf.
  { intros ty Hty Hx. unfold LoadUnaligned. rewrite (load_bytes_frame m m'); [done|].
    by rewrite sizeof_nat, Hty. }
  intros Hx. destruct k; cbn [slot_holds]; rewrite Hf; try done. apply word_sizes.
Qed.

(** Loading a slot writes its register. *)
Definition set_slot (s : Sim) (k : saved) (v : Z) : Sim :=
  match k with SlotX r => set_xreg s r v | SlotF r => set_fregd s r v end.

Lemma load_slot s n k off v :
  sim_ok s -> stack_area s n -> slot_ok k -> 0 <= off -> off + slot_size k <= n ->
  slot_holds (mem_ s) (get_xreg s Reg.SP + off) k v ->
  effect_sem (load_effect (k, off)) s = Ok (set_slot s k v).
Proof.
  intros Hok Ha Hk Ho Hn Hh. pose proof (slot_address s n k off Hok Ha Ho Hn) as Ea.
  destruct k as [r|r]; cbn [load_effect fst snd effect_sem base] in *; rewrite Ea; unfold MemoryRead.
  - rewrite (slot_access s n (SlotX r) off) by (done || apply word_sizes). cbn [rbind slot_holds] in *.
    destruct Hh as (x & -> & <-). cbn [rbind set_slot]. f_equal. unfold set_xreg. by rewrite ux_ux.
  - rewrite (slot_access s n (SlotF r) off) by done. cbn [rbind slot_holds] in *. by rewrite Hh.
Qed.

(** ** Lists of slots *)

(** Registers in consecutive slots from [off] up. *)
Fixpoint layout (off : Z) (ks : list saved) : list (saved * Z) :=
  match ks with
  | [] => []
  | k :: ks => (k, off) :: layout (off + slot_size k) ks
  end.
Definition total (ks : list saved) : Z := foldr (fun k n => slot_size k + n) 0 ks.

Lemma total_nonneg ks : 0 <= total ks.
Proof. induction ks as [|k ks IH]; cbn; [lia|]. pose proof (slot_size_pos k). fold (total ks). lia. Qed.

Lemma layout_range off ks :
  Forall (fun sl => off <= sl.2 /\ sl.2 + slot_size sl.1 <= off + total ks) (layout off ks).
Proof.
  revert off. induction ks as [|k ks IH]; intros off; [constructor|]. cbn [layout total foldr]. fold (total ks).
  pose proof (slot_size_pos k). pose proof (total_nonneg ks). constructor; [cbn; lia|].
  eapply Forall_impl; [apply IH|]. cbn. intros sl ?. lia.
Qed.

Lemma layout_app off ks ks' : layout off (ks ++ ks') = layout off ks ++ layout (off + total ks) ks'.
Proof.
  revert off. induction ks as [|k ks IH]; intros off; cbn; [by rewrite Z.add_0_r|].
  rewrite IH. fold (total ks). by rewrite Z.add_assoc.
Qed.

Lemma total_app ks ks' : total (ks ++ ks') = total ks + total ks'.
Proof. induction ks as [|k ks IH]; cbn; [done|]. fold (total ks) (total (ks ++ ks')). lia. Qed.

Lemma area_mem s n m' : dom m' = dom (mem_ s) -> stack_area s n -> stack_area (set_mem s m') n.
Proof.
  intros Hd (Hm & Hb). split; [|done]. intros x Hx. apply elem_of_dom. cbn. rewrite Hd.
  by apply elem_of_dom, Hm.
Qed.

(** The stores, from the last slot to the first, fill the slots and nothing
    else. *)
Lemma run_saves n ks : forall off s (SP := get_xreg s Reg.SP),
  sim_ok s -> stack_area s n -> Forall (stored_ok s) ks -> 0 <= off -> off + total ks <= n ->
  exists m', run_effects (save_effect <$> reverse (layout off ks)) s = Ok (set_mem s m') /\
    dom m' = dom (mem_ s) /\ sim_ok (set_mem s m') /\
    (forall x, x < SP + off \/ SP + off + total ks <= x -> m' !! x = mem_ s !! x) /\
    Forall (fun sl => slot_holds m' (SP + sl.2) sl.1 (slot_value s sl.1)) (layout off ks).
Proof.
  induction ks as [|k ks IH]; intros off s SP Hok Ha Hks Ho Hn.
  { exists (mem_ s). split_and!; [by destruct s|done|by destruct s|done|constructor]. }
  apply Forall_cons in Hks as [Hk Hks]. cbn [layout total foldr] in *. fold (total ks) in *.
  pose proof (slot_size_pos k). pose proof (total_nonneg ks).
  destruct (IH (off + slot_size k) s) as (m1 & E1 & Hd1 & Hok1 & Hf1 & Hh1); [done..|lia|lia|].
  assert (stack_area (set_mem s m1) n) as Ha1 by by apply area_mem.
  destruct (save_slot (set_mem s m1) n k off) as (m2 & E2 & Hd2 & Hf2 & Hh2); [done..|lia|].
  change (get_xreg (set_mem s m1) Reg.SP) with SP in *. cbn [mem_ set_mem] in Hd2, Hf2.
  exists m2. split_and!.
  - rewrite reverse_cons, fmap_app, run_effects_app, E1. cbn [rbind fmap list_fmap run_effects]. by rewrite E2.
  - congruence.
  - apply (effect_ok (save_effect (k, off)) (set_mem s m1)); [by destruct k|done|done].
  - intros x Hx. rewrite Hf2 by lia. apply Hf1. fold SP. lia.
  - constructor; [exact Hh2|]. pose proof (layout_range (off + slot_size k) ks) as Hr.
    rewrite Forall_forall in *. intros sl Hin. specialize (Hr sl Hin).
    eapply slot_holds_frame; [|by apply Hh1]. intros x Hx. fold SP in Hx. apply Hf2. lia.
Qed.

(** ** Restoring *)

Lemma slot_value_set s k v k' :
  sim_ok s -> slot_ok k -> slot_ok k' -> k <> SlotX Reg.ZR -> (forall r, k = SlotX r -> inU XLEN v) ->
  slot_value (set_slot s k v) k' = if decide (k' = k) then v else slot_value s k'.
Proof.
  intros Hok Hk Hk' Hz Hv. destruct k as [r|r], k' as [r'|r']; cbn [set_slot slot_value slot_ok] in *.
  - destruct (decide (SlotX r' = SlotX r)) as [E|Hne].
    + simplify_eq. rewrite get_set_xreg_same by (done || congruence). by apply ux_small, (Hv r).
    + rewrite get_set_xreg_other; [done..|congruence].
  - rewrite decide_False by done. unfold set_xreg. by destruct (r =? Reg.ZR).
  - by rewrite decide_False.
  - unfold get_fregd, set_fregd. cbn [fregs_ set_fregs_list]. unfold inU in *.
    destruct (decide (SlotF r' = SlotF r)) as [E|Hne].
    + simplify_eq. apply list_lookup_total_insert_eq. rewrite (ok_fregs_length s Hok). lia.
    + rewrite list_lookup_total_insert_ne; [done|]. intros E. apply Hne. f_equal. lia.
Qed.

(** The same state but for the registers. *)
Definition only_regs (s t : Sim) : Prop := exists xs fs, t = set_fregs_list (set_xregs s xs) fs.

Lemma only_regs_slot s k v : only_regs s (set_slot s k v).
Proof.
  destruct k as [r|r]; cbn [set_slot].
  - unfold set_xreg. destruct (r =? Reg.ZR); [exists (xregs_ s), (fregs_ s); by destruct s|].
    by eexists _, (fregs_ s).
  - by eexists (xregs_ s), _.
Qed.

Lemma only_regs_trans s t u : only_regs s t -> only_regs t u -> only_regs s u.
Proof. intros (xs & fs & ->) (xs' & fs' & ->). by exists xs', fs'. Qed.

Lemma slot_word_range m addr r v : slot_holds m addr (SlotX r) v -> inU XLEN v.
Proof. intros (x & _ & <-). apply ux_range. Qed.

Lemma run_loads n ks : forall off s (v : saved -> Z),
  sim_ok s -> stack_area s n -> Forall slot_ok ks -> NoDup ks -> SlotX Reg.SP ∉ ks -> SlotX Reg.ZR ∉ ks ->
  0 <= off -> off + total ks <= n ->
  Forall (fun sl => slot_holds (mem_ s) (get_xreg s Reg.SP + sl.2) sl.1 (v sl.1)) (layout off ks) ->
  exists t, run_effects (load_effect <$> layout off ks) s = Ok t /\ sim_ok t /\ only_regs s t /\
    (forall k, slot_ok k -> slot_value t k = if decide (k ∈ ks) then v k else slot_value s k).
Proof.
  induction ks as [|k ks IH]; intros off s v Hok Ha Hks Hnd Hsp Hzr Ho Hn Hh.
  { exists s. split_and!; [done|done|exists (xregs_ s), (fregs_ s); by destruct s|]. intros k _.
    rewrite decide_False; [done|set_solver]. }
  apply Forall_cons in Hks as [Hk Hks]. apply NoDup_cons in Hnd as [Hkn Hnd].
  cbn [layout total foldr] in *. fold (total ks) in *. apply Forall_cons in Hh as [Hh1 Hh]. cbn [fst snd] in Hh1.
  apply not_elem_of_cons in Hsp as [Hsp1 Hsp]. apply not_elem_of_cons in Hzr as [Hzr1 Hzr].
  pose proof (slot_size_pos k). pose proof (total_nonneg ks).
  assert (forall r, k = SlotX r -> inU XLEN (v k)) as Hvr.
  { intros r ->. by eapply slot_word_range. }
  pose proof (load_slot s n k off (v k) Hok Ha Hk Ho ltac:(lia) Hh1) as E1.
  pose proof (effect_ok (load_effect (k, off)) s _ ltac:(by destruct k) Hok E1) as Hok1.
  set (s1 := set_slot s k (v k)) in *.
  assert (forall k', slot_ok k' -> slot_value s1 k' = if decide (k' = k) then v k else slot_value s k') as Hv1.
  { intros k' Hk'. apply slot_value_set; congruence || done. }
  assert (get_xreg s1 Reg.SP = get_xreg s Reg.SP) as Esp.
  { pose proof (Hv1 (SlotX Reg.SP) ltac:(done)) as Es. cbn [slot_value] in Es. rewrite Es.
    by rewrite decide_False. }
  destruct (only_regs_slot s k (v k)) as (xs & fs & Eregs). fold s1 in Eregs.
  assert (mem_ s1 = mem_ s /\ stack_base_ s1 = stack_base_ s) as [Em Eb] by by rewrite Eregs.
  destruct (IH (off + slot_size k) s1 v) as (t & E & Hokt & Hregs & Hvt); try done; try lia.
  { unfold stack_area. by rewrite Esp, Em, Eb. }
  { by rewrite Esp, Em. }
  exists t. split_and!.
  - cbn [fmap list_fmap run_effects]. rewrite E1. exact E.
  - done.
  - eapply only_regs_trans; [|exact Hregs]. by exists xs, fs.
  - intros k' Hk'. rewrite Hvt, Hv1 by done. destruct (decide (k' ∈ ks)) as [Hin|Hnin].
    + rewrite decide_True; [done|set_solver].
    + destruct (decide (k' = k)) as [->|Hne]; [rewrite decide_True; [done|set_solver]|].
      rewrite decide_False; [done|set_solver].
Qed.

End Slots.

(** ** The macros *)

Section MacroStack.
Context `{Target} `{HostNaN} `{Host} {T : Type} `{ops : !IndexTableOps T}.

#[local] Notation MacroAsm := (MacroAsm T).
#[local] Notation code := (code T).
Implicit Types m : MacroAsm.

(** The registers of a set in the order of their slots. *)
Definition set_slots (cpu fpu : Z) : list saved := (SlotX <$> registers_in cpu) ++ (SlotF <$> registers_in fpu).

Lemma registers_in_spec regs r : r ∈ registers_in regs <-> inU 5 r /\ reg_in regs r = true.
Proof.
  unfold registers_in. rewrite list_elem_of_In, filter_In, <- list_elem_of_In, elem_of_seqZ.
  unfold inU. change (2 ^ 5) with 32. naive_solver lia.
Qed.

Lemma registers_in_NoDup regs : NoDup (registers_in regs).
Proof. unfold registers_in. apply NoDup_ListNoDup, List.NoDup_filter, NoDup_ListNoDup, NoDup_seqZ. Qed.

Lemma registers_in_length regs : (length (registers_in regs) <= 32)%nat.
Proof. unfold registers_in. rewrite List.filter_length_le. by rewrite length_seqZ. Qed.

Lemma total_slots (K : Z -> saved) (l : list Z) sz : (forall r, slot_size (K r) = sz) -> total (K <$> l) = Z.of_nat (length l) * sz.
Proof. intros Hk. induction l as [|r l IH]; [done|]. cbn. fold (total (K <$> l)). rewrite Hk, IH. lia. Qed.

Lemma total_set cpu fpu : total (set_slots cpu fpu) = register_set_size cpu fpu.
Proof.
  unfold set_slots, register_set_size. rewrite total_app.
  by rewrite (total_slots SlotX _ kWordSize), (total_slots SlotF _ kFpuRegisterSize).
Qed.

Lemma set_size_bound cpu fpu : 0 <= register_set_size cpu fpu <= 512.
Proof.
  unfold register_set_size, kFpuRegisterSize. pose proof (registers_in_length cpu).
  pose proof (registers_in_length fpu). destruct word_sizes as (_ & _ & ?). nia.
Qed.

(** The slots from the last one down, as the stores are emitted. *)
Fixpoint layout_down (K : Z -> saved) (step : Z) (l : list Z) (off : Z) : list (saved * Z) :=
  match l with
  | [] => []
  | r :: l => (K r, off - step) :: layout_down K step l (off - step)
  end.

Lemma layout_down_app K step l1 l2 off :
  layout_down K step (l1 ++ l2) off =
  layout_down K step l1 off ++ layout_down K step l2 (off - step * Z.of_nat (length l1)).
Proof.
  revert off. induction l1 as [|r l1 IH]; intros off; cbn [app layout_down]; [f_equal; cbn; lia|].
  rewrite IH. cbn [app length]. do 3 f_equal. lia.
Qed.

Lemma layout_down_reverse K step l off :
  (forall r, slot_size (K r) = step) ->
  layout_down K step (reverse l) (off + step * Z.of_nat (length l)) = reverse (layout off (K <$> l)).
Proof.
  intros Hk. revert off. induction l as [|r l IH]; intros off; [done|].
  cbn [fmap list_fmap layout]. rewrite !reverse_cons, layout_down_app, Hk, <- IH. rewrite length_reverse. cbn [length].
  f_equal; [f_equal; lia|]. cbn [layout_down]. do 2 f_equal. lia.
Qed.

Section Emission.
Context (m : MacroAsm) (HI : Supports (asm_ m) RV_I = true).
Context (HF : Supports (asm_ m) RV_F = true) (HD : Supports (asm_ m) RV_D = true).

Lemma slot_address_ok off : 0 <= off < 2048 -> wf_address (mkAddress Reg.SP off).
Proof. intros Ho. split; [done|]. apply IsITypeImm_small. cbn. lia. Qed.

Lemma m_sx b r off :
  inU 5 r -> 0 <= off < 2048 ->
  memits (emit (MicroAssembler.sx_ r (mkAddress Reg.SP off))) (at_buffer m b) [save_effect (SlotX r, off)].
Proof.
  intros Hr Ho. apply memits_emit; [done|]. unfold implements.
  assert (forall a, MicroAssembler.sx_ r (mkAddress Reg.SP off) a = stop_asm wstore r (mkAddress Reg.SP off) a) as ->.
  { intros a. unfold MicroAssembler.sx_, wstore. by destruct (XLEN =? 32). }
  apply store_implements; [|done|by apply slot_address_ok|done].
  unfold wstore. destruct (Z.eqb_spec XLEN 32); cbn; [done|]. destruct XLEN_cases; lia.
Qed.

Lemma m_lx b r off :
  inU 5 r -> 0 <= off < 2048 ->
  memits (emit (MicroAssembler.lx r (mkAddress Reg.SP off))) (at_buffer m b) [load_effect (SlotX r, off)].
Proof.
  intros Hr Ho. apply memits_emit; [done|]. unfold implements.
  assert (forall a, MicroAssembler.lx r (mkAddress Reg.SP off) a = lop_asm wload r (mkAddress Reg.SP off) a) as ->.
  { intros a. unfold MicroAssembler.lx, wload. by destruct (XLEN =? 32). }
  eapply implements_ext; [|apply (load_implements wload r (mkAddress Reg.SP off))].
  - intros len s _. unfold exec_load, as_instruction. cbn [load_effect fst snd effect_sem].
    by destruct (MemoryRead _ _ _ _).
  - unfold wload. destruct (Z.eqb_spec XLEN 32); cbn; [done|]. destruct XLEN_cases; lia.
  - done.
  - by apply slot_address_ok.
  - done.
Qed.

Lemma m_fsd b r off :
  inU 5 r -> 0 <= off < 2048 ->
  memits (emit (MicroAssembler.fsd r (mkAddress Reg.SP off))) (at_buffer m b) [save_effect (SlotF r, off)].
Proof.
  intros Hr Ho. apply memits_emit; [done|].
  by apply (float_memory_implements r (mkAddress Reg.SP off)); [|apply slot_address_ok|..].
Qed.

Lemma m_fld b r off :
  inU 5 r -> 0 <= off < 2048 ->
  memits (emit (MicroAssembler.fld r (mkAddress Reg.SP off))) (at_buffer m b) [load_effect (SlotF r, off)].
Proof.
  intros Hr Ho. apply memits_emit; [done|].
  eapply implements_ext;
    [|by apply (float_memory_implements r (mkAddress Reg.SP off)); [|apply slot_address_ok|..]].
  intros len s _. unfold exec_fld, as_instruction. cbn [load_effect fst snd effect_sem].
  by destruct (MemoryRead _ _ _ _).
Qed.

(** The two loops over a register set. *)
Lemma save_down_emits access (K : Z -> saved) step l :
  0 < step ->
  (forall b r off, r ∈ l -> 0 <= off < 2048 ->
     memits (emit (access r (mkAddress Reg.SP off))) (at_buffer m b) [save_effect (K r, off)]) ->
  forall off b, step * Z.of_nat (length l) <= off < 2048 ->
  exists bytes, save_down access step l off (at_buffer m b) =
      Ok (off - step * Z.of_nat (length l), at_buffer m (b ++ bytes)) /\
    block bytes (save_effect <$> layout_down K step l off).
Proof.
  intros Hs. induction l as [|r l IH]; intros Hacc off b Ho; cbn [save_down layout_down].
  { exists []. rewrite app_nil_r. split; [do 2 f_equal; cbn; lia|constructor]. }
  cbn [length] in Ho.
  destruct (Hacc b r (off - step)) as (b1 & E1 & Hb1); [by left|lia|]. rewrite E1. cbn [rbind].
  destruct (IH ltac:(intros; apply Hacc; [by right|done]) (off - step) (b ++ b1)) as (b2 & E2 & Hb2); [lia|].
  exists (b1 ++ b2). split.
  - change (append (at_buffer m b) b1) with (at_buffer m (b ++ b1)). rewrite E2, app_assoc.
    do 2 f_equal. cbn [length]. lia.
  - by apply (block_app _ [_]).
Qed.

Lemma access_up_emits access (K : Z -> saved) step l :
  (forall r, slot_size (K r) = step) -> 0 < step ->
  (forall b r off, r ∈ l -> 0 <= off < 2048 ->
     memits (emit (access r (mkAddress Reg.SP off))) (at_buffer m b) [load_effect (K r, off)]) ->
  forall off b, 0 <= off -> off + step * Z.of_nat (length l) < 2048 ->
  exists bytes, access_up access step l off (at_buffer m b) =
      Ok (off + step * Z.of_nat (length l), at_buffer m (b ++ bytes)) /\
    block bytes (load_effect <$> layout off (K <$> l)).
Proof.
  intros Hk Hs. induction l as [|r l IH]; intros Hacc off b Ho Hn; cbn [access_up fmap list_fmap layout].
  { exists []. rewrite app_nil_r. split; [do 2 f_equal; cbn; lia|constructor]. }
  cbn [length] in Hn.
  destruct (Hacc b r off) as (b1 & E1 & Hb1); [by left|lia|]. rewrite E1. cbn [rbind].
  destruct (IH ltac:(intros; apply Hacc; [by right|done]) (off + step) (b ++ b1)) as (b2 & E2 & Hb2); [lia|lia|].
  exists (b1 ++ b2). split.
  - change (append (at_buffer m b) b1) with (at_buffer m (b ++ b1)). rewrite E2, app_assoc.
    do 2 f_equal. cbn [length]. lia.
  - rewrite Hk. by apply (block_app _ [_]).
Qed.

(** SP moves by [d], unless the set is empty. *)
Definition adjust (size d : Z) : list effect :=
  if size =? 0 then [] else [EWrite Reg.SP (fun R => R Reg.SP + d)].

Definition push_effects (ks : list saved) : list effect :=
  adjust (total ks) (- total ks) ++ (save_effect <$> reverse (layout 0 ks)).
Definition pop_effects (ks : list saved) : list effect :=
  (load_effect <$> layout 0 ks) ++ adjust (total ks) (total ks).

Lemma set_size_split cpu fpu :
  register_set_size cpu fpu =
    kWordSize * Z.of_nat (length (registers_in cpu)) + kFpuRegisterSize * Z.of_nat (length (registers_in fpu)).
Proof. unfold register_set_size. lia. Qed.

Lemma set_layout cpu fpu :
  layout 0 (set_slots cpu fpu) =
  layout 0 (SlotX <$> registers_in cpu) ++
  layout (kWordSize * Z.of_nat (length (registers_in cpu))) (SlotF <$> registers_in fpu).
Proof.
  unfold set_slots. rewrite layout_app. f_equal. rewrite (total_slots SlotX _ kWordSize) by done. f_equal. lia.
Qed.

Lemma empty_set cpu fpu : register_set_size cpu fpu = 0 -> set_slots cpu fpu = [].
Proof.
  rewrite <- total_set. destruct (set_slots cpu fpu) as [|k ks]; [done|]. cbn. fold (total ks).
  pose proof (slot_size_pos k). pose proof (total_nonneg ks). lia.
Qed.

Lemma PushRegisters_emits cpu fpu b : memits (PushRegisters cpu fpu) (at_buffer m b) (push_effects (set_slots cpu fpu)).
Proof.
  unfold memits, PushRegisters, push_effects, adjust. rewrite total_set. cbv beta zeta. pose proof (set_size_bound cpu fpu) as Hsz.
  pose proof (set_size_split cpu fpu) as Esz. destruct word_sizes as (_ & _ & Hw).
  assert (0 <= kWordSize * Z.of_nat (length (registers_in cpu))) as Hc0 by nia.
  assert (0 <= kFpuRegisterSize * Z.of_nat (length (registers_in fpu))) as Hf0 by (unfold kFpuRegisterSize; lia).
  destruct (Z.eqb_spec (register_set_size cpu fpu) 0) as [E0|Hne].
  { exists []. rewrite append_nil, empty_set by done. split; [done|constructor]. }
  destruct (m_iop (at_buffer m b) HI ADDI Reg.SP Reg.SP (- register_set_size cpu fpu))
    as (b1 & E1 & Hb1); [done..|apply IsITypeImm_small; lia|].
  destruct (save_down_emits MicroAssembler.fsd SlotF kFpuRegisterSize (reverse (registers_in fpu)))
    with (off := register_set_size cpu fpu) (b := b ++ b1) as (b2 & E2 & Hb2).
  { done. } { intros b' r off Hr Ho. apply m_fsd; [|done]. apply elem_of_reverse, registers_in_spec in Hr. apply Hr. }
  { rewrite length_reverse. lia. }
  destruct (save_down_emits MicroAssembler.sx_ SlotX kWordSize (reverse (registers_in cpu)))
    with (off := kWordSize * Z.of_nat (length (registers_in cpu))) (b := (b ++ b1) ++ b2) as (b3 & E3 & Hb3).
  { lia. } { intros b' r off Hr Ho. apply m_sx; [|done]. apply elem_of_reverse, registers_in_spec in Hr. apply Hr. }
  { rewrite length_reverse. lia. }
  exists (b1 ++ b2 ++ b3). split.
  - change (emit (MicroAssembler.subi Reg.SP Reg.SP (register_set_size cpu fpu)) (at_buffer m b))
      with (emit (iop_asm ADDI Reg.SP Reg.SP (- register_set_size cpu fpu)) (at_buffer m b)).
    rewrite E1. cbn [rbind]. change (append (at_buffer m b) b1) with (at_buffer m (b ++ b1)).
    rewrite E2. cbn [rbind fst snd]. rewrite length_reverse, Esz.
    replace (_ + _ - _) with (kWordSize * Z.of_nat (length (registers_in cpu))) by lia.
    rewrite E3. cbn [rbind fst snd]. rewrite length_reverse, Z.sub_diag, ASSERT_true by done. cbn [rbind].
    unfold append, at_buffer. cbn. by rewrite !app_assoc.
  - apply (block_app _ [_]); [exact Hb1|]. rewrite set_layout, reverse_app, fmap_app.
    rewrite <- (layout_down_reverse SlotF kFpuRegisterSize), <- (layout_down_reverse SlotX kWordSize) by done.
    rewrite <- Esz, Z.add_0_l. by apply block_app.
Qed.

Lemma PopRegisters_emits cpu fpu b : memits (PopRegisters cpu fpu) (at_buffer m b) (pop_effects (set_slots cpu fpu)).
Proof.
  unfold memits, PopRegisters, pop_effects, adjust. rewrite total_set. cbv beta zeta. pose proof (set_size_bound cpu fpu) as Hsz.
  pose proof (set_size_split cpu fpu) as Esz. destruct word_sizes as (_ & _ & Hw).
  assert (0 <= kWordSize * Z.of_nat (length (registers_in cpu))) as Hc0 by nia.
  assert (0 <= kFpuRegisterSize * Z.of_nat (length (registers_in fpu))) as Hf0 by (unfold kFpuRegisterSize; lia).
  destruct (Z.eqb_spec (register_set_size cpu fpu) 0) as [E0|Hne].
  { exists []. rewrite append_nil, empty_set by done. split; [done|constructor]. }
  destruct (access_up_emits MicroAssembler.lx SlotX kWordSize (registers_in cpu))
    with (off := 0) (b := b) as (b1 & E1 & Hb1).
  { done. } { lia. } { intros b' r off Hr Ho. apply m_lx; [|done]. by apply registers_in_spec in Hr as []. }
  { done. } { lia. }
  destruct (access_up_emits MicroAssembler.fld SlotF kFpuRegisterSize (registers_in fpu))
    with (off := kWordSize * Z.of_nat (length (registers_in cpu))) (b := b ++ b1) as (b2 & E2 & Hb2).
  { done. } { done. } { intros b' r off Hr Ho. apply m_fld; [|done]. by apply registers_in_spec in Hr as []. }
  { lia. } { lia. }
  destruct (m_iop (at_buffer m ((b ++ b1) ++ b2)) HI ADDI Reg.SP Reg.SP (register_set_size cpu fpu))
    as (b3 & E3 & Hb3); [done..|apply IsITypeImm_small; lia|].
  exists ((b1 ++ b2) ++ b3). split.
  - rewrite E1. cbn [rbind fst snd]. rewrite Z.add_0_l, E2. cbn [rbind fst snd].
    rewrite <- Esz, Z.eqb_refl, ASSERT_true by done. cbn [rbind].
    change (emit (MicroAssembler.addi ?x ?y ?z)) with (emit (T := T) (iop_asm ADDI x y z)). rewrite E3.
    unfold append, at_buffer. cbn. by rewrite !app_assoc.
  - apply block_app; [|exact Hb3]. rewrite set_layout, fmap_app. by apply block_app.
Qed.

End Emission.

(** ** Running them *)

Lemma spares_app l1 : forall l2 s lo n,
  spares l1 s lo n -> (forall t, run_effects l1 s = Ok t -> spares l2 t lo n) -> spares (l1 ++ l2) s lo n.
Proof.
  induction l1 as [|e l1 IH]; intros l2 s lo n H1' H2'; [by apply H2'|]. destruct H1' as [He Hl].
  split; [done|]. intros t Et. apply IH; [by apply Hl|]. intros u Eu. apply H2'. cbn [run_effects]. by rewrite Et.
Qed.

(** Stores into slots of the stack spare code outside the stack. *)
Lemma spares_saves sls : forall s lo len n,
  sim_ok s -> get_xreg s Reg.SP + n < 2 ^ XLEN ->
  Forall (fun sl => slot_ok sl.1 /\ 0 <= sl.2 /\ sl.2 + slot_size sl.1 <= n) sls ->
  (get_xreg s Reg.SP + n <= lo \/ lo + len <= get_xreg s Reg.SP) ->
  spares (save_effect <$> sls) s lo len.
Proof.
  induction sls as [|[k off] sls IH]; intros s lo len n Hok Hx Hsl Hdis; [done|].
  apply Forall_cons in Hsl as [(Hk & Ho & Hn) Hsl]. cbn [fst snd] in *.
  assert (effective s (mkAddress Reg.SP off) = get_xreg s Reg.SP + off) as Ea.
  { unfold effective. cbn [base offset]. apply ux_small. destruct (get_xreg_ok s Reg.SP Hok ltac:(done)).
    pose proof (slot_size_pos k). unfold inU. lia. }
  split.
  - unfold spares1, save_effect. destruct k; cbn [fst snd effect_stores slot_size] in *; rewrite Ea;
      [destruct word_sizes as (_ & -> & _)|unfold kFpuRegisterSize in *; cbn [sizeof]]; lia.
  - intros t Et. assert (sim_ok t) as Hokt by (eapply effect_ok; [|exact Hok|exact Et]; by destruct k).
    assert (get_xreg t = get_xreg s) as Er.
    { destruct k; cbn [fmap list_fmap save_effect fst snd effect_sem] in Et; apply MemoryWrite_same in Et; by rewrite Et. }
    apply (IH t lo len n); by rewrite ?Er.
Qed.

Lemma spares_loads sls s lo len : spares (load_effect <$> sls) s lo len.
Proof. revert s. induction sls as [|[[r|r] off] sls IH]; intros s; [done|..]; (split; [done|]; intros; apply IH). Qed.

Lemma adjust_runs size d s :
  sim_ok s -> (size = 0 -> d = 0) ->
  exists t, run_effects (adjust size d) s = Ok t /\ sim_ok t /\ only_regs s t /\
    get_xreg t Reg.SP = ux (get_xreg s Reg.SP + d) /\
    (forall k, slot_ok k -> k <> SlotX Reg.SP -> slot_value t k = slot_value s k) /\
    forall lo n, spares (adjust size d) s lo n.
Proof.
  intros Hok Hd. unfold adjust. destruct (Z.eqb_spec size 0) as [E|Hne].
  - exists s. rewrite Hd, Z.add_0_r by done. split_and!; try done.
    + exists (xregs_ s), (fregs_ s). by destruct s.
    + symmetry. by apply ux_small, get_xreg_ok.
  - eexists. split; [reflexivity|]. split_and!; [by apply ok_set_xreg|apply (only_regs_slot s (SlotX _))| | |].
    + by apply get_set_xreg_same.
    + intros [r|r] Hk Hn; cbn [slot_value]; [|done]. apply get_set_xreg_other; [done..|congruence].
    + intros lo n. by split.
Qed.

(** [n] bytes of stack below SP, clear of the code. *)
Record stack_room (s : Sim) (n : Z) (code : list Z) : Prop := {
  room_low : n <= get_xreg s Reg.SP;
  room_mapped : mapped (mem_ s) (get_xreg s Reg.SP - n) n;
  room_base : get_xreg s Reg.SP <= stack_base_ s < 2 ^ XLEN;
  room_clear : get_xreg s Reg.SP <= pc_ s \/ pc_ s + Z.of_nat (length code) <= get_xreg s Reg.SP - n
}.

Lemma layout_slots off ks sl : sl ∈ layout off ks -> sl.1 ∈ ks.
Proof. revert off. induction ks as [|k ks IH]; intros off; cbn; [set_solver|]. set_solver. Qed.

Lemma set_slots_ok cpu fpu k : k ∈ set_slots cpu fpu -> slot_ok k.
Proof.
  unfold set_slots. intros [(r & -> & Hr)%list_elem_of_fmap|(r & -> & Hr)%list_elem_of_fmap]%elem_of_app;
    by apply registers_in_spec in Hr as [].
Qed.

Lemma set_slots_NoDup cpu fpu : NoDup (set_slots cpu fpu).
Proof.
  apply NoDup_app. split_and!.
  - apply NoDup_fmap_2; [by intros x y [=]|apply registers_in_NoDup].
  - intros k (r & -> & _)%list_elem_of_fmap (r' & E & _)%list_elem_of_fmap. done.
  - apply NoDup_fmap_2; [by intros x y [=]|apply registers_in_NoDup].
Qed.

Lemma no_slot cpu fpu r : reg_in cpu r = false -> SlotX r ∉ set_slots cpu fpu.
Proof.
  unfold set_slots. intros Hr [(x & E & Hx)%list_elem_of_fmap|(x & E & _)%list_elem_of_fmap]%elem_of_app;
    [|discriminate E].
  injection E as ->. apply registers_in_spec in Hx as [_ Hx]. by rewrite Hr in Hx.
Qed.

Lemma slot_fpu cpu fpu r : SlotF r ∈ set_slots cpu fpu -> r ∈ registers_in fpu.
Proof.
  unfold set_slots. intros [(x & E & _)%list_elem_of_fmap|(x & E & Hx)%list_elem_of_fmap]%elem_of_app;
    [discriminate E|]. by injection E as ->.
Qed.

(** The state after a block, as the loop leaves it. *)
Lemma block_reaches bytes l s t :
  block bytes l -> runnable bytes s -> spares l s (pc_ s) (Z.of_nat (length bytes)) -> run_effects l s = Ok t ->
  pc_ t = pc_ s ->
  exists n, steps s n (moved (Z.of_nat (length bytes)) n t) /\
    pc_ (moved (Z.of_nat (length bytes)) n t) = pc_ s + Z.of_nat (length bytes).
Proof.
  intros Hb Hrun Hsp Et Ep. exists (length l). pose proof (block_runs bytes l Hb s Hrun Hsp) as Hx.
  unfold executes in Hx. rewrite Et in Hx. split; [exact Hx|]. cbn. rewrite Ep.
  destruct Hrun as [Hok _ Hend _]. pose proof (ok_pc s Hok) as [? ?]. apply ux_small. unfold inU. lia.
Qed.

Lemma moved_value d n t k : slot_value (moved d n t) k = slot_value t k.
Proof. by destruct k. Qed.

(** What a push leaves behind. *)
Record pushed (ks : list saved) (s t : Sim) : Prop := {
  pushed_sp : get_xreg t Reg.SP = get_xreg s Reg.SP - total ks;
  pushed_base : stack_base_ t = stack_base_ s;
  pushed_regs : forall k, slot_ok k -> k <> SlotX Reg.SP -> slot_value t k = slot_value s k;
  pushed_dom : dom (mem_ t) = dom (mem_ s);
  pushed_mem : forall x, x < get_xreg t Reg.SP \/ get_xreg s Reg.SP <= x -> mem_ t !! x = mem_ s !! x;
  pushed_slots : Forall (fun sl => slot_holds (mem_ t) (get_xreg t Reg.SP + sl.2) sl.1 (slot_value s sl.1))
    (layout 0 ks)
}.

Section PushPop.
Context (ks : list saved) (Hks : Forall slot_ok ks) (Hnd : NoDup ks).
Context (Hsp : SlotX Reg.SP ∉ ks) (Hzr : SlotX Reg.ZR ∉ ks).

Lemma layout_ok sl : sl ∈ layout 0 ks -> slot_ok sl.1.
Proof. intros Hin%layout_slots. rewrite Forall_forall in Hks. by apply Hks. Qed.

Lemma push_runs bytes s :
  block bytes (push_effects ks) -> runnable bytes s -> stack_room s (total ks) bytes ->
  (forall r, SlotF r ∈ ks -> inU 64 (get_fregd s r)) ->
  exists n t, steps s n t /\ pc_ t = pc_ s + Z.of_nat (length bytes) /\ pushed ks s t.
Proof.
  intros Hb Hrun [Hlow Hmap Hbase Hclear] Hfr. pose proof Hrun as [Hok _ _ _].
  pose proof (total_nonneg ks) as Hsz. set (size := total ks) in *.
  destruct (get_xreg_ok s Reg.SP Hok ltac:(done)) as [Hsp0 Hsp1].
  destruct (adjust_runs size (- size) s Hok ltac:(lia)) as (s1 & E1 & Hok1 & (xs & fs & Er1) & Esp & Hv1 & Hspare).
  rewrite ux_small in Esp by (unfold inU; lia). assert (mem_ s1 = mem_ s) as Em1 by by rewrite Er1.
  assert (stack_base_ s1 = stack_base_ s) as Eb1 by by rewrite Er1.
  assert (stack_area s1 size) as Ha.
  { split; [|rewrite Eb1, Esp; lia]. rewrite Em1, Esp. exact Hmap. }
  assert (Forall (stored_ok s1) ks) as Hst.
  { rewrite Forall_forall in Hks |- *. intros k Hk. split; [by apply Hks|]. intros r ->.
    pose proof (Hv1 (SlotF r) (Hks _ Hk) ltac:(done)) as Ef. cbn [slot_value] in Ef. rewrite Ef. by apply Hfr. }
  destruct (run_saves size ks 0 s1) as (m' & E2 & Hd & Hok2 & Hf & Hh); [done..|].
  fold size in Hf. rewrite Z.add_0_r, Esp, Em1 in Hf. rewrite Em1 in Hd.
  assert (run_effects (push_effects ks) s = Ok (set_mem s1 m')) as E.
  { unfold push_effects. rewrite run_effects_app. fold size. rewrite E1. exact E2. }
  destruct (block_reaches bytes (push_effects ks) s (set_mem s1 m')) as (n & Hsteps & Hpc);
    [done|done| |done|by rewrite Er1|].
  { unfold push_effects. fold size. apply spares_app; [apply Hspare|]. rewrite E1. intros t Et. apply Ok_inj in Et as <-.
    apply (spares_saves _ _ _ _ size); [done|lia| |lia]. apply Forall_forall. intros sl Hsl. apply elem_of_reverse in Hsl.
    rewrite ?reverse_involutive in Hsl.
    pose proof (layout_range 0 ks) as Hr. rewrite Forall_forall in Hr. fold size in Hr.
    destruct (Hr sl Hsl). split; [by apply layout_ok|lia]. }
  eexists n, _. split; [exact Hsteps|]. split; [exact Hpc|].
  assert (forall k, slot_ok k -> k <> SlotX Reg.SP -> slot_value s1 k = slot_value s k) as Hv by exact Hv1.
  constructor.
  - exact Esp.
  - exact Eb1.
  - exact Hv.
  - exact Hd.
  - intros x Hx. apply Hf. change (x < get_xreg s1 Reg.SP \/ get_xreg s Reg.SP <= x) in Hx. rewrite Esp in Hx. lia.
  - rewrite Forall_forall in *. intros sl Hsl. rewrite <- Hv; [by apply Hh|by apply layout_ok|].
    intros Ek. apply Hsp. rewrite <- Ek. by eapply layout_slots.
Qed.

Lemma pop_runs bytes s0 s t :
  block bytes (pop_effects ks) -> runnable bytes s -> pushed ks s0 t -> sim_ok s0 ->
  stack_room s0 (total ks) [] ->
  get_xreg s Reg.SP = get_xreg t Reg.SP -> stack_base_ s = stack_base_ t ->
  (forall x, get_xreg t Reg.SP <= x < get_xreg s0 Reg.SP -> mem_ s !! x = mem_ t !! x) ->
  exists n t', steps s n t' /\ pc_ t' = pc_ s + Z.of_nat (length bytes) /\
    mem_ t' = mem_ s /\ get_xreg t' Reg.SP = get_xreg s0 Reg.SP /\
    (forall k, slot_ok k -> k <> SlotX Reg.SP ->
       slot_value t' k = if decide (k ∈ ks) then slot_value s0 k else slot_value s k).
Proof.
  intros Hb Hrun [Esp Eb Hregs Hd Hm Hsl] Hok0 [Hlow Hmap Hbase _] Esp2 Eb2 Hmem.
  pose proof Hrun as [Hok _ _ _]. pose proof (total_nonneg ks) as Hsz.
  set (size := total ks) in *.
  assert (stack_area s size) as Ha.
  { split; [|rewrite Esp2, Esp, Eb2, Eb; lia]. intros x Hx. rewrite Esp2, Esp in Hx.
    rewrite Hmem by lia. apply elem_of_dom. rewrite Hd. apply elem_of_dom, Hmap. lia. }
  destruct (run_loads size ks 0 s (slot_value s0)) as (s1 & E1 & Hok1 & (xs & fs & Er1) & Hv1);
    [done..| |].
  { pose proof (layout_range 0 ks) as Hr. fold size in Hr.
    rewrite Forall_forall in Hr, Hsl |- *. intros sl Hin. specialize (Hr sl Hin). rewrite Esp2.
    eapply slot_holds_frame; [|by apply Hsl]. intros x Hx. apply Hmem. rewrite Esp in *. lia. }
  destruct (adjust_runs size size s1 Hok1 ltac:(lia)) as (s2 & E2 & Hok2 & (xs' & fs' & Er2) & Esp' & Hv2 & Hspare).
  assert (run_effects (pop_effects ks) s = Ok s2) as E.
  { unfold pop_effects. rewrite run_effects_app, E1. exact E2. }
  destruct (block_reaches bytes (pop_effects ks) s s2) as (n & Hsteps & Hpc);
    [done|done| |done|by rewrite Er2, Er1|].
  { unfold pop_effects. apply spares_app; [apply spares_loads|]. rewrite E1. intros u Eu. apply Ok_inj in Eu as <-. apply Hspare. }
  eexists n, _. split; [exact Hsteps|]. split; [exact Hpc|]. split_and!.
  - cbn. by rewrite Er2, Er1.
  - change (get_xreg s2 Reg.SP = get_xreg s0 Reg.SP). rewrite Esp'.
    pose proof (Hv1 (SlotX Reg.SP) ltac:(done)) as Es. cbn [slot_value] in Es.
    rewrite decide_False in Es by done. rewrite Es, Esp2, Esp.
    rewrite Z.sub_add. by apply ux_small, get_xreg_ok.
  - intros k Hk Hne. rewrite moved_value, Hv2, Hv1 by done. done.
Qed.

End PushPop.

(** C32. [PushRegisters] and [PopRegisters] for any set of CPU and FPU
    registers without SP and the zero register, given room on the stack: the
    push moves SP down by the size of the set, changes no other register and
    no memory outside that room; a pop of the same set at any later time, when
    SP and the pushed words are as the push left them, gives every register of
    the set its old value back, moves SP back, and changes no other register
    and no memory. *)
Theorem PushPopRegisters_spec cpu fpu m b :
  Supports (asm_ m) RV_I = true -> Supports (asm_ m) RV_F = true -> Supports (asm_ m) RV_D = true ->
  reg_in cpu Reg.SP = false -> reg_in cpu Reg.ZR = false ->
  exists push pop,
    PushRegisters cpu fpu m = Ok (append m push) /\
    PopRegisters cpu fpu (at_buffer m b) = Ok (append (at_buffer m b) pop) /\
    forall s, runnable push s -> stack_room s (register_set_size cpu fpu) push ->
      (forall r, r ∈ registers_in fpu -> inU 64 (get_fregd s r)) ->
      exists n t, steps s n t /\ pc_ t = pc_ s + Z.of_nat (length push) /\ pushed (set_slots cpu fpu) s t /\
      forall s2, runnable pop s2 -> get_xreg s2 Reg.SP = get_xreg t Reg.SP -> stack_base_ s2 = stack_base_ t ->
        (forall x, get_xreg t Reg.SP <= x < get_xreg s Reg.SP -> mem_ s2 !! x = mem_ t !! x) ->
        exists n2 t2, steps s2 n2 t2 /\ pc_ t2 = pc_ s2 + Z.of_nat (length pop) /\
          mem_ t2 = mem_ s2 /\ get_xreg t2 Reg.SP = get_xreg s Reg.SP /\
          (forall k, slot_ok k -> k <> SlotX Reg.SP ->
             slot_value t2 k = if decide (k ∈ set_slots cpu fpu) then slot_value s k else slot_value s2 k).
Proof.
  intros HI HF HD Hsp Hzr.
  destruct (PushRegisters_emits m HI HF HD cpu fpu (buffer_ (asm_ m))) as (push & E1 & Hb1).
  destruct (PopRegisters_emits m HI HF HD cpu fpu b) as (pop & E2 & Hb2).
  rewrite at_buffer_same in E1. exists push, pop. split; [done|]. split; [done|].
  intros s Hrun Hroom Hfr. rewrite <- total_set in Hroom.
  assert (Forall slot_ok (set_slots cpu fpu)) as Hks by (apply Forall_forall; apply set_slots_ok).
  pose proof (set_slots_NoDup cpu fpu) as Hnd. pose proof (no_slot cpu fpu _ Hsp) as Hsp'.
  pose proof (no_slot cpu fpu _ Hzr) as Hzr'. pose proof (slot_fpu cpu fpu) as Hfpu.
  revert Hb1 Hb2 Hroom Hks Hnd Hsp' Hzr' Hfpu. generalize (set_slots cpu fpu) as ks.
  intros ks Hb1 Hb2 Hroom Hks Hnd Hsp' Hzr' Hfpu.
  destruct (push_runs ks Hks Hsp' push s Hb1 Hrun Hroom) as (n & t & Hst & Hpc & Hp); [by intros r Hr%Hfpu; apply Hfr|].
  exists n, t. do 3 (split; [done|]). intros s2 Hrun2 Es Eb Hm.
  apply (pop_runs ks Hks Hnd Hsp' Hzr' pop s s2 t); try done; [apply Hrun|].
  destruct Hroom as [H1' H2' H3' H4']. constructor; try done. cbn. lia.
Qed.

End MacroStack.
