(* ===== verification/MacroMem.v ===== *)
(** * MacroMem: words in memory and the macros that access them

    [word_at] and [put_word] read and write a word of memory.  Code is
    summarised by [does]: as a function on the registers (all but TMP2, which
    the macros use for far offsets) and the memory, for a release build.  The
    macros are [LoadFromOffset], [StoreToOffset], [PushRegister] and
    [PopRegister]. *)

From stdpp Require Import base numbers list gmap.
From Stdlib Require Import Lia.
From S2P Require Import Prelude Constants Encoding CEncoding AsmBuffer MicroAsm AsmBranch SimState.
From S2P Require Import SimInt SimAtomic SimFloat SimCompressed Simulator Isa IntSpec BitSpec.
From S2P Require Import AsmExec AsmFormats RefineOp RefineImm RefineMem Refinement.
From S2P Require Import SimInv AsmSites RefineBranch RefineLabel SimMemSpec AsmSeq ObjectPool Assembler.
From S2P Require Import MacroSeq MacroStack.

#[local] Open Scope Z_scope.
#[local] Open Scope res_scope.
#[local] Open Scope code_scope.

(** ** Words *)

Section Words.
Context `{Target}.
Implicit Types M : memory.

Definition word_at (M : memory) (a : Z) : Z :=
  match LoadUnaligned (lop_type wload) M a with Ok x => ux x | Err _ => 0 end.

Definition put_word (M : memory) (a v : Z) : memory :=
  match StoreUnaligned (stop_type wstore) M a (cast (stop_type wstore) v) with Ok M' => M' | Err _ => M end.

(** The word at [a] is memory within the address space, clear of the [n] bytes
    of code at [lo]. *)
Record word_ok (lo n : Z) (M : memory) (a : Z) : Prop := {
  word_range : 0 <= a /\ a + kWordSize <= 2 ^ XLEN;
  word_mapped : mapped M a kWordSize;
  word_clear : a + kWordSize <= lo \/ lo + n <= a
}.

Lemma word_sizes_nat :
  Z.of_nat (Z.to_nat (sizeof (stop_type wstore))) = kWordSize /\
  Z.of_nat (Z.to_nat (sizeof (lop_type wload))) = kWordSize.
Proof. rewrite !sizeof_nat. destruct word_sizes as (-> & -> & _). done. Qed.

Lemma put_word_ok M a v :
  mapped M a kWordSize -> StoreUnaligned (stop_type wstore) M a (cast (stop_type wstore) v) = Ok (put_word M a v).
Proof.
  intros Hm. unfold put_word, StoreUnaligned.
  destruct (store_bytes_total (Z.to_nat (sizeof (stop_type wstore))) M a (cast (stop_type wstore) v)) as [M' ->]; [|done].
  by rewrite (proj1 word_sizes_nat).
Qed.

Lemma put_word_dom M a v : dom (put_word M a v) = dom M.
Proof.
  unfold put_word, StoreUnaligned. destruct (store_bytes _ _ _ _) eqn:E; [|done]. by eapply store_bytes_dom.
Qed.

Lemma put_word_mapped M a v b n : mapped M b n -> mapped (put_word M a v) b n.
Proof. intros Hm x Hx. apply elem_of_dom. rewrite put_word_dom. by apply elem_of_dom, Hm. Qed.

Lemma put_word_other M a v x : x < a \/ a + kWordSize <= x -> put_word M a v !! x = M !! x.
Proof.
  intros Hx. unfold put_word, StoreUnaligned. destruct (store_bytes _ _ _ _) eqn:E; [|done].
  eapply store_bytes_other; [exact E|]. by rewrite (proj1 word_sizes_nat).
Qed.

Lemma word_at_ext M M' a : (forall x, a <= x < a + kWordSize -> M' !! x = M !! x) -> word_at M' a = word_at M a.
Proof.
  intros Hx. unfold word_at, LoadUnaligned. rewrite (load_bytes_frame M M'); [done|].
  by rewrite (proj2 word_sizes_nat).
Qed.

Lemma word_at_put M a v : mapped M a kWordSize -> inU XLEN v -> word_at (put_word M a v) a = v.
Proof.
  intros Hm Hv. unfold word_at. destruct (word_holds (put_word M a v) a v Hv) as (x & -> & <-); [|done].
  pose proof (put_word_ok M a v Hm) as E. unfold StoreUnaligned in E. unfold LoadUnaligned.
  rewrite (load_bytes_split _ _ _ (cast (stop_type wstore) v)) by (by eapply store_bytes_at). cbn [rbind].
  rewrite sizeof_nat. change (8 * sizeof ?ty) with (ctype_bits ty). by rewrite cast_mod, cast_cast.
Qed.

Lemma word_at_put_other M a v b :
  b + kWordSize <= a \/ a + kWordSize <= b -> word_at (put_word M a v) b = word_at M b.
Proof. intros Hb. apply word_at_ext. intros x Hx. apply put_word_other. lia. Qed.

Lemma word_at_range M a : inU XLEN (word_at M a).
Proof. unfold word_at. destruct (LoadUnaligned _ _ _); [apply ux_range|]. unfold inU.
destruct XLEN_cases as [-> | ->]; lia. Qed.

Lemma load_bytes_mapped n : forall M a, mapped M a (Z.of_nat n) -> exists v, load_bytes M a n = Ok v.
Proof.
  induction n as [|n IH]; intros M a Hm; cbn [load_bytes]; [by eexists|].
  destruct (Hm a ltac:(lia)) as [b ->]. destruct (IH M (a + 1)) as [v ->]; [|by eexists].
  intros x Hx. apply Hm. lia.
Qed.

Lemma word_at_ok M a :
  mapped M a kWordSize -> exists x, LoadUnaligned (lop_type wload) M a = Ok x /\ ux x = word_at M a.
Proof.
  intros Hm. unfold word_at, LoadUnaligned.
  destruct (load_bytes_mapped (Z.to_nat (sizeof (lop_type wload))) M a) as [v ->]; [|by eexists].
  by rewrite (proj2 word_sizes_nat).
Qed.

End Words.

(** ** Code as a function of registers and memory *)

(** The registers' values and the memory. *)
Abbreviation mach := ((Z -> Z) * memory)%type.

Definition upd (R : Z -> Z) (r v : Z) : Z -> Z := fun x => if x =? r then v else R x.

Lemma upd_same R r v : upd R r v r = v.
Proof. unfold upd. by rewrite Z.eqb_refl. Qed.

Lemma upd_other R r v x : x <> r -> upd R r v x = R x.
Proof. intros Hne. unfold upd. by rewrite (proj2 (Z.eqb_neq _ _)). Qed.

Section MacroMem.
Context `{Target} `{HostNaN} `{Host} {T : Type} `{ops : !IndexTableOps T}.

#[local] Notation MacroAsm := (MacroAsm T).
#[local] Notation code := (code T).

Definition view (s : Sim) (σ : mach) : Prop :=
  sim_ok s /\ mem_ s = σ.2 /\ forall r, inU 5 r -> r <> TMP2 -> get_xreg s r = σ.1 r.

(** At every position of the buffer, [c] emits code that from a state where [P]
    holds of the place of the whole code, the registers and the memory takes
    them to [f] of them, without a store into the code. *)
Definition does (c : code) (m : MacroAsm) (P : Z -> Z -> mach -> Prop) (f : mach -> mach) : Prop :=
  exists l, (forall b, memits c (at_buffer m b) l) /\
    forall s σ lo n, view s σ -> P lo n σ ->
      exists t, run_effects l s = Ok t /\ spares l s lo n /\ view t (f σ).

Lemma does_skip m P : does skip m P id.
Proof.
  exists []. split; [intros; apply memits_skip|]. intros s σ lo n Hv _. exists s. by split_and!.
Qed.

Lemma does_then c1 c2 m P1 P2 P f1 f2 g :
  does c1 m P1 f1 -> does c2 m P2 f2 ->
  (forall lo n σ, P lo n σ -> P1 lo n σ /\ P2 lo n (f1 σ) /\ f2 (f1 σ) = g σ) ->
  does (c1 >> c2) m P g.
Proof.
  intros (l1 & E1 & H1') (l2 & E2 & H2') HP. exists (l1 ++ l2). split.
  - intros b. apply memits_then; [apply E1|]. intros b'. apply E2.
  - intros s σ lo n Hv Hp. destruct (HP _ _ _ Hp) as (Hp1 & Hp2 & <-).
    destruct (H1' s σ lo n Hv Hp1) as (t & Et & Hs1 & Hvt).
    destruct (H2' t (f1 σ) lo n Hvt Hp2) as (u & Eu & Hs2 & Hvu). exists u.
    split_and!; [by rewrite run_effects_app, Et| |done].
    apply spares_app; [done|]. rewrite Et. intros t' Et'. by apply Ok_inj in Et' as <-.
Qed.

Lemma does_weaken c m (P Q : Z -> Z -> mach -> Prop) f : does c m Q f -> (forall lo n σ, P lo n σ -> Q lo n σ) -> does c m P f.
Proof. intros (l & E & Hl) HPQ. exists l. split; [done|]. intros. by apply Hl; [|apply HPQ]. Qed.

Lemma does_ext c m P f g : does c m P f -> (forall lo n σ, P lo n σ -> f σ = g σ) -> does c m P g.
Proof. intros (l & E & Hl) Hfg. exists l. split; [done|]. intros s σ lo n Hv Hp. rewrite <- (Hfg lo n) by done.
by apply Hl. Qed.

Lemma does_eq (c c' : code) m P f : (forall b, c (at_buffer m b) = c' (at_buffer m b)) -> does c' m P f -> does c m P f.
Proof.
  intros E (l & El & Hl). exists l. split; [|done]. intros b. destruct (El b) as (bytes & Eb & Hb).
  exists bytes. by rewrite E.
Qed.

Lemma does_check cond (c : code) m P f : cond = true -> does c m P f -> does (check cond >> c) m P f.
Proof. intros Hb. apply does_eq. intros b'. unfold andthen, check. by rewrite ASSERT_true. Qed.

(** A write of a register. *)
Lemma view_write s σ rd v :
  view s σ -> inU 5 rd -> rd <> Reg.ZR -> view (set_xreg s rd v) (upd σ.1 rd (ux v), σ.2).
Proof.
  intros (Hok & Hm & Hr) Hd Hz. split_and!; [by apply ok_set_xreg| |].
  - rewrite <- Hm. cbn [snd]. unfold set_xreg. by rewrite (proj2 (Z.eqb_neq _ _) Hz).
  - intros r Hr5 Hne. rewrite get_set_xreg by done. unfold upd. cbn [fst].
    rewrite (proj2 (Z.eqb_neq rd Reg.ZR) Hz), andb_true_r. destruct (r =? rd); [done|by apply Hr].
Qed.

Lemma view_scratch l s σ :
  Forall is_write l -> map dest l ⊆ [TMP2] -> view s σ -> view (after l s) σ.
Proof.
  intros Hl Hd (Hok & Hm & Hr). split_and!; [by apply after_ok|by rewrite (after_regs l s Hl)|].
  intros r H5 Hne. rewrite after_other; [by apply Hr|done..|]. set_solver.
Qed.

(** ** Addresses *)

Section Macros.
Context (m : MacroAsm) (HI : Supports (asm_ m) RV_I = true).
Context (Hrel : DEBUG = false).

(** What [PrepareLargeOffset] computes in TMP2 when the offset is far. *)
Definition far_effects (breg off : Z) : list effect :=
  [EWrite TMP2 (fun _ => ImmHi off); EWrite TMP2 (fun R => rop_sem ADD (R TMP2) (R breg))].
Definition offset_effects (breg off : Z) : list effect := if IsITypeImm off then [] else far_effects breg off.
Definition offset_address (breg off : Z) : Address :=
  if IsITypeImm off then mkAddress breg off else mkAddress TMP2 (ImmLo off).

Section At.
Context (breg off : Z) (Hb5 : inU 5 breg) (Hbz : breg <> Reg.ZR) (Hbt : breg <> TMP2).
Context (Hfar : far_fits off = true).

Lemma offset_address_wf : wf_address (offset_address breg off).
Proof. unfold offset_address. destruct (IsITypeImm off) eqn:E; split; cbn [base offset]; [done..|]. apply ImmLo_fits.
Qed.

Lemma offset_writes : Forall is_write (offset_effects breg off) /\ map dest (offset_effects breg off) ⊆ [TMP2].
Proof. clear Hb5 Hbz Hbt Hfar. unfold offset_effects.
destruct (IsITypeImm off); (split; [by repeat constructor|cbn; set_solver]). Qed.

Lemma offset_effective s :
  sim_ok s -> effective (after (offset_effects breg off) s) (offset_address breg off) = ux (get_xreg s breg + off).
Proof.
  intros Hok. unfold effective, offset_effects, offset_address. destruct (IsITypeImm off) eqn:E; [done|].
  cbn [after far_effects foldl base offset].
  rewrite get_set_xreg_same by (repeat apply ok_set_xreg; done). cbn [rop_sem].
  rewrite get_set_xreg_same by done. rewrite get_set_xreg_other by done.
  rewrite ux_add_l, <- Z.add_assoc, ux_add_l. f_equal. pose proof (ImmSplit off Hfar). lia.
Qed.

Lemma at_offset_emits (access : Address -> Asm -> Res Asm) (e : Address -> effect) :
  (forall b addr, wf_address addr -> memits (emit (access addr)) (at_buffer m b) [e addr]) ->
  forall b, memits (at_offset (mkAddress breg off) access) (at_buffer m b)
    (offset_effects breg off ++ [e (offset_address breg off)]).
Proof.
  intros Hacc b. pose proof offset_address_wf as Hwf. unfold at_offset, PrepareLargeOffset. cbn [base offset].
  assert (differ breg TMP2 = true) as Hd by by apply negb_true_iff, Z.eqb_neq.
  unfold offset_effects, offset_address in *. destruct (IsITypeImm off) eqn:E.
  { destruct (Hacc b _ Hwf) as (bytes & Eb & Hb). exists bytes. split; [|done].
    rewrite ASSERT_true by done. exact Eb. }
  assert (ImmHi off <> 0) as Hhi.
  { intros E0. pose proof (ImmSplit off Hfar) as Es. rewrite E0, Z.add_0_l in Es.
    pose proof (ImmLo_fits off) as Hl. rewrite Es in Hl. congruence. }
  assert (memits (emit (MicroAssembler.lui TMP2 (ImmHi off)) >> emit (MicroAssembler.add TMP2 TMP2 breg)) (at_buffer m b)
    (far_effects breg off)) as Hpre.
  { apply (memits_then _ _ _ [_] [_]).
    - apply m_lui; [done..|apply ImmHi_fits|apply ImmHi_fits|done].
    - intros b'. by apply (m_rop (at_buffer m b') ADD). }
  destruct (memits_then _ _ (at_buffer m b) _ _ Hpre (fun b' => Hacc b' _ Hwf)) as (bytes & Eb & Hb).
  exists bytes. split; [|done]. revert Eb. unfold andthen at 1.
  rewrite !ASSERT_true by (done || by apply negb_true_iff, Z.eqb_neq).
  cbn [rbind]. destruct ((emit _ >> emit _) (at_buffer m b)); [|done]. cbn [rbind fst snd]. done.
Qed.

End At.

(** ** Loads and stores *)

Lemma word_methods :
  load_method kWordBytes = Some (fun rd addr => lop_asm wload rd addr) /\
  store_method kWordBytes = Some (fun rs addr => stop_asm wstore rs addr) /\
  lop_width wload /\ stop_width wstore.
Proof. unfold load_method, store_method, kWordBytes, wload, wstore. by destruct XLEN_cases as [E|E]; rewrite E. Qed.

Lemma release_access s ty addr r : CheckAccess s ty addr r = Ok tt.
Proof. unfold CheckAccess. by rewrite Hrel. Qed.

Lemma view_address s σ breg off a :
  view s σ -> inU 5 breg -> breg <> TMP2 -> a = σ.1 breg + off -> 0 <= a < 2 ^ XLEN -> ux (get_xreg s breg + off) = a.
Proof. intros (_ & _ & Hr) H5 Hne -> Ha. rewrite Hr by done. by apply ux_small. Qed.

Lemma word_size_pos : 0 < kWordSize.
Proof. apply word_sizes. Qed.

(** A word access at an effective address. *)
Lemma run_load s σ rd addr a lo n :
  view s σ -> inU 5 rd -> rd <> Reg.ZR -> effective s addr = a -> word_ok lo n σ.2 a ->
  exists t, run_effects [ELoad wload rd addr] s = Ok t /\ spares [ELoad wload rd addr] s lo n /\
    view t (upd σ.1 rd (word_at σ.2 a), σ.2).
Proof.
  intros Hv Hd Hz Ea [_ Hm _]. destruct (word_at_ok _ _ Hm) as (x & Ex & <-).
  exists (set_xreg s rd x). cbn [run_effects effect_sem]. unfold MemoryRead.
  rewrite release_access, Ea. pose proof Hv as (_ & Em & _). rewrite Em, Ex. split; [done|]. split; [done|].
  by apply view_write.
Qed.

Lemma run_store s σ rs addr a lo n :
  view s σ -> inU 5 rs -> rs <> TMP2 -> effective s addr = a -> word_ok lo n σ.2 a ->
  exists t, run_effects [EStore wstore rs addr] s = Ok t /\ spares [EStore wstore rs addr] s lo n /\
    view t (σ.1, put_word σ.2 a (σ.1 rs)).
Proof.
  intros (Hok & Em & Hr) Hd Hz Ea [Hra Hm Hc].
  assert (effect_sem (EStore wstore rs addr) s = Ok (set_mem s (put_word σ.2 a (σ.1 rs)))) as E.
  { cbn [effect_sem]. unfold MemoryWrite. rewrite release_access, Ea, Em, Hr by done. cbn [rbind].
    by rewrite put_word_ok. }
  eexists. cbn [run_effects]. rewrite E. split; [done|]. split.
  { cbn. split; [|done]. unfold spares1. cbn [effect_stores]. destruct word_sizes as (_ & -> & _). by rewrite Ea. }
  split; [by eapply (effect_ok (EStore wstore rs addr))|]. done.
Qed.

(** After the scratch computation of a far address. *)
Lemma run_at breg off s σ e lo n f :
  inU 5 breg -> breg <> TMP2 -> far_fits off = true ->
  (forall t, view t σ -> effective t (offset_address breg off) = ux (get_xreg s breg + off) ->
    exists u, run_effects [e] t = Ok u /\ spares [e] t lo n /\ view u (f σ)) ->
  view s σ ->
  exists t, run_effects (offset_effects breg off ++ [e]) s = Ok t /\ spares (offset_effects breg off ++ [e]) s lo n /\ view t (f σ).
Proof.
  intros H5 Hne Hfar Hrun Hv. destruct (offset_writes breg off) as [Hw Hd].
  assert (view (after (offset_effects breg off) s) σ) as Hv'.
  { apply view_scratch; [exact Hw|exact Hd|exact Hv]. }
  destruct (Hrun _ Hv') as (u & Eu & Hs & Hvu); [by apply offset_effective; [..|destruct Hv]|].
  exists u. split_and!; [by rewrite run_effects_app, run_writes| |done].
  apply spares_app; [by apply spares_writes|]. rewrite run_writes by done. intros t Et. by apply Ok_inj in Et as <-.
Qed.

Lemma does_load rd breg off :
  inU 5 rd -> rd <> Reg.ZR -> inU 5 breg -> breg <> Reg.ZR -> breg <> TMP2 -> far_fits off = true ->
  does (LoadFromOffset rd (mkAddress breg off) kWordBytes) m
    (fun lo n σ => word_ok lo n σ.2 (σ.1 breg + off))
    (fun σ => (upd σ.1 rd (word_at σ.2 (σ.1 breg + off)), σ.2)).
Proof.
  intros Hd Hz Hb Hbz Hbt Hfar. destruct word_methods as (El & _ & Hw & _).
  unfold LoadFromOffset. rewrite El. eexists. split.
  - apply (at_offset_emits breg off Hb Hbz Hbt Hfar _ (fun addr => ELoad wload rd addr)).
    intros b addr Ha. by apply (m_load (at_buffer m b)).
  - intros s σ lo n Hv Hok. apply (run_at breg off s σ _ lo n (fun σ => (upd σ.1 rd (word_at σ.2 (σ.1 breg + off)), σ.2))); try done.
    intros t Hvt Ea. apply (run_load t σ); [done..| |done]. rewrite Ea. apply (view_address s σ); try done.
    destruct Hok as [? _ _]. pose proof word_size_pos. lia.
Qed.

Lemma does_store rs breg off :
  inU 5 rs -> rs <> TMP2 -> inU 5 breg -> breg <> Reg.ZR -> breg <> TMP2 -> far_fits off = true ->
  does (StoreToOffset rs (mkAddress breg off) kWordBytes) m
    (fun lo n σ => word_ok lo n σ.2 (σ.1 breg + off))
    (fun σ => (σ.1, put_word σ.2 (σ.1 breg + off) (σ.1 rs))).
Proof.
  intros Hd Hz Hb Hbz Hbt Hfar. destruct word_methods as (_ & El & _ & Hw).
  unfold StoreToOffset. rewrite El. eexists. split.
  - apply (at_offset_emits breg off Hb Hbz Hbt Hfar _ (fun addr => EStore wstore rs addr)).
    intros b addr Ha. by apply (m_store (at_buffer m b)).
  - intros s σ lo n Hv Hok. apply (run_at breg off s σ _ lo n (fun σ => (σ.1, put_word σ.2 (σ.1 breg + off) (σ.1 rs)))); try done.
    intros t Hvt Ea. apply (run_store t σ); [done..| |done]. rewrite Ea. apply (view_address s σ); try done.
    destruct Hok as [? _ _]. pose proof word_size_pos. lia.
Qed.

(** ** Registers and the stack *)

Lemma does_write f rd v g P :
  inU 5 rd -> rd <> Reg.ZR -> (forall b, memits (emit f) (at_buffer m b) [EWrite rd v]) ->
  (forall s σ, view s σ -> ux (v (get_xreg s)) = g σ) ->
  does (emit f) m P (fun σ => (upd σ.1 rd (g σ), σ.2)).
Proof.
  intros Hd Hz E Hg. exists [EWrite rd v]. split; [done|]. intros s σ lo n Hv _.
  eexists. split; [done|]. split; [done|]. rewrite <- (Hg s σ Hv). by apply view_write.
Qed.

Lemma view_reg s σ r : view s σ -> inU 5 r -> r <> TMP2 -> get_xreg s r = σ.1 r /\ inU XLEN (σ.1 r).
Proof. intros (Hok & _ & Hr) H5 Hne. rewrite <- (Hr r) by done. split; [done|by apply get_xreg_ok]. Qed.

Lemma does_mv rd rs P :
  inU 5 rd -> rd <> Reg.ZR -> inU 5 rs -> rs <> TMP2 ->
  does (emit (MicroAssembler.mv rd rs)) m P (fun σ => (upd σ.1 rd (σ.1 rs), σ.2)).
Proof.
  intros Hd Hz Hs Hst. eapply (does_write _ rd _ (fun σ => σ.1 rs)); [done..| |].
  - intros b. apply (m_iop (at_buffer m b) HI ADDI rd rs 0); try done. by apply IsITypeImm_small.
  - intros s σ Hv. destruct (view_reg s σ rs Hv) as [E Hr]; [done..|]. cbn. rewrite E, Z.add_0_r. by apply ux_small.
Qed.

Lemma does_adjust d :
  -2048 <= d < 2048 ->
  does (emit (MicroAssembler.addi Reg.SP Reg.SP d)) m (fun _ _ σ => 0 <= σ.1 Reg.SP + d < 2 ^ XLEN)
    (fun σ => (upd σ.1 Reg.SP (σ.1 Reg.SP + d), σ.2)).
Proof.
  intros Hd. exists [EWrite Reg.SP (fun R => iop_sem ADDI (R Reg.SP) d)]. split.
  - intros b. apply (m_iop (at_buffer m b) HI ADDI Reg.SP Reg.SP d); try done. by apply IsITypeImm_small.
  - intros s σ lo n Hv Hr. eexists. split; [done|]. split; [done|].
    destruct (view_reg s σ Reg.SP Hv) as [E _]; [done..|].
    replace (σ.1 Reg.SP + d) with (ux (iop_sem ADDI (get_xreg s Reg.SP) d)); [by apply view_write|].
    cbn. rewrite E. by apply ux_small.
Qed.

Lemma does_lx r :
  inU 5 r -> r <> Reg.ZR ->
  does (emit (MicroAssembler.lx r (mkAddress Reg.SP 0))) m (fun lo n σ => word_ok lo n σ.2 (σ.1 Reg.SP))
    (fun σ => (upd σ.1 r (word_at σ.2 (σ.1 Reg.SP)), σ.2)).
Proof.
  intros Hr Hz. eexists. split; [intros b; by apply (m_lx m)|]. intros s σ lo n Hv Hok.
  apply (run_load s σ r); try done. unfold effective. cbn. rewrite Z.add_0_r.
  destruct (view_reg s σ Reg.SP Hv) as [-> Hu]; [done..|]. by apply ux_small.
Qed.

Lemma does_sx r :
  inU 5 r -> r <> TMP2 ->
  does (emit (MicroAssembler.sx_ r (mkAddress Reg.SP 0))) m (fun lo n σ => word_ok lo n σ.2 (σ.1 Reg.SP))
    (fun σ => (σ.1, put_word σ.2 (σ.1 Reg.SP) (σ.1 r))).
Proof.
  intros Hr Hz. eexists. split; [intros b; by apply (m_sx m)|]. intros s σ lo n Hv Hok.
  apply (run_store s σ r); try done. unfold effective. cbn. rewrite Z.add_0_r.
  destruct (view_reg s σ Reg.SP Hv) as [-> Hu]; [done..|]. by apply ux_small.
Qed.

Definition push_word (r : Z) (σ : mach) : mach :=
  (upd σ.1 Reg.SP (σ.1 Reg.SP - kWordSize), put_word σ.2 (σ.1 Reg.SP - kWordSize) (σ.1 r)).
Definition pop_word (r : Z) (σ : mach) : mach :=
  (upd (upd σ.1 r (word_at σ.2 (σ.1 Reg.SP))) Reg.SP (σ.1 Reg.SP + kWordSize), σ.2).

Lemma does_push r :
  inU 5 r -> r <> TMP2 -> r <> Reg.SP ->
  does (PushRegister r) m (fun lo n σ => word_ok lo n σ.2 (σ.1 Reg.SP - kWordSize)) (push_word r).
Proof.
  intros Hr Ht Hsp. pose proof word_sizes as (_ & _ & Hw).
  apply does_check; [by apply negb_true_iff, Z.eqb_neq|].
  eapply (does_then _ _ _ _ _ _ (fun σ => (upd σ.1 Reg.SP (σ.1 Reg.SP + - kWordSize), σ.2)));
    [apply does_adjust; lia|by apply does_sx|].
  intros lo n σ Hok. cbn [fst snd]. rewrite upd_same, (upd_other _ _ _ r) by done.
  split; [|done]. destruct Hok as [? _ _]. lia.
Qed.

Lemma does_pop r :
  inU 5 r -> r <> Reg.ZR -> r <> Reg.SP ->
  does (PopRegister r) m
    (fun lo n σ => word_ok lo n σ.2 (σ.1 Reg.SP) /\ σ.1 Reg.SP + kWordSize < 2 ^ XLEN) (pop_word r).
Proof.
  intros Hr Hz Hsp. pose proof word_sizes as (_ & _ & Hw).
  apply does_check; [by apply negb_true_iff, Z.eqb_neq|].
  eapply (does_then _ _ _ _ _ _ (fun σ => (upd σ.1 r (word_at σ.2 (σ.1 Reg.SP)), σ.2)));
    [by apply does_lx|apply does_adjust; lia|].
  intros lo n σ [Hok Hx]. cbn [fst snd]. rewrite (upd_other _ r) by done.
  split; [done|]. split; [|done]. destruct Hok as [? _ _]. lia.
Qed.

End Macros.

End MacroMem.
