(* ===== verification/InstructionPattern.v ===== *)
(** * InstructionPattern: reading and patching call sites
    (runtime/vm/instructions_riscv.{h,cc}, code_patcher_riscv.cc)

    The runtime recognises the calls that the macro assembler emitted by
    decoding the instructions before a return address, and redirects them by
    writing to the object pool or to the instructions.  Code is read from the
    memory of SimState.v, where the simulator executes it.  An output
    parameter of a decoder is a component of its result.  [HeapPool] is the
    [ObjectPool] object that [ObjectPool::NewFromBuilder] makes of a builder's
    entries: a word and an entry type for each index.  The macros whose code
    the patterns recognise, and that Assembler.v does not hold, come first. *)

From stdpp Require Import base numbers list gmap.
From S2P Require Import Prelude Constants Encoding CEncoding AsmBuffer MicroAsm SimState.
From S2P Require Import HashMap ObjectPool Assembler.

#[local] Open Scope Z_scope.
#[local] Open Scope res_scope.
#[local] Open Scope code_scope.

(** ** Constants *)

Definition IC_DATA_REG : Z := Reg.S5.
Definition kSubtypeTestCacheReg : Z := Reg.T4.
Definition kHeapObjectTag : Z := 1.

Inductive CodeEntryKind : Set := kNormal | kUnchecked | kMonomorphic | kMonomorphicUnchecked.

(** [target::Code::entry_point_offset], from runtime_offsets_extracted.h. *)
Definition Code_entry_point_offset `{Target} (kind : CodeEntryKind) : Z :=
  if XLEN =? 64
  then match kind with kNormal => 0x8 | kUnchecked => 0x18 | kMonomorphic => 0x10
       | kMonomorphicUnchecked => 0x20 end
  else match kind with kNormal => 0x4 | kUnchecked => 0xc | kMonomorphic => 0x8
       | kMonomorphicUnchecked => 0x10 end.

Definition FieldAddress (base offset : Z) : Address := mkAddress base (offset - kHeapObjectTag).

Definition kObjectAlignment `{Target} : Z := 2 * kWordSize.
Definition kTrueOffsetFromNull `{Target} : Z := kObjectAlignment * 2.
Definition kFalseOffsetFromNull `{Target} : Z := kObjectAlignment * 3.

(** ** The macros that emit call sites *)

Section Macros.
Context `{Target} {T : Type} `{ops : !IndexTableOps T}.

#[local] Notation code := (code T).
Import MicroAssembler.

(** [Call(Address)]. *)
Definition Call_address (target : Address) : code :=
  emit (lx Reg.RA target) >> emit (jalr_link Reg.RA 0).

(** [JumpAndLink(target_code_pool_index, entry_kind)]. *)
Definition JumpAndLink (precompiled : bool) (target_code_pool_index : Z) (kind : CodeEntryKind) : code :=
  let code_reg := if precompiled then TMP else CODE_REG in
  LoadWordFromPoolIndex code_reg target_code_pool_index PP >>
  Call_address (FieldAddress code_reg (Code_entry_point_offset kind)).

(** [LoadUniqueObject]: [LoadObjectHelper] with [is_unique] set. *)
Definition LoadUniqueObject (dst object : Z) (behavior : SnapshotBehavior) : code := fun m =>
  HashMap.RELEASE_ASSERT (constant_pool_allowed_ m) ;;
  let* r := AddObject (mkEntry (kTaggedObject object object) kPatchable behavior)
              (object_pool_builder_ m) in
  LoadWordFromPoolIndex dst (fst r) PP (set_pool m (snd r)).

(** The call itself in [FlowGraphCompiler::EmitInstanceCallJIT]; the receiver
    is in its register. *)
Definition EmitInstanceCallJIT_call (stub ic_data : Z) (kind : CodeEntryKind) : code :=
  let entry_kind := match kind with kNormal => kMonomorphic | _ => kMonomorphicUnchecked end in
  LoadUniqueObject IC_DATA_REG ic_data kSnapshotable >>
  LoadUniqueObject CODE_REG stub kSnapshotable >>
  emit (lx Reg.RA (FieldAddress CODE_REG (Code_entry_point_offset entry_kind))) >>
  emit (jalr_link Reg.RA 0).

(** The call itself in [EmitInstanceCallAOT], in precompiled mode. *)
Definition EmitInstanceCallAOT_call (initial_stub data : Z) : code :=
  LoadUniqueObject Reg.RA initial_stub kResetToSwitchableCallMissEntryPoint >>
  LoadUniqueObject IC_DATA_REG data kSnapshotable >>
  emit (jalr_link Reg.RA 0).

Definition GenerateUnRelocatedPcRelativeCall (offset_into_target : Z) : code :=
  let lo := ImmLo offset_into_target in
  let hi := ImmHi offset_into_target in
  emit (auipc Reg.RA hi) >> emit (jalr_fixed Reg.RA Reg.RA lo).

Definition GenerateUnRelocatedPcRelativeTailCall (offset_into_target : Z) : code :=
  let lo := ImmLo offset_into_target in
  let hi := ImmHi offset_into_target in
  emit (auipc TMP hi) >> emit (jalr_fixed Reg.ZR TMP lo).

End Macros.

(** ** Decoding *)

Section InstructionPattern.
Context `{Target}.

Definition load16 (m : memory) (addr : Z) : Res Z := LoadUnaligned uint16_t m (ux addr).
Definition load32 (m : memory) (addr : Z) : Res Z := LoadUnaligned uint32_t m (ux addr).
Definition store32 (m : memory) (addr v : Z) : Res memory := StoreUnaligned uint32_t m (ux addr) v.

(** The load of a word: [LW] and [C_LW], or [LD] and [C_LD]. *)
Definition IsLoadX (instr : Z) : bool :=
  (Instr.opcode instr =? Opcode.LOAD) &&
  (Instr.funct3 instr =? if XLEN =? 32 then Funct3.LW else Funct3.LD).
Definition IsCLoadX (cinstr : Z) : bool :=
  CInstr.opcode cinstr =? if XLEN =? 32 then COpcode.C_LW else COpcode.C_LD.
Definition cmem_imm (cinstr : Z) : Z :=
  if XLEN =? 32 then CInstr.mem4_imm cinstr else CInstr.mem8_imm cinstr.

(** The outputs of [DecodeLoadX], when it returns true. *)
Record LoadX : Set := mkLoadX { x_dst : Z; x_base : Z; x_offset : Z; x_length : Z }.

Definition DecodeLoadX (m : memory) (end_ : Z) : Res (option LoadX) :=
  let* instr := load32 m (end_ - 4) in
  if IsLoadX instr then
    Ok (Some (mkLoadX (Instr.rd instr) (Instr.rs1 instr) (Instr.itype_imm instr) 4))
  else
    let* cinstr := load16 m (end_ - 2) in
    if IsCLoadX cinstr then
      Ok (Some (mkLoadX (CInstr.rdp cinstr) (CInstr.rs1p cinstr) (cmem_imm cinstr) 2))
    else Ok None.

(** The destination, the immediate and the length. *)
Definition DecodeLUI (m : memory) (end_ : Z) : Res (option (Z * Z * Z)) :=
  let* instr := load32 m (end_ - 4) in
  if Instr.opcode instr =? Opcode.LUI then Ok (Some (Instr.rd instr, Instr.utype_imm instr, 4))
  else
    let* cinstr := load16 m (end_ - 2) in
    if CInstr.opcode cinstr =? COpcode.C_LUI
    then Ok (Some (CInstr.rd cinstr, CInstr.u_imm cinstr, 2))
    else Ok None.

(** [ObjectPool::IndexFromOffset]; the division truncates. *)
Definition IndexFromOffset (offset : Z) : Res Z :=
  ASSERT (IsAligned (offset + kHeapObjectTag) kWordSize) ;;
  Ok (Z.quot (offset + kHeapObjectTag - element_offset 0) kWordSize).

(** The start of the sequence, the register and the index. *)
Record PoolLoad : Set := mkPoolLoad { l_start : Z; l_reg : Z; l_index : Z }.

Definition DecodeLoadWordFromPool (m : memory) (end_ : Z) : Res PoolLoad :=
  let* x := DecodeLoadX m end_ in
  match x with
  | None => Err Unreachable
  | Some (mkLoadX reg base lo length) =>
      if base =? PP then
        let* index := IndexFromOffset (lo - kHeapObjectTag) in
        Ok (mkPoolLoad (ux (end_ - length)) reg index)
      else
        ASSERT (base =? reg) ;;
        let end_ := ux (end_ - length) in
        let* add_instr := load16 m (end_ - 2) in
        ASSERT (CInstr.opcode add_instr =? COpcode.C_MV) ;;
        ASSERT (CInstr.rd add_instr =? base) ;;
        ASSERT (CInstr.rs1 add_instr =? base) ;;
        ASSERT (CInstr.rs2 add_instr =? PP) ;;
        let end_ := ux (end_ - 2) in
        let* u := DecodeLUI m end_ in
        match u with
        | None => Err Unreachable
        | Some (dst, hi, length) =>
            ASSERT (dst =? base) ;;
            let* index := IndexFromOffset (hi + lo - kHeapObjectTag) in
            Ok (mkPoolLoad (ux (end_ - length)) reg index)
        end
  end.

(** ** Object pools *)

Inductive EntryType : Set := EntryImmediate | EntryTaggedObject | EntryNativeFunction.

(** The words of the pool and their types. *)
Record HeapPool : Set := mkPool { p_data : list Z; p_types : list EntryType }.

#[export] Instance EntryType_eq_dec : EqDecision EntryType.
Proof. solve_decision. Defined.

Definition Pool_Length (p : HeapPool) : Z := Z.of_nat (length (p_data p)).

Definition pool_index {A} (l : list A) (index : Z) : Res A :=
  if index <? 0 then Err UndefinedBehavior
  else match l !! Z.to_nat index with Some x => Ok x | None => Err UndefinedBehavior end.

Definition TypeAt (p : HeapPool) (index : Z) : Res EntryType :=
  ASSERT ((0 <=? index) && (index <=? Pool_Length p)) ;; pool_index (p_types p) index.

Definition PoolEntryAt (p : HeapPool) (index : Z) : Res Z :=
  ASSERT ((0 <=? index) && (index <? Pool_Length p)) ;; pool_index (p_data p) index.

Definition SetPoolEntryAt (p : HeapPool) (index value : Z) : Res HeapPool :=
  let* _ := PoolEntryAt p index in
  Ok (mkPool (<[Z.to_nat index := value]> (p_data p)) (p_types p)).

Definition ObjectAt (p : HeapPool) (index : Z) : Res Z :=
  let* ty := TypeAt p index in
  ASSERT (bool_decide (ty = EntryTaggedObject)) ;; PoolEntryAt p index.

(** [obj.IsSmi()] of a tagged word. *)
Definition IsSmi (obj : Z) : bool := Z.land obj kSmiTagMask =? 0.

Definition SetObjectAt (p : HeapPool) (index obj : Z) : Res HeapPool :=
  let* ty := TypeAt p index in
  ASSERT (bool_decide (ty = EntryTaggedObject) || (bool_decide (ty = EntryImmediate) && IsSmi obj)) ;;
  SetPoolEntryAt p index obj.

Definition RawValueAt (p : HeapPool) (index : Z) : Res Z :=
  let* ty := TypeAt p index in
  ASSERT (negb (bool_decide (ty = EntryTaggedObject))) ;; PoolEntryAt p index.

Definition SetRawValueAt (p : HeapPool) (index raw : Z) : Res HeapPool :=
  let* ty := TypeAt p index in
  ASSERT (negb (bool_decide (ty = EntryTaggedObject))) ;; SetPoolEntryAt p index raw.

(** The word and the type of a builder's entry; [ptr] is the tagged pointer of
    an object.  Wide immediates were split before. *)
Definition entry_word (ptr : Z -> Z) (e : Entry) : Res (Z * EntryType) :=
  match payload_ e with
  | kTaggedObject obj _ => Ok (ptr obj, EntryTaggedObject)
  | kImmediate imm => Ok (imm, EntryImmediate)
  | kNativeFunction address => Ok (address, EntryNativeFunction)
  | kImmediate64 _ | kImmediate128 _ _ _ _ => ASSERT false ;; Err UndefinedBehavior
  end.

(** The loop of [NewFromBuilder], from [i] on. *)
Fixpoint fill_pool {T} (ptr : Z -> Z) (parents : list (Builder T)) (b : Builder T) (i : Z) (n : nat)
    : Res (list (Z * EntryType)) :=
  match n with
  | O => Ok []
  | S n =>
      let* e := EntryAt parents b i in
      let* w := entry_word ptr e in
      let* rest := fill_pool ptr parents b (i + 1) n in
      Ok (w :: rest)
  end.

Definition NewFromBuilder {T} (ptr : Z -> Z) (parents : list (Builder T)) (b : Builder T) : Res HeapPool :=
  let* l := fill_pool ptr parents b 0 (Z.to_nat (CurrentLength b)) in
  Ok (mkPool l.*1 l.*2).

(** ** Code objects *)

(** What the patterns use of a [Code]. *)
Record CodeObject : Set := mkCodeObject { PayloadStart : Z; PayloadSize : Z; GetObjectPool : HeapPool }.

(** [UntaggedCode::ContainsPC]: [pc] may be just past the last instruction. *)
Definition ContainsInstructionAt (code : CodeObject) (pc : Z) : bool :=
  ux (pc - PayloadStart code) <=? PayloadSize code.

Definition set_object_pool (code : CodeObject) (p : HeapPool) : CodeObject :=
  mkCodeObject (PayloadStart code) (PayloadSize code) p.

(** ** Calls through the pool *)

Section Calls.
Context (FLAG_precompiled_mode : bool).

Definition IsJumpAndLinkScratch (reg : Z) : bool :=
  reg =? if FLAG_precompiled_mode then TMP else CODE_REG.

(** jalr ra, compressed. *)
Definition kJalrRA : Z := 0x9082.

Definition AssertJalrRA (m : memory) (pc : Z) : Res unit :=
  let* last := load16 m (pc - 2) in ASSERT (last =? kJalrRA) ;; Ok tt.

(** [CallPattern]: [target_code_pool_index_]. *)
Definition CallPattern (m : memory) (pc : Z) (code : CodeObject) : Res Z :=
  ASSERT (ContainsInstructionAt code pc) ;;
  let* _ := AssertJalrRA m pc in
  let* l := DecodeLoadWordFromPool m (pc - 6) in
  ASSERT (IsJumpAndLinkScratch (l_reg l)) ;;
  Ok (l_index l).

(** The two loads before a call: the indices of the target and of the value
    that the register [data_reg] receives. *)
Definition TwoLoads (m : memory) (pc : Z) (code : CodeObject) (data_reg : Z) : Res (Z * Z) :=
  ASSERT (ContainsInstructionAt code pc) ;;
  let* _ := AssertJalrRA m pc in
  let* target := DecodeLoadWordFromPool m (pc - 6) in
  ASSERT (IsJumpAndLinkScratch (l_reg target)) ;;
  let* data := DecodeLoadWordFromPool m (l_start target) in
  ASSERT (l_reg data =? data_reg) ;;
  Ok (l_index target, l_index data).

(** [ICCallPattern]: [target_pool_index_] and [data_pool_index_]. *)
Definition ICCallPattern (m : memory) (pc : Z) (code : CodeObject) : Res (Z * Z) :=
  TwoLoads m pc code IC_DATA_REG.

(** [NativeCallPattern]: [target_code_pool_index_] and [native_function_pool_index_]. *)
Definition NativeCallPattern (m : memory) (pc : Z) (code : CodeObject) : Res (Z * Z) :=
  TwoLoads m pc code Reg.T5.

(** [BareSwitchableCallPattern]: [target_pool_index_] and [data_pool_index_]. *)
Definition BareSwitchableCallPattern (m : memory) (pc : Z) : Res (Z * Z) :=
  let* _ := AssertJalrRA m pc in
  let* data := DecodeLoadWordFromPool m (pc - 2) in
  ASSERT (l_reg data =? IC_DATA_REG) ;;
  let* target := DecodeLoadWordFromPool m (l_start data) in
  ASSERT (l_reg target =? Reg.RA) ;;
  Ok (l_index target, l_index data).

(** [TypeTestingStubCallPattern::GetSubtypeTestCachePoolIndex]; 0x9982 is jalr s3. *)
Definition GetSubtypeTestCachePoolIndex (m : memory) (pc : Z) : Res Z :=
  let* last := load16 m (pc - 2) in
  let* end_ :=
    if last =? 0x9982 then Ok (pc - 2)
    else
      ASSERT FLAG_precompiled_mode ;;
      let* jalr := load32 m (pc - 4) in
      ASSERT (Instr.opcode jalr =? Opcode.JALR) ;;
      let* auipc := load32 m (pc - 8) in
      ASSERT (Instr.opcode auipc =? Opcode.AUIPC) ;;
      Ok (pc - 8) in
  let* l := DecodeLoadWordFromPool m end_ in
  ASSERT (l_reg l =? kSubtypeTestCacheReg) ;;
  Ok (l_index l).

(** [PoolPointerCall] of code_patcher_riscv.cc.  On RV64 the second comparison
    of the assertion on [load_entry] is an assignment of a value that is not
    zero, so that it always holds. *)
Definition PoolPointerCall (m : memory) (pc : Z) (code : CodeObject) : Res Z :=
  let* _ := AssertJalrRA m pc in
  let* load_entry := load32 m (pc - 6) in
  ASSERT (if XLEN =? 32 then (load_entry =? 0x00362083) || (load_entry =? 0x00b62083)
          else true) ;;
  let* l := DecodeLoadWordFromPool m (pc - 6) in
  Ok (l_index l).

(** ** [CodePatcher] *)

Definition GetStaticCallTargetAt (m : memory) (return_address : Z) (code : CodeObject) : Res Z :=
  ASSERT (ContainsInstructionAt code return_address) ;;
  let* pp_index := PoolPointerCall m return_address code in
  ObjectAt (GetObjectPool code) pp_index.

Definition PatchPoolPointerCallAt (m : memory) (return_address : Z) (code : CodeObject) (new_target : Z)
    : Res CodeObject :=
  ASSERT (ContainsInstructionAt code return_address) ;;
  let* pp_index := PoolPointerCall m return_address code in
  let* p := SetObjectAt (GetObjectPool code) pp_index new_target in
  Ok (set_object_pool code p).

Definition PatchStaticCallAt : memory -> Z -> CodeObject -> Z -> Res CodeObject := PatchPoolPointerCallAt.

(** The target and the data. *)
Definition GetInstanceCallAt (m : memory) (return_address : Z) (code : CodeObject) : Res (Z * Z) :=
  ASSERT (ContainsInstructionAt code return_address) ;;
  let* call := ICCallPattern m return_address code in
  let* data := ObjectAt (GetObjectPool code) (snd call) in
  let* target := ObjectAt (GetObjectPool code) (fst call) in
  Ok (target, data).

(** The classes that [SetData] admits. *)
Context (IsICCallData : Z -> bool).

Definition PatchInstanceCallAt (m : memory) (return_address : Z) (code : CodeObject) (data target : Z)
    : Res CodeObject :=
  ASSERT (ContainsInstructionAt code return_address) ;;
  let* call := ICCallPattern m return_address code in
  ASSERT (IsICCallData data) ;;
  let* p := SetObjectAt (GetObjectPool code) (snd call) data in
  let* p := SetObjectAt p (fst call) target in
  Ok (set_object_pool code p).

Definition GetNativeCallAt (m : memory) (return_address : Z) (code : CodeObject) : Res (Z * Z) :=
  ASSERT (ContainsInstructionAt code return_address) ;;
  let* call := NativeCallPattern m return_address code in
  let* native := RawValueAt (GetObjectPool code) (snd call) in
  let* target := ObjectAt (GetObjectPool code) (fst call) in
  Ok (target, native).

Definition PatchNativeCallAt (m : memory) (return_address : Z) (code : CodeObject) (native trampoline : Z)
    : Res CodeObject :=
  ASSERT (ContainsInstructionAt code return_address) ;;
  let* call := NativeCallPattern m return_address code in
  let* p := SetObjectAt (GetObjectPool code) (fst call) trampoline in
  let* p := SetRawValueAt p (snd call) native in
  Ok (set_object_pool code p).

(** Switchable calls of precompiled code use the global pool of the isolate
    group; the pattern for the other mode is not implemented. *)
Context (IsCode : Z -> bool) (MonomorphicEntryPoint : Z -> Z).

Definition PatchSwitchableCallAt (m : memory) (return_address : Z) (pool : HeapPool) (data target : Z)
    : Res HeapPool :=
  if FLAG_precompiled_mode then
    let* call := BareSwitchableCallPattern m return_address in
    let* old := ObjectAt pool (snd call) in
    ASSERT (negb (IsCode old)) ;;
    let* p := SetObjectAt pool (snd call) data in
    let* ty := TypeAt p (fst call) in
    ASSERT (bool_decide (ty = EntryImmediate)) ;;
    SetRawValueAt p (fst call) (MonomorphicEntryPoint target)
  else Err Unimplemented.

Definition GetSwitchableCallTargetEntryAt (m : memory) (return_address : Z) (pool : HeapPool) : Res Z :=
  if FLAG_precompiled_mode then
    let* call := BareSwitchableCallPattern m return_address in RawValueAt pool (fst call)
  else Err Unimplemented.

Definition GetSwitchableCallDataAt (m : memory) (return_address : Z) (pool : HeapPool) : Res Z :=
  if FLAG_precompiled_mode then
    let* call := BareSwitchableCallPattern m return_address in ObjectAt pool (snd call)
  else Err Unimplemented.

End Calls.

(** ** The object a load refers to *)

(** [ObjectAtPoolIndex] and [Thread::ObjectAtOffset] find objects in the pool
    and in the thread; the canonical objects are known to the VM. *)
Definition DecodeLoadObjectFromPoolOrThread (ObjectAtPoolIndex ObjectAtOffset : Z -> option Z)
    (null bool_true bool_false : Z) (m : memory) (pc : Z) (code : CodeObject) : Res (option Z) :=
  ASSERT (ContainsInstructionAt code pc) ;;
  let from base offset : Res (option Z) :=
    if base =? PP then
      if negb (IsAligned offset kWordSize) then Ok None
      else let* index := IndexFromOffset (offset - kHeapObjectTag) in Ok (ObjectAtPoolIndex index)
    else if base =? THR then Ok (ObjectAtOffset offset)
    else Ok None in
  let* parcel := load16 m pc in
  if IsCInstruction parcel then
    if IsCLoadX parcel then from (CInstr.rs1p parcel) (cmem_imm parcel) else Ok None
  else
    let* instr := load32 m pc in
    if IsLoadX instr then from (Instr.rs1 instr) (Instr.itype_imm instr)
    else if (Instr.opcode instr =? Opcode.OPIMM) && (Instr.funct3 instr =? Funct3.ADDI) &&
            (Instr.rs1 instr =? NULL_REG) then
      let imm := Instr.itype_imm instr in
      if imm =? 0 then Ok (Some null)
      else if imm =? kTrueOffsetFromNull then Ok (Some bool_true)
      else if imm =? kFalseOffsetFromNull then Ok (Some bool_false)
      else Ok None
    else Ok None.

(** ** Calls relative to the program counter *)

Definition kLowerCallingRange : Z := s32 0x80000000.
Definition kUpperCallingRange : Z := s32 0x7FFFFFFE.
Definition PcRelative_kLengthInBytes : Z := 8.

(** [PcRelativePatternBase::distance]; the sum is of type [intx_t], where it may
    overflow, and converted to [int32_t]. *)
Definition distance (m : memory) (pc : Z) : Res Z :=
  let* auipc := load32 m pc in
  let* jalr := load32 m (pc + 4) in
  let sum := Instr.utype_imm auipc + Instr.itype_imm jalr in
  if decide (inS XLEN sum) then Ok (s32 sum) else Err UndefinedBehavior.

Definition set_distance (d : Z) (m : memory) (pc : Z) : Res memory :=
  let* auipc := load32 m pc in
  let* jalr := load32 m (pc + 4) in
  let lo := ImmLo d in
  let hi := ImmHi d in
  let* w := or_fields 0 [EncodeUTypeImm hi; EncodeRd (Instr.rd auipc); EncodeOpcode Opcode.AUIPC] in
  let* m := store32 m pc w in
  let* w := or_fields 0 [EncodeITypeImm lo; EncodeRs1 (Instr.rs1 jalr); EncodeFunct3 Funct3.F3_0;
                         EncodeRd (Instr.rd jalr); EncodeOpcode Opcode.JALR] in
  store32 m (pc + 4) w.

(** [IsValid] of [PcRelativeCallPattern] and [PcRelativeTailCallPattern], which
    differ in the link register. *)
Definition IsValid_linking (link : Z) (m : memory) (pc : Z) : Res bool :=
  let* aupic := load32 m pc in
  if negb (Instr.opcode aupic =? Opcode.AUIPC) then Ok false else
  let* jalr := load32 m (pc + 4) in
  if negb (Instr.opcode jalr =? Opcode.JALR) then Ok false else
  if negb (Instr.rd aupic =? Instr.rs1 jalr) then Ok false else
  if negb (Instr.rd jalr =? link) then Ok false else
  Ok true.
Definition PcRelativeCall_IsValid : memory -> Z -> Res bool := IsValid_linking Reg.RA.
Definition PcRelativeTailCall_IsValid : memory -> Z -> Res bool := IsValid_linking Reg.ZR.

(** [PcRelativeTrampolineJumpPattern::Initialize]. *)
Definition Trampoline_Initialize (m : memory) (pc : Z) : Res memory :=
  let* w := or_fields 0 [EncodeOpcode Opcode.AUIPC; EncodeRd TMP; EncodeUTypeImm 0] in
  let* m := store32 m pc w in
  let* w := or_fields 0 [EncodeOpcode Opcode.JALR; EncodeFunct3 Funct3.F3_0; EncodeRd Reg.ZR;
                         EncodeRs1 TMP; EncodeITypeImm 0] in
  store32 m (pc + 4) w.

(** [ReturnPattern::IsValid]. *)
Definition ReturnPattern_IsValid (m : memory) (pc : Z) : Res bool :=
  let* parcel := load16 m pc in Ok (parcel =? 0x8082).

End InstructionPattern.
