(* ===== verification/InstructionPatternSpec.v ===== *)
(** * InstructionPatternSpec: the patterns recognise the code of the assembler

    A load from the pool is read back as the register and the index it was
    emitted for, whatever mixture of compressed instructions it uses, and the
    call patterns find the two entries of a call; so that reading a patched
    call returns what was patched.  A decoder reads backwards and cannot tell
    the second half of an instruction from a compressed one: the halfword
    before the sequence must be [neutral], which the code of another load
    guarantees.  A patched call relative to the program counter goes where its
    distance says. *)

From stdpp Require Import base numbers list gmap.
From Stdlib Require Import Lia.
From S2P Require Import Prelude Constants Encoding CEncoding AsmBuffer MicroAsm AsmBranch SimState.
From S2P Require Import SimInt SimAtomic SimFloat SimCompressed Simulator Isa IntSpec BitSpec.
From S2P Require Import AsmExec AsmFormats AsmCFormats RefineOp RefineImm RefineMem RefineC Refinement.
From S2P Require Import SimInv AsmSites RefineBranch RefineLabel SimMemSpec AsmSeq.
From S2P Require Import ObjectPool Assembler MacroSeq MacroStack InstructionPattern.

#[local] Open Scope Z_scope.
#[local] Open Scope res_scope.
#[local] Open Scope code_scope.

(** ** Reading words *)

Section Words.
Context `{Target}.

Lemma load16_at m addr w :
  inU XLEN addr -> inU 16 w -> code_at m addr (le_split 2 w) -> load16 m addr = Ok w.
Proof.
  intros Ha Hw Hc. unfold load16, LoadUnaligned. rewrite ux_small by done.
  change (Z.to_nat (sizeof uint16_t)) with 2%nat. rewrite (load_bytes_split _ _ _ _ Hc). cbn [rbind cast].
  change (w mod 2 ^ (8 * Z.of_nat 2)) with (u16 w). by rewrite wrapU_wrapU, (wrapU_small 16 w).
Qed.

Lemma load32_at m addr w :
  inU XLEN addr -> inU 32 w -> code_at m addr (le_split 4 w) -> load32 m addr = Ok w.
Proof.
  intros Ha Hw Hc. unfold load32, LoadUnaligned. rewrite ux_small by done.
  change (Z.to_nat (sizeof uint32_t)) with 4%nat. rewrite (load_bytes_split _ _ _ _ Hc). cbn [rbind cast].
  change (w mod 2 ^ (8 * Z.of_nat 4)) with (u32 w). by rewrite wrapU_wrapU, (wrapU_small 32 w).
Qed.

(** Two halfwords side by side. *)
Lemma halves_split lo hi :
  inU 16 lo -> le_split 4 (lo + 65536 * hi) = le_split 2 lo ++ le_split 2 hi.
Proof.
  unfold inU. intros Hl. cbn [le_split app].
  assert ((lo + 65536 * hi) / 256 / 256 = hi) as E.
  { rewrite Z.div_div by lia. change (256 * 256) with 65536.
    rewrite Z.mul_comm, Z.div_add by lia. rewrite Z.div_small by lia. lia. }
  rewrite E. replace (lo + 65536 * hi) with (lo + 256 * hi * 256) by lia.
  rewrite Z.div_add, Z_mod_plus_full by lia. replace (256 * hi) with (hi * 256) by lia.
  by rewrite Z_mod_plus_full.
Qed.

Lemma halves_range lo hi : inU 16 lo -> inU 16 hi -> inU 32 (lo + 65536 * hi).
Proof. unfold inU. lia. Qed.

Lemma load32_halves m addr lo hi :
  inU XLEN addr -> inU 16 lo -> inU 16 hi ->
  code_at m addr (le_split 2 lo) -> code_at m (addr + 2) (le_split 2 hi) ->
  load32 m addr = Ok (lo + 65536 * hi).
Proof.
  intros Ha Hl Hh Cl Ch. apply load32_at; [done|by apply halves_range|].
  rewrite halves_split by done. by apply code_at_app.
Qed.

(** The low bits of two halfwords are those of the first. *)
Lemma halves_field lo hi k n : 0 <= k -> 0 <= n -> k + n <= 16 -> inU 16 lo ->
  field (lo + 65536 * hi) k n = field lo k n.
Proof.
  intros ??? Hl. assert (u16 (lo + 65536 * hi) = lo) as E.
  { change 65536 with (2 ^ 16). unfold wrapU. rewrite Z.mul_comm, Z_mod_plus_full. by apply Z.mod_small. }
  rewrite <- E at 2. unfold field. bitblast.
Qed.

(** A halfword that neither decoder takes for the first half of an instruction. *)
Definition neutral (h : Z) : bool := negb (IsLoadX h) && negb (Instr.opcode h =? Opcode.LUI).

Lemma opcode_field w : Instr.opcode w = field w 0 7.
Proof. unfold Instr.opcode, DecodeOpcode, DecodeFunct. by fold_fields. Qed.
Lemma funct3_field w : Instr.funct3 w = field w 12 3.
Proof. unfold Instr.funct3, DecodeFunct3, DecodeFunct. by fold_fields. Qed.

Lemma neutral_halves h hi :
  inU 16 h -> neutral h = true ->
  IsLoadX (h + 65536 * hi) = false /\ (Instr.opcode (h + 65536 * hi) =? Opcode.LUI) = false.
Proof.
  intros Hh Hn. unfold neutral, IsLoadX in *. rewrite !opcode_field, !funct3_field in *.
  rewrite !halves_field by (done || lia). apply andb_prop in Hn as [H1%negb_true_iff H2%negb_true_iff]. done.
Qed.

(** Compressed instructions are neutral. *)
Lemma compressed_neutral h : inU 16 h -> IsCInstruction h = true -> neutral h = true.
Proof.
  intros Hh Hc. rewrite IsCInstruction_field in Hc. unfold neutral, IsLoadX. rewrite !opcode_field.
  assert (field h 0 2 = Z.land (field h 0 7) 3) as E by (change 3 with (Z.ones 2); unfold field; bitblast).
  rewrite E in Hc. destruct (Z.eqb_spec (field h 0 7) Opcode.LOAD) as [E1|_]; [by rewrite E1 in Hc|].
  by destruct (Z.eqb_spec (field h 0 7) Opcode.LUI) as [E1|_]; [rewrite E1 in Hc|].
Qed.

(** Memory holds a neutral halfword before [addr]. *)
Definition parcel_before (m : memory) (addr : Z) : Prop :=
  2 <= addr /\ exists h, inU 16 h /\ neutral h = true /\ code_at m (addr - 2) (le_split 2 h).

(** ** The two decoders *)

(** The code of a load of a word, of either length. *)
Inductive loadx_code (rd base off : Z) : list Z -> Prop :=
| loadx_32 w :
    w = itype_word off base (if XLEN =? 32 then Funct3.LW else Funct3.LD) rd Opcode.LOAD ->
    inU 5 rd -> inU 5 base -> IsITypeImm off = true -> loadx_code rd base off (le_split 4 w)
| loadx_16 w :
    inU 16 w -> IsCInstruction w = true -> IsCLoadX w = true ->
    CInstr.rdp w = rd -> CInstr.rs1p w = base -> cmem_imm w = off ->
    loadx_code rd base off (le_split 2 w).

Lemma back a n addr : ux (a + n - addr) = ux (a + (n - addr)).
Proof. f_equal. lia. Qed.

Lemma DecodeLoadX_code m start rd base off bytes :
  loadx_code rd base off bytes -> inU XLEN start -> start + Z.of_nat (length bytes) < 2 ^ XLEN ->
  code_at m start bytes -> parcel_before m start ->
  DecodeLoadX m (start + Z.of_nat (length bytes)) = Ok (Some (mkLoadX rd base off (Z.of_nat (length bytes)))).
Proof.
  intros Hl Hs He Hc (Hs2 & h & Hh & Hn & Hb). pose proof Hs as Hr. unfold inU in Hr. unfold DecodeLoadX. destruct Hl as [w Hw Hrd Hbase Hoff|w Hw HC HX Hrd Hbase Hoff];
    rewrite le_split_length in *; change (Z.of_nat 4) with 4 in *; change (Z.of_nat 2) with 2 in *.
  - destruct (itype_fields off base (if XLEN =? 32 then Funct3.LW else Funct3.LD) rd Opcode.LOAD)
      as (Hw32 & Eop & Erd & Ef3 & Ers1 & Eimm & _); try done; [by destruct (XLEN =? 32)|].
    rewrite <- Hw in *.
    replace (start + 4 - 4) with start by lia. rewrite (load32_at _ _ w) by done. cbn [rbind].
    unfold IsLoadX. rewrite Eop, Ef3, !Z.eqb_refl. cbn [andb]. by rewrite Erd, Ers1, Eimm.
  - replace (start + 2 - 4) with (start - 2) by lia. replace (start + 2 - 2) with start by lia.
    rewrite (load32_halves _ _ h w); try done; [|unfold inU; lia|by replace (start - 2 + 2) with start by lia].
    cbn [rbind]. destruct (neutral_halves h w Hh Hn) as [-> _].
    rewrite (load16_at _ _ w) by done. cbn [rbind]. rewrite HX. by subst.
Qed.

(** The code of [lui], of either length. *)
Inductive lui_code (rd imm : Z) : list Z -> Prop :=
| lui_32 w :
    w = utype_word (Z.shiftl (field imm 12 20) 12) rd Opcode.LUI ->
    inU 5 rd -> IsUTypeImm imm = true -> inS kBitsPerWord imm -> lui_code rd imm (le_split 4 w)
| lui_16 w :
    inU 16 w -> CInstr.opcode w = COpcode.C_LUI -> CInstr.rd w = rd -> CInstr.u_imm w = imm ->
    lui_code rd imm (le_split 2 w).

Lemma DecodeLUI_code m start rd imm bytes :
  lui_code rd imm bytes -> inU XLEN start -> start + Z.of_nat (length bytes) < 2 ^ XLEN ->
  code_at m start bytes -> parcel_before m start ->
  DecodeLUI m (start + Z.of_nat (length bytes)) = Ok (Some (rd, imm, Z.of_nat (length bytes))).
Proof.
  intros Hl Hs He Hc (Hs2 & h & Hh & Hn & Hb). pose proof Hs as Hr. unfold inU in Hr. unfold DecodeLUI. destruct Hl as [w Hw Hrd Hi Hi'|w Hw HX Hrd Hi];
    rewrite le_split_length in *; change (Z.of_nat 4) with 4 in *; change (Z.of_nat 2) with 2 in *.
  - destruct (utype_fields imm rd Opcode.LUI) as (Hw32 & Eop & Erd & Eimm); [done..|]. rewrite <- Hw in *.
    replace (start + 4 - 4) with start by lia. rewrite (load32_at _ _ w) by done. cbn [rbind].
    by rewrite Eop, Erd, Eimm.
  - replace (start + 2 - 4) with (start - 2) by lia. replace (start + 2 - 2) with start by lia.
    rewrite (load32_halves _ _ h w); try done; [|unfold inU; lia|by replace (start - 2 + 2) with start by lia].
    cbn [rbind]. destruct (neutral_halves h w Hh Hn) as [_ ->].
    rewrite (load16_at _ _ w) by done. cbn [rbind]. rewrite HX. by subst.
Qed.

(** ** The bytes the assembler emits *)

Definition emitted (f : Asm -> Res Asm) (a : Asm) (bytes : list Z) : Prop :=
  f a = Ok (set_buffer a (buffer_ a ++ bytes)).

Lemma emitted_32 f a w : f a = Emit32 w a -> inU 32 w -> emitted f a (le_split 4 w).
Proof. intros E Hw. unfold emitted. rewrite E. unfold Emit32, Emit. by rewrite wrapU_small. Qed.

Lemma emitted_16 f a w : f a = Emit16 w a -> inU 16 w -> emitted f a (le_split 2 w).
Proof. intros E Hw. unfold emitted. rewrite E. unfold Emit16, Emit. by rewrite wrapU_small. Qed.

(** The two compressed loads. *)
Lemma cloadx_emitted rd base off a :
  Supports a RV_C = true -> IsRegPrime rd = true -> IsRegPrime base = true ->
  (if XLEN =? 32 then IsCMem4Imm off else IsCMem8Imm off) = true ->
  exists bytes, loadx_code rd base off bytes /\
  emitted (if XLEN =? 32 then MicroAssembler.c_lw rd (mkAddress base off)
           else MicroAssembler.c_ld rd (mkAddress base off)) a bytes.
Proof.
  intros HC Hd Hb Hi. destruct (c_rr_regs rd base) as (Rr & Rb & _ & Eb); [done..|].
  destruct (XLEN =? 32) eqn:EX; eexists; (split; [|
    eapply emitted_16; [unfold MicroAssembler.c_lw, MicroAssembler.c_ld;
      cbn [AsmBuffer.base AsmBuffer.offset]; c_emit|c_range]]);
    (apply loadx_16; [c_range|c_decode|unfold IsCLoadX; rewrite EX; apply Z.eqb_eq; c_decode|c_decode..|
      unfold cmem_imm; rewrite EX]).
  - unfold CInstr.mem4_imm. c_imm DecodeCMem4Imm_fields.
  - unfold CInstr.mem8_imm. c_imm DecodeCMem8Imm_fields.
Qed.

Lemma loadx_emitted rd base off a :
  Supports a RV_I = true -> inU 5 rd -> inU 5 base -> base <> Reg.SP -> IsITypeImm off = true ->
  exists bytes, loadx_code rd base off bytes /\ emitted (MicroAssembler.lx rd (mkAddress base off)) a bytes.
Proof.
  intros HI Hd Hb Hsp Ho.
  set (f3 := if XLEN =? 32 then Funct3.LW else Funct3.LD).
  assert (inU 3 f3) by (unfold f3; by destruct (XLEN =? 32)).
  assert (MicroAssembler.lx rd (mkAddress base off) a =
    if Supports a RV_C && IsRegPrime rd && IsRegPrime base &&
       (if XLEN =? 32 then IsCMem4Imm off else IsCMem8Imm off)
    then (if XLEN =? 32 then MicroAssembler.c_lw rd (mkAddress base off)
          else MicroAssembler.c_ld rd (mkAddress base off)) a
    else EmitIType off base f3 rd Opcode.LOAD a) as E.
  { unfold f3, MicroAssembler.lx, MicroAssembler.lw, MicroAssembler.ld.
    rewrite !ASSERT_true by done. cbn [rbind AsmBuffer.base AsmBuffer.offset].
    rewrite (proj2 (Z.eqb_neq base Reg.SP) Hsp), !andb_false_r. by destruct (XLEN =? 32). }
  destruct (Supports a RV_C && _ && _ && _) eqn:Ec.
  - rewrite !andb_true_iff in Ec. destruct Ec as [[[HC Hd'] Hb'] Hi].
    destruct (cloadx_emitted rd base off a HC Hd' Hb' Hi) as (bytes & Hl & Eb).
    exists bytes. split; [done|]. unfold emitted in *. by rewrite E.
  - eexists. split; [by apply loadx_32|]. apply emitted_32; [|by apply itype_fields].
    rewrite E. by apply EmitIType_word.
Qed.

Lemma lui_emitted rd imm a :
  Supports a RV_I = true -> inU 5 rd -> rd <> Reg.ZR -> inS kBitsPerWord imm -> IsUTypeImm imm = true ->
  exists bytes, lui_code rd imm bytes /\ emitted (MicroAssembler.lui rd imm) a bytes.
Proof.
  intros HI Hd Hz Hi Hu. unfold emitted, MicroAssembler.lui. rewrite ASSERT_true by done. cbn [rbind].
  destruct (Supports a RV_C && _ && _ && _) eqn:Ec.
  - rewrite !andb_true_iff in Ec. destruct Ec as [[[HC _] Hsp%negb_true_iff%Z.eqb_neq] Hi'].
    eexists. split; [|eapply (emitted_16 (MicroAssembler.c_lui rd imm));
      [unfold MicroAssembler.c_lui; c_emit|c_range]].
    apply lui_16; [c_range|c_decode|c_decode|unfold CInstr.u_imm; c_imm DecodeCUImm_fields].
  - eexists. split; [by apply lui_32|]. apply (emitted_32 (EmitUType imm rd Opcode.LUI)).
    + by apply EmitUType_word.
    + by apply utype_fields.
Qed.

(** The compressed addition of PP. *)
Definition cadd_pp (rd : Z) (bytes : list Z) : Prop :=
  exists w, bytes = le_split 2 w /\ inU 16 w /\ IsCInstruction w = true /\
    CInstr.opcode w = COpcode.C_MV /\ CInstr.rd w = rd /\ CInstr.rs2 w = PP.

Lemma cadd_emitted rd a :
  Supports a RV_I = true -> Supports a RV_C = true -> inU 5 rd -> rd <> Reg.ZR ->
  exists bytes, cadd_pp rd bytes /\ emitted (MicroAssembler.add rd rd PP) a bytes.
Proof.
  intros HI HC Hd Hz. assert (inU 5 PP) by done. unfold emitted, MicroAssembler.add.
  rewrite ASSERT_true, HC, Z.eqb_refl by done. cbn [rbind andb].
  eexists. split; [|eapply (emitted_16 (MicroAssembler.c_add rd rd PP));
    [unfold MicroAssembler.c_add; c_emit|c_range]].
  eexists. split_and!; [done|c_range|c_decode..].
Qed.

(** ** Loads from the pool *)

(** The two halves of a word. *)
Lemma word_halves w : inU 32 w -> w = u16 w + 65536 * (w / 65536) /\ inU 16 (w / 65536).
Proof.
  unfold inU, wrapU. intros Hw. split; [change (2 ^ 16) with 65536; pose proof (Z.div_mod w 65536); lia|].
  change (2 ^ 16) with 65536. split; [apply Z.div_pos; lia|apply Z.div_lt_upper_bound; lia].
Qed.

Lemma field_field w lo n k j : 0 <= k -> 0 <= j -> k + j <= n -> 0 <= lo -> 
  field (field w lo n) k j = field w (lo + k) j.
Proof. intros. unfold field. bitblast. Qed.

Lemma high_half w k j : 0 <= k -> 0 <= j -> field (w / 65536) k j = field w (16 + k) j.
Proof.
  intros. change 65536 with (2 ^ 16). rewrite <- Z.shiftr_div_pow2 by lia. unfold field. bitblast.
Qed.

(** The last halfword of a load is neutral, unless the base is T1 or T2. *)
Lemma loadx_tail m start rd base off bytes :
  loadx_code rd base off bytes -> base <> Reg.T1 -> base <> Reg.T2 -> off mod 2 ^ 2 = 0 ->
  0 <= start -> code_at m start bytes -> parcel_before m (start + Z.of_nat (length bytes)).
Proof.
  intros Hl H1 H2 Ho Hs Hc. destruct Hl as [w Hw Hrd Hb Hoff|w Hw HC HX Hrd Hb Hoff];
    rewrite le_split_length; change (Z.of_nat 4) with 4; change (Z.of_nat 2) with 2; (split; [lia|]).
  2: { exists w. split_and!; [done|by apply compressed_neutral|by replace (start + 2 - 2) with start by lia]. }
  destruct (itype_fields off base (if XLEN =? 32 then Funct3.LW else Funct3.LD) rd Opcode.LOAD)
    as (Hw32 & _ & _ & _ & Ers1 & _ & E12); try done; [by destruct (XLEN =? 32)|].
  rewrite <- Hw in *. destruct (word_halves w Hw32) as [Ew Hh]. exists (w / 65536).
  split_and!; [done| |].
  2: { rewrite Ew, halves_split in Hc by (apply wrapU_range; lia). apply code_at_app in Hc as [_ Hc].
       rewrite le_split_length in Hc. by replace (start + 4 - 2) with (start + Z.of_nat 2) by lia. }
  change (field w 15 5 = base) in Ers1. change (field w 20 12 = field off 0 12) in E12.
  assert (field (field (w / 65536) 0 7) 0 4 = field base 1 4) as E4.
  { by rewrite field_field, high_half, <- Ers1, field_field by lia. }
  assert (field (field (w / 65536) 0 7) 4 2 = 0) as E2.
  { rewrite field_field, high_half by lia.
    replace (field w (16 + (0 + 4)) 2) with (field (field w 20 12) 0 2) by (by rewrite field_field by lia).
    rewrite E12, field_field by lia. unfold field. rewrite Z.land_ones, Z.shiftr_0_r by lia. done. }
  unfold neutral, IsLoadX. rewrite !opcode_field.
  destruct (Z.eqb_spec (field (w / 65536) 0 7) Opcode.LUI) as [E|_]; [by rewrite E in E2|].
  destruct (Z.eqb_spec (field (w / 65536) 0 7) Opcode.LOAD) as [E|_]; [exfalso|done].
  rewrite E in E4. unfold field in E4. rewrite (Z.land_ones (Z.shiftr base 1)), (Z.shiftr_div_pow2 base) in E4 by lia.
  change (3 = base / 2 mod 16) in E4. unfold inU in Hb. 
  change Reg.T1 with 6 in H1. change Reg.T2 with 7 in H2.
  rewrite Z.mod_small in E4; pose proof (Z.div_mod base 2); pose proof (Z.mod_pos_bound base 2); lia.
Qed.

(** The code of a load of entry [index] to [dst]. *)
Inductive pool_code (dst index : Z) : list Z -> Prop :=
| pool_short bytes : loadx_code dst PP (element_offset index) bytes -> pool_code dst index bytes
| pool_long lui add ld hi lo :
    lui_code dst hi lui -> cadd_pp dst add -> loadx_code dst dst lo ld -> dst <> PP ->
    lo mod 2 ^ 2 = 0 -> hi + lo = element_offset index -> pool_code dst index (lui ++ add ++ ld).

Lemma element_offset_aligned index :
  element_offset index mod 2 ^ 2 = 0 /\ IsAligned (element_offset index) kWordSize = true.
Proof.
  unfold element_offset, ObjectPool_elements_start_offset, ObjectPool_element_size, kWordSize.
  destruct XLEN_cases as [-> | ->]; cbn [Z.eqb Pos.eqb].
  - change (32 / 8) with (2 ^ 2). rewrite IsAligned_spec by lia.
    split; change (2 ^ 2) with 4; replace (8 + 4 * index) with ((2 + index) * 4) by lia; apply Z.mod_mul; lia.
  - change (64 / 8) with (2 ^ 3). rewrite IsAligned_spec by lia. change (2 ^ 2) with 4. change (2 ^ 3) with 8.
    replace (16 + 8 * index) with ((2 + index) * 8) by lia. split; [|by rewrite Z.mod_mul].
    replace ((2 + index) * 8) with ((2 + index) * 2 * 4) by lia. by rewrite Z.mod_mul.
Qed.

Lemma IndexFromOffset_element index off :
  off = element_offset index -> IndexFromOffset (off - kHeapObjectTag) = Ok index.
Proof.
  intros ->. unfold IndexFromOffset. replace (element_offset index - kHeapObjectTag + kHeapObjectTag)
    with (element_offset index) by lia.
  rewrite ASSERT_true by apply element_offset_aligned. cbn [rbind]. f_equal.
  unfold element_offset, ObjectPool_element_size, kWordSize.
  replace (_ - _) with (index * (if XLEN =? 64 then 8 else 4)) by lia.
  destruct XLEN_cases as [-> | ->]; by apply Z.quot_mul.
Qed.

Lemma parcel_of_cadd m start dst bytes :
  cadd_pp dst bytes -> 0 <= start -> code_at m start bytes -> parcel_before m (start + 2).
Proof.
  intros (w & -> & Hw & HC & _) Hs Hc. split; [lia|]. exists w. split_and!; [done| |].
  - by apply compressed_neutral.
  - by replace (start + 2 - 2) with start by lia.
Qed.

(** The decoder returns the start of the code, the register and the index. *)
Lemma DecodeLoadWordFromPool_code m start dst index bytes :
  pool_code dst index bytes -> 0 <= start -> start + Z.of_nat (length bytes) < 2 ^ XLEN ->
  code_at m start bytes -> parcel_before m start ->
  DecodeLoadWordFromPool m (start + Z.of_nat (length bytes)) = Ok (mkPoolLoad start dst index).
Proof.
  intros Hp Hs He Hc Hb. unfold DecodeLoadWordFromPool.
  destruct Hp as [bytes Hl|lui add ld hi lo Hu Ha Hl Hpp Hlo Eoff].
  - rewrite (DecodeLoadX_code m start _ _ _ _ Hl) by (done || unfold inU; lia). cbn [rbind].
    rewrite Z.eqb_refl, (IndexFromOffset_element index) by done. cbn [rbind].
    rewrite Z.add_simpl_r, ux_small by (unfold inU; lia). done.
  - apply code_at_app in Hc as [Cu Hc]. apply code_at_app in Hc as [Ca Cl].
    pose proof Ha as (wa & Ea & Hwa & _ & Eop & Erd & Ers2).
    assert (length add = 2%nat) as E2 by (rewrite Ea; apply le_split_length).
    rewrite !length_app, !Nat2Z.inj_add, E2 in *. change (Z.of_nat 2) with 2 in *.
    set (a := start + Z.of_nat (length lui)) in *.
    replace (start + (Z.of_nat (length lui) + (2 + Z.of_nat (length ld))))
      with (a + 2 + Z.of_nat (length ld)) in * by lia.
    rewrite (DecodeLoadX_code m (a + 2) _ _ _ _ Hl)
      by first [done | unfold inU; lia | by apply (parcel_of_cadd m a dst add); [|lia|]].
    cbn [rbind]. rewrite (proj2 (Z.eqb_neq dst PP) Hpp), Z.eqb_refl, Z.add_simpl_r.
    rewrite ASSERT_true by done. cbn [rbind].
    rewrite ux_small by (unfold inU; lia). rewrite Z.add_simpl_r, (load16_at _ _ wa) by
      first [done | unfold inU; lia | by rewrite <- Ea]. cbn [rbind].
    change CInstr.rs1 with CInstr.rd. rewrite Eop, Erd, Ers2, !Z.eqb_refl, !ASSERT_true by done. cbn [rbind].
    rewrite ux_small by (unfold inU; lia). unfold a.
    rewrite (DecodeLUI_code m start _ _ _ Hu) by first [done | unfold inU; lia]. cbn [rbind].
    rewrite Z.eqb_refl, ASSERT_true by done. cbn [rbind].
    rewrite (IndexFromOffset_element index (hi + lo)) by done. cbn [rbind].
    rewrite Z.add_simpl_r, ux_small by (unfold inU; lia). done.
Qed.

(** A load leaves a neutral halfword behind. *)
Lemma pool_code_tail m start dst index bytes :
  pool_code dst index bytes -> dst <> Reg.T1 -> dst <> Reg.T2 -> 0 <= start ->
  code_at m start bytes -> parcel_before m (start + Z.of_nat (length bytes)).
Proof.
  intros Hp H1 H2 Hs Hc. destruct Hp as [bytes Hl|lui add ld hi lo Hu Ha Hl Hpp Hlo Eoff].
  - eapply loadx_tail; try done. by apply element_offset_aligned.
  - apply code_at_app in Hc as [Cu Hc]. apply code_at_app in Hc as [Ca Cl].
    rewrite !length_app, !Nat2Z.inj_add. replace (start + (_ + (_ + _))) with
      (start + Z.of_nat (length lui) + Z.of_nat (length add) + Z.of_nat (length ld)) by lia.
    eapply loadx_tail; try done. lia.
Qed.

End Words.

(** ** The macros *)

Section Macros.
Context `{Target} {T : Type} `{ops : !IndexTableOps T}.

#[local] Abbreviation MacroAsm := (MacroAsm T).
#[local] Abbreviation code := (code T).

(** [c] appends the code [bytes]. *)
Definition appends (c : code) (m : MacroAsm) (bytes : list Z) : Prop := c m = Ok (append m bytes).

Lemma appends_emit f m bytes : emitted f (asm_ m) bytes -> appends (emit f) m bytes.
Proof. intros E. unfold appends, emit. by rewrite E. Qed.

Lemma appends_seq (c1 c2 : code) m b1 b2 :
  appends c1 m b1 -> appends c2 (append m b1) b2 -> appends (c1 >> c2) m (b1 ++ b2).
Proof.
  intros E1 E2. unfold appends, andthen. rewrite E1. cbn [rbind]. rewrite E2.
  unfold append, set_asm, set_buffer. cbn. by rewrite app_assoc.
Qed.

(** Offsets whose two parts [lui] and the load can hold. *)
Definition pool_reach (index : Z) : Prop := 0 <= index /\ element_offset index < 2 ^ 31 - 2 ^ 11.

Lemma element_offset_pos index : 0 <= index -> 0 <= element_offset index.
Proof.
  unfold element_offset, ObjectPool_elements_start_offset, ObjectPool_element_size. destruct (XLEN =? 64); lia.
Qed.

Lemma LoadWordFromPoolIndex_code dst index m :
  Supports (asm_ m) RV_I = true -> Supports (asm_ m) RV_C = true -> constant_pool_allowed_ m = true ->
  inU 5 dst -> dst <> Reg.ZR -> dst <> Reg.SP -> dst <> PP -> pool_reach index ->
  exists bytes, appends (LoadWordFromPoolIndex dst index PP) m bytes /\ pool_code dst index bytes.
Proof.
  intros HI HC Hpool Hd Hz Hsp Hpp [Hi0 Hi].
  pose proof (element_offset_pos index Hi0) as H0.
  unfold appends, LoadWordFromPoolIndex, differ. rewrite Hpool, orb_true_r, ASSERT_true by done. cbn [rbind].
  rewrite ASSERT_true by (by apply negb_true_iff, Z.eqb_neq). cbn [rbind].
  rewrite (wrapU_small 32) by (unfold inU; lia).
  pose proof (ImmLo_wrap (element_offset index)) as Elo. pose proof (ImmHi_wrap (element_offset index)) as Ehi.
  pose proof (ImmLo_fits (element_offset index)) as Hlo. destruct (ImmHi_fits (element_offset index)) as [Hhu Hhw].
  set (lo := ImmLo (element_offset index)) in *. set (hi := ImmHi (element_offset index)) in *.
  assert (inS 12 lo) as Rlo by (rewrite Elo; apply wrapS_range; lia). unfold inS in Rlo.
  assert (hi + lo = element_offset index) as Esum.
  { rewrite Ehi, <- Elo, wrapS_small by (unfold inS; lia). lia. }
  assert (lo mod 2 ^ 2 = 0) as Hlo4.
  { destruct (element_offset_aligned index) as [Ea _].
    destruct (proj1 (IsUTypeImm_spec hi Hhw) Hhu) as [_ Hm].
    apply Z.mod_divide in Hm as [q Eq]; [|lia]. apply Z.mod_divide in Ea as [r Er]; [|lia].
    replace lo with ((r - q * 2 ^ 10) * 2 ^ 2) by lia. by apply Z.mod_mul. }
  destruct (Z.eqb_spec hi 0) as [E0|_].
  - destruct (loadx_emitted dst PP lo (asm_ m)) as (bytes & Hl & Eb); [done..|]. exists bytes.
    split; [by apply appends_emit|]. apply pool_short. by rewrite <- Esum, E0.
  - destruct (lui_emitted dst hi (asm_ m)) as (b1 & H1 & E1); [done..|].
    set (m1 := append m b1). destruct (cadd_emitted dst (asm_ m1)) as (b2 & H2 & E2); [done..|].
    set (m2 := append m1 b2). destruct (loadx_emitted dst dst lo (asm_ m2)) as (b3 & H3 & E3); [done..|].
    exists (b1 ++ b2 ++ b3). split; [|by apply (pool_long _ _ _ _ _ hi lo)].
    apply appends_seq; [by apply appends_emit|]. apply appends_seq; by apply appends_emit.
Qed.

(** ** Call sites *)

(** [c] appends [bytes] and adds [entries] to the pool. *)
Definition pooled (m : MacroAsm) (entries : list Entry) : MacroAsm :=
  let b := object_pool_builder_ m in
  set_pool m (mkBuilder (base_index_ b) (used_from_parent_ b) (object_pool_ b ++ entries)
                (object_pool_index_table_ b)).

Definition unique_entry (object : Z) (behavior : SnapshotBehavior) : Entry :=
  mkEntry (kTaggedObject object object) kPatchable behavior.

Definition next_index (m : MacroAsm) : Z :=
  base_index_ (object_pool_builder_ m) + Z.of_nat (length (object_pool_ (object_pool_builder_ m))).

Lemma LoadUniqueObject_code dst object behavior (m : MacroAsm) :
  Supports (asm_ m) RV_I = true -> Supports (asm_ m) RV_C = true -> constant_pool_allowed_ m = true ->
  inU 5 dst -> dst <> Reg.ZR -> dst <> Reg.SP -> dst <> PP -> pool_reach (next_index m) ->
  exists bytes, LoadUniqueObject dst object behavior m =
                  Ok (append (pooled m [unique_entry object behavior]) bytes) /\
                pool_code dst (next_index m) bytes.
Proof.
  intros HI HC Hpool Hd Hz Hsp Hpp Hi. unfold LoadUniqueObject, HashMap.RELEASE_ASSERT. rewrite Hpool.
  cbn [rbind]. unfold AddObject, AddSlot. cbn [split_words payload_ rbind fst snd].
  by apply (LoadWordFromPoolIndex_code dst (next_index m) (pooled m [unique_entry object behavior])).
Qed.

(** A load to a register that compressed loads cannot name takes four bytes. *)
Lemma loadx_long rd base off bytes :
  loadx_code rd base off bytes -> IsRegPrime rd = false -> length bytes = 4%nat.
Proof.
  intros [w Hw _ _ _|w Hw _ _ <- _ _] Hr; [apply le_split_length|exfalso].
  assert (inU 3 (field w 2 3)) as Hf by (apply field_range; lia).
  unfold CInstr.rdp, DecodeCRdp, DecodeRegPrime in Hr. revert Hr. fold_fields. intros Hr.
  apply not_true_iff_false in Hr. apply Hr. rewrite IsRegPrime_spec. by replace (_ - 8) with (field w 2 3) by lia.
Qed.

(** jalr ra. *)
Lemma jalr_ra_emitted a :
  Supports a RV_I = true -> Supports a RV_C = true ->
  emitted (MicroAssembler.jalr_link Reg.RA 0) a (le_split 2 kJalrRA).
Proof.
  intros HI HC. apply emitted_16; [|done]. unfold MicroAssembler.jalr_link, MicroAssembler.jalr.
  rewrite ASSERT_true, HC by done. cbn [rbind]. closed_bools. unfold MicroAssembler.c_jalr.
  change EncodeCRs1 with EncodeCRd. assert (inU 5 Reg.RA) by done. assert (inU 5 Reg.ZR) by done. c_emit.
Qed.

Lemma AssertJalrRA_code mem start :
  0 <= start -> start + 2 < 2 ^ XLEN -> code_at mem start (le_split 2 kJalrRA) ->
  AssertJalrRA mem (start + 2) = Ok tt.
Proof.
  intros Hs He Hc. unfold AssertJalrRA. rewrite Z.add_simpl_r, (load16_at _ _ kJalrRA) by first [done | unfold inU; lia].
  cbn [rbind]. by rewrite Z.eqb_refl, ASSERT_true.
Qed.

(** The code of a call that loads [i] to [data_reg] and calls the code at [j]. *)
Definition call_code (data_reg i code_reg j : Z) (bytes : list Z) : Prop :=
  exists data target entry, bytes = data ++ target ++ entry ++ le_split 2 kJalrRA /\
    pool_code data_reg i data /\ pool_code code_reg j target /\ length entry = 4%nat.

Lemma TwoLoads_code (precompiled : bool) mem start (code : CodeObject) data_reg i j bytes
    (pc := start + Z.of_nat (length bytes)) :
  call_code data_reg i (if precompiled then TMP else CODE_REG) j bytes ->
  data_reg <> Reg.T1 -> data_reg <> Reg.T2 -> 0 <= start -> pc < 2 ^ XLEN ->
  code_at mem start bytes -> parcel_before mem start -> ContainsInstructionAt code pc = true ->
  TwoLoads precompiled mem pc code data_reg = Ok (j, i).
Proof.
  intros (data & target & entry & -> & Hd & Ht & He) H1 H2 Hs Hpc Hc Hb Hin.
  apply code_at_app in Hc as [Cd Hc]. apply code_at_app in Hc as [Ct Hc]. apply code_at_app in Hc as [Ce Cj].
  unfold pc in *. clear pc. rewrite !length_app, !Nat2Z.inj_add, le_split_length, He in *.
  change (Z.of_nat 4) with 4 in *. change (Z.of_nat 2) with 2 in *.
  set (e := start + Z.of_nat (length data) + Z.of_nat (length target)) in *.
  replace (start + (Z.of_nat (length data) + (Z.of_nat (length target) + (4 + 2)))) with (e + 4 + 2) in * by lia.
  unfold TwoLoads. rewrite Hin, ASSERT_true by done. cbn [rbind].
  rewrite AssertJalrRA_code by first [done | lia]. cbn [rbind].
  replace (e + 4 + 2 - 6) with e by lia. unfold e.
  rewrite (DecodeLoadWordFromPool_code mem _ _ _ _ Ht)
    by first [done | lia | by apply (pool_code_tail mem start data_reg i)].
  cbn [rbind l_reg l_start l_index]. unfold IsJumpAndLinkScratch. rewrite Z.eqb_refl, ASSERT_true by done.
  cbn [rbind]. rewrite (DecodeLoadWordFromPool_code mem _ _ _ _ Hd) by (done || lia).
  cbn [rbind l_reg l_index]. by rewrite Z.eqb_refl, ASSERT_true.
Qed.

Lemma EmitInstanceCallJIT_code stub ic_data kind (m : MacroAsm) (i := next_index m) :
  Supports (asm_ m) RV_I = true -> Supports (asm_ m) RV_C = true -> constant_pool_allowed_ m = true ->
  pool_reach i -> pool_reach (i + 1) ->
  exists bytes, EmitInstanceCallJIT_call stub ic_data kind m =
      Ok (append (pooled m [unique_entry ic_data kSnapshotable; unique_entry stub kSnapshotable]) bytes) /\
    call_code IC_DATA_REG i CODE_REG (i + 1) bytes.
Proof.
  intros HI HC Hpool Hi Hj. unfold EmitInstanceCallJIT_call, andthen.
  destruct (LoadUniqueObject_code IC_DATA_REG ic_data kSnapshotable m) as (b1 & E1 & H1); [done..|].
  rewrite E1. cbn [rbind]. set (m1 := append _ b1).
  assert (next_index m1 = i + 1) as Ei.
  { unfold next_index, m1. cbn. rewrite length_app. cbn [length]. unfold i, next_index. lia. }
  destruct (LoadUniqueObject_code CODE_REG stub kSnapshotable m1) as (b2 & E2 & H2); try done; [by rewrite Ei|].
  rewrite E2. cbn [rbind]. set (m2 := append _ b2). set (off := Code_entry_point_offset _).
  destruct (loadx_emitted Reg.RA CODE_REG (off - kHeapObjectTag) (asm_ m2)) as (b3 & H3 & E3); try done.
  { apply IsITypeImm_spec. unfold off, Code_entry_point_offset, kHeapObjectTag. by destruct (XLEN =? 64), kind. }
  unfold FieldAddress. rewrite (appends_emit _ m2 b3 E3). cbn [rbind]. set (m3 := append _ b3).
  rewrite (appends_emit _ m3 _ (jalr_ra_emitted (asm_ m3) HI HC)).
  exists (b1 ++ b2 ++ b3 ++ le_split 2 kJalrRA). split.
  - unfold m3, m2, m1, append, pooled, set_asm, set_pool, set_buffer. cbn. by rewrite <- !app_assoc.
  - exists b1, b2, b3. rewrite Ei in H2. split_and!; try done. by apply (loadx_long _ _ _ _ H3).
Qed.

(** ** Pools *)

Lemma fill_pool_lookup ptr (b : Builder T) k n l :
  used_from_parent_ b = [] -> 0 <= k -> fill_pool ptr [] b k n = Ok l ->
  forall j e, (j < n)%nat -> object_pool_ b !! (Z.to_nat k + j)%nat = Some e ->
  exists w, entry_word ptr e = Ok w /\ l !! j = Some w.
Proof.
  intros Hu. revert k l. induction n as [|n IH]; intros k l Hk E j e Hj He; [lia|].
  cbn [fill_pool] in E. apply rbind_ok_inv in E as (e0 & E0 & E). apply rbind_ok_inv in E as (w & Ew & E).
  apply rbind_ok_inv in E as (rest & Er & E). simplify_eq.
  unfold ObjectPool.EntryAt in E0. rewrite Hu in E0. cbn [length] in E0.
  rewrite (proj2 (Z.ltb_ge k (Z.of_nat 0))), Z.sub_0_r in E0 by lia.
  destruct j as [|j].
  - rewrite Nat.add_0_r in He. rewrite He in E0. simplify_eq. by exists w.
  - destruct (IH (k + 1) rest ltac:(lia) Er j e ltac:(lia)) as (w' & Ew' & Hl); [|by exists w'].
    rewrite <- He. f_equal. lia.
Qed.

(** The pool of a builder holds its tagged objects. *)
Definition pool_holds (p : HeapPool) (i v : Z) : Prop :=
  0 <= i /\ p_data p !! Z.to_nat i = Some v /\ p_types p !! Z.to_nat i = Some EntryTaggedObject.

Lemma NewFromBuilder_holds ptr (b : Builder T) p i obj eqv pt sb :
  used_from_parent_ b = [] -> NewFromBuilder ptr [] b = Ok p -> 0 <= i ->
  object_pool_ b !! Z.to_nat i = Some (mkEntry (kTaggedObject obj eqv) pt sb) -> pool_holds p i (ptr obj).
Proof.
  intros Hu E Hi He. unfold NewFromBuilder in E. apply rbind_ok_inv in E as (l & El & E). simplify_eq.
  pose proof (lookup_lt_Some _ _ _ He) as Hlt.
  assert (Z.to_nat i < Z.to_nat (CurrentLength b))%nat as Hn
    by (unfold CurrentLength; rewrite Hu; cbn [length]; lia).
  destruct (fill_pool_lookup ptr b 0 _ l Hu (Z.le_refl 0) El (Z.to_nat i) _ Hn He) as (w & Ew & Hl).
  cbn in Ew. simplify_eq. split; [done|]. cbn [p_data p_types]. by rewrite !list_lookup_fmap, Hl.
Qed.

Lemma holds_index p i v : pool_holds p i v -> 0 <= i < Pool_Length p.
Proof. intros (Hi & Hd & _). apply lookup_lt_Some in Hd. unfold Pool_Length. lia. Qed.

Lemma TypeAt_holds p i v : pool_holds p i v -> TypeAt p i = Ok EntryTaggedObject.
Proof.
  intros Hh. pose proof (holds_index _ _ _ Hh). destruct Hh as (Hi & _ & Ht). unfold TypeAt, pool_index.
  rewrite ASSERT_true by lia. cbn [rbind]. by rewrite (proj2 (Z.ltb_ge i 0) Hi), Ht.
Qed.

Lemma ObjectAt_holds p i v : pool_holds p i v -> ObjectAt p i = Ok v.
Proof.
  intros Hh. pose proof (holds_index _ _ _ Hh). unfold ObjectAt. rewrite (TypeAt_holds p i v Hh). cbn [rbind].
  rewrite ASSERT_true by done. cbn [rbind]. destruct Hh as (Hi & Hd & _). unfold PoolEntryAt, pool_index.
  rewrite ASSERT_true by lia. cbn [rbind]. by rewrite (proj2 (Z.ltb_ge i 0) Hi), Hd.
Qed.

(** An entry is overwritten, the others stay. *)
Lemma SetObjectAt_holds p i v w :
  pool_holds p i v -> exists p', SetObjectAt p i w = Ok p' /\ pool_holds p' i w /\
    forall j, j <> Z.to_nat i -> p_data p' !! j = p_data p !! j /\ p_types p' !! j = p_types p !! j.
Proof.
  intros Hh. pose proof (holds_index _ _ _ Hh). unfold SetObjectAt. rewrite (TypeAt_holds p i v Hh). cbn [rbind].
  rewrite ASSERT_true by done. cbn [rbind]. destruct Hh as (Hi & Hd & Ht). unfold SetPoolEntryAt, PoolEntryAt, pool_index.
  rewrite ASSERT_true by lia. cbn [rbind]. rewrite (proj2 (Z.ltb_ge i 0) Hi), Hd. cbn [rbind].
  eexists. split; [reflexivity|]. split.
  - split_and!; [done| |done]. apply list_lookup_insert_eq. by eapply lookup_lt_Some.
  - intros j Hj. split; [|done]. by apply list_lookup_insert_ne.
Qed.

Lemma holds_other p p' i j v :
  pool_holds p j v -> j <> i -> 0 <= i ->
  (forall k, k <> Z.to_nat i -> p_data p' !! k = p_data p !! k /\ p_types p' !! k = p_types p !! k) ->
  pool_holds p' j v.
Proof. intros (Hj & Hd & Ht) Hne Hi Hk. destruct (Hk (Z.to_nat j)) as [E1 E2]; [lia|]. split_and!; congruence. Qed.

(** ** Patching *)

Definition InstanceCall_pool (m : MacroAsm) (b : Builder T) (stub ic_data : Z) : Prop :=
  used_from_parent_ b = [] /\ exists more, object_pool_ b = object_pool_ (object_pool_builder_ m) ++
    [unique_entry ic_data kSnapshotable; unique_entry stub kSnapshotable] ++ more.

(** A call site that finds its indices reads and patches those entries. *)
Lemma GetInstanceCallAt_holds mem pc code i j stub data :
  ICCallPattern false mem pc code = Ok (j, i) -> ContainsInstructionAt code pc = true ->
  pool_holds (GetObjectPool code) i data -> pool_holds (GetObjectPool code) j stub ->
  GetInstanceCallAt false mem pc code = Ok (stub, data).
Proof.
  intros E Hin Hi Hj. unfold GetInstanceCallAt. rewrite Hin, ASSERT_true, E by done. cbn [rbind fst snd].
  by rewrite (ObjectAt_holds _ _ _ Hi), (ObjectAt_holds _ _ _ Hj).
Qed.

Lemma PatchInstanceCallAt_holds IsData mem pc code i j stub data stub' data' :
  ICCallPattern false mem pc code = Ok (j, i) -> ContainsInstructionAt code pc = true -> i <> j ->
  pool_holds (GetObjectPool code) i data -> pool_holds (GetObjectPool code) j stub -> IsData data' = true ->
  exists p', PatchInstanceCallAt false IsData mem pc code data' stub' = Ok (set_object_pool code p') /\
    pool_holds p' i data' /\ pool_holds p' j stub' /\
    forall k, k <> Z.to_nat i -> k <> Z.to_nat j -> p_data p' !! k = p_data (GetObjectPool code) !! k.
Proof.
  intros E Hin Hne Hi Hj Hd. unfold PatchInstanceCallAt. rewrite Hin, ASSERT_true, E by done. cbn [rbind fst snd].
  rewrite ASSERT_true by done. cbn [rbind].
  destruct (SetObjectAt_holds _ i data data' Hi) as (p1 & -> & H1 & O1). cbn [rbind].
  pose proof (holds_other _ p1 i j _ Hj ltac:(lia) (proj1 Hi) O1) as Hj1.
  destruct (SetObjectAt_holds p1 j stub stub' Hj1) as (p2 & -> & H2 & O2). cbn [rbind].
  exists p2. split_and!; try done.
  - by apply (holds_other p1 p2 j i data' H1 Hne (proj1 Hj)).
  - intros k Hki Hkj. destruct (O2 k Hkj) as [-> _]. by destruct (O1 k Hki) as [-> _].
Qed.

(** C15. The code of an instance call, laid out anywhere in memory, with the
    object pool made of the builder it was compiled with: the code patcher reads
    back the stub and the inline-cache data the call was compiled for, and after
    [PatchInstanceCallAt] the target and the data that were patched.  As for
    every backward decoding, the halfword before the code must not look like the
    start of a longer load (parcel_before). *)
Theorem InstanceCall_patching stub ic_data kind (m : MacroAsm) :
  Supports (asm_ m) RV_I = true -> Supports (asm_ m) RV_C = true -> constant_pool_allowed_ m = true ->
  base_index_ (object_pool_builder_ m) = 0 -> pool_reach (next_index m + 1) ->
  exists bytes, EmitInstanceCallJIT_call stub ic_data kind m =
      Ok (append (pooled m [unique_entry ic_data kSnapshotable; unique_entry stub kSnapshotable]) bytes) /\
  forall mem start code ptr b IsData stub' data' (pc := start + Z.of_nat (length bytes)),
    0 <= start -> pc < 2 ^ XLEN -> code_at mem start bytes -> parcel_before mem start ->
    ContainsInstructionAt code pc = true -> InstanceCall_pool m b stub ic_data ->
    NewFromBuilder ptr [] b = Ok (GetObjectPool code) -> IsData data' = true ->
    GetInstanceCallAt false mem pc code = Ok (ptr stub, ptr ic_data) /\
    exists code', PatchInstanceCallAt false IsData mem pc code data' stub' = Ok code' /\
      GetInstanceCallAt false mem pc code' = Ok (stub', data').
Proof.
  intros HI HC Hpool Hbase Hreach.
  assert (0 <= next_index m) as H0 by (unfold next_index; lia).
  assert (pool_reach (next_index m)) as Hreach0.
  { destruct Hreach as [_ Hr]. split; [done|]. revert Hr. unfold element_offset, ObjectPool_element_size.
    destruct (XLEN =? 64); lia. }
  destruct (EmitInstanceCallJIT_code stub ic_data kind m HI HC Hpool Hreach0 Hreach) as (bytes & E & Hcall).
  exists bytes. split; [done|].
  intros mem start code ptr b IsData stub' data' pc Hs Hpc Hc Hb Hin (Hu & more & Eb) Hp Hd.
  set (i := next_index m) in *.
  assert (forall c, ContainsInstructionAt c pc = true -> ICCallPattern false mem pc c = Ok (i + 1, i)) as Hic.
  { intros c Hin'. by apply (TwoLoads_code false mem start c IC_DATA_REG i (i + 1) bytes). }
  assert (Z.to_nat i = length (object_pool_ (object_pool_builder_ m))) as Ei by (unfold i, next_index; lia).
  assert (pool_holds (GetObjectPool code) i (ptr ic_data)) as Hi.
  { eapply (NewFromBuilder_holds ptr b); try done. rewrite Eb, Ei.
    rewrite lookup_app_r by lia. by rewrite Nat.sub_diag. }
  assert (pool_holds (GetObjectPool code) (i + 1) (ptr stub)) as Hj.
  { eapply (NewFromBuilder_holds ptr b); try done; [lia|].
    replace (Z.to_nat (i + 1)) with (S (length (object_pool_ (object_pool_builder_ m)))) by lia.
    rewrite Eb, lookup_app_r by lia. by replace (S _ - _)%nat with 1%nat by lia. }
  split; [by apply (GetInstanceCallAt_holds mem pc code i (i + 1)); try apply Hic|].
  destruct (PatchInstanceCallAt_holds IsData mem pc code i (i + 1) _ _ stub' data'
    (Hic code Hin) Hin ltac:(lia) Hi Hj Hd) as (p' & E' & Hi' & Hj' & _).
  exists (set_object_pool code p'). split; [done|].
  by apply (GetInstanceCallAt_holds mem pc _ i (i + 1)); try apply Hic.
Qed.

(** ** Static calls *)

(** The code of a call of the code at [j]. *)
Definition static_code (code_reg j : Z) (kind : CodeEntryKind) (bytes : list Z) : Prop :=
  exists target entry, bytes = target ++ entry ++ le_split 2 kJalrRA /\ pool_code code_reg j target /\
    length entry = 4%nat /\
    loadx_code Reg.RA code_reg (Code_entry_point_offset kind - kHeapObjectTag) entry.

Lemma entry_point_fits kind : IsITypeImm (Code_entry_point_offset kind - kHeapObjectTag) = true.
Proof.
  apply IsITypeImm_spec. unfold Code_entry_point_offset, kHeapObjectTag. by destruct (XLEN =? 64), kind.
Qed.

Lemma JumpAndLink_code (precompiled : bool) index kind (m : MacroAsm)
    (code_reg := if precompiled then TMP else CODE_REG) :
  Supports (asm_ m) RV_I = true -> Supports (asm_ m) RV_C = true -> constant_pool_allowed_ m = true ->
  pool_reach index ->
  exists bytes, appends (JumpAndLink precompiled index kind) m bytes /\ static_code code_reg index kind bytes.
Proof.
  intros HI HC Hpool Hi.
  assert (inU 5 code_reg /\ code_reg <> Reg.ZR /\ code_reg <> Reg.SP /\ code_reg <> PP) as (Hd & Hz & Hsp & Hpp)
    by (unfold code_reg; by destruct precompiled).
  destruct (LoadWordFromPoolIndex_code code_reg index m HI HC Hpool Hd Hz Hsp Hpp Hi) as (b1 & E1 & H1).
  destruct (loadx_emitted Reg.RA code_reg (Code_entry_point_offset kind - kHeapObjectTag) (asm_ (append m b1)))
    as (b2 & H2 & E2); try done; [apply entry_point_fits|].
  exists (b1 ++ b2 ++ le_split 2 kJalrRA). split.
  - apply appends_seq; [done|]. apply appends_seq; apply appends_emit; [done|]. by apply jalr_ra_emitted.
  - exists b1, b2. split_and!; try done. by apply (loadx_long _ _ _ _ H2).
Qed.

Lemma static_code_at mem start code_reg j kind bytes (pc := start + Z.of_nat (length bytes)) :
  static_code code_reg j kind bytes -> 0 <= start -> pc < 2 ^ XLEN -> code_at mem start bytes ->
  parcel_before mem start ->
  AssertJalrRA mem pc = Ok tt /\
  (exists target, DecodeLoadWordFromPool mem (pc - 6) = Ok (mkPoolLoad target code_reg j)) /\
  exists w, load32 mem (pc - 6) = Ok w /\
    w = itype_word (Code_entry_point_offset kind - kHeapObjectTag) code_reg
          (if XLEN =? 32 then Funct3.LW else Funct3.LD) Reg.RA Opcode.LOAD.
Proof.
  intros (target & entry & -> & Ht & He & Hl) Hs Hpc Hc Hb. 
  apply code_at_app in Hc as [Ct Hc]. apply code_at_app in Hc as [Ce Cj].
  unfold pc in *. clear pc. rewrite !length_app, !Nat2Z.inj_add, le_split_length, He in *.
  change (Z.of_nat 4) with 4 in *. change (Z.of_nat 2) with 2 in *.
  set (e := start + Z.of_nat (length target)) in *.
  replace (start + (Z.of_nat (length target) + (4 + 2))) with (e + 4 + 2) in * by lia.
  replace (e + 4 + 2 - 6) with e by lia. split_and!.
  - apply AssertJalrRA_code; [lia|lia|done].
  - exists start. apply DecodeLoadWordFromPool_code; try done; lia.
  - destruct Hl as [w Hw Hrd Hbase Hoff|w]; [|rewrite le_split_length in He; lia].
    exists w. split; [|done]. apply load32_at; [unfold inU; lia| |done].
    rewrite Hw. apply itype_fields; try done. by destruct (XLEN =? 32).
Qed.

(** The entry points that compiled code calls satisfy the assertion of
    [PoolPointerCall]. *)
Lemma PoolPointerCall_code mem start j kind bytes code (pc := start + Z.of_nat (length bytes)) :
  static_code CODE_REG j kind bytes -> kind = kNormal \/ kind = kUnchecked -> 0 <= start -> pc < 2 ^ XLEN ->
  code_at mem start bytes -> parcel_before mem start -> PoolPointerCall mem pc code = Ok j.
Proof.
  intros Hst Hk Hs Hpc Hc Hb.
  destruct (static_code_at mem start CODE_REG j kind bytes Hst Hs Hpc Hc Hb) as (Ej & (target & Ed) & w & Ew & Hw).
  unfold pc, PoolPointerCall. rewrite Ej. cbn [rbind]. rewrite Ew. cbn [rbind].
  rewrite ASSERT_true; [cbn [rbind]; by rewrite Ed|].
  rewrite Hw. unfold Code_entry_point_offset. destruct XLEN_cases as [-> | ->]; [|done].
  by destruct Hk as [-> | ->].
Qed.

Theorem StaticCall_patching index kind (m : MacroAsm) :
  Supports (asm_ m) RV_I = true -> Supports (asm_ m) RV_C = true -> constant_pool_allowed_ m = true ->
  pool_reach index -> kind = kNormal \/ kind = kUnchecked ->
  exists bytes, JumpAndLink false index kind m = Ok (append m bytes) /\
  forall mem start code target target' (pc := start + Z.of_nat (length bytes)),
    0 <= start -> pc < 2 ^ XLEN -> code_at mem start bytes -> parcel_before mem start ->
    ContainsInstructionAt code pc = true -> pool_holds (GetObjectPool code) index target ->
    CallPattern false mem pc code = Ok index /\
    GetStaticCallTargetAt mem pc code = Ok target /\
    exists code', PatchStaticCallAt mem pc code target' = Ok code' /\
      GetStaticCallTargetAt mem pc code' = Ok target'.
Proof.
  intros HI HC Hpool Hi Hk. destruct (JumpAndLink_code false index kind m HI HC Hpool Hi) as (bytes & E & Hst).
  exists bytes. split; [done|]. intros mem start code target target' pc Hs Hpc Hc Hb Hin Hh.
  assert (forall c, PoolPointerCall mem pc c = Ok index) as Hp
    by (intros c; by apply (PoolPointerCall_code mem start index kind)).
  destruct (static_code_at mem start CODE_REG index kind bytes Hst Hs Hpc Hc Hb) as (Ej & (l & Ed) & _).
  change (AssertJalrRA mem pc = Ok tt) in Ej.
  change (DecodeLoadWordFromPool mem (pc - 6) = Ok (mkPoolLoad l CODE_REG index)) in Ed. split_and!.
  - unfold CallPattern. rewrite Hin, ASSERT_true, Ej by done. cbn [rbind]. rewrite Ed. cbn [rbind l_reg l_index].
    by rewrite ASSERT_true.
  - unfold GetStaticCallTargetAt. rewrite Hin, ASSERT_true, Hp by done. cbn [rbind]. by apply ObjectAt_holds.
  - unfold PatchStaticCallAt, PatchPoolPointerCallAt. rewrite Hin, ASSERT_true, Hp by done. cbn [rbind].
    destruct (SetObjectAt_holds _ index target target' Hh) as (p' & -> & Hh' & _). cbn [rbind].
    eexists. split; [reflexivity|]. unfold GetStaticCallTargetAt.
    change (ContainsInstructionAt (set_object_pool code p') pc) with (ContainsInstructionAt code pc).
    rewrite Hin, ASSERT_true, Hp by done. cbn [rbind]. by apply ObjectAt_holds.
Qed.

(** ** Switchable calls *)

Lemma EmitInstanceCallAOT_code initial_stub data (m : MacroAsm) (i := next_index m) :
  Supports (asm_ m) RV_I = true -> Supports (asm_ m) RV_C = true -> constant_pool_allowed_ m = true ->
  pool_reach i -> pool_reach (i + 1) ->
  exists b1 b2, EmitInstanceCallAOT_call initial_stub data m =
      Ok (append (pooled m [unique_entry initial_stub kResetToSwitchableCallMissEntryPoint;
                            unique_entry data kSnapshotable]) (b1 ++ b2 ++ le_split 2 kJalrRA)) /\
    pool_code Reg.RA i b1 /\ pool_code IC_DATA_REG (i + 1) b2.
Proof.
  intros HI HC Hpool Hi Hj. unfold EmitInstanceCallAOT_call, andthen.
  destruct (LoadUniqueObject_code Reg.RA initial_stub kResetToSwitchableCallMissEntryPoint m)
    as (b1 & E1 & H1); [done..|].
  rewrite E1. cbn [rbind]. set (m1 := append _ b1).
  assert (next_index m1 = i + 1) as Ei.
  { unfold next_index, m1. cbn. rewrite length_app. cbn [length]. unfold i, next_index. lia. }
  destruct (LoadUniqueObject_code IC_DATA_REG data kSnapshotable m1) as (b2 & E2 & H2); try done; [by rewrite Ei|].
  rewrite E2. cbn [rbind]. set (m2 := append _ b2).
  rewrite (appends_emit _ m2 _ (jalr_ra_emitted (asm_ m2) HI HC)).
  exists b1, b2. rewrite Ei in H2. split; [|done].
  unfold m2, m1, append, pooled, set_asm, set_pool, set_buffer. cbn. by rewrite <- !app_assoc.
Qed.

Lemma BareSwitchable_code mem start i j b1 b2 (pc := start + Z.of_nat (length (b1 ++ b2 ++ le_split 2 kJalrRA))) :
  pool_code Reg.RA i b1 -> pool_code IC_DATA_REG j b2 -> 0 <= start -> pc < 2 ^ XLEN ->
  code_at mem start (b1 ++ b2 ++ le_split 2 kJalrRA) -> parcel_before mem start ->
  BareSwitchableCallPattern mem pc = Ok (i, j).
Proof.
  intros H1 H2 Hs Hpc Hc Hb. apply code_at_app in Hc as [C1 Hc]. apply code_at_app in Hc as [C2 Cj].
  unfold pc in *. clear pc. rewrite !length_app, !Nat2Z.inj_add, le_split_length in *. change (Z.of_nat 2) with 2 in *.
  set (e := start + Z.of_nat (length b1) + Z.of_nat (length b2)) in *.
  replace (start + (Z.of_nat (length b1) + (Z.of_nat (length b2) + 2))) with (e + 2) in * by lia.
  unfold BareSwitchableCallPattern. rewrite AssertJalrRA_code by (done || lia). cbn [rbind].
  rewrite Z.add_simpl_r. unfold e.
  rewrite (DecodeLoadWordFromPool_code mem _ _ _ _ H2)
    by first [done | lia | by apply (pool_code_tail mem start Reg.RA i)].
  cbn [rbind l_reg l_start l_index]. rewrite Z.eqb_refl, ASSERT_true by done. cbn [rbind].
  rewrite (DecodeLoadWordFromPool_code mem _ _ _ _ H1) by (done || lia).
  cbn [rbind l_reg l_index]. by rewrite Z.eqb_refl, ASSERT_true.
Qed.

(** An immediate of the pool. *)
Definition pool_holds_raw (p : HeapPool) (i v : Z) : Prop :=
  0 <= i /\ p_data p !! Z.to_nat i = Some v /\ p_types p !! Z.to_nat i = Some EntryImmediate.

Lemma RawValueAt_holds p i v :
  pool_holds_raw p i v -> TypeAt p i = Ok EntryImmediate /\ RawValueAt p i = Ok v /\
  forall w, SetRawValueAt p i w = Ok (mkPool (<[Z.to_nat i := w]> (p_data p)) (p_types p)).
Proof.
  intros (Hi & Hd & Ht). pose proof (lookup_lt_Some _ _ _ Hd) as Hlt.
  assert (0 <= i < Pool_Length p) as Hr by (unfold Pool_Length; lia).
  assert (TypeAt p i = Ok EntryImmediate) as Ety.
  { unfold TypeAt, pool_index. rewrite ASSERT_true by lia. cbn [rbind]. by rewrite (proj2 (Z.ltb_ge i 0) Hi), Ht. }
  assert (PoolEntryAt p i = Ok v) as Ev.
  { unfold PoolEntryAt, pool_index. rewrite ASSERT_true by lia. cbn [rbind].
    by rewrite (proj2 (Z.ltb_ge i 0) Hi), Hd. }
  split; [done|]. unfold RawValueAt, SetRawValueAt, SetPoolEntryAt. rewrite Ety. cbn [rbind].
  rewrite !ASSERT_true by done. cbn [rbind]. by rewrite Ev.
Qed.

(** The code of a call in precompiled mode: patching replaces the data and the
    address that the call goes to. *)
Theorem SwitchableCall_patching initial_stub data (m : MacroAsm) (i := next_index m) :
  Supports (asm_ m) RV_I = true -> Supports (asm_ m) RV_C = true -> constant_pool_allowed_ m = true ->
  0 <= i -> pool_reach (i + 1) ->
  exists bytes, EmitInstanceCallAOT_call initial_stub data m =
      Ok (append (pooled m [unique_entry initial_stub kResetToSwitchableCallMissEntryPoint;
                            unique_entry data kSnapshotable]) bytes) /\
  forall mem start pool entry old IsCode Entry data' target (pc := start + Z.of_nat (length bytes)),
    0 <= start -> pc < 2 ^ XLEN -> code_at mem start bytes -> parcel_before mem start ->
    pool_holds_raw pool i entry -> pool_holds pool (i + 1) old -> IsCode old = false ->
    GetSwitchableCallTargetEntryAt true mem pc pool = Ok entry /\
    GetSwitchableCallDataAt true mem pc pool = Ok old /\
    exists pool', PatchSwitchableCallAt true IsCode Entry mem pc pool data' target = Ok pool' /\
      GetSwitchableCallTargetEntryAt true mem pc pool' = Ok (Entry target) /\
      GetSwitchableCallDataAt true mem pc pool' = Ok data'.
Proof.
  intros HI HC Hpool H0 Hj.
  assert (pool_reach i) as Hi.
  { destruct Hj as [_ Hr]. split; [done|]. revert Hr. unfold element_offset, ObjectPool_element_size.
    destruct (XLEN =? 64); lia. }
  destruct (EmitInstanceCallAOT_code initial_stub data m HI HC Hpool Hi Hj) as (b1 & b2 & E & H1 & H2).
  exists (b1 ++ b2 ++ le_split 2 kJalrRA). split; [done|].
  intros mem start pool entry old IsCode Entry data' target pc Hs Hpc Hc Hb Hr Ho Hold.
  assert (BareSwitchableCallPattern mem pc = Ok (i, i + 1)) as Ep by (by apply BareSwitchable_code).
  assert (forall p e o, pool_holds_raw p i e -> pool_holds p (i + 1) o ->
    GetSwitchableCallTargetEntryAt true mem pc p = Ok e /\ GetSwitchableCallDataAt true mem pc p = Ok o) as Hget.
  { intros p e o He Hoo. unfold GetSwitchableCallTargetEntryAt, GetSwitchableCallDataAt. rewrite Ep. cbn [rbind fst snd].
    split; [by apply RawValueAt_holds|by apply ObjectAt_holds]. }
  destruct (Hget pool entry old Hr Ho) as [G1 G2]. split; [done|]. split; [done|].
  unfold PatchSwitchableCallAt. rewrite Ep. cbn [rbind fst snd]. rewrite (ObjectAt_holds _ _ _ Ho). cbn [rbind].
  rewrite Hold, ASSERT_true by done. cbn [rbind].
  destruct (SetObjectAt_holds pool (i + 1) old data' Ho) as (p1 & -> & Ho1 & O1). cbn [rbind].
  assert (pool_holds_raw p1 i entry) as Hr1.
  { destruct Hr as (_ & Hd & Ht). destruct (O1 (Z.to_nat i)) as [E1 E2]; [lia|]. split_and!; congruence. }
  destruct (RawValueAt_holds p1 i entry Hr1) as (Ety & _ & Eset). rewrite Ety. cbn [rbind].
  rewrite ASSERT_true by done. cbn [rbind]. rewrite Eset. eexists. split; [reflexivity|]. apply Hget.
  - destruct Hr1 as (_ & Hd & Ht). split_and!; [done| |done]. apply list_lookup_insert_eq. by eapply lookup_lt_Some.
  - destruct Ho1 as (Hp & Hd & Ht). split_and!; [done| |done]. cbn [p_data].
    rewrite list_lookup_insert_ne by lia. done.
Qed.

End Macros.

(** ** Calls relative to the program counter *)

Section PcRelative.
Context `{Target}.

Definition auipc_word (rd hi : Z) : Z := utype_word (Z.shiftl (field hi 12 20) 12) rd Opcode.AUIPC.
Definition jalr_word (rd rs1 lo : Z) : Z := itype_word lo rs1 Funct3.F3_0 rd Opcode.JALR.

(** The pair that goes [d] bytes away through [rd] and links in [link]. *)
Definition pair_bytes (link rd d : Z) : list Z :=
  le_split 4 (auipc_word rd (ImmHi d)) ++ le_split 4 (jalr_word link rd (ImmLo d)).

Lemma pair_words link rd d (a := auipc_word rd (ImmHi d)) (j := jalr_word link rd (ImmLo d)) :
  inU 5 link -> inU 5 rd ->
  (inU 32 a /\ Instr.opcode a = Opcode.AUIPC /\ Instr.rd a = rd /\ Instr.utype_imm a = ImmHi d) /\
  (inU 32 j /\ Instr.opcode j = Opcode.JALR /\ Instr.rd j = link /\ Instr.rs1 j = rd /\
   Instr.itype_imm j = ImmLo d).
Proof.
  intros Hl Hd. destruct (ImmHi_fits d) as [Hu Hw].
  assert (inU 7 Opcode.AUIPC /\ inU 7 Opcode.JALR /\ inU 3 Funct3.F3_0) as (R1 & R2 & R3) by done.
  split; [exact (utype_fields (ImmHi d) rd Opcode.AUIPC Hw Hu Hd R1)|].
  destruct (itype_fields (ImmLo d) rd Funct3.F3_0 link Opcode.JALR (ImmLo_fits d) Hd R3 Hl R2)
    as (? & ? & ? & _ & ? & ? & _). done.
Qed.

Lemma pair_loads link rd d mem pc :
  inU 5 link -> inU 5 rd -> 0 <= pc -> pc + 8 < 2 ^ XLEN -> code_at mem pc (pair_bytes link rd d) ->
  load32 mem pc = Ok (auipc_word rd (ImmHi d)) /\ load32 mem (pc + 4) = Ok (jalr_word link rd (ImmLo d)).
Proof.
  intros Hl Hd Hp He Hc. destruct (pair_words link rd d Hl Hd) as [[Ra _] [Rj _]].
  apply code_at_app in Hc as [Ca Cj]. rewrite le_split_length in Cj. change (Z.of_nat 4) with 4 in Cj.
  split; apply load32_at; try done; unfold inU; lia.
Qed.

Lemma pair_valid link rd d mem pc :
  inU 5 link -> inU 5 rd -> 0 <= pc -> pc + 8 < 2 ^ XLEN -> code_at mem pc (pair_bytes link rd d) ->
  IsValid_linking link mem pc = Ok true.
Proof.
  intros Hl Hd Hp He Hc. destruct (pair_loads link rd d mem pc) as [Ea Ej]; [done..|].
  destruct (pair_words link rd d Hl Hd) as [(_ & Eop & Erd & _) (_ & Eop' & Elink & Ers1 & _)].
  unfold IsValid_linking. rewrite Ea. cbn [rbind]. rewrite Eop, Ej. cbn [rbind].
  by rewrite Eop', Erd, Ers1, Elink, !Z.eqb_refl.
Qed.

(** The parts of a distance in the last 2 KB of the 32-bit range. *)
Lemma last_page d : 2 ^ 31 - 2 ^ 11 <= d < 2 ^ 31 -> ImmLo d = d - 2 ^ 31 /\ ImmHi d = - 2 ^ 31.
Proof.
  intros Hd. assert (wrapS 12 d = d - 2 ^ 31) as El.
  { apply wrapS_eq_wrapU; [lia|unfold inS; lia|]. unfold wrapU.
    replace (d - 2 ^ 31) with (d + - 2 ^ 19 * 2 ^ 12) by lia. by rewrite Z_mod_plus_full. }
  rewrite ImmHi_wrap, ImmLo_wrap, El. split; [done|]. by replace (d - (d - 2 ^ 31)) with (2 ^ 31) by lia.
Qed.

(** [distance] reads every 32-bit distance back, but for the last 2 KB on RV32,
    where the sum of the two parts overflows. *)
Lemma pair_distance link rd d mem pc :
  inU 5 link -> inU 5 rd -> 0 <= pc -> pc + 8 < 2 ^ XLEN -> code_at mem pc (pair_bytes link rd d) ->
  inS 32 d -> distance mem pc = if decide (XLEN = 32 /\ far_fits d = false) then Err UndefinedBehavior else Ok d.
Proof.
  intros Hl Hd Hp He Hc Hr. destruct (pair_loads link rd d mem pc) as [Ea Ej]; [done..|].
  destruct (pair_words link rd d Hl Hd) as [(_ & _ & _ & Ehi) (_ & _ & _ & _ & Elo)].
  unfold distance. rewrite Ea, Ej. cbn [rbind]. rewrite Ehi, Elo. unfold inS in Hr.
  destruct (far_fits d) eqn:Hf.
  - rewrite ImmSplit, (decide_False (P := _ /\ _)) by (done || by intros [_ ?]).
    rewrite decide_True by (unfold inS; destruct XLEN_cases as [-> | ->]; lia). f_equal. apply wrapS_small; [lia|done].
  - unfold far_fits in Hf. destruct (last_page d) as [-> ->]; [lia|].
    destruct XLEN_cases as [HX|HX]; rewrite HX.
    + rewrite decide_False, decide_True by (unfold inS; lia || done). done.
    + rewrite decide_True, decide_False by (unfold inS; lia || by intros [? _]). f_equal.
      replace (- 2 ^ 31 + (d - 2 ^ 31)) with (d + -1 * 2 ^ 32) by lia.
      apply wrapS_eq_wrapU; [lia|done|]. unfold wrapU. by rewrite Z_mod_plus_full.
Qed.

Lemma store32_at m addr v :
  mapped m addr 4 -> inU XLEN addr -> exists m', store32 m addr v = Ok m' /\
    code_at m' addr (le_split 4 v) /\ dom m' = dom m /\ forall x, x < addr \/ addr + 4 <= x -> m' !! x = m !! x.
Proof.
  intros Hm Ha. unfold store32, StoreUnaligned. rewrite ux_small by done.
  change (Z.to_nat (sizeof uint32_t)) with 4%nat.
  destruct (store_bytes_total 4 m addr v Hm) as [m' E]. exists m'. split_and!; [done|..].
  - by eapply store_bytes_at.
  - by eapply store_bytes_dom.
  - intros x Hx. by eapply store_bytes_other.
Qed.

Lemma code_at_frame m m' addr bytes :
  code_at m addr bytes ->
  (forall x, addr <= x < addr + Z.of_nat (length bytes) -> m' !! x = m !! x) -> code_at m' addr bytes.
Proof.
  intros Hc Hx i b Hi. pose proof (lookup_lt_Some _ _ _ Hi). rewrite Hx by lia. by apply Hc.
Qed.

Lemma code_at_mapped m addr bytes : code_at m addr bytes -> mapped m addr (Z.of_nat (length bytes)).
Proof.
  intros Hc x Hx. destruct (lookup_lt_is_Some_2 bytes (Z.to_nat (x - addr))) as [b Hb]; [lia|].
  exists b. rewrite <- (Hc _ _ Hb). f_equal. lia.
Qed.

Lemma mapped_dom m m' lo n : dom m' = dom m -> mapped m lo n -> mapped m' lo n.
Proof. intros E Hm x Hx. apply elem_of_dom. rewrite E. by apply elem_of_dom, Hm. Qed.

Lemma store_pair mem pc a j :
  0 <= pc -> pc + 8 < 2 ^ XLEN -> mapped mem pc 8 ->
  exists mem', (let* m := store32 mem pc a in store32 m (pc + 4) j) = Ok mem' /\
    code_at mem' pc (le_split 4 a ++ le_split 4 j) /\
    forall x, x < pc \/ pc + 8 <= x -> mem' !! x = mem !! x.
Proof.
  intros Hp He Hm.
  destruct (store32_at mem pc (a)) as (m1 & -> & C1 & D1 & F1);
    [intros x Hx; apply Hm; lia|unfold inU; lia|]. cbn [rbind].
  destruct (store32_at m1 (pc + 4) (j)) as (m2 & -> & C2 & D2 & F2);
    [eapply mapped_dom; [exact D1|]; intros x Hx; apply Hm; lia|unfold inU; lia|].
  exists m2. split; [done|]. split.
  - apply code_at_app. split; [|done]. eapply code_at_frame; [exact C1|]. rewrite le_split_length.
    intros x Hx. apply F2. lia.
  - intros x Hx. rewrite F2, F1 by lia. done.
Qed.

Lemma set_distance_pair link rd d0 d mem pc :
  inU 5 link -> inU 5 rd -> 0 <= pc -> pc + 8 < 2 ^ XLEN -> code_at mem pc (pair_bytes link rd d0) ->
  exists mem', set_distance d mem pc = Ok mem' /\ code_at mem' pc (pair_bytes link rd d) /\
    forall x, x < pc \/ pc + 8 <= x -> mem' !! x = mem !! x.
Proof.
  intros Hl Hd Hp He Hc. destruct (pair_loads link rd d0 mem pc) as [Ea Ej]; [done..|].
  destruct (pair_words link rd d0 Hl Hd) as [(_ & _ & Erd & _) (_ & _ & Elink & Ers1 & _)].
  pose proof (code_at_mapped _ _ _ Hc) as Hm. change (Z.of_nat (length (pair_bytes link rd d0))) with 8 in Hm.
  destruct (ImmHi_fits d) as [Hu Hw]. pose proof (ImmLo_fits d) as Hlo.
  unfold set_distance. rewrite Ea, Ej. cbn [rbind]. rewrite Erd, Elink, Ers1. unfold or_fields.
  rewrite EncodeUTypeImm_ok, EncodeRd_ok, EncodeOpcode_ok, EncodeITypeImm_ok, EncodeRs1_ok, EncodeFunct3_ok,
    EncodeRd_ok, EncodeOpcode_ok by done. cbn [rbind].
  change (Z.lor _ (Z.shiftl Opcode.AUIPC 0)) with (auipc_word rd (ImmHi d)).
  change (Z.lor _ (Z.shiftl Opcode.JALR 0)) with (jalr_word link rd (ImmLo d)).
  by apply store_pair.
Qed.

(** A trampoline starts as a jump to itself. *)
Lemma Trampoline_Initialize_pair mem pc :
  0 <= pc -> pc + 8 < 2 ^ XLEN -> mapped mem pc 8 ->
  exists mem', Trampoline_Initialize mem pc = Ok mem' /\ code_at mem' pc (pair_bytes Reg.ZR TMP 0) /\
    forall x, x < pc \/ pc + 8 <= x -> mem' !! x = mem !! x.
Proof.
  intros Hp He Hm. destruct (ImmHi_fits 0) as [Hu Hw]. pose proof (ImmLo_fits 0) as Hlo.
  rewrite ImmHi_wrap in Hu, Hw. rewrite ImmLo_wrap in Hlo.
  change (wrapS 32 (0 - wrapS 12 0)) with 0 in *. change (wrapS 12 0) with 0 in *.
  unfold pair_bytes. rewrite ImmHi_wrap, ImmLo_wrap. change (wrapS 32 (0 - wrapS 12 0)) with 0.
  change (wrapS 12 0) with 0. unfold Trampoline_Initialize, or_fields.
  rewrite EncodeOpcode_ok, EncodeRd_ok, EncodeUTypeImm_ok, EncodeOpcode_ok, EncodeFunct3_ok, EncodeRd_ok,
    EncodeRs1_ok, EncodeITypeImm_ok by done. cbn [rbind].
  change (Z.lor _ (Z.shiftl (field 0 12 20) 12)) with (auipc_word TMP 0).
  change (Z.lor _ (Z.shiftl (field 0 0 12) 20)) with (jalr_word Reg.ZR TMP 0).
  by apply store_pair.
Qed.

(** ** Execution *)

Context `{HostNaN} `{Host}.

(** The pair goes to the sum of its two immediates. *)
Lemma pair_steps link rd d s :
  inU 5 link -> inU 5 rd -> rd <> Reg.ZR -> sim_ok s -> pc_ s mod 2 = 0 -> pc_ s + 8 <= 2 ^ XLEN - 2 ->
  code_at (mem_ s) (pc_ s) (pair_bytes link rd d) ->
  exists t, steps s 2 t /\ pc_ t = ux (pc_ s + (ImmHi d + ImmLo d)) /\ mem_ t = mem_ s /\
    (link <> Reg.ZR -> get_xreg t link = pc_ s + 8) /\
    (forall r, inU 5 r -> r <> rd -> r <> link -> get_xreg t r = get_xreg s r).
Proof.
  intros Hl Hd Hz Hok Hpc Hend Hc. apply code_at_app in Hc as [Hc1 Hc2].
  rewrite le_split_length in Hc2. change (Z.of_nat 4) with 4 in Hc2.
  destruct (pair_words link rd d Hl Hd) as [(R1 & Eop1 & _) (R2 & Eop2 & _)].
  destruct (ImmHi_fits d) as [Hu Hw]. pose proof (ok_pc s Hok) as Hpc0. unfold inU in Hpc0.
  set (s1 := write rd (pc_ s + ImmHi d) 4 s).
  assert (ExecuteOne s = Ok s1) as E1.
  { eapply word32_step; [exact R1|by eapply opcode_low_bits| |done|exact Hc1].
    exact (auipc_word_runs rd (ImmHi d) s Hw Hu Hd Hok). }
  assert (pc_ s1 = pc_ s + 4) as Ep.
  { unfold s1, write, advance. cbn. rewrite set_xreg_pc. apply ux_small. unfold inU; lia. }
  assert (forall r, inU 5 r -> get_xreg s1 r = if r =? rd then ux (pc_ s + ImmHi d) else get_xreg s r) as Ex.
  { intros r Hr. change (get_xreg s1 r) with (get_xreg (set_xreg s rd (pc_ s + ImmHi d)) r).
    rewrite get_set_xreg by done. rewrite (proj2 (Z.eqb_neq rd Reg.ZR) Hz). by rewrite andb_true_r. }
  assert (mem_ s1 = mem_ s) as Em by (unfold s1, write, set_xreg; by destruct (rd =? _)).
  assert (sim_ok s1) as Hok1 by (unfold s1, write; by apply ok_advance, ok_set_xreg).
  assert (ExecuteOne s1 = exec_jalr link rd (ImmLo d) 4 s1) as E2.
  { eapply word32_step; [exact R2|by eapply opcode_low_bits| |by rewrite Ep, Zplus_mod, Hpc|].
    - exact (jalr_word_runs link rd (ImmLo d) s1 (ImmLo_fits d) Hl Hd Hok1).
    - by rewrite Ep, Em. }
  eexists. split; [eapply steps_S; [|exact E1|eapply steps_S; [|exact E2|apply steps_0]];
      [|rewrite Ep]; unfold kEndSimulatingPC; rewrite ux_end; lia|].
  unfold jump_to. split_and!.
  - cbn. rewrite Ex, Z.eqb_refl by done. unfold ux. rewrite wrapU_idem_add_l. f_equal. lia.
  - cbn. unfold set_xreg. by destruct (link =? _).
  - intros Hlz. change (get_xreg (set_xreg s1 link (pc_ s1 + 4)) link = pc_ s + 8).
    rewrite get_set_xreg_same, Ep by done. rewrite ux_small by (unfold inU; lia). lia.
  - intros r Hr Hne Hnl. change (get_xreg (set_xreg s1 link (pc_ s1 + 4)) r = get_xreg s r).
    rewrite get_set_xreg_other, Ex by done. by rewrite (proj2 (Z.eqb_neq r rd) Hne).
Qed.

End PcRelative.

(** ** Relocation *)

Section Relocation.
Context `{Target} `{HostNaN} `{Host} {T : Type} `{ops : !IndexTableOps T}.

#[local] Abbreviation MacroAsm := (MacroAsm T).

(** The two macros, their scratch and link registers. *)
Definition pcrel (tail : bool) (offset : Z) : code T :=
  if tail then GenerateUnRelocatedPcRelativeTailCall offset else GenerateUnRelocatedPcRelativeCall offset.
Definition pcrel_link (tail : bool) : Z := if tail then Reg.ZR else Reg.RA.
Definition pcrel_scratch (tail : bool) : Z := if tail then TMP else Reg.RA.

Lemma pcrel_registers tail :
  inU 5 (pcrel_link tail) /\ inU 5 (pcrel_scratch tail) /\ pcrel_scratch tail <> Reg.ZR.
Proof. by destruct tail. Qed.

Lemma pcrel_appends tail offset (m : MacroAsm) :
  Supports (asm_ m) RV_I = true ->
  appends (pcrel tail offset) m (pair_bytes (pcrel_link tail) (pcrel_scratch tail) offset).
Proof.
  intros HI. destruct (pcrel_registers tail) as (Hl & Hd & _). destruct (ImmHi_fits offset) as [Hu Hw].
  destruct (pair_words (pcrel_link tail) (pcrel_scratch tail) offset Hl Hd) as [[R1 _] [R2 _]].
  assert (forall rd link (m' : MacroAsm), Supports (asm_ m') RV_I = true -> rd = pcrel_scratch tail -> link = pcrel_link tail ->
    appends (emit (MicroAssembler.auipc rd (ImmHi offset)) >> emit (MicroAssembler.jalr_fixed link rd (ImmLo offset)))
      m' (pair_bytes link rd offset)) as Hpair.
  { intros rd link m' HI' -> ->. apply appends_seq; apply appends_emit, emitted_32; try done.
    - unfold MicroAssembler.auipc. rewrite ASSERT_true by done. by apply EmitUType_word.
    - unfold MicroAssembler.jalr_fixed. rewrite ASSERT_true by done. apply EmitIType_word; try done.
      apply ImmLo_fits. }
  destruct tail; by apply Hpair.
Qed.

(** A distance that the pair reaches. *)
Definition reachable (d : Z) : Prop := inS 32 d /\ (XLEN = 32 \/ far_fits d = true).

Lemma reachable_sum d pc : reachable d -> ux (pc + (ImmHi d + ImmLo d)) = ux (pc + d).
Proof.
  intros [Hd [HX|Hf]].
  - unfold ux. rewrite HX, ImmHi_wrap, ImmLo_wrap. rewrite <- wrapU_idem_add_r, <- (wrapU_idem_add_l 32 (wrapS 32 _)).
    rewrite wrapU_wrapS, wrapU_idem_add_l, wrapU_idem_add_r by lia. f_equal. lia.
  - f_equal. rewrite <- (ImmSplit d Hf) at 3. lia.
Qed.

(** C16. A call (or tail call) relative to the program counter that is still to
    be relocated is recognised as valid; [set_distance] with a distance in reach
    succeeds, changes only the eight bytes of the call and keeps it valid;
    [distance] reads the distance back, except that on RV32 it adds two intx_t
    that overflow (undefined behaviour) for the last 2 KB of the range; and the
    simulator executes the patched code as a jump by that distance, which links
    the address after the call unless it is a tail call and changes no other
    register than the scratch register. *)
Theorem PcRelativeCall_relocates tail offset d (m : MacroAsm) :
  Supports (asm_ m) RV_I = true -> reachable d ->
  exists bytes, pcrel tail offset m = Ok (append m bytes) /\
    Z.of_nat (length bytes) = PcRelative_kLengthInBytes /\
  forall mem pc, code_at mem pc bytes -> 0 <= pc -> pc + 8 <= 2 ^ XLEN - 2 ->
    IsValid_linking (pcrel_link tail) mem pc = Ok true /\
    exists mem', set_distance d mem pc = Ok mem' /\
      distance mem' pc = (if far_fits d then Ok d else Err UndefinedBehavior) /\
      IsValid_linking (pcrel_link tail) mem' pc = Ok true /\
      (forall x, x < pc \/ pc + 8 <= x -> mem' !! x = mem !! x) /\
      forall s, sim_ok s -> mem_ s = mem' -> pc_ s = pc -> pc mod 2 = 0 ->
        exists t, steps s 2 t /\ pc_ t = ux (pc + d) /\ mem_ t = mem_ s /\
          (tail = false -> get_xreg t Reg.RA = pc + 8) /\
          (forall r, inU 5 r -> r <> pcrel_scratch tail -> r <> pcrel_link tail ->
             get_xreg t r = get_xreg s r).
Proof.
  intros HI Hr. destruct (pcrel_registers tail) as (Hl & Hd & Hz).
  exists (pair_bytes (pcrel_link tail) (pcrel_scratch tail) offset). split; [by apply pcrel_appends|].
  split; [done|]. intros mem pc Hc Hp He. split; [apply (pair_valid _ (pcrel_scratch tail) offset); try done; lia|].
  destruct (set_distance_pair (pcrel_link tail) (pcrel_scratch tail) offset d mem pc) as (mem' & E & Hc' & Hf);
    try done; [lia|]. exists mem'. split; [done|].
  split.
  { rewrite (pair_distance (pcrel_link tail) (pcrel_scratch tail) d) by (done || lia || apply Hr).
    destruct Hr as [_ [HX|Hr]]; [|by rewrite Hr, decide_False by by intros [_ ?]].
    destruct (far_fits d); [by rewrite decide_False by by intros [_ ?]|by rewrite decide_True]. }
  split; [apply (pair_valid _ (pcrel_scratch tail) d); try done; lia|].
  split; [done|]. intros s Hok <- <- Hev.
  destruct (pair_steps (pcrel_link tail) (pcrel_scratch tail) d s) as (t & Hs & Ht & Hm & Hlink & Ho); try done.
  exists t. split_and!; try done.
  - by rewrite Ht, reachable_sum.
  - intros ->. by apply Hlink.
Qed.

(** C17. On RV64, a distance among the last 2 KB below [kUpperCallingRange] is
    accepted by [set_distance] and read back by [distance], but the code jumps
    to an address 4 GB below the one the distance means. *)
Theorem PcRelativeCall_overshoots tail d mem pc s offset :
  XLEN = 64 -> 2 ^ 31 - 2 ^ 11 <= d <= kUpperCallingRange ->
  code_at mem pc (pair_bytes (pcrel_link tail) (pcrel_scratch tail) offset) -> 0 <= pc -> pc + 8 <= 2 ^ XLEN - 2 ->
  exists mem', set_distance d mem pc = Ok mem' /\ distance mem' pc = Ok d /\
    (sim_ok s -> mem_ s = mem' -> pc_ s = pc -> pc mod 2 = 0 ->
     exists t, steps s 2 t /\ pc_ t = ux (pc + d - 2 ^ 32)).
Proof.
  intros HX Hd Hc Hp He. destruct (pcrel_registers tail) as (Hl & Hr & Hz).
  change kUpperCallingRange with (2 ^ 31 - 2) in Hd.
  destruct (set_distance_pair (pcrel_link tail) (pcrel_scratch tail) offset d mem pc) as (mem' & E & Hc' & Hf);
    try done; [lia|]. exists mem'. split; [done|].
  split.
  { rewrite (pair_distance (pcrel_link tail) (pcrel_scratch tail) d) by (done || lia || (unfold inS; lia)).
    by rewrite decide_False by (rewrite HX; by intros [? _]). }
  intros Hok <- <- Hev.
  destruct (pair_steps (pcrel_link tail) (pcrel_scratch tail) d s) as (t & Hs & Ht & _); try done.
  exists t. split; [done|]. rewrite Ht. destruct (last_page d) as [-> ->]; [lia|]. f_equal. lia.
Qed.

End Relocation.
(** ** Execution of a load from the pool *)

Section PoolLoad.
Context `{Target} `{HostNaN} `{Host} {T : Type} `{ops : !IndexTableOps T}.

#[local] Abbreviation MacroAsm := (MacroAsm T).

Lemma lx_effect rd base off (m : MacroAsm) :
  Supports (asm_ m) RV_I = true -> inU 5 rd -> inU 5 base -> IsITypeImm off = true ->
  memits (emit (MicroAssembler.lx rd (mkAddress base off))) m [ELoad wload rd (mkAddress base off)].
Proof.
  intros HI Hd Hb Ho.
  assert (memits (emit (lop_asm wload rd (mkAddress base off))) m [ELoad wload rd (mkAddress base off)]) as Hm.
  { apply m_load; try done. unfold wload. destruct (Z.eqb_spec XLEN 32); cbn; [done|]. destruct XLEN_cases; lia. }
  revert Hm. unfold wload, MicroAssembler.lx. by destruct (XLEN =? 32).
Qed.

Definition load_effects (dst index : Z) : list effect :=
  let lo := ImmLo (element_offset index) in
  let hi := ImmHi (element_offset index) in
  if hi =? 0 then [ELoad wload dst (mkAddress PP lo)]
  else [EWrite dst (fun _ => hi); EWrite dst (fun R => rop_sem ADD (R dst) (R PP));
        ELoad wload dst (mkAddress dst lo)].

Lemma LoadWordFromPoolIndex_effects dst index (m : MacroAsm) :
  Supports (asm_ m) RV_I = true -> Supports (asm_ m) RV_C = true -> constant_pool_allowed_ m = true ->
  inU 5 dst -> dst <> Reg.ZR -> dst <> PP -> pool_reach index ->
  memits (LoadWordFromPoolIndex dst index PP) m (load_effects dst index).
Proof.
  intros HI HC Hpool Hd Hz Hpp [Hi0 Hi]. pose proof (element_offset_pos index Hi0) as Hpos.
  unfold memits, LoadWordFromPoolIndex, differ. rewrite Hpool, orb_true_r, ASSERT_true by done. cbn [rbind].
  rewrite ASSERT_true by (by apply negb_true_iff, Z.eqb_neq). cbn [rbind].
  rewrite (wrapU_small 32) by (unfold inU; lia). unfold load_effects.
  pose proof (ImmLo_fits (element_offset index)) as Hlo. destruct (ImmHi_fits (element_offset index)) as [Hhu Hhw].
  destruct (Z.eqb_spec (ImmHi (element_offset index)) 0) as [_|Hhi].
  - by apply (lx_effect dst PP _ m).
  - apply (memits_then _ _ m [_] [_; _]); [by apply m_lui|intros b].
    apply (memits_then _ _ _ [_] [_]); [|intros b'; by apply lx_effect].
    by apply (m_rop (at_buffer m b) ADD).
Qed.

(** The effects load the word at the entry's offset from PP. *)
Lemma load_effects_run dst index s v :
  sim_ok s -> inU 5 dst -> dst <> Reg.ZR -> dst <> Reg.SP -> dst <> Reg.FP -> dst <> PP -> pool_reach index ->
  MemoryRead (lop_type wload) (ux (get_xreg s PP + element_offset index)) PP s = Ok v ->
  run_effects (load_effects dst index) s = Ok (set_xreg s dst v).
Proof.
  intros Hok Hd Hz Hsp Hfp Hpp [Hi0 Hi] Hv. pose proof (element_offset_pos index Hi0) as Hpos.
  assert (ImmHi (element_offset index) + ImmLo (element_offset index) = element_offset index) as Es.
  { apply ImmSplit. unfold far_fits. lia. }
  unfold load_effects. destruct (Z.eqb_spec (ImmHi (element_offset index)) 0) as [E0|_].
  - cbn [run_effects effect_sem]. unfold effective. cbn [base offset].
    replace (ImmLo (element_offset index)) with (element_offset index) by lia. by rewrite Hv.
  - cbn [run_effects effect_sem rbind]. unfold effective. cbn [base offset].
    set (s1 := set_xreg s dst _). set (s2 := set_xreg s1 dst _).
    assert (sim_ok s1) as Hok1 by (by apply ok_set_xreg).
    assert (get_xreg s2 dst = ux (ImmHi (element_offset index) + get_xreg s PP)) as Ed.
    { unfold s2. rewrite get_set_xreg_same by done. cbn [rop_sem].
      unfold s1. rewrite get_set_xreg_same, get_set_xreg_other by done. apply ux_add_l. }
    assert (MemoryRead (lop_type wload) (ux (get_xreg s2 dst + ImmLo (element_offset index))) dst s2 = Ok v) as ->.
    { rewrite <- Hv, Ed, ux_add_l. replace (_ + get_xreg s PP + _) with (get_xreg s PP + element_offset index) by lia.
      unfold MemoryRead, CheckAccess, s2, s1, set_xreg.
      rewrite (proj2 (Z.eqb_neq dst Reg.ZR) Hz), (proj2 (Z.eqb_neq dst Reg.SP) Hsp), (proj2 (Z.eqb_neq dst Reg.FP) Hfp).
      done. }
    cbn [rbind]. f_equal. unfold s2, s1, set_xreg. rewrite (proj2 (Z.eqb_neq dst Reg.ZR) Hz).
    unfold set_xregs. cbn. by rewrite !list_insert_insert_eq.
Qed.

Lemma load_effects_spare dst index s lo n : spares (load_effects dst index) s lo n.
Proof. unfold load_effects. by destruct (_ =? 0). Qed.

(** C14. The code that [LoadWordFromPoolIndex] emits, with or without the
    prefix for far entries and in every mixture of compressed instructions,
    leaves the word of the pool entry [index] in the register [dst] when the
    simulator runs it, and [DecodeLoadWordFromPool], reading backwards from its
    end, returns the start of the code, the register [dst] and that [index],
    provided that the halfword before the code cannot be taken for the first
    half of an instruction. *)
Theorem LoadWordFromPoolIndex_decodes dst index (m : MacroAsm) :
  Supports (asm_ m) RV_I = true -> Supports (asm_ m) RV_C = true -> constant_pool_allowed_ m = true ->
  inU 5 dst -> dst ∉ [Reg.ZR; Reg.SP; Reg.FP; PP] -> pool_reach index ->
  exists bytes n, LoadWordFromPoolIndex dst index PP m = Ok (append m bytes) /\
  (forall s v, runnable bytes s ->
     MemoryRead (lop_type wload) (ux (get_xreg s PP + element_offset index)) PP s = Ok v ->
     steps s n (moved (Z.of_nat (length bytes)) n (set_xreg s dst v))) /\
  forall mem start, 0 <= start -> start + Z.of_nat (length bytes) < 2 ^ XLEN ->
    code_at mem start bytes -> parcel_before mem start ->
    DecodeLoadWordFromPool mem (start + Z.of_nat (length bytes)) = Ok (mkPoolLoad start dst index).
Proof.
  rewrite !not_elem_of_cons. intros HI HC Hpool Hd (Hz & Hsp & Hfp & Hpp & _) Hi.
  destruct (LoadWordFromPoolIndex_code dst index m HI HC Hpool Hd Hz Hsp Hpp Hi) as (bytes & E & Hp).
  destruct (LoadWordFromPoolIndex_effects dst index m HI HC Hpool Hd Hz Hpp Hi) as (bytes' & E' & Hb).
  rewrite E in E'. injection E' as E'. apply app_inv_head in E' as <-.
  exists bytes, (length (load_effects dst index)). split_and!; [done| |intros; by apply DecodeLoadWordFromPool_code].
  intros s v Hs Hv. pose proof (block_runs bytes _ Hb s Hs (load_effects_spare _ _ _ _ _)) as Hx.
  unfold executes in Hx. by rewrite (load_effects_run dst index s v) in Hx by (try done; apply Hs).
Qed.

End PoolLoad.
