(* ===== verification/Hash.v ===== *)
(** * Hash: the hash functions of the runtime (runtime/vm/hash.h) *)

From stdpp Require Import base numbers list.
From S2P Require Import Prelude.

#[local] Open Scope Z_scope.

Module Hash.

Definition kBitsPerInt32 : Z := 32.

Definition CombineHashes (hash other_hash : Z) : Z :=
  let hash := u32 (hash + other_hash) in
  let hash := u32 (hash + u32 (Z.shiftl hash 10)) in
  Z.lxor hash (Z.shiftr hash 6).

Definition FinalizeHash (hash hashbits : Z) : Z :=
  let hash := u32 (hash + u32 (Z.shiftl hash 3)) in
  let hash := Z.lxor hash (Z.shiftr hash 11) in
  let hash := u32 (hash + u32 (Z.shiftl hash 15)) in
  let hash := if hashbits <? kBitsPerInt32 then Z.land hash (u32 (u32 (Z.shiftl 1 hashbits) - 1)) else hash in
  if hash =? 0 then 1 else hash.

Definition HashBytes (bytes : list Z) : Z :=
  foldl CombineHashes (u32 (Z.of_nat (length bytes))) bytes.

End Hash.
