(* ===== verification/MacroHash.v ===== *)
(** * MacroHash: the hash macros compute the runtime's hash functions

    Generated code and the C++ runtime hash the same objects, and hash.h asks
    to keep its functions in sync with the macros.  [low] relates a register to
    the 32-bit value it stands for; every instruction of the macros respects
    it. *)

From stdpp Require Import base numbers list gmap.
From Stdlib Require Import Lia.
From S2P Require Import Prelude Constants Encoding CEncoding AsmBuffer MicroAsm AsmBranch SimState.
From S2P Require Import SimInt SimAtomic SimFloat SimCompressed Simulator Isa IntSpec BitSpec.
From S2P Require Import AsmExec AsmFormats RefineOp RefineImm RefineMem Refinement.
From S2P Require Import SimInv AsmSites RefineBranch RefineLabel SimMemSpec AsmSeq ObjectPool Assembler.
From S2P Require Import Hash MacroSeq MacroImm MacroArith MacroCompare.

#[local] Open Scope Z_scope.
#[local] Open Scope res_scope.
#[local] Open Scope code_scope.

(** ** 32-bit values in registers *)

Lemma s32_lxor a b : Z.lxor (s32 a) (s32 b) = s32 (Z.lxor a b).
Proof.
  apply Z.bits_inj'. intros i Hi. rewrite Z.lxor_spec, !testbit_wrapS, Z.lxor_spec by lia. done.
Qed.

Section Words.
Context `{Target}.

Lemma u32_ux x : u32 (ux x) = u32 x.
Proof. unfold ux. apply wrapU_wrapU_le. destruct XLEN_cases; lia. Qed.

Lemma u32_s32 x : u32 (s32 x) = u32 x.
Proof. apply wrapU_wrapS. lia. Qed.

Lemma s32_u32 x : s32 (u32 x) = s32 x.
Proof. apply wrapS_wrapU. lia. Qed.

(** The low word of a register. *)
Definition low (x y : Z) : Prop := u32 x = u32 y.

Lemma low_word x y : low x y -> low (ux (s32 x)) y.
Proof. unfold low. intros E. by rewrite u32_ux, u32_s32. Qed.
Lemma low_u32 x y : low x y -> low x (u32 y).
Proof. unfold low. intros E. by rewrite wrapU_wrapU. Qed.
Lemma low_ux x y : low x y -> low (ux x) y.
Proof. unfold low. intros E. by rewrite u32_ux. Qed.
Lemma low_add a b x y : low a x -> low b y -> low (a + b) (x + y).
Proof.
  unfold low. intros Ea Eb. rewrite <- wrapU_idem_add_l, <- wrapU_idem_add_r, Ea, Eb.
  by rewrite wrapU_idem_add_r, wrapU_idem_add_l.
Qed.
Lemma low_shl a x k : 0 <= k -> low a x -> low (a * 2 ^ k) (Z.shiftl x k).
Proof.
  unfold low. intros Hk Ea. rewrite Z.shiftl_mul_pow2 by done.
  by rewrite <- wrapU_idem_mul_l, Ea, wrapU_idem_mul_l.
Qed.
Lemma low_lxor a b x y : low a x -> low b y -> low (Z.lxor a b) (Z.lxor x y).
Proof.
  unfold low. assert (forall n m, u32 (Z.lxor n m) = Z.lxor (u32 n) (u32 m)) as E by (intros; bitblast).
  rewrite !E. by intros -> ->.
Qed.
Lemma low_shr a x k : 0 <= k -> low a x -> inU 32 x -> low (u32 a / 2 ^ k) (Z.shiftr x k).
Proof.
  unfold low. intros Hk Ea Hx. rewrite Ea, (wrapU_small 32 x Hx). by rewrite Z.shiftr_div_pow2.
Qed.

Lemma word_low x y : low x y -> ux (s32 x) = ux (s32 y).
Proof. unfold low. intros E. by rewrite <- (s32_u32 x), E, s32_u32. Qed.

(** The exclusive or of two sign-extended words is one. *)
Lemma word_lxor a b : Z.lxor (ux (s32 a)) (ux (s32 b)) = ux (s32 (Z.lxor a b)).
Proof. by rewrite <- ux_lxor, s32_lxor. Qed.

(** On RV32 every register is a word. *)
Lemma word_32 x : XLEN = 32 -> ux x = ux (s32 x).
Proof. intros E. unfold ux. rewrite E. symmetry. apply u32_s32. Qed.

End Words.
Section MacroHash.
Context `{Target} `{HostNaN} `{Host} {T : Type} `{ops : !IndexTableOps T}.

#[local] Notation MacroAsm := (MacroAsm T).
#[local] Notation code := (code T).
Implicit Types m : MacroAsm.

(** ** The instructions on words *)

Section Word.
Context (m : MacroAsm) (HI : Supports (asm_ m) RV_I = true).

(** An instruction whose result is a word on both targets. *)
Definition writes_word (c : code) (rd : Z) (v : (Z -> Z) -> Z) : Prop :=
  exists v', writes c m [EWrite rd v'] /\ forall s, sim_ok s -> ux (v' (get_xreg s)) = ux (s32 (v (get_xreg s))).

Lemma word_add rd a b :
  inU 5 rd -> inU 5 a -> inU 5 b -> a <> Reg.ZR -> b <> Reg.ZR ->
  writes_word (if XLEN =? 64 then emit (MicroAssembler.addw rd a b) else emit (MicroAssembler.add rd a b)) rd
    (fun R => R a + R b).
Proof.
  intros. destruct (Z.eqb_spec XLEN 64); eexists.
  - split; [by apply (writes_wop m ADDW)|done].
  - split; [by apply (writes_rop m ADD)|]. intros s Hok. apply word_32. destruct XLEN_cases; lia.
Qed.

Lemma word_slli rd a k :
  inU 5 rd -> inU 5 a -> 0 < k < 32 ->
  writes_word (if XLEN =? 64 then emit (MicroAssembler.slliw rd a k) else emit (MicroAssembler.slli rd a k)) rd
    (fun R => R a * 2 ^ k).
Proof.
  intros. pose proof XLEN_pos. destruct (Z.eqb_spec XLEN 64); eexists.
  - split; [by apply (writes_swop m SLLIW)|done].
  - split; [apply (writes_sop m SLLI); (done || lia)|]. intros s Hok. apply word_32. destruct XLEN_cases; lia.
Qed.

Lemma word_srli rd a k :
  inU 5 rd -> inU 5 a -> 0 < k < 32 ->
  writes_word (if XLEN =? 64 then emit (MicroAssembler.srliw rd a k) else emit (MicroAssembler.srli rd a k)) rd
    (fun R => u32 (R a) / 2 ^ k).
Proof.
  intros. pose proof XLEN_pos. destruct (Z.eqb_spec XLEN 64); eexists.
  - split; [by apply (writes_swop m SRLIW)|done].
  - assert (XLEN = 32) as E by (destruct XLEN_cases; lia).
    split; [apply (writes_sop m SRLI); (done || lia)|]. intros s Hok. rewrite <- (word_32 _ E).
    cbn [sop_sem]. pose proof (get_xreg_ok s a Hok ltac:(done)) as Hr. rewrite E in Hr.
    by rewrite wrapU_small.
Qed.

End Word.

(** ** The macros *)

Definition mix (hash : Z) : Z :=
  let hash := u32 (hash + u32 (Z.shiftl hash 3)) in
  let hash := Z.lxor hash (Z.shiftr hash 11) in
  u32 (hash + u32 (Z.shiftl hash 15)).

Definition cut (bit_size x : Z) : Z := if bit_size <? 32 then Z.land x (2 ^ bit_size - 1) else x.

Definition nonzero (x : Z) : Z := if x =? 0 then 1 else x.

Lemma cut_land bit_size x : 0 < bit_size < 32 -> cut bit_size x = x mod 2 ^ bit_size.
Proof.
  intros Hb. unfold cut. rewrite (proj2 (Z.ltb_lt _ _)) by lia.
  by rewrite Z.sub_1_r, <- Z.ones_equiv, Z.land_ones by lia.
Qed.

Lemma cut_range bit_size x : 0 < bit_size <= 32 -> inU XLEN x -> inU XLEN (cut bit_size x).
Proof.
  intros Hb Hx. destruct (Z.eq_dec bit_size 32) as [->|Hne]; [done|].
  rewrite cut_land by lia. pose proof XLEN_cases.
  apply (inU_mono bit_size); [|lia]. apply Z.mod_pos_bound, pow2_pos. lia.
Qed.

Lemma FinalizeHash_parts x bit_size :
  0 < bit_size <= 32 -> Hash.FinalizeHash x bit_size = nonzero (cut bit_size (mix x)).
Proof.
  intros Hb. unfold Hash.FinalizeHash, nonzero, mix, Hash.kBitsPerInt32, cut. cbv zeta.
  destruct (Z.ltb_spec bit_size 32) as [Hlt|]; [|done].
  assert (0 < 2 ^ bit_size <= 2 ^ 31) by (split; [apply pow2_pos|apply Z.pow_le_mono_r]; lia).
  rewrite Z.shiftl_1_l, !(wrapU_small 32 (2 ^ bit_size)) by (unfold inU; lia).
  by rewrite (wrapU_small 32 (2 ^ bit_size - 1)) by (unfold inU; lia).
Qed.

(** The operations on the register agree with those on the word. *)
Lemma finish_value x bit_size :
  0 < bit_size <= 32 ->
  ux (nonzero (cut bit_size (ux (s32 (mix x))))) = ux (s32 (Hash.FinalizeHash x bit_size)).
Proof.
  intros Hb. rewrite FinalizeHash_parts by done. assert (inU 32 (mix x)) as Hx by (apply wrapU_range; lia).
  set (M := mix x) in *. clearbody M. destruct (Z.eq_dec bit_size 32) as [->|Hne]; cbn [cut].
  - unfold cut. cbn. unfold nonzero.
    assert (ux (s32 M) =? 0 = (M =? 0)) as ->.
    { rewrite <- (wrapU_small 32 M) at 2 by done. rewrite <- u32_s32, <- (u32_ux (s32 M)).
      destruct (Z.eqb_spec (ux (s32 M)) 0) as [->|Hn]; [done|]. symmetry. apply Z.eqb_neq. intros E. apply Hn.
      rewrite u32_ux, u32_s32, (wrapU_small 32 M Hx) in E. rewrite E.
      apply ux_small. unfold inU. pose proof (pow2_pos XLEN). destruct XLEN_cases; lia. }
    destruct (M =? 0); [done|apply ux_ux].
  - rewrite !cut_land by lia.
    assert (ux (s32 M) mod 2 ^ bit_size = M mod 2 ^ bit_size) as ->.
    { change (wrapU bit_size (ux (s32 M)) = wrapU bit_size M).
      rewrite <- (wrapU_wrapU_le 32 bit_size), u32_ux, u32_s32 by lia. apply wrapU_wrapU_le. lia. }
    assert (0 < 2 ^ bit_size <= 2 ^ 31) by (split; [apply pow2_pos|apply Z.pow_le_mono_r]; lia).
    pose proof (Z.mod_pos_bound M (2 ^ bit_size)).
    rewrite (wrapS_small 32); [done|lia|]. unfold inS, nonzero. destruct (_ =? _); lia.
Qed.

(** Registers after word instructions. *)
#[local] Ltac words_after := cbn [after foldl app dest map]; repeat first
  [ regs_after_step
  | match goal with E : forall s, sim_ok s -> ux _ = _ |- _ =>
      rewrite E by (repeat apply ok_set_xreg; done) end ].
#[local] Hint Resolve low_word low_u32 low_ux low_add low_shl low_lxor low_shr : low.
#[local] Hint Extern 1 (low _ _) => reflexivity : low.
#[local] Hint Extern 1 (inU 32 _) => apply wrapU_range : low.
#[local] Hint Extern 1 (_ <= _) => lia : low.

Section Macros.
Context (m : MacroAsm) (HI : Supports (asm_ m) RV_I = true) (Hpool : constant_pool_allowed_ m = false).
Context (hash other : Z) (Hh : inU 5 hash) (Ho : inU 5 other) (Hz : hash <> Reg.ZR) (Hoz : other <> Reg.ZR).
Context (Hne : hash <> other).

Lemma CombineHashes_yields :
  yields (CombineHashes hash other) m hash
    (fun R => s32 (Hash.CombineHashes (u32 (R hash)) (u32 (R other)))) [other] 5.
Proof.
  assert (CombineHashes (T := T) hash other =
    (if XLEN =? 64 then emit (MicroAssembler.addw hash hash other) else emit (MicroAssembler.add hash hash other)) >>
    (if XLEN =? 64 then emit (MicroAssembler.slliw other hash 10) else emit (MicroAssembler.slli other hash 10)) >>
    (if XLEN =? 64 then emit (MicroAssembler.addw hash hash other) else emit (MicroAssembler.add hash hash other)) >>
    (if XLEN =? 64 then emit (MicroAssembler.srliw other hash 6) else emit (MicroAssembler.srli other hash 6)) >>
    emit (MicroAssembler.xor_ hash hash other)) as ->
    by (unfold CombineHashes; by destruct (XLEN =? 64)).
  destruct (word_add m HI hash hash other) as (v1 & W1 & E1); try done.
  destruct (word_slli m HI other hash 10) as (v2 & W2 & E2); try done.
  destruct (word_srli m HI other hash 6) as (v3 & W3 & E3); try done.
  eexists. split; [|split_and!].
  - apply writes_then; [exact W1|]. apply writes_then; [exact W2|]. apply writes_then; [exact W1|].
    apply writes_then; [exact W3|]. by apply (writes_rop m XOR).
  - cbn; lia.
  - cbn. set_solver.
  - intros s Hok. words_after. cbn [rop_sem]. words_after.
    rewrite word_lxor, ux_ux. apply word_low. unfold Hash.CombineHashes. auto 20 with low.
Qed.

(** The mixing of the bits, before the result is cut to its size. *)
Lemma mix_yields :
  yields (if XLEN =? 64 then
     emit (MicroAssembler.slliw other hash 3) >> emit (MicroAssembler.addw hash hash other) >>
     emit (MicroAssembler.srliw other hash 11) >> emit (MicroAssembler.xor_ hash hash other) >>
     emit (MicroAssembler.slliw other hash 15) >> emit (MicroAssembler.addw hash hash other)
   else
     emit (MicroAssembler.slli other hash 3) >> emit (MicroAssembler.add hash hash other) >>
     emit (MicroAssembler.srli other hash 11) >> emit (MicroAssembler.xor_ hash hash other) >>
     emit (MicroAssembler.slli other hash 15) >> emit (MicroAssembler.add hash hash other)) m hash
    (fun R => s32 (mix (u32 (R hash)))) [other] 6.
Proof.
  destruct (word_add m HI hash hash other) as (v1 & W1 & E1); try done.
  destruct (word_slli m HI other hash 3) as (v2 & W2 & E2); try done.
  destruct (word_srli m HI other hash 11) as (v3 & W3 & E3); try done.
  destruct (word_slli m HI other hash 15) as (v4 & W4 & E4); try done.
  eexists. split; [|split_and!].
  - pose proof (fun l1 l2 l3 l4 l5 l6 c1 c2 c3 c4 c5 c6 W1 W2 W3 W4 W5 W6 =>
      writes_then c1 _ m l1 _ W1 (writes_then c2 _ m l2 _ W2 (writes_then c3 _ m l3 _ W3 (writes_then c4 _ m l4 _ W4
        (writes_then c5 c6 m l5 l6 W5 W6))))) as Hsix.
    pose proof (Hsix _ _ _ _ _ _ _ _ _ _ _ _ W2 W1 W3 (writes_rop m XOR hash hash other Hh Hh Ho HI ltac:(done)) W4 W1) as Hw.
    destruct (XLEN =? 64); exact Hw.
  - cbn; lia.
  - cbn. set_solver.
  - intros s Hok. words_after. cbn [rop_sem]. words_after. rewrite word_lxor, ux_ux. apply word_low.
    unfold mix. auto 20 with low.
Qed.

(** Cutting a hash to its size. *)
Lemma cut_yields bit_size :
  XLEN <= kBitsPerWord -> hash <> TMP2 -> 0 < bit_size <= 32 ->
  yields (if bit_size <? kBitsPerInt32 then AndImmediate hash hash (sx (NBitMask bit_size)) else skip) m hash
    (fun R => cut bit_size (R hash)) [other; TMP2] 9.
Proof.
  intros Hword H2' Hb. unfold cut. change kBitsPerInt32 with 32. destruct (Z.ltb_spec bit_size 32) as [Hlt|Hge].
  - apply (yields_scratch _ _ _ _ [TMP2]); [set_solver|]. pose proof XLEN_cases.
    assert (0 < 2 ^ bit_size <= 2 ^ 31) as Hp by (split; [apply pow2_pos|apply Z.pow_le_mono_r]; lia).
    assert (inS XLEN (2 ^ bit_size - 1)) as Hi.
    { apply (inS_mono 32); [unfold inS|]; lia. }
    assert (NBitMask bit_size = 2 ^ bit_size - 1) as ->.
    { unfold NBitMask. rewrite (proj2 (Z.eqb_neq _ _)) by lia. by rewrite Z.shiftl_1_l. }
    rewrite sx_small by done. apply AndImmediate_yields; (done || lia).
  - by apply yields_skip.
Qed.

(** A hash is never zero. *)
Lemma nonzero_yields :
  yields (emit (MicroAssembler.seqz other hash) >> emit (MicroAssembler.add hash hash other)) m hash
    (fun R => nonzero (R hash)) [other; TMP2] 2.
Proof.
  eapply yields_two; [by apply (writes_iop m HI SLTIU other hash 1); [| |apply IsITypeImm_small]
    |by apply (writes_rop m ADD)|set_solver|].
  intros s Hok. regs_after. cbn [rop_sem iop_sem]. pose proof (get_xreg_ok s hash Hok Hh) as Hr.
  rewrite ux_1, ux_b2z, ltb_1 by apply Hr. unfold nonzero. destruct (Z.eqb_spec (get_xreg s hash) 0) as [->|]; [done|].
  f_equal. cbn. lia.
Qed.

(** The two together. *)
Lemma finish_yields bit_size :
  XLEN <= kBitsPerWord -> hash <> TMP2 -> 0 < bit_size <= 32 ->
  yields ((if bit_size <? kBitsPerInt32 then AndImmediate hash hash (sx (NBitMask bit_size)) else skip) >>
          emit (MicroAssembler.seqz other hash) >> emit (MicroAssembler.add hash hash other)) m hash
    (fun R => nonzero (cut bit_size (R hash))) [other; TMP2] 11.
Proof.
  intros Hword H2' Hb.
  eapply (yields_then _ _ m hash hash _ _ _ [other; TMP2] _ 9 2);
    [by apply cut_yields|apply nonzero_yields|set_solver|].
  intros s t Hs Ht Et _. cbv beta. rewrite Et. f_equal. f_equal. apply ux_small, cut_range; [lia|].
  by apply get_xreg_ok.
Qed.

Lemma FinalizeHashForSize_yields bit_size :
  XLEN <= kBitsPerWord -> hash <> TMP2 -> 0 < bit_size <= 32 ->
  yields (FinalizeHashForSize bit_size hash other) m hash
    (fun R => s32 (Hash.FinalizeHash (u32 (R hash)) bit_size)) [other; TMP2] 17.
Proof.
  intros Hword H2' Hb. unfold FinalizeHashForSize.
  apply yields_check; [apply Z.ltb_lt; lia|].
  apply yields_check; [apply (proj2 (Z.leb_le _ 32)); lia|].
  apply yields_check. { unfold differ. apply negb_true_iff, Z.eqb_neq. intros ->. by destruct Ho. }
  eapply (yields_then _ _ m hash hash _ _ _ [other] _ 6 11); [apply mix_yields|by apply finish_yields|set_solver|].
  intros s t Hs Ht Et _. cbv beta. rewrite Et. by apply finish_value.
Qed.

End Macros.

(** C31. The hash macros agree with the runtime's hash functions, as the comments
    on both sides demand: on either target the code of [CombineHashes] leaves
    the word [CombineHashes] of hash.h computes from the low words of the two
    registers, sign-extended as the calling convention keeps words, and the
    code of [FinalizeHashForSize] the word of [FinalizeHash] for that number of
    bits, whatever the upper halves of the registers hold; nothing changes but
    the hash, the other register and, for the latter, [TMP2]. *)
Theorem hash_macros_spec m hash other bit_size :
  XLEN <= kBitsPerWord -> Supports (asm_ m) RV_I = true -> constant_pool_allowed_ m = false ->
  inU 5 hash -> inU 5 other -> hash <> Reg.ZR -> other <> Reg.ZR -> hash <> other -> hash <> TMP2 ->
  0 < bit_size <= 32 ->
  computes (CombineHashes hash other) m hash
    (fun R => s32 (Hash.CombineHashes (u32 (R hash)) (u32 (R other)))) [other] 5 /\
  computes (FinalizeHashForSize bit_size hash other) m hash
    (fun R => s32 (Hash.FinalizeHash (u32 (R hash)) bit_size)) [other; TMP2] 17.
Proof.
  intros. split; apply yields_computes; [by apply CombineHashes_yields|by apply FinalizeHashForSize_yields].
Qed.

End MacroHash.
