(* ===== verification/Location.v ===== *)
(** * Location: where the register allocator puts values

    Models vm/bitfield.h (BitField without sign extension) and class Location of
    vm/compiler/backend/locations.h.  A location is the word [value_]: a kind
    and a payload, or a tagged pointer for constants and pairs.  The pointers
    themselves are whatever words the host hands out. *)

From stdpp Require Import base numbers list.
From Stdlib Require Import Lia.
From S2P Require Import Prelude Constants.

#[local] Open Scope Z_scope.
#[local] Open Scope res_scope.

(** ** Bit fields of a word *)

Module BitField.

Section BitField.
Context `{Target}.

(** [BitField<uword, T, position, size>]. *)
Record t : Type := mk { position : Z; size : Z }.

Definition mask (f : t) : Z := wrapU kBitsPerWord (Z.shiftl 1 (size f)) - 1.
Definition mask_in_place (f : t) : Z := wrapU kBitsPerWord (Z.shiftl (mask f) (position f)).

Definition encode_unchecked (f : t) (value : Z) : Z :=
  wrapU kBitsPerWord (Z.shiftl (Z.land (wrapU kBitsPerWord value) (mask f)) (position f)).

Definition decode (f : t) (value : Z) : Z := Z.land (Z.shiftr value (position f)) (mask f).

Definition is_valid (f : t) (value : Z) : bool := decode f (encode_unchecked f value) =? value.

Definition encode (f : t) (value : Z) : Res Z :=
  ASSERT (is_valid f value) ;; Ok (encode_unchecked f value).

Definition update (f : t) (value original : Z) : Res Z :=
  let* e := encode f value in
  Ok (Z.lor e (Z.land (wrapU kBitsPerWord (Z.lnot (mask_in_place f))) original)).

End BitField.

End BitField.

(** ** Locations *)

Module Location.

Section Location.
Context `{Target}.

Definition kInvalidLocation : Z := 0.
Definition kLocationTagMask : Z := 3.

Definition kInvalid : Z := 0.
Definition kConstantTag : Z := 1.
Definition kPairLocationTag : Z := 2.
Definition kUnallocated : Z := Z.shiftl 1 2.
Definition kStackSlot : Z := Z.shiftl 2 2.
Definition kDoubleStackSlot : Z := Z.shiftl 3 2.
Definition kQuadStackSlot : Z := Z.shiftl 4 2.
Definition kRegister : Z := Z.shiftl 5 2.
Definition kFpuRegister : Z := Z.shiftl 6 2.

Definition kKindBitsPos : Z := 0.
Definition kKindBitsSize : Z := 5.
Definition kPayloadBitsPos : Z := kKindBitsPos + kKindBitsSize.
Definition kPayloadBitsSize : Z := kBitsPerWord - kPayloadBitsPos.
Definition kBitsForBaseReg : Z := if kBitsPerWord =? 64 then 6 else 5.
Definition kBitsForStackIndex : Z := kPayloadBitsSize - kBitsForBaseReg.
Definition kStackIndexBias : Z := Z.shiftl 1 (kBitsForStackIndex - 1).

Definition KindField : BitField.t := BitField.mk kKindBitsPos kKindBitsSize.
Definition PayloadField : BitField.t := BitField.mk kPayloadBitsPos kPayloadBitsSize.
Definition PolicyField : BitField.t := BitField.mk 0 3.
Definition StackSlotBaseField : BitField.t := BitField.mk 0 kBitsForBaseReg.
Definition StackIndexField : BitField.t := BitField.mk kBitsForBaseReg kBitsForStackIndex.

Inductive Policy : Set :=
| kAny | kPrefersRegister | kRequiresRegister | kRequiresFpuRegister | kWritableRegister
| kSameAsFirstInput | kRequiresStack.

Definition Policy_value (p : Policy) : Z :=
  match p with
  | kAny => 0 | kPrefersRegister => 1 | kRequiresRegister => 2 | kRequiresFpuRegister => 3
  | kWritableRegister => 4 | kSameAsFirstInput => 5 | kRequiresStack => 6
  end.

Definition NoLocation : Z := kInvalidLocation.
Definition IsInvalid (value_ : Z) : bool := value_ =? kInvalidLocation.
Definition IsConstant (value_ : Z) : bool := Z.land value_ kConstantTag =? kConstantTag.
Definition IsPairLocation (value_ : Z) : bool := Z.land value_ kLocationTagMask =? kPairLocationTag.
Definition Equals (value_ other : Z) : bool := value_ =? other.

Definition pair_index (value_ : Z) : Res Z :=
  ASSERT (IsConstant value_) ;; Ok (if Z.land value_ kPairLocationTag =? 0 then 0 else 1).
Definition constant_instruction (value_ : Z) : Res Z :=
  ASSERT (IsConstant value_) ;; Ok (Z.land value_ (wrapU kBitsPerWord (Z.lnot kLocationTagMask))).

(** A constant is an aligned pointer to its instruction, with a tag. *)
Definition Constant (obj index : Z) : Res Z :=
  ASSERT ((index =? 0) || (index =? 1)) ;;
  let loc := Z.lor (Z.lor obj (if index =? 0 then 0 else kPairLocationTag)) kConstantTag in
  let* o := constant_instruction loc in
  ASSERT (obj =? o) ;;
  let* i := pair_index loc in
  ASSERT (i =? index) ;;
  Ok loc.

Definition kind (value_ : Z) : Z := BitField.decode KindField value_.
Definition payload (value_ : Z) : Z := BitField.decode PayloadField value_.

Definition mkLocation (k p : Z) : Res Z :=
  let* k := BitField.encode KindField k in
  let* p := BitField.encode PayloadField p in
  Ok (Z.lor k p).

Definition IsUnallocated (value_ : Z) : bool := kind value_ =? kUnallocated.
Definition UnallocatedLocation (p : Policy) : Res Z :=
  let* p := BitField.encode PolicyField (Policy_value p) in mkLocation kUnallocated p.
Definition policy (value_ : Z) : Res Z :=
  ASSERT (IsUnallocated value_) ;; Ok (BitField.decode PolicyField (payload value_)).

Definition RegisterLocation (reg : Z) : Res Z := mkLocation kRegister reg.
Definition IsRegister (value_ : Z) : bool := kind value_ =? kRegister.
Definition reg (value_ : Z) : Res Z := ASSERT (IsRegister value_) ;; Ok (payload value_).

Definition FpuRegisterLocation (reg : Z) : Res Z := mkLocation kFpuRegister reg.
Definition IsFpuRegister (value_ : Z) : bool := kind value_ =? kFpuRegister.
Definition fpu_reg (value_ : Z) : Res Z := ASSERT (IsFpuRegister value_) ;; Ok (payload value_).

Definition IsMachineRegisterKind (kind : Z) : bool := (kind =? kRegister) || (kind =? kFpuRegister).
Definition MachineRegisterLocation (kind reg : Z) : Res Z :=
  if kind =? kRegister then RegisterLocation reg
  else ASSERT (kind =? kFpuRegister) ;; FpuRegisterLocation reg.
Definition IsMachineRegister (value_ : Z) : bool := IsMachineRegisterKind (kind value_).
Definition register_code (value_ : Z) : Res Z := ASSERT (IsMachineRegister value_) ;; Ok (payload value_).

Definition IsStackSlot (value_ : Z) : bool := kind value_ =? kStackSlot.
Definition IsDoubleStackSlot (value_ : Z) : bool := kind value_ =? kDoubleStackSlot.
Definition IsQuadStackSlot (value_ : Z) : bool := kind value_ =? kQuadStackSlot.
Definition HasStackIndex (value_ : Z) : bool :=
  IsStackSlot value_ || IsDoubleStackSlot value_ || IsQuadStackSlot value_.

Definition EncodeStackIndex (stack_index : Z) : Res Z :=
  ASSERT ((- kStackIndexBias <=? stack_index) && (stack_index <? kStackIndexBias)) ;;
  Ok (wrapU kBitsPerWord (kStackIndexBias + stack_index)).

Definition base_reg (value_ : Z) : Res Z :=
  ASSERT (HasStackIndex value_) ;; Ok (BitField.decode StackSlotBaseField (payload value_)).
Definition stack_index (value_ : Z) : Res Z :=
  ASSERT (HasStackIndex value_) ;;
  Ok (BitField.decode StackIndexField (payload value_) - kStackIndexBias).

(** The payload of a stack slot, and the slots of the three sizes. *)
Definition stack_payload (stack_index base : Z) : Res Z :=
  let* b := BitField.encode StackSlotBaseField base in
  let* e := EncodeStackIndex stack_index in
  let* i := BitField.encode StackIndexField e in
  Ok (Z.lor b i).

Definition stack_location (k index base : Z) : Res Z :=
  let* payload := stack_payload index base in
  let* loc := mkLocation k payload in
  let* i := stack_index loc in
  ASSERT (i =? index) ;; Ok loc.

Definition StackSlot (stack_index base : Z) : Res Z := stack_location kStackSlot stack_index base.
Definition DoubleStackSlot (stack_index base : Z) : Res Z := stack_location kDoubleStackSlot stack_index base.
Definition QuadStackSlot (stack_index base : Z) : Res Z := stack_location kQuadStackSlot stack_index base.

Definition set_stack_index (value_ index : Z) : Res Z :=
  ASSERT (HasStackIndex value_) ;;
  let* e := EncodeStackIndex index in
  let* p := BitField.update StackIndexField e (payload value_) in
  BitField.update PayloadField p value_.
Definition set_base_reg (value_ reg : Z) : Res Z :=
  ASSERT (HasStackIndex value_) ;;
  let* p := BitField.update StackSlotBaseField reg (payload value_) in
  BitField.update PayloadField p value_.

(** [kWordSize] of the target. *)
Definition ToStackSlotOffset (value_ : Z) : Res Z :=
  let* i := stack_index value_ in Ok (i * (XLEN / 8)).

End Location.

End Location.
