(* ===== verification/LocationSpec.v ===== *)
(** * LocationSpec: a location's parts can be read back *)

From stdpp Require Import base numbers list.
From Stdlib Require Import Lia.
From S2P Require Import Prelude Constants Location.

#[local] Open Scope Z_scope.
#[local] Open Scope res_scope.

Section LocationSpec.
Context `{Target}.

Lemma inU_le m n x : inU m x -> 0 <= m <= n -> inU n x.
Proof. unfold inU. intros [? ?] ?. split; [done|]. eapply Z.lt_le_trans; [done|]. apply Z.pow_le_mono_r; lia. Qed.

(** A word whose upper bits are zero. *)
Lemma high_zero n x : inU (n + 5) x -> field x n 5 = 0 -> 0 <= n -> inU n x.
Proof.
  intros Hx Hf Hn. assert (x = wrapU n x) as ->; [|by apply wrapU_range]. apply Z.bits_inj'. intros i Hi.
  rewrite testbit_wrapU by done. destruct (Z.ltb_spec i n); [done|]. cbn.
  destruct (Z.lt_ge_cases i (n + 5)); [|by apply (testbit_small (n + 5)); [|lia]].
  transitivity (Z.testbit (field x n 5) (i - n)); [|by rewrite Hf, Z.bits_0].
  unfold field. autorewrite with testbits. repeat split_index. cbn. rewrite andb_true_r. f_equal. lia.
Qed.

Definition fits (f : BitField.t) : Prop :=
  0 <= BitField.position f /\ 0 < BitField.size f < kBitsPerWord /\
  BitField.position f + BitField.size f <= kBitsPerWord.

Lemma mask_ones f : fits f -> BitField.mask f = Z.ones (BitField.size f).
Proof.
  intros (Hp & Hs & _). unfold BitField.mask. rewrite Z.shiftl_1_l, wrapU_small.
  - by rewrite Z.ones_equiv, Z.sub_1_r.
  - unfold inU. split; [apply Z.pow_nonneg; lia|]. apply Z.pow_lt_mono_r; lia.
Qed.

Lemma decode_field f v :
  fits f -> BitField.decode f v = field v (BitField.position f) (BitField.size f).
Proof. intros Hf. unfold BitField.decode. by rewrite mask_ones. Qed.

Lemma encode_unchecked_small f v :
  fits f -> inU (BitField.size f) v -> BitField.encode_unchecked f v = Z.shiftl v (BitField.position f).
Proof.
  intros Hf Hv. pose proof Hf as (Hp & Hs & Hps). unfold BitField.encode_unchecked. rewrite mask_ones by done.
  bitblast.
Qed.

Lemma encode_ok f v :
  fits f -> inU (BitField.size f) v -> BitField.encode f v = Ok (Z.shiftl v (BitField.position f)).
Proof.
  intros Hf Hv. unfold BitField.encode. rewrite ASSERT_true; cbn [rbind].
  - by rewrite encode_unchecked_small.
  - unfold BitField.is_valid. rewrite encode_unchecked_small, decode_field by done.
    destruct Hf as (? & ? & ?). rewrite field_shiftl_eq by (done || lia). apply Z.eqb_refl.
Qed.

(** An update changes this field and leaves the bits outside. *)
Lemma update_ok f v w :
  fits f -> inU (BitField.size f) v -> inU kBitsPerWord w ->
  exists w', BitField.update f v w = Ok w' /\ inU kBitsPerWord w' /\ BitField.decode f w' = v /\
    (forall lo n, 0 <= lo -> 0 <= n -> lo + n <= BitField.position f \/
       BitField.position f + BitField.size f <= lo -> field w' lo n = field w lo n).
Proof.
  intros Hf Hv Hw. unfold BitField.update. rewrite encode_ok by done. cbn [rbind]. eexists. split; [done|].
  pose proof Hf as (Hp & Hs & Hps). rewrite decode_field by done. unfold BitField.mask_in_place.
  rewrite mask_ones by done. set (p := BitField.position f) in *. set (n := BitField.size f) in *.
  assert (0 < kBitsPerWord) by lia. split_and!.
  - set (w' := Z.lor _ _). assert (w' = wrapU kBitsPerWord w') as ->; [|apply wrapU_range; lia].
    unfold w'. bitblast.
  - unfold field. bitblast.
  - intros lo m Hlo Hm Hd. unfold field. destruct Hd; bitblast.
Qed.

(** ** The fields of a location *)

Lemma word_cases : kBitsPerWord = 32 \/ kBitsPerWord = 64.
Proof. apply kBitsPerWord_cases. Qed.

#[local] Ltac layout :=
  unfold Location.StackSlotBaseField, Location.StackIndexField, Location.PolicyField, Location.KindField,
    Location.PayloadField, Location.kBitsForStackIndex, Location.kPayloadBitsSize, Location.kBitsForBaseReg,
    Location.kPayloadBitsPos, Location.kKindBitsPos, Location.kKindBitsSize in *;
  cbn [BitField.position BitField.size] in *.

Lemma location_fields :
  fits Location.KindField /\ fits Location.PayloadField /\ fits Location.StackSlotBaseField /\
  fits Location.StackIndexField.
Proof.
  unfold fits. layout. destruct word_cases as [E|E]; rewrite E; cbn; lia.
Qed.

Lemma mkLocation_spec k p :
  inU 5 k -> inU Location.kPayloadBitsSize p ->
  exists loc, Location.mkLocation k p = Ok loc /\ inU kBitsPerWord loc /\
    Location.kind loc = k /\ Location.payload loc = p /\ loc mod 4 = k mod 4.
Proof.
  intros Hk Hp. destruct location_fields as (Hfk & Hfp & _). unfold Location.mkLocation.
  rewrite (encode_ok _ k), (encode_ok _ p) by done. cbn [rbind]. eexists. split; [done|].
  unfold Location.kind, Location.payload. rewrite !decode_field by done. layout. cbn in *.
  destruct word_cases as [E|E]; rewrite E in *; cbn in *; rewrite Z.shiftl_0_r; split_and!.
  1,5: match goal with |- inU ?n ?w => assert (w = wrapU n w) as -> by bitblast; by apply wrapU_range end.
  1,4: unfold field; bitblast.
  1,3: unfold field; bitblast.
  all: rewrite <- !(Z.land_ones _ 2) by lia; bitblast.
Qed.

(** The kinds are told apart from each other and from the tagged pointers. *)
Lemma kind_tags k loc :
  inU kBitsPerWord loc -> Location.kind loc = k -> loc mod 4 = 0 -> k <> 0 ->
  Location.IsConstant loc = false /\ Location.IsPairLocation loc = false /\ Location.IsInvalid loc = false.
Proof.
  intros Hl Hk Hm Hz. unfold Location.IsConstant, Location.IsPairLocation, Location.IsInvalid.
  assert (Z.land loc 3 = 0) as E3 by (change 3 with (Z.ones 2); by rewrite Z.land_ones).
  split_and!; apply Z.eqb_neq.
  - change Location.kConstantTag with 1. replace (Z.land loc 1) with (Z.land (Z.land loc 3) 1); [by rewrite E3|].
    by rewrite <- Z.land_assoc.
  - change Location.kLocationTagMask with 3. by rewrite E3.
  - intros ->. apply Hz. rewrite <- Hk. reflexivity.
Qed.

Lemma encoded_index index :
  - Location.kStackIndexBias <= index < Location.kStackIndexBias ->
  exists x, Location.EncodeStackIndex index = Ok x /\ inU (BitField.size Location.StackIndexField) x /\
    x = Location.kStackIndexBias + index.
Proof.
  intros Hi. destruct location_fields as (_ & _ & _ & Hfi). unfold Location.EncodeStackIndex.
  rewrite ASSERT_true by (apply andb_true_iff; split; [apply Z.leb_le|apply Z.ltb_lt]; lia). cbn [rbind].
  assert (inU (BitField.size Location.StackIndexField) (Location.kStackIndexBias + index)) as Hx.
  { unfold inU. cbn [BitField.size Location.StackIndexField]. unfold Location.kStackIndexBias in *.
    rewrite Z.shiftl_1_l in *. rewrite (pow2_split Location.kBitsForStackIndex); [lia|].
    destruct Hfi as (_ & [? _] & _). done. }
  eexists. split; [done|]. rewrite wrapU_small; [done|].
  apply (inU_le (BitField.size Location.StackIndexField)); [done|]. destruct Hfi as (? & ? & ?). lia.
Qed.

Lemma stack_payload_spec index base :
  - Location.kStackIndexBias <= index < Location.kStackIndexBias -> inU Location.kBitsForBaseReg base ->
  exists p, Location.stack_payload index base = Ok p /\ inU Location.kPayloadBitsSize p /\
    BitField.decode Location.StackSlotBaseField p = base /\
    BitField.decode Location.StackIndexField p - Location.kStackIndexBias = index.
Proof.
  intros Hi Hb. destruct location_fields as (_ & _ & Hfb & Hfi). unfold Location.stack_payload.
  rewrite (encode_ok _ base) by done. cbn [rbind]. destruct (encoded_index index Hi) as (x & -> & Hx & Ex). cbn [rbind].
  rewrite encode_ok by done. cbn [rbind]. eexists. split; [done|]. rewrite !decode_field by done.
  set (p := Z.lor _ _).
  enough (inU Location.kPayloadBitsSize p /\ field p 0 Location.kBitsForBaseReg = base /\
          field p Location.kBitsForBaseReg Location.kBitsForStackIndex = x)
    as (? & ? & E) by (split_and!; [done..|]; cbn; rewrite E; lia).
  subst p. clear Ex. layout.
  destruct word_cases as [E|E]; rewrite E in *; cbn in *; rewrite Z.shiftl_0_r; split_and!.
  1,4: match goal with |- inU ?n ?w => assert (w = wrapU n w) as -> by bitblast; by apply wrapU_range end.
  all: unfold field; bitblast.
Qed.

(** Reading the parts of a stack slot. *)
Lemma stack_parts k loc p index base :
  In k [Location.kStackSlot; Location.kDoubleStackSlot; Location.kQuadStackSlot] ->
  Location.kind loc = k -> Location.payload loc = p ->
  BitField.decode Location.StackSlotBaseField p = base ->
  BitField.decode Location.StackIndexField p - Location.kStackIndexBias = index ->
  Location.HasStackIndex loc = true /\ Location.stack_index loc = Ok index /\ Location.base_reg loc = Ok base.
Proof.
  intros Hk Ek Ep Eb Ei.
  assert (Location.HasStackIndex loc = true) as Hs.
  { unfold Location.HasStackIndex, Location.IsStackSlot, Location.IsDoubleStackSlot, Location.IsQuadStackSlot.
    rewrite Ek. by destruct Hk as [<-|[<-|[<-|[]]]]. }
  split; [done|]. unfold Location.stack_index, Location.base_reg. rewrite !ASSERT_true by done. cbn [rbind].
  by rewrite Ep, Eb, Ei.
Qed.

(** Changing the index of a stack slot keeps its kind and base. *)
Lemma set_stack_index_spec loc index :
  inU kBitsPerWord loc -> Location.HasStackIndex loc = true ->
  - Location.kStackIndexBias <= index < Location.kStackIndexBias ->
  exists loc', Location.set_stack_index loc index = Ok loc' /\ Location.kind loc' = Location.kind loc /\
    Location.stack_index loc' = Ok index /\ Location.base_reg loc' = Location.base_reg loc.
Proof.
  intros Hl Hs Hi. destruct location_fields as (Hfk & Hfp & Hfb & Hfi). unfold Location.set_stack_index.
  rewrite ASSERT_true by done. cbn [rbind]. destruct (encoded_index index Hi) as (x & -> & Hx & Ex). cbn [rbind].
  assert (inU kBitsPerWord (Location.payload loc)) as Hpl.
  { unfold Location.payload. rewrite decode_field by done. apply (inU_le Location.kPayloadBitsSize).
    - apply field_range. destruct Hfp as (_ & [? _] & _). lia.
    - destruct Hfp as (_ & ? & ?). cbn in *. lia. }
  destruct (update_ok _ x (Location.payload loc) Hfi Hx Hpl) as (p & -> & Hp & Edp & Ekeep). cbn [rbind].
  assert (inU Location.kPayloadBitsSize p) as Hpp.
  { assert (field p Location.kPayloadBitsSize 5 = field (Location.payload loc) Location.kPayloadBitsSize 5) as E.
    { apply Ekeep; [| |right]; layout; destruct word_cases as [E|E]; rewrite ?E; cbn; lia. }
    unfold Location.payload in E at 1. rewrite decode_field in E by done.
    rewrite (field_below Location.kPayloadBitsSize (field _ _ _)) in E.
    - apply high_zero; [|exact E|]; destruct Hfp as (_ & ? & _); cbn in *; [|lia].
      by replace (Location.kPayloadBitsSize + 5) with kBitsPerWord by (layout; cbn; lia).
    - apply field_range. destruct Hfp as (_ & [? _] & _). cbn in *. lia.
    - destruct Hfp as (_ & [? _] & _). cbn in *. lia.
    - lia. }
  destruct (update_ok _ p loc Hfp Hpp Hl) as (loc' & -> & Hl' & Edl & Ekeep'). exists loc'. split; [done|].
  assert (Location.kind loc' = Location.kind loc) as Ek.
  { unfold Location.kind. rewrite !decode_field by done. apply Ekeep'; layout; cbn; lia. }
  split; [done|].
  assert (Location.HasStackIndex loc' = true) as Hs'.
  { revert Hs. unfold Location.HasStackIndex, Location.IsStackSlot, Location.IsDoubleStackSlot, Location.IsQuadStackSlot.
    by rewrite Ek. }
  unfold Location.stack_index, Location.base_reg, Location.payload in *. rewrite !ASSERT_true by done. cbn [rbind].
  rewrite Edl, Edp. split; [f_equal; lia|]. rewrite (decode_field _ p), (decode_field Location.StackSlotBaseField) by done.
  rewrite Ekeep; [done|..]; layout; destruct word_cases as [E|E]; rewrite ?E; cbn; lia.
Qed.

(** A location's parts can be read back: a register location of either kind
    gives its register code, a stack slot of any of the three sizes its signed
    index and its base register, for every index within the bias; the words are
    neither invalid nor mistaken for a tagged constant or pair, so two locations
    that differ in kind, register, index or base are different words. *)
Theorem Location_round_trip :
  (forall r, inU Location.kPayloadBitsSize r ->
     exists loc, Location.RegisterLocation r = Ok loc /\ Location.IsRegister loc = true /\ Location.reg loc = Ok r /\
       Location.IsConstant loc = false /\ Location.IsPairLocation loc = false /\ Location.IsInvalid loc = false) /\
  (forall r, inU Location.kPayloadBitsSize r ->
     exists loc, Location.FpuRegisterLocation r = Ok loc /\ Location.IsFpuRegister loc = true /\ Location.fpu_reg loc = Ok r /\
       Location.IsConstant loc = false /\ Location.IsPairLocation loc = false /\ Location.IsInvalid loc = false) /\
  (forall k index base, In k [Location.kStackSlot; Location.kDoubleStackSlot; Location.kQuadStackSlot] ->
     - Location.kStackIndexBias <= index < Location.kStackIndexBias -> inU Location.kBitsForBaseReg base ->
     exists loc, Location.stack_location k index base = Ok loc /\ Location.kind loc = k /\
       Location.stack_index loc = Ok index /\ Location.base_reg loc = Ok base /\
       Location.IsConstant loc = false /\ Location.IsPairLocation loc = false /\ Location.IsInvalid loc = false).
Proof.
  split_and!.
  - intros r Hr. destruct (mkLocation_spec Location.kRegister r) as (loc & E & Hl & Ek & Ep & Em); [done..|].
    exists loc. split; [done|]. unfold Location.reg, Location.IsRegister. rewrite Ek, Ep. cbn.
    rewrite ASSERT_true by done. split; [done|]. split; [done|]. by apply (kind_tags Location.kRegister).
  - intros r Hr. destruct (mkLocation_spec Location.kFpuRegister r) as (loc & E & Hl & Ek & Ep & Em); [done..|].
    exists loc. split; [done|]. unfold Location.fpu_reg, Location.IsFpuRegister. rewrite Ek, Ep. cbn.
    rewrite ASSERT_true by done. split; [done|]. split; [done|]. by apply (kind_tags Location.kFpuRegister).
  - intros k index base Hk Hi Hb. destruct (stack_payload_spec index base Hi Hb) as (p & Ep & Hp & Eb & Ei).
    assert (inU 5 k /\ k mod 4 = 0 /\ k <> 0) as (Hk5 & Hk4 & Hk0) by (destruct Hk as [<-|[<-|[<-|[]]]]; done).
    destruct (mkLocation_spec k p Hk5 Hp) as (loc & E & Hl & Ek & Epl & Em).
    destruct (stack_parts k loc p index base Hk Ek Epl Eb Ei) as (Hs & Esi & Ebr).
    exists loc. split.
    { unfold Location.stack_location. rewrite Ep. cbn [rbind]. rewrite E. cbn [rbind]. rewrite Esi. cbn [rbind].
      by rewrite ASSERT_true by apply Z.eqb_refl. }
    split_and!; [done..| | |]; apply (kind_tags k); (done || congruence).
Qed.

End LocationSpec.
