(* ===== verification/ParallelMove.v ===== *)
(** * ParallelMove: scheduling moves that happen at once

    Models class MoveOperands (vm/compiler/backend/il.h) and
    vm/compiler/backend/parallel_move_resolver.{h,cc}: the resolver, which turns
    a set of moves between locations into a sequence of moves and swaps, and
    the emitter's search for a scratch register.  The resolver's object is the
    record [Resolver]; [PerformMove] calls itself for the moves that block it,
    as deep as there are moves. *)

From stdpp Require Import base numbers list.
From Stdlib Require Import Lia.
From S2P Require Import Prelude Constants Location.

#[local] Open Scope Z_scope.
#[local] Open Scope res_scope.

(** ** Moves *)

Record MoveOperands : Type := mkMove { dest_ : Z; src_ : Z }.

#[export] Instance MoveOperands_eq_dec : EqDecision MoveOperands.
Proof. solve_decision. Defined.

Section Moves.
Context `{Target}.

(** The assertion of [IsPending] and [IsEliminated]. *)
Definition move_consistent (m : MoveOperands) : bool :=
  negb (Location.IsInvalid (src_ m)) || Location.IsInvalid (dest_ m).

Definition IsPending (m : MoveOperands) : Res bool :=
  ASSERT (move_consistent m) ;; Ok (Location.IsInvalid (dest_ m) && negb (Location.IsInvalid (src_ m))).

Definition IsEliminated (m : MoveOperands) : Res bool :=
  ASSERT (move_consistent m) ;; Ok (Location.IsInvalid (src_ m)).

Definition MarkPending (m : MoveOperands) : Res (Z * MoveOperands) :=
  let* p := IsPending m in
  ASSERT (negb p) ;; Ok (dest_ m, mkMove Location.NoLocation (src_ m)).

Definition ClearPending (dest : Z) (m : MoveOperands) : Res MoveOperands :=
  let* p := IsPending m in
  ASSERT p ;; Ok (mkMove dest (src_ m)).

Definition Blocks (loc : Z) (m : MoveOperands) : Res bool :=
  let* e := IsEliminated m in Ok (negb e && Location.Equals (src_ m) loc).

Definition IsRedundant (m : MoveOperands) : Res bool :=
  let* e := IsEliminated m in
  Ok (e || Location.IsInvalid (dest_ m) || Location.Equals (src_ m) (dest_ m)).

Definition Eliminate : MoveOperands := mkMove Location.NoLocation Location.NoLocation.

Definition set_src (m : MoveOperands) (value : Z) : MoveOperands := mkMove (dest_ m) value.

(** ** The resolver *)

Inductive OpKind : Set := kNop | kMove | kSwap.

Record Op : Type := mkOp { op_kind : OpKind; operands : MoveOperands }.

Record Resolver : Type := mkResolver { moves_ : list MoveOperands; scheduled_ops_ : list Op }.

Definition new_Resolver : Resolver := mkResolver [] [].

Definition is_nop (op : Op) : bool := match op_kind op with kNop => true | _ => false end.

(** [MoveSchedule::From]. *)
Definition MoveSchedule_From (ops : list Op) : list Op := base.filter (fun op => is_nop op = false) ops.

(** [moves_\[index\]]; the growable array asserts the bound, and reading past it
    has no meaning. *)
Definition move_at (r : Resolver) (index : nat) : Res MoveOperands :=
  match moves_ r !! index with
  | Some m => Ok m
  | None => Err (if DEBUG then AssertionFailure else UndefinedBehavior)
  end.

Definition set_move (r : Resolver) (index : nat) (m : MoveOperands) : Resolver :=
  mkResolver (<[index := m]> (moves_ r)) (scheduled_ops_ r).

Definition add_op (r : Resolver) (k : OpKind) (m : MoveOperands) : Resolver :=
  mkResolver (moves_ r) (scheduled_ops_ r ++ [mkOp k m]).

Fixpoint append_moves (pm ms : list MoveOperands) : Res (list MoveOperands) :=
  match pm with
  | [] => Ok ms
  | m :: pm => let* b := IsRedundant m in append_moves pm (if b then ms else ms ++ [m])
  end.

Definition BuildInitialMoveList (pm : list MoveOperands) (r : Resolver) : Res Resolver :=
  let* ms := append_moves pm (moves_ r) in Ok (mkResolver ms (scheduled_ops_ r)).

Definition AddMoveToSchedule (index : nat) (r : Resolver) : Res Resolver :=
  let* m := move_at r index in
  Ok (set_move (add_op r kMove m) index Eliminate).

Definition retarget (source destination : Z) (m : MoveOperands) : Res MoveOperands :=
  let* b := Blocks source m in
  if b then Ok (set_src m destination)
  else let* b := Blocks destination m in
       Ok (if b then set_src m source else m).

Fixpoint retarget_all (source destination : Z) (ms : list MoveOperands) : Res (list MoveOperands) :=
  match ms with
  | [] => Ok []
  | m :: ms =>
      let* m := retarget source destination m in
      let* ms := retarget_all source destination ms in
      Ok (m :: ms)
  end.

Definition AddSwapToSchedule (index : nat) (r : Resolver) : Res Resolver :=
  let* m := move_at r index in
  let r := set_move (add_op r kSwap m) index Eliminate in
  let* ms := retarget_all (src_ m) (dest_ m) (moves_ r) in
  Ok (mkResolver ms (scheduled_ops_ r)).

(** The search for a blocking move; it has to be a pending one. *)
Fixpoint find_blocking (destination : Z) (ms : list MoveOperands) : Res bool :=
  match ms with
  | [] => Ok false
  | m :: ms =>
      let* b := Blocks destination m in
      if b then let* p := IsPending m in ASSERT p ;; Ok true
      else find_blocking destination ms
  end.

(** The loop over the other moves, from [i], with [k] left; [perform] is the
    recursive call. *)
Fixpoint perform_blocking (perform : nat -> Resolver -> Res Resolver) (destination : Z) (k i : nat)
    (r : Resolver) : Res Resolver :=
  match k with
  | O => Ok r
  | S k =>
      let* other_move := move_at r i in
      let* b := Blocks destination other_move in
      let* p := if b then IsPending other_move else Ok false in
      let* r := if b && negb p then perform i r else Ok r in
      perform_blocking perform destination k (S i) r
  end.

Fixpoint PerformMove (fuel : nat) (index : nat) (r : Resolver) : Res Resolver :=
  match fuel with
  | O => Err OutOfFuel
  | S fuel =>
      let* m := move_at r index in
      let* p := IsPending m in
      ASSERT (negb p) ;;
      let* b := IsRedundant m in
      ASSERT (negb b) ;;
      ASSERT (negb (Location.IsInvalid (src_ m))) ;;
      let* (destination, m) := MarkPending m in
      let r := set_move r index m in
      let* r := perform_blocking (PerformMove fuel) destination (length (moves_ r)) 0 r in
      let* m := move_at r index in
      let* m := ClearPending destination m in
      let r := set_move r index m in
      if Location.Equals (src_ m) destination then Ok (set_move r index Eliminate)
      else
        let* b := find_blocking destination (moves_ r) in
        if b then AddSwapToSchedule index r else AddMoveToSchedule index r
  end.

(** The moves whose sources are not constants, from index [i]. *)
Fixpoint perform_all (fuel k i : nat) (r : Resolver) : Res Resolver :=
  match k with
  | O => Ok r
  | S k =>
      let* move := move_at r i in
      let* e := IsEliminated move in
      let* r := if negb e && negb (Location.IsConstant (src_ move)) then PerformMove fuel i r else Ok r in
      perform_all fuel k (S i) r
  end.

Fixpoint schedule_constants (ms : list MoveOperands) (ops : list Op) : Res (list Op) :=
  match ms with
  | [] => Ok ops
  | m :: ms =>
      let* e := IsEliminated m in
      if e then schedule_constants ms ops
      else ASSERT (Location.IsConstant (src_ m)) ;; schedule_constants ms (ops ++ [mkOp kMove m])
  end.

(** [Resolve] stores the schedule in the instruction and leaves the resolver
    empty; its value is that schedule. *)
Definition Resolve (pm : list MoveOperands) (r : Resolver) : Res (list Op * Resolver) :=
  ASSERT (match moves_ r with [] => true | _ => false end) ;;
  let* r := BuildInitialMoveList pm r in
  let* r := perform_all (S (length (moves_ r))) (length (moves_ r)) 0 r in
  let* ops := schedule_constants (moves_ r) (scheduled_ops_ r) in
  Ok (MoveSchedule_From ops, mkResolver [] []).

(** ** Scratch registers *)

Definition is_kind (k : OpKind) (op : Op) : bool :=
  match k, op_kind op with kNop, kNop | kMove, kMove | kSwap, kSwap => true | _, _ => false end.

Definition IsScratchLocation (schedule : list Op) (current_move_ : nat) (loc : Z) : bool :=
  if existsb (fun op => Location.Equals (src_ (operands op)) loc ||
                        (is_kind kSwap op && Location.Equals (dest_ (operands op)) loc))
       (drop current_move_ schedule)
  then false
  else existsb (fun op => is_kind kMove op && Location.Equals (dest_ (operands op)) loc)
         (drop (S current_move_) schedule).

(** [(1 << reg) & blocked_mask]: the shift is of an int, which the conjunction
    converts to a word. *)
Definition is_blocked (blocked_mask reg : Z) : bool :=
  negb (Z.land (wrapU kBitsPerWord (s32 (Z.shiftl 1 reg))) blocked_mask =? 0).

Fixpoint first_scratch (schedule : list Op) (current_move_ : nat) (kind blocked_mask : Z) (k : nat) (reg : Z) : Res Z :=
  match k with
  | O => Ok (-1)
  | S k =>
      let* scratch := if is_blocked blocked_mask reg then Ok false
                      else let* loc := Location.MachineRegisterLocation kind reg in
                           Ok (IsScratchLocation schedule current_move_ loc) in
      if scratch then Ok reg else first_scratch schedule current_move_ kind blocked_mask k (reg + 1)
  end.

Fixpoint first_unblocked (blocked_mask : Z) (k : nat) (reg : Z) : Z :=
  match k with
  | O => -1
  | S k => if is_blocked blocked_mask reg then first_unblocked blocked_mask k (reg + 1) else reg
  end.

(** The register and whether it has to be spilled. *)
Definition AllocateScratchRegister (schedule : list Op) (current_move_ : nat)
    (kind blocked_mask first_free_register last_free_register : Z) : Res (Z * bool) :=
  let k := Z.to_nat (last_free_register + 1 - first_free_register) in
  let* scratch := first_scratch schedule current_move_ kind blocked_mask k first_free_register in
  if scratch =? -1 then Ok (first_unblocked blocked_mask k first_free_register, true)
  else Ok (scratch, false).

Definition RegMaskBit (reg : Z) : Z :=
  if reg =? Reg.kNoRegister then 0 else wrapU kBitsPerWord (s32 (Z.shiftl 1 reg)).

End Moves.
