(* ===== verification/ParallelMoveSpec.v ===== *)
(** * ParallelMoveSpec: the schedule has the effect of the parallel move

    The invariant follows the comments in PerformMove: the pending moves form a
    path, in which each move's source is the destination of the move that
    called it; only the first of the path can close a cycle.  At the end, the
    scratch registers of the emitter: it looks for a register that the rest of the
    schedule writes before it reads it; only when there is none it saves one on
    the stack. *)

From stdpp Require Import base numbers list sets.
From Stdlib Require Import Lia.
From S2P Require Import Prelude Constants Location LocationSpec ParallelMove.

#[local] Open Scope Z_scope.
#[local] Open Scope res_scope.

(** ** What moves and schedules do to a store *)

Section Effect.
Context {V : Type}.
Implicit Types ρ : Z -> V.

Definition exec_op (ρ : Z -> V) (op : Op) : Z -> V :=
  let d := dest_ (operands op) in
  let s := src_ (operands op) in
  match op_kind op with
  | kNop => ρ
  | kMove => fun l => if l =? d then ρ s else ρ l
  | kSwap => fun l => if l =? d then ρ s else if l =? s then ρ d else ρ l
  end.

Definition run (ops : list Op) (ρ : Z -> V) : Z -> V := foldl exec_op ρ ops.

(** All moves at once: every destination receives the value its source had. *)
Definition parallel (pm : list MoveOperands) ρ ρ' : Prop :=
  (forall m, In m pm -> dest_ m <> 0 -> ρ' (dest_ m) = ρ (src_ m)) /\
  (forall l, (forall m, In m pm -> dest_ m = l -> l = 0) -> ρ' l = ρ l).

Lemma run_app ops ops' ρ : run (ops ++ ops') ρ = run ops' (run ops ρ).
Proof. apply foldl_app. Qed.

End Effect.

Section Resolver.
Context `{Target}.

(** ** The methods of a move that keeps the class invariant *)

Definition consistent (m : MoveOperands) : Prop := src_ m = 0 -> dest_ m = 0.

Lemma move_consistent_true m : consistent m -> move_consistent m = true.
Proof.
  unfold consistent, move_consistent, Location.IsInvalid, Location.kInvalidLocation. intros Hc.
  destruct (Z.eqb_spec (src_ m) 0); [|done]. by rewrite Hc.
Qed.

Lemma IsPending_ok m : consistent m -> IsPending m = Ok ((dest_ m =? 0) && negb (src_ m =? 0)).
Proof. intros Hc. unfold IsPending. by rewrite ASSERT_true by by apply move_consistent_true. Qed.

Lemma IsEliminated_ok m : consistent m -> IsEliminated m = Ok (src_ m =? 0).
Proof. intros Hc. unfold IsEliminated. by rewrite ASSERT_true by by apply move_consistent_true. Qed.

Lemma Blocks_ok loc m : consistent m -> Blocks loc m = Ok (negb (src_ m =? 0) && (src_ m =? loc)).
Proof. intros Hc. unfold Blocks. by rewrite IsEliminated_ok. Qed.

Lemma IsRedundant_ok m :
  consistent m -> IsRedundant m = Ok ((src_ m =? 0) || (dest_ m =? 0) || (src_ m =? dest_ m)).
Proof. intros Hc. unfold IsRedundant. by rewrite IsEliminated_ok. Qed.

(** Exchanging two locations in a source. *)
Definition sw (source destination x : Z) : Z :=
  if x =? source then destination else if x =? destination then source else x.

Definition retargeted (source destination : Z) (m : MoveOperands) : MoveOperands :=
  if src_ m =? 0 then m else set_src m (sw source destination (src_ m)).

Lemma retarget_ok s d m : consistent m -> retarget s d m = Ok (retargeted s d m).
Proof.
  intros Hc. unfold retarget, retargeted, sw. rewrite !Blocks_ok by done. cbn [rbind].
  destruct (Z.eqb_spec (src_ m) 0); cbn; [done|]. destruct (src_ m =? s); [done|].
  destruct (src_ m =? d); [done|]. by destruct m.
Qed.

Lemma retarget_all_ok s d ms :
  Forall consistent ms -> retarget_all s d ms = Ok (retargeted s d <$> ms).
Proof.
  induction 1 as [|m ms Hm Hms IH]; [done|]. cbn. rewrite retarget_ok by done. cbn. by rewrite IH.
Qed.

Lemma find_blocking_ok d ms :
  Forall consistent ms -> d <> 0 ->
  (forall m, In m ms -> src_ m = d -> dest_ m = 0) ->
  exists b, find_blocking d ms = Ok b /\ (b = true <-> exists m, In m ms /\ src_ m = d).
Proof.
  intros Hc Hd. induction Hc as [|m ms Hm Hms IH]; intros Hp.
  { exists false. split; [done|]. split; [done|]. intros (m & [] & _). }
  cbn. rewrite Blocks_ok by done. cbn [rbind]. destruct (Z.eqb_spec (src_ m) d) as [E|Hne].
  - rewrite (proj2 (Z.eqb_neq _ _)) by congruence. cbn. rewrite IsPending_ok by done. cbn [rbind].
    rewrite (Hp m) by (by left || done). rewrite (proj2 (Z.eqb_neq (src_ m) 0)) by congruence. cbn.
    rewrite ASSERT_true by done. exists true. split; [done|]. split; [|done]. intros _. exists m. split; [by left|done].
  - rewrite andb_false_r. destruct IH as (b & Eb & Hb). { intros m' Hm'. apply Hp. by right. }
    exists b. split; [done|]. rewrite Hb. split.
    + intros (m' & Hm' & E). exists m'. split; [by right|done].
    + intros (m' & [<-|Hm'] & E); [done|]. by exists m'.
Qed.

(** ** The invariant *)

Section Invariant.
(** The destinations of the moves, in order. *)
Context (D : list Z) (HD : NoDup D) (HD0 : forall d, In d D -> d <> 0)
  (HDc : forall d, In d D -> Location.IsConstant d = false).
(** The store at the start, and the one to reach. *)
Context {V : Type} (ρ0 T : Z -> V).

(** The moves are performed, pending, or still to do; [P] has the pending ones,
    innermost first. *)
Record moves_ok (P : list nat) (ms : list MoveOperands) : Prop := {
  mo_length : length ms = length D;
  mo_nodup : NoDup P;
  mo_shape : forall i m d, ms !! i = Some m -> D !! i = Some d ->
    (m = Eliminate /\ i ∉ P) \/
    (src_ m <> 0 /\ dest_ m = 0 /\ i ∈ P) \/
    (src_ m <> 0 /\ dest_ m = d /\ src_ m <> d /\ i ∉ P);
  mo_chain : forall k a b, P !! k = Some a -> P !! S k = Some b -> src_ <$> ms !! a = D !! b;
  mo_bound : forall i, i ∈ P -> (i < length D)%nat
}.

Record values_ok (ms : list MoveOperands) (ρ : Z -> V) : Prop := {
  vo_source : forall i m d, ms !! i = Some m -> D !! i = Some d -> src_ m <> 0 -> ρ (src_ m) = T d;
  vo_done : forall l, (forall i m, ms !! i = Some m -> D !! i = Some l -> src_ m = 0) -> ρ l = T l
}.

Definition resolver_ok (P : list nat) (r : Resolver) : Prop :=
  moves_ok P (moves_ r) /\ values_ok (moves_ r) (run (scheduled_ops_ r) ρ0).

(** What may happen to the moves that are not pending: their sources never
    become the destination of a pending move. *)
Definition shrinks (P : list nat) (ms ms' : list MoveOperands) : Prop :=
  forall i m', ms' !! i = Some m' -> i ∉ P -> src_ m' <> 0 ->
  exists m, ms !! i = Some m /\ src_ m <> 0 /\
    (src_ m' = src_ m \/ Location.IsConstant (src_ m) = false /\ forall p, p ∈ P -> D !! p <> Some (src_ m')).

Lemma shrinks_refl P ms : shrinks P ms ms.
Proof. intros i m Hm Hi Hs. exists m. auto. Qed.

Lemma shrinks_trans P ms1 ms2 ms3 : shrinks P ms1 ms2 -> shrinks P ms2 ms3 -> shrinks P ms1 ms3.
Proof.
  intros H12 H23 i m3 Hm3 Hi Hs3. destruct (H23 i m3 Hm3 Hi Hs3) as (m2 & Hm2 & Hs2 & Hc2).
  destruct (H12 i m2 Hm2 Hi Hs2) as (m1 & Hm1 & Hs1 & Hc1). exists m1. split_and!; [done..|].
  destruct Hc1 as [E1|[Hn1 Hp1]], Hc2 as [E2|[Hn2 Hp2]]; rewrite ?E1, ?E2 in *; auto.
Qed.

(** The moves still to do; each recursive call takes one. *)
Definition todo (ms : list MoveOperands) : nat := length (base.filter (fun m => dest_ m <> 0) ms).

Lemma todo_cons m ms : todo (m :: ms) = if decide (dest_ m <> 0) then S (todo ms) else todo ms.
Proof. unfold todo. rewrite filter_cons. by destruct (decide (dest_ m <> 0)). Qed.

Lemma todo_mono ms ms' :
  length ms = length ms' ->
  (forall i m', ms' !! i = Some m' -> dest_ m' <> 0 -> exists m, ms !! i = Some m /\ dest_ m <> 0) ->
  (todo ms' <= todo ms)%nat.
Proof.
  revert ms'. induction ms as [|m ms IH]; intros [|m' ms'] Hl Hs; try done. rewrite !todo_cons.
  assert (todo ms' <= todo ms)%nat. { apply IH; [by injection Hl|]. intros i x Hx. apply (Hs (S i) x Hx). }
  destruct (decide (dest_ m' <> 0)) as [Hd|Hd]; [|case_decide; lia].
  destruct (Hs 0%nat m' eq_refl Hd) as (x & [= ->] & Hx). rewrite decide_True by done. lia.
Qed.

Lemma todo_mark ms i m d :
  ms !! i = Some m -> dest_ m <> 0 -> (todo (<[i := mkMove 0 d]> ms) < todo ms)%nat.
Proof.
  revert i. induction ms as [|m' ms IH]; intros [|i] Hm Hd; try done; cbn in Hm.
  - injection Hm as ->. change (<[0%nat := mkMove 0 d]> (m :: ms)) with (mkMove 0 d :: ms).
    rewrite !todo_cons, decide_False, decide_True by naive_solver. lia.
  - change (<[S i := mkMove 0 d]> (m' :: ms)) with (m' :: <[i := mkMove 0 d]> ms). rewrite !todo_cons.
    specialize (IH i Hm Hd). case_decide; lia.
Qed.

Lemma dest_inj i j d : D !! i = Some d -> D !! j = Some d -> i = j.
Proof. apply NoDup_lookup, HD. Qed.

Lemma dest_in i d : D !! i = Some d -> In d D.
Proof. intros Hi. apply list_elem_of_In. by eapply list_elem_of_lookup_2. Qed.

Lemma dest_at P ms i m : moves_ok P ms -> ms !! i = Some m -> exists d, D !! i = Some d.
Proof.
  intros Hok Hm. apply lookup_lt_is_Some. rewrite <- (mo_length _ _ Hok). by eapply lookup_lt_Some.
Qed.

Lemma move_of P ms i d : moves_ok P ms -> D !! i = Some d -> exists m, ms !! i = Some m.
Proof.
  intros Hok Hd. apply lookup_lt_is_Some. rewrite (mo_length _ _ Hok). by eapply lookup_lt_Some.
Qed.

Lemma moves_consistent P ms : moves_ok P ms -> Forall consistent ms.
Proof.
  intros Hok. apply Forall_lookup. intros i m Hm. destruct (dest_at _ _ _ _ Hok Hm) as [d Hd].
  destruct (mo_shape _ _ Hok i m d Hm Hd) as [[-> _]|[[Hs _]|[Hs _]]]; intros E; done.
Qed.

(** A move that is not pending and not performed. *)
Lemma live_shape P ms i m d :
  moves_ok P ms -> ms !! i = Some m -> D !! i = Some d -> dest_ m <> 0 ->
  src_ m <> 0 /\ dest_ m = d /\ src_ m <> d /\ i ∉ P.
Proof.
  intros Hok Hm Hd Hl. destruct (mo_shape _ _ Hok i m d Hm Hd) as [[-> _]|[(? & ? & ?)|?]]; done.
Qed.

Lemma pending_shape P ms i m d :
  moves_ok P ms -> ms !! i = Some m -> D !! i = Some d -> i ∈ P -> src_ m <> 0 /\ dest_ m = 0.
Proof.
  intros Hok Hm Hd Hi. destruct (mo_shape _ _ Hok i m d Hm Hd) as [[_ ?]|[(? & ? & _)|(_ & _ & _ & ?)]]; done.
Qed.

(** *** Marking a move as pending *)

Lemma mark_moves P ms i m d :
  moves_ok P ms -> ms !! i = Some m -> D !! i = Some d -> dest_ m <> 0 ->
  (forall b, P !! 0%nat = Some b -> D !! b = Some (src_ m)) ->
  moves_ok (i :: P) (<[i := mkMove 0 (src_ m)]> ms).
Proof.
  intros Hok Hm Hd Hl Htop. destruct (live_shape _ _ _ _ _ Hok Hm Hd Hl) as (Hs & Ed & Hsd & HiP).
  pose proof (lookup_lt_Some _ _ _ Hm) as Hlt. split.
  - rewrite length_insert. apply Hok.
  - apply NoDup_cons. split; [done|apply Hok].
  - intros j m' d' Hm' Hd'. destruct (decide (j = i)) as [->|Hne].
    + rewrite list_lookup_insert_eq in Hm' by done. injection Hm' as <-. right; left. cbn. set_solver.
    + rewrite list_lookup_insert_ne in Hm' by done.
      destruct (mo_shape _ _ Hok j m' d' Hm' Hd') as [[? ?]|[(? & ? & ?)|(? & ? & ? & ?)]]; set_solver.
  - intros [|k] a b Ha Hb; cbn in Ha, Hb.
    + injection Ha as <-. rewrite list_lookup_insert_eq by done. cbn. by rewrite (Htop b).
    + rewrite list_lookup_insert_ne; [by apply (mo_chain _ _ Hok k)|].
      intros ->. apply HiP. by eapply list_elem_of_lookup_2.
  - intros j Hj. apply elem_of_cons in Hj as [->|Hj]; [by eapply lookup_lt_Some|by apply (mo_bound _ _ Hok)].
Qed.

Lemma mark_values ms ρ i m d' :
  ms !! i = Some m -> values_ok ms ρ -> values_ok (<[i := mkMove d' (src_ m)]> ms) ρ.
Proof.
  intros Hm [Hs Hd]. pose proof (lookup_lt_Some _ _ _ Hm). split.
  - intros j m' d Hm' HD'. destruct (decide (j = i)) as [->|Hne].
    + rewrite list_lookup_insert_eq in Hm' by done. injection Hm' as <-. apply (Hs i m d Hm HD').
    + rewrite list_lookup_insert_ne in Hm' by done. by apply (Hs j).
  - intros l Hl. apply Hd. intros j m' Hm' Hj. destruct (decide (j = i)) as [->|Hne].
    + rewrite Hm in Hm'. injection Hm' as <-. apply (Hl i (mkMove d' (src_ m))); [|done].
      by rewrite list_lookup_insert_eq.
    + apply (Hl j m'); [by rewrite list_lookup_insert_ne|done].
Qed.

(** *** Finishing a pending move *)

Lemma finish_moves P ms i : moves_ok (i :: P) ms -> moves_ok P (<[i := Eliminate]> ms).
Proof.
  intros Hok. pose proof (mo_nodup _ _ Hok) as [HiP HP]%NoDup_cons. split; [| done | | |].
  - rewrite length_insert. apply Hok.
  - intros j m' d' Hm' Hd'. apply list_lookup_insert_Some in Hm' as [(-> & <- & _)|[Hne Hm']]; [by left|].
    destruct (mo_shape _ _ Hok j m' d' Hm' Hd') as [[? ?]|[(? & ? & ?)|(? & ? & ? & ?)]]; set_solver.
  - intros k a b Ha Hb. rewrite list_lookup_insert_ne; [by apply (mo_chain _ _ Hok (S k))|].
    intros ->. apply HiP. by eapply list_elem_of_lookup_2.
  - intros j Hj. apply (mo_bound _ _ Hok). by right.
Qed.

(** The effect of one operation, after which the move [i] is done. *)
Lemma finish_values ms ρ ρ' i d :
  D !! i = Some d -> values_ok ms ρ -> ρ' d = T d ->
  (forall j m, ms !! j = Some m -> j <> i -> src_ m <> 0 -> ρ' (src_ m) = ρ (src_ m)) ->
  (forall l, l <> d -> (forall j m, ms !! j = Some m -> D !! j = Some l -> src_ m = 0) -> ρ' l = ρ l) ->
  values_ok (<[i := Eliminate]> ms) ρ'.
Proof.
  intros Hi [Hs Hd] HT Hsrc Hl. split.
  - intros j m' d' Hm' Hd' Hz. apply list_lookup_insert_Some in Hm' as [(_ & <- & _)|[Hne Hm']]; [done|].
    rewrite (Hsrc j) by done. by apply (Hs j).
  - intros l Hall. destruct (Z.eq_dec l d) as [->|Hne]; [done|].
    assert (forall j m, ms !! j = Some m -> D !! j = Some l -> src_ m = 0) as Hall'.
    { intros j m Hm Hj. apply (Hall j); [|done]. rewrite list_lookup_insert_ne; [done|]. intros ->. congruence. }
    rewrite Hl by done. by apply Hd.
Qed.

(** *** A swap

    [i] closes a cycle: its destination [d] is the source of a pending move, and
    its source [e] the destination of the innermost one, [b]. *)

Section Swap.
Context (P : list nat) (ms : list MoveOperands) (i b : nat) (d e : Z).
Context (Hi : D !! i = Some d) (Hb : D !! b = Some e) (HbP : P !! 0%nat = Some b).
Context (Hfree : forall j m, ms !! j = Some m -> j <> i -> j ∉ P -> src_ m <> d).

Lemma swap_dest : d <> 0 /\ e <> 0 /\ Location.IsConstant e = false.
Proof. split_and!; [apply HD0|apply HD0|apply HDc]; by eapply dest_in. Qed.

Lemma sw_nonzero x : x <> 0 -> sw e d x <> 0.
Proof. destruct swap_dest as (? & ? & _). unfold sw. repeat case_match; done. Qed.

Lemma retargeted_src m : src_ (retargeted e d m) <> 0 -> src_ m <> 0 /\ src_ (retargeted e d m) = sw e d (src_ m).
Proof. unfold retargeted. destruct (Z.eqb_spec (src_ m) 0); [done|]. done. Qed.

Lemma retargeted_live m : src_ m <> 0 -> retargeted e d m = mkMove (dest_ m) (sw e d (src_ m)).
Proof. intros Hs. unfold retargeted. by rewrite (proj2 (Z.eqb_neq _ _)). Qed.

(** Sources that are not exchanged. *)
Lemma sw_other x : x <> e -> x <> d -> sw e d x = x.
Proof. intros. unfold sw. by rewrite !(proj2 (Z.eqb_neq _ _)). Qed.

Lemma sw_source : sw e d e = d.
Proof. unfold sw. by rewrite Z.eqb_refl. Qed.

Lemma swap_moves : ms !! i = Some Eliminate -> i ∉ P -> moves_ok P ms -> moves_ok P (retargeted e d <$> ms).
Proof.
  intros Hm HiP Hok. destruct swap_dest as (Hd0 & He0 & _). split; [by rewrite length_fmap; apply Hok|apply Hok| | |apply Hok].
  - intros j m' d' Hm' Hd'. apply list_lookup_fmap_Some in Hm' as (m & -> & Hmj).
    destruct (mo_shape _ _ Hok j m d' Hmj Hd') as [[-> ?]|[(Hs & Hde & HjP)|(Hs & Hde & Hsd & HjP)]].
    + by left.
    + right; left. rewrite retargeted_live by done. cbn. split; [by apply sw_nonzero|done].
    + right; right. rewrite retargeted_live by done. cbn. split_and!; [by apply sw_nonzero|done| |done].
      assert (j <> i) as Hji by (intros ->; rewrite Hm in Hmj; injection Hmj as <-; by apply Hs).
      destruct (Z.eq_dec (src_ m) e) as [->|Hne]; [|by rewrite sw_other by by eauto].
      rewrite sw_source. intros ->. apply Hji. by eapply dest_inj.
  - intros k a c Ha Hc. rewrite list_lookup_fmap. pose proof (mo_chain _ _ Hok k a c Ha Hc) as Hch.
    destruct (ms !! a) as [m|] eqn:Em; [|done]. cbn in *. rewrite <- Hch. f_equal.
    assert (src_ m <> 0) as Hs.
    { destruct (dest_at _ _ _ _ Hok Em) as [da Hda]. eapply (pending_shape _ _ a); [done..|by eapply list_elem_of_lookup_2]. }
    rewrite retargeted_live by done. cbn. apply sw_other; intros E; rewrite E in Hch.
    + assert (c = b) as -> by (by eapply dest_inj).
      pose proof (NoDup_lookup _ _ _ _ (mo_nodup _ _ Hok) Hc HbP). done.
    + apply HiP. assert (c = i) as <- by (by eapply dest_inj). by eapply list_elem_of_lookup_2.
Qed.

Lemma swap_values ρ m :
  ms !! i = Some m -> src_ m = e -> b <> i -> (forall mb, ms !! b = Some mb -> src_ mb <> 0) ->
  length ms = length D -> values_ok ms ρ ->
  values_ok (retargeted e d <$> <[i := Eliminate]> ms) (exec_op ρ (mkOp kSwap (mkMove d e))).
Proof.
  intros Hm Em Hbi Hbs Hlen [Hs Hd]. destruct swap_dest as (Hd0 & He0 & _).
  assert (d <> e) as Hde by (intros ->; apply Hbi; by eapply dest_inj).
  assert (src_ m <> 0) as Hm0 by congruence. split.
  - intros j m' d' Hm' Hd' Hz. apply list_lookup_fmap_Some in Hm' as (m1 & -> & Hm1).
    apply retargeted_src in Hz as [Hz ->].
    apply list_lookup_insert_Some in Hm1 as [(_ & <- & _)|[Hne Hm1]]; [done|].
    rewrite <- (Hs j m1 d') by done. unfold exec_op, sw. cbn.
    destruct (Z.eqb_spec (src_ m1) e) as [->|]; [by rewrite Z.eqb_refl|].
    destruct (Z.eqb_spec (src_ m1) d) as [->|].
    + by rewrite (proj2 (Z.eqb_neq e d)), Z.eqb_refl by done.
    + by rewrite !(proj2 (Z.eqb_neq _ _)).
  - intros l Hall. unfold exec_op. cbn. destruct (Z.eqb_spec l d) as [->|Hld].
    { rewrite <- Em. by apply (Hs i). }
    destruct (Z.eqb_spec l e) as [->|Hle].
    + exfalso. assert (is_Some (ms !! b)) as [mb Hmb].
      { apply lookup_lt_is_Some. rewrite Hlen. by eapply lookup_lt_Some. }
      pose proof (Hbs mb Hmb) as Hnz. apply (sw_nonzero _ Hnz).
      specialize (Hall b (retargeted e d mb)). rewrite retargeted_live in Hall by done. apply Hall; [|done].
      rewrite list_lookup_fmap, list_lookup_insert_ne, Hmb by done. cbn. by rewrite retargeted_live.
    + apply Hd. intros j m1 Hm1 Hj. destruct (decide (src_ m1 = 0)) as [|Hn]; [done|].
      exfalso. apply (sw_nonzero _ Hn). specialize (Hall j (retargeted e d m1)).
      rewrite retargeted_live in Hall by done. apply Hall; [|done].
      rewrite list_lookup_fmap, list_lookup_insert_ne, Hm1; [cbn; by rewrite retargeted_live|].
      intros ->. congruence.
Qed.

Lemma swap_shrinks :
  i ∉ P -> shrinks P ms (retargeted e d <$> <[i := Eliminate]> ms).
Proof.
  intros HiP j m' Hm' HjP Hz. destruct swap_dest as (_ & _ & Hec).
  apply list_lookup_fmap_Some in Hm' as (m & -> & Hm). apply retargeted_src in Hz as [Hz ->].
  apply list_lookup_insert_Some in Hm as [(_ & <- & _)|[Hne Hm]]; [done|]. exists m. split_and!; [done..|].
  destruct (Z.eq_dec (src_ m) e) as [E|Hse].
  - right. rewrite E, sw_source. split; [done|]. intros p Hp Ep. apply HiP. by rewrite (dest_inj i p d).
  - left. apply sw_other; [done|by eauto].
Qed.

End Swap.

(** ** PerformMove *)

Lemma shrinks_todo P ms ms' :
  moves_ok P ms -> moves_ok P ms' -> shrinks P ms ms' -> (todo ms' <= todo ms)%nat.
Proof.
  intros Hok Hok' Hsh. apply todo_mono; [by rewrite (mo_length _ _ Hok), (mo_length _ _ Hok')|].
  intros j m' Hm' Hl'. destruct (dest_at _ _ _ _ Hok' Hm') as [d Hd].
  destruct (live_shape _ _ _ _ _ Hok' Hm' Hd Hl') as (Hs' & _ & _ & HjP).
  destruct (Hsh j m' Hm' HjP Hs') as (m & Hm & Hs & _). exists m. split; [done|].
  destruct (mo_shape _ _ Hok j m d Hm Hd) as [[-> _]|[(_ & _ & ?)|(_ & -> & _)]]; [done..|].
  apply HD0. by eapply dest_in.
Qed.

(** What a call of [PerformMove] with the moves [P] pending achieves. *)
Definition performs (P : list nat) (f : nat -> Resolver -> Res Resolver) (n : nat) : Prop :=
  forall i r m d, resolver_ok P r -> moves_ r !! i = Some m -> D !! i = Some d -> dest_ m <> 0 ->
  (forall b, P !! 0%nat = Some b -> D !! b = Some (src_ m)) -> (todo (moves_ r) <= n)%nat ->
  exists r', f i r = Ok r' /\ resolver_ok P r' /\ shrinks P (moves_ r) (moves_ r') /\
    moves_ r' !! i = Some Eliminate.

(** After the loop no move that is not pending blocks the destination. *)
Lemma perform_blocking_spec perform n index P destination :
  performs (index :: P) perform n -> D !! index = Some destination ->
  forall k i r, resolver_ok (index :: P) r -> (todo (moves_ r) <= n)%nat -> (k + i)%nat = length (moves_ r) ->
  (forall j m, moves_ r !! j = Some m -> (j < i)%nat -> j ∉ index :: P -> src_ m <> destination) ->
  exists r', perform_blocking perform destination k i r = Ok r' /\ resolver_ok (index :: P) r' /\
    shrinks (index :: P) (moves_ r) (moves_ r') /\
    (forall j m, moves_ r' !! j = Some m -> j ∉ index :: P -> src_ m <> destination).
Proof.
  intros Hperf Hidx. assert (destination <> 0) as Hd0 by (apply HD0; by eapply dest_in).
  induction k as [|k IH]; intros i r Hok Hn Hk Hfree.
  { exists r. split_and!; [done..|apply shrinks_refl|]. intros j m Hm. apply Hfree; [done|].
    apply lookup_lt_Some in Hm. lia. }
  pose proof Hok as [Hmo _]. destruct (lookup_lt_is_Some_2 (moves_ r) i) as [m Hm]; [lia|].
  destruct (dest_at _ _ _ _ Hmo Hm) as [d Hd].
  assert (consistent m) as Hc by (eapply Forall_lookup_1; [by eapply moves_consistent|done]).
  cbn [perform_blocking]. unfold move_at. rewrite Hm. cbn [rbind]. rewrite Blocks_ok by done. cbn [rbind].
  destruct (decide (src_ m = destination /\ dest_ m <> 0)) as [[Es Hl]|Hskip].
  - rewrite Es, (proj2 (Z.eqb_neq _ 0)), Z.eqb_refl by done. cbn [negb andb rbind].
    rewrite IsPending_ok by done. rewrite (proj2 (Z.eqb_neq _ 0)) by done. cbn [negb andb rbind].
    destruct (Hperf i r m d Hok Hm Hd Hl) as (r1 & -> & Hok1 & Hsh & He); [|done|].
    { intros b [= <-]. congruence. }
    cbn [rbind]. pose proof Hok1 as [Hmo1 _]. destruct (IH (S i) r1 Hok1) as (r' & E & Hok' & Hsh' & Hfree').
    + pose proof (shrinks_todo _ _ _ Hmo Hmo1 Hsh). lia.
    + rewrite (mo_length _ _ Hmo1), <- (mo_length _ _ Hmo). lia.
    + intros j m' Hm' Hj HjP Es'. destruct (decide (j = i)) as [->|Hne].
      { rewrite He in Hm'. injection Hm' as <-. by apply Hd0. }
      destruct (Hsh j m' Hm' HjP) as (m0 & Hm0 & _ & [E0|[_ Hp]]); [congruence|..].
      * apply (Hfree j m0 Hm0); [lia|done|congruence].
      * apply (Hp index); [by left|congruence].
    + exists r'. split_and!; [done..|by eapply shrinks_trans|done].
  - assert ((let* p := if negb (src_ m =? 0) && (src_ m =? destination) then IsPending m else Ok false in
             let* r := if negb (src_ m =? 0) && (src_ m =? destination) && negb p then perform i r else Ok r in
             perform_blocking perform destination k (S i) r) = perform_blocking perform destination k (S i) r) as ->.
    { destruct (Z.eqb_spec (src_ m) destination) as [Es|_]; [|by rewrite andb_false_r].
      rewrite Es, (proj2 (Z.eqb_neq _ 0)) by done. cbn [negb andb]. rewrite IsPending_ok by done.
      destruct (Z.eqb_spec (dest_ m) 0) as [|]; [|tauto]. by rewrite Es, (proj2 (Z.eqb_neq destination 0)). }
    apply IH; [done..|lia|]. intros j m' Hm' Hj HjP Es. destruct (decide (j = i)) as [->|Hne].
    + rewrite Hm in Hm'. injection Hm' as <-.
      destruct (mo_shape _ _ Hmo i m d Hm Hd) as [[-> _]|[(_ & _ & ?)|(_ & Ed & _)]].
      * by apply Hd0.
      * done.
      * apply Hskip. split; [done|]. rewrite Ed. apply HD0. by eapply dest_in.
    + apply (Hfree j m'); (done || lia).
Qed.

Lemma drop_shrinks P ms i : shrinks P ms (<[i := Eliminate]> ms).
Proof.
  intros j m' Hm' _ Hz. apply list_lookup_insert_Some in Hm' as [(_ & <- & _)|[_ Hm']]; [done|]. exists m'. auto.
Qed.

(** The end of [PerformMove], once no move that is not pending blocks. *)
Definition conclude (index : nat) (destination : Z) (r : Resolver) (m : MoveOperands) : Res Resolver :=
  if Location.Equals (src_ m) destination then Ok (set_move r index Eliminate)
  else
    let* b := find_blocking destination (moves_ r) in
    if b then AddSwapToSchedule index r else AddMoveToSchedule index r.

Section Conclude.
Context (P : list nat) (index : nat) (r : Resolver) (m : MoveOperands) (d : Z).
Context (Hok : resolver_ok (index :: P) r) (Hm : moves_ r !! index = Some m) (Hd : D !! index = Some d).
Context (Hfree : forall j m, moves_ r !! j = Some m -> j ∉ index :: P -> src_ m <> d).

Let m3 := mkMove d (src_ m).
Let r3 := set_move r index m3.

Lemma conclude_src : src_ m <> 0.
Proof. eapply (pending_shape (index :: P)); [apply Hok|done..|by left]. Qed.

Lemma conclude_at : move_at r3 index = Ok m3.
Proof. unfold move_at, r3. cbn. by rewrite list_lookup_insert_eq by (by eapply lookup_lt_Some). Qed.

Lemma conclude_drop : set_move r3 index Eliminate = set_move r index Eliminate.
Proof. unfold r3, set_move. cbn. by rewrite list_insert_insert_eq. Qed.

Lemma concluded ms ops :
  moves_ok P ms -> values_ok ms (run (scheduled_ops_ r ++ ops) ρ0) -> shrinks P (moves_ r) ms ->
  ms !! index = Some Eliminate ->
  exists r', Ok (mkResolver ms (scheduled_ops_ r ++ ops)) = Ok r' /\ resolver_ok P r' /\
    shrinks P (moves_ r) (moves_ r') /\ moves_ r' !! index = Some Eliminate.
Proof. intros. eexists. split; [reflexivity|]. done. Qed.

Lemma conclude_blocked :
  src_ m <> d ->
  exists b, find_blocking d (moves_ r3) = Ok b /\
    if b then exists j, j ∈ P else forall j m', moves_ r !! j = Some m' -> src_ m' <> d.
Proof.
  intros Hne. pose proof (mo_nodup _ _ (proj1 Hok)) as [HiP _]%NoDup_cons.
  assert (forall m', In m' (moves_ r3) -> src_ m' = d -> exists j, j ∈ P /\ moves_ r !! j = Some m') as Hpend.
  { intros m' Hin Es. apply list_elem_of_In, list_elem_of_lookup in Hin as [j Hj].
    apply list_lookup_insert_Some in Hj as [(_ & <- & _)|[Hji Hj]]; [done|]. exists j. split; [|done].
    destruct (decide (j ∈ P)) as [|HjP]; [done|]. exfalso. apply (Hfree j m' Hj); [set_solver|done]. }
  destruct (find_blocking_ok d (moves_ r3)) as (b & E & Hb).
  - apply Forall_insert; [by eapply moves_consistent, Hok|]. intros E. by apply conclude_src in E.
  - apply HD0. by eapply dest_in.
  - intros m' Hin Es. destruct (Hpend m' Hin Es) as (j & HjP & Hj).
    destruct (dest_at _ _ _ _ (proj1 Hok) Hj) as [dj Hdj].
    eapply (pending_shape _ _ j); [apply Hok|done..|set_solver].
  - exists b. split; [done|]. destruct b.
    + destruct (proj1 Hb eq_refl) as (m' & Hin & Es). destruct (Hpend m' Hin Es) as (j & HjP & _). by exists j.
    + intros j m' Hj Es. enough (false = true) by done. apply Hb.
      destruct (decide (j = index)) as [->|Hji]; [congruence|]. exists m'. split; [|done].
      apply list_elem_of_In, (list_elem_of_lookup_2 _ j). unfold r3. cbn. by rewrite list_lookup_insert_ne.
Qed.

Lemma conclude_spec :
  exists r', conclude index d r3 m3 = Ok r' /\ resolver_ok P r' /\
    shrinks P (moves_ r) (moves_ r') /\ moves_ r' !! index = Some Eliminate.
Proof.
  pose proof Hok as [Hmo Hva]. pose proof (lookup_lt_Some _ _ _ Hm) as Hlt. pose proof conclude_src as Hs0.
  assert (<[index := Eliminate]> (moves_ r) !! index = Some Eliminate) as He by by apply list_lookup_insert_eq.
  pose proof (vo_source _ _ Hva index m d Hm Hd Hs0) as HT.
  unfold conclude. destruct (Z.eqb_spec (src_ m) d) as [Es|Hne].
  - unfold m3, Location.Equals. cbn [src_]. rewrite Es, Z.eqb_refl, conclude_drop. unfold set_move.
    rewrite <- (app_nil_r (scheduled_ops_ r)). apply concluded; [by apply finish_moves| |apply drop_shrinks|done].
    rewrite app_nil_r. eapply finish_values; [done..|congruence|done|done].
  - unfold m3, Location.Equals. cbn [src_]. rewrite (proj2 (Z.eqb_neq _ _)) by done. fold m3.
    destruct (conclude_blocked Hne) as (b & -> & Hb). cbn [rbind]. destruct b.
    + destruct Hb as [j HjP]. destruct (P !! 0%nat) as [b|] eqn:EP; [|by destruct P; [apply not_elem_of_nil in HjP|]].
      pose proof (mo_chain _ _ Hmo 0 index b eq_refl EP) as Hch. rewrite Hm in Hch. cbn in Hch. symmetry in Hch.
      pose proof (mo_nodup _ _ Hmo) as [HiP _]%NoDup_cons.
      assert (b ∈ P) as HbP by by eapply list_elem_of_lookup_2.
      assert (b <> index) as Hbi by (intros ->; done).
      assert (forall j m, moves_ r !! j = Some m -> j <> index -> j ∉ P -> src_ m <> d) as Hfree'.
      { intros j' m' Hm' Hji HjP'. apply (Hfree j'); set_solver. }
      unfold AddSwapToSchedule. rewrite conclude_at. cbn [rbind]. unfold add_op, set_move. cbn [moves_ scheduled_ops_].
      unfold r3, set_move. cbn [moves_ scheduled_ops_]. rewrite list_insert_insert_eq.
      rewrite retarget_all_ok by (apply Forall_insert; [by eapply moves_consistent|done]). cbn [rbind].
      unfold m3 at 1 2. cbn [src_ dest_]. apply concluded.
      * eapply (swap_moves P _ index b); [done..| |done|done|by apply finish_moves].
        intros j' m' Hm' Hji HjP'. rewrite list_lookup_insert_ne in Hm' by done. by apply (Hfree' j').
      * rewrite run_app. eapply (swap_values P _ index b); [done..| |by apply Hmo|done].
        intros mb Hmb. destruct (dest_at _ _ _ _ Hmo Hmb) as [db Hdb].
        eapply (pending_shape (index :: P) _ b); [done..|by right].
      * by eapply (swap_shrinks P _ index b).
      * by rewrite list_lookup_fmap, He.
    + unfold AddMoveToSchedule. rewrite conclude_at. cbn [rbind]. unfold add_op, set_move, r3, set_move.
      cbn [moves_ scheduled_ops_]. rewrite list_insert_insert_eq. apply concluded;
        [by apply finish_moves| |apply drop_shrinks|done].
      rewrite run_app. eapply finish_values; [done..| | |].
      * cbn. by rewrite Z.eqb_refl.
      * intros j m' Hm' _ _. cbn. by rewrite (proj2 (Z.eqb_neq _ _)) by by eapply Hb.
      * intros l Hl _. cbn. by rewrite (proj2 (Z.eqb_neq _ _)).
Qed.

End Conclude.

Lemma PerformMove_spec fuel : forall P, performs P (PerformMove fuel) fuel.
Proof.
  induction fuel as [|fuel IH]; intros P index r m d [Hmo Hva] Hm Hd Hl Htop Hn.
  { pose proof (todo_mark (moves_ r) index m 0 Hm Hl). lia. }
  destruct (live_shape _ _ _ _ _ Hmo Hm Hd Hl) as (Hs & Ed & Hsd & HiP).
  assert (consistent m) as Hc by (by intros E).
  cbn [PerformMove]. unfold move_at at 1. rewrite Hm. cbn [rbind]. rewrite IsPending_ok by done. cbn [rbind].
  rewrite (proj2 (Z.eqb_neq (dest_ m) 0)) by done. cbn [andb negb]. rewrite ASSERT_true by done. cbn [rbind].
  rewrite IsRedundant_ok by done. rewrite !(proj2 (Z.eqb_neq _ _)) by congruence. cbn [orb negb rbind].
  rewrite ASSERT_true by done. cbn [rbind]. unfold Location.IsInvalid.
  rewrite (proj2 (Z.eqb_neq (src_ m) _)) by done. rewrite ASSERT_true by done. cbn [rbind].
  unfold MarkPending. rewrite IsPending_ok by done. cbn [rbind]. rewrite (proj2 (Z.eqb_neq (dest_ m) 0)) by done.
  rewrite ASSERT_true by done. cbn [rbind]. rewrite Ed.
  set (r1 := set_move r index (mkMove Location.NoLocation (src_ m))).
  assert (resolver_ok (index :: P) r1) as Hok1 by (split; [by eapply mark_moves|by apply mark_values]).
  destruct (perform_blocking_spec (PerformMove fuel) fuel index P d (IH _) Hd (length (moves_ r1)) 0 r1)
    as (r2 & -> & Hok2 & Hsh & Hfree); [done| |lia|intros; lia|].
  { pose proof (todo_mark (moves_ r) index m (src_ m) Hm Hl).
    change (todo (<[index := mkMove 0%Z (src_ m)]> (moves_ r)) <= fuel)%nat. lia. }
  cbn [rbind]. pose proof Hok2 as [Hmo2 _]. destruct (move_of _ _ _ _ Hmo2 Hd) as [m2 Hm2].
  unfold move_at. rewrite Hm2. cbn [rbind]. destruct (pending_shape _ _ _ _ _ Hmo2 Hm2 Hd) as [Hs2 Hd2]; [by left|].
  unfold ClearPending. rewrite IsPending_ok by (by intros E).
  rewrite Hd2, (proj2 (Z.eqb_neq (src_ m2) 0)) by done. cbn [rbind]. rewrite ASSERT_true by done. cbn [rbind].
  destruct (conclude_spec P index r2 m2 d Hok2 Hm2 Hd Hfree) as (r' & E & Hok' & Hsh' & He).
  exists r'. split; [exact E|]. split_and!; [done| |done]. intros j m' Hm' HjP Hz.
  assert (j <> index) as Hji by (intros ->; rewrite He in Hm'; injection Hm' as <-; by apply Hz).
  destruct (Hsh' j m' Hm' HjP Hz) as (mj & Hmj & Hzj & Hcj).
  destruct (Hsh j mj Hmj) as (mi & Hmi & Hzi & Hci); [set_solver|done|].
  exists mi. unfold r1 in Hmi. cbn in Hmi. rewrite list_lookup_insert_ne in Hmi by done. split_and!; [done..|].
  destruct Hci as [Ei|[? Hpi]], Hcj as [Ej|[? Hpj]]; rewrite ?Ei, ?Ej in *; auto. right. split; [done|].
  intros p Hp. apply Hpi. by right.
Qed.

(** ** Resolve *)

(** The moves whose sources are constants are left. *)
Lemma perform_all_spec fuel : forall k i r,
  resolver_ok [] r -> (todo (moves_ r) <= fuel)%nat -> (k + i)%nat = length (moves_ r) ->
  (forall j m, moves_ r !! j = Some m -> (j < i)%nat -> src_ m = 0 \/ Location.IsConstant (src_ m) = true) ->
  exists r', perform_all fuel k i r = Ok r' /\ resolver_ok [] r' /\
    (forall j m, moves_ r' !! j = Some m -> src_ m = 0 \/ Location.IsConstant (src_ m) = true).
Proof.
  induction k as [|k IH]; intros i r Hok Hn Hk Hdone.
  { exists r. split_and!; [done..|]. intros j m Hm. apply (Hdone j m Hm). apply lookup_lt_Some in Hm. lia. }
  pose proof Hok as [Hmo _]. destruct (lookup_lt_is_Some_2 (moves_ r) i) as [m Hm]; [lia|].
  destruct (dest_at _ _ _ _ Hmo Hm) as [d Hd]. cbn [perform_all]. unfold move_at. rewrite Hm. cbn [rbind].
  rewrite IsEliminated_ok by (eapply Forall_lookup_1; [by eapply moves_consistent|done]). cbn [rbind].
  destruct (negb (src_ m =? 0) && negb (Location.IsConstant (src_ m))) eqn:Ec.
  - apply andb_true_iff in Ec as [Hs%negb_true_iff%Z.eqb_neq _].
    assert (dest_ m <> 0) as Hl.
    { destruct (mo_shape _ _ Hmo i m d Hm Hd) as [[-> _]|[(_ & _ & []%not_elem_of_nil)|(_ & -> & _)]]; [done|].
      apply HD0. by eapply dest_in. }
    destruct (PerformMove_spec fuel [] i r m d Hok Hm Hd Hl) as (r1 & -> & Hok1 & Hsh & He); [done..|].
    cbn [rbind]. pose proof Hok1 as [Hmo1 _]. apply IH; [done|..].
    + pose proof (shrinks_todo _ _ _ Hmo Hmo1 Hsh). lia.
    + rewrite (mo_length _ _ Hmo1), <- (mo_length _ _ Hmo). lia.
    + intros j m' Hm' Hj. destruct (decide (src_ m' = 0)) as [|Hz]; [by left|]. right.
      destruct (decide (j = i)) as [->|Hne]; [rewrite He in Hm'; by injection Hm' as <-|].
      destruct (Hsh j m' Hm' ltac:(apply not_elem_of_nil) Hz) as (m0 & Hm0 & Hz0 & Hcase).
      destruct (Hdone j m0 Hm0) as [|Hcst]; [lia|done|]. destruct Hcase as [->|[? _]]; [done|congruence].
  - cbn [rbind]. apply IH; [done..|lia|]. intros j m' Hm' Hj. destruct (decide (j = i)) as [->|Hne].
    + rewrite Hm in Hm'. injection Hm' as <-. apply andb_false_iff in Ec as [E|E]; apply negb_false_iff in E;
        [left; by apply Z.eqb_eq|by right].
    + apply (Hdone j m' Hm'). lia.
Qed.

End Invariant.

(** The moves from constants do not disturb each other. *)
Lemma schedule_constants_spec {V} (T ρ0 : Z -> V) ms : forall D ops,
  Forall consistent ms -> length ms = length D -> NoDup D ->
  (forall d, In d D -> Location.IsConstant d = false) ->
  (forall i m, ms !! i = Some m -> src_ m = 0 \/ Location.IsConstant (src_ m) = true) ->
  (forall i m d, ms !! i = Some m -> D !! i = Some d -> src_ m <> 0 -> dest_ m = d) ->
  values_ok D T ms (run ops ρ0) ->
  exists ops', schedule_constants ms ops = Ok ops' /\ forall l, run ops' ρ0 l = T l.
Proof.
  induction ms as [|m ms IH]; intros [|d D] ops Hc Hlen HD HDc Hcst Hdest Hv; try done.
  { exists ops. split; [done|]. intros l. apply (vo_done _ _ _ _ Hv). done. }
  apply Forall_cons in Hc as [Hcm Hcms]. apply NoDup_cons in HD as [HdD HD]. cbn [schedule_constants].
  rewrite IsEliminated_ok by done. cbn [rbind].
  assert (forall i m', ms !! i = Some m' -> src_ m' = 0 \/ Location.IsConstant (src_ m') = true) as Hcst'
    by (intros i; apply (Hcst (S i))).
  assert (forall d', In d' D -> Location.IsConstant d' = false) as HDc' by (intros d' ?; apply HDc; by right).
  assert (forall i m' d', ms !! i = Some m' -> D !! i = Some d' -> src_ m' <> 0 -> dest_ m' = d') as Hdest'
    by (intros i; apply (Hdest (S i))).
  destruct (Z.eqb_spec (src_ m) 0) as [Es|Hs].
  - apply (IH D); [done|by injection Hlen|done..|]. split.
    + intros i. apply (vo_source _ _ _ _ Hv (S i)).
    + intros l Hl. apply (vo_done _ _ _ _ Hv). intros [|i] m' Hm' Hd'; [cbn in Hm'; congruence|by apply (Hl i)].
  - destruct (Hcst 0%nat m eq_refl) as [|Hk]; [done|]. rewrite ASSERT_true by done. cbn [rbind].
    pose proof (Hdest 0%nat m d eq_refl eq_refl Hs) as Ed.
    apply (IH D); [done|by injection Hlen|done..|]. rewrite run_app. cbn. unfold exec_op. cbn. rewrite Ed. split.
    + intros i m' d' Hm' Hd' Hz. rewrite (proj2 (Z.eqb_neq _ _)); [by apply (vo_source _ _ _ _ Hv (S i))|].
      intros E. destruct (Hcst' i m' Hm') as [|Hk']; [done|]. rewrite E, HDc in Hk' by (by left). done.
    + intros l Hl. destruct (Z.eqb_spec l d) as [->|Hne]; [by apply (vo_source _ _ _ _ Hv 0%nat)|].
      apply (vo_done _ _ _ _ Hv). intros [|i] m' Hm' Hd'; [cbn in Hd'; congruence|by apply (Hl i)].
Qed.

(** Operations without effect may be left out. *)
Lemma run_schedule {V} ops (ρ : Z -> V) : run (MoveSchedule_From ops) ρ = run ops ρ.
Proof.
  revert ρ. unfold MoveSchedule_From. induction ops as [|op ops IH]; intros ρ; [done|]. rewrite filter_cons.
  unfold is_nop in *. destruct (op_kind op) eqn:E; cbn; [|apply IH..].
  rewrite IH. unfold exec_op. by rewrite E.
Qed.

(** *** The moves that have something to do *)

Definition needed (m : MoveOperands) : bool :=
  negb ((src_ m =? 0) || (dest_ m =? 0) || (src_ m =? dest_ m)).

Lemma needed_spec m : needed m = true <-> src_ m <> 0 /\ dest_ m <> 0 /\ src_ m <> dest_ m.
Proof.
  unfold needed. rewrite negb_true_iff, !orb_false_iff, !Z.eqb_neq. tauto.
Qed.

Lemma append_moves_spec pm : forall ms,
  Forall consistent pm -> append_moves pm ms = Ok (ms ++ base.filter (fun m => needed m = true) pm).
Proof.
  induction pm as [|m pm IH]; intros ms Hc; [by rewrite app_nil_r|]. apply Forall_cons in Hc as [Hm Hc]. cbn [append_moves].
  rewrite IsRedundant_ok by done. cbn [rbind]. rewrite IH by done. rewrite filter_cons.
  assert (needed m = negb ((src_ m =? 0) || (dest_ m =? 0) || (src_ m =? dest_ m))) as -> by done.
  destruct ((src_ m =? 0) || (dest_ m =? 0) || (src_ m =? dest_ m)); cbn [negb].
  - by rewrite decide_False.
  - by rewrite decide_True, <- app_assoc.
Qed.

(** What the compiler guarantees of a parallel move: no location receives two
    values, and none of the destinations is a constant. *)
Record parallel_move_ok (pm : list MoveOperands) : Prop := {
  pm_consistent : Forall consistent pm;
  pm_distinct : forall i j m m', pm !! i = Some m -> pm !! j = Some m' ->
    dest_ m <> 0 -> dest_ m = dest_ m' -> i = j;
  pm_writable : forall m, In m pm -> Location.IsConstant (dest_ m) = false
}.

Section Resolve.
Context (pm : list MoveOperands) (Hpm : parallel_move_ok pm).
Context {V : Type} (ρ : Z -> V).

Let ms := base.filter (fun m => needed m = true) pm.

Lemma needed_in m : In m ms <-> In m pm /\ needed m = true.
Proof. unfold ms. rewrite <- !list_elem_of_In, list_elem_of_filter. tauto. Qed.

Lemma same_dest m m' : In m pm -> In m' pm -> dest_ m <> 0 -> dest_ m = dest_ m' -> m = m'.
Proof.
  intros Hm Hm' Hz E. apply list_elem_of_In, list_elem_of_lookup in Hm as [i Hi].
  apply list_elem_of_In, list_elem_of_lookup in Hm' as [j Hj].
  pose proof (pm_distinct _ Hpm i j m m' Hi Hj Hz E) as ->. congruence.
Qed.

Lemma needed_distinct : NoDup (dest_ <$> ms).
Proof.
  unfold ms. pose proof (pm_distinct _ Hpm) as Hd. clear Hpm ρ ms. induction pm as [|m l IH]; [constructor|].
  assert (NoDup (dest_ <$> base.filter (fun m => needed m = true) l)) as Hl.
  { apply IH. intros i j m1 m2 H1 H2 Hz E. by injection (Hd (S i) (S j) m1 m2 H1 H2 Hz E). }
  rewrite filter_cons. case_decide as Hn; [|done]. cbn. apply NoDup_cons. split; [|done].
  intros Hin. apply list_elem_of_fmap in Hin as (m' & E & Hin). apply list_elem_of_filter in Hin as [_ Hin].
  apply list_elem_of_lookup in Hin as [j Hj]. apply needed_spec in Hn.
  by specialize (Hd 0%nat (S j) m m' eq_refl Hj (proj1 (proj2 Hn)) E).
Qed.

(** The store to reach. *)
Definition target (l : Z) : V :=
  match list_find (fun m => dest_ m = l) ms with Some (_, m) => ρ (src_ m) | None => ρ l end.

Lemma target_dest m : In m ms -> target (dest_ m) = ρ (src_ m).
Proof.
  intros Hm. unfold target. destruct (list_find _ ms) as [[j m']|] eqn:E.
  - apply list_find_Some in E as (Hj & Ed & _). f_equal. f_equal. apply needed_in in Hm as [Hm Hn].
    apply needed_spec in Hn. symmetry. apply same_dest; [done| |tauto|done].
    apply needed_in, list_elem_of_In. by eapply list_elem_of_lookup_2.
  - apply list_find_None in E. rewrite Forall_forall in E. by apply list_elem_of_In, E in Hm.
Qed.

Lemma target_other l : (forall m, In m ms -> dest_ m <> l) -> target l = ρ l.
Proof.
  intros Hl. unfold target. destruct (list_find _ ms) as [[j m']|] eqn:E; [|done].
  apply list_find_Some in E as (Hj & Ed & _). exfalso. apply (Hl m'); [|done].
  apply list_elem_of_In. by eapply list_elem_of_lookup_2.
Qed.

Lemma target_parallel ρ' : (forall l, ρ' l = target l) -> parallel pm ρ ρ'.
Proof.
  intros HT. split.
  - intros m Hm Hz. rewrite HT. destruct (needed m) eqn:Hn; [by apply target_dest, needed_in|].
    pose proof (proj1 (Forall_forall _ _) (pm_consistent _ Hpm) m (proj2 (list_elem_of_In _ _) Hm)) as Hc.
    assert (src_ m = dest_ m) as Es.
    { destruct (Z.eq_dec (src_ m) (dest_ m)) as [|Hne]; [done|]. exfalso. enough (needed m = true) by congruence.
      apply needed_spec. split_and!; [|done..]. intros E. by apply Hz, Hc. }
    rewrite Es. apply target_other. intros m' [Hm' Hn']%needed_in E.
    rewrite (same_dest m m') in Hn by (done || congruence). congruence.
  - intros l Hl. rewrite HT. apply target_other. intros m [Hm Hn]%needed_in E.
    apply needed_spec in Hn as (_ & Hz & _). apply Hz. rewrite E. by apply (Hl m).
Qed.

Lemma initial_ok : resolver_ok (dest_ <$> ms) ρ target [] (mkResolver ms []).
Proof.
  assert (forall i m d, ms !! i = Some m -> (dest_ <$> ms) !! i = Some d -> In m ms /\ dest_ m = d) as Hat.
  { intros i m d Hm Hd. rewrite list_lookup_fmap, Hm in Hd. injection Hd as <-. split; [|done].
    apply list_elem_of_In. by eapply list_elem_of_lookup_2. }
  split.
  - split; cbn [moves_].
    + by rewrite length_fmap.
    + constructor.
    + intros i m d Hm Hd. destruct (Hat i m d Hm Hd) as [[_ Hn]%needed_in <-]. right; right.
      apply needed_spec in Hn. split_and!; [tauto..|]. apply not_elem_of_nil.
    + done.
    + intros i []%not_elem_of_nil.
  - split; cbn.
    + intros i m d Hm Hd _. destruct (Hat i m d Hm Hd) as [Hin <-]. by rewrite target_dest.
    + intros l Hl. symmetry. apply target_other. intros m Hin <-.
      pose proof Hin as [_ Hn]%needed_in. apply needed_spec in Hn as [Hz _]. apply Hz.
      apply list_elem_of_In, list_elem_of_lookup in Hin as [i Hi]. apply (Hl i m Hi).
      by rewrite list_lookup_fmap, Hi.
Qed.

End Resolve.

(** No assertion fails, and the schedule does what the moves do at once. *)
Lemma Resolve_correct pm :
  parallel_move_ok pm ->
  exists ops, Resolve pm new_Resolver = Ok (ops, new_Resolver) /\
    forall (V : Type) (ρ : Z -> V), parallel pm ρ (run ops ρ).
Proof.
  intros Hpm. set (ms := base.filter (fun m => needed m = true) pm).
  unfold Resolve. rewrite ASSERT_true by done. cbn [rbind]. unfold BuildInitialMoveList.
  rewrite append_moves_spec by apply Hpm. cbn [rbind moves_ scheduled_ops_ new_Resolver app]. fold ms.
  assert (forall d, In d (dest_ <$> ms) -> d <> 0 /\ Location.IsConstant d = false) as HD.
  { intros d Hd. apply list_elem_of_In, list_elem_of_fmap in Hd as (m & -> & Hm).
    apply list_elem_of_In, needed_in in Hm as [Hm Hn]. apply needed_spec in Hn.
    split; [tauto|]. by apply (pm_writable _ Hpm). }
  assert (forall (V : Type) (ρ : Z -> V), exists ops,
    (let* r := perform_all (S (length ms)) (length ms) 0 (mkResolver ms []) in
     let* ops := schedule_constants (moves_ r) (scheduled_ops_ r) in Ok (MoveSchedule_From ops, new_Resolver)) =
    Ok (ops, new_Resolver) /\ parallel pm ρ (run ops ρ)) as Hrun.
  { intros V ρ. pose proof (needed_distinct pm Hpm) as Hnd. fold ms in Hnd.
    destruct (perform_all_spec (dest_ <$> ms) Hnd (fun d Hd => proj1 (HD d Hd)) (fun d Hd => proj2 (HD d Hd))
      ρ (target pm ρ) (S (length ms)) (length ms) 0 (mkResolver ms [])) as (r & -> & [Hmo Hva] & Hcst).
    - by apply initial_ok.
    - unfold todo. pose proof (length_filter (fun m => dest_ m <> 0) ms). cbn. lia.
    - cbn. lia.
    - intros; lia.
    - cbn [rbind]. destruct (schedule_constants_spec (target pm ρ) ρ (moves_ r) (dest_ <$> ms) (scheduled_ops_ r))
        as (ops & -> & Hops); [by eapply moves_consistent|apply Hmo|done|apply HD|done| |done|].
      + intros i m d Hm Hd Hs. destruct (mo_shape _ _ _ Hmo i m d Hm Hd) as [[-> _]|[(_ & _ & []%not_elem_of_nil)|?]];
          [done|tauto].
      + cbn [rbind]. eexists. split; [done|]. rewrite run_schedule. by apply target_parallel. }
  destruct (Hrun unit (fun _ => tt)) as (ops & E & _). exists ops. split; [exact E|]. intros V ρ.
  destruct (Hrun V ρ) as (ops' & E' & Hp). congruence.
Qed.

(** C10. [ParallelMoveResolver::Resolve] on a parallel move in which no location
    is the destination of two moves and no destination is a constant: it
    returns, no assertion fails, and running the moves and swaps it schedules,
    one after the other, gives every destination the value that its source had
    at the start and leaves every other location as it was, whatever chains and
    cycles the moves form.  The recursion of [PerformMove] is never deeper than
    the number of moves, and the resolver is empty again. *)
Theorem Resolve_spec pm :
  parallel_move_ok pm ->
  exists ops, Resolve pm new_Resolver = Ok (ops, new_Resolver) /\
    forall (V : Type) (ρ : Z -> V), parallel pm ρ (run ops ρ).
Proof. apply Resolve_correct. Qed.
End Resolver.

(** ** Scratch registers *)

Section Dead.
Context {V : Type} (loc : Z).
Implicit Types ρ : Z -> V.

Definition clobber (v : V) ρ : Z -> V := fun l => if l =? loc then v else ρ l.

(** Stores that agree elsewhere. *)
Definition agree ρ ρ' : Prop := forall l, l <> loc -> ρ l = ρ' l.

Definition reads (op : Op) : bool :=
  Location.Equals (src_ (operands op)) loc || (is_kind kSwap op && Location.Equals (dest_ (operands op)) loc).

Definition overwrites (op : Op) : bool := is_kind kMove op && Location.Equals (dest_ (operands op)) loc.

Lemma exec_agree op ρ ρ' : reads op = false -> agree ρ ρ' -> agree (exec_op ρ op) (exec_op ρ' op).
Proof.
  unfold reads, Location.Equals. intros [Hs Hd]%orb_false_iff Ha l Hl. apply Z.eqb_neq in Hs. unfold exec_op, is_kind in *.
  destruct (op_kind op); cbn in Hd; [by apply Ha|..].
  - destruct (Z.eqb_spec l (dest_ (operands op))); by apply Ha.
  - apply Z.eqb_neq in Hd. destruct (Z.eqb_spec l (dest_ (operands op))); [by apply Ha|].
    destruct (Z.eqb_spec l (src_ (operands op))); by apply Ha.
Qed.

Lemma exec_overwrites op ρ ρ' l :
  reads op = false -> overwrites op = true -> agree ρ ρ' -> exec_op ρ op l = exec_op ρ' op l.
Proof.
  unfold reads, overwrites, Location.Equals. intros [Hs _]%orb_false_iff [Hk Hd]%andb_true_iff Ha.
  apply Z.eqb_neq in Hs. apply Z.eqb_eq in Hd. unfold exec_op. unfold is_kind in Hk.
  destruct (op_kind op); try done. rewrite Hd. destruct (Z.eqb_spec l loc); by apply Ha.
Qed.

Lemma run_ext ops : forall ρ ρ', (forall l, ρ l = ρ' l) -> forall l, run ops ρ l = run ops ρ' l.
Proof.
  induction ops as [|op ops IH]; intros ρ ρ' E l; [apply E|]. cbn. apply IH. clear l. intros l.
  unfold exec_op. destruct (op_kind op); rewrite ?E; done.
Qed.

Lemma run_dead ops : forall ρ ρ',
  existsb reads ops = false -> existsb overwrites ops = true -> agree ρ ρ' ->
  forall l, run ops ρ l = run ops ρ' l.
Proof.
  induction ops as [|op ops IH]; intros ρ ρ' Hr Hw Ha l; [done|].
  cbn in Hr, Hw. apply orb_false_iff in Hr as [Hr Hrs]. cbn. destruct (overwrites op) eqn:Eo.
  - apply run_ext. intros l'. by apply exec_overwrites.
  - apply IH; [done..|by apply exec_agree].
Qed.

End Dead.

Section Scratch.
Context `{Target}.

(** The register may change before and after the current operation. *)
Lemma scratch_dead schedule k op loc {V} (ρ : Z -> V) v v' l :
  schedule !! k = Some op -> IsScratchLocation schedule k loc = true ->
  run (drop (S k) schedule) (clobber loc v' (exec_op (clobber loc v ρ) op)) l = run (drop k schedule) ρ l.
Proof.
  intros Hk Hs. unfold IsScratchLocation in Hs. rewrite (drop_S _ _ _ Hk) in *.
  change (existsb _ (op :: drop (S k) schedule)) with (existsb (reads loc) (op :: drop (S k) schedule)) in Hs.
  destruct (existsb (reads loc) (op :: drop (S k) schedule)) eqn:Er; [done|].
  cbn in Er. apply orb_false_iff in Er as [Er Ers]. cbn [run foldl].
  apply (run_dead loc); [done|exact Hs|]. intros l' Hl'. unfold clobber at 1.
  rewrite (proj2 (Z.eqb_neq _ _)) by done. apply (exec_agree loc); [done| |done].
  intros l2 Hl2. unfold clobber. by rewrite (proj2 (Z.eqb_neq _ _)).
Qed.

Definition machine_kind (kind : Z) : Prop := kind = Location.kRegister \/ kind = Location.kFpuRegister.

Lemma register_location kind reg :
  machine_kind kind -> inU Location.kPayloadBitsSize reg ->
  exists loc, Location.MachineRegisterLocation kind reg = Ok loc.
Proof.
  intros Hk Hr. unfold Location.MachineRegisterLocation. destruct Hk as [-> | ->]; cbn [Z.eqb].
  - destruct (mkLocation_spec Location.kRegister reg) as (loc & E & _); [done..|]. by exists loc.
  - destruct (mkLocation_spec Location.kFpuRegister reg) as (loc & E & _); [done..|]. exists loc.
    change (Location.kFpuRegister =? Location.kRegister) with false. cbv iota. by rewrite ASSERT_true.
Qed.

(** What a register found without spilling satisfies. *)
Definition is_scratch (schedule : list Op) (k : nat) (kind blocked_mask reg : Z) : Prop :=
  is_blocked blocked_mask reg = false /\
  exists loc, Location.MachineRegisterLocation kind reg = Ok loc /\ IsScratchLocation schedule k loc = true.

Lemma first_scratch_spec schedule k kind mask n : forall reg,
  machine_kind kind -> 0 <= reg -> reg + Z.of_nat n <= 2 ^ Location.kPayloadBitsSize ->
  exists r, first_scratch schedule k kind mask n reg = Ok r /\
    (r = -1 \/ reg <= r < reg + Z.of_nat n /\ is_scratch schedule k kind mask r).
Proof.
  induction n as [|n IH]; intros reg Hk Hr Hn; [exists (-1); auto|]. cbn [first_scratch].
  destruct (register_location kind reg Hk) as [loc El]; [unfold inU; lia|]. rewrite El.
  destruct (is_blocked mask reg) eqn:Eb; cbn [rbind]; [|destruct (IsScratchLocation schedule k loc) eqn:Es].
  2: { exists reg. split; [done|]. right. split; [lia|]. split; [done|]. eauto. }
  all: destruct (IH (reg + 1) Hk) as (r & E & Hcase); [lia..|]; exists r; split; [done|];
    destruct Hcase as [->|[? ?]]; [by left|right; split; [lia|done]].
Qed.

Lemma first_unblocked_spec mask n : forall reg,
  0 <= reg ->
  let r := first_unblocked mask n reg in
  (r = -1 /\ forall q, reg <= q < reg + Z.of_nat n -> is_blocked mask q = true) \/
  (reg <= r < reg + Z.of_nat n /\ is_blocked mask r = false).
Proof.
  induction n as [|n IH]; intros reg Hr; cbn [first_unblocked].
  { left. split; [done|]. intros; lia. }
  destruct (is_blocked mask reg) eqn:Eb; [|right; split; [lia|done]].
  destruct (IH (reg + 1)) as [[E Hb]|[? ?]]; [lia| |right; split; [lia|done]].
  left. split; [done|]. intros q Hq. destruct (Z.eq_dec q reg) as [->|]; [done|]. apply Hb. lia.
Qed.

(** [AllocateScratchRegister] always answers: with a register in the range
    that is not blocked, or with -1 when all of them are.  A register it hands
    out without a spill may be overwritten while the current operation is
    emitted, before and after its effect: the rest of the schedule still leaves
    every location, the register included, with the value it would have had. *)
Theorem AllocateScratchRegister_spec schedule k op kind mask first last :
  schedule !! k = Some op -> machine_kind kind -> 0 <= first -> last < 2 ^ Location.kPayloadBitsSize ->
  first <= last + 1 ->
  exists reg spilled, AllocateScratchRegister schedule k kind mask first last = Ok (reg, spilled) /\
    (reg = -1 /\ spilled = true /\ (forall q, first <= q <= last -> is_blocked mask q = true) \/
     first <= reg <= last /\ is_blocked mask reg = false) /\
    (spilled = false -> exists loc, Location.MachineRegisterLocation kind reg = Ok loc /\
       forall (V : Type) (ρ : Z -> V) v v' l,
         run (drop (S k) schedule) (clobber loc v' (exec_op (clobber loc v ρ) op)) l = run (drop k schedule) ρ l).
Proof.
  intros Hop Hk Hf Hl Hfl. unfold AllocateScratchRegister. set (n := Z.to_nat (last + 1 - first)).
  assert (Z.of_nat n = last + 1 - first) as En by lia.
  destruct (first_scratch_spec schedule k kind mask n first) as (r & -> & Hcase); [done|lia..|]. cbn [rbind].
  destruct (Z.eqb_spec r (-1)) as [->|Hne].
  - eexists _, true. split; [done|]. split; [|done].
    destruct (first_unblocked_spec mask n first Hf) as [[E Hb]|[? ?]]; [left|right; split; [lia|done]].
    split_and!; [done..|]. intros q Hq. apply Hb. lia.
  - destruct Hcase as [|[Hr [Hb (loc & El & Hs)]]]; [done|]. exists r, false. split; [done|]. split; [right; split; [lia|done]|].
    intros _. exists loc. split; [done|]. intros V ρ v v' l. by apply scratch_dead.
Qed.

(** Several dead locations at once. *)
Lemma run_dead_all {V} ops (ds : list Z) : forall (ρ ρ' : Z -> V),
  (forall d, d ∈ ds -> existsb (reads d) ops = false /\ existsb (overwrites d) ops = true) ->
  (forall l, l ∉ ds -> ρ l = ρ' l) -> forall l, run ops ρ l = run ops ρ' l.
Proof.
  induction ds as [|d ds IH]; intros ρ ρ' Hds Ha l.
  { apply run_ext. intros l'. apply Ha, not_elem_of_nil. }
  destruct (Hds d) as [Hr Hw]; [by left|].
  rewrite (run_dead d ops ρ (clobber d (ρ' d) ρ) Hr Hw).
  - apply IH; [intros d' Hd'; apply Hds; by right|]. intros l' Hl'. unfold clobber.
    destruct (Z.eqb_spec l' d) as [->|Hne]; [done|]. apply Ha. by apply not_elem_of_cons.
  - intros l' Hl'. unfold clobber. by rewrite (proj2 (Z.eqb_neq _ _)).
Qed.

Lemma scratch_tail schedule k op loc :
  schedule !! k = Some op -> IsScratchLocation schedule k loc = true ->
  existsb (reads loc) (drop (S k) schedule) = false /\ existsb (overwrites loc) (drop (S k) schedule) = true.
Proof.
  intros Hk Hs. unfold IsScratchLocation in Hs. rewrite (drop_S _ _ _ Hk) in Hs.
  change (existsb _ (op :: drop (S k) schedule)) with (existsb (reads loc) (op :: drop (S k) schedule)) in Hs.
  destruct (existsb (reads loc) (op :: drop (S k) schedule)) eqn:Er; [done|].
  cbn in Er. apply orb_false_iff in Er as [_ Ers]. by split.
Qed.

End Scratch.

(** ** The locations of a schedule *)

Section Locations.
Context `{Target} (Q : Z -> Prop) (HQ : ~ Q 0).

(** A move of the resolver between locations of [Q], performed, pending or
    still to do. *)
Definition among (m : MoveOperands) : Prop :=
  src_ m = 0 /\ dest_ m = 0 \/ Q (src_ m) /\ (dest_ m = 0 \/ Q (dest_ m)).
Definition pending (m : MoveOperands) : Prop := src_ m <> 0 /\ dest_ m = 0.
Definition op_among (op : Op) : Prop := op_kind op <> kNop /\ Q (src_ (operands op)) /\ Q (dest_ (operands op)).

Definition within (r : Resolver) : Prop := Forall among (moves_ r) /\ Forall op_among (scheduled_ops_ r).

(** The pending moves stay pending, and no others become it. *)
Definition keeps (ms ms' : list MoveOperands) : Prop := Forall2 (fun m m' => pending m <-> pending m') ms ms'.

Lemma Q_nonzero x : Q x -> x <> 0.
Proof. by intros Hx ->. Qed.

Lemma among_consistent m : among m -> consistent m.
Proof. intros [[_ ?]|[Hs _]] E; [done|]. by rewrite E in Hs. Qed.

Lemma keeps_refl ms : keeps ms ms.
Proof. unfold keeps. by induction ms; constructor. Qed.

Lemma keeps_trans ms1 ms2 ms3 : keeps ms1 ms2 -> keeps ms2 ms3 -> keeps ms1 ms3.
Proof. intros H1'. revert ms3. induction H1'; intros ms3; inversion_clear 1; constructor; [tauto|by apply IHH1']. Qed.

Lemma keeps_insert ms i m m' : ms !! i = Some m -> ~ pending m -> ~ pending m' -> keeps ms (<[i := m']> ms).
Proof.
  intros Hm Hp Hp'. revert i Hm. induction ms as [|x ms IH]; intros [|i] Hm; [done..| |]; cbn in *.
  - injection Hm as ->. constructor; [tauto|apply keeps_refl].
  - constructor; [done|by apply IH].
Qed.

Lemma keeps_retarget ms s d : Q s -> Q d -> keeps ms (retargeted s d <$> ms).
Proof.
  intros Hs Hd. induction ms as [|m ms IH]; [constructor|]. constructor; [|exact IH].
  unfold pending, retargeted. destruct (Z.eqb_spec (src_ m) 0) as [|Hz]; [done|]. cbn.
  apply Q_nonzero in Hs, Hd. assert (sw s d (src_ m) <> 0); [|tauto]. unfold sw. by repeat (destruct (_ =? _)).
Qed.

Lemma among_retarget s d m : Q s -> Q d -> among m -> among (retargeted s d m).
Proof.
  intros Hs Hd Hm. unfold retargeted. destruct (Z.eqb_spec (src_ m) 0) as [|Hz]; [done|].
  destruct Hm as [[? _]|[Hq Hc]]; [done|]. right. cbn. split; [|done]. unfold sw. by repeat (destruct (_ =? _)).
Qed.

Definition confined (f : nat -> Resolver -> Res Resolver) : Prop :=
  forall i r m r', within r -> moves_ r !! i = Some m -> Q (src_ m) -> Q (dest_ m) -> f i r = Ok r' ->
  within r' /\ keeps (moves_ r) (moves_ r').

Lemma move_at_inv r i m : move_at r i = Ok m -> moves_ r !! i = Some m.
Proof. unfold move_at. destruct (moves_ r !! i); congruence. Qed.

Lemma perform_blocking_within perform d k : confined perform -> forall i r r',
  within r -> perform_blocking perform d k i r = Ok r' -> within r' /\ keeps (moves_ r) (moves_ r').
Proof.
  intros Hf. induction k as [|k IH]; intros i r r' Hw E; cbn [perform_blocking] in E.
  { injection E as <-. split; [done|apply keeps_refl]. }
  apply rbind_ok_inv in E as (m & Hm%move_at_inv & E). pose proof (Forall_lookup_1 _ _ _ _ (proj1 Hw) Hm) as Ha.
  rewrite Blocks_ok in E by (by apply among_consistent). cbn [rbind] in E.
  set (b := negb (src_ m =? 0) && (src_ m =? d)) in *.
  assert (exists r1, within r1 /\ keeps (moves_ r) (moves_ r1) /\ perform_blocking perform d k (S i) r1 = Ok r')
    as (r1 & Hw1 & Hk1 & E1).
  { destruct b eqn:Eb; [|exists r; split_and!; [done|apply keeps_refl|done]].
    apply andb_true_iff in Eb as [Hs%negb_true_iff%Z.eqb_neq _].
    rewrite IsPending_ok in E by (by apply among_consistent). rewrite (proj2 (Z.eqb_neq (src_ m) 0)) in E by done.
    rewrite andb_true_r in E. cbn [rbind andb] in E. destruct (Z.eqb_spec (dest_ m) 0) as [Hd|Hd]; cbn [negb rbind] in E.
    - exists r. split_and!; [done|apply keeps_refl|done].
    - apply rbind_ok_inv in E as (r1 & Er & E). exists r1. destruct Ha as [[? _]|[Hq [?|Hqd]]]; [done..|].
      destruct (Hf i r m r1 Hw Hm Hq Hqd Er). done. }
  destruct (IH (S i) r1 r' Hw1 E1) as [Hw' Hk']. split; [done|by eapply keeps_trans].
Qed.

(** The end of [PerformMove]. *)
Lemma conclude_within index d r m r' :
  within r -> moves_ r !! index = Some m -> pending m -> Q d ->
  conclude index d (set_move r index (mkMove d (src_ m))) (mkMove d (src_ m)) = Ok r' ->
  within r' /\ exists ms, moves_ r' !! index = Some Eliminate /\ moves_ r' = <[index := Eliminate]> ms /\ keeps (moves_ r) ms.
Proof.
  intros [Hms Hops] Hm [Hs Hd0] Hd E. pose proof (lookup_lt_Some _ _ _ Hm) as Hlt.
  assert (Q (src_ m)) as Hq by (destruct (Forall_lookup_1 _ _ _ _ Hms Hm) as [[? _]|[? _]]; done).
  assert (among Eliminate) as He by by left.
  set (m3 := mkMove d (src_ m)) in *. set (r3 := set_move r index m3) in *.
  assert (move_at r3 index = Ok m3) as Eat.
  { unfold move_at, r3. cbn. by rewrite list_lookup_insert_eq. }
  assert (forall ops, Forall op_among ops -> within (mkResolver (<[index := Eliminate]> (moves_ r)) ops)) as Hdone.
  { intros ops Ho. split; [by apply Forall_insert|done]. }
  unfold conclude in E. cbn [src_] in E. destruct (Location.Equals _ _).
  { injection E as <-. unfold r3, set_move. cbn [moves_ scheduled_ops_]. rewrite list_insert_insert_eq.
    split; [by apply Hdone|]. exists (moves_ r). split_and!; [by apply list_lookup_insert_eq|done|apply keeps_refl]. }
  apply rbind_ok_inv in E as (b & _ & E). destruct b.
  - unfold AddSwapToSchedule in E. rewrite Eat in E. cbn [rbind] in E. unfold add_op, set_move, r3, set_move in E.
    cbn [moves_ scheduled_ops_] in E. rewrite list_insert_insert_eq in E.
    rewrite retarget_all_ok in E.
    2: { eapply Forall_impl; [by apply (Forall_insert among)|]. apply among_consistent. }
    cbn [rbind] in E. injection E as <-. cbn [src_ dest_ m3] in *. cbn [moves_]. split; [split; cbn|].
    + apply Forall_fmap. eapply Forall_impl; [by apply (Forall_insert among)|]. intros x Hx. by apply among_retarget.
    + apply Forall_app. split; [done|]. by apply Forall_singleton.
    + exists (retargeted (src_ m) d <$> moves_ r). rewrite list_fmap_insert.
      change (retargeted (src_ m) d Eliminate) with Eliminate. split_and!; [|done|by apply keeps_retarget].
      apply list_lookup_insert_eq. by rewrite length_fmap.
  - unfold AddMoveToSchedule in E. rewrite Eat in E. cbn [rbind] in E. unfold add_op, set_move, r3, set_move in E.
    cbn [moves_ scheduled_ops_] in E. rewrite list_insert_insert_eq in E. injection E as <-. cbn [moves_].
    split; [apply Hdone, Forall_app; split; [done|]; by apply Forall_singleton|].
    exists (moves_ r). split_and!; [by apply list_lookup_insert_eq|done|apply keeps_refl].
Qed.

Lemma PerformMove_within fuel : confined (PerformMove fuel).
Proof.
  induction fuel as [|fuel IH]; intros index r m r' Hw Hm Hs Hd E; [done|]. cbn [PerformMove] in E.
  pose proof (Forall_lookup_1 _ _ _ _ (proj1 Hw) Hm) as Ha. pose proof (Q_nonzero _ Hd) as Hd0.
  pose proof (Q_nonzero _ Hs) as Hs0. pose proof (among_consistent _ Ha) as Hc.
  unfold move_at at 1 in E. rewrite Hm in E. cbn [rbind] in E.
  apply rbind_ok_inv in E as (p & _ & E). apply rbind_ok_inv in E as (? & _ & E).
  apply rbind_ok_inv in E as (? & _ & E). apply rbind_ok_inv in E as (? & _ & E).
  apply rbind_ok_inv in E as (? & _ & E). unfold MarkPending in E. rewrite IsPending_ok in E by done. cbn [rbind] in E.
  rewrite (proj2 (Z.eqb_neq (dest_ m) 0)), ASSERT_true in E by done. cbn [rbind] in E.
  set (r1 := set_move r index (mkMove Location.NoLocation (src_ m))) in *.
  apply rbind_ok_inv in E as (r2 & E2 & E).
  assert (within r1) as Hw1.
  { split; [|apply Hw]. apply Forall_insert; [apply Hw|]. right. cbn. split; [done|by left]. }
  destruct (perform_blocking_within (PerformMove fuel) (dest_ m) _ IH _ _ _ Hw1 E2) as [Hw2 Hk].
  apply rbind_ok_inv in E as (m2 & Hm2%move_at_inv & E).
  assert (r1.(moves_) !! index = Some (mkMove 0 (src_ m))) as Hm1.
  { cbn. apply list_lookup_insert_eq. by eapply lookup_lt_Some. }
  destruct (proj1 (Forall2_lookup_lr _ _ _ _ _ _ Hk Hm1 Hm2)) as [Hs2 Hd2]; [done|].
  unfold ClearPending in E. rewrite IsPending_ok in E by (by intros ?).
  rewrite Hd2, (proj2 (Z.eqb_neq (src_ m2) 0)) in E by done. cbn [rbind] in E. rewrite ASSERT_true in E by done. cbn [rbind] in E.
  destruct (conclude_within index (dest_ m) r2 m2 r') as (Hw' & ms & _ & Ems & Hkms); [done..|].
  split; [done|]. rewrite Ems. apply (keeps_trans _ (<[index := Eliminate]> (moves_ r))).
  - apply (keeps_insert _ _ m); [done|by intros [_ ?]|by intros [? _]].
  - assert (keeps (moves_ r1) ms) as Hkk by by eapply keeps_trans. clear -Hkk. unfold r1 in Hkk. cbn in Hkk.
    unfold keeps in *. pose proof (Forall2_insert _ _ _ Eliminate Eliminate index Hkk (iff_refl _)) as Hx.
    by rewrite list_insert_insert_eq in Hx.
Qed.

Lemma perform_all_within fuel k : forall i r r',
  within r -> (forall j m, moves_ r !! j = Some m -> ~ pending m) ->
  perform_all fuel k i r = Ok r' -> within r' /\ forall j m, moves_ r' !! j = Some m -> ~ pending m.
Proof.
  induction k as [|k IH]; intros i r r' Hw Hn E; cbn [perform_all] in E; [by injection E as <-|].
  apply rbind_ok_inv in E as (m & Hm%move_at_inv & E). pose proof (Forall_lookup_1 _ _ _ _ (proj1 Hw) Hm) as Ha.
  rewrite IsEliminated_ok in E by (by apply among_consistent). cbn [rbind] in E.
  destruct (Z.eqb_spec (src_ m) 0) as [|Hs]; cbn [negb andb rbind] in E; [by eapply IH|].
  destruct (negb _) in E; cbn [rbind] in E; [|by eapply IH].
  apply rbind_ok_inv in E as (r1 & E1 & E). destruct Ha as [[? _]|[Hq [Hd|Hqd]]]; [done|..].
  { destruct (Hn i m Hm). done. }
  destruct (PerformMove_within fuel i r m r1 Hw Hm Hq Hqd E1) as [Hw1 Hk]. eapply IH; [done| |done].
  intros j m1 Hm1. destruct (Forall2_lookup_r _ _ _ _ _ Hk Hm1) as (m0 & Hm0 & Hiff). rewrite <- Hiff. by eapply Hn.
Qed.

Lemma schedule_constants_within ms : forall ops ops',
  Forall among ms -> Forall (fun m => ~ pending m) ms -> Forall op_among ops ->
  schedule_constants ms ops = Ok ops' -> Forall op_among ops'.
Proof.
  induction ms as [|m ms IH]; intros ops ops' Hm Hp Ho E; cbn [schedule_constants] in E; [by injection E as <-|].
  apply Forall_cons in Hm as [Ha Hm]. apply Forall_cons in Hp as [Hpm Hp].
  rewrite IsEliminated_ok in E by (by apply among_consistent). cbn [rbind] in E.
  destruct (Z.eqb_spec (src_ m) 0) as [|Hs]; [by eapply IH|]. apply rbind_ok_inv in E as (? & _ & E).
  eapply IH; [done..| |done]. apply Forall_app. split; [done|]. apply Forall_singleton.
  destruct Ha as [[? _]|[Hq [Hd|Hqd]]]; [done|by destruct Hpm|done].
Qed.

(** Every location of a schedule is one of the parallel move. *)
Lemma Resolve_within pm schedule r :
  (forall m, In m pm -> src_ m <> 0 -> dest_ m <> 0 -> Q (src_ m) /\ Q (dest_ m)) -> Forall consistent pm ->
  Resolve pm new_Resolver = Ok (schedule, r) -> Forall op_among schedule.
Proof.
  intros Hpm Hc E. unfold Resolve in E. cbn [moves_ new_Resolver] in E. rewrite ASSERT_true in E by done. cbn [rbind] in E.
  unfold BuildInitialMoveList in E. rewrite append_moves_spec in E by done. cbn [rbind moves_ scheduled_ops_ app] in E.
  apply rbind_ok_inv in E as (r1 & E1 & E). apply rbind_ok_inv in E as (ops & E2 & E). injection E as <- _.
  apply perform_all_within in E1 as [Hw Hp].
  - assert (Forall op_among ops) as Ho.
    { eapply schedule_constants_within; [apply Hw| |apply Hw|exact E2]. apply Forall_lookup. intros j m. apply Hp. }
    rewrite Forall_forall in *. intros op [_ Hin]%list_elem_of_filter. by apply Ho.
  - split; [|constructor]. apply Forall_forall. intros m [Hn Hin]%list_elem_of_filter. apply needed_spec in Hn as (Hs & Hd & _).
    destruct (Hpm m) as [? ?]; [by apply list_elem_of_In|done..|]. right. auto.
  - intros j m Hm [_ Hd]. apply list_elem_of_lookup_2, list_elem_of_filter in Hm as [Hn _]. by apply needed_spec in Hn as (_ & ? & _).
Qed.

End Locations.
