(* ===== verification/MoveEmit.v ===== *)
(** * MoveEmit: the code of a parallel move

    Models class ParallelMoveEmitter (vm/compiler/backend/parallel_move_resolver.cc
    and its RISC-V part in flow_graph_compiler_riscv.cc) and the
    methods of FlowGraphCompiler that it calls, [EmitMove] and
    [RebaseIfImprovesAddressing].  The emitter's object is the schedule and the
    position in it; its scopes ([ScratchRegisterScope], [ScratchFpuRegisterScope])
    are functions of the code between construction and destruction. *)

From stdpp Require Import base numbers list gmap.
From S2P Require Import Prelude Constants Encoding AsmBuffer MicroAsm AsmBranch Simulator.
From S2P Require Import ObjectPool Assembler Location ParallelMove.

#[local] Open Scope Z_scope.
#[local] Open Scope res_scope.
#[local] Open Scope code_scope.

(** ** Registers the allocator does not hand out *)

(** [R(reg)]. *)
Definition RegList_of (reg : Z) : Z := wrapU 32 (Z.shiftl 1 reg).

Definition kReservedCpuRegisters : Z :=
  foldr Z.lor 0 (RegList_of <$> [Reg.ZR; Reg.TP; Reg.GP; Reg.SP; Reg.FP; TMP; TMP2; PP; THR;
                                Reg.RA; WRITE_BARRIER_STATE; NULL_REG; DISPATCH_TABLE_REG; FAR_TMP]).

(** The part of FlowGraphCompiler that the emitter reads;
    [first_local_from_fp] is the target's [frame_layout]'s. *)
Record FlowGraphCompiler : Type := mkCompiler {
  StackSize : Z;
  first_local_from_fp : Z;
  intrinsic_mode : bool
}.

Section MoveEmit.
Context `{Target} {T : Type} `{ops : !IndexTableOps T}.

#[local] Notation code := (code T).

(** A value computed without emitting code. *)
Definition with_value {A} (r : Res A) (f : A -> code) : code := fun m => let* x := r in f x m.

(** ** FlowGraphCompiler *)

(** In a release build only the assertion's place is left. *)
Definition CheckFpSpDist (fp_sp_dist : Z) : code :=
  check (fp_sp_dist <=? 0) >>
  if DEBUG then
    emit (MicroAssembler.sub TMP Reg.SP Reg.FP) >>
    CompareImmediate TMP fp_sp_dist >>
    (fun m => let* (ok, m) := BranchIf EQ new_Label kNearJump m in
              let* a := MicroAssembler.ebreak (asm_ m) in
              let* (_, a) := Bind ok a in
              Ok (set_asm m a))
  else skip.

Definition fp_sp_dist (c : FlowGraphCompiler) : Z := first_local_from_fp c + 1 - StackSize c.

(** The location and the assembler after it. *)
Definition RebaseIfImprovesAddressing (c : FlowGraphCompiler) (loc : Z) (m : MacroAsm T) : Res (Z * MacroAsm T) :=
  let rebase (slot : Z -> Z -> Res Z) :=
    let* m := CheckFpSpDist (fp_sp_dist c * kWordSize) m in
    let* i := Location.stack_index loc in
    let* loc := slot (i - fp_sp_dist c) Reg.SP in
    Ok (loc, m) in
  let* on_fp := if Location.IsStackSlot loc || Location.IsDoubleStackSlot loc
                then let* breg := Location.base_reg loc in Ok (breg =? Reg.FP) else Ok false in
  if Location.IsStackSlot loc && on_fp then rebase Location.StackSlot
  else if Location.IsDoubleStackSlot loc && on_fp then rebase Location.DoubleStackSlot
  else Ok (loc, m).

(** The accesses by register and offset; the offset is passed as an int32_t. *)
Definition load_from_slot (rd loc : Z) : code :=
  with_value (Location.ToStackSlotOffset loc) (fun off =>
  with_value (Location.base_reg loc) (fun base =>
  LoadFromOffset rd (mkAddress base (s32 off)) kWordBytes)).
Definition store_to_slot (rs loc : Z) : code :=
  with_value (Location.ToStackSlotOffset loc) (fun off =>
  with_value (Location.base_reg loc) (fun base =>
  StoreToOffset rs (mkAddress base (s32 off)) kWordBytes)).
Definition loadd_from_slot (rd loc : Z) : code :=
  with_value (Location.ToStackSlotOffset loc) (fun off =>
  with_value (Location.base_reg loc) (fun base => LoadDFromOffset rd base (s32 off))).
Definition stored_to_slot (rs loc : Z) : code :=
  with_value (Location.ToStackSlotOffset loc) (fun off =>
  with_value (Location.base_reg loc) (fun base => StoreDToOffset rs base (s32 off))).

(** A pair of locations is a pointer; [Component] reads it.  The code for a
    constant belongs to its instruction: [EmitMoveToLocation constant
    destination tmp pair_index]. *)
Context (Component : Z -> Z -> Res Z) (EmitMoveToLocation : Z -> Z -> Z -> Z -> code).

(** [FlowGraphCompiler::EmitMove]; [emit_component] is the recursive call. *)
Definition EmitMove_with (emit_component : Z -> Z -> code) (destination source : Z) : code :=
  if Location.Equals destination source then skip
  else if Location.IsRegister source then
    if Location.IsRegister destination then
      with_value (Location.reg destination) (fun rd =>
      with_value (Location.reg source) (fun rs => emit (MicroAssembler.mv rd rs)))
    else
      check (Location.IsStackSlot destination) >>
      with_value (Location.reg source) (fun rs => store_to_slot rs destination)
  else if Location.IsStackSlot source then
    if Location.IsRegister destination then
      with_value (Location.reg destination) (fun rd => load_from_slot rd source)
    else if Location.IsFpuRegister destination then
      with_value (Location.fpu_reg destination) (fun dst => loadd_from_slot dst source)
    else
      check (Location.IsStackSlot destination) >>
      load_from_slot TMP source >> store_to_slot TMP destination
  else if Location.IsFpuRegister source then
    if Location.IsFpuRegister destination then
      with_value (Location.fpu_reg destination) (fun rd =>
      with_value (Location.fpu_reg source) (fun rs => emit (MicroAssembler.fmvd rd rs)))
    else if Location.IsStackSlot destination || Location.IsDoubleStackSlot destination then
      with_value (Location.fpu_reg source) (fun src => stored_to_slot src destination)
    else check (Location.IsQuadStackSlot destination) >> unimplemented
  else if Location.IsDoubleStackSlot source then
    if Location.IsFpuRegister destination then
      with_value (Location.fpu_reg destination) (fun dst => loadd_from_slot dst source)
    else
      check (Location.IsDoubleStackSlot destination || Location.IsStackSlot destination) >>
      loadd_from_slot FTMP source >> stored_to_slot FTMP destination
  else if Location.IsQuadStackSlot source then unimplemented
  else if Location.IsPairLocation source then
    if XLEN =? 32 then
      check (Location.IsPairLocation destination) >>
      with_value (Component destination 0) (fun d => with_value (Component source 0) (fun s => emit_component d s)) >>
      with_value (Component destination 1) (fun d => with_value (Component source 1) (fun s => emit_component d s))
    else unreachable
  else
    check (Location.IsConstant source) >>
    with_value (Location.constant_instruction source) (fun constant =>
    with_value (Location.pair_index source) (fun i => EmitMoveToLocation constant destination TMP i)).

(** The components of a pair are not pairs. *)
Definition compiler_EmitMove : Z -> Z -> code := EmitMove_with (EmitMove_with (fun _ _ => unreachable)).

(** ** ParallelMoveEmitter *)

Section Emitter.
Context (compiler_ : FlowGraphCompiler) (schedule : list Op) (current_move_ : nat).

Definition SpillScratch (reg : Z) : code := PushRegister reg.
Definition RestoreScratch (reg : Z) : code := PopRegister reg.
Definition SpillFpuScratch (reg : Z) : code :=
  emit (MicroAssembler.subi Reg.SP Reg.SP 8) >> emit (MicroAssembler.fsd reg (mkAddress Reg.SP 0)).
Definition RestoreFpuScratch (reg : Z) : code :=
  emit (MicroAssembler.fld reg (mkAddress Reg.SP 0)) >> emit (MicroAssembler.addi Reg.SP Reg.SP 8).

(** The mask of [AllocateTemporary]. *)
Definition temporary_mask (blocked : Z) : Z :=
  let mask := Z.lor (RegMaskBit blocked) kReservedCpuRegisters in
  if intrinsic_mode compiler_ then Z.lor (Z.lor mask (RegMaskBit ARGS_DESC_REG)) (RegMaskBit CODE_REG) else mask.

(** [AllocateTemporary] and [ReleaseTemporary] around [body], as a
    [ScratchRegisterScope]. *)
Definition ScratchRegisterScope (blocked : Z) (body : Z -> code) : code :=
  with_value (AllocateScratchRegister schedule current_move_ Location.kRegister (temporary_mask blocked)
                0 (Reg.kNumberOfCpuRegisters - 1)) (fun '(reg, spilled) =>
  (if spilled then SpillScratch reg else skip) >> body reg >>
  (if spilled then RestoreScratch reg else skip)).

Definition fpu_mask (blocked : Z) : Z :=
  wrapU kBitsPerWord
    (Z.lor (if blocked =? FReg.kNoFpuRegister then 0 else s32 (Z.shiftl 1 blocked)) (s32 (Z.shiftl 1 FTMP))).

Definition ScratchFpuRegisterScope (blocked : Z) (body : Z -> code) : code :=
  with_value (AllocateScratchRegister schedule current_move_ Location.kFpuRegister (fpu_mask blocked)
                0 (FReg.kNumberOfFpuRegisters - 1)) (fun '(reg, spilled) =>
  (if spilled then SpillFpuScratch reg else skip) >> body reg >>
  (if spilled then RestoreFpuScratch reg else skip)).

(** [EmitMove] never asks its allocator for a register on RISC-V, so the
    assertion about SP-relative locations holds and nothing is spilled. *)
Definition EmitMove (move : MoveOperands) : code := fun m =>
  let* (dst, m) := RebaseIfImprovesAddressing compiler_ (dest_ move) m in
  let* (src, m) := RebaseIfImprovesAddressing compiler_ (src_ move) m in
  compiler_EmitMove dst src m.

(** [Exchange] of a register and a slot, and of two slots. *)
Definition Exchange_register (reg loc : Z) : code :=
  emit (MicroAssembler.mv TMP reg) >> load_from_slot reg loc >> store_to_slot TMP loc.
Definition Exchange_slots (loc1 loc2 : Z) : code :=
  ScratchRegisterScope Reg.kNoRegister (fun tmp1 =>
  ScratchRegisterScope tmp1 (fun tmp2 =>
    load_from_slot tmp1 loc1 >> load_from_slot tmp2 loc2 >> store_to_slot tmp1 loc2 >> store_to_slot tmp2 loc1)).

Definition EmitSwap (move : MoveOperands) : code :=
  let source := src_ move in
  let destination := dest_ move in
  if Location.IsRegister source && Location.IsRegister destination then
    with_value (Location.reg source) (fun src =>
    with_value (Location.reg destination) (fun dst =>
    check (differ src TMP) >> check (differ dst TMP) >>
    emit (MicroAssembler.mv TMP src) >> emit (MicroAssembler.mv src dst) >> emit (MicroAssembler.mv dst TMP)))
  else if Location.IsRegister source && Location.IsStackSlot destination then
    with_value (Location.reg source) (fun reg => Exchange_register reg destination)
  else if Location.IsStackSlot source && Location.IsRegister destination then
    with_value (Location.reg destination) (fun reg => Exchange_register reg source)
  else if Location.IsStackSlot source && Location.IsStackSlot destination then
    Exchange_slots source destination
  else if Location.IsFpuRegister source && Location.IsFpuRegister destination then
    with_value (Location.fpu_reg destination) (fun dst =>
    with_value (Location.fpu_reg source) (fun src =>
    emit (MicroAssembler.fmvd FTMP src) >> emit (MicroAssembler.fmvd src dst) >> emit (MicroAssembler.fmvd dst FTMP)))
  else if Location.IsFpuRegister source || Location.IsFpuRegister destination then unimplemented
  else if Location.IsDoubleStackSlot source && Location.IsDoubleStackSlot destination then
    ScratchFpuRegisterScope FReg.kNoFpuRegister (fun scratch =>
      loadd_from_slot FTMP source >> loadd_from_slot scratch destination >>
      stored_to_slot FTMP destination >> stored_to_slot scratch source)
  else if Location.IsQuadStackSlot source && Location.IsQuadStackSlot destination then unimplemented
  else unreachable.

Definition EmitOp (op : Op) : code :=
  match op_kind op with
  | kNop => unreachable
  | kMove => EmitMove (operands op)
  | kSwap => EmitSwap (operands op)
  end.

End Emitter.

(** The operations of [schedule] from position [i] on. *)
Fixpoint emit_from (compiler_ : FlowGraphCompiler) (schedule : list Op) (rest : list Op) (i : nat) : code :=
  match rest with
  | [] => skip
  | op :: rest => EmitOp compiler_ schedule i op >> emit_from compiler_ schedule rest (S i)
  end.

Definition EmitNativeCode (compiler_ : FlowGraphCompiler) (schedule : list Op) : code :=
  emit_from compiler_ schedule schedule 0.

End MoveEmit.
