(* ===== verification/MoveEmitSpec.v ===== *)
(** * MoveEmitSpec: the emitted code performs the parallel move

    The locations are the allocatable CPU registers and the words of the frame,
    addressed from FP.  [area] describes a frame with room for the two words
    that a swap may spill, [step_rel] what one operation of the schedule does to
    registers and memory; the theorem composes the resolver, the
    emitter, the macro assembler and the simulator. *)

From stdpp Require Import base numbers list gmap.
From Stdlib Require Import Lia.
From S2P Require Import Prelude Constants Encoding CEncoding AsmBuffer MicroAsm AsmBranch SimState.
From S2P Require Import SimInt SimAtomic SimFloat SimCompressed Simulator Isa IntSpec BitSpec.
From S2P Require Import AsmExec AsmFormats RefineOp RefineImm RefineMem Refinement.
From S2P Require Import SimInv AsmSites RefineBranch RefineLabel SimMemSpec AsmSeq ObjectPool Assembler.
From S2P Require Import MacroSeq MacroStack MacroMem.
From S2P Require Import Location LocationSpec ParallelMove ParallelMoveSpec MoveEmit.

#[local] Open Scope Z_scope.
#[local] Open Scope res_scope.
#[local] Open Scope code_scope.

(** ** Word locations *)

Inductive wloc : Set := WReg (r : Z) | WSlot (i : Z).

#[export] Instance wloc_eq_dec : EqDecision wloc.
Proof. solve_decision. Defined.

Definition reserved (r : Z) : bool := Z.testbit kReservedCpuRegisters r.

Section Words.
Context `{Target}.

(** The frame: SP is [dist] words from FP, and [depth] words up from SP are in use. *)
Context (dist depth : Z).

Definition slot_in (i : Z) : bool := (dist <=? i) && (i <? dist + depth).

Definition classify (l : Z) : option wloc :=
  if negb ((0 <=? l) && (l <? 2 ^ kBitsPerWord)) then None
  else if Location.IsRegister l then
    if (Location.payload l <? 32) && negb (reserved (Location.payload l)) then Some (WReg (Location.payload l)) else None
  else if Location.IsStackSlot l then
    let i := BitField.decode Location.StackIndexField (Location.payload l) - Location.kStackIndexBias in
    if (BitField.decode Location.StackSlotBaseField (Location.payload l) =? Reg.FP) && slot_in i
    then Some (WSlot i) else None
  else None.

Definition valid (w : wloc) : Prop :=
  match w with WReg r => inU 5 r /\ reserved r = false | WSlot i => slot_in i = true end.

(** A location is its kind and its payload. *)
Lemma location_inj l l' :
  inU kBitsPerWord l -> inU kBitsPerWord l' ->
  Location.kind l = Location.kind l' -> Location.payload l = Location.payload l' -> l = l'.
Proof.
  intros Hl Hl' Ek Ep. destruct location_fields as (Hfk & Hfp & _). unfold Location.kind, Location.payload in *.
  rewrite !decode_field in Ek, Ep by done.
  cbn [BitField.position BitField.size Location.KindField Location.PayloadField] in *.
  unfold field in *. change Location.kKindBitsPos with 0 in *. change Location.kKindBitsSize with 5 in *.
  change Location.kPayloadBitsPos with 5 in *.
  assert (forall x, inU kBitsPerWord x ->
    x = Z.lor (Z.land (Z.shiftr x 0) (Z.ones 5)) (Z.shiftl (Z.land (Z.shiftr x 5) (Z.ones Location.kPayloadBitsSize)) 5)) as Hx.
  { intros x Hx. unfold Location.kPayloadBitsSize. change Location.kPayloadBitsPos with 5.
    destruct word_cases as [E|E]; rewrite E in *; cbn [Z.sub]; bitblast. }
  rewrite (Hx l Hl), (Hx l' Hl'). congruence.
Qed.

Lemma payload_range l : inU Location.kPayloadBitsSize (Location.payload l).
Proof.
  destruct location_fields as (_ & Hfp & _). unfold Location.payload. rewrite decode_field by done.
  apply field_range. destruct Hfp as (_ & ? & _). cbn in *. lia.
Qed.

(** A slot's payload is its base and its index. *)
Lemma payload_inj p p' :
  inU Location.kPayloadBitsSize p -> inU Location.kPayloadBitsSize p' ->
  BitField.decode Location.StackSlotBaseField p = BitField.decode Location.StackSlotBaseField p' ->
  BitField.decode Location.StackIndexField p = BitField.decode Location.StackIndexField p' -> p = p'.
Proof.
  intros Hp Hp' Eb Ei. destruct location_fields as (_ & _ & Hfb & Hfi). rewrite !decode_field in Eb, Ei by done.
  cbn [BitField.position BitField.size Location.StackSlotBaseField Location.StackIndexField] in *. unfold field in *.
  assert (forall x, inU Location.kPayloadBitsSize x ->
    x = Z.lor (Z.land (Z.shiftr x 0) (Z.ones Location.kBitsForBaseReg))
      (Z.shiftl (Z.land (Z.shiftr x Location.kBitsForBaseReg) (Z.ones Location.kBitsForStackIndex)) Location.kBitsForBaseReg)) as Hx.
  { intros x Hx. unfold Location.kBitsForStackIndex, Location.kPayloadBitsSize, Location.kBitsForBaseReg in *.
    change Location.kPayloadBitsPos with 5 in *.
    destruct word_cases as [E|E]; rewrite E in *; cbn [Z.sub Z.eqb] in *; cbn in *; bitblast. }
  rewrite (Hx p Hp), (Hx p' Hp'). congruence.
Qed.

Lemma classify_reg l r :
  classify l = Some (WReg r) ->
  inU kBitsPerWord l /\ Location.IsRegister l = true /\ Location.payload l = r /\ inU 5 r /\ reserved r = false.
Proof.
  unfold classify. destruct ((0 <=? l) && (l <? 2 ^ kBitsPerWord)) eqn:El; [cbn [negb]|done].
  apply andb_true_iff in El as [?%Z.leb_le ?%Z.ltb_lt]. destruct (Location.IsRegister l); [|by repeat case_match].
  destruct ((Location.payload l <? 32) && negb (reserved (Location.payload l))) eqn:E; [|done]. intros [= <-].
  apply andb_true_iff in E as [E1%Z.ltb_lt E2%negb_true_iff]. pose proof (payload_range l) as [? _].
  split_and!; [done..| |done]. by split.
Qed.

Lemma classify_slot l i :
  classify l = Some (WSlot i) ->
  inU kBitsPerWord l /\ Location.IsRegister l = false /\ Location.IsStackSlot l = true /\ slot_in i = true /\
  BitField.decode Location.StackSlotBaseField (Location.payload l) = Reg.FP /\
  BitField.decode Location.StackIndexField (Location.payload l) - Location.kStackIndexBias = i.
Proof.
  unfold classify. destruct ((0 <=? l) && (l <? 2 ^ kBitsPerWord)) eqn:El; [cbn [negb]|done].
  apply andb_true_iff in El as [?%Z.leb_le ?%Z.ltb_lt]. destruct (Location.IsRegister l); [by case_match|].
  destruct (Location.IsStackSlot l); [|done]. cbv zeta.
  destruct (_ && slot_in _) eqn:E; [|done]. intros [= <-]. apply andb_true_iff in E as [E1%Z.eqb_eq E2].
  split_and!; done.
Qed.

Lemma classify_valid l w : classify l = Some w -> valid w.
Proof. destruct w; [intros Hc%classify_reg|intros Hc%classify_slot]; cbn; tauto. Qed.

Lemma classify_inj l l' w : classify l = Some w -> classify l' = Some w -> l = l'.
Proof.
  destruct w as [r|i].
  - intros (Hl & Hk & Hp & _)%classify_reg (Hl' & Hk' & Hp' & _)%classify_reg.
    apply location_inj; [done..| |congruence].
    unfold Location.IsRegister in *. apply Z.eqb_eq in Hk, Hk'. congruence.
  - intros (Hl & _ & Hk & _ & Hb & Hi)%classify_slot (Hl' & _ & Hk' & _ & Hb' & Hi')%classify_slot.
    apply location_inj; [done..| |].
    + unfold Location.IsStackSlot in *. apply Z.eqb_eq in Hk, Hk'. congruence.
    + apply payload_inj; [apply payload_range..|congruence|lia].
Qed.

(** The location word of an allocatable register. *)
Lemma classify_register r l :
  inU 5 r -> reserved r = false -> Location.MachineRegisterLocation Location.kRegister r = Ok l -> classify l = Some (WReg r).
Proof.
  intros Hr Hn E. change (Location.RegisterLocation r = Ok l) in E. unfold Location.RegisterLocation in E.
  destruct (mkLocation_spec Location.kRegister r) as (l' & E' & Hl & Hk & Hp & _); [done| |].
  { apply (inU_mono 5); [done|]. unfold Location.kPayloadBitsSize. change Location.kPayloadBitsPos with 5.
    destruct word_cases as [-> | ->]; lia. }
  assert (l = l') as -> by congruence. destruct Hl as [Hl0 Hl1]. unfold classify.
  rewrite (proj2 (Z.leb_le 0 l')), (proj2 (Z.ltb_lt _ _)) by done. cbn [andb negb].
  unfold Location.IsRegister. rewrite Hk, Z.eqb_refl, Hp, Hn. destruct Hr as [? Hr].
  by rewrite (proj2 (Z.ltb_lt r 32)).
Qed.

(** ** The frame *)

Definition slot_addr (σ : mach) (i : Z) : Z := σ.1 Reg.FP + i * kWordSize.

Definition get (σ : mach) (w : wloc) : Z :=
  match w with WReg r => σ.1 r | WSlot i => word_at σ.2 (slot_addr σ i) end.

(** The value of a location; words that are no location have none. *)
Definition val (σ : mach) (l : Z) : Z := match classify l with Some w => get σ w | None => 0 end.

(** The stack pointer of the frame when nothing is spilled, and the frame's end. *)
Definition base_sp (σ : mach) : Z := slot_addr σ dist.
Definition top_sp (σ : mach) : Z := slot_addr σ (dist + depth).

(** [k] words are spilled, of at most two. *)
Record area (k : Z) (lo n : Z) (σ : mach) : Prop := {
  area_sp : σ.1 Reg.SP = base_sp σ - k * kWordSize;
  area_low : 2 * kWordSize <= base_sp σ;
  area_top : top_sp σ < 2 ^ XLEN;
  area_mapped : mapped σ.2 (base_sp σ - 2 * kWordSize) (2 * kWordSize + depth * kWordSize);
  area_clear : top_sp σ <= lo \/ lo + n <= base_sp σ - 2 * kWordSize;
  area_regs : forall r, inU 5 r -> r <> TMP2 -> inU XLEN (σ.1 r)
}.

(** The reserved registers but the scratch registers stay, and so does memory
    outside the frame and the words already spilled. *)
Record calm (σ σ' : mach) : Prop := {
  calm_regs : forall r, inU 5 r -> reserved r = true -> r <> TMP -> r <> TMP2 -> σ'.1 r = σ.1 r;
  calm_mem : forall x, x < base_sp σ - 2 * kWordSize \/ σ.1 Reg.SP <= x < base_sp σ \/ top_sp σ <= x -> σ'.2 !! x = σ.2 !! x;
  calm_dom : dom σ'.2 = dom σ.2;
  calm_range : forall r, inU 5 r -> r <> TMP2 -> inU XLEN (σ'.1 r)
}.

(** What an operation does: besides, the location [w] receives the value of
    [F w], except for the registers [ds]. *)
Definition step_rel (F : wloc -> wloc) (ds : list Z) (σ σ' : mach) : Prop :=
  calm σ σ' /\ forall w, valid w -> (forall r, w = WReg r -> r ∉ ds) -> get σ' w = get σ (F w).

Lemma calm_fp σ σ' : calm σ σ' -> σ'.1 Reg.FP = σ.1 Reg.FP /\ σ'.1 Reg.SP = σ.1 Reg.SP.
Proof. intros Hs. split; by apply (calm_regs _ _ Hs). Qed.

Lemma calm_base σ σ' : calm σ σ' -> base_sp σ' = base_sp σ /\ top_sp σ' = top_sp σ.
Proof. intros [E _]%calm_fp. unfold base_sp, top_sp, slot_addr. by rewrite E. Qed.

Lemma calm_trans σ1 σ2 σ3 : calm σ1 σ2 -> calm σ2 σ3 -> calm σ1 σ3.
Proof.
  intros H12 H23. destruct (calm_fp _ _ H12) as [_ Esp]. destruct (calm_base _ _ H12) as [Eb Et].
  destruct H12 as [R1 M1 D1 _], H23 as [R2 M2 D2 X2]. split.
  - intros r ? ? ? ?. by rewrite R2, R1.
  - intros x Hx. rewrite M2, M1; [done..|]. by rewrite Esp, Eb, Et.
  - congruence.
  - done.
Qed.

Lemma mapped_same_dom (M M' : memory) a n : dom M' = dom M -> mapped M a n -> mapped M' a n.
Proof. intros E Hm x Hx. apply elem_of_dom. rewrite E. by apply elem_of_dom, Hm. Qed.

Lemma area_calm k lo n σ σ' : area k lo n σ -> calm σ σ' -> area k lo n σ'.
Proof.
  intros [H1' H2' H3' H4' H5' H6'] Hs. pose proof (calm_fp _ _ Hs) as [_ Esp].
  destruct (calm_base _ _ Hs) as [Eb Et]. split; rewrite ?Eb, ?Et, ?Esp; try done.
  - by apply (mapped_same_dom σ.2); [apply Hs|].
  - apply Hs.
Qed.

Context (Hdist : - 2 ^ 20 <= dist <= 0) (Hdepth : 0 <= depth <= 2 ^ 20).

Lemma slot_in_spec i : slot_in i = true <-> dist <= i < dist + depth.
Proof. unfold slot_in. rewrite andb_true_iff, Z.leb_le, Z.ltb_lt. done. Qed.

Lemma kWordSize_cases : kWordSize = 4 \/ kWordSize = 8.
Proof. unfold kWordSize. destruct XLEN_cases as [-> | ->]; [by left|by right]. Qed.

Lemma slot_word k lo n σ i :
  area k lo n σ -> slot_in i = true ->
  word_ok lo n σ.2 (slot_addr σ i) /\ base_sp σ <= slot_addr σ i /\ slot_addr σ i + kWordSize <= top_sp σ.
Proof.
  intros [H1' H2' H3' H4' H5' _] Hi%slot_in_spec. unfold base_sp, top_sp, slot_addr in *.
  destruct kWordSize_cases as [E|E]; rewrite E in *; (split; [|lia]);
    (split; rewrite ?E; [lia|intros x Hx; apply H4'; lia|lia]).
Qed.

(** ** Registers and slots *)

Lemma get_upd σ r v w :
  r <> Reg.FP -> get (upd σ.1 r v, σ.2) w = if decide (w = WReg r) then v else get σ w.
Proof.
  intros Hr. destruct w as [r'|i]; cbn [get fst snd].
  - destruct (decide (WReg r' = WReg r)) as [[= ->]|Hne]; [apply upd_same|]. apply upd_other. congruence.
  - rewrite decide_False by done. unfold slot_addr. cbn [fst]. by rewrite upd_other by congruence.
Qed.

Lemma get_put k lo n σ i v w :
  area k lo n σ -> slot_in i = true -> inU XLEN v -> valid w ->
  get (σ.1, put_word σ.2 (slot_addr σ i) v) w = if decide (w = WSlot i) then v else get σ w.
Proof.
  intros Ha Hi Hv Hw. destruct (slot_word k lo n σ i Ha Hi) as [[_ Hm _] _].
  destruct w as [r|j]; cbn [get fst snd]; [done|].
  change (slot_addr (σ.1, _) j) with (slot_addr σ j).
  destruct (decide (WSlot j = WSlot i)) as [[= ->]|Hne]; [by apply word_at_put|]. apply word_at_put_other.
  assert (j <> i) as Hji by congruence. unfold slot_addr. destruct kWordSize_cases as [-> | ->]; lia.
Qed.

(** The steps of one operation. *)
Definition mv_step (rd rs : Z) (σ : mach) : mach := (upd σ.1 rd (σ.1 rs), σ.2).
Definition ld_step (rd i : Z) (σ : mach) : mach := (upd σ.1 rd (get σ (WSlot i)), σ.2).
Definition st_step (rs i : Z) (σ : mach) : mach := (σ.1, put_word σ.2 (slot_addr σ i) (σ.1 rs)).

Definition move_to (wd ws : wloc) (w : wloc) : wloc := if decide (w = wd) then ws else w.
Definition swap_of (wd ws : wloc) (w : wloc) : wloc :=
  if decide (w = wd) then ws else if decide (w = ws) then wd else w.

(** Writes of a register and of a slot. *)
Lemma calm_upd k lo n σ rd v :
  area k lo n σ -> reserved rd = false \/ rd = TMP -> inU XLEN v -> calm σ (upd σ.1 rd v, σ.2).
Proof.
  intros Ha Hn Hv. split; cbn [fst snd]; try done.
  - intros r Hr Hres Ht Ht2. apply upd_other. destruct Hn; congruence.
  - intros r Hr Ht. unfold upd. destruct (r =? rd); [done|by apply Ha].
Qed.

Lemma calm_put k lo n σ i v : area k lo n σ -> slot_in i = true -> calm σ (σ.1, put_word σ.2 (slot_addr σ i) v).
Proof.
  clear Hdist Hdepth. intros Ha Hi. destruct (slot_word k lo n σ i Ha Hi) as (_ & Hlo & Hhi).
  split; cbn [fst snd]; try done.
  - intros x Hx. apply put_word_other. pose proof (area_low _ _ _ _ Ha). pose proof kWordSize_cases. lia.
  - apply put_word_dom.
  - apply Ha.
Qed.

(** A register that may hold a value of the move: allocatable, or TMP. *)
Definition usable (r : Z) : Prop := inU 5 r /\ (reserved r = false \/ r = TMP).

Lemma usable_other r : usable r -> r <> Reg.FP /\ r <> Reg.SP /\ r <> Reg.ZR /\ r <> TMP2.
Proof. intros [_ Hr]. split_and!; intros ->; by destruct Hr. Qed.

Lemma usable_valid r : valid (WReg r) -> usable r /\ r <> TMP.
Proof. intros [? Hr]. split; [by split; [|left]|]. by intros ->. Qed.

Lemma usable_TMP : usable TMP.
Proof. by split; [|right]. Qed.

Section Steps.
Context (k lo n : Z).

Lemma reg_range σ r : area k lo n σ -> usable r -> inU XLEN (σ.1 r).
Proof. intros Ha Hr. apply (area_regs _ _ _ _ Ha); [apply Hr|by apply usable_other]. Qed.

Lemma calm_mv σ rd rs : area k lo n σ -> usable rd -> usable rs -> calm σ (mv_step rd rs σ).
Proof. intros Ha Hd Hs. apply (calm_upd k lo n); [done|apply Hd|by apply reg_range]. Qed.

Lemma calm_ld σ rd i : area k lo n σ -> usable rd -> calm σ (ld_step rd i σ).
Proof. intros Ha Hd. apply (calm_upd k lo n); [done|apply Hd|apply word_at_range]. Qed.

Lemma calm_st σ rs i : area k lo n σ -> slot_in i = true -> calm σ (st_step rs i σ).
Proof. intros Ha Hi. by apply (calm_put k lo n). Qed.

Lemma get_mv σ rd rs w : usable rd -> get (mv_step rd rs σ) w = if decide (w = WReg rd) then σ.1 rs else get σ w.
Proof. intros Hd. apply get_upd. by apply usable_other. Qed.

Lemma get_ld σ rd i w : usable rd -> get (ld_step rd i σ) w = if decide (w = WReg rd) then get σ (WSlot i) else get σ w.
Proof. intros Hd. apply get_upd. by apply usable_other. Qed.

Lemma get_st σ rs i w :
  area k lo n σ -> usable rs -> slot_in i = true -> valid w ->
  get (st_step rs i σ) w = if decide (w = WSlot i) then σ.1 rs else get σ w.
Proof. intros Ha Hs Hi Hw. apply (get_put k lo n); [done..|by apply reg_range|done]. Qed.

Lemma reg_mv σ rd rs r : (mv_step rd rs σ).1 r = if r =? rd then σ.1 rs else σ.1 r.
Proof. done. Qed.
Lemma reg_ld σ rd i r : (ld_step rd i σ).1 r = if r =? rd then get σ (WSlot i) else σ.1 r.
Proof. done. Qed.
Lemma reg_st σ rs i r : (st_step rs i σ).1 r = σ.1 r.
Proof. done. Qed.

Lemma swap_sym wd ws w : swap_of wd ws w = swap_of ws wd w.
Proof. unfold swap_of. repeat case_decide; congruence. Qed.

Lemma move_rr σ rd rs :
  area k lo n σ -> valid (WReg rd) -> valid (WReg rs) -> step_rel (move_to (WReg rd) (WReg rs)) [] σ (mv_step rd rs σ).
Proof.
  intros Ha [Hd _]%usable_valid [Hs _]%usable_valid. split; [by apply calm_mv|]. intros w Hw _.
  rewrite get_mv by done. unfold move_to. by case_decide.
Qed.

Lemma move_sr σ rd i :
  area k lo n σ -> valid (WReg rd) -> step_rel (move_to (WReg rd) (WSlot i)) [] σ (ld_step rd i σ).
Proof.
  intros Ha [Hd _]%usable_valid. split; [by apply calm_ld|]. intros w Hw _.
  rewrite get_ld by done. unfold move_to. by case_decide.
Qed.

Lemma move_rs σ rs i :
  area k lo n σ -> valid (WReg rs) -> slot_in i = true -> step_rel (move_to (WSlot i) (WReg rs)) [] σ (st_step rs i σ).
Proof.
  intros Ha [Hs _]%usable_valid Hi. split; [by apply calm_st|]. intros w Hw _.
  rewrite get_st by done. unfold move_to. by case_decide.
Qed.

Lemma move_ss σ i j :
  area k lo n σ -> slot_in i = true -> slot_in j = true ->
  step_rel (move_to (WSlot i) (WSlot j)) [] σ (st_step TMP i (ld_step TMP j σ)).
Proof.
  intros Ha Hi Hj. pose proof usable_TMP as Ht. pose proof (calm_ld σ TMP j Ha Ht) as H1'.
  pose proof (area_calm _ _ _ _ _ Ha H1') as Ha1. split; [by eapply calm_trans, calm_st|]. intros w Hw _.
  rewrite get_st, get_ld, reg_ld, Z.eqb_refl by done. unfold move_to. case_decide; [done|].
  rewrite decide_False; [done|]. intros ->. by destruct Hw.
Qed.

Lemma swap_rr σ rd rs :
  area k lo n σ -> valid (WReg rd) -> valid (WReg rs) ->
  step_rel (swap_of (WReg rd) (WReg rs)) [] σ (mv_step rd TMP (mv_step rs rd (mv_step TMP rs σ))).
Proof.
  intros Ha [Hd Hdt]%usable_valid [Hs Hst]%usable_valid. pose proof usable_TMP as Ht.
  pose proof (calm_mv σ TMP rs Ha Ht Hs) as H1'. pose proof (area_calm _ _ _ _ _ Ha H1') as Ha1.
  pose proof (calm_mv _ rs rd Ha1 Hs Hd) as H2'. pose proof (area_calm _ _ _ _ _ Ha1 H2') as Ha2.
  split; [eapply calm_trans; [done|eapply calm_trans; [done|by apply calm_mv]]|]. intros w Hw _.
  rewrite !get_mv, !reg_mv, Z.eqb_refl by done. rewrite !(proj2 (Z.eqb_neq _ _)) by done. unfold swap_of.
  repeat case_decide; subst; try done; by destruct Hw.
Qed.

Lemma swap_rs σ r i :
  area k lo n σ -> valid (WReg r) -> slot_in i = true ->
  step_rel (swap_of (WSlot i) (WReg r)) [] σ (st_step TMP i (ld_step r i (mv_step TMP r σ))).
Proof.
  intros Ha [Hr Hrt]%usable_valid Hi. pose proof usable_TMP as Ht.
  pose proof (calm_mv σ TMP r Ha Ht Hr) as H1'. pose proof (area_calm _ _ _ _ _ Ha H1') as Ha1.
  pose proof (calm_ld _ r i Ha1 Hr) as H2'. pose proof (area_calm _ _ _ _ _ Ha1 H2') as Ha2.
  split; [eapply calm_trans; [done|eapply calm_trans; [done|by apply calm_st]]|]. intros w Hw _.
  rewrite get_st, !get_ld, !get_mv, reg_ld, reg_mv, Z.eqb_refl by done.
  rewrite (proj2 (Z.eqb_neq TMP r)) by done. unfold swap_of.
  repeat case_decide; subst; try done; by destruct Hw.
Qed.

Lemma swap_ss σ t1 t2 i1 i2 :
  area k lo n σ -> valid (WReg t1) -> valid (WReg t2) -> t1 <> t2 -> slot_in i1 = true -> slot_in i2 = true ->
  step_rel (swap_of (WSlot i2) (WSlot i1)) [t1; t2] σ (st_step t2 i1 (st_step t1 i2 (ld_step t2 i2 (ld_step t1 i1 σ)))).
Proof.
  clear Hdist Hdepth. intros Ha [H1' _]%usable_valid [H2' _]%usable_valid Hne Hi1 Hi2.
  pose proof (calm_ld σ t1 i1 Ha H1') as C1. pose proof (area_calm _ _ _ _ _ Ha C1) as A1.
  pose proof (calm_ld _ t2 i2 A1 H2') as C2. pose proof (area_calm _ _ _ _ _ A1 C2) as A2.
  pose proof (calm_st _ t1 i2 A2 Hi2) as C3. pose proof (area_calm _ _ _ _ _ A2 C3) as A3.
  split; [do 3 (eapply calm_trans; [done|]); by apply calm_st|]. intros w Hw Hds.
  rewrite !get_st, !get_ld, !reg_st, !reg_ld, !get_ld, !Z.eqb_refl by done.
  rewrite !(proj2 (Z.eqb_neq _ _)) by done. unfold swap_of. rewrite !(decide_False (P := WSlot _ = WReg _)) by done.
  assert (forall r, r ∈ [t1; t2] -> w <> WReg r) as Hn by (intros r Hr E; by apply (Hds r)).
  rewrite !(decide_False (P := w = WReg _)) by (apply Hn; set_solver).
  repeat case_decide; simplify_eq; done.
Qed.

End Steps.

End Words.

(** ** The code of one operation *)

Section Emission.
Context `{Target} `{HostNaN} `{Host} {T : Type} `{ops : !IndexTableOps T}.
Context (m : MacroAsm T) (HI : Supports (asm_ m) RV_I = true) (Hrel : DEBUG = false).
Context (dist depth : Z) (Hdist : - 2 ^ 20 <= dist <= 0) (Hdepth : 0 <= depth <= 2 ^ 20).

#[local] Notation code := (code T).
#[local] Notation area := (area dist depth).
#[local] Notation slot_in := (slot_in dist depth).
#[local] Notation valid := (valid dist depth).
#[local] Notation step_rel := (step_rel dist depth).

(** A slot addressed from FP, or from SP when nothing is spilled. *)
Definition slot_at (k loc i : Z) : Prop :=
  Location.stack_index loc = Ok i /\ Location.base_reg loc = Ok Reg.FP \/
  k = 0 /\ Location.stack_index loc = Ok (i - dist) /\ Location.base_reg loc = Ok Reg.SP.

Lemma small_offset i : - 2 ^ 21 <= i <= 2 ^ 21 -> s32 (i * kWordSize) = i * kWordSize /\ far_fits (i * kWordSize) = true.
Proof.
  intros Hi. assert (- 2 ^ 24 <= i * kWordSize <= 2 ^ 24) as Hr by (destruct kWordSize_cases as [-> | ->]; lia).
  split; [apply wrapS_small; unfold inS; lia|]. unfold far_fits. apply andb_true_iff. lia.
Qed.

(** The base register, the offset and the address of a slot. *)
Lemma slot_at_address k loc i :
  slot_at k loc i -> slot_in i = true -> exists breg j,
    Location.ToStackSlotOffset loc = Ok (j * kWordSize) /\ Location.base_reg loc = Ok breg /\
    s32 (j * kWordSize) = j * kWordSize /\ far_fits (j * kWordSize) = true /\
    inU 5 breg /\ breg <> Reg.ZR /\ breg <> TMP2 /\
    forall lo n σ, area k lo n σ -> σ.1 breg + j * kWordSize = slot_addr σ i.
Proof.
  intros Hs Hi%slot_in_spec. unfold Location.ToStackSlotOffset.
  destruct Hs as [[Ei Eb]|(-> & Ei & Eb)]; rewrite Ei; cbn [rbind].
  - exists Reg.FP, i. destruct (small_offset i) as [E1 E2]; [lia|]. by split_and!.
  - exists Reg.SP, (i - dist). destruct (small_offset (i - dist)) as [E1 E2]; [lia|]. split_and!; try done.
    intros lo n σ Ha. rewrite (area_sp _ _ _ _ _ _ Ha). unfold base_sp, slot_addr. lia.
Qed.

Lemma does_ld k rd loc i :
  slot_at k loc i -> slot_in i = true -> usable rd -> does (load_from_slot rd loc) m (area k) (ld_step rd i).
Proof.
  intros Hs Hi Hd. destruct (slot_at_address k loc i Hs Hi) as (breg & j & Eo & Eb & E32 & Hf & Hb5 & Hbz & Hbt & Ha).
  eapply does_eq.
  { intros b. unfold load_from_slot, with_value. rewrite Eo, Eb. cbn [rbind]. rewrite E32. reflexivity. }
  destruct (usable_other rd Hd) as (_ & _ & Hz & _).
  eapply does_ext; [eapply does_weaken; [by apply (does_load m HI Hrel); [apply Hd|..]|]|].
  - intros lo n σ Hσ. cbv beta. rewrite (Ha lo n σ Hσ). by apply (slot_word dist depth k).
  - intros lo n σ Hσ. cbv beta. by rewrite (Ha lo n σ Hσ).
Qed.

Lemma does_st k rs loc i :
  slot_at k loc i -> slot_in i = true -> usable rs -> does (store_to_slot rs loc) m (area k) (st_step rs i).
Proof.
  intros Hs Hi Hd. destruct (slot_at_address k loc i Hs Hi) as (breg & j & Eo & Eb & E32 & Hf & Hb5 & Hbz & Hbt & Ha).
  eapply does_eq.
  { intros b. unfold store_to_slot, with_value. rewrite Eo, Eb. cbn [rbind]. rewrite E32. reflexivity. }
  destruct (usable_other rs Hd) as (_ & _ & _ & Ht).
  eapply does_ext; [eapply does_weaken; [by apply (does_store m HI Hrel); [apply Hd|..]|]|].
  - intros lo n σ Hσ. cbv beta. rewrite (Ha lo n σ Hσ). by apply (slot_word dist depth k).
  - intros lo n σ Hσ. cbv beta. by rewrite (Ha lo n σ Hσ).
Qed.

Lemma does_mv_step k rd rs :
  usable rd -> usable rs -> does (emit (MicroAssembler.mv rd rs)) m (area k) (mv_step rd rs).
Proof.
  intros Hd Hs. destruct (usable_other rd Hd) as (_ & _ & Hz & _). destruct (usable_other rs Hs) as (_ & _ & _ & Ht).
  apply (does_mv m HI); [apply Hd|done|apply Hs|done].
Qed.

(** Steps in a row, each of which keeps the frame. *)
Lemma does_seq k c1 c2 f1 f2 :
  does c1 m (area k) f1 -> does c2 m (area k) f2 -> (forall lo n σ, area k lo n σ -> calm dist depth σ (f1 σ)) ->
  does (c1 >> c2) m (area k) (fun σ => f2 (f1 σ)).
Proof.
  intros H1' H2' Hc. eapply does_then; [done..|]. intros lo n σ Ha. split_and!; [done| |done].
  eapply area_calm; [done|]. by eapply Hc.
Qed.

(** Code whose effect is a step. *)
Definition performs_step (c : code) (k : Z) (F : wloc -> wloc) (ds : list Z) : Prop :=
  exists f, does c m (area k) f /\ forall lo n σ, area k lo n σ -> step_rel F ds σ (f σ).

Lemma does_performs c k f F ds :
  does c m (area k) f -> (forall lo n σ, area k lo n σ -> step_rel F ds σ (f σ)) -> performs_step c k F ds.
Proof. intros Hc Hf. by exists f. Qed.

Lemma performs_eq (c c' : code) k F ds :
  (forall b, c (at_buffer m b) = c' (at_buffer m b)) -> performs_step c' k F ds -> performs_step c k F ds.
Proof. intros E (f & Hc & Hf). exists f. split; [by eapply does_eq|done]. Qed.

(** ** Scratch registers *)

Section Spill.
Context (r k lo n : Z) (Hr : valid (WReg r)) (Hk : 0 <= k < 2) (σ : mach) (Ha : area k lo n σ).

Lemma spill_word : word_ok lo n σ.2 (σ.1 Reg.SP - kWordSize).
Proof.
  destruct Ha as [E H2' H3' H4' H5' _]. unfold base_sp, top_sp, slot_addr in *. rewrite E.
  destruct kWordSize_cases as [Ew|Ew]; rewrite Ew in *; (split; rewrite ?Ew; [lia|intros x Hx; apply H4'; lia|lia]).
Qed.

Lemma spill_base : base_sp dist (push_word r σ) = base_sp dist σ /\ top_sp dist depth (push_word r σ) = top_sp dist depth σ.
Proof. done. Qed.

Lemma spill_area : area (k + 1) lo n (push_word r σ).
Proof.
  pose proof spill_word as [Hw _ _]. destruct Ha as [E H2' H3' H4' H5' H6']. split; try done.
  - change (σ.1 Reg.SP - kWordSize = base_sp dist σ - (k + 1) * kWordSize). rewrite E. lia.
  - by apply put_word_mapped.
  - intros q Hq Hqt. cbn [push_word fst]. unfold upd. destruct (q =? Reg.SP); [|by apply H6'].
    pose proof word_size_pos. split; lia.
Qed.

Lemma spill_get w : valid w -> get (push_word r σ) w = get σ w.
Proof.
  intros Hw. destruct w as [q|i]; cbn [push_word get fst snd].
  - apply upd_other. intros ->. by destruct Hw.
  - change (slot_addr (push_word r σ) i) with (slot_addr σ i). apply word_at_put_other.
    destruct (slot_word dist depth k lo n σ i Ha Hw) as (_ & Hlo & _). rewrite (area_sp _ _ _ _ _ _ Ha).
    pose proof word_size_pos. lia.
Qed.

Lemma spill_saved : word_at (push_word r σ).2 ((push_word r σ).1 Reg.SP) = σ.1 r.
Proof.
  cbn [push_word fst snd]. rewrite upd_same. apply word_at_put; [apply spill_word|].
  apply (reg_range dist depth k lo n); [done|by eapply usable_valid].
Qed.

Context (F : wloc -> wloc) (ds : list Z) (σ2 : mach).
Context (HF : forall w, valid w -> valid (F w)) (HFr : F (WReg r) = WReg r).
Context (Hs : step_rel F ds (push_word r σ) σ2).

Lemma restore_word :
  σ2.1 Reg.SP = σ.1 Reg.SP - kWordSize /\ word_ok lo n σ2.2 (σ2.1 Reg.SP) /\ word_at σ2.2 (σ2.1 Reg.SP) = σ.1 r.
Proof.
  destruct Hs as [Hc _]. destruct (calm_fp _ _ _ _ Hc) as [_ Esp]. pose proof spill_word as [H1' H2' H3'].
  assert (σ2.1 Reg.SP = σ.1 Reg.SP - kWordSize) as E by (rewrite Esp; apply upd_same). split_and!; [done|..].
  - rewrite E. split; [done| |done]. apply (mapped_same_dom σ.2); [|done]. rewrite (calm_dom _ _ _ _ Hc).
    apply put_word_dom.
  - rewrite Esp, <- spill_saved. apply word_at_ext. intros x Hx. apply (calm_mem _ _ _ _ Hc).
    rewrite (proj1 spill_base). right; left. split; [lia|]. revert Hx. cbn [push_word fst].
    rewrite upd_same, (area_sp _ _ _ _ _ _ Ha). pose proof word_size_pos. nia.
Qed.

Lemma restore_calm : calm dist depth σ (pop_word r σ2).
Proof.
  destruct restore_word as (Esp & _ & Ew). destruct Hs as [Hc _]. pose proof word_size_pos as Hw.
  destruct (usable_valid dist depth r Hr) as [Hu _]. pose proof (usable_other r Hu) as (_ & Hrs & _).
  unfold pop_word. split; cbn [fst snd].
  - intros q Hq Hres Ht Ht2. destruct (Z.eq_dec q Reg.SP) as [->|Hne]; [rewrite upd_same; lia|].
    rewrite !upd_other by (done || (intros ->; by destruct Hr as [_ ?]; congruence)).
    rewrite (calm_regs _ _ _ _ Hc) by done. by apply upd_other.
  - intros x Hx. rewrite (calm_mem _ _ _ _ Hc).
    + apply put_word_other. rewrite (area_sp _ _ _ _ _ _ Ha) in *. pose proof (area_top _ _ _ _ _ _ Ha).
      unfold base_sp, top_sp, slot_addr in *. destruct kWordSize_cases as [Ew'|Ew']; rewrite Ew' in *; lia.
    + destruct spill_base as [-> ->]. cbn [push_word fst]. rewrite upd_same. lia.
  - rewrite (calm_dom _ _ _ _ Hc). apply put_word_dom.
  - intros q Hq Hqt. unfold upd. destruct (q =? Reg.SP).
    { rewrite Esp, Z.sub_add. by apply (area_regs _ _ _ _ _ _ Ha). }
    destruct (q =? r); [apply word_at_range|]. by apply (calm_range _ _ _ _ Hc).
Qed.

Lemma restore_step : step_rel F (base.filter (fun d => d <> r) ds) σ (pop_word r σ2).
Proof.
  split; [apply restore_calm|]. destruct restore_word as (_ & _ & Ew). destruct Hs as [_ Hg].
  destruct (usable_valid dist depth r Hr) as [Hu _]. pose proof (usable_other r Hu) as (Hrf & _).
  intros w Hw Hds. set (σ3 := (upd σ2.1 r (word_at σ2.2 (σ2.1 Reg.SP)), σ2.2) : mach).
  change (pop_word r σ2) with ((upd σ3.1 Reg.SP (σ2.1 Reg.SP + kWordSize), σ3.2) : mach).
  rewrite get_upd by done. unfold σ3. rewrite get_upd by done. rewrite decide_False by (intros ->; by destruct Hw).
  destruct (decide (w = WReg r)) as [->|Hne]; [by rewrite HFr|].
  rewrite Hg; [apply spill_get; by apply HF|done|]. intros q -> Hq. apply (Hds q); [done|].
  apply list_elem_of_filter. split; [congruence|done].
Qed.

End Spill.

(** A register saved around [body] keeps its value. *)
Lemma spilled_performs (body : code) r k F ds :
  valid (WReg r) -> 0 <= k < 2 -> (forall w, valid w -> valid (F w)) -> F (WReg r) = WReg r ->
  performs_step body (k + 1) F ds ->
  performs_step (SpillScratch r >> body >> RestoreScratch r) k F (base.filter (fun d => d <> r) ds).
Proof.
  intros Hr Hk HF HFr (g & Hg & Hs). destruct (usable_valid dist depth r Hr) as [Hu _].
  pose proof (usable_other r Hu) as (_ & Hsp & Hz & Ht2).
  exists (fun σ => pop_word r (g (push_word r σ))). split.
  - eapply (does_then _ _ m _ (fun lo n σ1 => exists σ, area k lo n σ /\ σ1 = push_word r σ) (area k) (push_word r)
      (fun σ1 => pop_word r (g σ1))); [apply (does_push m HI Hrel r); [apply Hu|done..]| |].
    + eapply does_then; [exact Hg|apply (does_pop m HI Hrel r); [apply Hu|done..]|].
      intros lo n σ1 (σ & Ha & ->). pose proof (spill_area r k lo n Hk σ Ha) as Ha1. split_and!; [done|..|done].
      * eapply restore_word; [done..|]. by eapply Hs.
      * destruct (restore_word r k lo n Hr Hk σ Ha F ds _ (Hs _ _ _ Ha1)) as (-> & _).
        pose proof (area_regs _ _ _ _ _ _ Ha Reg.SP ltac:(done) ltac:(done)) as [_ ?]. lia.
    + intros lo n σ Ha. split_and!; [by eapply spill_word|by exists σ|done].
  - intros lo n σ Ha. eapply restore_step; [done..|]. eapply Hs. by apply spill_area.
Qed.

Context (c : FlowGraphCompiler) (schedule : list Op).

Lemma single_bit r : 0 <= r < 32 -> Z.testbit (wrapU kBitsPerWord (s32 (Z.shiftl 1 r))) r = true.
Proof.
  intros Hr. rewrite testbit_wrapU by (destruct word_cases; lia).
  rewrite (proj2 (Z.ltb_lt r kBitsPerWord)) by (destruct word_cases; lia).
  cbn [andb]. rewrite Z.shiftl_1_l. destruct (Z.eq_dec r 31) as [->|Hne]; [done|].
  replace (s32 (2 ^ r)) with (2 ^ r); [apply Z.pow2_bits_true; lia|]. symmetry.
  pose proof (pow2_pos r ltac:(lia)). assert (2 ^ r <= 2 ^ 30) by (apply Z.pow_le_mono_r; lia).
  apply wrapS_small; unfold inS; lia.
Qed.

Lemma mask_blocks mask r : 0 <= r < 32 -> Z.testbit mask r = true -> is_blocked mask r = true.
Proof.
  intros Hr Hb. unfold is_blocked. apply negb_true_iff, Z.eqb_neq. intros E.
  assert (Z.testbit (Z.land (wrapU kBitsPerWord (s32 (Z.shiftl 1 r))) mask) r = true) as Hx
    by by rewrite Z.land_spec, single_bit, Hb.
  by rewrite E, Z.bits_0 in Hx.
Qed.

(** An unblocked register is allocatable, and there is one. *)
Lemma unblocked_valid blocked r :
  0 <= r < 32 -> is_blocked (temporary_mask c blocked) r = false -> valid (WReg r) /\ r <> blocked.
Proof.
  intros Hr Hb. assert (Z.testbit (temporary_mask c blocked) r = false) as Hm.
  { destruct (Z.testbit _ r) eqn:E; [|done]. by rewrite mask_blocks in Hb. }
  assert (Z.testbit (Z.lor (RegMaskBit blocked) kReservedCpuRegisters) r = false) as Hm'.
  { unfold temporary_mask in Hm. destruct (intrinsic_mode c); [|done]. rewrite !Z.lor_spec in *.
    do 2 apply orb_false_iff in Hm as [Hm _]. done. }
  rewrite Z.lor_spec in Hm'. apply orb_false_iff in Hm' as [H1' H2']. split; [by split; [unfold inU; lia|]|].
  intros <-. unfold RegMaskBit in H1'.
  assert ((r =? Reg.kNoRegister) = false) as E by (apply Z.eqb_neq; unfold Reg.kNoRegister; lia).
  by rewrite E, single_bit in H1'.
Qed.

Lemma free_register blocked :
  -1 <= blocked < 32 ->
  is_blocked (temporary_mask c blocked) Reg.T0 = false \/ is_blocked (temporary_mask c blocked) Reg.T1 = false.
Proof.
  intros Hb. assert (forallb (fun b => negb (is_blocked (temporary_mask c b) Reg.T0) || negb (is_blocked (temporary_mask c b) Reg.T1))
    (seqZ (-1) 33) = true) as Hall.
  { unfold is_blocked, temporary_mask, RegMaskBit. destruct word_cases as [E|E]; rewrite E;
      destruct (intrinsic_mode c); vm_compute; reflexivity. }
  rewrite forallb_forall in Hall. specialize (Hall blocked). rewrite orb_true_iff, !negb_true_iff in Hall. apply Hall.
  apply list_elem_of_In, elem_of_seqZ. lia.
Qed.

Lemma temporary_register i blocked :
  -1 <= blocked < 32 ->
  exists r spilled, AllocateScratchRegister schedule i Location.kRegister (temporary_mask c blocked) 0 31 = Ok (r, spilled) /\
    valid (WReg r) /\ r <> blocked /\
    (spilled = false -> exists loc, Location.MachineRegisterLocation Location.kRegister r = Ok loc /\
       IsScratchLocation schedule i loc = true).
Proof.
  intros Hb. unfold AllocateScratchRegister. change (Z.to_nat (31 + 1 - 0)) with 32%nat.
  set (mask := temporary_mask c blocked).
  assert (32 <= 2 ^ Location.kPayloadBitsSize) as Hp.
  { change 32 with (2 ^ 5). apply Z.pow_le_mono_r; [lia|]. unfold Location.kPayloadBitsSize.
    change Location.kPayloadBitsPos with 5.
    destruct word_cases; lia. }
  destruct (first_scratch_spec schedule i Location.kRegister mask 32 0) as (r & -> & Hr); [by left|lia..|]. cbn [rbind].
  destruct (Z.eqb_spec r (-1)) as [->|Hne].
  - eexists _, true. split; [done|]. pose proof (first_unblocked_spec mask 32 0 ltac:(lia)) as Hu. cbv zeta in Hu.
    destruct Hu as [[_ Hall]|[Hq Hn]].
    + destruct (free_register blocked Hb) as [E|E]; fold mask in E; rewrite Hall in E; done.
    + destruct (unblocked_valid blocked (first_unblocked mask 32 0)) as [? ?]; [lia|done|]. by split_and!.
  - destruct Hr as [?|[Hr (Hn & loc & El & Hs)]]; [done|]. exists r, false. split; [done|].
    destruct (unblocked_valid blocked r ltac:(lia) Hn) as [? ?]. split_and!; [done..|]. intros _. by exists loc.
Qed.

(** The registers that a scope leaves changed, apart from those of the scopes around
    it, are dead after the operation. *)
Definition dead (i : nat) (d : Z) : Prop :=
  valid (WReg d) /\ exists loc, Location.MachineRegisterLocation Location.kRegister d = Ok loc /\
    IsScratchLocation schedule i loc = true.

Definition performs_but (code_ : code) (i : nat) (k : Z) (F : wloc -> wloc) (outer : list Z) : Prop :=
  exists ds, performs_step code_ k F ds /\ forall d, d ∈ ds -> d ∈ outer \/ dead i d.

Lemma scope_performs i blocked (body : Z -> code) k F outer :
  -1 <= blocked < 32 -> 0 <= k < 2 -> (forall w, valid w -> valid (F w)) -> (forall r, F (WReg r) = WReg r) ->
  (forall r k', valid (WReg r) -> r <> blocked -> k <= k' <= k + 1 -> performs_but (body r) i k' F (r :: outer)) ->
  performs_but (ScratchRegisterScope c schedule i blocked body) i k F outer.
Proof.
  intros Hb Hk HF HFr Hbody. destruct (temporary_register i blocked Hb) as (r & spilled & E & Hr & Hne & Hsc).
  destruct spilled.
  - destruct (Hbody r (k + 1)) as (ds & Hp & Hds); [done..|lia|].
    exists (base.filter (fun d => d <> r) ds). split.
    + eapply performs_eq; [|by apply (spilled_performs (body r) r)]. intros b. unfold ScratchRegisterScope, with_value.
      change (Reg.kNumberOfCpuRegisters - 1) with 31. by rewrite E.
    + intros d [Hdr Hd]%list_elem_of_filter. destruct (Hds d Hd) as [[?|?]%elem_of_cons|?]; [done|by left|by right].
  - destruct (Hbody r k) as (ds & (f & Hd & Hf) & Hds); [done..|lia|]. exists ds. split.
    + exists f. split; [|done]. eapply (does_eq _ (skip >> body r >> skip)).
      { intros b. unfold ScratchRegisterScope, with_value. change (Reg.kNumberOfCpuRegisters - 1) with 31.
        by rewrite E. }
      eapply (does_then _ _ m (area k) (area k) _ id f); [apply does_skip| |done].
      by eapply (does_then _ _ m (area k) (fun _ _ _ => True) _ f id); [|apply does_skip|].
    + intros d Hin. destruct (Hds d Hin) as [[->|?]%elem_of_cons|?]; [|by left|by right]. right.
      split; [done|by apply Hsc].
Qed.

(** ** Moves *)

#[local] Notation classify := (classify dist depth).
Context (Hc : fp_sp_dist c = dist).
Context (Component : Z -> Z -> Res Z) (EmitMoveToLocation : Z -> Z -> Z -> Z -> code).

(** A location as the emitter inspects it, with [k] words spilled. *)
Definition names (k l : Z) (w : wloc) : Prop :=
  match w with
  | WReg r => Location.IsRegister l = true /\ Location.IsStackSlot l = false /\ Location.reg l = Ok r
  | WSlot i => Location.IsRegister l = false /\ Location.IsStackSlot l = true /\ Location.IsFpuRegister l = false /\ slot_at k l i
  end.

Lemma kinds_differ l : Location.IsRegister l = true -> Location.IsStackSlot l = false /\ Location.IsDoubleStackSlot l = false.
Proof.
  unfold Location.IsRegister, Location.IsStackSlot, Location.IsDoubleStackSlot. intros ->%Z.eqb_eq. done.
Qed.

Lemma slot_kinds l : Location.IsStackSlot l = true -> Location.IsRegister l = false /\ Location.IsFpuRegister l = false.
Proof. unfold Location.IsRegister, Location.IsStackSlot, Location.IsFpuRegister. intros ->%Z.eqb_eq. done. Qed.

Lemma classify_parts l i :
  classify l = Some (WSlot i) -> Location.stack_index l = Ok i /\ Location.base_reg l = Ok Reg.FP.
Proof.
  intros (_ & _ & Hk & _ & Hb & Hi)%classify_slot.
  apply (stack_parts Location.kStackSlot l (Location.payload l)); [by left|by apply Z.eqb_eq|done..].
Qed.

Lemma classify_names k l w : classify l = Some w -> names k l w.
Proof.
  intros Hl. destruct w as [r|i]; cbn.
  - apply classify_reg in Hl as (_ & Hk & Hp & _). split_and!; [done|by apply kinds_differ|].
    unfold Location.reg. rewrite ASSERT_true by done. by rewrite Hp.
  - pose proof (classify_parts l i Hl). apply classify_slot in Hl as (_ & Hr & Hk & _).
    split_and!; [done..|by apply slot_kinds|by left].
Qed.

Lemma rebase_names l w :
  classify l = Some w ->
  exists l', (forall m', RebaseIfImprovesAddressing (T := T) c l m' = Ok (l', m')) /\ names 0 l' w.
Proof.
  intros Hl. destruct w as [r|i].
  - exists l. split; [|by apply classify_names]. apply classify_reg in Hl as (_ & Hk & _).
    destruct (kinds_differ l Hk) as [E1 E2]. intros m'. unfold RebaseIfImprovesAddressing. by rewrite E1, E2.
  - destruct (classify_parts l i Hl) as [Ei Eb]. apply classify_slot in Hl as (_ & _ & Hk & Hi & _).
    apply slot_in_spec in Hi. destruct Location_round_trip as (_ & _ & Hloc).
    assert (2 ^ 20 <= Location.kStackIndexBias) as Hbias.
    { unfold Location.kStackIndexBias, Location.kBitsForStackIndex, Location.kPayloadBitsSize, Location.kBitsForBaseReg.
      change Location.kPayloadBitsPos with 5. by destruct word_cases as [-> | ->]. }
    destruct (Hloc Location.kStackSlot (i - dist) Reg.SP) as (l' & El & Hkl & Ei' & Eb' & _); [by left|lia| |].
    { unfold inU, Location.kBitsForBaseReg. by destruct word_cases as [-> | ->]. }
    exists l'. split.
    + intros m'. unfold RebaseIfImprovesAddressing. rewrite Hk, Eb. cbn [orb andb rbind]. rewrite Z.eqb_refl. cbv iota.
      unfold CheckFpSpDist, check, andthen. rewrite Hrel, Hc. rewrite ASSERT_true. 2: { apply Z.leb_le.
      pose proof word_size_pos. nia. }
      cbn [rbind skip]. rewrite Ei. cbn [rbind]. unfold skip. cbn [rbind]. unfold Location.StackSlot. by rewrite El.
    + assert (Location.IsStackSlot l' = true) as Hs by (unfold Location.IsStackSlot; by rewrite Hkl).
      split_and!; [by apply slot_kinds|done|by apply slot_kinds|]. right. by split_and!.
Qed.

Lemma names_inj k l w w' : names k l w -> names k l w' -> valid w -> valid w' -> w = w'.
Proof.
  destruct w as [r|i], w' as [r'|i']; cbn; try (intros (? & ? & ?) (? & ? & ?); congruence).
  intros (_ & _ & _ & H1') (_ & _ & _ & H2') _ _. unfold slot_at in *.
  destruct H1' as [[E1 B1]|(_ & E1 & B1)], H2' as [[E2 B2]|(_ & E2 & B2)]; rewrite E1 in E2; rewrite B1 in B2; try done;
    injection E2 as E2; f_equal; lia.
Qed.

Lemma move_to_same w w' : move_to w w w' = w'.
Proof. unfold move_to. by case_decide. Qed.

Lemma skip_performs k w : 0 <= k -> performs_step skip k (move_to w w) [].
Proof.
  intros Hk. exists id. split; [apply does_skip|]. intros lo n σ Ha. split; [|intros w' _ _; by rewrite move_to_same].
  split; try done. apply Ha.
Qed.

Lemma EmitMove_names d s wd ws :
  valid wd -> valid ws -> names 0 d wd -> names 0 s ws ->
  performs_step (compiler_EmitMove Component EmitMoveToLocation d s) 0 (move_to wd ws) [].
Proof.
  intros Hvd Hvs Hd Hs. unfold compiler_EmitMove, EmitMove_with at 1. unfold Location.Equals.
  destruct (Z.eqb_spec d s) as [->|Hne].
  { rewrite (names_inj 0 s wd ws) by done. by apply skip_performs. }
  destruct wd as [rd|i], ws as [rs|j]; cbn [names] in Hd, Hs; destruct Hd as (Ed1 & Ed2 & Ed3), Hs as (Es1 & Es2 & Es3);
    rewrite ?Es1, ?Es2, ?Ed1, ?Ed2; unfold with_value; rewrite ?Ed3, ?Es3; cbn [rbind].
  - eapply does_performs; [by apply does_mv_step; eapply usable_valid|]. intros lo n σ Ha.
    by apply (move_rr _ _ 0 lo n).
  - eapply does_performs; [apply (does_ld 0); [apply Es3|done|by eapply usable_valid]|]. intros lo n σ Ha.
    by apply (move_sr _ _ 0 lo n).
  - eapply does_performs; [apply does_check; [done|apply (does_st 0); [apply Ed3|done|by eapply usable_valid]]|].
    intros lo n σ Ha. by apply (move_rs _ _ 0 lo n).
  - destruct Ed3 as [Ed3 Ed4], Es3 as [_ Es4]. rewrite Ed3.
    eapply performs_eq; [intros b; unfold andthen at 1, check; by rewrite ASSERT_true|].
    eapply does_performs; [apply (does_seq 0); [apply (does_ld 0)|apply (does_st 0)|]; try done|];
      try apply usable_TMP; intros lo n σ Ha; [|by apply (move_ss _ _ 0 lo n)].
    by apply (calm_ld _ _ 0 lo n); [|apply usable_TMP].
Qed.

Lemma EmitMove_performs d s wd ws :
  classify d = Some wd -> classify s = Some ws ->
  performs_step (EmitMove Component EmitMoveToLocation c (mkMove d s)) 0 (move_to wd ws) [].
Proof.
  intros Hd Hs. destruct (rebase_names d wd Hd) as (d' & Ed & Hd'). destruct (rebase_names s ws Hs) as (s' & Es & Hs').
  eapply performs_eq; [|apply (EmitMove_names d' s' wd ws); [by eapply classify_valid..|done|done]].
  intros b. unfold EmitMove. cbn [dest_ src_]. rewrite Ed. cbn [rbind]. by rewrite Es.
Qed.

(** ** Swaps *)

Lemma swap_valid wd ws w : valid wd -> valid ws -> valid w -> valid (swap_of wd ws w).
Proof. intros ? ? ?. unfold swap_of. by repeat case_decide. Qed.

Lemma step_ext F G ds σ σ' : (forall w, F w = G w) -> step_rel F ds σ σ' -> step_rel G ds σ σ'.
Proof. intros E [H1' H2']. split; [done|]. intros w Hw Hd. rewrite <- E. by apply H2'. Qed.

Lemma Exchange_register_performs r loc i :
  valid (WReg r) -> slot_at 0 loc i -> slot_in i = true ->
  performs_step (Exchange_register r loc) 0 (swap_of (WSlot i) (WReg r)) [].
Proof.
  intros Hr Hl Hi. pose proof (proj1 (usable_valid _ _ r Hr)) as Hu. pose proof usable_TMP as Ht.
  eapply does_performs.
  - apply (does_seq 0); [by apply does_mv_step|apply (does_seq 0); [by apply (does_ld 0)|by apply (does_st 0)|]|].
    + intros lo n σ Ha. by apply (calm_ld _ _ 0 lo n).
    + intros lo n σ Ha. by apply (calm_mv _ _ 0 lo n).
  - intros lo n σ Ha. by apply (swap_rs _ _ 0 lo n).
Qed.

Lemma Exchange_slots_performs i loc1 loc2 i1 i2 :
  (forall k, slot_at k loc1 i1) -> (forall k, slot_at k loc2 i2) -> slot_in i1 = true -> slot_in i2 = true ->
  performs_but (Exchange_slots c schedule i loc1 loc2) i 0 (swap_of (WSlot i2) (WSlot i1)) [].
Proof.
  intros H1' H2' Hi1 Hi2.
  assert (forall w, valid w -> valid (swap_of (WSlot i2) (WSlot i1) w)) as Hv by (intros w; by apply swap_valid).
  assert (forall r, swap_of (WSlot i2) (WSlot i1) (WReg r) = WReg r) as Hr by done.
  apply scope_performs; [done|done|done|done|]. intros t1 k1 Ht1 _ Hk1.
  assert (-1 <= t1 < 32) as Ht32 by (destruct Ht1 as [[? ?] _]; lia).
  apply scope_performs; [done|lia|done|done|]. intros t2 k Ht2 Hne Hk.
  pose proof (proj1 (usable_valid _ _ t1 Ht1)) as Hu1. pose proof (proj1 (usable_valid _ _ t2 Ht2)) as Hu2.
  exists [t1; t2]. split; [|intros d Hd; left; set_solver]. eapply does_performs.
  - apply (does_seq k); [by apply (does_ld k)|apply (does_seq k); [by apply (does_ld k)|
      apply (does_seq k); [by apply (does_st k)|by apply (does_st k)|]|]|];
      intros lo n σ Ha; by (apply (calm_ld _ _ k lo n) || eapply calm_st).
  - intros lo n σ Ha. by apply (swap_ss _ _ k lo n).
Qed.

Lemma EmitSwap_performs i d s wd ws :
  classify d = Some wd -> classify s = Some ws ->
  performs_but (EmitSwap c schedule i (mkMove d s)) i 0 (swap_of wd ws) [].
Proof.
  intros Hd Hs. pose proof (classify_valid _ _ _ _ Hd) as Hvd. pose proof (classify_valid _ _ _ _ Hs) as Hvs.
  assert (forall code_ : code, performs_step code_ 0 (swap_of wd ws) [] -> performs_but code_ i 0 (swap_of wd ws) []) as Hno.
  { intros code_ Hp. exists []. split; [done|]. by intros x []%not_elem_of_nil. }
  pose proof (fun k => classify_names k d wd Hd) as Nd. pose proof (fun k => classify_names k s ws Hs) as Ns.
  unfold EmitSwap. cbn [src_ dest_].
  destruct wd as [rd|j], ws as [rs|j']; cbn [names] in Nd, Ns; destruct (Nd 0) as (Ed1 & Ed2 & Ed3), (Ns 0) as (Es1 & Es2 & Es3);
    rewrite ?Es1, ?Es2, ?Ed1, ?Ed2; cbn [andb]; unfold with_value; rewrite ?Ed3, ?Es3; cbn [rbind].
  - apply Hno. destruct (usable_valid _ _ rd Hvd) as [Hu1 Ht1]. destruct (usable_valid _ _ rs Hvs) as [Hu2 Ht2].
    pose proof usable_TMP as Ht. eapply does_performs.
    + do 2 (apply does_check; [by apply negb_true_iff, Z.eqb_neq|]).
      apply (does_seq 0); [by apply does_mv_step|apply (does_seq 0); [by apply does_mv_step..|]|];
        intros lo n σ Ha; by apply (calm_mv _ _ 0 lo n).
    + intros lo n σ Ha. by apply (swap_rr _ _ 0 lo n).
  - apply Hno. destruct (Exchange_register_performs rd s j') as (f & Hf & Hst); [done|apply Es3|done|].
    exists f. split; [done|]. intros lo n σ Ha. eapply step_ext; [intros w; apply swap_sym|by eapply Hst].
  - apply Hno. apply Exchange_register_performs; [done|apply Ed3|done].
  - apply Exchange_slots_performs; [intros k; apply (Ns k)|intros k; apply (Nd k)|done|done].
Qed.

(** ** The whole schedule *)

#[local] Notation val := (val dist depth).

Definition op_effect (op : Op) (wd ws : wloc) : wloc -> wloc :=
  match op_kind op with kNop => id | kMove => move_to wd ws | kSwap => swap_of wd ws end.

Definition word_location (l : Z) : Prop := is_Some (classify l).

Lemma no_word_location : ~ word_location 0.
Proof. intros [w Hw]. destruct w as [r|i]; [apply classify_reg in Hw as (_ & Hk & _)|apply classify_slot in Hw as (_ & _ & Hk & _)]; done. Qed.

Lemma EmitOp_performs i op wd ws :
  op_kind op <> kNop -> classify (dest_ (operands op)) = Some wd -> classify (src_ (operands op)) = Some ws ->
  performs_but (EmitOp Component EmitMoveToLocation c schedule i op) i 0 (op_effect op wd ws) [].
Proof.
  intros Hk Hd Hs. unfold EmitOp, op_effect.
  destruct op as [[] [d s0]]; cbn [op_kind operands dest_ src_] in *; [done|..].
  - exists []. split; [by apply EmitMove_performs|]. by intros x []%not_elem_of_nil.
  - by apply EmitSwap_performs.
Qed.

(** The step on locations is the operation on values. *)
Lemma val_step op wd ws ds σ σ' l :
  op_kind op <> kNop -> classify (dest_ (operands op)) = Some wd -> classify (src_ (operands op)) = Some ws ->
  step_rel (op_effect op wd ws) ds σ σ' -> (forall d, classify l = Some (WReg d) -> d ∉ ds) ->
  val σ' l = exec_op (val σ) op l.
Proof.
  intros Hk Hd Hs [_ Hg] Hl. unfold val at 1.
  assert (forall x w', classify x = Some w' -> (l =? x) = bool_decide (classify l = Some w')) as Heq.
  { intros x w' Hx. apply eq_bool_prop_intro. rewrite Is_true_true, Z.eqb_eq, bool_decide_spec.
    split; [by intros ->|]. intros Hl'. by eapply classify_inj. }
  assert (forall x w', classify x = Some w' -> val σ x = get σ w') as Hval by (intros x w' Hx; unfold val; by rewrite Hx).
  unfold exec_op. unfold op_effect in Hg. rewrite (Hval _ _ Hd), (Hval _ _ Hs).
  destruct (op_kind op); [done|..]; rewrite (Heq _ _ Hd), ?(Heq _ _ Hs); unfold val;
    (destruct (classify l) as [w|] eqn:El; [|by rewrite !bool_decide_eq_false_2 by done]);
    rewrite Hg; try (by eapply classify_valid); try (intros r ->; by apply Hl).
  - unfold move_to. rewrite (bool_decide_ext _ (w = wd)) by naive_solver.
    by case_decide; [rewrite bool_decide_eq_true_2|rewrite bool_decide_eq_false_2].
  - unfold swap_of. rewrite (bool_decide_ext _ (w = wd)), (bool_decide_ext (Some w = Some ws) (w = ws)) by naive_solver.
    repeat case_decide; rewrite ?bool_decide_eq_true_2, ?bool_decide_eq_false_2 by done; done.
Qed.

(** The location words of dead registers. *)
Lemma dead_words i (ds : list Z) :
  (forall d, d ∈ ds -> dead i d) ->
  exists ls : list Z, (forall l, l ∈ ls -> IsScratchLocation schedule i l = true) /\
    forall l d, classify l = Some (WReg d) -> d ∈ ds -> l ∈ ls.
Proof.
  induction ds as [|d ds IH]; intros Hd.
  { exists []. split; [by intros l []%not_elem_of_nil|by intros l d _ []%not_elem_of_nil]. }
  destruct IH as (ls & H1' & H2'); [intros d' ?; apply Hd; by right|].
  destruct (Hd d) as ([Hd5 Hdr] & loc & El & Hs); [by left|]. exists (loc :: ls). split.
  - intros l [->|?]%elem_of_cons; [done|by apply H1'].
  - intros l d' Hl [->|Hin]%elem_of_cons; [|right; by eapply H2'].
    apply elem_of_cons. left. eapply classify_inj; [exact Hl|]. by apply classify_register.
Qed.

(** [c'] performs the operations [rest]. *)
Definition performs_ops (c' : code) (rest : list Op) : Prop :=
  exists f, does c' m (area 0) f /\ forall lo n σ, area 0 lo n σ ->
    calm dist depth σ (f σ) /\ forall l, val (f σ) l = run rest (val σ) l.

Lemma emit_from_performs rest : forall i,
  rest = drop i schedule -> Forall (op_among word_location) rest ->
  performs_ops (emit_from Component EmitMoveToLocation c schedule rest i) rest.
Proof.
  induction rest as [|op rest IH]; intros i Er Hops; cbn [emit_from].
  { exists id. split; [apply does_skip|]. intros lo n σ Ha. split; [|done]. split; try done. apply Ha. }
  apply Forall_cons in Hops as [(Hk & [ws Hs] & [wd Hd]) Hops].
  assert (schedule !! i = Some op) as Hi by (rewrite <- (Nat.add_0_r i), <- lookup_drop, <- Er; done).
  assert (rest = drop (S i) schedule) as Er' by (rewrite (drop_S _ _ _ Hi) in Er; congruence).
  destruct (EmitOp_performs i op wd ws Hk Hd Hs) as (ds & (f1 & Hf1 & Hst) & Hds).
  destruct (IH (S i) Er' Hops) as (f2 & Hf2 & Hr2).
  exists (fun σ => f2 (f1 σ)). split.
  - apply does_seq; [done..|]. intros lo n σ Ha. by destruct (Hst lo n σ Ha).
  - intros lo n σ Ha. pose proof (Hst lo n σ Ha) as Hstep. pose proof (proj1 Hstep) as Hcalm.
    destruct (Hr2 lo n (f1 σ)) as [Hc2 Hv2]; [by eapply area_calm|]. split; [by eapply calm_trans|]. intros l.
    rewrite Hv2.
    destruct (dead_words i ds) as (ls & Hls & Hin).
    { intros d Hd'. by destruct (Hds d Hd') as [[]%not_elem_of_nil|?]. }
    cbn [run foldl]. apply (run_dead_all rest ls).
    + intros l' Hl'. rewrite Er'. by apply (scratch_tail schedule i op); [|apply Hls].
    + intros l' Hl'. eapply val_step; [done..|]. intros d Hcl Hdd. apply Hl'. by eapply Hin.
Qed.

End Emission.

(** ** From the parallel move to the simulator *)

Definition machine (s : Sim) : mach := (get_xreg s, mem_ s).

Section Execution.
Context `{Target} `{HostNaN} `{Host} {T : Type} `{ops : !IndexTableOps T}.

Lemma run_effects_pc l : forall s t, run_effects l s = Ok t -> pc_ t = pc_ s.
Proof.
  induction l as [|e l IH]; intros s t E; cbn [run_effects] in E; [by apply Ok_inj in E as <-|].
  apply rbind_ok_inv in E as (u & Eu & E). apply effect_pc in Eu as [<- _]. by apply IH.
Qed.

Lemma view_machine s : sim_ok s -> view s (machine s).
Proof. done. Qed.

(** Locations and frames do not look at TMP2. *)
Lemma val_view dist depth s σ l : view s σ -> val dist depth (machine s) l = val dist depth σ l.
Proof.
  intros (_ & Em & Hr). unfold val.
  destruct (classify dist depth l) as [[r|i]|] eqn:El; [..|done]; cbn [get machine fst snd].
  - apply classify_valid in El as [Hr5 Hn]. apply Hr; [done|]. by intros ->.
  - rewrite Em. unfold slot_addr. cbn [fst machine]. by rewrite Hr.
Qed.

Lemma calm_view dist depth s σ σ0 : view s σ -> calm dist depth σ0 σ -> calm dist depth σ0 (machine s).
Proof.
  intros (Hok & Em & Hr) [H1' H2' H3' H4']. split; cbn [machine fst snd].
  - intros r ? ? ? ?. rewrite Hr by done. by apply H1'.
  - rewrite Em. done.
  - by rewrite Em.
  - intros r ? ?. by apply get_xreg_ok.
Qed.

(** C9. From a parallel move to the machine.  For moves among
    allocatable CPU registers and the words of the frame, on the RISC-V targets
    in a release build: [Resolve] schedules them, the emitter
    produces code for the schedule, and the simulator runs this code to its end,
    where every destination holds the value that its source had at the start
    and every other register and frame word the value it had.  The reserved
    registers, SP and FP among them, keep their values except for the two
    scratch registers TMP and TMP2; memory outside the frame is unchanged, but
    for two words below SP where a swap of two slots may have saved
    registers. *)
Theorem ParallelMove_executes (Component : Z -> Z -> Res Z) EmitMoveToLocation c depth pm (m : MacroAsm T) :
  Supports (asm_ m) RV_I = true -> DEBUG = false ->
  - 2 ^ 20 <= fp_sp_dist c <= 0 -> 0 <= depth <= 2 ^ 20 ->
  parallel_move_ok pm ->
  (forall mv, In mv pm -> src_ mv <> 0 -> dest_ mv <> 0 ->
     word_location (fp_sp_dist c) depth (src_ mv) /\ word_location (fp_sp_dist c) depth (dest_ mv)) ->
  exists schedule bytes, Resolve pm new_Resolver = Ok (schedule, new_Resolver) /\
    EmitNativeCode Component EmitMoveToLocation c schedule m = Ok (append m bytes) /\
    forall s, runnable bytes s ->
      area (fp_sp_dist c) depth 0 (pc_ s) (Z.of_nat (length bytes)) (machine s) ->
      exists n t, steps s n t /\ pc_ t = pc_ s + Z.of_nat (length bytes) /\
        parallel pm (val (fp_sp_dist c) depth (machine s)) (val (fp_sp_dist c) depth (machine t)) /\
        calm (fp_sp_dist c) depth (machine s) (machine t).
Proof.
  intros HI Hrel Hdist Hdepth Hpm Hloc. set (dist := fp_sp_dist c) in *.
  destruct (Resolve_correct pm Hpm) as (schedule & Er & Hrun).
  pose proof (Resolve_within (word_location dist depth) (no_word_location dist depth) pm schedule _ Hloc (pm_consistent _ Hpm) Er) as Hops.
  destruct (emit_from_performs m HI Hrel dist depth Hdist Hdepth c schedule eq_refl Component EmitMoveToLocation schedule 0 eq_refl Hops)
    as (f & (l & El & Hl) & Hf).
  destruct (El (buffer_ (asm_ m))) as (bytes & Eb & Hb). rewrite at_buffer_same in Eb.
  exists schedule, bytes. split; [done|]. split; [done|]. intros s Hrun_s Ha.
  destruct (Hl s (machine s) _ _ (view_machine s (run_ok _ _ Hrun_s)) Ha) as (t & Et & Hsp & Hvt).
  destruct (Hf _ _ _ Ha) as [Hcalm Hval].
  destruct (block_reaches bytes l s t Hb Hrun_s Hsp Et (run_effects_pc _ _ _ Et)) as (n & Hst & Hpc).
  eexists n, _. split; [exact Hst|]. split; [exact Hpc|].
  change (machine (moved _ n t)) with (machine t). split; [|by eapply calm_view].
  assert (forall x, val dist depth (machine t) x = run schedule (val dist depth (machine s)) x) as E.
  { intros x. by rewrite (val_view dist depth t _ x Hvt). }
  destruct (Hrun Z (val dist depth (machine s))) as [Hp1 Hp2].
  split; [intros mv ? ?|intros x ?]; rewrite E; [by apply Hp1|by apply Hp2].
Qed.

End Execution.
