(* ===== verification/DataStream.v ===== *)
(** * DataStream: variable-length integers in byte streams

    Models vm/datastream.{h,cc}: ReadStream, BaseWriteStream with its growing
    buffer (MallocWriteStream) and with a buffer that is flushed to a callback
    (StreamingWriteStream), and the encodings of integers that snapshots and
    code descriptors use.  The encoders are written against [ByteSink], what
    the base class asks of its subclasses.  [available] says which sizes the
    host's allocator grants, [fill] what fresh memory contains.  Sizes and
    positions are of the host's [intptr_t]: what overflows it is an
    [UndefinedBehavior]. *)

From stdpp Require Import base numbers list.
From Stdlib Require Import Lia.
From S2P Require Import Prelude Constants Encoding AsmBuffer HashMap.

#[local] Open Scope Z_scope.
#[local] Open Scope res_scope.

Definition kDataBitsPerByte : Z := 7.
Definition kByteMask : Z := Z.shiftl 1 kDataBitsPerByte - 1.
Definition kMaxUnsignedDataPerByte : Z := kByteMask.
Definition kMinDataPerByte : Z := - Z.shiftl 1 (kDataBitsPerByte - 1).
Definition kMaxDataPerByte : Z := Z.land (Z.lnot kMinDataPerByte) kByteMask.
Definition kEndByteMarker : Z := 255 - kMaxDataPerByte.
Definition kEndUnsignedByteMarker : Z := 255 - kMaxUnsignedDataPerByte.

(** LEB128Constants. *)
Definition kDataByteMask : Z := Z.shiftl 1 kDataBitsPerByte - 1.
Definition kMoreDataMask : Z := Z.shiftl 1 kDataBitsPerByte.
Definition kSignMask : Z := Z.shiftl 1 (kDataBitsPerByte - 1).

Section DataStream.
Context `{Target}.

(** A sum or difference of type [intptr_t]; its overflow has no meaning. *)
Definition intptr (x : Z) : Res Z :=
  if decide (inS kBitsPerWord x) then Ok x else Err UndefinedBehavior.

(** [Utils::RoundUp<intptr_t>].  [alignment] and [offset] are converted to
    [uintptr_t], so the sums are of that type and wrap, and the result is
    converted back.  [RoundDown] takes the alignment as [intptr_t] again and
    negates it. *)
Definition RoundUp (x alignment offset : Z) : Res Z :=
  let alignment := wrapU kBitsPerWord alignment in
  let offset := wrapU kBitsPerWord offset in
  ASSERT (offset <? alignment) ;;
  let signed_alignment := wrapS kBitsPerWord alignment in
  let* mask := intptr (- signed_alignment) in
  ASSERT (IsPowerOfTwo signed_alignment) ;;
  let sum := wrapU kBitsPerWord (x + alignment - 1 + offset) in
  Ok (wrapS kBitsPerWord (Z.land sum (wrapU kBitsPerWord mask) - offset)).

(** ** Reading *)

Record ReadStream : Type := mkReadStream { rbytes : list Z; rpos : Z }.

Definition new_ReadStream (bytes : list Z) : ReadStream := mkReadStream bytes 0.

Definition rend (st : ReadStream) : Z := Z.of_nat (length (rbytes st)).

(** Past the end there is nothing to read. *)
Definition byte_at (st : ReadStream) (p : Z) : Res Z :=
  if p <? 0 then Err UndefinedBehavior
  else match rbytes st !! Z.to_nat p with Some b => Ok b | None => Err UndefinedBehavior end.

Definition ReadByte (st : ReadStream) : Res (Z * ReadStream) :=
  ASSERT (rpos st <? rend st) ;;
  let* b := byte_at st (rpos st) in
  Ok (b, mkReadStream (rbytes st) (rpos st + 1)).

Definition ReadPosition (st : ReadStream) : Z := rpos st.
Definition ReadSetPosition (value : Z) (st : ReadStream) : Res ReadStream :=
  ASSERT (value <=? rend st) ;; Ok (mkReadStream (rbytes st) value).
Definition Advance (value : Z) (st : ReadStream) : Res ReadStream :=
  ASSERT (value <=? rend st - rpos st) ;; Ok (mkReadStream (rbytes st) (rpos st + value)).
Definition PendingBytes (st : ReadStream) : Res Z :=
  ASSERT (rpos st <=? rend st) ;; Ok (rend st - rpos st).
Definition ReadAlign (alignment offset : Z) (st : ReadStream) : Res ReadStream :=
  let* position_after := RoundUp (rpos st) alignment offset in
  let* value := intptr (position_after - rpos st) in
  Advance value st.

Definition ReadBytes (len : Z) (st : ReadStream) : Res (list Z * ReadStream) :=
  ASSERT (len <=? rend st - rpos st) ;;
  if (rpos st <? 0) || (len <? 0) || (rend st <? rpos st + len) then Err UndefinedBehavior
  else Ok (take (Z.to_nat len) (drop (Z.to_nat (rpos st)) (rbytes st)),
           mkReadStream (rbytes st) (rpos st + len)).

(** [ReadRefId]: at most four stages; a byte is read as signed. *)
Fixpoint ReadRefId_stages (k : nat) (result cursor : Z) (st : ReadStream) : Res (Z * Z) :=
  match k with
  | O => ASSERT false ;; Ok (result, cursor)
  | S k =>
      let* b := byte_at st cursor in
      let byte := s8 b in
      let result := byte + Z.shiftl result 7 in
      if byte <? 0 then Ok (result, cursor + 1) else ReadRefId_stages k result (cursor + 1) st
  end.

Definition ReadRefId (st : ReadStream) : Res (Z * ReadStream) :=
  let* (result, cursor) := ReadRefId_stages 4 0 (rpos st) st in
  Ok (result + 128, mkReadStream (rbytes st) cursor).

(** [Read<T>(end_byte_marker)] for a type of [w] bits, 32 or 64; the value is
    the unsigned word.  A shift by the width or more has no meaning. *)
Definition shl (w x s : Z) : Res Z :=
  if s <? w then Ok (wrapU w (Z.shiftl (wrapU w x) s)) else Err UndefinedBehavior.

Fixpoint Read_loop (fuel : nat) (w end_byte_marker b r s : Z) (st : ReadStream) : Res (Z * ReadStream) :=
  match fuel with
  | O => Err OutOfFuel
  | S fuel =>
      let* x := shl w b s in
      let r := Z.lor r x in
      let s := u8 (s + kDataBitsPerByte) in
      let* (b, st) := ReadByte st in
      if b <=? kMaxUnsignedDataPerByte then Read_loop fuel w end_byte_marker b r s st
      else let* x := shl w (b - end_byte_marker) s in Ok (Z.lor r x, st)
  end.

Definition Read_with (w end_byte_marker : Z) (st : ReadStream) : Res (Z * ReadStream) :=
  let* (b, st) := ReadByte st in
  if kMaxUnsignedDataPerByte <? b then Ok (wrapU w (b - end_byte_marker), st)
  else Read_loop (Z.to_nat w) w end_byte_marker b 0 0 st.

(** The value in the type: [signed] or not. *)
Definition to_type (signed : bool) (w x : Z) : Z := if signed then wrapS w x else wrapU w x.

Definition Read (signed : bool) (w : Z) (st : ReadStream) : Res (Z * ReadStream) :=
  let* (x, st) := Read_with w kEndByteMarker st in Ok (to_type signed w x, st).
Definition ReadUnsigned (signed : bool) (w : Z) (st : ReadStream) : Res (Z * ReadStream) :=
  let* (x, st) := Read_with w kEndUnsignedByteMarker st in Ok (to_type signed w x, st).

(** [Read16], [Read32] and [Read64], unrolled: UNROLLED_INIT, an UNROLLED_BODY
    for each position but the last, UNROLLED_END.  Shifts of 16-bit operands are
    of int and stay in its range. *)
Fixpoint unrolled (w end_byte_marker r : Z) (bit_starts : list Z) (st : ReadStream) : Res (Z * ReadStream) :=
  match bit_starts with
  | [] => Err Unreachable
  | bit_start :: rest =>
      let* (b, st) := ReadByte st in
      let last := Ok (wrapU w (Z.lor r (Z.shiftl (wrapU w (b - end_byte_marker)) bit_start)), st) in
      match rest with
      | [] => ASSERT (kMaxUnsignedDataPerByte <? b) ;; last
      | _ => if kMaxUnsignedDataPerByte <? b then last
             else unrolled w end_byte_marker (wrapU w (Z.lor r (Z.shiftl b bit_start))) rest st
      end
  end.

Definition unrolled_starts (w : Z) : list Z :=
  if w =? 16 then [7; 14]
  else if w =? 32 then [7; 14; 21; 28]
  else [7; 14; 21; 28; 35; 42; 49; 56; 63].

Definition ReadN_with (w end_byte_marker : Z) (st : ReadStream) : Res (Z * ReadStream) :=
  let* (b, st) := ReadByte st in
  if kMaxUnsignedDataPerByte <? b then Ok (wrapU w (b - end_byte_marker), st)
  else unrolled w end_byte_marker b (unrolled_starts w) st.

Definition Read16 (st : ReadStream) : Res (Z * ReadStream) := ReadN_with 16 kEndByteMarker st.
Definition Read32 (st : ReadStream) : Res (Z * ReadStream) := ReadN_with 32 kEndByteMarker st.
Definition Read64 (st : ReadStream) : Res (Z * ReadStream) := ReadN_with 64 kEndByteMarker st.

(** [Raw<N, T>::Read]: the bits of a value of [w = 8 * N] bits. *)
Definition Raw_Read (signed : bool) (w : Z) (st : ReadStream) : Res (Z * ReadStream) :=
  let* (x, st) := if w =? 8 then ReadByte st else if w =? 16 then Read16 st
                  else if w =? 32 then Read32 st else Read64 st in
  Ok (to_type signed w x, st).

Fixpoint ReadWord_loop (k : nat) (j value : Z) (st : ReadStream) : Res (Z * ReadStream) :=
  match k with
  | O => Ok (value, st)
  | S k =>
      let* (partial_value, st) := Raw_Read false 32 st in
      ReadWord_loop k (j + 1) (Z.lor value (wrapU kBitsPerWord (Z.shiftl partial_value (j * 32)))) st
  end.
Definition ReadWordWith32BitReads (st : ReadStream) : Res (Z * ReadStream) :=
  ReadWord_loop (Z.to_nat (kBitsPerWord / 32)) 0 0 st.

(** LEB128: little groups of seven bits, the high bit says that more follow. *)
Fixpoint LEB128_loop (fuel : nat) (w r s : Z) (st : ReadStream) : Res (Z * Z * Z * ReadStream) :=
  match fuel with
  | O => Err OutOfFuel
  | S fuel =>
      ASSERT (s <? w) ;;
      let* (b, st) := ReadByte st in
      let* x := shl w (Z.land b kDataByteMask) s in
      let r := Z.lor r x in
      let s := u8 (s + kDataBitsPerByte) in
      if Z.land b kMoreDataMask =? 0 then Ok (r, s, b, st) else LEB128_loop fuel w r s st
  end.

Definition ReadLEB128_unsigned (w : Z) (st : ReadStream) : Res (Z * ReadStream) :=
  let* (r, s, b, st) := LEB128_loop (Z.to_nat w) w 0 0 st in
  ASSERT (s <? kDataBitsPerByte + w) ;; Ok (r, st).

Definition ReadLEB128 (signed : bool) (w : Z) (st : ReadStream) : Res (Z * ReadStream) :=
  let* (x, st) := ReadLEB128_unsigned w st in Ok (to_type signed w x, st).

Definition ReadSLEB128_unsigned (w : Z) (st : ReadStream) : Res (Z * ReadStream) :=
  let* (r, s, b, st) := LEB128_loop (Z.to_nat w) w 0 0 st in
  ASSERT (s <? kDataBitsPerByte + w) ;;
  let sign_bits := if negb (Z.land b kSignMask =? 0) && (s <? w)
                   then wrapU w (Z.lnot (wrapU w (Z.shiftl 1 s - 1))) else 0 in
  Ok (Z.lor r sign_bits, st).

Definition ReadSLEB128 (signed : bool) (w : Z) (st : ReadStream) : Res (Z * ReadStream) :=
  let* (x, st) := ReadSLEB128_unsigned w st in Ok (to_type signed w x, st).

(** ** Writing *)

(** What the encoders use of a stream: room for a number of bytes, and the
    store at [current_]. *)
Class ByteSink (W : Type) := {
  EnsureSpace : Z -> W -> Res W;
  put : Z -> W -> Res W
}.

Section Encoders.
Context {W : Type} `{!ByteSink W}.

Definition WriteByte (value : Z) (s : W) : Res W := let* s := EnsureSpace 1 s in put (u8 value) s.

Fixpoint put_all (bytes : list Z) (s : W) : Res W :=
  match bytes with [] => Ok s | b :: bytes => let* s := put b s in put_all bytes s end.

Definition WriteBytes (bytes : list Z) (s : W) : Res W :=
  match bytes with
  | [] => Ok s
  | _ => let* s := EnsureSpace (Z.of_nat (length bytes)) s in put_all bytes s
  end.

(** [WriteFixed<T>] copies the value's object representation, little-endian. *)
Definition WriteFixed (w value : Z) (s : W) : Res W := WriteBytes (le_split (Z.to_nat (w / 8)) (wrapU w value)) s.
Definition WriteWord (value : Z) (s : W) : Res W := WriteFixed kBitsPerWord value s.

Fixpoint WriteUnsigned_loop (fuel : nat) (value : Z) (s : W) : Res W :=
  match fuel with
  | O => Err OutOfFuel
  | S fuel =>
      if kMaxUnsignedDataPerByte <? value then
        let* s := WriteByte (Z.land value kByteMask) s in
        WriteUnsigned_loop fuel (Z.shiftr value kDataBitsPerByte) s
      else WriteByte (value + kEndUnsignedByteMarker) s
  end.
Definition WriteUnsigned (w value : Z) (s : W) : Res W :=
  ASSERT (0 <=? value) ;; WriteUnsigned_loop (Z.to_nat w) value s.

Definition WriteRefId (value : Z) (s : W) : Res W :=
  ASSERT (IsUint 28 value) ;;
  let* s := EnsureSpace 4 s in
  let put_if shift s :=
    if Z.shiftr value shift =? 0 then Ok s else put (u8 (Z.land (Z.shiftr value shift) 127)) s in
  let* s := put_if 21 s in
  let* s := put_if 14 s in
  let* s := put_if 7 s in
  put (u8 (Z.lor (Z.land (Z.shiftr value 0) 127) 128)) s.

(** [Write<T>], for a signed type. *)
Fixpoint Write_loop (fuel : nat) (v : Z) (s : W) : Res W :=
  match fuel with
  | O => Err OutOfFuel
  | S fuel =>
      if (v <? kMinDataPerByte) || (kMaxDataPerByte <? v) then
        let* s := WriteByte (Z.land v kByteMask) s in
        Write_loop fuel (Z.shiftr v kDataBitsPerByte) s
      else WriteByte (v + kEndByteMarker) s
  end.
Definition Write (w value : Z) (s : W) : Res W := Write_loop (Z.to_nat w) value s.

(** [Raw<N, T>::Write]: the bits of the value as a signed integer. *)
Definition Raw_Write (w value : Z) (s : W) : Res W :=
  if w =? 8 then WriteByte value s else Write w (wrapS w value) s.

Fixpoint WriteWord_loop (k : nat) (j value : Z) (s : W) : Res W :=
  match k with
  | O => Ok s
  | S k =>
      let shifted_value := u32 (Z.shiftr value (j * 32)) in
      let* s := Raw_Write 32 (Z.land shifted_value (2 ^ 32 - 1)) s in
      WriteWord_loop k (j + 1) value s
  end.
Definition WriteWordWith32BitWrites (value : Z) (s : W) : Res W :=
  WriteWord_loop (Z.to_nat (kBitsPerWord / 32)) 0 value s.

Fixpoint WriteLEB128_loop (fuel : nat) (remainder : Z) (s : W) : Res W :=
  match fuel with
  | O => Err OutOfFuel
  | S fuel =>
      let part := u8 (Z.land remainder kDataByteMask) in
      let remainder := Z.shiftr remainder kDataBitsPerByte in
      let is_last_part := remainder =? 0 in
      let part := if is_last_part then part else Z.lor part kMoreDataMask in
      let* s := WriteByte part s in
      if is_last_part then Ok s else WriteLEB128_loop fuel remainder s
  end.
Definition WriteLEB128 (signed : bool) (w value : Z) (s : W) : Res W :=
  ASSERT (negb signed || (0 <=? value)) ;;
  WriteLEB128_loop (Z.to_nat w) (wrapU w value) s.

Fixpoint WriteSLEB128_loop (fuel : nat) (w : Z) (is_negative : bool) (remainder : Z) (s : W) : Res W :=
  match fuel with
  | O => Err OutOfFuel
  | S fuel =>
      let part := u8 (Z.land remainder kDataByteMask) in
      let remainder := Z.shiftr remainder kDataBitsPerByte in
      let sign_extend := Z.lnot (wrapS w (wrapU w (Z.shiftl 1 (w - kDataBitsPerByte)) - 1)) in
      let remainder := if is_negative then Z.lor remainder sign_extend else remainder in
      ASSERT (if is_negative then remainder <? 0 else 0 <=? remainder) ;;
      let is_last_part :=
        if is_negative then (remainder =? -1) && negb (Z.land part kSignMask =? 0)
        else (remainder =? 0) && (Z.land part kSignMask =? 0) in
      let part := if is_last_part then part else Z.lor part kMoreDataMask in
      let* s := WriteByte part s in
      if is_last_part then Ok s else WriteSLEB128_loop fuel w is_negative remainder s
  end.
Definition WriteSLEB128 (w value : Z) (s : W) : Res W :=
  let value := wrapS w value in
  WriteSLEB128_loop (Z.to_nat w) w (value <? 0) value s.

End Encoders.

(** ** The streams *)

Class Allocator := { available : Z -> bool; fill : Z -> Z }.

Section Streams.
Context `{Allocator}.

(** The fields of BaseWriteStream; [capacity_] is the length of the buffer. *)
Record BaseStream : Type := mkBase { initial_size_ : Z; wbuffer_ : list Z; current_ : Z }.

Definition capacity_ (s : BaseStream) : Z := Z.of_nat (length (wbuffer_ s)).
Definition Remaining (s : BaseStream) : Z := capacity_ s - current_ s.

(** The buffer after [realloc]. *)
Definition grown (buffer : list Z) (new_size : Z) : list Z :=
  buffer ++ ((fun k => u8 (fill (Z.of_nat k))) <$> seq (length buffer) (Z.to_nat new_size - length buffer)).

(** [EnsureSpace] up to the call of [Realloc]: the new size, if one is needed. *)
Definition new_size (size_needed : Z) (s : BaseStream) : Res (option Z) :=
  if size_needed <=? Remaining s then Ok None
  else
    let* increment_size := if capacity_ s <? size_needed then RoundUp size_needed (initial_size_ s) 0
                           else Ok (capacity_ s) in
    let* new_size := intptr (capacity_ s + increment_size) in
    ASSERT (capacity_ s <? new_size) ;; Ok (Some new_size).

Definition base_put (value : Z) (s : BaseStream) : Res BaseStream :=
  if (current_ s <? 0) || (capacity_ s <=? current_ s) then Err UndefinedBehavior
  else Ok (mkBase (initial_size_ s) (<[Z.to_nat (current_ s) := value]> (wbuffer_ s)) (current_ s + 1)).

(** What [realloc] grants: a negative size becomes a [size_t] larger than any
    object. *)
Definition granted (n : Z) : bool := (0 <=? n) && available n.

(** MallocWriteStream. *)
Definition Malloc_Realloc (n : Z) (s : BaseStream) : Res BaseStream :=
  if granted n then Ok (mkBase (initial_size_ s) (grown (wbuffer_ s) n) (current_ s))
  else Err OutOfMemory.

Definition Malloc_EnsureSpace (size_needed : Z) (s : BaseStream) : Res BaseStream :=
  let* n := new_size size_needed s in
  match n with
  | None => Ok s
  | Some n => let* s := Malloc_Realloc n s in ASSERT (size_needed <=? Remaining s) ;; Ok s
  end.

#[export] Instance MallocWriteStream : ByteSink BaseStream :=
  {| EnsureSpace := Malloc_EnsureSpace; put := base_put |}.

Definition new_MallocWriteStream (initial_size : Z) : BaseStream :=
  mkBase (wrapS kBitsPerWord (RoundUpToPowerOfTwo (wrapU kBitsPerWord initial_size))) [] 0.

Definition WriteSetPosition (value : Z) (s : BaseStream) : Res BaseStream :=
  let* size_needed := intptr (value - current_ s) in
  let* s := Malloc_EnsureSpace size_needed s in
  if (value <? 0) || (capacity_ s <? value) then Err UndefinedBehavior
  else Ok (mkBase (initial_size_ s) (wbuffer_ s) value).

(** [Align]: zeros up to the next aligned position; its value is their number. *)
Definition WriteAlign (alignment offset : Z) (s : BaseStream) : Res (Z * BaseStream) :=
  let position_before := current_ s in
  let* position_after := RoundUp position_before alignment offset in
  let* length := intptr (position_after - position_before) in
  if length =? 0 then Ok (0, s)
  else
    let* s := Malloc_EnsureSpace length s in
    let* s := put_all (replicate (Z.to_nat length) 0) s in
    Ok (length, s).

(** The bytes written and the stream that is left. *)
Definition Steal (s : BaseStream) : list Z * BaseStream :=
  (take (Z.to_nat (current_ s)) (wbuffer_ s), mkBase (initial_size_ s) [] 0).

(** StreamingWriteStream; [sent] is what the callback has received. *)
Record StreamingStream : Type := mkStreaming { sbase : BaseStream; sent : list Z }.

Definition flushed_size_ (s : StreamingStream) : Z := Z.of_nat (length (sent s)).
Definition StreamingPosition (s : StreamingStream) : Res Z := intptr (flushed_size_ s + current_ (sbase s)).

Definition Flush (s : StreamingStream) : Res StreamingStream :=
  let size := current_ (sbase s) in
  let sent' := sent s ++ take (Z.to_nat size) (wbuffer_ (sbase s)) in
  let* _ := intptr (flushed_size_ s + size) in
  Ok (mkStreaming (mkBase (initial_size_ (sbase s)) (wbuffer_ (sbase s)) 0) sent').


Definition Streaming_Realloc (n : Z) (s : StreamingStream) : Res StreamingStream :=
  let* s := Flush s in
  if n <=? capacity_ (sbase s) then Ok s
  else
    let* new_capacity := RoundUp n (64 * 1024) 0 in
    if granted new_capacity
    then Ok (mkStreaming (mkBase (initial_size_ (sbase s)) (grown (wbuffer_ (sbase s)) new_capacity) 0) (sent s))
    else Err OutOfMemory.

Definition Streaming_EnsureSpace (size_needed : Z) (s : StreamingStream) : Res StreamingStream :=
  let* n := new_size size_needed (sbase s) in
  match n with
  | None => Ok s
  | Some n => let* s := Streaming_Realloc n s in ASSERT (size_needed <=? Remaining (sbase s)) ;; Ok s
  end.

(** [StreamingWriteStream::SetPosition]: not to data that was flushed. *)
Definition Streaming_SetPosition (value : Z) (s : StreamingStream) : Res StreamingStream :=
  ASSERT (flushed_size_ s <=? value) ;;
  let* value := intptr (value - flushed_size_ s) in
  let* size_needed := intptr (value - current_ (sbase s)) in
  let* s := Streaming_EnsureSpace size_needed s in
  if (value <? 0) || (capacity_ (sbase s) <? value) then Err UndefinedBehavior
  else Ok (mkStreaming (mkBase (initial_size_ (sbase s)) (wbuffer_ (sbase s)) value) (sent s)).

Definition Streaming_put (value : Z) (s : StreamingStream) : Res StreamingStream :=
  let* b := base_put value (sbase s) in Ok (mkStreaming b (sent s)).

#[export] Instance StreamingWriteStream : ByteSink StreamingStream :=
  {| EnsureSpace := Streaming_EnsureSpace; put := Streaming_put |}.

End Streams.
End DataStream.
