(* ===== verification/DataStreamSpec.v ===== *)
(** * DataStreamSpec: what is written is read back

    Every encoding is a relation between byte lists and values ([groups] for the
    marker encodings, [leb] for LEB128); the writers produce it and the readers
    invert it.  The writers are followed through any sink that keeps the laws of
    [SinkLaws]. *)

From stdpp Require Import base numbers list sets.
From Stdlib Require Import Lia.
From S2P Require Import Prelude Constants Encoding AsmBuffer HashMap DataStream.

#[local] Open Scope Z_scope.
#[local] Open Scope res_scope.

Definition is_byte (b : Z) : Prop := 0 <= b < 256.

(** Facts about bytes by evaluation. *)
Lemma all_bytes (P : Z -> bool) :
  forallb (fun n => P (Z.of_nat n)) (seq 0 256) = true -> forall b, is_byte b -> P b = true.
Proof.
  intros Hall b [Hb0 Hb1]. rewrite forallb_forall in Hall. rewrite <- (Z2Nat.id b) by done. apply Hall.
  apply in_seq. lia.
Qed.

Lemma more_bit b : is_byte b -> (Z.land b 128 =? 0) = (b <? 128).
Proof. intros Hb. apply eqb_prop. by apply (all_bytes (fun b => eqb (Z.land b 128 =? 0) (b <? 128))). Qed.

Lemma all_groups (P : Z -> bool) :
  forallb (fun n => implb (Z.of_nat n <? 128) (P (Z.of_nat n))) (seq 0 256) = true ->
  forall b, 0 <= b < 128 -> P b = true.
Proof.
  intros Hall b Hb. pose proof (all_bytes (fun b => implb (b <? 128) (P b)) Hall b) as E.
  cbv beta in E. rewrite (proj2 (Z.ltb_lt b 128)) in E by lia. apply E. unfold is_byte. lia.
Qed.

Lemma sign_bit b : 0 <= b < 128 -> (Z.land b 64 =? 0) = (b <? 64).
Proof. intros Hb. apply eqb_prop. by apply (all_groups (fun b => eqb (Z.land b 64 =? 0) (b <? 64))). Qed.

Lemma set_more b : 0 <= b < 128 -> Z.lor b 128 = b + 128.
Proof. intros Hb. apply Z.eqb_eq. by apply (all_groups (fun b => Z.lor b 128 =? b + 128)). Qed.

(** ** Sinks *)

Section Sinks.
Context `{Target} `{Allocator}.

(** The sizes a buffer goes through while it grows to hold [n] bytes are below
    twice [n] and a constant of the stream; they must be of type [intptr_t]. *)
Definition size_fits (n slack : Z) : Prop := 2 * n + slack < 2 ^ (kBitsPerWord - 1).

(** What a stream promises: its content only grows at the end, and as long as
    the sizes fit the only failure is that the allocator refuses one. *)
Class SinkLaws (W : Type) `{!ByteSink W} := {
  sink_ok : W -> Prop;
  contents : W -> list Z;
  room : W -> Z;
  slack : W -> Z;
  EnsureSpace_law : forall n s, sink_ok s -> 0 <= n -> size_fits (Z.of_nat (length (contents s)) + n) (slack s) ->
    (EnsureSpace n s = Err OutOfMemory /\ exists k, available k = false) \/
    exists s', EnsureSpace n s = Ok s' /\ sink_ok s' /\ contents s' = contents s /\ n <= room s' /\ slack s' = slack s;
  put_law : forall b s, sink_ok s -> is_byte b -> 1 <= room s ->
    exists s', put b s = Ok s' /\ sink_ok s' /\ contents s' = contents s ++ [b] /\ room s' = room s - 1 /\
      slack s' = slack s
}.

Section Appends.
Context {W : Type} `{!ByteSink W} `{!SinkLaws W}.

(** A writer asks for four bytes at most beyond those it writes. *)
Definition kept_ahead : Z := 4.

Definition fits (s : W) (n : nat) : Prop :=
  size_fits (Z.of_nat (length (contents s)) + Z.of_nat n + kept_ahead) (slack s).

Definition appends (f : W -> Res W) (bytes : list Z) : Prop :=
  forall s, sink_ok s -> fits s (length bytes) ->
    (f s = Err OutOfMemory /\ exists k, available k = false) \/
    exists s', f s = Ok s' /\ sink_ok s' /\ contents s' = contents s ++ bytes /\ slack s' = slack s.

Lemma fits_le s n k : (k <= n)%nat -> fits s n -> fits s k.
Proof. unfold fits, size_fits. lia. Qed.

Lemma fits_ensure s n k : (k <= n)%nat -> fits s n ->
  size_fits (Z.of_nat (length (contents s)) + Z.of_nat k) (slack s) /\
  size_fits (Z.of_nat (length (contents s)) + kept_ahead) (slack s).
Proof. unfold fits, size_fits, kept_ahead. lia. Qed.

Lemma fits_app s s' bs n :
  contents s' = contents s ++ bs -> slack s' = slack s -> fits s (length bs + n) -> fits s' n.
Proof. unfold fits, size_fits. intros -> ->. rewrite length_app. lia. Qed.

Lemma appends_nil : appends (fun s => Ok s) [].
Proof. intros s Hs _. right. exists s. by rewrite app_nil_r. Qed.

Lemma appends_then f g bs bs' :
  appends f bs -> appends g bs' -> appends (fun s => let* s := f s in g s) (bs ++ bs').
Proof.
  intros Hf Hg s Hs Hfit. rewrite length_app in Hfit.
  destruct (Hf s Hs) as [[-> Hk]|(s1 & -> & Hs1 & E1 & L1)]; [by eapply fits_le; [|done]; lia|by left|]. cbn [rbind].
  destruct (Hg s1 Hs1) as [[-> Hk]|(s2 & -> & Hs2 & E2 & L2)]; [by eapply fits_app|by left|]. right. exists s2.
  by rewrite E2, E1, app_assoc, L2.
Qed.

Lemma put_all_law bytes : forall s, sink_ok s -> Forall is_byte bytes -> Z.of_nat (length bytes) <= room s ->
  exists s', put_all bytes s = Ok s' /\ sink_ok s' /\ contents s' = contents s ++ bytes /\ slack s' = slack s.
Proof.
  induction bytes as [|b bytes IH]; intros s Hs Hb Hr; [exists s; by rewrite app_nil_r|].
  apply Forall_cons in Hb as [Hb Hbs]. cbn in Hr. destruct (put_law b s Hs Hb) as (s1 & E1 & Hs1 & C1 & R1 & L1); [lia|].
  cbn [put_all]. rewrite E1. cbn [rbind]. destruct (IH s1 Hs1 Hbs) as (s2 & E2 & Hs2 & C2 & L2); [lia|].
  exists s2. by rewrite C2, C1, L2, <- app_assoc.
Qed.

Lemma WriteBytes_appends bytes : Forall is_byte bytes -> appends (WriteBytes bytes) bytes.
Proof.
  intros Hb. destruct bytes as [|b bytes]; [apply appends_nil|]. intros s Hs Hfit. unfold WriteBytes.
  destruct (EnsureSpace_law (Z.of_nat (length (b :: bytes))) s Hs) as [[-> Hk]|(s1 & -> & Hs1 & E1 & Hr & L1)];
    [lia|by eapply fits_ensure|by left|]. right. cbn [rbind].
  destruct (put_all_law (b :: bytes) s1 Hs1 Hb Hr) as (s2 & E2 & Hs2 & C2 & L2). exists s2. by rewrite C2, E1, L2.
Qed.

Lemma WriteByte_appends b : appends (WriteByte b) [u8 b].
Proof.
  intros s Hs Hfit. unfold WriteByte.
  destruct (EnsureSpace_law 1 s Hs) as [[-> Hk]|(s1 & -> & Hs1 & E1 & Hr & L1)];
    [lia|by apply (fits_ensure s 1 1)|by left|]. right. cbn [rbind].
  destruct (put_law (u8 b) s1 Hs1) as (s2 & E2 & Hs2 & C2 & _ & L2); [|done|].
  { pose proof (wrapU_range 8 b). unfold inU, is_byte in *. lia. }
  exists s2. by rewrite C2, E1, L2.
Qed.

Lemma WriteByte_byte b : is_byte b -> appends (WriteByte b) [b].
Proof. intros Hb. rewrite <- (wrapU_small 8 b) at 2 by done. apply WriteByte_appends. Qed.

End Appends.
End Sinks.

(** ** Reading a list of bytes *)

Section Reading.
Context `{Target}.

(** [bs] comes next in the stream. *)
Definition follows (st : ReadStream) (bs : list Z) : Prop :=
  0 <= rpos st /\ exists rest, drop (Z.to_nat (rpos st)) (rbytes st) = bs ++ rest.

Definition advanced (st : ReadStream) (n : nat) : ReadStream := mkReadStream (rbytes st) (rpos st + Z.of_nat n).

Lemma follows_tail st b bs : follows st (b :: bs) -> follows (advanced st 1) bs.
Proof.
  intros (Hp & rest & E). split; [cbn; lia|]. exists rest. unfold advanced. cbn [rpos rbytes].
  replace (Z.to_nat (rpos st + Z.of_nat 1)) with (Z.to_nat (rpos st) + 1)%nat by lia.
  by rewrite <- drop_drop, E.
Qed.

Lemma follows_app st bs bs' : follows st (bs ++ bs') -> follows st bs /\ follows (advanced st (length bs)) bs'.
Proof.
  intros (Hp & rest & E). rewrite <- app_assoc in E. split; [by split; [|eexists]|]. split; [cbn; lia|]. exists rest. unfold advanced. cbn [rpos rbytes].
  replace (Z.to_nat (rpos st + Z.of_nat (length bs))) with (Z.to_nat (rpos st) + length bs)%nat by lia.
  by rewrite <- drop_drop, E, drop_app_length.
Qed.

Lemma advanced_advanced st n k : advanced (advanced st n) k = advanced st (n + k).
Proof. unfold advanced. cbn. f_equal. lia. Qed.

Lemma byte_at_follows st b bs : follows st (b :: bs) -> byte_at st (rpos st) = Ok b /\ rpos st < rend st.
Proof.
  intros (Hp & rest & E). unfold byte_at, rend. rewrite (proj2 (Z.ltb_ge _ _)) by done.
  assert (rbytes st !! Z.to_nat (rpos st) = Some b) as Hl.
  { rewrite <- (Nat.add_0_r (Z.to_nat (rpos st))), <- lookup_drop, E. done. }
  rewrite Hl. split; [done|]. apply lookup_lt_Some in Hl. lia.
Qed.

Lemma ReadByte_follows st b bs : follows st (b :: bs) -> ReadByte st = Ok (b, advanced st 1).
Proof.
  intros Hf. destruct (byte_at_follows st b bs Hf) as [E Hlt]. unfold ReadByte.
  rewrite ASSERT_true by by apply Z.ltb_lt. cbn [rbind]. rewrite E. done.
Qed.

(** *** Assembling a word from groups of bits *)

Lemma lor_add r x s : 0 <= s -> inU s r -> Z.lor r (Z.shiftl x s) = r + x * 2 ^ s.
Proof.
  intros Hs Hr. rewrite <- Z.shiftl_mul_pow2 by done.
  assert (Z.land r (Z.shiftl x s) = 0) as E.
  { apply Z.bits_inj'. intros i Hi. rewrite Z.land_spec, Z.shiftl_spec, Z.bits_0 by done.
    destruct (Z.lt_ge_cases i s); [rewrite (Z.testbit_neg_r x) by lia; apply andb_false_r|].
    by rewrite (testbit_small s) by (done || lia). }
  rewrite Z.add_nocarry_lxor by done. by rewrite Z.lxor_lor.
Qed.

Lemma lor_shl w r x s :
  0 <= s < w -> inU s r -> Z.lor r (wrapU w (Z.shiftl (wrapU w x) s)) = wrapU w (r + x * 2 ^ s).
Proof.
  intros Hs Hr. rewrite <- lor_add by (done || lia). bitblast.
Qed.

Lemma shl_ok w x s : s < w -> shl w x s = Ok (wrapU w (Z.shiftl (wrapU w x) s)).
Proof. intros Hs. unfold shl. by rewrite (proj2 (Z.ltb_lt _ _)). Qed.

Lemma u8_count s : 0 <= s < 249 -> u8 (s + kDataBitsPerByte) = s + 7.
Proof. intros Hs. apply wrapU_small. unfold inU, kDataBitsPerByte. lia. Qed.

(** A group below the ones to come. *)
Lemma group_range b r s : inU s r -> 0 <= s -> 0 <= b < 128 -> inU (s + 7) (r + b * 2 ^ s).
Proof. unfold inU. intros. rewrite Z.pow_add_r by lia. change (2 ^ 7) with 128. nia. Qed.

Lemma wrapU_below w s x : inU s x -> 0 <= s <= w -> wrapU w x = x.
Proof.
  intros Hx Hs. apply wrapU_small. unfold inU in *. split; [lia|].
  eapply Z.lt_le_trans; [apply Hx|]. apply Z.pow_le_mono_r; lia.
Qed.

(** ** Groups with an end marker *)

(** Little-endian groups of seven bits; the last byte is 128 or more and holds
    the rest of the value, shifted by [marker]. *)
Inductive groups (marker : Z) : list Z -> Z -> Prop :=
| groups_last b : 128 <= b < 256 -> groups marker [b] (b - marker)
| groups_more b bs v : 0 <= b < 128 -> groups marker bs v -> groups marker (b :: bs) (b + 128 * v).

Lemma groups_length marker bs v : groups marker bs v -> (1 <= length bs)%nat.
Proof. destruct 1; cbn; lia. Qed.

(** The generic loop, from the first byte. *)
Lemma Read_loop_spec w marker bs v :
  groups marker bs v -> w <= 128 -> forall fuel b r s st,
  0 <= b < 128 -> 0 <= s -> inU s r -> s + 7 * Z.of_nat (length bs) < w -> (length bs <= fuel)%nat ->
  follows st bs ->
  Read_loop fuel w marker b r s st = Ok (wrapU w (r + (b + 128 * v) * 2 ^ s), advanced st (length bs)).
Proof.
  intros Hg Hw. induction Hg as [c Hc|c bs v Hc Hg IH]; intros [|fuel] b r s st Hb Hs Hr Hlen Hfuel Hf;
    cbn [length] in *; try lia; cbn [Read_loop].
  - rewrite shl_ok by lia. cbn [rbind]. rewrite lor_shl by (done || lia). rewrite u8_count by lia.
    rewrite (ReadByte_follows _ _ _ Hf). cbn [rbind].
    rewrite (proj2 (Z.leb_gt c kMaxUnsignedDataPerByte)) by (change kMaxUnsignedDataPerByte with 127; lia).
    pose proof (group_range b r s Hr Hs Hb) as Hr'. rewrite (wrapU_below w (s + 7)) by (done || lia).
    rewrite shl_ok by lia. cbn [rbind]. rewrite lor_shl by (done || lia). f_equal. f_equal.
    f_equal. rewrite Z.pow_add_r by lia. change (2 ^ 7) with 128. lia.
  - rewrite shl_ok by lia. cbn [rbind]. rewrite lor_shl by (done || lia). rewrite u8_count by lia.
    rewrite (ReadByte_follows _ _ _ Hf). cbn [rbind].
    rewrite (proj2 (Z.leb_le c kMaxUnsignedDataPerByte)) by (change kMaxUnsignedDataPerByte with 127; lia).
    pose proof (group_range b r s Hr Hs Hb) as Hr'. rewrite (wrapU_below w (s + 7)) by (done || lia).
    rewrite (IH fuel c _ (s + 7) _) by (done || lia || by eapply follows_tail).
    rewrite advanced_advanced. f_equal. f_equal. f_equal. rewrite Z.pow_add_r by lia. change (2 ^ 7) with 128. lia.
Qed.

Lemma Read_with_spec w marker bs v st :
  groups marker bs v -> 7 * (Z.of_nat (length bs) - 1) < w <= 128 -> follows st bs ->
  Read_with w marker st = Ok (wrapU w v, advanced st (length bs)).
Proof.
  intros Hg Hlen Hf. destruct Hg as [c Hc|c bs v Hc Hg]; unfold Read_with; rewrite (ReadByte_follows _ _ _ Hf); cbn [rbind].
  - rewrite (proj2 (Z.ltb_lt kMaxUnsignedDataPerByte c)) by (change kMaxUnsignedDataPerByte with 127; lia). done.
  - rewrite (proj2 (Z.ltb_ge kMaxUnsignedDataPerByte c)) by (change kMaxUnsignedDataPerByte with 127; lia).
    cbn [length] in Hlen. pose proof (groups_length _ _ _ Hg).
    rewrite (Read_loop_spec w marker bs v) by (done || lia || by eapply follows_tail).
    rewrite advanced_advanced. f_equal. f_equal. f_equal. lia.
Qed.

(** The unrolled readers agree with it. *)
Lemma unrolled_spec w marker bs v :
  groups marker bs v -> forall starts s r st,
  0 <= s -> inU s r -> s <= w ->
  starts = (fun k => s + 7 * Z.of_nat k) <$> seq 0 (length starts) -> (length bs <= length starts)%nat ->
  s + 7 * (Z.of_nat (length starts) - 1) < w -> follows st bs ->
  unrolled w marker r starts st = Ok (wrapU w (r + v * 2 ^ s), advanced st (length bs)).
Proof.
  intros Hg. induction Hg as [c Hc|c bs v Hc Hg IH]; intros [|s0 starts] s r st Hs Hr Hsw Est Hlen Hw Hf;
    cbn [length] in *; try lia; cbn [unrolled]; injection Est as Es0 Est; rewrite Z.add_0_r in Es0; subst s0;
    rewrite (ReadByte_follows _ _ _ Hf); cbn [rbind].
  - assert (wrapU w (Z.lor r (Z.shiftl (wrapU w (c - marker)) s)) = wrapU w (r + (c - marker) * 2 ^ s)) as ->.
    { rewrite <- lor_add by (done || lia). bitblast. }
    rewrite (proj2 (Z.ltb_lt kMaxUnsignedDataPerByte c)) by (change kMaxUnsignedDataPerByte with 127; lia).
    destruct starts; [by rewrite ASSERT_true|done].
  - pose proof (groups_length _ _ _ Hg). destruct starts as [|s1 starts]; [cbn in *; lia|].
    rewrite (proj2 (Z.ltb_ge kMaxUnsignedDataPerByte c)) by (change kMaxUnsignedDataPerByte with 127; lia).
    rewrite lor_add by (done || lia). pose proof (group_range c r s Hr Hs Hc) as Hr'. cbn [length] in *.
    rewrite (wrapU_below w (s + 7)) by (done || lia).
    rewrite (IH (s1 :: starts) (s + 7) _) by (done || (cbn [length] in *; lia) || (by eapply follows_tail) ||
      (rewrite Est at 1; cbn [length]; rewrite <- seq_shift, <- list_fmap_compose;
       apply list_fmap_ext; intros; cbn; lia)).
    rewrite advanced_advanced. f_equal. f_equal. f_equal. rewrite Z.pow_add_r by lia. change (2 ^ 7) with 128. lia.
Qed.

(** The number of groups a value of [w] bits can have. *)
Definition max_groups (w : Z) : nat := Z.to_nat ((w + 6) / 7).

Lemma ReadN_with_spec w marker bs v st :
  groups marker bs v -> In w [16; 32; 64] -> (length bs <= max_groups w)%nat -> follows st bs ->
  ReadN_with w marker st = Ok (wrapU w v, advanced st (length bs)).
Proof.
  intros Hg Hw Hlen Hf. destruct Hg as [c Hc|c bs v Hc Hg]; unfold ReadN_with; rewrite (ReadByte_follows _ _ _ Hf); cbn [rbind].
  - rewrite (proj2 (Z.ltb_lt kMaxUnsignedDataPerByte c)) by (change kMaxUnsignedDataPerByte with 127; lia). done.
  - rewrite (proj2 (Z.ltb_ge kMaxUnsignedDataPerByte c)) by (change kMaxUnsignedDataPerByte with 127; lia).
    cbn [length] in Hlen.
    rewrite (unrolled_spec w marker bs v Hg _ 7).
    + rewrite advanced_advanced. f_equal. f_equal. f_equal. lia.
    + lia.
    + unfold inU. lia.
    + destruct Hw as [<-|[<-|[<-|[]]]]; lia.
    + by destruct Hw as [<-|[<-|[<-|[]]]].
    + destruct Hw as [<-|[<-|[<-|[]]]]; cbv in Hlen |- *; lia.
    + destruct Hw as [<-|[<-|[<-|[]]]]; cbn; lia.
    + by eapply follows_tail.
Qed.

(** *** Writing them *)

Section Writing.
Context `{!Allocator} {W : Type} `{!ByteSink W} `{!SinkLaws W}.

Lemma low_group v : Z.land v kByteMask = v mod 128 /\ Z.shiftr v kDataBitsPerByte = v / 128.
Proof.
  split; [apply (Z.land_ones v 7); lia|]. by rewrite Z.shiftr_div_pow2.
Qed.

Lemma group_split v : v = v mod 128 + 128 * (v / 128).
Proof. pose proof (Z.div_mod v 128). lia. Qed.

Lemma Write_loop_spec fuel : forall k v,
  (0 < k <= fuel)%nat -> inS (7 * Z.of_nat k) v ->
  exists bs, appends (Write_loop fuel v) bs /\ groups kEndByteMarker bs v /\ (length bs <= k)%nat.
Proof.
  induction fuel as [|fuel IH]; intros k v Hk Hv; [lia|]. cbn [Write_loop].
  change kMinDataPerByte with (-64). change kMaxDataPerByte with 63. destruct (low_group v) as [-> ->].
  destruct ((v <? -64) || (63 <? v)) eqn:E.
  - assert (v < -64 \/ 63 < v) as Hbig by (apply orb_true_iff in E as [E%Z.ltb_lt|E%Z.ltb_lt]; lia).
    assert (k <> 1)%nat as Hk1. { intros ->. change (7 * Z.of_nat 1) with 7 in Hv. unfold inS in Hv. cbn in Hv. lia. }
    destruct (IH (k - 1)%nat (v / 128)) as (bs & Ha & Hg & Hl); [lia| |].
    { unfold inS in *. replace (7 * Z.of_nat k - 1) with (7 * Z.of_nat (k - 1) - 1 + 7) in Hv by lia.
      rewrite Z.pow_add_r in Hv by lia. change (2 ^ 7) with 128 in Hv.
      pose proof (Z.div_mod v 128). pose proof (Z.mod_pos_bound v 128). nia. }
    exists (v mod 128 :: bs). split; [|split; [|cbn; lia]].
    + apply (appends_then (WriteByte (v mod 128)) (Write_loop fuel (v / 128)) [v mod 128] bs); [|done].
      apply WriteByte_byte. unfold is_byte. pose proof (Z.mod_pos_bound v 128). lia.
    + rewrite (group_split v) at 2. apply groups_more; [by apply Z.mod_pos_bound|done].
  - apply orb_false_iff in E as [E1%Z.ltb_ge E2%Z.ltb_ge]. change kEndByteMarker with 192.
    exists [v + 192]. split; [apply WriteByte_byte; unfold is_byte; lia|]. split; [|cbn; lia].
    replace v with (v + 192 - 192) at 2 by lia. apply groups_last. lia.
Qed.

Lemma WriteUnsigned_loop_spec fuel : forall k v,
  (0 < k <= fuel)%nat -> inU (7 * Z.of_nat k) v ->
  exists bs, appends (WriteUnsigned_loop fuel v) bs /\ groups kEndUnsignedByteMarker bs v /\ (length bs <= k)%nat.
Proof.
  induction fuel as [|fuel IH]; intros k v Hk Hv; [lia|]. cbn [WriteUnsigned_loop].
  change kMaxUnsignedDataPerByte with 127. destruct (low_group v) as [-> ->].
  destruct (Z.ltb_spec 127 v) as [Hbig|Hsmall].
  - assert (k <> 1)%nat as Hk1. { intros ->. change (7 * Z.of_nat 1) with 7 in Hv. unfold inU in Hv. cbn in Hv. lia. }
    destruct (IH (k - 1)%nat (v / 128)) as (bs & Ha & Hg & Hl); [lia| |].
    { unfold inU in *. replace (7 * Z.of_nat k) with (7 * Z.of_nat (k - 1) + 7) in Hv by lia.
      rewrite Z.pow_add_r in Hv by lia. change (2 ^ 7) with 128 in Hv.
      pose proof (Z.div_mod v 128). pose proof (Z.mod_pos_bound v 128). nia. }
    exists (v mod 128 :: bs). split; [|split; [|cbn; lia]].
    + apply (appends_then (WriteByte (v mod 128)) (WriteUnsigned_loop fuel (v / 128)) [v mod 128] bs); [|done].
      apply WriteByte_byte. unfold is_byte. pose proof (Z.mod_pos_bound v 128). lia.
    + rewrite (group_split v) at 2. apply groups_more; [by apply Z.mod_pos_bound|done].
  - change kEndUnsignedByteMarker with 128. unfold inU in Hv.
    exists [v + 128]. split; [apply WriteByte_byte; unfold is_byte; lia|]. split; [|cbn; lia].
    replace v with (v + 128 - 128) at 2 by lia. apply groups_last. lia.
Qed.

(** ** LEB128 *)

(** The bytes, the value of their data bits, and the last byte. *)
Inductive leb : list Z -> Z -> Z -> Prop :=
| leb_last b : 0 <= b < 128 -> leb [b] b b
| leb_more b bs u l : 0 <= b < 128 -> leb bs u l -> leb (b + 128 :: bs) (b + 128 * u) l.

Lemma leb_range bs u l : leb bs u l -> inU (7 * Z.of_nat (length bs)) u /\ 0 <= l < 128.
Proof.
  induction 1 as [b Hb|b bs u l Hb Hl [IH ?]]; [done|]. split; [|done]. unfold inU in *. cbn [length].
  replace (7 * Z.of_nat (S (length bs))) with (7 * Z.of_nat (length bs) + 7) by lia.
  rewrite Z.pow_add_r by lia. change (2 ^ 7) with 128. lia.
Qed.

Lemma LEB128_loop_spec w bs u l :
  leb bs u l -> w <= 128 -> forall fuel r s st,
  0 <= s -> inU s r -> s + 7 * (Z.of_nat (length bs) - 1) < w -> (length bs <= fuel)%nat -> follows st bs ->
  LEB128_loop fuel w r s st =
    Ok (wrapU w (r + u * 2 ^ s), s + 7 * Z.of_nat (length bs), l, advanced st (length bs)).
Proof.
  intros Hl Hw. induction Hl as [b Hb|b bs u l Hb Hl IH]; intros [|fuel] r s st Hs Hr Hlen Hfuel Hf;
    cbn [length] in *; try lia; cbn [LEB128_loop]; rewrite ASSERT_true by (apply Z.ltb_lt; lia); cbn [rbind];
    rewrite (ReadByte_follows _ _ _ Hf); cbn [rbind]; change kMoreDataMask with 128.
  - assert (Z.land b kDataByteMask = b) as ->.
    { change kDataByteMask with (Z.ones 7). rewrite Z.land_ones by lia. by apply Z.mod_small. }
    rewrite shl_ok by lia. cbn [rbind]. rewrite lor_shl, u8_count by (done || lia).
    rewrite more_bit by (unfold is_byte; lia). rewrite (proj2 (Z.ltb_lt _ _)) by lia. done.
  - assert (Z.land (b + 128) kDataByteMask = b) as ->.
    { change kDataByteMask with (Z.ones 7). rewrite Z.land_ones by lia. change (2 ^ 7) with 128.
      rewrite <- (Z.mul_1_l 128) at 1. rewrite Z_mod_plus_full. by apply Z.mod_small. }
    assert (1 <= length bs)%nat by (destruct Hl; cbn; lia).
    rewrite shl_ok by lia. cbn [rbind]. rewrite lor_shl, u8_count by (done || lia).
    rewrite more_bit by (unfold is_byte; lia). rewrite (proj2 (Z.ltb_ge _ _)) by lia.
    pose proof (group_range b r s Hr Hs Hb) as Hr'. rewrite (wrapU_below w (s + 7)) by (done || lia).
    rewrite IH by (done || lia || by eapply follows_tail). rewrite advanced_advanced.
    replace (r + b * 2 ^ s + u * 2 ^ (s + 7)) with (r + (b + 128 * u) * 2 ^ s)
      by (rewrite Z.pow_add_r by lia; change (2 ^ 7) with 128; lia).
    replace (s + 7 + 7 * Z.of_nat (length bs)) with (s + 7 * Z.of_nat (S (length bs))) by lia. done.
Qed.

Lemma WriteLEB128_loop_spec fuel : forall k v,
  (0 < k <= fuel)%nat -> inU (7 * Z.of_nat k) v ->
  exists bs l, appends (WriteLEB128_loop fuel v) bs /\ leb bs v l /\ (length bs <= k)%nat.
Proof.
  induction fuel as [|fuel IH]; intros k v Hk Hv; [lia|]. cbn [WriteLEB128_loop].
  destruct (low_group v) as [E1 ->]. change kDataByteMask with kByteMask. rewrite E1. change kMoreDataMask with 128.
  pose proof (Z.mod_pos_bound v 128 ltac:(lia)) as Hm.
  rewrite (wrapU_small 8 (v mod 128)) by (unfold inU; lia).
  destruct (Z.eqb_spec (v / 128) 0) as [E0|Hne].
  - exists [v mod 128], (v mod 128). split; [|split; [|cbn; lia]].
    + apply (appends_then (WriteByte (v mod 128)) (fun s => Ok s) [v mod 128] []); [|apply appends_nil].
      apply WriteByte_byte. unfold is_byte. lia.
    + rewrite (group_split v) at 2. rewrite E0, Z.mul_0_r, Z.add_0_r. by apply leb_last.
  - assert (k <> 1)%nat as Hk1.
    { intros ->. apply Hne. apply Z.div_small. exact Hv. }
    destruct (IH (k - 1)%nat (v / 128)) as (bs & l & Ha & Hg & Hl); [lia| |].
    { unfold inU in *. replace (7 * Z.of_nat k) with (7 * Z.of_nat (k - 1) + 7) in Hv by lia.
      rewrite Z.pow_add_r in Hv by lia. change (2 ^ 7) with 128 in Hv.
      pose proof (Z.div_mod v 128). nia. }
    rewrite set_more by done. exists (v mod 128 + 128 :: bs), l. split; [|split; [|cbn; lia]].
    + apply (appends_then (WriteByte (v mod 128 + 128)) (WriteLEB128_loop fuel (v / 128)) [v mod 128 + 128] bs); [|done].
      apply WriteByte_byte. unfold is_byte. lia.
    + rewrite (group_split v) at 2. by apply leb_more.
Qed.

(** The value of a signed encoding: the last byte has the sign. *)
Definition sleb_value (bs : list Z) (u l : Z) : Z :=
  if 64 <=? l then u - 2 ^ (7 * Z.of_nat (length bs)) else u.

(** Setting the upper bits again after an arithmetic shift changes nothing. *)
Lemma sign_extend_id n x : 0 <= n -> - 2 ^ n <= x < 0 -> Z.lor x (- 2 ^ n) = x.
Proof.
  intros Hn Hx. apply Z.bits_inj'. intros i Hi. rewrite Z.lor_spec.
  destruct (Z.lt_ge_cases i n) as [Hlt|Hge].
  - replace (- 2 ^ n) with (Z.shiftl (-1) n) by (rewrite Z.shiftl_mul_pow2; lia).
    rewrite Z.shiftl_spec_low by done. apply orb_false_r.
  - assert (forall j, n <= j -> Z.testbit x j = Z.testbit x n) as Hsame.
    { intros j Hj. rewrite (testbit_inS (n + 1) x j); replace (n + 1 - 1) with n by lia; (done || lia || idtac).
      unfold inS. replace (n + 1 - 1) with n by lia. lia. }
    rewrite (Hsame i Hge). destruct (proj1 (Z.bits_iff_neg_ex x) (proj2 Hx)) as [k Hk].
    rewrite <- (Hsame (Z.max n (k + 1))) by lia. by rewrite Hk by lia.
Qed.

Lemma WriteSLEB128_loop_spec fuel : forall k w v,
  8 <= w -> (0 < k <= fuel)%nat -> inS (7 * Z.of_nat k) v -> inS w v ->
  exists bs u l, appends (WriteSLEB128_loop fuel w (v <? 0) v) bs /\ leb bs u l /\ sleb_value bs u l = v /\
    (length bs <= k)%nat.
Proof.
  induction fuel as [|fuel IH]; intros k w v Hw Hk Hv Hvw; [lia|]. cbn [WriteSLEB128_loop].
  destruct (low_group v) as [E1 ->]. change kDataByteMask with kByteMask. rewrite E1.
  change kMoreDataMask with 128. change kSignMask with 64. change kDataBitsPerByte with 7.
  pose proof (Z.mod_pos_bound v 128 ltac:(lia)) as Hm. pose proof (group_split v) as Ev.
  rewrite (wrapU_small 8 (v mod 128)) by (unfold inU; lia). rewrite sign_bit by done.
  assert (0 < 2 ^ (w - 7)) as Hp by (apply pow2_pos; lia).
  assert (2 ^ (w - 1) = 64 * 2 ^ (w - 7)) as Ep.
  { replace (w - 1) with (w - 7 + 6) by lia. rewrite Z.pow_add_r by lia. lia. }
  assert (Z.lnot (wrapS w (wrapU w (Z.shiftl 1 (w - 7)) - 1)) = - 2 ^ (w - 7)) as ->.
  { rewrite Z.shiftl_1_l, wrapU_small by (unfold inU; split; [lia|apply Z.pow_lt_mono_r; lia]).
    rewrite wrapS_small by (unfold inS; lia). unfold Z.lnot. lia. }
  assert ((if v <? 0 then Z.lor (v / 128) (- 2 ^ (w - 7)) else v / 128) = v / 128) as ->.
  { destruct (Z.ltb_spec v 0); [|done]. unfold inS in Hvw. apply sign_extend_id; [lia|]. split; [|lia].
    apply Z.div_le_lower_bound; [lia|]. lia. }
  rewrite ASSERT_true by (destruct (Z.ltb_spec v 0); [apply Z.ltb_lt|apply Z.leb_le]; lia). cbn [rbind].
  assert ((v / 128 <? 0) = (v <? 0)) as Eneg by (destruct (Z.ltb_spec v 0), (Z.ltb_spec (v / 128) 0); lia || done).
  set (is_last := if v <? 0 then _ else _).
  destruct is_last eqn:El; unfold is_last in El; clear is_last.
  - exists [v mod 128], (v mod 128), (v mod 128). split; [|split; [by apply leb_last|split; [|cbn; lia]]].
    + apply (appends_then (WriteByte (v mod 128)) (fun s => Ok s) [v mod 128] []); [|apply appends_nil].
      apply WriteByte_byte. unfold is_byte. lia.
    + unfold sleb_value. cbn [length]. change (2 ^ (7 * Z.of_nat 1)) with 128.
      destruct (Z.ltb_spec v 0); apply andb_true_iff in El as [E0%Z.eqb_eq Eb]; rewrite ?negb_true_iff in Eb;
        [apply Z.ltb_ge in Eb|apply Z.ltb_lt in Eb]; [rewrite (proj2 (Z.leb_le _ _))|rewrite (proj2 (Z.leb_gt _ _))]; lia.
  - assert (k <> 1)%nat as Hk1.
    { intros ->. change (7 * Z.of_nat 1) with 7 in Hv. unfold inS in Hv. cbn in Hv.
      destruct (Z.ltb_spec v 0); apply andb_false_iff in El as [El%Z.eqb_neq|El];
        rewrite ?negb_false_iff, ?Z.ltb_lt, ?Z.ltb_ge in El; lia. }
    destruct (IH (k - 1)%nat w (v / 128)) as (bs & u & l & Ha & Hg & Hval & Hl); [done|lia| | |].
    { unfold inS in *. replace (7 * Z.of_nat k - 1) with (7 * Z.of_nat (k - 1) - 1 + 7) in Hv by lia.
      rewrite Z.pow_add_r in Hv by lia. change (2 ^ 7) with 128 in Hv. nia. }
    { unfold inS in *. nia. }
    rewrite Eneg in Ha. rewrite set_more by done. exists (v mod 128 + 128 :: bs), (v mod 128 + 128 * u), l.
    split; [|split; [by apply leb_more|split; [|cbn; lia]]].
    + apply (appends_then (WriteByte (v mod 128 + 128)) (WriteSLEB128_loop fuel w (v <? 0) (v / 128))
        [v mod 128 + 128] bs); [|done]. apply WriteByte_byte. unfold is_byte. lia.
    + unfold sleb_value in *. cbn [length].
      replace (7 * Z.of_nat (S (length bs))) with (7 * Z.of_nat (length bs) + 7) by lia.
      rewrite Z.pow_add_r by lia. change (2 ^ 7) with 128. destruct (64 <=? l); lia.
Qed.

(** The reader puts the sign back. *)
Lemma ReadSLEB128_spec w bs u l st :
  leb bs u l -> 8 <= w <= 128 -> 7 * (Z.of_nat (length bs) - 1) < w -> (length bs <= Z.to_nat w)%nat -> follows st bs ->
  ReadSLEB128_unsigned w st = Ok (wrapU w (sleb_value bs u l), advanced st (length bs)).
Proof.
  intros Hl Hw Hlen Hfuel Hf. unfold ReadSLEB128_unsigned.
  rewrite (LEB128_loop_spec w bs u l Hl) by (done || lia || (unfold inU; lia)). cbn [rbind].
  rewrite ASSERT_true by (apply Z.ltb_lt; change kDataBitsPerByte with 7; lia). cbn [rbind].
  destruct (leb_range bs u l Hl) as [Hu Hlr]. change kSignMask with 64. rewrite sign_bit by done.
  rewrite Z.mul_1_r, Z.add_0_l, Z.add_0_l. f_equal. f_equal. unfold sleb_value. set (s := 7 * Z.of_nat (length bs)) in *.
  assert ((64 <=? l) = negb (l <? 64)) as -> by (destruct (Z.leb_spec 64 l), (Z.ltb_spec l 64); lia || done).
  destruct (negb (l <? 64)); cbn [andb]; [|by rewrite Z.lor_0_r]. destruct (Z.ltb_spec s w) as [Hs|Hs].
  - rewrite (wrapU_below w s) by (done || lia).
    assert (wrapU w (Z.shiftl 1 s - 1) = Z.ones s) as ->.
    { rewrite Z.shiftl_1_l, Z.ones_equiv, Z.sub_1_r. apply (wrapU_below w s); [|lia]. unfold inU. pose proof (pow2_pos s). lia. }
    replace (u - 2 ^ s) with (Z.lor u (Z.shiftl (-1) s)) by (rewrite lor_add by (done || lia); lia).
    apply Z.bits_inj'. intros i Hi. autorewrite with testbits.
    destruct (Z.ltb_spec i w) as [Hiw|Hiw]; cbn [andb].
    + destruct (Z.ltb_spec i s); destruct (Z.leb_spec 0 i); try lia; cbn.
      * by rewrite (Z.testbit_neg_r (-1)) by lia.
      * by rewrite Z.bits_m1 by lia.
    + rewrite (testbit_small s) by (done || lia). done.
  - rewrite Z.lor_0_r. unfold s in *. rewrite <- (wrapU_add_multiple w (u - 2 ^ _) (2 ^ (7 * Z.of_nat (length bs) - w))) by lia.
    rewrite <- Z.pow_add_r by lia. f_equal. replace (7 * Z.of_nat (length bs) - w + w) with (7 * Z.of_nat (length bs)) by lia. lia.
Qed.

(** ** Reference ids: big-endian, the last byte is marked *)

Lemma s8_low b : 0 <= b < 128 -> s8 b = b.
Proof. intros Hb. apply wrapS_small; [lia|]. unfold inS. lia. Qed.

Lemma s8_high b : 128 <= b < 256 -> s8 b = b - 256.
Proof. intros Hb. rewrite wrapS_cases by (lia || (unfold inU; lia)).
  by rewrite (proj2 (Z.ltb_ge b (2 ^ (8 - 1)))) by (change (2 ^ (8 - 1)) with 128; lia).
Qed.

Lemma ReadRefId_stages_spec lows : forall last k r st cursor,
  Forall (fun b => 0 <= b < 128) lows -> 128 <= last < 256 -> (length lows < k)%nat ->
  follows (mkReadStream (rbytes st) cursor) (lows ++ [last]) ->
  ReadRefId_stages k r cursor st =
    Ok (last - 256 + 128 * foldl (fun r b => b + 128 * r) r lows, cursor + Z.of_nat (S (length lows))).
Proof.
  induction lows as [|b lows IH]; intros last [|k] r st cursor Hb Hl Hk Hf; cbn [length] in Hk; try lia;
    cbn [ReadRefId_stages app foldl length] in *; destruct (byte_at_follows _ _ _ Hf) as [E _];
    change (byte_at _ _) with (byte_at st cursor) in E; rewrite E; cbn [rbind]; rewrite Z.shiftl_mul_pow2 by lia; change (2 ^ 7) with 128.
  - rewrite s8_high by done. rewrite (proj2 (Z.ltb_lt _ _)) by lia. f_equal. f_equal; lia.
  - apply Forall_cons in Hb as [Hb Hbs]. rewrite s8_low by done. rewrite (proj2 (Z.ltb_ge _ _)) by lia.
    apply follows_tail in Hf. rewrite (IH last k _ st (cursor + 1)) by (done || lia).
    replace (b + r * 128) with (b + 128 * r) by lia. f_equal. f_equal. lia.
Qed.

Lemma ReadRefId_spec lows last st :
  Forall (fun b => 0 <= b < 128) lows -> 128 <= last < 256 -> (length lows < 4)%nat -> follows st (lows ++ [last]) ->
  ReadRefId st = Ok (last - 128 + 128 * foldl (fun r b => b + 128 * r) 0 lows, advanced st (length (lows ++ [last]))).
Proof.
  intros Hb Hl Hk Hf. unfold ReadRefId. rewrite (ReadRefId_stages_spec lows last) by (done || by destruct st).
  cbn [rbind]. unfold advanced. rewrite length_app. cbn [length]. rewrite Nat.add_1_r. f_equal. f_equal. lia.
Qed.

(** The bytes of a reference id. *)
Definition refid_lows (v : Z) : list Z :=
  (if v / 2 ^ 21 =? 0 then [] else [v / 2 ^ 21]) ++
  (if v / 2 ^ 14 =? 0 then [] else [(v / 2 ^ 14) mod 128]) ++
  (if v / 2 ^ 7 =? 0 then [] else [(v / 2 ^ 7) mod 128]).

Lemma refid_lows_spec v :
  inU 28 v -> Forall (fun b => 0 <= b < 128) (refid_lows v) /\ (length (refid_lows v) < 4)%nat /\
    foldl (fun r b => b + 128 * r) 0 (refid_lows v) = v / 128.
Proof.
  intros Hv. unfold inU in Hv. unfold refid_lows. change (2 ^ 28) with 268435456 in Hv.
  change (2 ^ 21) with (128 * (128 * 128)). change (2 ^ 14) with (128 * 128). change (2 ^ 7) with 128.
  rewrite <- !Z.div_div by lia. assert (0 <= v / 128 < 2097152) as Ha.
  { split; [apply Z.div_pos|apply Z.div_lt_upper_bound]; lia. }
  pose proof (group_split (v / 128)) as Ea. pose proof (Z.mod_pos_bound (v / 128) 128 ltac:(lia)) as Hma.
  remember (v / 128) as a eqn:Da. clear Da. remember (a / 128) as b eqn:Db. clear Db. remember (a mod 128) as ma eqn:Dm.
  clear Dm. pose proof (group_split b) as Eb. pose proof (Z.mod_pos_bound b 128 ltac:(lia)) as Hmb.
  remember (b / 128) as c eqn:Dc. clear Dc. remember (b mod 128) as mb eqn:Dmb. clear Dmb.
  repeat match goal with |- context [?x =? 0] => destruct (Z.eqb_spec x 0) end;
    cbn [app foldl length]; (split_and!; [|lia|lia]); repeat (apply Forall_cons; split); try apply Forall_nil; lia.
Qed.

Lemma WriteRefId_spec v :
  inU 28 v ->
  appends (WriteRefId v) (refid_lows v ++ [v mod 128 + 128]).
Proof.
  intros Hv s Hs Hfit. unfold WriteRefId.
  assert (IsUint 28 v = true) as HU.
  { unfold IsUint, inU in *. rewrite (proj2 (Z.ltb_ge _ _)) by lia.
    rewrite (proj2 (Z.leb_gt _ _)) by (destruct kBitsPerWord_cases; lia). apply Z.leb_le.
    change (Z.shiftl 1 28) with (2 ^ 28). lia. }
  rewrite ASSERT_true by done. cbn [rbind].
  destruct (EnsureSpace_law 4 s Hs) as [[-> Hk]|(s1 & -> & Hs1 & E1 & Hr & L1)];
    [lia|by eapply fits_ensure|by left|]. right. cbn [rbind].
  assert (forall k, 0 <= k -> Z.shiftr v k = v / 2 ^ k) as Esh by (intros; by rewrite Z.shiftr_div_pow2).
  assert (forall x, Z.land x 127 = x mod 128) as El by (intros x; apply (Z.land_ones x 7); lia).
  assert (forall x, u8 (x mod 128) = x mod 128) as E8.
  { intros x. apply wrapU_small. unfold inU. pose proof (Z.mod_pos_bound x 128). lia. }
  rewrite !Esh, !El, !E8 by lia. rewrite set_more by (by apply Z.mod_pos_bound).
  change (2 ^ 0) with 1. rewrite Z.div_1_r.
  rewrite (wrapU_small 8 (v mod 128 + 128)) by (unfold inU; pose proof (Z.mod_pos_bound v 128); lia).
  assert (v / 2 ^ 21 mod 128 = v / 2 ^ 21) as ->.
  { apply Z.mod_small. unfold inU in Hv. change (2 ^ 28) with 268435456 in Hv. change (2 ^ 21) with 2097152.
    split; [apply Z.div_pos|apply Z.div_lt_upper_bound]; lia. }
  set (last := v mod 128 + 128).
  assert ((let* s2 := if v / 2 ^ 21 =? 0 then Ok s1 else put (v / 2 ^ 21) s1 in
           let* s3 := if v / 2 ^ 14 =? 0 then Ok s2 else put (v / 2 ^ 14 mod 128) s2 in
           let* s4 := if v / 2 ^ 7 =? 0 then Ok s3 else put (v / 2 ^ 7 mod 128) s3 in put last s4) =
          put_all (refid_lows v ++ [last]) s1) as ->.
  { unfold refid_lows. destruct (v / 2 ^ 21 =? 0), (v / 2 ^ 14 =? 0), (v / 2 ^ 7 =? 0);
      cbn [app put_all rbind]; unfold rbind; repeat case_match; congruence. }
  destruct (refid_lows_spec v Hv) as (Hb & Hlen & _).
  destruct (put_all_law (refid_lows v ++ [last]) s1 Hs1) as (s2 & E2 & Hs2 & C2 & L2).
  - apply Forall_app. split; [eapply Forall_impl; [done|]; unfold is_byte; intros; cbn in *; lia|].
    repeat constructor; unfold last; pose proof (Z.mod_pos_bound v 128); lia.
  - rewrite length_app. cbn. lia.
  - exists s2. by rewrite C2, E1, L2.
Qed.

End Writing.

(** ** The encodings *)

Inductive codec : Set :=
| CUnsigned (signed : bool) (w : Z)     (* WriteUnsigned<T>, ReadUnsigned<T> *)
| CSigned (w : Z)                       (* Write<T>, Read<T> *)
| CRaw (signed : bool) (w : Z)          (* Raw<N, T>::Write, Raw<N, T>::Read *)
| CLEB128 (signed : bool) (w : Z)       (* WriteLEB128<T>, ReadLEB128<T> *)
| CSLEB128 (signed : bool) (w : Z)      (* WriteSLEB128<T>, ReadSLEB128<T> *)
| CRefId                                (* WriteRefId, ReadRefId *)
| CWord.                                (* WriteWordWith32BitWrites, ReadWordWith32BitReads *)

Definition codec_write (c : codec) {W} `{!ByteSink W} (v : Z) : W -> Res W :=
  match c with
  | CUnsigned _ w => WriteUnsigned w v
  | CSigned w => Write w v
  | CRaw _ w => Raw_Write w v
  | CLEB128 sg w => WriteLEB128 sg w v
  | CSLEB128 _ w => WriteSLEB128 w v
  | CRefId => WriteRefId v
  | CWord => WriteWordWith32BitWrites v
  end.

Definition codec_read (c : codec) : ReadStream -> Res (Z * ReadStream) :=
  match c with
  | CUnsigned sg w => ReadUnsigned sg w
  | CSigned w => Read true w
  | CRaw sg w => Raw_Read sg w
  | CLEB128 sg w => ReadLEB128 sg w
  | CSLEB128 sg w => ReadSLEB128 sg w
  | CRefId => ReadRefId
  | CWord => ReadWordWith32BitReads
  end.

Definition in_type (signed : bool) (w v : Z) : Prop := if signed then inS w v else inU w v.

Definition codec_domain (c : codec) (v : Z) : Prop :=
  match c with
  | CUnsigned sg w => In w [32; 64] /\ 0 <= v /\ in_type sg w v
  | CSigned w => In w [32; 64] /\ inS w v
  | CRaw sg w => In w [8; 16; 32; 64] /\ in_type sg w v
  | CLEB128 sg w => In w [8; 16; 32; 64] /\ 0 <= v /\ in_type sg w v
  | CSLEB128 sg w => In w [8; 16; 32; 64] /\ in_type sg w v
  | CRefId => inU 28 v
  | CWord => inU kBitsPerWord v
  end.

Lemma to_type_id sg w v x : 0 < w -> in_type sg w v -> wrapU w x = wrapU w v -> to_type sg w x = v.
Proof.
  intros Hw Hv E. destruct sg; cbn in *; [by apply wrapS_eq_wrapU|]. rewrite E. by apply wrapU_small.
Qed.

Lemma to_type_wrapU sg w v : 0 < w -> in_type sg w v -> to_type sg w (wrapU w v) = v.
Proof. intros. apply to_type_id; [done..|]. apply wrapU_wrapU. Qed.

Lemma in_type_nonneg sg w v : 0 < w -> 0 <= v -> in_type sg w v -> inU w v.
Proof. intros Hw Hv. destruct sg; [|done]. cbn. unfold inS, inU. rewrite (pow2_split w Hw). lia. Qed.

(** Enough groups for a width, and no more than it can take. *)
Lemma max_groups_spec w :
  In w [8; 16; 32; 64] ->
  (0 < max_groups w <= Z.to_nat w)%nat /\ w <= 7 * Z.of_nat (max_groups w) /\
  7 * (Z.of_nat (max_groups w) - 1) < w /\ 8 <= w <= 128 /\ (max_groups w <= 10)%nat.
Proof.
  intros Hw. destruct Hw as [<-|[<-|[<-|[<-|[]]]]]; [change (max_groups 8) with 2%nat|change (max_groups 16) with 3%nat|
    change (max_groups 32) with 5%nat|change (max_groups 64) with 10%nat]; lia.
Qed.

Section Codecs.
Context `{!Allocator} {W : Type} `{!ByteSink W} `{!SinkLaws W}.

(** [c] writes [v] as some bytes, at most [n], from which it reads [v] back. *)
Definition transmits (c : codec) (v : Z) (n : nat) : Prop :=
  exists bs, appends (codec_write c v) bs /\ (length bs <= n)%nat /\
    forall st, follows st bs -> codec_read c st = Ok (v, advanced st (length bs)).

Lemma Write_groups w v :
  In w [8; 16; 32; 64] -> inS w v ->
  exists bs, appends (Write w v) bs /\ groups kEndByteMarker bs v /\ (length bs <= max_groups w)%nat.
Proof.
  intros Hw Hv. destruct (max_groups_spec w Hw) as (Hk & Hbits & _). apply Write_loop_spec; [done|].
  apply (inS_mono w); [done|]. lia.
Qed.

Lemma Raw_transmits sg w v : In w [8; 16; 32; 64] -> in_type sg w v -> transmits (CRaw sg w) v (max_groups w).
Proof.
  intros Hw Hv. destruct (max_groups_spec w Hw) as (Hk & _ & _ & Hw8 & Hten). unfold transmits. cbn [codec_write codec_read].
  destruct (Z.eq_dec w 8) as [->|Hne].
  - exists [u8 v]. split; [apply WriteByte_appends|]. split; [cbn; lia|]. intros st Hf. unfold Raw_Read.
    change (8 =? 8) with true. cbv iota. rewrite (ReadByte_follows _ _ _ Hf). cbn [rbind]. by rewrite to_type_wrapU.
  - destruct (Write_groups w (wrapS w v) Hw) as (bs & Ha & Hg & Hl); [apply wrapS_range; lia|].
    exists bs. unfold Raw_Write, Raw_Read. rewrite (proj2 (Z.eqb_neq w 8)) by done. split_and!; [done..|]. intros st Hf.
    assert ((if w =? 16 then Read16 st else if w =? 32 then Read32 st else Read64 st) = ReadN_with w kEndByteMarker st) as ->.
    { destruct Hw as [E|[<-|[<-|[<-|[]]]]]; [by destruct Hne|reflexivity..]. }
    rewrite (ReadN_with_spec w _ bs (wrapS w v)); [|done| |done|done].
    + cbn [rbind]. rewrite wrapU_wrapS by lia. by rewrite to_type_wrapU by (done || lia).
    + destruct Hw as [E|Hw]; [by destruct Hne|exact Hw].
Qed.

(** A word in halves of 32 bits. *)
Lemma WriteWord_transmits k : forall j v,
  0 <= j -> 0 <= v ->
  exists bs, appends (WriteWord_loop k j v) bs /\ (length bs <= 5 * k)%nat /\
    forall r st, inU (32 * j) r -> 32 * (j + Z.of_nat k) <= kBitsPerWord -> follows st bs ->
      ReadWord_loop k j r st =
        Ok (r + wrapU (32 * Z.of_nat k) (Z.shiftr v (32 * j)) * 2 ^ (32 * j), advanced st (length bs)).
Proof.
  induction k as [|k IH]; intros j v Hj Hv.
  { exists []. split; [apply appends_nil|]. split; [cbn; lia|]. intros r st Hr Hw Hf. cbn.
    unfold wrapU. rewrite Z.mod_1_r, Z.mul_0_l, Z.add_0_r. unfold advanced. cbn. rewrite Z.add_0_r. by destruct st. }
  set (x := u32 (Z.shiftr v (j * 32))). assert (inU 32 x) as Hx by (apply wrapU_range; lia).
  destruct (Raw_transmits false 32 x) as (b1 & Ha1 & Hl1 & Hr1); [cbn; tauto|done|].
  destruct (IH (j + 1) v) as (b2 & Ha2 & Hl2 & Hr2); [lia|done|]. exists (b1 ++ b2). split_and!.
  - cbn [WriteWord_loop]. assert (Z.land x (2 ^ 32 - 1) = x) as E.
    { change (2 ^ 32 - 1) with (Z.ones 32). rewrite Z.land_ones by lia. by apply wrapU_small. }
    fold x. rewrite E. by apply (appends_then (Raw_Write 32 x) (WriteWord_loop k (j + 1) v)).
  - rewrite length_app. change (max_groups 32) with 5%nat in Hl1. lia.
  - intros r st Hr Hw Hf. cbn [ReadWord_loop]. apply follows_app in Hf as [Hf1 Hf2].
    cbn [codec_read] in Hr1. rewrite (Hr1 st Hf1). cbn [rbind].
    rewrite (wrapU_small kBitsPerWord); cycle 1.
    { unfold inU in *. rewrite Z.shiftl_mul_pow2 by lia. replace (j * 32) with (32 * j) by lia.
      assert (2 ^ (32 * j + 32) <= 2 ^ kBitsPerWord) by (apply Z.pow_le_mono_r; lia).
      rewrite Z.pow_add_r in * by lia. pose proof (pow2_pos (32 * j)). nia. }
    replace (j * 32) with (32 * j) in * by lia. rewrite lor_add by (done || lia).
    assert (inU (32 * (j + 1)) (r + x * 2 ^ (32 * j))) as Hr'.
    { unfold inU in *. replace (32 * (j + 1)) with (32 * j + 32) by lia. rewrite Z.pow_add_r by lia. nia. }
    rewrite Hr2 by (done || lia). rewrite advanced_advanced, length_app. f_equal. f_equal. subst x. replace (j * 32) with (32 * j) by lia.
    replace (32 * (j + 1)) with (32 * j + 32) by lia. rewrite <- Z.shiftr_shiftr by lia.
    generalize (Z.shiftr v (32 * j)). intros y. rewrite Z.pow_add_r, (Z.shiftr_div_pow2 y) by lia.
    replace (32 * Z.of_nat (S k)) with (32 + 32 * Z.of_nat k) by lia. unfold wrapU.
    rewrite (Z.pow_add_r 2 32) by lia. rewrite (Z.rem_mul_r y) by (pose proof (pow2_pos (32 * Z.of_nat k)); lia). ring.
Qed.

(** Ten bytes are enough for any integer. *)
Theorem codec_transmits c v : codec_domain c v -> transmits c v 10.
Proof.
  destruct c as [sg w|w|sg w|sg w|sg w| |]; cbn [codec_domain].
  - intros (Hw & Hv0 & Hv). assert (In w [8; 16; 32; 64]) as Hw' by (cbn in *; tauto).
    destruct (max_groups_spec w Hw') as (Hk & Hbits & Hlen & Hw8 & Hten).
    pose proof (in_type_nonneg sg w v ltac:(lia) Hv0 Hv) as HU.
    destruct (WriteUnsigned_loop_spec (Z.to_nat w) (max_groups w) v Hk) as (bs & Ha & Hg & Hl).
    { unfold inU in *. split; [lia|]. eapply Z.lt_le_trans; [apply HU|]. apply Z.pow_le_mono_r; lia. }
    exists bs. split_and!; [|lia|].
    + cbn [codec_write]. unfold WriteUnsigned. rewrite ASSERT_true by by apply Z.leb_le. exact Ha.
    + intros st Hf. cbn [codec_read]. unfold ReadUnsigned. rewrite (Read_with_spec w _ bs v) by (done || lia).
      cbn [rbind]. by rewrite to_type_wrapU by (done || lia).
  - intros (Hw & Hv). assert (In w [8; 16; 32; 64]) as Hw' by (cbn in *; tauto).
    destruct (max_groups_spec w Hw') as (Hk & Hbits & Hlen & Hw8 & Hten).
    destruct (Write_groups w v Hw' Hv) as (bs & Ha & Hg & Hl). exists bs. split_and!; [done|lia|]. intros st Hf.
    cbn [codec_read]. unfold Read. rewrite (Read_with_spec w _ bs v) by (done || lia). cbn [rbind].
    by rewrite (to_type_wrapU true) by (done || lia).
  - intros [Hw Hv]. destruct (max_groups_spec w Hw) as (Hk & _ & _ & _ & Hten).
    destruct (Raw_transmits sg w v Hw Hv) as (bs & Ha & Hl & Hr). exists bs. split_and!; [done|lia|done].
  - intros (Hw & Hv0 & Hv). destruct (max_groups_spec w Hw) as (Hk & Hbits & Hlen & Hw8 & Hten).
    pose proof (in_type_nonneg sg w v ltac:(lia) Hv0 Hv) as HU.
    destruct (WriteLEB128_loop_spec (Z.to_nat w) (max_groups w) v Hk) as (bs & l & Ha & Hg & Hl).
    { unfold inU in *. split; [lia|]. eapply Z.lt_le_trans; [apply HU|]. apply Z.pow_le_mono_r; lia. }
    exists bs. split_and!; [|lia|].
    + cbn [codec_write]. unfold WriteLEB128. rewrite ASSERT_true by (apply orb_true_iff; right; by apply Z.leb_le).
      cbn [rbind]. by rewrite wrapU_small.
    + intros st Hf. cbn [codec_read]. unfold ReadLEB128, ReadLEB128_unsigned.
      rewrite (LEB128_loop_spec w bs v l Hg) by (done || lia || (unfold inU; lia)). cbn [rbind].
      rewrite ASSERT_true by (apply Z.ltb_lt; change kDataBitsPerByte with 7; lia). cbn [rbind].
      rewrite Z.mul_1_r. by rewrite to_type_wrapU by (done || lia).
  - intros (Hw & Hv). destruct (max_groups_spec w Hw) as (Hk & Hbits & Hlen & Hw8 & Hten).
    pose proof (wrapS_range w v ltac:(lia)) as HS.
    destruct (WriteSLEB128_loop_spec (Z.to_nat w) (max_groups w) w (wrapS w v)) as (bs & u & l & Ha & Hg & Hval & Hl);
      [lia|done|by apply (inS_mono w); [|lia]|done|].
    exists bs. split_and!; [exact Ha|lia|]. intros st Hf. cbn [codec_read]. unfold ReadSLEB128.
    rewrite (ReadSLEB128_spec w bs u l) by (done || lia). cbn [rbind]. rewrite Hval.
    by rewrite wrapU_wrapS, to_type_wrapU by (done || lia).
  - intros Hv. destruct (refid_lows_spec v Hv) as (Hb & Hlen & Hfold). pose proof (Z.mod_pos_bound v 128 ltac:(lia)).
    exists (refid_lows v ++ [v mod 128 + 128]). split_and!; [by apply WriteRefId_spec|rewrite length_app; cbn; lia|]. intros st Hf. cbn [codec_read].
    rewrite (ReadRefId_spec (refid_lows v) (v mod 128 + 128)) by (done || lia). rewrite Hfold. f_equal. f_equal.
    pose proof (group_split v). lia.
  - intros Hv. destruct (WriteWord_transmits (Z.to_nat (kBitsPerWord / 32)) 0 v) as (bs & Ha & Hl & Hr); [lia|apply Hv|].
    assert (Z.to_nat (kBitsPerWord / 32) <= 2)%nat by (apply Nat.leb_le; by destruct kBitsPerWord_cases as [-> | ->]).
    exists bs. split_and!; [exact Ha|lia|]. intros st Hf. cbn [codec_read]. unfold ReadWordWith32BitReads.
    assert (32 * Z.of_nat (Z.to_nat (kBitsPerWord / 32)) = kBitsPerWord) as E by (by destruct kBitsPerWord_cases as [-> | ->]).
    rewrite Hr by (done || (unfold inU; lia) || lia). rewrite E, Z.mul_0_r, Z.shiftr_0_r, wrapU_small by done.
    f_equal. f_equal. lia.
Qed.

End Codecs.
End Reading.
