(* ===== verification/StreamSpec.v ===== *)
(** * StreamSpec: the write streams keep every byte

    MallocWriteStream and StreamingWriteStream are sinks, so whatever sequence
    of values is written to them can be read back. *)

From stdpp Require Import base numbers list sets.
From Stdlib Require Import Lia.
From S2P Require Import Prelude Constants Encoding AsmBuffer HashMap DataStream DataStreamSpec.

#[local] Open Scope Z_scope.
#[local] Open Scope res_scope.

Section Streams.
Context `{Target} `{Allocator}.

(** ** Rounding up *)

Lemma RoundDown_pow2 k x : 0 <= k -> RoundDown x (2 ^ k) = x / 2 ^ k * 2 ^ k.
Proof.
  intros Hk. unfold RoundDown. replace (- 2 ^ k) with (Z.lnot (Z.ones k)) by (rewrite Z.ones_equiv; unfold Z.lnot; lia).
  rewrite <- Z.ldiff_land, Z.ldiff_ones_r, Z.shiftl_mul_pow2, Z.shiftr_div_pow2 by done. done.
Qed.

Lemma intptr_ok x : inS kBitsPerWord x -> intptr x = Ok x.
Proof. intros Hx. unfold intptr. by rewrite decide_True. Qed.

Lemma intptr_nonneg x : 0 <= x < 2 ^ (kBitsPerWord - 1) -> intptr x = Ok x.
Proof. intros Hx. apply intptr_ok. unfold inS. lia. Qed.

Lemma intptr_halves : 0 < kBitsPerWord /\ 2 ^ 31 <= 2 ^ (kBitsPerWord - 1) /\ 2 ^ kBitsPerWord = 2 * 2 ^ (kBitsPerWord - 1).
Proof. destruct kBitsPerWord_cases as [-> | ->]; split_and!; done. Qed.

Lemma land_word x y : inU kBitsPerWord x -> Z.land x (wrapU kBitsPerWord y) = Z.land x y.
Proof.
  intros Hx. rewrite <- (wrapU_small kBitsPerWord x) by done. destruct kBitsPerWord_cases as [-> | ->]; bitblast.
Qed.

(** Rounding up is exact as long as the sum stays in [intptr_t]. *)
Lemma RoundUp_spec x k :
  0 <= k -> IsPowerOfTwo (2 ^ k) = true -> 0 <= x -> x + 2 ^ k < 2 ^ (kBitsPerWord - 1) ->
  exists y, RoundUp x (2 ^ k) 0 = Ok y /\ x <= y < x + 2 ^ k.
Proof.
  intros Hk Hp Hx Hfit. pose proof (pow2_pos k Hk). destruct intptr_halves as (Hw0 & Hw & Hw2). unfold RoundUp. cbv zeta.
  rewrite (wrapU_small kBitsPerWord (2 ^ k)), (wrapU_small kBitsPerWord 0) by (unfold inU; lia).
  rewrite ASSERT_true by by apply Z.ltb_lt. cbn [rbind].
  rewrite (wrapS_small kBitsPerWord (2 ^ k)) by (done || (unfold inS; lia)).
  rewrite intptr_ok by (unfold inS; lia). cbn [rbind]. rewrite ASSERT_true by done. cbn [rbind].
  rewrite (wrapU_small kBitsPerWord (x + _ - 1 + 0)) by (unfold inU; lia). rewrite land_word by (unfold inU; lia).
  change (Z.land ?a (- ?b)) with (RoundDown a b). rewrite RoundDown_pow2 by done.
  pose proof (Z.div_mod (x + 2 ^ k - 1 + 0) (2 ^ k)). pose proof (Z.mod_pos_bound (x + 2 ^ k - 1 + 0) (2 ^ k)).
  eexists. split; [done|]. rewrite wrapS_small by (done || (unfold inS; lia)). lia.
Qed.

(** ** The buffer *)

Record base_ok (s : BaseStream) : Prop := {
  bo_current : 0 <= current_ s <= capacity_ s;
  bo_capacity : capacity_ s < 2 ^ (kBitsPerWord - 1);
  bo_initial : exists k, 0 <= k /\ initial_size_ s = 2 ^ k;
  bo_power : IsPowerOfTwo (initial_size_ s) = true
}.

Lemma grown_length buffer n : Z.of_nat (length buffer) <= n -> Z.of_nat (length (grown buffer n)) = n.
Proof. intros Hn. unfold grown. rewrite length_app, length_fmap, length_seq. lia. Qed.

Lemma take_grown buffer n k : (k <= length buffer)%nat -> take k (grown buffer n) = take k buffer.
Proof. intros Hk. unfold grown. by rewrite take_app_le. Qed.

(** The size a stream asks for: at least twice its capacity, and less than
    twice what it has to hold and the initial size. *)
Lemma new_size_spec n s :
  base_ok s -> 0 <= n -> size_fits (current_ s + n) (initial_size_ s) ->
  exists r, new_size n s = Ok r /\
    match r with
    | None => n <= Remaining s
    | Some m => Remaining s < n /\ capacity_ s + n <= m /\ capacity_ s < m /\ 2 * capacity_ s <= m /\
        m < 2 * (current_ s + n) + initial_size_ s
    end.
Proof.
  intros [Hc Hcap (k & Hk & Hi) Hp] Hn Hfit. unfold new_size, Remaining, size_fits in *.
  destruct (Z.leb_spec n (capacity_ s - current_ s)) as [Hle|Hgt]; [by exists None|].
  pose proof (pow2_pos k Hk). destruct (Z.ltb_spec (capacity_ s) n) as [Hbig|Hfull].
  - rewrite Hi in *. destruct (RoundUp_spec n k Hk Hp) as (y & -> & Hy); [lia..|]. cbn [rbind].
    rewrite intptr_nonneg by lia. cbn [rbind].
    rewrite ASSERT_true by (apply Z.ltb_lt; lia). cbn [rbind]. eexists. split; [done|]. cbv beta iota. lia.
  - cbn [rbind]. rewrite intptr_nonneg by lia. cbn [rbind].
    rewrite ASSERT_true by (apply Z.ltb_lt; lia). cbn [rbind]. eexists. split; [done|]. cbv beta iota. lia.
Qed.

Lemma granted_nonneg n : 0 <= n -> granted n = available n.
Proof. intros Hn. unfold granted. by rewrite (proj2 (Z.leb_le _ _)). Qed.

Lemma base_put_law b s :
  base_ok s -> 1 <= Remaining s ->
  exists s', base_put b s = Ok s' /\ base_ok s' /\
    take (Z.to_nat (current_ s')) (wbuffer_ s') = take (Z.to_nat (current_ s)) (wbuffer_ s) ++ [b] /\
    Remaining s' = Remaining s - 1 /\ initial_size_ s' = initial_size_ s.
Proof.
  intros [Hc Hcap Hi Hp] Hr. unfold Remaining in *. unfold base_put.
  rewrite (proj2 (Z.ltb_ge _ _)), (proj2 (Z.leb_gt _ _)) by lia. cbn [orb]. eexists. split; [done|].
  unfold capacity_ in *. split_and!.
  - split; cbn; unfold capacity_; cbn; try rewrite length_insert; done || lia.
  - cbn [current_ wbuffer_]. replace (Z.to_nat (current_ s + 1)) with (S (Z.to_nat (current_ s))) by lia.
    rewrite (take_S_r _ _ b); [by rewrite take_insert_ge by lia|]. apply list_lookup_insert_eq. lia.
  - cbn. rewrite length_insert. lia.
  - done.
Qed.

(** ** MallocWriteStream *)

Lemma Malloc_EnsureSpace_law n s :
  base_ok s -> 0 <= n -> size_fits (current_ s + n) (initial_size_ s) ->
  (Malloc_EnsureSpace n s = Err OutOfMemory /\ exists k, available k = false) \/
  exists s', Malloc_EnsureSpace n s = Ok s' /\ base_ok s' /\
    take (Z.to_nat (current_ s')) (wbuffer_ s') = take (Z.to_nat (current_ s)) (wbuffer_ s) /\ n <= Remaining s' /\
    initial_size_ s' = initial_size_ s.
Proof.
  intros Hok Hn Hfit. unfold Malloc_EnsureSpace. destruct (new_size_spec n s Hok Hn Hfit) as ([m|] & -> & Hm); cbn [rbind].
  - destruct Hok as [Hc Hcap Hi Hp]. unfold size_fits in Hfit.
    unfold Malloc_Realloc. rewrite granted_nonneg by lia. destruct (available m) eqn:Ea; [|left; eauto]. right. cbn [rbind].
    set (s' := mkBase _ _ _).
    assert (capacity_ s' = m) as Ecap by (apply grown_length; unfold capacity_ in *; lia).
    assert (n <= Remaining s') as Hr by (unfold Remaining in *; rewrite Ecap; cbn; lia).
    rewrite ASSERT_true by by apply Z.leb_le. exists s'. split; [done|]. split_and!; [|apply take_grown|done..].
    + split; [rewrite Ecap; cbn; lia..|done|done].
    + unfold capacity_ in *. lia.
  - right. exists s. done.
Qed.

Lemma contents_length s :
  base_ok s -> Z.of_nat (length (take (Z.to_nat (current_ s)) (wbuffer_ s))) = current_ s.
Proof. intros [Hc _ _ _]. unfold capacity_ in Hc. rewrite length_take. lia. Qed.

#[export] Instance Malloc_laws : SinkLaws BaseStream.
Proof.
  refine {| sink_ok := base_ok; contents := fun s => take (Z.to_nat (current_ s)) (wbuffer_ s); room := Remaining;
            slack := initial_size_ |}.
  - intros n s Hok Hn Hfit. rewrite contents_length in Hfit by done. by apply Malloc_EnsureSpace_law.
  - intros b s Hok _ Hr. destruct (base_put_law b s Hok Hr) as (s' & ? & ? & ? & ? & ?). by exists s'.
Defined.

(** ** StreamingWriteStream *)

Definition streamed (s : StreamingStream) : list Z :=
  sent s ++ take (Z.to_nat (current_ (sbase s))) (wbuffer_ (sbase s)).

Lemma streamed_length s : base_ok (sbase s) -> Z.of_nat (length (streamed s)) = flushed_size_ s + current_ (sbase s).
Proof. intros Hok. unfold streamed. by rewrite length_app, Nat2Z.inj_add, contents_length. Qed.

Lemma Flush_spec s :
  base_ok (sbase s) -> Z.of_nat (length (streamed s)) < 2 ^ (kBitsPerWord - 1) ->
  Flush s = Ok (mkStreaming (mkBase (initial_size_ (sbase s)) (wbuffer_ (sbase s)) 0) (streamed s)) /\
  StreamingPosition s = Ok (Z.of_nat (length (streamed s))).
Proof.
  intros Hok Hlen. unfold Flush, StreamingPosition. rewrite streamed_length in * by done.
  destruct Hok as [Hc _ _ _]. by rewrite intptr_nonneg by (unfold flushed_size_ in *; lia).
Qed.

Definition streaming_slack (s : StreamingStream) : Z := initial_size_ (sbase s) + 64 * 1024.

(** The buffer is made larger whenever it is full, although flushing it gave all
    its space back: the test for that in [Realloc] never succeeds. *)
Lemma Streaming_EnsureSpace_law n s :
  base_ok (sbase s) -> 0 <= n -> size_fits (Z.of_nat (length (streamed s)) + n) (streaming_slack s) ->
  (Streaming_EnsureSpace n s = Err OutOfMemory /\ exists k, available k = false) \/
  exists s', Streaming_EnsureSpace n s = Ok s' /\ base_ok (sbase s') /\ streamed s' = streamed s /\ n <= Remaining (sbase s') /\
    streaming_slack s' = streaming_slack s /\
    (Remaining (sbase s) < n -> sent s' = streamed s /\ 2 * capacity_ (sbase s) <= capacity_ (sbase s')).
Proof.
  intros Hok Hn Hfit. pose proof (streamed_length s Hok) as Elen. pose proof Hok as [Hc Hcap (k & Hk & Hi) Hp].
  pose proof (pow2_pos k Hk). unfold size_fits, streaming_slack in Hfit. unfold Streaming_EnsureSpace.
  assert (0 <= flushed_size_ s) by (unfold flushed_size_; lia).
  destruct (new_size_spec n (sbase s) Hok Hn) as ([m|] & -> & Hm); [unfold size_fits; lia|..]; cbn [rbind].
  - unfold Streaming_Realloc. destruct (Flush_spec s Hok) as [-> _]; [lia|]. cbn [rbind sbase].
    change (capacity_ (mkBase _ _ _)) with (capacity_ (sbase s)).
    rewrite (proj2 (Z.leb_gt _ _)) by lia. destruct (RoundUp_spec m 16) as (y & Ey & Hy); [lia|done|lia| |].
    { change (2 ^ 16) with (64 * 1024). lia. }
    change (2 ^ 16) with (64 * 1024) in *. rewrite Ey. cbn [rbind]. rewrite granted_nonneg by lia.
    destruct (available y) eqn:Ea; [|left; eauto]. right. cbn [rbind].
    set (s' := mkStreaming _ _).
    assert (capacity_ (sbase s') = y) as Ecap by (apply grown_length; unfold capacity_ in *; cbn; lia).
    assert (Remaining (sbase s') = y) as Er by (unfold Remaining; rewrite Ecap; cbn; lia).
    rewrite ASSERT_true by (apply Z.leb_le; lia). exists s'. split; [done|]. split_and!; [| |lia|done|].
    + split; [rewrite Ecap; cbn; lia..|by exists k|done].
    + unfold streamed at 1, s'. cbn. by rewrite app_nil_r.
    + intros _. rewrite Ecap. split; [done|lia].
  - right. exists s. split_and!; [done..|]. intros Hlt. lia.
Qed.

#[export] Instance Streaming_laws : SinkLaws StreamingStream.
Proof.
  refine {| sink_ok := fun s => base_ok (sbase s); contents := streamed; room := fun s => Remaining (sbase s);
            slack := streaming_slack |}.
  - intros n s Hok Hn Hfit.
    destruct (Streaming_EnsureSpace_law n s Hok Hn Hfit) as [?|(s' & ? & ? & ? & ? & ? & _)]; [by left|].
    right. by exists s'.
  - intros b s Hok _ Hr. destruct (base_put_law b (sbase s) Hok Hr) as (b' & E & Hok' & Ec & Er & Ei).
    exists (mkStreaming b' (sent s)). cbn. unfold Streaming_put. rewrite E. split_and!; [done..| |done|].
    + unfold streamed. cbn. by rewrite Ec, app_assoc.
    + unfold streaming_slack. cbn. by rewrite Ei.
Defined.

(** Doubling a full buffer that holds half of what [intptr_t] can count, 2^30
    bytes on a 32-bit host, overflows. *)
Theorem EnsureSpace_overflows n s :
  current_ s = capacity_ s -> 0 < n <= capacity_ s -> 2 ^ (kBitsPerWord - 1) <= 2 * capacity_ s ->
  Malloc_EnsureSpace n s = Err UndefinedBehavior.
Proof.
  intros Hfull Hn Hbig. unfold Malloc_EnsureSpace, new_size, Remaining.
  rewrite (proj2 (Z.leb_gt _ _)), (proj2 (Z.ltb_ge _ _)) by lia. cbn [rbind]. unfold intptr.
  rewrite decide_False by (unfold inS; lia). done.
Qed.

(** ** Sequences of values *)

Fixpoint write_items {W} `{!ByteSink W} (items : list (codec * Z)) (s : W) : Res W :=
  match items with [] => Ok s | (c, v) :: items => let* s := codec_write c v s in write_items items s end.

Fixpoint read_items (cs : list codec) (st : ReadStream) : Res (list Z * ReadStream) :=
  match cs with
  | [] => Ok ([], st)
  | c :: cs => let* (v, st) := codec_read c st in let* (vs, st) := read_items cs st in Ok (v :: vs, st)
  end.

Lemma items_transmit {W} `{!ByteSink W} `{!SinkLaws W} items :
  Forall (fun i => codec_domain (fst i) (snd i)) items ->
  exists bs, appends (write_items items) bs /\ (length bs <= 10 * length items)%nat /\
    forall st, follows st bs -> read_items (fst <$> items) st = Ok (snd <$> items, advanced st (length bs)).
Proof.
  induction 1 as [|[c v] items Hi Hitems (bs & Ha & Hl & Hr)].
  { exists []. split; [apply appends_nil|]. split; [done|]. intros st _. cbn. unfold advanced. cbn.
    rewrite Z.add_0_r. by destruct st. }
  destruct (codec_transmits c v Hi) as (b1 & Ha1 & Hl1 & Hr1). exists (b1 ++ bs). split_and!.
  - by apply (appends_then (codec_write c v) (write_items items)).
  - rewrite length_app. cbn [length]. lia.
  - intros st Hf. apply follows_app in Hf as [Hf1 Hf2]. cbn. rewrite (Hr1 st Hf1). cbn [rbind]. rewrite (Hr _ Hf2).
    cbn [rbind]. by rewrite advanced_advanced, length_app.
Qed.

(** What is appended to a sink can be read from there on. *)
Lemma items_round_trip {W} `{!ByteSink W} `{!SinkLaws W} items (s : W) :
  Forall (fun i => codec_domain (fst i) (snd i)) items -> sink_ok s -> fits s (10 * length items) ->
  (write_items items s = Err OutOfMemory /\ exists k, available k = false) \/
  exists s' bs, write_items items s = Ok s' /\ sink_ok s' /\ contents s' = contents s ++ bs /\
    (length bs <= 10 * length items)%nat /\
    read_items (fst <$> items) (mkReadStream (contents s') (Z.of_nat (length (contents s)))) =
      Ok (snd <$> items, mkReadStream (contents s') (Z.of_nat (length (contents s')))).
Proof.
  intros Hi Hs Hfit. destruct (items_transmit (W := W) items Hi) as (bs & Ha & Hl & Hr).
  destruct (Ha s Hs) as [?|(s' & E & Hs' & Ec & _)]; [by eapply fits_le|by left|]. right. exists s', bs. split_and!; [done..|].
  rewrite Hr.
  - unfold advanced. cbn [rbytes rpos].
    replace (Z.of_nat (length (contents s'))) with (Z.of_nat (length (contents s)) + Z.of_nat (length bs)); [done|].
    rewrite Ec, length_app. lia.
  - split; [cbn; lia|]. exists []. cbn. by rewrite Nat2Z.id, Ec, drop_app_length, app_nil_r.
Qed.

(** Room in [intptr_t] for the sizes that writing [items] can lead to: ten bytes
    an item and the four that [WriteRefId] asks for, doubled, the initial size,
    and for a StreamingWriteStream the rounding to 64 KB. *)
Definition items_fit (items : list (codec * Z)) (position rounding : Z) : Prop :=
  size_fits (position + 10 * Z.of_nat (length items) + kept_ahead) rounding.

(** C11. What is written is read back: a sequence of integers in any of the
    encodings (markers, raw, LEB128, signed LEB128, reference ids, words in
    halves, for every width and value of the type), written to a
    MallocWriteStream or to a StreamingWriteStream, leaves the earlier content
    as it was, adds at most ten bytes an integer, and reading the added bytes
    with the matching readers gives the same integers and stops exactly at the
    end; the only way to fail is that the allocator refuses memory.  The stream
    is well formed (base_ok: the position is within the buffer, the initial size
    a power of two).  Sizes and positions are in the host's intptr_t, and
    items_fit bounds them: twice (the bytes written before and ten for each
    integer, plus 4) plus the initial size (and 64 KB when streaming) stays below
    2^31 or 2^63.  Beyond that, doubling the capacity can overflow
    (EnsureSpace_overflows). *)
Theorem DataStream_round_trip items :
  Forall (fun i => codec_domain (fst i) (snd i)) items ->
  (forall s : BaseStream, base_ok s -> items_fit items (current_ s) (initial_size_ s) ->
     (write_items items s = Err OutOfMemory /\ exists k, available k = false) \/
     exists s' bs, write_items items s = Ok s' /\ base_ok s' /\ fst (Steal s') = fst (Steal s) ++ bs /\
       (length bs <= 10 * length items)%nat /\
       read_items (fst <$> items) (mkReadStream (fst (Steal s')) (current_ s)) =
         Ok (snd <$> items, mkReadStream (fst (Steal s')) (current_ s'))) /\
  (forall s : StreamingStream, base_ok (sbase s) ->
     items_fit items (flushed_size_ s + current_ (sbase s)) (initial_size_ (sbase s) + 64 * 1024) ->
     (write_items items s = Err OutOfMemory /\ exists k, available k = false) \/
     exists s' f f' p p' bs, write_items items s = Ok s' /\ base_ok (sbase s') /\
       Flush s = Ok f /\ Flush s' = Ok f' /\ StreamingPosition s = Ok p /\ StreamingPosition s' = Ok p' /\
       sent f' = sent f ++ bs /\ (length bs <= 10 * length items)%nat /\
       read_items (fst <$> items) (mkReadStream (sent f') p) = Ok (snd <$> items, mkReadStream (sent f') p')).
Proof.
  intros Hi. split; intros s Hs Hfit.
  - pose proof (items_round_trip (W := BaseStream) items s Hi Hs) as Hrt. unfold fits in Hrt. cbn in Hrt.
    rewrite contents_length in Hrt by done. unfold items_fit in Hfit.
    destruct Hrt as [?|(s' & bs & E & Hs' & Ec & Hl & Er)]; [unfold size_fits, kept_ahead, streaming_slack in *; lia|by left|]. right.
    exists s', bs. rewrite !contents_length in Er by done. done.
  - pose proof (items_round_trip (W := StreamingStream) items s Hi Hs) as Hrt. unfold fits in Hrt. cbn in Hrt.
    unfold items_fit in Hfit. rewrite <- streamed_length in Hfit by done.
    destruct Hrt as [?|(s' & bs & E & Hs' & Ec & Hl & Er)]; [unfold size_fits, kept_ahead, streaming_slack in *; lia|by left|]. right.
    pose proof Hs as [_ _ (k & Hk & Hinit) _]. pose proof (pow2_pos k Hk). unfold size_fits in Hfit.
    destruct (Flush_spec s Hs) as [F1 P1]; [unfold kept_ahead in *; lia|].
    destruct (Flush_spec s' Hs') as [F2 P2]; [rewrite Ec, length_app; unfold kept_ahead in *; lia|].
    exists s'. do 4 eexists. exists bs. split_and!; done.
Qed.

End Streams.
