(* ===== verification/Unicode.v ===== *)
(** * Unicode: UTF-8 and UTF-16

    Models platform/unicode.{h,cc} and vm/unicode.cc, without the tables for
    upper and lower case.  An array and its length are a list of code units; what
    a function stores through its destination pointer is the list it returns.
    A string of the heap is its list of code units and whether they are bytes. *)

From stdpp Require Import base numbers list.
From Stdlib Require Import Lia.
From S2P Require Import Prelude Constants AsmBuffer.

#[local] Open Scope Z_scope.
#[local] Open Scope res_scope.

(** ** Class Utf *)

Module Utf.

Definition kMaxCodePoint : Z := 0x10FFFF.
Definition kReplacementChar : Z := 0xFFFD.

Definition IsLatin1 (code_point : Z) : bool := (0 <=? code_point) && (code_point <=? 0xFF).
Definition IsBmp (code_point : Z) : bool := (0 <=? code_point) && (code_point <=? 0xFFFF).
Definition IsSupplementary (code_point : Z) : bool := (0xFFFF <? code_point) && (code_point <=? kMaxCodePoint).
Definition IsOutOfRange (code_point : Z) : bool := (code_point <? 0) || (kMaxCodePoint <? code_point).

End Utf.

(** ** Class Utf16 *)

Module Utf16.

Definition kMaxCodeUnit : Z := 0xFFFF.
Definition kLeadSurrogateOffset : Z := 0xD800 - Z.shiftr 0x10000 10.

Definition Length (ch : Z) : Z := if ch <=? kMaxCodeUnit then 1 else 2.
Definition IsSurrogate (ch : Z) : bool := Z.land ch 0xFFFFF800 =? 0xD800.
Definition IsLeadSurrogate (ch : Z) : bool := Z.land ch 0xFFFFFC00 =? 0xD800.
Definition IsTrailSurrogate (ch : Z) : bool := Z.land ch 0xFFFFFC00 =? 0xDC00.

Definition Decode (lead trail : Z) : Z :=
  0x10000 + Z.shiftl (Z.land lead 0x3FF) 10 + Z.land trail 0x3FF.

Definition Encode `{Target} (codepoint : Z) : Res (list Z) :=
  ASSERT (kMaxCodeUnit <? codepoint) ;;
  Ok [u16 (kLeadSurrogateOffset + Z.shiftr codepoint 10); u16 (0xDC00 + Z.land codepoint 0x3FF)].

(** The character at [i] and the position of the next one. *)
Definition Next (characters : list Z) (i : Z) : Res (Z * Z) :=
  let len := Z.of_nat (length characters) in
  match (if i <? 0 then None else characters !! Z.to_nat i) with
  | None => Err UndefinedBehavior
  | Some ch =>
      if IsLeadSurrogate ch && (i <? len - 1) then
        match characters !! Z.to_nat (i + 1) with
        | None => Err UndefinedBehavior
        | Some ch2 => if IsTrailSurrogate ch2 then Ok (Decode ch ch2, i + 2) else Ok (ch, i + 1)
        end
      else Ok (ch, i + 1)
  end.

End Utf16.

(** ** Class String::CodePointIterator *)

Module CodePointIterator.

Record t : Set := mk { str_ : list Z; ch_ : Z; index_ : Z; end_ : Z }.

Section CodePointIterator.
Context `{Target}.

Definition make (str : list Z) : t := mk str 0 (-1) (Z.of_nat (length str)).
Definition make_range (str : list Z) (start length : Z) : Res t :=
  ASSERT (0 <=? start) ;;
  ASSERT (start + length <=? Z.of_nat (List.length str)) ;;
  Ok (mk str 0 (start - 1) (start + length)).

Definition CharAt (str : list Z) (index : Z) : Res Z :=
  match (if index <? 0 then None else str !! Z.to_nat index) with Some ch => Ok ch | None => Err UndefinedBehavior end.

Definition Current (it : t) : Res Z :=
  ASSERT (0 <=? index_ it) ;;
  ASSERT (index_ it <? end_ it) ;;
  Ok (ch_ it).

Definition Next (it : t) : Res (bool * t) :=
  ASSERT (-1 <=? index_ it) ;;
  let length := Utf16.Length (ch_ it) in
  if index_ it <? end_ it - length then
    let index := index_ it + length in
    let* ch := CharAt (str_ it) index in
    let* ch :=
      (if Utf16.IsLeadSurrogate ch && (index <? end_ it - 1) then
         let* ch2 := CharAt (str_ it) (index + 1) in
         Ok (if Utf16.IsTrailSurrogate ch2 then Utf16.Decode ch ch2 else ch)
       else Ok ch) in
    Ok (true, mk (str_ it) ch index (end_ it))
  else Ok (false, mk (str_ it) (ch_ it) (end_ it) (end_ it)).

(** [while (it.Next()) { ch = it.Current(); body }] *)
Fixpoint for_each {A} (fuel : nat) (body : Z -> A -> Res (bool * A)) (it : t) (acc : A) : Res A :=
  match fuel with
  | O => Err OutOfFuel
  | S fuel =>
      let* (more, it) := Next it in
      if more then
        let* ch := Current it in
        let* (go_on, acc) := body ch acc in
        if go_on then for_each fuel body it acc else Ok acc
      else Ok acc
  end.

End CodePointIterator.
End CodePointIterator.

(** ** Class Utf8 *)

Module Utf8.

Inductive Type_ : Set := kLatin1 | kBMP | kSupplementary.

Definition kTrailBytes : list Z :=
  replicate 128 1 ++ replicate 64 0 ++ replicate 32 2 ++ replicate 16 3 ++
  [4; 4; 4; 4; 4; 4; 4; 4; 5; 5; 5; 5; 6; 6; 0; 0].

Definition kMagicBits : list Z :=
  [0; 0x00000000; 0x00003080; 0x000E2080; 0x03C82080; 0xFA082080; 0x82082080].

Definition kOverlongMinimum : list Z := [0; 0x0; 0x80; 0x800; 0x10000; 0xFFFFFFFF; 0xFFFFFFFF].

Definition kMaxOneByteChar : Z := 0x7F.
Definition kMaxTwoByteChar : Z := 0x7FF.
Definition kMaxThreeByteChar : Z := 0xFFFF.
Definition kMaxFourByteChar : Z := Utf.kMaxCodePoint.

Definition IsTrailByte (code_unit : Z) : bool := Z.land code_unit 0xC0 =? 0x80.
Definition IsNonShortestForm (code_point num_code_units : Z) : bool :=
  code_point <? nth (Z.to_nat num_code_units) kOverlongMinimum 0.
Definition IsLatin1SequenceStart (code_unit : Z) : bool := code_unit <=? 0xC3.
Definition IsSupplementarySequenceStart (code_unit : Z) : bool := 0xF0 <=? code_unit.

Section Utf8.
Context `{Target}.

Definition Length (ch : Z) : Res Z :=
  if ch <=? kMaxOneByteChar then Ok 1
  else if ch <=? kMaxTwoByteChar then Ok 2
  else if ch <=? kMaxThreeByteChar then Ok 3
  else ASSERT (ch <=? kMaxFourByteChar) ;; Ok 4.

Definition kMask : Z := Z.lnot (Z.shiftl 1 6).

Definition Encode (ch : Z) : Res (list Z) :=
  let trail x := u8 (Z.lor 0x80 (Z.land x kMask)) in
  if ch <=? kMaxOneByteChar then Ok [u8 ch]
  else if ch <=? kMaxTwoByteChar then Ok [u8 (Z.lor 0xC0 (Z.shiftr ch 6)); trail ch]
  else if ch <=? kMaxThreeByteChar then
    Ok [u8 (Z.lor 0xE0 (Z.shiftr ch 12)); trail (Z.shiftr ch 6); trail ch]
  else
    ASSERT (ch <=? kMaxFourByteChar) ;;
    Ok [u8 (Z.lor 0xF0 (Z.shiftr ch 18)); trail (Z.shiftr ch 12); trail (Z.shiftr ch 6); trail ch].

(** The loop over the bytes after the first: [k] of them are left. [None] when
    the array ends before the sequence. *)
Fixpoint trail_loop (bytes : list Z) (k : nat) (ch : Z) (is_malformed : bool) {struct k} : option (Z * bool) :=
  match k with
  | O => Some (ch, is_malformed)
  | S k =>
      match bytes with
      | [] => None
      | code_unit :: bytes =>
          trail_loop bytes k (u32 (u32 (Z.shiftl ch 6) + code_unit)) (is_malformed || negb (IsTrailByte code_unit))
      end
  end.

(** The sequence at the start of the array: its length and code point, or none
    if it is not well-formed.  Shared by [IsValid] and [Decode]. *)
Definition sequence (utf8_array : list Z) : Res (option (Z * Z)) :=
  match utf8_array with
  | [] => Err UndefinedBehavior
  | b :: rest =>
      let ch := Z.land b 0xFF in
      if ch <? 0x80 then Ok (Some (1, ch))
      else
        let num_trail_bytes := nth (Z.to_nat ch) kTrailBytes 0 in
        let i := Z.max 1 num_trail_bytes in
        match trail_loop rest (Z.to_nat (i - 1)) ch false with
        | None => Ok None
        | Some (ch, is_malformed) =>
            let ch := u32 (ch - nth (Z.to_nat num_trail_bytes) kMagicBits 0) in
            if negb is_malformed && (i =? num_trail_bytes) && negb (Utf.IsOutOfRange (s32 ch)) &&
               negb (IsNonShortestForm ch i)
            then Ok (Some (i, ch)) else Ok None
        end
  end.

(** The number of bytes read and the code point; 0 and -1 for invalid input. *)
Definition Decode (utf8_array : list Z) : Res (Z * Z) :=
  let* r := sequence utf8_array in
  match r with Some (i, ch) => Ok (i, s32 ch) | None => Ok (0, -1) end.

Fixpoint IsValid_loop (fuel : nat) (utf8_array : list Z) : Res bool :=
  match utf8_array with
  | [] => Ok true
  | _ =>
      match fuel with
      | O => Err OutOfFuel
      | S fuel =>
          let* r := sequence utf8_array in
          match r with
          | Some (j, _) => IsValid_loop fuel (drop (Z.to_nat j) utf8_array)
          | None => Ok false
          end
      end
  end.
Definition IsValid (utf8_array : list Z) : Res bool := IsValid_loop (length utf8_array) utf8_array.

Fixpoint CodeUnitCount_loop (utf8_array : list Z) (len : Z) (char_type : Type_) : Z * Type_ :=
  match utf8_array with
  | [] => (len, char_type)
  | code_unit :: rest =>
      if IsTrailByte code_unit then CodeUnitCount_loop rest len char_type
      else if IsLatin1SequenceStart code_unit then CodeUnitCount_loop rest (len + 1) char_type
      else if IsSupplementarySequenceStart code_unit then CodeUnitCount_loop rest (len + 2) kSupplementary
      else CodeUnitCount_loop rest (len + 1) (match char_type with kLatin1 => kBMP | t => t end)
  end.
Definition CodeUnitCount (utf8_array : list Z) : Z * Type_ := CodeUnitCount_loop utf8_array 0 kLatin1.

(** The position of the first sequence that does not decode, as far as [len]
    code units reach; what is printed is not modelled. *)
Fixpoint ReportInvalidByte_loop (fuel : nat) (utf8_array : list Z) (len i j : Z) : Res Z :=
  match utf8_array with
  | [] => Ok i
  | b :: _ =>
      if j <? len then
        match fuel with
        | O => Err OutOfFuel
        | S fuel =>
            let is_supplementary := IsSupplementarySequenceStart b in
            let* (num_bytes, ch) := Decode utf8_array in
            if ch =? -1 then Ok i
            else
              let j := if is_supplementary then j + 1 else j in
              ReportInvalidByte_loop fuel (drop (Z.to_nat num_bytes) utf8_array) len (i + num_bytes) (j + 1)
        end
      else Ok i
  end.
Definition ReportInvalidByte (utf8_array : list Z) (len : Z) : Res Z :=
  ReportInvalidByte_loop (length utf8_array) utf8_array len 0 0.

(** The decoders: success, and the [j] units stored so far.  [len] is the room
    in the destination. *)
Fixpoint DecodeToUTF32_loop (fuel : nat) (utf8_array : list Z) (len : Z) (dst : list Z) : Res (bool * list Z) :=
  let j := Z.of_nat (length dst) in
  match utf8_array with
  | [] => Ok (true, dst)
  | _ =>
      if j <? len then
        match fuel with
        | O => Err OutOfFuel
        | S fuel =>
            let* (num_bytes, ch) := Decode utf8_array in
            if ch =? -1 then Ok (false, dst)
            else DecodeToUTF32_loop fuel (drop (Z.to_nat num_bytes) utf8_array) len (dst ++ [ch])
        end
      else Ok (negb (j =? len), dst)
  end.
Definition DecodeToUTF32 (utf8_array : list Z) (len : Z) : Res (bool * list Z) :=
  DecodeToUTF32_loop (length utf8_array) utf8_array len [].

Definition DecodeCStringToUTF32 (str : list Z) (len : Z) : Res (bool * list Z) := DecodeToUTF32 str len.

Fixpoint DecodeToUTF16_loop (fuel : nat) (utf8_array : list Z) (len : Z) (dst : list Z) : Res (bool * list Z) :=
  let j := Z.of_nat (length dst) in
  match utf8_array with
  | [] => Ok (true, dst)
  | b :: _ =>
      if j <? len then
        match fuel with
        | O => Err OutOfFuel
        | S fuel =>
            let is_supplementary := IsSupplementarySequenceStart b in
            let* (num_bytes, ch) := Decode utf8_array in
            if ch =? -1 then Ok (false, dst)
            else if is_supplementary then
              if j =? len - 1 then Ok (false, dst)
              else let* units := Utf16.Encode ch in
                   DecodeToUTF16_loop fuel (drop (Z.to_nat num_bytes) utf8_array) len (dst ++ units)
            else DecodeToUTF16_loop fuel (drop (Z.to_nat num_bytes) utf8_array) len (dst ++ [u16 ch])
        end
      else Ok (negb (j =? len), dst)
  end.
Definition DecodeToUTF16 (utf8_array : list Z) (len : Z) : Res (bool * list Z) :=
  DecodeToUTF16_loop (length utf8_array) utf8_array len [].

Fixpoint DecodeToLatin1_loop (fuel : nat) (utf8_array : list Z) (len : Z) (dst : list Z) : Res (bool * list Z) :=
  let j := Z.of_nat (length dst) in
  match utf8_array with
  | [] => Ok (true, dst)
  | b :: _ =>
      if j <? len then
        match fuel with
        | O => Err OutOfFuel
        | S fuel =>
            ASSERT (IsLatin1SequenceStart b) ;;
            let* (num_bytes, ch) := Decode utf8_array in
            if ch =? -1 then Ok (false, dst)
            else
              ASSERT (Utf.IsLatin1 ch) ;;
              DecodeToLatin1_loop fuel (drop (Z.to_nat num_bytes) utf8_array) len (dst ++ [u8 ch])
        end
      else Ok (negb (j =? len), dst)
  end.
Definition DecodeToLatin1 (utf8_array : list Z) (len : Z) : Res (bool * list Z) :=
  DecodeToLatin1_loop (length utf8_array) utf8_array len [].

(** ** Strings of the heap (vm/unicode.cc) *)

Definition kWordBytes : Z := kBitsPerWord / 8.
Definition kAsciiWordMask : Z := if kBitsPerWord =? 64 then 0x8080808080808080 else 0x80808080.

(** The high bits of a word's bytes, counted with shifts. *)
Definition count_high (chunk : Z) : Z :=
  let add n c := wrapU kBitsPerWord (c + Z.shiftr c n) in
  let chunk := if kBitsPerWord =? 64 then add 32 chunk else chunk in
  Z.land (Z.shiftr (add 8 (add 16 chunk)) 7) 0xf.

Fixpoint one_byte_length (fuel : nat) (chars : list Z) (length : Z) : Z :=
  match fuel with
  | O => length
  | S fuel =>
      let n := Z.to_nat kWordBytes in
      if (n <=? List.length chars)%nat then
        let chunk := Z.land (le_combine (take n chars)) kAsciiWordMask in
        one_byte_length fuel (drop n chars) (if chunk =? 0 then length else length + count_high chunk)
      else foldl (fun length c => if kMaxOneByteChar <? c then length + 1 else length) length chars
  end.

(** The number of steps of the iterator over a string. *)
Definition iterations (units : list Z) : nat := S (List.length units).

Definition String_Length (one_byte : bool) (units : list Z) : Res Z :=
  if one_byte then Ok (one_byte_length (S (List.length units)) units (Z.of_nat (List.length units)))
  else
    CodePointIterator.for_each (iterations units)
      (fun ch length => let* n := Length ch in Ok (true, length + n)) (CodePointIterator.make units) 0.

(** The characters of a word that is not plain ASCII, one by one; [false] when
    the destination is full. *)
Fixpoint encode_chars (chars : list Z) (array_len : Z) (dst : list Z) : Res (bool * list Z) :=
  match chars with
  | [] => Ok (true, dst)
  | c :: chars =>
      let* bytes := Length c in
      if array_len <? Z.of_nat (List.length dst) + bytes then Ok (false, dst)
      else let* e := Encode c in encode_chars chars array_len (dst ++ e)
  end.

(** The bytes stored, and whether the loop ran to its end. *)
Fixpoint encode_words (fuel : nat) (chars : list Z) (array_len : Z) (dst : list Z) : Res (bool * list Z) :=
  match chars with
  | [] => Ok (true, dst)
  | _ =>
      match fuel with
      | O => Err OutOfFuel
      | S fuel =>
          let n := Z.to_nat kWordBytes in
          let word := take n chars in
          if (n <=? List.length chars)%nat && (Z.land (le_combine word) kAsciiWordMask =? 0) &&
             (Z.of_nat (List.length dst) + kWordBytes <=? array_len)
          then encode_words fuel (drop n chars) array_len (dst ++ le_split n (le_combine word))
          else
            let* (go_on, dst) := encode_chars word array_len dst in
            if go_on then encode_words fuel (drop n chars) array_len dst else Ok (false, dst)
      end
  end.

Definition encode_code_point (len ch : Z) (dst : list Z) : Res (bool * list Z) :=
  ASSERT (negb (Utf.IsOutOfRange ch)) ;;
  let ch := if Utf16.IsSurrogate ch then Utf.kReplacementChar else ch in
  let* num_bytes := Length ch in
  if len <? Z.of_nat (List.length dst) + num_bytes then Ok (false, dst)
  else let* e := Encode ch in Ok (true, dst ++ e).

(** The bytes stored at the destination and the value returned.  In the first
    branch a second variable [pos] hides the one the last statement returns. *)
Definition String_Encode (one_byte : bool) (units : list Z) (len : Z) : Res (list Z * Z) :=
  let* n := String_Length one_byte units in
  ASSERT (n <=? len) ;;
  if one_byte then
    let* (complete, dst) := encode_words (List.length units) units len [] in
    Ok (dst, if complete then 0 else Z.of_nat (List.length dst))
  else
    let* dst := CodePointIterator.for_each (iterations units) (encode_code_point len) (CodePointIterator.make units) [] in
    Ok (dst, Z.of_nat (List.length dst)).

End Utf8.
End Utf8.
