(* ===== verification/UnicodeSpec.v ===== *)
(** * UnicodeSpec: UTF-8 decoding inverts encoding

    [enc] is the encoding as the standard tables give it, in arithmetic; the
    encoder computes it, and the decoder accepts exactly its values. *)

From stdpp Require Import base numbers list sets.
From Stdlib Require Import Lia.
From S2P Require Import Prelude Constants AsmBuffer DataStream DataStreamSpec Unicode.

#[local] Open Scope Z_scope.
#[local] Open Scope res_scope.

(** ** The encoding *)

Definition code_point (ch : Z) : Prop := 0 <= ch <= 0x10FFFF.

Definition trail (x : Z) : Z := 128 + x mod 64.

Definition enc (ch : Z) : list Z :=
  if ch <? 0x80 then [ch]
  else if ch <? 0x800 then [192 + ch / 64; trail ch]
  else if ch <? 0x10000 then [224 + ch / 4096; trail (ch / 64); trail ch]
  else [240 + ch / 262144; trail (ch / 4096); trail (ch / 64); trail ch].

Lemma enc_cases ch :
  code_point ch ->
  (0 <= ch < 128 /\ enc ch = [ch]) \/
  (128 <= ch < 2048 /\ enc ch = [192 + ch / 64; trail ch]) \/
  (2048 <= ch < 65536 /\ enc ch = [224 + ch / 4096; trail (ch / 64); trail ch]) \/
  (65536 <= ch <= 0x10FFFF /\ enc ch = [240 + ch / 262144; trail (ch / 4096); trail (ch / 64); trail ch]).
Proof.
  unfold code_point, enc. intros Hc. destruct (Z.ltb_spec ch 0x80); [left; split; [lia|done]|].
  destruct (Z.ltb_spec ch 0x800); [right; left; split; [lia|done]|].
  destruct (Z.ltb_spec ch 0x10000); [right; right; left; split; [lia|done]|]. right; right; right. split; [lia|done].
Qed.

Lemma trail_range x : 128 <= trail x < 192.
Proof. unfold trail. pose proof (Z.mod_pos_bound x 64). lia. Qed.

(** Bytes by their leading bits. *)
Definition trail_count (b : Z) : Z :=
  if b <? 128 then 1 else if b <? 192 then 0 else if b <? 224 then 2 else if b <? 240 then 3
  else if b <? 248 then 4 else if b <? 252 then 5 else if b <? 254 then 6 else 0.

Lemma kTrailBytes_spec b : is_byte b -> nth (Z.to_nat b) Utf8.kTrailBytes 0 = trail_count b.
Proof. intros Hb. apply Z.eqb_eq. by apply (all_bytes (fun b => nth (Z.to_nat b) Utf8.kTrailBytes 0 =? trail_count b)). Qed.

Lemma IsTrailByte_spec b : is_byte b -> Utf8.IsTrailByte b = (128 <=? b) && (b <? 192).
Proof. intros Hb. apply eqb_prop. by apply (all_bytes (fun b => eqb (Utf8.IsTrailByte b) ((128 <=? b) && (b <? 192)))). Qed.

Lemma land_0xFF b : is_byte b -> Z.land b 0xFF = b.
Proof. intros Hb. change 0xFF with (Z.ones 8). rewrite Z.land_ones by lia. by apply wrapU_small. Qed.

Section Utf8.
Context `{Target}.

(** ** The encoder *)

Lemma trail_bits x : u8 (Z.lor 0x80 (Z.land x Utf8.kMask)) = trail x.
Proof.
  unfold trail. transitivity (Z.lor (x mod 64) (Z.shiftl 2 6)).
  - change 64 with (2 ^ 6). rewrite <- Z.land_ones by lia. apply Z.bits_inj'. intros i Hi.
    unfold Utf8.kMask. autorewrite with testbits.
    destruct (Z.ltb_spec i 8); cbn [andb].
    + assert (i = 0 \/ i = 1 \/ i = 2 \/ i = 3 \/ i = 4 \/ i = 5 \/ i = 6 \/ i = 7) as Hcase by lia.
      destruct Hcase as [->|[->|[->|[->|[->|[->|[->| ->]]]]]]]; cbn; rewrite ?andb_true_r, ?andb_false_r, ?orb_false_r; done.
    + destruct (Z.leb_spec 0 i); [|lia]. destruct (Z.ltb_spec i 6); [lia|]. cbn. rewrite andb_false_r. cbn.
      symmetry. apply (testbit_small 2); [|lia]. unfold inU. lia.
  - rewrite lor_add by (lia || (apply Z.mod_pos_bound; lia)). lia.
Qed.

(** A lead byte: a marker above the bits of the value. *)
Lemma lead_bits x n marker :
  0 <= n <= 8 -> inU n x -> 0 <= marker -> marker * 2 ^ n + x < 256 ->
  u8 (Z.lor (Z.shiftl marker n) x) = marker * 2 ^ n + x.
Proof.
  intros Hn Hx Hm Hlt. rewrite Z.lor_comm, lor_add by (done || lia). rewrite wrapU_small; [lia|].
  unfold inU in *. pose proof (pow2_pos n). nia.
Qed.

Lemma Encode_enc ch : code_point ch -> Utf8.Encode ch = Ok (enc ch).
Proof.
  intros Hc. unfold Utf8.Encode, Utf8.kMaxOneByteChar, Utf8.kMaxTwoByteChar, Utf8.kMaxThreeByteChar.
  rewrite !trail_bits, !Z.shiftr_div_pow2 by lia.
  change (2 ^ 6) with 64. change (2 ^ 12) with 4096. change (2 ^ 18) with 262144.
  destruct (enc_cases ch Hc) as [[Hr ->]|[[Hr ->]|[[Hr ->]|[Hr ->]]]].
  - rewrite (proj2 (Z.leb_le _ _)) by lia. by rewrite wrapU_small by (unfold inU; lia).
  - rewrite (proj2 (Z.leb_gt _ _)), (proj2 (Z.leb_le _ _)) by lia.
    assert (0 <= ch / 64 < 32) by (split; [apply Z.div_pos|apply Z.div_lt_upper_bound]; lia).
    change 0xC0 with (Z.shiftl 6 5). rewrite (lead_bits (ch / 64) 5) by (unfold inU; lia). done.
  - rewrite !(proj2 (Z.leb_gt _ _)), (proj2 (Z.leb_le _ _)) by lia.
    assert (0 <= ch / 4096 < 16) by (split; [apply Z.div_pos|apply Z.div_lt_upper_bound]; lia).
    change 0xE0 with (Z.shiftl 14 4). rewrite (lead_bits (ch / 4096) 4) by (unfold inU; lia). done.
  - rewrite !(proj2 (Z.leb_gt _ _)) by lia. rewrite ASSERT_true by apply Z.leb_le, Hr. cbn [rbind].
    assert (0 <= ch / 262144 < 8) by (split; [apply Z.div_pos|apply Z.div_lt_upper_bound]; lia).
    change 0xF0 with (Z.shiftl 30 3). rewrite (lead_bits (ch / 262144) 3) by (unfold inU; lia). done.
Qed.

Lemma enc_bytes ch : code_point ch -> Forall is_byte (enc ch).
Proof.
  intros Hc. pose proof (trail_range ch). pose proof (trail_range (ch / 64)). pose proof (trail_range (ch / 4096)).
  destruct (enc_cases ch Hc) as [[Hr ->]|[[Hr ->]|[[Hr ->]|[Hr ->]]]];
    repeat (apply Forall_cons; split); try apply Forall_nil; unfold is_byte; try lia.
  - assert (0 <= ch / 64 < 32) by (split; [apply Z.div_pos|apply Z.div_lt_upper_bound]; lia). lia.
  - assert (0 <= ch / 4096 < 16) by (split; [apply Z.div_pos|apply Z.div_lt_upper_bound]; lia). lia.
  - assert (0 <= ch / 262144 < 8) by (split; [apply Z.div_pos|apply Z.div_lt_upper_bound]; lia). lia.
Qed.

Lemma Length_enc ch : code_point ch -> Utf8.Length ch = Ok (Z.of_nat (length (enc ch))).
Proof.
  intros Hc. unfold Utf8.Length, Utf8.kMaxOneByteChar, Utf8.kMaxTwoByteChar, Utf8.kMaxThreeByteChar.
  destruct (enc_cases ch Hc) as [[Hr ->]|[[Hr ->]|[[Hr ->]|[Hr ->]]]].
  - by rewrite (proj2 (Z.leb_le _ _)) by lia.
  - by rewrite (proj2 (Z.leb_gt _ _)), (proj2 (Z.leb_le _ _)) by lia.
  - by rewrite !(proj2 (Z.leb_gt _ _)), (proj2 (Z.leb_le _ _)) by lia.
  - rewrite !(proj2 (Z.leb_gt _ _)) by lia. by rewrite ASSERT_true by apply Z.leb_le, Hr.
Qed.

(** ** The decoder *)

Definition push (c t : Z) : Z := 64 * c + t.

Lemma trail_step c t : 0 <= c -> 0 <= t < 256 -> 64 * c + t < 2 ^ 32 -> u32 (u32 (Z.shiftl c 6) + t) = push c t.
Proof.
  intros Hc Ht Hlt. unfold push. rewrite Z.shiftl_mul_pow2 by lia. change (2 ^ 6) with 64.
  rewrite (wrapU_small 32 (c * 64)) by (unfold inU; lia). rewrite wrapU_small by (unfold inU; lia). lia.
Qed.

(** The bits that fit. *)
Definition fits_bits (k : nat) (c : Z) : Prop := 0 <= c /\ (c + 5) * 64 ^ Z.of_nat k <= 2 ^ 32.

Lemma fits_step k c t : fits_bits (S k) c -> 0 <= t < 256 -> fits_bits k (push c t) /\ 64 * c + t < 2 ^ 32.
Proof.
  unfold fits_bits, push. intros [Hc Hk] Ht. rewrite Nat2Z.inj_succ, Z.pow_succ_r in Hk by lia.
  assert (0 < 64 ^ Z.of_nat k) by (apply Z.pow_pos_nonneg; lia). split; [split; [lia|]|]; nia.
Qed.

Lemma trail_loop_spec ts : forall rest c m,
  Forall (fun t => 128 <= t < 192) ts -> fits_bits (length ts) c ->
  Utf8.trail_loop (ts ++ rest) (length ts) c m = Some (foldl push c ts, m).
Proof.
  induction ts as [|t ts IH]; intros rest c m Ht Hf; [done|]. apply Forall_cons in Ht as [Ht Hts]. cbn [Utf8.trail_loop app length foldl].
  destruct (fits_step (length ts) c t) as [Hf' Hlt]; [exact Hf|lia|]. rewrite trail_step by (lia || apply Hf).
  rewrite IsTrailByte_spec by (unfold is_byte; lia).
  rewrite (proj2 (Z.leb_le _ _)), (proj2 (Z.ltb_lt _ _)) by lia. rewrite orb_false_r. by apply IH.
Qed.

Lemma trail_loop_malformed k : forall bytes c c', Utf8.trail_loop bytes k c true <> Some (c', false).
Proof. induction k as [|k IH]; intros [|b bytes] c c'; cbn; done || apply IH. Qed.

Lemma trail_loop_inv k : forall bytes c c',
  Forall is_byte bytes -> Utf8.trail_loop bytes k c false = Some (c', false) ->
  exists ts rest, bytes = ts ++ rest /\ length ts = k /\ Forall (fun t => 128 <= t < 192) ts /\
    (fits_bits k c -> c' = foldl push c ts).
Proof.
  induction k as [|k IH]; intros bytes c c' Hb E.
  { injection E as <-. exists [], bytes. split_and!; [done..|constructor|done]. }
  destruct bytes as [|b bytes]; [done|]. apply Forall_cons in Hb as [Hb Hbs]. cbn [Utf8.trail_loop] in E.
  rewrite IsTrailByte_spec in E by done. destruct ((128 <=? b) && (b <? 192)) eqn:Et; cbn [negb orb] in E;
    [|by apply trail_loop_malformed in E].
  apply andb_true_iff in Et as [Et1%Z.leb_le Et2%Z.ltb_lt].
  destruct (IH _ _ _ Hbs E) as (ts & rest & -> & Hl & Hts & Hc). exists (b :: ts), rest.
  split_and!; [done|by cbn; f_equal|by apply Forall_cons|]. intros Hf. destruct (fits_step k c b Hf Hb) as [Hf' Hlt].
  rewrite trail_step in Hc by (done || apply Hf). by apply Hc.
Qed.

(** The checks on a sequence with [n] bytes, by the value of its first. *)
Definition magic (n : Z) : Z := nth (Z.to_nat n) Utf8.kMagicBits 0.

Lemma sequence_lead b rest :
  is_byte b -> 128 <= b -> 2 <= trail_count b ->
  Utf8.sequence (b :: rest) =
    match Utf8.trail_loop rest (Z.to_nat (trail_count b - 1)) b false with
    | None => Ok None
    | Some (c, is_malformed) =>
        if negb is_malformed && negb (Utf.IsOutOfRange (s32 (u32 (c - magic (trail_count b))))) &&
           negb (Utf8.IsNonShortestForm (u32 (c - magic (trail_count b))) (trail_count b))
        then Ok (Some (trail_count b, u32 (c - magic (trail_count b)))) else Ok None
    end.
Proof.
  intros Hb Hge Hn. unfold Utf8.sequence. rewrite land_0xFF by done. rewrite (proj2 (Z.ltb_ge _ _)) by done.
  rewrite kTrailBytes_spec by done. rewrite Z.max_r by lia. destruct (Utf8.trail_loop _ _ _ _) as [[c m]|]; [|done].
  rewrite Z.eqb_refl, andb_true_r. done.
Qed.

Lemma in_range_spec c : inU 32 c -> Utf.IsOutOfRange (s32 c) = negb (c <=? 0x10FFFF).
Proof.
  intros Hc. unfold Utf.IsOutOfRange, Utf.kMaxCodePoint. rewrite wrapS_cases by (done || lia).
  unfold inU in Hc. change (2 ^ 32) with 4294967296 in *. change (2 ^ (32 - 1)) with 2147483648.
  destruct (Z.ltb_spec c 2147483648); destruct (Z.leb_spec c 1114111); cbn;
    apply eqb_prop; destruct (Z.ltb_spec c 0), (Z.ltb_spec 1114111 c), (Z.ltb_spec (c - 4294967296) 0),
      (Z.ltb_spec 1114111 (c - 4294967296)); (done || lia).
Qed.

(** The value of a well-formed sequence. *)
Lemma sequence_forward b ts rest n v :
  is_byte b -> 128 <= b -> trail_count b = n -> 2 <= n -> length ts = Z.to_nat (n - 1) ->
  Forall (fun t => 128 <= t < 192) ts -> fits_bits (length ts) b -> foldl push b ts - magic n = v ->
  0 <= v <= 0x10FFFF -> nth (Z.to_nat n) Utf8.kOverlongMinimum 0 <= v ->
  Utf8.sequence (b :: ts ++ rest) = Ok (Some (n, v)).
Proof.
  intros Hb Hge Hn Hn2 Hl Hts Hf Ev Hv Hmin. rewrite sequence_lead by (done || lia). rewrite Hn, <- Hl.
  rewrite trail_loop_spec by done. rewrite Ev, wrapU_small by (unfold inU; lia).
  rewrite in_range_spec by (unfold inU; lia). rewrite (proj2 (Z.leb_le _ _)) by lia. unfold Utf8.IsNonShortestForm.
  by rewrite (proj2 (Z.ltb_ge _ _)) by lia.
Qed.

Lemma split64 x : x = x mod 64 + 64 * (x / 64).
Proof. pose proof (Z.div_mod x 64). lia. Qed.

Lemma sequence_enc ch rest :
  code_point ch -> Utf8.sequence (enc ch ++ rest) = Ok (Some (Z.of_nat (length (enc ch)), ch)).
Proof.
  intros Hc. pose proof (trail_range ch) as T0. pose proof (trail_range (ch / 64)) as T1.
  pose proof (trail_range (ch / 4096)) as T2.
  assert (ch / 4096 = ch / 64 / 64) as D1 by (by rewrite Z.div_div). assert (ch / 262144 = ch / 64 / 64 / 64) as D2 by (by rewrite !Z.div_div).
  pose proof (split64 ch) as S0. pose proof (split64 (ch / 64)) as S1. pose proof (split64 (ch / 64 / 64)) as S2.
  destruct (enc_cases ch Hc) as [[Hr ->]|[[Hr ->]|[[Hr ->]|[Hr ->]]]]; cbn [app length].
  - unfold Utf8.sequence. rewrite land_0xFF by (unfold is_byte; lia). by rewrite (proj2 (Z.ltb_lt _ _)) by lia.
  - assert (0 <= ch / 64 < 32) by (split; [apply Z.div_pos|apply Z.div_lt_upper_bound]; lia).
    apply (sequence_forward (192 + ch / 64) [trail ch] rest 2); try (unfold is_byte; lia); [|done| | | |].
    + unfold trail_count. rewrite !(proj2 (Z.ltb_ge _ _)), (proj2 (Z.ltb_lt _ _)) by lia. done.
    + by apply Forall_singleton.
    + unfold fits_bits. cbn. lia.
    + change (magic 2) with 0x3080. cbn [foldl]. unfold push, trail. lia.
    + change (nth (Z.to_nat 2) Utf8.kOverlongMinimum 0) with 0x80. lia.
  - assert (0 <= ch / 4096 < 16) by (split; [apply Z.div_pos|apply Z.div_lt_upper_bound]; lia).
    apply (sequence_forward (224 + ch / 4096) [trail (ch / 64); trail ch] rest 3); try (unfold is_byte; lia); [|done| | | |].
    + unfold trail_count. rewrite !(proj2 (Z.ltb_ge _ _)), (proj2 (Z.ltb_lt _ _)) by lia. done.
    + by repeat (apply Forall_cons; split).
    + unfold fits_bits. cbn. lia.
    + change (magic 3) with 0xE2080. cbn [foldl]. unfold push, trail. lia.
    + change (nth (Z.to_nat 3) Utf8.kOverlongMinimum 0) with 0x800. lia.
  - assert (0 <= ch / 262144 < 5) by (split; [apply Z.div_pos|apply Z.div_lt_upper_bound]; lia).
    apply (sequence_forward (240 + ch / 262144) [trail (ch / 4096); trail (ch / 64); trail ch] rest 4); try (unfold is_byte; lia);
      [|done| | | |].
    + unfold trail_count. rewrite !(proj2 (Z.ltb_ge _ _)), (proj2 (Z.ltb_lt _ _)) by lia. done.
    + by repeat (apply Forall_cons; split).
    + unfold fits_bits. cbn. lia.
    + change (magic 4) with 0x3C82080. cbn [foldl]. unfold push, trail. rewrite D1, D2. lia.
    + change (nth (Z.to_nat 4) Utf8.kOverlongMinimum 0) with 0x10000. lia.
Qed.

Lemma divmod64 q r : 0 <= r < 64 -> (64 * q + r) / 64 = q /\ trail (64 * q + r) = 128 + r.
Proof.
  intros Hr. unfold trail. rewrite (Z.mul_comm 64 q), Z.add_comm. rewrite Z.div_add, Z_mod_plus_full by lia.
  by rewrite Z.div_small, Z.mod_small by lia.
Qed.

Lemma count_cases b n :
  is_byte b -> trail_count b = n -> 2 <= n <= 4 ->
  n = 2 /\ 192 <= b < 224 \/ n = 3 /\ 224 <= b < 240 \/ n = 4 /\ 240 <= b < 248.
Proof.
  intros Hb Hn Hn24. unfold trail_count in Hn. repeat case_match; rewrite ?Z.ltb_lt, ?Z.ltb_ge in *; lia.
Qed.

Lemma sequence_value b ts n :
  is_byte b -> trail_count b = n -> 2 <= n <= 4 -> length ts = Z.to_nat (n - 1) ->
  Forall (fun t => 128 <= t < 192) ts -> inU 32 (foldl push b ts - magic n).
Proof.
  intros Hb Hn Hn24 Hl Hts. unfold inU. destruct (count_cases b n Hb Hn Hn24) as [[-> Hbr]|[[-> Hbr]|[-> Hbr]]].
  - destruct ts as [|t1 [|? ?]]; try done. change (magic 2) with 0x3080. decompose_Forall_hyps. unfold push. lia.
  - destruct ts as [|t1 [|t2 [|? ?]]]; try done. change (magic 3) with 0xE2080. decompose_Forall_hyps. unfold push. lia.
  - destruct ts as [|t1 [|t2 [|t3 [|? ?]]]]; try done. change (magic 4) with 0x3C82080. decompose_Forall_hyps. unfold push. lia.
Qed.

(** The bytes of an accepted sequence are the encoding of its value. *)
Lemma enc_of_bytes b ts n v :
  is_byte b -> trail_count b = n -> 2 <= n <= 4 -> length ts = Z.to_nat (n - 1) ->
  Forall (fun t => 128 <= t < 192) ts -> v = foldl push b ts - magic n ->
  v <= 0x10FFFF -> nth (Z.to_nat n) Utf8.kOverlongMinimum 0 <= v -> enc v = b :: ts /\ code_point v.
Proof.
  intros Hb Hn Hn24 Hl Hts Ev Hmax Hmin.
  destruct (count_cases b n Hb Hn Hn24) as [[-> Hbr]|[[-> Hbr]|[-> Hbr]]].
  - destruct ts as [|t1 [|? ?]]; try done. apply Forall_cons in Hts as [H1' _].
    change (magic 2) with 0x3080 in Ev. change (nth (Z.to_nat 2) Utf8.kOverlongMinimum 0) with 0x80 in Hmin.
    cbn [foldl] in Ev. unfold push in Ev. destruct (divmod64 (b - 192) (t1 - 128)) as [D1 M1]; [lia|].
    replace (64 * (b - 192) + (t1 - 128)) with v in * by lia.
    destruct (enc_cases v) as [[Hr E]|[[Hr E]|[[Hr E]|[Hr E]]]]; [unfold code_point; lia|lia| |lia..].
    rewrite E, D1, M1. split; [repeat f_equal; lia|unfold code_point; lia].
  - destruct ts as [|t1 [|t2 [|? ?]]]; try done. apply Forall_cons in Hts as [H1' Hts]. apply Forall_cons in Hts as [H2' _].
    change (magic 3) with 0xE2080 in Ev. change (nth (Z.to_nat 3) Utf8.kOverlongMinimum 0) with 0x800 in Hmin.
    cbn [foldl] in Ev. unfold push in Ev. destruct (divmod64 (b - 224) (t1 - 128)) as [D1 M1]; [lia|].
    destruct (divmod64 (64 * (b - 224) + (t1 - 128)) (t2 - 128)) as [D2 M2]; [lia|].
    replace (64 * (64 * (b - 224) + (t1 - 128)) + (t2 - 128)) with v in * by lia.
    destruct (enc_cases v) as [[Hr E]|[[Hr E]|[[Hr E]|[Hr E]]]]; [unfold code_point; lia|lia|lia| |lia].
    rewrite E. replace (v / 4096) with (v / 64 / 64) by (by rewrite Z.div_div).
    rewrite D2, D1, M1, M2. split; [repeat f_equal; lia|unfold code_point; lia].
  - destruct ts as [|t1 [|t2 [|t3 [|? ?]]]]; try done. apply Forall_cons in Hts as [H1' Hts].
    apply Forall_cons in Hts as [H2' Hts]. apply Forall_cons in Hts as [H3' _].
    change (magic 4) with 0x3C82080 in Ev. change (nth (Z.to_nat 4) Utf8.kOverlongMinimum 0) with 0x10000 in Hmin.
    cbn [foldl] in Ev. unfold push in Ev. destruct (divmod64 (b - 240) (t1 - 128)) as [D1 M1]; [lia|].
    destruct (divmod64 (64 * (b - 240) + (t1 - 128)) (t2 - 128)) as [D2 M2]; [lia|].
    destruct (divmod64 (64 * (64 * (b - 240) + (t1 - 128)) + (t2 - 128)) (t3 - 128)) as [D3 M3]; [lia|].
    replace (64 * (64 * (64 * (b - 240) + (t1 - 128)) + (t2 - 128)) + (t3 - 128)) with v in * by lia.
    destruct (enc_cases v) as [[Hr E]|[[Hr E]|[[Hr E]|[Hr E]]]]; [unfold code_point; lia|lia..|].
    rewrite E. replace (v / 262144) with (v / 64 / 64 / 64) by (by rewrite !Z.div_div).
    replace (v / 4096) with (v / 64 / 64) by (by rewrite Z.div_div).
    rewrite D3, D2, D1, M1, M2, M3. split; [repeat f_equal; lia|unfold code_point; lia].
Qed.

Lemma sequence_inv bs n v :
  Forall is_byte bs -> Utf8.sequence bs = Ok (Some (n, v)) ->
  code_point v /\ n = Z.of_nat (length (enc v)) /\ exists rest, bs = enc v ++ rest.
Proof.
  intros Hbs E. destruct bs as [|b rest]; [done|]. apply Forall_cons in Hbs as [Hb Hrest].
  destruct (Z.lt_ge_cases b 128) as [Hlt|Hge].
  { unfold Utf8.sequence in E. rewrite land_0xFF, (proj2 (Z.ltb_lt _ _)) in E by done. injection E as <- <-.
    unfold is_byte in Hb. destruct (enc_cases b) as [[Hr Ee]|[[Hr _]|[[Hr _]|[Hr _]]]]; [unfold code_point; lia| |lia..].
    rewrite Ee. split; [unfold code_point; lia|]. split; [done|]. by exists rest. }
  destruct (Z.lt_ge_cases (trail_count b) 2) as [Hc0|Hc2].
  { exfalso. unfold Utf8.sequence in E. rewrite land_0xFF, (proj2 (Z.ltb_ge _ _)), kTrailBytes_spec in E by done.
    rewrite Z.max_l in E by lia. cbn [Utf8.trail_loop] in E. change (Z.to_nat (1 - 1)) with 0%nat in E. cbn [Utf8.trail_loop] in E.
    assert (trail_count b <> 1) as Hc1.
    { unfold trail_count. repeat case_match; rewrite ?Z.ltb_lt, ?Z.ltb_ge in *; lia. }
    rewrite (proj2 (Z.eqb_neq 1 _)) in E by done. done. }
  rewrite sequence_lead in E by done. destruct (Utf8.trail_loop _ _ _ _) as [[c m]|] eqn:Et; [|done].
  destruct m; cbn [negb andb] in E; [done|]. set (x := u32 (c - magic (trail_count b))) in *.
  assert (inU 32 x) as Hx by (apply wrapU_range; lia). rewrite in_range_spec in E by done. rewrite negb_involutive in E.
  destruct ((x <=? 0x10FFFF) && negb (Utf8.IsNonShortestForm x (trail_count b))) eqn:Ec; [|done]. injection E as <- <-.
  apply andb_true_iff in Ec as [Hmax%Z.leb_le Hmin%negb_true_iff%Z.ltb_ge].
  apply trail_loop_inv in Et as (ts & rest' & -> & Hl & Hts & Hc); [|done].
  assert (trail_count b <= 4) as Hc4.
  { assert (trail_count b <= 6) by (unfold trail_count; repeat case_match; lia).
    destruct (Z.le_gt_cases (trail_count b) 4) as [|H5]; [done|]. exfalso.
    assert (trail_count b = 5 \/ trail_count b = 6) as [E5|E5] by lia; rewrite E5 in Hmin;
      [change (nth _ _ _) with 0xFFFFFFFF in Hmin|change (nth _ _ _) with 0xFFFFFFFF in Hmin]; lia. }
  assert (fits_bits (Z.to_nat (trail_count b - 1)) b) as Hf.
  { unfold fits_bits. unfold is_byte in Hb. split; [lia|].
    assert (trail_count b = 2 \/ trail_count b = 3 \/ trail_count b = 4) as [E2|[E2|E2]] by lia; rewrite E2;
      [change (64 ^ _) with 64|change (64 ^ _) with 4096|change (64 ^ _) with 262144]; change (2 ^ 32) with 4294967296; lia. }
  specialize (Hc Hf). destruct (enc_of_bytes b ts (trail_count b) x) as [Ee Hcp]; try done.
  - unfold x. rewrite Hc. apply wrapU_small. apply sequence_value; (done || lia).
  - split; [done|]. rewrite Ee. cbn [length]. rewrite Hl. split; [lia|]. by exists rest'.
Qed.

End Utf8.
