(* ===== verification/UnicodeText.v ===== *)
(** * UnicodeText: UTF-8 arrays

    The functions on whole arrays of platform/unicode.cc: validation, counting
    and the three decoders, against the list of code points an array encodes. *)

From stdpp Require Import base numbers list sets.
From Stdlib Require Import Lia.
From S2P Require Import Prelude Constants AsmBuffer DataStreamSpec Unicode UnicodeSpec.

#[local] Open Scope Z_scope.
#[local] Open Scope res_scope.

(** ** Texts *)

Definition utf8 (chs : list Z) : list Z := mjoin (enc <$> chs).

(** The code units of a code point in UTF-16, and of a text. *)
Definition units (ch : Z) : list Z :=
  if ch <? 0x10000 then [ch] else [0xD800 + (ch - 0x10000) / 1024; 0xDC00 + ch mod 1024].
Definition utf16 (chs : list Z) : list Z := mjoin (units <$> chs).

Definition type_of (ch : Z) : Utf8.Type_ :=
  if ch <? 0x100 then Utf8.kLatin1 else if ch <? 0x10000 then Utf8.kBMP else Utf8.kSupplementary.
Definition join_type (t u : Utf8.Type_) : Utf8.Type_ :=
  match u, t with
  | Utf8.kSupplementary, _ => Utf8.kSupplementary
  | Utf8.kBMP, Utf8.kLatin1 => Utf8.kBMP
  | _, _ => t
  end.

(** The bytes of an encoding, by the class's own predicates. *)
Lemma enc_shape ch :
  code_point ch ->
  exists b ts, enc ch = b :: ts /\ is_byte b /\ Utf8.IsTrailByte b = false /\
    Utf8.IsSupplementarySequenceStart b = (0x10000 <=? ch) /\ Utf8.IsLatin1SequenceStart b = (ch <? 0x100) /\
    Forall (fun t => Utf8.IsTrailByte t = true) ts.
Proof.
  intros Hc. assert (forall x, Utf8.IsTrailByte (trail x) = true) as Ht.
  { intros x. pose proof (trail_range x). rewrite IsTrailByte_spec by (unfold is_byte; lia).
    by rewrite (proj2 (Z.leb_le _ _)), (proj2 (Z.ltb_lt _ _)) by lia. }
  assert (forall b, is_byte b -> b < 128 \/ 192 <= b -> Utf8.IsTrailByte b = false) as Hn.
  { intros b Hb Hd. rewrite IsTrailByte_spec by done. apply not_true_is_false. rewrite andb_true_iff, Z.leb_le, Z.ltb_lt. lia. }
  assert (forall b P Q : Z, (b <= P <-> ch < Q) -> (b <=? P) = (ch <? Q)) as Hle.
  { intros b P Q Hd. apply eq_true_iff_eq. by rewrite Z.leb_le, Z.ltb_lt. }
  assert (forall b P Q : Z, (P <= b <-> Q <= ch) -> (P <=? b) = (Q <=? ch)) as Hge.
  { intros b P Q Hd. apply eq_true_iff_eq. by rewrite !Z.leb_le. }
  unfold Utf8.IsSupplementarySequenceStart, Utf8.IsLatin1SequenceStart.
  pose proof (Z.div_mod ch 64 ltac:(done)) as D. pose proof (Z.mod_pos_bound ch 64 ltac:(done)).
  destruct (enc_cases ch Hc) as [[Hr ->]|[[Hr ->]|[[Hr ->]|[Hr ->]]]]; eexists _, _; (split; [done|]).
  - split_and!; [unfold is_byte; lia|apply Hn; unfold is_byte; lia|apply Hge; lia|apply Hle; lia|constructor].
  - split_and!; [unfold is_byte; lia|apply Hn; unfold is_byte; lia|apply Hge; lia|apply Hle; lia|by repeat constructor].
  - assert (0 <= ch / 4096 < 16) by (split; [apply Z.div_pos|apply Z.div_lt_upper_bound]; lia).
    split_and!; [unfold is_byte; lia|apply Hn; unfold is_byte; lia|apply Hge; lia|apply Hle; lia|by repeat constructor].
  - assert (0 <= ch / 262144 < 8) by (split; [apply Z.div_pos|apply Z.div_lt_upper_bound]; lia).
    split_and!; [unfold is_byte; lia|apply Hn; unfold is_byte; lia|apply Hge; lia|apply Hle; lia|by repeat constructor].
Qed.

Lemma utf8_cons ch chs : utf8 (ch :: chs) = enc ch ++ utf8 chs.
Proof. done. Qed.
Lemma utf16_cons ch chs : utf16 (ch :: chs) = units ch ++ utf16 chs.
Proof. done. Qed.

Lemma enc_length_pos ch : (1 <= length (enc ch))%nat.
Proof. unfold enc. repeat case_match; cbn; lia. Qed.

Lemma utf8_length chs : (length chs <= length (utf8 chs))%nat.
Proof. induction chs as [|ch chs IH]; [done|]. rewrite utf8_cons, length_app. pose proof (enc_length_pos ch). cbn. lia. Qed.

Lemma utf8_bytes chs : Forall code_point chs -> Forall is_byte (utf8 chs).
Proof. induction 1; [constructor|]. rewrite utf8_cons. apply Forall_app. split; [by apply enc_bytes|done]. Qed.

Lemma units_cases ch :
  code_point ch -> (ch < 0x10000 /\ units ch = [ch]) \/ (0x10000 <= ch /\ exists l t, units ch = [l; t]).
Proof. intros _. unfold units. destruct (Z.ltb_spec ch 0x10000); [by left|right; split; [done|by eexists _, _]]. Qed.

Section Text.
Context `{Target}.

(** ** One sequence *)

Lemma Decode_enc ch rest : code_point ch -> Utf8.Decode (enc ch ++ rest) = Ok (Z.of_nat (length (enc ch)), ch).
Proof.
  intros Hc. unfold Utf8.Decode. rewrite sequence_enc by done. cbn [rbind]. rewrite wrapS_small; [done|lia|].
  unfold inS, code_point in *. lia.
Qed.

(** No code point's encoding starts the array. *)
Definition bad (bs : list Z) : Prop := bs <> [] /\ forall ch rest, code_point ch -> bs <> enc ch ++ rest.

Lemma sequence_bad bs : Forall is_byte bs -> bad bs -> Utf8.sequence bs = Ok None.
Proof.
  intros Hb [Hne Hbad]. destruct (Utf8.sequence bs) as [[[n v]|]|e] eqn:E; [|done|].
  - apply sequence_inv in E as (Hc & _ & rest & ->); [|done]. by destruct (Hbad v rest).
  - exfalso. destruct bs as [|b rest]; [done|]. unfold Utf8.sequence in E. repeat case_match; done.
Qed.

Lemma Decode_bad bs : Forall is_byte bs -> bad bs -> Utf8.Decode bs = Ok (0, -1).
Proof. intros Hb Hbad. unfold Utf8.Decode. by rewrite sequence_bad. Qed.

(** Every array is a text followed by nothing or by a sequence that is not one. *)
Lemma text_prefix bs : Forall is_byte bs ->
  exists chs rest, Forall code_point chs /\ bs = utf8 chs ++ rest /\ (rest = [] \/ bad rest).
Proof.
  remember (length bs) as n eqn:En. revert bs En. induction (lt_wf n) as [n _ IH]. intros bs -> Hb.
  destruct bs as [|b bs']; [exists [], []; by (split_and!; [constructor| |left])|]. set (bs := b :: bs') in *.
  destruct (Utf8.sequence bs) as [[[k v]|]|e] eqn:E.
  - apply sequence_inv in E as (Hc & _ & rest & E); [|done]. rewrite E in Hb |- *. apply Forall_app in Hb as [_ Hr].
    destruct (IH (length rest)) with (bs := rest) as (chs & r & Hchs & -> & Hr'); [|done..|].
    + rewrite E, length_app. pose proof (enc_length_pos v). lia.
    + exists (v :: chs), r. rewrite utf8_cons, <- app_assoc. split_and!; [by constructor|done|done].
  - exists [], bs. split_and!; [constructor|done|]. right. split; [done|]. intros ch rest Hc Eb.
    rewrite Eb, sequence_enc in E by done. done.
  - exfalso. unfold Utf8.sequence in E. repeat case_match; done.
Qed.

(** ** Loops over a text

    A loop that consumes one sequence in each round consumes a text. *)

Section Loop.
Context {A B : Type} (loop : nat -> list Z -> A -> Res B) (step : A -> Z -> A) (room : list Z -> A -> Prop).
Hypothesis round : forall fuel ch chs rest a,
  code_point ch -> room (ch :: chs) a ->
  loop (S fuel) (enc ch ++ rest) a = loop fuel rest (step a ch) /\ room chs (step a ch).

Lemma loop_text chs : forall fuel rest a,
  Forall code_point chs -> room chs a -> (length chs <= fuel)%nat ->
  loop fuel (utf8 chs ++ rest) a = loop (fuel - length chs) rest (foldl step a chs) /\ room [] (foldl step a chs).
Proof.
  induction chs as [|ch chs IH]; intros fuel rest a Hc Hr Hf; [by rewrite Nat.sub_0_r|].
  apply Forall_cons in Hc as [Hc Hcs]. destruct fuel as [|fuel]; [cbn in Hf; lia|]. rewrite utf8_cons, <- app_assoc.
  destruct (round fuel ch chs (utf8 chs ++ rest) a Hc Hr) as [-> Hr']. cbn [length Nat.sub foldl]. apply IH; [done..|].
  cbn in Hf. lia.
Qed.
End Loop.

Lemma foldl_app (f : Z -> list Z) chs : forall a, foldl (fun a ch => a ++ f ch) a chs = a ++ mjoin (f <$> chs).
Proof. induction chs as [|ch chs IH]; intros a; cbn; [by rewrite app_nil_r|]. by rewrite IH, <- app_assoc. Qed.

Lemma drop_enc ch rest : drop (Z.to_nat (Z.of_nat (length (enc ch)))) (enc ch ++ rest) = rest.
Proof. rewrite Nat2Z.id. apply drop_app_length. Qed.

Lemma code_point_not_minus_one ch : code_point ch -> (ch =? -1) = false.
Proof. unfold code_point. intros Hc. apply Z.eqb_neq. lia. Qed.

Lemma IsValid_text chs rest fuel :
  Forall code_point chs -> (length chs <= fuel)%nat ->
  Utf8.IsValid_loop fuel (utf8 chs ++ rest) = Utf8.IsValid_loop (fuel - length chs) rest.
Proof.
  intros Hc Hf. refine (proj1 (loop_text (fun fuel bs (_ : ()) => Utf8.IsValid_loop fuel bs) (fun a _ => a)
    (fun _ _ => True) _ chs fuel rest () Hc I Hf)).
  intros fuel' ch chs' rest' a Hch _. split; [|done]. destruct (enc_shape ch Hch) as (b & ts & E & _).
  cbn [Utf8.IsValid_loop]. rewrite sequence_enc by done. cbn [rbind]. rewrite drop_enc. by rewrite E.
Qed.

Lemma DecodeToUTF32_text len chs rest dst fuel :
  Forall code_point chs -> (length chs <= fuel)%nat -> Z.of_nat (length dst + length chs) <= len ->
  Utf8.DecodeToUTF32_loop fuel (utf8 chs ++ rest) len dst = Utf8.DecodeToUTF32_loop (fuel - length chs) rest len (dst ++ chs).
Proof.
  intros Hc Hf Hlen. destruct (loop_text (fun fuel bs dst => Utf8.DecodeToUTF32_loop fuel bs len dst) (fun a ch => a ++ [ch])
    (fun chs dst => Z.of_nat (length dst + length chs) <= len)) with (chs := chs) (fuel := fuel) (rest := rest) (a := dst)
    as [E _]; [|done..|].
  - intros fuel' ch chs' rest' a Hch Hr. destruct (enc_shape ch Hch) as (b & ts & E & _). cbn [length] in Hr. split.
    + cbn [Utf8.DecodeToUTF32_loop]. rewrite Decode_enc by done. cbn [rbind]. rewrite code_point_not_minus_one, drop_enc by done.
      rewrite (proj2 (Z.ltb_lt _ _)) by lia. by rewrite E.
    + rewrite length_app. cbn. lia.
  - rewrite E, foldl_app. do 2 f_equal. clear. induction chs as [|ch chs IH]; [done|]. by cbn; f_equal.
Qed.

Lemma Utf16_Encode_units ch : code_point ch -> 0x10000 <= ch -> Utf16.Encode ch = Ok (units ch).
Proof.
  intros [_ Hc] Hge. unfold Utf16.Encode, units, Utf16.kMaxCodeUnit. rewrite ASSERT_true by (apply Z.ltb_lt; lia). cbn [rbind].
  rewrite (proj2 (Z.ltb_ge _ _)) by done. change (Utf16.kLeadSurrogateOffset) with (0xD800 - 64).
  rewrite Z.shiftr_div_pow2 by lia. change 0x3FF with (Z.ones 10). rewrite Z.land_ones by lia. change (2 ^ 10) with 1024.
  replace (ch - 0x10000) with (ch + (-64) * 1024) by lia. rewrite Z.div_add by lia.
  pose proof (Z.mod_pos_bound ch 1024 ltac:(done)). assert (64 <= ch / 1024 < 1088) by (split; [apply Z.div_le_lower_bound|apply Z.div_lt_upper_bound]; lia).
  rewrite (wrapU_small 16 (56320 + _)) by (unfold inU; lia). rewrite wrapU_small by (unfold inU; lia). do 2 f_equal. lia.
Qed.

Lemma DecodeToUTF16_text len chs rest dst fuel :
  Forall code_point chs -> (length chs <= fuel)%nat -> Z.of_nat (length dst + length (utf16 chs)) <= len ->
  Utf8.DecodeToUTF16_loop fuel (utf8 chs ++ rest) len dst =
  Utf8.DecodeToUTF16_loop (fuel - length chs) rest len (dst ++ utf16 chs).
Proof.
  intros Hc Hf Hlen. destruct (loop_text (fun fuel bs dst => Utf8.DecodeToUTF16_loop fuel bs len dst) (fun a ch => a ++ units ch)
    (fun chs dst => Z.of_nat (length dst + length (utf16 chs)) <= len)) with (chs := chs) (fuel := fuel) (rest := rest) (a := dst)
    as [E _]; [|done..|].
  - intros fuel' ch chs' rest' a Hch Hr. destruct (enc_shape ch Hch) as (b & ts & E & _ & _ & Es & _).
    rewrite utf16_cons, length_app in Hr. split; [|rewrite length_app; lia].
    cbn [Utf8.DecodeToUTF16_loop]. rewrite Decode_enc by done. cbn [rbind]. rewrite code_point_not_minus_one, drop_enc by done.
    rewrite E. cbn [app]. rewrite Es. destruct (units_cases ch Hch) as [[Hlt Eu]|[Hge (l & t & Eu)]]; rewrite Eu in *; cbn [length] in Hr.
    + rewrite (proj2 (Z.ltb_lt _ _)), (proj2 (Z.leb_gt _ _)) by lia. rewrite wrapU_small; [done|]. unfold inU, code_point in *. lia.
    + rewrite (proj2 (Z.ltb_lt _ _)), (proj2 (Z.leb_le _ _)), (proj2 (Z.eqb_neq _ (len - 1))) by lia.
      rewrite Utf16_Encode_units, Eu by done. done.
  - by rewrite E, foldl_app.
Qed.

Lemma DecodeToLatin1_text len chs rest dst fuel :
  Forall (fun ch => 0 <= ch < 0x100) chs -> (length chs <= fuel)%nat -> Z.of_nat (length dst + length chs) <= len ->
  Utf8.DecodeToLatin1_loop fuel (utf8 chs ++ rest) len dst = Utf8.DecodeToLatin1_loop (fuel - length chs) rest len (dst ++ chs).
Proof.
  intros Hc Hf Hlen.
  destruct (loop_text (fun fuel bs dst => Utf8.DecodeToLatin1_loop fuel bs len dst) (fun a ch => a ++ [ch])
    (fun chs dst => Forall (fun ch => 0 <= ch < 0x100) chs /\ Z.of_nat (length dst + length chs) <= len))
    with (chs := chs) (fuel := fuel) (rest := rest) (a := dst) as [E _]; [| |done..|].
  - intros fuel' ch chs' rest' a Hch [Hl Hr]. apply Forall_cons in Hl as [Hl Hls].
    destruct (enc_shape ch Hch) as (b & ts & E & _ & _ & _ & El & _). cbn [length] in Hr. split; [|split; [done|rewrite length_app; cbn; lia]].
    cbn [Utf8.DecodeToLatin1_loop]. rewrite Decode_enc by done. cbn [rbind]. rewrite code_point_not_minus_one, drop_enc by done.
    rewrite E. cbn [app]. rewrite El, (proj2 (Z.ltb_lt (Z.of_nat _) _)) by lia.
    rewrite ASSERT_true by (apply Z.ltb_lt; lia). cbn [rbind].
    rewrite ASSERT_true by (unfold Utf.IsLatin1; apply andb_true_iff; rewrite !Z.leb_le; lia). cbn [rbind].
    by rewrite wrapU_small by (unfold inU; lia).
  - eapply Forall_impl; [exact Hc|]. unfold code_point. cbn. lia.
  - rewrite E, foldl_app. do 2 f_equal. clear. induction chs as [|ch chs IH]; [done|]. by cbn; f_equal.
Qed.

Lemma ReportInvalidByte_text len chs rest fuel :
  Forall code_point chs -> (length chs <= fuel)%nat -> Z.of_nat (length (utf16 chs)) <= len ->
  Utf8.ReportInvalidByte_loop fuel (utf8 chs ++ rest) len 0 0 =
  Utf8.ReportInvalidByte_loop (fuel - length chs) rest len (Z.of_nat (length (utf8 chs))) (Z.of_nat (length (utf16 chs))).
Proof.
  intros Hc Hf Hlen.
  destruct (loop_text (fun fuel bs '(i, j) => Utf8.ReportInvalidByte_loop fuel bs len i j)
    (fun '(i, j) ch => (i + Z.of_nat (length (enc ch)), j + Z.of_nat (length (units ch))))
    (fun chs '(_, j) => j + Z.of_nat (length (utf16 chs)) <= len)) with (chs := chs) (fuel := fuel) (rest := rest) (a := (0, 0))
    as [E _]; [|done..|].
  - intros fuel' ch chs' rest' [i j] Hch Hr. destruct (enc_shape ch Hch) as (b & ts & E & _ & _ & Es & _).
    rewrite utf16_cons, length_app in Hr. split; [|lia].
    cbn [Utf8.ReportInvalidByte_loop]. rewrite Decode_enc by done. cbn [rbind]. rewrite code_point_not_minus_one, drop_enc by done.
    rewrite E. cbn [app]. rewrite Es. destruct (units_cases ch Hch) as [[Hlt Eu]|[Hge (l & t & Eu)]]; rewrite Eu in *; cbn [length] in Hr |- *.
    + by rewrite (proj2 (Z.ltb_lt _ _)), (proj2 (Z.leb_gt _ _)) by lia.
    + rewrite (proj2 (Z.ltb_lt _ _)), (proj2 (Z.leb_le _ _)) by lia. f_equal. lia.
  - cbn in E. rewrite E. clear. replace (foldl _ (0, 0) chs) with (Z.of_nat (length (utf8 chs)), Z.of_nat (length (utf16 chs))); [done|].
    enough (forall i j, (i + Z.of_nat (length (utf8 chs)), j + Z.of_nat (length (utf16 chs))) = foldl
      (fun '(i, j) ch => (i + Z.of_nat (length (enc ch)), j + Z.of_nat (length (units ch)))) (i, j) chs) as G by apply (G 0 0).
    induction chs as [|ch chs IH]; intros i j; [cbn; f_equal; lia|]. cbn [foldl]. rewrite <- IH, utf8_cons, utf16_cons, !length_app.
    f_equal; lia.
Qed.

(** ** Counting *)

Lemma count_trail ts rest : forall n t,
  Forall (fun t => Utf8.IsTrailByte t = true) ts ->
  Utf8.CodeUnitCount_loop (ts ++ rest) n t = Utf8.CodeUnitCount_loop rest n t.
Proof. induction ts as [|b ts IH]; intros n t Ht; [done|]. apply Forall_cons in Ht as [Hb Ht]. cbn. rewrite Hb. by apply IH. Qed.

Lemma count_enc ch rest n t :
  code_point ch ->
  Utf8.CodeUnitCount_loop (enc ch ++ rest) n t =
  Utf8.CodeUnitCount_loop rest (n + Z.of_nat (length (units ch))) (join_type t (type_of ch)).
Proof.
  intros Hc. destruct (enc_shape ch Hc) as (b & ts & E & _ & Eb & Es & El & Ht). rewrite E. cbn [app Utf8.CodeUnitCount_loop].
  rewrite Eb, Es, El, !count_trail by done. unfold type_of, units, code_point in *.
  destruct (Z.ltb_spec ch 0x100), (Z.ltb_spec ch 0x10000), (Z.leb_spec 0x10000 ch); try lia; by destruct t.
Qed.

Lemma count_text chs rest : forall n t,
  Forall code_point chs ->
  Utf8.CodeUnitCount_loop (utf8 chs ++ rest) n t =
  Utf8.CodeUnitCount_loop rest (n + Z.of_nat (length (utf16 chs))) (foldl join_type t (type_of <$> chs)).
Proof.
  induction chs as [|ch chs IH]; intros n t Hc; [cbn; f_equal; lia|]. apply Forall_cons in Hc as [Hc Hcs].
  rewrite utf8_cons, <- app_assoc, count_enc, IH by done. rewrite utf16_cons, length_app. f_equal. lia.
Qed.

Lemma count_ge bs : forall n t, n <= (Utf8.CodeUnitCount_loop bs n t).1.
Proof.
  induction bs as [|b bs IH]; intros n t; cbn; [lia|]. repeat case_match; first [apply IH|etrans; [|apply IH]; lia].
Qed.

Lemma join_latin1 t u : join_type t u = Utf8.kLatin1 -> t = Utf8.kLatin1 /\ u = Utf8.kLatin1.
Proof. by destruct t, u. Qed.

Lemma count_latin1 bs : forall n t, (Utf8.CodeUnitCount_loop bs n t).2 = Utf8.kLatin1 -> t = Utf8.kLatin1.
Proof. induction bs as [|b bs IH]; intros n t; [done|]. cbn. repeat case_match; intros E; by apply IH in E. Qed.

(** ** Where a text ends *)

Definition ended (rest : list Z) : Prop := Forall is_byte rest /\ (rest = [] \/ bad rest).

Lemma ended_cases rest fuel :
  ended rest -> (length rest <= fuel)%nat ->
  rest = [] \/ (exists b rest' fuel', rest = b :: rest' /\ fuel = S fuel' /\ Utf8.sequence rest = Ok None /\
    Utf8.Decode rest = Ok (0, -1)).
Proof.
  intros [Hb [->|Hbad]] Hf; [by left|right]. destruct rest as [|b rest]; [by destruct Hbad|]. destruct fuel as [|fuel]; [cbn in Hf; lia|].
  eexists _, _, _. split_and!; [done..| |]; [by apply sequence_bad|by apply Decode_bad].
Qed.

(** The empty array, and one that does not decode. *)
Ltac at_end rest fuel He Hf :=
  destruct (ended_cases rest fuel He Hf) as [->|(b & rest' & fuel' & -> & -> & Es & Ed)];
  [by destruct fuel|rewrite ?(bool_decide_eq_false_2 (b :: rest' = [])) by done].

Lemma IsValid_end rest fuel :
  ended rest -> (length rest <= fuel)%nat -> Utf8.IsValid_loop fuel rest = Ok (bool_decide (rest = [])).
Proof. intros He Hf. at_end rest fuel He Hf. cbn [Utf8.IsValid_loop]. by rewrite Es. Qed.

Lemma DecodeToUTF32_end rest len dst fuel :
  ended rest -> (length rest <= fuel)%nat -> Z.of_nat (length dst) <= len ->
  Utf8.DecodeToUTF32_loop fuel rest len dst = Ok (bool_decide (rest = []), dst).
Proof.
  intros He Hf Hl. at_end rest fuel He Hf. cbn [Utf8.DecodeToUTF32_loop]. rewrite Ed.
  destruct (Z.ltb_spec (Z.of_nat (length dst)) len); [done|]. by rewrite (proj2 (Z.eqb_eq _ _)) by lia.
Qed.

Lemma DecodeToUTF16_end rest len dst fuel :
  ended rest -> (length rest <= fuel)%nat -> Z.of_nat (length dst) <= len ->
  Utf8.DecodeToUTF16_loop fuel rest len dst = Ok (bool_decide (rest = []), dst).
Proof.
  intros He Hf Hl. at_end rest fuel He Hf. cbn [Utf8.DecodeToUTF16_loop]. rewrite Ed.
  destruct (Z.ltb_spec (Z.of_nat (length dst)) len); [done|]. by rewrite (proj2 (Z.eqb_eq _ _)) by lia.
Qed.

Lemma latin1_start b rest n t :
  is_byte b -> (Utf8.CodeUnitCount_loop (b :: rest) n t).2 = Utf8.kLatin1 -> Utf8.IsLatin1SequenceStart b = true.
Proof.
  intros Hb. cbn [Utf8.CodeUnitCount_loop]. rewrite IsTrailByte_spec by done.
  destruct ((128 <=? b) && (b <? 192)) eqn:Et.
  - intros _. apply andb_true_iff in Et as [_ Hlt%Z.ltb_lt]. apply Z.leb_le. lia.
  - destruct (Utf8.IsLatin1SequenceStart b); [done|]. intros E. exfalso.
    destruct (Utf8.IsSupplementarySequenceStart b); apply count_latin1 in E; [done|]. by destruct t.
Qed.

Lemma DecodeToLatin1_end rest len dst fuel n t :
  ended rest -> (length rest <= fuel)%nat -> Z.of_nat (length dst) <= len ->
  (Utf8.CodeUnitCount_loop rest n t).2 = Utf8.kLatin1 ->
  Utf8.DecodeToLatin1_loop fuel rest len dst = Ok (bool_decide (rest = []), dst).
Proof.
  intros He Hf Hl Ht. at_end rest fuel He Hf. destruct He as [Hb _]. apply Forall_cons in Hb as [Hb _].
  cbn [Utf8.DecodeToLatin1_loop]. rewrite Ed, ASSERT_true by (by eapply latin1_start). cbn [rbind].
  destruct (Z.ltb_spec (Z.of_nat (length dst)) len); [done|]. by rewrite (proj2 (Z.eqb_eq _ _)) by lia.
Qed.

Lemma ReportInvalidByte_end rest len i j fuel :
  ended rest -> (length rest <= fuel)%nat -> Utf8.ReportInvalidByte_loop fuel rest len i j = Ok i.
Proof. intros He Hf. at_end rest fuel He Hf. cbn [Utf8.ReportInvalidByte_loop]. rewrite Ed. by destruct (_ <? _). Qed.

(** ** The functions of class Utf8 *)

Lemma types_latin1 chs : forall t,
  Forall code_point chs -> foldl join_type t (type_of <$> chs) = Utf8.kLatin1 ->
  t = Utf8.kLatin1 /\ Forall (fun ch => 0 <= ch < 0x100) chs.
Proof.
  induction chs as [|ch chs IH]; intros t Hc E; [by split|]. apply Forall_cons in Hc as [[Hc _] Hcs].
  cbn [foldl fmap list_fmap] in E. apply IH in E as [[-> Et]%join_latin1 Hl]; [|done]. split; [done|]. constructor; [|done].
  unfold type_of in Et. destruct (Z.ltb_spec ch 0x100); [done|]. by destruct (ch <? 0x10000).
Qed.

Lemma utf16_length chs : (length chs <= length (utf16 chs))%nat.
Proof.
  induction chs as [|ch chs IH]; [done|]. rewrite utf16_cons, length_app. unfold units. destruct (_ <? _); cbn; lia.
Qed.

(** C12. The decoders of UTF-8 agree with each other and with the encoding the
    standard defines.  Every array of bytes is the encoding of a list of code
    points followed by nothing or by bytes that start no
    encoding: IsValid says which; with as many code units of room as
    CodeUnitCount returns, DecodeToUTF32, DecodeToUTF16 and, when CodeUnitCount
    finds only Latin-1, DecodeToLatin1 store these code points in their form and
    return whether there was nothing more, and ReportInvalidByte returns the
    place the encoding ends.  The count and the type are exact for a valid
    array. *)
Theorem utf8_decoding bs :
  Forall is_byte bs ->
  exists chs rest, Forall code_point chs /\ bs = utf8 chs ++ rest /\ (rest = [] \/ bad rest) /\
    let ok := bool_decide (rest = []) in
    let (len, type) := Utf8.CodeUnitCount bs in
    Utf8.IsValid bs = Ok ok /\
    Utf8.DecodeToUTF32 bs len = Ok (ok, chs) /\
    Utf8.DecodeToUTF16 bs len = Ok (ok, utf16 chs) /\
    (type = Utf8.kLatin1 -> Utf8.DecodeToLatin1 bs len = Ok (ok, chs)) /\
    Utf8.ReportInvalidByte bs len = Ok (Z.of_nat (length (utf8 chs))) /\
    (rest = [] -> len = Z.of_nat (length (utf16 chs)) /\ type = foldl join_type Utf8.kLatin1 (type_of <$> chs)).
Proof.
  intros Hb. destruct (text_prefix bs Hb) as (chs & rest & Hc & -> & He). exists chs, rest. split_and!; [done..|].
  apply Forall_app in Hb as [_ Hr]. assert (ended rest) as Hend by done. cbv zeta.
  pose proof (count_text chs rest 0 Utf8.kLatin1 Hc) as Ec. rewrite Z.add_0_l in Ec.
  unfold Utf8.CodeUnitCount. rewrite Ec. pose proof (count_ge rest (Z.of_nat (length (utf16 chs))) (foldl join_type Utf8.kLatin1 (type_of <$> chs))) as Hge.
  pose proof (count_latin1 rest (Z.of_nat (length (utf16 chs))) (foldl join_type Utf8.kLatin1 (type_of <$> chs))) as Hlat.
  destruct (Utf8.CodeUnitCount_loop rest _ _) as [len type] eqn:Er. cbn [fst snd] in Hge, Hlat.
  pose proof (utf8_length chs) as H8. pose proof (utf16_length chs) as H16.
  unfold Utf8.IsValid, Utf8.DecodeToUTF32, Utf8.DecodeToUTF16, Utf8.DecodeToLatin1, Utf8.ReportInvalidByte. rewrite length_app. split_and!.
  - rewrite IsValid_text by (done || lia). apply IsValid_end; [done|lia].
  - rewrite DecodeToUTF32_text by (done || (cbn [length]; lia)). apply DecodeToUTF32_end; [done|lia|]. cbn [app]. lia.
  - rewrite DecodeToUTF16_text by (done || (cbn [length]; lia)). apply DecodeToUTF16_end; [done|lia|]. cbn [app]. lia.
  - intros ->. destruct (types_latin1 chs Utf8.kLatin1) as [_ Hl]; [done|by apply Hlat|].
    rewrite DecodeToLatin1_text by (done || (cbn [length]; lia)).
    eapply DecodeToLatin1_end; [done|lia|cbn [app]; lia|by rewrite Er].
  - rewrite ReportInvalidByte_text by (done || lia). apply ReportInvalidByte_end; [done|lia].
  - intros ->. by injection Er as <- <-.
Qed.

End Text.
