(* ===== verification/UnicodeString.v ===== *)
(** * UnicodeString: strings of the heap in UTF-8

    Length and encoding of a string (vm/unicode.cc): the words of a one-byte
    string counted and copied at once, and the iterator over the code points of
    a two-byte string, against the encoding character by character. *)

From stdpp Require Import base numbers list sets.
From Stdlib Require Import Lia.
From S2P Require Import Prelude Constants AsmBuffer AsmExec BitSpec DataStreamSpec Unicode UnicodeSpec UnicodeText.

#[local] Open Scope Z_scope.
#[local] Open Scope res_scope.

(** ** Words of bytes *)

Lemma land_cons b x c y :
  is_byte b -> is_byte c -> Z.land (b + 256 * x) (c + 256 * y) = Z.land b c + 256 * Z.land x y.
Proof.
  intros Hb Hc. assert (forall p q, is_byte p -> p + 256 * q = Z.lor p (Z.shiftl q 8)) as E.
  { intros p q Hp. rewrite lor_add by (done || lia). lia. }
  assert (is_byte (Z.land b c)) as Hbc.
  { assert (Z.land b c = Z.land (Z.land b c) (Z.ones 8)) as ->.
    { rewrite <- Z.land_assoc. f_equal. rewrite Z.land_ones by lia. symmetry. by apply wrapU_small. }
    rewrite Z.land_ones by lia. apply Z.mod_pos_bound. lia. }
  rewrite !E by done. apply Z.bits_inj'. intros i Hi. rewrite !Z.land_spec, !Z.lor_spec, !Z.land_spec, !Z.shiftl_spec, Z.land_spec by done.
  destruct (Z.lt_ge_cases i 8) as [Hlt|Hge].
  - rewrite !(Z.testbit_neg_r _ (i - 8)) by lia. by rewrite ?andb_false_r, ?orb_false_r.
  - rewrite (testbit_small 8 b), (testbit_small 8 c) by (done || lia). by rewrite ?orb_false_l.
Qed.

Lemma land_words w : forall m, Forall is_byte w -> Forall is_byte m -> length w = length m ->
  Z.land (le_combine w) (le_combine m) = le_combine (zip_with Z.land w m).
Proof.
  induction w as [|b w IH]; intros [|c m] Hw Hm El; try done. apply Forall_cons in Hw as [Hb Hw]. apply Forall_cons in Hm as [Hc Hm].
  cbn [le_combine zip_with]. rewrite land_cons by done. by rewrite IH by (done || by injection El).
Qed.

Lemma split_combine w : Forall is_byte w -> le_split (length w) (le_combine w) = w.
Proof.
  induction 1 as [|b w Hb Hw IH]; [done|]. cbn [length le_split le_combine]. unfold is_byte in Hb.
  replace (b + 256 * le_combine w) with (b + le_combine w * 256) by lia.
  rewrite Z_mod_plus_full, Z.div_add, Z.mod_small, Z.div_small by lia. by rewrite Z.add_0_l, IH.
Qed.

(** The high bit of a byte, in place. *)
Definition high (b : Z) : Z := Z.land b 0x80.
Definition count_highs (w : list Z) : Z := Z.of_nat (length (filter (fun b => 128 <= b) w)).

Lemma high_cases b : is_byte b -> high b = if b <? 128 then 0 else 128.
Proof. intros Hb. apply Z.eqb_eq. by apply (all_bytes (fun b => high b =? if b <? 128 then 0 else 128)). Qed.

(** All words whose bytes are 0 or 128. *)
Fixpoint high_words (n : nat) : list (list Z) :=
  match n with O => [[]] | S n => flat_map (fun w => [0 :: w; 128 :: w]) (high_words n) end.

Lemma high_words_In w : Forall is_byte w -> In (high <$> w) (high_words (length w)).
Proof.
  induction 1 as [|b w Hb Hw IH]; [by left|]. cbn [length high_words]. apply in_flat_map. exists (high <$> w). split; [done|].
  rewrite fmap_cons, high_cases by done. destruct (_ <? _); [by left|by right; left].
Qed.

Lemma count_highs_high w : Forall is_byte w -> count_highs (high <$> w) = count_highs w.
Proof.
  unfold count_highs. induction 1 as [|b w Hb Hw IH]; [done|]. rewrite fmap_cons, !filter_cons, high_cases by done.
  destruct (Z.ltb_spec b 128); case_decide; case_decide; try lia; cbn [length]; lia.
Qed.

Section Words.
Context `{Target}.

Lemma count_high_words n w :
  n = Z.to_nat Utf8.kWordBytes -> In w (high_words n) -> Utf8.count_high (le_combine w) = count_highs w.
Proof.
  intros -> Hin. apply Z.eqb_eq. revert w Hin. apply forallb_forall. unfold Utf8.count_high, Utf8.kWordBytes.
  destruct kBitsPerWord_cases as [-> | ->]; vm_compute; reflexivity.
Qed.

Lemma kAsciiWordMask_eq : Utf8.kAsciiWordMask = le_combine (replicate (Z.to_nat Utf8.kWordBytes) 0x80).
Proof. unfold Utf8.kAsciiWordMask, Utf8.kWordBytes. by destruct kBitsPerWord_cases as [-> | ->]. Qed.

Lemma word_bytes_pos : (1 <= Z.to_nat Utf8.kWordBytes)%nat.
Proof. unfold Utf8.kWordBytes. destruct kBitsPerWord_cases as [-> | ->]; vm_compute; lia. Qed.

Lemma mask_word w :
  Forall is_byte w -> length w = Z.to_nat Utf8.kWordBytes -> Z.land (le_combine w) Utf8.kAsciiWordMask = le_combine (high <$> w).
Proof.
  intros Hw El. rewrite kAsciiWordMask_eq, land_words; [|done|by apply Forall_replicate|by rewrite length_replicate].
  f_equal. rewrite <- El. clear. induction w as [|b w IH]; [done|]. cbn. by f_equal.
Qed.

Lemma le_combine_zero w : Forall is_byte w -> le_combine w = 0 <-> Forall (eq 0) w.
Proof.
  induction 1 as [|b w Hb Hw IH]; [by split|]. unfold is_byte in Hb. cbn [le_combine].
  assert (0 <= le_combine w) by (clear -Hw; induction Hw; unfold is_byte in *; cbn; lia).
  rewrite Forall_cons, <- IH. lia.
Qed.

Lemma count_word w :
  Forall is_byte w -> length w = Z.to_nat Utf8.kWordBytes ->
  let chunk := Z.land (le_combine w) Utf8.kAsciiWordMask in
  forall n, (if chunk =? 0 then n else n + Utf8.count_high chunk) = n + count_highs w.
Proof.
  intros Hw El chunk n. unfold chunk. rewrite mask_word by done. rewrite <- count_highs_high by done.
  rewrite <- (count_high_words (length w)); [|done|by apply high_words_In].
  destruct (Z.eqb_spec (le_combine (high <$> w)) 0) as [->|]; [|done].
  unfold Utf8.count_high. destruct kBitsPerWord_cases as [-> | ->]; vm_compute (Z.land _ _); lia.
Qed.

Lemma ascii_word w :
  Forall is_byte w -> length w = Z.to_nat Utf8.kWordBytes ->
  (Z.land (le_combine w) Utf8.kAsciiWordMask =? 0) = true -> Forall (fun b => 0 <= b < 128) w.
Proof.
  intros Hw El E%Z.eqb_eq. rewrite mask_word in E by done. apply le_combine_zero in E.
  - rewrite Forall_fmap in E. apply Forall_forall. intros b Hin. rewrite Forall_forall in E, Hw. specialize (E b Hin). specialize (Hw b Hin).
    cbn in E. rewrite high_cases in E by done. unfold is_byte in Hw. destruct (Z.ltb_spec b 128); lia.
  - apply Forall_fmap. eapply Forall_impl; [exact Hw|]. intros b Hb. cbn. rewrite high_cases by done. unfold is_byte. case_match; lia.
Qed.

End Words.

(** ** One-byte strings *)

Lemma latin1_length c : is_byte c -> Z.of_nat (length (enc c)) = if 128 <=? c then 2 else 1.
Proof.
  intros Hc. unfold is_byte in Hc. unfold enc. rewrite (Z.ltb_antisym 128 c), (proj2 (Z.ltb_lt c 0x800)) by lia.
  by destruct (128 <=? c).
Qed.

Lemma latin1_text_length chars :
  Forall is_byte chars -> Z.of_nat (length (utf8 chars)) = Z.of_nat (length chars) + count_highs chars.
Proof.
  unfold count_highs. induction 1 as [|c chars Hc Hcs IH]; [done|]. rewrite utf8_cons, length_app, filter_cons.
  rewrite Nat2Z.inj_add, latin1_length by done. destruct (Z.leb_spec 128 c); case_decide; try lia; cbn [length]; lia.
Qed.

Lemma count_highs_app w v : count_highs (w ++ v) = count_highs w + count_highs v.
Proof. unfold count_highs. rewrite filter_app, length_app. lia. Qed.

Lemma utf8_app a b : utf8 (a ++ b) = utf8 a ++ utf8 b.
Proof. unfold utf8. by rewrite fmap_app, join_app. Qed.

Lemma utf8_ascii w : Forall (fun b => 0 <= b < 128) w -> utf8 w = w.
Proof.
  induction 1 as [|b w Hb Hw IH]; [done|]. rewrite utf8_cons, IH. unfold enc. by rewrite (proj2 (Z.ltb_lt _ _)) by lia.
Qed.

Section OneByte.
Context `{Target}.

Lemma tail_count chars : forall n,
  foldl (fun n c => if Utf8.kMaxOneByteChar <? c then n + 1 else n) n chars = n + count_highs chars.
Proof.
  unfold count_highs, Utf8.kMaxOneByteChar. induction chars as [|c chars IH]; intros n; [cbn; lia|].
  cbn [foldl]. rewrite IH, filter_cons. destruct (Z.ltb_spec 0x7F c); case_decide; try lia; cbn [length]; lia.
Qed.

Lemma one_byte_length_spec fuel : forall chars n,
  Forall is_byte chars -> (length chars < fuel)%nat -> Utf8.one_byte_length fuel chars n = n + count_highs chars.
Proof.
  pose proof word_bytes_pos. induction fuel as [|fuel IH]; intros chars n Hc Hf; [lia|]. cbn [Utf8.one_byte_length].
  destruct (Nat.leb_spec (Z.to_nat Utf8.kWordBytes) (length chars)) as [Hle|Hgt]; [|apply tail_count].
  rewrite count_word; [|by apply Forall_take|rewrite length_take; lia].
  rewrite IH; [|by apply Forall_drop|rewrite length_drop; lia]. rewrite <- Z.add_assoc, <- count_highs_app. by rewrite take_drop.
Qed.

Lemma encode_chars_spec len chars : forall dst,
  Forall is_byte chars -> Z.of_nat (length dst + length (utf8 chars)) <= len ->
  Utf8.encode_chars chars len dst = Ok (true, dst ++ utf8 chars).
Proof.
  induction chars as [|c chars IH]; intros dst Hc Hl; [cbn; by rewrite app_nil_r|]. apply Forall_cons in Hc as [Hc Hcs].
  assert (code_point c) as Hcp by (unfold code_point, is_byte in *; lia). rewrite utf8_cons, length_app in Hl.
  cbn [Utf8.encode_chars]. rewrite Length_enc by done. cbn [rbind]. rewrite (proj2 (Z.ltb_ge _ _)) by lia.
  rewrite Encode_enc by done. cbn [rbind]. rewrite IH; [|done|rewrite length_app; lia]. by rewrite utf8_cons, <- app_assoc.
Qed.

Lemma encode_words_spec len fuel : forall chars dst,
  Forall is_byte chars -> (length chars <= fuel)%nat -> Z.of_nat (length dst + length (utf8 chars)) <= len ->
  Utf8.encode_words fuel chars len dst = Ok (true, dst ++ utf8 chars).
Proof.
  pose proof word_bytes_pos as Hn. induction fuel as [|fuel IH]; intros chars dst Hc Hf Hl.
  { destruct chars; [|cbn in Hf; lia]. cbn. by rewrite app_nil_r. }
  destruct chars as [|c chars']; [cbn; by rewrite app_nil_r|]. set (chars := c :: chars') in *. set (n := Z.to_nat Utf8.kWordBytes) in *.
  assert (Forall is_byte (take n chars)) as Ht by (by apply Forall_take). assert (Forall is_byte (drop n chars)) as Hd by (by apply Forall_drop).
  assert (1 <= length chars)%nat by (cbn; lia).
  rewrite <- (take_drop n chars), utf8_app, length_app in Hl. replace (utf8 chars) with (utf8 (take n chars) ++ utf8 (drop n chars))
    by (by rewrite <- utf8_app, take_drop).
  change (Utf8.encode_words (S fuel) chars len dst) with
    (if (n <=? length chars)%nat && (Z.land (le_combine (take n chars)) Utf8.kAsciiWordMask =? 0) &&
        (Z.of_nat (length dst) + Utf8.kWordBytes <=? len)
     then Utf8.encode_words fuel (drop n chars) len (dst ++ le_split n (le_combine (take n chars)))
     else let* (go_on, dst) := Utf8.encode_chars (take n chars) len dst in
          if go_on then Utf8.encode_words fuel (drop n chars) len dst else Ok (false, dst)).
  assert (length (drop n chars) <= fuel)%nat as Hfd by (rewrite length_drop; lia).
  destruct (_ && _ && _) eqn:Ec.
  - apply andb_true_iff in Ec as [[Hlen%Nat.leb_le Ha]%andb_true_iff _].
    assert (length (take n chars) = n) as El by (rewrite length_take; lia). apply ascii_word in Ha; [|done|done].
    rewrite <- El at 2. rewrite split_combine by done. rewrite (utf8_ascii (take n chars)) in * by done.
    rewrite IH; [|done|done|rewrite length_app; lia]. by rewrite <- app_assoc.
  - rewrite encode_chars_spec; [|done|lia]. cbn [rbind]. rewrite IH; [|done|done|rewrite length_app; lia]. by rewrite <- app_assoc.
Qed.

Lemma String_Length_one_byte chars :
  Forall is_byte chars -> Utf8.String_Length true chars = Ok (Z.of_nat (length (utf8 chars))).
Proof.
  intros Hc. unfold Utf8.String_Length. rewrite one_byte_length_spec by (done || lia). by rewrite latin1_text_length.
Qed.

End OneByte.

(** ** Two-byte strings *)

(** The code points of a string of UTF-16 code units. *)
Fixpoint code_points (us : list Z) : list Z :=
  match us with
  | [] => []
  | ch :: rest =>
      match rest with
      | ch2 :: rest' =>
          if Utf16.IsLeadSurrogate ch && Utf16.IsTrailSurrogate ch2 then Utf16.Decode ch ch2 :: code_points rest'
          else ch :: code_points rest
      | [] => [ch]
      end
  end.

Definition replaced (ch : Z) : Z := if Utf16.IsSurrogate ch then Utf.kReplacementChar else ch.

Definition is_unit (u : Z) : Prop := 0 <= u < 0x10000.

Lemma land_upper u k : 0 <= k <= 32 -> inU 32 u -> Z.land u (Z.shiftl (Z.ones (32 - k)) k) = u / 2 ^ k * 2 ^ k.
Proof.
  intros Hk Hu. rewrite <- Z.shiftr_div_pow2, <- Z.shiftl_mul_pow2 by lia. apply Z.bits_inj'. intros i Hi.
  rewrite Z.land_spec, !Z.shiftl_spec by done. destruct (Z.lt_ge_cases i k) as [Hlt|Hge].
  { rewrite !(Z.testbit_neg_r _ (i - k)) by lia. apply andb_false_r. }
  rewrite Z.shiftr_spec by lia. replace (i - k + k) with i by lia. destruct (Z.lt_ge_cases i 32) as [Hi32|Hi32].
  - rewrite Z.ones_spec_low by lia. apply andb_true_r.
  - by rewrite (testbit_small 32 u) by (done || lia).
Qed.

(** The test for a range aligned to a power of two. *)
Lemma upper_test u k a :
  0 <= k <= 32 -> inU 32 u -> (Z.land u (Z.shiftl (Z.ones (32 - k)) k) =? a * 2 ^ k) = (a * 2 ^ k <=? u) && (u <? (a + 1) * 2 ^ k).
Proof.
  intros Hk Hu. rewrite land_upper by done. apply eq_true_iff_eq.
  rewrite Z.eqb_eq, andb_true_iff, Z.leb_le, Z.ltb_lt. pose proof (pow2_pos k ltac:(lia)) as Hp.
  pose proof (Z.div_mod u (2 ^ k) ltac:(lia)). pose proof (Z.mod_pos_bound u (2 ^ k) Hp). split; [intros E|intros [Hl Hr]].
  - assert (u / 2 ^ k = a) as <- by nia. nia.
  - assert (u / 2 ^ k = a) as -> by nia. done.
Qed.

Lemma lead_unit u : is_unit u -> Utf16.IsLeadSurrogate u = (0xD800 <=? u) && (u <? 0xDC00).
Proof. intros Hu. apply (upper_test u 10 54); [done|]. unfold inU, is_unit in *. lia. Qed.
Lemma trail_unit u : is_unit u -> Utf16.IsTrailSurrogate u = (0xDC00 <=? u) && (u <? 0xE000).
Proof. intros Hu. apply (upper_test u 10 55); [done|]. unfold inU, is_unit in *. lia. Qed.
Lemma surrogate_range u : inU 32 u -> Utf16.IsSurrogate u = (0xD800 <=? u) && (u <? 0xE000).
Proof. by apply (upper_test u 11 27). Qed.

Lemma range_true a b u : (a <=? u) && (u <? b) = true <-> a <= u < b.
Proof. by rewrite andb_true_iff, Z.leb_le, Z.ltb_lt. Qed.

(** A surrogate pair and its code point. *)
Lemma pair_units l t :
  is_unit l -> is_unit t -> Utf16.IsLeadSurrogate l && Utf16.IsTrailSurrogate t = true ->
  0x10000 <= Utf16.Decode l t <= 0x10FFFF /\ units (Utf16.Decode l t) = [l; t].
Proof.
  intros Hl Ht [El Et]%andb_true_iff. rewrite lead_unit, range_true in El by done. rewrite trail_unit, range_true in Et by done.
  unfold Utf16.Decode. change 0x3FF with (Z.ones 10). rewrite !Z.land_ones, Z.shiftl_mul_pow2 by lia. change (2 ^ 10) with 1024.
  replace (l mod 1024) with (l - 0xD800) by (apply (Z.mod_unique _ _ 54); lia).
  replace (t mod 1024) with (t - 0xDC00) by (apply (Z.mod_unique _ _ 55); lia).
  split; [lia|]. unfold units. rewrite (proj2 (Z.ltb_ge _ _)) by lia.
  replace ((0x10000 + (l - 0xD800) * 1024 + (t - 0xDC00) - 0x10000) / 1024) with (l - 0xD800) by (apply (Z.div_unique _ _ _ (t - 0xDC00)); lia).
  replace ((0x10000 + (l - 0xD800) * 1024 + (t - 0xDC00)) mod 1024) with (t - 0xDC00) by (apply (Z.mod_unique _ _ (64 + (l - 0xD800))); lia).
  repeat f_equal; lia.
Qed.

Lemma code_points_cons ch rest :
  code_points (ch :: rest) =
    match rest with
    | ch2 :: rest' =>
        if Utf16.IsLeadSurrogate ch && Utf16.IsTrailSurrogate ch2 then Utf16.Decode ch ch2 :: code_points rest'
        else ch :: code_points rest
    | [] => [ch]
    end.
Proof. done. Qed.

(** Code units come one at a time or in surrogate pairs. *)
Lemma units_ind (P : list Z -> Prop) :
  P [] ->
  (forall ch rest, is_unit ch -> code_points (ch :: rest) = ch :: code_points rest -> P rest -> P (ch :: rest)) ->
  (forall ch ch2 rest, is_unit ch -> is_unit ch2 -> Utf16.IsLeadSurrogate ch && Utf16.IsTrailSurrogate ch2 = true -> P rest ->
    P (ch :: ch2 :: rest)) ->
  forall us, Forall is_unit us -> P us.
Proof.
  intros H0 H1 H2 us. remember (length us) as n eqn:En. revert us En. induction (lt_wf n) as [n _ IH]. intros us -> Hu.
  destruct us as [|ch rest]; [done|]. apply Forall_cons in Hu as [Hc Hr].
  destruct rest as [|ch2 rest']; [apply H1; done|].
  destruct (Utf16.IsLeadSurrogate ch && Utf16.IsTrailSurrogate ch2) eqn:E.
  - apply Forall_cons in Hr as [Hc2 Hr]. apply H2; [done..|]. apply (IH (length rest')); [cbn; lia|done..].
  - apply H1; [done|by rewrite code_points_cons, E|]. apply (IH (length (ch2 :: rest'))); [cbn; lia|done..].
Qed.

Lemma code_points_valid us : Forall is_unit us -> Forall code_point (code_points us).
Proof.
  revert us. apply units_ind; [constructor| |].
  - intros ch rest Hc -> IH. constructor; [unfold code_point, is_unit in *; lia|done].
  - intros ch ch2 rest Hc Hc2 E IH. cbn [code_points]. rewrite E. constructor; [|done].
    destruct (pair_units ch ch2 Hc Hc2 E) as [Hd _]. unfold code_point. lia.
Qed.

(** A string is the UTF-16 form of its code points. *)
Lemma utf16_code_points us : Forall is_unit us -> utf16 (code_points us) = us.
Proof.
  revert us. apply units_ind; [done| |].
  - intros ch rest Hc -> IH. rewrite utf16_cons, IH. unfold units, is_unit in *. by rewrite (proj2 (Z.ltb_lt _ _)) by lia.
  - intros ch ch2 rest Hc Hc2 E IH. cbn [code_points]. rewrite E, utf16_cons, IH.
    by rewrite (proj2 (pair_units ch ch2 Hc Hc2 E)).
Qed.

Section TwoByte.
Context `{Target} {A : Type} (body : Z -> A -> Res (bool * A)).

Fixpoint run_points (chs : list Z) (acc : A) : Res A :=
  match chs with
  | [] => Ok acc
  | ch :: chs => let* (go_on, acc) := body ch acc in if go_on then run_points chs acc else Ok acc
  end.

(** The iterator has delivered the code points of [pre]. *)
Definition before (pre suf : list Z) (it : CodePointIterator.t) : Prop :=
  CodePointIterator.str_ it = pre ++ suf /\ -1 <= CodePointIterator.index_ it /\
  CodePointIterator.index_ it + Utf16.Length (CodePointIterator.ch_ it) = Z.of_nat (length pre) /\
  CodePointIterator.end_ it = Z.of_nat (length (pre ++ suf)).

Lemma CharAt_at pre ch suf : CodePointIterator.CharAt (pre ++ ch :: suf) (Z.of_nat (length pre)) = Ok ch.
Proof.
  unfold CodePointIterator.CharAt. rewrite (proj2 (Z.ltb_ge _ _)), Nat2Z.id by lia. by rewrite list_lookup_middle.
Qed.

Lemma Next_end pre it : before pre [] it -> exists it', CodePointIterator.Next it = Ok (false, it').
Proof.
  intros (Hs & Hi & Hx & He). rewrite app_nil_r in He. eexists. unfold CodePointIterator.Next. rewrite ASSERT_true by (by apply Z.leb_le). cbn [rbind].
  by rewrite (proj2 (Z.ltb_ge _ _)) by lia.
Qed.

Lemma Next_step pre ch rest it :
  before pre (ch :: rest) it ->
  exists ch', CodePointIterator.Next it =
    Ok (true, CodePointIterator.mk (CodePointIterator.str_ it) ch' (Z.of_nat (length pre)) (CodePointIterator.end_ it)) /\
    ch' = match rest with
          | ch2 :: _ => if Utf16.IsLeadSurrogate ch && Utf16.IsTrailSurrogate ch2 then Utf16.Decode ch ch2 else ch
          | [] => ch
          end.
Proof.
  intros (Hs & Hi & Hx & He). eexists. split; [|done]. unfold CodePointIterator.Next.
  rewrite ASSERT_true by (by apply Z.leb_le). cbn [rbind]. rewrite Hx, length_app in *. cbn [length] in He.
  rewrite (proj2 (Z.ltb_lt _ _)) by lia. rewrite Hs, CharAt_at. cbn [rbind].
  destruct rest as [|ch2 rest']; cbn [length] in He.
  - rewrite (proj2 (Z.ltb_ge (Z.of_nat _) _)) by lia. by rewrite andb_false_r.
  - rewrite (proj2 (Z.ltb_lt (Z.of_nat _) _)) by lia. rewrite andb_true_r.
    replace (pre ++ ch :: ch2 :: rest') with ((pre ++ [ch]) ++ ch2 :: rest') by (by rewrite <- app_assoc).
    replace (Z.of_nat (length pre) + 1) with (Z.of_nat (length (pre ++ [ch]))) by (rewrite length_app; cbn; lia).
    rewrite CharAt_at. by destruct (Utf16.IsLeadSurrogate ch); cbn [rbind andb]; destruct (Utf16.IsTrailSurrogate ch2).
Qed.

Lemma for_each_step pre us suf ch it fuel acc :
  before pre (us ++ suf) it -> us <> [] -> Utf16.Length ch = Z.of_nat (length us) ->
  CodePointIterator.Next it =
    Ok (true, CodePointIterator.mk (CodePointIterator.str_ it) ch (Z.of_nat (length pre)) (CodePointIterator.end_ it)) ->
  exists it', before (pre ++ us) suf it' /\
    CodePointIterator.for_each (S fuel) body it acc =
      let* (go_on, acc) := body ch acc in if go_on then CodePointIterator.for_each fuel body it' acc else Ok acc.
Proof.
  intros (Hs & Hi & Hx & He) Hne Hl E. eexists. split.
  2: { cbn [CodePointIterator.for_each]. rewrite E. cbn [rbind]. unfold CodePointIterator.Current at 1. cbn [CodePointIterator.index_ CodePointIterator.end_ CodePointIterator.ch_].
       rewrite ASSERT_true by (apply Z.leb_le; lia). cbn [rbind]. rewrite ASSERT_true; [cbn [rbind]; reflexivity|].
       apply Z.ltb_lt. rewrite He, !length_app. destruct us; [done|]. cbn. lia. }
  unfold before. cbn [CodePointIterator.str_ CodePointIterator.index_ CodePointIterator.end_ CodePointIterator.ch_].
  rewrite <- app_assoc. split_and!; [done|lia| |done]. rewrite length_app. lia.
Qed.

Lemma for_each_spec us : Forall is_unit us -> forall pre it fuel acc,
  before pre us it -> (length us < fuel)%nat ->
  CodePointIterator.for_each fuel body it acc = run_points (code_points us) acc.
Proof.
  revert us. apply (units_ind (fun us => forall pre it fuel acc, before pre us it -> (length us < fuel)%nat ->
    CodePointIterator.for_each fuel body it acc = run_points (code_points us) acc)).
  - intros pre it [|fuel] acc Hb Hf; [lia|]. destruct (Next_end pre it Hb) as [it' E]. cbn. by rewrite E.
  - intros ch rest Hc E IH pre it [|fuel] acc Hb Hf; [lia|]. rewrite E. destruct (Next_step pre ch rest it Hb) as (ch' & En & Ech).
    assert (ch' = ch) as ->.
    { rewrite Ech. rewrite code_points_cons in E. destruct rest as [|ch2 rest']; [done|].
      destruct (_ && _); [|done]. by injection E. }
    destruct (for_each_step pre [ch] rest ch it fuel acc) as (it' & Hb' & ->); [done..| |done|].
    { unfold Utf16.Length, is_unit, Utf16.kMaxCodeUnit in *. by rewrite (proj2 (Z.leb_le _ _)) by lia. }
    cbn [run_points]. destruct (body ch acc) as [[[] acc']|e]; [|done..]. cbn [rbind]. apply (IH _ _ _ _ Hb'). cbn in Hf. lia.
  - intros ch ch2 rest Hc Hc2 E IH pre it [|fuel] acc Hb Hf; [lia|]. destruct (Next_step pre ch (ch2 :: rest) it Hb) as (ch' & En & Ech).
    cbn [code_points]. rewrite E in Ech |- *. subst ch'. destruct (pair_units ch ch2 Hc Hc2 E) as [Hd _].
    destruct (for_each_step pre [ch; ch2] rest (Utf16.Decode ch ch2) it fuel acc) as (it' & Hb' & ->); [done..| |done|].
    { unfold Utf16.Length, Utf16.kMaxCodeUnit. by rewrite (proj2 (Z.leb_gt _ _)) by lia. }
    cbn [run_points]. destruct (body _ acc) as [[[] acc']|e]; [|done..]. cbn [rbind]. apply (IH _ _ _ _ Hb'). cbn in Hf. lia.
Qed.

Lemma iterate_spec us acc :
  Forall is_unit us ->
  CodePointIterator.for_each (Utf8.iterations us) body (CodePointIterator.make us) acc = run_points (code_points us) acc.
Proof. intros Hu. apply (for_each_spec us Hu [] _ (Utf8.iterations us)); [done|]. unfold Utf8.iterations. lia. Qed.
End TwoByte.

Section Strings.
Context `{Target}.

Lemma run_lengths chs : forall n,
  Forall code_point chs ->
  run_points (fun ch length => let* n := Utf8.Length ch in Ok (true, length + n)) chs n = Ok (n + Z.of_nat (length (utf8 chs))).
Proof.
  induction chs as [|ch chs IH]; intros n Hc; [cbn; by rewrite Z.add_0_r|]. apply Forall_cons in Hc as [Hc Hcs]. cbn [run_points].
  rewrite Length_enc by done. cbn [rbind]. rewrite IH by done. rewrite utf8_cons, length_app. f_equal. lia.
Qed.

Lemma replaced_cases ch :
  code_point ch ->
  (Utf16.IsSurrogate ch = false /\ replaced ch = ch) \/ (0xD800 <= ch < 0xE000 /\ replaced ch = Utf.kReplacementChar).
Proof.
  unfold replaced, code_point. intros Hc. destruct (Utf16.IsSurrogate ch) eqn:E; [right|by left]. split; [|done].
  rewrite surrogate_range in E by (unfold inU; lia). by apply range_true in E.
Qed.

Lemma replaced_code_point ch : code_point ch -> code_point (replaced ch) /\ length (enc (replaced ch)) = length (enc ch).
Proof.
  intros Hc. destruct (replaced_cases ch Hc) as [[_ ->]|[Hr ->]]; [done|]. unfold code_point, Utf.kReplacementChar. split; [lia|].
  unfold enc. by rewrite !(proj2 (Z.ltb_ge ch _)), (proj2 (Z.ltb_lt ch _)) by lia.
Qed.

Lemma replaced_all chs :
  Forall code_point chs ->
  Forall code_point (replaced <$> chs) /\ length (utf8 (replaced <$> chs)) = length (utf8 chs).
Proof.
  induction 1 as [|ch chs Hc Hcs [IH1 IH2]]; [done|]. destruct (replaced_code_point ch Hc) as [H1' H2'].
  rewrite fmap_cons, !utf8_cons, !length_app, IH2, H2'. split; [by constructor|done].
Qed.

Lemma run_encode len chs : forall dst,
  Forall code_point chs -> Z.of_nat (length dst + length (utf8 chs)) <= len ->
  run_points (Utf8.encode_code_point len) chs dst = Ok (dst ++ utf8 (replaced <$> chs)).
Proof.
  induction chs as [|ch chs IH]; intros dst Hc Hl; [cbn; by rewrite app_nil_r|]. apply Forall_cons in Hc as [Hc Hcs].
  rewrite utf8_cons, length_app in Hl. destruct (replaced_code_point ch Hc) as [Hr El]. cbn [run_points]. unfold Utf8.encode_code_point at 1.
  rewrite ASSERT_true. 2: { unfold Utf.IsOutOfRange, Utf.kMaxCodePoint. unfold code_point in Hc.
    by rewrite (proj2 (Z.ltb_ge ch 0)), (proj2 (Z.ltb_ge _ ch)) by lia. }
  cbn [rbind]. fold (replaced ch). rewrite Length_enc, El by done. cbn [rbind]. rewrite (proj2 (Z.ltb_ge _ _)) by lia.
  rewrite Encode_enc by done. cbn [rbind]. rewrite IH; [|done|rewrite length_app, El; lia]. by rewrite fmap_cons, utf8_cons, <- app_assoc.
Qed.

Lemma String_Length_two_byte us :
  Forall is_unit us -> Utf8.String_Length false us = Ok (Z.of_nat (length (utf8 (code_points us)))).
Proof.
  intros Hu. unfold Utf8.String_Length. rewrite iterate_spec by done. rewrite run_lengths by (by apply code_points_valid). done.
Qed.

(** The characters a string's encoding stands for. *)
Definition text (one_byte : bool) (us : list Z) : list Z := if one_byte then us else replaced <$> code_points us.
Definition is_string (one_byte : bool) (us : list Z) : Prop := Forall (if one_byte then is_byte else is_unit) us.

Lemma text_valid one_byte us : is_string one_byte us -> Forall code_point (text one_byte us).
Proof.
  destruct one_byte; cbn [is_string text]; intros Hu.
  - eapply Forall_impl; [exact Hu|]. unfold is_byte, code_point. cbn. lia.
  - by apply replaced_all, code_points_valid.
Qed.

Lemma String_Length_text one_byte us :
  is_string one_byte us -> Utf8.String_Length one_byte us = Ok (Z.of_nat (length (utf8 (text one_byte us)))).
Proof.
  destruct one_byte; intros Hu; [by apply String_Length_one_byte|]. rewrite String_Length_two_byte by done. cbn [text].
  by rewrite (proj2 (replaced_all (code_points us) (code_points_valid us Hu))).
Qed.

Lemma String_Encode_text one_byte us len :
  is_string one_byte us -> Z.of_nat (length (utf8 (text one_byte us))) <= len ->
  Utf8.String_Length one_byte us = Ok (Z.of_nat (length (utf8 (text one_byte us)))) /\
  Utf8.String_Encode one_byte us len =
    Ok (utf8 (text one_byte us), if one_byte then 0 else Z.of_nat (length (utf8 (text one_byte us)))).
Proof.
  intros Hu Hl. split; [by apply String_Length_text|]. unfold Utf8.String_Encode. rewrite String_Length_text by done. cbn [rbind].
  rewrite ASSERT_true by (by apply Z.leb_le). cbn [rbind]. destruct one_byte; cbn [text] in *.
  - rewrite encode_words_spec by (done || (cbn [length]; lia)). done.
  - pose proof (code_points_valid us Hu) as Hv. rewrite iterate_spec by done.
    rewrite run_encode; [done|done|]. cbn [length]. rewrite <- (proj2 (replaced_all _ Hv)). lia.
Qed.

(** The decoders get the string back. *)
Lemma decode_text chs :
  Forall code_point chs -> let (len, type) := Utf8.CodeUnitCount (utf8 chs) in
  len = Z.of_nat (length (utf16 chs)) /\ type = foldl join_type Utf8.kLatin1 (type_of <$> chs) /\
  Utf8.DecodeToUTF16 (utf8 chs) len = Ok (true, utf16 chs) /\
  (Forall (fun ch => 0 <= ch < 0x100) chs -> Utf8.DecodeToLatin1 (utf8 chs) len = Ok (true, chs)).
Proof.
  intros Hc. unfold Utf8.CodeUnitCount. pose proof (count_text chs [] 0 Utf8.kLatin1 Hc) as E. rewrite app_nil_r, Z.add_0_l in E.
  rewrite E. cbn [Utf8.CodeUnitCount_loop]. split_and!; [done..| |].
  - unfold Utf8.DecodeToUTF16. pose proof (utf8_length chs). rewrite <- (app_nil_r (utf8 chs)) at 2.
    rewrite DecodeToUTF16_text by (done || (cbn [length]; lia)). by destruct (_ - _)%nat.
  - intros Hl. unfold Utf8.DecodeToLatin1. pose proof (utf8_length chs). pose proof (utf16_length chs). rewrite <- (app_nil_r (utf8 chs)) at 2.
    rewrite DecodeToLatin1_text by (done || (cbn [length]; lia)). by destruct (_ - _)%nat.
Qed.

Lemma latin1_types chs : Forall is_byte chs -> foldl join_type Utf8.kLatin1 (type_of <$> chs) = Utf8.kLatin1.
Proof.
  induction 1 as [|c chs Hc Hcs IH]; [done|]. unfold is_byte in Hc. rewrite fmap_cons. cbn [foldl].
  assert (type_of c = Utf8.kLatin1) as -> by (unfold type_of; by rewrite (proj2 (Z.ltb_lt _ _)) by lia). done.
Qed.

(** C13. A string of the heap and UTF-8.  Encoding it, by words of ASCII or
    Latin-1 or by the iterator over surrogate pairs, stores the encodings of its
    characters one after the other, with U+FFFD for each unpaired surrogate: with
    at least the room that Length computes no assertion fails and nothing is cut
    off, and Length is the number of bytes stored.  The value returned is that
    number for a two-byte string, but 0 for a one-byte string.  Decoding the
    bytes gives the string back: in Latin-1 for a one-byte string, and in UTF-16
    for a two-byte string, up to the replaced surrogates. *)
Theorem String_round_trip one_byte us len :
  is_string one_byte us -> Z.of_nat (length (utf8 (text one_byte us))) <= len ->
  exists bs, bs = utf8 (text one_byte us) /\
    Utf8.String_Length one_byte us = Ok (Z.of_nat (length bs)) /\
    Utf8.String_Encode one_byte us len = Ok (bs, if one_byte then 0 else Z.of_nat (length bs)) /\
    let (n, type) := Utf8.CodeUnitCount bs in
    if one_byte
    then n = Z.of_nat (length us) /\ type = Utf8.kLatin1 /\ Utf8.DecodeToLatin1 bs n = Ok (true, us)
    else Utf8.DecodeToUTF16 bs n = Ok (true, utf16 (replaced <$> code_points us)) /\
      (Forall (fun ch => Utf16.IsSurrogate ch = false) (code_points us) ->
       n = Z.of_nat (length us) /\ Utf8.DecodeToUTF16 bs n = Ok (true, us)).
Proof.
  intros Hu Hl. destruct (String_Encode_text one_byte us len Hu Hl) as [En Ee]. eexists. split_and!; [done..|].
  pose proof (decode_text (text one_byte us) (text_valid one_byte us Hu)) as Hd.
  destruct (Utf8.CodeUnitCount _) as [n type]. destruct Hd as (-> & -> & E16 & E1). destruct one_byte; cbn [text is_string] in *.
  - rewrite latin1_types by done. assert (utf16 us = us) as E.
    { clear -Hu. induction Hu as [|c us Hc Hu IH]; [done|]. rewrite utf16_cons, IH. unfold units, is_byte in *.
      by rewrite (proj2 (Z.ltb_lt _ _)) by lia. }
    rewrite E in *. split_and!; [done..|]. by apply E1.
  - split; [done|]. intros Hs. assert (replaced <$> code_points us = code_points us) as E.
    { clear -Hs. induction Hs as [|ch chs Hc Hs IH]; [done|]. rewrite fmap_cons, IH. unfold replaced. by rewrite Hc. }
    rewrite E in *. rewrite utf16_code_points in * by done. done.
Qed.

End Strings.
