(* ===== verification/RangeAnalysis.v ===== *)
(** * RangeAnalysis: intervals of integer values

    Models classes RangeBoundary and Range of
    vm/compiler/backend/range_analysis.{h,cc} with the operators of the
    analysis: transfer functions of the binary operations, join, intersection,
    widening and narrowing, and the test that removes bounds checks.

    A definition of the intermediate language is its number, and [Graph] is what
    the analysis reads of it.  A boundary may be a definition plus an offset, so
    that the bounds of a boundary come from the range of that definition, whose
    boundaries may again be definitions: the walks along the graph have [fuel],
    the number of definitions. *)

From stdpp Require Import base numbers list.
From Stdlib Require Import Lia.
From S2P Require Import Prelude Constants.

#[local] Open Scope Z_scope.
#[local] Open Scope res_scope.

(** ** Integers *)

Definition kMinInt64 : Z := - 2 ^ 63.
Definition kMaxInt64 : Z := 2 ^ 63 - 1.
Definition kMaxUint64 : Z := 2 ^ 64 - 1.
Definition kBitsPerInt64 : Z := 64.

Definition WillAddOverflow (a b : Z) : bool :=
  ((0 <? b) && (kMaxInt64 - b <? a)) || ((b <? 0) && (a <? kMinInt64 - b)).
Definition WillSubOverflow (a b : Z) : bool :=
  ((0 <? b) && (a <? kMinInt64 + b)) || ((b <? 0) && (kMaxInt64 + b <? a)).

Definition AbsWithSaturation (x : Z) : Z :=
  if x <? 0 then if x =? kMinInt64 then kMaxInt64 else - x else x.

(** [Utils::HighestBit]: halving the width in each step. *)
Definition highest_step (s : Z) (xr : Z * Z) : Z * Z :=
  let (x, r) := xr in
  let t := Z.shiftr x s in
  if t =? 0 then (x, r) else (t, r + s).
Definition HighestBit (v : Z) : Z :=
  let x := u64 (if 0 <? v then v else - v) in
  let (x, r) := highest_step 2 (highest_step 4 (highest_step 8 (highest_step 16 (highest_step 32 (x, 0))))) in
  if 1 <? x then r + 1 else r.

Definition BitLength (value : Z) : Z :=
  let value := Z.lxor value (Z.shiftr value 63) in
  if value =? 0 then 0 else HighestBit value + 1.

(** [Utils::IsInt<int64_t>]. *)
Definition IsInt64Bits (N value : Z) : bool :=
  if 64 <=? N then true
  else let limit := Z.shiftl 1 (N - 1) in (- limit <=? value) && (value <? limit).

(** Signed arithmetic of int64_t. *)
Definition int64_op (z : Z) : Res Z :=
  if (kMinInt64 <=? z) && (z <=? kMaxInt64) then Ok z else Err UndefinedBehavior.

(** ** Smis of the target *)

Class PointerMode := { compressed_pointers : bool }.

Section Smi.
Context `{Target} `{PointerMode}.

Definition kSmiBits : Z := if compressed_pointers then 30 else XLEN - 2.
Definition kSmiMax : Z := Z.shiftl 1 kSmiBits - 1.
Definition kSmiMin : Z := - Z.shiftl 1 kSmiBits.
Definition IsSmi (v : Z) : bool := IsInt64Bits (kSmiBits + 1) v.

End Smi.

(** ** Tokens and definitions *)

Inductive Token : Set :=
| kADD | kSUB | kMUL | kTRUNCDIV | kMOD | kSHL | kSHR | kUSHR | kBIT_AND | kBIT_XOR | kBIT_OR
| kEQ | kNE | kLT | kGT | kLTE | kGTE | kOTHER.

Inductive RangeBoundary : Set :=
| Unknown
| NegativeInfinity
| PositiveInfinity
| Symbol (defn : Z) (offset : Z)
| Constant (value : Z).

Inductive RangeSize : Set := kRangeBoundarySmi | kRangeBoundaryInt16 | kRangeBoundaryInt32 | kRangeBoundaryInt64.

Record Range : Set := mkRange { min_ : RangeBoundary; max_ : RangeBoundary }.

(** The classes of definitions that the analysis tells apart. *)
Inductive Instr : Set :=
| ConstantInstr (smi : option Z)          (* the value, if it is a Smi *)
| ConstraintInstr (value : Z)
| BinarySmiOpInstr (op_kind : Token) (left right : Z)
| OtherInstr.

Record Graph : Type := mkGraph {
  instr : Z -> Instr;
  range : Z -> option Range;
  RedefinedValue : Z -> option Z;
  (** [AllowsCSE() && other.AllowsCSE() && Equals(other)] *)
  EqualInstr : Z -> Z -> bool;
  IsArrayLength : Z -> bool
}.

Definition set_range (g : Graph) (d : Z) (r : Range) : Graph :=
  mkGraph (instr g) (fun d' => if d' =? d then Some r else range g d') (RedefinedValue g) (EqualInstr g) (IsArrayLength g).

(** ** Class RangeBoundary *)

Module RangeBoundary.

Definition IsUnknown (b : RangeBoundary) : bool := match b with Unknown => true | _ => false end.
Definition IsConstant (b : RangeBoundary) : bool := match b with Constant _ => true | _ => false end.
Definition IsSymbol (b : RangeBoundary) : bool := match b with Symbol _ _ => true | _ => false end.
Definition IsNegativeInfinity (b : RangeBoundary) : bool := match b with NegativeInfinity => true | _ => false end.
Definition IsPositiveInfinity (b : RangeBoundary) : bool := match b with PositiveInfinity => true | _ => false end.
Definition IsInfinity (b : RangeBoundary) : bool := IsNegativeInfinity b || IsPositiveInfinity b.
Definition IsConstantOrInfinity (b : RangeBoundary) : bool := IsConstant b || IsInfinity b.

Section Boundary.
Context `{Target} `{PointerMode}.

(** The field [value_] is 0 unless the boundary is a constant, or an address. *)
Definition ConstantValue (b : RangeBoundary) : Res Z :=
  ASSERT (IsConstant b) ;;
  match b with Constant v => Ok v | Symbol _ _ => Err UndefinedBehavior | _ => Ok 0 end.

Definition symbol (b : RangeBoundary) : Res Z :=
  ASSERT (IsSymbol b) ;;
  match b with Symbol d _ => Ok d | _ => Err UndefinedBehavior end.

Definition offset (b : RangeBoundary) : Z := match b with Symbol _ o => o | _ => 0 end.

Definition MinConstantValue (size : RangeSize) : Z :=
  match size with
  | kRangeBoundarySmi => kSmiMin | kRangeBoundaryInt16 => - 2 ^ 15 | kRangeBoundaryInt32 => - 2 ^ 31
  | kRangeBoundaryInt64 => kMinInt64
  end.
Definition MaxConstantValue (size : RangeSize) : Z :=
  match size with
  | kRangeBoundarySmi => kSmiMax | kRangeBoundaryInt16 => 2 ^ 15 - 1 | kRangeBoundaryInt32 => 2 ^ 31 - 1
  | kRangeBoundaryInt64 => kMaxInt64
  end.
Definition MinConstant (size : RangeSize) : RangeBoundary := Constant (MinConstantValue size).
Definition MaxConstant (size : RangeSize) : RangeBoundary := Constant (MaxConstantValue size).
Definition MinSmi : RangeBoundary := Constant kSmiMin.
Definition MaxSmi : RangeBoundary := Constant kSmiMax.

Definition IsValidOffsetForSymbolicRangeBoundary (offset : Z) : bool :=
  negb ((kMaxInt64 - kSmiMax <? offset) || (offset <? kMinInt64 - kSmiMin)).

Definition Clamp (size : RangeSize) (b : RangeBoundary) : RangeBoundary :=
  match b with
  | NegativeInfinity => MinConstant size
  | PositiveInfinity => MaxConstant size
  | Constant v =>
      if v <=? MinConstantValue size then MinConstant size
      else if MaxConstantValue size <=? v then MaxConstant size
      else b
  | _ => b
  end.

Definition IsMinimumOrBelow (size : RangeSize) (b : RangeBoundary) : bool :=
  match b with NegativeInfinity => true | Constant v => v <=? MinConstantValue size | _ => false end.
Definition IsMaximumOrAbove (size : RangeSize) (b : RangeBoundary) : bool :=
  match b with PositiveInfinity => true | Constant v => MaxConstantValue size <=? v | _ => false end.

Definition OverflowedSmi (b : RangeBoundary) : bool :=
  match b with Constant v => negb (IsSmi v) | _ => IsInfinity b end.

Definition Add (a b overflow : RangeBoundary) : Res RangeBoundary :=
  if IsInfinity a || IsInfinity b then Ok overflow
  else
    ASSERT (IsConstant a && IsConstant b) ;;
    let* x := ConstantValue a in
    let* y := ConstantValue b in
    if WillAddOverflow x y then Ok overflow
    else let* z := int64_op (x + y) in Ok (Constant z).

Definition Sub (a b overflow : RangeBoundary) : Res RangeBoundary :=
  if IsInfinity a || IsInfinity b then Ok overflow
  else
    ASSERT (IsConstant a && IsConstant b) ;;
    let* x := ConstantValue a in
    let* y := ConstantValue b in
    if WillSubOverflow x y then Ok overflow
    else let* z := int64_op (x - y) in Ok (Constant z).

Definition Shl (value_boundary : RangeBoundary) (shift_count : Z) (overflow : RangeBoundary) : Res RangeBoundary :=
  ASSERT (IsConstant value_boundary) ;;
  ASSERT (0 <=? shift_count) ;;
  let* limit := int64_op (64 - shift_count) in
  let* value := ConstantValue value_boundary in
  if value =? 0 then Ok (Constant 0)
  else if (shift_count =? 0) || ((0 <? limit) && IsInt64Bits limit value)
  then Ok (Constant (s64 (Z.shiftl (u64 value) shift_count)))
  else Ok overflow.

Definition Shr (value_boundary : RangeBoundary) (shift_count : Z) : Res RangeBoundary :=
  ASSERT (IsConstant value_boundary) ;;
  ASSERT (0 <=? shift_count) ;;
  let* value := ConstantValue value_boundary in
  Ok (Constant (if shift_count <=? 63 then Z.shiftr value shift_count else if 0 <=? value then 0 else -1)).

(** ** Boundaries that are definitions *)

Section Symbolic.
Context (g : Graph) (fuel : nat).

Fixpoint UnwrapConstraint_loop (k : nat) (defn : Z) : Res Z :=
  match k with
  | O => Err OutOfFuel
  | S k => match instr g defn with ConstraintInstr value => UnwrapConstraint_loop k value | _ => Ok defn end
  end.
Definition UnwrapConstraint (defn : Z) : Res Z := UnwrapConstraint_loop fuel defn.

Definition AreEqualDefinitions (a b : Z) : Res bool :=
  let* a := UnwrapConstraint a in
  let* b := UnwrapConstraint b in
  Ok ((a =? b) || EqualInstr g a b).

Definition DependOnSameSymbol (a b : RangeBoundary) : Res bool :=
  match a, b with Symbol s _, Symbol t _ => AreEqualDefinitions s t | _, _ => Ok false end.

Definition Equals (a b : RangeBoundary) : Res bool :=
  match a, b with
  | Constant x, Constant y => Ok (x =? y)
  | NegativeInfinity, NegativeInfinity | PositiveInfinity, PositiveInfinity => Ok true
  | Symbol _ o, Symbol _ o' => if o =? o' then DependOnSameSymbol a b else Ok false
  | Unknown, Unknown => Ok true
  | _, _ => Ok false
  end.

Definition Overflowed (size : RangeSize) (b : RangeBoundary) : Res bool :=
  ASSERT (IsConstantOrInfinity b) ;;
  let* e := Equals b (Clamp size b) in Ok (negb e).

Definition FromDefinition (defn offs : Z) : Res RangeBoundary :=
  match instr g defn with
  | ConstantInstr (Some v) => let* z := int64_op (v + offs) in Ok (Constant z)
  | _ => ASSERT (IsValidOffsetForSymbolicRangeBoundary offs) ;; Ok (Symbol defn offs)
  end.

(** [LowerBound] and, for the range of a symbol, [Range::ConstantMin]. *)
Fixpoint LowerBound_loop (k : nat) (b : RangeBoundary) : Res RangeBoundary :=
  match k with
  | O => Err OutOfFuel
  | S k =>
      if IsInfinity b then Ok NegativeInfinity
      else if IsConstant b then Ok b
      else
        let* s := symbol b in
        let* m := match range g s with
                  | None => Ok (MinConstant kRangeBoundarySmi)
                  | Some r => let* l := LowerBound_loop k (min_ r) in Ok (Clamp kRangeBoundarySmi l)
                  end in
        Add m (Constant (offset b)) NegativeInfinity
  end.
Definition LowerBound (b : RangeBoundary) : Res RangeBoundary := LowerBound_loop fuel b.

Fixpoint UpperBound_loop (k : nat) (b : RangeBoundary) : Res RangeBoundary :=
  match k with
  | O => Err OutOfFuel
  | S k =>
      if IsInfinity b then Ok PositiveInfinity
      else if IsConstant b then Ok b
      else
        let* s := symbol b in
        let* m := match range g s with
                  | None => Ok (MaxConstant kRangeBoundarySmi)
                  | Some r => let* u := UpperBound_loop k (max_ r) in Ok (Clamp kRangeBoundarySmi u)
                  end in
        Add m (Constant (offset b)) PositiveInfinity
  end.
Definition UpperBound (b : RangeBoundary) : Res RangeBoundary := UpperBound_loop fuel b.

(** The overloads with a size. *)
Definition LowerBoundOf (size : RangeSize) (b : RangeBoundary) : Res Z :=
  let* l := LowerBound b in ConstantValue (Clamp size l).
Definition UpperBoundOf (size : RangeSize) (b : RangeBoundary) : Res Z :=
  let* u := UpperBound b in ConstantValue (Clamp size u).
Definition SmiLowerBound (b : RangeBoundary) : Res Z := LowerBoundOf kRangeBoundarySmi b.
Definition SmiUpperBound (b : RangeBoundary) : Res Z := UpperBoundOf kRangeBoundarySmi b.

(** The result, if there is one. *)
Definition SymbolicAdd_to (a : RangeBoundary) (y : Z) : Res (option RangeBoundary) :=
  if WillAddOverflow (offset a) y then Ok None
  else
    let* offset := int64_op (offset a + y) in
    if negb (IsValidOffsetForSymbolicRangeBoundary offset) then Ok None
    else let* s := symbol a in let* r := FromDefinition s offset in Ok (Some r).
Definition SymbolicAdd (a b : RangeBoundary) : Res (option RangeBoundary) :=
  match a, b with
  | Symbol _ _, Constant y => SymbolicAdd_to a y
  | Constant y, Symbol _ _ => SymbolicAdd_to b y
  | _, _ => Ok None
  end.

Definition SymbolicSub (a b : RangeBoundary) : Res (option RangeBoundary) :=
  match a, b with
  | Symbol _ _, Constant y =>
      if WillSubOverflow (offset a) y then Ok None
      else
        let* offset := int64_op (offset a - y) in
        if negb (IsValidOffsetForSymbolicRangeBoundary offset) then Ok None
        else let* s := symbol a in let* r := FromDefinition s offset in Ok (Some r)
  | _, _ => Ok None
  end.

(** ** Canonical symbols *)

(** [Smi::Cast(defn->AsConstant()->value()).Value()] *)
Definition SmiCast (smi : option Z) : Res Z :=
  ASSERT (bool_decide (is_Some smi)) ;; match smi with Some v => Ok v | None => Err UndefinedBehavior end.

(** The loop of [CanonicalizeBoundary]: the symbol and offset at its end, or
    none if the offset overflows. *)
Fixpoint canonical_symbol (k : nat) (symbol offset : Z) : Res (option (Z * Z)) :=
  match k with
  | O => Err OutOfFuel
  | S k =>
      match instr g symbol with
      | ConstraintInstr value => canonical_symbol k value offset
      | BinarySmiOpInstr kADD left_ right_ =>
          match instr g right_, instr g left_ with
          | ConstantInstr c, _ =>
              let* rhs := SmiCast c in
              if WillAddOverflow offset rhs then Ok None
              else let* offset := int64_op (offset + rhs) in canonical_symbol k left_ offset
          | _, ConstantInstr c =>
              let* rhs := SmiCast c in
              if WillAddOverflow offset rhs then Ok None
              else let* offset := int64_op (offset + rhs) in canonical_symbol k right_ offset
          | _, _ => Ok (Some (symbol, offset))
          end
      | BinarySmiOpInstr kSUB left_ right_ =>
          match instr g right_ with
          | ConstantInstr c =>
              let* rhs := SmiCast c in
              if WillSubOverflow offset rhs then Ok None
              else let* offset := int64_op (offset - rhs) in canonical_symbol k left_ offset
          | _ => Ok (Some (symbol, offset))
          end
      | _ => Ok (Some (symbol, offset))
      end
  end.

Definition CanonicalizeBoundary (a overflow : RangeBoundary) : Res RangeBoundary :=
  if IsConstant a || IsInfinity a then Ok a
  else
    let* s := symbol a in
    let* r := canonical_symbol fuel s (offset a) in
    match r with
    | None => Ok overflow
    | Some (s, o) =>
        if negb (IsValidOffsetForSymbolicRangeBoundary o) then Ok overflow else FromDefinition s o
    end.

(** [CanonicalizeMaxBoundary] and [CanonicalizeMinBoundary] share this: [bound]
    is the boundary of the symbol's range, the infinity of its side [overflow];
    none means that nothing changed. *)
Definition CanonicalizeWith (bound : Range -> RangeBoundary) (overflow a : RangeBoundary) : Res (option RangeBoundary) :=
  match a with
  | Symbol s o =>
      match range g s with
      | None => Ok None
      | Some r =>
          match bound r with
          | Symbol t o' =>
              if WillAddOverflow o' o then Ok (Some overflow)
              else
                let* offset := int64_op (o' + o) in
                if negb (IsValidOffsetForSymbolicRangeBoundary offset) then Ok (Some overflow)
                else
                  let* f := FromDefinition t offset in
                  let* c := CanonicalizeBoundary f overflow in
                  Ok (Some c)
          | _ => Ok None
          end
      end
  | _ => Ok None
  end.
Definition CanonicalizeMaxBoundary : RangeBoundary -> Res (option RangeBoundary) := CanonicalizeWith max_ PositiveInfinity.
Definition CanonicalizeMinBoundary : RangeBoundary -> Res (option RangeBoundary) := CanonicalizeWith min_ NegativeInfinity.

(** The two boundaries over the same symbol, if they can be brought to one. *)
Fixpoint compare_loop (k : nat) (op : RangeBoundary -> Res (option RangeBoundary)) (a b : RangeBoundary) :
    Res (option (RangeBoundary * RangeBoundary)) :=
  match k with
  | O => Err OutOfFuel
  | S k =>
      let* same := DependOnSameSymbol a b in
      if same then Ok (Some (a, b))
      else
        let* a' := op a in
        match a' with
        | Some a' => compare_loop k op a' b
        | None =>
            let* b' := op b in
            match b' with Some b' => compare_loop k op a b' | None => Ok None end
        end
  end.
Definition CanonicalizeForComparison (a b : RangeBoundary) (op : RangeBoundary -> Res (option RangeBoundary)) :
    Res (option (RangeBoundary * RangeBoundary)) :=
  if negb (IsSymbol a) || negb (IsSymbol b) then Ok None else compare_loop (2 * fuel) op a b.

(** ** Join and intersection *)

Definition JoinMin (a b : RangeBoundary) (size : RangeSize) : Res RangeBoundary :=
  let* e := Equals a b in
  if e then Ok b
  else
    let* c := CanonicalizeForComparison a b CanonicalizeMinBoundary in
    match c with
    | Some (a, b) => Ok (if offset a <=? offset b then a else b)
    | None =>
        let* inf_a := LowerBoundOf size a in
        let* inf_b := LowerBoundOf size b in
        let* sup_a := UpperBoundOf size a in
        let* sup_b := UpperBoundOf size b in
        let* take_a := if sup_a <=? inf_b
                       then let* l := LowerBound a in let* o := Overflowed size l in Ok (negb o) else Ok false in
        if take_a then Ok a
        else
          let* take_b := if sup_b <=? inf_a
                         then let* l := LowerBound b in let* o := Overflowed size l in Ok (negb o) else Ok false in
          if take_b then Ok b else Ok (Constant (Z.min inf_a inf_b))
    end.

Definition JoinMax (a b : RangeBoundary) (size : RangeSize) : Res RangeBoundary :=
  let* e := Equals a b in
  if e then Ok b
  else
    let* c := CanonicalizeForComparison a b CanonicalizeMaxBoundary in
    match c with
    | Some (a, b) => Ok (if offset b <=? offset a then a else b)
    | None =>
        let* inf_a := LowerBoundOf size a in
        let* inf_b := LowerBoundOf size b in
        let* sup_a := UpperBoundOf size a in
        let* sup_b := UpperBoundOf size b in
        let* take_b := if sup_a <=? inf_b
                       then let* u := UpperBound b in let* o := Overflowed size u in Ok (negb o) else Ok false in
        if take_b then Ok b
        else
          let* take_a := if sup_b <=? inf_a
                         then let* u := UpperBound a in let* o := Overflowed size u in Ok (negb o) else Ok false in
          if take_a then Ok a else Ok (Constant (Z.max sup_a sup_b))
    end.

Definition IntersectionMin (a b : RangeBoundary) : Res RangeBoundary :=
  ASSERT (negb (IsPositiveInfinity a) && negb (IsPositiveInfinity b)) ;;
  ASSERT (negb (IsUnknown a) && negb (IsUnknown b)) ;;
  let* e := Equals a b in
  if e then Ok a
  else if IsMinimumOrBelow kRangeBoundarySmi a then Ok b
  else if IsMinimumOrBelow kRangeBoundarySmi b then Ok a
  else
    let* c := CanonicalizeForComparison a b CanonicalizeMinBoundary in
    match c with
    | Some (a, b) => Ok (if offset b <=? offset a then a else b)
    | None =>
        let* inf_a := SmiLowerBound a in
        let* inf_b := SmiLowerBound b in
        Ok (if inf_b <=? inf_a then a else b)
    end.

Definition IntersectionMax (a b : RangeBoundary) : Res RangeBoundary :=
  ASSERT (negb (IsNegativeInfinity a) && negb (IsNegativeInfinity b)) ;;
  ASSERT (negb (IsUnknown a) && negb (IsUnknown b)) ;;
  let* e := Equals a b in
  if e then Ok a
  else if IsMaximumOrAbove kRangeBoundarySmi a then Ok b
  else if IsMaximumOrAbove kRangeBoundarySmi b then Ok a
  else
    let* c := CanonicalizeForComparison a b CanonicalizeMaxBoundary in
    match c with
    | Some (a, b) => Ok (if offset a <=? offset b then a else b)
    | None =>
        let* sup_a := SmiUpperBound a in
        let* sup_b := SmiUpperBound b in
        Ok (if sup_a <=? sup_b then a else b)
    end.

End Symbolic.
End Boundary.
End RangeBoundary.

(** ** Class Range *)

Inductive Representation : Set :=
| kTagged | kUnboxedUint8 | kUnboxedUint16 | kUnboxedInt32 | kUnboxedUint32 | kUnboxedInt64 | kOtherRepresentation.

Definition IsUnboxedInteger (rep : Representation) : bool :=
  match rep with kTagged | kOtherRepresentation => false | _ => true end.

Module Range.

(** [IsUnknown] of a pointer to a range. *)
Definition IsUnknown (other : option Range) : bool :=
  match other with None => true | Some r => RangeBoundary.IsUnknown (min_ r) end.

Definition IsFinite (r : Range) : bool :=
  negb (RangeBoundary.IsInfinity (min_ r)) && negb (RangeBoundary.IsInfinity (max_ r)).

Section Range.
Context `{Target} `{PointerMode}.

Definition Int64Range : Range :=
  mkRange (RangeBoundary.MinConstant kRangeBoundaryInt64) (RangeBoundary.MaxConstant kRangeBoundaryInt64).

(** The constructor from two boundaries. *)
Definition make (min max : RangeBoundary) : Res Range :=
  ASSERT (eqb (RangeBoundary.IsUnknown min) (RangeBoundary.IsUnknown max)) ;;
  Ok (if RangeBoundary.IsInfinity min || RangeBoundary.IsInfinity max then Int64Range else mkRange min max).

Definition set_min (value : RangeBoundary) (r : Range) : Range :=
  if RangeBoundary.IsInfinity value then Int64Range else mkRange value (max_ r).
Definition set_max (value : RangeBoundary) (r : Range) : Range :=
  if RangeBoundary.IsInfinity value then Int64Range else mkRange (min_ r) value.

Definition Full (size : RangeSize) : Range :=
  mkRange (RangeBoundary.MinConstant size) (RangeBoundary.MaxConstant size).

(** [RepresentationUtils::MinValue] and [MaxValue]. *)
Definition MinValue (rep : Representation) : Res Z :=
  match rep with
  | kUnboxedUint8 | kUnboxedUint16 | kUnboxedUint32 => Ok 0
  | kUnboxedInt32 => Ok (- 2 ^ 31)
  | kUnboxedInt64 => Ok kMinInt64
  | _ => Err Unreachable
  end.
Definition MaxValue (rep : Representation) : Res Z :=
  match rep with
  | kUnboxedUint8 => Ok (2 ^ 8 - 1)
  | kUnboxedUint16 => Ok (2 ^ 16 - 1)
  | kUnboxedUint32 => Ok (2 ^ 32 - 1)
  | kUnboxedInt32 => Ok (2 ^ 31 - 1)
  | kUnboxedInt64 => Ok kMaxInt64
  | _ => Err Unreachable
  end.
Definition FullOf (rep : Representation) : Res Range :=
  ASSERT (IsUnboxedInteger rep) ;;
  let* l := MinValue rep in
  let* u := MaxValue rep in
  make (Constant l) (Constant u).

Definition RepresentationToRangeSize (r : Representation) : Res RangeSize :=
  match r with
  | kTagged => Ok kRangeBoundarySmi
  | kUnboxedUint8 => Ok kRangeBoundaryInt16
  | kUnboxedInt32 | kUnboxedUint16 => Ok kRangeBoundaryInt32
  | kUnboxedInt64 | kUnboxedUint32 => Ok kRangeBoundaryInt64
  | kOtherRepresentation => Err Unreachable
  end.

Definition IsSingleton (r : Range) : bool :=
  match min_ r, max_ r with Constant x, Constant y => x =? y | _, _ => false end.

Definition Clamp (size : RangeSize) (r : Range) : Range :=
  mkRange (RangeBoundary.Clamp size (min_ r)) (RangeBoundary.Clamp size (max_ r)).

Section Graph.
Context (g : Graph) (fuel : nat).

Notation LowerBound := (RangeBoundary.LowerBound g fuel).
Notation UpperBound := (RangeBoundary.UpperBound g fuel).
Notation ConstantValue := RangeBoundary.ConstantValue.

Definition Equals (r : Range) (other : option Range) : Res bool :=
  ASSERT (eqb (RangeBoundary.IsUnknown (min_ r)) (RangeBoundary.IsUnknown (max_ r))) ;;
  match other with
  | None => Ok (RangeBoundary.IsUnknown (min_ r))
  | Some o =>
      let* e := RangeBoundary.Equals g fuel (min_ r) (min_ o) in
      if e then RangeBoundary.Equals g fuel (max_ r) (max_ o) else Ok false
  end.

Definition ConstantMin (range : option Range) (size : RangeSize) : Res RangeBoundary :=
  match range with
  | None => Ok (RangeBoundary.MinConstant size)
  | Some r => let* l := LowerBound (min_ r) in Ok (RangeBoundary.Clamp size l)
  end.
Definition ConstantMax (range : option Range) (size : RangeSize) : Res RangeBoundary :=
  match range with
  | None => Ok (RangeBoundary.MaxConstant size)
  | Some r => let* u := UpperBound (max_ r) in Ok (RangeBoundary.Clamp size u)
  end.

(** [ConstantMin(range).ConstantValue()] and the same for the maximum. *)
Definition MinInt (r : Range) : Res Z :=
  let* b := ConstantMin (Some r) kRangeBoundaryInt64 in ConstantValue b.
Definition MaxInt (r : Range) : Res Z :=
  let* b := ConstantMax (Some r) kRangeBoundaryInt64 in ConstantValue b.

Definition OnlyLessThanOrEqualTo (val : Z) (r : Range) : Res bool :=
  let* upper_bound := UpperBound (max_ r) in
  if RangeBoundary.IsPositiveInfinity upper_bound then Ok false
  else let* u := ConstantValue upper_bound in Ok (u <=? val).
Definition OnlyGreaterThanOrEqualTo (val : Z) (r : Range) : Res bool :=
  let* lower_bound := LowerBound (min_ r) in
  if RangeBoundary.IsNegativeInfinity lower_bound then Ok false
  else let* l := ConstantValue lower_bound in Ok (val <=? l).

Definition IsPositive (r : Range) : Res bool := OnlyGreaterThanOrEqualTo 0 r.
Definition IsNegative (r : Range) : Res bool := OnlyLessThanOrEqualTo (-1) r.

Definition IsWithin (min_int max_int : Z) (r : Range) : Res bool :=
  let* a := OnlyGreaterThanOrEqualTo min_int r in
  if a then OnlyLessThanOrEqualTo max_int r else Ok false.

Definition IsWithinRange (r other : Range) : Res bool :=
  let* lower_bound := LowerBound (min_ other) in
  let* upper_bound := UpperBound (max_ other) in
  if RangeBoundary.IsNegativeInfinity lower_bound then
    if RangeBoundary.IsPositiveInfinity upper_bound then Ok true
    else let* u := ConstantValue (max_ other) in OnlyLessThanOrEqualTo u r
  else if RangeBoundary.IsPositiveInfinity upper_bound then
    let* l := ConstantValue (min_ other) in OnlyGreaterThanOrEqualTo l r
  else
    let* l := ConstantValue (min_ other) in
    let* u := ConstantValue (max_ other) in
    IsWithin l u r.

Definition Overlaps (min_int max_int : Z) (r : Range) : Res bool :=
  let* lower := LowerBound (min_ r) in
  let* upper := UpperBound (max_ r) in
  let* this_min := if RangeBoundary.IsNegativeInfinity lower then Ok kMinInt64 else ConstantValue lower in
  let* this_max := if RangeBoundary.IsPositiveInfinity upper then Ok kMaxInt64 else ConstantValue upper in
  Ok (((this_min <=? min_int) && (min_int <=? this_max)) ||
      ((this_min <=? max_int) && (max_int <=? this_max)) ||
      ((min_int <? this_min) && (this_max <? max_int))).

Definition IsUnsatisfiable (r : Range) : Res bool :=
  if RangeBoundary.IsPositiveInfinity (min_ r) || RangeBoundary.IsNegativeInfinity (max_ r) then Ok true
  else
    let* l := MinInt r in
    let* u := MaxInt r in
    if u <? l then Ok true
    else
      let* same := RangeBoundary.DependOnSameSymbol g fuel (min_ r) (max_ r) in
      Ok (same && (RangeBoundary.offset (max_ r) <? RangeBoundary.offset (min_ r))).

Definition Intersect (r other : Range) : Res Range :=
  let* l := RangeBoundary.IntersectionMin g fuel (min_ r) (min_ other) in
  let* u := RangeBoundary.IntersectionMax g fuel (max_ r) (max_ other) in
  make l u.

Definition Fits (size : RangeSize) (r : Range) : Res bool :=
  let* l := LowerBound (min_ r) in
  let* o := RangeBoundary.Overflowed g fuel size l in
  if o then Ok false
  else
    let* u := UpperBound (max_ r) in
    let* o := RangeBoundary.Overflowed g fuel size u in
    Ok (negb o).

Definition ClampToConstant (size : RangeSize) (r : Range) : Res Range :=
  let* l := LowerBound (min_ r) in
  let* u := UpperBound (max_ r) in
  Ok (mkRange (RangeBoundary.Clamp size l) (RangeBoundary.Clamp size u)).

(** ** Transfer functions: the boundaries of the result *)

Definition Shl (l r : Range) : Res (RangeBoundary * RangeBoundary) :=
  let* left_max := ConstantMax (Some l) kRangeBoundaryInt64 in
  let* left_min := ConstantMin (Some l) kRangeBoundaryInt64 in
  let* right_max := MaxInt r in
  let* right_min := MinInt r in
  let right_max := Z.max right_max 0 in
  let right_min := Z.max right_min 0 in
  let* lmin := ConstantValue left_min in
  let* lmax := ConstantValue left_max in
  let* result_min := RangeBoundary.Shl left_min (if 0 <? lmin then right_min else right_max)
                       (if 0 <? lmin then PositiveInfinity else NegativeInfinity) in
  let* result_max := RangeBoundary.Shl left_max (if 0 <? lmax then right_max else right_min)
                       (if 0 <? lmax then PositiveInfinity else NegativeInfinity) in
  Ok (result_min, result_max).

Definition Shr (l r : Range) : Res (RangeBoundary * RangeBoundary) :=
  let* left_max := ConstantMax (Some l) kRangeBoundaryInt64 in
  let* left_min := ConstantMin (Some l) kRangeBoundaryInt64 in
  let* right_max := MaxInt r in
  let* right_min := MinInt r in
  let right_max := Z.max right_max 0 in
  let right_min := Z.max right_min 0 in
  let* lmin := ConstantValue left_min in
  let* lmax := ConstantValue left_max in
  let* result_min := RangeBoundary.Shr left_min (if 0 <? lmin then right_max else right_min) in
  let* result_max := RangeBoundary.Shr left_max (if 0 <? lmax then right_min else right_max) in
  Ok (result_min, result_max).

Definition ConvertRangeToUnsigned (a b : Z) : Res (Z * Z) :=
  ASSERT (a <=? b) ;;
  Ok (if (a <? 0) && (0 <=? b) then (0, kMaxUint64) else (u64 a, u64 b)).
Definition ConvertRangeToSigned (a b : Z) : Res (Z * Z) :=
  ASSERT (a <=? b) ;;
  Ok (if (a <=? u64 kMaxInt64) && (u64 kMinInt64 <=? b) then (kMinInt64, kMaxInt64) else (s64 a, s64 b)).

Definition Ushr (l r : Range) : Res (RangeBoundary * RangeBoundary) :=
  let* left_max := MaxInt l in
  let* left_min := MinInt l in
  let* right_max := MaxInt r in
  let* right_min := MinInt r in
  let right_max := Z.max right_max 0 in
  let right_min := Z.max right_min 0 in
  let* (unsigned_left_min, unsigned_left_max) := ConvertRangeToUnsigned left_min left_max in
  let unsigned_result_min := if kBitsPerInt64 <=? right_max then 0 else Z.shiftr unsigned_left_min right_max in
  let unsigned_result_max := if kBitsPerInt64 <=? right_min then 0 else Z.shiftr unsigned_left_max right_min in
  let* (signed_result_min, signed_result_max) := ConvertRangeToSigned unsigned_result_min unsigned_result_max in
  Ok (Constant signed_result_min, Constant signed_result_max).

Definition BitSize (r : Range) : Res Z :=
  let* min := MinInt r in
  let* max := MaxInt r in
  Ok (Z.max (BitLength min) (BitLength max)).

Definition BitwiseOp (l r : Range) : Res (RangeBoundary * RangeBoundary) :=
  let* left_bits := BitSize l in
  let* right_bits := BitSize r in
  let bitsize := Z.max left_bits right_bits in
  let* left_positive := IsPositive l in
  let* positive := if left_positive then IsPositive r else Ok false in
  let result_min := if positive then Constant 0 else Constant (s64 (- u64 (Z.shiftl 1 bitsize))) in
  Ok (result_min, Constant (s64 (u64 (Z.shiftl 1 bitsize) - 1))).

Definition And (l r : Range) : Res (RangeBoundary * RangeBoundary) :=
  let* right_min := MinInt r in
  if 0 <=? right_min then let* u := ConstantMax (Some r) kRangeBoundaryInt64 in Ok (Constant 0, u)
  else
    let* left_min := MinInt l in
    if 0 <=? left_min then let* u := ConstantMax (Some l) kRangeBoundaryInt64 in Ok (Constant 0, u)
    else BitwiseOp l r.

(** The left operand's boundary, or the operand itself if it is the length of an
    array. *)
Definition left_boundary (left_defn : option Z) (b : RangeBoundary) : Res RangeBoundary :=
  match left_defn with
  | Some d => if IsArrayLength g d then RangeBoundary.FromDefinition g d 0 else Ok b
  | None => Ok b
  end.

Definition Add (l r : Range) (left_defn : option Z) : Res (RangeBoundary * RangeBoundary) :=
  let* left_min := left_boundary left_defn (min_ l) in
  let* left_max := left_boundary left_defn (max_ l) in
  let* s := RangeBoundary.SymbolicAdd g left_min (min_ r) in
  let* result_min := match s with
                     | Some b => Ok b
                     | None => let* x := LowerBound (min_ l) in
                               let* y := LowerBound (min_ r) in
                               RangeBoundary.Add x y NegativeInfinity
                     end in
  let* s := RangeBoundary.SymbolicAdd g left_max (max_ r) in
  let* result_max := match s with
                     | Some b => Ok b
                     | None => let* y := UpperBound (max_ r) in
                               let* x := UpperBound (max_ l) in
                               RangeBoundary.Add y x PositiveInfinity
                     end in
  Ok (result_min, result_max).

Definition Sub (l r : Range) (left_defn : option Z) : Res (RangeBoundary * RangeBoundary) :=
  let* left_min := left_boundary left_defn (min_ l) in
  let* left_max := left_boundary left_defn (max_ l) in
  let* s := RangeBoundary.SymbolicSub g left_min (max_ r) in
  let* result_min := match s with
                     | Some b => Ok b
                     | None => let* x := LowerBound (min_ l) in
                               let* y := UpperBound (max_ r) in
                               RangeBoundary.Sub x y NegativeInfinity
                     end in
  let* s := RangeBoundary.SymbolicSub g left_max (min_ r) in
  let* result_max := match s with
                     | Some b => Ok b
                     | None => let* x := UpperBound (max_ l) in
                               let* y := LowerBound (min_ r) in
                               RangeBoundary.Sub x y PositiveInfinity
                     end in
  Ok (result_min, result_max).

Definition ConstantAbsMax (r : Range) : Res Z :=
  let* l := MinInt r in
  let* u := MaxInt r in
  Ok (Z.max (AbsWithSaturation l) (AbsWithSaturation u)).
Definition ConstantAbsMin (r : Range) : Res Z :=
  let* l := MinInt r in
  let* u := MaxInt r in
  Ok (Z.min (AbsWithSaturation l) (AbsWithSaturation u)).

Definition OnlyPositiveOrZero (a b : Range) : Res bool :=
  let* x := OnlyGreaterThanOrEqualTo 0 a in if x then OnlyGreaterThanOrEqualTo 0 b else Ok false.
Definition OnlyNegativeOrZero (a b : Range) : Res bool :=
  let* x := OnlyLessThanOrEqualTo 0 a in if x then OnlyLessThanOrEqualTo 0 b else Ok false.

(** Both of one sign. *)
Definition SameSign (a b : Range) : Res bool :=
  let* p := OnlyPositiveOrZero a b in if p then Ok true else OnlyNegativeOrZero a b.

Definition Mul (l r : Range) : Res (RangeBoundary * RangeBoundary) :=
  let* left_max := ConstantAbsMax l in
  let* right_max := ConstantAbsMax r in
  if (left_max <=? - kSmiMin) && (right_max <=? - kSmiMin) &&
     ((left_max =? 0) || (right_max <=? Z.quot kMaxInt64 left_max))
  then
    let* mul_max := int64_op (left_max * right_max) in
    let* same := SameSign l r in
    if same then
      let* x := ConstantAbsMin l in
      let* y := ConstantAbsMin r in
      let* mul_min := int64_op (x * y) in
      Ok (Constant mul_min, Constant mul_max)
    else let* m := int64_op (- mul_max) in Ok (Constant m, Constant mul_max)
  else
    let* same := SameSign l r in
    Ok (if same then (Constant 0, PositiveInfinity) else (NegativeInfinity, PositiveInfinity)).

(** [int64_t] division. *)
Definition int64_div (a b : Z) : Res Z := if b =? 0 then Err UndefinedBehavior else int64_op (Z.quot a b).

Definition TruncDiv (l r : Range) : Res (RangeBoundary * RangeBoundary) :=
  let* a := OnlyGreaterThanOrEqualTo 0 l in
  let* b := if a then OnlyGreaterThanOrEqualTo 1 r else Ok false in
  if b then
    let* left_max := ConstantAbsMax l in
    let* left_min := ConstantAbsMin l in
    let* right_max := ConstantAbsMax r in
    let* right_min := ConstantAbsMin r in
    let* u := int64_div left_max right_min in
    let* v := int64_div left_min right_max in
    Ok (Constant v, Constant u)
  else Ok (NegativeInfinity, PositiveInfinity).

Definition Mod (r : Range) : Res (RangeBoundary * RangeBoundary) :=
  let* right_min := MinInt r in
  let* mod_max := if right_min =? kMinInt64 then Ok kMaxInt64
                  else let* right_max := ConstantAbsMax r in
                       let* m := int64_op (right_max - 1) in Ok (Z.max m 0) in
  Ok (Constant 0, Constant mod_max).

Definition transfer (op : Token) (l r : Range) (left_defn : option Z) : option (Res (RangeBoundary * RangeBoundary)) :=
  match op with
  | kADD => Some (Add l r left_defn)
  | kSUB => Some (Sub l r left_defn)
  | kMUL => Some (Mul l r)
  | kTRUNCDIV => Some (TruncDiv l r)
  | kMOD => Some (Mod r)
  | kSHL => Some (Shl l r)
  | kSHR => Some (Shr l r)
  | kUSHR => Some (Ushr l r)
  | kBIT_AND => Some (And l r)
  | kBIT_XOR | kBIT_OR => Some (BitwiseOp l r)
  | _ => None
  end.

Definition BinaryOp (op : Token) (l r : Range) (left_defn : option Z) : Res Range :=
  ASSERT (IsFinite l) ;;
  ASSERT (IsFinite r) ;;
  match transfer op l r left_defn with
  | None => make NegativeInfinity PositiveInfinity
  | Some mm =>
      let* (min, max) := mm in
      ASSERT (negb (RangeBoundary.IsUnknown min) && negb (RangeBoundary.IsUnknown max)) ;;
      ASSERT (match min, max with Constant x, Constant y => x <=? y | _, _ => true end) ;;
      make min max
  end.

End Graph.
End Range.
End Range.

(** ** Class RangeAnalysis *)

Module RangeAnalysis.
Section RangeAnalysis.
Context `{Target} `{PointerMode} (g : Graph) (fuel : nat).

Notation LowerBound := (RangeBoundary.LowerBound g fuel).
Notation UpperBound := (RangeBoundary.UpperBound g fuel).
Notation ConstantValue := RangeBoundary.ConstantValue.
Notation offset := RangeBoundary.offset.

(** *** Widening and narrowing *)

(** The comparison of constants that ends both functions. *)
Definition widen_constant_min (range new_range : Range) (size : RangeSize) : Res RangeBoundary :=
  let* min := Range.ConstantMin g fuel (Some range) size in
  let* new_min := Range.ConstantMin g fuel (Some new_range) size in
  let* x := ConstantValue min in
  let* y := ConstantValue new_min in
  Ok (if x <=? y then min else RangeBoundary.MinConstant size).
Definition widen_constant_max (range new_range : Range) (size : RangeSize) : Res RangeBoundary :=
  let* max := Range.ConstantMax g fuel (Some range) size in
  let* new_max := Range.ConstantMax g fuel (Some new_range) size in
  let* x := ConstantValue max in
  let* y := ConstantValue new_max in
  Ok (if y <=? x then max else RangeBoundary.MaxConstant size).

Definition WidenMin (range new_range : Range) (size : RangeSize) : Res RangeBoundary :=
  let min := min_ range in
  let new_min := min_ new_range in
  if RangeBoundary.IsSymbol min then
    let* l := LowerBound min in
    let* o := RangeBoundary.Overflowed g fuel size l in
    if o then Ok (RangeBoundary.MinConstant size)
    else
      let* same := RangeBoundary.DependOnSameSymbol g fuel min new_min in
      if same then Ok (if offset min <=? offset new_min then min else RangeBoundary.MinConstant size)
      else
        let* x := RangeBoundary.UpperBoundOf g fuel size min in
        let* y := RangeBoundary.LowerBoundOf g fuel size new_min in
        if x <=? y then Ok min else widen_constant_min range new_range size
  else widen_constant_min range new_range size.

Definition WidenMax (range new_range : Range) (size : RangeSize) : Res RangeBoundary :=
  let max := max_ range in
  let new_max := max_ new_range in
  if RangeBoundary.IsSymbol max then
    let* u := UpperBound max in
    let* o := RangeBoundary.Overflowed g fuel size u in
    if o then Ok (RangeBoundary.MaxConstant size)
    else
      let* same := RangeBoundary.DependOnSameSymbol g fuel max new_max in
      if same then Ok (if offset new_max <=? offset max then max else RangeBoundary.MaxConstant size)
      else
        let* x := RangeBoundary.LowerBoundOf g fuel size max in
        let* y := RangeBoundary.UpperBoundOf g fuel size new_max in
        if y <=? x then Ok max else widen_constant_max range new_range size
  else widen_constant_max range new_range size.

Definition NarrowMin (range new_range : Range) (size : RangeSize) : Res RangeBoundary :=
  let* min := Range.ConstantMin g fuel (Some range) size in
  let* new_min := Range.ConstantMin g fuel (Some new_range) size in
  let* x := ConstantValue min in
  let* y := ConstantValue new_min in
  if y <? x then Ok (min_ range)
  else Ok (if RangeBoundary.IsMinimumOrBelow size (min_ range) then min_ new_range else min_ range).

Definition NarrowMax (range new_range : Range) (size : RangeSize) : Res RangeBoundary :=
  let* max := Range.ConstantMax g fuel (Some range) size in
  let* new_max := Range.ConstantMax g fuel (Some new_range) size in
  let* x := ConstantValue max in
  let* y := ConstantValue new_max in
  if x <? y then Ok (max_ range)
  else Ok (if RangeBoundary.IsMaximumOrAbove size (max_ range) then max_ new_range else max_ range).

(** *** Phis *)

Definition DependsOnSymbol (a : RangeBoundary) (symbol : Z) : Res bool :=
  match a with
  | Symbol s _ => let* u := RangeBoundary.UnwrapConstraint g fuel s in Ok (u =? symbol)
  | _ => Ok false
  end.

Definition Join (range : option Range) (defn : Z) (defn_range : option Range) (size : RangeSize) : Res (option Range) :=
  if Range.IsUnknown defn_range then Ok range
  else if Range.IsUnknown range then Ok defn_range
  else
    match range, defn_range with
    | Some range, Some other =>
        let* unwrapped := RangeBoundary.UnwrapConstraint g fuel defn in
        let* d := DependsOnSymbol (min_ range) unwrapped in
        let* d := if d then Ok true else DependsOnSymbol (max_ range) unwrapped in
        let* other := if d then
                        let* l := RangeBoundary.FromDefinition g defn 0 in
                        let* u := RangeBoundary.FromDefinition g defn 0 in
                        Range.make l u
                      else Ok other in
        let* inf_range := RangeBoundary.LowerBoundOf g fuel size (min_ range) in
        let* inf_other := RangeBoundary.LowerBoundOf g fuel size (min_ other) in
        let* sup_range := RangeBoundary.UpperBoundOf g fuel size (max_ range) in
        let* sup_other := RangeBoundary.UpperBoundOf g fuel size (max_ other) in
        if sup_range <=? inf_other then Ok (Some (Range.set_max (max_ other) range))
        else if sup_other <=? inf_range then Ok (Some (Range.set_min (min_ other) range))
        else
          let* l := RangeBoundary.JoinMin g fuel (min_ range) (min_ other) size in
          let* u := RangeBoundary.JoinMax g fuel (max_ range) (max_ other) size in
          let* r := Range.make l u in
          Ok (Some r)
    | _, _ => Err Unreachable
    end.

(** *** Constraints *)

Definition ConstraintSmiRange (op : Token) (boundary : Z) : Res Range :=
  match op with
  | kEQ => let* l := RangeBoundary.FromDefinition g boundary 0 in
           let* u := RangeBoundary.FromDefinition g boundary 0 in
           Range.make l u
  | kNE => Ok (Range.Full kRangeBoundarySmi)
  | kLT => let* u := RangeBoundary.FromDefinition g boundary (-1) in Range.make RangeBoundary.MinSmi u
  | kGT => let* l := RangeBoundary.FromDefinition g boundary 1 in Range.make l RangeBoundary.MaxSmi
  | kLTE => let* u := RangeBoundary.FromDefinition g boundary 0 in Range.make RangeBoundary.MinSmi u
  | kGTE => let* l := RangeBoundary.FromDefinition g boundary 0 in Range.make l RangeBoundary.MaxSmi
  | _ => Err Unreachable
  end.

(** [ConstraintInstr::InferRange]: none if the range stays as it was. *)
Definition InferConstraintRange (value_range : option Range) (constraint : Range) : Res (option Range) :=
  match value_range with
  | Some r =>
      if RangeBoundary.IsUnknown (min_ r) then Ok None
      else
        let* result := Range.Intersect g fuel r constraint in
        let* u := Range.IsUnsatisfiable g fuel result in
        Ok (if u then None else Some result)
  | None => Ok None
  end.

(** *** Binary operations *)

(** [BinaryIntegerOpInstr::InferRangeHelper]: the range and whether the operation
    can overflow; none if the range stays as it was. *)
Definition InferRangeHelper (op : Token) (rep : Representation) (is_truncating can_overflow : bool)
    (left_range right_range : option Range) (left_defn : Z) : Res (option Range * bool) :=
  if Range.IsUnknown left_range || Range.IsUnknown right_range then Ok (None, can_overflow)
  else
    match left_range, right_range with
    | Some l, Some r =>
        let* range := Range.BinaryOp g fuel op l r (Some left_defn) in
        ASSERT (negb (Range.IsUnknown (Some range))) ;;
        let* range_size := Range.RepresentationToRangeSize rep in
        let* can_overflow := if is_truncating then Ok can_overflow
                             else let* fits := Range.Fits g fuel range_size range in Ok (negb fits) in
        Ok (Some (Range.Clamp range_size range), can_overflow)
    | _, _ => Err Unreachable
    end.

(** *** Bounds checks *)

Fixpoint OriginalDefinition_loop (k : nat) (defn : Z) : Res Z :=
  match k with
  | O => Err OutOfFuel
  | S k => match RedefinedValue g defn with Some v => OriginalDefinition_loop k v | None => Ok defn end
  end.
Definition OriginalDefinition (defn : Z) : Res Z := OriginalDefinition_loop fuel defn.

(** [BindsToSmiConstant] and [BoundSmiConstant]. *)
Definition SmiConstantOf (defn : Z) : Res (option Z) :=
  let* o := OriginalDefinition defn in
  Ok (match instr g o with ConstantInstr smi => smi | _ => None end).

(** The symbolic comparison of [IsRedundantBasedOnRangeInformation]. *)
Fixpoint compare_symbols (k : nat) (max canonical_length : RangeBoundary) : Res bool :=
  match k with
  | O => Err OutOfFuel
  | S k =>
      let* same := RangeBoundary.DependOnSameSymbol g fuel max canonical_length in
      if same then Ok (offset max <? offset canonical_length)
      else
        let* m := RangeBoundary.CanonicalizeMaxBoundary g fuel max in
        match m with
        | Some m => compare_symbols k m canonical_length
        | None =>
            let* c := RangeBoundary.CanonicalizeMinBoundary g fuel canonical_length in
            match c with Some c => compare_symbols k max c | None => Ok false end
        end
  end.

(** The part after the index has a range. *)
Definition check_is_redundant (index_defn : Z) (index_range : Range) (length : Z) : Res bool :=
  let* l := Range.ConstantMin g fuel (Some index_range) kRangeBoundarySmi in
  let* min := ConstantValue l in
  if min <? 0 then Ok false
  else
    let* max := RangeBoundary.FromDefinition g index_defn 0 in
    let* max_upper := UpperBound max in
    let* array_length := RangeBoundary.FromDefinition g length 0 in
    let* length_lower := LowerBound array_length in
    if RangeBoundary.OverflowedSmi max_upper || RangeBoundary.OverflowedSmi length_lower then Ok false
    else
      let* x := ConstantValue max_upper in
      let* y := ConstantValue length_lower in
      if x <? y then Ok true
      else
        let* canonical_length := RangeBoundary.CanonicalizeBoundary g fuel array_length PositiveInfinity in
        if RangeBoundary.OverflowedSmi canonical_length then Ok false
        else compare_symbols (2 * fuel) max canonical_length.

End RangeAnalysis.

Section BoundsCheck.
Context `{Target} `{PointerMode} (fuel : nat).

(** The answer and the graph, in which a constant index gets its range. *)
Definition IsRedundantBasedOnRangeInformation (g : Graph) (index length : Z) : Res (bool * Graph) :=
  let* ci := SmiConstantOf g fuel index in
  let* cl := SmiConstantOf g fuel length in
  match ci, cl with
  | Some index_val, Some length_val => Ok ((0 <=? index_val) && (index_val <? length_val), g)
  | _, _ =>
      match range g index, ci with
      | Some index_range, _ => let* b := check_is_redundant g fuel index index_range length in Ok (b, g)
      | None, None => Ok (false, g)
      | None, Some c =>
          let* index_defn := OriginalDefinition g fuel index in
          let* r := Range.make (Constant c) (Constant c) in
          let g := set_range g index_defn r in
          let* b := check_is_redundant g fuel index_defn r length in
          Ok (b, g)
      end
  end.

End BoundsCheck.
End RangeAnalysis.
