(* ===== verification/RangeSpec.v ===== *)
(** * RangeSpec: what boundaries denote

    A valuation gives each definition the value it has in one execution.  A
    boundary then denotes an integer, and the bounds, canonical forms, joins and
    intersections of boundaries are estimates of it on the right side.  The
    walks along the graph return because its symbols are acyclic: a rank
    decreases along them. *)

From stdpp Require Import base numbers list.
From Stdlib Require Import Lia.
From S2P Require Import Prelude Constants RangeAnalysis.

#[local] Open Scope Z_scope.
#[local] Open Scope res_scope.

Definition int64 (v : Z) : Prop := kMinInt64 <= v <= kMaxInt64.

Lemma int64_op_ok z : int64 z -> int64_op z = Ok z.
Proof. intros [? ?]. unfold int64_op. by rewrite !(proj2 (Z.leb_le _ _)) by done. Qed.

Lemma WillAddOverflow_spec a b : int64 a -> int64 b -> WillAddOverflow a b = false <-> int64 (a + b).
Proof.
  unfold int64, WillAddOverflow. intros Ha Hb. unfold kMinInt64, kMaxInt64 in *.
  rewrite orb_false_iff, !andb_false_iff, !Z.ltb_ge. lia.
Qed.

Lemma WillSubOverflow_spec a b : int64 a -> int64 b -> WillSubOverflow a b = false <-> int64 (a - b).
Proof.
  unfold int64, WillSubOverflow. intros Ha Hb. unfold kMinInt64, kMaxInt64 in *.
  rewrite orb_false_iff, !andb_false_iff, !Z.ltb_ge. lia.
Qed.

Section Boundaries.
Context `{Target} `{PointerMode}.

Definition smi (v : Z) : Prop := kSmiMin <= v <= kSmiMax.

Lemma kSmiBits_cases : kSmiBits = 30 \/ kSmiBits = 62.
Proof. unfold kSmiBits. destruct compressed_pointers; [by left|]. destruct XLEN_cases as [-> | ->]; lia. Qed.

Lemma smi_bounds : kMinInt64 < kSmiMin /\ kSmiMin < 0 < kSmiMax /\ kSmiMax < kMaxInt64 /\ kSmiMin = - (kSmiMax + 1) /\
  kSmiMax <= 2 ^ 62 - 1.
Proof. unfold kSmiMin, kSmiMax, kMinInt64, kMaxInt64. destruct kSmiBits_cases as [-> | ->]; vm_compute; done. Qed.

Lemma smi_int64 v : smi v -> int64 v.
Proof. unfold smi, int64. pose proof smi_bounds. lia. Qed.

Definition valid_offset (o : Z) : Prop := kMinInt64 - kSmiMin <= o <= kMaxInt64 - kSmiMax.

Lemma IsValidOffset_spec o : RangeBoundary.IsValidOffsetForSymbolicRangeBoundary o = true <-> valid_offset o.
Proof.
  unfold RangeBoundary.IsValidOffsetForSymbolicRangeBoundary, valid_offset. rewrite negb_true_iff, orb_false_iff, !Z.ltb_ge. lia.
Qed.

Lemma valid_offset_sum v o : smi v -> valid_offset o -> int64 (v + o).
Proof. unfold smi, valid_offset, int64. lia. Qed.

Lemma valid_offset_int64 o : valid_offset o -> int64 o.
Proof. unfold valid_offset, int64. pose proof smi_bounds. lia. Qed.

Lemma valid_offset_0 o : -1 <= o <= 1 -> valid_offset o.
Proof. unfold valid_offset. pose proof smi_bounds. unfold kMinInt64, kMaxInt64. lia. Qed.

Lemma IsSmi_spec v : int64 v -> RangeAnalysis.IsSmi v = true <-> smi v.
Proof.
  intros Hv. unfold RangeAnalysis.IsSmi, IsInt64Bits, smi, kSmiMin, kSmiMax.
  rewrite (proj2 (Z.leb_gt 64 _)) by (destruct kSmiBits_cases as [-> | ->]; lia). replace (kSmiBits + 1 - 1) with kSmiBits by lia.
  rewrite andb_true_iff, Z.leb_le, Z.ltb_lt. lia.
Qed.

Definition in_size (size : RangeSize) (v : Z) : Prop :=
  RangeBoundary.MinConstantValue size <= v <= RangeBoundary.MaxConstantValue size.

Lemma RangeSize_bounds size :
  kMinInt64 <= RangeBoundary.MinConstantValue size /\ RangeBoundary.MinConstantValue size < 0 < RangeBoundary.MaxConstantValue size /\
  RangeBoundary.MaxConstantValue size <= kMaxInt64.
Proof. pose proof smi_bounds. destruct size; cbn; unfold kMinInt64, kMaxInt64 in *; lia. Qed.

Lemma in_size_int64 size v : in_size size v -> int64 v.
Proof. unfold in_size, int64. pose proof (RangeSize_bounds size). lia. Qed.

(** ** Sums of constants *)

Lemma ConstantValue_Constant c : RangeBoundary.ConstantValue (Constant c) = Ok c.
Proof. unfold RangeBoundary.ConstantValue. by rewrite ASSERT_true. Qed.

Lemma Add_constants x y overflow :
  int64 x -> int64 y ->
  RangeBoundary.Add (Constant x) (Constant y) overflow = Ok (if WillAddOverflow x y then overflow else Constant (x + y)).
Proof.
  intros Hx Hy. unfold RangeBoundary.Add. cbn [RangeBoundary.IsInfinity RangeBoundary.IsNegativeInfinity RangeBoundary.IsPositiveInfinity orb].
  rewrite ASSERT_true by done. cbn [rbind]. rewrite !ConstantValue_Constant. cbn [rbind].
  destruct (WillAddOverflow x y) eqn:E; [done|]. apply WillAddOverflow_spec in E; [|done..]. by rewrite int64_op_ok.
Qed.

Lemma Sub_constants x y overflow :
  int64 x -> int64 y ->
  RangeBoundary.Sub (Constant x) (Constant y) overflow = Ok (if WillSubOverflow x y then overflow else Constant (x - y)).
Proof.
  intros Hx Hy. unfold RangeBoundary.Sub. cbn [RangeBoundary.IsInfinity RangeBoundary.IsNegativeInfinity RangeBoundary.IsPositiveInfinity orb].
  rewrite ASSERT_true by done. cbn [rbind]. rewrite !ConstantValue_Constant. cbn [rbind].
  destruct (WillSubOverflow x y) eqn:E; [done|]. apply WillSubOverflow_spec in E; [|done..]. by rewrite int64_op_ok.
Qed.

(** ** Constant estimates

    [low b v]: [b] is a constant at most [v], or -infinity; [high] likewise. *)

Inductive low : RangeBoundary -> Z -> Prop :=
| low_inf v : low NegativeInfinity v
| low_const c v : int64 c -> c <= v -> low (Constant c) v.

Inductive high : RangeBoundary -> Z -> Prop :=
| high_inf v : high PositiveInfinity v
| high_const c v : int64 c -> v <= c -> high (Constant c) v.

Lemma low_le b v w : low b v -> v <= w -> low b w.
Proof. destruct 1; constructor; (done || lia). Qed.
Lemma high_le b v w : high b v -> w <= v -> high b w.
Proof. destruct 1; constructor; (done || lia). Qed.

Lemma Clamp_constant size b :
  (b = NegativeInfinity \/ b = PositiveInfinity \/ exists c, b = Constant c) ->
  exists c, RangeBoundary.Clamp size b = Constant c /\ in_size size c.
Proof.
  pose proof (RangeSize_bounds size) as Hs. unfold in_size.
  intros [->|[->|[c ->]]]; cbn [RangeBoundary.Clamp]; [eexists; split; [done|]; lia..|].
  destruct (Z.leb_spec c (RangeBoundary.MinConstantValue size)); [eexists; split; [done|]; lia|].
  destruct (Z.leb_spec (RangeBoundary.MaxConstantValue size) c); eexists; (split; [done|]); lia.
Qed.

(** A lower estimate stays one under clamping, for values of the size. *)
Lemma Clamp_low size b v :
  low b v -> exists c, RangeBoundary.Clamp size b = Constant c /\ in_size size c /\
    (RangeBoundary.MinConstantValue size <= v -> c <= v).
Proof.
  intros Hl. destruct (Clamp_constant size b) as (c & E & Hc); [destruct Hl; eauto|]. exists c. split_and!; [done..|].
  intros Hv. destruct Hl as [v|d v Hd Hle]; cbn [RangeBoundary.Clamp] in E; [injection E as <-; lia|].
  pose proof (RangeSize_bounds size). destruct (Z.leb_spec d (RangeBoundary.MinConstantValue size)); [injection E as <-; lia|].
  destruct (Z.leb_spec (RangeBoundary.MaxConstantValue size) d); injection E as <-; lia.
Qed.

Lemma Clamp_high size b v :
  high b v -> exists c, RangeBoundary.Clamp size b = Constant c /\ in_size size c /\
    (v <= RangeBoundary.MaxConstantValue size -> v <= c).
Proof.
  intros Hl. destruct (Clamp_constant size b) as (c & E & Hc); [destruct Hl; eauto|]. exists c. split_and!; [done..|].
  intros Hv. destruct Hl as [v|d v Hd Hle]; cbn [RangeBoundary.Clamp] in E; [injection E as <-; lia|].
  pose proof (RangeSize_bounds size). destruct (Z.leb_spec d (RangeBoundary.MinConstantValue size)); [injection E as <-; lia|].
  destruct (Z.leb_spec (RangeBoundary.MaxConstantValue size) d); injection E as <-; lia.
Qed.

Lemma Add_low x y v : low (Constant x) v -> int64 y -> exists b, RangeBoundary.Add (Constant x) (Constant y) NegativeInfinity = Ok b /\ low b (v + y).
Proof.
  intros Hx Hy. inversion Hx as [|? ? Hx64 Hle]; subst. eexists. split; [by apply Add_constants|].
  destruct (WillAddOverflow x y) eqn:E; constructor; [|lia]. by apply WillAddOverflow_spec.
Qed.
Lemma Add_high x y v : high (Constant x) v -> int64 y -> exists b, RangeBoundary.Add (Constant x) (Constant y) PositiveInfinity = Ok b /\ high b (v + y).
Proof.
  intros Hx Hy. inversion Hx as [|? ? Hx64 Hle]; subst. eexists. split; [by apply Add_constants|].
  destruct (WillAddOverflow x y) eqn:E; constructor; [|lia]. by apply WillAddOverflow_spec.
Qed.

End Boundaries.

(** ** Executions *)

Section Denotation.
Context `{Target} `{PointerMode} (g : Graph) (ρ : Z -> Z) (rank : Z -> nat).

(** The value of a finite boundary. *)
Definition val (b : RangeBoundary) : Z := match b with Symbol d o => ρ d + o | Constant c => c | _ => 0 end.

Definition wf (b : RangeBoundary) : Prop :=
  match b with Symbol d o => smi (ρ d) /\ valid_offset o | Constant c => int64 c | _ => False end.

Definition range_ok (r : Range) : Prop := wf (min_ r) /\ wf (max_ r).
Definition contains (r : Range) (v : Z) : Prop := val (min_ r) <= v <= val (max_ r).

Definition rank_of (b : RangeBoundary) : nat := match b with Symbol d _ => S (rank d) | _ => O end.

(** The valuation is an execution of the graph's definitions, the ranges computed
    so far contain its values, and symbols have a rank. *)
Record executes (fuel : nat) : Prop := {
  ex_range : forall d r, range g d = Some r -> range_ok r /\ contains r (ρ d) /\
    (rank_of (min_ r) <= rank d)%nat /\ (rank_of (max_ r) <= rank d)%nat;
  ex_constant : forall d c, instr g d = ConstantInstr (Some c) -> ρ d = c /\ smi c;
  ex_constraint : forall d v, instr g d = ConstraintInstr v -> ρ d = ρ v /\ (rank v < rank d)%nat;
  ex_binary : forall d op l r, instr g d = BinarySmiOpInstr op l r -> op = kADD \/ op = kSUB ->
    ρ d = (match op with kADD => ρ l + ρ r | _ => ρ l - ρ r end) /\ smi (ρ l) /\ smi (ρ r) /\
    (rank l < rank d)%nat /\ (rank r < rank d)%nat /\ instr g l <> ConstantInstr None /\ instr g r <> ConstantInstr None;
  ex_redefined : forall d v, RedefinedValue g d = Some v -> ρ d = ρ v /\ (rank v < rank d)%nat;
  ex_equal : forall a b, EqualInstr g a b = true -> ρ a = ρ b;
  ex_length : forall d, IsArrayLength g d = true -> smi (ρ d);
  ex_fuel : forall d, (S (rank d) < fuel)%nat
}.

Lemma val_int64 b : wf b -> int64 (val b).
Proof. destruct b as [| | |d o|c]; cbn; try done. intros [? ?]. by apply valid_offset_sum. Qed.

Lemma wf_finite b : wf b -> RangeBoundary.IsInfinity b = false /\ RangeBoundary.IsUnknown b = false.
Proof. by destruct b. Qed.

Context (fuel : nat) (Hg : executes fuel).

(** ** Bounds *)

Lemma LowerBound_loop_spec k : forall b,
  wf b -> (rank_of b < k)%nat -> exists l, RangeBoundary.LowerBound_loop g k b = Ok l /\ low l (val b).
Proof.
  induction k as [|k IH]; intros b Hb Hk; [lia|]. destruct b as [| | |d o|c]; try done; cbn [RangeBoundary.LowerBound_loop].
  - destruct Hb as [Hs Ho]. cbn [RangeBoundary.IsInfinity RangeBoundary.IsNegativeInfinity RangeBoundary.IsPositiveInfinity RangeBoundary.IsConstant orb].
    unfold RangeBoundary.symbol. rewrite ASSERT_true by done. cbn [rbind RangeBoundary.offset val].
    assert (exists m, (match range g d with
                       | None => Ok (RangeBoundary.MinConstant kRangeBoundarySmi)
                       | Some r => let* l := RangeBoundary.LowerBound_loop g k (min_ r) in Ok (RangeBoundary.Clamp kRangeBoundarySmi l)
                       end) = Ok (Constant m) /\ low (Constant m) (ρ d)) as (m & -> & Hm).
    { destruct (range g d) as [r|] eqn:Er.
      - destruct (ex_range _ Hg d r Er) as ([Hmin _] & [Hc _] & Hr & _).
        destruct (IH (min_ r) Hmin) as (l & -> & Hl); [cbn in Hk; lia|]. cbn [rbind].
        destruct (Clamp_low kRangeBoundarySmi l (ρ d)) as (m & E & Hin & Hm); [by eapply low_le|]. rewrite E.
        exists m. split; [done|]. constructor; [by eapply in_size_int64|]. apply Hm. apply Hs.
      - exists kSmiMin. split; [done|]. constructor; [|apply Hs]. pose proof smi_bounds. unfold int64. lia. }
    cbn [rbind]. apply Add_low; [done|]. by apply valid_offset_int64.
  - exists (Constant c). split; [done|]. by constructor.
Qed.

Lemma UpperBound_loop_spec k : forall b,
  wf b -> (rank_of b < k)%nat -> exists u, RangeBoundary.UpperBound_loop g k b = Ok u /\ high u (val b).
Proof.
  induction k as [|k IH]; intros b Hb Hk; [lia|]. destruct b as [| | |d o|c]; try done; cbn [RangeBoundary.UpperBound_loop].
  - destruct Hb as [Hs Ho]. cbn [RangeBoundary.IsInfinity RangeBoundary.IsNegativeInfinity RangeBoundary.IsPositiveInfinity RangeBoundary.IsConstant orb].
    unfold RangeBoundary.symbol. rewrite ASSERT_true by done. cbn [rbind RangeBoundary.offset val].
    assert (exists m, (match range g d with
                       | None => Ok (RangeBoundary.MaxConstant kRangeBoundarySmi)
                       | Some r => let* u := RangeBoundary.UpperBound_loop g k (max_ r) in Ok (RangeBoundary.Clamp kRangeBoundarySmi u)
                       end) = Ok (Constant m) /\ high (Constant m) (ρ d)) as (m & -> & Hm).
    { destruct (range g d) as [r|] eqn:Er.
      - destruct (ex_range _ Hg d r Er) as ([_ Hmax] & [_ Hc] & _ & Hr).
        destruct (IH (max_ r) Hmax) as (u & -> & Hu); [cbn in Hk; lia|]. cbn [rbind].
        destruct (Clamp_high kRangeBoundarySmi u (ρ d)) as (m & E & Hin & Hm); [by eapply high_le|]. rewrite E.
        exists m. split; [done|]. constructor; [by eapply in_size_int64|]. apply Hm. apply Hs.
      - exists kSmiMax. split; [done|]. constructor; [|apply Hs]. pose proof smi_bounds. unfold int64. lia. }
    cbn [rbind]. apply Add_high; [done|]. by apply valid_offset_int64.
  - exists (Constant c). split; [done|]. by constructor.
Qed.

Lemma rank_of_fuel b : (rank_of b < fuel)%nat.
Proof. destruct b as [| | |d o|c]; cbn; try (pose proof (ex_fuel _ Hg 0); lia). apply (ex_fuel _ Hg). Qed.

Lemma LowerBound_spec b : wf b -> exists l, RangeBoundary.LowerBound g fuel b = Ok l /\ low l (val b).
Proof. intros Hb. apply LowerBound_loop_spec; [done|]. apply rank_of_fuel. Qed.
Lemma UpperBound_spec b : wf b -> exists u, RangeBoundary.UpperBound g fuel b = Ok u /\ high u (val b).
Proof. intros Hb. apply UpperBound_loop_spec; [done|]. apply rank_of_fuel. Qed.

(** The bounds cut to a size. *)
Lemma LowerBoundOf_spec size b :
  wf b -> exists c, RangeBoundary.LowerBoundOf g fuel size b = Ok c /\ in_size size c /\
    (forall v, val b <= v -> RangeBoundary.MinConstantValue size <= v -> c <= v).
Proof.
  intros Hb. destruct (LowerBound_spec b Hb) as (l & E & Hl). unfold RangeBoundary.LowerBoundOf. rewrite E. cbn [rbind].
  destruct (Clamp_constant size l) as (c & Ec & Hin); [destruct Hl; eauto|]. rewrite Ec, ConstantValue_Constant. exists c.
  split_and!; [done..|]. intros v Hv Hs. destruct (Clamp_low size l v) as (c' & Ec' & _ & Hc); [by eapply low_le|].
  rewrite Ec in Ec'. injection Ec' as <-. auto.
Qed.
Lemma UpperBoundOf_spec size b :
  wf b -> exists c, RangeBoundary.UpperBoundOf g fuel size b = Ok c /\ in_size size c /\
    (forall v, v <= val b -> v <= RangeBoundary.MaxConstantValue size -> v <= c).
Proof.
  intros Hb. destruct (UpperBound_spec b Hb) as (l & E & Hl). unfold RangeBoundary.UpperBoundOf. rewrite E. cbn [rbind].
  destruct (Clamp_constant size l) as (c & Ec & Hin); [destruct Hl; eauto|]. rewrite Ec, ConstantValue_Constant. exists c.
  split_and!; [done..|]. intros v Hv Hs. destruct (Clamp_high size l v) as (c' & Ec' & _ & Hc); [by eapply high_le|].
  rewrite Ec in Ec'. injection Ec' as <-. auto.
Qed.

(** ** Symbols *)

Lemma UnwrapConstraint_loop_spec k : forall d,
  (rank d < k)%nat -> exists u, RangeBoundary.UnwrapConstraint_loop g k d = Ok u /\ ρ u = ρ d /\ (rank u <= rank d)%nat.
Proof.
  induction k as [|k IH]; intros d Hd; [lia|]. cbn [RangeBoundary.UnwrapConstraint_loop].
  destruct (instr g d) as [|v| |] eqn:E; [by exists d| |by exists d..].
  destruct (ex_constraint _ Hg d v E) as [Ev Hv]. destruct (IH v) as (u & -> & Eu & Hu); [lia|]. exists u.
  split_and!; [done|by rewrite Eu|lia].
Qed.

Lemma UnwrapConstraint_spec d :
  exists u, RangeBoundary.UnwrapConstraint g fuel d = Ok u /\ ρ u = ρ d /\ (rank u <= rank d)%nat.
Proof. apply UnwrapConstraint_loop_spec. pose proof (ex_fuel _ Hg d). lia. Qed.

Lemma DependOnSameSymbol_spec a b :
  exists e, RangeBoundary.DependOnSameSymbol g fuel a b = Ok e /\
    (e = true -> exists s t o o', a = Symbol s o /\ b = Symbol t o' /\ ρ s = ρ t).
Proof.
  destruct a as [| | |s o|c]; try (by exists false). destruct b as [| | |t o'|c]; try (by exists false).
  cbn [RangeBoundary.DependOnSameSymbol]. unfold RangeBoundary.AreEqualDefinitions.
  destruct (UnwrapConstraint_spec s) as (u & -> & Eu & _). destruct (UnwrapConstraint_spec t) as (w & -> & Ew & _). cbn [rbind].
  eexists. split; [done|]. intros [E%Z.eqb_eq|E]%orb_true_iff; exists s, t, o, o'; (split_and!; [done..|]).
  - congruence.
  - apply (ex_equal _ Hg) in E. congruence.
Qed.

Lemma Equals_spec a b : exists e, RangeBoundary.Equals g fuel a b = Ok e /\ (e = true -> val a = val b).
Proof.
  destruct a as [| | |s o|c], b as [| | |t o'|c']; try (by exists false); try (by exists true);
    [|exists (c =? c'); split; [done|]; cbn; apply Z.eqb_eq].
  cbn [RangeBoundary.Equals]. destruct (Z.eqb_spec o o') as [<-|]; [|by exists false].
  destruct (DependOnSameSymbol_spec (Symbol s o) (Symbol t o)) as (e & E & He). exists e. split; [done|].
  intros Ht. destruct (He Ht) as (s' & t' & x & y & E1 & E2 & Eq). injection E1 as <- <-. injection E2 as <- <-. cbn. lia.
Qed.

Lemma Overflowed_constant size c :
  RangeBoundary.Overflowed g fuel size (Constant c) = Ok (negb (bool_decide (in_size size c))).
Proof.
  unfold RangeBoundary.Overflowed. rewrite ASSERT_true by done. pose proof (RangeSize_bounds size) as Hs.
  cbn [rbind RangeBoundary.Clamp]. destruct (Z.leb_spec c (RangeBoundary.MinConstantValue size)) as [Hl|Hl].
  - cbn. do 2 f_equal. apply eq_true_iff_eq. rewrite Z.eqb_eq, bool_decide_eq_true. unfold in_size. lia.
  - destruct (Z.leb_spec (RangeBoundary.MaxConstantValue size) c); cbn; do 2 f_equal; apply eq_true_iff_eq;
      rewrite Z.eqb_eq, bool_decide_eq_true; unfold in_size; lia.
Qed.

Lemma Overflowed_estimate size b v :
  low b v \/ high b v ->
  exists o, RangeBoundary.Overflowed g fuel size b = Ok o /\ (o = false -> exists c, b = Constant c /\ in_size size c).
Proof.
  intros [[w|c w Hc _]|[w|c w Hc _]]; try (rewrite Overflowed_constant; eexists; split; [done|];
    intros E%negb_false_iff%bool_decide_eq_true; by exists c).
  - exists true. split; [|done]. unfold RangeBoundary.Overflowed. by rewrite ASSERT_true.
  - exists true. split; [|done]. unfold RangeBoundary.Overflowed. by rewrite ASSERT_true.
Qed.

Lemma FromDefinition_spec d o :
  smi (ρ d) -> valid_offset o ->
  exists b, RangeBoundary.FromDefinition g d o = Ok b /\ wf b /\ val b = ρ d + o /\ (rank_of b <= S (rank d))%nat.
Proof.
  intros Hs Ho. unfold RangeBoundary.FromDefinition.
  destruct (instr g d) as [[c|]|v|op l r|] eqn:E.
  { destruct (ex_constant _ Hg d c E) as [Ec Hc]. rewrite <- Ec in *. pose proof (valid_offset_sum _ _ Hs Ho).
    rewrite int64_op_ok by done. eexists. split; [done|]. split_and!; [done..|cbn; lia]. }
  all: rewrite ASSERT_true by (by apply IsValidOffset_spec); eexists; (split; [done|]); by split_and!.
Qed.

End Denotation.
