(* ===== verification/RangeJoin.v ===== *)
(** * RangeJoin: joins and intersections of boundaries are estimates

    Canonical forms replace a symbol by the operands of its definition or by a
    boundary of its range; they keep the value, or move it to the side of the
    boundary.  Minima and maxima are proved together: [R] is the order on the
    side of the boundary. *)

From stdpp Require Import base numbers list.
From Stdlib Require Import Lia.
From S2P Require Import Prelude Constants RangeAnalysis RangeSpec.

#[local] Open Scope Z_scope.
#[local] Open Scope res_scope.

Section Canonical.
Context `{Target} `{PointerMode} (g : Graph) (ρ : Z -> Z) (rank : Z -> nat) (fuel : nat) (Hg : executes g ρ rank fuel).

Notation val := (val ρ).
Notation wf := (wf ρ).
Notation rank_of := (rank_of rank).

Lemma SmiCast_spec d c :
  instr g d = ConstantInstr c -> instr g d <> ConstantInstr None ->
  RangeBoundary.SmiCast c = Ok (ρ d) /\ smi (ρ d).
Proof.
  intros E Hn. destruct c as [c|]; [|congruence]. destruct (ex_constant _ _ _ _ Hg d c E) as [-> ?].
  split; [|done]. unfold RangeBoundary.SmiCast. by rewrite ASSERT_true by (by apply bool_decide_eq_true).
Qed.

Definition same_value (s o : Z) (r : option (Z * Z)) : Prop :=
  match r with
  | None => True
  | Some (s', o') => smi (ρ s') /\ int64 o' /\ ρ s' + o' = ρ s + o /\ (rank s' <= rank s)%nat
  end.

Lemma same_value_step s o s' o' r :
  ρ s' + o' = ρ s + o -> (rank s' <= rank s)%nat -> same_value s' o' r -> same_value s o r.
Proof. intros E Hr. destruct r as [[t p]|]; [|done]. intros (? & ? & E' & ?). split_and!; [done|done|lia|lia]. Qed.

(** One step over an operation with a constant operand. *)
Lemma canonical_add k s o t c d :
  (forall o', int64 o' -> exists r, RangeBoundary.canonical_symbol g k t o' = Ok r /\ same_value t o' r) ->
  instr g d = ConstantInstr c -> instr g d <> ConstantInstr None -> int64 o ->
  ρ s = ρ t + ρ d -> (rank t <= rank s)%nat ->
  exists r, (let* rhs := RangeBoundary.SmiCast c in
             if WillAddOverflow o rhs then Ok None
             else let* offset := int64_op (o + rhs) in RangeBoundary.canonical_symbol g k t offset) = Ok r /\ same_value s o r.
Proof.
  intros IH Ec Hn Ho Es Hr. destruct (SmiCast_spec d c Ec Hn) as [-> Hs]. cbn [rbind]. apply smi_int64 in Hs.
  destruct (WillAddOverflow o (ρ d)) eqn:E; [by eexists|]. apply WillAddOverflow_spec in E; [|done..].
  rewrite int64_op_ok by done. cbn [rbind]. destruct (IH _ E) as (r & -> & Hv). exists r. split; [done|].
  eapply same_value_step; [|done|done]. lia.
Qed.

Lemma canonical_sub k s o t c d :
  (forall o', int64 o' -> exists r, RangeBoundary.canonical_symbol g k t o' = Ok r /\ same_value t o' r) ->
  instr g d = ConstantInstr c -> instr g d <> ConstantInstr None -> int64 o ->
  ρ s = ρ t - ρ d -> (rank t <= rank s)%nat ->
  exists r, (let* rhs := RangeBoundary.SmiCast c in
             if WillSubOverflow o rhs then Ok None
             else let* offset := int64_op (o - rhs) in RangeBoundary.canonical_symbol g k t offset) = Ok r /\ same_value s o r.
Proof.
  intros IH Ec Hn Ho Es Hr. destruct (SmiCast_spec d c Ec Hn) as [-> Hs]. cbn [rbind]. apply smi_int64 in Hs.
  destruct (WillSubOverflow o (ρ d)) eqn:E; [by eexists|]. apply WillSubOverflow_spec in E; [|done..].
  rewrite int64_op_ok by done. cbn [rbind]. destruct (IH _ E) as (r & -> & Hv). exists r. split; [done|].
  eapply same_value_step; [|done|done]. lia.
Qed.

Lemma canonical_symbol_spec k : forall s o,
  smi (ρ s) -> int64 o -> (rank s < k)%nat ->
  exists r, RangeBoundary.canonical_symbol g k s o = Ok r /\ same_value s o r.
Proof.
  induction k as [|k IH]; intros s o Hs Ho Hk; [lia|]. cbn [RangeBoundary.canonical_symbol].
  assert (exists r, Ok (Some (s, o)) = Ok r /\ same_value s o r) as Hstop by (eexists; by split_and!).
  destruct (instr g s) as [|v|op l r|] eqn:E; [done| | |done].
  - destruct (ex_constraint _ _ _ _ Hg s v E) as [Ev Hv]. rewrite Ev in Hs.
    destruct (IH v o Hs Ho) as (r & -> & Hr); [lia|]. exists r. split; [done|]. eapply same_value_step; [|by apply Nat.lt_le_incl|done]. lia.
  - destruct op; try done;
      (edestruct (ex_binary _ _ _ _ Hg s _ l r E) as (Es & Hl & Hr & Rl & Rr & Nl & Nr); [tauto|]); cbn in Es.
    + destruct (instr g r) as [c| | |] eqn:Er.
      1: { apply (canonical_add k s o l c r); try (done || lia || congruence). intros o' Ho'. apply IH; (done || lia). }
      all: destruct (instr g l) as [c| | |] eqn:El; try done.
      all: apply (canonical_add k s o r c l); try (done || lia || congruence); intros o' Ho'; apply IH; (done || lia).
    + destruct (instr g r) as [c| | |] eqn:Er; try done.
      apply (canonical_sub k s o l c r); try (done || lia || congruence). intros o' Ho'. apply IH; (done || lia).
Qed.

(** A canonical boundary has the same value, or is the overflow given. *)
Lemma CanonicalizeBoundary_spec a overflow :
  wf a -> RangeBoundary.IsInfinity overflow = true ->
  exists c, RangeBoundary.CanonicalizeBoundary g fuel a overflow = Ok c /\
    (c = overflow \/ wf c /\ val c = val a) /\ (rank_of c <= rank_of a)%nat.
Proof.
  intros Ha Hov. assert (rank_of overflow = 0%nat) as Hov0 by (by destruct overflow).
  destruct a as [| | |s o|c]; try done; [|exists (Constant c); by split_and!; [|right|]].
  destruct Ha as [Hs Ho]. unfold RangeBoundary.CanonicalizeBoundary, RangeBoundary.symbol.
  cbn [RangeBoundary.IsConstant RangeBoundary.IsInfinity RangeBoundary.IsNegativeInfinity RangeBoundary.IsPositiveInfinity orb RangeBoundary.offset].
  rewrite ASSERT_true by done. cbn [rbind].
  destruct (canonical_symbol_spec fuel s o) as (r & -> & Hr); [done|by apply valid_offset_int64|pose proof (ex_fuel _ _ _ _ Hg s); lia|].
  cbn [rbind]. destruct r as [[t p]|]; [|exists overflow; split_and!; [done|by left|cbn; lia]].
  destruct Hr as (Ht & Hp & E & Hrk).
  destruct (RangeBoundary.IsValidOffsetForSymbolicRangeBoundary p) eqn:Ev; cbn [negb]; [|exists overflow; split_and!; [done|by left|cbn; lia]].
  apply IsValidOffset_spec in Ev. destruct (FromDefinition_spec g ρ rank fuel Hg t p Ht Ev) as (b & -> & Hb & Eb & Hbr).
  exists b. split_and!; [done|right; split; [done|cbn; lia]|cbn; lia].
Qed.

(** ** One side *)

Section Side.
Context (bound : Range -> RangeBoundary) (overflow : RangeBoundary) (R : Z -> Z -> Prop) `{!PreOrder R}
  (Hov : RangeBoundary.IsInfinity overflow = true)
  (HR : forall x y z, R x y -> R (x + z) (y + z))
  (Hbound : forall d r, range g d = Some r -> wf (bound r) /\ R (val (bound r)) (ρ d) /\ (rank_of (bound r) <= rank d)%nat).

(** An estimate of [v] on this side. *)
Definition est (b : RangeBoundary) (v : Z) : Prop := b = overflow \/ wf b /\ R (val b) v.

Lemma est_self b : wf b -> est b (val b).
Proof. intros Hb. right. split; [done|]. reflexivity. Qed.

Lemma est_trans b v w : est b v -> R v w -> est b w.
Proof. intros [->|[Hb Hv]] Hw; [by left|]. right. split; [done|]. by etrans. Qed.

(** A symbol may stand for any value here: what replaces it is a Smi. *)
Lemma CanonicalizeWith_symbol s o :
  valid_offset o -> exists r, RangeBoundary.CanonicalizeWith g fuel bound overflow (Symbol s o) = Ok r /\
    match r with None => True | Some c => est c (ρ s + o) /\ (rank_of c < S (rank s))%nat end.
Proof.
  intros Ho. assert (rank_of overflow = 0%nat) as Hov0 by (by destruct overflow).
  cbn [RangeBoundary.CanonicalizeWith]. destruct (range g s) as [r|] eqn:Er; [|by exists None].
  destruct (Hbound s r Er) as (Hw & HRv & Hrk). destruct (bound r) as [| | |t o'|c] eqn:Eb; try (by exists None).
  destruct Hw as [Ht Ho']. cbn in HRv, Hrk.
  assert (exists x, Ok (Some overflow) = Ok x /\
    match x with None => True | Some c => est c (ρ s + o) /\ (rank_of c < S (rank s))%nat end) as Hstop
    by (exists (Some overflow); split; [done|]; split; [by left|lia]).
  destruct (WillAddOverflow o' o) eqn:Ew; [done|].
  apply WillAddOverflow_spec in Ew; [|by apply valid_offset_int64..]. rewrite int64_op_ok by done. cbn [rbind].
  destruct (RangeBoundary.IsValidOffsetForSymbolicRangeBoundary (o' + o)) eqn:Ev; cbn [negb]; [|done].
  apply IsValidOffset_spec in Ev. destruct (FromDefinition_spec g ρ rank fuel Hg t _ Ht Ev) as (b & -> & Hb & Eb' & Hbr). cbn [rbind].
  destruct (CanonicalizeBoundary_spec b overflow Hb Hov) as (c & -> & Hc & Hcr). cbn [rbind]. exists (Some c).
  split; [done|]. split; [|lia]. destruct Hc as [->|[Hc Ec]]; [by left|]. right. split; [done|].
  rewrite Ec, Eb', Z.add_assoc. by apply HR.
Qed.

Lemma CanonicalizeWith_spec a :
  wf a -> exists r, RangeBoundary.CanonicalizeWith g fuel bound overflow a = Ok r /\
    match r with None => True | Some c => est c (val a) /\ (rank_of c < rank_of a)%nat end.
Proof. intros Ha. destruct a as [| | |s o|c]; try done; [|by exists None]. apply CanonicalizeWith_symbol, Ha. Qed.

Lemma CanonicalizeWith_est a v :
  est a v -> exists r, RangeBoundary.CanonicalizeWith g fuel bound overflow a = Ok r /\
    match r with None => True | Some c => est c v /\ (rank_of c < rank_of a)%nat end.
Proof.
  intros [->|[Ha Hv]]; [exists None; by destruct overflow|].
  destruct (CanonicalizeWith_spec a Ha) as (r & -> & Hr). exists r. split; [done|]. destruct r as [c|]; [|done].
  destruct Hr as [Hc ?]. split; [|done]. by eapply est_trans.
Qed.

(** The boundaries that [CanonicalizeForComparison] leaves: over one symbol. *)
Definition comparable (a b : RangeBoundary) : Prop :=
  exists s t o o', a = Symbol s o /\ b = Symbol t o' /\ ρ s = ρ t.

Lemma comparable_offsets a b :
  comparable a b -> val a - val b = RangeBoundary.offset a - RangeBoundary.offset b.
Proof. intros (s & t & o & o' & -> & -> & E). cbn. lia. Qed.

Definition compared (va vb : Z) (n : nat) (r : option (RangeBoundary * RangeBoundary)) : Prop :=
  match r with
  | None => True
  | Some (a, b) => (wf a /\ R (val a) va) /\ (wf b /\ R (val b) vb) /\ comparable a b /\ (rank_of a <= n /\ rank_of b <= n)%nat
  end.

Lemma est_symbol s o v : est (Symbol s o) v -> wf (Symbol s o) /\ R (val (Symbol s o)) v.
Proof. intros [E|]; [|done]. rewrite <- E in Hov. done. Qed.

Lemma compare_loop_spec n k : forall a b va vb,
  est a va -> est b vb -> (rank_of a + rank_of b < k)%nat -> (rank_of a <= n)%nat -> (rank_of b <= n)%nat ->
  exists r, RangeBoundary.compare_loop g fuel k (RangeBoundary.CanonicalizeWith g fuel bound overflow) a b = Ok r /\
    compared va vb n r.
Proof.
  induction k as [|k IH]; intros a b va vb Ha Hb Hk Hna Hnb; [lia|]. cbn [RangeBoundary.compare_loop].
  destruct (DependOnSameSymbol_spec g ρ rank fuel Hg a b) as (e & -> & He). cbn [rbind]. destruct e.
  { eexists. split; [done|]. destruct (He eq_refl) as (s & t & o & o' & -> & -> & Est).
    split; [by apply est_symbol|]. split; [by apply est_symbol|]. split; [by exists s, t, o, o'|done]. }
  destruct (CanonicalizeWith_est a va Ha) as (ra & -> & Hra). cbn [rbind]. destruct ra as [a'|].
  { destruct Hra as [Ha' Hr]. apply IH; (done || lia). }
  destruct (CanonicalizeWith_est b vb Hb) as (rb & -> & Hrb). cbn [rbind]. destruct rb as [b'|]; [|by exists None].
  destruct Hrb as [Hb' Hr]. apply IH; (done || lia).
Qed.

Lemma CanonicalizeForComparison_spec a b :
  wf a -> wf b ->
  exists r, RangeBoundary.CanonicalizeForComparison g fuel a b (RangeBoundary.CanonicalizeWith g fuel bound overflow) = Ok r /\
    compared (val a) (val b) (Nat.max (rank_of a) (rank_of b)) r.
Proof.
  intros Ha Hb. unfold RangeBoundary.CanonicalizeForComparison. destruct (_ || _); [by exists None|].
  pose proof (rank_of_fuel g ρ rank fuel Hg a). pose proof (rank_of_fuel g ρ rank fuel Hg b).
  apply compare_loop_spec; try by apply est_self. all: lia.
Qed.

End Side.

(** ** Minima and maxima *)

Lemma CompareMin_spec a b :
  wf a -> wf b ->
  exists r, RangeBoundary.CanonicalizeForComparison g fuel a b (RangeBoundary.CanonicalizeMinBoundary g fuel) = Ok r /\
    compared Z.le (val a) (val b) (Nat.max (rank_of a) (rank_of b)) r.
Proof.
  intros Ha Hb. apply (CanonicalizeForComparison_spec min_ NegativeInfinity Z.le); try done; [intros; lia|].
  intros d r Er. destruct (ex_range _ _ _ _ Hg d r Er) as ([? ?] & [? ?] & ? & ?). done.
Qed.

Lemma CompareMax_spec a b :
  wf a -> wf b ->
  exists r, RangeBoundary.CanonicalizeForComparison g fuel a b (RangeBoundary.CanonicalizeMaxBoundary g fuel) = Ok r /\
    compared (flip Z.le) (val a) (val b) (Nat.max (rank_of a) (rank_of b)) r.
Proof.
  intros Ha Hb. apply (CanonicalizeForComparison_spec max_ PositiveInfinity (flip Z.le)); try done; [unfold flip; intros; lia|].
  intros d r Er. destruct (ex_range _ _ _ _ Hg d r Er) as ([? ?] & [? ?] & ? & ?). done.
Qed.

Lemma CanonicalizeMax_spec a v :
  est PositiveInfinity (flip Z.le) a v ->
  exists r, RangeBoundary.CanonicalizeMaxBoundary g fuel a = Ok r /\
    match r with None => True | Some c => est PositiveInfinity (flip Z.le) c v /\ (rank_of c < rank_of a)%nat end.
Proof.
  intros Ha. apply (CanonicalizeWith_est max_ PositiveInfinity (flip Z.le)); try done; [unfold flip; intros; lia|].
  intros d r Er. destruct (ex_range _ _ _ _ Hg d r Er) as ([? ?] & [? ?] & ? & ?). done.
Qed.

Lemma CanonicalizeMax_symbol s o :
  valid_offset o ->
  exists r, RangeBoundary.CanonicalizeMaxBoundary g fuel (Symbol s o) = Ok r /\
    match r with None => True | Some c => est PositiveInfinity (flip Z.le) c (ρ s + o) /\ (rank_of c < S (rank s))%nat end.
Proof.
  intros Ho. apply (CanonicalizeWith_symbol max_ PositiveInfinity (flip Z.le)); try done; [unfold flip; intros; lia|].
  intros d r Er. destruct (ex_range _ _ _ _ Hg d r Er) as ([? ?] & [? ?] & ? & ?). done.
Qed.

Lemma CanonicalizeMin_spec a v :
  est NegativeInfinity Z.le a v ->
  exists r, RangeBoundary.CanonicalizeMinBoundary g fuel a = Ok r /\
    match r with None => True | Some c => est NegativeInfinity Z.le c v /\ (rank_of c < rank_of a)%nat end.
Proof.
  intros Ha. apply (CanonicalizeWith_est min_ NegativeInfinity Z.le); try done; [intros; lia|].
  intros d r Er. destruct (ex_range _ _ _ _ Hg d r Er) as ([? ?] & [? ?] & ? & ?). done.
Qed.

(** ** Join *)

Notation MinOf := RangeBoundary.MinConstantValue.
Notation MaxOf := RangeBoundary.MaxConstantValue.

(** The lower bound of a boundary does not overflow the size. *)
Lemma take_lower size b :
  wf b -> exists o, (let* l := RangeBoundary.LowerBound g fuel b in
                     let* o := RangeBoundary.Overflowed g fuel size l in Ok (negb o)) = Ok o.
Proof.
  intros Hb. destruct (LowerBound_spec g ρ rank fuel Hg b Hb) as (l & -> & Hl). cbn [rbind].
  destruct (Overflowed_estimate g fuel size l (val b)) as (o & -> & _); [by left|]. by eexists.
Qed.
Lemma take_upper size b :
  wf b -> exists o, (let* u := RangeBoundary.UpperBound g fuel b in
                     let* o := RangeBoundary.Overflowed g fuel size u in Ok (negb o)) = Ok o.
Proof.
  intros Hb. destruct (UpperBound_spec g ρ rank fuel Hg b Hb) as (u & -> & Hu). cbn [rbind].
  destruct (Overflowed_estimate g fuel size u (val b)) as (o & -> & _); [by right|]. by eexists.
Qed.

(** Below every value of the size that one of the boundaries allows. *)
Definition joins_min (size : RangeSize) (a b r : RangeBoundary) : Prop :=
  wf r /\ (rank_of r <= Nat.max (rank_of a) (rank_of b))%nat /\
  (forall v, val a <= v \/ val b <= v -> MinOf size <= v -> val r <= v).
Definition joins_max (size : RangeSize) (a b r : RangeBoundary) : Prop :=
  wf r /\ (rank_of r <= Nat.max (rank_of a) (rank_of b))%nat /\
  (forall v, v <= val a \/ v <= val b -> v <= MaxOf size -> v <= val r).

Lemma JoinMin_sound a b size :
  wf a -> wf b -> val a <= MaxOf size -> val b <= MaxOf size ->
  exists r, RangeBoundary.JoinMin g fuel a b size = Ok r /\ joins_min size a b r.
Proof.
  intros Ha Hb Hma Hmb. unfold RangeBoundary.JoinMin.
  destruct (Equals_spec g ρ rank fuel Hg a b) as (e & -> & He). cbn [rbind]. destruct e.
  { exists b. split; [done|]. specialize (He eq_refl). split_and!; [done|lia|intros; lia]. }
  destruct (CompareMin_spec a b Ha Hb) as (c & -> & Hc). cbn [rbind]. destruct c as [[a' b']|].
  { destruct Hc as ([Ha' La] & [Hb' Lb] & Hcmp & Ra & Rb). pose proof (comparable_offsets a' b' Hcmp).
    destruct (Z.leb_spec (RangeBoundary.offset a') (RangeBoundary.offset b')); eexists; (split; [done|]);
      (split_and!; [done|lia|intros; lia]). }
  destruct (LowerBoundOf_spec g ρ rank fuel Hg size a Ha) as (ia & -> & Ia & Hia).
  destruct (LowerBoundOf_spec g ρ rank fuel Hg size b Hb) as (ib & -> & Ib & Hib).
  destruct (UpperBoundOf_spec g ρ rank fuel Hg size a Ha) as (sa & -> & _ & Hsa).
  destruct (UpperBoundOf_spec g ρ rank fuel Hg size b Hb) as (sb & -> & _ & Hsb). cbn [rbind].
  destruct (take_lower size a Ha) as (oa & ->). destruct (take_lower size b Hb) as (ob & ->).
  specialize (Hsa (val a)). specialize (Hsb (val b)). apply in_size_int64 in Ia as Ia64. apply in_size_int64 in Ib as Ib64.
  assert (forall v, MinOf size <= v -> (val a <= v -> ia <= v) /\ (val b <= v -> ib <= v)) as Hv by auto.
  destruct (Z.leb_spec sa ib); [destruct oa|]; cbn [rbind]; [eexists; (split; [done|]); split_and!; [done|lia|]|..].
  { intros v Hor Hm. specialize (Hv v Hm). lia. }
  all: (destruct (Z.leb_spec sb ia); [destruct ob|]); cbn [rbind]; eexists; (split; [done|]); (split; [|split; [cbn; lia|intros v Hor Hm; specialize (Hv v Hm)]]).
  all: try done; try (cbn; lia). all: cbn; unfold int64 in *; lia.
Qed.

Lemma JoinMax_sound a b size :
  wf a -> wf b -> MinOf size <= val a -> MinOf size <= val b ->
  exists r, RangeBoundary.JoinMax g fuel a b size = Ok r /\ joins_max size a b r.
Proof.
  intros Ha Hb Hma Hmb. unfold RangeBoundary.JoinMax.
  destruct (Equals_spec g ρ rank fuel Hg a b) as (e & -> & He). cbn [rbind]. destruct e.
  { exists b. split; [done|]. specialize (He eq_refl). split_and!; [done|lia|intros; lia]. }
  destruct (CompareMax_spec a b Ha Hb) as (c & -> & Hc). cbn [rbind]. destruct c as [[a' b']|].
  { destruct Hc as ([Ha' La] & [Hb' Lb] & Hcmp & Ra & Rb). unfold flip in *. pose proof (comparable_offsets a' b' Hcmp).
    destruct (Z.leb_spec (RangeBoundary.offset b') (RangeBoundary.offset a')); eexists; (split; [done|]);
      (split_and!; [done|lia|intros; lia]). }
  destruct (LowerBoundOf_spec g ρ rank fuel Hg size a Ha) as (ia & -> & _ & Hia).
  destruct (LowerBoundOf_spec g ρ rank fuel Hg size b Hb) as (ib & -> & _ & Hib).
  destruct (UpperBoundOf_spec g ρ rank fuel Hg size a Ha) as (sa & -> & Ia & Hsa).
  destruct (UpperBoundOf_spec g ρ rank fuel Hg size b Hb) as (sb & -> & Ib & Hsb). cbn [rbind].
  destruct (take_upper size a Ha) as (oa & ->). destruct (take_upper size b Hb) as (ob & ->).
  specialize (Hia (val a)). specialize (Hib (val b)). apply in_size_int64 in Ia as Ia64. apply in_size_int64 in Ib as Ib64.
  assert (forall v, v <= MaxOf size -> (v <= val a -> v <= sa) /\ (v <= val b -> v <= sb)) as Hv by auto.
  destruct (Z.leb_spec sa ib); [destruct ob|]; cbn [rbind]; [eexists; (split; [done|]); split_and!; [done|lia|]|..].
  { intros v Hor Hm. specialize (Hv v Hm). lia. }
  all: (destruct (Z.leb_spec sb ia); [destruct oa|]); cbn [rbind]; eexists; (split; [done|]); (split; [|split; [cbn; lia|intros v Hor Hm; specialize (Hv v Hm)]]).
  all: try done; try (cbn; lia). all: cbn; unfold int64 in *; lia.
Qed.

(** ** Intersection *)

Lemma IntersectionMin_sound a b :
  wf a -> wf b ->
  exists r, RangeBoundary.IntersectionMin g fuel a b = Ok r /\ wf r /\ (rank_of r <= Nat.max (rank_of a) (rank_of b))%nat /\
    (forall v, val a <= v -> val b <= v -> val r <= v).
Proof.
  intros Ha Hb. unfold RangeBoundary.IntersectionMin. rewrite !ASSERT_true by (by destruct a, b).
  destruct (Equals_spec g ρ rank fuel Hg a b) as (e & -> & He). cbn [rbind]. destruct e; [exists a; split_and!; (done || lia || auto)|].
  destruct (RangeBoundary.IsMinimumOrBelow _ a); [exists b; split_and!; (done || lia || auto)|].
  destruct (RangeBoundary.IsMinimumOrBelow _ b); [exists a; split_and!; (done || lia || auto)|].
  destruct (CompareMin_spec a b Ha Hb) as (c & -> & Hc). cbn [rbind]. destruct c as [[a' b']|].
  { destruct Hc as ([Ha' La] & [Hb' Lb] & Hcmp & Ra & Rb). destruct (_ <=? _); eexists; (split; [done|]); (split_and!; [done|lia|intros; lia]). }
  unfold RangeBoundary.SmiLowerBound. destruct (LowerBoundOf_spec g ρ rank fuel Hg kRangeBoundarySmi a Ha) as (ia & -> & _).
  destruct (LowerBoundOf_spec g ρ rank fuel Hg kRangeBoundarySmi b Hb) as (ib & -> & _). cbn [rbind].
  destruct (_ <=? _); eexists; (split; [done|]); (split_and!; [done|lia|auto]).
Qed.

Lemma IntersectionMax_sound a b :
  wf a -> wf b ->
  exists r, RangeBoundary.IntersectionMax g fuel a b = Ok r /\ wf r /\ (rank_of r <= Nat.max (rank_of a) (rank_of b))%nat /\
    (forall v, v <= val a -> v <= val b -> v <= val r).
Proof.
  intros Ha Hb. unfold RangeBoundary.IntersectionMax. rewrite !ASSERT_true by (by destruct a, b).
  destruct (Equals_spec g ρ rank fuel Hg a b) as (e & -> & He). cbn [rbind]. destruct e; [exists a; split_and!; (done || lia || auto)|].
  destruct (RangeBoundary.IsMaximumOrAbove _ a); [exists b; split_and!; (done || lia || auto)|].
  destruct (RangeBoundary.IsMaximumOrAbove _ b); [exists a; split_and!; (done || lia || auto)|].
  destruct (CompareMax_spec a b Ha Hb) as (c & -> & Hc). cbn [rbind]. destruct c as [[a' b']|].
  { destruct Hc as ([Ha' La] & [Hb' Lb] & Hcmp & Ra & Rb). unfold flip in *. destruct (_ <=? _); eexists; (split; [done|]); (split_and!; [done|lia|intros; lia]). }
  unfold RangeBoundary.SmiUpperBound. destruct (UpperBoundOf_spec g ρ rank fuel Hg kRangeBoundarySmi a Ha) as (ia & -> & _).
  destruct (UpperBoundOf_spec g ρ rank fuel Hg kRangeBoundarySmi b Hb) as (ib & -> & _). cbn [rbind].
  destruct (_ <=? _); eexists; (split; [done|]); (split_and!; [done|lia|auto]).
Qed.

End Canonical.
