(* ===== verification/RangeTransfer.v ===== *)
(** * RangeTransfer: soundness of the transfer functions

    [eval] is what the integer operators compute on 64-bit values, none where
    they throw.  For [x] in the left range and [y] in the right range the
    boundaries that a transfer function returns enclose [eval_op op x y];
    [Range.BinaryOp] then returns a range that contains it.  Sums and differences
    are here, with what the other operators share. *)

From stdpp Require Import base numbers list.
From Stdlib Require Import Lia.
From S2P Require Import Prelude Constants RangeAnalysis RangeSpec.

#[local] Open Scope Z_scope.
#[local] Open Scope res_scope.

(** ** Integer operators *)

(** The operators on all operands: what the guarded operators below compute. *)
Definition eval_op (op : Token) (x y : Z) : Z :=
  match op with
  | kADD => s64 (x + y)
  | kSUB => s64 (x - y)
  | kMUL => s64 (x * y)
  | kTRUNCDIV => s64 (Z.quot x y)
  | kMOD => if y =? 0 then 0 else x mod Z.abs y
  | kSHL => if 64 <=? y then 0 else s64 (x * 2 ^ y)
  | kSHR => Z.shiftr x y
  | kUSHR => if 64 <=? y then 0 else s64 (Z.shiftr (u64 x) y)
  | kBIT_AND => Z.land x y
  | kBIT_XOR => Z.lxor x y
  | kBIT_OR => Z.lor x y
  | _ => 0
  end.

(** Division by zero and negative shift counts throw. *)
Definition defined_op (op : Token) (y : Z) : bool :=
  match op with
  | kTRUNCDIV | kMOD => negb (y =? 0)
  | kSHL | kSHR | kUSHR => 0 <=? y
  | kADD | kSUB | kMUL | kBIT_AND | kBIT_XOR | kBIT_OR => true
  | _ => false
  end.

Definition eval (op : Token) (x y : Z) : option Z := if defined_op op y then Some (eval_op op x y) else None.

Lemma int64_s64 z : int64 z -> s64 z = z.
Proof. unfold int64, kMinInt64, kMaxInt64. intros. apply wrapS_small; [lia|]. unfold inS. cbn. lia. Qed.
Lemma s64_int64 z : int64 (s64 z).
Proof. pose proof (wrapS_range 64 z ltac:(lia)) as R. unfold inS in R. unfold int64, kMinInt64, kMaxInt64. cbn in R. lia. Qed.

Lemma int64_0 : int64 0.
Proof. by vm_compute. Qed.

(** ** Bits *)

(** [n] bits and a sign. *)
Definition bits (n z : Z) : Prop := - 2 ^ n <= z < 2 ^ n.

Lemma bits_shiftr n z : 0 <= n -> bits n z <-> Z.shiftr z n = 0 \/ Z.shiftr z n = -1.
Proof.
  intros Hn. unfold bits. rewrite Z.shiftr_div_pow2 by done. pose proof (pow2_pos n Hn).
  pose proof (Z.div_mod z (2 ^ n) ltac:(lia)). pose proof (Z.mod_pos_bound z (2 ^ n) ltac:(lia)). split.
  - intros ?. assert (-1 <= z / 2 ^ n < 1) by nia. lia.
  - intros [E|E]; rewrite E in *; lia.
Qed.

Lemma bits_binary n a b f (Hs : Z.shiftr (f a b) n = f (Z.shiftr a n) (Z.shiftr b n))
    (Hf : forall x y, x = 0 \/ x = -1 -> y = 0 \/ y = -1 -> f x y = 0 \/ f x y = -1) :
  0 <= n -> bits n a -> bits n b -> bits n (f a b).
Proof. intros Hn. rewrite !bits_shiftr, Hs by done. auto. Qed.

Lemma bits_land n a b : 0 <= n -> bits n a -> bits n b -> bits n (Z.land a b).
Proof. apply (bits_binary n a b Z.land); [apply Z.shiftr_land|]. intros x y [-> | ->] [-> | ->]; cbn; auto. Qed.
Lemma bits_lor n a b : 0 <= n -> bits n a -> bits n b -> bits n (Z.lor a b).
Proof. apply (bits_binary n a b Z.lor); [apply Z.shiftr_lor|]. intros x y [-> | ->] [-> | ->]; cbn; auto. Qed.
Lemma bits_lxor n a b : 0 <= n -> bits n a -> bits n b -> bits n (Z.lxor a b).
Proof. apply (bits_binary n a b Z.lxor); [apply Z.shiftr_lxor|]. intros x y [-> | ->] [-> | ->]; cbn; auto. Qed.

Lemma int64_bits z : int64 z <-> bits 63 z.
Proof. unfold int64, bits, kMinInt64, kMaxInt64. lia. Qed.

Lemma bits_mono m n z : m <= n -> bits m z -> bits n z.
Proof. unfold bits. intros Hmn [? ?]. destruct (Z.lt_ge_cases m 0); [rewrite (Z.pow_neg_r 2 m) in * by lia; lia|].
  pose proof (Z.pow_le_mono_r 2 m n). lia. Qed.

Lemma bits_between n a b z : bits n a -> bits n b -> a <= z <= b -> bits n z.
Proof. unfold bits. lia. Qed.

(** [HighestBit] is the logarithm. *)
Lemma highest_step_spec s x r :
  0 < s -> 0 < x < 2 ^ (2 * s) ->
  exists x' r', highest_step s (x, r) = (x', r') /\ 0 < x' < 2 ^ s /\ r' + Z.log2 x' = r + Z.log2 x.
Proof.
  intros Hs Hx. cbn [highest_step]. rewrite Z.shiftr_div_pow2 by lia. pose proof (pow2_pos s ltac:(lia)) as Hp.
  assert (2 ^ (2 * s) = 2 ^ s * 2 ^ s) as Hsq by (rewrite <- Z.pow_add_r by lia; f_equal; lia).
  pose proof (Z.div_mod x (2 ^ s) ltac:(lia)) as Hd. pose proof (Z.mod_pos_bound x (2 ^ s) ltac:(lia)) as Hm.
  assert (0 <= x / 2 ^ s) by (apply Z.div_pos; lia).
  assert (x / 2 ^ s < 2 ^ s) by (apply Z.div_lt_upper_bound; lia).
  destruct (Z.eqb_spec (x / 2 ^ s) 0) as [E|E]; eexists _, _; (split; [done|]).
  - split; [|done]. rewrite E in Hd. lia.
  - split; [lia|]. rewrite <- Z.shiftr_div_pow2 by lia. rewrite Z.log2_shiftr by lia.
    assert (s <= Z.log2 x) by (apply Z.log2_le_pow2; [lia|]; nia). lia.
Qed.

Lemma HighestBit_log2 v : 0 < v < 2 ^ 64 -> HighestBit v = Z.log2 v.
Proof.
  intros Hv. unfold HighestBit. rewrite (proj2 (Z.ltb_lt 0 v)) by lia. rewrite wrapU_small by (unfold inU; lia).
  destruct (highest_step_spec 32 v 0) as (x1 & r1 & -> & H1 & E1); [lia|exact Hv|].
  destruct (highest_step_spec 16 x1 r1) as (x2 & r2 & -> & H2 & E2); [lia|exact H1|].
  destruct (highest_step_spec 8 x2 r2) as (x3 & r3 & -> & H3 & E3); [lia|exact H2|].
  destruct (highest_step_spec 4 x3 r3) as (x4 & r4 & -> & H4 & E4); [lia|exact H3|].
  destruct (highest_step_spec 2 x4 r4) as (x5 & r5 & -> & H5 & E5); [lia|exact H4|].
  assert (x5 = 1 \/ x5 = 2 \/ x5 = 3) as [-> | [-> | ->]] by lia; cbn in *; lia.
Qed.

Lemma BitLength_bits v : int64 v -> 0 <= BitLength v <= 63 /\ bits (BitLength v) v.
Proof.
  intros Hv. apply int64_bits in Hv. assert (exists u, Z.lxor v (Z.shiftr v 63) = u /\ 0 <= u < 2 ^ 63 /\ (u = v \/ u = - v - 1)) as (u & Eu & Hu & Huv).
  { unfold bits in Hv. destruct (proj1 (bits_shiftr 63 v ltac:(lia)) Hv) as [E|E]; rewrite E; eexists; (split; [done|]).
    - rewrite Z.lxor_0_r. assert (0 <= v) by (apply Z.shiftr_nonneg with 63; lia). lia.
    - rewrite Z.lxor_m1_r. assert (v < 0) by (apply Z.shiftr_neg with 63; lia). unfold Z.lnot. lia. }
  unfold BitLength. rewrite Eu. destruct (Z.eqb_spec u 0) as [->|Hn].
  - split; [lia|]. unfold bits. cbn. lia.
  - rewrite HighestBit_log2 by lia. destruct (Z.log2_spec u ltac:(lia)) as [Hl1 Hl2].
    assert (Z.log2 u < 63) by (apply Z.log2_lt_pow2; lia). pose proof (Z.log2_nonneg u).
    split; [lia|]. unfold bits. rewrite Z.add_1_r. lia.
Qed.

Section Transfer.
Context `{Target} `{PointerMode} (g : Graph) (ρ : Z -> Z) (rank : Z -> nat) (fuel : nat) (Hg : executes g ρ rank fuel).

Notation val := (val ρ).
Notation wf := (wf ρ).
Notation rank_of := (rank_of rank).
Notation range_ok := (range_ok ρ).
Notation contains := (contains ρ).
Notation ConstantMin r := (Range.ConstantMin g fuel (Some r) kRangeBoundaryInt64).
Notation ConstantMax r := (Range.ConstantMax g fuel (Some r) kRangeBoundaryInt64).

Lemma contains_int64 r v : range_ok r -> contains r v -> int64 v.
Proof. intros [Hl Hu] [? ?]. apply val_int64 in Hl, Hu. unfold int64 in *. lia. Qed.

(** ** The constants of a range *)

Record view (r : Range) (lo hi : Z) : Prop := {
  view_lo : int64 lo;
  view_hi : int64 hi;
  view_min : ConstantMin r = Ok (Constant lo);
  view_max : ConstantMax r = Ok (Constant hi);
  view_ge : forall v, exists b, Range.OnlyGreaterThanOrEqualTo g fuel v r = Ok b /\ (b = true -> v <= lo);
  view_le : forall v, exists b, Range.OnlyLessThanOrEqualTo g fuel v r = Ok b /\ (b = true -> hi <= v)
}.

Lemma view_MinInt r lo hi : view r lo hi -> Range.MinInt g fuel r = Ok lo.
Proof. intros V. unfold Range.MinInt. rewrite (view_min _ _ _ V). apply ConstantValue_Constant. Qed.
Lemma view_MaxInt r lo hi : view r lo hi -> Range.MaxInt g fuel r = Ok hi.
Proof. intros V. unfold Range.MaxInt. rewrite (view_max _ _ _ V). apply ConstantValue_Constant. Qed.

Lemma Clamp_int64 c : int64 c -> RangeBoundary.Clamp kRangeBoundaryInt64 (Constant c) = Constant c.
Proof.
  unfold int64. intros Hc. cbn. destruct (Z.leb_spec c kMinInt64); [unfold RangeBoundary.MinConstant; cbn; f_equal; lia|].
  destruct (Z.leb_spec kMaxInt64 c); [|done]. unfold RangeBoundary.MaxConstant. cbn. f_equal. lia.
Qed.

Lemma kInt64_bounds : int64 kMinInt64 /\ int64 kMaxInt64.
Proof. by split; vm_compute; split. Qed.

Lemma view_exists r x : range_ok r -> contains r x -> exists lo hi, view r lo hi /\ lo <= x <= hi.
Proof.
  intros Hr Hx. pose proof (contains_int64 r x Hr Hx) as Hx64. destruct kInt64_bounds as [Hkmin Hkmax].
  destruct Hr as [Hmin Hmax], Hx as [Hlx Hux].
  destruct (LowerBound_spec g ρ rank fuel Hg (min_ r) Hmin) as (l & El & Hl).
  destruct (UpperBound_spec g ρ rank fuel Hg (max_ r) Hmax) as (u & Eu & Hu).
  assert (exists lo, int64 lo /\ RangeBoundary.Clamp kRangeBoundaryInt64 l = Constant lo /\ lo <= x /\
    forall v, exists b, (if RangeBoundary.IsNegativeInfinity l then Ok false else let* c := RangeBoundary.ConstantValue l in Ok (v <=? c)) = Ok b /\ (b = true -> v <= lo)) as (lo & Hlo & Clo & Llo & Glo).
  { destruct Hl as [w|c w Hc Hle].
    - exists kMinInt64. split_and!; try done; [apply Hx64|]. intros v. by exists false.
    - exists c. rewrite Clamp_int64 by done. split; [done|]. split; [done|]. split; [lia|]. intros v. cbn [RangeBoundary.IsNegativeInfinity].
      rewrite ConstantValue_Constant. eexists. split; [done|]. apply Z.leb_le. }
  assert (exists hi, int64 hi /\ RangeBoundary.Clamp kRangeBoundaryInt64 u = Constant hi /\ x <= hi /\
    forall v, exists b, (if RangeBoundary.IsPositiveInfinity u then Ok false else let* c := RangeBoundary.ConstantValue u in Ok (c <=? v)) = Ok b /\ (b = true -> hi <= v)) as (hi & Hhi & Chi & Lhi & Ghi).
  { destruct Hu as [w|c w Hc Hle].
    - exists kMaxInt64. split_and!; try done; [apply Hx64|]. intros v. by exists false.
    - exists c. rewrite Clamp_int64 by done. split; [done|]. split; [done|]. split; [lia|]. intros v. cbn [RangeBoundary.IsPositiveInfinity].
      rewrite ConstantValue_Constant. eexists. split; [done|]. apply Z.leb_le. }
  exists lo, hi. split; [|done]. constructor; [done|done| | | |].
  - cbn. rewrite El. cbn. by rewrite Clo.
  - cbn. rewrite Eu. cbn. by rewrite Chi.
  - intros v. unfold Range.OnlyGreaterThanOrEqualTo. rewrite El. cbn [rbind]. apply Glo.
  - intros v. unfold Range.OnlyLessThanOrEqualTo. rewrite Eu. cbn [rbind]. apply Ghi.
Qed.

(** ** Covering boundaries *)

Definition bnd (n : nat) (b : RangeBoundary) : Prop :=
  RangeBoundary.IsInfinity b = true \/ wf b /\ (rank_of b <= n)%nat.

Definition covers (n : nat) (mm : RangeBoundary * RangeBoundary) (z : Z) : Prop :=
  bnd n mm.1 /\ bnd n mm.2 /\
  (RangeBoundary.IsInfinity mm.1 = false -> RangeBoundary.IsInfinity mm.2 = false -> val mm.1 <= z <= val mm.2).

Definition bounded (n : nat) (r : Range) : Prop := (rank_of (min_ r) <= n)%nat /\ (rank_of (max_ r) <= n)%nat.

Lemma bnd_const n c : int64 c -> bnd n (Constant c).
Proof. intros Hc. right. split; [done|]. cbn. lia. Qed.

Lemma covers_const n a b z : int64 a -> int64 b -> a <= z <= b -> covers n (Constant a, Constant b) z.
Proof. intros. split_and!; [by apply bnd_const..|done]. Qed.

Lemma covers_infinite n z : covers n (NegativeInfinity, PositiveInfinity) z.
Proof. split_and!; [by left..|done]. Qed.

Lemma make_covers n min max z :
  covers n (min, max) z -> int64 z ->
  exists r, Range.make min max = Ok r /\ range_ok r /\ contains r z /\ bounded n r.
Proof.
  intros (Hmin & Hmax & Hz) Hi. cbn in *. unfold Range.make.
  rewrite ASSERT_true by (destruct Hmin as [?|[Hmin _]], Hmax as [?|[Hmax _]]; by destruct min, max).
  destruct (RangeBoundary.IsInfinity min) eqn:Emin; cbn [orb].
  { eexists. split; [done|]. split; [exact kInt64_bounds|]. split; [exact Hi|]. split; cbn; lia. }
  destruct (RangeBoundary.IsInfinity max) eqn:Emax.
  { eexists. split; [done|]. split; [exact kInt64_bounds|]. split; [exact Hi|]. split; cbn; lia. }
  destruct Hmin as [?|[Hmin Rmin]]; [congruence|]. destruct Hmax as [?|[Hmax Rmax]]; [congruence|].
  eexists. split; [done|]. split; [done|]. split; [by apply Hz|done].
Qed.

Lemma BinaryOp_covers n op l r ld mm z :
  range_ok l -> range_ok r -> Range.transfer g fuel op l r ld = Some (Ok mm) -> covers n mm z -> int64 z ->
  exists r', Range.BinaryOp g fuel op l r ld = Ok r' /\ range_ok r' /\ contains r' z /\ bounded n r'.
Proof.
  intros Hl Hr Et Hc Hz. unfold Range.BinaryOp, Range.IsFinite.
  destruct (wf_finite _ _ (proj1 Hl)) as [-> _]. destruct (wf_finite _ _ (proj2 Hl)) as [-> _].
  destruct (wf_finite _ _ (proj1 Hr)) as [-> _]. destruct (wf_finite _ _ (proj2 Hr)) as [-> _].
  rewrite !ASSERT_true by done. rewrite Et. cbn [rbind]. destruct mm as [min max].
  assert (forall b, bnd n b -> RangeBoundary.IsUnknown b = false) as Hu.
  { intros b [?|[? _]]; by destruct b. }
  rewrite ASSERT_true by (destruct Hc as (H1 & H2 & _); cbn in *; by rewrite (Hu min), (Hu max)).
  rewrite ASSERT_true; [by apply make_covers|].
  destruct Hc as (_ & _ & Hc). cbn in Hc. destruct min, max; try done. cbn in Hc. apply Z.leb_le. specialize (Hc eq_refl eq_refl). lia.
Qed.

(** Boundaries of the exact result enclose the wrapped one. *)
Lemma covers_s64 n mm z : covers n mm z -> covers n mm (s64 z).
Proof.
  intros (H1 & H2 & Hz). split; [done|]. split; [done|]. intros F1 F2. specialize (Hz F1 F2).
  destruct H1 as [?|[H1 _]]; [congruence|]. destruct H2 as [?|[H2 _]]; [congruence|].
  apply val_int64 in H1, H2. rewrite int64_s64; [done|]. unfold int64 in *. lia.
Qed.

Definition below (n : nat) (b : RangeBoundary) (v : Z) : Prop := bnd n b /\ (RangeBoundary.IsInfinity b = false -> val b <= v).
Definition above (n : nat) (b : RangeBoundary) (v : Z) : Prop := bnd n b /\ (RangeBoundary.IsInfinity b = false -> v <= val b).

Lemma below_above n a b z : below n a z -> above n b z -> covers n (a, b) z.
Proof. intros [? Ha] [? Hb]. split; [done|]. split; [done|]. cbn. auto. Qed.

Lemma low_below n b v : low b v -> below n b v.
Proof. destruct 1; split; try done; [by left|by apply bnd_const]. Qed.
Lemma high_above n b v : high b v -> above n b v.
Proof. destruct 1; split; try done; [by left|by apply bnd_const]. Qed.

(** ** Sums *)

Lemma low_low a b v w : low a v -> low b w -> exists c, RangeBoundary.Add a b NegativeInfinity = Ok c /\ low c (v + w).
Proof.
  destruct 1 as [|x v Hx Lx]; [eexists; split; [done|]; constructor|].
  destruct 1 as [|y w Hy Ly]; [eexists; split; [done|]; constructor|].
  rewrite Add_constants by done. eexists. split; [done|].
  destruct (WillAddOverflow x y) eqn:E; constructor; [|lia]. by apply WillAddOverflow_spec.
Qed.
Lemma high_high a b v w : high a v -> high b w -> exists c, RangeBoundary.Add a b PositiveInfinity = Ok c /\ high c (v + w).
Proof.
  destruct 1 as [|x v Hx Lx]; [eexists; split; [done|]; constructor|].
  destruct 1 as [|y w Hy Ly]; [eexists; split; [done|]; constructor|].
  rewrite Add_constants by done. eexists. split; [done|].
  destruct (WillAddOverflow x y) eqn:E; constructor; [|lia]. by apply WillAddOverflow_spec.
Qed.
Lemma low_high a b v w : low a v -> high b w -> exists c, RangeBoundary.Sub a b NegativeInfinity = Ok c /\ low c (v - w).
Proof.
  destruct 1 as [|x v Hx Lx]; [eexists; split; [done|]; constructor|].
  destruct 1 as [|y w Hy Ly]; [eexists; split; [done|]; constructor|].
  rewrite Sub_constants by done. eexists. split; [done|].
  destruct (WillSubOverflow x y) eqn:E; constructor; [|lia]. by apply WillSubOverflow_spec.
Qed.
Lemma high_low a b v w : high a v -> low b w -> exists c, RangeBoundary.Sub a b PositiveInfinity = Ok c /\ high c (v - w).
Proof.
  destruct 1 as [|x v Hx Lx]; [eexists; split; [done|]; constructor|].
  destruct 1 as [|y w Hy Ly]; [eexists; split; [done|]; constructor|].
  rewrite Sub_constants by done. eexists. split; [done|].
  destruct (WillSubOverflow x y) eqn:E; constructor; [|lia]. by apply WillSubOverflow_spec.
Qed.

(** A symbolic result, if there is one, is exact. *)
Definition exact_result (n : nat) (v : Z) (s : option RangeBoundary) : Prop :=
  match s with None => True | Some b => wf b /\ val b = v /\ (rank_of b <= n)%nat end.

Lemma SymbolicAdd_to_spec s o y :
  wf (Symbol s o) -> int64 y ->
  exists r, RangeBoundary.SymbolicAdd_to g (Symbol s o) y = Ok r /\ exact_result (S (rank s)) (ρ s + o + y) r.
Proof.
  intros [Hs Ho] Hy. unfold RangeBoundary.SymbolicAdd_to. cbn [RangeBoundary.offset].
  destruct (WillAddOverflow o y) eqn:E; [by exists None|]. apply WillAddOverflow_spec in E; [|by apply valid_offset_int64|done].
  rewrite int64_op_ok by done. cbn [rbind].
  destruct (RangeBoundary.IsValidOffsetForSymbolicRangeBoundary (o + y)) eqn:Ev; cbn [negb]; [|by exists None].
  apply IsValidOffset_spec in Ev. destruct (FromDefinition_spec g ρ rank fuel Hg s _ Hs Ev) as (b & Eb & Hb & Vb & Rb).
  unfold RangeBoundary.symbol. rewrite ASSERT_true by done. cbn [rbind]. rewrite Eb. cbn [rbind].
  exists (Some b). split; [done|]. cbn. split; [done|]. split; [lia|done].
Qed.

Lemma SymbolicAdd_spec a b :
  wf a -> wf b -> exists r, RangeBoundary.SymbolicAdd g a b = Ok r /\ exact_result (Nat.max (rank_of a) (rank_of b)) (val a + val b) r.
Proof.
  intros Ha Hb. destruct a as [| | |s o|c], b as [| | |t o'|c']; try done; try (by exists None); cbn [RangeBoundary.SymbolicAdd].
  - destruct (SymbolicAdd_to_spec s o c' Ha Hb) as (r & -> & Hr). exists r. split; [done|]. cbn [rank_of val]. by rewrite Nat.max_0_r.
  - destruct (SymbolicAdd_to_spec t o' c Hb Ha) as (r & -> & Hr). exists r. split; [done|]. cbn [rank_of val].
    rewrite Nat.max_0_l. by rewrite (Z.add_comm c).
Qed.

Lemma SymbolicSub_spec a b :
  wf a -> wf b -> exists r, RangeBoundary.SymbolicSub g a b = Ok r /\ exact_result (Nat.max (rank_of a) (rank_of b)) (val a - val b) r.
Proof.
  intros Ha Hb. destruct a as [| | |s o|c], b as [| | |t o'|y]; try done; try (by exists None); cbn [RangeBoundary.SymbolicSub].
  destruct Ha as [Hs Ho]. cbn in Hb. cbn [RangeBoundary.offset].
  destruct (WillSubOverflow o y) eqn:E; [by exists None|]. apply WillSubOverflow_spec in E; [|by apply valid_offset_int64|done].
  rewrite int64_op_ok by done. cbn [rbind].
  destruct (RangeBoundary.IsValidOffsetForSymbolicRangeBoundary (o - y)) eqn:Ev; cbn [negb]; [|by exists None].
  apply IsValidOffset_spec in Ev. destruct (FromDefinition_spec g ρ rank fuel Hg s _ Hs Ev) as (b & Eb & Hb' & Vb & Rb).
  unfold RangeBoundary.symbol. rewrite ASSERT_true by done. cbn [rbind]. rewrite Eb. cbn [rbind].
  exists (Some b). split; [done|]. cbn. split; [done|]. split; [lia|lia].
Qed.

Lemma exact_below n m v w b : exact_result n v (Some b) -> (n <= m)%nat -> v <= w -> below m b w.
Proof. intros (Hb & <- & Hr) Hm Hw. split; [right; split; [done|lia]|]. intros _. done. Qed.
Lemma exact_above n m v w b : exact_result n v (Some b) -> (n <= m)%nat -> w <= v -> above m b w.
Proof. intros (Hb & <- & Hr) Hm Hw. split; [right; split; [done|lia]|]. intros _. done. Qed.

(** The left operand may stand for itself. *)
Definition left_is (n : nat) (ld : option Z) (x : Z) : Prop :=
  match ld with Some d => ρ d = x /\ (rank d < n)%nat | None => True end.

Lemma left_boundary_spec n ld x b :
  left_is n ld x -> wf b -> (rank_of b <= n)%nat ->
  exists b', Range.left_boundary g ld b = Ok b' /\ wf b' /\ (rank_of b' <= n)%nat /\ (val b' = x \/ b' = b).
Proof.
  intros Hd Hb Hr. unfold Range.left_boundary. destruct ld as [d|]; [|exists b; auto].
  destruct (IsArrayLength g d) eqn:E; [|exists b; auto]. destruct Hd as [Ed Hd].
  destruct (FromDefinition_spec g ρ rank fuel Hg d 0) as (b' & -> & Hb' & Vb & Rb);
    [by apply (ex_length _ _ _ _ Hg)|by apply valid_offset_0|].
  exists b'. split; [done|]. split; [done|]. split; [lia|]. left. lia.
Qed.

Section Operands.
Context (n : nat) (l r : Range) (x y : Z) (Hl : range_ok l) (Hr : range_ok r) (Hx : contains l x) (Hy : contains r y)
  (Nl : bounded n l) (Nr : bounded n r).

Lemma Add_covers ld :
  left_is n ld x -> exists mm, Range.Add g fuel l r ld = Ok mm /\ covers n mm (eval_op kADD x y).
Proof.
  intros Hd. unfold Range.Add. destruct Hl as [Wlm WlM], Hr as [Wrm WrM], Nl as [N1 N2], Nr as [N3 N4], Hx, Hy.
  destruct (left_boundary_spec n ld x (min_ l) Hd Wlm N1) as (a & -> & Wa & Ra & Va).
  destruct (left_boundary_spec n ld x (max_ l) Hd WlM N2) as (b & -> & Wb & Rb & Vb). cbn [rbind].
  assert (val a <= x) by (destruct Va as [| ->]; lia). assert (x <= val b) by (destruct Vb as [| ->]; lia).
  destruct (SymbolicAdd_spec a (min_ r) Wa Wrm) as (s & -> & Hs). destruct (SymbolicAdd_spec b (max_ r) Wb WrM) as (t & -> & Ht).
  destruct (LowerBound_spec g ρ rank fuel Hg (min_ l) Wlm) as (lx & Elx & Hlx). destruct (LowerBound_spec g ρ rank fuel Hg (min_ r) Wrm) as (ly & Ely & Hly).
  destruct (UpperBound_spec g ρ rank fuel Hg (max_ l) WlM) as (hx & Eux & Hux). destruct (UpperBound_spec g ρ rank fuel Hg (max_ r) WrM) as (hy & Euy & Huy).
  destruct (low_low lx ly _ _ Hlx Hly) as (c & Ec & Hc). destruct (high_high hy hx _ _ Huy Hux) as (d & Ed & Hdd).
  rewrite Elx, Ely, Eux, Euy. cbn [rbind]. rewrite Ec, Ed.
  exists (default c s, default d t). split; [destruct s, t; reflexivity|]. apply covers_s64, below_above; cbn.
  - destruct s as [s|]; [by eapply exact_below; [done|lia|lia]|]. apply low_below. eapply low_le; [done|]. lia.
  - destruct t as [t|]; [by eapply exact_above; [done|lia|lia]|]. apply high_above. eapply high_le; [done|]. lia.
Qed.

Lemma Sub_covers ld :
  left_is n ld x -> exists mm, Range.Sub g fuel l r ld = Ok mm /\ covers n mm (eval_op kSUB x y).
Proof.
  intros Hd. unfold Range.Sub. destruct Hl as [Wlm WlM], Hr as [Wrm WrM], Nl as [N1 N2], Nr as [N3 N4], Hx, Hy.
  destruct (left_boundary_spec n ld x (min_ l) Hd Wlm N1) as (a & -> & Wa & Ra & Va).
  destruct (left_boundary_spec n ld x (max_ l) Hd WlM N2) as (b & -> & Wb & Rb & Vb). cbn [rbind].
  assert (val a <= x) by (destruct Va as [| ->]; lia). assert (x <= val b) by (destruct Vb as [| ->]; lia).
  destruct (SymbolicSub_spec a (max_ r) Wa WrM) as (s & -> & Hs). destruct (SymbolicSub_spec b (min_ r) Wb Wrm) as (t & -> & Ht).
  destruct (LowerBound_spec g ρ rank fuel Hg (min_ l) Wlm) as (lx & Elx & Hlx). destruct (LowerBound_spec g ρ rank fuel Hg (min_ r) Wrm) as (ly & Ely & Hly).
  destruct (UpperBound_spec g ρ rank fuel Hg (max_ l) WlM) as (hx & Eux & Hux). destruct (UpperBound_spec g ρ rank fuel Hg (max_ r) WrM) as (hy & Euy & Huy).
  destruct (low_high lx hy _ _ Hlx Huy) as (c & Ec & Hc). destruct (high_low hx ly _ _ Hux Hly) as (d & Ed & Hdd).
  rewrite Elx, Ely, Eux, Euy. cbn [rbind]. rewrite Ec, Ed.
  exists (default c s, default d t). split; [destruct s, t; reflexivity|]. apply covers_s64, below_above; cbn.
  - destruct s as [s|]; [by eapply exact_below; [done|lia|lia]|]. apply low_below. eapply low_le; [done|]. lia.
  - destruct t as [t|]; [by eapply exact_above; [done|lia|lia]|]. apply high_above. eapply high_le; [done|]. lia.
Qed.

End Operands.
End Transfer.
