(* ===== verification/RangeArith.v ===== *)
(** * RangeArith: products, quotients, remainders, shifts and bitwise operators

    These transfer functions work on the constant bounds of their operands. *)

From stdpp Require Import base numbers list.
From Stdlib Require Import Lia.
From S2P Require Import Prelude Constants RangeAnalysis RangeSpec RangeTransfer.

#[local] Open Scope Z_scope.
#[local] Open Scope res_scope.

Lemma AbsWithSaturation_spec v : int64 v -> AbsWithSaturation v = Z.min (Z.abs v) kMaxInt64.
Proof.
  unfold int64, AbsWithSaturation. intros Hv. unfold kMinInt64, kMaxInt64 in *.
  destruct (Z.ltb_spec v 0); [|lia]. destruct (Z.eqb_spec v (- 2 ^ 63)); lia.
Qed.

Lemma abs_min_le lo hi x K : 0 <= K -> lo <= x <= hi -> 0 <= lo \/ hi <= 0 -> 0 <= Z.min (Z.min (Z.abs lo) K) (Z.min (Z.abs hi) K) <= Z.abs x.
Proof. lia. Qed.

Lemma abs_mul_same_sign x y : (0 <= x /\ 0 <= y) \/ (x <= 0 /\ y <= 0) -> Z.abs x * Z.abs y = x * y.
Proof. nia. Qed.

Lemma mul_between a b x y A B : 0 <= a <= x -> 0 <= b <= y -> x <= A -> y <= B -> a * b <= x * y <= A * B.
Proof. intros. split; apply Z.mul_le_mono_nonneg; lia. Qed.

Lemma quot_between a b x y A B : 0 <= a <= x -> x <= A -> 1 <= b <= y -> y <= B -> Z.quot a B <= Z.quot x y <= Z.quot A b.
Proof.
  intros. rewrite !Z.quot_div_nonneg by lia. split.
  - etrans; [apply Z.div_le_compat_l with (q := y); lia|]. apply Z.div_le_mono; lia.
  - etrans; [apply Z.div_le_mono with (b := A); lia|]. apply Z.div_le_compat_l; lia.
Qed.

Section Arithmetic.
Context `{Target} `{PointerMode} (g : Graph) (ρ : Z -> Z) (rank : Z -> nat) (fuel : nat).
Context (n : nat) (l r : Range) (lo hi lo' hi' : Z) (Vl : view g fuel l lo hi) (Vr : view g fuel r lo' hi').
Context (x y : Z) (Hx : lo <= x <= hi) (Hy : lo' <= y <= hi').

Notation covers := (covers ρ rank n).

Lemma AbsMax_view q a b : view g fuel q a b -> Range.ConstantAbsMax g fuel q = Ok (Z.max (AbsWithSaturation a) (AbsWithSaturation b)).
Proof. intros V. unfold Range.ConstantAbsMax. by rewrite (view_MinInt _ _ _ _ _ V), (view_MaxInt _ _ _ _ _ V). Qed.
Lemma AbsMin_view q a b : view g fuel q a b -> Range.ConstantAbsMin g fuel q = Ok (Z.min (AbsWithSaturation a) (AbsWithSaturation b)).
Proof. intros V. unfold Range.ConstantAbsMin. by rewrite (view_MinInt _ _ _ _ _ V), (view_MaxInt _ _ _ _ _ V). Qed.

Lemma SameSign_view :
  exists b, Range.SameSign g fuel l r = Ok b /\ (b = true -> (0 <= lo /\ 0 <= lo') \/ (hi <= 0 /\ hi' <= 0)).
Proof.
  unfold Range.SameSign, Range.OnlyPositiveOrZero, Range.OnlyNegativeOrZero.
  destruct (view_ge _ _ _ _ _ Vl 0) as (a & -> & Ha). destruct (view_ge _ _ _ _ _ Vr 0) as (b & -> & Hb).
  destruct (view_le _ _ _ _ _ Vl 0) as (c & -> & Hc). destruct (view_le _ _ _ _ _ Vr 0) as (d & -> & Hd). cbn [rbind].
  destruct a, b; cbn [rbind]; [exists true; split; [done|]; auto|..]; (destruct c; cbn [rbind]; [exists d|by exists false]; split; [done|]; auto).
Qed.

Lemma covers_half (s : bool) z : covers (if s then (Constant 0, PositiveInfinity) else (NegativeInfinity, PositiveInfinity)) z.
Proof. destruct s; [|apply covers_infinite]. split; [apply bnd_const; by vm_compute|]. split; [by left|done]. Qed.

Lemma Mul_covers : exists mm, Range.Mul g fuel l r = Ok mm /\ covers mm (eval_op kMUL x y).
Proof.
  pose proof (view_lo _ _ _ _ _ Vl). pose proof (view_hi _ _ _ _ _ Vl). pose proof (view_lo _ _ _ _ _ Vr). pose proof (view_hi _ _ _ _ _ Vr).
  unfold Range.Mul. rewrite (AbsMax_view _ _ _ Vl), (AbsMax_view _ _ _ Vr), (AbsMin_view _ _ _ Vl), (AbsMin_view _ _ _ Vr). cbn [rbind].
  rewrite !AbsWithSaturation_spec by done. destruct SameSign_view as (s & -> & Hs). cbn [rbind].
  set (A := Z.max _ _). set (B := Z.max _ _). pose proof smi_bounds as Hsmi.
  destruct (Z.leb_spec A (- kSmiMin)) as [HA|]; [|eexists; (split; [done|]); apply covers_half].
  destruct (Z.leb_spec B (- kSmiMin)) as [HB|]; [|eexists; (split; [done|]); apply covers_half].
  cbn [andb].
  assert (Z.abs lo <= A /\ Z.abs hi <= A /\ Z.abs lo' <= B /\ Z.abs hi' <= B) as (? & ? & ? & ?) by (clear Hs Hx Hy Vl Vr; unfold kMaxInt64 in *; lia).
  clearbody A B.
  destruct ((A =? 0) || (B <=? Z.quot kMaxInt64 A)) eqn:Eq;
    [|eexists; (split; [done|]); apply covers_half].
  assert (A * B <= kMaxInt64) as Hprod.
  { apply orb_true_iff in Eq as [->%Z.eqb_eq|Hle%Z.leb_le]; [done|]. destruct (Z.eq_dec A 0) as [->|]; [done|].
    rewrite Z.quot_div_nonneg in Hle by lia. pose proof (Z.mul_div_le kMaxInt64 A ltac:(lia)).
    etrans; [apply Z.mul_le_mono_nonneg_l; [lia|exact Hle]|done]. }
  assert (0 <= A * B) by (apply Z.mul_nonneg_nonneg; lia).
  assert (Z.abs x * Z.abs y <= A * B) as Habs by (apply Z.mul_le_mono_nonneg; lia). rewrite <- Z.abs_mul in Habs.
  assert (int64 (A * B)) as HAB by (unfold int64, kMinInt64 in *; lia).
  assert (int64 (- (A * B))) as HnAB by (unfold int64, kMinInt64, kMaxInt64 in *; lia).
  rewrite int64_op_ok by done. cbn [rbind]. destruct s.
  - set (a := Z.min _ _). set (b := Z.min _ _).
    assert (0 <= a <= Z.abs x /\ 0 <= b <= Z.abs y /\ Z.abs x * Z.abs y = x * y) as (Ha & Hb & Exy).
    { specialize (Hs eq_refl). split; [apply abs_min_le; [done|done|clear - Hs; tauto]|]. split; [apply abs_min_le; [done|done|clear - Hs; tauto]|].
      apply abs_mul_same_sign. clear - Hs Hx Hy. lia. }
    clearbody a b.
    destruct (mul_between a b (Z.abs x) (Z.abs y) A B) as [Hm _]; try lia.
    assert (0 <= a * b) by (apply Z.mul_nonneg_nonneg; lia).
    assert (int64 (a * b)) as Hab by (unfold int64, kMinInt64 in *; lia).
    rewrite int64_op_ok by done. cbn [rbind]. eexists. split; [done|]. apply covers_s64, covers_const; [done..|]. lia.
  - rewrite int64_op_ok by done. cbn [rbind]. eexists. split; [done|]. apply covers_s64, covers_const; [done..|]. lia.
Qed.

Lemma TruncDiv_covers : exists mm, Range.TruncDiv g fuel l r = Ok mm /\ covers mm (eval_op kTRUNCDIV x y).
Proof.
  pose proof (view_lo _ _ _ _ _ Vl) as H1. pose proof (view_hi _ _ _ _ _ Vl) as H2.
  pose proof (view_lo _ _ _ _ _ Vr) as H3. pose proof (view_hi _ _ _ _ _ Vr) as H4.
  unfold Range.TruncDiv. destruct (view_ge _ _ _ _ _ Vl 0) as (a & -> & Ha). destruct (view_ge _ _ _ _ _ Vr 1) as (b & -> & Hb). cbn [rbind].
  destruct a; [|eexists; split; [done|]; apply covers_infinite]. destruct b; [|eexists; split; [done|]; apply covers_infinite].
  specialize (Ha eq_refl). specialize (Hb eq_refl). cbn [rbind].
  rewrite (AbsMax_view _ _ _ Vl), (AbsMax_view _ _ _ Vr), (AbsMin_view _ _ _ Vl), (AbsMin_view _ _ _ Vr). cbn [rbind].
  rewrite !AbsWithSaturation_spec by done. unfold int64 in H1, H2, H3, H4.
  replace (Z.max _ _) with hi by lia. replace (Z.min (Z.min (Z.abs lo) _) _) with lo by lia.
  replace (Z.max _ _) with hi' by lia. replace (Z.min (Z.min (Z.abs lo') _) _) with lo' by lia.
  destruct (quot_between lo lo' x y hi hi') as [Hq1 Hq2]; try lia.
  assert (0 <= Z.quot lo hi') by (apply Z.quot_pos; lia).
  assert (Z.quot hi lo' <= hi) by (rewrite Z.quot_div_nonneg by lia; apply Z.div_le_upper_bound; nia).
  unfold Range.int64_div. rewrite !(proj2 (Z.eqb_neq _ 0)) by lia.
  assert (int64 (Z.quot hi lo') /\ int64 (Z.quot lo hi')) as [? ?] by (unfold int64, kMinInt64 in *; lia).
  rewrite !int64_op_ok by done. cbn [rbind]. eexists. split; [done|]. by apply covers_s64, covers_const.
Qed.

Lemma Mod_covers : exists mm, Range.Mod g fuel r = Ok mm /\ covers mm (eval_op kMOD x y).
Proof.
  pose proof (view_lo _ _ _ _ _ Vr) as H3. pose proof (view_hi _ _ _ _ _ Vr) as H4. unfold int64 in H3, H4.
  unfold Range.Mod. rewrite (view_MinInt _ _ _ _ _ Vr), (AbsMax_view _ _ _ Vr). cbn [rbind].
  rewrite !AbsWithSaturation_spec by done.
  assert (0 <= eval_op kMOD x y <= Z.max (Z.abs y - 1) 0) as Hm.
  { cbn. destruct (Z.eqb_spec y 0); [lia|]. pose proof (Z.mod_pos_bound x (Z.abs y) ltac:(lia)). lia. }
  destruct (Z.eqb_spec lo' kMinInt64); cbn [rbind].
  - eexists. split; [done|]. apply covers_const; [vm_compute; done..|]. unfold kMinInt64, kMaxInt64 in *. lia.
  - rewrite int64_op_ok by (unfold int64, kMinInt64, kMaxInt64 in *; lia). cbn [rbind].
    eexists. split; [done|]. apply covers_const; [vm_compute; done| |]; unfold int64, kMinInt64, kMaxInt64 in *; lia.
Qed.

End Arithmetic.

(** ** Shifts and bits *)

(** ** Shifts of numbers *)

Lemma pow2_ge_1 k : 0 <= k -> 1 <= 2 ^ k.
Proof. intros. pose proof (pow2_pos k). lia. Qed.

Lemma shl_le_nonneg a x s y : 0 <= a <= x -> 0 <= s <= y -> a * 2 ^ s <= x * 2 ^ y.
Proof. intros. pose proof (Z.pow_le_mono_r 2 s y). pose proof (pow2_pos s). apply Z.mul_le_mono_nonneg; lia. Qed.
Lemma shl_le_nonpos x b y s : x <= b <= 0 -> 0 <= s <= y -> x * 2 ^ y <= b * 2 ^ s.
Proof. intros. pose proof (shl_le_nonneg (- b) (- x) s y). lia. Qed.

Lemma shr_le_nonneg a x s y : 0 <= a <= x -> 0 <= y <= s -> Z.shiftr a s <= Z.shiftr x y.
Proof.
  intros. rewrite !Z.shiftr_div_pow2 by lia. pose proof (pow2_pos y). pose proof (Z.pow_le_mono_r 2 y s).
  etrans; [apply Z.div_le_compat_l with (q := 2 ^ y); lia|]. apply Z.div_le_mono; lia.
Qed.
Lemma shr_le_neg a x s y : a <= x < 0 -> 0 <= s <= y -> Z.shiftr a s <= Z.shiftr x y.
Proof.
  intros. rewrite !Z.shiftr_div_pow2 by lia. pose proof (pow2_pos s). pose proof (Z.pow_le_mono_r 2 s y).
  etrans; [apply Z.div_le_mono with (b := x); lia|]. apply Z.div_le_lower_bound; [lia|].
  pose proof (Z.mul_div_le x (2 ^ s) ltac:(lia)). assert (x / 2 ^ s < 0) by (apply Z.div_lt_upper_bound; lia). nia.
Qed.
Lemma shr_sign a s : 0 <= a -> 0 <= Z.shiftr a s.
Proof. intros. by apply Z.shiftr_nonneg. Qed.
Lemma shr_sign_neg a s : a < 0 -> Z.shiftr a s < 0.
Proof. intros. by apply Z.shiftr_neg. Qed.
Lemma shr_0 s : Z.shiftr 0 s = 0.
Proof. apply Z.shiftr_0_l. Qed.

(** A count of 64 or more leaves the sign. *)
Lemma shr_all v s : int64 v -> 63 <= s -> Z.shiftr v s = if 0 <=? v then 0 else -1.
Proof.
  intros Hv Hs. apply int64_bits, (bits_mono 63 s) in Hv; [|lia]. pose proof (proj1 (bits_shiftr s v ltac:(lia)) Hv) as Hc.
  destruct (Z.leb_spec 0 v); [pose proof (shr_sign v s)|pose proof (shr_sign_neg v s)]; lia.
Qed.

Lemma shr_int64 v s : 0 <= s -> int64 v -> int64 (Z.shiftr v s).
Proof.
  rewrite !int64_bits. intros Hs [? ?]. rewrite Z.shiftr_div_pow2 by lia. pose proof (pow2_ge_1 s Hs). split.
  - apply Z.div_le_lower_bound; nia.
  - apply Z.div_lt_upper_bound; nia.
Qed.

(** ** Unsigned readings *)

Lemma u64_cases x : int64 x -> u64 x = if x <? 0 then x + 2 ^ 64 else x.
Proof.
  unfold int64, kMinInt64, kMaxInt64. intros Hx. destruct (Z.ltb_spec x 0); [|apply wrapU_small; unfold inU; lia].
  rewrite <- (wrapU_add_multiple 64 x 1) by lia. rewrite wrapU_small; unfold inU; lia.
Qed.

Lemma s64_cases z : 0 <= z < 2 ^ 64 -> s64 z = if z <? 2 ^ 63 then z else z - 2 ^ 64.
Proof. intros. by apply (wrapS_cases 64). Qed.

Lemma shr_u u s : 0 <= u < 2 ^ 64 -> 0 <= s -> (if 64 <=? s then 0 else Z.shiftr u s) = Z.shiftr u s /\ 0 <= Z.shiftr u s < 2 ^ 64.
Proof.
  intros Hu Hs. pose proof (shr_le_nonneg u u s 0) as Hle. rewrite Z.shiftr_0_r in Hle. split; [|pose proof (shr_sign u s); lia].
  destruct (Z.leb_spec 64 s); [|done]. rewrite Z.shiftr_div_pow2 by lia. symmetry. apply Z.div_small.
  pose proof (Z.pow_le_mono_r 2 64 s). lia.
Qed.

Lemma land_le_r x y : 0 <= y -> 0 <= Z.land x y <= y.
Proof.
  intros Hy. split; [apply Z.land_nonneg; auto|].
  assert (0 <= Z.ldiff y x) by (apply Z.ldiff_nonneg; auto).
  assert (Z.land (Z.ldiff y x) (Z.land y x) = 0) as Hd by (rewrite (Z.land_comm y x), Z.land_assoc, Z.land_ldiff; apply Z.land_0_l).
  pose proof (Z.lor_ldiff_and y x) as E. rewrite <- Z.lxor_lor, <- Z.add_nocarry_lxor in E by done. rewrite Z.land_comm. lia.
Qed.

Section Boundaries.
Context `{Target} `{PointerMode}.

Lemma Shr_constant v s : int64 v -> 0 <= s -> RangeBoundary.Shr (Constant v) s = Ok (Constant (Z.shiftr v s)).
Proof.
  intros Hv Hs. unfold RangeBoundary.Shr. rewrite !ASSERT_true by (done || by apply Z.leb_le).
  rewrite ConstantValue_Constant. cbn [rbind]. destruct (Z.leb_spec s 63); [done|]. by rewrite shr_all by (done || lia).
Qed.

(** Either the overflow given, or the shifted value, which then fits. *)
Lemma Shl_constant v s overflow :
  int64 v -> 0 <= s -> int64 s ->
  RangeBoundary.Shl (Constant v) s overflow = Ok overflow \/
  RangeBoundary.Shl (Constant v) s overflow = Ok (Constant (v * 2 ^ s)) /\ int64 (v * 2 ^ s) /\ (v = 0 \/ s < 64).
Proof.
  intros Hv Hs Hs64. unfold RangeBoundary.Shl. rewrite !ASSERT_true by (done || by apply Z.leb_le).
  rewrite int64_op_ok by (unfold int64, kMinInt64, kMaxInt64 in *; lia). rewrite ConstantValue_Constant. cbn [rbind].
  destruct (Z.eqb_spec v 0) as [->|Hn]; [right; rewrite Z.mul_0_l; split; [done|]; split; [by vm_compute|by left]|].
  destruct ((s =? 0) || ((0 <? 64 - s) && IsInt64Bits (64 - s) v)) eqn:E; [|by left].
  assert (s < 64 /\ bits (63 - s) v) as [Hlt Hb].
  { apply orb_true_iff in E as [->%Z.eqb_eq|[Hl%Z.ltb_lt Hi]%andb_true_iff]; [split; [lia|]; by apply int64_bits|]. split; [lia|].
    unfold IsInt64Bits in Hi. destruct (Z.leb_spec 64 (64 - s)).
    - replace (63 - s) with 63 by lia. by apply int64_bits.
    - cbv zeta in Hi. rewrite Z.shiftl_1_l in Hi. apply andb_true_iff in Hi as [?%Z.leb_le ?%Z.ltb_lt].
      unfold bits. replace (63 - s) with (64 - s - 1) by lia. lia. }
  assert (int64 (v * 2 ^ s)) as Hi.
  { apply int64_bits. unfold bits in *. assert (2 ^ 63 = 2 ^ (63 - s) * 2 ^ s) as -> by (destruct (Z.eq_dec s 64); [lia|]; rewrite <- Z.pow_add_r by lia; f_equal; lia).
    pose proof (pow2_pos s Hs). nia. }
  right. split; [|by split; [|right]]. do 2 f_equal. rewrite Z.shiftl_mul_pow2 by lia.
  rewrite <- wrapS_wrapU, wrapU_idem_mul_l, wrapS_wrapU by lia. by apply int64_s64.
Qed.

End Boundaries.

Section Shifts.
Context `{Target} `{PointerMode} (g : Graph) (ρ : Z -> Z) (rank : Z -> nat) (fuel : nat).
Context (n : nat) (l r : Range) (lo hi lo' hi' : Z) (Vl : view g fuel l lo hi) (Vr : view g fuel r lo' hi').
Context (x y : Z) (Hx : lo <= x <= hi) (Hy : lo' <= y <= hi').

Notation covers := (covers ρ rank n).

(** The counts: those of the range that do not throw. *)
Lemma counts_int64 : int64 (Z.max lo' 0) /\ int64 (Z.max hi' 0).
Proof.
  pose proof (view_lo _ _ _ _ _ Vr). pose proof (view_hi _ _ _ _ _ Vr). unfold int64, kMinInt64, kMaxInt64 in *. lia.
Qed.

Lemma Shr_covers : exists mm, Range.Shr g fuel l r = Ok mm /\ covers mm (eval_op kSHR x (Z.max y 0)).
Proof.
  pose proof (view_lo _ _ _ _ _ Vl) as H1. pose proof (view_hi _ _ _ _ _ Vl) as H2. unfold Range.Shr.
  rewrite (view_min _ _ _ _ _ Vl), (view_max _ _ _ _ _ Vl), (view_MinInt _ _ _ _ _ Vr), (view_MaxInt _ _ _ _ _ Vr). cbn [rbind].
  rewrite !ConstantValue_Constant. cbn [rbind]. set (a := Z.max lo' 0). set (b := Z.max hi' 0). cbn [eval_op]. set (w := Z.max y 0).
  assert (0 <= a <= w /\ w <= b) as [Ha Hb] by lia. clearbody a b w.
  rewrite !Shr_constant by (done || destruct (_ <? _); lia). cbn [rbind]. eexists. split; [done|].
  apply covers_const; [by apply shr_int64; [destruct (_ <? _); lia|]..|]. split.
  - destruct (Z.ltb_spec 0 lo); [apply shr_le_nonneg; lia|]. destruct (Z.lt_ge_cases x 0); [apply shr_le_neg; lia|].
    etrans; [|by apply shr_sign]. destruct (Z.eq_dec lo 0) as [->|]; [by rewrite shr_0|]. pose proof (shr_sign_neg lo a). lia.
  - destruct (Z.ltb_spec 0 hi).
    + destruct (Z.lt_ge_cases x 0); [|apply shr_le_nonneg; lia]. pose proof (shr_sign hi a). pose proof (shr_sign_neg x w). lia.
    + destruct (Z.eq_dec x 0) as [->|]; [rewrite shr_0; apply shr_sign; lia|].
      destruct (Z.eq_dec hi 0) as [->|]; [rewrite shr_0; pose proof (shr_sign_neg x w); lia|]. apply shr_le_neg; lia.
Qed.

Lemma Shl_covers : exists mm, Range.Shl g fuel l r = Ok mm /\ covers mm (eval_op kSHL x (Z.max y 0)).
Proof.
  pose proof (view_lo _ _ _ _ _ Vl) as H1. pose proof (view_hi _ _ _ _ _ Vl) as H2. destruct counts_int64 as [Ia Ib]. unfold Range.Shl.
  rewrite (view_min _ _ _ _ _ Vl), (view_max _ _ _ _ _ Vl), (view_MinInt _ _ _ _ _ Vr), (view_MaxInt _ _ _ _ _ Vr). cbn [rbind].
  rewrite !ConstantValue_Constant. cbn [rbind]. set (a := Z.max lo' 0) in *. set (b := Z.max hi' 0) in *. cbn [eval_op]. set (w := Z.max y 0).
  assert (0 <= a <= w /\ w <= b) as [Ha Hb] by lia. clearbody a b w.
  set (sl := if 0 <? lo then a else b). set (sh := if 0 <? hi then b else a).
  assert (0 <= sl /\ int64 sl /\ 0 <= sh /\ int64 sh) as (S1 & S2 & S3 & S4) by (unfold sl, sh; do 2 destruct (_ <? _); split_and!; (done || lia)).
  set (ol := if 0 <? lo then PositiveInfinity else NegativeInfinity). set (oh := if 0 <? hi then PositiveInfinity else NegativeInfinity).
  assert (RangeBoundary.IsInfinity ol = true /\ RangeBoundary.IsInfinity oh = true) as [Il Ih] by (unfold ol, oh; by do 2 destruct (_ <? _)).
  destruct (Shl_constant lo sl ol H1 S1 S2) as [El|(El & Fl & Cl)], (Shl_constant hi sh oh H2 S3 S4) as [Eh|(Eh & Fh & Ch)];
    rewrite El, Eh; cbn [rbind]; eexists; (split; [done|]).
  1-3: split; [|split]; cbn; try (by left); try (by apply bnd_const); congruence.
  assert (lo * 2 ^ sl <= x * 2 ^ w <= hi * 2 ^ sh) as Hz.
  { clear El Eh Il Ih. split.
    - unfold sl. destruct (Z.ltb_spec 0 lo); [apply shl_le_nonneg; lia|]. destruct (Z.lt_ge_cases x 0).
      + pose proof (shl_le_nonpos lo x b w). lia.
      + pose proof (pow2_pos b). pose proof (pow2_pos w). nia.
    - unfold sh. destruct (Z.ltb_spec 0 hi); [|apply shl_le_nonpos; lia]. destruct (Z.lt_ge_cases x 0).
      + pose proof (pow2_pos b). pose proof (pow2_pos w). nia.
      + apply shl_le_nonneg; lia. }
  destruct (Z.leb_spec 64 w); [|by apply covers_s64, covers_const].
  assert (x = 0) as -> by (unfold sl, sh in *; destruct (Z.ltb_spec 0 lo), (Z.ltb_spec 0 hi); lia).
  by apply covers_const.
Qed.

(** *** Logical shifts *)

Lemma ConvertRangeToUnsigned_spec :
  exists a b, Range.ConvertRangeToUnsigned lo hi = Ok (a, b) /\ 0 <= a <= u64 x /\ u64 x <= b < 2 ^ 64.
Proof.
  pose proof (view_lo _ _ _ _ _ Vl) as H1. pose proof (view_hi _ _ _ _ _ Vl) as H2. unfold Range.ConvertRangeToUnsigned.
  rewrite ASSERT_true by (apply Z.leb_le; lia). assert (int64 x) as H3 by (unfold int64 in *; lia). rewrite !u64_cases by done.
  unfold int64, kMinInt64, kMaxInt64, kMaxUint64 in *.
  destruct (Z.ltb_spec lo 0), (Z.leb_spec 0 hi); cbn [andb]; eexists _, _; (split; [done|]); destruct (Z.ltb_spec x 0), (Z.ltb_spec hi 0); lia.
Qed.

Lemma ConvertRangeToSigned_spec a b z :
  0 <= a <= z -> z <= b < 2 ^ 64 ->
  exists c d, Range.ConvertRangeToSigned a b = Ok (c, d) /\ int64 c /\ int64 d /\ c <= s64 z <= d.
Proof.
  intros Ha Hb. unfold Range.ConvertRangeToSigned. rewrite ASSERT_true by (apply Z.leb_le; lia).
  change (u64 kMaxInt64) with (2 ^ 63 - 1). change (u64 kMinInt64) with (2 ^ 63).
  destruct ((a <=? 2 ^ 63 - 1) && (2 ^ 63 <=? b)) eqn:E; eexists _, _; (split; [done|]).
  - split; [by vm_compute|]. split; [by vm_compute|]. apply s64_int64.
  - split; [apply s64_int64|]. split; [apply s64_int64|]. rewrite !s64_cases by lia.
    apply andb_false_iff in E as [?%Z.leb_gt|?%Z.leb_gt]; destruct (Z.ltb_spec a (2 ^ 63)), (Z.ltb_spec b (2 ^ 63)), (Z.ltb_spec z (2 ^ 63)); lia.
Qed.

Lemma Ushr_covers : exists mm, Range.Ushr g fuel l r = Ok mm /\ covers mm (eval_op kUSHR x (Z.max y 0)).
Proof.
  unfold Range.Ushr. rewrite (view_MinInt _ _ _ _ _ Vl), (view_MaxInt _ _ _ _ _ Vl), (view_MinInt _ _ _ _ _ Vr), (view_MaxInt _ _ _ _ _ Vr). cbn [rbind].
  destruct ConvertRangeToUnsigned_spec as (c & d & -> & Hc & Hd). cbn [rbind eval_op]. unfold kBitsPerInt64.
  set (a := Z.max lo' 0). set (b := Z.max hi' 0). set (w := Z.max y 0).
  assert (0 <= a <= w /\ w <= b) as [Ha Hb] by lia. clearbody a b w.
  destruct (shr_u c b) as [-> Rc]; [lia..|]. destruct (shr_u d a) as [-> Rd]; [lia..|].
  destruct (shr_u (u64 x) w) as [Ew Rw]; [lia..|].
  replace (if 64 <=? w then 0 else s64 (Z.shiftr (u64 x) w)) with (s64 (if 64 <=? w then 0 else Z.shiftr (u64 x) w)) by (by destruct (64 <=? w)).
  rewrite Ew. destruct (ConvertRangeToSigned_spec (Z.shiftr c b) (Z.shiftr d a) (Z.shiftr (u64 x) w)) as (p & q & -> & Hp & Hq & Hz).
  - split; [lia|]. apply shr_le_nonneg; lia.
  - split; [|lia]. apply shr_le_nonneg; lia.
  - eexists. split; [done|]. by apply covers_const.
Qed.

(** *** Bitwise operators *)

Lemma BitwiseOp_covers (f : Z -> Z -> Z) :
  (forall k, 0 <= k -> bits k x -> bits k y -> bits k (f x y)) -> (0 <= x -> 0 <= y -> 0 <= f x y) ->
  exists mm, Range.BitwiseOp g fuel l r = Ok mm /\ covers mm (f x y).
Proof.
  intros Hf Hpos. pose proof (view_lo _ _ _ _ _ Vl) as H1. pose proof (view_hi _ _ _ _ _ Vl) as H2.
  pose proof (view_lo _ _ _ _ _ Vr) as H3. pose proof (view_hi _ _ _ _ _ Vr) as H4.
  unfold Range.BitwiseOp, Range.BitSize, Range.IsPositive.
  rewrite (view_MinInt _ _ _ _ _ Vl), (view_MaxInt _ _ _ _ _ Vl), (view_MinInt _ _ _ _ _ Vr), (view_MaxInt _ _ _ _ _ Vr). cbn [rbind].
  destruct (BitLength_bits lo H1) as [B1 C1], (BitLength_bits hi H2) as [B2 C2], (BitLength_bits lo' H3) as [B3 C3], (BitLength_bits hi' H4) as [B4 C4].
  set (k := Z.max (Z.max (BitLength lo) (BitLength hi)) (Z.max (BitLength lo') (BitLength hi'))).
  assert (bits k (f x y) /\ 0 <= k <= 63) as [Hk Hk63].
  { split; [|lia]. apply Hf; [lia|apply (bits_between k lo hi)|apply (bits_between k lo' hi')]; try done; (eapply bits_mono; [|done]; lia). }
  clearbody k. destruct (view_ge _ _ _ _ _ Vl 0) as (a & -> & Ha). destruct (view_ge _ _ _ _ _ Vr 0) as (b & -> & Hb). cbn [rbind].
  pose proof (pow2_pos k ltac:(lia)) as Hp. pose proof (Z.pow_le_mono_r 2 k 63 ltac:(lia) ltac:(lia)) as Hle.
  rewrite Z.shiftl_1_l, wrapU_small by (unfold inU; lia).
  assert (int64 (- 2 ^ k) /\ int64 (2 ^ k - 1)) as [I1 I2] by (unfold int64, kMinInt64, kMaxInt64; lia). rewrite !int64_s64 by done.
  unfold bits in Hk. assert (exists m, (let* positive := if a then Ok b else Ok false in
     Ok ((if positive then Constant 0 else Constant (- 2 ^ k)), Constant (2 ^ k - 1))) = Ok (Constant m, Constant (2 ^ k - 1)) /\ int64 m /\ m <= f x y)
     as (m & -> & Im & Lm).
  { destruct a, b; cbn [rbind]; eexists; (split; [done|]); (split; [done|lia]). }
  eexists. split; [done|]. apply covers_const; [done..|lia].
Qed.

Lemma And_covers : exists mm, Range.And g fuel l r = Ok mm /\ covers mm (eval_op kBIT_AND x y).
Proof.
  unfold Range.And. rewrite (view_MinInt _ _ _ _ _ Vl), (view_MinInt _ _ _ _ _ Vr). cbn [rbind eval_op].
  pose proof (view_hi _ _ _ _ _ Vl). pose proof (view_hi _ _ _ _ _ Vr).
  destruct (Z.leb_spec 0 lo').
  { rewrite (view_max _ _ _ _ _ Vr). eexists. split; [done|]. pose proof (land_le_r x y). apply covers_const; [by vm_compute|done|lia]. }
  destruct (Z.leb_spec 0 lo).
  { rewrite (view_max _ _ _ _ _ Vl). eexists. split; [done|]. rewrite Z.land_comm. pose proof (land_le_r y x). apply covers_const; [by vm_compute|done|lia]. }
  apply BitwiseOp_covers; [intros; by apply bits_land|]. intros. apply Z.land_nonneg. auto.
Qed.

End Shifts.
