(* ===== verification/RangeSound.v ===== *)
(** * RangeSound: the analysis over-approximates executions

    Binary operations, constraints, phis and the removal of bounds checks, for
    ranges that contain the values of an execution. *)

From stdpp Require Import base numbers list.
From Stdlib Require Import Lia.
From S2P Require Import Prelude Constants RangeAnalysis RangeSpec RangeTransfer RangeArith RangeJoin.

#[local] Open Scope Z_scope.
#[local] Open Scope res_scope.

(** The count of a shift that does not throw. *)
Definition operand (op : Token) (y : Z) : Z := match op with kSHL | kSHR | kUSHR => Z.max y 0 | _ => y end.

Lemma eval_operand op x y z : eval op x y = Some z -> z = eval_op op x (operand op y).
Proof.
  unfold eval. destruct (defined_op op y) eqn:E; [|done]. intros [= <-].
  destruct op; try done; cbn in E; apply Z.leb_le in E; unfold operand; by rewrite Z.max_l.
Qed.

Lemma eval_op_int64 op x y : int64 x -> int64 y -> int64 (eval_op op x (operand op y)).
Proof.
  intros Hx Hy. destruct op; cbn [eval_op operand]; try apply s64_int64; try apply int64_0.
  - destruct (Z.eqb_spec y 0); [apply int64_0|]. pose proof (Z.mod_pos_bound x (Z.abs y)). unfold int64, kMinInt64, kMaxInt64 in *. lia.
  - destruct (_ <=? _); [apply int64_0|apply s64_int64].
  - apply shr_int64; [lia|done].
  - destruct (_ <=? _); [apply int64_0|apply s64_int64].
  - apply int64_bits, bits_land; by try apply int64_bits.
  - apply int64_bits, bits_lxor; by try apply int64_bits.
  - apply int64_bits, bits_lor; by try apply int64_bits.
Qed.

Section Soundness.
Context `{Target} `{PointerMode} (g : Graph) (ρ : Z -> Z) (rank : Z -> nat) (fuel : nat) (Hg : executes g ρ rank fuel).

Notation val := (val ρ).
Notation wf := (wf ρ).
Notation rank_of := (rank_of rank).
Notation range_ok := (range_ok ρ).
Notation contains := (contains ρ).
Notation bounded := (bounded rank).

(** ** Binary operations *)

Lemma transfer_covers n op l r x y ld :
  range_ok l -> range_ok r -> contains l x -> contains r y -> bounded n l -> bounded n r -> left_is ρ rank n ld x ->
  match Range.transfer g fuel op l r ld with
  | Some t => exists mm, t = Ok mm /\ covers ρ rank n mm (eval_op op x (operand op y))
  | None => True
  end.
Proof.
  intros Hl Hr Hx Hy Nl Nr Hd.
  destruct (view_exists g ρ rank fuel Hg l x Hl Hx) as (lo & hi & Vl & Bx).
  destruct (view_exists g ρ rank fuel Hg r y Hr Hy) as (lo' & hi' & Vr & By).
  destruct op; cbn [Range.transfer operand]; try done.
  - by apply Add_covers.
  - by apply Sub_covers.
  - by eapply Mul_covers.
  - by eapply TruncDiv_covers.
  - by eapply Mod_covers.
  - by eapply Shl_covers.
  - by eapply Shr_covers.
  - by eapply Ushr_covers.
  - by eapply And_covers.
  - eapply (BitwiseOp_covers g ρ rank fuel n l r lo hi lo' hi' Vl Vr x y Bx By Z.lxor); [intros; by apply bits_lxor|].
    intros. apply Z.lxor_nonneg. tauto.
  - eapply (BitwiseOp_covers g ρ rank fuel n l r lo hi lo' hi' Vl Vr x y Bx By Z.lor); [intros; by apply bits_lor|].
    intros. apply Z.lor_nonneg. tauto.
Qed.

Lemma BinaryOp_contains n op l r x y ld :
  range_ok l -> range_ok r -> contains l x -> contains r y -> bounded n l -> bounded n r -> left_is ρ rank n ld x ->
  exists r', Range.BinaryOp g fuel op l r ld = Ok r' /\ range_ok r' /\ bounded n r' /\
    contains r' (eval_op op x (operand op y)).
Proof.
  intros Hl Hr Hx Hy Nl Nr Hd. pose proof (contains_int64 ρ l x Hl Hx) as Ix. pose proof (contains_int64 ρ r y Hr Hy) as Iy.
  pose proof (eval_op_int64 op x y Ix Iy) as Iz. pose proof (transfer_covers n op l r x y ld Hl Hr Hx Hy Nl Nr Hd) as Ht.
  destruct (Range.transfer g fuel op l r ld) as [t|] eqn:Et.
  - destruct Ht as (mm & -> & Hc). destruct (BinaryOp_covers g ρ rank fuel n op l r ld mm _ Hl Hr Et Hc Iz) as (r' & E & ? & ? & ?). by exists r'.
  - unfold Range.BinaryOp, Range.IsFinite. destruct (wf_finite _ _ (proj1 Hl)) as [-> _]. destruct (wf_finite _ _ (proj2 Hl)) as [-> _].
    destruct (wf_finite _ _ (proj1 Hr)) as [-> _]. destruct (wf_finite _ _ (proj2 Hr)) as [-> _]. rewrite !ASSERT_true by done. rewrite Et.
    destruct (make_covers ρ rank n NegativeInfinity PositiveInfinity _ (covers_infinite ρ rank n _) Iz) as (r' & E & ? & ? & ?). by exists r'.
Qed.

(** C19. The transfer functions of the range analysis are sound. For operands in
    the ranges of the left and right inputs (finite, over Smi symbols; the left
    operand may itself be the length of an array), Range::BinaryOp returns, no
    assertion fails, and the range it returns contains what the operator computes
    on 64-bit integers: wrapped sums, differences and products, truncating
    division, the non-negative remainder, shifts by any count that does not
    throw, and bitwise operators. The symbols of the result are those of the
    operands. *)
Theorem BinaryOp_sound n op l r x y ld :
  range_ok l -> range_ok r -> contains l x -> contains r y -> bounded n l -> bounded n r -> left_is ρ rank n ld x ->
  exists r', Range.BinaryOp g fuel op l r ld = Ok r' /\ range_ok r' /\ bounded n r' /\
    forall z, eval op x y = Some z -> contains r' z.
Proof.
  intros Hl Hr Hx Hy Nl Nr Hd. destruct (BinaryOp_contains n op l r x y ld Hl Hr Hx Hy Nl Nr Hd) as (r' & E & Hr' & Nr' & Hz).
  exists r'. split; [done|]. split; [done|]. split; [done|]. by intros z ->%eval_operand.
Qed.

(** A range that does not overflow the size: no value of it does. *)
Lemma Fits_sound size r :
  range_ok r -> exists b, Range.Fits g fuel size r = Ok b /\ (b = true -> forall v, contains r v -> in_size size v).
Proof.
  intros [Hmin Hmax]. unfold Range.Fits.
  destruct (LowerBound_spec g ρ rank fuel Hg _ Hmin) as (l & -> & Hl). destruct (UpperBound_spec g ρ rank fuel Hg _ Hmax) as (u & -> & Hu). cbn [rbind].
  destruct (Overflowed_estimate g fuel size l _ (or_introl Hl)) as (o & -> & Ho). cbn [rbind]. destruct o; [by exists false|].
  destruct (Overflowed_estimate g fuel size u _ (or_intror Hu)) as (o' & -> & Ho'). cbn [rbind]. exists (negb o'). split; [done|].
  intros ->%negb_true_iff v [? ?]. destruct (Ho eq_refl) as (c & -> & Hc), (Ho' eq_refl) as (d & -> & Hd).
  inversion Hl; inversion Hu; subst. unfold in_size in *. lia.
Qed.

Lemma Clamp_wf size b : wf b -> wf (RangeBoundary.Clamp size b) /\ (rank_of (RangeBoundary.Clamp size b) <= rank_of b)%nat /\
  (forall v, in_size size v -> (val b <= v -> val (RangeBoundary.Clamp size b) <= v) /\ (v <= val b -> v <= val (RangeBoundary.Clamp size b))).
Proof.
  intros Hb. destruct b as [| | |s o|c]; try done. pose proof (RangeSize_bounds size) as Hs. cbn [RangeBoundary.Clamp]. unfold in_size.
  destruct (Z.leb_spec c (RangeBoundary.MinConstantValue size)); [|destruct (Z.leb_spec (RangeBoundary.MaxConstantValue size) c)];
    (split; [cbn in *; unfold int64 in *; lia|]; split; [done|]; cbn; lia).
Qed.

Lemma Clamp_contains n size r v :
  range_ok r -> bounded n r -> contains r v -> in_size size v ->
  range_ok (Range.Clamp size r) /\ bounded n (Range.Clamp size r) /\ contains (Range.Clamp size r) v.
Proof.
  intros [Hmin Hmax] [Nmin Nmax] [? ?] Hv. destruct (Clamp_wf size _ Hmin) as (W1 & R1 & C1), (Clamp_wf size _ Hmax) as (W2 & R2 & C2).
  split; [done|]. split; [split; cbn; lia|]. split; [by apply C1|by apply C2].
Qed.

(** ** The range of a definition *)

Lemma executes_set_range d r :
  range_ok r -> contains r (ρ d) -> bounded (rank d) r -> executes (set_range g d r) ρ rank fuel.
Proof.
  intros Hr Hc Hb. destruct Hg as [E1 E2 E3 E4 E5 E6 E7 E8]. constructor; try done.
  intros d' r'. cbn. destruct (Z.eqb_spec d' d) as [->|]; [|apply E1]. intros [= <-]. split; [done|]. split; [done|]. apply Hb.
Qed.

(** C20. The overflow flag. BinaryIntegerOpInstr::InferRangeHelper, for inputs
    whose ranges contain their values: it returns a range and the flag
    can_overflow. If a non-truncating operation is said not to overflow, its
    result fits the representation, so that the overflow check may be dropped; a
    truncating operation keeps its flag; and a result that fits is in the range,
    which has been cut to the representation. *)
Theorem InferRangeHelper_sound n op rep size truncating overflow l r lr rr :
  Range.RepresentationToRangeSize rep = Ok size ->
  range_ok lr -> range_ok rr -> contains lr (ρ l) -> contains rr (ρ r) -> bounded n lr -> bounded n rr -> (rank l < n)%nat ->
  exists r' o, RangeAnalysis.InferRangeHelper g fuel op rep truncating overflow (Some lr) (Some rr) l = Ok (Some r', o) /\
    (truncating = true -> o = overflow) /\
    forall z, eval op (ρ l) (ρ r) = Some z ->
      (truncating = false -> o = false -> in_size size z) /\
      (in_size size z -> range_ok r' /\ bounded n r' /\ contains r' z).
Proof.
  intros Hsize Hl Hr Hx Hy Nl Nr Hn. unfold RangeAnalysis.InferRangeHelper. cbn [Range.IsUnknown].
  destruct (wf_finite _ _ (proj1 Hl)) as [_ ->]. destruct (wf_finite _ _ (proj1 Hr)) as [_ ->]. cbn [orb].
  destruct (BinaryOp_contains n op lr rr (ρ l) (ρ r) (Some l) Hl Hr Hx Hy Nl Nr) as (r' & -> & Hr' & Nr' & Hz); [done|]. cbn [rbind].
  destruct (wf_finite _ _ (proj1 Hr')) as [_ Eu]. rewrite ASSERT_true by (cbn; by rewrite Eu). rewrite Hsize. cbn [rbind].
  destruct (Fits_sound size r' Hr') as (b & -> & Hb). cbn [rbind].
  exists (Range.Clamp size r'), (if truncating then overflow else negb b). split; [by destruct truncating|]. split; [by intros ->|].
  intros z ->%eval_operand. split.
  - intros -> ->%negb_false_iff. by apply Hb.
  - intros Hin. by apply Clamp_contains.
Qed.

(** ** Constraints *)

(** What a comparison says, for [v op w]. *)
Definition compares (op : Token) (v w : Z) : Prop :=
  match op with kEQ => v = w | kNE => v <> w | kLT => v < w | kGT => w < v | kLTE => v <= w | kGTE => w <= v | _ => False end.

Lemma make_finite n min max v :
  wf min -> wf max -> (rank_of min <= n)%nat -> (rank_of max <= n)%nat -> val min <= v <= val max ->
  exists r, Range.make min max = Ok r /\ range_ok r /\ bounded n r /\ contains r v.
Proof.
  intros Hmin Hmax ? ? Hv. destruct (make_covers ρ rank n min max v) as (r & E & ? & ? & ?).
  - split; [by right|]. split; [by right|]. intros. done.
  - apply val_int64 in Hmin, Hmax. unfold int64 in *. lia.
  - by exists r.
Qed.

Lemma ConstraintSmiRange_sound op b v :
  smi (ρ b) -> smi v -> compares op v (ρ b) ->
  exists r, RangeAnalysis.ConstraintSmiRange g op b = Ok r /\ range_ok r /\ bounded (S (rank b)) r /\ contains r v.
Proof.
  intros Hb Hv Hop. pose proof (smi_int64 _ Hv) as Iv. pose proof smi_bounds as Hs.
  assert (wf RangeBoundary.MinSmi /\ wf RangeBoundary.MaxSmi) as [Wm WM] by (cbn; unfold int64; lia).
  assert (forall o, -1 <= o <= 1 -> exists x, RangeBoundary.FromDefinition g b o = Ok x /\ wf x /\ val x = ρ b + o /\ (rank_of x <= S (rank b))%nat) as HF.
  { intros o Ho. apply (FromDefinition_spec g ρ rank fuel Hg); [done|by apply valid_offset_0]. }
  unfold smi in Hv. destruct (HF 0 ltac:(lia)) as (x0 & E0 & W0 & V0 & R0), (HF (-1) ltac:(lia)) as (xm & Em & Wmm & Vm & Rm), (HF 1 ltac:(lia)) as (xp & Ep & Wp & Vp & Rp).
  destruct op; try done; cbn [RangeAnalysis.ConstraintSmiRange compares] in *; rewrite ?E0, ?Em, ?Ep; cbn [rbind];
    try (apply make_finite; try done; cbn; lia).
  eexists. split; [done|]. split; [done|]. split; [split; cbn; lia|done].
Qed.

Lemma IsUnsatisfiable_sound r v :
  range_ok r -> contains r v -> Range.IsUnsatisfiable g fuel r = Ok false.
Proof.
  intros Hr Hv. destruct (view_exists g ρ rank fuel Hg r v Hr Hv) as (lo & hi & V & Hb). unfold Range.IsUnsatisfiable.
  rewrite (view_MinInt _ _ _ _ _ V), (view_MaxInt _ _ _ _ _ V). cbn [rbind].
  replace (RangeBoundary.IsPositiveInfinity _ || _) with false by (destruct Hr as [H1 H2]; by destruct (min_ r), (max_ r)).
  rewrite (proj2 (Z.ltb_ge hi lo)) by lia. destruct (DependOnSameSymbol_spec g ρ rank fuel Hg (min_ r) (max_ r)) as (e & -> & He). cbn [rbind].
  destruct e; [|done]. destruct (He eq_refl) as (s & t & o & o' & E1 & E2 & E). destruct Hv as [? ?]. rewrite E1, E2 in *. cbn in *.
  by rewrite (proj2 (Z.ltb_ge o' o)) by lia.
Qed.

Lemma make_wf min max : wf min -> wf max -> Range.make min max = Ok (mkRange min max).
Proof.
  intros Hmin Hmax. unfold Range.make. destruct (wf_finite _ _ Hmin) as [-> ->], (wf_finite _ _ Hmax) as [-> ->]. by rewrite ASSERT_true.
Qed.

Lemma Intersect_sound n r c :
  range_ok r -> range_ok c -> bounded n r -> bounded n c ->
  exists r', Range.Intersect g fuel r c = Ok r' /\ range_ok r' /\ bounded n r' /\ (forall v, contains r v -> contains c v -> contains r' v).
Proof.
  intros [W1 W2] [W3 W4] [N1 N2] [N3 N4]. unfold Range.Intersect.
  destruct (IntersectionMin_sound g ρ rank fuel Hg _ _ W1 W3) as (a & -> & Wa & Ra & Ha).
  destruct (IntersectionMax_sound g ρ rank fuel Hg _ _ W2 W4) as (b & -> & Wb & Rb & Hb). cbn [rbind].
  rewrite make_wf by done. eexists. split; [done|]. split; [done|]. split; [split; cbn; lia|].
  intros v [? ?] [? ?]. split; [by apply Ha|by apply Hb].
Qed.

(** A constrained value keeps a range, which holds it. *)
Lemma InferConstraintRange_sound n r c v :
  range_ok r -> range_ok c -> bounded n r -> bounded n c -> contains r v -> contains c v ->
  exists r', RangeAnalysis.InferConstraintRange g fuel (Some r) c = Ok (Some r') /\ range_ok r' /\ bounded n r' /\ contains r' v.
Proof.
  intros Hr Hc Nr Nc Hv Hv'. destruct (Intersect_sound n r c Hr Hc Nr Nc) as (r' & E & Hr' & Nr' & Hin). pose proof (Hin v Hv Hv').
  unfold RangeAnalysis.InferConstraintRange. destruct (wf_finite _ _ (proj1 Hr)) as [_ ->]. rewrite E. cbn [rbind].
  rewrite (IsUnsatisfiable_sound r' v) by done. by exists r'.
Qed.

(** C21. Constraints. After a comparison of a Smi with a definition that came
    out true (or, negated, false), the range RangeAnalysis::ConstraintSmiRange
    gives and the range the value had before are intersected: the intersection is
    not unsatisfiable, so the constraint keeps a range, and that range contains
    the value. *)
Theorem Constraint_sound n op b r v :
  smi (ρ b) -> smi v -> compares op v (ρ b) -> range_ok r -> bounded n r -> contains r v -> (rank b < n)%nat ->
  exists c r', RangeAnalysis.ConstraintSmiRange g op b = Ok c /\ contains c v /\
    RangeAnalysis.InferConstraintRange g fuel (Some r) c = Ok (Some r') /\ range_ok r' /\ bounded n r' /\ contains r' v.
Proof.
  intros Hb Hv Hop Hr Nr Hc Hn. destruct (ConstraintSmiRange_sound op b v Hb Hv Hop) as (c & -> & Wc & [N1 N2] & Cc).
  destruct (InferConstraintRange_sound n r c v Hr Wc Nr) as (r' & E & ? & ? & ?); [split; lia|done..|]. by exists c, r'.
Qed.

End Soundness.
