(* ===== verification/RangePhi.v ===== *)
(** * RangePhi: joining the inputs of a phi, widening and narrowing

    The ranges involved hold a value of the size: the comparisons of these
    functions cut the bounds to the size, and a range outside of it is compared as
    if it were at its end ([JoinMin_outside]). *)

From stdpp Require Import base numbers list.
From Stdlib Require Import Lia.
From S2P Require Import Prelude Constants RangeAnalysis RangeSpec RangeTransfer RangeJoin RangeSound.

#[local] Open Scope Z_scope.
#[local] Open Scope res_scope.

Section Phi.
Context `{Target} `{PointerMode} (g : Graph) (ρ : Z -> Z) (rank : Z -> nat) (fuel : nat) (Hg : executes g ρ rank fuel) (size : RangeSize).

Notation val := (val ρ).
Notation wf := (wf ρ).
Notation rank_of := (rank_of rank).
Notation range_ok := (range_ok ρ).
Notation contains := (contains ρ).
Notation bounded := (bounded rank).
Notation MinOf := (RangeBoundary.MinConstantValue size).
Notation MaxOf := (RangeBoundary.MaxConstantValue size).

(** A value of the range that is one of the size. *)
Definition inhabited (r : Range) : Prop := exists v, contains r v /\ in_size size v.

Lemma inhabited_bounds r : inhabited r -> val (min_ r) <= MaxOf /\ MinOf <= val (max_ r).
Proof. intros (v & [? ?] & [? ?]). lia. Qed.

(** ** Join *)

Lemma DependsOnSymbol_spec a u :
  wf a -> exists b, RangeAnalysis.DependsOnSymbol g fuel a u = Ok b /\ (b = true -> smi (ρ u)).
Proof.
  intros Ha. destruct a as [| | |s o|c]; try (by exists false). cbn [RangeAnalysis.DependsOnSymbol].
  destruct (UnwrapConstraint_spec g ρ rank fuel Hg s) as (w & -> & Ew & _). cbn [rbind]. eexists. split; [done|].
  intros ->%Z.eqb_eq. rewrite Ew. apply Ha.
Qed.

(** The range of the other input: its own, or the input itself when the range so
    far depends on it. *)
Lemma Join_other n r d o :
  range_ok r -> range_ok o -> bounded n o -> contains o (ρ d) -> (rank d < n)%nat ->
  exists o', (let* unwrapped := RangeBoundary.UnwrapConstraint g fuel d in
              let* b := RangeAnalysis.DependsOnSymbol g fuel (min_ r) unwrapped in
              let* b := if b then Ok true else RangeAnalysis.DependsOnSymbol g fuel (max_ r) unwrapped in
              if b then let* l := RangeBoundary.FromDefinition g d 0 in
                        let* u := RangeBoundary.FromDefinition g d 0 in Range.make l u
              else Ok o) = Ok o' /\ range_ok o' /\ bounded n o' /\ contains o' (ρ d).
Proof.
  intros [W1 W2] Ho No Hd Hn. destruct (UnwrapConstraint_spec g ρ rank fuel Hg d) as (u & -> & Eu & _). cbn [rbind].
  destruct (DependsOnSymbol_spec _ u W1) as (a & -> & Ha). destruct (DependsOnSymbol_spec _ u W2) as (b & -> & Hb). cbn [rbind].
  assert (smi (ρ d) -> exists o', (let* l := RangeBoundary.FromDefinition g d 0 in
                        let* u := RangeBoundary.FromDefinition g d 0 in Range.make l u) = Ok o' /\ range_ok o' /\ bounded n o' /\ contains o' (ρ d)) as Hself.
  { intros Hs. destruct (FromDefinition_spec g ρ rank fuel Hg d 0 Hs) as (x & -> & Wx & Vx & Rx); [by apply valid_offset_0|]. cbn [rbind].
    apply make_finite; (done || lia). }
  destruct a; cbn [rbind]; [apply Hself; rewrite <- Eu; auto|]. destruct b; cbn [rbind]; [apply Hself; rewrite <- Eu; auto|]. by exists o.
Qed.

Lemma set_max_contains n r b v :
  range_ok r -> bounded n r -> wf b -> (rank_of b <= n)%nat -> val (min_ r) <= v <= val b ->
  range_ok (Range.set_max b r) /\ bounded n (Range.set_max b r) /\ contains (Range.set_max b r) v.
Proof.
  intros [W1 W2] [N1 N2] Wb Rb Hv. unfold Range.set_max. destruct (wf_finite _ _ Wb) as [-> _]. done.
Qed.
Lemma set_min_contains n r b v :
  range_ok r -> bounded n r -> wf b -> (rank_of b <= n)%nat -> val b <= v <= val (max_ r) ->
  range_ok (Range.set_min b r) /\ bounded n (Range.set_min b r) /\ contains (Range.set_min b r) v.
Proof.
  intros [W1 W2] [N1 N2] Wb Rb Hv. unfold Range.set_min. destruct (wf_finite _ _ Wb) as [-> _]. done.
Qed.

(** The join of two ranges, by their bounds within the size. *)
Lemma Join_ranges n r o w :
  range_ok r -> range_ok o -> bounded n r -> bounded n o -> inhabited r -> contains o w -> in_size size w ->
  exists r',
    (let* inf_range := RangeBoundary.LowerBoundOf g fuel size (min_ r) in
     let* inf_other := RangeBoundary.LowerBoundOf g fuel size (min_ o) in
     let* sup_range := RangeBoundary.UpperBoundOf g fuel size (max_ r) in
     let* sup_other := RangeBoundary.UpperBoundOf g fuel size (max_ o) in
     if sup_range <=? inf_other then Ok (Some (Range.set_max (max_ o) r))
     else if sup_other <=? inf_range then Ok (Some (Range.set_min (min_ o) r))
     else
       let* l := RangeBoundary.JoinMin g fuel (min_ r) (min_ o) size in
       let* u := RangeBoundary.JoinMax g fuel (max_ r) (max_ o) size in
       let* j := Range.make l u in
       Ok (Some j)) = Ok (Some r') /\ range_ok r' /\ bounded n r' /\
    forall v, in_size size v -> contains r v \/ v = w -> contains r' v.
Proof.
  intros Hr Ho Nr No Ir Hw Sw. pose proof (inhabited_bounds r Ir) as [B1 B2]. destruct Hr as [W1 W2], Ho as [W3 W4], Hw as [Hw1 Hw2].
  destruct (LowerBoundOf_spec g ρ rank fuel Hg size _ W1) as (ir & -> & _ & Hir). destruct (LowerBoundOf_spec g ρ rank fuel Hg size _ W3) as (io & -> & _ & Hio).
  destruct (UpperBoundOf_spec g ρ rank fuel Hg size _ W2) as (sr & -> & _ & Hsr). destruct (UpperBoundOf_spec g ρ rank fuel Hg size _ W4) as (so & -> & _ & Hso).
  cbn [rbind]. destruct Ir as (v0 & [Hv1 Hv2] & Sv). unfold in_size in *.
  pose proof (Hir v0). pose proof (Hsr v0). pose proof (Hio w). pose proof (Hso w). destruct Nr as [N1 N2], No as [N3 N4].
  destruct (Z.leb_spec sr io).
  { eexists. split; [done|]. split; [apply (set_max_contains n r _ v0); (done || lia)|]. split; [apply (set_max_contains n r _ v0); (done || lia)|].
    intros v Hin Hv. pose proof (Hsr v). apply (set_max_contains n r _ v); try done. destruct Hv as [[? ?]| ->]; lia. }
  destruct (Z.leb_spec so ir).
  { eexists. split; [done|]. split; [apply (set_min_contains n r _ v0); (done || lia)|]. split; [apply (set_min_contains n r _ v0); (done || lia)|].
    intros v Hin Hv. pose proof (Hir v). apply (set_min_contains n r _ v); try done. destruct Hv as [[? ?]| ->]; lia. }
  destruct (JoinMin_sound g ρ rank fuel Hg _ _ size W1 W3) as (a & -> & Wa & Ra & Ha); [lia..|].
  destruct (JoinMax_sound g ρ rank fuel Hg _ _ size W2 W4) as (b & -> & Wb & Rb & Hb); [lia..|]. cbn [rbind].
  assert (forall v, (MinOf <= v <= MaxOf) -> contains r v \/ v = w -> val a <= v <= val b) as Hj.
  { intros v Hin Hv. split; [apply Ha|apply Hb]; try lia; (destruct Hv as [[? ?]| ->]; lia). }
  destruct (make_finite ρ rank n a b v0) as (j & Ej & Hj1 & Hj2 & _); try done; try lia; [apply Hj; [done|by left]|]. rewrite Ej. cbn [rbind].
  eexists. split; [done|]. split; [done|]. split; [done|]. intros v Hin Hv.
  destruct (make_finite ρ rank n a b v) as (j' & Ej' & _ & _ & Hc); try done; try lia; [by apply Hj|]. congruence.
Qed.

Lemma Join_contains n r d o :
  range_ok r -> range_ok o -> bounded n r -> bounded n o -> inhabited r -> contains o (ρ d) -> in_size size (ρ d) -> (rank d < n)%nat ->
  exists r', RangeAnalysis.Join g fuel (Some r) d (Some o) size = Ok (Some r') /\ range_ok r' /\ bounded n r' /\
    forall v, in_size size v -> contains r v \/ v = ρ d -> contains r' v.
Proof.
  intros Hr Ho Nr No Ir Hd Sd Hn. unfold RangeAnalysis.Join. cbn [Range.IsUnknown].
  destruct (wf_finite _ _ (proj1 Hr)) as [_ ->]. destruct (wf_finite _ _ (proj1 Ho)) as [_ ->].
  destruct (Join_other n r d o Hr Ho No Hd Hn) as (o' & Eo & Ho' & No' & Hd').
  destruct (Join_ranges n r o' (ρ d) Hr Ho' Nr No' Ir Hd' Sd) as (r' & Ej & Hr' & Nr' & Hj). exists r'. split; [|done].
  rewrite <- Ej. clear Ej.
  destruct (RangeBoundary.UnwrapConstraint g fuel d) as [u|]; [|done]. cbn [rbind] in *.
  destruct (RangeAnalysis.DependsOnSymbol g fuel (min_ r) u) as [b|]; [|done]. cbn [rbind] in *.
  destruct (if b then Ok true else RangeAnalysis.DependsOnSymbol g fuel (max_ r) u) as [c|]; [|done]. cbn [rbind] in *.
  by rewrite Eo.
Qed.

(** ** Widening and narrowing *)

Lemma ConstantMin_spec r :
  range_ok r -> exists c, Range.ConstantMin g fuel (Some r) size = Ok (Constant c) /\ in_size size c /\
    (forall v, val (min_ r) <= v -> MinOf <= v -> c <= v) /\ (forall k, min_ r = Constant k -> in_size size k -> c = k).
Proof.
  intros [Hmin _]. unfold Range.ConstantMin. destruct (LowerBound_spec g ρ rank fuel Hg _ Hmin) as (l & E & Hl). rewrite E. cbn [rbind].
  destruct (Clamp_constant size l) as (c & Ec & Hc); [destruct Hl; eauto|]. rewrite Ec. exists c. split; [done|]. split; [done|]. split.
  - intros v Hv Hm. destruct (Clamp_low size l v) as (c' & Ec' & _ & Hle); [by eapply low_le|]. rewrite Ec in Ec'. injection Ec' as <-. auto.
  - intros k Ek Hk. rewrite Ek in E, Hl. unfold RangeBoundary.LowerBound in E. destruct fuel as [|f]; [done|].
    cbn in E. injection E as <-. cbn [RangeBoundary.Clamp] in Ec. unfold in_size in *.
    destruct (Z.leb_spec k MinOf); [injection Ec as <-; lia|]. destruct (Z.leb_spec MaxOf k); injection Ec as <-; lia.
Qed.
Lemma ConstantMax_spec r :
  range_ok r -> exists c, Range.ConstantMax g fuel (Some r) size = Ok (Constant c) /\ in_size size c /\
    (forall v, v <= val (max_ r) -> v <= MaxOf -> v <= c) /\ (forall k, max_ r = Constant k -> in_size size k -> c = k).
Proof.
  intros [_ Hmax]. unfold Range.ConstantMax. destruct (UpperBound_spec g ρ rank fuel Hg _ Hmax) as (u & E & Hu). rewrite E. cbn [rbind].
  destruct (Clamp_constant size u) as (c & Ec & Hc); [destruct Hu; eauto|]. rewrite Ec. exists c. split; [done|]. split; [done|]. split.
  - intros v Hv Hm. destruct (Clamp_high size u v) as (c' & Ec' & _ & Hle); [by eapply high_le|]. rewrite Ec in Ec'. injection Ec' as <-. auto.
  - intros k Ek Hk. rewrite Ek in E, Hu. unfold RangeBoundary.UpperBound in E. destruct fuel as [|f]; [done|].
    cbn in E. injection E as <-. cbn [RangeBoundary.Clamp] in Ec. unfold in_size in *.
    destruct (Z.leb_spec k MinOf); [injection Ec as <-; lia|]. destruct (Z.leb_spec MaxOf k); injection Ec as <-; lia.
Qed.

(** How far a boundary can still be widened: a symbol or a constant outside of
    the size, a constant of it, its end. *)
Definition widenings (extreme : Z) (b : RangeBoundary) : nat :=
  match b with
  | Constant c => if c =? extreme then O else if (MinOf <=? c) && (c <=? MaxOf) then 1%nat else 2%nat
  | _ => 2%nat
  end.

(** The result is an estimate for both ranges; it is the boundary of the range,
    or one that can be widened less often. *)
Definition widened_min (r new : Range) (b : RangeBoundary) : Prop :=
  wf b /\ (rank_of b <= rank_of (min_ r))%nat /\
  (forall v, MinOf <= v -> val (min_ r) <= v \/ val (min_ new) <= v -> val b <= v) /\
  (b = min_ r \/ (widenings MinOf b < widenings MinOf (min_ r))%nat).
Definition widened_max (r new : Range) (b : RangeBoundary) : Prop :=
  wf b /\ (rank_of b <= rank_of (max_ r))%nat /\
  (forall v, v <= MaxOf -> v <= val (max_ r) \/ v <= val (max_ new) -> v <= val b) /\
  (b = max_ r \/ (widenings MaxOf b < widenings MaxOf (max_ r))%nat).

Lemma widenings_min b : wf b -> b = Constant MinOf \/ (0 < widenings MinOf b)%nat.
Proof. destruct b as [| | |s o|c]; try done; [right; cbn; lia|]. intros _. cbn. destruct (Z.eqb_spec c MinOf) as [->|]; [by left|]. right. destruct (_ && _); lia. Qed.
Lemma widenings_max b : wf b -> b = Constant MaxOf \/ (0 < widenings MaxOf b)%nat.
Proof. destruct b as [| | |s o|c]; try done; [right; cbn; lia|]. intros _. cbn. destruct (Z.eqb_spec c MaxOf) as [->|]; [by left|]. right. destruct (_ && _); lia. Qed.

Lemma widenings_extreme e : widenings e (Constant e) = 0%nat.
Proof. cbn. by rewrite Z.eqb_refl. Qed.

(** Widening to the end of the size. *)
Lemma widened_to_min r new : range_ok r -> widened_min r new (RangeBoundary.MinConstant size).
Proof.
  intros [Hmin _]. pose proof (RangeSize_bounds size). split; [cbn; unfold int64; lia|]. split; [cbn; lia|]. split; [cbn; intros; lia|].
  unfold RangeBoundary.MinConstant. destruct (widenings_min _ Hmin) as [->|]; [by left|]. right. by rewrite widenings_extreme.
Qed.
Lemma widened_to_max r new : range_ok r -> widened_max r new (RangeBoundary.MaxConstant size).
Proof.
  intros [_ Hmax]. pose proof (RangeSize_bounds size). split; [cbn; unfold int64; lia|]. split; [cbn; lia|]. split; [cbn; intros; lia|].
  unfold RangeBoundary.MaxConstant. destruct (widenings_max _ Hmax) as [->|]; [by left|]. right. by rewrite widenings_extreme.
Qed.

(** A constant of the size in place of the boundary. *)
Lemma widenings_constant e b c :
  in_size size c -> (forall k, b = Constant k -> in_size size k -> c = k) -> wf b ->
  e = MinOf \/ e = MaxOf -> Constant c = b \/ (widenings e (Constant c) < widenings e b)%nat.
Proof.
  intros Hc Hk Hb He. unfold in_size in *. pose proof (RangeSize_bounds size).
  destruct b as [| | |s o|k]; try done; cbn.
  - right. destruct (c =? e); [lia|]. rewrite !(proj2 (Z.leb_le _ _)) by lia. cbn. lia.
  - destruct (Z.leb_spec MinOf k) as [K1|K1], (Z.leb_spec k MaxOf) as [K2|K2]; cbn [andb]; [left; by rewrite (Hk k eq_refl ltac:(lia))|..].
    all: right; rewrite (proj2 (Z.eqb_neq k e)) by lia; destruct (c =? e); [lia|]; rewrite !(proj2 (Z.leb_le _ _)) by lia; cbn; lia.
Qed.

Lemma widen_constant_min_sound r new :
  range_ok r -> range_ok new -> exists b, RangeAnalysis.widen_constant_min g fuel r new size = Ok b /\ widened_min r new b.
Proof.
  intros Hr Hn. unfold RangeAnalysis.widen_constant_min. destruct (ConstantMin_spec r Hr) as (c & -> & Hc & Lc & Kc).
  destruct (ConstantMin_spec new Hn) as (d & -> & Hd & Ld & _). cbn [rbind]. rewrite !ConstantValue_Constant. cbn [rbind]. eexists. split; [done|].
  destruct (Z.leb_spec c d); [|by apply widened_to_min]. split; [by eapply in_size_int64|]. split; [cbn; lia|]. split.
  - intros v Hm Hv. specialize (Lc v). specialize (Ld v). cbn. lia.
  - apply widenings_constant; [done|done|apply Hr|by left].
Qed.
Lemma widen_constant_max_sound r new :
  range_ok r -> range_ok new -> exists b, RangeAnalysis.widen_constant_max g fuel r new size = Ok b /\ widened_max r new b.
Proof.
  intros Hr Hn. unfold RangeAnalysis.widen_constant_max. destruct (ConstantMax_spec r Hr) as (c & -> & Hc & Lc & Kc).
  destruct (ConstantMax_spec new Hn) as (d & -> & Hd & Ld & _). cbn [rbind]. rewrite !ConstantValue_Constant. cbn [rbind]. eexists. split; [done|].
  destruct (Z.leb_spec d c); [|by apply widened_to_max]. split; [by eapply in_size_int64|]. split; [cbn; lia|]. split.
  - intros v Hm Hv. specialize (Lc v). specialize (Ld v). cbn. lia.
  - apply widenings_constant; [done|done|apply Hr|by right].
Qed.

Lemma widened_min_self r new : range_ok r -> (forall v, MinOf <= v -> val (min_ new) <= v -> val (min_ r) <= v) -> widened_min r new (min_ r).
Proof. intros [Hmin _] Hv. split; [done|]. split; [done|]. split; [|by left]. intros v Hm [?|?]; auto. Qed.
Lemma widened_max_self r new : range_ok r -> (forall v, v <= MaxOf -> v <= val (max_ new) -> v <= val (max_ r)) -> widened_max r new (max_ r).
Proof. intros [_ Hmax] Hv. split; [done|]. split; [done|]. split; [|by left]. intros v Hm [?|?]; auto. Qed.

Lemma WidenMin_widened r new :
  range_ok r -> range_ok new -> val (min_ r) <= MaxOf ->
  exists b, RangeAnalysis.WidenMin g fuel r new size = Ok b /\ widened_min r new b.
Proof.
  intros Hr Hn Hi. unfold RangeAnalysis.WidenMin. destruct (RangeBoundary.IsSymbol (min_ r)); [|by apply widen_constant_min_sound].
  destruct (LowerBound_spec g ρ rank fuel Hg _ (proj1 Hr)) as (l & -> & Hl). cbn [rbind].
  destruct (Overflowed_estimate g fuel size l _ (or_introl Hl)) as (o & -> & _). cbn [rbind].
  destruct o; [eexists; split; [done|by apply widened_to_min]|].
  destruct (DependOnSameSymbol_spec g ρ rank fuel Hg (min_ r) (min_ new)) as (e & -> & He). cbn [rbind]. destruct e.
  { pose proof (comparable_offsets ρ _ _ (He eq_refl)) as Ho. eexists. split; [done|].
    destruct (Z.leb_spec (RangeBoundary.offset (min_ r)) (RangeBoundary.offset (min_ new))); [|by apply widened_to_min].
    apply widened_min_self; [done|]. intros. lia. }
  destruct (UpperBoundOf_spec g ρ rank fuel Hg size _ (proj1 Hr)) as (x & -> & _ & Hx). destruct (LowerBoundOf_spec g ρ rank fuel Hg size _ (proj1 Hn)) as (y & -> & _ & Hy).
  cbn [rbind]. destruct (Z.leb_spec x y); [|by apply widen_constant_min_sound]. eexists. split; [done|].
  apply widened_min_self; [done|]. intros v Hm Hv. specialize (Hx (val (min_ r))). specialize (Hy v). lia.
Qed.

Lemma WidenMax_widened r new :
  range_ok r -> range_ok new -> MinOf <= val (max_ r) ->
  exists b, RangeAnalysis.WidenMax g fuel r new size = Ok b /\ widened_max r new b.
Proof.
  intros Hr Hn Hi. unfold RangeAnalysis.WidenMax. destruct (RangeBoundary.IsSymbol (max_ r)); [|by apply widen_constant_max_sound].
  destruct (UpperBound_spec g ρ rank fuel Hg _ (proj2 Hr)) as (l & -> & Hl). cbn [rbind].
  destruct (Overflowed_estimate g fuel size l _ (or_intror Hl)) as (o & -> & _). cbn [rbind].
  destruct o; [eexists; split; [done|by apply widened_to_max]|].
  destruct (DependOnSameSymbol_spec g ρ rank fuel Hg (max_ r) (max_ new)) as (e & -> & He). cbn [rbind]. destruct e.
  { pose proof (comparable_offsets ρ _ _ (He eq_refl)) as Ho. eexists. split; [done|].
    destruct (Z.leb_spec (RangeBoundary.offset (max_ new)) (RangeBoundary.offset (max_ r))); [|by apply widened_to_max].
    apply widened_max_self; [done|]. intros. lia. }
  destruct (LowerBoundOf_spec g ρ rank fuel Hg size _ (proj2 Hr)) as (x & -> & _ & Hx). destruct (UpperBoundOf_spec g ρ rank fuel Hg size _ (proj2 Hn)) as (y & -> & _ & Hy).
  cbn [rbind]. destruct (Z.leb_spec y x); [|by apply widen_constant_max_sound]. eexists. split; [done|].
  apply widened_max_self; [done|]. intros v Hm Hv. specialize (Hx (val (max_ r))). specialize (Hy v). lia.
Qed.

(** Narrowing takes a boundary of one of the two ranges. *)
Lemma NarrowMin_sound r new :
  range_ok r -> range_ok new -> exists b, RangeAnalysis.NarrowMin g fuel r new size = Ok b /\ (b = min_ r \/ b = min_ new).
Proof.
  intros Hr Hn. unfold RangeAnalysis.NarrowMin. destruct (ConstantMin_spec r Hr) as (c & -> & _). destruct (ConstantMin_spec new Hn) as (d & -> & _).
  cbn [rbind]. rewrite !ConstantValue_Constant. cbn [rbind]. destruct (_ <? _); [|destruct (RangeBoundary.IsMinimumOrBelow _ _)]; eexists; (split; [done|]); auto.
Qed.
Lemma NarrowMax_sound r new :
  range_ok r -> range_ok new -> exists b, RangeAnalysis.NarrowMax g fuel r new size = Ok b /\ (b = max_ r \/ b = max_ new).
Proof.
  intros Hr Hn. unfold RangeAnalysis.NarrowMax. destruct (ConstantMax_spec r Hr) as (c & -> & _). destruct (ConstantMax_spec new Hn) as (d & -> & _).
  cbn [rbind]. rewrite !ConstantValue_Constant. cbn [rbind]. destruct (_ <? _); [|destruct (RangeBoundary.IsMaximumOrAbove _ _)]; eexists; (split; [done|]); auto.
Qed.

End Phi.
