(* ===== verification/RangeCheck.v ===== *)
(** * RangeCheck: bounds checks that are removed are redundant

    [IsRedundantBasedOnRangeInformation] answers yes only if the index is at
    least 0 and below the length. *)

From stdpp Require Import base numbers list.
From Stdlib Require Import Lia.
From S2P Require Import Prelude Constants RangeAnalysis RangeSpec RangeTransfer RangeJoin RangeSound.

#[local] Open Scope Z_scope.
#[local] Open Scope res_scope.

Section Check.
Context `{Target} `{PointerMode} (ρ : Z -> Z) (rank : Z -> nat) (fuel : nat).

Notation val := (val ρ).
Notation wf := (wf ρ).
Notation rank_of := (rank_of rank).

Section Graph.
Context (g : Graph) (Hg : executes g ρ rank fuel).

(** ** Symbols *)

(** An upper estimate, or a definition that need not be a Smi. *)
Definition max_est (b : RangeBoundary) (v : Z) : Prop :=
  est ρ PositiveInfinity (flip Z.le) b v \/ exists s, b = Symbol s 0 /\ ρ s = v.

Lemma max_est_symbol s o v : max_est (Symbol s o) v -> v <= ρ s + o.
Proof. intros [[?|[_ Hv]]|(t & [= -> ->] & Et)]; [done|done|lia]. Qed.

Lemma CanonicalizeMax_max_est b v :
  max_est b v -> exists r, RangeBoundary.CanonicalizeMaxBoundary g fuel b = Ok r /\
    match r with None => True | Some c => max_est c v /\ (rank_of c < rank_of b)%nat end.
Proof.
  intros [Hb|(s & -> & <-)].
  - destruct (CanonicalizeMax_spec g ρ rank fuel Hg b v Hb) as (r & -> & Hr). exists r. split; [done|]. destruct r; [|done]. split; [left|]; apply Hr.
  - destruct (CanonicalizeMax_symbol g ρ rank fuel Hg s 0) as (r & -> & Hr); [by apply valid_offset_0|]. rewrite Z.add_0_r in Hr.
    exists r. split; [done|]. destruct r; [|done]. split; [left|]; apply Hr.
Qed.

Lemma compare_symbols_spec k : forall max len vm vl,
  max_est max vm -> est ρ NegativeInfinity Z.le len vl -> (rank_of max + rank_of len < k)%nat ->
  exists b, RangeAnalysis.compare_symbols g fuel k max len = Ok b /\ (b = true -> vm < vl).
Proof.
  induction k as [|k IH]; intros max len vm vl Hm Hl Hk; [lia|]. cbn [RangeAnalysis.compare_symbols].
  destruct (DependOnSameSymbol_spec g ρ rank fuel Hg max len) as (e & -> & He). cbn [rbind]. destruct e.
  { destruct (He eq_refl) as (s & t & o & o' & -> & -> & Est). eexists. split; [done|]. cbn. intros Hlt%Z.ltb_lt.
    apply max_est_symbol in Hm. destruct Hl as [?|[_ Hl]]; [done|]. cbn in Hl. lia. }
  destruct (CanonicalizeMax_max_est max vm Hm) as (r & -> & Hr). cbn [rbind]. destruct r as [m|]; [apply IH; [apply Hr|done|lia]|].
  destruct (CanonicalizeMin_spec g ρ rank fuel Hg len vl Hl) as (c & -> & Hc). cbn [rbind]. destruct c as [c|]; [|by exists false].
  apply IH; [done|apply Hc|lia].
Qed.

(** ** The index *)

Lemma FromDefinition_any d :
  exists b, RangeBoundary.FromDefinition g d 0 = Ok b /\ max_est b (ρ d) /\
    (b = Symbol d 0 \/ b = Constant (ρ d) /\ smi (ρ d)).
Proof.
  unfold RangeBoundary.FromDefinition. destruct (instr g d) as [[c|]| | |] eqn:E.
  { destruct (ex_constant _ _ _ _ Hg d c E) as [<- Hc]. rewrite Z.add_0_r. pose proof (smi_int64 _ Hc). rewrite int64_op_ok by done.
    eexists. split; [done|]. split; [left; right; split; [done|by unfold flip]|by right]. }
  all: rewrite ASSERT_true by (by apply IsValidOffset_spec, valid_offset_0); eexists; (split; [done|]); (split; [right; by exists d|by left]).
Qed.

Lemma OverflowedSmi_constant c : int64 c -> RangeBoundary.OverflowedSmi (Constant c) = false -> smi c.
Proof. intros Hc E%negb_false_iff. by apply IsSmi_spec. Qed.

(** The upper bound of the index, cut to Smis, is above it unless it is the
    greatest Smi. *)
Lemma UpperBound_any d b r :
  range g d = Some r -> b = Symbol d 0 \/ b = Constant (ρ d) /\ smi (ρ d) ->
  exists c, RangeBoundary.UpperBound g fuel b = Ok (Constant c) /\ smi c /\ (c < kSmiMax -> ρ d <= c).
Proof.
  intros Er. pose proof (ex_fuel _ _ _ _ Hg d) as Hf. assert (exists k, fuel = S k) as [k Ek] by (exists (pred fuel); lia).
  unfold RangeBoundary.UpperBound. rewrite Ek. intros [->|[-> Hs]]; [|by exists (ρ d)].
  destruct (ex_range _ _ _ _ Hg d r Er) as ([_ Hmax] & [_ Hc] & _ & Hr).
  cbn [RangeBoundary.UpperBound_loop RangeBoundary.IsInfinity RangeBoundary.IsNegativeInfinity RangeBoundary.IsPositiveInfinity RangeBoundary.IsConstant orb].
  unfold RangeBoundary.symbol. rewrite ASSERT_true by done. cbn [rbind RangeBoundary.offset]. rewrite Er.
  destruct (UpperBound_loop_spec g ρ rank fuel Hg k (max_ r) Hmax) as (u & -> & Hu); [lia|]. cbn [rbind].
  destruct (Clamp_high kRangeBoundarySmi u (Z.min (ρ d) kSmiMax)) as (c & -> & Hin & Hle); [eapply high_le; [done|lia]|].
  pose proof (smi_int64 c Hin) as Hc64. pose proof int64_0 as H0'.
  assert (WillAddOverflow c 0 = false) as Ew by (apply WillAddOverflow_spec; [done..|]; by rewrite Z.add_0_r).
  rewrite Add_constants, Ew, Z.add_0_r by done. exists c. split; [done|]. split; [exact Hin|]. cbn in Hle. lia.
Qed.

(** The lower bound of the index, cut to Smis, tells its sign. *)
Lemma ConstantMin_sign d r :
  range g d = Some r ->
  exists c, Range.ConstantMin g fuel (Some r) kRangeBoundarySmi = Ok (Constant c) /\ (0 <= c -> 0 <= ρ d).
Proof.
  intros Er. destruct (ex_range _ _ _ _ Hg d r Er) as ([Hmin _] & [Hc _] & _). unfold Range.ConstantMin.
  destruct (LowerBound_spec g ρ rank fuel Hg _ Hmin) as (l & -> & Hl). cbn [rbind].
  destruct (Clamp_low kRangeBoundarySmi l (Z.max (ρ d) kSmiMin)) as (c & -> & _ & Hle); [eapply low_le; [done|lia]|].
  exists c. split; [done|]. pose proof smi_bounds. cbn in Hle. lia.
Qed.

(** ** The check *)

Lemma check_is_redundant_sound d r len :
  range g d = Some r -> smi (ρ len) ->
  exists b, RangeAnalysis.check_is_redundant g fuel d r len = Ok b /\ (b = true -> 0 <= ρ d < ρ len).
Proof.
  intros Er Hlen. unfold RangeAnalysis.check_is_redundant.
  destruct (ConstantMin_sign d r Er) as (c & -> & Hsign). cbn [rbind]. rewrite ConstantValue_Constant. cbn [rbind].
  destruct (Z.ltb_spec c 0); [by exists false|]. specialize (Hsign ltac:(lia)).
  destruct (FromDefinition_any d) as (m & -> & Hm & Hmd). cbn [rbind].
  destruct (UpperBound_any d m r Er Hmd) as (u & -> & Hu & Hup). cbn [rbind].
  destruct (FromDefinition_spec g ρ rank fuel Hg len 0 Hlen) as (al & -> & Wal & Val & Ral); [by apply valid_offset_0|]. cbn [rbind].
  destruct (LowerBound_spec g ρ rank fuel Hg al Wal) as (ll & -> & Hll). cbn [rbind].
  destruct (RangeBoundary.OverflowedSmi (Constant u) || RangeBoundary.OverflowedSmi ll) eqn:Eo; [by exists false|].
  apply orb_false_iff in Eo as [_ Eo]. inversion Hll as [w Ew Ev|y w Hy Hle Ew Ev]; subst ll; [done|]. rewrite !ConstantValue_Constant. cbn [rbind].
  apply OverflowedSmi_constant in Eo; [|done]. destruct (Z.ltb_spec u y).
  { exists true. split; [done|]. intros _. unfold smi in *. lia. }
  destruct (CanonicalizeBoundary_spec g ρ rank fuel Hg al PositiveInfinity Wal) as (cl & -> & Hcl & Rcl); [done|]. cbn [rbind].
  destruct (RangeBoundary.OverflowedSmi cl) eqn:Ec; [by exists false|]. destruct Hcl as [->|[Wcl Vcl]]; [done|].
  pose proof (rank_of_fuel g ρ rank fuel Hg m). pose proof (rank_of_fuel g ρ rank fuel Hg cl).
  destruct (compare_symbols_spec (2 * fuel) m cl (ρ d) (ρ len) Hm) as (b & -> & Hb); [right; split; [done|]; rewrite Vcl, Val; lia|lia|].
  exists b. split; [done|]. intros Ht. specialize (Hb Ht). lia.
Qed.

(** ** Constants *)

Lemma OriginalDefinition_spec d :
  exists o, RangeAnalysis.OriginalDefinition g fuel d = Ok o /\ ρ o = ρ d.
Proof.
  unfold RangeAnalysis.OriginalDefinition. assert (forall k d, (rank d < k)%nat -> exists o, RangeAnalysis.OriginalDefinition_loop g k d = Ok o /\ ρ o = ρ d) as Hk.
  { induction k as [|k IH]; intros e He; [lia|]. cbn. destruct (RedefinedValue g e) as [v|] eqn:E; [|by exists e].
    destruct (ex_redefined _ _ _ _ Hg e v E) as [-> ?]. apply IH. lia. }
  apply Hk. pose proof (ex_fuel _ _ _ _ Hg d). lia.
Qed.

Lemma SmiConstantOf_spec d :
  exists c, RangeAnalysis.SmiConstantOf g fuel d = Ok c /\ (forall v, c = Some v -> ρ d = v /\ smi v).
Proof.
  unfold RangeAnalysis.SmiConstantOf. destruct (OriginalDefinition_spec d) as (o & -> & Eo). cbn [rbind]. eexists. split; [done|].
  intros v Hv. destruct (instr g o) as [c| | |] eqn:E; try done. subst c. rewrite <- Eo. by apply (ex_constant _ _ _ _ Hg).
Qed.

End Graph.

(** C18. A bounds check that is removed is redundant. For a graph whose ranges
    contain the values of an execution, with symbols that do not form a cycle, and
    a length that is a Smi (the index need not be one),
    IsRedundantBasedOnRangeInformation returns, by constants or by following
    symbols and the ranges of symbols; when it answers yes, 0 <= index < length
    in that execution; and the range it may have given to a constant index is
    right. *)
Theorem IsRedundant_sound g index length :
  executes g ρ rank fuel -> smi (ρ length) ->
  exists b g', RangeAnalysis.IsRedundantBasedOnRangeInformation fuel g index length = Ok (b, g') /\
    (b = true -> 0 <= ρ index < ρ length) /\ executes g' ρ rank fuel.
Proof.
  intros Hg Hlen. unfold RangeAnalysis.IsRedundantBasedOnRangeInformation.
  destruct (SmiConstantOf_spec g Hg index) as (ci & Eci & Hci). rewrite Eci. destruct (SmiConstantOf_spec g Hg length) as (cl & -> & Hcl). cbn [rbind].
  assert (forall r, range g index = Some r -> exists b g', (let* b := RangeAnalysis.check_is_redundant g fuel index r length in Ok (b, g)) = Ok (b, g') /\
    (b = true -> 0 <= ρ index < ρ length) /\ executes g' ρ rank fuel) as Hrange.
  { intros r Er. destruct (check_is_redundant_sound g Hg index r length Er Hlen) as (b & -> & Hb). by exists b, g. }
  assert (forall c, ci = Some c -> exists b g', (let* index_defn := RangeAnalysis.OriginalDefinition g fuel index in
          let* r := Range.make (Constant c) (Constant c) in
          let g := set_range g index_defn r in
          let* b := RangeAnalysis.check_is_redundant g fuel index_defn r length in
          Ok (b, g)) = Ok (b, g') /\ (b = true -> 0 <= ρ index < ρ length) /\ executes g' ρ rank fuel) as Hconst.
  { intros c Ec. destruct (Hci c Ec) as [Ei Hc]. destruct (OriginalDefinition_spec g Hg index) as (o & -> & Eo). cbn [rbind].
    pose proof (smi_int64 _ Hc) as Hc64. assert (Range.make (Constant c) (Constant c) = Ok (mkRange (Constant c) (Constant c))) as -> by (unfold Range.make; by rewrite ASSERT_true). cbn [rbind].
    assert (executes (set_range g o (mkRange (Constant c) (Constant c))) ρ rank fuel) as Hg'.
    { apply executes_set_range; [done|done| |split; cbn; lia]. split; cbn; lia. }
    destruct (check_is_redundant_sound _ Hg' o (mkRange (Constant c) (Constant c)) length) as (b & -> & Hb); [cbn; by rewrite Z.eqb_refl|done|].
    cbn [rbind]. eexists _, _. split; [done|]. rewrite <- Eo. done. }
  destruct ci as [i|], cl as [l|]; [eexists _, _; split; [done|]|..].
  { destruct (Hci i eq_refl) as [-> _], (Hcl l eq_refl) as [-> _]. split; [|done]. intros [?%Z.leb_le ?%Z.ltb_lt]%andb_true_iff. done. }
  all: destruct (range g index) as [r|]; [by apply Hrange|]; try (by apply Hconst); by eexists _, _.
Qed.

End Check.
