(* ===== verification/RangeInfer.v ===== *)
(** * RangeInfer: the ranges that definitions infer

    The [InferRange] methods of vm/compiler/backend/range_analysis.cc: constants,
    phis, conversions between integer representations with the checks of debug
    builds that a range fits a representation, and one step of the iteration
    ([RangeAnalysis::InferRange]). *)

From stdpp Require Import base numbers list.
From Stdlib Require Import Lia.
From S2P Require Import Prelude Constants RangeAnalysis.

#[local] Open Scope Z_scope.
#[local] Open Scope res_scope.

#[export] Instance RangeBoundary_eq_dec : EqDecision RangeBoundary.
Proof. solve_decision. Defined.
#[export] Instance Range_eq_dec : EqDecision Range.
Proof. solve_decision. Defined.

(** ** Representations *)

Definition ValueSize (rep : Representation) : Res Z :=
  match rep with
  | kUnboxedUint8 => Ok 1 | kUnboxedUint16 => Ok 2
  | kUnboxedInt32 | kUnboxedUint32 => Ok 4
  | kUnboxedInt64 => Ok 8
  | _ => Err Unreachable
  end.
Definition IsUnsigned (rep : Representation) : bool :=
  match rep with kUnboxedUint8 | kUnboxedUint16 | kUnboxedUint32 => true | _ => false end.

(** ** The inputs of a definition *)

(** [RangeAnalysis::GetSmiRange] and [GetIntRange]: a definition that never gets
    a range has the widest one. *)
Definition GetSmiRange `{Target} `{PointerMode} (range : option Range) (is_smi : bool) : option Range :=
  match range with
  | None => if is_smi then None else Some (Range.Full kRangeBoundarySmi)
  | Some r => Some r
  end.
Definition GetIntRange `{Target} `{PointerMode} (range : option Range) (is_int : bool) : option Range :=
  match range with
  | None => if is_int then None else Some Range.Int64Range
  | Some r => Some r
  end.

(** What the analysis knows of an input: the definition, its range, and whether
    its type is Smi or an integer type. *)
Record Input : Set := mkInput { in_defn : Z; in_range : option Range; in_smi : bool; in_int : bool }.

Definition GetInputRange `{Target} `{PointerMode} (size : RangeSize) (input : Input) : Res (option Range) :=
  match size with
  | kRangeBoundarySmi => Ok (GetSmiRange (in_range input) (in_smi input))
  | kRangeBoundaryInt32 => Ok (in_range input)
  | kRangeBoundaryInt64 => Ok (GetIntRange (in_range input) (in_int input))
  | kRangeBoundaryInt16 => Err Unreachable
  end.

(** The size of a phi, by its type and representation. *)
Definition RangeSizeForPhi (is_smi is_int : bool) (rep : Representation) : Res RangeSize :=
  if is_smi then Ok kRangeBoundarySmi
  else match rep with
       | kUnboxedInt32 => Ok kRangeBoundaryInt32
       | _ => if is_int then Ok kRangeBoundaryInt64 else Err Unreachable
       end.

(** ** InferRange *)

Section Infer.
Context `{Target} `{PointerMode} (g : Graph) (fuel : nat).

Definition InferConstant (value : Z) : Res Range := Range.make (Constant value) (Constant value).

Definition InferIfThenElse (if_true if_false : Z) : Res Range :=
  Range.make (Constant (Z.min if_true if_false)) (Constant (Z.max if_true if_false)).

(** *** Phis *)

(** [dominates d]: the block of [d] dominates the phi's and is another one. *)
Definition EnsureAcyclicSymbol (dominates : Z -> bool) (a limit : RangeBoundary) : Res RangeBoundary :=
  match a with
  | Symbol s o =>
      if dominates s then Ok a
      else
        let* unwrapped := RangeBoundary.UnwrapConstraint g fuel s in
        if negb (unwrapped =? s) && dominates unwrapped then RangeBoundary.FromDefinition g unwrapped o
        else Ok limit
  | _ => Ok a
  end.

Fixpoint JoinInputs (size : RangeSize) (range : option Range) (inputs : list Input) : Res (option Range) :=
  match inputs with
  | [] => Ok range
  | input :: inputs =>
      let* r := GetInputRange size input in
      let* range := RangeAnalysis.Join g fuel range (in_defn input) r size in
      JoinInputs size range inputs
  end.

Definition InferPhi (dominates : Z -> bool) (size : RangeSize) (inputs : list Input) : Res (option Range) :=
  let* range := JoinInputs size None inputs in
  match range with
  | None => Ok None
  | Some r =>
      let* min := EnsureAcyclicSymbol dominates (min_ r) RangeBoundary.MinSmi in
      let r := Range.set_min min r in
      let* max := EnsureAcyclicSymbol dominates (max_ r) RangeBoundary.MaxSmi in
      Ok (Some (Range.set_max max r))
  end.

(** *** Conversions *)

(** [RangeUtils::IsWithin]: an unknown range is within none. *)
Definition RangeUtils_IsWithin (range : option Range) (other : Range) : Res bool :=
  if Range.IsUnknown range then Ok false
  else match range with Some r => Range.IsWithinRange g fuel r other | None => Ok false end.

(** [CheckRangeForRepresentation], in debug builds only. *)
Definition ASSERT_VALID_RANGE_FOR_REPRESENTATION (range : Range) (rep : Representation) : Res unit :=
  if DEBUG then
    let* other := Range.FullOf rep in
    let* within := RangeUtils_IsWithin (Some range) other in
    ASSERT within
  else Ok tt.

Definition InferBoxInteger (from : Representation) (value_range : option Range) : Res Range :=
  match value_range with
  | Some r =>
      if Range.IsUnknown (Some r) then Range.FullOf from
      else ASSERT_VALID_RANGE_FOR_REPRESENTATION r from ;; Ok r
  | None => Range.FullOf from
  end.

Definition InferUnboxInteger (rep : Representation) (is_truncating : bool) (value_range : option Range) : Res Range :=
  let* to_range := Range.FullOf rep in
  let* range :=
    match value_range with
    | None => Ok to_range
    | Some r =>
        if Range.IsUnknown (Some r) then Ok to_range
        else
          let* within := Range.IsWithinRange g fuel r to_range in
          if within then Ok r
          else if is_truncating then Ok to_range
          else Range.Intersect g fuel r to_range
    end in
  ASSERT_VALID_RANGE_FOR_REPRESENTATION range rep ;; Ok range.

(** [from] is none for untagged addresses. *)
Definition InferIntConverter (from : option Representation) (to : Representation) (is_truncating : bool) (value_range : option Range) : Res Range :=
  ASSERT (IsUnboxedInteger to) ;;
  ASSERT (match from with None => true | Some from => IsUnboxedInteger from end) ;;
  let* to_range := Range.FullOf to in
  let* range :=
    match from, value_range with
    | None, _ => ASSERT (bool_decide (value_range = None)) ;; Ok to_range
    | Some _, None => Ok to_range
    | Some from, Some r =>
        if Range.IsUnknown (Some r) then Ok to_range
        else
          let* to_size := ValueSize to in
          let* from_size := ValueSize from in
          if (from_size <? to_size) && (negb (IsUnsigned to) || IsUnsigned from) then Ok r
          else if is_truncating then
            let* from_range := Range.FullOf from in
            let* common_range := Range.Intersect g fuel from_range to_range in
            let* within := Range.IsWithinRange g fuel r common_range in
            if within then Ok r else Ok to_range
          else Range.Intersect g fuel r to_range
    end in
  ASSERT_VALID_RANGE_FOR_REPRESENTATION range to ;; Ok range.

End Infer.

(** ** One step of the iteration *)

Inductive JoinOperator : Set := NONE | WIDEN | NARROW.

Section Step.
Context `{Target} `{PointerMode} (fuel : nat).

(** [RangeAnalysis::InferRange] with the range that the definition inferred, none
    if it is unknown: whether the graph changed, and the graph. *)
Definition InferRange (g : Graph) (op : JoinOperator) (defn : Z) (phi_size : option RangeSize) (inferred : option Range) : Res (bool * Graph) :=
  match inferred with
  | None => Ok (false, g)
  | Some new_range =>
      let* result :=
        match range g defn, phi_size, op with
        | Some old, Some size, WIDEN =>
            if Range.IsUnknown (Some old) then Ok new_range
            else
              let* l := RangeAnalysis.WidenMin g fuel old new_range size in
              let* u := RangeAnalysis.WidenMax g fuel old new_range size in
              Range.make l u
        | Some old, Some size, NARROW =>
            if Range.IsUnknown (Some old) then Ok new_range
            else
              let* l := RangeAnalysis.NarrowMin g fuel old new_range size in
              let* u := RangeAnalysis.NarrowMax g fuel old new_range size in
              Range.make l u
        | _, _, _ => Ok new_range
        end in
      let* e := Range.Equals g fuel result (range g defn) in
      if e then Ok (false, g) else Ok (true, set_range g defn result)
  end.

End Step.
