(* ===== verification/RangeInferSpec.v ===== *)
(** * RangeInferSpec: phis and conversions

    The range of a phi contains all its inputs and depends only on definitions
    that dominate it; the range of a conversion contains the converted value. *)

From stdpp Require Import base numbers list.
From Stdlib Require Import Lia.
From S2P Require Import Prelude Constants RangeAnalysis RangeSpec RangeTransfer RangeJoin RangeSound RangePhi RangeInfer.

#[local] Open Scope Z_scope.
#[local] Open Scope res_scope.

Section Inference.
Context `{Target} `{PointerMode} (g : Graph) (ρ : Z -> Z) (rank : Z -> nat) (fuel : nat) (Hg : executes g ρ rank fuel).

Notation val := (val ρ).
Notation wf := (wf ρ).
Notation rank_of := (rank_of rank).
Notation range_ok := (range_ok ρ).
Notation contains := (contains ρ).
Notation bounded := (bounded rank).

(** ** Phis *)

(** An input with a range that contains its value. *)
Definition known (size : RangeSize) (i : Input) : Prop :=
  in_size size (ρ (in_defn i)) /\
  exists r, GetInputRange size i = Ok (Some r) /\ range_ok r /\ contains r (ρ (in_defn i)).

Lemma bounded_fuel r : bounded fuel r.
Proof. split; apply Nat.lt_le_incl, (rank_of_fuel g ρ rank fuel Hg). Qed.

Lemma JoinInputs_sound size inputs : Forall (known size) inputs -> forall r,
  range_ok r -> inhabited ρ size r ->
  exists r', JoinInputs g fuel size (Some r) inputs = Ok (Some r') /\ range_ok r' /\
    (forall v, in_size size v -> contains r v -> contains r' v) /\
    (forall i, i ∈ inputs -> contains r' (ρ (in_defn i))).
Proof.
  induction 1 as [|i inputs (Hs & ri & Ei & Hi & Hc) _ IH]; intros r Hr Ir.
  { exists r. split; [done|]. split; [done|]. split; [done|]. intros i Hin. by apply elem_of_nil in Hin. }
  cbn [JoinInputs]. rewrite Ei. cbn [rbind].
  destruct (Join_contains g ρ rank fuel Hg size fuel r (in_defn i) ri Hr Hi (bounded_fuel r) (bounded_fuel ri) Ir Hc Hs) as (j & -> & Hj & _ & Hin);
    [pose proof (ex_fuel _ _ _ _ Hg (in_defn i)); lia|]. cbn [rbind].
  destruct (IH j Hj) as (r' & -> & Hr' & Hmono & Hall); [exists (ρ (in_defn i)); split; [|done]; apply Hin; auto|].
  exists r'. split; [done|]. split; [done|]. split; [intros v Hv Hcv; apply Hmono; auto|].
  intros k [->|Hk]%elem_of_cons; [apply Hmono; auto|by apply Hall].
Qed.

(** A boundary over definitions that dominate the phi. *)
Lemma EnsureAcyclicSymbol_sound dominates n a limit :
  (forall d, dominates d = true -> (rank d < n)%nat) -> wf a -> wf limit -> rank_of limit = 0%nat ->
  exists b, EnsureAcyclicSymbol g fuel dominates a limit = Ok b /\ wf b /\ (rank_of b <= n)%nat /\ (val b = val a \/ b = limit).
Proof.
  intros Hdom Ha Hl Rl. destruct a as [| | |s o|c]; try done; cbn [EnsureAcyclicSymbol].
  2: { exists (Constant c). split; [done|]. split; [done|]. split; [cbn; lia|by left]. }
  destruct (dominates s) eqn:Es.
  { exists (Symbol s o). split; [done|]. split; [done|]. split; [|by left]. apply Hdom in Es. cbn. lia. }
  destruct (UnwrapConstraint_spec g ρ rank fuel Hg s) as (u & -> & Eu & _). cbn [rbind].
  destruct (negb (u =? s) && dominates u) eqn:E; [|exists limit; split; [done|]; split; [done|]; split; [lia|by right]].
  apply andb_true_iff in E as [_ Ed%Hdom]. destruct Ha as [Hs Ho]. rewrite <- Eu in Hs.
  destruct (FromDefinition_spec g ρ rank fuel Hg u o Hs Ho) as (b & -> & Wb & Vb & Rb). exists b. split; [done|]. split; [done|].
  split; [lia|]. left. cbn. lia.
Qed.

Lemma Smi_limits : wf RangeBoundary.MinSmi /\ wf RangeBoundary.MaxSmi.
Proof. pose proof smi_bounds. cbn. unfold int64. lia. Qed.

(** C22. The range of a phi of Smis. When each input has a range that contains its
    value, PhiInstr::InferRange returns a range that contains every input's value,
    whichever input control comes from; and its boundaries are constants or
    definitions that dominate the phi, even where an input's range depends on
    later definitions, so that ranges never refer to themselves. *)
Theorem InferPhi_sound dominates n inputs :
  (forall d, dominates d = true -> (rank d < n)%nat) -> inputs <> [] -> Forall (known kRangeBoundarySmi) inputs ->
  exists r, InferPhi g fuel dominates kRangeBoundarySmi inputs = Ok (Some r) /\ range_ok r /\ bounded n r /\
    forall i, i ∈ inputs -> contains r (ρ (in_defn i)).
Proof.
  intros Hdom Hne Hall. assert (forall i, i ∈ inputs -> smi (ρ (in_defn i))) as Hsmi.
  { intros i Hi. by apply (proj1 (Forall_forall _ _) Hall i Hi). }
  assert (exists r, JoinInputs g fuel kRangeBoundarySmi None inputs = Ok (Some r) /\ range_ok r /\ forall i, i ∈ inputs -> contains r (ρ (in_defn i))) as (r & Er & Hr & Hc).
  { destruct Hall as [|i inputs Hk Hall]; [done|]. destruct Hk as (Hs & ri & Ei & Hi & Hc). cbn [JoinInputs]. rewrite Ei. cbn [rbind].
    assert (RangeAnalysis.Join g fuel None (in_defn i) (Some ri) kRangeBoundarySmi = Ok (Some ri)) as ->.
    { unfold RangeAnalysis.Join. cbn [Range.IsUnknown]. by destruct (wf_finite _ _ (proj1 Hi)) as [_ ->]. }
    cbn [rbind]. destruct (JoinInputs_sound kRangeBoundarySmi inputs Hall ri Hi) as (r & -> & Hr & Hm & Hin); [by exists (ρ (in_defn i))|].
    exists r. split; [done|]. split; [done|]. intros k [->|Hk]%elem_of_cons; auto. }
  unfold InferPhi. rewrite Er. cbn [rbind]. destruct Smi_limits as [Wm WM], Hr as [Hmin Hmax].
  destruct (EnsureAcyclicSymbol_sound dominates n (min_ r) RangeBoundary.MinSmi Hdom Hmin Wm eq_refl) as (a & -> & Wa & Ra & Va). cbn [rbind].
  unfold Range.set_min. destruct (wf_finite _ _ Wa) as [-> _]. cbn [max_].
  destruct (EnsureAcyclicSymbol_sound dominates n (max_ r) RangeBoundary.MaxSmi Hdom Hmax WM eq_refl) as (b & -> & Wb & Rb & Vb). cbn [rbind].
  unfold Range.set_max. destruct (wf_finite _ _ Wb) as [-> _]. eexists. split; [done|]. split; [done|]. split; [done|].
  intros i Hi. destruct (Hc i Hi) as [? ?]. pose proof (Hsmi i Hi) as [? ?]. split; cbn; [destruct Va as [-> | ->]|destruct Vb as [-> | ->]]; cbn; lia.
Qed.

(** ** Conversions *)

(** What a conversion to [rep] computes: the value modulo its width when it
    truncates, otherwise the value, and none (deoptimization) if it does not
    fit. *)
Definition rep_wrap (rep : Representation) (v : Z) : Z :=
  match rep with
  | kUnboxedUint8 => wrapU 8 v
  | kUnboxedUint16 => wrapU 16 v
  | kUnboxedUint32 => wrapU 32 v
  | kUnboxedInt32 => wrapS 32 v
  | _ => wrapS 64 v
  end.
Definition convert (rep : Representation) (is_truncating : bool) (v : Z) : option Z :=
  if is_truncating then Some (rep_wrap rep v) else if rep_wrap rep v =? v then Some v else None.

Definition representable (rep : Representation) (v : Z) : Prop := rep_wrap rep v = v.

(** The bounds of a representation. *)
Record rep_bounds (rep : Representation) (lo hi : Z) : Prop := {
  rep_full : Range.FullOf rep = Ok (mkRange (Constant lo) (Constant hi));
  rep_lo : int64 lo /\ lo <= 0;
  rep_hi : int64 hi /\ 0 <= hi;
  rep_iff : forall v, representable rep v <-> lo <= v <= hi;
  rep_range : forall v, lo <= rep_wrap rep v <= hi
}.

Lemma wrapU_iff n v : 0 <= n -> wrapU n v = v <-> 0 <= v <= 2 ^ n - 1.
Proof.
  intros Hn. pose proof (wrapU_range n v Hn) as R. unfold inU in R. split; [lia|]. intros. apply wrapU_small. unfold inU. lia.
Qed.
Lemma wrapS_iff n v : 0 < n -> wrapS n v = v <-> - 2 ^ (n - 1) <= v <= 2 ^ (n - 1) - 1.
Proof.
  intros Hn. pose proof (wrapS_range n v Hn) as R. unfold inS in R. split; [lia|]. intros. apply wrapS_small; [done|]. unfold inS. lia.
Qed.

Lemma FullOf_bounds rep lo hi :
  IsUnboxedInteger rep = true -> Range.MinValue rep = Ok lo -> Range.MaxValue rep = Ok hi -> Range.FullOf rep = Ok (mkRange (Constant lo) (Constant hi)).
Proof. intros E El Eh. unfold Range.FullOf, Range.make. rewrite E, !ASSERT_true by done. rewrite El, Eh. cbn [rbind]. by rewrite ASSERT_true. Qed.

Lemma rep_bounds_unsigned rep n :
  0 <= n <= 32 -> IsUnboxedInteger rep = true -> Range.MinValue rep = Ok 0 -> Range.MaxValue rep = Ok (2 ^ n - 1) -> (forall v, rep_wrap rep v = wrapU n v) ->
  rep_bounds rep 0 (2 ^ n - 1).
Proof.
  intros Hn E El Eh Ew. pose proof (pow2_pos n ltac:(lia)). pose proof (Z.pow_le_mono_r 2 n 32).
  constructor; [by apply FullOf_bounds|by split; [apply int64_0|]|unfold int64, kMinInt64, kMaxInt64; lia|..]; intros v; unfold representable; rewrite Ew.
  - apply wrapU_iff. lia.
  - pose proof (wrapU_range n v ltac:(lia)) as R. unfold inU in R. lia.
Qed.
Lemma rep_bounds_signed rep n :
  0 < n <= 64 -> IsUnboxedInteger rep = true -> Range.MinValue rep = Ok (- 2 ^ (n - 1)) -> Range.MaxValue rep = Ok (2 ^ (n - 1) - 1) ->
  (forall v, rep_wrap rep v = wrapS n v) -> rep_bounds rep (- 2 ^ (n - 1)) (2 ^ (n - 1) - 1).
Proof.
  intros Hn E El Eh Ew. pose proof (pow2_pos (n - 1) ltac:(lia)). pose proof (Z.pow_le_mono_r 2 (n - 1) 63).
  constructor; [by apply FullOf_bounds|unfold int64, kMinInt64, kMaxInt64; lia..| |]; intros v; unfold representable; rewrite Ew.
  - apply wrapS_iff. lia.
  - pose proof (wrapS_range n v ltac:(lia)) as R. unfold inS in R. lia.
Qed.

Lemma rep_bounds_exist rep : IsUnboxedInteger rep = true -> exists lo hi, rep_bounds rep lo hi.
Proof.
  intros E. destruct rep; try done; eexists _, _.
  - apply (rep_bounds_unsigned _ 8); (lia || done).
  - apply (rep_bounds_unsigned _ 16); (lia || done).
  - apply (rep_bounds_signed _ 32); (lia || done).
  - apply (rep_bounds_unsigned _ 32); (lia || done).
  - apply (rep_bounds_signed _ 64); (lia || done).
Qed.

Lemma rep_contains rep lo hi : rep_bounds rep lo hi ->
  range_ok (mkRange (Constant lo) (Constant hi)) /\ (forall v, contains (mkRange (Constant lo) (Constant hi)) v <-> representable rep v).
Proof. intros B. split; [split; [apply (rep_lo _ _ _ B)|apply (rep_hi _ _ _ B)]|]. intros v. symmetry. apply (rep_iff _ _ _ B). Qed.

Lemma IsWithinRange_sound r x lo hi :
  range_ok r -> contains r x -> int64 lo -> int64 hi ->
  exists b, Range.IsWithinRange g fuel r (mkRange (Constant lo) (Constant hi)) = Ok b /\ (b = true -> lo <= x <= hi).
Proof.
  intros Hr Hx Hlo Hhi. destruct (view_exists g ρ rank fuel Hg r x Hr Hx) as (a & b & V & Hab).
  assert (exists k, fuel = S k) as [k Ek] by (exists (pred fuel); pose proof (ex_fuel _ _ _ _ Hg 0); lia).
  assert (RangeBoundary.LowerBound g fuel (Constant lo) = Ok (Constant lo)) as El by (by rewrite Ek).
  assert (RangeBoundary.UpperBound g fuel (Constant hi) = Ok (Constant hi)) as Eh by (by rewrite Ek).
  unfold Range.IsWithinRange. cbn [min_ max_]. rewrite El, Eh. cbn [rbind RangeBoundary.IsNegativeInfinity RangeBoundary.IsPositiveInfinity].
  rewrite !ConstantValue_Constant. cbn [rbind]. unfold Range.IsWithin.
  destruct (view_ge _ _ _ _ _ V lo) as (c & -> & Hc). cbn [rbind]. destruct c; [|by exists false].
  destruct (view_le _ _ _ _ _ V hi) as (d & -> & Hd). exists d. split; [done|]. intros ->. specialize (Hc eq_refl). specialize (Hd eq_refl). lia.
Qed.

(** What the test of a range against constants reads: its bounds in constants. *)
Definition bound_ge (l : RangeBoundary) (c : Z) : bool := match l with Constant x => c <=? x | _ => false end.
Definition bound_le (u : RangeBoundary) (c : Z) : bool := match u with Constant x => x <=? c | _ => false end.

Lemma IsWithinRange_eval r :
  range_ok r -> exists l u, RangeBoundary.LowerBound g fuel (min_ r) = Ok l /\ RangeBoundary.UpperBound g fuel (max_ r) = Ok u /\
    forall lo hi, Range.IsWithinRange g fuel r (mkRange (Constant lo) (Constant hi)) = Ok (bound_ge l lo && bound_le u hi).
Proof.
  intros [Hmin Hmax]. destruct (LowerBound_spec g ρ rank fuel Hg _ Hmin) as (l & El & Hl), (UpperBound_spec g ρ rank fuel Hg _ Hmax) as (u & Eu & Hu).
  assert (exists k, fuel = S k) as [k Ek] by (exists (pred fuel); pose proof (ex_fuel _ _ _ _ Hg 0); lia).
  exists l, u. split; [done|]. split; [done|]. intros lo hi.
  assert (RangeBoundary.LowerBound g fuel (Constant lo) = Ok (Constant lo)) as Elo by (by rewrite Ek).
  assert (RangeBoundary.UpperBound g fuel (Constant hi) = Ok (Constant hi)) as Ehi by (by rewrite Ek).
  unfold Range.IsWithinRange, Range.IsWithin, Range.OnlyGreaterThanOrEqualTo, Range.OnlyLessThanOrEqualTo. cbn [min_ max_].
  rewrite Elo, Ehi, El, Eu. cbn [rbind RangeBoundary.IsNegativeInfinity RangeBoundary.IsPositiveInfinity].
  rewrite !ConstantValue_Constant. cbn [rbind].
  destruct Hl, Hu; cbn [RangeBoundary.IsNegativeInfinity RangeBoundary.IsPositiveInfinity]; rewrite ?ConstantValue_Constant; cbn [rbind bound_ge bound_le];
    try destruct (lo <=? _); done.
Qed.

(** A range within some constants is within wider ones. *)
Lemma IsWithinRange_mono r a b lo hi :
  range_ok r -> lo <= a -> b <= hi -> Range.IsWithinRange g fuel r (mkRange (Constant a) (Constant b)) = Ok true ->
  Range.IsWithinRange g fuel r (mkRange (Constant lo) (Constant hi)) = Ok true.
Proof.
  intros Hr Hlo Hhi. destruct (IsWithinRange_eval r Hr) as (l & u & _ & _ & E). rewrite !E. intros [= [El Eu]%andb_true_iff].
  do 2 f_equal. apply andb_true_iff. destruct l, u; try done. cbn in *. rewrite !Z.leb_le in *. lia.
Qed.

Lemma IsWithinRange_constants x y lo hi :
  int64 x -> int64 y -> lo <= x -> y <= hi ->
  Range.IsWithinRange g fuel (mkRange (Constant x) (Constant y)) (mkRange (Constant lo) (Constant hi)) = Ok true.
Proof.
  intros Hx Hy Hlo Hhi. destruct (IsWithinRange_eval (mkRange (Constant x) (Constant y))) as (l & u & El & Eu & ->); [done|].
  assert (exists k, fuel = S k) as [k Ek] by (exists (pred fuel); pose proof (ex_fuel _ _ _ _ Hg 0); lia).
  rewrite Ek in El, Eu. injection El as <-. injection Eu as <-. do 2 f_equal. apply andb_true_iff. cbn. rewrite !Z.leb_le. lia.
Qed.

(** The intersection of constant ranges is within the second, which is around 0. *)
Lemma Intersect_constants a b c d :
  int64 a -> int64 b -> int64 c -> int64 d -> c <= 0 <= d ->
  exists x y, Range.Intersect g fuel (mkRange (Constant a) (Constant b)) (mkRange (Constant c) (Constant d)) = Ok (mkRange (Constant x) (Constant y)) /\
    int64 x /\ int64 y /\ c <= x /\ y <= d.
Proof.
  intros Ha Hb Hc Hd Hcd. assert (exists k, fuel = S k) as [k Ek] by (exists (pred fuel); pose proof (ex_fuel _ _ _ _ Hg 0); lia).
  pose proof smi_bounds as Hs. unfold Range.Intersect. cbn [min_ max_].
  assert (exists x, RangeBoundary.IntersectionMin g fuel (Constant a) (Constant c) = Ok (Constant x) /\ int64 x /\ c <= x) as (x & -> & Hx & Lx).
  { unfold RangeBoundary.IntersectionMin. rewrite !ASSERT_true by done. cbn [RangeBoundary.Equals rbind RangeBoundary.IsMinimumOrBelow RangeBoundary.MinConstantValue].
    destruct (Z.eqb_spec a c) as [->|]; [by exists c|]. destruct (Z.leb_spec a kSmiMin); [by exists c|].
    destruct (Z.leb_spec c kSmiMin); [exists a; split; [done|]; split; [done|lia]|]. cbn [RangeBoundary.CanonicalizeForComparison RangeBoundary.IsSymbol negb orb rbind].
    unfold RangeBoundary.SmiLowerBound, RangeBoundary.LowerBoundOf, RangeBoundary.LowerBound. rewrite Ek.
    cbn [RangeBoundary.LowerBound_loop RangeBoundary.IsInfinity RangeBoundary.IsNegativeInfinity RangeBoundary.IsPositiveInfinity RangeBoundary.IsConstant orb rbind RangeBoundary.Clamp RangeBoundary.MinConstantValue RangeBoundary.MaxConstantValue].
    rewrite (proj2 (Z.leb_gt a _)), (proj2 (Z.leb_gt c kSmiMin)), (proj2 (Z.leb_gt kSmiMax c)) by lia. rewrite ConstantValue_Constant.
    change (RangeBoundary.MaxConstant kRangeBoundarySmi) with (Constant kSmiMax).
    destruct (Z.leb_spec kSmiMax a); rewrite ConstantValue_Constant; cbn [rbind];
      match goal with |- context [if ?t then _ else _] => destruct t eqn:Et end; rewrite ?Z.leb_le, ?Z.leb_gt in Et; eexists; (split; [done|]); split; (done || lia). }
  assert (exists y, RangeBoundary.IntersectionMax g fuel (Constant b) (Constant d) = Ok (Constant y) /\ int64 y /\ y <= d) as (y & -> & Hy & Ly).
  { unfold RangeBoundary.IntersectionMax. rewrite !ASSERT_true by done. cbn [RangeBoundary.Equals rbind RangeBoundary.IsMaximumOrAbove RangeBoundary.MaxConstantValue].
    destruct (Z.eqb_spec b d) as [->|]; [by exists d|]. destruct (Z.leb_spec kSmiMax b); [by exists d|].
    destruct (Z.leb_spec kSmiMax d); [exists b; split; [done|]; split; [done|lia]|]. cbn [RangeBoundary.CanonicalizeForComparison RangeBoundary.IsSymbol negb orb rbind].
    unfold RangeBoundary.SmiUpperBound, RangeBoundary.UpperBoundOf, RangeBoundary.UpperBound. rewrite Ek.
    cbn [RangeBoundary.UpperBound_loop RangeBoundary.IsInfinity RangeBoundary.IsNegativeInfinity RangeBoundary.IsPositiveInfinity RangeBoundary.IsConstant orb rbind RangeBoundary.Clamp RangeBoundary.MinConstantValue RangeBoundary.MaxConstantValue].
    rewrite (proj2 (Z.leb_gt kSmiMax b)), (proj2 (Z.leb_gt d kSmiMin)), (proj2 (Z.leb_gt kSmiMax d)) by lia. rewrite ConstantValue_Constant.
    change (RangeBoundary.MinConstant kRangeBoundarySmi) with (Constant kSmiMin).
    destruct (Z.leb_spec b kSmiMin); rewrite ConstantValue_Constant; cbn [rbind];
      match goal with |- context [if ?t then _ else _] => destruct t eqn:Et end; rewrite ?Z.leb_le, ?Z.leb_gt in Et; eexists; (split; [done|]); split; (done || lia). }
  cbn [rbind]. exists x, y. split; [unfold Range.make; by rewrite ASSERT_true|done].
Qed.

(** The result of an integer conversion of [v] to [rep] is in the range. *)
Definition converts (rep : Representation) (is_truncating : bool) (v : Z) (r : Range) : Prop :=
  forall w, convert rep is_truncating v = Some w -> contains r w.

Lemma converts_full rep tr v lo hi : rep_bounds rep lo hi -> converts rep tr v (mkRange (Constant lo) (Constant hi)).
Proof.
  intros B w. unfold convert. destruct tr; [intros [= <-]; apply (rep_range _ _ _ B)|].
  destruct (Z.eqb_spec (rep_wrap rep v) v) as [E|]; [|done]. intros [= <-]. apply (rep_contains _ _ _ B). done.
Qed.
Lemma converts_same rep tr v r : representable rep v -> contains r v -> converts rep tr v r.
Proof. unfold representable, converts, convert. intros E Hv w. rewrite E. destruct tr; [by intros [= <-]|]. destruct (_ =? _); [by intros [= <-]|done]. Qed.

Lemma Intersect_converts rep v r lo hi :
  rep_bounds rep lo hi -> range_ok r -> contains r v ->
  exists r', Range.Intersect g fuel r (mkRange (Constant lo) (Constant hi)) = Ok r' /\ range_ok r' /\ converts rep false v r'.
Proof.
  intros B Hr Hv. destruct (rep_contains _ _ _ B) as [Hok Hrep].
  destruct (Intersect_sound g ρ rank fuel Hg fuel r _ Hr Hok (bounded_fuel _) (bounded_fuel _)) as (r' & -> & Hr' & _ & Hc).
  exists r'. split; [done|]. split; [done|]. unfold converts, convert. destruct (Z.eqb_spec (rep_wrap rep v) v) as [E|]; [|done].
  intros w [= <-]. apply Hc; [done|]. by apply Hrep.
Qed.

(** The range of the value that is converted, if it is known. *)
Definition value_in (v : Z) (r : option Range) : Prop := match r with None => True | Some r => range_ok r /\ contains r v end.

(** The check of debug builds on the inferred range: it stops the compilation
    unless the range is within the representation. *)
Lemma check_spec rep r lo hi :
  rep_bounds rep lo hi -> range_ok r ->
  exists within, Range.IsWithinRange g fuel r (mkRange (Constant lo) (Constant hi)) = Ok within /\
    ASSERT_VALID_RANGE_FOR_REPRESENTATION g fuel r rep = (if DEBUG && negb within then Err AssertionFailure else Ok tt).
Proof.
  intros B Hr. destruct (IsWithinRange_eval r Hr) as (l & u & _ & _ & E). eexists. split; [apply E|].
  unfold ASSERT_VALID_RANGE_FOR_REPRESENTATION, RangeUtils_IsWithin, ASSERT. cbn [Range.IsUnknown].
  destruct (wf_finite _ _ (proj1 Hr)) as [_ ->]. rewrite (rep_full _ _ _ B). destruct DEBUG; [|done]. cbn [rbind andb]. by rewrite E.
Qed.

(** The outcome of an inference that found [r] for a value of [rep]. *)
Definition inferred (rep : Representation) (r : Range) (within : bool) (result : Res Range) : Prop :=
  (let* full := Range.FullOf rep in Range.IsWithinRange g fuel r full) = Ok within /\
  result = if DEBUG && negb within then Err AssertionFailure else Ok r.

Lemma inferred_spec rep r lo hi :
  rep_bounds rep lo hi -> range_ok r ->
  exists within, inferred rep r within (ASSERT_VALID_RANGE_FOR_REPRESENTATION g fuel r rep ;; Ok r) /\
    Range.IsWithinRange g fuel r (mkRange (Constant lo) (Constant hi)) = Ok within.
Proof.
  intros B Hr. destruct (check_spec rep r lo hi B Hr) as (w & Ew & ->). exists w. split; [|done]. split; [by rewrite (rep_full _ _ _ B)|].
  by destruct (DEBUG && negb w).
Qed.

Lemma InferUnboxInteger_contains rep tr v vr :
  IsUnboxedInteger rep = true -> value_in v vr ->
  exists r within, inferred rep r within (InferUnboxInteger g fuel rep tr vr) /\ range_ok r /\ converts rep tr v r.
Proof.
  intros Hrep Hv. destruct (rep_bounds_exist rep Hrep) as (lo & hi & B). destruct (rep_contains _ _ _ B) as [Hok Hiff].
  assert (forall r, range_ok r -> converts rep tr v r -> exists r' within,
    inferred rep r' within (ASSERT_VALID_RANGE_FOR_REPRESENTATION g fuel r rep ;; Ok r) /\ range_ok r' /\ converts rep tr v r') as Hend.
  { intros r Hr Hc. destruct (inferred_spec rep r lo hi B Hr) as (w & Hw & _). by exists r, w. }
  unfold InferUnboxInteger. rewrite (rep_full _ _ _ B). cbn [rbind]. destruct vr as [r|]; [|by apply Hend; [|apply converts_full]].
  destruct Hv as [Hr Hv]. cbn [Range.IsUnknown]. destruct (wf_finite _ _ (proj1 Hr)) as [_ ->].
  destruct (IsWithinRange_sound r v lo hi Hr Hv) as (w & -> & Hw); [apply (rep_lo _ _ _ B)|apply (rep_hi _ _ _ B)|]. cbn [rbind]. destruct w.
  { apply Hend; [done|]. apply converts_same; [|done]. apply Hiff. by apply Hw. }
  destruct tr; [by apply Hend; [|apply converts_full]|].
  destruct (Intersect_converts rep v r lo hi B Hr Hv) as (r' & -> & Hr' & Hc). cbn [rbind]. by apply Hend.
Qed.

(** Widening conversions represent all values of the source. *)
Lemma widening_representable from to fs ts v :
  IsUnboxedInteger from = true -> IsUnboxedInteger to = true -> ValueSize from = Ok fs -> ValueSize to = Ok ts ->
  (fs <? ts) && (negb (IsUnsigned to) || IsUnsigned from) = true -> representable from v -> representable to v.
Proof.
  unfold representable. intros Hf Ht Ef Et Hw. destruct from, to; try done; injection Ef as <-; injection Et as <-; try done; cbn [rep_wrap];
    rewrite ?wrapU_iff, ?wrapS_iff by lia; cbn; lia.
Qed.

Lemma ValueSize_unboxed rep : IsUnboxedInteger rep = true -> exists s, ValueSize rep = Ok s.
Proof. destruct rep; try done; by eexists. Qed.

Lemma widening_bounds from to fs ts flo fhi lo hi :
  IsUnboxedInteger from = true -> IsUnboxedInteger to = true -> ValueSize from = Ok fs -> ValueSize to = Ok ts ->
  (fs <? ts) && (negb (IsUnsigned to) || IsUnsigned from) = true -> rep_bounds from flo fhi -> rep_bounds to lo hi -> lo <= flo /\ fhi <= hi.
Proof.
  intros Hf Ht Ef Et Hw F B. destruct (rep_lo _ _ _ F), (rep_hi _ _ _ F).
  assert (forall v, flo <= v <= fhi -> lo <= v <= hi) as Hin.
  { intros v Hv. apply (rep_iff _ _ _ B). eapply (widening_representable from to); [done..|]. by apply (rep_iff _ _ _ F). }
  pose proof (Hin flo ltac:(lia)). pose proof (Hin fhi ltac:(lia)). lia.
Qed.

(** The range of the value passed the same check: it is within the source's
    representation; and it has constant bounds or the conversion truncates. *)
Definition checked_value (from : Representation) (tr : bool) (vr : option Range) : Prop :=
  match vr with
  | None => True
  | Some r =>
      (let* full := Range.FullOf from in Range.IsWithinRange g fuel r full) = Ok true /\
      (tr = true \/ exists x y, r = mkRange (Constant x) (Constant y))
  end.

(** C24. Conversions of integer representations. For a value of the source
    representation whose range is unknown or contains it, the range r that
    IntConverterInstr's InferRange arrives at contains the converted value: the
    value itself when the target represents all values of the source or when the
    conversion does not truncate and does not deoptimize, the value modulo the
    width of the target when it truncates.  A release build returns r.  A DEBUG
    build returns r if it is within the range of the target representation and
    otherwise ends in the failure of ASSERT_VALID_RANGE_FOR_REPRESENTATION; the
    check holds when the value's range is unknown, or lies within the source
    representation and has constant bounds or the conversion truncates. (With a
    wider range for a Uint8, such as 0 to 2^40, the conversion to Int32 does
    abort a DEBUG build.) *)
Theorem InferIntConverter_sound from to tr v vr :
  IsUnboxedInteger from = true -> IsUnboxedInteger to = true -> representable from v -> value_in v vr ->
  exists r within, inferred to r within (InferIntConverter g fuel (Some from) to tr vr) /\ range_ok r /\ converts to tr v r /\
    (checked_value from tr vr -> within = true).
Proof.
  intros Hfrom Hto Hv Hvr. destruct (rep_bounds_exist to Hto) as (lo & hi & B). destruct (rep_contains _ _ _ B) as [Hok Hiff].
  destruct (rep_bounds_exist from Hfrom) as (flo & fhi & F).
  destruct (rep_lo _ _ _ B), (rep_hi _ _ _ B), (rep_lo _ _ _ F), (rep_hi _ _ _ F).
  assert (forall r, range_ok r -> converts to tr v r ->
    (checked_value from tr vr -> Range.IsWithinRange g fuel r (mkRange (Constant lo) (Constant hi)) = Ok true) -> exists r' within,
    inferred to r' within (ASSERT_VALID_RANGE_FOR_REPRESENTATION g fuel r to ;; Ok r) /\ range_ok r' /\ converts to tr v r' /\
    (checked_value from tr vr -> within = true)) as Hend.
  { intros r Hr Hc Hw. destruct (inferred_spec to r lo hi B Hr) as (w & Hi & E). exists r, w. split_and!; [done..|].
    intros Hck%Hw. congruence. }
  assert (Range.IsWithinRange g fuel (mkRange (Constant lo) (Constant hi)) (mkRange (Constant lo) (Constant hi)) = Ok true) as Hfull
    by (apply IsWithinRange_constants; done || lia).
  unfold InferIntConverter. rewrite !ASSERT_true by done. rewrite (rep_full _ _ _ B). cbn [rbind].
  destruct vr as [r|]; [|by apply Hend; [|apply converts_full|]].
  destruct Hvr as [Hr Hvr]. cbn [Range.IsUnknown]. destruct (wf_finite _ _ (proj1 Hr)) as [_ ->].
  destruct (ValueSize_unboxed to Hto) as (ts & Ets), (ValueSize_unboxed from Hfrom) as (fs & Efs). rewrite Ets, Efs. cbn [rbind].
  destruct ((fs <? ts) && (negb (IsUnsigned to) || IsUnsigned from)) eqn:Ew.
  { apply Hend; [done|apply converts_same; [|done]; by eapply (widening_representable from to)|]. intros [Hck _].
    rewrite (rep_full _ _ _ F) in Hck. destruct (widening_bounds from to fs ts flo fhi lo hi) as [Hl Hh]; [done..|].
    by apply (IsWithinRange_mono r flo fhi). }
  destruct tr.
  - rewrite (rep_full _ _ _ F). cbn [rbind].
    destruct (Intersect_constants flo fhi lo hi) as (x & y & -> & Hx & Hy & Lx & Ly); [done..|]. cbn [rbind].
    destruct (IsWithinRange_sound r v x y Hr Hvr Hx Hy) as (w & E & Hw). rewrite E. cbn [rbind].
    destruct w; [|by apply Hend; [|apply converts_full|]]. apply Hend; [done| |intros _; by apply (IsWithinRange_mono r x y)].
    apply converts_same; [|done]. apply Hiff. specialize (Hw eq_refl). split; cbn; lia.
  - destruct (Intersect_converts to v r lo hi B Hr Hvr) as (r' & E & Hr' & Hc). rewrite E. cbn [rbind]. apply Hend; [done..|].
    intros [_ [?|(x & y & ->)]]; [done|]. destruct Hr as [Wx Wy].
    destruct (Intersect_constants x y lo hi) as (x' & y' & E' & Hx & Hy & Lx & Ly); [done..|].
    assert (r' = mkRange (Constant x') (Constant y')) as -> by congruence. by apply IsWithinRange_constants.
Qed.

(** ** Widening *)

Lemma Equals_refl b : wf b -> RangeBoundary.Equals g fuel b b = Ok true.
Proof.
  destruct b as [| | |s o|c]; try done; intros _; cbn [RangeBoundary.Equals]; [|by rewrite Z.eqb_refl].
  rewrite Z.eqb_refl. cbn [RangeBoundary.DependOnSameSymbol]. unfold RangeBoundary.AreEqualDefinitions.
  destruct (UnwrapConstraint_spec g ρ rank fuel Hg s) as (u & -> & _). cbn [rbind]. by rewrite Z.eqb_refl.
Qed.

Lemma RangeEquals_spec a b :
  range_ok a -> exists e, Range.Equals g fuel a (Some b) = Ok e /\ (e = true -> forall v, contains a v -> contains b v) /\ (a = b -> e = true).
Proof.
  intros [W1 W2]. unfold Range.Equals. destruct (wf_finite _ _ W1) as [_ ->], (wf_finite _ _ W2) as [_ ->]. rewrite ASSERT_true by done.
  destruct (Equals_spec g ρ rank fuel Hg (min_ a) (min_ b)) as (e & E1 & He). destruct (Equals_spec g ρ rank fuel Hg (max_ a) (max_ b)) as (e' & E2 & He').
  rewrite E1, E2. cbn [rbind]. assert (a = b -> e = true /\ e' = true) as Hrefl.
  { intros <-. rewrite Equals_refl in E1, E2 by done. split; congruence. }
  destruct e; [|exists false; split; [done|]; split; [done|]; intros Eab; by destruct (Hrefl Eab)].
  exists e'. split; [done|]. split; [|intros Eab; by destruct (Hrefl Eab)]. intros -> v [? ?]. specialize (He eq_refl). specialize (He' eq_refl). split; lia.
Qed.

(** How often a range can still be widened: at most four times. *)
Definition room (size : RangeSize) (r : Range) : nat :=
  (widenings size (RangeBoundary.MinConstantValue size) (min_ r) + widenings size (RangeBoundary.MaxConstantValue size) (max_ r))%nat.

(** C23. Widening. A step of the iteration that widens the range of a phi returns;
    the range it leaves contains the values of the size that the old range or the
    newly inferred one contain, also when it leaves the old range in place; and
    each change uses up one of the at most four widenings a range has room for, so
    that the iteration with widening ends. *)
Theorem InferRange_widens d size old new :
  range g d = Some old -> range_ok new -> in_size size (ρ d) ->
  exists changed g' r, InferRange fuel g WIDEN d (Some size) (Some new) = Ok (changed, g') /\ range g' d = Some r /\ range_ok r /\
    (forall v, in_size size v -> contains old v \/ contains new v -> contains r v) /\
    (if changed then (room size r < room size old <= 4)%nat else g' = g).
Proof.
  intros Eo Hn Hin. destruct (ex_range _ _ _ _ Hg d old Eo) as (Hold & Hc & _). unfold InferRange. rewrite Eo. cbn [Range.IsUnknown].
  destruct (wf_finite _ _ (proj1 Hold)) as [_ ->]. destruct (inhabited_bounds ρ size old) as [B1 B2]; [by exists (ρ d)|].
  destruct (WidenMin_widened g ρ rank fuel Hg size old new Hold Hn B1) as (a & -> & Wa & _ & Ca & Pa). cbn [rbind].
  destruct (WidenMax_widened g ρ rank fuel Hg size old new Hold Hn B2) as (b & -> & Wb & _ & Cb & Pb). cbn [rbind].
  rewrite (make_wf ρ a b Wa Wb). cbn [rbind].
  assert (forall v, in_size size v -> contains old v \/ contains new v -> contains (mkRange a b) v) as Hcov.
  { intros v [? ?] Hv. split; cbn; [apply Ca|apply Cb]; try done; (destruct Hv as [[? ?]|[? ?]]; auto). }
  destruct (RangeEquals_spec (mkRange a b) old) as (e & -> & He & Hrefl); [done|]. cbn [rbind]. destruct e.
  { exists false, g, old. split; [done|]. split; [done|]. split; [done|]. split; [|done]. intros v Hv Hor. apply He; auto. }
  eexists true, _, (mkRange a b). split; [done|]. split; [cbn; by rewrite Z.eqb_refl|]. split; [done|]. split; [done|].
  assert (forall e x, (widenings size e x <= 2)%nat) as H2.
  { intros e x. unfold widenings. destruct x as [| | | |c]; try lia. destruct (_ =? _); [lia|]. destruct (_ && _); lia. }
  unfold room. cbn [min_ max_]. split; [|pose proof (H2 (RangeBoundary.MinConstantValue size) (min_ old)); pose proof (H2 (RangeBoundary.MaxConstantValue size) (max_ old)); lia].
  destruct Pa as [->|Pa]; [|destruct Pb as [->|Pb]; lia]. destruct Pb as [->|Pb]; [|lia]. destruct old. by discriminate Hrefl.
Qed.

End Inference.
