(* ===== verification/RuntimeWitnesses.v ===== *)
(** * RuntimeWitnesses: moves, streams, texts and ranges at concrete inputs

    As Witnesses, for the components that do not depend on the instruction
    set.  The target is RV64 in a DEBUG build, and the allocator grants every
    request.  The graph of the range analysis is that of a loop over an array of
    length 10: the length (0), an index (1) below it, the constant 1 (3), the next
    index (2) and the next index after the comparison with the length (4). *)

From stdpp Require Import base numbers list.
From Stdlib Require Import Lia.
From S2P Require Import Prelude Constants AsmBuffer Location LocationSpec ParallelMove ParallelMoveSpec.
From S2P Require Import DataStream DataStreamSpec StreamSpec Unicode UnicodeSpec UnicodeText UnicodeString.

#[local] Open Scope Z_scope.
#[local] Open Scope res_scope.

#[local] Instance wTarget : Target := mkRV64 true.
#[local] Instance wAllocator : Allocator := {| available := fun _ => true; fill := fun k => k |}.

(** ** Moves *)

(** Three registers in a cycle, a fourth that reads from the cycle, and a
    constant into a fifth. *)
Definition wLoc (r : Z) : Z := match Location.RegisterLocation r with Ok l => l | Err _ => 0 end.
Definition wConst : Z := match Location.Constant 4096 0 with Ok l => l | Err _ => 0 end.
Definition wMoves : list MoveOperands :=
  [mkMove (wLoc 10) (wLoc 11); mkMove (wLoc 11) (wLoc 12); mkMove (wLoc 12) (wLoc 10); mkMove (wLoc 13) (wLoc 11);
   mkMove (wLoc 14) wConst].

Lemma wMoves_ok : parallel_move_ok wMoves.
Proof.
  split.
  - assert (Forall (fun m => src_ m <> 0) wMoves) as Hs by (apply (bool_decide_unpack _); vm_compute; reflexivity).
    eapply Forall_impl; [exact Hs|]. intros m Hm E. by destruct Hm.
  - intros i j m m' Hi Hj _ E. apply (NoDup_lookup (dest_ <$> wMoves) i j (dest_ m)).
    + apply (bool_decide_unpack _). vm_compute. reflexivity.
    + by rewrite list_lookup_fmap, Hi.
    + by rewrite list_lookup_fmap, Hj, E.
  - intros m [<-|[<-|[<-|[<-|[<-|[]]]]]]; reflexivity.
Qed.

Lemma Resolve_spec_witness :
  exists ops, Resolve wMoves new_Resolver = Ok (ops, new_Resolver) /\
    forall (V : Type) (ρ : Z -> V), parallel wMoves ρ (run ops ρ).
Proof. exact (Resolve_spec wMoves wMoves_ok). Defined.

(** The resolver breaks the cycle with two swaps. *)
Example Resolve_cycle :
  match Resolve wMoves new_Resolver with
  | Ok (ops, _) => op_kind <$> ops = [kMove; kSwap; kSwap; kMove]
  | Err _ => False
  end.
Proof. vm_compute. reflexivity. Qed.

(** A memory move is pending while register 5 is still to be written. *)
Definition wSchedule : list Op :=
  [mkOp kMove (mkMove (wLoc 20) (wLoc 21)); mkOp kMove (mkMove (wLoc 5) (wLoc 22))].

Lemma AllocateScratchRegister_spec_witness :
  exists reg spilled, AllocateScratchRegister wSchedule 0 Location.kRegister 0xF 0 31 = Ok (reg, spilled).
Proof.
  destruct (AllocateScratchRegister_spec wSchedule 0 (mkOp kMove (mkMove (wLoc 20) (wLoc 21))) Location.kRegister 0xF 0 31)
    as (reg & spilled & E & _); [reflexivity|left; reflexivity|vm_compute; discriminate|vm_compute; reflexivity|vm_compute; discriminate|].
  exists reg, spilled. exact E.
Defined.

Example AllocateScratchRegister_dead :
  AllocateScratchRegister wSchedule 0 Location.kRegister 0xF 0 31 = Ok (5, false).
Proof. vm_compute. reflexivity. Qed.

(** ** Streams *)

Definition wItems : list (codec * Z) :=
  [(CSigned 64, - 2 ^ 63); (CUnsigned false 32, 300); (CSLEB128 true 32, -129); (CLEB128 false 16, 65535); (CRefId, 2 ^ 28 - 1);
   (CRaw true 16, -1); (CWord, 2 ^ 63 + 5)].

Definition wStream : BaseStream := mkBase 8 [1; 2; 3; 4] 3.

Lemma wStream_ok : base_ok wStream.
Proof. split; [split; discriminate|reflexivity|by exists 3|reflexivity]. Qed.

Lemma DataStream_round_trip_witness :
  (exists s' bs, write_items wItems wStream = Ok s' /\ base_ok s' /\ fst (Steal s') = [1; 2; 3] ++ bs) /\
  (exists s' f' bs, write_items wItems (mkStreaming wStream [9]) = Ok s' /\ Flush s' = Ok f' /\ sent f' = [9; 1; 2; 3] ++ bs).
Proof.
  assert (Forall (fun i => codec_domain (fst i) (snd i)) wItems) as Hi.
  { repeat constructor; cbn; unfold inU, inS; cbn; (lia || tauto). }
  destruct (DataStream_round_trip wItems Hi) as [Hm Hs]. split.
  - destruct (Hm wStream wStream_ok) as [[_ [k E]]|(s' & bs & E & Hs' & Ec & _)]; [reflexivity|discriminate E|].
    exists s', bs. split; [exact E|]. split; [exact Hs'|exact Ec].
  - destruct (Hs (mkStreaming wStream [9]) wStream_ok) as [[_ [k E]]|(s' & f & f' & p & p' & bs & E & _ & Ef & Ef' & _ & _ & Ec & _)];
      [reflexivity|discriminate E|].
    exists s', f', bs. split; [exact E|]. split; [exact Ef'|]. vm_compute in Ef. injection Ef as <-. exact Ec.
Defined.

(** ** Texts *)

(** "a", U+00E9, U+20AC, U+1F600 and a byte that starts nothing. *)
Definition wBytes : list Z := [97; 0xC3; 0xA9; 0xE2; 0x82; 0xAC; 0xF0; 0x9F; 0x98; 0x80; 0xFF].

Lemma utf8_decoding_witness :
  exists chs rest, wBytes = utf8 chs ++ rest /\ Utf8.IsValid wBytes = Ok (bool_decide (rest = [])).
Proof.
  destruct (utf8_decoding wBytes) as (chs & rest & _ & E & _ & Hd).
  - repeat constructor; cbn; discriminate || reflexivity.
  - exists chs, rest. split; [exact E|]. destruct (Utf8.CodeUnitCount wBytes) as [len type]. exact (proj1 Hd).
Defined.

Example utf8_decoding_text : Utf8.DecodeToUTF16 (take 10 wBytes) 5 = Ok (true, [97; 0xE9; 0x20AC; 0xD83D; 0xDE00]).
Proof. vm_compute. reflexivity. Qed.

(** A surrogate pair and an unpaired surrogate. *)
Lemma String_round_trip_witness :
  exists bs, Utf8.String_Encode false [97; 0xD83D; 0xDE00; 0xD800] 8 = Ok (bs, 8).
Proof.
  destruct (String_round_trip false [97; 0xD83D; 0xDE00; 0xD800] 8) as (bs & Eb & _ & E & _).
  - repeat constructor; cbn; discriminate || reflexivity.
  - vm_compute. discriminate.
  - exists bs. rewrite E, Eb. reflexivity.
Defined.

(** ** Ranges *)

From S2P Require Import RangeAnalysis RangeSpec RangeTransfer RangeJoin RangeSound RangePhi RangeCheck RangeInfer RangeInferSpec.

#[local] Instance wPointers : PointerMode := {| compressed_pointers := false |}.

Definition wGraph : Graph := mkGraph
  (fun d => if d =? 2 then BinarySmiOpInstr kADD 1 3 else if d =? 3 then ConstantInstr (Some 1) else if d =? 4 then ConstraintInstr 2 else OtherInstr)
  (fun d => if d =? 0 then Some (mkRange (Constant 0) (Constant 1000))
            else if d =? 1 then Some (mkRange (Constant 0) (Symbol 0 (-1)))
            else if d =? 2 then Some (mkRange (Constant 1) (Symbol 0 0))
            else if d =? 4 then Some (mkRange (Constant 1) (Symbol 0 (-1))) else None)
  (fun _ => None) (fun _ _ => false) (fun d => d =? 0).

Definition wVal (d : Z) : Z := if d =? 0 then 10 else if d =? 1 then 3 else if d =? 2 then 4 else if d =? 3 then 1 else if d =? 4 then 4 else 0.
Definition wRank (d : Z) : nat := if d =? 1 then 1 else if d =? 2 then 2 else if d =? 4 then 3 else O.

Lemma wSmi v : -1000 <= v <= 1000 -> smi v.
Proof. unfold smi. change kSmiMin with (- 2 ^ 62). change kSmiMax with (2 ^ 62 - 1). lia. Qed.
Lemma wOffset o : -1000 <= o <= 1000 -> valid_offset o.
Proof. unfold valid_offset, kMinInt64, kMaxInt64. change kSmiMin with (- 2 ^ 62). change kSmiMax with (2 ^ 62 - 1). lia. Qed.
Lemma wInt64 v : -1000 <= v <= 1000 -> int64 v.
Proof. unfold int64, kMinInt64, kMaxInt64. lia. Qed.

Lemma wExecutes : executes wGraph wVal wRank 10.
Proof.
  constructor.
  - intros d r. cbn. unfold wVal, wRank. destruct (Z.eqb_spec d 0) as [->|]; [|destruct (Z.eqb_spec d 1) as [->|]; [|destruct (Z.eqb_spec d 2) as [->|]; [|destruct (Z.eqb_spec d 4) as [->|]; [|done]]]];
      intros [= <-]; (split; [split; cbn; first [by apply wInt64|split; [by apply wSmi|by apply wOffset]]|]); (split; [split; cbn; lia|]); cbn; lia.
  - intros d c. cbn. unfold wVal. destruct (Z.eqb_spec d 2); [done|]. destruct (Z.eqb_spec d 3) as [->|]; [intros [= <-]; split; [done|by apply wSmi]|]. by destruct (d =? 4).
  - intros d v. cbn. unfold wVal, wRank. destruct (Z.eqb_spec d 2); [done|]. destruct (Z.eqb_spec d 3); [done|]. destruct (Z.eqb_spec d 4) as [->|]; [|done].
    intros [= <-]. split; [done|cbn; lia].
  - intros d op l r. cbn. unfold wVal, wRank. destruct (Z.eqb_spec d 2) as [->|]; [|by destruct (d =? 3), (d =? 4)].
    intros [= <- <- <-] _. split; [done|]. split; [by apply wSmi|]. split; [by apply wSmi|]. split; [cbn; lia|]. split; [cbn; lia|done].
  - done.
  - done.
  - intros d. cbn. intros ->%Z.eqb_eq. by apply wSmi.
  - intros d. unfold wRank. do 3 (destruct (_ =? _); [cbn; lia|]). lia.
Qed.

(** ** Bounds checks *)

Lemma IsRedundant_sound_witness :
  exists b g', RangeAnalysis.IsRedundantBasedOnRangeInformation 10 wGraph 4 0 = Ok (b, g') /\ b = true /\ 0 <= wVal 4 < wVal 0.
Proof.
  destruct (IsRedundant_sound wVal wRank 10 wGraph 4 0 wExecutes (wSmi 10 ltac:(lia))) as (b & g' & E & Hb & _).
  exists b, g'. assert (b = true) as -> by (vm_compute in E; by injection E as <- _). split; [exact E|]. split; [done|]. by apply Hb.
Defined.

(** ** Operations *)

Definition wIndex : Range := mkRange (Constant 0) (Symbol 0 (-1)).
Definition wOne : Range := mkRange (Constant 1) (Constant 1).

Lemma wIndex_ok : range_ok wVal wIndex /\ contains wVal wIndex 3 /\ bounded wRank 2 wIndex.
Proof. split; [split; [by apply wInt64|split; [by apply wSmi|by apply wOffset]]|]. split; [split; cbn; lia|split; cbn; lia]. Qed.
Lemma wOne_ok : range_ok wVal wOne /\ contains wVal wOne 1 /\ bounded wRank 2 wOne.
Proof. split; [split; by apply wInt64|]. split; [split; cbn; lia|split; cbn; lia]. Qed.

Lemma BinaryOp_sound_witness :
  exists r, Range.BinaryOp wGraph 10 kADD wIndex wOne (Some 1) = Ok r /\ contains wVal r 4.
Proof.
  destruct (BinaryOp_sound wGraph wVal wRank 10 wExecutes 2 kADD wIndex wOne 3 1 (Some 1)) as (r & E & _ & _ & Hz);
    [apply wIndex_ok|apply wOne_ok|apply wIndex_ok|apply wOne_ok|apply wIndex_ok|apply wOne_ok|split; [done|cbn; lia]|].
  exists r. split; [exact E|]. by apply Hz.
Defined.

Example BinaryOp_symbolic : Range.BinaryOp wGraph 10 kADD wIndex wOne (Some 1) = Ok (mkRange (Constant 1) (Symbol 0 0)).
Proof. reflexivity. Qed.

Lemma InferRangeHelper_sound_witness :
  exists r o, RangeAnalysis.InferRangeHelper wGraph 10 kADD kTagged false true (Some wIndex) (Some wOne) 1 = Ok (Some r, o) /\
    o = false /\ in_size kRangeBoundarySmi 4 /\ contains wVal r 4.
Proof.
  destruct (InferRangeHelper_sound wGraph wVal wRank 10 wExecutes 2 kADD kTagged kRangeBoundarySmi false true 1 3 wIndex wOne) as (r & o & E & _ & Hz);
    [done|apply wIndex_ok|apply wOne_ok|apply wIndex_ok|apply wOne_ok|apply wIndex_ok|apply wOne_ok|cbn; lia|].
  exists r, o. assert (o = false) as -> by (vm_compute in E; by injection E as _ <-).
  destruct (Hz 4 eq_refl) as [H1 H2]. specialize (H1 eq_refl eq_refl). split; [exact E|]. split; [done|]. split; [exact H1|]. by apply H2.
Defined.

(** The next index is compared with the length. *)
Definition wNext : Range := mkRange (Constant 1) (Symbol 0 0).

Lemma Constraint_sound_witness :
  exists c r, RangeAnalysis.ConstraintSmiRange wGraph kLT 0 = Ok c /\ contains wVal c 4 /\
    RangeAnalysis.InferConstraintRange wGraph 10 (Some wNext) c = Ok (Some r) /\ contains wVal r 4.
Proof.
  destruct (Constraint_sound wGraph wVal wRank 10 wExecutes 3 kLT 0 wNext 4) as (c & r & E1 & H1 & E2 & _ & _ & H2);
    [by apply wSmi|by apply wSmi|done|split; [by apply wInt64|split; [by apply wSmi|by apply wOffset]]|split; cbn; lia|split; cbn; lia|cbn; lia|].
  by exists c, r.
Defined.

(** ** Phis *)

(** The index at the head of the loop: the constant 1, or the constrained next
    index, of which only the length dominates the phi. *)
Definition wInputs : list Input :=
  [mkInput 3 (Some wOne) true true; mkInput 4 (Some (mkRange (Constant 1) (Symbol 0 (-1)))) true true].

Lemma wInputs_known : Forall (known wVal kRangeBoundarySmi) wInputs.
Proof.
  constructor; [|constructor; [|constructor]]; (split; [by apply wSmi|]); eexists; (split; [reflexivity|]).
  - split; [apply wOne_ok|split; cbn; lia].
  - split; [split; [by apply wInt64|split; [by apply wSmi|by apply wOffset]]|split; cbn; lia].
Qed.

Lemma InferPhi_sound_witness :
  exists r, InferPhi wGraph 10 (fun d => d =? 0) kRangeBoundarySmi wInputs = Ok (Some r) /\ contains wVal r 1 /\ contains wVal r 4 /\ bounded wRank 1 r.
Proof.
  destruct (InferPhi_sound wGraph wVal wRank 10 wExecutes (fun d => d =? 0) 1 wInputs) as (r & E & _ & Hb & Hc);
    [intros d ->%Z.eqb_eq; cbn; lia|done|exact wInputs_known|].
  exists r. split; [exact E|]. split; [apply (Hc (mkInput 3 (Some wOne) true true)); left|]. split; [|exact Hb].
  apply (Hc (mkInput 4 (Some (mkRange (Constant 1) (Symbol 0 (-1)))) true true)). right. left.
Defined.

(** A loop index that grows: the maximum is a constant that is exceeded. *)
Definition wGrown : Range := mkRange (Constant 0) (Constant 2000).

Lemma InferRange_widens_witness :
  exists g' r, InferRange 10 wGraph WIDEN 0 (Some kRangeBoundarySmi) (Some wGrown) = Ok (true, g') /\ range g' 0 = Some r /\
    contains wVal r 2000 /\ (room kRangeBoundarySmi r < 4)%nat.
Proof.
  destruct (InferRange_widens wGraph wVal wRank 10 wExecutes 0 kRangeBoundarySmi (mkRange (Constant 0) (Constant 1000)) wGrown) as (c & g' & r & E & Er & _ & Hv & Hc);
    [reflexivity|split; [by apply wInt64|cbn; unfold int64, kMinInt64, kMaxInt64; lia]|by apply wSmi|].
  assert (c = true) as -> by (vm_compute in E; by injection E as <- _). exists g', r. split; [exact E|]. split; [exact Er|]. split; [|cbn in Hc; lia].
  apply Hv; [unfold in_size; cbn; change kSmiMin with (- 2 ^ 62); change kSmiMax with (2 ^ 62 - 1); lia|]. right. split; cbn; lia.
Defined.

(** ** Conversions *)

Lemma InferIntConverter_sound_witness :
  exists r, InferIntConverter wGraph 10 (Some kUnboxedInt64) kUnboxedUint8 true (Some (mkRange (Constant 0) (Constant 1000))) = Ok r /\ contains wVal r 244.
Proof.
  destruct (InferIntConverter_sound wGraph wVal wRank 10 wExecutes kUnboxedInt64 kUnboxedUint8 true 500 (Some (mkRange (Constant 0) (Constant 1000)))) as (r & w & [_ E] & _ & Hr & Hw);
    [done|done|by vm_compute|split; [split; by apply wInt64|split; cbn; lia]|].
  rewrite Hw in E by (split; [reflexivity|by left]). exists r. split; [exact E|]. by apply Hr.
Defined.

(** A range that is too wide for its representation stops a debug build. *)
Example InferIntConverter_debug :
  InferIntConverter wGraph 10 (Some kUnboxedUint8) kUnboxedInt32 true (Some (mkRange (Constant 0) (Constant (2 ^ 40)))) = Err AssertionFailure.
Proof. vm_compute. reflexivity. Qed.

(** ** Ends of the Smi range *)

(** A valuation in which definition 7 is the greatest Smi and 6 the least. *)
Definition wEnd (d : Z) : Z := if d =? 7 then kSmiMax else if d =? 6 then kSmiMin else 0.
Definition wEmpty : Graph := mkGraph (fun _ => OtherInstr) (fun _ => None) (fun _ => None) (fun _ _ => false) (fun _ => false).

(** JoinMin compares bounds cut to the size: the minimum S + 1, for S the greatest
    Smi, is taken to be below the greatest Smi, and the minimum returned is not
    below both. *)
Lemma JoinMin_outside :
  RangeBoundary.JoinMin wEmpty 10 (Symbol 7 1) (Constant kSmiMax) kRangeBoundarySmi = Ok (Symbol 7 1) /\
  val wEnd (Symbol 7 1) > kSmiMax.
Proof. split; vm_compute; reflexivity. Qed.

(** The minimum of a phi of 64-bit integers that would refer to a later definition
    is replaced by the least Smi, although the input may be below it. *)
Lemma InferPhi_int64_limit :
  exists r, InferPhi wEmpty 10 (fun _ => false) kRangeBoundaryInt64
              [mkInput 5 (Some (mkRange (Symbol 6 (-1)) (Constant 0))) false true] = Ok (Some r) /\
    contains wEnd (mkRange (Symbol 6 (-1)) (Constant 0)) (kSmiMin - 1) /\ ~ contains wEnd r (kSmiMin - 1).
Proof.
  eexists. split; [reflexivity|]. unfold contains. cbn [val min_ max_]. change (wEnd 6) with kSmiMin. change kSmiMin with (- 2 ^ 62).
  split; [lia|]. cbn. change kSmiMin with (- 2 ^ 62). lia.
Qed.
