(* ===== verification/Witnesses.v ===== *)
(** * Witnesses: the theorems at concrete inputs

    Each lemma applies one theorem to a concrete target, assembler and state,
    so that its hypotheses are seen to hold together.  The target is RV64 in a
    DEBUG build unless said otherwise, with every extension; the host has one
    leaf function, which returns 7. *)

From stdpp Require Import base numbers list gmap.
From Stdlib Require Import Lia.
From S2P Require Import Prelude Constants Encoding CEncoding AsmBuffer MicroAsm AsmBranch SimState.
From S2P Require Import SimInt SimAtomic SimFloat SimCompressed Simulator Isa IntSpec BitSpec.
From S2P Require Import AsmExec AsmFormats AsmCFormats SimInv RefineOp RefineImm RefineMem RefineC.
From S2P Require Import RefineCMem Refinement RefineAtomic RefineFloat.
From S2P Require Import AsmSites AsmLabels AsmLink RefineBranch RefineLabel SimMemSpec SimCalls.
From S2P Require Import ImmRoundTrip HashMap HashMapSpec HashMapOps.
From S2P Require Import ObjectPool PoolTable Assembler AsmSeq MacroSeq MacroImm MacroArith MacroCompare.
From S2P Require Import MacroBranch MacroOverflow MacroStack Hash MacroHash.
From S2P Require Import InstructionPattern InstructionPatternSpec.
From S2P Require Import MacroMem Location ParallelMove ParallelMoveSpec MoveEmit MoveEmitSpec.

#[local] Open Scope Z_scope.
#[local] Open Scope res_scope.

#[local] Instance wTarget : Target := mkRV64 true.
#[local] Instance wNaN : HostNaN := {| host_nan := fun f _ => quiet_NaN f |}.

Definition wRedirection : Redirection := mkRedirection 0x8000 0x1234 kLeafRuntimeCall 1.
#[local] Instance wHost : Host :=
  {| redirections := [wRedirection];
     host_call := fun f args s => Ok (Returned 7 s);
     trace_sim_after := kULLONG_MAX |}.

#[local] Instance wHostOk : HostOk.
Proof. split; cbn; intros; simplify_eq; done. Qed.

(** Every extension, far-branch level 0. *)
Definition wAsm : Asm := mkAsm [] RV_GCB 0.
(** ... with a label bound 16 bytes back, and one a megabyte back. *)
Definition wAsm16 : Asm := mkAsm (replicate 16 0) RV_GCB 0.
Definition wBound : Label := mkLabel 0 (-1) (-1) (-1) (-1) (-1).

(** ** One instruction *)

Lemma rop_refines_witness :
  implements (rop_asm SUB 10 11 12) wAsm (exec_rop SUB 10 11 12).
Proof. apply rop_refines; done. Defined.

Lemma iop_refines_witness :
  implements (iop_asm ADDI 10 10 (-7)) wAsm (exec_iop ADDI 10 10 (-7)).
Proof. apply iop_refines; done. Defined.

Lemma load_refines_witness :
  implements (lop_asm LD 10 (mkAddress 2 8)) wAsm (exec_load LD 10 (mkAddress 2 8)).
Proof. apply load_refines; done. Defined.

Lemma store_refines_witness :
  implements (stop_asm SD 10 (mkAddress 11 (-8))) wAsm (exec_store SD 10 (mkAddress 11 (-8))) /\
  forall len s t, exec_store SD 10 (mkAddress 11 (-8)) len s = Ok t -> xregs_ t = xregs_ s.
Proof.
  destruct (store_refines SD 10 (mkAddress 11 (-8)) wAsm) as [Hi Hm]; [done..|]. split; [exact Hi|].
  intros len s t E. by destruct (Hm len s t E) as (_ & _ & _ & Hx & _).
Defined.

Lemma branch_refines_witness :
  branch_emitted (bop_asm BLT 10 11 wBound kFarJump wAsm16) wBound wAsm16 BLT 10 11.
Proof.
  destruct (branch_refines BLT 10 11 wBound kFarJump wAsm16) as [Hbr _]; try done; [left; done|].
  apply Hbr. left. done.
Defined.

Lemma jal_refines_witness :
  exists bytes, jal 1 wBound kFarJump wAsm16 = Ok (wBound, set_buffer wAsm16 (buffer_ wAsm16 ++ bytes)) /\
    jumps 1 (-16) bytes.
Proof. apply (jal_refines 1 wBound kFarJump wAsm16); try done; [left; done|left; done]. Defined.

Lemma word_refines_witness :
  implements (wop_asm DIVW 10 11 12) wAsm (exec_wop DIVW 10 11 12) /\
  implements (MicroAssembler.addiw 10 10 5) wAsm
    (fun len s => Ok (write 10 (s32 (get_xreg s 10 + 5)) len s)).
Proof.
  destruct (word_refines 10 11 12 5 3 wAsm) as (Hw & _); [done..|].
  destruct (word_refines 10 10 12 5 3 wAsm) as (_ & _ & Hi & _); [done..|].
  split; [exact (Hw DIVW eq_refl)|exact (Hi eq_refl)].
Defined.

Lemma bit_refines_witness :
  implements (sop_asm SRAI 10 11 63) wAsm (exec_sop SRAI 10 11 63) /\
  implements (uop_asm CLZ 10 11) wAsm (exec_uop CLZ 10 11).
Proof. split; by apply (bit_refines 10 11 63 wAsm). Defined.

Lemma upper_jalr_refines_witness :
  implements (MicroAssembler.lui 10 4096) wAsm (exec_lui 10 4096) /\
  implements (MicroAssembler.auipc 10 4096) wAsm (exec_auipc 10 4096) /\
  implements (MicroAssembler.jalr 10 11 0) wAsm (exec_jalr 10 11 0).
Proof. apply upper_jalr_refines; done. Defined.

Lemma amo_refines_witness :
  implements (amo_asm AMOMIN W32 10 11 (mkAddress 12 0) memory_order_acq_rel) wAsm
    (exec_amo AMOMIN W32 10 11 12).
Proof. apply (amo_refines _ _ _ _ _ _ 3); done. Defined.

Lemma lr_sc_refines_witness :
  (load_order_ok memory_order_acquire = true ->
   implements (lr_asm W64 10 (mkAddress 12 0) memory_order_acquire) wAsm (exec_lr W64 10 12)) /\
  implements (sc_asm W64 10 11 (mkAddress 12 0) memory_order_acquire) wAsm (exec_sc W64 10 11 12).
Proof. apply (lr_sc_refines _ _ _ _ _ 2); done. Defined.

Lemma float_memory_refines_witness :
  implements (MicroAssembler.flw 10 (mkAddress 11 4)) wAsm (exec_flw 10 (mkAddress 11 4)) /\
  implements (MicroAssembler.fld 10 (mkAddress 11 4)) wAsm (exec_fld 10 (mkAddress 11 4)) /\
  implements (MicroAssembler.fsw 10 (mkAddress 11 4)) wAsm (exec_fsw 10 (mkAddress 11 4)) /\
  implements (MicroAssembler.fsd 10 (mkAddress 11 4)) wAsm (exec_fsd 10 (mkAddress 11 4)).
Proof. apply float_memory_refines; done. Defined.

Lemma float_refines_witness :
  implements (fsqrt_asm DP 10 11 0) wAsm (exec_fsqrt DP 10 11) /\
  implements (fclass_asm DP 10 11) wAsm (exec_fclass DP 10 11) /\
  implements (fma_asm DP FNMSUB 10 11 12 13 0) wAsm (exec_fma DP FNMSUB 10 11 12 13).
Proof.
  destruct (float_refines DP wAsm 10 11 12 13 0) as (_ & _ & Hq & _ & Hc & Hf); [done..|].
  split; [exact Hq|]. split; [exact Hc|exact (Hf FNMSUB)].
Defined.

Lemma float_convert_refines_witness :
  (fint_width IL ->
   implements (f2i_asm DP IL 10 11 1) wAsm (exec_f2i DP IL 10 11 1) /\
   implements (i2f_asm DP IL 10 11 1) wAsm (exec_i2f DP IL 10 11)) /\
  implements (f2f_asm DP 10 11 1) wAsm (exec_f2f DP 10 11) /\
  (fmv_width DP ->
   implements (fmvx_asm DP 10 11) wAsm (exec_fmvx DP 10 11) /\
   implements (fmvf_asm DP 10 11) wAsm (exec_fmvf DP 10 11)).
Proof. apply float_convert_refines; done. Defined.

(** ** Labels *)

(** A branch to an unbound label at position 0. *)
Definition wSite : site := SiteB BLT 10 11.
Definition wPending : branch_class -> sites := add_site (fun _ => []) 0 wSite.
Definition wLinkedAsm : Asm := set_buffer wAsm (site_bytes wSite 0).

Lemma wLinked : linked (set_unresolved b 0 new_Label) wLinkedAsm wPending.
Proof. apply (linked_add new_Label wAsm (fun _ => []) wSite); [apply linked_new|done..]. Qed.

Lemma Bind_resolves_witness :
  exists l' a', Bind (set_unresolved b 0 new_Label) wLinkedAsm = Ok (l', a') /\
    bound_to (set_unresolved b 0 new_Label) wLinkedAsm wPending l' a'.
Proof.
  apply Bind_resolves; [apply wLinked|done|done|].
  intros []; repeat constructor.
Defined.


Lemma forward_jump_runs_witness :
  exists l1 l2 a3 code,
    jal 1 new_Label kFarJump wAsm = Ok (l1, set_buffer wAsm ([] ++ site_bytes (SiteJ 1) 0)) /\
    Bind l1 (set_buffer wAsm (([] ++ site_bytes (SiteJ 1) 0) ++ replicate 12 0)) = Ok (l2, a3) /\
    position_ l2 = 16 /\ holds (buffer_ a3) 0 code /\ jumps 1 16 code.
Proof.
  destruct (forward_jump_runs new_Label wAsm (fun _ => []) 1 kFarJump (replicate 12 0))
    as (l1 & l2 & a3 & code & E1 & E2 & E3 & E4 & E5); try done;
    [apply linked_new|intros []; repeat constructor|].
  exists l1, l2, a3, code. split_and!; [exact E1|exact E2| |exact E4|].
  - rewrite E3. vm_compute. reflexivity.
  - match type of E5 with jumps _ ?x _ => replace x with 16 in E5 by (vm_compute; reflexivity) end.
    exact E5.
Defined.

(** ** The simulator *)

Fixpoint bytes_at (addr : Z) (bs : list Z) (m : memory) : memory :=
  match bs with [] => m | x :: bs => <[addr := x]> (bytes_at (addr + 1) bs m) end.

(** [addi a0, a0, 1; ret] at 0x10000, the ECALL of the redirection, and 16
    bytes of data at 0x20000. *)
Definition wMem : memory :=
  bytes_at 0x10000 (le_split 4 0x00150513 ++ le_split 4 0x00008067)
    (bytes_at 0x8000 (le_split 4 0x00000073) (bytes_at 0x20000 (replicate 16 0) ∅)).
Definition wSim : Sim :=
  set_pc (new_Simulator 0x40000 0x1000 0x8000 1 wMem) 0x10000.

Lemma wMem_ok : map_Forall (fun _ x => inU 8 x) wMem.
Proof. apply (bool_decide_unpack _). vm_compute. reflexivity. Qed.

Lemma wSim_ok : sim_ok wSim.
Proof. apply ok_set_pc; [apply ok_new_Simulator, wMem_ok|done]. Qed.

Lemma ExecuteOne_preserves_witness :
  exists s', ExecuteOne wSim = Ok s' /\ sim_ok s'.
Proof.
  destruct (ExecuteOne wSim) as [s'|e] eqn:E; [|vm_compute in E; discriminate E].
  exists s'. split; [reflexivity|]. apply (ExecuteOne_preserves wSim s' wSim_ok E).
Defined.

(** Calling the code at 0x10000 with 41 returns 42. *)
Lemma CallX_post_witness :
  exists s', CallX 10 0x10000 41 0 0 0 wSim = Ok (42, s') /\ sim_ok s' /\
    pc_ s' = kEndSimulatingPC /\ 42 = sx (get_xreg s' Reg.A0) /\
    (DEBUG = true -> same_preserved wSim s').
Proof.
  destruct (CallX 10 0x10000 41 0 0 0 wSim) as [[v s']|e] eqn:E; [|vm_compute in E; discriminate E].
  assert (v = 42) as -> by (vm_compute in E; congruence).
  exists s'. split; [reflexivity|].
  apply (CallX_post 10 0x10000 41 0 0 0 wSim 42 s' wSim_ok E).
Defined.

Lemma Call_restores_sp_witness :
  exists s', Call 10 0x10000 41 0 0 0 false false wSim = Ok (42, s') /\ sim_ok s' /\
    get_xreg s' Reg.SP = get_xreg wSim Reg.SP /\ pc_ s' = kEndSimulatingPC /\
    42 = s64 (get_xreg s' Reg.A0).
Proof.
  destruct (Call 10 0x10000 41 0 0 0 false false wSim) as [[v s']|e] eqn:E;
    [|vm_compute in E; discriminate E].
  assert (v = 42) as -> by (vm_compute in E; congruence).
  exists s'. split; [reflexivity|].
  apply (Call_restores_sp 10 0x10000 41 0 0 0 false wSim 42 s' wSim_ok E).
Defined.

(** The ECALL of the redirection, called from 0x10004. *)
Definition wEcall : Sim := set_xreg (set_pc wSim 0x8000) Reg.RA 0x10004.

Lemma ECALL_returns_witness :
  exists s', InterpretECALL 0x73 wEcall = Ok s' /\ pc_ s' = get_xreg wEcall Reg.RA /\
    setjmp_sps_ s' = setjmp_sps_ wEcall /\ mem_ s' = mem_ (push_setjmp_buffer wEcall) /\
    (forall i, 0 <= i < 32 -> reg_in kAbiVolatileCpuRegs i = false ->
       get_xreg s' i = get_xreg (push_setjmp_buffer wEcall) i) /\
    (call_kind_ wRedirection = kLeafRuntimeCall -> get_xreg s' Reg.A0 = ux 7).
Proof.
  apply (ECALL_returns 0x73 wEcall wRedirection (Returned 7 (push_setjmp_buffer wEcall)) 7
           (push_setjmp_buffer wEcall)); try (vm_compute; reflexivity).
  apply ok_set_setjmp_sps, ok_set_xreg; [|done]. by apply ok_set_pc; [apply wSim_ok|].
Defined.

Lemma Redirection_Get_spec_witness :
  let l' := [mkRedirection 0x9000 0x5678 kRuntimeCall 1; wRedirection] in
  let r := mkRedirection 0x9000 0x5678 kRuntimeCall 1 in
  redirections_ok l' /\ [wRedirection] `suffix_of` l' /\ external_function_ r = 0x5678 /\
  FromECallInstruction l' (address_of_ecall_instruction r) = Ok r /\
  FunctionForRedirect l' (address_of_ecall_instruction r) = 0x5678 /\
  (forall fresh' kind' argc', Redirection_Get l' fresh' 0x5678 kind' argc' = (r, l')).
Proof.
  apply (Redirection_Get_spec [wRedirection] 0x9000 0x5678 kRuntimeCall 1).
  - split; apply (bool_decide_unpack _); vm_compute; reflexivity.
  - apply (bool_decide_unpack _). vm_compute. reflexivity.
  - reflexivity.
Defined.

Lemma find_setjmp_buffer_spec_witness :
  exists dropped cur rest,
    [100; 200; 300] = dropped ++ cur :: rest /\ find_setjmp_buffer [100; 200; 300] 250 = cur :: rest /\
    (dropped <> [] -> cur <= 250) /\ Forall (fun link => link <= 250) (tail dropped) /\
    (forall link rest', rest = link :: rest' -> 250 < link).
Proof. apply find_setjmp_buffer_spec. done. Defined.

(** ** Memory, registers, immediates *)

Lemma MemoryWrite_read_witness :
  exists s', MemoryWrite int64_t 0x20000 (-5) 10 wSim = Ok s' /\
    LoadUnaligned int64_t (mem_ s') 0x20000 = Ok (-5) /\
    s' = set_mem wSim (mem_ s') /\ dom (mem_ s') = dom (mem_ wSim) /\
    (forall x, x < 0x20000 \/ 0x20000 + sizeof int64_t <= x -> mem_ s' !! x = mem_ wSim !! x).
Proof.
  destruct (MemoryWrite int64_t 0x20000 (-5) 10 wSim) as [s'|e] eqn:E;
    [|vm_compute in E; discriminate E].
  exists s'. split; [reflexivity|].
  apply (MemoryWrite_read int64_t 0x20000 (-5) 10 wSim s' E).
Defined.

Lemma nan_boxing_witness :
  (inU 32 5 -> get_fregs (set_fregs wSim 3 5) 3 = 5) /\
  (inU 64 5 -> get_fregd (set_fregd wSim 3 5) 3 = 5 /\
     get_fregs (set_fregd wSim 3 5) 3 =
       if 5 / 2 ^ 32 =? 2 ^ 32 - 1 then 5 mod 2 ^ 32 else quiet_NaN F32).
Proof. apply nan_boxing; [apply wSim_ok|done]. Defined.

Lemma Random_NextState_exact_witness :
  Random.NextState (2 ^ 64 - 1) = 0xffffda61 * ((2 ^ 64 - 1) mod 2 ^ 32) + (2 ^ 64 - 1) / 2 ^ 32 /\
  inU 64 (Random.NextState (2 ^ 64 - 1)).
Proof. apply Random_NextState_exact. done. Defined.

Lemma immediate_round_trip_witness :
  (imm_valid ImmCJ (-46) = true -> round_trips ImmCJ (-46)) /\
  (imm_valid ImmCJ (-46) = false -> DEBUG = true -> imm_encode ImmCJ (-46) = Err AssertionFailure).
Proof. apply immediate_round_trip. done. Defined.

(** ** Deviations *)

Lemma rotate_word_undefined_witness :
  SimInt.rorw 1 3 = Err UndefinedBehavior /\ SimInt.rolw 1 3 = Err UndefinedBehavior.
Proof. apply rotate_word_undefined; [reflexivity|discriminate]. Defined.

Lemma lui_zero_illegal_witness :
  exists w, implements (MicroAssembler.lui 10 0) wAsm (fun _ _ => Err (IllegalInstr w)).
Proof. apply lui_zero_illegal; done. Defined.

(** A buffer of [n] bytes. *)
Definition wLongAsm (n : Z) : Asm := mkAsm (replicate (Z.to_nat n) 0) RV_GCB 0.
Lemma wLongAsm_Position n : 0 <= n -> Position (wLongAsm n) = n.
Proof. intros. unfold Position, AsmBuffer.Size, wLongAsm. cbn [buffer_]. rewrite length_replicate. lia. Qed.

(** A label half a megabyte back. *)
Lemma EmitBranch_window_witness :
  EmitBranch 10 11 wBound (bop_code BLT) kFarJump (wLongAsm 524288) = Err AssertionFailure /\
  far_fits (position_ wBound - Position (wLongAsm 524288) - 4) = true.
Proof.
  pose proof (wLongAsm_Position 524288 ltac:(lia)) as EP. revert EP.
  generalize (wLongAsm 524288). intros a EP.
  apply (EmitBranch_window 10 11 wBound BLT kFarJump a);
    [done|done|reflexivity|reflexivity|rewrite EP; reflexivity|rewrite EP; cbn [position_ wBound]; lia].
Defined.

Lemma far_jump_unchecked_witness :
  EmitJump 1 wBound Opcode.JAL kFarJump (wLongAsm 524304)
    = EmitJump Reg.ZR wBound Opcode.JAL kFarJump (wLongAsm 524304) /\
  (forall d, EmitFarJump d (wLongAsm 524304) <> Err BranchDistanceExceeds2GB /\
             EmitFarJump d (wLongAsm 524304) = EmitFarJump (d - 2 ^ 32) (wLongAsm 524304)).
Proof.
  pose proof (wLongAsm_Position 524304 ltac:(lia)) as EP. revert EP.
  generalize (wLongAsm 524304). intros a EP.
  apply (far_jump_unchecked 1 wBound Opcode.JAL kFarJump a); [reflexivity|].
  rewrite EP. reflexivity.
Defined.

(** In a release build. *)
Lemma add_zero_jumps_witness :
  @implements (mkRV64 false) _ _ (@MicroAssembler.add (mkRV64 false) 10 10 Reg.ZR) wAsm
    (@exec_jalr (mkRV64 false) Reg.RA 10 0).
Proof. apply add_zero_jumps; done. Defined.

(** ** The hash map and the object pool over it *)

#[local] Instance wFlags : MapFlags := {| hash_map_probes_limit := 2 ^ 31 - 1 |}.
Lemma wLimit : hash_map_probes_limit = 2 ^ 31 - 1.
Proof. reflexivity. Qed.
#[local] Instance wHashing : ObjectHashing := {| ObjectHash := fun obj => obj |}.
#[local] Instance wIndexTable : IndexTable (Map (Entry * Z)) := hash_IndexTable wLimit.

Definition wEntry : Entry := mkEntry (kImmediate 42) kNotPatchable kSnapshotable.
Definition wWide : Entry := mkEntry (kImmediate128 1 2 3 4) kNotPatchable kSnapshotable.

(** Twenty insertions into a map for 16 pairs, and a removal. *)
Definition wOps : list (map_op Entry (Entry * Z)) :=
  ((fun i => OpInsert (mkEntry (kImmediate (16 * Z.of_nat i)) kNotPatchable kSnapshotable, Z.of_nat i))
     <$> seq 0 20) ++ [OpRemove (mkEntry (kImmediate 32) kNotPatchable kSnapshotable)].

Lemma Map_refines_witness :
  exists m0 m, new_Map 16 = Ok m0 /\ run_ops wOps m0 = Ok m /\ map_ok m.
Proof.
  destruct (Map_refines wLimit wOps 16) as (m0 & m & E0 & E & Hok & _).
  - done.
  - repeat constructor; intros E; discriminate E.
  - done.
  - by exists m0, m.
Defined.

(** The state after these operations. *)
Definition wMap : Map (Entry * Z) :=
  match (let* m := new_Map 16 in run_ops wOps m)%res with Ok m => m | Err _ => mkMap [] [] 0 0 0 0 end.

Lemma wMap_ok : map_ok wMap.
Proof.
  destruct (new_Map_ok wLimit 16) as (m0 & E0 & Hok0 & El0 & Ep0); [done|].
  destruct (run_ops_refines wLimit wOps m0) as (m & E & Hok & _); [done| | |].
  - repeat constructor; intros E; discriminate E.
  - by rewrite El0, Ep0.
  - unfold wMap. rewrite E0. cbn [rbind]. by rewrite E.
Qed.

Lemma Lookup_spec_witness :
  exists r, Lookup wEntry wMap = Ok r /\ match r with Some _ => True | None => absent wEntry (elements wMap) end.
Proof.
  destruct (Lookup_spec wLimit wEntry wMap wMap_ok) as (r & E & Hr). exists r.
  split; [done|]. destruct r; [done|]. apply Hr.
Defined.

Lemma Next_spec_witness : exists r j, Next wMap 2 = Ok (r, j) /\ 0 <= j <= 20.
Proof.
  destruct (Next_spec wMap 2 wMap_ok) as (_ & r & j & E & Hj & _).
  - vm_compute. split; discriminate.
  - exists r, j. split; [done|]. exact Hj.
Defined.

(** A global pool with one entry, and an empty pool on top of it. *)
Definition wBuild (r : Res (Z * Builder (Map (Entry * Z)))) : Builder (Map (Entry * Z)) :=
  match r with Ok (_, bd) => bd | Err _ => mkBuilder 0 [] [] (mkMap [] [] 0 0 0 0) end.
Definition wPool : Builder (Map (Entry * Z)) :=
  wBuild (let* bd := new_Builder None in AddSlot wEntry bd)%res.
Definition wChild : Builder (Map (Entry * Z)) :=
  wBuild (let* bd := new_Builder (Some wPool) in AddSlot wEntry bd)%res.

(** One entry on top of a new builder. *)
Lemma wBuild_ok parent :
  pool_ok (wBuild (let* bd := new_Builder parent in AddSlot wEntry bd)%res).
Proof.
  destruct (pool_ok_new parent) as (bd & -> & Hok & Ep & _ & Es & _). cbn [rbind].
  destruct (AddSlot_ok 5 wEntry bd eq_refl Hok) as (b' & -> & Ha & _); [|apply Ha].
  destruct Hok as [Ht _ _ _]. assert (Z.of_nat (length (elements (object_pool_index_table_ bd))) < 16).
  { cbn in Ht, Es. destruct Ht as [Hwf Hroom]. pose proof (wf_next _ Hwf). rewrite Es in *.
    unfold elements.
    pose proof (length_filter is_live
      (take (Z.to_nat (next_pair_index_ (object_pool_index_table_ bd))) (pairs_ (object_pool_index_table_ bd)))).
    rewrite length_take in *. lia. }
  unfold room. cbn [table_size table_pairs wIndexTable hash_IndexTable] in *. lia.
Qed.

Lemma FindObject_spec_witness :
  exists idx b', FindObject (Some wPool) wWide wChild = Ok (idx, b') /\
    exists b'', FindObject (Some wPool) wWide b' = Ok (idx, b'').
Proof.
  destruct (FindObject_spec (Some wPool) wWide wChild)
    as (idx & b' & E & _ & _ & _ & Hr).
  - apply wBuild_ok.
  - vm_compute. discriminate.
  - intros p E. apply (inj Some) in E. rewrite <- E. apply wBuild_ok.
  - done.
  - exists idx, b'. split; [exact E|]. destruct Hr as (b'' & E' & _); [done|]. by exists b''.
Defined.

Lemma TryCommitToParent_spec_witness :
  exists p', TryCommitToParent wChild wPool = Ok (true, p') /\ resolves p' 1 wEntry.
Proof.
  destruct (TryCommitToParent_spec wChild wPool) as (p' & E & _ & _ & _ & Hr).
  - apply wBuild_ok.
  - apply wBuild_ok.
  - done.
  - vm_compute. discriminate.
  - exists p'. split; [exact E|]. apply Hr; [vm_compute; reflexivity|]. exists [], []. split; vm_compute; reflexivity.
Defined.

Lemma immediate128_lanes_witness :
  split_words (kImmediate128 (-1) 5 3 4) = Some [2 ^ 64 - 1; 3 + 2 ^ 34].
Proof. rewrite immediate128_lanes; done. Defined.

(** ** The macro assembler *)

Definition wMacro : MacroAsm (Map (Entry * Z)) :=
  mkMacro wAsm16 wChild (Some wPool) false kNone Reg.kNoRegister Reg.kNoRegister 0.
(** A constant that takes all eight instructions. *)
Definition wConstant : Z := 0x123456789ABCDEF1.

Lemma wWord : XLEN <= kBitsPerWord.
Proof. done. Qed.

Lemma wNear : label_near wBound (asm_ wMacro).
Proof. done. Qed.

Lemma LoadImmediate_spec_witness :
  computes (LoadImmediate 10 wConstant) wMacro 10 (fun _ => wConstant) [] 8.
Proof. by apply (LoadImmediate_spec wWord). Defined.

Lemma ImmediateOp_spec_witness :
  computes (immop_asm AndImm 10 11 wConstant) wMacro 10 (fun R => Z.land (R 11) wConstant) [TMP2] 9.
Proof. by apply (ImmediateOp_spec wWord AndImm). Defined.

Lemma SetIf_spec_witness :
  exists bytes n m',
    (compare_code (CompareI 11 wConstant) >> SetIf LT 10)%code wMacro = Ok m' /\
    consumed (append wMacro bytes) m' /\ (n <= 10)%nat /\
    bytes_compute bytes n 10 (fun R => Z.b2z (sx (R 11) <? sx (ux wConstant))) [TMP2].
Proof.
  apply (SetIf_spec wWord (CompareI 11 wConstant) LT); try done.
  repeat split; (done || (intros [E _]; discriminate E)).
Defined.

Lemma BranchIf_spec_witness :
  exists bytes m',
    (compare_code (TestI 11 wConstant) >> BranchIf NE wBound kFarJump)%code wMacro = Ok (wBound, m') /\
    consumed (append wMacro bytes) m' /\
    bytes_branch bytes (-16) (fun R => negb (Z.land (R 11) (ux wConstant) =? 0)) [] [TMP2].
Proof. by apply (BranchIf_spec wWord (TestI 11 wConstant) NE wBound wMacro). Defined.

Lemma overflow_spec_witness :
  exists bytes, overflow_asm (MulImmOv wConstant) 10 11 wBound wMacro = Ok (wBound, append wMacro bytes) /\
    bytes_branch bytes (-16) (fun R => overflows (sx (R 11) * wConstant))
      [(10, fun R => sx (R 11) * wConstant)] [TMP; TMP2].
Proof. by apply (overflow_spec wWord (MulImmOv wConstant) 10 11 wBound wMacro). Defined.

Lemma SubtractBranchOverflow_aliased_witness :
  exists bytes, SubtractBranchOverflow 10 10 11 wBound wMacro = Ok (wBound, append wMacro bytes).
Proof.
  destruct (SubtractBranchOverflow_aliased 10 11 wBound wMacro) as (bytes & E & _); [done..|]. by exists bytes.
Defined.

Lemma hash_macros_spec_witness :
  computes (CombineHashes 10 11) wMacro 10
    (fun R => s32 (Hash.CombineHashes (u32 (R 10)) (u32 (R 11)))) [11] 5 /\
  computes (FinalizeHashForSize 30 10 11) wMacro 10
    (fun R => s32 (Hash.FinalizeHash (u32 (R 10)) 30)) [11; TMP2] 17.
Proof. by apply (hash_macros_spec wMacro 10 11 30). Defined.

(** Two CPU registers and one FPU register. *)
Lemma PushPopRegisters_spec_witness :
  exists push pop,
    PushRegisters (RegList [Reg.A0; Reg.S2]) (RegList [FReg.FA0]) wMacro = Ok (append wMacro push) /\
    PopRegisters (RegList [Reg.A0; Reg.S2]) (RegList [FReg.FA0]) (at_buffer wMacro [1; 0]) =
      Ok (append (at_buffer wMacro [1; 0]) pop).
Proof.
  destruct (PushPopRegisters_spec (RegList [Reg.A0; Reg.S2]) (RegList [FReg.FA0]) wMacro [1; 0])
    as (push & pop & E1 & E2 & _); [reflexivity..|]. exists push, pop. split; [exact E1|exact E2].
Defined.

(** ** Call sites *)

Definition wEmptyPool : Builder (Map (Entry * Z)) := mkBuilder 0 [] [] (object_pool_index_table_ wPool).
Definition wMacroPool : MacroAsm (Map (Entry * Z)) :=
  mkMacro (mkAsm [] RV_GC 0) wEmptyPool None true kNone Reg.kNoRegister Reg.kNoRegister 0.

(** Code at 0x1002, after a compressed nop. *)
Definition wImage (bytes : list Z) : memory := bytes_at 0x1000 ([1; 0] ++ bytes) ∅.

Lemma bytes_at_code addr bytes M : code_at (bytes_at addr bytes M) addr bytes.
Proof.
  revert addr. induction bytes as [|b bytes IH]; intros addr; [by intros i c Hi|].
  apply code_at_cons. split; [apply lookup_insert_eq|]. intros i c Hi.
  cbn. rewrite lookup_insert_ne by lia. by apply IH.
Qed.

Lemma wImage_code bytes : code_at (wImage bytes) 0x1002 bytes /\ parcel_before (wImage bytes) 0x1002.
Proof.
  destruct (proj1 (code_at_app (wImage bytes) 0x1000 [1; 0] bytes) (bytes_at_code _ _ _)) as [Hn Hc].
  split; [exact Hc|]. split; [done|]. exists 1. split_and!; [done|done|exact Hn].
Qed.

(** An entry beyond the reach of one load. *)
Lemma LoadWordFromPoolIndex_decodes_witness :
  exists bytes, LoadWordFromPoolIndex CODE_REG 1000 PP wMacroPool = Ok (append wMacroPool bytes) /\
    DecodeLoadWordFromPool (wImage bytes) (0x1002 + Z.of_nat (length bytes)) = Ok (mkPoolLoad 0x1002 CODE_REG 1000).
Proof.
  destruct (LoadWordFromPoolIndex_decodes CODE_REG 1000 wMacroPool) as (bytes & n & E & _ & Hd).
  1-4: done.
  - rewrite !not_elem_of_cons. split_and!; try discriminate. apply not_elem_of_nil.
  - split; [discriminate|reflexivity].
  - exists bytes. split; [exact E|]. pose proof E as E'. vm_compute in E'. injection E' as E'.
    apply Hd; [discriminate|rewrite <- E'; reflexivity|apply wImage_code..].
Defined.

(** The pool of the call, and one more object. *)
Definition wCallPool : Builder (Map (Entry * Z)) :=
  mkBuilder 0 [] [unique_entry 21 kSnapshotable; unique_entry 33 kSnapshotable; unique_entry 45 kSnapshotable]
    (object_pool_index_table_ wPool).
Definition wPtr (o : Z) : Z := 16 * o + 1.
Definition wCallCode (bytes : list Z) : CodeObject :=
  mkCodeObject 0x1000 (2 + Z.of_nat (length bytes))
    (match NewFromBuilder wPtr [] wCallPool with Ok p => p | Err _ => mkPool [] [] end).

Lemma InstanceCall_patching_witness :
  exists bytes m', EmitInstanceCallJIT_call 33 21 kNormal wMacroPool = Ok m' /\
    let mem := wImage bytes in let pc := 0x1002 + Z.of_nat (length bytes) in
    GetInstanceCallAt false mem pc (wCallCode bytes) = Ok (529, 337) /\
    exists code', PatchInstanceCallAt false (fun _ => true) mem pc (wCallCode bytes) 97 65 = Ok code' /\
      GetInstanceCallAt false mem pc code' = Ok (65, 97).
Proof.
  destruct (InstanceCall_patching 33 21 kNormal wMacroPool) as (bytes & E & Hp).
  1-4: done.
  - split; [discriminate|reflexivity].
  - exists bytes. eexists. split; [exact E|]. pose proof E as E'. vm_compute in E'. injection E' as E'. cbv zeta.
    apply (Hp (wImage bytes) 0x1002 (wCallCode bytes) wPtr wCallPool (fun _ => true) 65 97).
    + discriminate.
    + rewrite <- E'. reflexivity.
    + apply wImage_code.
    + apply wImage_code.
    + rewrite <- E'. reflexivity.
    + split; [reflexivity|]. exists [unique_entry 45 kSnapshotable]. reflexivity.
    + reflexivity.
    + reflexivity.
Defined.

(** In precompiled mode the target is an address of the pool. *)
Definition wSwitchPool : HeapPool := mkPool [0x4000; 337] [EntryImmediate; EntryTaggedObject].

Lemma SwitchableCall_patching_witness :
  exists bytes m', EmitInstanceCallAOT_call 33 21 wMacroPool = Ok m' /\
    let mem := wImage bytes in let pc := 0x1002 + Z.of_nat (length bytes) in
    exists pool', PatchSwitchableCallAt true (fun _ => false) wPtr mem pc wSwitchPool 97 5 = Ok pool' /\
      GetSwitchableCallTargetEntryAt true mem pc pool' = Ok 81 /\
      GetSwitchableCallDataAt true mem pc pool' = Ok 97.
Proof.
  destruct (SwitchableCall_patching 33 21 wMacroPool) as (bytes & E & Hp).
  1-3: done.
  - discriminate.
  - split; [discriminate|reflexivity].
  - exists bytes. eexists. split; [exact E|]. pose proof E as E'. vm_compute in E'. injection E' as E'. cbv zeta.
    apply (Hp (wImage bytes) 0x1002 wSwitchPool 0x4000 337 (fun _ => false) wPtr 97 5).
    + discriminate.
    + rewrite <- E'. reflexivity.
    + apply wImage_code.
    + apply wImage_code.
    + split_and!; [discriminate|reflexivity|reflexivity].
    + split_and!; [discriminate|reflexivity|reflexivity].
    + reflexivity.
Defined.

(** A call 4096 bytes further. *)
Lemma PcRelativeCall_relocates_witness :
  exists bytes, GenerateUnRelocatedPcRelativeCall 0 wMacroPool = Ok (append wMacroPool bytes) /\
    PcRelativeCall_IsValid (wImage bytes) 0x1002 = Ok true /\
    exists mem', set_distance 0x1000 (wImage bytes) 0x1002 = Ok mem' /\ distance mem' 0x1002 = Ok 0x1000.
Proof.
  destruct (PcRelativeCall_relocates false 0 0x1000 wMacroPool) as (bytes & E & _ & Hr).
  - reflexivity.
  - split; [split; [discriminate|reflexivity]|right; reflexivity].
  - exists bytes. split; [exact E|]. destruct (Hr (wImage bytes) 0x1002) as (Hv & mem' & Es & Ed & _).
    + apply wImage_code.
    + discriminate.
    + discriminate.
    + split; [exact Hv|]. exists mem'. split; [exact Es|exact Ed].
Defined.

(** The largest distance of the range. *)
Lemma PcRelativeCall_overshoots_witness :
  exists mem', set_distance kUpperCallingRange (wImage (pair_bytes Reg.RA Reg.RA 0)) 0x1002 = Ok mem' /\
    distance mem' 0x1002 = Ok kUpperCallingRange.
Proof.
  destruct (PcRelativeCall_overshoots false kUpperCallingRange (wImage (pair_bytes Reg.RA Reg.RA 0)) 0x1002 wSim 0)
    as (mem' & E & Ed & _).
  - reflexivity.
  - split; discriminate.
  - apply wImage_code.
  - discriminate.
  - discriminate.
  - exists mem'. split; [exact E|exact Ed].
Defined.

(** The second half of addi a0, t1, 0x300 before a compressed load is taken
    for the first half of a 32-bit load. *)
Lemma DecodeLoadX_ambiguous :
  exists bytes load, emitted (MicroAssembler.addi Reg.A0 Reg.T1 0x300) wAsm bytes /\
    emitted (MicroAssembler.lx CODE_REG (mkAddress PP 16)) wAsm load /\
    DecodeLoadX (wImage load) (0x1002 + Z.of_nat (length load)) = Ok (Some (mkLoadX CODE_REG PP 16 2)) /\
    DecodeLoadX (wImage (bytes ++ load)) (0x1002 + Z.of_nat (length (bytes ++ load))) =
      Ok (Some (mkLoadX Reg.ZR Reg.ZR 1721 4)).
Proof.
  eexists _, _. split; [vm_compute; reflexivity|]. split; [vm_compute; reflexivity|].
  split; vm_compute; reflexivity.
Qed.

(** ** A parallel move in a release build *)

Module Release.
#[local] Instance rTarget : Target := mkRV64 false.

(** Four words of frame below FP, four above. *)
Definition rCompiler : FlowGraphCompiler := mkCompiler 4 (-1) false.
Definition rLoc (l : Res Z) : Z := match l with Ok l => l | Err _ => 0 end.
Definition rReg (r : Z) : Z := rLoc (Location.RegisterLocation r).
Definition rSlot (i : Z) : Z := rLoc (Location.StackSlot i Reg.FP).

(** Two registers are exchanged, two slots are, and a chain goes from a slot
    above FP over a register to a slot. *)
Definition rMoves : list MoveOperands :=
  [mkMove (rReg Reg.A0) (rReg Reg.A1); mkMove (rReg Reg.A1) (rReg Reg.A0);
   mkMove (rSlot (-4)) (rSlot (-3)); mkMove (rSlot (-3)) (rSlot (-4));
   mkMove (rSlot (-2)) (rReg Reg.T0); mkMove (rReg Reg.T0) (rSlot 2)].

Definition rMacro : MacroAsm (Map (Entry * Z)) :=
  mkMacro (mkAsm [] RV_GC 0) wEmptyPool None false kNone Reg.kNoRegister Reg.kNoRegister 0.
Definition rComponent (l i : Z) : Res Z := Err Unreachable.
Definition rConstant (instruction destination tmp pair_index : Z) (m : MacroAsm (Map (Entry * Z))) : Res (MacroAsm (Map (Entry * Z))) :=
  Err Unreachable.

Definition rSchedule : list Op := match Resolve rMoves new_Resolver with Ok (ops, _) => ops | Err _ => [] end.
Definition rCode : list Z :=
  match EmitNativeCode rComponent rConstant rCompiler rSchedule rMacro with Ok m => buffer_ (asm_ m) | Err _ => [] end.

(** The code at 0x1000; SP is 0x2000 and FP 0x2020. *)
Definition rMem : memory := bytes_at 0x1000 rCode (bytes_at 0x1FF0 (replicate 80 7) ∅).
Definition rSim : Sim :=
  set_xreg (set_xreg (set_pc (new_Simulator 0x40000 0x1000 0x8000 1 rMem) 0x1000) Reg.SP 0x2000) Reg.FP 0x2020.

Lemma rMoves_ok : parallel_move_ok rMoves.
Proof.
  split.
  - assert (Forall (fun m => src_ m <> 0) rMoves) as Hs by (apply (bool_decide_unpack _); vm_compute; reflexivity).
    eapply Forall_impl; [exact Hs|]. intros m Hm E. by destruct Hm.
  - intros i j m m' Hi Hj _ E. apply (NoDup_lookup (dest_ <$> rMoves) i j (dest_ m)).
    + apply (bool_decide_unpack _). vm_compute. reflexivity.
    + by rewrite list_lookup_fmap, Hi.
    + by rewrite list_lookup_fmap, Hj, E.
  - intros m Hm. assert (Forall (fun m => Location.IsConstant (dest_ m) = false) rMoves) as Hd.
    { apply (bool_decide_unpack _). vm_compute. reflexivity. }
    rewrite Forall_forall in Hd. by apply Hd, list_elem_of_In.
Qed.

Lemma rMoves_words mv :
  In mv rMoves -> src_ mv <> 0 -> dest_ mv <> 0 -> word_location (-4) 8 (src_ mv) /\ word_location (-4) 8 (dest_ mv).
Proof.
  intros Hin _ _. assert (Forall (fun mv => word_location (-4) 8 (src_ mv) /\ word_location (-4) 8 (dest_ mv)) rMoves) as Hw.
  { repeat constructor; by eexists. }
  rewrite Forall_forall in Hw. by apply Hw, list_elem_of_In.
Qed.

Lemma rSim_ok : sim_ok rSim.
Proof.
  unfold rSim. apply ok_set_xreg; [|done]. apply ok_set_xreg; [|done]. apply ok_set_pc; [|done]. apply ok_new_Simulator.
  apply (bool_decide_unpack _). vm_compute. reflexivity.
Qed.

Lemma rSim_runnable : runnable rCode rSim.
Proof.
  split; [apply rSim_ok|done|vm_compute; discriminate|]. apply bytes_at_code.
Qed.

Lemma rSim_area : area (-4) 8 0 (pc_ rSim) (Z.of_nat (length rCode)) (machine rSim).
Proof.
  split.
  - vm_compute. reflexivity.
  - vm_compute. discriminate.
  - vm_compute. reflexivity.
  - intros x Hx. assert (Forall (fun x => is_Some (rMem !! x)) (seqZ 0x1FF0 80)) as Hall.
    { apply (bool_decide_unpack _). vm_compute. reflexivity. }
    rewrite Forall_forall in Hall. apply Hall, elem_of_seqZ. change (0x1FF0 <= x < 0x1FF0 + 80) in Hx. lia.
  - right. vm_compute. discriminate.
  - intros r Hr _. apply get_xreg_ok; [apply rSim_ok|done].
Qed.

Lemma ParallelMove_executes_witness :
  exists n t, steps rSim n t /\ pc_ t = 0x1000 + Z.of_nat (length rCode) /\
    parallel rMoves (val (-4) 8 (machine rSim)) (val (-4) 8 (machine t)).
Proof.
  destruct (ParallelMove_executes rComponent rConstant rCompiler 8 rMoves rMacro) as (schedule & bytes & E1 & E2 & Hx).
  - reflexivity.
  - reflexivity.
  - split; discriminate.
  - split; discriminate.
  - exact rMoves_ok.
  - exact rMoves_words.
  - assert (schedule = rSchedule) as Es by (unfold rSchedule; rewrite E1; reflexivity).
    assert (bytes = rCode) as Eb by (unfold rCode; rewrite <- Es, E2; reflexivity).
    rewrite Eb in Hx. destruct (Hx rSim rSim_runnable rSim_area) as (n & t & Hst & Hpc & Hp & _).
    exists n, t. split; [exact Hst|]. split; [exact Hpc|exact Hp].
Defined.

(** No register is dead where the slots are exchanged, so that registers are saved. *)
Example rSchedule_kinds :
  op_kind <$> rSchedule = [kSwap; kSwap; kMove; kMove] /\
  AllocateScratchRegister rSchedule 1 Location.kRegister (temporary_mask rCompiler Reg.kNoRegister) 0 31 = Ok (Reg.T0, true) /\
  AllocateScratchRegister rSchedule 1 Location.kRegister (temporary_mask rCompiler Reg.T0) 0 31 = Ok (Reg.T1, true).
Proof. vm_compute. split_and!; reflexivity. Qed.

End Release.
